(* ===== verification/_CoqProject ===== *)
-Q . S2P
Prelude.v
Types.v
Heap.v
SliceIO.v
Scanner.v
SortIO.v
Codec.v
Spiller.v
Retry.v
Reduce.v
Frame.v
Zero.v
Builtins.v
Task.v
Eval.v
EvalRun.v
Combiner.v
Slices.v
Readers.v
Cogroup.v
Topn.v
Stats.v
WorkerStats.v
Command.v
Tracer.v
TracerSpec.v
SliceTrace.v
SliceTraceSpec.v
Metrics.v
SliceStatus.v
SliceMonitor.v
TaskGraph.v
Func.v
FuncDiff.v
Scan.v
TarSlice.v
Cache.v
Compile.v
CompileSpec.v
CompileGraph.v
Store.v
Local.v
Session.v
LocalSpec.v
LocalRun.v
SessionRun.v
LocalCombiner.v
WorkerOut.v
WorkerCodec.v
WorkerCombine.v
WorkerCombineSpec.v
WorkerCombiner.v
Worker.v
WorkerSpec.v
WorkerRun.v
Machines.v
MachinesSpec.v
MachinesRun.v
MachineLife.v
Driver.v
Cluster.v
ClusterSpec.v
ClusterRun.v
ToyCodec.v
TraceExamples.v
BuiltinExamples.v
CogroupExamples.v
MachineExamples.v
SliceExamples.v
FuncExamples.v
SessionExamples.v
LocalExamples.v
WorkerExamples.v
ClusterExamples.v
Examples.v
SliceTest.v
