(* ===== verification/Prelude.v ===== *)
(** * Bigslice: a verification of its data model, compiler and executors

    Bigslice is a Go library for distributed data processing.  A program builds a
    [Slice], a tree of operators over sharded rows (map, filter, fold, reduce,
    cogroup, ...).  A session compiles the slice to a graph of tasks, in which
    operators that need no shuffle are pipelined into one task per shard; an
    evaluator schedules the tasks on an executor, either in process or on a
    cluster of worker machines; tasks read the output of the tasks they depend on
    as streams of frames (columns of rows), which are encoded, combined, sorted,
    merged and spilled to disk on the way; results are read back in the driver.

    ** Conventions

    The development is a shallow embedding: each Go function is a Rocq function
    of the same name, and each struct a record.  A call returns an [outcome]:
    [Ret], [Panic] with its message, or [NoFuel].  Errors that the code returns
    are values of type [option error] or sums.  Machine integers are [Z], with
    wrap-around ([wrap64]) where values are not bounded by lengths.  Memory that
    is shared through pointers (arrays of frames, tasks, machines, counters) is an
    explicit store indexed by addresses.  Concurrency is interleaving: each
    section that the code runs under a lock, and each communication it chooses, is
    one function, and the theorems quantify over their order.

    Loops whose number of iterations the code does not bound take fuel.  No
    theorem is conditional on the fuel being enough: [e ⇓ a] and the equivalent
    [∃ f0, ∀ f, f0 ≤ f → e f = Ret a] say that from some fuel on the code returns
    [a].  Loops that a length or a rank bounds are structural, or get that bound
    as fuel (for example [FuncLocationsDiff], [All], [gather]), and are shown to
    return.

    Third-party code and services are parameters: gob, crc32 and registered column
    codecs ([Codec]), files (Spiller.v, Store.v, Cache.v), [sort.Sort], hash
    functions, user functions, bigmachine's remote calls.  What is relied on is
    stated as hypotheses or as the laws of a class; every claim with hypotheses has
    an instance, in the Examples files, where the parameters are concrete.

    ** Parts and files

    - Prelude.v: outcomes, results given enough fuel, errors, machine integers,
      decimal printing, swaps and pairwise relations on lists.
    - Types.v (src/slicetype, src/typecheck, src/slicefunc): dynamic types of
      columns and functions, assignability, and the check that a user function can
      be applied to rows of a type.
    - Heap.v: Go's container/heap over an interface with laws; the clients are the
      merges, the machine manager and Topn.v (src/exec/topn.go).
    - SliceIO.v, Scanner.v (src/sliceio/reader.go, scanner.go): readers and the
      contract of a stream, [Streams_as], which says what a reader delivers
      whatever the lengths of the frames it is read with.
    - SortIO.v, Reduce.v (src/sortio): merging and reducing sorted streams.
    - Codec.v, Spiller.v (src/sliceio/codec.go, spiller.go, src/sortio/sort.go):
      the batch codec with checksums, spilling, and the external sort.
    - Frame.v (src/frame/frame.go, ops.go): frames as views of shared arrays.
      Builtins.v (src/frame/ops_builtin.go): comparing and hashing builtin types.
      Zero.v (src/internal/zero): zeroing memory by type.
    - Task.v, Eval.v, EvalRun.v (src/exec/task.go, eval.go): tasks, waiting and
      subscription, the evaluator as a step relation, and its runs with an executor.
      TaskGraph.v (src/exec/graph.go): the graphs and listings that are shown.
    - Combiner.v (src/exec/combiner.go): the combining hash table and the combiner
      that spills it.
    - Slices.v, Readers.v, Cogroup.v (src/slice.go, accum.go, reduce.go,
      cogroup.go, reshuffle.go, reshard.go): the operators, their checks, their
      readers, and the relation [computes] that gives their meaning.
    - Scan.v, TarSlice.v, Cache.v (src/scan.go, src/archive/tarslice, src/cache.go,
      src/internal/slicecache): files of lines, tar archives and cached slices.
    - Func.v, FuncDiff.v (src/func.go): the registry of functions, invocations, and
      the comparison of the registries of driver and worker.
    - Compile.v, CompileSpec.v, CompileGraph.v (src/exec/compile.go): the compiler as
      a state and error monad, the relation it establishes, and the consequences
      for the evaluator and for what tasks compute.
    - Store.v (src/exec/store.go): the store of task output as a class with laws,
      and its two implementations.
    - Local.v, LocalSpec.v, LocalRun.v, LocalCombiner.v (src/exec/local.go,
      buffer.go): the local executor, against the interface [CombinerOps] that
      Combiner.v implements, and its correctness with respect to a reference
      semantics of slices.
    - Metrics.v, Stats.v (src/metrics, src/stats): counters and scopes.
    - SliceStatus.v, SliceMonitor.v (src/exec/slicestatus.go): the traversal of task
      graphs, and the monitor that counts the tasks of slices by state.
    - Session.v, SessionRun.v, Command.v (src/exec/session.go, command.go): sessions,
      results and their scopes, and a run from the invocation of a func to the
      rows that are scanned.
    - Machines.v, MachinesSpec.v, MachinesRun.v, MachineLife.v
      (src/exec/slicemachine.go): machines, queues and the manager's loop, with its
      invariant over all interleavings; the start of machines, their polling, and
      the probation timer.
    - Retry.v, WorkerOut.v, WorkerCodec.v, WorkerCombine.v, WorkerCombineSpec.v,
      WorkerCombiner.v, Worker.v, WorkerSpec.v, WorkerRun.v, WorkerStats.v
      (src/exec/bigmachine.go, the worker): reading from other machines, the output
      of tasks, shared combiners, the calls of a worker, what a run of a task
      leaves, and the statistics it counts.
    - Driver.v, Cluster.v, ClusterSpec.v, ClusterRun.v (src/exec/bigmachine.go, the
      executor): the driver against an interface of calls, and the interface
      implemented by workers.
    - Tracer.v, TracerSpec.v (src/exec/tracer.go, src/internal/trace), SliceTrace.v,
      SliceTraceSpec.v (src/cmd/slicetrace): traces and the reports on them.
    - SliceTest.v (src/slicetest): the helpers that scan and print a slice.
    - ToyCodec.v and the Examples files: instances of the theorems.

    ** What the theorems show

    - Evaluation: when Eval returns without an error all roots are computed
      ([Eval_complete]); tasks are scheduled only when their dependencies are done;
      the evaluator is never stuck.  The well-formedness of graphs that these
      theorems assume is established by the compiler ([compile_graph_wf]).
    - Compilation: [compile_correct] says which graph a slice compiles to,
      [compile_Do_correct] that the tasks of the graph compute the operators.
    - End to end: [local_correct] says that running the compiled tasks on the local
      executor, in any order that respects dependencies, computes the rows of a
      semantics that knows neither tasks nor pipelines; [session_correct] that a run
      of a session ends, and that scanning its result delivers those rows;
      [cluster_correct] the same of the tasks of an invocation on a cluster, however
      machines start and stop, outputs are discarded and replies get lost.
    - Streams: every operator's reader, merging, external sorting, reducing,
      cogrouping, combining, encoding and caching deliver exactly the rows they
      should, whatever the frame lengths.
    - Cluster: the machine manager accounts for procs exactly, respects its limits
      and makes progress; [timer_correct] justifies its model of the probation
      timer.  A stream read through reconnects is the stream
      ([retryReader_correct]); the combiners that the tasks of a worker share hold
      the reduction of exactly the rows of the runs that were combined
      ([combining_correct]).
    - Keys: the operators of builtin types order and hash keys the way sorting,
      merging and combining assume ([builtin_keys_correct]).
    - Observation: the scopes of results add up every task once
      ([Result_Scope_correct]), the status of slices catches up with every change
      ([slice_status_correct]), traces have one event per span ([tracer_correct]),
      and reports on traces have the tasks and times that were run
      ([slicetrace_correct]).
    - Types: applications that pass the checks are well typed, and invocations that
      pass them can be invoked in another process.
    - Errors: theorems of kind error state what the code does in cases its
      documentation does not foresee; PROJECT.json lists them as findings.

    ** Not modelled

    In the theorem on clusters the runs of tasks follow one another, shared
    combiners are off, and results of earlier invocations are not used; the parts
    of the worker that share combiners between concurrent runs have a theorem of
    their own.  The transport of remote calls is given by their results, and the
    decoding of a stream by the whole of its bytes, so that a decoder on top of a
    reconnecting reader is covered only by the equality of the streams.  Left out
    are the polling of workers for statistics, web pages, String methods, unsafe memory access and
    the generator of operators in src/frame, the walker of file trees (nothing uses
    it), command line tools other than slicetrace, configuration and examples.  Contexts, and so cancellation, are modelled only where the code
    tests for it; logging and event reporting are not.
*)
From Stdlib Require Export ZArith Lia.
From stdpp Require Export base tactics list gmap strings sorting numbers.

(** * Go outcomes *)

(** A Go call returns a value or panics with a message.  A loop whose number
    of iterations the code does not bound is written with fuel, and [NoFuel]
    says that the fuel did not suffice; theorems show results of the form
    [Ret]. *)
Inductive outcome (A : Type) : Type :=
| Ret (a : A)
| Panic (msg : string)
| NoFuel.
Arguments Ret {A} a.
Arguments Panic {A} msg.
Arguments NoFuel {A}.

#[export] Instance outcome_ret : MRet outcome := fun A a => Ret a.
#[export] Instance outcome_bind : MBind outcome := fun A B f o =>
  match o with
  | Ret a => f a
  | Panic msg => Panic msg
  | NoFuel => NoFuel
  end.
#[export] Instance outcome_fmap : FMap outcome := fun A B f o =>
  match o with
  | Ret a => Ret (f a)
  | Panic msg => Panic msg
  | NoFuel => NoFuel
  end.

Lemma outcome_bind_Ret {A B} (f : A → outcome B) (o : outcome A) (b : B) :
  o ≫= f = Ret b ↔ ∃ a, o = Ret a ∧ f a = Ret b.
Proof.
  destruct o; simpl; (split; [by eauto|intros (? & ? & ?); by simplify_eq]).
Qed.

(** ** Results given enough fuel *)

(** [e], a computation with a fuel argument, returns [a] from some fuel on. *)
Definition yields {A} (e : nat → outcome A) (a : A) : Prop := ∃ f0, ∀ f, f0 ≤ f → e f = Ret a.

Declare Scope go_scope.
Delimit Scope go_scope with go.
Notation "e ⇓ a" := (yields e a) (at level 70, no associativity) : go_scope.
Open Scope go_scope.

Create HintDb go.

Lemma yields_ret {A} (e : nat → outcome A) (a : A) : (∀ f, e f = Ret a) → e ⇓ a.
Proof. intros He. by exists 0. Qed.

(** Running one computation after another. *)
Lemma yields_bind {A B} (e : nat → outcome A) (k : A → nat → outcome B) a b :
  e ⇓ a → k a ⇓ b → (λ f, x ← e f; k x f) ⇓ b.
Proof.
  intros [f0 He] [f1 Hk]. exists (f0 `max` f1). intros f Hf. rewrite He by lia. simpl. apply Hk. lia.
Qed.

Lemma yields_ext {A} (e e' : nat → outcome A) (a : A) : e ⇓ a → (∀ f, e f = Ret a → e' f = Ret a) → e' ⇓ a.
Proof. intros [f0 He] Hext. exists f0. intros f Hf. by apply Hext, He. Qed.

(** A loop that spends one unit of fuel before it goes on. *)
Lemma yields_S {A} (e e' : nat → outcome A) (a : A) : e' ⇓ a → (∀ f, e (S f) = e' f) → e ⇓ a.
Proof.
  intros [f0 He] HS. exists (S f0). intros [|f] Hf; [lia|]. rewrite HS. apply He. lia.
Qed.

Lemma yields_det {A} (e : nat → outcome A) (a b : A) : e ⇓ a → e ⇓ b → a = b.
Proof.
  intros [f0 Ha] [f1 Hb]. specialize (Ha (f0 `max` f1)). specialize (Hb (f0 `max` f1)).
  rewrite Ha in Hb by lia. specialize (Hb ltac:(lia)). congruence.
Qed.

#[export] Hint Resolve yields_ret : go.

(** Kinds of error values that the code distinguishes. *)
Inductive errKind :=
| Other | Exists | NotExist | Invalid | Integrity | Fatal | Temporary | Remote | Canceled.

(** Error values; [EOF] is the sentinel of package sliceio. *)
Inductive error :=
| EOF
| Err (k : errKind) (msg : string).

#[export] Instance errKind_eq_dec : EqDecision errKind.
Proof. solve_decision. Defined.
#[export] Instance error_eq_dec : EqDecision error.
Proof. solve_decision. Defined.

(** * Machine integers *)

(** Go's [int] and [int64] on the supported platforms: two's complement,
    64 bits wide. *)
Definition wrap64 (z : Z) : Z := (z + 2 ^ 63) mod 2 ^ 64 - 2 ^ 63.

Definition in_int64 (z : Z) : Prop := (- 2 ^ 63 <= z < 2 ^ 63)%Z.

Lemma wrap64_id z : in_int64 z → wrap64 z = z.
Proof. unfold in_int64, wrap64. intros. rewrite Z.mod_small; lia. Qed.

Lemma wrap64_range z : in_int64 (wrap64 z).
Proof.
  unfold in_int64, wrap64.
  pose proof (Z.mod_pos_bound (z + 2 ^ 63) (2 ^ 64)). lia.
Qed.

(** int32. *)
Definition wrap32 (z : Z) : Z := (z + 2 ^ 31) mod 2 ^ 32 - 2 ^ 31.

Lemma wrap32_id z : (- 2 ^ 31 <= z < 2 ^ 31)%Z → wrap32 z = z.
Proof. unfold wrap32. intros. rewrite Z.mod_small; lia. Qed.

Lemma wrap32_add_l x y : wrap32 (wrap32 x + y) = wrap32 (x + y).
Proof.
  unfold wrap32. f_equal. replace ((x + 2 ^ 31) mod 2 ^ 32 - 2 ^ 31 + y + 2 ^ 31)%Z
    with ((x + 2 ^ 31) mod 2 ^ 32 + y)%Z by lia.
  rewrite Z.add_mod_idemp_l by lia. f_equal. lia.
Qed.

Lemma wrap64_add_l x y : wrap64 (wrap64 x + y) = wrap64 (x + y).
Proof.
  unfold wrap64. f_equal. replace ((x + 2 ^ 63) mod 2 ^ 64 - 2 ^ 63 + y + 2 ^ 63)%Z
    with ((x + 2 ^ 63) mod 2 ^ 64 + y)%Z by lia.
  rewrite Z.add_mod_idemp_l by lia. f_equal. lia.
Qed.

(** * Printing *)

(** Decimal digits of a number, as [%d] prints them. *)
Definition digit (d : Z) : Ascii.ascii := Ascii.ascii_of_nat (48 + Z.to_nat d).

Fixpoint decimal_aux (fuel : nat) (n : Z) (acc : string) : string :=
  match fuel with
  | 0 => acc
  | S fuel =>
      let acc := String (digit (n mod 10)) acc in
      if (n <? 10)%Z then acc else decimal_aux fuel (n / 10) acc
  end.

Definition decimal (n : Z) : string :=
  if (n <? 0)%Z then "-" +:+ decimal_aux (S (Z.to_nat (Z.log2 (- n)))) (- n) ""
  else decimal_aux (S (Z.to_nat (Z.log2 n))) n "".

(** The number that a string of digits denotes. *)
Fixpoint digits_value (v : Z) (s : string) : Z :=
  match s with
  | EmptyString => v
  | String c s => digits_value (10 * v + (Z.of_nat (Ascii.nat_of_ascii c) - 48)) s
  end.

Lemma digit_value d : (0 <= d < 10)%Z → (Z.of_nat (Ascii.nat_of_ascii (digit d)) - 48)%Z = d.
Proof. intros Hd. unfold digit. rewrite Ascii.nat_ascii_embedding; lia. Qed.

Lemma digits_value_decimal_aux fuel n acc :
  (0 <= n < 2 ^ Z.of_nat (S fuel))%Z → digits_value 0 (decimal_aux (S fuel) n acc) = digits_value n acc.
Proof.
  revert n acc. induction fuel as [|fuel IH]; intros n acc Hn.
  - change (2 ^ Z.of_nat 1)%Z with 2%Z in Hn. cbn [decimal_aux].
    destruct (Z.ltb_spec n 10); [|lia]. cbn [digits_value]. by rewrite Z.mod_small, digit_value by lia.
  - rewrite Nat2Z.inj_succ, Z.pow_succ_r in Hn by lia. remember (S fuel) as m eqn:Hm. cbn [decimal_aux].
    destruct (Z.ltb_spec n 10); cbn [digits_value].
    + by rewrite Z.mod_small, digit_value by lia.
    + rewrite IH by (split; [apply Z.div_pos; lia|apply Z.div_lt_upper_bound; lia]). cbn [digits_value].
      rewrite digit_value by (apply Z.mod_pos_bound; lia). f_equal. pose proof (Z.div_mod n 10). lia.
Qed.

Lemma digits_value_decimal n : (0 <= n)%Z → digits_value 0 (decimal n) = n.
Proof.
  intros Hn. unfold decimal. destruct (Z.ltb_spec n 0); [lia|].
  rewrite digits_value_decimal_aux; [done|]. split; [done|].
  rewrite Nat2Z.inj_succ, Z2Nat.id by apply Z.log2_nonneg.
  destruct (decide (n = 0)%Z) as [->|]; [done|]. apply Z.log2_spec. lia.
Qed.

(** * Strings *)

Lemma app_assoc_string (a b c : string) : (a +:+ b) +:+ c = a +:+ (b +:+ c).
Proof. induction a as [|x a IH]; [done|]. exact (f_equal (String x) IH). Qed.

Lemma app_empty_string (a : string) : a +:+ "" = a.
Proof. induction a as [|x a IH]; [done|]. exact (f_equal (String x) IH). Qed.

(** * Filters *)

Lemma filter_all {A} (P : A → Prop) `{!∀ x, Decision (P x)} (l : list A) : Forall P l → filter P l = l.
Proof. induction 1 as [|x l Hx _ IH]; [done|]. by rewrite filter_cons_True, IH. Qed.
Lemma filter_none {A} (P : A → Prop) `{!∀ x, Decision (P x)} (l : list A) :
  Forall (λ x, ¬ P x) l → filter P l = [].
Proof. induction 1 as [|x l Hx _ IH]; [done|]. by rewrite filter_cons_False, IH. Qed.

(** * List positions *)

Lemma drop_cons_inv {A} k (l : list A) x xs : drop k l = x :: xs → l !! k = Some x ∧ drop (S k) l = xs.
Proof.
  intros Hl. split.
  - by rewrite <-(Nat.add_0_r k), <-lookup_drop, Hl.
  - by rewrite <-Nat.add_1_r, <-drop_drop, Hl.
Qed.

Section list_swap.
Context {A : Type}.
Implicit Types l : list A.

(** [l[i], l[j] = l[j], l[i]] for positions inside the list. *)
Definition list_swap (i j : nat) (l : list A) : list A :=
  match l !! i, l !! j with
  | Some x, Some y => <[j := x]> (<[i := y]> l)
  | _, _ => l
  end.

Lemma length_list_swap i j l : length (list_swap i j l) = length l.
Proof. unfold list_swap. repeat case_match; by rewrite ?length_insert. Qed.

Lemma list_swap_lookup i j k l :
  i < length l → j < length l →
  list_swap i j l !! k =
    if decide (k = j) then l !! i else if decide (k = i) then l !! j else l !! k.
Proof.
  intros [x Hi]%lookup_lt_is_Some_2 [y Hj]%lookup_lt_is_Some_2.
  unfold list_swap. rewrite Hi, Hj.
  apply lookup_lt_Some in Hi as Li. apply lookup_lt_Some in Hj as Lj.
  repeat case_decide; subst.
  - by rewrite list_lookup_insert_eq by (by rewrite length_insert).
  - by rewrite list_lookup_insert_ne, list_lookup_insert_eq by done.
  - by rewrite !list_lookup_insert_ne by done.
Qed.

Lemma list_swap_perm i j l : list_swap i j l ≡ₚ l.
Proof.
  destruct (decide (i < length l ∧ j < length l)) as [[Hi Hj]|Hn].
  - apply Permutation_inj. split; [by rewrite length_list_swap|].
    exists (λ k, if decide (k = j) then i else if decide (k = i) then j else k).
    split; [intros k1 k2; repeat case_decide; lia|].
    intros k. rewrite list_swap_lookup by done. by repeat case_decide.
  - unfold list_swap.
    destruct (l !! i) eqn:Hi, (l !! j) eqn:Hj; [|done..].
    apply lookup_lt_Some in Hi, Hj. lia.
Qed.
End list_swap.

(** * Pairwise relations *)

Section pairwise.
Context {A : Type} (R : A → A → Prop).

(** [R] holds between any two elements at different positions, the first one
    before the second. *)
Fixpoint pairwise (l : list A) : Prop :=
  match l with
  | [] => True
  | x :: l => Forall (R x) l ∧ pairwise l
  end.

Lemma pairwise_perm l1 l2 : Symmetric R → l1 ≡ₚ l2 → pairwise l1 → pairwise l2.
Proof.
  intros HS. induction 1 as [|x l1 l2 Hp IH|x y l|l1 l2 l3 _ IH1 _ IH2]; simpl; [done| | |by auto].
  - intros [Hx ?]. split; [by rewrite <-Hp|auto].
  - rewrite !Forall_cons_iff. intros ([? ?] & ? & ?). split_and!; auto.
Qed.

Lemma pairwise_app l1 l2 :
  pairwise (l1 ++ l2) ↔ pairwise l1 ∧ pairwise l2 ∧ Forall (λ x, Forall (R x) l2) l1.
Proof.
  induction l1 as [|x l1 IH]; simpl.
  - split; [by intros; split_and!|by intros (_ & ? & _)].
  - rewrite IH, Forall_app, Forall_cons_iff. tauto.
Qed.
End pairwise.
