(* ===== verification/Types.v ===== *)
(** Packages slicetype, typecheck and slicefunc (src/slicetype/slicetype.go,
    src/typecheck/typecheck.go, src/typecheck/func.go, src/slicefunc/func.go):
    the dynamic types that slices, frames and user functions carry.

    [gotype] models what this code uses of [reflect.Type]: kinds, element
    types, function signatures and assignability.  The column types of a
    slice type are computed through the interface methods [NumOut], [Out] and
    [Prefix] of the concrete representations; [cols] is what they denote. *)
From S2P Require Import Prelude.

#[local] Set Warnings "-register-all".

(** * Go types *)

Inductive gotype :=
| TBool | TInt | TInt64 | TUint64 | TFloat64 | TString
| TInterface (methods : list string)
| TNamed (name : string) (under : gotype)
| TSlice (elem : gotype)
| TPtr (elem : gotype)
| TMap (key elem : gotype)
| TFunc (ins outs : list gotype) (variadic : bool).

Inductive kind :=
| KBool | KInt | KInt64 | KUint64 | KFloat64 | KString
| KInterface | KSlice | KPtr | KMap | KFunc.

#[export] Instance kind_eq_dec : EqDecision kind.
Proof. solve_decision. Defined.

Fixpoint gotype_eqb (a b : gotype) : bool :=
  let fix eqbs (xs ys : list gotype) : bool :=
    match xs, ys with
    | [], [] => true
    | x :: xs, y :: ys => gotype_eqb x y && eqbs xs ys
    | _, _ => false
    end in
  match a, b with
  | TBool, TBool | TInt, TInt | TInt64, TInt64 | TUint64, TUint64
  | TFloat64, TFloat64 | TString, TString => true
  | TInterface m1, TInterface m2 => bool_decide (m1 = m2)
  | TNamed n1 u1, TNamed n2 u2 => bool_decide (n1 = n2) && gotype_eqb u1 u2
  | TSlice a, TSlice b | TPtr a, TPtr b => gotype_eqb a b
  | TMap k1 e1, TMap k2 e2 => gotype_eqb k1 k2 && gotype_eqb e1 e2
  | TFunc i1 o1 v1, TFunc i2 o2 v2 => eqbs i1 i2 && eqbs o1 o2 && eqb v1 v2
  | _, _ => false
  end.

Section gotype_ind.
Context (P : gotype → Prop).
Hypotheses (HBool : P TBool) (HInt : P TInt) (HInt64 : P TInt64) (HUint64 : P TUint64)
  (HFloat64 : P TFloat64) (HString : P TString)
  (HInterface : ∀ ms, P (TInterface ms))
  (HNamed : ∀ n u, P u → P (TNamed n u))
  (HSlice : ∀ t, P t → P (TSlice t)) (HPtr : ∀ t, P t → P (TPtr t))
  (HMap : ∀ k e, P k → P e → P (TMap k e))
  (HFunc : ∀ ins outs v, Forall P ins → Forall P outs → P (TFunc ins outs v)).

(** Induction that reaches the types inside a function signature. *)
Fixpoint gotype_ind' (t : gotype) : P t :=
  let fix all (ts : list gotype) : Forall P ts :=
    match ts with
    | [] => List.Forall_nil P
    | t :: ts => List.Forall_cons _ t ts (gotype_ind' t) (all ts)
    end in
  match t with
  | TBool => HBool | TInt => HInt | TInt64 => HInt64 | TUint64 => HUint64
  | TFloat64 => HFloat64 | TString => HString
  | TInterface ms => HInterface ms
  | TNamed n u => HNamed n u (gotype_ind' u)
  | TSlice t => HSlice t (gotype_ind' t)
  | TPtr t => HPtr t (gotype_ind' t)
  | TMap k e => HMap k e (gotype_ind' k) (gotype_ind' e)
  | TFunc ins outs v => HFunc ins outs v (all ins) (all outs)
  end.
End gotype_ind.

Lemma gotype_eqb_list (xs : list gotype) :
  Forall (λ a, ∀ b, gotype_eqb a b = true ↔ a = b) xs →
  ∀ ys, (fix eqbs (xs ys : list gotype) : bool :=
    match xs, ys with
    | [], [] => true
    | x :: xs, y :: ys => gotype_eqb x y && eqbs xs ys
    | _, _ => false
    end) xs ys = true ↔ xs = ys.
Proof.
  induction 1 as [|x xs Hx _ IH]; intros [|y ys]; try done.
  rewrite andb_true_iff, Hx, IH. naive_solver.
Qed.

Lemma gotype_eqb_eq a b : gotype_eqb a b = true ↔ a = b.
Proof.
  revert b. induction a as [| | | | | |ms|n u IH|t IH|t IH|k e IHk IHe|ins outs v IHi IHo] using gotype_ind';
    intros []; simpl; try done.
  - rewrite bool_decide_eq_true. naive_solver.
  - rewrite andb_true_iff, bool_decide_eq_true, IH. naive_solver.
  - rewrite IH. naive_solver.
  - rewrite IH. naive_solver.
  - rewrite andb_true_iff, IHk, IHe. naive_solver.
  - rewrite !andb_true_iff, !gotype_eqb_list, eqb_true_iff by done. naive_solver.
Qed.

#[export] Instance gotype_eq_dec : EqDecision gotype := λ a b,
  match gotype_eqb a b as r return (r = true ↔ a = b) → Decision (a = b) with
  | true => λ H, left (proj1 H eq_refl)
  | false => λ H, right (λ E, Bool.diff_false_true (proj2 H E))
  end (gotype_eqb_eq a b).

Fixpoint Kind (t : gotype) : kind :=
  match t with
  | TBool => KBool | TInt => KInt | TInt64 => KInt64 | TUint64 => KUint64
  | TFloat64 => KFloat64 | TString => KString
  | TInterface _ => KInterface
  | TNamed _ u => Kind u
  | TSlice _ => KSlice | TPtr _ => KPtr | TMap _ _ => KMap | TFunc _ _ _ => KFunc
  end.

(** [Elem] panics unless the type is a slice, a pointer or a map. *)
Fixpoint Elem (t : gotype) : outcome gotype :=
  match t with
  | TNamed _ u => Elem u
  | TSlice e | TPtr e | TMap _ e => Ret e
  | _ => Panic "reflect: Elem of invalid type"
  end.

Fixpoint underlying (t : gotype) : gotype :=
  match t with TNamed _ u => underlying u | t => t end.
(** Type literals; all other types have a name. *)
Definition is_literal (t : gotype) : bool :=
  match t with
  | TSlice _ | TPtr _ | TMap _ _ | TFunc _ _ _ | TInterface _ => true
  | _ => false
  end.

(** [reflect.Type.String]. *)
Fixpoint gotype_String (t : gotype) : string :=
  let fix join (ts : list gotype) : string :=
    match ts with
    | [] => ""
    | [t] => gotype_String t
    | t :: ts => gotype_String t +:+ ", " +:+ join ts
    end in
  match t with
  | TBool => "bool" | TInt => "int" | TInt64 => "int64" | TUint64 => "uint64"
  | TFloat64 => "float64" | TString => "string"
  | TInterface [] => "interface {}"
  | TInterface ms => "interface { " +:+ String.concat "; " ms +:+ " }"
  | TNamed n _ => n
  | TSlice t => "[]" +:+ gotype_String t
  | TPtr t => "*" +:+ gotype_String t
  | TMap k e => "map[" +:+ gotype_String k +:+ "]" +:+ gotype_String e
  | TFunc ins outs variadic =>
      let fix args (ts : list gotype) : string :=
        match ts with
        | [] => ""
        | [t] =>
            match t with
            | TSlice e => if variadic then "..." +:+ gotype_String e else gotype_String t
            | _ => gotype_String t
            end
        | t :: ts => gotype_String t +:+ ", " +:+ args ts
        end in
      "func(" +:+ args ins +:+ ")" +:+
      match outs with
      | [] => ""
      | [t] => " " +:+ gotype_String t
      | _ => " (" +:+ join outs +:+ ")"
      end
  end.

(** The error interface. *)
Definition typeOfError : gotype := TNamed "error" (TInterface ["Error"]).
Definition typeOfContext : gotype :=
  TNamed "context.Context" (TInterface ["Deadline"; "Done"; "Err"; "Value"]).

Section types.
(** The method sets of the program's types. *)
Context (has_method : gotype → string → bool).

(** [reflect.Type.AssignableTo]: identical types; types with identical
    underlying types of which one has no name; a type and an interface it
    implements. *)
Definition AssignableTo (v t : gotype) : bool :=
  bool_decide (v = t)
  || (bool_decide (underlying v = underlying t) && (is_literal v || is_literal t))
  || match underlying t with
     | TInterface ms => forallb (has_method v) ms
     | _ => false
     end.

Lemma AssignableTo_refl t : AssignableTo t t = true.
Proof. unfold AssignableTo. by rewrite bool_decide_true. Qed.

(** * slicetype *)

(** The implementations of the interface Type.  [withPrefix] stands for the
    types that other packages implement on top of these, slices and tasks: the
    columns of a type, and a prefix of their own. *)
Inductive Typ :=
| typeSlice (ts : list gotype)
| appendType (t1 t2 : Typ)
| sliceType (t : Typ) (i j : Z)
| funcSliceType (outs : list gotype)
| withPrefix (t : Typ) (prefix : Z).

Fixpoint NumOut (t : Typ) : Z :=
  match t with
  | typeSlice ts | funcSliceType ts => Z.of_nat (length ts)
  | withPrefix t _ => NumOut t
  | appendType t1 t2 => NumOut t1 + NumOut t2
  | sliceType _ i j => j - i
  end.

(** Indexing a Go slice. *)
Definition index {A} (l : list A) (i : Z) : outcome A :=
  if (i <? 0)%Z then Panic "index out of range"
  else match l !! Z.to_nat i with
       | Some x => Ret x
       | None => Panic "index out of range"
       end.

Fixpoint Out (t : Typ) (i : Z) : outcome gotype :=
  match t with
  | typeSlice ts | funcSliceType ts => index ts i
  | withPrefix t _ => Out t i
  | appendType t1 t2 =>
      if (i <? NumOut t1)%Z then Out t1 i else Out t2 (i - NumOut t1)
  | sliceType t i0 j =>
      if (i >=? j - i0)%Z then Panic "invalid index" else Out t (i0 + i)
  end.

Fixpoint Prefix (t : Typ) : Z :=
  match t with
  | typeSlice _ | funcSliceType _ => 1
  | appendType t1 _ => Prefix t1
  | sliceType _ _ _ => 1
  | withPrefix _ p => p
  end.

Definition New (types : list gotype) : Typ := typeSlice types.
Definition Append (t1 t2 : Typ) : Typ := appendType t1 t2.
Definition Slice (t : Typ) (i j : Z) : outcome Typ :=
  if ((i <? 0) || (NumOut t <? i) || (j <? i) || (NumOut t <? j))%Z
  then Panic "slice: invalid argument"
  else Ret (sliceType t i j).

(** [for i := 0; i < n; i++ { if !p(i) { return false } }; return true], where
    [p] may panic. *)
Fixpoint all_from (n : nat) (i : Z) (p : Z → outcome bool) : outcome bool :=
  match n with
  | 0 => Ret true
  | S n => b ← p i; if (b : bool) then all_from n (i + 1) p else Ret false
  end.
(** [for i in [i, i+n) { v = append(v, f(i)) }], likewise. *)
Fixpoint collect_from {A} (n : nat) (i : Z) (f : Z → outcome A) : outcome (list A) :=
  match n with
  | 0 => Ret []
  | S n => x ← f i; xs ← collect_from n (i + 1) f; Ret (x :: xs)
  end.

Definition Assignable (in_ out : Typ) : outcome bool :=
  if negb (NumOut in_ =? NumOut out)%Z then Ret false
  else all_from (Z.to_nat (NumOut in_)) 0 (λ i,
         a ← Out in_ i; b ← Out out i; Ret (AssignableTo a b)).

Definition Columns (typ : Typ) : outcome (list gotype) :=
  match typ with
  | typeSlice ts => Ret ts
  | _ => collect_from (Z.to_nat (NumOut typ)) 0 (Out typ)
  end.

Fixpoint Concat (types : list Typ) : outcome (list gotype) :=
  match types with
  | [] => Ret []
  | typ :: types => ts ← Columns typ; rest ← Concat types; Ret (ts ++ rest)
  end.

(** [String] and [Signature]. *)
Definition out_Strings (typ : Typ) : outcome (list string) :=
  collect_from (Z.to_nat (NumOut typ)) 0 (λ i, t ← Out typ i; Ret (gotype_String t)).

Definition Typ_String (typ : Typ) : outcome string :=
  elems ← out_Strings typ;
  Ret ("slice[" +:+ decimal (Prefix typ) +:+ "]" +:+ String.concat "," elems).

Definition Signature (arg ret : Typ) : outcome string :=
  args ← out_Strings arg;
  rets ← out_Strings ret;
  Ret ("func(" +:+ String.concat ", " args +:+ ")" +:+
       match rets with
       | [] => ""
       | [r] => " " +:+ r
       | _ => " (" +:+ String.concat ", " rets +:+ ")"
       end).

(** * typecheck *)

Definition Equal (expect actual : Typ) : outcome bool :=
  if negb (NumOut actual =? NumOut expect)%Z then Ret false
  else all_from (Z.to_nat (NumOut expect)) 0 (λ i,
         got ← Out actual i; want ← Out expect i; Ret (bool_decide (got = want))).

(** The element type of each column, if all columns are slices. *)
Fixpoint elems (ts : list gotype) : outcome (option (list gotype)) :=
  match ts with
  | [] => Ret (Some [])
  | t :: ts =>
      if decide (Kind t = KSlice) then
        e ← Elem t; es ← elems ts; Ret (option_map (cons e) es)
      else Ret None
  end.

(** [Slices]: the arguments are given by their types. *)
Definition Slices (columns : list gotype) : outcome (option Typ) :=
  es ← elems columns; Ret (option_map New es).

Definition Devectorize (typ : Typ) : outcome (option Typ) :=
  ts ← collect_from (Z.to_nat (NumOut typ)) 0 (Out typ);
  es ← elems ts; Ret (option_map New es).

(** * slicefunc *)

Record Func := mkFunc {
  fn_In : Typ;
  fn_Out : Typ;
  fn_IsVariadic : bool;
  fn_contextFunc : bool;
}.

(** [Of]: a user function is given by its type, [None] for a nil interface;
    the result [None] says that it is not a function. *)
Definition Of (fn : option gotype) : option Func :=
  match fn with
  | None => None
  | Some t =>
      match underlying t with
      | TFunc ins outs variadic =>
          let context := if ins is t0 :: _ then bool_decide (t0 = typeOfContext) else false in
          Some (mkFunc (New (if context then tail ins else ins)) (funcSliceType outs)
                  variadic context)
      | _ => None
      end
  end.

Definition CanApply (fn : Func) (arg : Typ) : outcome bool :=
  let m := NumOut (fn_In fn) in
  if fn_IsVariadic fn then
    if (NumOut arg <? m - 1)%Z then Ret false
    else
      ok ← all_from (Z.to_nat (m - 1)) 0 (λ i,
             a ← Out arg i; b ← Out (fn_In fn) i; Ret (AssignableTo a b));
      if (ok : bool) then
        last ← Out (fn_In fn) (m - 1);
        variadicType ← Elem last;
        all_from (Z.to_nat (NumOut arg - (m - 1))) (m - 1) (λ i,
          a ← Out arg i; Ret (AssignableTo a variadicType))
      else Ret false
  else if negb (NumOut arg =? m)%Z then Ret false
  else all_from (Z.to_nat m) 0 (λ i,
         a ← Out arg i; b ← Out (fn_In fn) i; Ret (AssignableTo a b)).

(** * What the representations denote *)

Fixpoint cols (t : Typ) : list gotype :=
  match t with
  | typeSlice ts | funcSliceType ts => ts
  | withPrefix t _ => cols t
  | appendType t1 t2 => cols t1 ++ cols t2
  | sliceType t i j => take (Z.to_nat (j - i)) (drop (Z.to_nat i) (cols t))
  end.

(** Slices stay inside the type they slice. *)
Fixpoint typ_ok (t : Typ) : Prop :=
  match t with
  | appendType t1 t2 => typ_ok t1 ∧ typ_ok t2
  | withPrefix t _ => typ_ok t
  | sliceType t i j => typ_ok t ∧ (0 <= i <= j ∧ j <= Z.of_nat (length (cols t)))%Z
  | _ => True
  end.

Lemma NumOut_cols t : typ_ok t → NumOut t = Z.of_nat (length (cols t)).
Proof.
  induction t as [ts|t1 IH1 t2 IH2|t IH i j|outs|t IH p]; simpl; try done.
  - intros [??]. rewrite length_app, IH1, IH2 by done. lia.
  - intros (? & ? & ?). rewrite length_take, length_drop. lia.
Qed.

Lemma index_lookup {A} (l : list A) (i : nat) :
  index l (Z.of_nat i) = if l !! i is Some x then Ret x else Panic "index out of range".
Proof. unfold index. rewrite (proj2 (Z.ltb_ge _ _)) by lia. by rewrite Nat2Z.id. Qed.

Lemma Out_cols t (i : nat) x : typ_ok t → cols t !! i = Some x → Out t (Z.of_nat i) = Ret x.
Proof.
  revert i. induction t as [ts|t1 IH1 t2 IH2|t IH i0 j|outs|t IH p]; intros i; simpl;
    try (intros _ Hi; by rewrite index_lookup, Hi); [| |by auto].
  - intros [Ht1 Ht2] Hi. rewrite NumOut_cols by done. destruct (Z.ltb_spec (Z.of_nat i) (Z.of_nat (length (cols t1)))).
    + rewrite lookup_app_l in Hi by lia. auto.
    + rewrite lookup_app_r in Hi by lia.
      replace (Z.of_nat i - Z.of_nat (length (cols t1)))%Z
        with (Z.of_nat (i - length (cols t1))) by lia. auto.
  - intros (Ht & Hij & Hj) Hi. apply lookup_take_Some in Hi as [Hi Hlt].
    rewrite lookup_drop in Hi. rewrite Z.geb_leb, (proj2 (Z.leb_gt _ _)) by lia.
    replace (i0 + Z.of_nat i)%Z with (Z.of_nat (Z.to_nat i0 + i)) by lia. auto.
Qed.

Lemma Out_panics t (i : nat) :
  typ_ok t → length (cols t) ≤ i → ∃ msg, Out t (Z.of_nat i) = Panic msg.
Proof.
  revert i. induction t as [ts|t1 IH1 t2 IH2|t IH i0 j|outs|t IH p]; intros i; simpl.
  - intros _ Hi. rewrite index_lookup, lookup_ge_None_2 by done. eauto.
  - intros [Ht1 Ht2] Hi. rewrite length_app in Hi. rewrite NumOut_cols by done.
    rewrite (proj2 (Z.ltb_ge _ _)) by lia.
    replace (Z.of_nat i - Z.of_nat (length (cols t1)))%Z
      with (Z.of_nat (i - length (cols t1))) by lia. apply IH2; [done|lia].
  - intros (Ht & Hij & Hj). rewrite length_take, length_drop. intros Hi.
    rewrite Z.geb_leb, (proj2 (Z.leb_le _ _)) by lia. eauto.
  - intros _ Hi. rewrite index_lookup, lookup_ge_None_2 by done. eauto.
  - auto.
Qed.

Lemma Slice_typ_ok t i j t' : typ_ok t → Slice t i j = Ret t' → typ_ok t'.
Proof.
  intros Ht. unfold Slice. rewrite NumOut_cols by done. case_match eqn:Hb; [done|].
  intros [= <-]. simpl. rewrite !orb_false_iff, !Z.ltb_ge in Hb.
  split; [done|lia].
Qed.

(** A loop over the columns decides a relation of the columns pointwise. *)
Lemma all_from_Forall2 (p : gotype → gotype → bool) (f g : Z → outcome gotype) xs ys i :
  (∀ j x, xs !! j = Some x → f (i + Z.of_nat j)%Z = Ret x) →
  (∀ j y, ys !! j = Some y → g (i + Z.of_nat j)%Z = Ret y) →
  length xs = length ys →
  all_from (length xs) i (λ i, a ← f i; b ← g i; Ret (p a b)) =
    Ret (forallb (uncurry p) (zip xs ys)).
Proof.
  revert ys i. induction xs as [|x xs IH]; intros [|y ys] i Hf Hg Hl; try done. simpl.
  pose proof (Hf 0 x eq_refl) as Hx. pose proof (Hg 0 y eq_refl) as Hy.
  rewrite Z.add_0_r in Hx, Hy. rewrite Hx, Hy. simpl.
  destruct (p x y); [|done]. apply IH; [intros j z Hj..|simpl in Hl; lia].
  - rewrite <-(Hf (S j) z) by done. f_equal. lia.
  - rewrite <-(Hg (S j) z) by done. f_equal. lia.
Qed.

Lemma forallb_zip_Forall2 (p : gotype → gotype → bool) xs ys :
  length xs = length ys → forallb (uncurry p) (zip xs ys) = true ↔ Forall2 (λ a b, p a b = true) xs ys.
Proof.
  revert ys. induction xs as [|x xs IH]; intros [|y ys]; try done; simpl.
  intros [= Hl]. by rewrite andb_true_iff, IH, Forall2_cons_iff.
Qed.

Lemma Assignable_spec a b : typ_ok a → typ_ok b → ∃ r, Assignable a b = Ret r ∧
  (r = true ↔ Forall2 (λ x y, AssignableTo x y = true) (cols a) (cols b)).
Proof.
  intros Ha Hb. unfold Assignable. rewrite !NumOut_cols by done.
  destruct (Z.eqb_spec (Z.of_nat (length (cols a))) (Z.of_nat (length (cols b)))) as [E|E]; simpl.
  - eexists. split.
    + rewrite Nat2Z.id. apply (all_from_Forall2 AssignableTo _ _ (cols a) (cols b)); [..|lia].
      * intros j x Hj. by apply Out_cols.
      * intros j y Hj. by apply Out_cols.
    + apply forallb_zip_Forall2. lia.
  - exists false. split; [done|]. split; [done|]. intros HF%Forall2_length. lia.
Qed.

Lemma Equal_spec a b : typ_ok a → typ_ok b → Equal a b = Ret (bool_decide (cols a = cols b)).
Proof.
  intros Ha Hb. unfold Equal. rewrite !NumOut_cols by done.
  destruct (Z.eqb_spec (Z.of_nat (length (cols b))) (Z.of_nat (length (cols a)))) as [E|E]; simpl.
  - rewrite Nat2Z.id.
    rewrite <-(Nat2Z.inj _ _ E),
      (all_from_Forall2 (λ x y, bool_decide (x = y)) (Out b) (Out a) (cols b) (cols a));
      [|intros j x Hj; by apply Out_cols|intros j y Hj; by apply Out_cols|lia].
    f_equal. apply eq_true_iff_eq. rewrite forallb_zip_Forall2, bool_decide_eq_true by lia.
    split.
    + intros HF. symmetry. apply list_eq_Forall2. eapply Forall2_impl; [|done].
      intros x y. simpl. by rewrite bool_decide_eq_true.
    + intros ->. apply Forall_Forall2_diag, Forall_true. intros x.
      by apply bool_decide_eq_true.
  - f_equal. symmetry. apply bool_decide_eq_false. intros E'. by rewrite E' in E.
Qed.

(** The argument types that a call with [n] arguments expects: the declared
    ones, the last one repeated when the function is variadic. *)
Definition expected (fn : Func) (ins : list gotype) (n : nat) : option (list gotype) :=
  if fn_IsVariadic fn then
    match list.last ins with
    | Some t =>
        if Elem t is Ret e then
          if length ins - 1 <=? n
          then Some (take (length ins - 1) ins ++ replicate (n - (length ins - 1)) e)
          else None
        else None
    | None => None
    end
  else if n =? length ins then Some ins else None.

Lemma CanApply_args fn arg ins (n : nat) :
  typ_ok arg → fn_In fn = New ins → n ≤ length (cols arg) → n ≤ length ins →
  all_from n 0 (λ i, a ← Out arg i; b ← Out (fn_In fn) i; Ret (AssignableTo a b)) =
    Ret (forallb (uncurry AssignableTo) (zip (take n (cols arg)) (take n ins))).
Proof.
  intros Ha -> H1 H2.
  rewrite <-(length_take_le (cols arg) n) at 1 by done.
  apply (all_from_Forall2 AssignableTo); [..|rewrite !length_take; lia].
  - intros j x [Hj _]%lookup_take_Some. by apply Out_cols.
  - intros j y [Hj _]%lookup_take_Some. by apply (Out_cols (New ins)).
Qed.

Lemma CanApply_variadic_args arg n t :
  typ_ok arg → n ≤ length (cols arg) →
  all_from (length (cols arg) - n) (Z.of_nat n) (λ i, a ← Out arg i; Ret (AssignableTo a t)) =
    Ret (forallb (λ a, AssignableTo a t) (drop n (cols arg))).
Proof.
  intros Ha. remember (length (cols arg) - n) as k eqn:Hk. revert n Hk.
  induction k as [|k IH]; intros n Hk Hn; simpl.
  - by rewrite drop_ge by lia.
  - destruct (lookup_lt_is_Some_2 (cols arg) n) as [x Hx]; [lia|].
    rewrite (Out_cols _ _ x) by done. simpl. rewrite (drop_S _ x n) by done. simpl.
    destruct (AssignableTo x t); [|done]. simpl.
    replace (Z.of_nat n + 1)%Z with (Z.of_nat (S n)) by lia. apply IH; lia.
Qed.

Lemma forallb_Forall2_replicate (p : gotype → gotype → bool) xs e :
  forallb (λ a, p a e) xs = true ↔ Forall2 (λ a b, p a b = true) xs (replicate (length xs) e).
Proof.
  induction xs as [|x xs IH]; simpl; [split; intros; [constructor|done]|].
  by rewrite andb_true_iff, IH, Forall2_cons_iff.
Qed.

Lemma CanApply_spec fn arg ins :
  typ_ok arg → fn_In fn = New ins →
  (fn_IsVariadic fn = true → ∃ t e, list.last ins = Some t ∧ Elem t = Ret e) →
  ∃ r, CanApply fn arg = Ret r ∧
    (r = true ↔ ∃ ts, expected fn ins (length (cols arg)) = Some ts ∧
                      Forall2 (λ a b, AssignableTo a b = true) (cols arg) ts).
Proof.
  intros Ha Hin Hv. unfold CanApply, expected.
  rewrite (NumOut_cols arg) by done.
  assert (NumOut (fn_In fn) = Z.of_nat (length ins)) as -> by (by rewrite Hin).
  destruct (fn_IsVariadic fn) eqn:HV.
  - destruct (Hv eq_refl) as (t & e & Hlast & He). rewrite Hlast, He.
    apply last_Some in Hlast as [ins' ->]. rewrite length_app. simpl.
    replace (Z.of_nat (length ins' + 1) - 1)%Z with (Z.of_nat (length ins')) by lia.
    replace (length ins' + 1 - 1) with (length ins') by lia. rewrite take_app_length.
    destruct (Z.ltb_spec (Z.of_nat (length (cols arg))) (Z.of_nat (length ins'))).
    { exists false. split; [done|]. rewrite (proj2 (Nat.leb_gt _ _)) by lia.
      split; [done|]. by intros (? & ? & ?). }
    rewrite Nat2Z.id, (proj2 (Nat.leb_le _ _)) by lia.
    rewrite (CanApply_args fn arg (ins' ++ [t])) by (rewrite ?length_app; simpl; lia || done).
    simpl. rewrite take_app_length, Hin. simpl.
    set (b1 := forallb _ (zip _ _)).
    rewrite (index_lookup (ins' ++ [t]) (length ins')), lookup_app_r, Nat.sub_diag by lia.
    simpl. rewrite He. simpl.
    replace (Z.to_nat (Z.of_nat (length (cols arg)) - Z.of_nat (length ins')))
      with (length (cols arg) - length ins') by lia.
    rewrite CanApply_variadic_args by (done || lia).
    set (b2 := forallb _ (drop _ _)). exists (b1 && b2). split; [by destruct b1|].
    rewrite andb_true_iff. unfold b1, b2.
    rewrite forallb_zip_Forall2, forallb_Forall2_replicate, length_drop
      by (rewrite length_take; lia).
    split.
    + intros [H1 H2]. eexists. split; [done|].
      rewrite <-(take_drop (length ins') (cols arg)) at 1. by apply Forall2_app.
    + intros (ts & [= <-] & HF). rewrite <-(take_drop (length ins') (cols arg)) in HF at 1.
      apply Forall2_app_inv in HF; [done|]. rewrite length_take. lia.
  - destruct (Z.eqb_spec (Z.of_nat (length (cols arg))) (Z.of_nat (length ins))) as [E|E]; simpl.
    + rewrite (proj2 (Nat.eqb_eq _ _)) by lia. rewrite Nat2Z.id.
      rewrite (CanApply_args fn arg ins) by (done || lia).
      eexists. split; [done|]. rewrite !take_ge by lia. rewrite forallb_zip_Forall2 by lia.
      naive_solver.
    + rewrite (proj2 (Nat.eqb_neq _ _)) by lia. exists false. split; [done|].
      split; [done|]. by intros (? & ? & ?).
Qed.

(** C28. The check that package bigslice makes of a user's function is the type
    check of the call: CanApply of a function value and a row type returns
    without a panic, and says yes exactly when each column is assignable to the
    parameter it is passed for, a leading context left out, the variadic
    parameter repeated. *)
Theorem CanApply_correct t ins outs variadic fn arg :
  underlying t = TFunc ins outs variadic →
  (variadic = true → ∃ e, list.last ins = Some (TSlice e)) →
  Of (Some t) = Some fn → typ_ok arg →
  let params := if fn_contextFunc fn then tail ins else ins in
  ∃ r, CanApply fn arg = Ret r ∧
    (r = true ↔ ∃ ts, expected fn params (length (cols arg)) = Some ts ∧
                      Forall2 (λ a b, AssignableTo a b = true) (cols arg) ts).
Proof.
  intros Ht Hv Hof Harg. unfold Of in Hof. rewrite Ht in Hof. injection Hof as <-. simpl.
  apply CanApply_spec; [done..|]. simpl. intros ->. destruct (Hv eq_refl) as [e He].
  exists (TSlice e), e. split; [|done]. destruct ins as [|t0 ins]; [done|].
  case_bool_decide as Ht0; [|done]. simpl. subst t0. destruct ins; [done|]. exact He.
Qed.
End types.
