(* ===== verification/Heap.v ===== *)
(** The part of Go's [container/heap] that the repository uses.

    [HeapInterface] is Go's [heap.Interface]; [Init], [Push], [Pop], [Remove]
    and [Fix] follow the standard library's sift-up/sift-down loops over that
    interface.  [HeapLaws] says what an implementation promises (its elements
    form a list that [Less], [Swap], [Push] and [Pop] act on), and the lemmas
    of the last section derive the heap order and the permutation facts that
    the merge readers, the scheduler queue and [topn] rely on. *)
From S2P Require Import Prelude.

(** * The interface *)

Class HeapInterface (H X : Type) := {
  hlen : H → nat;
  hless : H → nat → nat → bool;
  hswap : nat → nat → H → H;
  hpush : X → H → H;
  hpop : H → outcome (X * H);
}.

(** * The operations *)

Section operations.
Context {H X : Type} `{HI : HeapInterface H X}.

Definition parent (j : nat) : nat := (j - 1) / 2.

(** One iteration of [down]: the child to swap with, if any. *)
Definition down_child (h : H) (i n : nat) : option nat :=
  let j1 := 2 * i + 1 in
  if n <=? j1 then None
  else
    let j2 := j1 + 1 in
    let j := if (j2 <? n) && hless h j2 j1 then j2 else j1 in
    if hless h j i then Some j else None.

Fixpoint down_loop (fuel : nat) (h : H) (i n : nat) : H * nat :=
  match fuel with
  | 0 => (h, i)
  | S fuel =>
      match down_child h i n with
      | None => (h, i)
      | Some j => down_loop fuel (hswap i j h) j n
      end
  end.

(** [down] returns whether the element moved. *)
Definition down (h : H) (i0 n : nat) : H * bool :=
  let '(h', i) := down_loop n h i0 n in (h', i0 <? i).

Fixpoint up_loop (fuel : nat) (h : H) (j : nat) : H :=
  match fuel with
  | 0 => h
  | S fuel =>
      let i := parent j in
      if (i =? j) || negb (hless h j i) then h
      else up_loop fuel (hswap i j h) i
  end.

Definition up (h : H) (j : nat) : H := up_loop (S j) h j.

(** [for i := n/2 - 1; i >= 0; i--]: [init_loop k] runs the iterations
    [k-1, ..., 0]. *)
Fixpoint init_loop (k : nat) (h : H) (n : nat) : H :=
  match k with
  | 0 => h
  | S i => init_loop i (down h i n).1 n
  end.

Definition Init (h : H) : H := init_loop (hlen h / 2) h (hlen h).

Definition Push (x : X) (h : H) : H :=
  let h := hpush x h in up h (hlen h - 1).

Definition Pop (h : H) : outcome (X * H) :=
  if hlen h =? 0 then Panic "index out of range"
  else
    let n := hlen h - 1 in
    let h := hswap 0 n h in
    hpop (down h 0 n).1.

Definition Remove (h : H) (i : nat) : outcome (X * H) :=
  if hlen h <=? i then Panic "index out of range"
  else
    let n := hlen h - 1 in
    if n =? i then hpop h
    else
      let h := hswap i n h in
      let '(h', moved) := down h i n in
      hpop (if moved then h' else up h' i).

Definition Fix (h : H) (i : nat) : H :=
  let '(h', moved) := down h i (hlen h) in
  if moved then h' else up h' i.
End operations.

(** * Comparisons *)

(** What [Less] must be for a heap or a sort to make sense: a strict weak
    order. *)
Class StrictWeak {A : Type} (lt : A → A → bool) : Prop := {
  sw_asym : ∀ a b, lt a b = true → lt b a = false;
  sw_neg_trans : ∀ a b c, lt b a = false → lt c b = false → lt c a = false;
}.

Section strict_weak.
Context {A : Type} (lt : A → A → bool) `{!StrictWeak lt}.

Lemma sw_irrefl a : lt a a = false.
Proof. destruct (lt a a) eqn:E; [|done]. by apply sw_asym in E as ?; congruence. Qed.

Lemma sw_trans a b c : lt a b = true → lt b c = true → lt a c = true.
Proof.
  intros Hab Hbc. destruct (lt a c) eqn:E; [done|].
  pose proof (sw_asym _ _ Hab) as H1. pose proof (sw_asym _ _ Hbc) as H2.
  pose proof (sw_neg_trans _ _ _ H2 E). congruence.
Qed.
End strict_weak.

(** * Laws of an implementation *)

Class HeapLaws (H X A : Type) (lt : A → A → bool) `{HI : HeapInterface H X} := {
  items : H → list A;
  view : X → H → A;
  hlen_items h : hlen h = length (items h);
  hless_items h i j a b :
    items h !! i = Some a → items h !! j = Some b → hless h i j = lt a b;
  hswap_items h i j :
    i < length (items h) → j < length (items h) →
    items (hswap i j h) = list_swap i j (items h);
  hpush_items x h : items (hpush x h) = items h ++ [view x h];
  hpop_items h l a :
    items h = l ++ [a] →
    ∃ x h', hpop h = Ret (x, h') ∧ view x h' = a ∧ items h' = l;
}.

(** * The heap order *)

Lemma parent_spec j i : 0 < j → parent j = i ↔ j = 2 * i + 1 ∨ j = 2 * i + 2.
Proof.
  unfold parent. intros.
  pose proof (Nat.div_mod_eq (j - 1) 2). pose proof (Nat.mod_upper_bound (j - 1) 2). lia.
Qed.

Lemma parent_lt j : 0 < j → parent j < j.
Proof. intros. pose proof (parent_spec j (parent j)). lia. Qed.

Section order.
Context {A : Type} (lt : A → A → bool).
Implicit Types L : list A.

(** The element at [j] is not smaller than the one at [i]. *)
Definition ordered_at L (i j : nat) : Prop :=
  ∀ a b, L !! i = Some a → L !! j = Some b → lt b a = false.

(** Heap order among the first [n] positions, for parents from [b] on. *)
Definition heap_from (b n : nat) L : Prop :=
  ∀ j, 0 < j < n → b ≤ parent j → ordered_at L (parent j) j.

Definition is_heap L : Prop := heap_from 0 (length L) L.

(** Everything is in order but the children of [i]. *)
Definition down_inv (b n : nat) L (i : nat) : Prop :=
  (∀ j, 0 < j < n → b ≤ parent j → parent j ≠ i → ordered_at L (parent j) j) ∧
  (0 < i → b ≤ parent i → ∀ j, 0 < j < n → parent j = i → ordered_at L (parent i) j).

(** Everything is in order but [i] with respect to its parent. *)
Definition up_inv (n : nat) L (i : nat) : Prop :=
  (∀ j, 0 < j < n → j ≠ i → ordered_at L (parent j) j) ∧
  (0 < i → ∀ j, 0 < j < n → parent j = i → ordered_at L (parent i) j).

(** Everything is in order but what involves [i]: the state after the
    element at [i] has been replaced. *)
Definition fix_inv (b n : nat) L (i : nat) : Prop :=
  (∀ j, 0 < j < n → b ≤ parent j → j ≠ i → parent j ≠ i →
     ordered_at L (parent j) j) ∧
  (0 < i → b ≤ parent i → ∀ j, 0 < j < n → parent j = i → ordered_at L (parent i) j).

Context `{!StrictWeak lt}.

Lemma ordered_at_trans L i j k :
  j < length L → ordered_at L i j → ordered_at L j k → ordered_at L i k.
Proof.
  intros [b Hb]%lookup_lt_is_Some_2 H1 H2 a c Ha Hc.
  eapply sw_neg_trans; [by eapply H1|by eapply H2].
Qed.

Lemma is_heap_root L a :
  is_heap L → L !! 0 = Some a → ∀ j b, L !! j = Some b → lt b a = false.
Proof.
  intros Hh Ha j. induction (lt_wf j) as [j _ IH]. intros b Hb.
  destruct (decide (j = 0)) as [->|Hj].
  { simplify_eq. by apply sw_irrefl. }
  apply lookup_lt_Some in Hb as Hlt.
  assert (parent j < j) as Hp by (apply parent_lt; lia).
  destruct (lookup_lt_is_Some_2 L (parent j)) as [c Hc]; [lia|].
  eapply sw_neg_trans; [by eapply (IH (parent j))|].
  by eapply (Hh j); [lia..| |].
Qed.

Lemma fix_inv_insert L i x :
  is_heap L → fix_inv 0 (length L) (<[i := x]> L) i.
Proof.
  intros Hh. split.
  - intros j Hj _ Hne Hp a b. rewrite !list_lookup_insert_ne by done. apply Hh; lia.
  - intros Hi _ j Hj Hp a b.
    assert (parent i < i) by (by apply parent_lt).
    pose proof (parent_lt j).
    rewrite !list_lookup_insert_ne by lia. apply ordered_at_trans with i.
    + destruct (decide (i < length L)); [done|]. lia.
    + apply Hh; lia.
    + rewrite <-Hp. apply Hh; lia.
Qed.

Lemma is_heap_fix_inv L i : i < length L → is_heap L → fix_inv 0 (length L) L i.
Proof.
  intros Hi Hh. pose proof (parent_lt i). split.
  - intros j Hj _ _ _. apply Hh; lia.
  - intros H0 _ j Hj Hp. apply ordered_at_trans with i; [done|apply Hh; lia|].
    rewrite <-Hp. apply Hh; lia.
Qed.

Lemma down_inv_fix b n L i : down_inv b n L i → fix_inv b n L i.
Proof. intros [H1 H2]. split; [|done]. intros. by apply H1. Qed.

(** [j] is the child of [i] that [down] picks. *)
Definition picks (n : nat) L (i j : nat) : Prop :=
  0 < j < n ∧ parent j = i ∧
  (∀ a c, L !! i = Some a → L !! j = Some c → lt c a = true) ∧
  (∀ k, 0 < k < n → parent k = i → ordered_at L j k).

Lemma down_step b n L i j :
  n ≤ length L → b ≤ i → picks n L i j → fix_inv b n L i →
  down_inv b n (list_swap i j L) j.
Proof.
  intros Hn Hb (Hj & Hp & Hlt & Hmin) [H1 H2].
  pose proof (parent_lt j). pose proof (parent_lt i) as Hpi.
  split.
  - intros k Hk Hbk Hpk a c. pose proof (parent_lt k).
    rewrite !list_swap_lookup by lia.
    destruct (decide (parent k = j)); [done|].
    destruct (decide (k = j)) as [->|].
    { rewrite Hp. rewrite decide_True by done. intros Ha Hc.
      apply sw_asym. by eapply Hlt. }
    destruct (decide (parent k = i)) as [Hki|].
    { rewrite decide_False by lia. intros. by eapply Hmin. }
    destruct (decide (k = i)) as [->|].
    { apply (H2 ltac:(lia) Hbk j); done. }
    apply H1; lia.
  - intros _ Hbj k Hk Hpk a c. pose proof (parent_lt k).
    rewrite !list_swap_lookup by lia. rewrite Hp.
    repeat case_decide; try lia.
    rewrite <-Hpk. apply H1; lia.
Qed.

Lemma up_step n L j :
  n ≤ length L → 0 < j < n →
  (∀ a c, L !! j = Some a → L !! parent j = Some c → lt a c = true) →
  up_inv n L j → up_inv n (list_swap (parent j) j L) (parent j).
Proof.
  intros Hn Hj Hlt [H1 H2].
  assert (parent j < j) as Hpj by (apply parent_lt; lia).
  set (i := parent j) in *.
  assert (ordered_at L j i) as Hji.
  { intros a c Ha Hc. apply sw_asym. by eapply Hlt. }
  split.
  - intros k Hk Hki a c. pose proof (parent_lt k).
    rewrite !list_swap_lookup by lia.
    destruct (decide (k = j)) as [->|].
    { fold i. rewrite decide_False, decide_True by lia. intros Ha Hc.
      apply sw_asym. by eapply Hlt. }
    destruct (decide (parent k = j)) as [Hkj|].
    { rewrite decide_False by lia. apply H2; lia. }
    rewrite (decide_False (P := k = i)) by done.
    destruct (decide (parent k = i)) as [Hkp|]; [|apply H1; lia].
    apply ordered_at_trans with i; [lia|done|].
    rewrite <-Hkp. apply H1; lia.
  - intros Hi k Hk Hpk a c.
    pose proof (parent_lt k). pose proof (parent_lt i Hi) as Hpi.
    rewrite !list_swap_lookup by lia.
    rewrite !(decide_False (P := parent i = _)) by lia.
    assert (ordered_at L (parent i) i) as Hpii by (apply H1; lia).
    repeat case_decide; try lia; [by apply Hpii|].
    apply ordered_at_trans with i; [lia|done|].
    rewrite <-Hpk. apply H1; lia.
Qed.
End order.
#[global] Arguments is_heap {A} lt L.

(** * Correctness of the operations against the interface *)

Section correctness.
Context {H X A : Type} {lt : A → A → bool} `{!StrictWeak lt}.
Context {HI : HeapInterface H X} `{HL : !HeapLaws H X A lt}.
Implicit Types h : H.

Lemma down_child_Some h i n j :
  i < n → n ≤ length (items h) →
  down_child h i n = Some j → picks lt n (items h) i j.
Proof.
  intros Hi Hn. unfold down_child.
  remember (2 * i + 1) as j1 eqn:Ej1. remember (j1 + 1) as j2 eqn:Ej2.
  assert (∀ k, 0 < k → parent k = i → k = j1 ∨ k = j2) as Hch.
  { intros k Hk Hp%parent_spec; lia. }
  assert (parent j1 = i ∧ parent j2 = i) as [Hp1 Hp2].
  { rewrite !parent_spec by lia. lia. }
  destruct (Nat.leb_spec n j1); [done|].
  destruct (lookup_lt_is_Some_2 (items h) i) as [a Ha]; [lia|].
  destruct (lookup_lt_is_Some_2 (items h) j1) as [b Hb]; [lia|].
  destruct (Nat.ltb_spec j2 n); cbn [andb].
  - destruct (lookup_lt_is_Some_2 (items h) j2) as [c Hc]; [lia|].
    rewrite (hless_items _ _ _ _ _ Hc Hb).
    destruct (lt c b) eqn:Ecb.
    + rewrite (hless_items _ _ _ _ _ Hc Ha).
      destruct (lt c a) eqn:Eca; [|done]. intros [= <-].
      split_and!; [lia|lia|done|intros; by simplify_eq|].
      intros k Hk [-> | ->]%Hch x y Hx Hy; [| |lia]; simplify_eq;
        [by apply sw_asym|by apply sw_irrefl].
    + rewrite (hless_items _ _ _ _ _ Hb Ha).
      destruct (lt b a) eqn:Eba; [|done]. intros [= <-].
      split_and!; [lia|lia|done|intros; by simplify_eq|].
      intros k Hk [-> | ->]%Hch x y Hx Hy; [| |lia]; simplify_eq;
        [by apply sw_irrefl|done].
  - rewrite (hless_items _ _ _ _ _ Hb Ha).
    destruct (lt b a) eqn:Eba; [|done]. intros [= <-].
    split_and!; [lia|lia|done|intros; by simplify_eq|].
    intros k Hk [-> | ->]%Hch x y Hx Hy; [|lia|lia]; simplify_eq.
    by apply sw_irrefl.
Qed.

Lemma down_child_None h i n k :
  i < n → n ≤ length (items h) →
  down_child h i n = None → 0 < k < n → parent k = i → ordered_at lt (items h) i k.
Proof.
  intros Hi Hn Hd Hk Hp%parent_spec a y Ha Hy; [|lia]. revert Hd.
  unfold down_child.
  remember (2 * i + 1) as j1 eqn:Ej1. remember (j1 + 1) as j2 eqn:Ej2.
  assert (k = j1 ∨ k = j2) as Hk' by lia. clear Hp.
  destruct (Nat.leb_spec n j1); [lia|].
  destruct (lookup_lt_is_Some_2 (items h) j1) as [b Hb]; [lia|].
  destruct (Nat.ltb_spec j2 n); cbn [andb].
  - destruct (lookup_lt_is_Some_2 (items h) j2) as [c Hc]; [lia|].
    rewrite (hless_items _ _ _ _ _ Hc Hb).
    destruct (lt c b) eqn:Ecb.
    + rewrite (hless_items _ _ _ _ _ Hc Ha).
      destruct (lt c a) eqn:Eca; [done|]. intros _.
      destruct Hk' as [->| ->]; simplify_eq; [|done].
      eapply sw_neg_trans; [exact Eca|]. by apply sw_asym.
    + rewrite (hless_items _ _ _ _ _ Hb Ha).
      destruct (lt b a) eqn:Eba; [done|]. intros _.
      destruct Hk' as [->| ->]; simplify_eq; [done|].
      eapply sw_neg_trans; [exact Eba|done].
  - rewrite (hless_items _ _ _ _ _ Hb Ha).
    destruct (lt b a) eqn:Eba; [done|]. intros _.
    destruct Hk' as [->| ->]; [|lia]. by simplify_eq.
Qed.

(** What sifting leaves alone: the elements as a multiset, and every
    position from [n] on. *)
Definition sifted (n : nat) h h' : Prop :=
  items h' ≡ₚ items h ∧ ∀ k, n ≤ k → items h' !! k = items h !! k.

Lemma sifted_refl n h : sifted n h h.
Proof. done. Qed.

Lemma sifted_trans n h1 h2 h3 : sifted n h1 h2 → sifted n h2 h3 → sifted n h1 h3.
Proof.
  intros [P1 S1] [P2 S2]. split; [by rewrite P2|].
  intros k Hk. by rewrite S2, S1.
Qed.

Lemma sifted_length n h h' : sifted n h h' → length (items h') = length (items h).
Proof. intros [P _]. by rewrite P. Qed.

Lemma hswap_sifted n h i j :
  i < n → j < n → n ≤ length (items h) → sifted n h (hswap i j h).
Proof.
  intros Hi Hj Hn. unfold sifted. rewrite hswap_items by lia.
  split; [apply list_swap_perm|].
  intros k Hk. rewrite list_swap_lookup by lia. repeat case_decide; lia || done.
Qed.

Lemma down_loop_spec b n fuel h i :
  n ≤ length (items h) → i < n → b ≤ i → n - i ≤ fuel →
  down_inv lt b n (items h) i →
  let h' := (down_loop fuel h i n).1 in
  heap_from lt b n (items h') ∧ sifted n h h'.
Proof.
  revert h i. induction fuel as [|fuel IH]; simpl; intros h i Hn Hi Hb Hf Hd; [lia|].
  destruct (down_child h i n) as [j|] eqn:E.
  - apply down_child_Some in E as Hpk; [|done..].
    pose proof Hpk as (Hj & Hp & _). pose proof (parent_lt j).
    assert (sifted n h (hswap i j h)) as Hs by (apply hswap_sifted; lia).
    pose proof (sifted_length _ _ _ Hs) as Hl.
    destruct (IH (hswap i j h) j) as [Hh Hs']; [lia..| |].
    { rewrite hswap_items by lia. apply down_step; [done..|]. by apply down_inv_fix. }
    split; [done|]. by eapply sifted_trans.
  - split; [|apply sifted_refl]. intros j Hj Hbj.
    destruct (decide (parent j = i)) as [Hp|]; [|by apply Hd].
    rewrite Hp. by eapply down_child_None.
Qed.

Lemma down_spec b n h i :
  n ≤ length (items h) → i < n → b ≤ i → down_inv lt b n (items h) i →
  heap_from lt b n (items (down h i n).1) ∧ sifted n h (down h i n).1.
Proof.
  intros. unfold down. pose proof (down_loop_spec b n n h i) as Hd.
  destruct (down_loop n h i n) as [h' i'] eqn:E; simpl in *. apply Hd; auto; lia.
Qed.

Lemma down_loop_moves fuel h i n :
  i ≤ (down_loop fuel h i n).2.
Proof.
  revert h i. induction fuel as [|fuel IH]; simpl; intros h i; [done|].
  destruct (down_child h i n) as [j|] eqn:E; [|done].
  trans j; [|apply IH]. revert E. unfold down_child.
  destruct (Nat.leb n (2 * i + 1)); [done|].
  repeat case_match; intros; simplify_eq; lia.
Qed.

Lemma up_loop_spec n fuel h j :
  n ≤ length (items h) → j < n → j < fuel → up_inv lt n (items h) j →
  heap_from lt 0 n (items (up_loop fuel h j)) ∧ sifted n h (up_loop fuel h j).
Proof.
  revert h j. induction fuel as [|fuel IH]; simpl; intros h j Hn Hj Hf Hu; [lia|].
  destruct (decide (j = 0)) as [->|Hj0].
  { change (parent 0) with 0. simpl. split; [|apply sifted_refl].
    intros k Hk _. apply Hu; lia. }
  assert (parent j < j) by (apply parent_lt; lia).
  rewrite (proj2 (Nat.eqb_neq (parent j) j)) by lia. simpl.
  destruct (lookup_lt_is_Some_2 (items h) j) as [a Ha]; [lia|].
  destruct (lookup_lt_is_Some_2 (items h) (parent j)) as [c Hc]; [lia|].
  rewrite (hless_items _ _ _ _ _ Ha Hc).
  destruct (lt a c) eqn:E; simpl.
  - assert (sifted n h (hswap (parent j) j h)) as Hs by (apply hswap_sifted; lia).
    pose proof (sifted_length _ _ _ Hs) as Hl.
    destruct (IH (hswap (parent j) j h) (parent j)) as [Hh Hs']; [lia..| |].
    { rewrite hswap_items by lia. apply up_step; [done|done|lia| |done].
      intros. by simplify_eq. }
    split; [done|]. by eapply sifted_trans.
  - split; [|apply sifted_refl]. intros k Hk _.
    destruct (decide (k = j)) as [->|]; [|apply Hu; lia].
    intros x y Hx Hy. by simplify_eq.
Qed.

Lemma up_spec n h j :
  n ≤ length (items h) → j < n → up_inv lt n (items h) j →
  heap_from lt 0 n (items (up h j)) ∧ sifted n h (up h j).
Proof. intros. apply up_loop_spec; auto. Qed.

(** The common tail of [Fix] and [Remove]: sift down, else sift up. *)
Lemma fix_spec n h i :
  n ≤ length (items h) → i < n → fix_inv lt 0 n (items h) i →
  let h' := (let '(h', moved) := down h i n in if moved then h' else up h' i) in
  heap_from lt 0 n (items h') ∧ sifted n h h'.
Proof.
  intros Hn Hi Hf. unfold down. destruct n as [|n]; [lia|]. simpl.
  destruct (down_child h i (S n)) as [j|] eqn:E.
  - apply down_child_Some in E as Hpk; [|done..].
    pose proof Hpk as (Hj & Hp & _). pose proof (parent_lt j).
    assert (sifted (S n) h (hswap i j h)) as Hs by (apply hswap_sifted; lia).
    pose proof (sifted_length _ _ _ Hs) as Hl.
    pose proof (down_loop_moves n (hswap i j h) j (S n)) as Hm.
    pose proof (down_loop_spec 0 (S n) n (hswap i j h) j) as Hd.
    destruct (down_loop n (hswap i j h) j (S n)) as [h' i'] eqn:El; simpl in *.
    rewrite (proj2 (Nat.ltb_lt i i')) by lia.
    destruct Hd as [Hh Hs']; [lia..| |].
    { rewrite hswap_items by lia. apply down_step; [done|done|lia|done|done]. }
    split; [done|]. by eapply sifted_trans.
  - rewrite Nat.ltb_irrefl. apply up_spec; [done..|]. split.
    + intros j Hj Hne. destruct (decide (parent j = i)) as [Hp|].
      * rewrite Hp. by eapply down_child_None.
      * apply Hf; [done|lia|done|done].
    + intros H0 j Hj Hp. apply Hf; [done|lia|done|done].
Qed.

Lemma init_loop_spec k h n :
  n ≤ length (items h) → k ≤ n → heap_from lt k n (items h) →
  heap_from lt 0 n (items (init_loop k h n)) ∧ sifted n h (init_loop k h n).
Proof.
  revert h. induction k as [|k IH]; simpl; intros h Hn Hk Hh.
  { split; [done|apply sifted_refl]. }
  destruct (down_spec k n h k) as [Hd Hs]; [lia..| |].
  { split; [|intros; pose proof (parent_lt k); lia].
    intros j Hj Hb Hne. apply Hh; lia. }
  pose proof (sifted_length _ _ _ Hs) as Hl.
  destruct (IH (down h k n).1) as [Hi Hs']; [lia..|done|].
  split; [done|]. by eapply sifted_trans.
Qed.

Lemma Init_spec h :
  is_heap lt (items (Init h)) ∧ items (Init h) ≡ₚ items h.
Proof.
  unfold Init. rewrite hlen_items.
  destruct (init_loop_spec (length (items h) / 2) h (length (items h))) as [Hh Hs].
  - done.
  - apply Nat.Div0.div_le_upper_bound. lia.
  - intros j Hj Hb. exfalso.
    pose proof (Nat.div_mod_eq (length (items h)) 2).
    pose proof (Nat.mod_upper_bound (length (items h)) 2).
    pose proof (parent_spec j (parent j)). lia.
  - unfold is_heap. rewrite (sifted_length _ _ _ Hs). split; [done|apply Hs].
Qed.

(** A heap is left as it is. *)
Lemma Init_heap h : is_heap lt (items h) → Init h = h.
Proof.
  intros Hh. unfold Init. rewrite hlen_items. pose proof (Nat.div_mod_eq (length (items h)) 2) as Hdiv.
  assert (∀ i, i < length (items h) → (down h i (length (items h))).1 = h) as Hdown.
  { intros i Hi. unfold down. destruct (length (items h)) as [|n] eqn:Hn; [done|]. cbn [down_loop].
    destruct (down_child h i (S n)) as [j|] eqn:Hj; [|done].
    apply down_child_Some in Hj as (Hjn & Hp & Hlt & _); [|lia|lia].
    destruct (lookup_lt_is_Some_2 (items h) i) as [a Ha]; [lia|].
    destruct (lookup_lt_is_Some_2 (items h) j) as [b Hb]; [lia|].
    subst i. assert (lt b a = false) by (apply (Hh j); [lia|lia|done|done]).
    specialize (Hlt a b Ha Hb). congruence. }
  assert (∀ k, k ≤ length (items h) → init_loop k h (length (items h)) = h) as Hinit.
  { induction k as [|k IH]; simpl; intros Hk; [done|]. rewrite Hdown by lia. apply IH. lia. }
  apply Hinit. lia.
Qed.

Lemma Push_spec x h :
  is_heap lt (items h) →
  is_heap lt (items (Push x h)) ∧ items (Push x h) ≡ₚ view x h :: items h.
Proof.
  intros Hh. unfold Push. rewrite hlen_items.
  set (h1 := hpush x h).
  assert (items h1 = items h ++ [view x h]) as Hit by apply hpush_items.
  assert (length (items h1) = S (length (items h))) as Hl.
  { rewrite Hit, length_app. simpl. lia. }
  destruct (up_spec (length (items h1)) h1 (length (items h1) - 1)) as [Hu Hs];
    [lia|lia| |].
  - split.
    + intros j Hj Hne. pose proof (parent_lt j). intros a b.
      rewrite Hit, !lookup_app_l by lia. apply Hh; lia.
    + intros _ j Hj Hp. pose proof (parent_lt j). lia.
  - unfold is_heap. rewrite (sifted_length _ _ _ Hs). split; [done|].
    rewrite (proj1 Hs), Hit. apply Permutation_app_comm.
Qed.

(** Taking the last element off a list whose first [n] positions are a
    heap. *)
Lemma hpop_tail n h a :
  length (items h) = S n → items h !! n = Some a → heap_from lt 0 n (items h) →
  ∃ x h', hpop h = Ret (x, h') ∧ view x h' = a ∧
    items h ≡ₚ a :: items h' ∧ is_heap lt (items h').
Proof.
  intros Hlen Ha Hd.
  destruct (exists_last (l := items h)) as (l & b & Hl).
  { intros E. by rewrite E in Hlen. }
  assert (length l = n) as Hll.
  { apply (f_equal length) in Hl. rewrite length_app in Hl. simpl in Hl. lia. }
  rewrite Hl, lookup_app_r, Hll, Nat.sub_diag in Ha by lia. simplify_eq/=.
  destruct (hpop_items _ _ _ Hl) as (x & h' & Hpop & Hv & Hi').
  exists x, h'. split_and!; [done..| |].
  - rewrite Hl, Hi'. apply Permutation_app_comm.
  - rewrite Hi'. unfold is_heap. intros j Hj _ u v Hu Hv'.
    apply (Hd j); [lia..| |]; rewrite Hl; by apply lookup_app_l_Some.
Qed.

(** [Pop] on a nonempty heap returns its first, smallest element. *)
Lemma Pop_spec h :
  is_heap lt (items h) → items h ≠ [] →
  ∃ x h', Pop h = Ret (x, h') ∧ items h !! 0 = Some (view x h') ∧
    items h ≡ₚ view x h' :: items h' ∧ is_heap lt (items h') ∧
    ∀ a, a ∈ items h → lt a (view x h') = false.
Proof.
  intros Hh Hne. unfold Pop. rewrite hlen_items.
  destruct (items h) as [|a0 L] eqn:Hit; [done|]. rewrite <-Hit in Hh |- *.
  assert (length (items h) = S (length L)) as Hlen by (by rewrite Hit).
  rewrite Hlen. simpl. rewrite Nat.sub_0_r. set (n := length L) in *.
  set (h1 := hswap 0 n h).
  assert (items h1 = list_swap 0 n (items h)) as Hit1 by (apply hswap_items; lia).
  assert (length (items h1) = S n) as Hl1 by (by rewrite Hit1, length_list_swap).
  assert (heap_from lt 0 n (items (down h1 0 n).1) ∧ sifted n h1 (down h1 0 n).1)
    as [Hd Hs].
  { destruct (decide (n = 0)) as [->|].
    - unfold down. simpl. split; [intros j; lia|apply sifted_refl].
    - apply down_spec; [lia..|]. split; [|lia].
      intros j Hj _ Hp a b. pose proof (parent_lt j).
      rewrite Hit1, !list_swap_lookup by lia.
      repeat case_decide; try lia. apply Hh; lia. }
  destruct (hpop_tail n (down h1 0 n).1 a0) as (x & h' & Hpop & Hv & Hp & Hh').
  - by rewrite (sifted_length _ _ _ Hs).
  - rewrite (proj2 Hs), Hit1, list_swap_lookup, decide_True by lia. by rewrite Hit.
  - done.
  - exists x, h'. rewrite Hv. split_and!; [done|by rewrite Hit| |done|].
    + by rewrite <-Hp, (proj1 Hs), Hit1, list_swap_perm.
    + intros b [j Hb]%list_elem_of_lookup.
      apply (is_heap_root lt (items h) a0) with j; [done|by rewrite Hit|done].
Qed.

Lemma Fix_spec h i :
  i < length (items h) → fix_inv lt 0 (length (items h)) (items h) i →
  is_heap lt (items (Fix h i)) ∧ items (Fix h i) ≡ₚ items h.
Proof.
  intros Hi Hf. unfold Fix. rewrite hlen_items.
  destruct (fix_spec (length (items h)) h i) as [Hh Hs]; [lia..|done|].
  destruct (down h i (length (items h))) as [h' moved].
  unfold is_heap. rewrite (sifted_length _ _ _ Hs). split; [done|apply Hs].
Qed.

(** [Remove] takes out exactly the element at position [i], which need not be
    in heap order with its neighbours. *)
Lemma Remove_spec h i a :
  fix_inv lt 0 (length (items h)) (items h) i → items h !! i = Some a →
  ∃ x h', Remove h i = Ret (x, h') ∧ view x h' = a ∧
    items h ≡ₚ a :: items h' ∧ is_heap lt (items h').
Proof.
  intros Hh Ha. unfold Remove. rewrite hlen_items.
  apply lookup_lt_Some in Ha as Hi.
  rewrite (proj2 (Nat.leb_gt _ _)) by lia.
  set (n := length (items h) - 1).
  assert (length (items h) = S n) as Hlen by lia.
  destruct (Nat.eqb_spec n i) as [Hni|Hni].
  { apply (hpop_tail n); [done|congruence|]. intros j Hj _.
    pose proof (parent_lt j). apply Hh; lia. }
  set (h1 := hswap i n h).
  assert (items h1 = list_swap i n (items h)) as Hit1 by (apply hswap_items; lia).
  assert (length (items h1) = S n) as Hl1 by (by rewrite Hit1, length_list_swap).
  destruct (fix_spec n h1 i) as [Hd Hs]; [lia|lia| |].
  { split.
    - intros j Hj _ Hne Hp u v. pose proof (parent_lt j).
      rewrite Hit1, !list_swap_lookup by lia.
      repeat case_decide; try lia. apply Hh; lia.
    - intros H0 _ j Hj Hp u v. pose proof (parent_lt j). pose proof (parent_lt i H0).
      rewrite Hit1, !list_swap_lookup by lia.
      repeat case_decide; try lia. apply Hh; lia. }
  destruct (down h1 i n) as [h' moved].
  set (h2 := if moved then h' else up h' i) in *.
  destruct (hpop_tail n h2 a) as (x & h3 & Hpop & Hv & Hp & Hh').
  - by rewrite (sifted_length _ _ _ Hs).
  - by rewrite (proj2 Hs), Hit1, list_swap_lookup, decide_True by lia.
  - done.
  - exists x, h3. split_and!; [done..| |done].
    by rewrite <-Hp, (proj1 Hs), Hit1, list_swap_perm.
Qed.
End correctness.

(** * Invariants of an implementation *)

(** What the interface's operations preserve, the heap operations preserve: for
    elements that know their positions, say. *)
Section preserved.
Context {H X A : Type} {lt : A → A → bool}.
Context {HI : HeapInterface H X} `{HL : !HeapLaws H X A lt}.
Context (P : H → Prop).
Hypothesis P_swap : ∀ h i j, P h → i < length (items h) → j < length (items h) → P (hswap i j h).
Implicit Types h : H.

Lemma down_child_bound h i n j : down_child h i n = Some j → i < j < n.
Proof. unfold down_child. repeat case_match; intros [= <-]; rewrite ?Nat.leb_gt, ?andb_true_iff, ?Nat.ltb_lt in *; lia. Qed.

Lemma down_preserves n h i : n ≤ length (items h) → P h → P (down h i n).1 ∧ length (items (down h i n).1) = length (items h).
Proof.
  unfold down. intros Hn HP. destruct (down_loop n h i n) as [h' k] eqn:Hd. simpl.
  revert Hd. generalize n at 1 as fuel. intros fuel. revert h i Hn HP.
  induction fuel as [|fuel IH]; intros h i Hn HP; simpl; [by intros [= <- _]|].
  destruct (down_child h i n) as [j|] eqn:Hj; [|by intros [= <- _]].
  apply down_child_bound in Hj. intros Hd. destruct (IH (hswap i j h) j) as [HP' Hl]; [|by apply P_swap; [|lia..]|done|].
  - rewrite hswap_items, length_list_swap; lia.
  - split; [done|]. rewrite Hl, hswap_items, length_list_swap by lia. done.
Qed.

Lemma up_preserves h j : j < length (items h) → P h → P (up h j).
Proof.
  unfold up. generalize (S j) as fuel. intros fuel. revert h j.
  induction fuel as [|fuel IH]; intros h j Hj HP; simpl; [done|].
  destruct (Nat.eqb_spec (parent j) j) as [|Hne]; [done|]. simpl. destruct (hless h j (parent j)); [|done]. simpl.
  assert (parent j < j) by (apply parent_lt; destruct j; [done|lia]).
  apply IH; [|by apply P_swap; [|lia..]]. rewrite hswap_items, length_list_swap; lia.
Qed.

Hypothesis P_pop : ∀ h x h', P h → hpop h = Ret (x, h') → P h'.

Lemma Push_preserves x h : P (hpush x h) → P (Push x h).
Proof.
  intros HP. unfold Push. rewrite hlen_items. apply up_preserves; [|done].
  rewrite hpush_items, length_app. simpl. lia.
Qed.

Lemma Pop_preserves h x h' : P h → Pop h = Ret (x, h') → P h'.
Proof.
  unfold Pop. rewrite hlen_items. destruct (Nat.eqb_spec (length (items h)) 0); [done|]. intros HP.
  apply P_pop, down_preserves; [|by apply P_swap; [|lia..]].
  rewrite hswap_items, length_list_swap; lia.
Qed.

Lemma fix_preserves n h i : n ≤ length (items h) → i < length (items h) → P h →
  P (if (down h i n).2 then (down h i n).1 else up (down h i n).1 i).
Proof.
  intros Hn Hi HP. destruct (down_preserves n h i Hn HP) as [HP' Hl].
  destruct (down h i n).2; [done|]. apply up_preserves; [lia|done].
Qed.

Lemma Fix_preserves h i : i < length (items h) → P h → P (Fix h i).
Proof.
  intros Hi HP. pose proof (fix_preserves (hlen h) h i) as Hf. unfold Fix.
  destruct (down h i (hlen h)) as [h' moved]. apply Hf; [by rewrite hlen_items|done|done].
Qed.

Lemma Remove_preserves h i x h' : P h → Remove h i = Ret (x, h') → P h'.
Proof.
  unfold Remove. rewrite hlen_items. destruct (Nat.leb_spec (length (items h)) i); [done|]. intros HP.
  destruct (Nat.eqb_spec (length (items h) - 1) i); [by apply P_pop|].
  pose proof (fix_preserves (length (items h) - 1) (hswap i (length (items h) - 1) h) i) as Hf.
  destruct (down _ i _) as [h1 moved]. apply P_pop, Hf.
  - rewrite hswap_items, length_list_swap; lia.
  - rewrite hswap_items, length_list_swap; lia.
  - apply P_swap; [done|lia..].
Qed.
End preserved.
