(* ===== verification/SliceIO.v ===== *)
(** Package sliceio: readers of record streams (src/sliceio/reader.go) and the
    record scanner (src/sliceio/scanner.go).

    A frame that is passed to [Read] is represented by its length, and the
    call's effect on it by the rows it leaves in [out[0:n]]: a call
    [Read fuel r n] is Go's [r.Read(ctx, out)] with [out.Len() = n], and
    returns the reader's next state, the rows read and the error, if any.
    The interface is the class [Reader]; what a well behaved reader promises
    to its clients is [Streams]: reading it with nonempty frames produces a
    given list of rows, and then EOF, after finitely many calls. *)
From S2P Require Import Prelude.

(** * Interfaces *)

Class Reader (row R : Type) :=
  Read : nat → R → nat → outcome (R * (list row * option error)).

Class Closer (R : Type) :=
  Close : R → R * option error.

(** * Readers *)

Section readers.
Context {row : Type}.

(** ** nopCloser *)
Record nopCloser (R : Type) := NopCloser { nc_Reader : R }.

(** ** multiReader *)
Record multiReader (R : Type) := mkMultiReader {
  mr_q : list R;
  mr_err : option error;
}.

(** ** frameReader: the rows that remain of the frame *)
Record frameReader := FrameReader { fr_Frame : list row }.

(** ** errReader *)
Record errReader := mkErrReader { er_Err : error }.

(** ** ReaderWithCloseFunc *)
Record readerWithCloseFunc (R : Type) := mkReaderWithCloseFunc {
  rc_Reader : R;
  rc_CloseFunc : unit → option error;
}.

(** ** ClosingReader *)
Record closingReader (R : Type) := mkClosingReader {
  cr_r : R;
  cr_closed : bool;
}.

(** ** EmptyReader *)
Record emptyReader := EmptyReader {}.

(** ** PprofReader *)
Record pprofReader (R : Type) := PprofReader {
  pp_Reader : R;
  pp_Label : string;
}.
End readers.
Arguments NopCloser {R} _.
Arguments nc_Reader {R} _.
Arguments mkMultiReader {R} _ _.
Arguments mr_q {R} _.
Arguments mr_err {R} _.
Arguments frameReader row : clear implicits.
Arguments mkReaderWithCloseFunc {R} _ _.
Arguments rc_Reader {R} _.
Arguments rc_CloseFunc {R} _.
Arguments mkClosingReader {R} _ _.
Arguments cr_r {R} _.
Arguments cr_closed {R} _.
Arguments PprofReader {R} _ _.
Arguments pp_Reader {R} _.
Arguments pp_Label {R} _.

Section operations.
Context {row R : Type} `{Reader row R} `{Closer R}.

Definition nopCloser_Read (fuel : nat) (c : nopCloser R) (n : nat) :
    outcome (nopCloser R * (list row * option error)) :=
  '(r, res) ← Read fuel (nc_Reader c) n;
  Ret (NopCloser r, res).

Definition nopCloser_Close (c : nopCloser R) : nopCloser R * option error := (c, None).

Definition MultiReader (readers : list R) : multiReader R :=
  mkMultiReader readers None.

(** The [for len(m.q) > 0] loop.  On EOF the head of the queue is closed,
    its error ignored, and dropped. *)
Fixpoint multiReader_loop (loop fuel : nat) (q : list R) (n : nat) :
    outcome (multiReader R * (list row * option error)) :=
  match loop with
  | 0 => NoFuel
  | S loop =>
      match q with
      | [] => Ret (mkMultiReader [] None, ([], Some EOF))
      | r :: rest =>
          '(r', (out, err)) ← Read fuel r n;
          match err with
          | Some EOF => multiReader_loop loop fuel rest n
          | Some e => Ret (mkMultiReader (r' :: rest) (Some e), (out, Some e))
          | None =>
              if 0 <? length out
              then Ret (mkMultiReader (r' :: rest) None, (out, None))
              else multiReader_loop loop fuel (r' :: rest) n
          end
      end
  end.

Definition multiReader_Read (fuel : nat) (m : multiReader R) (n : nat) :
    outcome (multiReader R * (list row * option error)) :=
  match mr_err m with
  | Some e => Ret (m, ([], Some e))
  | None => multiReader_loop fuel fuel (mr_q m) n
  end.

(** Closes every reader left in the queue; the first error is returned. *)
Definition multiReader_Close (m : multiReader R) : multiReader R * option error :=
  (mkMultiReader [] (mr_err m),
   fold_left (λ err r,
     let cerr := (Close r).2 in
     match err with None => cerr | Some _ => err end) (mr_q m) None).

Definition frameReader_Read (fuel : nat) (f : frameReader row) (len : nat) :
    outcome (frameReader row * (list row * option error)) :=
  let max := length (fr_Frame f) in
  let n := if max <? len then max else len in
  let out := take n (fr_Frame f) in
  let f' := FrameReader (drop n (fr_Frame f)) in
  Ret (f', (out, if length (fr_Frame f') =? 0 then Some EOF else None)).

(** [ErrReader(err)] panics if err is nil. *)
Definition ErrReader (err : option error) : outcome errReader :=
  match err with
  | None => Panic "nil error"
  | Some e => Ret (mkErrReader e)
  end.

Definition errReader_Read (fuel : nat) (e : errReader) (n : nat) :
    outcome (errReader * (list row * option error)) :=
  Ret (e, ([], Some (er_Err e))).

Definition readerWithCloseFunc_Close (r : readerWithCloseFunc R) :
    readerWithCloseFunc R * option error :=
  (r, rc_CloseFunc r tt).

Definition NewClosingReader (r : R) : closingReader R := mkClosingReader r false.

Definition closingReader_Read (fuel : nat) (c : closingReader R) (n : nat) :
    outcome (closingReader R * (list row * option error)) :=
  '(r', (out, err)) ← Read fuel (cr_r c) n;
  match err with
  | Some _ =>
      if cr_closed c then Ret (mkClosingReader r' true, (out, err))
      else Ret (mkClosingReader (Close r').1 true, (out, err))
  | None => Ret (mkClosingReader r' (cr_closed c), (out, err))
  end.

Definition emptyReader_Read (fuel : nat) (e : emptyReader) (n : nat) :
    outcome (emptyReader * (list row * option error)) :=
  Ret (e, ([], Some EOF)).

Definition pprofReader_Read (fuel : nat) (r : pprofReader R) (n : nat) :
    outcome (pprofReader R * (list row * option error)) :=
  '(r', res) ← Read fuel (pp_Reader r) n;
  Ret (PprofReader r' (pp_Label r), res).

(** ** ReadFull: [acc] holds the rows already read into the frame. *)
Fixpoint ReadFull_loop (loop fuel : nat) (r : R) (len : nat) (acc : list row) :
    outcome (R * (list row * option error)) :=
  match loop with
  | 0 => NoFuel
  | S loop =>
      if length acc <? len then
        '(r', (out, err)) ← Read fuel r (len - length acc);
        match err with
        | Some e => Ret (r', (acc ++ out, Some e))
        | None => ReadFull_loop loop fuel r' len (acc ++ out)
        end
      else Ret (r, (acc, None))
  end.

Definition ReadFull (fuel : nat) (r : R) (len : nat) :
    outcome (R * (list row * option error)) :=
  ReadFull_loop fuel fuel r len [].

(** ** ReadAll: [columns] holds what has been appended so far; [chunk] is
    defaultChunksize.  An error other than EOF is returned. *)
Fixpoint ReadAll_loop (loop fuel chunk : nat) (r : R) (columns : list row) :
    outcome (R * (list row * option error)) :=
  match loop with
  | 0 => NoFuel
  | S loop =>
      '(r', (buf, err)) ← Read fuel r chunk;
      match err with
      | None => ReadAll_loop loop fuel chunk r' (columns ++ buf)
      | Some EOF => Ret (r', (columns ++ buf, None))
      | Some e => Ret (r', (columns, Some e))
      end
  end.

Definition ReadAll (fuel chunk : nat) (r : R) : outcome (R * (list row * option error)) :=
  ReadAll_loop fuel fuel chunk r [].
End operations.

#[export] Instance nopCloser_reader {row R} `{Reader row R} : Reader row (nopCloser R) := nopCloser_Read.
#[export] Instance nopCloser_closer {R} : Closer (nopCloser R) := nopCloser_Close.
#[export] Instance multiReader_reader {row R} `{Reader row R} : Reader row (multiReader R) := multiReader_Read.
#[export] Instance multiReader_closer {R} `{Closer R} : Closer (multiReader R) := multiReader_Close.
#[export] Instance frameReader_reader {row} : Reader row (frameReader row) := frameReader_Read.
#[export] Instance errReader_reader {row} : Reader row errReader := errReader_Read.
#[export] Instance closingReader_reader {row R} `{Reader row R, Closer R} : Reader row (closingReader R) := closingReader_Read.
#[export] Instance emptyReader_reader {row} : Reader row emptyReader := emptyReader_Read.
#[export] Instance pprofReader_reader {row R} `{Reader row R} : Reader row (pprofReader R) := pprofReader_Read.
#[export] Instance readerWithCloseFunc_reader {row R} `{Reader row R} : Reader row (readerWithCloseFunc R) :=
  λ fuel r n, '(r', res) ← Read fuel (rc_Reader r) n; Ret (mkReaderWithCloseFunc r' (rc_CloseFunc r), res).
#[export] Instance readerWithCloseFunc_closer {R} : Closer (readerWithCloseFunc R) := readerWithCloseFunc_Close.

(** * The streaming contract *)

(** How a reader may deliver its rows: a clean reader never returns rows
    together with EOF; a brisk one never returns neither rows nor an error; a
    sticky one keeps returning EOF once it has. *)
Record style := Style { st_clean : bool; st_brisk : bool; st_sticky : bool }.
Definition plain : style := Style false false false.
Definition clean : style := Style true false false.
Definition steady : style := Style false true true.
Definition strict : style := Style true true true.

Section streams.
Context {row R : Type} `{Reader row R}.
Implicit Types (r : R) (l : list row).

(** [r.Read] on a frame of length [n] returns, with the given result. *)
Definition Reads r (n : nat) (r' : R) (out : list row) (oe : option error) : Prop :=
  ∃ f0, ∀ f, f0 ≤ f → Read f r n = Ret (r', (out, oe)).

(** Every further call returns EOF and no rows. *)
Definition Drained r : Prop :=
  ∃ P : R → Prop, P r ∧
    ∀ r1 n, P r1 → 0 < n → ∃ r2, Reads r1 n r2 [] (Some EOF) ∧ P r2.

(** Within [k] calls on nonempty frames, whatever their lengths, [r]
    produces the rows [l] and then EOF, in the given style. *)
Fixpoint streams (st : style) (k : nat) (r : R) (l : list row) : Prop :=
  match k with
  | 0 => False
  | S k =>
      ∀ n, 0 < n → ∃ r' out oe,
        Reads r n r' out oe ∧ length out ≤ n ∧
        match oe with
        | None => (st_brisk st = true → out ≠ []) ∧
                  ∃ l', l = out ++ l' ∧ streams st k r' l'
        | Some e => e = EOF ∧ l = out ∧ (st_clean st = true → out = []) ∧
                    (st_sticky st = true → Drained r')
        end
  end.

Definition Streams_as (st : style) r l : Prop := ∃ k, streams st k r l.
Definition Streams := Streams_as plain.

Lemma Drained_streams st r : Drained r → streams st 1 r [].
Proof.
  intros (P & HP & Hstep) n Hn. destruct (Hstep r n HP Hn) as (r' & HR & HP').
  exists r', [], (Some EOF). split_and!; [done|simpl; lia|done..|].
  intros _. by exists P.
Qed.

(** A reader of one style is a reader of every style that promises less. *)
Lemma streams_weaken st st' k r l :
  (st_clean st' = true → st_clean st = true) → (st_brisk st' = true → st_brisk st = true) →
  (st_sticky st' = true → st_sticky st = true) → streams st k r l → streams st' k r l.
Proof.
  intros Hc Hb Hst. revert r l. induction k as [|k IH]; simpl; [done|]. intros r l Hs n Hn.
  destruct (Hs n Hn) as (r' & out & oe & HR & Hl & Hoe). exists r', out, oe.
  split_and!; [done..|]. destruct oe as [e|].
  - destruct Hoe as (-> & -> & ? & ?). split_and!; auto.
  - destruct Hoe as (? & l' & -> & ?). split; [auto|]. eauto.
Qed.

Lemma streams_plain st k r l : streams st k r l → streams plain k r l.
Proof. by apply streams_weaken. Qed.

Lemma streams_steady k r l : streams strict k r l → streams steady k r l.
Proof. by apply streams_weaken. Qed.

Lemma Streams_as_Streams st r l : Streams_as st r l → Streams r l.
Proof. intros [k Hk]. exists k. by eapply streams_plain. Qed.

Lemma streams_mono st k k' r l : k ≤ k' → streams st k r l → streams st k' r l.
Proof.
  revert k' r l. induction k as [|k IH]; intros k' r l Hk; [done|].
  destruct k' as [|k']; [lia|]. simpl. intros Hs n Hn.
  destruct (Hs n Hn) as (r' & out & oe & HR & Hl & Hoe). exists r', out, oe.
  split_and!; [done..|]. destruct oe as [e|]; [done|].
  destruct Hoe as (Hb & l' & -> & ?). split; [done|].
  exists l'. split; [done|]. apply IH; [lia|done].
Qed.

(** A reader all of whose calls deliver rows or EOF streams what its state
    denotes. *)
Lemma streams_brisk (I : R → list row → Prop) st r l :
  (∀ r l n, I r l → 0 < n → ∃ r' out oe, Reads r n r' out oe ∧ length out ≤ n ∧
     match oe with
     | None => out ≠ [] ∧ ∃ l', l = out ++ l' ∧ I r' l'
     | Some e => e = EOF ∧ l = out ∧ (st_clean st = true → out = []) ∧
                 (st_sticky st = true → Drained r')
     end) →
  I r l → streams st (S (length l)) r l.
Proof.
  intros Hstep. remember (length l) as k eqn:Hk. revert r l Hk.
  induction (lt_wf k) as [k _ IH]. intros r l -> HI n Hn.
  destruct (Hstep r l n HI Hn) as (r' & out & oe & HR & Hl & Hoe).
  exists r', out, oe. split_and!; [done..|]. destruct oe as [e|]; [done|].
  destruct Hoe as (Hne & l' & -> & HI'). split; [done|]. exists l'. split; [done|].
  assert (length out ≠ 0) by (by destruct out).
  rewrite length_app. apply streams_mono with (S (length l')); [lia|].
  apply (IH (length l')); [rewrite length_app; lia|done..].
Qed.

Lemma Drained_intro (P : R → Prop) r :
  (∀ r n, P r → 0 < n → ∃ r', Reads r n r' [] (Some EOF) ∧ P r') → P r → Drained r.
Proof. intros Hstep HP. by exists P. Qed.

(** Within [k] calls, [r] produces the rows [l] in some order, which may
    depend on the lengths of the frames, and then EOF. *)
Fixpoint streams_perm (k : nat) (r : R) (l : list row) : Prop :=
  match k with
  | 0 => False
  | S k =>
      ∀ n, 0 < n → ∃ r' out oe,
        Reads r n r' out oe ∧ length out ≤ n ∧
        match oe with
        | None => out ≠ [] ∧ ∃ l', l ≡ₚ out ++ l' ∧ streams_perm k r' l'
        | Some e => e = EOF ∧ l ≡ₚ out ∧ Drained r'
        end
  end.
Definition Streams_perm r l : Prop := ∃ k, streams_perm k r l.

Lemma streams_perm_intro (I : R → list row → Prop) r l :
  (∀ r l n, I r l → 0 < n → ∃ r' out oe, Reads r n r' out oe ∧ length out ≤ n ∧
     match oe with
     | None => out ≠ [] ∧ ∃ l', l ≡ₚ out ++ l' ∧ I r' l'
     | Some e => e = EOF ∧ l ≡ₚ out ∧ Drained r'
     end) →
  I r l → Streams_perm r l.
Proof.
  intros Hstep HI. exists (S (length l)). cut (∀ k r l, length l < k → I r l → streams_perm k r l).
  { intros Hk. apply Hk; [lia|done]. }
  clear r l HI. induction k as [|k IH]; intros r l Hk HI; [lia|]. intros n Hn.
  destruct (Hstep r l n HI Hn) as (r' & out & oe & HR & Hl & Hoe).
  exists r', out, oe. split_and!; [done..|]. destruct oe as [e|]; [done|].
  destruct Hoe as (Hne & l' & Hp & HI'). split; [done|]. exists l'. split; [done|].
  assert (length out ≠ 0) by (by destruct out).
  apply Permutation_length in Hp. rewrite length_app in Hp. apply IH; [lia|done].
Qed.

(** ReadFull returns the rows asked for, and fewer only at EOF. *)
Lemma ReadFull_loop_spec k r l len acc :
  streams plain k r l → length acc ≤ len →
  ∃ r' out oe, (∃ L0 f0, ∀ L f, L0 ≤ L → f0 ≤ f →
      ReadFull_loop L f r len acc = Ret (r', (acc ++ out, oe))) ∧
    length (acc ++ out) ≤ len ∧
    match oe with
    | None => length (acc ++ out) = len ∧ ∃ l', l = out ++ l' ∧ Streams r' l'
    | Some e => e = EOF ∧ l = out
    end.
Proof.
  revert r l acc. induction k as [|k IH]; intros r l acc Hs Hacc; [done|].
  destruct (decide (length acc = len)) as [Hlen|Hlen].
  { exists r, [], None. rewrite app_nil_r. split_and!; [|lia|done|].
    - exists 1, 0. intros [|L] f HL _; [lia|]. simpl.
      by rewrite (proj2 (Nat.ltb_ge _ _)) by lia.
    - exists l. split; [done|]. by exists (S k). }
  destruct (Hs (len - length acc) ltac:(lia)) as (r1 & out & oe & [f1 HR] & Hl & Hoe).
  destruct oe as [e|].
  - destruct Hoe as (-> & -> & _). exists r1, out, (Some EOF).
    split_and!; [|by rewrite length_app; lia|done|done].
    exists 1, f1. intros [|L] f HL Hf; [lia|]. simpl.
    rewrite (proj2 (Nat.ltb_lt _ _)) by lia. by rewrite HR.
  - destruct Hoe as (_ & l' & -> & Hs').
    destruct (IH r1 l' (acc ++ out)) as (r2 & out2 & oe2 & (L0 & f0 & HR2) & Hl2 & Hoe2).
    { done. }
    { rewrite length_app. lia. }
    exists r2, (out ++ out2), oe2. rewrite (assoc_L (++)).
    split_and!; [|done|].
    + exists (S L0), (f0 `max` f1). intros [|L] f HL Hf; [lia|]. simpl.
      rewrite (proj2 (Nat.ltb_lt _ _)) by lia. rewrite HR by lia. apply HR2; lia.
    + destruct oe2 as [e|]; [by destruct Hoe2 as [-> ->]|].
      destruct Hoe2 as (? & l2 & -> & ?). split; [done|].
      exists l2. by rewrite (assoc_L (++)).
Qed.

(** ReadAll collects the whole stream. *)
Lemma ReadAll_loop_spec k r l chunk acc :
  streams plain k r l → 0 < chunk →
  ∃ r' L0 f0, ∀ L f, L0 ≤ L → f0 ≤ f →
    ReadAll_loop L f chunk r acc = Ret (r', (acc ++ l, None)).
Proof.
  revert r l acc. induction k as [|k IH]; intros r l acc Hs Hc; [done|].
  destruct (Hs chunk Hc) as (r1 & out & oe & [f1 HR] & Hl & Hoe).
  destruct oe as [e|].
  - destruct Hoe as (-> & -> & _). exists r1, 1, f1.
    intros [|L] f HL Hf; [lia|]. simpl. by rewrite HR.
  - destruct Hoe as (_ & l' & -> & Hs').
    destruct (IH r1 l' (acc ++ out) Hs' Hc) as (r2 & L0 & f0 & HR2).
    exists r2, (S L0), (f0 `max` f1). intros [|L] f HL Hf; [lia|]. simpl.
    rewrite HR by lia. simpl. rewrite (assoc_L (++)). apply HR2; lia.
Qed.

(** ReadAll of an unordered stream is a permutation of its rows. *)
Lemma ReadAll_perm r l chunk :
  Streams_perm r l → 0 < chunk →
  ∃ r' l' f0, l' ≡ₚ l ∧ ∀ f, f0 ≤ f → ReadAll f chunk r = Ret (r', (l', None)).
Proof.
  intros [k Hs] Hc.
  cut (∀ k r l acc, streams_perm k r l → ∃ r' l' L0 f0, l' ≡ₚ l ∧ ∀ L f, L0 ≤ L → f0 ≤ f →
    ReadAll_loop L f chunk r acc = Ret (r', (acc ++ l', None))).
  { intros Hk. destruct (Hk k r l [] Hs) as (r' & l' & L0 & f0 & Hp & HR).
    exists r', l', (L0 `max` f0). split; [done|]. intros f Hf. apply HR; lia. }
  clear k r l Hs. induction k as [|k IH]; intros r l acc Hs; [done|].
  destruct (Hs chunk Hc) as (r1 & out & oe & [f1 HR] & Hl & Hoe). destruct oe as [e|].
  - destruct Hoe as (-> & Hp & _). exists r1, out, 1, f1. split; [done|].
    intros [|L] f HL Hf; [lia|]. simpl. by rewrite HR.
  - destruct Hoe as (_ & l' & Hp & Hs').
    destruct (IH r1 l' (acc ++ out) Hs') as (r2 & l2 & L0 & f0 & Hp2 & HR2).
    exists r2, (out ++ l2), (S L0), (f0 `max` f1). split; [by rewrite Hp, Hp2|].
    intros [|L] f HL Hf; [lia|]. simpl. rewrite HR by lia. simpl.
    rewrite (assoc_L (++)). apply HR2; lia.
Qed.
End streams.

Section multi.
Context {row R : Type} `{Reader row R} `{Closer R}.

(** The queue of a multiReader holds readers that stream cleanly; the index
    bounds the reads that are left. *)
Inductive queue_streams : nat → list R → list row → Prop :=
| qs_nil : queue_streams 0 [] []
| qs_cons k r l w q l2 :
    streams clean k r l → queue_streams w q l2 →
    queue_streams (S k + w) (r :: q) (l ++ l2).

Lemma multiReader_loop_spec w q l n :
  queue_streams w q l → 0 < n →
  ∃ q' out oe, (∃ L0 f0, ∀ L f, L0 ≤ L → f0 ≤ f →
      multiReader_loop L f q n = Ret (mkMultiReader q' None, (out, oe))) ∧
    length out ≤ n ∧
    match oe with
    | None => out ≠ [] ∧ ∃ w' l', w' < w ∧ l = out ++ l' ∧ queue_streams w' q' l'
    | Some e => e = EOF ∧ l = out ∧ out = [] ∧ q' = []
    end.
Proof.
  revert q l. induction (lt_wf w) as [w _ IH]. intros q l Hq Hn.
  destruct Hq as [|k r l1 w q l2 Hs Hq].
  { exists [], [], (Some EOF). split_and!; [|simpl; lia|done..].
    exists 1, 0. intros [|L] f HL _; [lia|done]. }
  destruct k as [|k]; [done|].
  destruct (Hs n Hn) as (r1 & out & oe & [f1 HR] & Hl & Hoe).
  destruct oe as [e|].
  - destruct Hoe as (-> & -> & Hout & _). rewrite (Hout eq_refl). simpl.
    destruct (IH w ltac:(lia) q l2 Hq Hn) as (q' & o & oe & (L0 & f0 & HR2) & Hlo & Hoe).
    exists q', o, oe. split_and!; [|done|].
    + exists (S L0), (f0 `max` f1). intros [|L] f HL Hf; [lia|]. simpl.
      rewrite HR by lia. apply HR2; lia.
    + destruct oe; [done|]. destruct Hoe as (? & w' & l' & ? & ? & ?).
      split; [done|]. exists w', l'. split_and!; [lia|done..].
  - destruct Hoe as (_ & l' & -> & Hs').
    assert (queue_streams (S k + w) (r1 :: q) (l' ++ l2)) as Hq' by (by constructor).
    destruct (decide (out = [])) as [->|Hne].
    + destruct (IH (S k + w) ltac:(lia) (r1 :: q) (l' ++ l2) Hq' Hn)
        as (q' & o & oe & (L0 & f0 & HR2) & Hlo & Hoe).
      exists q', o, oe. split_and!; [|done|].
      * exists (S L0), (f0 `max` f1). intros [|L] f HL Hf; [lia|]. simpl.
        rewrite HR by lia. apply HR2; lia.
      * destruct oe; [done|]. destruct Hoe as (? & w' & l'' & ? & ? & ?).
        split; [done|]. exists w', l''. split_and!; [lia|done..].
    + exists (r1 :: q), out, None. split_and!; [|done|done|].
      * exists 1, f1. intros [|L] f HL Hf; [lia|]. simpl. rewrite HR by lia.
        destruct out; [done|]. done.
      * exists (S k + w), (l' ++ l2). split_and!; [lia|by rewrite (assoc_L (++))|done].
Qed.

Lemma multiReader_queue_streams w q l :
  queue_streams w q l → streams strict (S w) (mkMultiReader q None) l.
Proof.
  revert q l. induction (lt_wf w) as [w _ IH]. intros q l Hq n Hn.
  destruct (multiReader_loop_spec w q l n Hq Hn)
    as (q' & out & oe & (L0 & f0 & HR) & Hl & Hoe).
  exists (mkMultiReader q' None), out, oe. split_and!; [|done|].
  - exists (L0 `max` f0). intros f Hf. apply HR; lia.
  - destruct oe as [e|]; [destruct Hoe as (-> & -> & -> & ->)|].
    { split_and!; [done..|]. intros _. exists (λ m, m = mkMultiReader [] None).
      split; [done|]. intros m1 n1 -> _. exists (mkMultiReader [] None).
      split; [|done]. exists 1. intros [|f] Hf; [lia|done]. }
    destruct Hoe as (? & w' & l' & Hw & -> & Hq'). split; [done|].
    exists l'. split; [done|].
    apply streams_mono with (S w'); [lia|]. by apply IH.
Qed.
End multi.

(** * Simulation between readers *)

Section simulation.
Context {row R1 R2 : Type} `{Reader row R1} `{Reader row R2}.

(** A reader that answers every call as another one streams the same rows. *)
Context (S : R1 → R2 → Prop).
Hypothesis S_step : ∀ r1 r2 n r1' (out : list row) oe,
  S r1 r2 → Reads r1 n r1' out oe → ∃ r2', Reads r2 n r2' out oe ∧ S r1' r2'.

Lemma Drained_simulation r1 r2 : S r1 r2 → Drained r1 → Drained r2.
Proof.
  intros HS (P & HP & Hstep). exists (λ r2, ∃ r1, S r1 r2 ∧ P r1). split; [by eauto|].
  intros r2' n (r1' & HS' & HP') Hn.
  destruct (Hstep r1' n HP' Hn) as (r1'' & HR & HP'').
  destruct (S_step _ _ _ _ _ _ HS' HR) as (r2'' & HR2 & HS''). eauto 6.
Qed.

Lemma streams_simulation st k r1 r2 (l : list row) :
  S r1 r2 → streams st k r1 l → streams st k r2 l.
Proof.
  revert r1 r2 l. induction k as [|k IH]; intros r1 r2 l HS; [done|].
  intros Hs n Hn. destruct (Hs n Hn) as (r1' & out & oe & HR & Hl & Hoe).
  destruct (S_step _ _ _ _ _ _ HS HR) as (r2' & HR2 & HS2).
  exists r2', out, oe. split_and!; [done..|]. destruct oe as [e|].
  - destruct Hoe as (? & ? & ? & Hd). split_and!; [done..|].
    intros Hst. by eapply Drained_simulation, Hd.
  - destruct Hoe as (? & l' & -> & ?). split; [done|]. eauto.
Qed.

Lemma streams_perm_simulation k r1 r2 (l : list row) :
  S r1 r2 → streams_perm k r1 l → streams_perm k r2 l.
Proof.
  revert r1 r2 l. induction k as [|k IH]; intros r1 r2 l HS; [done|].
  intros Hs n Hn. destruct (Hs n Hn) as (r1' & out & oe & HR & Hl & Hoe).
  destruct (S_step _ _ _ _ _ _ HS HR) as (r2' & HR2 & HS2).
  exists r2', out, oe. split_and!; [done..|]. destruct oe as [e|].
  - destruct Hoe as (? & ? & Hd). split_and!; [done..|]. by eapply Drained_simulation, Hd.
  - destruct Hoe as (? & l' & ? & ?). eauto 6.
Qed.
End simulation.

Section wrappers.
Context {row R : Type} `{Reader row R}.

Lemma nopCloser_streams st k (r : R) (l : list row) :
  streams st k r l → streams st k (NopCloser r) l.
Proof.
  apply (streams_simulation (λ r c, c = NopCloser r)); [|done].
  intros r1 r2 n r1' out oe -> [f0 HR]. exists (NopCloser r1'). split; [|done].
  exists f0. intros f Hf. unfold Read, nopCloser_reader, nopCloser_Read. simpl.
  by rewrite HR.
Qed.

Lemma pprofReader_streams st k (r : R) label (l : list row) :
  streams st k r l → streams st k (PprofReader r label) l.
Proof.
  apply (streams_simulation (λ r c, c = PprofReader r label)); [|done].
  intros r1 r2 n r1' out oe -> [f0 HR]. exists (PprofReader r1' label). split; [|done].
  exists f0. intros f Hf. unfold Read, pprofReader_reader, pprofReader_Read. simpl.
  by rewrite HR.
Qed.

Lemma readerWithCloseFunc_streams st k (r : R) close (l : list row) :
  streams st k r l → streams st k (mkReaderWithCloseFunc r close) l.
Proof.
  apply (streams_simulation (λ r c, c = mkReaderWithCloseFunc r close)); [|done].
  intros r1 r2 n r1' out oe -> [f0 HR]. exists (mkReaderWithCloseFunc r1' close).
  split; [|done]. exists f0. intros f Hf.
  unfold Read, readerWithCloseFunc_reader. simpl. by rewrite HR.
Qed.

(** Closing is invisible to a reader that does not read after EOF from the
    resource it closes. *)
Lemma closingReader_streams `{Closer R} st k (r : R) (l : list row) :
  (∀ r : R, (Close r).1 = r) →
  streams st k r l → streams st k (NewClosingReader r) l.
Proof.
  intros Hclose. apply (streams_simulation (λ r c, cr_r c = r)); [|done].
  intros r1 [r2 closed] n r1' out oe <- [f0 HR]. simpl in HR.
  exists (mkClosingReader r1' (if oe is Some _ then true else closed)). split; [|done].
  exists f0. intros f Hf. unfold Read, closingReader_reader, closingReader_Read. simpl.
  rewrite HR by done. simpl. destruct oe as [e|]; [|done].
  destruct closed; [done|]. by rewrite Hclose.
Qed.
End wrappers.

(** * Interface values *)

(** A value of the Go interface type sliceio.Reader, whose dynamic type the
    holder does not know: all it can do is call Read.  It is given by the
    lengths of the frames it was called with so far, and by what a call
    returns after such a history. *)
Record anyReader (row : Type) := AnyReader {
  ar_calls : list nat;
  ar_next : nat → list nat → nat → outcome (list row * option error);
}.
Arguments AnyReader {row} _ _.
Arguments ar_calls {row} _.
Arguments ar_next {row} _.

(** Dynamic dispatch. *)
Definition anyReader_Read {row} (fuel : nat) (r : anyReader row) (n : nat) :
    outcome (anyReader row * (list row * option error)) :=
  res ← ar_next r fuel (ar_calls r) n;
  Ret (AnyReader (ar_calls r ++ [n]) (ar_next r), res).

#[export] Instance anyReader_reader {row} : Reader row (anyReader row) := anyReader_Read.

Section pack.
Context {row R : Type} `{I : Reader row R}.

Fixpoint after_calls (fuel : nat) (r : R) (calls : list nat) : outcome R :=
  match calls with
  | [] => Ret r
  | n :: calls => '(r, _) ← Read fuel r n; after_calls fuel r calls
  end.

(** The conversion of a reader to the interface. *)
Definition pack (r : R) : anyReader row :=
  AnyReader [] (λ fuel calls n,
    r ← after_calls fuel r calls; '(_, res) ← Read fuel r n; Ret res).

Lemma after_calls_snoc fuel r calls n :
  after_calls fuel r (calls ++ [n]) =
    after_calls fuel r calls ≫= λ r, '(r, _) ← Read fuel r n; Ret r.
Proof.
  revert r. induction calls as [|m calls IH]; intros r; simpl; [by destruct (Read _ _ _) as [[]| |]|].
  destruct (Read fuel r m) as [[r' ?]| |]; simpl; auto.
Qed.

Lemma pack_simulation (r0 : R) r c n r' (out : list row) oe :
  ar_next c = ar_next (pack r0) ∧ (∃ f0, ∀ f, f0 ≤ f → after_calls f r0 (ar_calls c) = Ret r) →
  Reads r n r' out oe →
  ∃ c', Reads c n c' out oe ∧
    ar_next c' = ar_next (pack r0) ∧ ∃ f0, ∀ f, f0 ≤ f → after_calls f r0 (ar_calls c') = Ret r'.
Proof.
  intros [Hnext [f0 Hcalls]] [f1 HR]. exists (AnyReader (ar_calls c ++ [n]) (ar_next c)).
  split_and!; [|done|].
  - exists (f0 `max` f1). intros f Hf. unfold Read, anyReader_reader, anyReader_Read.
    rewrite Hnext. simpl. rewrite Hcalls by lia. simpl. by rewrite HR by lia.
  - exists (f0 `max` f1). intros f Hf. simpl. rewrite after_calls_snoc, Hcalls by lia. simpl.
    by rewrite HR by lia.
Qed.

Lemma pack_Streams_perm (r : R) (l : list row) : Streams_perm r l → Streams_perm (pack r) l.
Proof.
  intros [k Hk]. exists k. revert Hk.
  apply (streams_perm_simulation (λ r' c, ar_next c = ar_next (pack r) ∧
    ∃ f0, ∀ f, f0 ≤ f → after_calls f r (ar_calls c) = Ret r')).
  - intros. by eapply pack_simulation.
  - split; [done|]. by exists 0.
Qed.

Lemma pack_streams st k (r : R) (l : list row) : streams st k r l → streams st k (pack r) l.
Proof.
  apply (streams_simulation (λ r' c, ar_next c = ar_next (pack r) ∧
    ∃ f0, ∀ f, f0 ≤ f → after_calls f r (ar_calls c) = Ret r')).
  - intros. by eapply pack_simulation.
  - split; [done|]. by exists 0.
Qed.

Lemma pack_Streams_as st (r : R) (l : list row) : Streams_as st r l → Streams_as st (pack r) l.
Proof. intros [k Hk]. exists k. by apply pack_streams. Qed.
End pack.

(** * Correctness of the readers *)

(** ReadFull fills the whole frame, or reads the rest of the stream and
    reports EOF: it never returns a short frame in the middle of a stream. *)
Theorem ReadFull_correct {row R} `{Reader row R} (r : R) (l : list row) (len : nat) :
  Streams r l →
  ∃ r' out oe f0, (∀ f, f0 ≤ f → ReadFull f r len = Ret (r', (out, oe))) ∧
    match oe with
    | None => length out = len ∧ ∃ l', l = out ++ l' ∧ Streams r' l'
    | Some e => e = EOF ∧ l = out ∧ length out ≤ len
    end.
Proof.
  intros [k Hs].
  destruct (ReadFull_loop_spec k r l len [] Hs) as (r' & out & oe & (L0 & f0 & HR) & Hl & Hoe).
  { simpl. lia. }
  exists r', out, oe, (L0 `max` f0). split.
  - intros f Hf. apply HR; lia.
  - destruct oe as [e|]; [|done]. by destruct Hoe as [-> ->].
Qed.

(** ReadAll returns exactly the rows of the stream, whatever the chunk
    size, and no error. *)
Theorem ReadAll_correct {row R} `{Reader row R} (r : R) (l : list row) (chunk : nat) :
  Streams r l → 0 < chunk →
  ∃ r' f0, ∀ f, f0 ≤ f → ReadAll f chunk r = Ret (r', (l, None)).
Proof.
  intros [k Hs] Hc. destruct (ReadAll_loop_spec k r l chunk [] Hs Hc) as (r' & L0 & f0 & HR).
  exists r', (L0 `max` f0). intros f Hf. apply HR; lia.
Qed.

Lemma FrameReader_nil_drained {row} : Drained (FrameReader (row := row) []).
Proof.
  exists (λ r, r = FrameReader []). split; [done|]. intros r1 n -> Hn.
  exists (FrameReader []). split; [|done]. exists 0. intros f _.
  unfold Read, frameReader_reader, frameReader_Read. simpl.
  destruct n; [lia|]. by rewrite ?drop_nil, ?take_nil.
Qed.

Lemma frameReader_streams {row} (l : list row) k :
  length l < k → streams steady k (FrameReader l) l.
Proof.
  revert l. induction k as [|k IH]; intros l Hk; [lia|]. intros n Hn.
  set (m := if length l <? n then length l else n).
  assert (m ≤ n ∧ m ≤ length l ∧ (m = 0 → l = [])) as (Hm1 & Hm2 & Hm3).
  { subst m. destruct (Nat.ltb_spec (length l) n); split_and!; try lia.
    by intros ?%nil_length_inv. }
  exists (FrameReader (drop m l)), (take m l),
    (if length (drop m l) =? 0 then Some EOF else None).
  split_and!; [by exists 0|rewrite length_take; lia|].
  rewrite length_drop. destruct (Nat.eqb_spec (length l - m) 0).
  - split_and!; [done|by rewrite take_ge by lia|done|].
    intros _. rewrite drop_ge by lia. apply FrameReader_nil_drained.
  - assert (0 < m) as Hm0.
    { destruct (decide (m = 0)) as [E|]; [|lia]. rewrite Hm3 in n0 by done. simpl in n0. lia. }
    split.
    { intros _ E%(f_equal length). rewrite length_take in E. simpl in E. lia. }
    exists (drop m l). split; [by rewrite take_drop|]. apply IH.
    rewrite length_drop. lia.
Qed.

(** FrameReader streams exactly the rows of its frame, every call
    before EOF delivers some, and EOF is sticky. *)
Theorem FrameReader_correct {row} (l : list row) : Streams_as steady (FrameReader l) l.
Proof. exists (S (length l)). apply frameReader_streams. lia. Qed.

(** MultiReader is the concatenation of its readers, provided that none of
    them delivers rows together with EOF. *)
Lemma MultiReader_spec {row R} `{Reader row R} (rs : list R) (ls : list (list row)) :
  Forall2 (Streams_as clean) rs ls → Streams_as strict (MultiReader rs) (concat ls).
Proof.
  intros HF. assert (∃ w, queue_streams w rs (concat ls)) as [w Hw].
  { induction HF as [|r l rs ls [k Hk] _ [w IH]].
    - exists 0. constructor.
    - exists (S k + w). simpl. by constructor. }
  exists (S w). by apply multiReader_queue_streams.
Qed.

(** MultiReader drops rows that a reader returns together with EOF, which
    the Reader contract allows and FrameReader does: over a single frame that
    fits the destination, it reports EOF without having delivered a row. *)
Theorem MultiReader_loses_rows_at_EOF {row} (l : list row) (n : nat) :
  l ≠ [] → length l ≤ n →
  Streams (FrameReader l) l ∧
  ∃ m, Reads (MultiReader [NopCloser (FrameReader l)]) n m [] (Some EOF).
Proof.
  intros Hne Hn. split.
  { apply (Streams_as_Streams steady). exists (S (length l)). apply frameReader_streams. lia. }
  exists (mkMultiReader [] None). exists 2. intros [|[|f]] Hf; [lia|lia|].
  cbn -[Nat.ltb Nat.eqb]. destruct (Nat.ltb_spec (length l) n); rewrite length_drop.
  - by rewrite Nat.sub_diag.
  - by replace (length l - n) with 0 by lia.
Qed.

(** Once a reader of the queue fails, the MultiReader keeps returning that
    error and no more rows. *)
Theorem multiReader_error_sticky {row R} `{Reader row R} (q : list R) (m : multiReader R)
    (f n : nat) (out : list row) (e : error) :
  multiReader_Read f (MultiReader q) n = Ret (m, (out, Some e)) → e ≠ EOF →
  ∀ f' n', multiReader_Read f' m n' = Ret (m, ([], Some e)).
Proof.
  unfold multiReader_Read at 1. simpl. intros HR Hne f' n'.
  assert (mr_err m = Some e) as Hm; [|by unfold multiReader_Read; rewrite Hm].
  revert HR. generalize f at 1. intros L. revert q.
  induction L as [|L IH]; intros q; simpl; [done|].
  destruct q as [|r q]; [intros; by simplify_eq|].
  intros ((r' & o & oe) & HR & Hk)%outcome_bind_Ret. destruct oe as [[|k msg]|].
  - by apply IH in Hk.
  - by simplify_eq.
  - destruct (0 <? length o); [by simplify_eq|by apply IH in Hk].
Qed.
