(* ===== verification/Scanner.v ===== *)
(** Package sliceio: the record scanner (src/sliceio/scanner.go).

    [Scan] delivers one record at a time from batches of [defaultChunksize]
    rows; the theorem at the end says that successive scans deliver exactly
    the rows of the underlying stream. *)
From S2P Require Import Prelude SliceIO.

(** * The scanner *)

Section scanner.
Context {row R T : Type} `{Reader row R} `{Closer R} `{EqDecision T}.
(** [reflect.PtrTo] and the package's default chunk size. *)
Context (PtrTo : T → T) (defaultChunksize : nat).

(** [sc_in] holds the rows of the last batch read into the scanner's
    frame. *)
Record Scanner := mkScanner {
  sc_typ : list T;
  sc_reader : R;
  sc_err : option error;
  sc_started : bool;
  sc_in : list row;
  sc_beg : nat;
  sc_end : nat;
  sc_atEOF : bool;
}.

Definition NewScanner (typ : list T) (r : R) : Scanner :=
  mkScanner typ r None false [] 0 0 false.

Definition sc_fail (s : Scanner) (e : error) : Scanner :=
  mkScanner (sc_typ s) (sc_reader s) (Some e) (sc_started s) (sc_in s)
    (sc_beg s) (sc_end s) (sc_atEOF s).

(** First call: allocate the input frame. *)
Definition sc_start (s : Scanner) : Scanner :=
  if sc_started s then s
  else mkScanner (sc_typ s) (sc_reader s) (sc_err s) true [] 0 0 (sc_atEOF s).

(** [for s.beg == s.end]: read the next batch of input.  The boolean says
    whether there is a record to scan. *)
Fixpoint Scanner_fill (loop fuel : nat) (s : Scanner) : outcome (Scanner * bool) :=
  match loop with
  | 0 => NoFuel
  | S loop =>
      if sc_beg s =? sc_end s then
        if sc_atEOF s then Ret (sc_fail s EOF, false)
        else
          '(r', (batch, err)) ← Read fuel (sc_reader s) defaultChunksize;
          let s1 := mkScanner (sc_typ s) r' (sc_err s) (sc_started s) (sc_in s)
                      (sc_beg s) (sc_end s) (sc_atEOF s) in
          let s2 := mkScanner (sc_typ s) r' (sc_err s) (sc_started s) batch
                      0 (length batch) in
          match err with
          | None => Scanner_fill loop fuel (s2 (sc_atEOF s))
          | Some EOF => Scanner_fill loop fuel (s2 true)
          | Some e => Ret (sc_fail s1 e, false)
          end
      else Ret (s, true)
  end.

(** [out] are the types of the pointers passed in.  [Some rec] is a scan
    that returned true and set the columns to [rec]. *)
Definition Scan (fuel : nat) (s : Scanner) (out : list T) :
    outcome (Scanner * option row) :=
  match sc_err s with
  | Some _ => Ret (s, None)
  | None =>
      if negb (length out =? length (sc_typ s)) then
        Ret (sc_fail s (Err Other "wrong arity"), None)
      else if bool_decide (out = PtrTo <$> sc_typ s) then
        '(s, ok) ← Scanner_fill fuel fuel (sc_start s);
        if ok : bool then
          match sc_in s !! sc_beg s with
          | Some rec =>
              Ret (mkScanner (sc_typ s) (sc_reader s) (sc_err s) (sc_started s) (sc_in s)
                     (sc_beg s + 1) (sc_end s) (sc_atEOF s), Some rec)
          | None => Panic "index out of range"
          end
        else Ret (s, None)
      else Ret (sc_fail s (Err Other "wrong type for argument"), None)
  end.

Definition Scanner_Close (s : Scanner) : Scanner * option error :=
  let '(r', err) := Close (sc_reader s) in
  (mkScanner (sc_typ s) r' (sc_err s) (sc_started s) (sc_in s)
     (sc_beg s) (sc_end s) (sc_atEOF s),
   match err with
   | Some e => Some (Err Other "error closing scanner")
   | None => None
   end).

(** [Scanv] over column slices of length [n]: the rows scanned, and whether
    scanning should continue. *)
Fixpoint Scanv_loop (n fuel : nat) (s : Scanner) (out : list T) (acc : list row) :
    outcome (Scanner * (list row * bool)) :=
  match n with
  | 0 => Ret (s, (acc, true))
  | S n =>
      '(s, rec) ← Scan fuel s out;
      match rec with
      | Some x => Scanv_loop n fuel s out (acc ++ [x])
      | None => Ret (s, (acc, false))
      end
  end.

Definition Scanv (fuel : nat) (s : Scanner) (out : list T) (n : nat) :
    outcome (Scanner * (list row * bool)) :=
  match sc_err s with
  | Some _ => Ret (s, ([], false))
  | None => Scanv_loop n fuel s out []
  end.

Definition Scanner_Err (s : Scanner) : option error :=
  match sc_err s with
  | Some EOF => None
  | e => e
  end.

(** [l] are the records that successive scans deliver before a scan returns
    false without an error. *)
Fixpoint scans (s : Scanner) (l : list row) : Prop :=
  match l with
  | [] => ∃ s' f0, Scanner_Err s' = None ∧
      ∀ f, f0 ≤ f → Scan f s (PtrTo <$> sc_typ s) = Ret (s', None)
  | x :: l => ∃ s' f0, sc_typ s' = sc_typ s ∧ scans s' l ∧
      ∀ f, f0 ≤ f → Scan f s (PtrTo <$> sc_typ s) = Ret (s', Some x)
  end.

(** What the scanner still has to deliver: the rest of the batch, and then
    the reader's stream unless the reader is at EOF. *)
Definition scanner_rest (s : Scanner) (l : list row) : Prop :=
  sc_err s = None ∧ sc_end s = length (sc_in s) ∧ sc_beg s ≤ sc_end s ∧
  ∃ l', l = drop (sc_beg s) (sc_in s) ++ l' ∧
    if sc_atEOF s then l' = [] else Streams (sc_reader s) l'.

Hypothesis chunk_pos : 0 < defaultChunksize.

(** A batch that is not used up is left alone. *)
Lemma Scanner_fill_ready s L f :
  0 < L → sc_beg s < sc_end s → Scanner_fill L f s = Ret (s, true).
Proof.
  destruct L as [|L]; [lia|]. intros _ Hlt. simpl.
  by rewrite (proj2 (Nat.eqb_neq _ _)) by lia.
Qed.

Lemma drop_app_ne_nil (i : nat) (l l' : list row) : i < length l → drop i l ++ l' ≠ [].
Proof.
  intros Hi [E _]%app_nil. apply (f_equal length) in E.
  rewrite length_drop in E. simpl in E. lia.
Qed.

(** The scanner after a batch has been read. *)
Definition sc_batch (s : Scanner) (r : R) (batch : list row) (eof : bool) : Scanner :=
  mkScanner (sc_typ s) r (sc_err s) (sc_started s) batch 0 (length batch) eof.

Lemma Scanner_fill_spec k s l :
  sc_err s = None → sc_end s = length (sc_in s) → sc_beg s ≤ sc_end s →
  (∃ l', l = drop (sc_beg s) (sc_in s) ++ l' ∧
     if sc_atEOF s then l' = [] else streams plain k (sc_reader s) l') →
  ∃ s' L0 f0, sc_typ s' = sc_typ s ∧ sc_started s' = sc_started s ∧
    (∀ L f, L0 ≤ L → f0 ≤ f →
      Scanner_fill L f s = Ret (s', if decide (l = []) then false else true)) ∧
    if decide (l = []) then sc_err s' = Some EOF
    else scanner_rest s' l ∧ sc_beg s' < sc_end s'.
Proof.
  revert s l. induction k as [|k IH]; intros s l Herr Hend Hbeg (l' & -> & Hs).
  all: destruct (decide (sc_beg s < sc_end s)) as [Hbe|Hbe];
    [exists s, 1, 0; rewrite !decide_False by (apply drop_app_ne_nil; lia); unfold scanner_rest; split_and!; try done;
     [intros; by rewrite Scanner_fill_ready by lia
     |exists l'; split; [done|]; destruct (sc_atEOF s); [done|by eexists]]
    |rewrite drop_ge by lia; simpl; assert (sc_beg s = sc_end s) as Hbe' by lia].
  all: destruct (sc_atEOF s) eqn:Heof;
    [subst l'; exists (sc_fail s EOF), 1, 0; rewrite !decide_True by done;
     split_and!; [done..| |done]; intros [|L] f HL _; [lia|]; simpl;
     by rewrite Hbe', Nat.eqb_refl, Heof|].
  { done. }
  destruct (Hs defaultChunksize chunk_pos) as (r1 & out & oe & [f1 HR] & Hl & Hoe).
  assert (∃ l2, l' = out ++ l2 ∧
      if bool_decide (oe = Some EOF) then l2 = [] else streams plain k r1 l2)
    as (l2 & -> & Hl2).
  { destruct oe as [e|]; [|apply Hoe]. destruct Hoe as (-> & -> & _).
    exists []. by rewrite app_nil_r. }
  assert (oe = None ∨ oe = Some EOF) as Hoe'.
  { destruct oe as [e|]; [right|by left]. by destruct Hoe as (-> & _). }
  destruct (IH (sc_batch s r1 out (bool_decide (oe = Some EOF))) (out ++ l2))
    as (s' & L0 & f0 & Ht & Hst & Hf & Hr); [done|done|simpl; lia|by exists l2|].
  exists s', (S L0), (f0 `max` f1). split_and!; [done..| |done].
  intros [|L] f HL Hf0; [lia|]. simpl. rewrite Hbe', Nat.eqb_refl, Heof, HR by lia.
  destruct Hoe' as [-> | ->]; apply Hf; lia.
Qed.

Lemma scanner_rest_start s l :
  (sc_started s = false → sc_in s = []) → scanner_rest s l → scanner_rest (sc_start s) l.
Proof.
  unfold sc_start. destruct (sc_started s) eqn:E; [done|].
  intros Hin (Herr & Hend & Hbeg & l' & -> & Hs). rewrite Hin, drop_nil by done.
  split_and!; [done|done|done|]. by exists l'.
Qed.

Lemma Scan_spec s l :
  scanner_rest s l → (sc_started s = false → sc_in s = []) → scans s l.
Proof.
  revert s. induction l as [|x l IH]; intros s Hrest Hin.
  all: assert (sc_err s = None) as Herr by apply Hrest.
  all: apply (scanner_rest_start s) in Hrest as (Herr0 & Hend & Hbeg & l' & Hl & Hs); [|done].
  all: assert (∃ k, if sc_atEOF (sc_start s) then l' = []
         else streams plain k (sc_reader (sc_start s)) l') as [k Hk]
       by (destruct (sc_atEOF (sc_start s)); [by exists 0|done]).
  all: destruct (Scanner_fill_spec k (sc_start s) _ Herr0 Hend Hbeg (ex_intro _ l' (conj Hl Hk)))
         as (s' & L0 & f0 & Ht & Hst & Hf & Hr).
  all: assert (sc_typ (sc_start s) = sc_typ s ∧ sc_started (sc_start s) = true) as [Ht0 Hst0]
       by (unfold sc_start; by destruct (sc_started s) eqn:?).
  all: cbn [scans]; unfold Scan; rewrite Herr, length_fmap, Nat.eqb_refl, bool_decide_true by done;
       cbn [negb].
  - rewrite decide_True in Hr by done. rewrite decide_True in Hf by done. exists s', (L0 `max` f0). split.
    + unfold Scanner_Err. by rewrite Hr.
    + intros f Hff. by rewrite Hf by lia.
  - rewrite decide_False in Hr by done. rewrite decide_False in Hf by done.
    destruct Hr as ((Herr' & Hend' & Hbeg' & l2 & Hl2 & Hs2) & Hlt).
    destruct (lookup_lt_is_Some_2 (sc_in s') (sc_beg s')) as [y Hy]; [lia|].
    rewrite (drop_S _ _ _ Hy) in Hl2. simpl in Hl2. injection Hl2 as <- ->.
    eexists _, (L0 `max` f0). split_and!;
      [|..|intros f Hff; rewrite Hf by lia; simpl; by rewrite Hy].
    + simpl. congruence.
    + apply IH; [|simpl; congruence]. split_and!; simpl; [done|done|lia|].
      exists l2. split; [by rewrite Nat.add_1_r|done].
Qed.
End scanner.

(** Successive calls of Scan on a new scanner deliver exactly the records
    of the reader's stream, in order, and scanning then stops with a nil
    error. *)
Theorem Scanner_correct {row R T} `{Reader row R} `{EqDecision T}
    (PtrTo : T → T) (chunk : nat) (typ : list T) (r : R) (l : list row) :
  0 < chunk → Streams r l → scans PtrTo chunk (NewScanner typ r) l.
Proof.
  intros Hc Hs. apply Scan_spec; [done| |done].
  split_and!; [done|done|done|]. by exists l.
Qed.
