(* ===== verification/SortIO.v ===== *)
(** Package sortio: merging sorted record streams (src/sortio/sort.go).

    All FrameBuffers of a merge share one frame: buffer [i] owns the window of
    [batch] rows from [i * batch] on, and comparisons look up rows by global
    position ([Pos]).  The model keeps that frame as one list of rows and the
    buffers as offsets into it, so that the disjointness of the windows is
    proved and not assumed.  The heap operations are those of Heap.v at the
    instance [FrameBufferHeap]. *)
From S2P Require Import Prelude Heap SliceIO.

Section sortio.
Context {row R : Type} `{Reader row R}.
(** The zero row of a new frame, the comparison of rows by their prefix
    columns, and the number of rows per buffer window. *)
Context (zero : row) (less : row → row → bool) (batch : nat).

(** * FrameBuffer *)

Record FrameBuffer := mkFrameBuffer {
  fb_Reader : R;
  fb_Index : nat;
  fb_Len : nat;
  fb_Off : nat;
}.

Definition Pos (f : FrameBuffer) : nat := fb_Off f + fb_Index f.

(** The row at a global position. *)
Definition row_at (frame : list row) (pos : nat) : row := default zero (frame !! pos).

(** [Fill] reads into the buffer's window [frame[Off:Off+batch]]. *)
Definition Fill (fuel : nat) (frame : list row) (f : FrameBuffer) :
    outcome (list row * FrameBuffer * option error) :=
  if negb (fb_Index f =? fb_Len f) then Panic "FrameBuffer.Fill: fill on nonempty buffer"
  else
    '(r', (rows, err)) ← Read fuel (fb_Reader f) batch;
    let frame := list_inserts (fb_Off f) rows frame in
    let n := length rows in
    match err with
    | Some (Err k msg) =>
        Ret (frame, mkFrameBuffer r' (fb_Index f) n (fb_Off f), Some (Err k msg))
    | _ =>
        let err := if bool_decide (err = Some EOF) && (0 <? n) then None else err in
        let err := if (n =? 0) && bool_decide (err = None) then Some EOF else err in
        Ret (frame, mkFrameBuffer r' 0 n (fb_Off f), err)
    end.

(** * FrameBufferHeap *)

(** [LessFunc] compares the current rows of two buffers in the shared
    frame. *)
Definition buf_less (frame : list row) (a b : FrameBuffer) : bool :=
  less (row_at frame (Pos a)) (row_at frame (Pos b)).

Definition FrameBufferHeap_Less (frame : list row) (h : list FrameBuffer) (i j : nat) : bool :=
  match h !! i, h !! j with
  | Some a, Some b => buf_less frame a b
  | _, _ => false
  end.

Definition FrameBufferHeap_Swap (i j : nat) (h : list FrameBuffer) : list FrameBuffer :=
  list_swap i j h.

Definition FrameBufferHeap_Push (x : FrameBuffer) (h : list FrameBuffer) : list FrameBuffer :=
  h ++ [x].

Definition FrameBufferHeap_Pop (h : list FrameBuffer) :
    outcome (FrameBuffer * list FrameBuffer) :=
  match list.last h with
  | Some elem => Ret (elem, take (length h - 1) h)
  | None => Panic "index out of range"
  end.

#[local] Instance FrameBufferHeap (frame : list row) :
    HeapInterface (list FrameBuffer) FrameBuffer := {|
  hlen := length;
  hless := FrameBufferHeap_Less frame;
  hswap := FrameBufferHeap_Swap;
  hpush := FrameBufferHeap_Push;
  hpop := FrameBufferHeap_Pop;
|}.

(** * mergeReader *)

Record mergeReader := mkMergeReader {
  mg_err : option error;
  mg_frame : list row;
  mg_Buffers : list FrameBuffer;
}.

(** The loop over the readers: fill a buffer for each, and keep those that
    have data. *)
Fixpoint NewMergeReader_loop (fuel i : nat) (readers : list R) (frame : list row)
    (bufs : list FrameBuffer) : outcome (list row * list FrameBuffer * option error) :=
  match readers with
  | [] => Ret (frame, bufs, None)
  | r :: readers =>
      '(frame, fr, err) ← Fill fuel frame (mkFrameBuffer r 0 0 (i * batch));
      match err with
      | Some EOF => NewMergeReader_loop fuel (S i) readers frame bufs
      | Some e => Ret (frame, bufs, Some e)
      | None => NewMergeReader_loop fuel (S i) readers frame (bufs ++ [fr])
      end
  end.

Definition NewMergeReader (fuel : nat) (readers : list R) :
    outcome (mergeReader + error) :=
  '(frame, bufs, err) ←
    NewMergeReader_loop fuel 0 readers (replicate (length readers * batch) zero) [];
  match err with
  | Some e => Ret (inr e)
  | None => Ret (inl (mkMergeReader None frame (Init (HI := FrameBufferHeap frame) bufs)))
  end.

(** [Index++], and a refill when that uses up the buffer: the frame, the
    buffer, and the error of the refill. *)
Definition advance (fuel : nat) (frame : list row) (b : FrameBuffer) :
    outcome (list row * FrameBuffer * option error) :=
  let b := mkFrameBuffer (fb_Reader b) (fb_Index b + 1) (fb_Len b) (fb_Off b) in
  if fb_Index b =? fb_Len b then Fill fuel frame b else Ret (frame, b, None).

(** One iteration of the loop in [Read]: the row copied to the output, the
    frame and the heap after it, and an error from refilling. *)
Definition merge_step (fuel : nat) (frame : list row) (bufs : list FrameBuffer) :
    outcome (row * list row * list FrameBuffer * option error) :=
  match bufs with
  | [] => Panic "index out of range"
  | b :: _ =>
      let x := row_at frame (Pos b) in
      '(frame, b, err) ← advance fuel frame b;
      let bufs := <[0 := b]> bufs in
      match err with
      | Some EOF =>
          '(_, bufs) ← Remove (HI := FrameBufferHeap frame) bufs 0;
          Ret (x, frame, bufs, None)
      | Some e => Ret (x, frame, bufs, Some e)
      | None => Ret (x, frame, Fix (HI := FrameBufferHeap frame) bufs 0, None)
      end
  end.

(** [for n < max && len(m.heap.Buffers) > 0], with [k = max - n]. *)
Fixpoint merge_loop (k fuel : nat) (frame : list row) (bufs : list FrameBuffer)
    (acc : list row) : outcome (list row * list row * list FrameBuffer * option error) :=
  match k, bufs with
  | 0, _ | _, [] => Ret (acc, frame, bufs, None)
  | S k, _ =>
      '(x, frame, bufs, err) ← merge_step fuel frame bufs;
      match err with
      | Some e => Ret (acc ++ [x], frame, bufs, Some e)
      | None => merge_loop k fuel frame bufs (acc ++ [x])
      end
  end.

Definition mergeReader_Read (fuel : nat) (m : mergeReader) (max : nat) :
    outcome (mergeReader * (list row * option error)) :=
  match mg_err m with
  | Some e => Ret (m, ([], Some e))
  | None =>
      '(out, frame, bufs, err) ← merge_loop max fuel (mg_frame m) (mg_Buffers m) [];
      match err with
      | Some e => Ret (mkMergeReader (Some e) frame bufs, ([], Some e))
      | None =>
          let err := if length out =? 0 then Some EOF else None in
          Ret (mkMergeReader err frame bufs, (out, err))
      end
  end.

#[local] Instance mergeReader_reader : Reader row mergeReader := mergeReader_Read.

(** * Correctness of the merge *)

Context `{!StrictWeak less}.

#[local] Instance buf_less_sw frame : StrictWeak (buf_less frame).
Proof.
  split; unfold buf_less.
  - intros a b. apply sw_asym.
  - intros a b c. apply sw_neg_trans.
Qed.

#[local] Instance FrameBufferHeap_laws frame :
  HeapLaws (list FrameBuffer) FrameBuffer FrameBuffer (buf_less frame)
    (HI := FrameBufferHeap frame).
Proof.
  refine {| items := id; view x _ := x |}; simpl.
  - done.
  - unfold FrameBufferHeap_Less. by intros h i j a b -> ->.
  - done.
  - done.
  - intros h l a ->. exists a, l. unfold FrameBufferHeap_Pop. rewrite last_snoc.
    rewrite length_app, Nat.add_sub, take_app_length. done.
Defined.

(** Rows in nondecreasing order. *)
Definition row_le (a b : row) : Prop := less b a = false.
Definition sorted : list row → Prop := StronglySorted row_le.

(** [l] is what the buffer still has to deliver: the rest of its window and
    then the stream of its reader. *)
Definition buf_ok (frame : list row) (b : FrameBuffer) (l : list row) : Prop :=
  fb_Index b < fb_Len b ∧ fb_Len b ≤ batch ∧ fb_Off b + batch ≤ length frame ∧
  ∃ rest, l = take (fb_Len b - fb_Index b) (drop (Pos b) frame) ++ rest ∧
    Streams_as steady (fb_Reader b) rest.

Lemma buf_ok_cons frame b l :
  buf_ok frame b l → ∃ l', l = row_at frame (Pos b) :: l'.
Proof.
  intros (Hi & Hl & Ho & rest & -> & _). unfold Pos.
  destruct (lookup_lt_is_Some_2 frame (fb_Off b + fb_Index b)) as [x Hx]; [lia|].
  unfold row_at. rewrite Hx. rewrite (drop_S _ _ _ Hx).
  destruct (fb_Len b - fb_Index b) eqn:E; [lia|]. simpl. eauto.
Qed.

(** Frames that agree outside the window at [off]. *)
Definition agree_outside (off : nat) (f1 f2 : list row) : Prop :=
  length f1 = length f2 ∧
  ∀ p, p < off ∨ off + batch ≤ p → f1 !! p = f2 !! p.

Definition apart (a b : FrameBuffer) : Prop :=
  fb_Off a + batch ≤ fb_Off b ∨ fb_Off b + batch ≤ fb_Off a.

Lemma agree_row_at off f1 f2 b l :
  agree_outside off f1 f2 → buf_ok f1 b l →
  fb_Off b + batch ≤ off ∨ off + batch ≤ fb_Off b →
  row_at f2 (Pos b) = row_at f1 (Pos b) ∧ buf_ok f2 b l.
Proof.
  intros [Hlen Hag] (Hi & Hl & Ho & rest & -> & Hs) Hap. unfold Pos, row_at. split.
  - rewrite Hag; [done|]. lia.
  - split_and!; [done|done|lia|]. exists rest. split; [|done]. f_equal.
    apply list_eq. intros p. destruct (decide (p < fb_Len b - fb_Index b)).
    + rewrite !lookup_take_lt, !lookup_drop by lia. unfold Pos. apply Hag. lia.
    + by rewrite !lookup_take_ge by lia.
Qed.

(** [Fill] of a used up buffer: EOF when the stream is exhausted, otherwise
    the next rows in the window, and no other window touched. *)
Lemma Fill_spec frame b l :
  fb_Index b = fb_Len b → fb_Off b + batch ≤ length frame → 0 < batch →
  Streams_as steady (fb_Reader b) l →
  ∃ f0 frame' b', fb_Off b' = fb_Off b ∧ agree_outside (fb_Off b) frame frame' ∧
    (∀ f, f0 ≤ f → Fill f frame b =
       Ret (frame', b', if decide (l = []) then Some EOF else None)) ∧
    (l ≠ [] → buf_ok frame' b' l).
Proof.
  intros Hil Ho Hb [k Hs]. destruct k as [|k]; [done|].
  destruct (Hs batch Hb) as (r' & out & oe & [f0 HR] & Hlen & Hoe).
  assert (∃ rest, l = out ++ rest ∧ (out = [] → rest = []) ∧ Streams_as steady r' rest ∧
    (oe = None ∧ out ≠ [] ∨ oe = Some EOF)) as (rest & -> & Hrest & Hst & Hcase).
  { destruct oe as [e|].
    - destruct Hoe as (-> & -> & _ & Hdr). exists []. rewrite app_nil_r.
      split_and!; [done|done| |by right]. exists 1. by apply Drained_streams, Hdr.
    - destruct Hoe as (Hne & l' & -> & Hs'). exists l'. specialize (Hne eq_refl).
      split_and!; [done|by intros|by eexists|by left]. }
  exists f0, (list_inserts (fb_Off b) out frame), (mkFrameBuffer r' 0 (length out) (fb_Off b)).
  split_and!; [done| | |].
  - split; [by rewrite length_inserts|]. intros p [Hp|Hp].
    + by rewrite list_lookup_inserts_lt.
    + by rewrite list_lookup_inserts_ge by lia.
  - intros f Hf. unfold Fill. rewrite Hil, Nat.eqb_refl. simpl. rewrite HR by done. simpl.
    destruct Hcase as [[-> Hne]| ->].
    + destruct out; [done|]. done.
    + destruct out as [|x out]; simpl; [|done]. by rewrite Hrest by done.
  - intros Hne. unfold buf_ok, Pos. simpl. rewrite Nat.sub_0_r, Nat.add_0_r.
    split_and!; [|done|by rewrite length_inserts|].
    { destruct out; simpl; [|lia]. rewrite Hrest in Hne by done. done. }
    exists rest. split; [|done]. f_equal. apply list_eq. intros p.
    destruct (decide (p < length out)).
    + rewrite lookup_take_lt, lookup_drop, list_lookup_inserts by lia. f_equal. lia.
    + rewrite lookup_take_ge by lia. apply lookup_ge_None. lia.
Qed.

(** [advance] consumes the buffer's current row. *)
Lemma advance_spec frame b x l :
  0 < batch → buf_ok frame b (x :: l) →
  ∃ f0 frame' b', fb_Off b' = fb_Off b ∧ agree_outside (fb_Off b) frame frame' ∧
    (∀ f, f0 ≤ f → advance f frame b =
       Ret (frame', b', if decide (l = []) then Some EOF else None)) ∧
    (l ≠ [] → buf_ok frame' b' l).
Proof.
  intros Hb (Hi & Hlen & Ho & rest & Hrest & Hst). unfold advance.
  set (b1 := mkFrameBuffer (fb_Reader b) (fb_Index b + 1) (fb_Len b) (fb_Off b)).
  assert (l = take (fb_Len b - (fb_Index b + 1)) (drop (Pos b1) frame) ++ rest) as Hl'.
  { destruct (lookup_lt_is_Some_2 frame (Pos b)) as [y Hy]; [unfold Pos; lia|].
    rewrite (drop_S _ _ _ Hy) in Hrest.
    replace (fb_Len b - fb_Index b) with (S (fb_Len b - (fb_Index b + 1))) in Hrest by lia.
    simpl in Hrest. injection Hrest as _ ->. unfold Pos. simpl.
    by rewrite Nat.add_1_r, <-plus_n_Sm. }
  cbn [fb_Index fb_Len b1]. destruct (Nat.eqb_spec (fb_Index b + 1) (fb_Len b)) as [Hfull|Hfull].
  - rewrite Hfull, Nat.sub_diag in Hl'. simpl in Hl'. subst rest.
    by apply (Fill_spec frame b1).
  - assert (l ≠ []) as Hne.
    { rewrite Hl'. intros [E _]%app_nil. apply (f_equal length) in E.
      rewrite length_take, length_drop in E. unfold Pos in E. simpl in E. lia. }
    exists 0, frame, b1. split_and!; [done|done|by intros; rewrite decide_False|].
    intros _. split_and!; [simpl; lia|done|done|]. by exists rest.
Qed.

(** The pending rows of a buffer, with the offset of its window. *)
Definition holds (frame : list row) (b : FrameBuffer) (p : nat * list row) : Prop :=
  buf_ok frame b p.2 ∧ fb_Off b = p.1.

Lemma buf_ok_holds frame bufs ls :
  Forall2 (buf_ok frame) bufs ls → Forall2 (holds frame) bufs (zip (fb_Off <$> bufs) ls).
Proof. induction 1; simpl; by constructor. Qed.

Lemma holds_buf_ok frame bufs ps : Forall2 (holds frame) bufs ps → Forall2 (buf_ok frame) bufs ps.*2.
Proof. induction 1 as [|b p bufs ps [??]]; by constructor. Qed.

(** The state of a merge: every buffer holds rows of its own sorted stream,
    the windows are disjoint, and the buffers form a heap. *)
Definition merge_ok (frame : list row) (bufs : list FrameBuffer) (ps : list (nat * list row)) : Prop :=
  Forall2 (holds frame) bufs ps ∧ pairwise apart bufs ∧
  is_heap (buf_less frame) bufs ∧ Forall sorted ps.*2.

#[local] Instance apart_symmetric : Symmetric apart.
Proof. intros a b [?|?]; [by right|by left]. Qed.

(** The buffers after the heap has been restored, with their pending rows
    permuted alongside. *)
Lemma merge_ok_perm frame bufs bufs' ps :
  bufs' ≡ₚ bufs → is_heap (buf_less frame) bufs' →
  Forall2 (holds frame) bufs ps → pairwise apart bufs → Forall sorted ps.*2 →
  ∃ ps', merge_ok frame bufs' ps' ∧ ps ≡ₚ ps'.
Proof.
  intros Hp Hh HF Hpw Hs.
  destruct (Permutation_Forall2 (symmetry Hp) HF) as (ps' & Hps & HF').
  exists ps'. split; [|done]. split_and!; [done| |done|by rewrite <-Hps].
  by eapply pairwise_perm; [apply _|symmetry|].
Qed.

(** Overwriting one window does not change what the other buffers hold, nor
    their order. *)
Lemma agree_bufs off frame frame' bufs ls :
  agree_outside off frame frame' → Forall2 (buf_ok frame) bufs ls →
  Forall (λ c, off + batch ≤ fb_Off c ∨ fb_Off c + batch ≤ off) bufs →
  Forall2 (buf_ok frame') bufs ls ∧
  Forall (λ c, row_at frame' (Pos c) = row_at frame (Pos c)) bufs.
Proof.
  intros Hag HF Hap. apply Forall2_same_length_lookup in HF as [Hlen HF].
  rewrite Forall_lookup in Hap. rewrite Forall2_same_length_lookup, Forall_lookup.
  assert (∀ i c, bufs !! i = Some c → ∃ l, ls !! i = Some l ∧ buf_ok frame c l) as Hok.
  { intros i c Hc. destruct (lookup_lt_is_Some_2 ls i) as [l Hl].
    { rewrite <-Hlen. by eapply lookup_lt_Some. }
    eauto. }
  split; [split; [done|]; intros i c l Hc Hl|intros i c Hc].
  - eapply agree_row_at; [done|by eapply HF|]. destruct (Hap i c Hc); auto.
  - destruct (Hok i c Hc) as (l & _ & Hl).
    eapply agree_row_at; [done|done|]. destruct (Hap i c Hc); auto.
Qed.

Lemma is_heap_agree frame frame' bufs :
  Forall (λ c, row_at frame' (Pos c) = row_at frame (Pos c)) bufs →
  is_heap (buf_less frame) bufs → is_heap (buf_less frame') bufs.
Proof.
  rewrite Forall_lookup. intros Heq Hh j Hj Hp a c Ha Hc. unfold buf_less.
  rewrite (Heq _ _ Ha), (Heq _ _ Hc). by eapply (Hh j).
Qed.

(** Replacing the root leaves everything else in order, also when the
    root's window was overwritten. *)
Lemma root_replaced frame frame' b b' bufs ls :
  agree_outside (fb_Off b) frame frame' →
  is_heap (buf_less frame) (b :: bufs) → Forall (apart b) bufs →
  Forall2 (buf_ok frame) bufs ls →
  Forall2 (buf_ok frame') bufs ls ∧
  fix_inv (buf_less frame') 0 (length (b' :: bufs)) (b' :: bufs) 0.
Proof.
  intros Hag Hh Hap HF. split.
  - apply Forall2_same_length_lookup in HF as [Hlen HF].
    apply Forall2_same_length_lookup. split; [done|]. intros i c l Hc Hl.
    eapply agree_row_at; [done|by eapply HF|]. rewrite Forall_lookup in Hap.
    by apply Hap in Hc as [?|?]; [right|left].
  - split; [|lia]. intros j Hj _ Hj0 Hp a c Ha Hc.
    assert (∀ i d, i ≠ 0 → (b' :: bufs) !! i = Some d →
      (b :: bufs) !! i = Some d ∧ row_at frame' (Pos d) = row_at frame (Pos d)) as Hsame.
    { intros [|i] d Hi Hd; [done|]. simpl in *. split; [done|].
      destruct (Forall2_lookup_l _ _ _ _ _ HF Hd) as (l & Hl & Hok).
      rewrite Forall_lookup in Hap. eapply agree_row_at; [done..|].
      by apply Hap in Hd as [?|?]; [right|left]. }
    apply Hsame in Ha as [Ha Ea]; [|done]. apply Hsame in Hc as [Hc Ec]; [|done].
    unfold buf_less. rewrite Ea, Ec. eapply (Hh j); simpl in *; [lia..|done|done].
Qed.

Lemma merge_root_least frame b bufs l ls x l' :
  is_heap (buf_less frame) (b :: bufs) → Forall2 (buf_ok frame) (b :: bufs) (l :: ls) →
  Forall sorted (l :: ls) → l = x :: l' → x = row_at frame (Pos b) →
  Forall (row_le x) (concat (l :: ls)).
Proof.
  intros Hh HF Hs -> ->. rewrite Forall_forall. intros y Hy%list_elem_of_In.
  apply list_elem_of_In, in_concat in Hy as (l2 & Hl2 & Hy2).
  apply list_elem_of_In in Hl2, Hy2.
  apply list_elem_of_lookup in Hl2 as [i Hi].
  destruct (Forall2_lookup_r _ _ _ _ _ HF Hi) as (b2 & Hb2 & Hok).
  rewrite Forall_lookup in Hs. specialize (Hs _ _ Hi).
  destruct (buf_ok_cons _ _ _ Hok) as [l3 ->].
  assert (row_le (row_at frame (Pos b)) (row_at frame (Pos b2))) as Hroot.
  { apply (is_heap_root (buf_less frame) (b :: bufs) b) with i; [done|done|done]. }
  apply elem_of_cons in Hy2 as [->|Hy2]; [done|].
  apply StronglySorted_inv in Hs as [_ Hs].
  rewrite Forall_forall in Hs. eapply sw_neg_trans; [apply Hroot|].
  by apply Hs, list_elem_of_In.
Qed.

Lemma holds_agree off frame frame' bufs ps :
  agree_outside off frame frame' → Forall2 (holds frame) bufs ps →
  Forall (λ c, off + batch ≤ fb_Off c ∨ fb_Off c + batch ≤ off) bufs →
  Forall2 (holds frame') bufs ps.
Proof.
  intros Hag HF Hap. destruct (agree_bufs off frame frame' bufs ps.*2 Hag) as [HF' _]; [by apply holds_buf_ok|done|].
  clear Hap Hag. revert HF'. induction HF as [|b p bufs ps [_ Hb] _ IH]; simpl; [done|].
  intros [??]%Forall2_cons_1. constructor; [done|]. by apply IH.
Qed.

(** A step emits the least pending row, that of the first buffer, and leaves
    the rest of its stream and the streams of the others. *)
Lemma merge_step_spec frame b bufs ps :
  0 < batch → merge_ok frame (b :: bufs) ps →
  ∃ x l rest frame' bufs' ps',
    (∃ f0, ∀ f, f0 ≤ f → merge_step f frame (b :: bufs) = Ret (x, frame', bufs', None)) ∧
    merge_ok frame' bufs' ps' ∧
    x = row_at frame (Pos b) ∧ ps = (fb_Off b, x :: l) :: rest ∧
    ps' ≡ₚ (if decide (l = []) then [] else [(fb_Off b, l)]) ++ rest ∧
    Forall (row_le x) (concat ps.*2).
Proof.
  intros Hb0 (HF & Hap & Hh & Hs).
  destruct ps as [|[off l] ps]; [by inversion HF|].
  pose proof (holds_buf_ok _ _ _ HF) as HFo.
  apply Forall2_cons_1 in HF as [[Hok Hoffb] HF']. simpl in Hok, Hoffb. subst off.
  destruct (buf_ok_cons _ _ _ Hok) as [l' ->].
  pose proof (merge_root_least _ _ _ _ _ _ _ Hh HFo Hs eq_refl eq_refl) as Hleast.
  destruct Hap as [Hapb Hap]. apply Forall_cons_iff in Hs as [[Hsl _]%StronglySorted_inv Hs].
  destruct (advance_spec frame b _ l' Hb0 Hok) as (f0 & frame' & b' & Hoff & Hag & Hadv & Hok').
  destruct (root_replaced frame frame' b b' bufs ps.*2) as [_ Hfix]; [done..|by apply holds_buf_ok|].
  assert (Forall2 (holds frame') bufs ps) as HF2.
  { eapply holds_agree; [exact Hag|done|exact Hapb]. }
  eexists _, l', ps, frame'. destruct (decide (l' = [])) as [->|Hrne].
  - destruct (Remove_spec (HI := FrameBufferHeap frame') (b' :: bufs) 0 b')
      as (x & bufs' & Hrem & _ & Hp & Hh'); [done|done|].
    apply Permutation_cons_inv in Hp.
    destruct (merge_ok_perm frame' bufs bufs' ps) as (ps' & Hm & Hps); [done..|].
    exists bufs', ps'. split_and!; [|apply Hm..|done|done|done|done].
    exists f0. intros f Hf. unfold merge_step. rewrite Hadv by done. simpl. by rewrite Hrem.
  - destruct (Fix_spec (HI := FrameBufferHeap frame') (b' :: bufs) 0) as [Hh' Hp];
      [simpl; lia|done|].
    destruct (merge_ok_perm frame' (b' :: bufs) (Fix (HI := FrameBufferHeap frame') (b' :: bufs) 0)
      ((fb_Off b, l') :: ps)) as (ps' & Hm & Hps); [done|done| | |by constructor|].
    { constructor; [split; [by apply Hok'|done]|done]. }
    { split; [|done]. eapply Forall_impl; [|exact Hapb]. unfold apart. by rewrite Hoff. }
    eexists _, ps'. split_and!; [|apply Hm..|done|done|done|done].
    exists f0. intros f Hf. unfold merge_step. by rewrite Hadv.
Qed.

(** [L] is the sequence of rows that iterating [merge_step] emits, each with the
    offset of the buffer it comes from. *)
Fixpoint emits (frame : list row) (bufs : list FrameBuffer) (L : list (nat * row)) : Prop :=
  match L with
  | [] => bufs = []
  | (off, x) :: L => ∃ b bufs0 frame' bufs', bufs = b :: bufs0 ∧ fb_Off b = off ∧ row_at frame (Pos b) = x ∧
      is_heap (buf_less frame) bufs ∧
      (∃ f0, ∀ f, f0 ≤ f → merge_step f frame bufs = Ret (x, frame', bufs', None)) ∧
      emits frame' bufs' L
  end.

(** The pending rows, each with its offset. *)
Definition tagged (ps : list (nat * list row)) : list (nat * row) := ps ≫= λ p, pair p.1 <$> p.2.

#[export] Instance tagged_perm : Proper ((≡ₚ) ==> (≡ₚ)) tagged.
Proof. intros ps1 ps2 Hp. unfold tagged. by rewrite Hp. Qed.

Lemma tagged_rows ps : (tagged ps).*2 = concat ps.*2.
Proof.
  induction ps as [|[off l] ps IH]; [done|].
  change ((pair off <$> l) ++ tagged ps) with (tagged ((off, l) :: ps)).
  change (((pair off <$> l) ++ tagged ps).*2 = l ++ concat ps.*2).
  rewrite fmap_app, IH. f_equal. rewrite <-list_fmap_compose. by apply list_fmap_id.
Qed.

Lemma merge_emits frame bufs ps :
  0 < batch → merge_ok frame bufs ps →
  ∃ L, emits frame bufs L ∧ L ≡ₚ tagged ps ∧ sorted L.*2.
Proof.
  intros Hb. remember (length (tagged ps)) as N eqn:HN. revert frame bufs ps HN.
  induction N as [|N IH]; intros frame bufs ps HN Hm.
  all: destruct bufs as [|b bufs];
    [destruct Hm as (HF & _); apply Forall2_nil_inv_l in HF as ->;
     exists []; split_and!; [done..|constructor]|].
  { destruct (merge_step_spec frame b bufs ps Hb Hm) as (x & l & rest & _ & _ & _ & _ & _ & _ & -> & _). done. }
  destruct (merge_step_spec frame b bufs ps Hb Hm)
    as (x & l & rest & frame' & bufs' & ps' & Hst & Hm' & Hx & -> & Hp & Hmin).
  assert (tagged ((fb_Off b, x :: l) :: rest) ≡ₚ (fb_Off b, x) :: tagged ps') as Htag.
  { rewrite Hp. destruct (decide (l = [])) as [->|]; [done|]. done. }
  rewrite Htag in HN. injection HN as HN.
  destruct (IH frame' bufs' ps') as (L & HL & HpL & Hs); [done..|].
  exists ((fb_Off b, x) :: L). split_and!; [|by rewrite HpL, Htag|].
  - exists b, bufs, frame', bufs'. split_and!; [done..|apply Hm|done|done].
  - constructor; [done|]. rewrite HpL, tagged_rows. rewrite <-tagged_rows, Htag in Hmin. simpl in Hmin.
    rewrite tagged_rows in Hmin. by apply Forall_cons_iff in Hmin as [??].
Qed.

Lemma emits_loop k frame bufs L acc :
  emits frame bufs L →
  ∃ frame' bufs', emits frame' bufs' (drop k L) ∧
    ∃ f0, ∀ f, f0 ≤ f →
      merge_loop k f frame bufs acc = Ret (acc ++ take k L.*2, frame', bufs', None).
Proof.
  revert frame bufs L acc. induction k as [|k IH]; intros frame bufs L acc HL.
  { exists frame, bufs. split; [done|]. exists 0. intros. by rewrite app_nil_r. }
  destruct L as [|[off x] L].
  { simpl in HL. subst. exists frame, []. split; [done|]. exists 0. intros.
    by rewrite app_nil_r. }
  destruct HL as (b & bufs0 & frame1 & bufs1 & -> & _ & _ & _ & [f1 Hst] & HL).
  destruct (IH frame1 bufs1 L (acc ++ [x]) HL) as (frame' & bufs' & HL' & f0 & Hlp).
  exists frame', bufs'. split; [done|]. exists (f0 `max` f1). intros f Hf.
  cbn [merge_loop]. rewrite Hst by lia. cbn [mbind outcome_bind].
  rewrite Hlp by lia. by rewrite <-(assoc_L (++)).
Qed.

Lemma emits_streams frame bufs L :
  emits frame bufs L → streams strict (S (length L)) (mkMergeReader None frame bufs) L.*2.
Proof.
  remember (length L) as N eqn:HN. revert frame bufs L HN.
  induction (lt_wf N) as [N _ IH]. intros frame bufs L -> HL n Hn.
  destruct (emits_loop n frame bufs L [] HL) as (frame' & bufs' & HL' & f0 & Hlp).
  destruct L as [|[off x] L].
  - exists (mkMergeReader (Some EOF) frame' bufs'), [], (Some EOF).
    split_and!; [|simpl; lia|done..|].
    + exists f0. intros f Hf. unfold Read, mergeReader_reader, mergeReader_Read. simpl.
      rewrite Hlp by done. simpl. by rewrite take_nil.
    + intros _. exists (λ m, mg_err m = Some EOF). split; [done|].
      intros m m0 Hm _. exists m. split; [|done]. exists 0. intros.
      unfold Read, mergeReader_reader, mergeReader_Read. by rewrite Hm.
  - exists (mkMergeReader None frame' bufs'), (take n ((off, x) :: L).*2), None.
    split_and!; [|rewrite length_take; lia| |].
    + exists f0. intros f Hf. unfold Read, mergeReader_reader, mergeReader_Read. simpl.
      rewrite Hlp by done. simpl. destruct n; [lia|done].
    + intros _. destruct n; [lia|done].
    + exists (drop n ((off, x) :: L)).*2. split; [by rewrite fmap_drop, take_drop|].
      apply streams_mono with (S (length (drop n ((off, x) :: L)))).
      { rewrite length_drop. simpl. lia. }
      eapply IH; [|done|done]. rewrite length_drop. simpl. lia.
Qed.

(** The windows that get rows of the streams [ls], which belong to the readers
    [i, i + 1, ...]. *)
Definition windows (i : nat) (ls : list (list row)) : list (nat * list row) :=
  filter (λ p, p.2 ≠ []) (imap (λ k l, ((i + k) * batch, l)) ls).

Lemma windows_cons i l ls :
  windows i (l :: ls) = (if decide (l = []) then [] else [(i * batch, l)]) ++ windows (S i) ls.
Proof.
  unfold windows. simpl. rewrite Nat.add_0_r.
  assert (imap ((λ k l, ((i + k) * batch, l)) ∘ S) ls = imap (λ k l, ((S i + k) * batch, l)) ls) as ->.
  { apply imap_ext. intros k ? _. simpl. by rewrite Nat.add_succ_r. }
  rewrite filter_cons. simpl. by repeat case_decide.
Qed.

Lemma windows_rows i ls : concat (windows i ls).*2 = concat ls.
Proof.
  revert i. induction ls as [|l ls IH]; intros i; [done|]. rewrite windows_cons, fmap_app, concat_app, IH.
  case_decide; subst; [done|]. simpl. by rewrite app_nil_r.
Qed.

Lemma windows_elem i ls l : l ∈ (windows i ls).*2 → l ∈ ls.
Proof.
  revert i. induction ls as [|l0 ls IH]; intros i; [done|]. rewrite windows_cons, fmap_app, elem_of_app, elem_of_cons.
  case_decide; simpl; [|rewrite list_elem_of_singleton]; intros [Hl|Hl]; eauto. by apply not_elem_of_nil in Hl.
Qed.

(** Filling the buffers of the readers [i, i+1, ...]. *)
Lemma NewMergeReader_loop_spec readers ls i frame bufs ps0 :
  0 < batch → Forall2 (Streams_as steady) readers ls →
  (i + length readers) * batch ≤ length frame →
  Forall2 (holds frame) bufs ps0 → pairwise apart bufs →
  Forall (λ b, fb_Off b + batch ≤ i * batch) bufs →
  ∃ frame' bufs' f0, (∀ f, f0 ≤ f →
      NewMergeReader_loop f i readers frame bufs = Ret (frame', bufs', None)) ∧
    Forall2 (holds frame') bufs' (ps0 ++ windows i ls) ∧ pairwise apart bufs'.
Proof.
  intros Hb HF. revert i frame bufs ps0.
  induction HF as [|r l readers ls Hr HF IH]; intros i frame bufs ps0 Hlen HB Hap Hoff.
  { exists frame, bufs, 0. rewrite app_nil_r. done. }
  simpl in Hlen.
  destruct (Fill_spec frame (mkFrameBuffer r 0 0 (i * batch)) l)
    as (f1 & frame1 & b1 & Ho1 & Hag & Hfill & Hok); [done|simpl; lia|done|done|].
  simpl in Ho1, Hag.
  assert (Forall2 (holds frame1) bufs ps0) as HB1.
  { eapply holds_agree; [exact Hag|done|]. eapply Forall_impl; [|exact Hoff]. simpl. intros; by right. }
  assert (length frame = length frame1) as Hlf by apply Hag.
  rewrite windows_cons. destruct (decide (l = [])) as [->|Hne].
  - destruct (IH (S i) frame1 bufs ps0) as (frame' & bufs' & f0 & Hlp & HB' & Hap'); [lia|done|done| |].
    { eapply Forall_impl; [|exact Hoff]. simpl. intros; lia. }
    exists frame', bufs', (f0 `max` f1). split_and!; [|done..].
    intros f Hf. simpl. rewrite Hfill by lia. simpl. apply Hlp. lia.
  - destruct (IH (S i) frame1 (bufs ++ [b1]) (ps0 ++ [(i * batch, l)]))
      as (frame' & bufs' & f0 & Hlp & HB' & Hap'); [lia| | | |].
    { apply Forall2_app; [done|]. constructor; [split; [by apply Hok|done]|done]. }
    { apply pairwise_app. split_and!; [done|by repeat constructor|].
      eapply Forall_impl; [|exact Hoff]. intros b Hob. simpl in Hob.
      constructor; [|done]. left. lia. }
    { apply Forall_app. split; [|by constructor; [lia|]].
      eapply Forall_impl; [|exact Hoff]. simpl. intros; lia. }
    rewrite <-(assoc_L (++)) in HB'.
    exists frame', bufs', (f0 `max` f1). split_and!; [|done|done].
    intros f Hf. simpl. rewrite Hfill by lia. simpl. apply Hlp. lia.
Qed.

Lemma windows_sorted i ls : Forall sorted ls → Forall sorted (windows i ls).*2.
Proof.
  rewrite !Forall_forall. intros Hs l Hl%list_elem_of_In%windows_elem%list_elem_of_In. by apply Hs.
Qed.

Lemma NewMergeReader_spec (readers : list R) (ls : list (list row)) :
  0 < batch → Forall2 (Streams_as steady) readers ls → Forall sorted ls →
  ∃ m L f0, (∀ f, f0 ≤ f → NewMergeReader f readers = Ret (inl m)) ∧
    Streams_as strict m L ∧ L ≡ₚ concat ls ∧ sorted L.
Proof.
  intros Hb HF Hs.
  destruct (NewMergeReader_loop_spec readers ls 0
    (replicate (length readers * batch) zero) [] [])
    as (frame & bufs & f0 & Hlp & HB & Hap); [done|done| |constructor|done|done|].
  { by rewrite length_replicate. }
  destruct (Init_spec (HI := FrameBufferHeap frame) bufs) as [Hh Hp].
  destruct (merge_ok_perm frame bufs (Init (HI := FrameBufferHeap frame) bufs) (windows 0 ls))
    as (ps & Hm & Hps); [done..|by apply windows_sorted|].
  destruct (merge_emits frame _ ps Hb Hm) as (L & HL & HpL & HsL).
  exists (mkMergeReader None frame (Init (HI := FrameBufferHeap frame) bufs)), L.*2, f0.
  split_and!; [| | |done].
  - intros f Hf. unfold NewMergeReader. by rewrite Hlp.
  - exists (S (length L)). by apply emits_streams.
  - by rewrite HpL, tagged_rows, <-Hps, windows_rows.
Qed.

(** C19. Merging sorted readers yields one sorted reader over exactly their
    rows: NewMergeReader succeeds, and reading the result, whatever the
    frame sizes, produces a sorted permutation of all input rows and then
    EOF. *)
Theorem NewMergeReader_correct (readers : list R) (ls : list (list row)) :
  0 < batch → Forall2 (Streams_as steady) readers ls → Forall sorted ls →
  ∃ m L f0, (∀ f, f0 ≤ f → NewMergeReader f readers = Ret (inl m)) ∧
    Streams_as strict m L ∧ L ≡ₚ concat ls ∧ sorted L.
Proof. apply NewMergeReader_spec. Qed.
End sortio.
