(* ===== verification/Codec.v ===== *)
(** Package sliceio: the batch codec (src/sliceio/codec.go).

    An Encoder writes each frame as a batch: its length, its columns (each one
    preceded by a flag that says whether a custom codec encoded it), and a
    checksum of the bytes written for the batch.  The decodingReader reads
    batches back, into the caller's frame when they fit and into a buffer
    otherwise, and checks the checksums.

    The gob encoding of single values, the checksum function and the
    registered column codecs are the class [Codec]; what the code relies on is
    [CodecLaws]: decoding inverts encoding on a stream. *)
From S2P Require Import Prelude SliceIO.

(** * Rows and columns *)

Section columns.
Context {cell : Type}.

(** A frame's contents, row by row; [column] and [of_columns] convert. *)
Definition column (zc : cell) (col : nat) (rows : list (list cell)) : list cell :=
  (λ r : list cell, default zc (r !! col)) <$> rows.

Definition of_columns (zc : cell) (n : nat) (cols : list (list cell)) : list (list cell) :=
  (λ i, (λ c : list cell, default zc (c !! i)) <$> cols) <$> seq 0 n.

Lemma of_columns_columns (zc : cell) (width : nat) (rows : list (list cell)) :
  Forall (λ r, length r = width) rows →
  of_columns zc (length rows) ((λ j, column zc j rows) <$> seq 0 width) = rows.
Proof.
  intros HF. apply list_eq. intros i. unfold of_columns. rewrite list_lookup_fmap.
  destruct (decide (i < length rows)) as [Hi|Hi].
  - rewrite lookup_seq_lt by done. simpl.
    destruct (lookup_lt_is_Some_2 rows i Hi) as [r Hr]. rewrite Hr. f_equal.
    rewrite Forall_lookup in HF. specialize (HF _ _ Hr).
    apply list_eq. intros j. rewrite !list_lookup_fmap.
    destruct (decide (j < width)) as [Hj|Hj].
    + rewrite lookup_seq_lt by done. simpl. unfold column.
      rewrite list_lookup_fmap, Hr. simpl.
      destruct (lookup_lt_is_Some_2 r j) as [x Hx]; [lia|]. by rewrite Hx.
    + rewrite lookup_seq_ge by lia. simpl. symmetry. apply lookup_ge_None. lia.
  - rewrite lookup_seq_ge by lia. simpl. symmetry. apply lookup_ge_None. lia.
Qed.
End columns.

(** * What the codec is built on *)

(** The values that pass through gob. *)
Inductive msg (cell : Type) :=
| MInt (n : nat)
| MBool (b : bool)
| MCol (c : list cell)
| MSum (z : Z).
Arguments MInt {cell} n.
Arguments MBool {cell} b.
Arguments MCol {cell} c.
Arguments MSum {cell} z.

Inductive dec_result (A : Type) :=
| DOk (a : A)
| DEOF                    (* io.EOF *)
| DErr (e : error).
Arguments DOk {A} a.
Arguments DEOF {A}.
Arguments DErr {A} e.

(** gob encoders and decoders keep a session state (the types already sent);
    [gob_enc s m] are the bytes written for [m].  [has_codec col] is HasCodec,
    [codec_enc] and [codec_dec] are the registered column codecs, [crc32] is
    the checksum of [crc32.NewIEEE], [NumOut] the number of columns of the
    frames that are written and read. *)
Class Codec (cell : Type) := {
  gst : Type;
  byte : Type;
  gst0 : gst;
  gob_enc : gst → msg cell → list byte * gst + string;
  gob_dec : gst → list byte → dec_result (msg cell * list byte * gst);
  has_codec : nat → bool;
  codec_enc : gst → nat → list cell → list byte * gst + string;
  codec_dec : gst → nat → nat → list byte → dec_result (list cell * list byte * gst);
  crc32 : list byte → Z;
  NumOut : nat;
}.

(** What the code relies on: decoding inverts encoding at the head of a
    stream, and the end of the stream is reported as such. *)
Class CodecLaws (cell : Type) `{Codec cell} : Prop := {
  gob_roundtrip : ∀ s m bs s' rest,
    gob_enc s m = inl (bs, s') → gob_dec s (bs ++ rest) = DOk (m, rest, s');
  gob_eof : ∀ s, gob_dec s [] = DEOF;
  codec_roundtrip : ∀ s col c bs s' rest,
    codec_enc s col c = inl (bs, s') →
    codec_dec s col (length c) (bs ++ rest) = DOk (c, rest, s');
}.

(** * The codec *)

Section codec.
Context {cell : Type} (zc : cell) {C : Codec cell}.
Abbreviation row := (list cell).

(** ** Encoder *)

(** [en_out] is what has been written to the underlying writer. *)
Record Encoder := mkEncoder { en_enc : gst; en_crc : list byte; en_out : list byte }.

Definition NewEncodingWriter : Encoder := mkEncoder gst0 [] [].

(** Write bytes through the MultiWriter of the output and the checksum. *)
Definition en_write (e : Encoder) (bs : list byte) (s : gst) : Encoder :=
  mkEncoder s (en_crc e ++ bs) (en_out e ++ bs).

Definition en_encode (e : Encoder) (m : msg cell) : Encoder * option error :=
  match gob_enc (en_enc e) m with
  | inl (bs, s) => (en_write e bs s, None)
  | inr msg => (e, Some (Err Other msg))
  end.

(** Errors that gob reports for a column are attributed to the user's type. *)
Definition column_error (msg : string) : error :=
  if String.prefix "gob: " msg then Err Fatal msg else Err Other msg.

Definition en_column (e : Encoder) (rows : list row) (col : nat) : Encoder * option error :=
  let codec := has_codec col in
  match en_encode e (MBool codec) with
  | (e, Some err) => (e, Some err)
  | (e, None) =>
      match (if codec then codec_enc (en_enc e) col (column zc col rows)
             else gob_enc (en_enc e) (MCol (column zc col rows))) with
      | inl (bs, s) => (en_write e bs s, None)
      | inr msg => (e, Some (column_error msg))
      end
  end.

Fixpoint en_columns (e : Encoder) (rows : list row) (cols : list nat) : Encoder * option error :=
  match cols with
  | [] => (e, None)
  | col :: cols =>
      match en_column e rows col with
      | (e, Some err) => (e, Some err)
      | (e, None) => en_columns e rows cols
      end
  end.

Definition Encoder_Write (e : Encoder) (rows : list row) : Encoder * option error :=
  let e := mkEncoder (en_enc e) [] (en_out e) in
  match en_encode e (MInt (length rows)) with
  | (e, Some err) => (e, Some err)
  | (e, None) =>
      match en_columns e rows (seq 0 NumOut) with
      | (e, Some err) => (e, Some err)
      | (e, None) => en_encode e (MSum (crc32 (en_crc e)))
      end
  end.

(** ** decodingReader *)

(** [dr_in] is what remains of the underlying stream, [dr_crc] what has been
    read since the checksum was reset, [dr_buf] the rows decoded but not yet
    read. *)
Record decodingReader := mkDecodingReader {
  dr_dec : gst;
  dr_in : list byte;
  dr_crc : list byte;
  dr_buf : list row;
  dr_err : option error;
}.

Definition NewDecodingReader (bs : list byte) : decodingReader :=
  mkDecodingReader gst0 bs [] [] None.

Definition io_EOF : error := Err Other "EOF".

(** Account for a decoded value: the bytes consumed pass through the
    TeeReader into the checksum. *)
Definition dr_consume (d : decodingReader) (rest : list byte) (s : gst) : decodingReader :=
  mkDecodingReader s rest (dr_crc d ++ take (length (dr_in d) - length rest) (dr_in d))
    (dr_buf d) (dr_err d).

Definition dr_decode (d : decodingReader) : dec_result (msg cell * decodingReader) :=
  match gob_dec (dr_dec d) (dr_in d) with
  | DOk (m, rest, s) => DOk (m, dr_consume d rest s)
  | DEOF => DEOF
  | DErr e => DErr e
  end.

Definition type_mismatch : error := Err Other "gob: type mismatch".

(** The decoded cells, in a zeroed column slice of length [n]. *)
Definition fit (n : nat) (cells : list cell) : outcome (list cell) :=
  if n <? length cells then Panic "gob reallocated a slice"
  else Ret (cells ++ replicate (n - length cells) zc).

(** One column of a batch of [n] rows. *)
Definition dr_column (d : decodingReader) (n col : nat) :
    outcome (decodingReader * (list cell + error)) :=
  match dr_decode d with
  | DEOF => Ret (d, inr io_EOF)
  | DErr e => Ret (d, inr e)
  | DOk (MBool codec, d) =>
      if codec && negb (has_codec col) then
        Ret (d, inr (Err Other "column encoded with custom codec but no codec available on receipt"))
      else if codec then
        match codec_dec (dr_dec d) col n (dr_in d) with
        | DOk (cells, rest, s) => cells ← fit n cells; Ret (dr_consume d rest s, inl cells)
        | DEOF => Ret (d, inr io_EOF)
        | DErr e => Ret (d, inr e)
        end
      else
        match dr_decode d with
        | DOk (MCol cells, d) => cells ← fit n cells; Ret (d, inl cells)
        | DOk (_, d) => Ret (d, inr type_mismatch)
        | DEOF => Ret (d, inr EOF)
        | DErr e => Ret (d, inr e)
        end
  | DOk (_, d) => Ret (d, inr type_mismatch)
  end.

Fixpoint dr_columns (d : decodingReader) (n : nat) (cols : list nat) :
    outcome (decodingReader * (list (list cell) + error)) :=
  match cols with
  | [] => Ret (d, inl [])
  | col :: cols =>
      '(d, c) ← dr_column d n col;
      match c with
      | inr e => Ret (d, inr e)
      | inl cells =>
          '(d, cs) ← dr_columns d n cols;
          match cs with
          | inr e => Ret (d, inr e)
          | inl cs => Ret (d, inl (cells :: cs))
          end
      end
  end.

(** [decode]: a batch of [n] rows, and the checksum. *)
Definition decode (d : decodingReader) (n : nat) :
    outcome (decodingReader * (list row + error)) :=
  '(d, cs) ← dr_columns d n (seq 0 NumOut);
  match cs with
  | inr e => Ret (d, inr e)
  | inl cols =>
      let sum := crc32 (dr_crc d) in
      match dr_decode d with
      | DOk (MSum decoded, d) =>
          if bool_decide (sum = decoded) then Ret (d, inl (of_columns zc n cols))
          else Ret (d, inr (Err Integrity "computed checksum but expected checksum"))
      | DOk (_, d) => Ret (d, inr type_mismatch)
      | DEOF => Ret (d, inr io_EOF)
      | DErr e => Ret (d, inr e)
      end
  end.

Definition dr_fail (d : decodingReader) (e : error) : decodingReader * (list row * option error) :=
  (mkDecodingReader (dr_dec d) (dr_in d) (dr_crc d) (dr_buf d) (Some e), ([], Some e)).

Definition dr_set_buf (d : decodingReader) (buf : list row) : decodingReader :=
  mkDecodingReader (dr_dec d) (dr_in d) (dr_crc d) buf (dr_err d).

(** [Read] into a frame of length [len]: from the buffer if it holds rows;
    otherwise the next batch, decoded directly if it fits and through the
    buffer if not. *)
Definition decodingReader_Read (fuel : nat) (d : decodingReader) (len : nat) :
    outcome (decodingReader * (list row * option error)) :=
  match dr_err d with
  | Some e => Ret (d, ([], Some e))
  | None =>
      let from_buf d := (dr_set_buf d (drop len (dr_buf d)), (take len (dr_buf d), None)) in
      if negb (length (dr_buf d) =? 0) then Ret (from_buf d)
      else
        let d := mkDecodingReader (dr_dec d) (dr_in d) [] (dr_buf d) (dr_err d) in
        match dr_decode d with
        | DEOF => Ret (dr_fail d EOF)
        | DErr e => Ret (dr_fail d e)
        | DOk (MInt n, d) =>
            '(d, res) ← decode d n;
            match res with
            | inr e => Ret (dr_fail d e)
            | inl rows =>
                if n <=? len then Ret (d, (rows, None))
                else Ret (from_buf (dr_set_buf d rows))
            end
        | DOk (_, d) => Ret (dr_fail d type_mismatch)
        end
  end.

#[local] Instance decodingReader_reader : Reader row decodingReader := decodingReader_Read.

(** * Round trip *)

Context {CL : CodecLaws cell}.

(** The decoder is where the encoder was, with [inp] to read. *)
Definition in_sync (d : decodingReader) (e : Encoder) (inp : list byte) : Prop :=
  dr_dec d = en_enc e ∧ dr_crc d = en_crc e ∧ dr_in d = inp ∧ dr_buf d = [] ∧ dr_err d = None.

Lemma dr_consume_sync d e bs rest s :
  in_sync d e (bs ++ rest) → in_sync (dr_consume d rest s) (en_write e bs s) rest.
Proof.
  intros (Hd & Hc & Hi & Hb & He). split_and!; simpl; [done| |done|done|done].
  rewrite Hi, Hc, length_app, Nat.add_sub, take_app_length. done.
Qed.

Lemma en_encode_sync e m e' :
  en_encode e m = (e', None) →
  ∃ bs, en_out e' = en_out e ++ bs ∧
    ∀ d rest, in_sync d e (bs ++ rest) →
      ∃ d', dr_decode d = DOk (m, d') ∧ in_sync d' e' rest.
Proof.
  unfold en_encode. destruct (gob_enc (en_enc e) m) as [[bs s]|msg] eqn:E; [|done].
  intros [= <-]. exists bs. split; [done|]. intros d rest Hs.
  unfold dr_decode. pose proof Hs as (Hd & Hc & Hi & _).
  rewrite Hd, Hi, (gob_roundtrip _ _ _ _ _ E). eexists. split; [done|].
  by apply dr_consume_sync.
Qed.

Lemma fit_exact (c : list cell) : fit (length c) c = Ret c.
Proof.
  unfold fit. rewrite Nat.ltb_irrefl, Nat.sub_diag. simpl. by rewrite app_nil_r.
Qed.

Lemma en_column_sync e rows col e' :
  en_column e rows col = (e', None) →
  ∃ bs, en_out e' = en_out e ++ bs ∧
    ∀ d rest, in_sync d e (bs ++ rest) →
      ∃ d', dr_column d (length rows) col = Ret (d', inl (column zc col rows)) ∧
        in_sync d' e' rest.
Proof.
  unfold en_column, dr_column.
  destruct (en_encode e (MBool (has_codec col))) as [e1 [err|]] eqn:E1; [done|].
  apply en_encode_sync in E1 as (bs1 & Ho1 & H1).
  assert (length (column zc col rows) = length rows) as Hlen by apply length_fmap.
  destruct (has_codec col) eqn:Ec.
  - destruct (codec_enc (en_enc e1) col (column zc col rows)) as [[bs2 s]|msg] eqn:E2; [|done].
    intros [= <-]. exists (bs1 ++ bs2). simpl. rewrite Ho1, (assoc_L (++)). split; [done|].
    intros d rest Hs. rewrite <-(assoc_L (++)) in Hs.
    apply H1 in Hs as (d1 & -> & Hs1). simpl.
    pose proof Hs1 as (Hd & _ & Hi & _). rewrite Hd, Hi, <-Hlen.
    rewrite (codec_roundtrip _ _ _ _ _ _ E2), fit_exact. eexists. split; [done|].
    by apply dr_consume_sync.
  - destruct (gob_enc (en_enc e1) (MCol (column zc col rows))) as [[bs2 s]|msg] eqn:E2; [|done].
    intros [= <-].
    assert (en_encode e1 (MCol (column zc col rows)) = (en_write e1 bs2 s, None)) as E3
      by (unfold en_encode; by rewrite E2).
    apply en_encode_sync in E3 as (bs3 & Ho3 & H3).
    exists (bs1 ++ bs3). rewrite Ho3, Ho1, (assoc_L (++)). split; [done|].
    intros d rest Hs. rewrite <-(assoc_L (++)) in Hs.
    apply H1 in Hs as (d1 & -> & Hs1). simpl.
    apply H3 in Hs1 as (d2 & -> & Hs2). rewrite <-Hlen, fit_exact. by eexists.
Qed.

Lemma en_columns_sync cols e rows e' :
  en_columns e rows cols = (e', None) →
  ∃ bs, en_out e' = en_out e ++ bs ∧
    ∀ d rest, in_sync d e (bs ++ rest) →
      ∃ d', dr_columns d (length rows) cols =
          Ret (d', inl ((λ j, column zc j rows) <$> cols)) ∧ in_sync d' e' rest.
Proof.
  revert e. induction cols as [|col cols IH]; intros e; simpl.
  { intros [= <-]. exists []. rewrite app_nil_r. split; [done|]. by eauto. }
  destruct (en_column e rows col) as [e1 [err|]] eqn:E1; [done|].
  apply en_column_sync in E1 as (bs1 & Ho1 & H1). intros (bs2 & Ho2 & H2)%IH.
  exists (bs1 ++ bs2). rewrite Ho2, Ho1, (assoc_L (++)). split; [done|].
  intros d rest Hs. rewrite <-(assoc_L (++)) in Hs.
  apply H1 in Hs as (d1 & -> & Hs1). simpl.
  apply H2 in Hs1 as (d2 & -> & Hs2). simpl. by eexists.
Qed.

(** Decoding a batch that Write has written. *)
Lemma Encoder_Write_sync e rows e' :
  Forall (λ r, length r = NumOut) rows →
  Encoder_Write e rows = (e', None) →
  ∃ bs, en_out e' = en_out e ++ bs ∧
    ∀ d rest, dr_dec d = en_enc e → dr_crc d = [] → dr_in d = bs ++ rest →
      dr_buf d = [] → dr_err d = None →
      ∃ d1 d2, dr_decode d = DOk (MInt (length rows), d1) ∧
        decode d1 (length rows) = Ret (d2, inl rows) ∧ in_sync d2 e' rest.
Proof.
  intros Hw. unfold Encoder_Write, decode.
  set (e0 := mkEncoder (en_enc e) [] (en_out e)).
  destruct (en_encode e0 _) as [e1 [err|]] eqn:E1; [done|].
  destruct (en_columns e1 rows _) as [e2 [err|]] eqn:E2; [done|]. intros E3.
  apply en_encode_sync in E1 as (bs1 & Ho1 & H1).
  apply en_columns_sync in E2 as (bs2 & Ho2 & H2).
  apply en_encode_sync in E3 as (bs3 & Ho3 & H3).
  exists (bs1 ++ bs2 ++ bs3). rewrite Ho3, Ho2, Ho1. simpl. rewrite !(assoc_L (++)).
  split; [done|]. intros d rest Hd Hc Hi Hb He.
  rewrite <-!(assoc_L (++)) in Hi.
  destruct (H1 d (bs2 ++ bs3 ++ rest)) as (d1 & Hd1 & Hs1); [done|].
  destruct (H2 d1 (bs3 ++ rest)) as (d2 & Hd2 & Hs2); [done|].
  destruct (H3 d2 rest) as (d3 & Hd3 & Hs3); [done|].
  exists d1, d3. split_and!; [done| |done].
  rewrite Hd2. simpl. rewrite Hd3. pose proof Hs2 as (_ & Hcrc & _).
  rewrite Hcrc, bool_decide_true by done. by rewrite of_columns_columns.
Qed.

(** Writing several batches in turn. *)
Fixpoint write_all (e : Encoder) (batches : list (list row)) : Encoder * option error :=
  match batches with
  | [] => (e, None)
  | b :: bs =>
      match Encoder_Write e b with
      | (e, Some err) => (e, Some err)
      | (e, None) => write_all e bs
      end
  end.

(** [d] still has to deliver the buffered rows [buf] and then the batches
    [bs], whose encoding is its input. *)
Definition dr_rest (d : decodingReader) (buf : list row) (bs : list (list row)) : Prop :=
  dr_buf d = buf ∧ dr_err d = None ∧ Forall (Forall (λ r, length r = NumOut)) bs ∧
  ∃ e e', dr_dec d = en_enc e ∧ write_all e bs = (e', None) ∧
    en_out e' = en_out e ++ dr_in d.

Lemma write_all_extends bs e e' :
  Forall (Forall (λ r, length r = NumOut)) bs →
  write_all e bs = (e', None) → ∃ o, en_out e' = en_out e ++ o.
Proof.
  intros HF. revert e. induction HF as [|b bs Hb HF IH]; intros e; simpl.
  { intros [= <-]. exists []. by rewrite app_nil_r. }
  destruct (Encoder_Write e b) as [e1 [err|]] eqn:E; [done|].
  apply Encoder_Write_sync in E as (o1 & Ho1 & _); [|done].
  intros (o2 & Ho2)%IH. exists (o1 ++ o2). by rewrite Ho2, Ho1, (assoc_L (++)).
Qed.

Definition dr_measure (buf : list row) (bs : list (list row)) : nat :=
  length buf + sum_list_with (λ b, S (length b)) bs.

(** A call that returns rows of a list that is longer than the frame, or just
    fits. *)
Lemma dr_from_buf d buf bs len :
  dr_rest d buf bs → dr_rest (dr_set_buf d (drop len buf)) (drop len buf) bs.
Proof. intros (Hb & He & HF & Hr). by split_and!. Qed.

Lemma decodingReader_next d b bs len :
  dr_rest d [] (b :: bs) →
  ∃ d', dr_rest d' (drop len b) bs ∧
    ∀ f, decodingReader_Read f d len = Ret (d', (take len b, None)).
Proof.
  intros (Hb & He & [Hw HF]%Forall_cons_iff & e & e' & Hd & Hwr & Hin). simpl in Hwr.
  destruct (Encoder_Write e b) as [e1 [err|]] eqn:E; [done|].
  apply Encoder_Write_sync in E as (o1 & Ho1 & Hdec); [|done].
  destruct (write_all_extends bs e1 e' HF Hwr) as [o2 Ho2].
  assert (dr_in d = o1 ++ o2) as Hin'.
  { rewrite Ho2, Ho1, <-(assoc_L (++)) in Hin. by apply app_inv_head in Hin. }
  set (d0 := mkDecodingReader (dr_dec d) (dr_in d) [] (dr_buf d) (dr_err d)).
  destruct (Hdec d0 o2) as (d1 & d2 & Hd1 & Hd2 & (Hs1 & Hs2 & Hs3 & Hs4 & Hs5)); [done..|].
  assert (dr_rest d2 [] bs) as Hrest.
  { split_and!; [done|done|done|]. exists e1, e'. by rewrite Hs3. }
  unfold decodingReader_Read. rewrite He, Hb. simpl. fold d0.
  destruct (decide (length b ≤ len)) as [Hle|Hgt].
  - exists d2. rewrite (take_ge b), (drop_ge b) by lia. split; [done|].
    intros f. fold d0. rewrite <-Hb, <-He. fold d0. rewrite Hd1, Hd2. simpl.
    by rewrite (proj2 (Nat.leb_le _ _)).
  - exists (dr_set_buf d2 (drop len b)). split.
    { destruct Hrest as (? & ? & ? & ?). by split_and!. }
    intros f. rewrite <-Hb, <-He. fold d0. rewrite Hd1, Hd2. simpl.
    by rewrite (proj2 (Nat.leb_gt _ _)) by lia.
Qed.

Lemma dr_rest_streams st k d buf bs :
  (st_brisk st = true → Forall (λ b, b ≠ []) bs) →
  dr_measure buf bs < k → dr_rest d buf bs → streams st k d (buf ++ concat bs).
Proof.
  revert d buf bs. induction k as [|k IH]; intros d buf bs Hbr Hk Hr; [lia|].
  intros n Hn. unfold dr_measure in *.
  destruct buf as [|x buf].
  - destruct bs as [|b bs].
    + pose proof Hr as (Hb & He & _ & e & e' & Hd & [= <-] & Hin).
      assert (dr_in d = []) as Hin0.
      { rewrite <-(app_nil_r (en_out e)) in Hin at 1. by apply app_inv_head in Hin. }
      eexists _, [], (Some EOF). split_and!; [|simpl; lia|done..|].
      * exists 0. intros f _. unfold Read, decodingReader_reader, decodingReader_Read.
        rewrite He, Hb. simpl. unfold dr_decode. simpl. by rewrite Hin0, gob_eof.
      * intros _. exists (λ d, dr_err d = Some EOF). split; [done|].
        intros d1 m Hd1 _. exists d1. split; [|done]. exists 0. intros f _.
        unfold Read, decodingReader_reader, decodingReader_Read. by rewrite Hd1.
    + destruct (decodingReader_next d b bs n Hr) as (d' & Hr' & HR).
      exists d', (take n b), None. split_and!.
      * exists 0. intros f _. apply HR.
      * rewrite length_take. lia.
      * intros Hb. apply Hbr, Forall_cons_iff in Hb as [Hb _].
        destruct b; [done|]. destruct n; [lia|done].
      * exists (drop n b ++ concat bs). simpl. split; [by rewrite (assoc_L (++)), take_drop|].
        apply IH; [by intros [??]%Hbr%Forall_cons_iff| |done].
        simpl in Hk. rewrite length_drop. lia.
  - exists (dr_set_buf d (drop n (x :: buf))), (take n (x :: buf)), None. split_and!.
    + exists 0. intros f _. unfold Read, decodingReader_reader, decodingReader_Read.
      destruct Hr as (Hb & He & _). by rewrite He, Hb.
    + rewrite length_take. lia.
    + intros _. destruct n; [lia|done].
    + exists (drop n (x :: buf) ++ concat bs). split; [by rewrite (assoc_L (++)), take_drop|].
      apply IH; [done| |by apply dr_from_buf].
      rewrite length_drop. simpl in *. lia.
Qed.

Lemma codec_streams (batches : list (list row)) (e : Encoder) :
  Forall (Forall (λ r, length r = NumOut)) batches →
  write_all NewEncodingWriter batches = (e, None) →
  Streams_as (Style true (forallb (λ b, negb (length b =? 0)) batches) true)
    (NewDecodingReader (en_out e)) (concat batches).
Proof.
  intros HF Hw. exists (S (dr_measure [] batches)).
  apply (dr_rest_streams _ _ _ [] batches); [|lia|].
  - simpl. intros Hb. rewrite forallb_forall in Hb. rewrite Forall_lookup.
    intros i b Hi ->. apply list_elem_of_lookup_2, list_elem_of_In, Hb in Hi. done.
  - split_and!; [done|done|done|]. exists NewEncodingWriter, e. done.
Qed.

(** C22. Whatever batches were written to an Encoder without an error, a
    decodingReader over its output streams exactly their rows, in order,
    also when batches are larger or smaller than the frames read; EOF comes
    without rows and is sticky. *)
Theorem codec_correct (batches : list (list row)) (e : Encoder) :
  Forall (Forall (λ r, length r = NumOut)) batches →
  write_all NewEncodingWriter batches = (e, None) →
  Streams_as (Style true (forallb (λ b, negb (length b =? 0)) batches) true)
    (NewDecodingReader (en_out e)) (concat batches).
Proof. apply codec_streams. Qed.

(** A batch whose checksum does not match the bytes read is rejected with
    an Integrity error, and none of its rows are delivered. *)
Theorem decode_checksum_mismatch (d d1 d2 : decodingReader) (n : nat)
    (cols : list (list cell)) (sum : Z) :
  dr_columns d n (seq 0 NumOut) = Ret (d1, inl cols) →
  dr_decode d1 = DOk (MSum sum, d2) → sum ≠ crc32 (dr_crc d1) →
  decode d n = Ret (d2, inr (Err Integrity "computed checksum but expected checksum")).
Proof.
  intros H1 H2 Hne. unfold decode. rewrite H1. simpl. rewrite H2.
  by rewrite bool_decide_false by congruence.
Qed.
End codec.
