(* ===== verification/Spiller.v ===== *)
(** Spilling sorted runs to disk (src/sliceio/spiller.go) and the external sort
    built on it, SortReader (src/sortio/sort.go).

    A spiller is the list of its files' contents.  The file system is a
    parameter: [io i] holds the results of the calls made for the [i]'th
    spill, [file_list] the order in which a directory listing returns the
    files.  The theorem says that SortReader returns a reader that streams a
    sorted permutation of its input. *)
From S2P Require Import Prelude Heap SliceIO Codec SortIO.

Section spiller.
Context {cell : Type} (zc : cell) {C : Codec cell}.
Abbreviation row := (list cell).

(** Results of the file operations of one call to Spill. *)
Record spillIO := mkSpillIO {
  io_TempFile : option error;
  io_Seek : option error;
  io_Close : option error;
}.

Context (SpillBatchSize : nat) (io : nat → spillIO).
(** file.List: an enumeration of the files, or an error; os.Open of the
    [i]'th path. *)
Context (file_list : list (list byte) → list (list byte)) (list_err : option error).
Context (open_err : nat → option error) (close_file : unit → option error).

(** [for frame.Len() > 0]: write batches of SpillBatchSize rows. *)
Fixpoint Spill_loop (loop : nat) (e : Encoder) (frame : list row) :
    outcome (Encoder * option error) :=
  match loop with
  | 0 => NoFuel
  | S loop =>
      if 0 <? length frame then
        let m := length frame in
        let n := if m <? SpillBatchSize then m else SpillBatchSize in
        match Encoder_Write zc e (take n frame) with
        | (e, Some writeErr) => Ret (e, Some writeErr)
        | (e, None) => Spill_loop loop e (drop n frame)
        end
      else Ret (e, None)
  end.

(** The spiller's files after the call, and the encoded size or an error. *)
Definition Spill (dir : list (list byte)) (frame : list row) :
    outcome (list (list byte) * (nat + error)) :=
  match io_TempFile (io (length dir)) with
  | Some err => Ret (dir, inr err)
  | None =>
      '(e, werr) ← Spill_loop (S (length frame)) NewEncodingWriter frame;
      let dir' := dir ++ [en_out e] in
      match werr with
      | Some writeErr => Ret (dir', inr writeErr)
      | None =>
          match io_Seek (io (length dir)), io_Close (io (length dir)) with
          | Some err, _ | None, Some err => Ret (dir', inr err)
          | None, None => Ret (dir', inl (length (en_out e)))
          end
      end
  end.

Definition spill_reader : Type := readerWithCloseFunc (decodingReader (cell := cell)).

(** The loop over the paths; on an error the readers opened so far are
    closed. *)
Fixpoint Readers_loop (i : nat) (paths : list (list byte)) : list spill_reader + error :=
  match paths with
  | [] => inl []
  | f :: paths =>
      match open_err i with
      | Some err => inr err
      | None =>
          match Readers_loop (S i) paths with
          | inl rs => inl (mkReaderWithCloseFunc (NewDecodingReader f) close_file :: rs)
          | inr err => inr err
          end
      end
  end.

Definition Readers (dir : list (list byte)) : list spill_reader + error :=
  match list_err with
  | Some err => inr err
  | None => Readers_loop 0 (file_list dir)
  end.

Definition ClosingReaders (dir : list (list byte)) : list (closingReader spill_reader) + error :=
  match Readers dir with
  | inr err => inr err
  | inl readers => inl (NewClosingReader <$> readers)
  end.

(** * SortReader *)

Context {R : Type} `{Reader (list cell) R}.
Context (less : list cell → list cell → bool).
(** [sort.Sort] on the rows of a frame. *)
Context (sort_Sort : list (list cell) → list (list cell)).
Context (numCanaryRows : nat).

#[local] Instance dr_reader : Reader (list cell) (decodingReader (cell := cell)) :=
  decodingReader_reader zc.

Definition absdiff (a b : nat) : nat := (a - b) + (b - a).

(** The next frame length: rows that fit [spillTarget] bytes, kept when it is
    within 5%. *)
Definition next_rows (spillTarget flen size n : nat) : outcome nat :=
  if n =? 0 then Panic "integer divide by zero"
  else
    let bytesPerRow := size / n in
    if bytesPerRow =? 0 then Panic "integer divide by zero"
    else
      let targetRows := spillTarget / bytesPerRow in
      let targetRows := if targetRows <? SpillBatchSize then SpillBatchSize else targetRows in
      Ret (if targetRows <? 20 * absdiff flen targetRows then targetRows else flen).

(** [flen] is the length of the frame that is filled. *)
Fixpoint SortReader_loop (loop fuel spillTarget flen : nat) (r : R) (dir : list (list byte)) :
    outcome (list (list byte) + error) :=
  match loop with
  | 0 => NoFuel
  | S loop =>
      '(r, (rows, err)) ← ReadFull fuel r flen;
      match err with
      | Some (Err k m) => Ret (inr (Err k m))
      | _ =>
          let eof := bool_decide (err = Some EOF) in
          '(dir, res) ← Spill dir (sort_Sort rows);
          match res with
          | inr err => Ret (inr err)
          | inl size =>
              if eof then Ret (inl dir)
              else
                flen ← next_rows spillTarget flen size (length rows);
                SortReader_loop loop fuel spillTarget flen r dir
          end
      end
  end.

Definition SortReader (fuel spillTarget : nat) (r : R) :
    outcome (mergeReader (row := list cell) (R := closingReader spill_reader) + error) :=
  '(res) ← SortReader_loop fuel fuel spillTarget numCanaryRows r [];
  match res with
  | inr err => Ret (inr err)
  | inl dir =>
      match ClosingReaders dir with
      | inr err => Ret (inr err)
      | inl readers => NewMergeReader (replicate NumOut zc) less SpillBatchSize fuel readers
      end
  end.

(** SortReader divides by the encoded bytes per row, rounded down: when a
    full frame encodes to fewer bytes than it has rows, it panics. *)
Theorem SortReader_divides_by_zero (L f spillTarget flen : nat) (r r' : R)
    (dir dir' : list (list byte)) (rows : list (list cell)) (size : nat) :
  ReadFull f r flen = Ret (r', (rows, None)) →
  Spill dir (sort_Sort rows) = Ret (dir', inl size) → size < length rows →
  SortReader_loop (S L) f spillTarget flen r dir = Panic "integer divide by zero".
Proof.
  intros HR HS Hlt. simpl. rewrite HR. simpl. rewrite HS. simpl.
  unfold next_rows. rewrite Nat.div_small by done. by destruct (length rows =? 0).
Qed.

(** * Correctness *)

Context {CL : CodecLaws cell} `{!StrictWeak less}.

Definition well_typed (rows : list (list cell)) : Prop :=
  Forall (λ r, length r = NumOut) rows.

Hypothesis batch_pos : 0 < SpillBatchSize.
Hypothesis canary_pos : 0 < numCanaryRows.
(** No file operation fails, and listing a directory finds its files. *)
Hypothesis no_io_error : ∀ i, io i = mkSpillIO None None None.
Hypothesis no_list_error : list_err = None.
Hypothesis no_open_error : ∀ i, open_err i = None.
Hypothesis file_list_perm : ∀ dir, file_list dir ≡ₚ dir.
(** Rows can be encoded, each in at least a byte. *)
Hypothesis encodable : ∀ e rows, well_typed rows →
  ∃ e', Encoder_Write zc e rows = (e', None) ∧
    length (en_out e) + length rows ≤ length (en_out e').
(** [sort.Sort] sorts. *)
Hypothesis sort_perm : ∀ rows, sort_Sort rows ≡ₚ rows.
Hypothesis sort_sorted : ∀ rows, sorted less (sort_Sort rows).

Lemma Spill_loop_spec loop e frame :
  length frame < loop → well_typed frame →
  ∃ e' batches, Spill_loop loop e frame = Ret (e', None) ∧
    write_all zc e batches = (e', None) ∧ concat batches = frame ∧
    Forall (λ b, b ≠ []) batches ∧ Forall well_typed batches ∧
    length (en_out e) + length frame ≤ length (en_out e').
Proof.
  revert e frame. induction loop as [|loop IH]; intros e frame Hl Hw; [lia|]. simpl.
  destruct (Nat.ltb_spec 0 (length frame)) as [Hpos|Hz].
  - set (n := if length frame <? SpillBatchSize then length frame else SpillBatchSize).
    assert (0 < n ≤ length frame) as Hn.
    { subst n. destruct (Nat.ltb_spec (length frame) SpillBatchSize); lia. }
    destruct (encodable e (take n frame)) as (e1 & Hwr & Hsz); [by apply Forall_take|].
    rewrite Hwr.
    destruct (IH e1 (drop n frame)) as (e' & bs & Hlp & Hwa & Hc & Hne & Hwt & Hsz').
    { rewrite length_drop. lia. }
    { by apply Forall_drop. }
    rewrite length_take, length_drop in *.
    exists e', (take n frame :: bs). simpl. rewrite Hwr, Hc, take_drop.
    split_and!; [done|done|done| | |lia].
    + constructor; [|done]. intros E%(f_equal length). rewrite length_take in E. simpl in E. lia.
    + constructor; [|done]. by apply Forall_take.
  - destruct frame; [|simpl in Hz; lia]. exists e, []. simpl. split_and!; try done; lia.
Qed.

(** The file streams the rows. *)
Definition file_ok (f : list byte) (l : list (list cell)) : Prop :=
  Streams_as strict (NewDecodingReader f) l.

Lemma Spill_spec dir frame :
  well_typed frame →
  ∃ f size, Spill dir frame = Ret (dir ++ [f], inl size) ∧
    file_ok f frame ∧ length frame ≤ size.
Proof.
  intros Hw. unfold Spill. rewrite no_io_error. cbn [io_TempFile io_Seek io_Close].
  destruct (Spill_loop_spec (S (length frame)) NewEncodingWriter frame)
    as (e & bs & Hlp & Hwa & Hc & Hne & Hwt & Hsz); [lia|done|].
  rewrite Hlp. simpl. exists (en_out e), (length (en_out e)).
  split_and!; [done| |simpl in Hsz; lia].
  pose proof (codec_streams zc bs e Hwt Hwa) as Hst. rewrite Hc in Hst.
  rewrite (proj2 (forallb_forall _ _)) in Hst; [done|].
  intros b Hin%list_elem_of_In. apply list_elem_of_lookup in Hin as [i Hi].
  rewrite Forall_lookup in Hne. apply Hne in Hi. by destruct b.
Qed.

Lemma next_rows_spec spillTarget flen size n :
  0 < flen → 0 < n → n ≤ size →
  ∃ flen', next_rows spillTarget flen size n = Ret flen' ∧ 0 < flen'.
Proof.
  intros Hf Hn Hsz. unfold next_rows.
  rewrite (proj2 (Nat.eqb_neq n 0)) by lia.
  assert (size / n ≠ 0) as Hd by (intros E%Nat.div_small_iff; lia).
  rewrite (proj2 (Nat.eqb_neq _ _)) by done. eexists. split; [done|].
  destruct (Nat.ltb_spec (spillTarget / (size / n)) SpillBatchSize);
    case_match; lia.
Qed.

Lemma SortReader_loop_spec r l spillTarget flen dir :
  Streams r l → well_typed l → 0 < flen →
  ∃ dir' ls L0 f0, (∀ L f, L0 ≤ L → f0 ≤ f →
      SortReader_loop L f spillTarget flen r dir = Ret (inl (dir ++ dir'))) ∧
    Forall2 file_ok dir' ls ∧ Forall (sorted less) ls ∧ concat ls ≡ₚ l.
Proof.
  remember (length l) as N eqn:HN. revert r l flen dir HN.
  induction (lt_wf N) as [N _ IH]. intros r l flen dir -> [k Hs] Hw Hf.
  destruct (ReadFull_loop_spec k r l flen [] Hs) as (r' & out & oe & (L1 & f1 & HR) & Hl & Hoe).
  { simpl. lia. }
  simpl in HR, Hl, Hoe.
  assert (well_typed out) as Hwo.
  { destruct oe; [by destruct Hoe as [_ <-]|].
    destruct Hoe as (_ & l' & -> & _). by apply Forall_app in Hw as [??]. }
  destruct (Spill_spec dir (sort_Sort out)) as (file & size & Hsp & Hfile & Hsz).
  { unfold well_typed. by rewrite sort_perm. }
  destruct oe as [e|].
  - destruct Hoe as [-> <-].
    exists [file], [sort_Sort l], 1, (L1 `max` f1). split_and!; [|by repeat constructor..|].
    + intros [|L] f HL Hff; [lia|]. simpl. unfold ReadFull. rewrite HR by lia. simpl.
      by rewrite Hsp.
    + simpl. by rewrite app_nil_r, sort_perm.
  - destruct Hoe as (Hlen & l' & -> & Hs').
    apply Forall_app in Hw as [_ Hw'].
    destruct (next_rows_spec spillTarget flen size (length out)) as (flen' & Hnr & Hf');
      [done|lia|by rewrite <-(sort_perm out)|].
    destruct (IH (length l')) with (r := r') (l := l') (flen := flen') (dir := dir ++ [file])
      as (dir' & ls & L0 & f0 & Hlp & HF & Hso & Hc); [rewrite length_app; lia|done..|].
    exists (file :: dir'), (sort_Sort out :: ls), (S L0), (f0 `max` (f1 `max` L1)).
    split_and!; [|by constructor|by constructor|simpl; by rewrite Hc, sort_perm].
    intros [|L] f HL Hff; [lia|]. simpl. unfold ReadFull. rewrite HR by lia. simpl.
    rewrite Hsp. simpl. rewrite Hnr. simpl. rewrite Hlp by lia. by rewrite <-(assoc_L (++)).
Qed.

Lemma Readers_loop_spec i paths :
  Readers_loop i paths =
    inl ((λ f, mkReaderWithCloseFunc (NewDecodingReader f) close_file) <$> paths).
Proof.
  revert i. induction paths as [|f paths IH]; intros i; simpl; [done|].
  by rewrite no_open_error, IH.
Qed.

Lemma SortReader_spec (spillTarget : nat) (r : R) (l : list (list cell)) :
  Streams r l → well_typed l →
  ∃ m L f0, (∀ f, f0 ≤ f → SortReader f spillTarget r = Ret (inl m)) ∧
    @Streams_as _ _ (mergeReader_reader (replicate NumOut zc) less SpillBatchSize) strict m L ∧
    L ≡ₚ l ∧ sorted less L.
Proof.
  intros Hs Hw.
  destruct (SortReader_loop_spec r l spillTarget numCanaryRows [])
    as (dir & ls & L0 & f0 & Hlp & HF & Hso & Hc); [done..|].
  destruct (Permutation_Forall2 (symmetry (file_list_perm dir)) HF) as (ls' & Hls & HF').
  destruct (NewMergeReader_spec (replicate NumOut zc) less SpillBatchSize
    (NewClosingReader <$> ((λ f, mkReaderWithCloseFunc (NewDecodingReader f) close_file) <$>
       file_list dir)) ls') as (m & L & f1 & Hm & Hst & Hp & HsL).
  - done.
  - rewrite !Forall2_fmap_l. eapply Forall2_impl; [|exact HF'].
    intros f lf [k Hk]. exists k.
    apply closingReader_streams; [done|]. apply readerWithCloseFunc_streams.
    by eapply streams_steady.
  - by rewrite <-Hls.
  - exists m, L, (f0 `max` (f1 `max` L0)). split_and!; [|done|by rewrite Hp, <-Hls|done].
    intros f Hf. unfold SortReader. rewrite Hlp by lia. simpl.
    unfold ClosingReaders, Readers. rewrite no_list_error, Readers_loop_spec. apply Hm. lia.
Qed.

End spiller.
