(* ===== verification/Retry.v ===== *)
(** Reading from other machines (src/exec/bigmachine.go): the retryReader, which
    reopens a stream at the offset that was reached when it fails, the reader of
    rows on top of it, and the severity of errors.

    Connections are the class [OpenerAt], an interface of the source; what it relies on
    is that a connection opened at an offset delivers the stream from there, in
    parts of any size, until it fails or ends.  [retry.Wait] is a parameter, as is
    the state of the network. *)
From S2P Require Import Prelude SliceIO Codec.

(** Errors of io.Reader: io.EOF, or others. *)
Inductive io_error := IoEOF | IoErr (e : error).

#[export] Instance io_error_eq_dec : EqDecision io_error.
Proof. solve_decision. Defined.

(** [openerAt], with the readers it opens; [W] is the state of the network. *)
Class OpenerAt (byte W H : Type) := {
  OpenAt : W → nat → W * (H + error);
  rd_Read : W → H → nat → W * H * (list byte * option io_error);
  rd_Close : W → H → W;
}.

(** Connections are to the stream [data]: [at_offset h o] is one that has delivered
    its first [o] bytes. *)
Class OpenerAtLaws {byte : Type} (data : list byte) (W H : Type) `{OpenerAt byte W H} := {
  at_offset : H → nat → Prop;
  OpenAt_ok : ∀ w o w' h, OpenAt w o = (w', inl h) → o ≤ length data → at_offset h o;
  rd_Read_ok : ∀ w h o n w' h' out err, rd_Read w h n = (w', h', (out, err)) → at_offset h o → o ≤ length data →
    match err with
    | Some (IoErr _) => True
    | _ => length out ≤ n ∧ out = take (length out) (drop o data) ∧ at_offset h' (o + length out) ∧
           (err = Some IoEOF → o + length out = length data)
    end;
}.

Section retry.
Context {byte W H : Type} `{OpenerAt byte W H}.
(** [retry.Wait(ctx, retryPolicy, retries)]: an error when no retries are left. *)
Context (retry_Wait : W → nat → W * option error).

Record retryReader := mkRetryReader {
  rt_err : option io_error;
  rt_reader : option H;
  rt_bytes : nat;
  rt_retries : nat;
}.

Definition newRetryReader : retryReader := mkRetryReader None None 0 0.

(** The function that is called in the loop: opens the reader, if there is none,
    and reads from it. *)
Definition retry_attempt (r : retryReader) (n : nat) (w : W) : W * retryReader * (list byte * option io_error) :=
  let '(w, opened) := match rt_reader r with Some h => (w, inl h) | None => OpenAt w (rt_bytes r) end in
  match opened with
  | inr e => (w, r, ([], Some (IoErr e)))
  | inl h =>
      let '(w, h, res) := rd_Read w h n in
      (w, mkRetryReader (rt_err r) (Some h) (rt_bytes r) (rt_retries r), res)
  end.

Fixpoint retryReader_Read (fuel : nat) (r : retryReader) (n : nat) (w : W) :
    outcome (W * retryReader * (list byte * option io_error)) :=
  match rt_err r with
  | Some e => Ret (w, r, ([], Some e))
  | None =>
      let '(w, r, (out, err)) := retry_attempt r n w in
      match err with
      | None | Some IoEOF => Ret (w, mkRetryReader err (rt_reader r) (rt_bytes r + length out) 0, (out, err))
      | Some (IoErr _) =>
          let w := match rt_reader r with Some h => rd_Close w h | None => w end in
          let retries := S (rt_retries r) in
          match retry_Wait w retries with
          | (w, Some e) => Ret (w, mkRetryReader (Some (IoErr e)) None (rt_bytes r) retries, ([], Some (IoErr e)))
          | (w, None) =>
              match fuel with
              | 0 => NoFuel
              | S fuel => retryReader_Read fuel (mkRetryReader None None (rt_bytes r) retries) n w
              end
          end
      end
  end.

Definition retryReader_Close (r : retryReader) (w : W) : W * retryReader :=
  match rt_reader r with
  | None => (w, r)
  | Some h => (rd_Close w h, mkRetryReader (rt_err r) None (rt_bytes r) (rt_retries r))
  end.

(** * What it delivers *)

Context (data : list byte) {OL : OpenerAtLaws data W H}.
(** Retries are limited ([retry.MaxTries]). *)
Context (maxTries : nat) (WAIT : ∀ w k w', retry_Wait w k = (w', None) → k < maxTries).

(** A reader that has delivered the first [k] bytes. *)
Record at_bytes (r : retryReader) (k : nat) : Prop := mkAtBytes {
  ab_bytes : rt_bytes r = k;
  ab_le : k ≤ length data;
  ab_reader : ∀ h, rt_reader r = Some h → at_offset h k;
  ab_err : rt_err r = Some IoEOF → k = length data;
}.

Lemma newRetryReader_at : at_bytes newRetryReader 0.
Proof. split; simpl; [done|lia|done|done]. Qed.

Lemma retry_attempt_spec r k n w w' r' out err :
  at_bytes r k → rt_err r = None → retry_attempt r n w = (w', r', (out, err)) →
  rt_err r' = None ∧ rt_bytes r' = k ∧ rt_retries r' = rt_retries r ∧
  match err with
  | Some (IoErr _) => True
  | _ => length out ≤ n ∧ out = take (length out) (drop k data) ∧
         (∀ h, rt_reader r' = Some h → at_offset h (k + length out)) ∧ (err = Some IoEOF → k + length out = length data)
  end.
Proof.
  intros [Hb Hle Hrd _] He. unfold retry_attempt.
  destruct (match rt_reader r with Some h => (w, inl h) | None => OpenAt w (rt_bytes r) end) as [w1 [h|e]] eqn:Ho.
  2: { by intros [= <- <- <- <-]. }
  assert (at_offset h k) as Hat.
  { destruct (rt_reader r) as [h'|] eqn:Hr; [injection Ho as <- <-; by apply Hrd|]. rewrite Hb in Ho. by eapply OpenAt_ok. }
  destruct (rd_Read w1 h n) as [[w2 h2] [out2 err2]] eqn:HR. intros [= <- <- <- <-].
  pose proof (rd_Read_ok w1 h k n w2 h2 out2 err2 HR Hat Hle) as Hok. simpl. split_and!; [done..|].
  destruct err2 as [[|e]|]; [..|done|]; naive_solver.
Qed.

(** A successful attempt leaves the reader after the bytes it returned. *)
Lemma retry_attempt_at r k n w w' r' out err :
  at_bytes r k → rt_err r = None → retry_attempt r n w = (w', r', (out, err)) → err = None ∨ err = Some IoEOF →
  length out ≤ n ∧ out = take (length out) (drop k data) ∧
  at_bytes (mkRetryReader err (rt_reader r') (rt_bytes r' + length out) 0) (k + length out) ∧
  (err = Some IoEOF → k + length out = length data).
Proof.
  intros Hat He Ha Herr. destruct (retry_attempt_spec r k n w w' r' out err Hat He Ha) as (_ & Hb & _ & Hcase).
  assert (length out ≤ n ∧ out = take (length out) (drop k data) ∧
    (∀ h, rt_reader r' = Some h → at_offset h (k + length out)) ∧ (err = Some IoEOF → k + length out = length data))
    as (Hn & Hout & Hrd & Heof) by (by destruct Herr as [->| ->]).
  split_and!; [done..| |done]. split; simpl; [by rewrite Hb| |done|done].
  apply (f_equal length) in Hout. rewrite length_take, length_drop in Hout. pose proof (ab_le _ _ Hat). lia.
Qed.

Lemma retryReader_Read_eq fuel r n w :
  retryReader_Read fuel r n w =
  match rt_err r with
  | Some e => Ret (w, r, ([], Some e))
  | None =>
      let '(w, r, (out, err)) := retry_attempt r n w in
      match err with
      | None | Some IoEOF => Ret (w, mkRetryReader err (rt_reader r) (rt_bytes r + length out) 0, (out, err))
      | Some (IoErr _) =>
          let w := match rt_reader r with Some h => rd_Close w h | None => w end in
          let retries := S (rt_retries r) in
          match retry_Wait w retries with
          | (w, Some e) => Ret (w, mkRetryReader (Some (IoErr e)) None (rt_bytes r) retries, ([], Some (IoErr e)))
          | (w, None) =>
              match fuel with
              | 0 => NoFuel
              | S fuel => retryReader_Read fuel (mkRetryReader None None (rt_bytes r) retries) n w
              end
          end
      end
  end.
Proof. by destruct fuel. Qed.

(** An error that ends the retries. *)
Definition gave_up (e : error) : Prop := ∃ w k w', retry_Wait w k = (w', Some e).

(** What a read from a reader at [k] returns. *)
Record read_result (r : retryReader) (k n : nat) (r' : retryReader) (out : list byte) (err : option io_error) : Prop := mkReadResult {
  res_len : length out ≤ n;
  res_out : out = take (length out) (drop k data);
  res_at : at_bytes r' (k + length out);
  res_err : rt_err r' = err;
  res_eof : err = Some IoEOF → k + length out = length data;
  res_fail : ∀ e, err = Some (IoErr e) → out = [] ∧ (rt_err r = err ∨ gave_up e);
}.

(** A read succeeds with the bytes that follow, ends where the data ends, or has
    failed as often as retries are allowed; in each case it returns. *)
Lemma retryReader_Read_spec fuel r k n w :
  at_bytes r k → maxTries ≤ fuel + rt_retries r →
  ∃ w' r' out err, retryReader_Read fuel r n w = Ret (w', r', (out, err)) ∧ read_result r k n r' out err.
Proof.
  revert r w. induction fuel as [fuel IH] using lt_wf_ind. intros r w Hat Hf. rewrite retryReader_Read_eq.
  destruct (rt_err r) as [e|] eqn:He.
  { exists w, r, [], (Some e). split; [done|]. split; simpl; rewrite ?Nat.add_0_r; [lia|done|done|done| |].
    - intros [= ->]. by apply (ab_err _ _ Hat).
    - intros e' [= ->]. by split; [|left]. }
  destruct (retry_attempt r n w) as [[w1 r1] [out err]] eqn:Ha.
  destruct (decide (err = None ∨ err = Some IoEOF)) as [Hok|Hfail].
  { destruct (retry_attempt_at r k n w w1 r1 out err Hat He Ha Hok) as (Hn & Hout & Hat' & Heof).
    eexists w1, _, out, err. split; [by destruct Hok as [->| ->]|]. split; [done..|]. intros e ->. naive_solver. }
  destruct (retry_attempt_spec r k n w w1 r1 out err Hat He Ha) as (_ & Hb1 & Hrt & _).
  destruct err as [[|e]|]; [naive_solver| |naive_solver]. cbv zeta. rewrite Hrt, Hb1.
  assert (∀ err, err ≠ Some IoEOF → at_bytes (mkRetryReader err None k (S (rt_retries r))) k) as Hat'.
  { intros err Herr. split; simpl; [done|apply Hat|done|done]. }
  destruct (retry_Wait _ (S (rt_retries r))) as [w2 [e'|]] eqn:Hw.
  - eexists _, _, [], (Some (IoErr e')). split; [done|].
    split; simpl; rewrite ?Nat.add_0_r; [lia|done|by apply Hat'|done|done|].
    intros e0 [= ->]. split; [done|]. right. by eexists _, _, _.
  - apply WAIT in Hw. destruct fuel as [|fuel]; [lia|].
    destruct (IH fuel) with (r := mkRetryReader None None k (S (rt_retries r))) (w := w2) as (w' & r' & out' & err' & HR & [A1 A2 A3 A4 A5 A6]);
      [lia|by apply Hat'|simpl; lia|].
    exists w', r', out', err'. split; [done|]. split; [done..|]. intros e0 ->.
    destruct (A6 e0) as [? [?|?]]; [done|done|split; [done|by right]].
Qed.

(** Reads of lengths [ns], up to the first error. *)
Fixpoint read_all (fuel : nat) (ns : list nat) (r : retryReader) (w : W) :
    outcome (W * retryReader * (list byte * option io_error)) :=
  match ns with
  | [] => Ret (w, r, ([], None))
  | n :: ns =>
      '(w, r, (out, err)) ← retryReader_Read fuel r n w;
      match err with
      | Some e => Ret (w, r, (out, Some e))
      | None => '(w, r, (out', err)) ← read_all fuel ns r w; Ret (w, r, (out ++ out', err))
      end
  end.

Lemma read_all_spec fuel ns r k w :
  maxTries ≤ fuel → at_bytes r k → rt_err r = None →
  ∃ w' r' out err, read_all fuel ns r w = Ret (w', r', (out, err)) ∧
    out = take (length out) (drop k data) ∧ at_bytes r' (k + length out) ∧
    (err = Some IoEOF → k + length out = length data) ∧ (∀ e, err = Some (IoErr e) → gave_up e).
Proof.
  intros Hf. revert r k w. induction ns as [|n ns IH]; intros r k w Hat He; simpl.
  { exists w, r, [], None. simpl. rewrite Nat.add_0_r. by split_and!. }
  destruct (retryReader_Read_spec fuel r k n w Hat) as (w1 & r1 & out & err & HR & [Hn Hout Hat1 He1 Heof Hfail]); [lia|].
  rewrite HR. simpl. destruct err as [e|].
  { exists w1, r1, out, (Some e). split_and!; [done..|]. intros e' [= ->]. destruct (Hfail e' eq_refl) as [_ [?|?]]; congruence. }
  destruct (IH r1 (k + length out) w1 Hat1 He1) as (w2 & r2 & out2 & err2 & -> & Hout2 & Hat2 & Heof2 & Hfail2). simpl.
  exists w2, r2, (out ++ out2), err2. rewrite length_app, Nat.add_assoc. split_and!; [done| |done|done|done].
  rewrite <-take_take_drop, drop_drop, <-Hout, <-Hout2. done.
Qed.
End retry.

(** C25. A stream read through a retryReader is the stream.  However reads are cut into
    parts, and wherever connections fail to open or break, successive reads return
    consecutive bytes: no byte is lost or repeated when the stream is reopened; EOF
    comes exactly at the end; a read fails only when the retry policy gave up; and
    every read returns after at most as many attempts as the policy allows. *)
Theorem retryReader_correct {byte W H : Type} `{OpenerAt byte W H} (retry_Wait : W → nat → W * option error)
    (data : list byte) {OL : OpenerAtLaws data W H} maxTries fuel ns w :
  (∀ w k w', retry_Wait w k = (w', None) → k < maxTries) → maxTries ≤ fuel →
  ∃ w' r' out err, read_all retry_Wait fuel ns newRetryReader w = Ret (w', r', (out, err)) ∧
    out `prefix_of` data ∧ rt_bytes r' = length out ∧
    (err = Some IoEOF → out = data) ∧ (∀ e, err = Some (IoErr e) → gave_up retry_Wait e).
Proof.
  intros HW Hf.
  destruct (read_all_spec retry_Wait data maxTries HW fuel ns newRetryReader 0 w Hf (newRetryReader_at data) eq_refl)
    as (w' & r' & out & err & HR & Hout & Hat & Heof & Hfail).
  exists w', r', out, err. rewrite drop_0 in Hout. split_and!; [done| |by rewrite (ab_bytes _ _ _ Hat)| |done].
  - exists (drop (length out) data). rewrite Hout at 1. by rewrite take_drop.
  - intros E. rewrite Hout, take_ge; [done|]. specialize (Heof E). lia.
Qed.

(** * Severity of errors *)

(** Errors inside of worker.Run: those that may be fatal to the task are wrapped. *)
Inductive runError := plainErr (e : error) | maybeTaskFatalErr (e : error).

(** A fatal error that is not wrapped is fatal to this attempt only, and is
    downgraded. *)
Definition reviseSeverity (err : runError) : error :=
  match err with
  | maybeTaskFatalErr e => e
  | plainErr (Err Fatal msg) => Err Other msg
  | plainErr e => e
  end.
