(* ===== verification/Reduce.v ===== *)
(** Package sortio: merging and reducing sorted readers (src/sortio/reader.go).

    The rows of a reducible slice are a key (the prefix columns) and one value
    column.  The reader keeps the heap of FrameBuffers of SortIO.v; each step
    pops all buffers whose current key is the smallest one, combines their
    values, and puts the advanced buffers back. *)
From S2P Require Import Prelude Heap SliceIO SortIO.

Section reduce.
Context {K V R : Type} `{Reader (K * V) R}.
(** Comparison of keys, the combiner, the zero row of a frame, and
    defaultChunksize. *)
Context (ltk : K → K → bool) (combiner : V → V → V) (zero : K * V) (defaultChunksize : nat).
Abbreviation row := (K * V)%type.

Definition row_less (a b : row) : bool := ltk a.1 b.1.

Abbreviation FB := (FrameBuffer (R := R)).
Abbreviation FBH frame := (FrameBufferHeap zero row_less frame).

Record reader := mkReader {
  rd_readers : list R;
  rd_err : option error;
  rd_heap : option (list row * list FB);
}.

(** [Reduce] panics unless the type has exactly one residual column. *)
Definition Reduce (numOut prefix : Z) (readers : list R) : outcome reader :=
  if negb (numOut - prefix =? 1)%Z then Panic "cannot reduce type"
  else Ret (mkReader readers None None).

(** First call: fill a buffer per reader, as in NewMergeReader, and make the
    heap. *)
Definition reduce_init (fuel : nat) (readers : list R) :
    outcome (list row * list FB * option error) :=
  '(frame, bufs, err) ←
    NewMergeReader_loop defaultChunksize fuel 0 readers
      (replicate (length readers * defaultChunksize) zero) [];
  match err with
  | Some e => Ret (frame, bufs, Some e)
  | None => Ret (frame, Init (HI := FBH frame) bufs, None)
  end.

(** Gather all the buffers that have the same key: pop while nothing was
    gathered yet, or the next buffer's row is not greater than that of the
    first one. *)
Fixpoint gather (loop : nat) (frame : list row) (combine bufs : list FB) :
    outcome (list FB * list FB) :=
  match loop with
  | 0 => NoFuel
  | S loop =>
      let more := match combine, bufs with
                  | [], _ => true
                  | c0 :: _, b0 :: _ => negb (buf_less zero row_less frame c0 b0)
                  | _ :: _, [] => false
                  end in
      if more then
        '(buf, bufs) ← Pop (HI := FBH frame) bufs;
        gather loop frame (combine ++ [buf]) bufs
      else Ret (combine, bufs)
  end.

(** Fold the combiner over the current values of the gathered buffers. *)
Definition combined (frame : list row) (combine : list FB) : option V :=
  fold_left (λ acc b,
    let val := (row_at zero frame (Pos b)).2 in
    match acc with
    | None => Some val
    | Some c => Some (combiner c val)
    end) combine None.

(** Advance the gathered buffers, and push back those that have rows. *)
Fixpoint refill (fuel : nat) (frame : list row) (combine bufs : list FB) :
    outcome (list row * list FB * option error) :=
  match combine with
  | [] => Ret (frame, bufs, None)
  | b :: combine =>
      '(frame, b, err) ← advance defaultChunksize fuel frame b;
      match err with
      | Some EOF => refill fuel frame combine bufs
      | Some e => Ret (frame, bufs, Some e)
      | None => refill fuel frame combine (Push (HI := FBH frame) b bufs)
      end
  end.

(** One iteration of the loop in [Read]: the row emitted, and the state after
    it. *)
Definition reduce_step (fuel : nat) (frame : list row) (bufs : list FB) :
    outcome (row * list row * list FB * option error) :=
  '(combine, bufs) ← gather (S (length bufs)) frame [] bufs;
  match combine, combined frame combine with
  | c0 :: _, Some v =>
      let x := ((row_at zero frame (Pos c0)).1, v) in
      '(frame, bufs, err) ← refill fuel frame combine bufs;
      Ret (x, frame, bufs, err)
  | _, _ => Panic "index out of range"
  end.

(** [for n < max && len(r.heap.Buffers) > 0], with [k = max - n].  On an error
    the row being produced is not counted. *)
Fixpoint reduce_loop (k fuel : nat) (frame : list row) (bufs : list FB) (acc : list row) :
    outcome (list row * list row * list FB * option error) :=
  match k, bufs with
  | 0, _ | _, [] => Ret (acc, frame, bufs, None)
  | S k, _ =>
      '(x, frame, bufs, err) ← reduce_step fuel frame bufs;
      match err with
      | Some e => Ret (acc, frame, bufs, Some e)
      | None => reduce_loop k fuel frame bufs (acc ++ [x])
      end
  end.

Definition reader_Read (fuel : nat) (r : reader) (max : nat) :
    outcome (reader * (list row * option error)) :=
  match rd_err r with
  | Some e => Ret (r, ([], Some e))
  | None =>
      '(frame, bufs, err) ←
        match rd_heap r with
        | Some (frame, bufs) => Ret (frame, bufs, None)
        | None => reduce_init fuel (rd_readers r)
        end;
      match err with
      | Some e => Ret (mkReader (rd_readers r) (Some e) (Some (frame, bufs)), ([], Some e))
      | None =>
          '(out, frame, bufs, err) ← reduce_loop max fuel frame bufs [];
          match err with
          | Some e => Ret (mkReader (rd_readers r) (Some e) (Some (frame, bufs)), (out, Some e))
          | None =>
              Ret (mkReader (rd_readers r) None (Some (frame, bufs)),
                   (out, if length bufs =? 0 then Some EOF else None))
          end
      end
  end.

#[local] Instance reader_reader : Reader row reader := reader_Read.

(** * Correctness *)

Context `{!StrictWeak ltk}.

#[local] Instance row_less_sw : StrictWeak row_less.
Proof.
  split; unfold row_less.
  - intros a b. apply sw_asym.
  - intros a b c. apply sw_neg_trans.
Qed.

#[local] Instance row_apart_symmetric :
  Symmetric (apart (R := R) defaultChunksize) := apart_symmetric defaultChunksize.

Abbreviation buf_less' frame := (buf_less (R := R) zero row_less frame).
Abbreviation buf_ok' := (buf_ok defaultChunksize (R := R)).
Abbreviation apart' := (apart (R := R) defaultChunksize).
Abbreviation cur frame b := (row_at zero frame (Pos b)).

#[local] Instance buf_less'_sw frame : StrictWeak (buf_less' frame) :=
  buf_less_sw zero row_less frame.
#[local] Instance FBH_laws frame : HeapLaws (list FB) FB FB (buf_less' frame) (HI := FBH frame) :=
  FrameBufferHeap_laws zero row_less frame.

(** Every reader has at most one entry per key, in increasing order. *)
Definition strictly : list row → Prop := StronglySorted (λ a b, row_less a b = true).

(** The reduction of a group of rows with one key. *)
Definition reduce1 (g : list row) : option row :=
  match g with
  | [] => None
  | x :: g => Some (x.1, fold_left combiner (g.*2) x.2)
  end.

Definition reduce_ok (frame : list row) (bufs : list FB) (ls : list (list row)) : Prop :=
  Forall2 (buf_ok' frame) bufs ls ∧ pairwise apart' bufs ∧
  is_heap (buf_less' frame) bufs ∧ Forall strictly ls.

(** The buffers gathered so far have equivalent keys, and none that is left
    has a smaller one. *)
Definition gathered (frame : list row) (combine bufs : list FB) : Prop :=
  match combine with
  | [] => True
  | c0 :: _ =>
      Forall (λ c, buf_less' frame c c0 = false ∧ buf_less' frame c0 c = false) combine ∧
      Forall (λ b, buf_less' frame b c0 = false) bufs
  end.

Lemma gathered_pop frame combine bufs x bufs' :
  gathered frame combine bufs → bufs ≡ₚ x :: bufs' →
  Forall (λ b, buf_less' frame b x = false) bufs →
  match combine with [] => True | c0 :: _ => buf_less' frame c0 x = false end →
  gathered frame (combine ++ [x]) bufs'.
Proof.
  intros Hg Hp Hmin Hc0. rewrite Hp in Hmin. apply Forall_cons_iff in Hmin as [_ Hmin].
  destruct combine as [|c0 C]; simpl in *.
  - split; [|done]. constructor; [|done]. split; by apply (sw_irrefl (buf_less' frame)).
  - destruct Hg as [HgC Hgb]. rewrite Hp in Hgb. apply Forall_cons_iff in Hgb as [Hgx Hgb].
    split; [|done]. rewrite app_comm_cons, Forall_app. split; [done|]. by constructor.
Qed.

Lemma gather_spec loop frame combine bufs lsC lsB :
  length bufs < loop → (combine = [] → bufs ≠ []) →
  Forall2 (buf_ok' frame) combine lsC → Forall2 (buf_ok' frame) bufs lsB →
  is_heap (buf_less' frame) bufs → gathered frame combine bufs →
  ∃ c0 C B lsC' lsB', gather loop frame combine bufs = Ret (c0 :: C, B) ∧
    (c0 :: C) ++ B ≡ₚ combine ++ bufs ∧ lsC' ++ lsB' ≡ₚ lsC ++ lsB ∧
    Forall2 (buf_ok' frame) (c0 :: C) lsC' ∧ Forall2 (buf_ok' frame) B lsB' ∧
    is_heap (buf_less' frame) B ∧
    Forall (λ c, buf_less' frame c c0 = false ∧ buf_less' frame c0 c = false) (c0 :: C) ∧
    Forall (λ b, buf_less' frame c0 b = true) B.
Proof.
  revert combine bufs lsC lsB.
  induction loop as [|loop IH]; intros combine bufs lsC lsB Hl Hne HC HB Hh Hg; [lia|].
  assert ((∃ c0 C b0 B, combine = c0 :: C ∧ bufs = b0 :: B ∧ buf_less' frame c0 b0 = true) ∨
          (∃ c0 C, combine = c0 :: C ∧ bufs = []) ∨
          (bufs ≠ [] ∧ match combine, bufs with
                       | c0 :: _, b0 :: _ => buf_less' frame c0 b0 = false
                       | _, _ => True end)) as Hcase.
  { destruct combine as [|c0 C]; [by right; right; split; [apply Hne|]|].
    destruct bufs as [|b0 B]; [right; left; eauto|].
    destruct (buf_less' frame c0 b0) eqn:E; [left; eauto 10|by right; right]. }
  destruct Hcase as [(c0 & C & b0 & B & -> & -> & Hlt)|[(c0 & C & -> & ->)|[Hbne Hm]]].
  - exists c0, C, (b0 :: B), lsC, lsB. simpl. rewrite Hlt. simpl.
    split_and!; [done..|by apply Hg|]. rewrite Forall_lookup. intros i b Hb.
    pose proof (is_heap_root (buf_less' frame) (b0 :: B) b0 Hh eq_refl i b Hb) as Hr.
    destruct (buf_less' frame c0 b) eqn:E; [done|].
    pose proof (sw_neg_trans (lt := buf_less' frame) _ _ _ Hr E). congruence.
  - exists c0, C, [], lsC, lsB. simpl. split_and!; [done..|by apply Hg|done].
  - destruct (Pop_spec (HI := FBH frame) (HL := FBH_laws frame) bufs Hh Hbne)
      as (x & B & Hpop & Hx & Hp & Hh' & Hmin).
    destruct (Permutation_Forall2 Hp HB) as (lsB' & HlsB & HB').
    destruct lsB' as [|lx lsB']; [by inversion HB'|].
    apply Forall2_cons_1 in HB' as [Hokx HB'].
    destruct (IH (combine ++ [x]) B (lsC ++ [lx]) lsB')
      as (c0 & C & B2 & lsC2 & lsB2 & Hga & Hp2 & Hls2 & Hrest).
    + apply Permutation_length in Hp. simpl in Hp. unfold id in *. lia.
    + by destruct combine.
    + apply Forall2_app; [done|]. by constructor.
    + done.
    + done.
    + eapply gathered_pop; [done|exact Hp| |].
      * rewrite Forall_forall. intros b Hb. by apply Hmin, list_elem_of_In.
      * destruct combine as [|c0 C]; [done|]. destruct bufs as [|b0 B0]; [done|].
        simpl in Hx. by simplify_eq.
    + exists c0, C, B2, lsC2, lsB2. split_and!; [| | |apply Hrest..].
      * assert (match combine, bufs with
                | [], _ => true
                | c0 :: _, b0 :: _ => negb (buf_less' frame c0 b0)
                | _ :: _, [] => false end = true) as Hmore.
        { destruct combine; [done|]. destruct bufs; [done|]. by rewrite Hm. }
        cbn [gather]. rewrite Hmore. rewrite Hpop. done.
      * rewrite Hp2, <-(assoc_L (++)). by f_equiv.
      * rewrite Hls2, <-(assoc_L (++)). f_equiv. by rewrite HlsB.
Qed.

(** Advancing the gathered buffers drops the first row of each of their
    streams and restores the heap. *)
Lemma refill_spec C frame B lsC lsB :
  0 < defaultChunksize → Forall2 (buf_ok' frame) C lsC → Forall strictly lsC →
  reduce_ok frame B lsB → pairwise apart' (C ++ B) →
  ∃ frame' B' ls', (∃ f0, ∀ f, f0 ≤ f → refill f frame C B = Ret (frame', B', None)) ∧
    reduce_ok frame' B' ls' ∧ concat ls' ≡ₚ concat (tail <$> lsC) ++ concat lsB.
Proof.
  intros Hpos. revert frame B lsC lsB.
  induction C as [|c C IH]; intros frame B lsC lsB HC Hstr HB Hap.
  { apply Forall2_nil_inv_l in HC as ->. exists frame, B, lsB.
    split_and!; [by exists 0|apply HB..|done]. }
  destruct lsC as [|lc lsC]; [by inversion HC|].
  apply Forall2_cons_1 in HC as [Hokc HC].
  destruct (buf_ok_cons zero _ _ _ _ Hokc) as [l' ->].
  destruct (advance_spec defaultChunksize frame c _ l' Hpos Hokc)
    as (f1 & frame1 & c1 & Hoff & Hag & Hadv & Hok1).
  destruct HB as (HB & HapB & HhB & HsB).
  destruct Hap as [Hapc Hap].
  assert (Forall (λ b, fb_Off c + defaultChunksize ≤ fb_Off b ∨
    fb_Off b + defaultChunksize ≤ fb_Off c) (C ++ B)) as Hsep by exact Hapc.
  apply Forall_app in Hsep as [HsepC HsepB].
  destruct (agree_bufs zero _ _ _ _ _ _ Hag HC HsepC) as [HC1 _].
  destruct (agree_bufs zero _ _ _ _ _ _ Hag HB HsepB) as [HB1 HrowB].
  pose proof (is_heap_agree zero row_less _ _ _ HrowB HhB) as HhB1.
  apply Forall_cons_iff in Hstr as [[Hstr1 _]%StronglySorted_inv Hstr].
  destruct (decide (l' = [])) as [->|Hne].
  - destruct (IH frame1 B lsC lsB) as (frame' & B' & ls' & [f0 Hr] & Hok & Hp); [done..|].
    exists frame', B', ls'. split_and!; [|apply Hok..|done].
    exists (f0 `max` f1). intros f Hf. simpl. rewrite Hadv by lia. simpl. apply Hr. lia.
  - destruct (Push_spec (HI := FBH frame1) (HL := FBH_laws frame1) c1 B HhB1) as [HhP HpP].
    assert (Forall2 (buf_ok' frame1) (c1 :: B) (l' :: lsB)) as HB2
      by (constructor; [by apply Hok1|done]).
    destruct (Permutation_Forall2 (symmetry HpP) HB2) as (lsP & HlsP & HP).
    assert (Forall (apart' c1) (C ++ B)) as Hapc1.
    { eapply Forall_impl; [|exact Hapc]. unfold apart. by rewrite Hoff. }
    destruct (IH frame1 (Push (HI := FBH frame1) c1 B) lsC lsP)
      as (frame' & B' & ls' & [f0 Hr] & Hok & Hp).
    { done. }
    { done. }
    { split_and!; [done| |done|].
      - eapply pairwise_perm; [apply _|symmetry; exact HpP|].
        apply Forall_app in Hapc1 as [_ ?]. by split.
      - rewrite <-HlsP. by constructor. }
    { apply (pairwise_perm _ (c1 :: C ++ B)); [apply _| |done].
      rewrite (Permutation_middle C B c1). f_equiv. symmetry. exact HpP. }
    exists frame', B', ls'. split_and!; [|apply Hok..|].
    + exists (f0 `max` f1). intros f Hf. simpl. rewrite Hadv by lia. simpl. apply Hr. lia.
    + rewrite Hp, <-HlsP. simpl. rewrite !(assoc_L (++)). f_equiv. apply Permutation_app_comm.
Qed.

Lemma combined_spec frame c0 C :
  combined frame (c0 :: C) =
    Some (fold_left combiner (((λ c, cur frame c) <$> C).*2) (cur frame c0).2).
Proof.
  unfold combined. simpl. generalize ((cur frame c0).2).
  induction C as [|c C IH]; intros v; simpl; [done|]. apply IH.
Qed.

Lemma buf_ok_heads frame C lsC :
  Forall2 (buf_ok' frame) C lsC →
  concat lsC ≡ₚ ((λ c, cur frame c) <$> C) ++ concat (tail <$> lsC).
Proof.
  induction 1 as [|c l C lsC Hok _ IH]; simpl; [done|].
  destruct (buf_ok_cons zero _ _ _ _ Hok) as [l' ->]. simpl. rewrite IH.
  constructor. apply Permutation_app_swap_app.
Qed.

(** Rows of strict streams that follow a head are greater than it. *)
Lemma tails_greater frame C lsC x :
  Forall2 (buf_ok' frame) C lsC → Forall strictly lsC →
  Forall (λ c, row_less (cur frame c) x = false) C →
  Forall (λ y, row_less x y = true) (concat (tail <$> lsC)).
Proof.
  induction 1 as [|c l C lsC Hok _ IH]; simpl; [done|].
  intros [Hs Hss]%Forall_cons_iff [Hx Hxs]%Forall_cons_iff.
  apply Forall_app. split; [|by apply IH].
  destruct (buf_ok_cons zero _ _ _ _ Hok) as [l' ->]. simpl.
  apply StronglySorted_inv in Hs as [_ Hs]. eapply Forall_impl; [|exact Hs].
  intros y Hy. destruct (row_less x y) eqn:E; [done|].
  pose proof (sw_neg_trans (lt := row_less) _ _ _ E Hx). congruence.
Qed.

Lemma streams_greater frame B lsB x :
  Forall2 (buf_ok' frame) B lsB → Forall strictly lsB →
  Forall (λ b, row_less x (cur frame b) = true) B →
  Forall (λ y, row_less x y = true) (concat lsB).
Proof.
  induction 1 as [|c l C lsC Hok _ IH]; simpl; [done|].
  intros [Hs Hss]%Forall_cons_iff [Hx Hxs]%Forall_cons_iff.
  apply Forall_app. split; [|by apply IH].
  destruct (buf_ok_cons zero _ _ _ _ Hok) as [l' ->].
  apply StronglySorted_inv in Hs as [_ Hs]. constructor; [done|].
  eapply Forall_impl; [|exact Hs]. intros y Hy. by eapply (sw_trans row_less).
Qed.

(** [g] is a maximal group of rows with the smallest key. *)
Definition group_ok (g rest : list row) : Prop :=
  (∀ a b, a ∈ g → b ∈ g → row_less a b = false) ∧
  ∀ a, a ∈ g → Forall (λ y, row_less a y = true) rest.

Lemma reduce_step_spec frame bufs ls :
  0 < defaultChunksize → reduce_ok frame bufs ls → bufs ≠ [] →
  ∃ g x frame' bufs' ls', reduce1 g = Some x ∧
    (∃ f0, ∀ f, f0 ≤ f → reduce_step f frame bufs = Ret (x, frame', bufs', None)) ∧
    reduce_ok frame' bufs' ls' ∧ concat ls ≡ₚ g ++ concat ls' ∧ group_ok g (concat ls').
Proof.
  intros Hpos (HF & Hap & Hh & Hs) Hne.
  destruct (gather_spec (S (length bufs)) frame [] bufs [] ls)
    as (c0 & C & B & lsC & lsB & Hga & Hp & Hls & HC & HB & HhB & Heq & Hgt);
    [lia|done|constructor|done|done|done|].
  simpl in Hp, Hls.
  assert (Forall strictly lsC ∧ Forall strictly lsB) as [HsC HsB].
  { apply Forall_app. by rewrite Hls. }
  assert (pairwise apart' ((c0 :: C) ++ B)) as Hap'.
  { eapply pairwise_perm; [apply _|symmetry; exact Hp|done]. }
  destruct (refill_spec (c0 :: C) frame B lsC lsB)
    as (frame' & bufs' & ls' & [f0 Hre] & Hok' & Hp'); [done|done|done| |done|].
  { split_and!; [done| |done|done]. by apply pairwise_app in Hap' as (_ & ? & _). }
  exists ((λ c, cur frame c) <$> (c0 :: C)).
  eexists _, frame', bufs', ls'. split_and!; [done| |done| |split].
  - exists f0. intros f Hf. unfold reduce_step. rewrite Hga. cbn -[combined refill].
    rewrite combined_spec. cbn -[refill]. by rewrite Hre.
  - rewrite <-Hls, concat_app, (buf_ok_heads _ _ _ HC), Hp'. by rewrite (assoc_L (++)).
  - intros a b (ca & -> & Ha)%list_elem_of_fmap (cb & -> & Hb)%list_elem_of_fmap.
    rewrite Forall_forall in Heq. apply list_elem_of_In in Ha, Hb.
    eapply sw_neg_trans; [apply (Heq cb Hb)|apply (Heq ca Ha)].
  - intros a (ca & -> & Ha)%list_elem_of_fmap. rewrite Hp', Forall_app.
    rewrite Forall_forall in Heq. apply list_elem_of_In in Ha.
    destruct (Heq ca Ha) as [H1 H2]. split.
    + eapply tails_greater; [exact HC|done|]. rewrite Forall_forall. intros c Hc.
      eapply sw_neg_trans; [exact H2|apply (Heq c Hc)].
    + eapply streams_greater; [exact HB|done|]. eapply Forall_impl; [|exact Hgt].
      intros b Hb. destruct (row_less (cur frame ca) (cur frame b)) eqn:E; [done|].
      pose proof (sw_neg_trans (lt := row_less) _ _ _ E H2). unfold buf_less in Hb. congruence.
Qed.
(** The groups that iterating [reduce_step] emits, with their reductions. *)
Fixpoint reduces (frame : list row) (bufs : list FB) (L : list row) : Prop :=
  match L with
  | [] => bufs = []
  | x :: L => bufs ≠ [] ∧ ∃ frame' bufs',
      (∃ f0, ∀ f, f0 ≤ f → reduce_step f frame bufs = Ret (x, frame', bufs', None)) ∧
      reduces frame' bufs' L
  end.

(** [L] is the reduction by key of the rows [l]: the rows of [l] fall into
    groups of equal keys, [L] has one row per group, with the key of the
    group and its values combined, and the keys of [L] increase strictly. *)
Definition reduction (l L : list row) : Prop :=
  ∃ gs, concat gs ≡ₚ l ∧ Forall2 (λ g x, reduce1 g = Some x) gs L ∧
    Forall (λ g, ∀ a b, a ∈ g → b ∈ g → row_less a b = false) gs ∧ strictly L.

Lemma reduction_cons g x l L :
  reduce1 g = Some x → group_ok g l → reduction l L → reduction (g ++ l) (x :: L).
Proof.
  intros Hg [Heq Hgt] (gs & Hp & HF & Hgs & Hs). exists (g :: gs).
  split_and!; [simpl; by rewrite Hp|by constructor|by constructor|].
  destruct g as [|a g]; [done|]. simpl in Hg. injection Hg as <-.
  constructor; [done|]. specialize (Hgt a ltac:(left)). rewrite <-Hp in Hgt.
  clear -HF Hgt. induction HF as [|g' y gs L Hy _ IH]; [done|].
  simpl in Hgt. apply Forall_app in Hgt as [Hg' Hgt]. constructor; [|by apply IH].
  destruct g' as [|b g']; [done|]. simpl in Hy. injection Hy as <-.
  by apply Forall_cons_iff in Hg' as [Hb _].
Qed.

Lemma reduce_reduces frame bufs ls :
  0 < defaultChunksize → reduce_ok frame bufs ls →
  ∃ L, reduces frame bufs L ∧ reduction (concat ls) L.
Proof.
  intros Hb. remember (length (concat ls)) as N eqn:HN. revert frame bufs ls HN.
  induction (lt_wf N) as [N _ IH]. intros frame bufs ls -> Hm.
  destruct (decide (bufs = [])) as [->|Hne].
  { destruct Hm as (HF & _). apply Forall2_nil_inv_l in HF as ->.
    exists []. split; [done|]. exists []. split_and!; constructor. }
  destruct (reduce_step_spec frame bufs ls Hb Hm Hne)
    as (g & x & frame' & bufs' & ls' & Hg & Hst & Hm' & Hp & Hok).
  assert (0 < length g) by (destruct g; [done|simpl; lia]).
  pose proof (Permutation_length Hp) as HpL. rewrite length_app in HpL.
  destruct (IH (length (concat ls'))) with (frame := frame') (bufs := bufs') (ls := ls')
    as (L & HL & Hr); [lia|done|done|].
  exists (x :: L). split; [simpl; split; [done|by exists frame', bufs']|].
  destruct (reduction_cons g x (concat ls') L Hg Hok Hr) as (gs & Hgs & Hrest).
  exists gs. split; [by rewrite Hgs, Hp|done].
Qed.

Lemma reduces_loop k frame bufs L acc :
  reduces frame bufs L →
  ∃ frame' bufs', reduces frame' bufs' (drop k L) ∧
    ∃ f0, ∀ f, f0 ≤ f →
      reduce_loop k f frame bufs acc = Ret (acc ++ take k L, frame', bufs', None).
Proof.
  revert frame bufs L acc. induction k as [|k IH]; intros frame bufs L acc HL.
  { exists frame, bufs. split; [done|]. exists 0. intros. by rewrite app_nil_r. }
  destruct L as [|x L].
  { simpl in HL. subst. exists frame, []. split; [done|]. exists 0. intros.
    by rewrite take_nil, app_nil_r. }
  destruct HL as (Hne & frame1 & bufs1 & [f1 Hst] & HL).
  destruct (IH frame1 bufs1 L (acc ++ [x]) HL) as (frame' & bufs' & HL' & f0 & Hlp).
  exists frame', bufs'. split; [done|]. exists (f0 `max` f1). intros f Hf.
  simpl. destruct bufs as [|b bufs]; [done|]. rewrite Hst by lia. simpl.
  rewrite Hlp by lia. by rewrite <-(assoc_L (++)).
Qed.

(** The reader has, or will make on its first call, a heap that emits [L]. *)
Definition ready (r : reader) (L : list row) : Prop :=
  rd_err r = None ∧ ∃ frame bufs, reduces frame bufs L ∧
    match rd_heap r with
    | Some h => h = (frame, bufs)
    | None => ∃ f0, ∀ f, f0 ≤ f → reduce_init f (rd_readers r) = Ret (frame, bufs, None)
    end.

Lemma ready_Read r L n :
  ready r L → ∃ r', ready r' (drop n L) ∧
    Reads r n r' (take n L) (if decide (drop n L = []) then Some EOF else None).
Proof.
  intros (He & frame & bufs & HL & Hh).
  destruct (reduces_loop n frame bufs L [] HL) as (frame' & bufs' & HL' & f1 & Hlp).
  assert (∃ f2, ∀ f, f2 ≤ f →
    match rd_heap r with
    | Some (frame, bufs) => Ret (frame, bufs, None)
    | None => reduce_init f (rd_readers r)
    end = Ret (frame, bufs, None)) as [f2 Hinit].
  { destruct (rd_heap r) as [[fr bf]|]; [|done]. exists 0. by simplify_eq. }
  exists (mkReader (rd_readers r) None (Some (frame', bufs'))). split.
  { split; [done|]. by exists frame', bufs'. }
  exists (f1 `max` f2). intros f Hf. unfold Read, reader_reader, reader_Read.
  rewrite He, Hinit by lia. cbn -[reduce_loop]. rewrite Hlp by lia. simpl.
  repeat f_equal. destruct (drop n L) as [|y L'] eqn:E; simpl in HL'.
  - by subst bufs'.
  - destruct HL' as [Hne _]. by destruct bufs'.
Qed.

Lemma ready_streams r L : ready r L → streams steady (S (length L)) r L.
Proof.
  remember (length L) as N eqn:HN. revert r L HN.
  induction (lt_wf N) as [N _ IH]. intros r L -> Hr n Hn.
  destruct (ready_Read r L n Hr) as (r' & Hr' & HR).
  exists r', (take n L), (if decide (drop n L = []) then Some EOF else None).
  split_and!; [done|rewrite length_take; lia|].
  destruct (decide (drop n L = [])) as [E|E].
  - split_and!; [done| |done|].
    + rewrite <-(take_drop n L) at 1. by rewrite E, app_nil_r.
    + intros _. rewrite E in Hr'. exists (λ r, ready r []). split; [done|].
      intros r1 m Hr1 _. destruct (ready_Read r1 [] m Hr1) as (r2 & Hr2 & HR2).
      rewrite drop_nil in Hr2. rewrite take_nil in HR2. exists r2. split; [|done].
      rewrite decide_True in HR2 by apply drop_nil. done.
  - assert (L ≠ []) by (intros ->; by rewrite drop_nil in E). split.
    + intros _. destruct L, n; [done|done|lia|done].
    + exists (drop n L). split; [by rewrite take_drop|].
      apply streams_mono with (S (length (drop n L))).
      { rewrite length_drop. destruct L; [done|]. simpl. lia. }
      eapply IH; [|done|done]. rewrite length_drop. destruct L; [done|]. simpl. lia.
Qed.

Lemma reduce_init_spec readers ls :
  0 < defaultChunksize → Forall2 (Streams_as steady) readers ls → Forall strictly ls →
  ∃ frame bufs ls', (∃ f0, ∀ f, f0 ≤ f → reduce_init f readers = Ret (frame, bufs, None)) ∧
    reduce_ok frame bufs ls' ∧ concat ls' ≡ₚ concat ls.
Proof.
  intros Hb HF Hs.
  destruct (NewMergeReader_loop_spec zero defaultChunksize readers ls 0
    (replicate (length readers * defaultChunksize) zero) [] [])
    as (frame & bufs & f0 & Hlp & HB & Hap); [done|done| |constructor|done|done|].
  { by rewrite length_replicate. }
  apply holds_buf_ok in HB. simpl in HB.
  destruct (Init_spec (HI := FBH frame) (HL := FBH_laws frame) bufs) as [Hh Hp].
  destruct (Permutation_Forall2 (symmetry Hp) HB) as (ls2 & Hls2 & HF2).
  exists frame, (Init (HI := FBH frame) bufs), ls2. split_and!.
  - exists f0. intros f Hf. unfold reduce_init. by rewrite Hlp.
  - split_and!; [done| |done|].
    + by eapply pairwise_perm; [apply _|symmetry; exact Hp|].
    + rewrite <-Hls2. rewrite Forall_forall in Hs |- *. intros l Hl.
      eapply Hs, list_elem_of_In, windows_elem. by apply list_elem_of_In.
  - by rewrite <-Hls2, windows_rows.
Qed.

Lemma Reduce_spec (numOut prefix : Z) (readers : list R) (ls : list (list row)) :
  (numOut - prefix = 1)%Z → 0 < defaultChunksize →
  Forall2 (Streams_as steady) readers ls → Forall strictly ls →
  ∃ r L, Reduce numOut prefix readers = Ret r ∧ Streams_as steady r L ∧
    reduction (concat ls) L.
Proof.
  intros Hn Hb HF Hs.
  destruct (reduce_init_spec readers ls Hb HF Hs) as (frame & bufs & ls' & Hinit & Hok & Hp).
  destruct (reduce_reduces frame bufs ls' Hb Hok) as (L & HL & gs & Hgs & Hrest).
  exists (mkReader readers None None), L. split_and!.
  - unfold Reduce. by rewrite Hn.
  - exists (S (length L)). apply ready_streams. split; [done|]. by exists frame, bufs.
  - exists gs. by rewrite Hgs, Hp.
Qed.

End reduce.

(** * Reductions are functions of the rows *)

(** With a combiner that is commutative and associative and keys that are equal
    if neither is less, the reduction of rows is determined by the rows alone:
    not by their order, nor by how they were grouped on the way. *)
Section determined.
Context {K V : Type} (ltk : K → K → bool) `{!StrictWeak ltk} (comb : V → V → V).
Hypothesis ltk_eq : ∀ a b, ltk a b = false → ltk b a = false → a = b.
Hypothesis comb_assoc : ∀ a b c, comb (comb a b) c = comb a (comb b c).
Hypothesis comb_comm : ∀ a b, comb a b = comb b a.
#[local] Abbreviation row := (K * V)%type.

Definition has_key (k : K) (x : row) : bool := negb (ltk k x.1) && negb (ltk x.1 k).

Lemma has_key_spec k x : has_key k x = true ↔ k = x.1.
Proof.
  unfold has_key. rewrite andb_true_iff, !negb_true_iff. split.
  - intros []. by apply ltk_eq.
  - intros ->. by rewrite sw_irrefl.
Qed.

(** The values of a key, combined. *)
Definition fold1 (vs : list V) : option V :=
  match vs with [] => None | v :: vs => Some (fold_left comb vs v) end.
Definition key_values (k : K) (l : list row) : list V := snd <$> filter (λ x, has_key k x = true) l.
Definition key_value (k : K) (l : list row) : option V := fold1 (key_values k l).

Lemma fold1_perm vs vs' : vs ≡ₚ vs' → fold1 vs = fold1 vs'.
Proof.
  assert (∀ l l' a, l ≡ₚ l' → fold_left comb l a = fold_left comb l' a) as Hfold.
  { intros l l' a Hp. revert a. induction Hp as [|v l l' _ IH|v w l|l l' l'' _ IH1 _ IH2]; intros a; simpl; auto.
    - f_equal. rewrite !comb_assoc. f_equal. apply comb_comm.
    - by rewrite IH1. }
  induction 1 as [|v l l' Hp _|v w l|l l' l'' _ -> _ ->]; simpl; auto.
  - f_equal. by apply Hfold.
  - do 2 f_equal. apply comb_comm.
Qed.

Lemma key_value_perm k l l' : l ≡ₚ l' → key_value k l = key_value k l'.
Proof. intros Hp. apply fold1_perm. unfold key_values. by rewrite Hp. Qed.

(** The keys of groups are those of their reductions. *)
Lemma group_keys g x : reduce1 comb g = Some x → (∀ a b, a ∈ g → b ∈ g → row_less ltk a b = false) →
  Forall (λ y, y.1 = x.1) g.
Proof.
  clear comb_assoc comb_comm.
  destruct g as [|y g]; [done|]. simpl. intros [= <-] Hg. apply list.Forall_forall. intros z Hz. simpl.
  apply ltk_eq; apply Hg; set_solver.
Qed.

Lemma groups_value gs L k :
  Forall2 (λ g x, reduce1 comb g = Some x) gs L →
  Forall (λ g, ∀ a b, a ∈ g → b ∈ g → row_less ltk a b = false) gs → strictly ltk L →
  ∀ v, (k, v) ∈ L ↔ key_value k (concat gs) = Some v.
Proof.
  induction 1 as [|g x gs L Hx HF IH]; intros Hgs Hs v; [by rewrite elem_of_nil|].
  apply Forall_cons_iff in Hgs as [Hg Hgs]. inversion Hs as [|? ? Hs' Hlt]; subst.
  specialize (IH Hgs Hs'). pose proof (group_keys g x Hx Hg) as Hk.
  unfold key_value, key_values in *. simpl. rewrite list.filter_app, elem_of_cons.
  destruct (has_key k x) eqn:Hkx.
  - apply has_key_spec in Hkx as ->. rewrite (filter_all _ g).
    2:{ eapply Forall_impl; [|exact Hk]. intros y Hy. by apply has_key_spec. }
    rewrite (filter_none _ (concat gs)), app_nil_r.
    2:{ clear -HF Hgs Hlt ltk_eq StrictWeak0. induction HF as [|g y gs L Hy HF IH]; [done|]. simpl.
        apply Forall_cons_iff in Hgs as [Hg Hgs]. apply Forall_cons_iff in Hlt as [Hxy Hlt].
        apply Forall_app. split; [|by apply IH]. eapply Forall_impl; [|exact (group_keys g y Hy Hg)].
        intros z Hz Hh. apply has_key_spec in Hh. unfold row_less in Hxy.
        rewrite Hh, Hz in Hxy. by rewrite (sw_irrefl ltk) in Hxy. }
    destruct g as [|y g]; [done|]. simpl in Hx. injection Hx as <-. simpl. split.
    + intros [[= ->]|Hin]; [done|]. apply list.Forall_forall with (x := (y.1, v)) in Hlt; [|done].
      unfold row_less in Hlt. simpl in Hlt. by rewrite (sw_irrefl ltk) in Hlt.
    + intros [= <-]. by left.
  - rewrite (filter_none _ g).
    2:{ eapply Forall_impl; [|exact Hk]. intros y Hy Hh. apply has_key_spec in Hh.
        assert (has_key k x = true) by (apply has_key_spec; congruence). congruence. }
    simpl. rewrite <-IH. split; [|by right]. intros [[= <-]|?]; [|done].
    unfold has_key in Hkx. simpl in Hkx. by rewrite (sw_irrefl ltk) in Hkx.
Qed.

Lemma strictly_ext (L L' : list row) :
  strictly ltk L → strictly ltk L' → (∀ x, x ∈ L ↔ x ∈ L') → L = L'.
Proof.
  assert (∀ x y (L : list row), strictly ltk (y :: L) → x ∈ y :: L → ltk x.1 y.1 = false) as Hmin.
  { intros x y l Hs Hx. apply elem_of_cons in Hx as [->|Hx]; [by apply (sw_irrefl ltk)|].
    inversion Hs as [|? ? _ Hlt]; subst.
    apply (sw_asym (lt := ltk)). by eapply list.Forall_forall in Hlt. }
  assert (∀ x (L : list row), strictly ltk (x :: L) → x ∉ L) as Hnotin.
  { intros x l Hs Hx. inversion Hs as [|? ? _ Hlt]; subst. eapply list.Forall_forall in Hlt; [|exact Hx].
    unfold row_less in Hlt. by rewrite (sw_irrefl ltk) in Hlt. }
  revert L'. induction L as [|x L IH]; intros [|y L'] Hs Hs' Heq; [done| | |].
  - specialize (Heq y). set_solver.
  - specialize (Heq x). set_solver.
  - assert (x = y) as ->.
    { assert (x ∈ y :: L') as Hx by (apply Heq; left). assert (y ∈ x :: L) as Hy by (apply Heq; left).
      assert (x.1 = y.1) as Hk by (apply ltk_eq; eauto).
      apply elem_of_cons in Hx as [->|Hx]; [done|]. inversion Hs' as [|? ? _ Hlt]; subst.
      eapply list.Forall_forall in Hlt; [|exact Hx]. unfold row_less in Hlt. by rewrite Hk, (sw_irrefl ltk) in Hlt. }
    f_equal. apply Hnotin in Hs as Hn. apply Hnotin in Hs' as Hn'.
    inversion Hs; inversion Hs'; subst. apply IH; [done..|]. intros z. specialize (Heq z).
    split; intros Hz; (assert (z ≠ y) by (intros ->; done)); set_solver.
Qed.

Lemma reduction_value l L k v : reduction ltk comb l L → (k, v) ∈ L ↔ key_value k l = Some v.
Proof.
  intros (gs & Hp & HF & Hgs & Hs). rewrite (groups_value gs L k HF Hgs Hs). by rewrite (key_value_perm k _ _ Hp).
Qed.

Lemma reduction_perm l l' L L' :
  l ≡ₚ l' → reduction ltk comb l L → reduction ltk comb l' L' → L = L'.
Proof.
  intros Hp HL HL'. apply strictly_ext; [by destruct HL as (? & _ & _ & _ & ?)|by destruct HL' as (? & _ & _ & _ & ?)|].
  intros [k v]. rewrite (reduction_value l L), (reduction_value l' L') by done. by rewrite (key_value_perm k _ _ Hp).
Qed.
End determined.
