(* ===== verification/Frame.v ===== *)
(** Package frame (src/frame/frame.go, src/frame/ops.go): columnar frames.

    A frame is a view (offset, length, capacity) of columns that live in
    shared memory: slicing a frame aliases its columns, and Copy, Swap, Zero
    and AppendFrame write through the aliases.  The model therefore keeps a
    memory of backing arrays, and a column refers to its array by address.
    Integers of the frame header are Go ints, kept in [Z]; [grow], where their
    overflow matters, wraps them to 64 bits. *)
From S2P Require Import Prelude Heap.

Section frame.
(** Values of all column types; types are named, and have a zero value. *)
Context {V : Type} (zeroOf : string → V).

(** * Memory and slices *)

Abbreviation mem := (gmap nat (list V)).

(** A Go slice: the address of the array, and base, length and capacity. *)
Record goslice := mkSlice {
  sl_arr : nat;
  sl_base : Z;
  sl_len : Z;
  sl_cap : Z;
}.

(** * Operators *)

Record Ops := mkOps {
  ops_Less : option (V → V → bool);
  ops_HashWithSeed : option (V → Z → Z);
  ops_Encode : bool;
  ops_Decode : bool;
}.

Abbreviation registry := (gmap string Ops).

(** [make] is nil-able here so that an argument of the wrong shape can be
    expressed. *)
Definition RegisterOps (reg : registry) (elem : string) (make : option Ops) : outcome registry :=
  match make with
  | None => Panic "frame.RegisterOps: bad type"
  | Some ops =>
      match reg !! elem with
      | Some _ => Panic "frame.RegisterOps: ops already registered for type"
      | None => Ret (<[elem := ops]> reg)
      end
  end.

Definition makeSliceOps (reg : registry) (typ : string) : outcome Ops :=
  match reg !! typ with
  | None => Ret (mkOps None None false false)
  | Some ops =>
      if negb (eqb (ops_Encode ops) (ops_Decode ops))
      then Panic "encode and decode not defined together" else Ret ops
  end.

Definition CanCompare (reg : registry) (typ : string) : outcome bool :=
  (λ ops, bool_decide (is_Some (ops_Less ops))) <$> makeSliceOps reg typ.

Definition CanHash (reg : registry) (typ : string) : outcome bool :=
  (λ ops, bool_decide (is_Some (ops_HashWithSeed ops))) <$> makeSliceOps reg typ.

(** * Frames *)

Record data := mkData {
  d_typ : string;
  d_val : goslice;
  d_ops : Ops;
}.

Definition newData (reg : registry) (typ : string) (v : goslice) : outcome data :=
  ops ← makeSliceOps reg typ; Ret (mkData typ v ops).

(** [f_data] is [None] for the nil slice of the zero-valued frame. *)
Record Frame := mkFrame {
  f_data : option (list data);
  f_off : Z;
  f_len : Z;
  f_cap : Z;
  f_prefix : Z;
}.

Definition columns (f : Frame) : list data := default [] (f_data f).

Definition Empty : Frame := mkFrame (Some []) 0 0 0 0.

(** A slice type: the column types and the number of prefix columns. *)
Record Typ := mkTyp { t_out : list string; t_prefix : Z }.

(** A new array of [n] zero values. *)
Definition alloc (m : mem) (typ : string) (n : Z) : mem * goslice :=
  let a := fresh (dom m) in
  (<[a := replicate (Z.to_nat n) (zeroOf typ)]> m, mkSlice a 0 n n).

Fixpoint Make_columns (reg : registry) (m : mem) (types : list string) (cap : Z) :
    outcome (mem * list data) :=
  match types with
  | [] => Ret (m, [])
  | t :: types =>
      let '(m, v) := alloc m t cap in
      d ← newData reg t v;
      '(m, ds) ← Make_columns reg m types cap;
      Ret (m, d :: ds)
  end.

Definition Make (reg : registry) (m : mem) (types : Typ) (len cap : Z) : outcome (mem * Frame) :=
  if ((len <? 0) || (cap <? len))%Z then Panic "frame.Make: invalid len, cap"
  else
    '(m, ds) ← Make_columns reg m (t_out types) cap;
    Ret (m, mkFrame (Some ds) 0 len cap (t_prefix types - 1)).

(** The loop of [Slices] and of [Values]; a column is a slice with the type
    of its elements, or [None] for an argument that is not a slice. *)
Fixpoint Slices_loop (who : string) (reg : registry) (first : bool)
    (cols : list (option (string * goslice))) (len cap : Z) (ds : list data) : outcome Frame :=
  match cols with
  | [] => Ret (mkFrame (Some ds) 0 len cap 0)
  | None :: _ => Panic (who +:+ ": non-slice argument")
  | Some (t, v) :: cols =>
      '(len, cap) ←
        (if first then Ret (sl_len v, sl_cap v)
         else if negb (sl_len v =? len)%Z then Panic (who +:+ ": columns of unequal length")
         else Ret (len, if (sl_cap v <? cap)%Z then sl_cap v else cap));
      d ← newData reg t v;
      Slices_loop who reg false cols len cap (ds ++ [d])
  end.

Definition Slices (reg : registry) (cols : list (option (string * goslice))) : outcome Frame :=
  match cols with
  | [] => Ret Empty
  | _ => Slices_loop "frame.Slices" reg true cols 0 0 []
  end.

Definition Values (reg : registry) (cols : list (option (string * goslice))) : outcome Frame :=
  match cols with
  | [] => Ret Empty
  | _ => Slices_loop "frame.Values" reg true cols 0 0 []
  end.

Definition IsZero (f : Frame) : bool := bool_decide (f_data f = None).
Definition NumOut (f : Frame) : Z := Z.of_nat (length (columns f)).
Definition Out (f : Frame) (i : nat) : option string := d_typ <$> columns f !! i.
Definition Prefix (f : Frame) : Z := f_prefix f + 1.
Definition Len (f : Frame) : Z := f_len f.
Definition Cap (f : Frame) : Z := f_cap f.
(** A frame is itself a slice type. *)
Definition type_of (f : Frame) : Typ := mkTyp (d_typ <$> columns f) (Prefix f).

Definition Compatible (f g : Frame) : bool :=
  (length (columns f) =? length (columns g))%nat &&
  forallb (λ '(a, b), bool_decide (d_typ a = d_typ b)) (zip (columns f) (columns g)).

Definition Slice (f : Frame) (i j : Z) : outcome Frame :=
  if ((i <? 0) || (j <? i) || (f_cap f <? j))%Z
  then Panic "frame.Slice: slice index out of bounds"
  else Ret (mkFrame (f_data f) (f_off f + i) (j - i) (f_cap f - i) (f_prefix f)).

Definition Prefixed (f : Frame) (prefix : Z) : outcome Frame :=
  if ((Z.of_nat (length (columns f)) <? prefix) || (prefix <? 0))%Z
  then Panic "frame.Prefix: prefix is invalid"
  else Ret (mkFrame (f_data f) (f_off f) (f_len f) (f_cap f) (prefix - 1)).

(** * Memory operations *)

Definition array (m : mem) (v : goslice) : list V := default [] (m !! sl_arr v).

(** The address of row [i] of column [d], as an index of its array. *)
Definition cell (f : Frame) (d : data) (i : Z) : nat :=
  Z.to_nat (sl_base (d_val d) + f_off f + i).

(** [n] elements of the column from row 0 of the frame. *)
Definition read_col (m : mem) (f : Frame) (d : data) (n : Z) : list V :=
  take (Z.to_nat n) (drop (cell f d 0) (array m (d_val d))).

Definition write_col (m : mem) (f : Frame) (d : data) (vs : list V) : mem :=
  <[sl_arr (d_val d) := list_inserts (cell f d 0) vs (array m (d_val d))]> m.

(** [typedslicecopy], and [assign] for one element: the source is read
    before the destination is written. *)
Fixpoint Copy_columns (m : mem) (dst src : Frame) (ds ss : list data) (n : Z) : mem :=
  match ds, ss with
  | d :: ds, s :: ss =>
      Copy_columns (write_col m dst d (read_col m src s n)) dst src ds ss n
  | _, _ => m
  end.

(** The count is that of the last column, and 0 for a frame without
    columns, except on the one-element path. *)
Definition Copy (m : mem) (dst src : Frame) : outcome (mem * Z) :=
  if negb (Compatible dst src) then Panic "frame.Copy: incompatible frames"
  else if ((Len dst =? 0) || (Len src =? 0))%Z then Ret (m, 0%Z)
  else if ((Len dst =? 1) && (Len src =? 1))%Z
  then Ret (Copy_columns m dst src (columns dst) (columns src) 1, 1%Z)
  else
    let n := Z.min (f_len dst) (f_len src) in
    Ret (Copy_columns m dst src (columns dst) (columns src) n,
         if columns dst is [] then 0%Z else n).

(** The capacity loop of [grow]; [Go] division truncates. *)
Fixpoint grow_cap (fuel : nat) (i0 i1 m : Z) : outcome Z :=
  if (m <? i1)%Z then
    match fuel with
    | 0 => NoFuel
    | S fuel =>
        grow_cap fuel i0 i1
          (if (i0 <? 1024)%Z then wrap64 (m + m) else wrap64 (m + Z.quot m 4))
    end
  else Ret m.

Definition grow (fuel : nat) (reg : registry) (m : mem) (f : Frame) (need : Z) :
    outcome (mem * Frame * Z * Z) :=
  let i0 := Len f in
  let i1 := wrap64 (i0 + need) in
  if (i1 <? i0)%Z then Panic "frame.grow: overflow"
  else if (i1 <=? f_cap f)%Z then
    g ← Slice f 0 i1; Ret (m, g, i0, i1)
  else
    c ← (if (f_cap f =? 0)%Z then Ret need else grow_cap fuel i0 i1 (f_cap f));
    '(m, g) ← Make reg m (type_of f) i1 c;
    '(m, _) ← Copy m g f;
    Ret (m, g, i0, i1).

Definition Grow (fuel : nat) (reg : registry) (m : mem) (f : Frame) (n : Z) :
    outcome (mem * Frame) :=
  '(m, f, _, _) ← grow fuel reg m f n; Ret (m, f).

Definition Ensure (fuel : nat) (reg : registry) (m : mem) (f : Frame) (n : Z) :
    outcome (mem * Frame) :=
  if (f_len f =? n)%Z then Ret (m, f)
  else if (n <=? f_cap f)%Z then g ← Slice f 0 n; Ret (m, g)
  else Grow fuel reg m f (n - f_len f).

Definition AppendFrame (fuel : nat) (reg : registry) (m : mem) (dst src : Frame) :
    outcome (mem * Frame) :=
  '(m, dst, i0, i1) ←
    (if IsZero dst then
       '(m, dst) ← Make reg m (type_of src) (f_len src) (f_len src);
       Ret (m, dst, 0%Z, f_len src)
     else grow fuel reg m dst (f_len src));
  part ← Slice dst i0 i1;
  '(m, _) ← Copy m part src;
  Ret (m, dst).

(** Indexing the whole column slice, as [reflect.Value.Index] and the
    operators do: bounds are those of the slice and not of the frame. *)
Definition val_index (m : mem) (v : goslice) (i : Z) : outcome V :=
  if ((0 <=? i) && (i <? sl_len v))%Z then
    match array m v !! Z.to_nat (sl_base v + i) with
    | Some x => Ret x
    | None => Panic "index out of range"
    end
  else Panic "index out of range".

Definition Index (m : mem) (f : Frame) (col : nat) (i : Z) : outcome V :=
  match columns f !! col with
  | Some d => val_index m (d_val d) (f_off f + i)
  | None => Panic "index out of range"
  end.

(** The column as a slice value. *)
Definition Value (f : Frame) (i : nat) : outcome goslice :=
  match columns f !! i with
  | None => Panic "index out of range"
  | Some d =>
      let v := d_val d in
      if ((f_off f =? 0) && (f_len f =? f_cap f))%Z then Ret v
      else if (sl_cap v <? f_off f + f_len f)%Z then Panic "reflect.Value.Slice: slice index out of bounds"
      else Ret (mkSlice (sl_arr v) (sl_base v + f_off f) (f_len f) (sl_cap v - f_off f))
  end.

(** [reflect.Swapper]: exchange two elements of the column slice. *)
Definition swap_val (m : mem) (v : goslice) (i j : Z) : outcome mem :=
  if ((0 <=? i) && (i <? sl_len v) && (0 <=? j) && (j <? sl_len v))%Z then
    Ret (<[sl_arr v := list_swap (Z.to_nat (sl_base v + i)) (Z.to_nat (sl_base v + j)) (array m v)]> m)
  else Panic "reflect: slice index out of range".

Fixpoint Swap_columns (m : mem) (ds : list data) (i j : Z) : outcome mem :=
  match ds with
  | [] => Ret m
  | d :: ds => m ← swap_val m (d_val d) i j; Swap_columns m ds i j
  end.

Definition Swap (m : mem) (f : Frame) (i j : Z) : outcome mem :=
  Swap_columns m (columns f) (i - f_off f) (j - f_off f).

(** [zero.Unsafe] clears [f.len] elements of every column. *)
Fixpoint Zero_columns (m : mem) (f : Frame) (ds : list data) : mem :=
  match ds with
  | [] => m
  | d :: ds =>
      Zero_columns (write_col m f d (replicate (Z.to_nat (f_len f)) (zeroOf (d_typ d)))) f ds
  end.

Definition Zero (m : mem) (f : Frame) : mem := Zero_columns m f (columns f).

Definition less_col (m : mem) (f : Frame) (d : data) (i j : Z) : outcome bool :=
  match ops_Less (d_ops d) with
  | None => Panic "invalid memory address or nil pointer dereference"
  | Some less =>
      a ← val_index m (d_val d) (i + f_off f);
      b ← val_index m (d_val d) (j + f_off f);
      Ret (less a b)
  end.

(** The loop over the columns before the last prefix column. *)
Fixpoint Less_loop (m : mem) (f : Frame) (k : nat) (ds : list data) (i j : Z) : outcome bool :=
  match k, ds with
  | _, [] => Panic "index out of range"
  | 0, d :: _ => less_col m f d i j
  | S k, d :: ds =>
      lt ← less_col m f d i j;
      if lt : bool then Ret true
      else
        gt ← less_col m f d j i;
        if gt : bool then Ret false else Less_loop m f k ds i j
  end.

Definition Less (m : mem) (f : Frame) (i j : Z) : outcome bool :=
  if (f_prefix f <? 0)%Z then Panic "index out of range"
  else Less_loop m f (Z.to_nat (f_prefix f)) (columns f) i j.

Definition hash_col (m : mem) (f : Frame) (d : data) (i seed : Z) : outcome Z :=
  match ops_HashWithSeed (d_ops d) with
  | None => Panic "invalid memory address or nil pointer dereference"
  | Some hash => a ← val_index m (d_val d) (i + f_off f); Ret (hash a seed)
  end.

Fixpoint Hash_loop (m : mem) (f : Frame) (k : nat) (ds : list data) (i seed hash : Z) :
    outcome Z :=
  match k, ds with
  | _, [] => Panic "index out of range"
  | 0, d :: _ => h ← hash_col m f d i seed; Ret (Z.lxor hash h)
  | S k, d :: ds =>
      h ← hash_col m f d i seed; Hash_loop m f k ds i seed (Z.lxor hash h)
  end.

Definition HashWithSeed (m : mem) (f : Frame) (i seed : Z) : outcome Z :=
  if (f_prefix f <? 0)%Z then Panic "index out of range"
  else Hash_loop m f (Z.to_nat (f_prefix f)) (columns f) i seed 0.

Definition Hash (m : mem) (f : Frame) (i : Z) : outcome Z := HashWithSeed m f i 0.

(** * Well-formed frames *)

Abbreviation arr d := (sl_arr (d_val d)).
Abbreviation arrs ds := ((λ d, sl_arr (d_val d)) <$> ds).

(** The column's array holds the slice, and the slice holds the frame's
    rows up to its capacity. *)
Definition column_ok (m : mem) (f : Frame) (d : data) : Prop :=
  (0 <= sl_base (d_val d) ∧ f_off f + f_cap f <= sl_cap (d_val d) ∧
   0 <= sl_len (d_val d) <= sl_cap (d_val d) ∧
   sl_base (d_val d) + sl_cap (d_val d) <= Z.of_nat (length (array m (d_val d))))%Z ∧
  arr d ∈ dom m.

Definition frame_ok (m : mem) (f : Frame) : Prop :=
  (0 <= f_off f ∧ 0 <= f_len f <= f_cap f)%Z ∧
  Forall (column_ok m f) (columns f) ∧ NoDup (arrs (columns f)).

(** The contents of the frame, column by column. *)
Definition cols (m : mem) (f : Frame) : list (list V) :=
  (λ d, read_col m f d (f_len f)) <$> columns f.

(** [m'] has the arrays of [m], and the same contents outside [as_]. *)
Definition frames_rule (as_ : list nat) (m m' : mem) : Prop :=
  ∀ a, a ∉ as_ → a ∈ dom m → m' !! a = m !! a.

Lemma read_col_length m f d n :
  column_ok m f d → (0 <= f_off f)%Z → (0 <= n <= f_cap f)%Z →
  length (read_col m f d n) = Z.to_nat n.
Proof.
  intros [(? & ? & ? & ?) _] ? ?. unfold read_col, cell. rewrite length_take, length_drop. lia.
Qed.

Lemma array_write_same m f d vs :
  array (write_col m f d vs) (d_val d) = list_inserts (cell f d 0) vs (array m (d_val d)).
Proof. unfold array, write_col. by rewrite lookup_insert_eq. Qed.

Lemma array_write_ne m f d vs v :
  sl_arr v ≠ arr d → array (write_col m f d vs) v = array m v.
Proof. intros. unfold array, write_col. by rewrite lookup_insert_ne. Qed.

Lemma array_length_write m f d vs v :
  length (array (write_col m f d vs) v) = length (array m v).
Proof.
  unfold array, write_col. destruct (decide (sl_arr v = arr d)) as [E|E].
  - rewrite E, lookup_insert_eq. simpl. by rewrite length_inserts.
  - by rewrite lookup_insert_ne.
Qed.

(** Reading back a window after writing its first elements. *)
Lemma read_write_col m f d vs n :
  column_ok m f d → (0 <= f_off f)%Z → (0 <= n <= f_cap f)%Z → length vs ≤ Z.to_nat n →
  read_col (write_col m f d vs) f d n = vs ++ drop (length vs) (read_col m f d n).
Proof.
  intros [(? & ? & ? & ?) _] Ho Hn Hvs. unfold read_col at 1. rewrite array_write_same.
  set (c := cell f d 0). set (A := array m (d_val d)).
  assert (c + Z.to_nat n ≤ length A) by (unfold c, cell, A; lia).
  apply list_eq. intros k. destruct (decide (k < Z.to_nat n)) as [Hk|Hk].
  - rewrite lookup_take_lt, lookup_drop by done. destruct (decide (k < length vs)).
    + rewrite lookup_app_l, list_lookup_inserts by lia. f_equal. lia.
    + rewrite list_lookup_inserts_ge by lia. rewrite lookup_app_r, lookup_drop by lia.
      unfold read_col. fold c A. rewrite lookup_take_lt, lookup_drop by lia. f_equal. lia.
  - rewrite lookup_take_ge by lia. symmetry. apply lookup_ge_None.
    rewrite length_app, length_drop. unfold read_col. fold c A.
    rewrite length_take, length_drop. lia.
Qed.

(** No destination column shares its array with another column of either
    frame that is still to be copied. *)
Fixpoint independent (ds ss : list data) : Prop :=
  match ds, ss with
  | d :: ds, _ :: ss => (arr d ∉ arrs ds) ∧ (arr d ∉ arrs ss) ∧ independent ds ss
  | _, _ => True
  end.

Lemma Copy_columns_frame m dst src ds ss n :
  let m' := Copy_columns m dst src ds ss n in
  frames_rule (arrs ds) m m' ∧ (∀ v, length (array m' v) = length (array m v)) ∧
  (∀ a, a ∈ dom m → a ∈ dom m').
Proof.
  revert m ss. induction ds as [|d ds IH]; intros m [|s ss]; simpl; [done..|].
  destruct (IH (write_col m dst d (read_col m src s n)) ss) as (Hf & Hl & Hd).
  assert (∀ a, a ∈ dom m → a ∈ dom (write_col m dst d (read_col m src s n))) as Hw.
  { intros a Ha. unfold write_col. rewrite dom_insert, elem_of_union. auto. }
  split_and!.
  - intros a [Ha1 Ha2]%not_elem_of_cons Ha. rewrite Hf by auto.
    unfold write_col. by rewrite lookup_insert_ne.
  - intros v. by rewrite Hl, array_length_write.
  - auto.
Qed.

Lemma Copy_columns_arrays m dst src ds ss n k d s :
  independent ds ss → Forall (λ d, arr d ∈ dom m) ds → 
  ds !! k = Some d → ss !! k = Some s →
  array (Copy_columns m dst src ds ss n) (d_val d) =
    array (write_col m dst d (read_col m src s n)) (d_val d).
Proof.
  revert m ss k. induction ds as [|d0 ds IH]; intros m [|s0 ss] k; simpl; try done.
  intros (Hd & Hs & Hi) [Hdd Hdds]%Forall_cons_iff Hkd Hks.
  set (m1 := write_col m dst d0 (read_col m src s0 n)).
  assert (∀ a, a ∈ dom m → a ∈ dom m1) as Hw.
  { intros a Ha. unfold m1, write_col. rewrite dom_insert, elem_of_union. auto. }
  destruct k as [|k]; simpl in *; simplify_eq.
  - destruct (Copy_columns_frame m1 dst src ds ss n) as (Hf & _ & _).
    unfold array. by rewrite Hf by auto.
  - assert (Forall (λ d, arr d ∈ dom m1) ds) as Hdds1.
    { eapply Forall_impl; [|exact Hdds]. simpl. auto. }
    rewrite (IH m1 ss k Hi Hdds1 Hkd Hks).
    apply list_elem_of_lookup_2 in Hkd, Hks.
    assert (arr d ≠ arr d0) as Hne1.
    { intros E. apply Hd. rewrite <-E. by apply (list_elem_of_fmap_2 (λ d, arr d)). }
    assert (arr s ≠ arr d0) as Hne2.
    { intros E. apply Hs. rewrite <-E. by apply (list_elem_of_fmap_2 (λ d, arr d)). }
    rewrite !array_write_same. unfold m1, read_col.
    by rewrite (array_write_ne _ _ _ _ _ Hne2), (array_write_ne _ _ _ _ _ Hne1).
Qed.

Lemma cols_zip (F : list V → list V → list V) m g m1 f1 m2 f2 :
  length (columns g) = length (columns f1) → length (columns f1) = length (columns f2) →
  (∀ k d d1 d2, columns g !! k = Some d → columns f1 !! k = Some d1 → columns f2 !! k = Some d2 →
     read_col m g d (f_len g) =
       F (read_col m1 f1 d1 (f_len f1)) (read_col m2 f2 d2 (f_len f2))) →
  cols m g = zip_with F (cols m1 f1) (cols m2 f2).
Proof.
  unfold cols. generalize (columns g), (columns f1), (columns f2).
  induction l as [|d ds IH]; intros [|d1 ds1] [|d2 ds2]; simpl; try done.
  intros [= Hl1] [= Hl2] Heq. f_equal.
  - by apply (Heq 0).
  - apply IH; [done..|]. intros k. apply (Heq (S k)).
Qed.

Lemma Compatible_spec f g :
  Compatible f g = true ↔ d_typ <$> columns f = d_typ <$> columns g.
Proof.
  unfold Compatible. generalize (columns f), (columns g).
  induction l as [|a l1 IH]; intros [|b l2]; simpl; try done.
  rewrite andb_true_iff, andb_true_iff, bool_decide_eq_true in *.
  specialize (IH l2). rewrite andb_true_iff in IH.
  split.
  - intros (Hl & E & Hf). rewrite E. f_equal. by apply IH.
  - intros [= E Hr]. apply IH in Hr as [??]. by split_and!.
Qed.

Lemma Compatible_length f g : Compatible f g = true → length (columns f) = length (columns g).
Proof. intros H%Compatible_spec%(f_equal length). by rewrite !length_fmap in H. Qed.

Lemma frame_ok_column m f k d : frame_ok m f → columns f !! k = Some d → column_ok m f d.
Proof. intros (_ & HF & _) Hk. rewrite Forall_lookup in HF. eauto. Qed.

Lemma frame_ok_dom m f : frame_ok m f → Forall (λ d, arr d ∈ dom m) (columns f).
Proof. intros (_ & HF & _). eapply Forall_impl; [|exact HF]. by intros d [_ ?]. Qed.

(** Copying [n] rows, as seen through the destination. *)
Lemma Copy_columns_read m dst src n k d s :
  frame_ok m dst → frame_ok m src → independent (columns dst) (columns src) →
  (0 <= n <= f_len dst)%Z → (n <= f_len src)%Z →
  columns dst !! k = Some d → columns src !! k = Some s →
  read_col (Copy_columns m dst src (columns dst) (columns src) n) dst d (f_len dst) =
    take (Z.to_nat n) (read_col m src s (f_len src)) ++
    drop (Z.to_nat n) (read_col m dst d (f_len dst)).
Proof.
  intros Hd Hs Hi Hn1 Hn2 Hkd Hks.
  pose proof (frame_ok_column _ _ _ _ Hd Hkd) as Hcd.
  pose proof (frame_ok_column _ _ _ _ Hs Hks) as Hcs.
  destruct Hd as ((? & ? & ?) & Hd), Hs as ((? & ? & ?) & Hs).
  transitivity (read_col (write_col m dst d (read_col m src s n)) dst d (f_len dst)).
  { unfold read_col at 1. rewrite (Copy_columns_arrays _ _ _ _ _ _ k d s Hi); [done| |done..].
    eapply Forall_impl; [|apply Hd]. by intros ? [_ ?]. }
  rewrite read_write_col; [|done|lia..|rewrite read_col_length by (done || lia); lia].
  rewrite read_col_length by (done || lia). f_equal.
  unfold read_col. rewrite take_take. f_equal. lia.
Qed.

Lemma Copy_spec m dst src :
  frame_ok m dst → frame_ok m src → Compatible dst src = true →
  independent (columns dst) (columns src) → columns dst ≠ [] →
  let n := Z.min (f_len dst) (f_len src) in
  ∃ m', Copy m dst src = Ret (m', n) ∧
    (m' = Copy_columns m dst src (columns dst) (columns src) n ∨ m' = m ∧ n = 0%Z) ∧
    cols m' dst = zip_with (λ s d, take (Z.to_nat n) s ++ drop (Z.to_nat n) d)
                    (cols m src) (cols m dst).
Proof.
  intros Hd Hs HC Hi Hne n.
  pose proof (Compatible_length _ _ HC) as Hlen.
  pose proof Hd as [(Hd1 & Hd2 & Hd3) _]. pose proof Hs as [(Hs1 & Hs2 & Hs3) _].
  set (m' := Copy_columns m dst src (columns dst) (columns src) n).
  assert (Copy m dst src = Ret (if (n =? 0)%Z then m else m', n)) as ->.
  { unfold Copy, Len. rewrite HC. simpl.
    destruct (Z.eqb_spec (f_len dst) 0), (Z.eqb_spec (f_len src) 0), (Z.eqb_spec n 0);
      simpl; try lia; [by do 2 f_equal; lia..|].
    destruct (Z.eqb_spec (f_len dst) 1), (Z.eqb_spec (f_len src) 1); simpl.
    1: unfold m', n; by rewrite e, e0.
    all: by destruct (columns dst). }
  exists (if (n =? 0)%Z then m else m'). split; [done|].
  destruct (Z.eqb_spec n 0) as [E|E]; (split; [by auto|]).
  - rewrite E. apply cols_zip; [done..|]. intros k d s d' Hkd Hks Hkd'. by simplify_eq.
  - apply cols_zip; [done..|]. intros k d s d' Hkd Hks Hkd'. simplify_eq.
    apply Copy_columns_read with k; try done; lia.
Qed.

(** * Slicing *)

Lemma Slice_ok m f i j :
  frame_ok m f → (0 <= i <= j)%Z → (j <= f_cap f)%Z →
  ∃ g, Slice f i j = Ret g ∧ frame_ok m g ∧ columns g = columns f ∧ f_len g = (j - i)%Z ∧
    f_off g = (f_off f + i)%Z ∧ f_cap g = (f_cap f - i)%Z ∧ f_prefix g = f_prefix f.
Proof.
  intros ((? & ? & ?) & HF & HN) Hi Hj. eexists. split.
  { unfold Slice. destruct (Z.ltb_spec i 0), (Z.ltb_spec j i), (Z.ltb_spec (f_cap f) j); [lia..|].
    done. }
  split; [|done]. split; [simpl; lia|]. split; [|done].
  eapply Forall_impl; [|exact HF]. intros d [(? & ? & ? & ?) ?].
  split_and!; simpl; try lia; done.
Qed.

(** Reading [i + k] rows reads the first [i], and then the [k] rows of the
    slice from [i] on. *)
Lemma read_col_split m f g d i k :
  (0 <= i)%Z → (0 <= k)%Z → f_off g = (f_off f + i)%Z → (0 <= f_off f)%Z →
  (0 <= sl_base (d_val d))%Z →
  read_col m f d (i + k) = read_col m f d i ++ read_col m g d k.
Proof.
  intros Hi Hk Ho Hf Hb. unfold read_col, cell. rewrite Ho.
  replace (Z.to_nat (i + k)) with (Z.to_nat i + Z.to_nat k) by lia.
  rewrite <-take_take_drop, drop_drop. do 3 f_equal. lia.
Qed.

(** * Allocation *)

(** The registry has well-formed operators for the types. *)
Definition registered (reg : registry) (types : list string) : Prop :=
  Forall (λ t, ∃ ops, makeSliceOps reg t = Ret ops) types.

Lemma Make_columns_spec reg m types cap :
  registered reg types → (0 <= cap)%Z →
  ∃ m' ds, Make_columns reg m types cap = Ret (m', ds) ∧ d_typ <$> ds = types ∧ m ⊆ m' ∧
    NoDup (arrs ds) ∧ Forall (λ d, arr d ∉ dom m) ds ∧
    Forall (λ d, m' !! arr d = Some (replicate (Z.to_nat cap) (zeroOf (d_typ d))) ∧
                 d_val d = mkSlice (arr d) 0 cap cap) ds.
Proof.
  intros Hreg Hcap. revert m. induction Hreg as [|t types [ops Hops] _ IH]; intros m; simpl.
  { exists m, []. split_and!; done || constructor. }
  set (a := fresh (dom m)). set (m1 := <[a := _]> m).
  assert (a ∉ dom m) as Ha by apply is_fresh.
  destruct (IH m1) as (m' & ds & HM & Ht & Hsub & Hnd & Hfr & Hds).
  exists m', (mkData t (mkSlice a 0 cap cap) ops :: ds).
  assert (m1 !! a = Some (replicate (Z.to_nat cap) (zeroOf t))) as Hm1a by apply lookup_insert_eq.
  split_and!.
  - unfold newData. rewrite Hops. simpl. by rewrite HM.
  - rewrite fmap_cons. by f_equal.
  - etrans; [|exact Hsub]. apply insert_subseteq. by apply not_elem_of_dom.
  - simpl. constructor; [|done]. intros (d & Hd & Hin)%list_elem_of_fmap.
    rewrite Forall_forall in Hfr. apply (Hfr d); [by apply list_elem_of_In|].
    rewrite <-Hd. unfold m1. rewrite dom_insert, elem_of_union, elem_of_singleton. auto.
  - constructor; [done|]. eapply Forall_impl; [|exact Hfr]. intros d Hd Hin. apply Hd.
    unfold m1. rewrite dom_insert, elem_of_union. auto.
  - constructor; [|done]. split; [|done]. simpl. by eapply lookup_weaken.
Qed.

Lemma Make_spec reg m types len cap :
  registered reg (t_out types) → (0 <= len <= cap)%Z →
  ∃ m' f, Make reg m types len cap = Ret (m', f) ∧ frame_ok m' f ∧ m ⊆ m' ∧
    d_typ <$> columns f = t_out types ∧ Forall (λ d, arr d ∉ dom m) (columns f) ∧
    f_off f = 0%Z ∧ f_len f = len ∧ f_cap f = cap ∧ Prefix f = t_prefix types ∧
    cols m' f = (λ t, replicate (Z.to_nat len) (zeroOf t)) <$> t_out types.
Proof.
  intros Hreg Hlen.
  destruct (Make_columns_spec reg m (t_out types) cap)
    as (m' & ds & HM & Ht & Hsub & Hnd & Hfr & Hds); [done|lia|].
  exists m', (mkFrame (Some ds) 0 len cap (t_prefix types - 1)). split_and!; try done.
  - unfold Make. destruct (Z.ltb_spec len 0), (Z.ltb_spec cap len); [lia..|]. simpl. by rewrite HM.
  - split; [simpl; lia|]. split; [|done]. eapply Forall_impl; [|exact Hds].
    intros d [Hd Hv]. split; [|by eapply elem_of_dom_2].
    rewrite Hv. simpl. unfold array. simpl. rewrite Hd. simpl. rewrite length_replicate. lia.
  - unfold Prefix. simpl. lia.
  - rewrite <-Ht. unfold cols, columns. simpl. rewrite <-list_fmap_compose.
    apply list_fmap_ext. intros i d Hi. rewrite Forall_lookup in Hds.
    destruct (Hds i d Hi) as [Hd Hv]. unfold read_col, array, cell. rewrite Hd, Hv. simpl.
    rewrite drop_replicate, take_replicate. f_equal. lia.
Qed.

(** * Growing *)

(** The capacity loop terminates with a capacity that is large enough and at
    most doubled, as long as the wanted length is at most 2^62; [grow] would
    overflow its capacity beyond that. *)
Lemma grow_cap_spec i0 i1 m :
  (0 < m)%Z → (i1 <= 2 ^ 62)%Z → (1024 <= i0 → 4 <= m)%Z →
  ∃ c, (∃ f0, ∀ f, f0 ≤ f → grow_cap f i0 i1 m = Ret c) ∧ (i1 <= c)%Z ∧
    (c = m ∨ c < 2 * i1)%Z.
Proof.
  intros Hm Hi1 Hi0. remember (Z.to_nat (i1 - m)) as N eqn:HN. revert m Hm Hi0 HN.
  induction (lt_wf N) as [N _ IH]. intros m Hm Hi0 ->.
  destruct (Z.ltb_spec m i1) as [Hlt|Hge].
  2: { exists m. split_and!; [|done|by left]. exists 0. intros f _.
       destruct f; simpl; by destruct (Z.ltb_spec m i1); [lia|]. }
  assert (m < (if (i0 <? 1024)%Z then wrap64 (m + m) else wrap64 (m + Z.quot m 4)) <= m + m)%Z
    as Hstep.
  { destruct (Z.ltb_spec i0 1024).
    - rewrite wrap64_id; [lia|]. unfold in_int64. lia.
    - assert (1 <= Z.quot m 4 <= m)%Z.
      { rewrite Z.quot_div_nonneg by lia. split; [apply Z.div_le_lower_bound; lia|].
        apply Z.div_le_upper_bound; lia. }
      rewrite wrap64_id; [lia|]. unfold in_int64. lia. }
  set (m2 := if (i0 <? 1024)%Z then _ else _) in *.
  destruct (IH (Z.to_nat (i1 - m2))) with (m := m2) as (c & [f0 Hc] & Hge & Hlt2); try lia.
  exists c. split_and!; [|done|lia]. exists (S f0). intros [|f] Hf; [lia|]. simpl.
  destruct (Z.ltb_spec m i1); [|lia]. apply Hc. lia.
Qed.

Lemma frame_ok_same m m' f :
  (∀ v, sl_arr v ∈ dom m → length (array m' v) = length (array m v)) →
  (∀ a, a ∈ dom m → a ∈ dom m') → frame_ok m f → frame_ok m' f.
Proof.
  intros Hl Hd (H1 & HF & HN). split_and!; [apply H1..| |done].
  eapply Forall_impl; [|exact HF]. intros d [(? & ? & ? & ?) Hin].
  split; [|auto]. rewrite Hl by done. done.
Qed.

Lemma frames_rule_array m m' as_ v :
  frames_rule as_ m m' → sl_arr v ∈ dom m → sl_arr v ∉ as_ → array m' v = array m v.
Proof. intros Hf Hd Hv. unfold array. by rewrite Hf. Qed.

Lemma frame_ok_frames_rule m m' f : frames_rule [] m m' → frame_ok m f → frame_ok m' f.
Proof.
  intros Hf. apply frame_ok_same.
  - intros v Hv. f_equal. eapply frames_rule_array; [done..|]. apply not_elem_of_nil.
  - intros a Ha. pose proof Ha as [l Hl]%elem_of_dom. apply elem_of_dom. exists l.
    rewrite Hf; [done|apply not_elem_of_nil|done].
Qed.

Lemma frames_rule_read m m' f d n :
  frames_rule [] m m' → arr d ∈ dom m → read_col m' f d n = read_col m f d n.
Proof.
  intros Hf Hd. unfold read_col.
  by rewrite (frames_rule_array m m' [] (d_val d)) by (done || apply not_elem_of_nil).
Qed.

Lemma frames_rule_subseteq m m' : m ⊆ m' → frames_rule [] m m'.
Proof. intros Hs a _ [l Hl]%elem_of_dom. rewrite Hl. by eapply lookup_weaken. Qed.

Lemma independent_fresh ds ss (m : mem) :
  NoDup (arrs ds) → Forall (λ d, arr d ∉ dom m) ds → Forall (λ s, arr s ∈ dom m) ss →
  independent ds ss.
Proof.
  revert ss. induction ds as [|d ds IH]; intros [|s ss]; simpl; try done.
  intros [Hd Hnd]%list.NoDup_cons [Hfd Hfds]%Forall_cons_iff [Hs Hss]%Forall_cons_iff.
  split_and!; [done| |by apply IH].
  intros (s' & E & Hs')%list_elem_of_fmap. rewrite Forall_forall in Hss.
  apply Hfd. rewrite E. by apply Hss, list_elem_of_In.
Qed.

(** Writing rows from [i] on does not change the rows before. *)
Lemma read_col_before m f g d vs i :
  f_off g = (f_off f + i)%Z → (0 <= i)%Z → (0 <= f_off f)%Z → (0 <= sl_base (d_val d))%Z →
  read_col (write_col m g d vs) f d i = read_col m f d i.
Proof.
  intros Ho Hi Hf Hb. unfold read_col. rewrite array_write_same. apply list_eq. intros k.
  destruct (decide (k < Z.to_nat i)).
  - rewrite !lookup_take_lt, !lookup_drop by done. apply list_lookup_inserts_lt.
    unfold cell. rewrite Ho. lia.
  - by rewrite !lookup_take_ge by lia.
Qed.

Lemma Copy_keeps m dst src m' n :
  Copy m dst src = Ret (m', n) →
  frames_rule (arrs (columns dst)) m m' ∧ (∀ v, length (array m' v) = length (array m v)) ∧
  (∀ a, a ∈ dom m → a ∈ dom m').
Proof.
  unfold Copy. destruct (Compatible dst src); simpl; [|done].
  destruct (_ || _); [by intros [= <- _]|].
  destruct (_ && _); intros [= <- _]; apply Copy_columns_frame.
Qed.

(** The second half of [AppendFrame]: filling the rows [i0 .. i0 + len src)
    of [g]. *)
Lemma append_part m g src i0 :
  frame_ok m g → frame_ok m src → Compatible g src = true → columns g ≠ [] →
  independent (columns g) (columns src) →
  (0 <= i0)%Z → f_len g = (i0 + f_len src)%Z →
  ∃ part m', Slice g i0 (i0 + f_len src) = Ret part ∧ Copy m part src = Ret (m', f_len src) ∧
    frame_ok m' g ∧ frames_rule (arrs (columns g)) m m' ∧
    ∀ k d s, columns g !! k = Some d → columns src !! k = Some s →
      read_col m' g d (f_len g) = read_col m g d i0 ++ read_col m src s (f_len src).
Proof.
  intros Hg Hs HC Hne Hi Hi0 Hlen.
  pose proof Hg as [(Hg1 & Hg2 & Hg3) _]. pose proof Hs as [(Hs1 & Hs2 & Hs3) _].
  destruct (Slice_ok m g i0 (i0 + f_len src)) as (part & HS & Hp & Hcol & Hpl & Hpo & Hpc & _);
    [done|lia..|].
  destruct (Copy_spec m part src) as (m' & HCp & Hm' & _); [done|done| |by rewrite Hcol..|].
  { rewrite Compatible_spec, Hcol. by apply Compatible_spec. }
  replace (Z.min (f_len part) (f_len src)) with (f_len src) in * by lia.
  destruct (Copy_keeps _ _ _ _ _ HCp) as (Hf & Hl & Hd). rewrite Hcol in Hf.
  exists part, m'. split_and!; [done|done| |done|].
  { eapply frame_ok_same; [|exact Hd|done]. intros; apply Hl. }
  intros k d s Hkd Hks.
  pose proof (frame_ok_column _ _ _ _ Hg Hkd) as [(Hb & _) _].
  rewrite Hlen, (read_col_split m' g part d) by (done || lia).
  destruct Hm' as [->|[-> Hz]].
  - rewrite Hcol. f_equal.
    + transitivity (read_col (write_col m part d (read_col m src s (f_len src))) g d i0).
      * unfold read_col at 1. rewrite (Copy_columns_arrays _ _ _ _ _ _ k d s); [done..| |done|done].
        by apply frame_ok_dom.
      * by apply read_col_before.
    + replace (f_len src) with (f_len part) at 2 by lia. rewrite <-Hcol.
      rewrite (Copy_columns_read m part src (f_len src) k d s); [|done|done|by rewrite Hcol|lia..| |done].
      2: by rewrite Hcol.
      rewrite take_ge, drop_ge, app_nil_r; [done|..];
        rewrite read_col_length; try lia; try (eapply frame_ok_column; eauto; by rewrite Hcol); lia.
  - f_equal. unfold read_col. by rewrite Hz.
Qed.

(** What [grow] returns: a frame of the new length with the old rows first,
    either a view of the same columns or a frame of fresh columns; no
    existing array changes. *)
Record grown (m : mem) (f : Frame) (m' : mem) (g : Frame) (need : Z) : Prop := {
  grown_ok : frame_ok m' g;
  grown_types : d_typ <$> columns g = d_typ <$> columns f;
  grown_len : f_len g = (f_len f + need)%Z;
  grown_prefix : f_prefix g = f_prefix f;
  grown_frame : frames_rule [] m m';
  grown_columns : columns g = columns f ∨
    NoDup (arrs (columns g)) ∧ Forall (λ d, arr d ∉ dom m) (columns g);
  grown_rows k d d' : columns g !! k = Some d → columns f !! k = Some d' →
    read_col m' g d (f_len f) = read_col m f d' (f_len f);
}.

(** The reallocating branch of [grow]. *)
Lemma grow_realloc reg m f need c :
  frame_ok m f → columns f ≠ [] → registered reg (d_typ <$> columns f) →
  (0 <= need)%Z → (f_len f + need <= c)%Z →
  ∃ m1 m' g, Make reg m (type_of f) (f_len f + need) c = Ret (m1, g) ∧
    Copy m1 g f = Ret (m', f_len f) ∧ grown m f m' g need.
Proof.
  intros Hf Hne Hreg Hneed Hc. pose proof Hf as [(Hf1 & Hf2 & Hf3) _].
  destruct (Make_spec reg m (type_of f) (f_len f + need) c)
    as (m1 & g & HM & Hg & Hsub & Hty & Hfr & Ho & Hl & Hcap & Hpf & _); [done|lia|].
  simpl in Hty. pose proof (frames_rule_subseteq _ _ Hsub) as Hfr1.
  pose proof (frame_ok_frames_rule _ _ _ Hfr1 Hf) as Hf'.
  assert (NoDup (arrs (columns g))) as Hnd by apply Hg.
  pose proof (independent_fresh _ _ m Hnd Hfr (frame_ok_dom _ _ Hf)) as Hind.
  destruct (Copy_spec m1 g f) as (m' & HC & Hm' & _); [done|done|by apply Compatible_spec|done| |].
  { intros E. rewrite E in Hty. by destruct (columns f). }
  replace (Z.min (f_len g) (f_len f)) with (f_len f) in * by lia.
  destruct (Copy_keeps _ _ _ _ _ HC) as (Hk1 & Hk2 & Hk3).
  exists m1, m', g. split_and!; [done|done|]. split; [|done..| | |by right|].
  - eapply frame_ok_same; [|exact Hk3|exact Hg]. auto.
  - unfold Prefix in Hpf. simpl in Hpf. unfold Prefix in Hpf. lia.
  - intros a _ Ha. rewrite Hk1; [by apply Hfr1, Ha; apply not_elem_of_nil| |].
    + intros (d & -> & Hd)%list_elem_of_fmap. rewrite Forall_forall in Hfr.
      by apply (Hfr d), Ha; apply list_elem_of_In.
    + by apply (subseteq_dom _ _ Hsub).
  - intros k d d' Hkd Hkf. pose proof (frame_ok_column _ _ _ _ Hf Hkf) as Hcf.
    transitivity (read_col m1 f d' (f_len f)); [|by apply frames_rule_read, Hcf].
    destruct Hm' as [->|[-> E]]; [|unfold read_col; by rewrite E].
    pose proof (Copy_columns_read m1 g f (f_len f) k d d' Hg Hf' Hind) as Hr.
    apply (f_equal (take (Z.to_nat (f_len f)))) in Hr; [|lia|lia|done|done].
    rewrite take_app_length' in Hr; cycle 1.
    { rewrite length_take, read_col_length; try lia. by eapply frame_ok_column. }
    rewrite (take_ge (read_col m1 f d' _)) in Hr; cycle 1.
    { rewrite read_col_length; try lia. by eapply frame_ok_column. }
    rewrite <-Hr. unfold read_col. rewrite take_take. f_equal. lia.
Qed.

Lemma grow_spec reg m f need :
  frame_ok m f → columns f ≠ [] → registered reg (d_typ <$> columns f) →
  (0 <= need)%Z → (f_len f + need <= 2 ^ 62)%Z →
  ∃ m' g f0, (∀ fu, f0 ≤ fu →
      grow fu reg m f need = Ret (m', g, f_len f, (f_len f + need)%Z)) ∧
    grown m f m' g need.
Proof.
  intros Hf Hne Hreg Hneed Hmax. pose proof Hf as [(Hf1 & Hf2 & Hf3) _].
  unfold grow, Len. rewrite wrap64_id by (unfold in_int64; lia).
  destruct (Z.ltb_spec (f_len f + need) (f_len f)); [lia|].
  destruct (Z.leb_spec (f_len f + need) (f_cap f)) as [Hle|Hgt].
  - destruct (Slice_ok m f 0 (f_len f + need)) as (g & HS & Hg & Hcol & Hl & Ho & _ & Hpf);
      [done|lia..|].
    exists m, g, 0. split; [intros; by rewrite HS|].
    split; [done|by rewrite Hcol|lia|done|done|by left|].
    rewrite Hcol. intros k d d' Hk Hk'. simplify_eq. unfold read_col, cell. do 3 f_equal. lia.
  - assert (∃ c f0, (f_len f + need <= c)%Z ∧ ∀ fu, f0 ≤ fu →
      (if (f_cap f =? 0)%Z then Ret need else
         grow_cap fu (f_len f) (f_len f + need) (f_cap f)) = Ret c) as (c & f0 & Hc & Hcap).
    { destruct (Z.eqb_spec (f_cap f) 0); [exists need, 0; split; [lia|done]|].
      destruct (grow_cap_spec (f_len f) (f_len f + need) (f_cap f))
        as (c & [f0 Hc] & Hge & _); [lia..|]. eauto. }
    destruct (grow_realloc reg m f need c) as (m1 & m' & g & HM & HC & Hg); [done..|].
    exists m', g, f0. split; [|done]. intros fu Hfu. rewrite Hcap by done. simpl.
    rewrite HM. simpl. by rewrite HC.
Qed.

Lemma columns_types_length f g :
  d_typ <$> columns f = d_typ <$> columns g → length (columns f) = length (columns g).
Proof. intros H%(f_equal length). by rewrite !length_fmap in H. Qed.

Lemma cols_length m f : length (cols m f) = length (columns f).
Proof. apply length_fmap. Qed.

(** The operands of [AppendFrame]: well-formed compatible frames, with no
    column of the destination shared with a different column of the source,
    and a combined length far below the overflow. *)
Definition appendable (reg : registry) (m : mem) (dst src : Frame) : Prop :=
  frame_ok m src ∧ columns src ≠ [] ∧ registered reg (d_typ <$> columns src) ∧
  if IsZero dst then True
  else frame_ok m dst ∧ Compatible dst src = true ∧ independent (columns dst) (columns src) ∧
    (f_len dst + f_len src <= 2 ^ 62)%Z.

Lemma append_first reg m dst src :
  appendable reg m dst src →
  ∃ m1 g i0 f0, (∀ fu, f0 ≤ fu →
      (if IsZero dst then
         '(m, dst) ← Make reg m (type_of src) (f_len src) (f_len src);
         Ret (m, dst, 0%Z, f_len src)
       else grow fu reg m dst (f_len src)) = Ret (m1, g, i0, (i0 + f_len src)%Z)) ∧
    frame_ok m1 g ∧ Compatible g src = true ∧ f_len g = (i0 + f_len src)%Z ∧ (0 <= i0)%Z ∧
    frames_rule [] m m1 ∧ (columns g = columns dst ∨ Forall (λ d, arr d ∉ dom m) (columns g)) ∧
    independent (columns g) (columns src) ∧
    (if IsZero dst then i0 = 0%Z else i0 = f_len dst ∧ length (columns g) = length (columns dst) ∧
       ∀ k d d', columns g !! k = Some d → columns dst !! k = Some d' →
         read_col m1 g d i0 = read_col m dst d' i0).
Proof.
  intros (Hs & Hne & Hreg & Hd). pose proof Hs as [(Hs1 & Hs2 & Hs3) _].
  pose proof (frame_ok_dom _ _ Hs) as Hdom. destruct (IsZero dst).
  - destruct (Make_spec reg m (type_of src) (f_len src) (f_len src))
      as (m1 & g & HM & Hg & Hsub & Hty & Hfr & Ho & Hl & Hcap & Hpf & _); [done|lia|].
    exists m1, g, 0%Z, 0. split_and!; try done.
    + intros. by rewrite HM.
    + by apply Compatible_spec.
    + by apply frames_rule_subseteq.
    + by right.
    + eapply independent_fresh; [apply Hg|done|done].
  - destruct Hd as (Hd & HC & Hi & Hmax). apply Compatible_spec in HC.
    destruct (grow_spec reg m dst (f_len src)) as (m1 & g & f0 & Hgr & Hg);
      [done| |by rewrite HC|lia|done|].
    { intros E. rewrite E in HC. by destruct (columns src). }
    destruct Hg as [Hg1 Hg2 Hg3 Hg4 Hg5 Hg6 Hg7]. pose proof Hd as [(Hd1 & Hd2 & Hd3) _].
    exists m1, g, (f_len dst), f0. split_and!; try done.
    + apply Compatible_spec. by rewrite Hg2.
    + by destruct Hg6 as [|[_ ?]]; [left|right].
    + destruct Hg6 as [->|[Hnd Hfr]]; [done|]. by eapply independent_fresh.
    + by apply columns_types_length.
Qed.

(** C32. AppendFrame appends: with enough fuel for the capacity loop it
    returns a well-formed frame whose columns are the columns of dst
    followed by those of src (those of src alone when dst is the zero
    frame), whether it wrote into the spare capacity of dst or moved the
    rows to new columns; arrays other than the columns of dst keep their
    contents. *)
Theorem AppendFrame_correct reg m dst src :
  appendable reg m dst src →
  ∃ m' g f0, (∀ fu, f0 ≤ fu → AppendFrame fu reg m dst src = Ret (m', g)) ∧
    frame_ok m' g ∧ frames_rule (arrs (columns dst)) m m' ∧
    cols m' g = if IsZero dst then cols m src
                else zip_with (++) (cols m dst) (cols m src).
Proof.
  intros Happ. pose proof Happ as (Hs & Hne & Hreg & Hd).
  destruct (append_first reg m dst src Happ)
    as (m1 & g & i0 & f0 & Hfst & Hg & HC & Hl & Hi0 & Hfr1 & Hcol & Hind & Hold).
  pose proof (Compatible_length _ _ HC) as Hlen.
  destruct (append_part m1 g src i0) as (part & m' & HS & HCp & Hg' & Hfr' & Hrd);
    [done|by eapply frame_ok_frames_rule|done| |done|done|done|].
  { intros E. rewrite E in Hlen. by destruct (columns src). }
  exists m', g, f0. split_and!; [|done| |].
  - intros fu Hfu. unfold AppendFrame. rewrite Hfst by done. simpl. rewrite HS. simpl. by rewrite HCp.
  - intros a Ha Hin. rewrite Hfr'.
    + apply Hfr1; [apply not_elem_of_nil|done].
    + intros (d & -> & Hdg)%list_elem_of_fmap. destruct Hcol as [E|Hfresh].
      * rewrite E in Hdg. apply Ha. by apply (list_elem_of_fmap_2 (λ d, arr d)).
      * rewrite Forall_forall in Hfresh. by apply (Hfresh d), Hin; apply list_elem_of_In.
    + apply elem_of_dom. apply elem_of_dom in Hin as [l Hin]. exists l.
      rewrite Hfr1; [done|apply not_elem_of_nil|by eapply elem_of_dom_2].
  - assert (∀ k d s, columns g !! k = Some d → columns src !! k = Some s →
      read_col m' g d (f_len g) = read_col m1 g d i0 ++ read_col m src s (f_len src)) as Hrd'.
    { intros k d s Hkd Hks. rewrite (Hrd k d s Hkd Hks). f_equal.
      apply frames_rule_read; [done|]. by eapply frame_ok_column. }
    destruct (IsZero dst).
    + subst i0. trans (zip_with (λ s _, s) (cols m src) (cols m src)).
      * apply cols_zip; [done..|]. intros k d s s' Hkd Hks _. by rewrite (Hrd' k d s).
      * generalize (cols m src). induction l as [|x l IH]; simpl; [done|]. by f_equal.
    + destruct Hold as (-> & Hln & Hold). apply cols_zip; [done|lia|].
      intros k d d' s Hkd Hkd' Hks. rewrite (Hrd' k d s Hkd Hks). f_equal. by eapply Hold.
Qed.

(** Copy copies min(len dst, len src) rows: the first rows of every
    destination column become those of the source, the others stay, the
    count is returned, and no other array changes; incompatible frames
    panic. *)
Theorem Copy_correct m dst src :
  frame_ok m dst → frame_ok m src → columns dst ≠ [] →
  independent (columns dst) (columns src) →
  let n := Z.min (f_len dst) (f_len src) in
  if Compatible dst src then
    ∃ m', Copy m dst src = Ret (m', n) ∧ frame_ok m' dst ∧
      frames_rule (arrs (columns dst)) m m' ∧
      cols m' dst = zip_with (λ s d, take (Z.to_nat n) s ++ drop (Z.to_nat n) d)
                      (cols m src) (cols m dst)
  else Copy m dst src = Panic "frame.Copy: incompatible frames".
Proof.
  intros Hd Hs Hne Hi n. destruct (Compatible dst src) eqn:HC; [|unfold Copy; by rewrite HC].
  destruct (Copy_spec m dst src) as (m' & HCp & _ & Hcols); [done..|].
  destruct (Copy_keeps _ _ _ _ _ HCp) as (Hf & Hl & Hdm).
  exists m'. split_and!; [done| |done|done].
  eapply frame_ok_same; [|exact Hdm|done]. intros; apply Hl.
Qed.

(** * Comparing and hashing rows *)

(** Lexicographic order by a list of comparisons. *)
Fixpoint lex (lts : list (V → V → bool)) (a b : list V) : bool :=
  match lts with
  | [] => false
  | lt :: lts =>
      let x := List.hd (zeroOf "") a in
      let y := List.hd (zeroOf "") b in
      if lt x y then true else if lt y x then false else lex lts (list.tail a) (list.tail b)
  end.

Lemma lex_StrictWeak lts : Forall (λ lt, StrictWeak lt) lts → StrictWeak (lex lts).
Proof.
  induction 1 as [|lt lts Hlt _ IH]; [by split|]. split.
  - intros a b. simpl. set (x := List.hd _ a). set (y := List.hd _ b).
    destruct (lt x y) eqn:E1; [by rewrite (sw_asym _ _ E1)|].
    destruct (lt y x) eqn:E2; [done|]. apply sw_asym.
  - intros a b c. simpl. set (x := List.hd _ a). set (y := List.hd _ b). set (z := List.hd _ c).
    destruct (lt y x) eqn:E1; [done|]. destruct (lt z y) eqn:E2.
    { intros _ [=]. }
    rewrite (sw_neg_trans (lt := lt) x y z E1 E2).
    destruct (lt x z) eqn:E3; [done|].
    rewrite (sw_neg_trans (lt := lt) y z x E2 E3), (sw_neg_trans (lt := lt) z x y E3 E1).
    intros. by eapply sw_neg_trans.
Qed.

(** The value of column [d] in row [i]. *)
Definition cell_val (m : mem) (f : Frame) (i : Z) (d : data) : V :=
  default (zeroOf (d_typ d)) (array m (d_val d) !! cell f d i).

(** The prefix columns, and their values in row [i]. *)
Definition prefix_columns (f : Frame) : list data := take (S (Z.to_nat (f_prefix f))) (columns f).
Definition key (m : mem) (f : Frame) (i : Z) : list V := cell_val m f i <$> prefix_columns f.

(** Column slices reach over the whole frame, as those of [Make] do; and the
    prefix is one of the columns. *)
Definition visible (f : Frame) : Prop :=
  Forall (λ d, f_off f + f_len f <= sl_len (d_val d))%Z (columns f) ∧
  (0 <= f_prefix f < Z.of_nat (length (columns f)))%Z.

Lemma val_index_cell m f d i :
  column_ok m f d → (f_off f + f_len f <= sl_len (d_val d))%Z → (0 <= f_off f)%Z →
  (0 <= i < f_len f)%Z → val_index m (d_val d) (i + f_off f) = Ret (cell_val m f i d).
Proof.
  intros [(Hb & Hc & Hl & Ha) _] Hv Ho Hi. unfold val_index, cell_val, cell.
  destruct (Z.leb_spec 0 (i + f_off f)), (Z.ltb_spec (i + f_off f) (sl_len (d_val d))); [|lia..].
  simpl. replace (sl_base (d_val d) + f_off f + i)%Z with (sl_base (d_val d) + (i + f_off f))%Z by lia.
  destruct (array m (d_val d) !! _) as [x|] eqn:E; [done|].
  apply lookup_ge_None in E. lia.
Qed.

Lemma Less_loop_spec m f i j k ds lts :
  Forall (column_ok m f) ds → Forall (λ d, f_off f + f_len f <= sl_len (d_val d))%Z ds →
  (0 <= f_off f)%Z → (0 <= i < f_len f)%Z → (0 <= j < f_len f)%Z → k < length ds →
  Forall2 (λ d lt, ops_Less (d_ops d) = Some lt) (take (S k) ds) lts →
  Less_loop m f k ds i j =
    Ret (lex lts (cell_val m f i <$> take (S k) ds) (cell_val m f j <$> take (S k) ds)).
Proof.
  intros HF HV Ho Hi Hj. revert ds lts HF HV.
  induction k as [|k IH]; intros [|d ds] lts HF HV Hk Hl; simpl in *; try lia.
  all: apply Forall_cons_iff in HF as [Hd HF]; apply Forall_cons_iff in HV as [Hv HV].
  all: destruct lts as [|lt lts]; [by inversion Hl|]; apply Forall2_cons_1 in Hl as [Hlt Hl].
  all: assert (∀ a b, (0 <= a < f_len f)%Z → (0 <= b < f_len f)%Z →
    less_col m f d a b = Ret (lt (cell_val m f a d) (cell_val m f b d))) as Hlc
    by (intros a b Ha Hb; unfold less_col; rewrite Hlt, !val_index_cell; done).
  - apply Forall2_nil_inv_l in Hl as ->. rewrite Hlc by done. simpl. f_equal.
    destruct (lt _ _); [done|]. by destruct (lt _ _).
  - rewrite !Hlc by done. simpl. case_match; [done|]. case_match; [done|].
    apply IH; [done..|lia|done].
Qed.

(** Less compares rows lexicographically by the prefix columns, each with
    its registered operator, through the frame's offset; when the operators
    are strict weak orders this comparison is one too, which is what sorting
    and the merge heap rely on. *)
Theorem Less_lexicographic m f lts :
  frame_ok m f → visible f →
  Forall2 (λ d lt, ops_Less (d_ops d) = Some lt) (prefix_columns f) lts →
  Forall (λ lt, StrictWeak lt) lts →
  (∀ i j, (0 <= i < f_len f)%Z → (0 <= j < f_len f)%Z →
     Less m f i j = Ret (lex lts (key m f i) (key m f j))) ∧
  StrictWeak (lex lts).
Proof.
  intros ((Ho & _) & HF & _) [HV Hp] Hl Hs. split; [|by apply lex_StrictWeak].
  intros i j Hi Hj. unfold Less. destruct (Z.ltb_spec (f_prefix f) 0); [lia|].
  apply Less_loop_spec; try done. lia.
Qed.

(** The hash of a list of prefix values. *)
Fixpoint hash_vals (hs : list (V → Z → Z)) (vs : list V) (seed acc : Z) : Z :=
  match hs, vs with
  | h :: hs, v :: vs => hash_vals hs vs seed (Z.lxor acc (h v seed))
  | _, _ => acc
  end.

Lemma Hash_loop_spec m f i k ds hs seed acc :
  Forall (column_ok m f) ds → Forall (λ d, f_off f + f_len f <= sl_len (d_val d))%Z ds →
  (0 <= f_off f)%Z → (0 <= i < f_len f)%Z → k < length ds →
  Forall2 (λ d h, ops_HashWithSeed (d_ops d) = Some h) (take (S k) ds) hs →
  Hash_loop m f k ds i seed acc =
    Ret (hash_vals hs (cell_val m f i <$> take (S k) ds) seed acc).
Proof.
  intros HF HV Ho Hi. revert ds hs acc HF HV.
  induction k as [|k IH]; intros [|d ds] hs acc HF HV Hk Hl; simpl in *; try lia.
  all: apply Forall_cons_iff in HF as [Hd HF]; apply Forall_cons_iff in HV as [Hv HV].
  all: destruct hs as [|h hs]; [by inversion Hl|]; apply Forall2_cons_1 in Hl as [Hlt Hl].
  all: unfold hash_col; rewrite Hlt, val_index_cell by done; simpl.
  - by apply Forall2_nil_inv_l in Hl as ->.
  - apply IH; [done..|lia|done].
Qed.

Lemma lxor_32 a b : (0 <= a < 2 ^ 32)%Z → (0 <= b < 2 ^ 32)%Z → (0 <= Z.lxor a b < 2 ^ 32)%Z.
Proof.
  intros Ha Hb. assert (0 <= Z.lxor a b)%Z by (apply Z.lxor_nonneg; lia). split; [done|].
  destruct (decide (Z.lxor a b = 0)%Z) as [->|Hn]; [done|].
  apply Z.log2_lt_cancel. rewrite Z.log2_pow2 by done.
  eapply Z.le_lt_trans; [apply Z.log2_lxor; lia|]. apply Z.max_lub_lt.
  all: destruct (decide (a = 0)%Z) as [->|], (decide (b = 0)%Z) as [->|]; try done;
    apply Z.log2_lt_pow2; lia.
Qed.

Lemma hash_vals_32 hs vs seed acc :
  Forall (λ h, ∀ v, 0 <= h v seed < 2 ^ 32)%Z hs → (0 <= acc < 2 ^ 32)%Z →
  (0 <= hash_vals hs vs seed acc < 2 ^ 32)%Z.
Proof.
  intros HF. revert vs acc. induction HF as [|h hs Hh _ IH]; intros vs acc Ha; [done|].
  destruct vs as [|v vs]; [done|]. simpl. by apply IH, lxor_32.
Qed.

(** HashWithSeed is a function of the key alone: it equals the exclusive
    or of the hashes of the prefix values, so rows with equal keys hash
    alike wherever they are stored (in which frame, at which offset), and it
    is a 32-bit value when the operators' hashes are. *)
Theorem HashWithSeed_of_key m f i seed hs :
  frame_ok m f → visible f → (0 <= i < f_len f)%Z →
  Forall2 (λ d h, ops_HashWithSeed (d_ops d) = Some h) (prefix_columns f) hs →
  Forall (λ h, ∀ v, 0 <= h v seed < 2 ^ 32)%Z hs →
  HashWithSeed m f i seed = Ret (hash_vals hs (key m f i) seed 0) ∧
  (0 <= hash_vals hs (key m f i) seed 0 < 2 ^ 32)%Z.
Proof.
  intros ((Ho & _) & HF & _) [HV Hp] Hi Hl Hh. split; [|by apply hash_vals_32].
  unfold HashWithSeed. destruct (Z.ltb_spec (f_prefix f) 0); [lia|].
  apply Hash_loop_spec; try done. lia.
Qed.

(** * Swapping rows *)

Lemma swap_val_spec m f d i j :
  column_ok m f d → f_off f = 0%Z → (f_len f <= f_cap f)%Z → (f_len f <= sl_len (d_val d))%Z →
  (0 <= i < f_len f)%Z → (0 <= j < f_len f)%Z →
  ∃ m', swap_val m (d_val d) i j = Ret m' ∧ frames_rule [arr d] m m' ∧
    (∀ a, a ∈ dom m → a ∈ dom m') ∧ (∀ v, length (array m' v) = length (array m v)) ∧
    read_col m' f d (f_len f) = list_swap (Z.to_nat i) (Z.to_nat j) (read_col m f d (f_len f)).
Proof.
  intros [(Hb & Hc & Hl & Ha) Hd] Ho Hcap Hv Hi Hj. unfold swap_val.
  destruct (Z.leb_spec 0 i), (Z.ltb_spec i (sl_len (d_val d))), (Z.leb_spec 0 j),
    (Z.ltb_spec j (sl_len (d_val d))); [|lia..]. simpl.
  eexists. split; [done|]. set (A := array m (d_val d)) in *. split_and!.
  - intros a Hna _. rewrite lookup_insert_ne; [done|].
    intros <-. by apply Hna, list_elem_of_singleton.
  - intros a Hin. rewrite dom_insert, elem_of_union. auto.
  - intros v. unfold array. destruct (decide (arr d = sl_arr v)) as [E|E].
    + rewrite E, lookup_insert_eq. simpl. rewrite length_list_swap. unfold A, array. by rewrite E.
    + by rewrite lookup_insert_ne.
  - unfold read_col at 1. unfold array. rewrite lookup_insert_eq. simpl.
    assert (length (read_col m f d (f_len f)) = Z.to_nat (f_len f)) as Hlr.
    { unfold read_col, cell. fold A. rewrite length_take, length_drop, Ho. lia. }
    apply list_eq. intros k. rewrite list_swap_lookup by lia.
    destruct (decide (k < Z.to_nat (f_len f))).
    + rewrite lookup_take_lt, lookup_drop by done. rewrite list_swap_lookup by lia.
      unfold read_col, cell. fold A. rewrite Ho.
      repeat case_decide; try lia; rewrite lookup_take_lt, lookup_drop by lia; f_equal; lia.
    + rewrite lookup_take_ge by lia. repeat case_decide; try lia.
      symmetry. apply lookup_ge_None. lia.
Qed.

Lemma Swap_columns_spec m f ds i j :
  f_off f = 0%Z → (f_len f <= f_cap f)%Z → (0 <= i < f_len f)%Z → (0 <= j < f_len f)%Z →
  Forall (column_ok m f) ds → Forall (λ d, f_len f <= sl_len (d_val d))%Z ds → NoDup (arrs ds) →
  ∃ m', Swap_columns m ds i j = Ret m' ∧ frames_rule (arrs ds) m m' ∧
    (λ d, read_col m' f d (f_len f)) <$> ds =
      (λ d, list_swap (Z.to_nat i) (Z.to_nat j) (read_col m f d (f_len f))) <$> ds.
Proof.
  intros Ho Hcap Hi Hj. revert m. induction ds as [|d ds IH]; intros m HF HV HN; [by exists m|].
  apply Forall_cons_iff in HF as [Hd HF], HV as [Hv HV].
  rewrite fmap_cons in HN. apply list.NoDup_cons in HN as [Hnin HN].
  destruct (swap_val_spec m f d i j) as (m1 & Hsw & Hf1 & Hdom1 & Hlen1 & Hrd); [done..|].
  destruct (IH m1) as (m' & HS & Hf' & Hcols); [|done|done|].
  { eapply Forall_impl; [|exact HF]. intros d' [(? & ? & ? & ?) ?]. split; [|auto].
    by rewrite Hlen1. }
  exists m'. rewrite !fmap_cons. split_and!.
  - simpl. by rewrite Hsw.
  - intros a [Ha1 Ha2]%not_elem_of_cons Ha. rewrite Hf' by auto. apply Hf1; [|done].
    by rewrite list_elem_of_singleton.
  - f_equal.
    + rewrite <-Hrd. unfold read_col, array. rewrite Hf'; [done|done|]. apply Hdom1, Hd.
    + etrans; [exact Hcols|]. apply list_fmap_ext. intros k d' Hk. f_equal.
      unfold read_col, array. rewrite Hf1; [done| |].
      * rewrite list_elem_of_singleton. intros E. apply Hnin. rewrite <-E.
        apply (list_elem_of_fmap_2 (λ d, arr d)). by eapply list_elem_of_lookup_2.
      * rewrite Forall_lookup in HF. by apply (HF k d').
Qed.

(** On a frame that is not offset into its columns, Swap exchanges rows
    [i] and [j] in every column and changes nothing else. *)
Theorem Swap_correct m f i j :
  frame_ok m f → visible f → f_off f = 0%Z →
  (0 <= i < f_len f)%Z → (0 <= j < f_len f)%Z →
  ∃ m', Swap m f i j = Ret m' ∧ frames_rule (arrs (columns f)) m m' ∧
    cols m' f = list_swap (Z.to_nat i) (Z.to_nat j) <$> cols m f.
Proof.
  intros ((_ & _ & Hcap) & HF & HN) [HV _] Ho Hi Hj. unfold Swap. rewrite Ho, !Z.sub_0_r.
  destruct (Swap_columns_spec m f (columns f) i j) as (m' & HS & Hf & Hc); [done..| |done|].
  { eapply Forall_impl; [|exact HV]. simpl. intros. lia. }
  exists m'. split_and!; [done..|]. unfold cols. rewrite Hc, <-list_fmap_compose. done.
Qed.

(** Swap subtracts the offset instead of adding it: on every frame with
    columns and a positive offset (any proper slice f[o:]), swapping a row
    below the offset panics, although the row is in the frame. *)
Theorem Swap_offset_panics m f i j :
  columns f ≠ [] → (0 <= i < f_off f)%Z →
  Swap m f i j = Panic "reflect: slice index out of range".
Proof.
  intros Hne Hi. unfold Swap. destruct (columns f) as [|d ds]; [done|]. simpl.
  unfold swap_val. by destruct (Z.leb_spec 0 (i - f_off f)); [lia|].
Qed.

(** Value returns a column shorter than the frame when a frame built over
    a Go slice with spare capacity is extended to exactly that capacity: the
    shortcut for offset 0 and full length returns the original slice, whose
    length is still the old one. *)
Theorem Value_stale_length reg typ v ops f g :
  makeSliceOps reg typ = Ret ops → (0 <= sl_len v < sl_cap v)%Z →
  Slices reg [Some (typ, v)] = Ret f → Slice f 0 (Cap f) = Ret g →
  Len g = sl_cap v ∧ Value g 0 = Ret v ∧ (sl_len v < Len g)%Z.
Proof.
  intros Hops Hv. unfold Slices. simpl. unfold newData. rewrite Hops. simpl.
  intros [= <-]. unfold Slice, Cap. simpl.
  destruct (Z.ltb_spec (sl_cap v) 0), (Z.ltb_spec (sl_cap v) (sl_cap v)); try lia. simpl.
  intros [= <-]. unfold Len, Value. simpl. rewrite Z.sub_0_r, Z.eqb_refl. simpl. split_and!; [done..|lia].
Qed.
End frame.
