(* ===== verification/Zero.v ===== *)
(** Package zero (src/internal/zero/zero.go): zeroing of memory by type.

    Memory is a list of bytes; types have the sizes of the 64-bit platforms.  A function is
    chosen by the type and kept in a cache. *)
From S2P Require Import Prelude.

(** * Types *)

Inductive valueKind :=
| kBool | kInt | kInt8 | kInt16 | kInt32 | kInt64 | kUint | kUint8 | kUint16 | kUint32 | kUint64 | kUintptr | kFloat32 | kFloat64 | kComplex64 | kComplex128.

#[export] Instance valueKind_eq_dec : EqDecision valueKind.
Proof. solve_decision. Defined.

(** [gOther] are maps, channels, funcs and interfaces. *)
#[warnings="-register-all"]
Inductive gtype :=
| gValue (k : valueKind) | gString | gSlice (elem : gtype) | gPtr (elem : gtype)
| gArray (len : nat) (elem : gtype) | gStruct (fields : list gtype) | gOther (words : nat).

#[export] Instance gtype_eq_dec : EqDecision gtype.
Proof.
  refine (fix go (a b : gtype) : Decision (a = b) :=
    match a, b with
    | gValue k, gValue l => cast_if (decide (k = l))
    | gString, gString => left eq_refl
    | gSlice a, gSlice b => cast_if (go a b)
    | gPtr a, gPtr b => cast_if (go a b)
    | gArray m a, gArray n b => cast_if_and (decide (m = n)) (go a b)
    | gStruct l, gStruct l' =>
        cast_if ((fix gos (l l' : list gtype) : Decision (l = l') :=
           match l, l' with
           | [], [] => left eq_refl
           | x :: l, y :: l' => cast_if_and (go x y) (gos l l')
           | _, _ => right _
           end) l l')
    | gOther m, gOther n => cast_if (decide (m = n))
    | _, _ => right _
    end); clear go; try clear gos; congruence.
Defined.

Definition kind_size (k : valueKind) : nat :=
  match k with
  | kBool | kInt8 | kUint8 => 1
  | kInt16 | kUint16 => 2
  | kInt32 | kUint32 | kFloat32 => 4
  | kInt | kInt64 | kUint | kUint64 | kUintptr | kFloat64 | kComplex64 => 8
  | kComplex128 => 16
  end.
Definition kind_align (k : valueKind) : nat :=
  match k with kComplex64 => 4 | kComplex128 => 8 | k => kind_size k end.

Definition round_up (n a : nat) : nat := (n + a - 1) / a * a.

Fixpoint Align (t : gtype) : nat :=
  match t with
  | gValue k => kind_align k
  | gString | gSlice _ | gPtr _ | gOther _ => 8
  | gArray _ elem => Align elem
  | gStruct fields => foldr (λ t a, Align t `max` a) 1 fields
  end.

(** Fields follow each other at multiples of their alignment. *)
Fixpoint Size (t : gtype) : nat :=
  match t with
  | gValue k => kind_size k
  | gString => 16
  | gSlice _ => 24
  | gPtr _ => 8
  | gArray len elem => len * Size elem
  | gStruct fields => round_up (foldl (λ off x, round_up off x.2 + x.1) 0 ((λ t, (Size t, Align t)) <$> fields)) (foldr (λ t a, Align t `max` a) 1 fields)
  | gOther words => 8 * words
  end.

Fixpoint isValueType (t : gtype) : bool :=
  match t with
  | gValue _ => true
  | gArray _ elem => isValueType elem
  | gStruct fields => forallb isValueType fields
  | _ => false
  end.

(** * Zeroing *)

Abbreviation memory := (list Z).

(** A store of [w] zero bytes at an address. *)
Definition store_zero (w addr : nat) (m : memory) : memory := list_inserts addr (replicate w 0%Z) m.

(** The loop over the elements of a slice of [n] elements of [w] bytes at [ptr]. *)
Fixpoint zero_loop (w ptr n : nat) (m : memory) : memory :=
  match n with
  | 0 => m
  | S n => zero_loop w (ptr + w) n (store_zero w ptr m)
  end.

(** The three words of a slice header are stored one by one. *)
Fixpoint zero_headers (ptr n : nat) (m : memory) : memory :=
  match n with
  | 0 => m
  | S n => zero_headers (ptr + 24) n (store_zero 8 (ptr + 16) (store_zero 8 (ptr + 8) (store_zero 8 ptr m)))
  end.

Definition sliceValue (elem : gtype) (ptr n : nat) (m : memory) : memory :=
  let size := Size elem in
  if size =? 8 then zero_loop 8 ptr n m
  else if size =? 4 then zero_loop 4 ptr n m
  else if size =? 2 then zero_loop 2 ptr n m
  else if size =? 1 then zero_loop 1 ptr n m
  else zero_loop 1 ptr (size * n) m.

(** The last case sets elements by reflection. *)
Definition slice (elem : gtype) : nat → nat → memory → memory :=
  if isValueType elem then sliceValue elem
  else
    match elem with
    | gString => zero_loop 16
    | gSlice _ => zero_headers
    | gPtr _ => zero_loop 8
    | _ => zero_loop (Size elem)
    end.

(** The functions in the cache, by type. *)
Abbreviation cache := (list (gtype * (nat → nat → memory → memory))).

Fixpoint cache_load (t : gtype) (c : cache) : option (nat → nat → memory → memory) :=
  match c with
  | [] => None
  | (u, z) :: c => if bool_decide (u = t) then Some z else cache_load t c
  end.

Definition Unsafe (t : gtype) (ptr n : nat) (c : cache) (m : memory) : cache * memory :=
  match cache_load t c with
  | Some z => (c, z ptr n m)
  | None => (c ++ [(t, slice t)], slice t ptr n m)
  end.

(** A value: a slice, of which the element type, the address and the length are given, or
    something else. *)
Definition SliceValue (v : option (gtype * nat * nat)) (c : cache) (m : memory) : outcome (cache * memory) :=
  match v with
  | None => Panic "zero.Slice: called on non-slice value"
  | Some (elem, ptr, len) => Ret (Unsafe elem ptr len c m)
  end.

(** * Correctness *)

Lemma store_lookup w p m i : store_zero w p m !! i = if decide (p ≤ i < p + w) then (λ _, 0%Z) <$> m !! i else m !! i.
Proof.
  unfold store_zero. revert p. induction w as [|w IH]; intros p; [rewrite decide_False by lia; done|]. cbn [replicate list_inserts].
  destruct (decide (i = p)) as [->|Hne].
  - rewrite decide_True by lia. destruct (m !! p) as [x|] eqn:Hm.
    + rewrite list_lookup_insert_eq; [done|]. rewrite length_inserts. by eapply lookup_lt_Some.
    + cbn. rewrite lookup_ge_None in Hm |- *. rewrite length_insert, length_inserts. done.
  - rewrite list_lookup_insert_ne by done. rewrite IH. repeat case_decide; try done; lia.
Qed.

Lemma store_store a b p m : store_zero b (p + a) (store_zero a p m) = store_zero (a + b) p m.
Proof.
  apply list_eq. intros i. rewrite !store_lookup. destruct (m !! i); repeat case_decide; try done; lia.
Qed.

Lemma zero_loop_spec w ptr n m : zero_loop w ptr n m = store_zero (n * w) ptr m.
Proof. revert ptr m. induction n as [|n IH]; intros ptr m; [done|]. cbn [zero_loop]. rewrite IH, store_store. f_equal. Qed.

Lemma zero_headers_spec ptr n m : zero_headers ptr n m = store_zero (n * 24) ptr m.
Proof.
  revert ptr m. induction n as [|n IH]; intros ptr m; [done|]. cbn [zero_headers]. rewrite store_store, IH.
  rewrite (store_store 16 8 ptr), store_store. f_equal.
Qed.

(** Every function that slice chooses zeroes exactly the bytes of the elements. *)
Lemma slice_spec elem ptr n m : slice elem ptr n m = store_zero (n * Size elem) ptr m.
Proof.
  unfold slice. destruct (isValueType elem) eqn:Hv.
  - unfold sliceValue. destruct (Nat.eqb_spec (Size elem) 8) as [->|]; [apply zero_loop_spec|]. destruct (Nat.eqb_spec (Size elem) 4) as [->|]; [apply zero_loop_spec|].
    destruct (Nat.eqb_spec (Size elem) 2) as [->|]; [apply zero_loop_spec|]. destruct (Nat.eqb_spec (Size elem) 1) as [->|]; [apply zero_loop_spec|].
    rewrite zero_loop_spec. f_equal. lia.
  - destruct elem; try done; first [apply zero_loop_spec|apply zero_headers_spec].
Qed.

(** Cached functions are those of their types. *)
Definition cache_ok (c : cache) : Prop := ∀ t z, cache_load t c = Some z → z = slice t.

Lemma cache_ok_nil : cache_ok [].
Proof. done. Qed.

Lemma cache_ok_store t c : cache_ok c → cache_load t c = None → cache_ok (c ++ [(t, slice t)]).
Proof.
  intros Hc _ t' z Hz. assert (cache_load t' c = Some z ∨ (t = t' ∧ z = slice t)) as [|[<- ->]]; [|by apply Hc|done].
  clear Hc. induction c as [|[u z'] c IH]; cbn [app cache_load] in *; case_bool_decide; [right; by injection Hz as <-|done|by left|by apply IH].
Qed.

(** Zeroing a slice, whatever its element type and whatever was zeroed before: its bytes are
    zero, and no other byte changes. *)
Theorem zero_correct elem ptr n c m :
  cache_ok c → ∃ c' m', SliceValue (Some (elem, ptr, n)) c m = Ret (c', m') ∧ cache_ok c' ∧ length m' = length m ∧
    ∀ i, m' !! i = if decide (ptr ≤ i < ptr + n * Size elem) then (λ _, 0%Z) <$> m !! i else m !! i.
Proof.
  intros Hc. unfold SliceValue, Unsafe. assert (length (store_zero (n * Size elem) ptr m) = length m) as Hl by (unfold store_zero; by rewrite length_inserts).
  destruct (cache_load elem c) as [z|] eqn:Hz.
  - eexists _, _. split; [done|]. rewrite (Hc _ _ Hz), slice_spec. split_and!; [done..|]. intros i. apply store_lookup.
  - eexists _, _. split; [done|]. rewrite slice_spec. split_and!; [by apply cache_ok_store|done|]. intros i. apply store_lookup.
Qed.

(** A struct of an int8, a pair of int16 and a float64 takes 16 bytes; with a string it is
    not a value type. *)
Example zero_struct :
  Size (gStruct [gValue kInt8; gArray 2 (gValue kInt16); gValue kFloat64]) = 16 ∧
  isValueType (gStruct [gValue kInt8; gString]) = false ∧
  snd (Unsafe (gStruct [gValue kInt8; gValue kInt16]) 1 2 [] [7; 7; 7; 7; 7; 7; 7; 7; 7; 7]%Z) = [7; 0; 0; 0; 0; 0; 0; 0; 0; 7]%Z.
Proof. done. Qed.
