(* ===== verification/Builtins.v ===== *)
(** Operators of builtin types (src/frame/ops_builtin.go and the init function of
    src/frame/ops.go): how the columns of a key are compared and hashed.

    Integers are kept at their width; a float is given by its IEEE 754 bits; a string is its
    bytes.  murmur3 is a parameter. *)
From S2P Require Import Prelude Heap Frame.

(** * Values *)

Inductive value := VInt (z : Z) | VFloat (bits : Z) | VBytes (bs : list Z) | VBool (b : bool) | VUnit.

(** The elements of a typed slice. *)
Definition as_int (v : value) : Z := match v with VInt z => z | _ => 0 end.
Definition as_bits (v : value) : Z := match v with VFloat b => b | _ => 0 end.
Definition as_bytes (v : value) : list Z := match v with VBytes bs => bs | _ => [] end.
Definition as_bool (v : value) : bool := match v with VBool b => b | _ => false end.

Definition ranges : list (string * (Z * Z)) :=
  [("uint", (0, 2 ^ 64)); ("uint8", (0, 2 ^ 8)); ("uint16", (0, 2 ^ 16)); ("uint32", (0, 2 ^ 32)); ("uint64", (0, 2 ^ 64));
   ("int", (- 2 ^ 63, 2 ^ 63)); ("int8", (- 2 ^ 7, 2 ^ 7)); ("int16", (- 2 ^ 15, 2 ^ 15)); ("int32", (- 2 ^ 31, 2 ^ 31));
   ("int64", (- 2 ^ 63, 2 ^ 63)); ("uintptr", (0, 2 ^ 64))]%Z.

(** * Comparison *)

(** The order of floats with [w] bits, [mant] of them in the mantissa; NaN has none. *)
Definition float_order (w mant bits : Z) : option Z :=
  let sign := (2 ^ (w - 1) <=? bits)%Z in
  let mag := (if sign then bits - 2 ^ (w - 1) else bits)%Z in
  if (2 ^ (w - 1) - 2 ^ mant <? mag)%Z then None else Some (if sign then - mag else mag)%Z.

Definition float_less (w mant a b : Z) : bool :=
  match float_order w mant a, float_order w mant b with Some x, Some y => (x <? y)%Z | _, _ => false end.

(** The order of strings, and bytes.Compare(a, b) < 0. *)
Fixpoint bytes_less (a b : list Z) : bool :=
  match a, b with
  | x :: a, y :: b => if (x <? y)%Z then true else if (y <? x)%Z then false else bytes_less a b
  | [], _ :: _ => true
  | _, [] => false
  end.

(** * Hashes *)

Section builtins.
(** murmur3.Sum32WithSeed *)
Context (Sum32WithSeed : list Z → Z → Z).

Definition byte (x : Z) : Z := (x mod 2 ^ 8)%Z.

Definition hash32 (x seed : Z) : Z :=
  Sum32WithSeed [byte x; byte (Z.shiftr x 8); byte (Z.shiftr x 16); byte (Z.shiftr x 24)] seed.
Definition hash64 (x seed : Z) : Z :=
  Sum32WithSeed [byte x; byte (Z.shiftr x 8); byte (Z.shiftr x 16); byte (Z.shiftr x 24);
                 byte (Z.shiftr x 32); byte (Z.shiftr x 40); byte (Z.shiftr x 48); byte (Z.shiftr x 56)] seed.

Definition bytes_hash (v : value) (seed : Z) : Z := Sum32WithSeed (as_bytes v) seed.
(** uint32(x) and uint64(x) extend the sign. *)
Definition int_hash32 (v : value) (seed : Z) : Z := hash32 (as_int v mod 2 ^ 32) seed.
Definition int_hash64 (v : value) (seed : Z) : Z := hash64 (as_int v mod 2 ^ 64) seed.
Definition bool_hash (v : value) (seed : Z) : Z := if as_bool v then ((seed + 1) mod 2 ^ 32)%Z else seed.

Definition ops (less : value → value → bool) (hash : value → Z → Z) : Ops := mkOps (Some less) (Some hash) false false.
Definition int_less (a b : value) : bool := (as_int a <? as_int b)%Z.

(** The registrations of ops_builtin.go. *)
Definition builtin_ops : list (string * Ops) :=
  [("string", ops (λ a b, bytes_less (as_bytes a) (as_bytes b)) bytes_hash);
   ("uint", ops int_less int_hash64);
   ("uint8", ops int_less int_hash32);
   ("uint16", ops int_less int_hash32);
   ("uint32", ops int_less int_hash32);
   ("uint64", ops int_less int_hash64);
   ("int", ops int_less int_hash64);
   ("int8", ops int_less int_hash32);
   ("int16", ops int_less int_hash32);
   ("int32", ops int_less int_hash32);
   ("int64", ops int_less int_hash64);
   ("float32", ops (λ a b, float_less 32 23 (as_bits a) (as_bits b)) (λ a, hash32 (as_bits a)));
   ("float64", ops (λ a b, float_less 64 52 (as_bits a) (as_bits b)) (λ a, hash64 (as_bits a)));
   ("uintptr", ops int_less int_hash64)].

(** The registrations of ops.go. *)
Definition other_ops : list (string * Ops) :=
  [("[]uint8", ops (λ a b, bytes_less (as_bytes a) (as_bytes b)) bytes_hash);
   ("bool", ops (λ a b, negb (as_bool a) && as_bool b) bool_hash);
   ("struct {}", ops (λ a b, false) (λ a seed, seed))].

Fixpoint register_all (calls : list (string * Ops)) (reg : gmap string (@Ops value)) : outcome (gmap string (@Ops value)) :=
  match calls with
  | [] => Ret reg
  | (t, o) :: calls => reg ← RegisterOps reg t (Some o); register_all calls reg
  end.

(** The init functions of the package, in the order of its files. *)
Definition init : outcome (gmap string (@Ops value)) :=
  reg ← register_all other_ops ∅; register_all builtin_ops reg.

Definition calls : list (string * Ops) := other_ops ++ builtin_ops.
End builtins.

Definition builtin_types : list string :=
  ["[]uint8"; "bool"; "struct {}"; "string"; "uint"; "uint8"; "uint16"; "uint32"; "uint64"; "int"; "int8"; "int16"; "int32"; "int64";
   "float32"; "float64"; "uintptr"].

Definition zero_value (t : string) : value :=
  if bool_decide (t = "bool") then VBool false else if bool_decide (t = "struct {}") then VUnit
  else if bool_decide (t ∈ ["string"; "[]uint8"]) then VBytes []
  else if bool_decide (t ∈ ["float32"; "float64"]) then VFloat 0 else VInt 0.

(** A float that can be a key: neither NaN nor a negative zero. *)
Definition plain_float (w mant bits : Z) : Prop :=
  (0 <= bits < 2 ^ w)%Z ∧ bits ≠ (2 ^ (w - 1))%Z ∧ is_Some (float_order w mant bits).

(** Values of a type that are keys. *)
Definition key_of_type (t : string) (v : value) : Prop :=
  match v with
  | VInt z => ∃ lo hi, (t, (lo, hi)) ∈ ranges ∧ (lo <= z < hi)%Z
  | VFloat b => (t = "float32" ∧ plain_float 32 23 b) ∨ (t = "float64" ∧ plain_float 64 52 b)
  | VBytes bs => t = "string" ∨ t = "[]uint8"
  | VBool _ => t = "bool"
  | VUnit => t = "struct {}"
  end.

(** * Orders *)

Lemma pull_weak {A} (f : A → Z) : StrictWeak (λ a b, f a <? f b)%Z.
Proof. split; intros; lia. Qed.

Lemma bytes_less_weak : StrictWeak bytes_less.
Proof.
  split.
  - induction a as [|x a IH]; intros [|y b]; simpl; [done..|]. destruct (Z.ltb_spec x y), (Z.ltb_spec y x); try done; [lia|]. apply IH.
  - induction a as [|x a IH]; intros [|y b] [|z c]; simpl; try done.
    destruct (Z.ltb_spec y x), (Z.ltb_spec x y), (Z.ltb_spec z y), (Z.ltb_spec y z), (Z.ltb_spec z x), (Z.ltb_spec x z); try done; try lia. apply IH.
Qed.

Lemma bytes_less_total a b : bytes_less a b = false → bytes_less b a = false → a = b.
Proof.
  revert b. induction a as [|x a IH]; intros [|y b]; simpl; [done..|]. destruct (Z.ltb_spec x y), (Z.ltb_spec y x); try done.
  intros. replace y with x by lia. f_equal. by apply IH.
Qed.

Lemma pullback_weak {A B} (f : A → B) (lt : B → B → bool) : StrictWeak lt → StrictWeak (λ a b, lt (f a) (f b)).
Proof. intros Hw. split; [intros ? ?; apply sw_asym|intros ? ? ?; apply sw_neg_trans]. Qed.

Lemma float_order_inj w mant a b k :
  (0 <= mant < w - 1)%Z → plain_float w mant a → plain_float w mant b → float_order w mant a = Some k → float_order w mant b = Some k → a = b.
Proof.
  intros Hw (Ha & Hna & _) (Hb & Hnb & _). unfold float_order. assert (2 ^ w = 2 * 2 ^ (w - 1))%Z as Hp by (rewrite <-Z.pow_succ_r by lia; f_equal; lia).
  rewrite Hp in *. set (p := (2 ^ (w - 1))%Z) in *. destruct (Z.leb_spec p a), (Z.leb_spec p b); cbv zeta;
    repeat (destruct (_ <? _)%Z; [done|]); intros [= <-] [= ?]; lia.
Qed.

(** * Bytes *)

Fixpoint le_bytes (n : nat) (x : Z) : list Z := match n with 0 => [] | S n => byte x :: le_bytes n (x / 2 ^ 8) end.

Lemma le_bytes_inj n x y : (0 <= x < 2 ^ (8 * Z.of_nat n))%Z → (0 <= y < 2 ^ (8 * Z.of_nat n))%Z → le_bytes n x = le_bytes n y → x = y.
Proof.
  revert x y. induction n as [|n IH]; intros x y Hx Hy; [simpl in *; lia|]. cbn [le_bytes]. intros [= Hb Hr].
  assert (2 ^ (8 * Z.of_nat (S n)) = 2 ^ 8 * 2 ^ (8 * Z.of_nat n))%Z as Hp by (rewrite <-Z.pow_add_r by lia; f_equal; lia). rewrite Hp in *.
  apply IH in Hr; [|split; [by apply Z.div_pos; lia|by apply Z.div_lt_upper_bound; lia]..].
  unfold byte in Hb. rewrite (Z.div_mod x (2 ^ 8)), (Z.div_mod y (2 ^ 8)) by done. by rewrite Hb, Hr.
Qed.

Section hashes.
Context (Sum32WithSeed : list Z → Z → Z).

Lemma hash32_bytes x seed : hash32 Sum32WithSeed x seed = Sum32WithSeed (le_bytes 4 x) seed.
Proof. unfold hash32. cbn [le_bytes]. rewrite !Z.shiftr_div_pow2, !Z.div_div by done. done. Qed.

Lemma hash64_bytes x seed : hash64 Sum32WithSeed x seed = Sum32WithSeed (le_bytes 8 x) seed.
Proof. unfold hash64. cbn [le_bytes]. rewrite !Z.shiftr_div_pow2, !Z.div_div by done. done. Qed.
End hashes.

(** * Types *)

Section types.
Context (Sum32WithSeed : list Z → Z → Z) (SUM : ∀ bs seed, (0 <= Sum32WithSeed bs seed < 2 ^ 32)%Z).
#[local] Abbreviation calls := (calls Sum32WithSeed).

(** The comparison of a type orders its keys, its hashes have 32 bits, and what is hashed
    determines the key. *)
Record type_ok (t : string) (less : value → value → bool) (hash : value → Z → Z) : Prop := {
  tk_order : ∃ lt, StrictWeak lt ∧ ∀ a b, key_of_type t a → key_of_type t b →
    less a b = lt a b ∧ (lt a b = false → lt b a = false → a = b);
  tk_hash : ∀ seed v, (0 <= seed < 2 ^ 32)%Z → (0 <= hash v seed < 2 ^ 32)%Z;
  tk_bytes : t ∉ ["bool"; "struct {}"] → ∃ enc, (∀ v seed, hash v seed = Sum32WithSeed (enc v) seed) ∧
    ∀ a b, key_of_type t a → key_of_type t b → enc a = enc b → a = b;
}.

Lemma no_int t lo hi : (t, (lo, hi)) ∈ ranges → t ∉ ["string"; "[]uint8"; "float32"; "float64"; "bool"; "struct {}"].
Proof.
  intros Hin%(list_elem_of_fmap_2 fst). cbn [fst] in Hin. revert t Hin. apply list.Forall_forall. apply (bool_decide_unpack _). vm_compute. exact I.
Qed.

Lemma int_keys t lo hi v : (t, (lo, hi)) ∈ ranges → key_of_type t v → ∃ z, v = VInt z ∧ (lo <= z < hi)%Z.
Proof.
  intros Hin Hv. pose proof (no_int _ _ _ Hin) as Ht. rewrite !not_elem_of_cons in Ht.
  destruct v as [z|b|bs|b|]; [|exfalso; simpl in Hv; naive_solver..]. destruct Hv as (lo' & hi' & Hin' & Hz). exists z. split; [done|].
  assert ((lo', hi') = (lo, hi)) as [= -> ->]; [|done].
  assert (NoDup ranges.*1) as Hnd by (apply (bool_decide_unpack _); vm_compute; exact I).
  apply list_elem_of_lookup in Hin as [i Hi], Hin' as [j Hj].
  assert (i = j) as -> by (eapply (NoDup_lookup _ _ _ t Hnd); rewrite list_lookup_fmap; by rewrite ?Hi, ?Hj). congruence.
Qed.

Lemma int_hash_bytes (n : nat) lo hi a b :
  (hi - lo <= 2 ^ (8 * Z.of_nat n))%Z → (lo <= a < hi)%Z → (lo <= b < hi)%Z →
  le_bytes n (a mod 2 ^ (8 * Z.of_nat n)) = le_bytes n (b mod 2 ^ (8 * Z.of_nat n)) → a = b.
Proof.
  intros Hr Ha Hb He. set (p := (2 ^ (8 * Z.of_nat n))%Z) in *. assert (0 < p)%Z by (apply Z.pow_pos_nonneg; lia).
  apply le_bytes_inj in He; [|by apply Z.mod_pos_bound..]. assert (a - b = p * (a / p - b / p))%Z as Hd.
  { rewrite (Z.div_mod a p), (Z.div_mod b p) at 1 by lia. lia. }
  assert (a / p - b / p = 0)%Z; [|lia]. assert (- p < p * (a / p - b / p) < p)%Z by lia. nia.
Qed.

Lemma int_less_ok t lo hi : (t, (lo, hi)) ∈ ranges →
  ∃ lt, StrictWeak lt ∧ ∀ a b, key_of_type t a → key_of_type t b → int_less a b = lt a b ∧ (lt a b = false → lt b a = false → a = b).
Proof.
  intros Hin. exists int_less. split; [apply pull_weak|]. intros a b Ha Hb. split; [done|].
  destruct (int_keys _ _ _ _ Hin Ha) as (x & -> & _), (int_keys _ _ _ _ Hin Hb) as (y & -> & _). unfold int_less. simpl. intros. f_equal. lia.
Qed.

Lemma int32_ok t lo hi : (t, (lo, hi)) ∈ ranges → (hi - lo <= 2 ^ 32)%Z → type_ok t int_less (int_hash32 Sum32WithSeed).
Proof.
  intros Hin Hr. split; [by eapply int_less_ok|intros; apply SUM|]. intros _. exists (λ v, le_bytes 4 (as_int v mod 2 ^ 32)).
  split; [intros; apply hash32_bytes|]. intros a b Ha Hb He.
  destruct (int_keys _ _ _ _ Hin Ha) as (x & -> & Hx), (int_keys _ _ _ _ Hin Hb) as (y & -> & Hy). f_equal. by eapply (int_hash_bytes 4).
Qed.

Lemma int64_ok t lo hi : (t, (lo, hi)) ∈ ranges → (hi - lo <= 2 ^ 64)%Z → type_ok t int_less (int_hash64 Sum32WithSeed).
Proof.
  intros Hin Hr. split; [by eapply int_less_ok|intros; apply SUM|]. intros _. exists (λ v, le_bytes 8 (as_int v mod 2 ^ 64)).
  split; [intros; apply hash64_bytes|]. intros a b Ha Hb He.
  destruct (int_keys _ _ _ _ Hin Ha) as (x & -> & Hx), (int_keys _ _ _ _ Hin Hb) as (y & -> & Hy). f_equal. by eapply (int_hash_bytes 8).
Qed.

Lemma bytes_ok t : t ∈ ["string"; "[]uint8"] → type_ok t (λ a b, bytes_less (as_bytes a) (as_bytes b)) (bytes_hash Sum32WithSeed).
Proof.
  intros Ht. assert (∀ v, key_of_type t v → v = VBytes (as_bytes v)) as Hv.
  { rewrite !elem_of_cons, elem_of_nil in Ht. intros [z|b|bs|b|] Hk; try done; simpl in Hk; [|naive_solver..].
    destruct Hk as (lo & hi & Hin%no_int & _). rewrite !not_elem_of_cons in Hin. naive_solver. }
  split; [|intros; apply SUM|].
  - eexists. split; [apply (pullback_weak as_bytes), bytes_less_weak|]. intros a b Ha%Hv Hb%Hv. split; [done|]. intros. rewrite Ha, Hb. f_equal. by apply bytes_less_total.
  - intros _. exists as_bytes. split; [done|]. intros a b Ha%Hv Hb%Hv Heq. by rewrite Ha, Hb, Heq.
Qed.

Lemma float_keys t w mant v :
  (t, w, mant) ∈ [("float32", 32, 23); ("float64", 64, 52)]%Z → key_of_type t v → v = VFloat (as_bits v) ∧ plain_float w mant (as_bits v).
Proof.
  intros Ht Hk. rewrite !elem_of_cons, elem_of_nil in Ht.
  destruct v as [z|b|bs|b|]; simpl in Hk.
  - destruct Hk as (lo & hi & Hin%no_int & _). rewrite !not_elem_of_cons in Hin. naive_solver.
  - split; [done|]. naive_solver.
  - naive_solver.
  - naive_solver.
  - naive_solver.
Qed.

Lemma float_less_ok t w mant :
  (t, w, mant) ∈ [("float32", 32, 23); ("float64", 64, 52)]%Z →
  ∃ lt, StrictWeak lt ∧ ∀ a b, key_of_type t a → key_of_type t b →
    float_less w mant (as_bits a) (as_bits b) = lt a b ∧ (lt a b = false → lt b a = false → a = b).
Proof.
  intros Ht. exists (λ a b, default 0 (float_order w mant (as_bits a)) <? default 0 (float_order w mant (as_bits b)))%Z. split; [apply pull_weak|].
  intros a b Ha Hb. destruct (float_keys _ _ _ _ Ht Ha) as [Ea Pa], (float_keys _ _ _ _ Ht Hb) as [Eb Pb]. unfold float_less.
  destruct Pa as (? & ? & x & Hx) eqn:EPa, Pb as (? & ? & y & Hy) eqn:EPb. rewrite Hx, Hy. cbn [from_option id]. split; [done|]. intros.
  rewrite Ea, Eb. f_equal. eapply (float_order_inj w mant _ _ x); [|done..|by replace x with y by lia].
  rewrite !elem_of_cons, elem_of_nil in Ht. destruct Ht as [[= -> -> ->]|[[= -> -> ->]|[]]]; lia.
Qed.

Lemma float32_ok : type_ok "float32" (λ a b, float_less 32 23 (as_bits a) (as_bits b)) (λ a, hash32 Sum32WithSeed (as_bits a)).
Proof.
  assert (("float32", 32, 23)%Z ∈ [("float32", 32, 23); ("float64", 64, 52)]%Z) as Ht by (left).
  split; [by apply float_less_ok|intros; apply SUM|]. intros _. exists (λ v, le_bytes 4 (as_bits v)). split; [intros; apply hash32_bytes|].
  intros a b Ha Hb He. destruct (float_keys _ _ _ _ Ht Ha) as [-> (? & _)], (float_keys _ _ _ _ Ht Hb) as [-> (? & _)]. f_equal. by apply (le_bytes_inj 4).
Qed.

Lemma float64_ok : type_ok "float64" (λ a b, float_less 64 52 (as_bits a) (as_bits b)) (λ a, hash64 Sum32WithSeed (as_bits a)).
Proof.
  assert (("float64", 64, 52)%Z ∈ [("float32", 32, 23); ("float64", 64, 52)]%Z) as Ht by (right; left).
  split; [by apply float_less_ok|intros; apply SUM|]. intros _. exists (λ v, le_bytes 8 (as_bits v)). split; [intros; apply hash64_bytes|].
  intros a b Ha Hb He. destruct (float_keys _ _ _ _ Ht Ha) as [-> (? & _)], (float_keys _ _ _ _ Ht Hb) as [-> (? & _)]. f_equal. by apply (le_bytes_inj 8).
Qed.

Lemma bool_ok : type_ok "bool" (λ a b, negb (as_bool a) && as_bool b) bool_hash.
Proof.
  split.
  - exists (λ a b, Z.b2z (as_bool a) <? Z.b2z (as_bool b))%Z. split; [apply pull_weak|].
    assert (∀ v, key_of_type "bool" v → v = VBool (as_bool v)) as Hv.
    { intros [z|x|bs|x|] Hk; simpl in Hk; try naive_solver. destruct Hk as (? & ? & ?%no_int & _). set_solver. }
    intros a b Ha Hb. rewrite (Hv a Ha), (Hv b Hb). by destruct (as_bool a), (as_bool b).
  - intros seed v Hs. unfold bool_hash. destruct (as_bool v); [|done]. by apply Z.mod_pos_bound.
  - intros []. left.
Qed.

Lemma unit_ok : type_ok "struct {}" (λ a b, false) (λ a seed, seed).
Proof.
  split; [|done|intros []; right; left]. exists (λ _ _, false). split; [by split|]. intros a b Ha Hb. split; [done|]. intros _ _.
  assert (∀ v, key_of_type "struct {}" v → v = VUnit) as Hv; [|by rewrite (Hv a Ha), (Hv b Hb)].
  intros [z|x|bs|x|] Hk; simpl in Hk; try naive_solver. destruct Hk as (? & ? & ?%no_int & _). set_solver.
Qed.

Lemma calls_ok : Forall (λ x, ∃ less hash, x.2 = ops less hash ∧ type_ok x.1 less hash) calls.
Proof.
  repeat (apply list.Forall_cons; split; [cbn [fst snd]; eexists _, _; split; [reflexivity|]|]); [..|constructor].
  all: first [apply bool_ok|apply unit_ok|apply float32_ok|apply float64_ok|apply bytes_ok; set_solver|idtac].
  all: first [eapply int32_ok|eapply int64_ok]; [unfold ranges; repeat (apply list_elem_of_here || apply list_elem_of_further)|done].
Qed.

(** * Frames *)

Definition registered : gmap string Ops := list_to_map calls.

Lemma lex_ext ts lts lts' a b :
  Forall3 (λ t lt lt', ∀ x y, key_of_type t x → key_of_type t y → lt x y = lt' x y) ts lts lts' →
  Forall2 key_of_type ts a → Forall2 key_of_type ts b → lex zero_value lts a b = lex zero_value lts' a b.
Proof.
  intros H. revert a b. induction H as [|t lt lt' ts lts lts' Hlt _ IH]; intros a b Ha Hb; [done|].
  inversion Ha as [|? x ? a' Hx Ha' ]; subst. inversion Hb as [|? y ? b' Hy Hb']; subst. cbn [lex List.hd list.tail]. by rewrite !Hlt, IH.
Qed.

Lemma lex_total ts lts a b :
  Forall2 (λ t lt, ∀ x y, key_of_type t x → key_of_type t y → lt x y = false → lt y x = false → x = y) ts lts →
  Forall2 key_of_type ts a → Forall2 key_of_type ts b → lex zero_value lts a b = false → lex zero_value lts b a = false → a = b.
Proof.
  intros H. revert a b. induction H as [|t lt ts lts Hlt _ IH]; intros a b Ha Hb; [by inversion Ha; inversion Hb|].
  inversion Ha as [|? x ? a' Hx Ha' ]; subst. inversion Hb as [|? y ? b' Hy Hb']; subst. cbn [lex List.hd list.tail].
  destruct (lt x y) eqn:E1; [done|]. destruct (lt y x) eqn:E2; [done|]. intros. f_equal; [by apply Hlt|by apply IH].
Qed.

Lemma calls_types : calls.*1 = builtin_types.
Proof. reflexivity. Qed.

Lemma builtin_types_distinct : NoDup builtin_types.
Proof. apply (bool_decide_unpack _). vm_compute. exact I. Qed.

Lemma register_all_ok cs reg :
  NoDup cs.*1 → (∀ t, t ∈ cs.*1 → reg !! t = None) → register_all cs reg = Ret (list_to_map cs ∪ reg).
Proof.
  revert reg. induction cs as [|[t o] cs IH]; intros reg Hnd Hreg; [by rewrite list_to_map_nil, (left_id_L ∅ (∪))|].
  rewrite fmap_cons in *. cbn [fst] in *. apply list.NoDup_cons in Hnd as [Ht Hnd]. cbn [register_all]. unfold RegisterOps.
  rewrite (Hreg t) by left. cbn [mbind outcome_bind]. rewrite IH; [|done|].
  - f_equal. rewrite list_to_map_cons. rewrite <-insert_union_l, insert_union_r; [done|]. by apply not_elem_of_list_to_map_1.
  - intros t' Ht'. rewrite lookup_insert_ne by (by intros ->). apply Hreg. by right.
Qed.

Lemma init_eq : init Sum32WithSeed = Ret registered.
Proof.
  pose proof builtin_types_distinct as Hnd. rewrite <-calls_types in Hnd. unfold Builtins.calls in Hnd. rewrite fmap_app in Hnd.
  apply list.NoDup_app in Hnd as (H1 & Hd & H2). unfold init. rewrite register_all_ok by done. cbn [mbind outcome_bind]. rewrite (right_id_L ∅ (∪)).
  rewrite register_all_ok; [|done|].
  - unfold registered, Builtins.calls. rewrite list_to_map_app. apply (f_equal Ret), map_union_comm, map_disjoint_spec.
    intros t x y Hx%elem_of_list_to_map_2 Hy%elem_of_list_to_map_2. apply (Hd t); [by apply (list_elem_of_fmap_2 fst) in Hy|by apply (list_elem_of_fmap_2 fst) in Hx].
  - intros t Ht. apply not_elem_of_list_to_map_1. intros Ht'. by apply (Hd t).
Qed.

Lemma builtin_lookup t : t ∈ builtin_types → ∃ less hash, registered !! t = Some (ops less hash) ∧ type_ok t less hash.
Proof.
  rewrite <-calls_types. intros (x & -> & Hx)%list_elem_of_fmap. destruct (proj1 (list.Forall_forall _ _) calls_ok x Hx) as (less & hash & He & Hok).
  exists less, hash. split; [|done]. rewrite <-He. unfold registered. apply elem_of_list_to_map; [|by destruct x].
  rewrite calls_types. apply builtin_types_distinct.
Qed.

Lemma builtin_can t :
  CanCompare registered t = Ret (bool_decide (t ∈ builtin_types)) ∧ CanHash registered t = Ret (bool_decide (t ∈ builtin_types)).
Proof.
  unfold CanCompare, CanHash, makeSliceOps. destruct (decide (t ∈ builtin_types)) as [Ht|Ht].
  - destruct (builtin_lookup t Ht) as (less & hash & -> & _). rewrite bool_decide_true by done. done.
  - unfold registered. rewrite not_elem_of_list_to_map_1 by (by rewrite calls_types). rewrite bool_decide_false by done. done.
Qed.

(** The operators of the columns of a key. *)
Lemma builtin_columns (ds : list data) :
  Forall (λ d, newData registered (d_typ d) (d_val d) = Ret d ∧ d_typ d ∈ builtin_types) ds →
  ∃ lts lts' hs, Forall2 (λ d lt, ops_Less (d_ops d) = Some lt) ds lts ∧ Forall2 (λ d h, ops_HashWithSeed (d_ops d) = Some h) ds hs ∧
    Forall (λ lt, StrictWeak lt) lts' ∧
    Forall3 (λ t lt lt', ∀ x y, key_of_type t x → key_of_type t y → lt x y = lt' x y) (d_typ <$> ds) lts lts' ∧
    Forall2 (λ t lt, ∀ x y, key_of_type t x → key_of_type t y → lt x y = false → lt y x = false → x = y) (d_typ <$> ds) lts' ∧
    Forall (λ h, ∀ seed v, (0 <= seed < 2 ^ 32)%Z → 0 <= h v seed < 2 ^ 32)%Z hs.
Proof.
  induction 1 as [|d ds [Hd Ht] _ (lts & lts' & hs & H1 & H2 & H3 & H4 & H5 & H6)]; [exists [], [], []; split_and!; constructor|].
  destruct (builtin_lookup _ Ht) as (less & hash & Hl & [(lt & Hw & Hlt) Hh _]).
  assert (d_ops d = ops less hash) as Hops.
  { unfold newData, makeSliceOps in Hd. rewrite Hl in Hd. cbn in Hd. by injection Hd as <-. }
  exists (less :: lts), (lt :: lts'), (hash :: hs). split_and!; constructor; try done; rewrite ?Hops; try done; intros; by eapply Hlt.
Qed.
End types.


(** Floats.  Zero and negative zero are equivalent as keys, but the bytes that are hashed
    differ; and NaN is equivalent to every float, so that Less is not a strict weak order. *)
Lemma float_zero_hashes Sum32WithSeed seed :
  float_less 64 52 0 (2 ^ 63) = false ∧ float_less 64 52 (2 ^ 63) 0 = false ∧
  hash64 Sum32WithSeed 0 seed = Sum32WithSeed [0; 0; 0; 0; 0; 0; 0; 0]%Z seed ∧
  hash64 Sum32WithSeed (2 ^ 63) seed = Sum32WithSeed [0; 0; 0; 0; 0; 0; 0; 128]%Z seed.
Proof. done. Qed.

Lemma float_less_not_weak : ¬ StrictWeak (float_less 64 52).
Proof.
  intros Hw. assert (float_less 64 52 0 4607182418800017408 = false) as Hlt; [|done].
  by apply (sw_neg_trans (lt := float_less 64 52) 4607182418800017408 9221120237041090561 0)%Z.
Qed.
