(* ===== verification/Task.v ===== *)
(** Tasks (src/exec/task.go): their static graph, their runtime state, and
    the notification of waiters and subscribers.

    Tasks, subscribers and channels are identified by numbers, which stand for
    the Go pointers; [world] is the shared heap they live in.  Every operation
    that the code runs under the task's lock is one function on the world. *)
From S2P Require Import Prelude.

(** * TaskState *)

Inductive TaskState :=
| TaskInit | TaskWaiting | TaskRunning | TaskOk | TaskErr | TaskLost.

#[export] Instance TaskState_eq_dec : EqDecision TaskState.
Proof. solve_decision. Defined.

(** The magnitudes of the iota constants. *)
Definition TaskState_Z (s : TaskState) : Z :=
  match s with
  | TaskInit => 0 | TaskWaiting => 1 | TaskRunning => 2
  | TaskOk => 3 | TaskErr => 4 | TaskLost => 5
  end.

Definition TaskState_String (s : TaskState) : string :=
  match s with
  | TaskInit => "INIT" | TaskWaiting => "WAITING" | TaskRunning => "RUNNING"
  | TaskOk => "OK" | TaskErr => "ERROR" | TaskLost => "LOST"
  end.

(** * Dependencies and names *)

Record TaskDep := mkTaskDep {
  dep_Head : nat;
  dep_Partition : Z;
  dep_Expand : bool;
  dep_CombineKey : string;
}.

Record TaskName := mkTaskName {
  tn_InvIndex : Z;
  tn_Op : string;
  tn_Shard : Z;
  tn_NumShard : Z;
}.

Definition TaskName_String (n : TaskName) : string :=
  if (tn_NumShard n =? 0)%Z then tn_Op n +:+ "_combiner"
  else tn_Op n +:+ "@" +:+ decimal (tn_NumShard n) +:+ ":" +:+ decimal (tn_Shard n).

Definition IsCombiner (n : TaskName) : bool := (tn_NumShard n =? 0)%Z.

(** * Tasks *)

Record Task := mkTask {
  t_Name : TaskName;
  t_Deps : list TaskDep;
  t_NumPartition : Z;
  t_CombineKey : string;
  t_Group : list nat;
  t_subs : list nat;
  (** [waitc]: the channel that waiters wait on, if there is one. *)
  t_waitc : option nat;
  t_state : TaskState;
  t_err : option error;
  t_consecutiveLost : Z;
}.

(** The changed tasks that a subscriber has collected since the last call to
    [Tasks]. *)
Record world := mkWorld {
  w_tasks : gmap nat Task;
  w_subscribers : gmap nat (gset nat);
  (** Channels made by [Wait], and those that were closed. *)
  w_channels : nat;
  w_closed : gset nat;
}.

Definition ErrTaskLost : error := Err Other "task was lost".

Section task.
Implicit Types (w : world) (t : nat) (T : Task).

Definition upd_task (t : nat) (T : Task) (w : world) : world :=
  mkWorld (<[t := T]> (w_tasks w)) (w_subscribers w) (w_channels w) (w_closed w).

Definition with_state (s : TaskState) (e : option error) (T : Task) : Task :=
  mkTask (t_Name T) (t_Deps T) (t_NumPartition T) (t_CombineKey T) (t_Group T)
    (t_subs T) (t_waitc T) s e (t_consecutiveLost T).

Definition with_waitc (c : option nat) (T : Task) : Task :=
  mkTask (t_Name T) (t_Deps T) (t_NumPartition T) (t_CombineKey T) (t_Group T)
    (t_subs T) c (t_state T) (t_err T) (t_consecutiveLost T).

Definition with_subs (subs : list nat) (T : Task) : Task :=
  mkTask (t_Name T) (t_Deps T) (t_NumPartition T) (t_CombineKey T) (t_Group T)
    subs (t_waitc T) (t_state T) (t_err T) (t_consecutiveLost T).

(** A nil or dangling pointer. *)
Definition nil_deref {A} : outcome A :=
  Panic "invalid memory address or nil pointer dereference".

Definition with_task {A} (w : world) (t : nat) (k : Task → outcome A) : outcome A :=
  match w_tasks w !! t with Some T => k T | None => nil_deref end.

(** ** Graph structure *)

Definition NumTask (w : world) (d : TaskDep) : outcome nat :=
  with_task w (dep_Head d) (λ T,
    Ret (if (0 <? length (t_Group T))%nat then length (t_Group T) else 1)).

(** [d.Head.Group[i]], but the head itself at 0. *)
Definition Task_i (w : world) (d : TaskDep) (i : nat) : outcome nat :=
  if (i =? 0)%nat then Ret (dep_Head d)
  else with_task w (dep_Head d) (λ T,
    match t_Group T !! i with Some t => Ret t | None => Panic "index out of range" end).

Definition Phase (t : nat) (T : Task) : list nat :=
  if t_Group T is [] then [t] else t_Group T.

Definition Head (t : nat) (T : Task) : nat :=
  if t_Group T is h :: _ then h else t.

(** ** Subscribers *)

Definition NewTaskSubscriber (s : nat) (w : world) : world :=
  mkWorld (w_tasks w) (<[s := ∅]> (w_subscribers w)) (w_channels w) (w_closed w).

Definition Notify (s t : nat) (w : world) : world :=
  mkWorld (w_tasks w)
    (<[s := {[t]} ∪ default ∅ (w_subscribers w !! s)]> (w_subscribers w))
    (w_channels w) (w_closed w).

(** Whether the channel that [Ready] returns is closed already. *)
Definition Ready (s : nat) (w : world) : bool :=
  bool_decide (default ∅ (w_subscribers w !! s) ≠ (∅ : gset nat)).

(** The tasks come in the order of the map iteration, here that of
    [elements]. *)
Definition Tasks (s : nat) (w : world) : world * list nat :=
  (mkWorld (w_tasks w) (<[s := ∅]> (w_subscribers w)) (w_channels w) (w_closed w),
   elements (default ∅ (w_subscribers w !! s))).

(** ** State changes *)

(** Close [waitc] and notify the subscribers; the lock is held. *)
Definition Broadcast (t : nat) (T : Task) (w : world) : world :=
  let w := match t_waitc T with
           | Some c => mkWorld (<[t := with_waitc None T]> (w_tasks w)) (w_subscribers w)
                         (w_channels w) ({[c]} ∪ w_closed w)
           | None => upd_task t T w
           end in
  foldl (λ w s, Notify s t w) w (t_subs T).

Definition Set_ (t : nat) (state : TaskState) (w : world) : outcome world :=
  with_task w t (λ T, Ret (Broadcast t (with_state state (t_err T) T) w)).

Definition Error (t : nat) (err : error) (w : world) : outcome world :=
  with_task w t (λ T, Ret (Broadcast t (with_state TaskErr (Some err) T) w)).

Definition Errorf (t : nat) (msg : string) (w : world) : outcome world :=
  Error t (Err Other msg) w.

Definition Err_ (t : nat) (w : world) : outcome (option error) :=
  with_task w t (λ T,
    match t_state T with
    | TaskErr =>
        match t_err T with
        | None => Panic "TaskErr without an err"
        | Some e => Ret (Some e)
        end
    | TaskLost => Ret (Some ErrTaskLost)
    | s => if (TaskState_Z TaskErr <=? TaskState_Z s)%Z then Panic "unhandled state" else Ret None
    end).

Definition State (t : nat) (w : world) : outcome TaskState :=
  with_task w t (λ T, Ret (t_state T)).

(** The first half of [Wait], until the lock is released: the channel to
    receive from. *)
Definition Wait (t : nat) (w : world) : outcome (world * nat) :=
  with_task w t (λ T,
    match t_waitc T with
    | Some c => Ret (w, c)
    | None =>
        let c := w_channels w in
        Ret (mkWorld (<[t := with_waitc (Some c) T]> (w_tasks w)) (w_subscribers w)
               (S c) (w_closed w), c)
    end).

Definition Subscribe (t s : nat) (w : world) : outcome world :=
  with_task w t (λ T,
    if existsb (Nat.eqb s) (t_subs T) then Ret w
    else Ret (upd_task t (with_subs (t_subs T ++ [s]) T) w)).

Definition Unsubscribe (t s : nat) (w : world) : outcome world :=
  with_task w t (λ T,
    Ret (upd_task t (with_subs (List.filter (λ sub, negb (s =? sub)%nat) (t_subs T)) T) w)).

(** ** Reachable tasks *)

(** [f] on the tasks of one dependency, in order. *)
Fixpoint dep_tasks (w : world) (d : TaskDep) (i n : nat) : outcome (list nat) :=
  match n with
  | 0 => Ret []
  | S n => x ← Task_i w d i; xs ← dep_tasks w d (S i) n; Ret (x :: xs)
  end.

Fixpoint all_tasks (rec : gset nat → nat → outcome (gset nat)) (ts : list nat)
    (tasks : gset nat) : outcome (gset nat) :=
  match ts with
  | [] => Ret tasks
  | t :: ts => tasks ← rec tasks t; all_tasks rec ts tasks
  end.

Fixpoint all_deps (rec : gset nat → nat → outcome (gset nat)) (w : world)
    (ds : list TaskDep) (tasks : gset nat) : outcome (gset nat) :=
  match ds with
  | [] => Ret tasks
  | d :: ds =>
      n ← NumTask w d;
      ts ← dep_tasks w d 0 n;
      tasks ← all_tasks rec ts tasks;
      all_deps rec w ds tasks
  end.

Fixpoint all (fuel : nat) (w : world) (tasks : gset nat) (t : nat) : outcome (gset nat) :=
  if bool_decide (t ∈ tasks) then Ret tasks
  else
    match fuel with
    | 0 => NoFuel
    | S fuel => with_task w t (λ T, all_deps (all fuel w) w (t_Deps T) ({[t]} ∪ tasks))
    end.

Definition name_of (w : world) (t : nat) : string :=
  from_option (λ T, TaskName_String (t_Name T)) "" (w_tasks w !! t).

Definition name_le (w : world) (a b : nat) : Prop :=
  String.leb (name_of w a) (name_of w b) = true.
#[local] Instance name_le_dec w : RelDecision (name_le w).
Proof. intros a b. unfold name_le. apply _. Defined.

(** [All] sorts the tasks by name. *)
Definition All (fuel : nat) (w : world) (t : nat) : outcome (list nat) :=
  tasks ← all fuel w ∅ t; Ret (merge_sort (name_le w) (elements tasks)).

(** * Notification *)

Lemma foldl_Notify_tasks t subs w :
  w_tasks (foldl (λ w s, Notify s t w) w subs) = w_tasks w ∧
  w_channels (foldl (λ w s, Notify s t w) w subs) = w_channels w ∧
  w_closed (foldl (λ w s, Notify s t w) w subs) = w_closed w.
Proof.
  revert w. induction subs as [|s subs IH]; intros w; simpl; [done|].
  destruct (IH (Notify s t w)) as (-> & -> & ->). done.
Qed.

Lemma foldl_Notify_subscribers t subs w s :
  default ∅ (w_subscribers (foldl (λ w s, Notify s t w) w subs) !! s) =
    (if decide (s ∈ subs) then {[t]} else ∅) ∪ default ∅ (w_subscribers w !! s).
Proof.
  revert w. induction subs as [|s' subs IH]; intros w; simpl; [by rewrite (left_id_L ∅ (∪))|].
  rewrite IH. clear IH. unfold Notify. simpl.
  destruct (decide (s = s')) as [->|Hne].
  - rewrite lookup_insert_eq. simpl. rewrite (decide_True (P := s' ∈ s' :: subs)) by left.
    case_decide; set_solver.
  - rewrite lookup_insert_ne by done. f_equal.
    destruct (decide (s ∈ subs)) as [Hin|Hin].
    + rewrite decide_True; [done|by right].
    + rewrite decide_False; [done|]. by intros [|]%elem_of_cons.
Qed.

Lemma Broadcast_spec t T w :
  let w' := Broadcast t T w in
  w_tasks w' = <[t := with_waitc None T]> (w_tasks w) ∧
  (∀ c, t_waitc T = Some c → c ∈ w_closed w') ∧ w_closed w ⊆ w_closed w' ∧
  ∀ s, default ∅ (w_subscribers w' !! s) =
    (if decide (s ∈ t_subs T) then {[t]} else ∅) ∪ default ∅ (w_subscribers w !! s).
Proof.
  unfold Broadcast. cbn zeta. destruct (t_waitc T) as [c|] eqn:E.
  - set (w1 := mkWorld _ _ _ _).
    destruct (foldl_Notify_tasks t (t_subs T) w1) as (-> & _ & ->).
    split_and!; [done| | |].
    + intros c' [= <-]. simpl. set_solver.
    + simpl. set_solver.
    + intros s. by rewrite foldl_Notify_subscribers.
  - destruct (foldl_Notify_tasks t (t_subs T) (upd_task t T w)) as (-> & _ & ->).
    split_and!; [|done|done|].
    + simpl. f_equal. destruct T; simpl in *. by rewrite E.
    + intros s. rewrite foldl_Notify_subscribers. done.
Qed.

(** A state change is never missed: after Set and after Error the task has
    the new state (and error), the channel its waiters were given is closed,
    each subscriber's next call to Tasks reports the task, exactly the
    subscribers get a new report, and no report collected before is lost. *)
Theorem Set_Error_notify t T w s e :
  w_tasks w !! t = Some T →
  (∃ w', Set_ t s w = Ret w' ∧ w_tasks w' = <[t := with_waitc None (with_state s (t_err T) T)]> (w_tasks w) ∧
    (∀ c, t_waitc T = Some c → c ∈ w_closed w') ∧
    ∀ sub, (Tasks sub w').2 ≡ₚ
      elements ((if decide (sub ∈ t_subs T) then {[t]} else ∅) ∪ list_to_set (Tasks sub w).2 : gset nat)) ∧
  (∃ w', Error t e w = Ret w' ∧ Err_ t w' = Ret (Some e) ∧
    (∀ c, t_waitc T = Some c → c ∈ w_closed w') ∧
    ∀ sub, (Tasks sub w').2 ≡ₚ
      elements ((if decide (sub ∈ t_subs T) then {[t]} else ∅) ∪ list_to_set (Tasks sub w).2 : gset nat)).
Proof.
  intros Ht. split.
  - destruct (Broadcast_spec t (with_state s (t_err T) T) w) as (H1 & H2 & _ & H4).
    eexists. unfold Set_, with_task. rewrite Ht. split_and!; [done|done|exact H2|].
    intros sub. unfold Tasks. simpl. rewrite H4. simpl. by rewrite list_to_set_elements_L.
  - destruct (Broadcast_spec t (with_state TaskErr (Some e) T) w) as (H1 & H2 & _ & H4).
    eexists. unfold Error, with_task. rewrite Ht. split_and!; [done| |exact H2|].
    + unfold Err_, with_task. by rewrite H1, lookup_insert_eq.
    + intros sub. unfold Tasks. simpl. rewrite H4. simpl. by rewrite list_to_set_elements_L.
Qed.

(** * Reachability *)

(** The tasks that a dependency comprises. *)
Definition members (w : world) (d : TaskDep) : list nat :=
  match w_tasks w !! dep_Head d with
  | Some H => dep_Head d :: tail (t_Group H)
  | None => []
  end.

(** All pointers of the graph are valid. *)
Definition graph_ok (w : world) : Prop :=
  ∀ t T d, w_tasks w !! t = Some T → d ∈ t_Deps T →
    dep_Head d ∈ dom (w_tasks w) ∧ ∀ u, u ∈ members w d → u ∈ dom (w_tasks w).

Definition edge (w : world) (t u : nat) : Prop :=
  ∃ T d, w_tasks w !! t = Some T ∧ d ∈ t_Deps T ∧ u ∈ members w d.

Lemma dep_tasks_drop w d T i n :
  w_tasks w !! dep_Head d = Some T → 0 < i → i + n = length (t_Group T) →
  dep_tasks w d i n = Ret (drop i (t_Group T)).
Proof.
  intros HT. revert i. induction n as [|n IH]; intros i Hi Hl; simpl.
  - by rewrite drop_ge by lia.
  - unfold Task_i, with_task. rewrite HT. destruct (Nat.eqb_spec i 0); [lia|].
    destruct (lookup_lt_is_Some_2 (t_Group T) i) as [x Hx]; [lia|]. rewrite Hx. simpl.
    rewrite IH by lia. simpl. by rewrite (drop_S _ _ _ Hx).
Qed.

Lemma dep_tasks_members w d :
  dep_Head d ∈ dom (w_tasks w) →
  ∃ n, NumTask w d = Ret n ∧ dep_tasks w d 0 n = Ret (members w d).
Proof.
  intros [H HH]%elem_of_dom. unfold NumTask, members, with_task. rewrite HH.
  eexists. split; [done|]. destruct (t_Group H) as [|g gs] eqn:E; simpl; [done|].
  unfold Task_i. simpl. rewrite (dep_tasks_drop w d H 1) by (rewrite ?E; done || lia).
  by rewrite E.
Qed.

(** [X] extends the visited set [vs] by tasks that [P] admits, and has the
    successors of all the new ones. *)
Definition visits (w : world) (P : nat → Prop) (vs X : gset nat) : Prop :=
  vs ⊆ X ∧ X ⊆ dom (w_tasks w) ∪ vs ∧
  (∀ u, u ∈ X → u ∉ vs → P u) ∧
  (∀ u v, u ∈ X → u ∉ vs → edge w u v → v ∈ X).

Lemma visits_refl w P vs : visits w P vs vs.
Proof. split_and!; [done|set_solver|by intros u ? []|by intros u v ? []]. Qed.

(** Tasks not visited yet. *)
Definition unvisited (w : world) (vs : gset nat) : nat := size (dom (w_tasks w) ∖ vs).

Lemma unvisited_mono w vs X : vs ⊆ X → unvisited w X ≤ unvisited w vs.
Proof. intros. apply subseteq_size. set_solver. Qed.

Lemma all_tasks_spec w rec P ts vs k :
  (∀ vs t, unvisited w vs ≤ k → t ∈ ts → ∃ X, rec vs t = Ret X ∧ visits w P vs X ∧ t ∈ X) →
  unvisited w vs ≤ k →
  ∃ X, all_tasks rec ts vs = Ret X ∧ visits w P vs X ∧ ∀ t, t ∈ ts → t ∈ X.
Proof.
  revert vs. induction ts as [|t ts IH]; intros vs Hrec Hk; simpl.
  { exists vs. split_and!; [done|apply visits_refl|]. intros t Ht. by apply elem_of_nil in Ht. }
  destruct (Hrec vs t Hk) as (X & HX & HvX & HtX); [left|]. rewrite HX. simpl.
  destruct (IH X) as (Y & HY & HvY & HtY).
  - intros vs' t' Hk' Ht'. apply Hrec; [done|by right].
  - etrans; [apply unvisited_mono, HvX|done].
  - exists Y. split_and!; [done| |].
    + destruct HvX as (A1 & A2 & A3 & A4), HvY as (B1 & B2 & B3 & B4). split_and!; [set_solver..| |].
      * intros u HuY Hu. destruct (decide (u ∈ X)); auto.
      * intros u v HuY Hu Huv. destruct (decide (u ∈ X)); [apply B1; eauto|eauto].
    + intros t' [->|Ht']%elem_of_cons; [by apply HvY|auto].
Qed.

Lemma all_deps_spec w rec P ds vs k :
  (∀ d, d ∈ ds → dep_Head d ∈ dom (w_tasks w)) →
  (∀ d vs t, unvisited w vs ≤ k → d ∈ ds → t ∈ members w d →
     ∃ X, rec vs t = Ret X ∧ visits w P vs X ∧ t ∈ X) →
  unvisited w vs ≤ k →
  ∃ X, all_deps rec w ds vs = Ret X ∧ visits w P vs X ∧
    ∀ d t, d ∈ ds → t ∈ members w d → t ∈ X.
Proof.
  revert vs. induction ds as [|d ds IH]; intros vs Hdom Hrec Hk; simpl.
  { exists vs. split_and!; [done|apply visits_refl|]. intros d t Hd. by apply elem_of_nil in Hd. }
  destruct (dep_tasks_members w d) as (n & Hn & Hts); [apply Hdom; left|].
  rewrite Hn. simpl. rewrite Hts. simpl.
  destruct (all_tasks_spec w rec P (members w d) vs k) as (X & HX & HvX & HtX); [|done|].
  { intros vs' t Hk' Ht. apply (Hrec d); [done|left|done]. }
  rewrite HX. simpl. destruct (IH X) as (Y & HY & HvY & HtY).
  - intros d' Hd'. apply Hdom. by right.
  - intros d' vs' t Hk' Hd'. apply Hrec; [done|by right].
  - etrans; [apply unvisited_mono, HvX|done].
  - exists Y. split_and!; [done| |].
    + destruct HvX as (A1 & A2 & A3 & A4), HvY as (B1 & B2 & B3 & B4). split_and!; [set_solver..| |].
      * intros u HuY Hu. destruct (decide (u ∈ X)); auto.
      * intros u v HuY Hu Huv. destruct (decide (u ∈ X)); [apply B1; eauto|eauto].
    + intros d' t' [->|Hd']%elem_of_cons Ht'; [by apply HvY; auto|eauto].
Qed.

Lemma all_spec w fuel vs t :
  graph_ok w → t ∈ dom (w_tasks w) → unvisited w vs ≤ fuel →
  ∃ X, all fuel w vs t = Ret X ∧ visits w (rtc (edge w) t) vs X ∧ t ∈ X.
Proof.
  intros Hg. revert vs t. induction fuel as [|fuel IH]; intros vs t Ht Hf.
  all: simpl; case_bool_decide as Hin; [exists vs; split_and!; [done|apply visits_refl|done]|].
  { exfalso. assert (t ∈ dom (w_tasks w) ∖ vs) as Hin2 by set_solver.
    unfold unvisited in Hf. apply Nat.le_0_r, size_empty_inv in Hf. set_solver. }
  apply elem_of_dom in Ht as [T HT]. unfold with_task. rewrite HT.
  assert (unvisited w ({[t]} ∪ vs) ≤ fuel) as Hf'.
  { unfold unvisited in *.
    assert (size (dom (w_tasks w) ∖ ({[t]} ∪ vs)) < size (dom (w_tasks w) ∖ vs)); [|lia].
    apply subset_size. assert (t ∈ dom (w_tasks w)) by by apply elem_of_dom_2 in HT. set_solver. }
  destruct (all_deps_spec w (all fuel w) (rtc (edge w) t) (t_Deps T) ({[t]} ∪ vs) fuel)
    as (X & HX & (A1 & A2 & A3 & A4) & HmX); [| |done|].
  - intros d Hd. exact (proj1 (Hg t T d HT Hd)).
  - intros d vs' u Hu Hd Hm. destruct (IH vs' u) as (X & HX & (B1 & B2 & B3 & B4) & HuX); [|done|].
    { exact (proj2 (Hg t T d HT Hd) u Hm). }
    exists X. split_and!; [done| |done]. split_and!; [done..| |done].
    intros x Hx1 Hx2. eapply rtc_l; [|by apply B3]. by exists T, d.
  - assert (t ∈ dom (w_tasks w)) by by apply elem_of_dom_2 in HT.
    exists X. split_and!; [done| |set_solver]. split_and!; [set_solver..| |].
    + intros u HuX Hu. destruct (decide (u = t)) as [->|]; [apply rtc_refl|].
      apply A3; [done|]. set_solver.
    + intros u v HuX Hu Huv. destruct (decide (u = t)) as [->|Hne].
      * destruct Huv as (T' & d & HT' & Hd & Hm). simplify_eq. by apply (HmX d).
      * apply (A4 u v); [done| |done]. set_solver.
Qed.

(** C37. All terminates and returns each task reachable from [t] through the
    dependencies (whole phases included) exactly once, and nothing else; a
    call per task of the graph is fuel enough, also for graphs with shared
    or cyclic dependencies. *)
Theorem All_reachable w t :
  graph_ok w → t ∈ dom (w_tasks w) →
  ∃ ts, All (size (w_tasks w)) w t = Ret ts ∧ NoDup ts ∧ ∀ u, u ∈ ts ↔ rtc (edge w) t u.
Proof.
  intros Hg Ht.
  destruct (all_spec w (size (w_tasks w)) ∅ t Hg Ht) as (X & HX & (_ & _ & HP & Hcl) & HtX).
  { unfold unvisited. rewrite difference_empty_L. by rewrite size_dom. }
  unfold All. rewrite HX. simpl. eexists. split; [done|]. split.
  - rewrite merge_sort_Permutation. apply NoDup_elements.
  - intros u. rewrite merge_sort_Permutation, elem_of_elements. split; [intros; by apply HP; [|apply not_elem_of_empty]|].
    revert u. apply rtc_ind_r; [done|]. intros x y _ Hxy Hx. eapply Hcl; [done| |done].
    apply not_elem_of_empty.
Qed.
End task.
