(* ===== verification/Eval.v ===== *)
(** The evaluator (src/exec/eval.go): scheduling of a task graph.

    [state] is the evaluator's waitlist bookkeeping, with the Go maps as
    finite maps and sets keyed by tasks.  A round (the initial Enqueue calls,
    or one call of Return) reads the state of each task at most once, because
    waiting counts are memoized per phase; the reads of a round are given to
    the operations as a [view].  The evaluation loop is the step relation
    [step], whose environment steps are those of the executor. *)
From S2P Require Import Prelude Task.

Definition maxConsecutiveLost : Z := 5.

Record state := mkState {
  s_deps : gmap nat (gset nat);
  s_counts : gmap nat Z;
  s_todo : gset nat;
  s_pending : gset nat;
  s_wait : gmap nat Z;
  s_err : option error;
}.

Definition newState : state := mkState ∅ ∅ ∅ ∅ ∅ None.

Definition with_deps (d : gmap nat (gset nat)) (s : state) : state :=
  mkState d (s_counts s) (s_todo s) (s_pending s) (s_wait s) (s_err s).
Definition with_counts (c : gmap nat Z) (s : state) : state :=
  mkState (s_deps s) c (s_todo s) (s_pending s) (s_wait s) (s_err s).
Definition with_todo (t : gset nat) (s : state) : state :=
  mkState (s_deps s) (s_counts s) t (s_pending s) (s_wait s) (s_err s).
Definition with_pending (p : gset nat) (s : state) : state :=
  mkState (s_deps s) (s_counts s) (s_todo s) p (s_wait s) (s_err s).
Definition with_wait (w : gmap nat Z) (s : state) : state :=
  mkState (s_deps s) (s_counts s) (s_todo s) (s_pending s) w (s_err s).
Definition with_err (e : option error) (s : state) : state :=
  mkState (s_deps s) (s_counts s) (s_todo s) (s_pending s) (s_wait s) e.

Section eval.
(** The (static) tasks, and the order in which a Go map is iterated. *)
Context (tasks : nat → Task) (range : gset nat → list nat).

Definition phase (t : nat) : list nat := Phase t (tasks t).
Definition head (t : nat) : nat := Head t (tasks t).
Definition heads (t : nat) : list nat := dep_Head <$> t_Deps (tasks t).

Definition deps_of (s : state) (h : nat) : gset nat := default ∅ (s_deps s !! h).
Definition count (s : state) (t : nat) : Z := default 0%Z (s_counts s !! t).

(** ** Bookkeeping *)

Definition schedule (t : nat) (s : state) : state :=
  if bool_decide (t ∈ s_pending s) then s else with_todo ({[t]} ∪ s_todo s) s.

Fixpoint clear_deps (t : nat) (hs : list nat) (d : gmap nat (gset nat)) : gmap nat (gset nat) :=
  match hs with
  | [] => d
  | h :: hs =>
      clear_deps t hs (match d !! h with Some ds => <[h := ds ∖ {[t]}]> d | None => d end)
  end.

Definition clear (t : nat) (s : state) : state :=
  with_deps (clear_deps t (heads t) (s_deps s))
    (with_counts (delete t (s_counts s)) s).

Definition add (src dst : nat) (n : Z) (s : state) : state :=
  let bump s := with_counts (<[dst := (count s dst + n)%Z]> (s_counts s)) s in
  match s_deps s !! src with
  | None => bump (with_deps (<[src := {[dst]}]> (s_deps s)) s)
  | Some d =>
      if bool_decide (dst ∈ d) then s
      else bump (with_deps (<[src := {[dst]} ∪ d]> (s_deps s)) s)
  end.

(** [for dst := range s.deps[src]]: the state, and the tasks that became
    ready. *)
Fixpoint done_loop (dsts : list nat) (s : state) : state * list nat :=
  match dsts with
  | [] => (s, [])
  | dst :: dsts =>
      let c := (count s dst - 1)%Z in
      let s := with_counts (<[dst := c]> (s_counts s)) s in
      let '(s, ready) := done_loop dsts s in
      (s, if (c =? 0)%Z then dst :: ready else ready)
  end.

Definition done_ (src : nat) (s : state) : state * list nat :=
  done_loop (range (deps_of s src)) s.

(** ** Enqueue *)

Section loops.
Context (view : nat → TaskState) (enqueue : state → nat → outcome (state * Z)).

(** The loop over the dependencies of [task]. *)
Fixpoint enqueue_deps (task : nat) (hs : list nat) (s : state) (ready : bool) :
    outcome (state * bool) :=
  match hs with
  | [] => Ret (s, ready)
  | h :: hs =>
      '(s, n) ← enqueue s h;
      if (n =? 0)%Z then enqueue_deps task hs s ready
      else enqueue_deps task hs (add h task n s) false
  end.

(** The loop over the tasks of a phase. *)
Fixpoint enqueue_phase (ts : list nat) (s : state) (nwait : Z) : outcome (state * Z) :=
  match ts with
  | [] => Ret (s, nwait)
  | t :: ts =>
      match view t with
      | TaskOk | TaskErr => enqueue_phase ts s nwait
      | TaskWaiting | TaskRunning => enqueue_phase ts (schedule t s) (nwait + 1)
      | TaskInit | TaskLost =>
          '(s, ready) ← enqueue_deps t (heads t) (clear t s) true;
          enqueue_phase ts (if ready : bool then schedule t s else s) (nwait + 1)
      end
  end.
End loops.

Fixpoint Enqueue (fuel : nat) (view : nat → TaskState) (s : state) (task : nat) :
    outcome (state * Z) :=
  match s_wait s !! head task with
  | Some n => Ret (s, n)
  | None =>
      match fuel with
      | 0 => NoFuel
      | S fuel =>
          '(s, nwait) ← enqueue_phase view (Enqueue fuel view) (phase task) s 0;
          Ret (with_wait (<[head task := nwait]> (s_wait s)) s, nwait)
      end
  end.

Fixpoint Enqueue_all (fuel : nat) (view : nat → TaskState) (ts : list nat) (s : state) :
    outcome state :=
  match ts with
  | [] => Ret s
  | t :: ts => '(s, _) ← Enqueue fuel view s t; Enqueue_all fuel view ts s
  end.

(** ** Return *)

Definition task_error (t : nat) : error :=
  let msg := "error running " +:+ TaskName_String (t_Name (tasks t)) in
  match t_err (tasks t) with
  | Some (Err k m) => Err k (msg +:+ ": " +:+ m)
  | _ => Err Other msg
  end.

(** [st] is the state read for the returned task itself. *)
Definition Return (fuel : nat) (view : nat → TaskState) (st : TaskState) (task : nat) (s : state) :
    outcome state :=
  if negb (bool_decide (task ∈ s_pending s)) then Panic "exec.Eval: done task: not pending"
  else
    let s := with_pending (s_pending s ∖ {[task]}) (with_wait ∅ s) in
    match st with
    | TaskErr => Ret (with_err (Some (task_error task)) s)
    | TaskOk =>
        let '(s, ready) := done_ (head task) s in
        Enqueue_all fuel view ready s
    | TaskLost => fst <$> Enqueue fuel view s task
    | _ => Ret (schedule task s)
    end.

Definition Runnable (s : state) : state * list nat :=
  (with_todo ∅ (with_pending (s_pending s ∪ s_todo s) s), range (s_todo s)).

Definition Todo (s : state) : bool := bool_decide (s_todo s ≠ ∅).

Definition Done (s : state) : bool :=
  bool_decide (is_Some (s_err s)) || bool_decide (s_todo s = ∅) && bool_decide (s_pending s = ∅).

(** ** The evaluation loop *)

(** Submitting a runnable task: its new state, and whether this evaluator
    runs it. *)
Definition submit (st : TaskState) : TaskState * bool :=
  let st := if bool_decide (st = TaskLost) then TaskInit else st in
  let runner := bool_decide (st = TaskInit) in
  (if runner then TaskWaiting else st, runner).

(** When a task that this evaluator ran has settled: losses are counted, and
    too many of them are an error. *)
Definition settle (enable runner : bool) (T : Task) : Task * bool :=
  if runner && enable then
    match t_state T with
    | TaskOk =>
        (mkTask (t_Name T) (t_Deps T) (t_NumPartition T) (t_CombineKey T) (t_Group T)
           (t_subs T) (t_waitc T) TaskOk (t_err T) 0, false)
    | TaskLost =>
        let c := (t_consecutiveLost T + 1)%Z in
        if (maxConsecutiveLost <=? c)%Z then
          (mkTask (t_Name T) (t_Deps T) (t_NumPartition T) (t_CombineKey T) (t_Group T)
             (t_subs T) (t_waitc T) TaskErr
             (Some (Err Other ("lost on " +:+ decimal c +:+ " consecutive attempts"))) c, true)
        else
          (mkTask (t_Name T) (t_Deps T) (t_NumPartition T) (t_CombineKey T) (t_Group T)
             (t_subs T) (t_waitc T) TaskLost (t_err T) c, false)
    | _ => (T, false)
    end
  else (T, false).

(** What the loop works on: the bookkeeping, the current task states, and
    which tasks have been in state TaskOk. *)
Record sys := mkSys {
  sy_s : state;
  sy_view : nat → TaskState;
  sy_ok : nat → Prop;
}.

Definition set_task (t : nat) (st : TaskState) (view : nat → TaskState) : nat → TaskState :=
  λ u, if decide (u = t) then st else view u.

Definition submit_all (ts : gset nat) (view : nat → TaskState) : nat → TaskState :=
  λ u, if decide (u ∈ ts) then (submit (view u)).1 else view u.

(** The executor, one step: a submitted task progresses or settles, and a
    result is lost.  Only the evaluator moves tasks out of TaskInit and
    TaskLost. *)
Inductive executes (s : state) : (nat → TaskState) → nat → TaskState → Prop :=
| executes_progress view t st :
    t ∈ s_pending s → view t = TaskWaiting ∨ view t = TaskRunning →
    st ≠ TaskInit → executes s view t st
| executes_lose view t :
    view t = TaskOk → executes s view t TaskLost
| executes_giveup view t :
    t ∈ s_pending s → view t = TaskLost → executes s view t TaskErr.

Inductive step (fuel : nat) : sys → sys → Prop :=
| step_submit s view ok s' ts :
    s_err s = None → Todo s = true → Runnable s = (s', ts) →
    step fuel (mkSys s view ok) (mkSys s' (submit_all (s_todo s) view) ok)
| step_execute s view ok t st :
    s_err s = None → executes s view t st →
    step fuel (mkSys s view ok)
      (mkSys s (set_task t st view) (λ u, ok u ∨ u = t ∧ st = TaskOk))
| step_return s view ok t s' :
    Done s = false → Todo s = false → t ∈ s_pending s →
    (TaskState_Z TaskOk <= TaskState_Z (view t))%Z →
    Return fuel view (view t) t s = Ret s' →
    step fuel (mkSys s view ok) (mkSys s' view ok).

(** * Well-formed task graphs *)

(** Phases are consistent, dependencies name phase heads, and dependencies
    have smaller rank: the graph is acyclic. *)
Record graph_wf (rank : nat → nat) : Prop := {
  wf_phase : ∀ t x, x ∈ phase t → head x = head t ∧ phase x = phase t;
  wf_self : ∀ t, t ∈ phase t;
  wf_nodup : ∀ t, NoDup (phase t);
  wf_head : ∀ t h, h ∈ heads t → head h = h;
  wf_rank : ∀ t h, h ∈ heads t → rank h < rank (head t);
}.

(** * Open tasks *)

(** A task is open when it is scheduled, or waits for dependencies; [X] are
    tasks about to be enqueued. *)
Definition opn (X : gset nat) (s : state) (x : nat) : Prop :=
  x ∈ X ∨ x ∈ s_todo s ∨ x ∈ s_pending s ∨ (1 <= count s x)%Z.
#[local] Instance opn_dec X s x : Decision (opn X s x).
Proof. unfold opn. apply _. Defined.

Definition open_in (X : gset nat) (s : state) (h : nat) : nat :=
  length (filter (opn X s) (phase h)).

(** The open tasks that [m] is registered to wait for. *)
Definition awaited (X : gset nat) (s : state) (m h : nat) : nat :=
  if decide (m ∈ deps_of s h) then open_in X s h else 0.

Definition osum (X : gset nat) (s : state) (m : nat) : nat :=
  sum_list (awaited X s m <$> remove_dups (heads m)).

(** No waiting task waits for more completions than there are open tasks to
    deliver them. *)
Definition waits_ok (X : gset nat) (s : state) : Prop :=
  ∀ m, (1 <= count s m)%Z → (count s m <= Z.of_nat (osum X s m))%Z.

Lemma open_in_mono X s X' s' h :
  (∀ x, x ∈ phase h → opn X s x → opn X' s' x) → open_in X s h ≤ open_in X' s' h.
Proof.
  intros Hm. unfold open_in. induction (phase h) as [|x l IH]; simpl; [done|].
  assert (length (filter (opn X s) l) ≤ length (filter (opn X' s') l)).
  { apply IH. intros y Hy. apply Hm. by right. }
  rewrite !filter_cons. repeat case_decide; simpl; try lia.
  exfalso. eauto using list_elem_of_here.
Qed.

Lemma awaited_mono X s X' s' m h :
  (m ∈ deps_of s h → m ∈ deps_of s' h) →
  (∀ x, opn X s x → opn X' s' x) → awaited X s m h ≤ awaited X' s' m h.
Proof.
  intros Hd Hm. unfold awaited. repeat case_decide; try lia; [|tauto].
  apply open_in_mono. auto.
Qed.

Lemma sum_mono {A} (f g : A → nat) l :
  (∀ x, x ∈ l → f x ≤ g x) → sum_list (f <$> l) ≤ sum_list (g <$> l).
Proof.
  intros Hfg. induction l as [|x l IH]; [done|]. rewrite !fmap_cons. cbn [sum_list].
  apply Nat.add_le_mono; [apply Hfg; left|]. apply IH. intros y Hy. apply Hfg. by right.
Qed.

(** Sums that differ at one place. *)
Lemma sum_at {A} (f g : A → nat) l h k1 k2 :
  NoDup l → h ∈ l → (∀ x, x ∈ l → x ≠ h → f x ≤ g x) → f h + k1 ≤ g h + k2 →
  sum_list (f <$> l) + k1 ≤ sum_list (g <$> l) + k2.
Proof.
  intros Hnd Hh Hne Heq. induction Hnd as [|x l Hx Hnd IH]; [by apply elem_of_nil in Hh|].
  rewrite !fmap_cons. simpl. apply elem_of_cons in Hh as [->|Hh].
  - assert (sum_list (f <$> l) ≤ sum_list (g <$> l)); [|lia].
    apply sum_mono. intros y Hy. apply Hne; [by right|]. by intros ->.
  - assert (f x ≤ g x).
    { apply Hne; [by left|]. by intros ->. }
    assert (sum_list (f <$> l) + k1 ≤ sum_list (g <$> l) + k2); [|lia].
    apply IH; [done|]. intros y Hy. apply Hne. by right.
Qed.

Lemma osum_mono X s X' s' m :
  (∀ h, m ∈ deps_of s h → m ∈ deps_of s' h) →
  (∀ x, opn X s x → opn X' s' x) → osum X s m ≤ osum X' s' m.
Proof. intros Hd Hm. apply sum_mono. intros h _. apply awaited_mono; auto. Qed.

(** Weakening of the open set keeps [waits_ok] when counts and registrations
    of the other tasks are the same. *)
Lemma waits_ok_same X s X' s' (P : nat → Prop) :
  (∀ m, P m → (1 <= count s' m)%Z → (count s' m <= Z.of_nat (osum X' s' m))%Z) →
  (∀ m, ¬ P m → count s' m = count s m ∧ ∀ h, m ∈ deps_of s h → m ∈ deps_of s' h) →
  (∀ x, opn X s x → opn X' s' x) → (∀ m, Decision (P m)) →
  waits_ok X s → waits_ok X' s'.
Proof.
  intros HP Hnp Hm Hdec Hw m Hc. destruct (Hdec m) as [Hpm|Hpm]; [by apply HP|].
  destruct (Hnp m Hpm) as [Hcm Hdm]. rewrite Hcm in *.
  pose proof (osum_mono X s X' s' m Hdm Hm). specialize (Hw m Hc). lia.
Qed.

(** * Bookkeeping lemmas *)

Lemma clear_deps_lookup t hs d h x :
  x ∈ default ∅ (clear_deps t hs d !! h) ↔
    x ∈ default ∅ (d !! h) ∧ (x = t → h ∉ hs).
Proof.
  revert d. induction hs as [|h0 hs IH]; intros d; simpl.
  { split; [|tauto]. intros. split; [done|]. intros _. apply not_elem_of_nil. }
  rewrite IH, not_elem_of_cons. destruct (d !! h0) as [ds|] eqn:E.
  - destruct (decide (h = h0)) as [->|Hne].
    + rewrite lookup_insert_eq, E. simpl. set_solver.
    + rewrite lookup_insert_ne by done. tauto.
  - split; [|tauto]. intros [Hx Hn]. split; [done|]. intros Ht. split; [|auto].
    intros ->. rewrite E in Hx. by apply elem_of_empty in Hx.
Qed.

Lemma count_clear t s x : count (clear t s) x = if decide (x = t) then 0%Z else count s x.
Proof.
  unfold count, clear. simpl. case_decide as E.
  - by rewrite E, lookup_delete_eq.
  - by rewrite lookup_delete_ne by congruence.
Qed.

Lemma deps_clear t s h x :
  x ∈ deps_of (clear t s) h ↔ x ∈ deps_of s h ∧ (x = t → h ∉ heads t).
Proof. apply clear_deps_lookup. Qed.

Lemma count_add h m n s x :
  count (add h m n s) x =
    if decide (x = m ∧ m ∉ deps_of s h) then (count s m + n)%Z else count s x.
Proof.
  unfold add, deps_of, count. destruct (s_deps s !! h) as [d|] eqn:E; simpl.
  - case_bool_decide; simpl.
    + rewrite decide_False by tauto. done.
    + destruct (decide (x = m)) as [->|].
      * rewrite lookup_insert_eq, decide_True by done. done.
      * rewrite lookup_insert_ne, decide_False by (tauto || congruence). done.
  - destruct (decide (x = m)) as [->|].
    + rewrite lookup_insert_eq, decide_True by (split; [done|apply not_elem_of_empty]). done.
    + rewrite lookup_insert_ne, decide_False by (tauto || congruence). done.
Qed.

Lemma deps_add h m n s h' x :
  x ∈ deps_of (add h m n s) h' ↔ x ∈ deps_of s h' ∨ x = m ∧ h' = h.
Proof.
  unfold add, deps_of. destruct (s_deps s !! h) as [d|] eqn:E; simpl.
  - case_bool_decide as Hin; simpl.
    + split; [auto|]. intros [?|[-> ->]]; [done|]. by rewrite E.
    + destruct (decide (h' = h)) as [->|].
      * rewrite lookup_insert_eq, E. simpl. set_solver.
      * rewrite lookup_insert_ne by congruence. tauto.
  - destruct (decide (h' = h)) as [->|].
    + rewrite lookup_insert_eq, E. simpl. set_solver.
    + rewrite lookup_insert_ne by congruence. tauto.
Qed.

Lemma add_fields h m n s :
  s_todo (add h m n s) = s_todo s ∧ s_pending (add h m n s) = s_pending s ∧
  s_wait (add h m n s) = s_wait s ∧ s_err (add h m n s) = s_err s.
Proof. unfold add. destruct (s_deps s !! h); simpl; [case_bool_decide|]; done. Qed.

Lemma schedule_fields t s :
  s_counts (schedule t s) = s_counts s ∧ s_deps (schedule t s) = s_deps s ∧
  s_pending (schedule t s) = s_pending s ∧ s_wait (schedule t s) = s_wait s ∧
  s_err (schedule t s) = s_err s ∧
  (∀ x, x ∈ s_todo (schedule t s) ↔ x ∈ s_todo s ∨ x = t ∧ t ∉ s_pending s).
Proof.
  unfold schedule. case_bool_decide; simpl; split_and!; try done; intros x; [tauto|set_solver].
Qed.

(** * A round of Enqueue *)

Section round.
Context (rank : nat → nat) (WF : graph_wf rank) (view : nat → TaskState).

Definition idle (x : nat) : Prop := view x = TaskInit ∨ view x = TaskLost.
Definition waiting (x : nat) : Prop := view x ≠ TaskOk ∧ view x ≠ TaskErr.
#[local] Instance waiting_dec x : Decision (waiting x).
Proof. unfold waiting. apply _. Defined.

Definition nwait (h : nat) : nat := length (filter waiting (phase h)).
Definition complete (h : nat) : Prop := ∀ y, y ∈ phase h → view y = TaskOk ∨ view y = TaskErr.

(** The invariant of a round. *)
Record round_ok (X : gset nat) (s : state) : Prop := {
  ro_waits : waits_ok X s;
  ro_memo : ∀ h n, s_wait s !! h = Some n → head h = h ∧ n = Z.of_nat (nwait h) ∧
    ∀ x, x ∈ phase h → waiting x → opn ∅ s x;
  ro_todo : ∀ x, (1 <= count s x)%Z → x ∉ s_todo s;
  ro_settled : ∀ x, (1 <= count s x)%Z → idle x ∨ x ∈ s_pending s ∧ view x = TaskErr;
  ro_disjoint : ∀ x, x ∈ s_todo s → x ∉ s_pending s;
  ro_ready : ∀ x h, x ∈ s_todo s → idle x → h ∈ heads x → complete h;
}.

(** Phases below rank [r] that this round has not visited have no scheduled
    tasks. *)
Definition unscheduled (r : nat) (s : state) : Prop :=
  ∀ x, rank (head x) < r → head x ∉ dom (s_wait s) → x ∉ s_todo s.

(** From [s] to [s'] only tasks in [P] changed, scheduled tasks are in
    visited phases or in [Q], and open tasks stay open. *)
Record moves (r : nat) (P Q : nat → Prop) (s s' : state) : Prop := {
  mv_pending : s_pending s' = s_pending s;
  mv_err : s_err s' = s_err s;
  mv_wait : s_wait s ⊆ s_wait s';
  mv_open : ∀ x, opn ∅ s x → opn ∅ s' x;
  mv_frame : ∀ x, ¬ P x → count s' x = count s x ∧ (x ∈ s_todo s' ↔ x ∈ s_todo s) ∧
    ∀ h, x ∈ deps_of s' h ↔ x ∈ deps_of s h;
  mv_todo : ∀ x, x ∈ s_todo s' → x ∈ s_todo s ∨ head x ∈ dom (s_wait s') ∨ Q x;
  mv_visited : ∀ h, h ∈ dom (s_wait s') → h ∈ dom (s_wait s) ∨ rank h < r;
}.

Lemma moves_refl r P Q s : moves r P Q s s.
Proof. split; auto. Qed.

Lemma moves_trans r P Q s1 s2 s3 :
  moves r P Q s1 s2 → moves r P Q s2 s3 → moves r P Q s1 s3.
Proof.
  intros [A1 A2 A3 A4 A5 A6 A7] [B1 B2 B3 B4 B5 B6 B7]. split.
  - congruence.
  - congruence.
  - by etrans.
  - auto.
  - intros x Hx. destruct (A5 x Hx) as (H1 & H2 & H3), (B5 x Hx) as (H4 & H5 & H6).
    split_and!; [congruence|tauto|]. intros h. rewrite H6. apply H3.
  - intros x [Hx|[?|?]]%B6; [|auto|auto].
    apply A6 in Hx as [?|[?|?]]; [auto| |auto]. right. left. by eapply subseteq_dom.
  - intros h [Hh|?]%B7; [|auto]. auto.
Qed.

Lemma moves_weaken r r' (P P' Q Q' : nat → Prop) s s' :
  r ≤ r' → (∀ x, P x → P' x) → (∀ x, Q x → Q' x) → moves r P Q s s' → moves r' P' Q' s s'.
Proof.
  intros Hr HP HQ [A1 A2 A3 A4 A5 A6 A7]. split; [done..| | |].
  - intros x Hx. apply A5. auto.
  - intros x [?|[?|?]]%A6; auto.
  - intros h [?|?]%A7; [auto|]. right. lia.
Qed.

Lemma unscheduled_moves r r' P Q s s' :
  (∀ x, Q x → rank (head x) < r → False) →
  unscheduled r s → moves r' P Q s s' → unscheduled r s'.
Proof.
  intros HQ Hu Hm x Hx Hn Hin.
  destruct (mv_todo _ _ _ _ _ Hm x Hin) as [Ht|[?|?]]; [|done|by eapply HQ].
  apply (Hu x Hx); [|done]. intros Hd. apply Hn. eapply subseteq_dom; [apply Hm|done].
Qed.

Lemma opn_mono_wait X s w x : opn X (with_wait w s) x ↔ opn X s x.
Proof. done. Qed.

Lemma opn_X X s x : opn ∅ s x → opn X s x.
Proof. intros [[]%elem_of_empty|?]. by right. Qed.

(** An open task need not be listed as about to be enqueued. *)
Lemma round_ok_drop m X s : opn ∅ s m → round_ok ({[m]} ∪ X) s → round_ok X s.
Proof.
  intros Hm [A1 A2 A3 A4 A5 A6]. split; [|done..].
  intros x Hx. etrans; [by apply A1|]. apply inj_le, osum_mono; [done|].
  intros y [[->%elem_of_singleton|?]%elem_of_union|?]; [by apply opn_X|by left|by right].
Qed.

Lemma head_head t : head (head t) = head t.
Proof.
  apply (wf_phase rank WF t). unfold head, phase, Head, Phase.
  destruct (t_Group (tasks t)); by left.
Qed.

Lemma clear_round_ok m X s :
  head m ∉ dom (s_wait s) → round_ok X s → round_ok ({[m]} ∪ X) (clear m s).
Proof.
  intros Hd [A1 A2 A3 A4 A5 A6].
  assert (∀ x, x ≠ m → opn ∅ s x → opn ∅ (clear m s) x) as Hopn.
  { intros x Hx [?|[?|[?|?]]]; [by left|right; by left|right; right; by left|].
    right. right. right. by rewrite count_clear, decide_False. }
  split.
  - apply (waits_ok_same X s _ _ (λ x, x = m)); [| | |apply _|done].
    + intros x ->. rewrite count_clear, decide_True by done. lia.
    + intros x Hx. rewrite count_clear, decide_False by done. split; [done|].
      intros h Hin. by apply deps_clear.
    + intros x [?|[?|[?|?]]].
      * left. set_solver.
      * right. by left.
      * right. right. by left.
      * destruct (decide (x = m)) as [->|]; [left; set_solver|].
        right. right. right. by rewrite count_clear, decide_False.
  - intros h n Hn. destruct (A2 h n Hn) as (Hh & -> & Hop). split_and!; [done..|].
    intros x Hx Hw. apply Hopn; [|auto]. intros ->. apply Hd.
    destruct (wf_phase rank WF h m Hx) as [-> _]. rewrite Hh. by apply elem_of_dom_2 in Hn.
  - intros x. rewrite count_clear. case_decide; [lia|apply A3].
  - intros x. rewrite count_clear. case_decide; [lia|apply A4].
  - done.
  - done.
Qed.

Lemma schedule_opn X t s x : opn X s x → opn X (schedule t s) x.
Proof.
  destruct (schedule_fields t s) as (E1 & E2 & E3 & E4 & E5 & E6).
  unfold opn, count. rewrite E1, E3, E6. tauto.
Qed.

Lemma schedule_opens X t s : opn X (schedule t s) t.
Proof.
  destruct (schedule_fields t s) as (E1 & E2 & E3 & E4 & E5 & E6).
  unfold opn. rewrite E3, E6. destruct (decide (t ∈ s_pending s)); tauto.
Qed.

Lemma schedule_round_ok t X s :
  (count s t <= 0)%Z → (idle t → ∀ h, h ∈ heads t → complete h) →
  round_ok X s → round_ok X (schedule t s).
Proof.
  intros Hc Hr [A1 A2 A3 A4 A5 A6].
  destruct (schedule_fields t s) as (E1 & E2 & E3 & E4 & E5 & E6). split.
  - apply (waits_ok_same X s _ _ (λ _, False)); [done| |apply schedule_opn|apply _|done].
    intros m _. unfold count, deps_of. by rewrite E1, E2.
  - intros h n. rewrite E4. intros Hn. destruct (A2 h n Hn) as (? & ? & ?).
    split_and!; [done..|]. intros x Hx Hw. apply schedule_opn. auto.
  - intros x. unfold count. rewrite E1, E6. intros Hx [Hin|[-> _]]; [by apply (A3 x)|].
    unfold count in Hc. lia.
  - intros x. unfold count. rewrite E1, E3. apply A4.
  - intros x. rewrite E6, E3. intros [?|[-> ?]]; auto.
  - intros x h. rewrite E6. intros [?|[-> _]]; eauto.
Qed.

Lemma schedule_moves r (P Q : nat → Prop) t s : P t → Q t → moves r P Q s (schedule t s).
Proof.
  intros HP HQ. destruct (schedule_fields t s) as (E1 & E2 & E3 & E4 & E5 & E6).
  split; [done|done|by rewrite E4|apply schedule_opn| | |by rewrite E4; auto].
  - intros x Hx. unfold count, deps_of. rewrite E1, E2, E6. split_and!; [done| |done].
    split; [|auto]. intros [?|[-> _]]; [done|]. done.
  - intros x. rewrite E6. intros [?|[-> _]]; auto.
Qed.

Lemma add_opn X h m n s x : (0 <= n)%Z → opn X s x → opn X (add h m n s) x.
Proof.
  intros Hn. destruct (add_fields h m n s) as (E1 & E2 & E3 & E4). unfold opn.
  rewrite E1, E2, count_add. intros [?|[?|[?|?]]]; [tauto..|]. right. right. right.
  case_decide as Hd; [|done]. destruct Hd as [-> _]. lia.
Qed.

(** The members of a memoized phase that wait are open. *)
Lemma nwait_open X s h :
  (∀ x, x ∈ phase h → waiting x → opn X s x) → nwait h ≤ open_in X s h.
Proof.
  intros Hop. unfold nwait, open_in. induction (phase h) as [|x l IH]; simpl; [done|].
  assert (length (filter waiting l) ≤ length (filter (opn X s) l)).
  { apply IH. intros y Hy. apply Hop. by right. }
  rewrite !filter_cons. repeat case_decide; simpl; try lia.
  exfalso. eauto using list_elem_of_here.
Qed.

Lemma add_round_ok h m n X s :
  h ∈ heads m → idle m → m ∉ s_todo s → (0 <= count s m)%Z →
  s_wait s !! h = Some n → (1 <= n)%Z →
  round_ok X s → round_ok X (add h m n s).
Proof.
  intros Hh Hi Ht Hc Hn Hn1 [A1 A2 A3 A4 A5 A6].
  destruct (add_fields h m n s) as (E1 & E2 & E3 & E4).
  destruct (A2 h n Hn) as (_ & Hnw & Hop). split.
  - apply (waits_ok_same X s _ _ (λ x, x = m)); [| | |apply _|done].
    + intros x -> _. rewrite count_add.
      assert (osum X s m ≤ osum X (add h m n s) m) as Hmono.
      { apply osum_mono; [intros h' Hh'; apply deps_add; by left|].
        intros x. apply add_opn. lia. }
      assert (count s m <= Z.of_nat (osum X s m))%Z as Hold.
      { destruct (decide (1 <= count s m)%Z); [by apply A1|]. lia. }
      case_decide as Hd; [|lia]. destruct Hd as [_ Hd].
      assert (osum X s m + nwait h ≤ osum X (add h m n s) m + 0); [|lia].
      apply sum_at with h.
      * apply NoDup_remove_dups.
      * by apply elem_of_remove_dups.
      * intros h' _ _. apply awaited_mono; [intros; apply deps_add; by left|].
        intros x. apply add_opn. lia.
      * unfold awaited. rewrite decide_False by done. rewrite decide_True by (apply deps_add; by right).
        simpl. rewrite Nat.add_0_r. apply nwait_open. intros x Hx Hw.
        apply opn_X, add_opn; [lia|auto].
    + intros x Hx. rewrite count_add, decide_False by tauto. split; [done|].
      intros h' Hh'. apply deps_add. by left.
    + intros x. apply add_opn. lia.
  - intros h' n'. rewrite E3. intros Hn'. destruct (A2 h' n' Hn') as (? & ? & ?).
    split_and!; [done..|]. intros x Hx Hw. apply add_opn; [lia|auto].
  - intros x. rewrite count_add, E1. case_decide as Hd; [|apply A3]. by destruct Hd as [-> _].
  - intros x. rewrite count_add, E2. case_decide as Hd; [|apply A4]. destruct Hd as [-> _]. by left.
  - by rewrite E1, E2.
  - by rewrite E1.
Qed.

Lemma add_moves r (P Q : nat → Prop) h m n s :
  P m → (0 <= n)%Z → moves r P Q s (add h m n s).
Proof.
  intros HP Hn. destruct (add_fields h m n s) as (E1 & E2 & E3 & E4).
  split; [done|done|by rewrite E3|intros x; by apply add_opn| |rewrite E1; auto|by rewrite E3; auto].
  intros x Hx. rewrite count_add, decide_False, E1 by (intros [-> _]; done).
  split_and!; [done..|]. intros h'. rewrite deps_add. split; [|auto]. by intros [?|[-> _]].
Qed.

Lemma nwait_complete h : nwait h = 0 → complete h.
Proof.
  unfold nwait, complete. intros Hn y Hy.
  destruct (decide (view y = TaskOk)); [by left|].
  destruct (decide (view y = TaskErr)); [by right|].
  apply length_zero_iff_nil in Hn.
  assert (y ∈ filter waiting (phase h)) as Hin by (apply list_elem_of_filter; done).
  rewrite Hn in Hin. by apply elem_of_nil in Hin.
Qed.

(** What one call of Enqueue establishes. *)
Definition enqueues (enq : state → nat → outcome (state * Z)) (r : nat) : Prop :=
  ∀ s t X, rank (head t) < r → round_ok X s → unscheduled (S (rank (head t))) s →
    ∃ s', enq s t = Ret (s', Z.of_nat (nwait t)) ∧ round_ok X s' ∧
      s_wait s' !! head t = Some (Z.of_nat (nwait t)) ∧
      moves (S (rank (head t))) (λ x, rank (head x) < S (rank (head t))) (λ _, False) s s'.

(** The tasks below rank [r], and [m] itself. *)
Definition below (r m x : nat) : Prop := rank (head x) < r ∨ x = m.

Lemma enqueue_deps_spec enq m r X hs s ready :
  enqueues enq r → rank (head m) = r → idle m → (∀ h, h ∈ hs → h ∈ heads m) →
  round_ok X s → unscheduled r s → m ∉ s_todo s →
  (if ready : bool then count s m = 0%Z ∧ ∀ h, h ∈ heads m → m ∉ deps_of s h
   else (1 <= count s m)%Z) →
  ∃ s' b, enqueue_deps enq m hs s ready = Ret (s', b) ∧ round_ok X s' ∧
    moves r (below r m) (λ _, False) s s' ∧ (m ∉ s_todo s') ∧
    if b : bool then ready = true ∧ count s' m = 0%Z ∧ ∀ h, h ∈ hs → complete h
    else (1 <= count s' m)%Z.
Proof.
  intros Henq Hr Hi. revert s ready. induction hs as [|h hs IH]; intros s ready Hhs Hok Hu Hm Hrd.
  { exists s, ready. split_and!; [done|done|apply moves_refl|done|].
    destruct ready; [|done]. split_and!; [done|apply Hrd|]. intros h Hh. by apply elem_of_nil in Hh. }
  assert (h ∈ heads m) as Hh by (apply Hhs; left).
  pose proof (wf_head rank WF m h Hh) as Hhh. pose proof (wf_rank rank WF m h Hh) as Hrk.
  assert (rank (head h) < r) as Hrk' by (rewrite Hhh; lia).
  destruct (Henq s h X) as (s1 & He & Hok1 & Hw1 & Hmv); [done|done| |].
  { intros x Hx. apply Hu. lia. }
  assert (moves r (below r m) (λ _, False) s s1) as Hmv1.
  { eapply moves_weaken; [| | |exact Hmv]; [lia| |done]. intros x Hx. left. simpl in Hx. lia. }
  destruct (mv_frame _ _ _ _ _ Hmv m) as (Hc1 & Ht1 & Hd1); [simpl; lia|].
  assert (m ∉ s_todo s1) as Hm1 by (by rewrite Ht1).
  assert (unscheduled r s1) as Hu1 by (eapply unscheduled_moves; [|done|done]; done).
  simpl. rewrite He. simpl. destruct (Z.eqb_spec (Z.of_nat (nwait h)) 0) as [E|E].
  - destruct (IH s1 ready) as (s' & b & HE & Hok' & Hmv' & Hm' & Hb); try done.
    { intros h' Hh'. apply Hhs. by right. }
    { destruct ready; [|by rewrite Hc1]. destruct Hrd as [Hrd1 Hrd2]. split; [by rewrite Hc1|].
      intros h' Hh'. rewrite Hd1. auto. }
    exists s', b. split_and!; [done|done|by eapply moves_trans|done|].
    destruct b; [|done]. destruct Hb as (? & ? & Hb). split_and!; [done|done|].
    intros h' [->|Hh']%elem_of_cons; [|auto]. apply nwait_complete. lia.
  - rewrite Hhh in Hw1.
    assert (0 <= count s1 m)%Z as Hc0 by (rewrite Hc1; destruct ready; [destruct Hrd|]; lia).
    set (s2 := add h m (Z.of_nat (nwait h)) s1).
    destruct (IH s2 false) as (s' & b & HE & Hok' & Hmv' & Hm' & Hb).
    + intros h' Hh'. apply Hhs. by right.
    + apply add_round_ok; try done. lia.
    + eapply unscheduled_moves with (Q := λ _, False) (r' := r) (P := below r m); [done|exact Hu1|].
      apply add_moves; [by right|lia].
    + unfold s2. by destruct (add_fields h m (Z.of_nat (nwait h)) s1) as (-> & _).
    + unfold s2. rewrite count_add. destruct ready.
      * rewrite decide_True; [lia|]. split; [done|]. rewrite Hd1. by apply Hrd.
      * case_decide; lia.
    + exists s', b. split_and!; [done|done| |done|].
      * eapply moves_trans; [exact Hmv1|]. eapply moves_trans; [|exact Hmv'].
        apply add_moves; [by right|lia].
      * destruct b; [|done]. by destruct Hb.
Qed.

(** The tasks that a phase loop over [ts] may change and schedule. *)
Definition within (r : nat) (ts : list nat) (x : nat) : Prop := rank (head x) < r ∨ x ∈ ts.

(** One idle task of a phase. *)
Lemma enqueue_idle enq m r X s :
  enqueues enq r → rank (head m) = r → idle m → head m ∉ dom (s_wait s) →
  round_ok X s → unscheduled r s → m ∉ s_todo s →
  ∃ s1 b, enqueue_deps enq m (heads m) (clear m s) true = Ret (s1, b) ∧
    let s' := if b : bool then schedule m s1 else s1 in
    round_ok X s' ∧ opn ∅ s' m ∧ moves r (within r [m]) (λ x, x = m) s s'.
Proof.
  intros Henq Hr Hi Hd Hok Hu Hm.
  destruct (enqueue_deps_spec enq m r ({[m]} ∪ X) (heads m) (clear m s) true)
    as (s1 & b & HE & Hok1 & Hmv & Hm1 & Hb); try done.
  { by apply clear_round_ok. }
  { rewrite count_clear, decide_True by done. split; [done|].
    intros h Hh. rewrite deps_clear. tauto. }
  exists s1, b. split; [done|]. cbn zeta. set (s' := if b then schedule m s1 else s1).
  assert (opn ∅ s' m) as Hopn.
  { unfold s'. destruct b; [apply schedule_opens|]. right. right. by right. }
  assert (moves r (below r m) (λ x, x = m) (clear m s) s') as Hmv'.
  { eapply moves_trans; [by eapply moves_weaken; [| | |exact Hmv]|].
    unfold s'. destruct b; [|apply moves_refl]. apply schedule_moves; [by right|done]. }
  split_and!; [|done|].
  - apply round_ok_drop with m; [done|]. unfold s'. destruct b; [|done].
    destruct Hb as (_ & Hc & Hall). apply schedule_round_ok; [lia|auto|done].
  - destruct Hmv' as [B1 B2 B3 B4 B5 B6 B7]. split; [done..| | |done|done].
    + intros x Hx. destruct (decide (x = m)) as [->|Hne]; [done|]. apply B4.
      unfold opn in *. by rewrite count_clear, decide_False.
    + intros x Hx. destruct (B5 x) as (H1 & H2 & H3).
      { intros [?| ->]; apply Hx; [by left|right; by left]. }
      assert (x ≠ m) as Hne by (intros ->; apply Hx; right; left).
      rewrite count_clear, decide_False in H1 by done. split_and!; [done..|].
      intros h. rewrite H3, deps_clear. tauto.
Qed.

Lemma moves_within r t ts s s' :
  moves r (within r [t]) (λ x, x = t) s s' → moves r (within r (t :: ts)) (.∈ t :: ts) s s'.
Proof.
  apply moves_weaken; [done| |].
  - intros x [?| ->%list_elem_of_singleton]; [by left|right; left].
  - intros x ->. left.
Qed.

Lemma moves_within_tail r t ts s s' :
  moves r (within r ts) (.∈ ts) s s' → moves r (within r (t :: ts)) (.∈ t :: ts) s s'.
Proof.
  apply moves_weaken; [done| |].
  - intros x [?|?]; [by left|right; by right].
  - intros x ?. by right.
Qed.

Lemma enqueue_phase_spec enq h r ts X s nw :
  enqueues enq r → rank h = r → (∀ x, x ∈ ts → head x = h) → NoDup ts →
  h ∉ dom (s_wait s) → round_ok X s → unscheduled r s → (∀ x, x ∈ ts → x ∉ s_todo s) →
  ∃ s', enqueue_phase view enq ts s nw = Ret (s', (nw + Z.of_nat (length (filter waiting ts)))%Z) ∧
    round_ok X s' ∧ (∀ x, x ∈ ts → waiting x → opn ∅ s' x) ∧
    moves r (within r ts) (.∈ ts) s s'.
Proof.
  intros Henq Hr. revert s nw. induction ts as [|t ts IH]; intros s nw Hh Hnd Hd Hok Hu Hts.
  { exists s. simpl. rewrite Z.add_0_r. split_and!; [done|done| |apply moves_refl].
    intros x Hx. by apply elem_of_nil in Hx. }
  apply list.NoDup_cons in Hnd as [Hnin Hnd].
  assert (head t = h) as Hht by (apply Hh; left).
  assert (rank (head t) = r) as Hrt by by rewrite Hht.
  (* the state after handling [t], and the induction hypothesis from there *)
  assert (∀ s1 nw1, round_ok X s1 → (waiting t → opn ∅ s1 t) →
    nw1 = (nw + if decide (waiting t) then 1 else 0)%Z →
    moves r (within r [t]) (λ x, x = t) s s1 →
    ∃ s', enqueue_phase view enq ts s1 nw1 =
        Ret (s', (nw + Z.of_nat (length (filter waiting (t :: ts))))%Z) ∧
      round_ok X s' ∧ (∀ x, x ∈ t :: ts → waiting x → opn ∅ s' x) ∧
      moves r (within r (t :: ts)) (.∈ t :: ts) s s') as Hnext.
  { intros s1 nw1 Hok1 Hop1 -> Hmv1.
    destruct (IH s1 (nw + if decide (waiting t) then 1 else 0)%Z) as (s' & HE & Hok' & Hop' & Hmv').
    - intros x Hx. apply Hh. by right.
    - done.
    - intros [?|Hlt]%(mv_visited _ _ _ _ _ Hmv1); [done|]. lia.
    - done.
    - eapply unscheduled_moves; [|exact Hu|exact Hmv1]. intros x -> Hlt. lia.
    - intros x Hx. destruct (mv_frame _ _ _ _ _ Hmv1 x) as (_ & -> & _); [|apply Hts; by right].
      intros [Hlt| ->%list_elem_of_singleton]; [|done]. rewrite Hh in Hlt by (by right). lia.
    - exists s'. split_and!; [|done| |].
      + rewrite HE. rewrite filter_cons. case_decide; simpl; do 2 f_equal; lia.
      + intros x [->|Hx]%elem_of_cons Hw; [|auto]. by apply Hmv', Hop1.
      + eapply moves_trans; [by apply moves_within|by apply moves_within_tail]. }
  assert (idle t → enqueue_phase view enq (t :: ts) s nw =
    ('(s, ready) ← enqueue_deps enq t (heads t) (clear t s) true;
     enqueue_phase view enq ts (if ready : bool then schedule t s else s) (nw + 1))) as Hidle.
  { intros [Ev|Ev]; simpl; by rewrite Ev. }
  assert (idle t → waiting t) as Hiw.
  { unfold idle, waiting. intros [->| ->]; done. }
  destruct (decide (idle t)) as [Hi|Hi].
  - rewrite Hidle by done.
    destruct (enqueue_idle enq t r X s) as (s1 & b & HE & Hok1 & Hop1 & Hmv1); try done.
    { by rewrite Hht. }
    { apply Hts. left. }
    rewrite HE. simpl. apply Hnext; [done|done| |done]. by rewrite decide_True by auto.
  - simpl. assert (view t = TaskOk ∨ view t = TaskErr ∨ view t = TaskWaiting ∨ view t = TaskRunning)
      as Hv by (unfold idle in Hi; destruct (view t); tauto).
    assert (waiting t ↔ view t = TaskWaiting ∨ view t = TaskRunning) as Hw.
    { unfold waiting. destruct Hv as [->|[->|[->| ->]]]; naive_solver. }
    destruct Hv as [Ev|[Ev|Ev]].
    1-2: rewrite Ev; apply Hnext; [done|by rewrite Hw, Ev; intros [?|?]| |apply moves_refl];
      rewrite decide_False by (by rewrite Hw, Ev; intros [?|?]); lia.
    replace (match view t with TaskInit | TaskLost => _ | TaskOk | TaskErr => _ | _ => _ end)
      with (enqueue_phase view enq ts (schedule t s) (nw + 1)) by (by destruct Ev as [-> | ->]).
    apply Hnext.
    + apply schedule_round_ok; [|done|done].
      destruct (decide (1 <= count s t)%Z) as [Hc|]; [|lia]. exfalso.
      apply (ro_settled _ _ Hok) in Hc as [?|[_ ?]]; [done|]. destruct Ev; congruence.
    + intros _. apply schedule_opens.
    + by rewrite decide_True by by apply Hw.
    + apply schedule_moves; [right; left|done].
Qed.

Lemma Enqueue_spec fuel : enqueues (Enqueue fuel view) fuel.
Proof.
  induction fuel as [|fuel IH]; intros s t X Hrk Hok Hu; [lia|].
  assert (nwait (head t) = nwait t) as Hnt.
  { unfold nwait. destruct (wf_phase rank WF (head t) t) as [_ ->]; [|done].
    destruct (wf_phase rank WF t (head t)) as [_ ->]; [|apply (wf_self rank WF)].
    unfold head, phase, Head, Phase. destruct (t_Group (tasks t)); by left. }
  simpl. destruct (s_wait s !! head t) as [n|] eqn:Ew.
  { destruct (ro_memo _ _ Hok _ _ Ew) as (_ & -> & _). rewrite Hnt in *. exists s.
    split_and!; [done|done|done|apply moves_refl]. }
  assert (enqueues (Enqueue fuel view) (rank (head t))) as IH'.
  { intros s0 t0 X0 Hlt. apply IH. lia. }
  destruct (enqueue_phase_spec (Enqueue fuel view) (head t) (rank (head t)) (phase t) X s 0)
    as (s1 & HE & Hok1 & Hop1 & Hmv1); try done.
  { intros x Hx. by apply (wf_phase rank WF). }
  { apply (wf_nodup rank WF). }
  { by apply not_elem_of_dom. }
  { intros x Hx. apply Hu. lia. }
  { intros x Hx. destruct (wf_phase rank WF t x Hx) as [Hhx _].
    apply Hu; rewrite Hhx; [lia|]. by apply not_elem_of_dom. }
  rewrite HE. simpl. eexists. split; [done|]. simpl. split_and!.
  - destruct Hok1 as [A1 A2 A3 A4 A5 A6]. split; [done| |done..].
    simpl. intros h n [[<- <-]|[Hne Hn]]%lookup_insert_Some; [|by apply A2].
    split_and!; [apply head_head|by rewrite Hnt|].
    intros x Hx Hw. apply Hop1; [|done].
    destruct (wf_phase rank WF (head t) t) as [_ ->]; [|done].
    destruct (wf_phase rank WF t (head t)) as [_ ->]; [|apply (wf_self rank WF)].
    unfold head, phase, Head, Phase. destruct (t_Group (tasks t)); by left.
  - by rewrite lookup_insert_eq.
  - destruct Hmv1 as [B1 B2 B3 B4 B5 B6 B7]. split; [done|done| |done| | |].
    + etrans; [exact B3|]. simpl. apply insert_subseteq. apply not_elem_of_dom.
      intros [Hd|Hd]%B7; [|lia]. by apply not_elem_of_dom in Ew.
    + intros x Hx. apply B5. intros [?|Hin]; [apply Hx; simpl; lia|].
      destruct (wf_phase rank WF t x Hin) as [Hhx _]. apply Hx. rewrite Hhx. lia.
    + simpl. intros x [?|[?|Hin]]%B6; [by left| |]; right; left; rewrite dom_insert, elem_of_union; [by right|].
      left. apply elem_of_singleton. by apply (wf_phase rank WF).
    + simpl. intros h. rewrite dom_insert, elem_of_union, elem_of_singleton.
      intros [->|[?|?]%B7]; [right; lia|by left|right; lia].
Qed.

(** ** Rounds *)

Context (fuel : nat) (FUEL : ∀ t, rank (head t) < fuel).

(** In a round, scheduled tasks are in visited phases. *)
Definition visited (s : state) : Prop := ∀ x, x ∈ s_todo s → head x ∈ dom (s_wait s).

Lemma visited_unscheduled r s : visited s → unscheduled r s.
Proof. intros Hv x _ Hd Hx. auto. Qed.

Lemma Enqueue_round s t X :
  round_ok X s → visited s →
  ∃ s', Enqueue fuel view s t = Ret (s', Z.of_nat (nwait t)) ∧ round_ok X s' ∧ visited s' ∧
    s_pending s' = s_pending s ∧ s_err s' = s_err s ∧
    (∀ x, opn ∅ s x → opn ∅ s' x) ∧ (∀ x, x ∈ phase t → waiting x → opn ∅ s' x).
Proof.
  intros Hok Hv.
  destruct (Enqueue_spec fuel s t X) as (s' & HE & Hok' & Hw & [B1 B2 B3 B4 B5 B6 B7]);
    [done|done|by apply visited_unscheduled|].
  exists s'. split_and!; try done.
  - intros x [Hx|[?|[]]]%B6; [|done]. eapply subseteq_dom; [exact B3|auto].
  - intros x Hx. destruct (ro_memo _ _ Hok' _ _ Hw) as (_ & _ & Hop). apply Hop.
    destruct (wf_phase rank WF t (head t)) as [_ ->]; [|done].
    unfold head, phase, Head, Phase. destruct (t_Group (tasks t)); by left.
Qed.

Lemma Enqueue_all_round ts s X :
  round_ok X s → visited s →
  ∃ s', Enqueue_all fuel view ts s = Ret s' ∧ round_ok X s' ∧ visited s' ∧
    s_pending s' = s_pending s ∧ s_err s' = s_err s ∧
    (∀ x, opn ∅ s x → opn ∅ s' x) ∧
    (∀ t x, t ∈ ts → x ∈ phase t → waiting x → opn ∅ s' x).
Proof.
  revert s. induction ts as [|t ts IH]; intros s Hok Hv.
  { exists s. split_and!; try done. intros t x Ht. by apply elem_of_nil in Ht. }
  destruct (Enqueue_round s t X) as (s1 & HE & Hok1 & Hv1 & Hp1 & He1 & Hop1 & Ht1); [done..|].
  destruct (IH s1) as (s' & HE' & Hok' & Hv' & Hp' & He' & Hop' & Ht'); [done..|].
  exists s'. split_and!; [|done|done|congruence|congruence|auto|].
  - simpl. by rewrite HE.
  - intros t' x [->|Ht0]%elem_of_cons Hx Hw; [auto|by eapply Ht'].
Qed.

Lemma round_ok_drop_all ts X s :
  (∀ x, x ∈ ts → opn ∅ s x) → round_ok (list_to_set ts ∪ X) s → round_ok X s.
Proof.
  induction ts as [|t ts IH]; simpl; intros Hop.
  - by rewrite (left_id_L ∅ (∪)).
  - rewrite <-(assoc_L (∪)). intros Hok. apply IH.
    + intros x Hx. apply Hop. by right.
    + apply round_ok_drop with t; [|done]. apply Hop. left.
Qed.

(** ** Completion of a task *)

Lemma done_loop_spec dsts s :
  NoDup dsts →
  let '(s', ready) := done_loop dsts s in
  (∀ x, count s' x = (count s x - if decide (x ∈ dsts) then 1 else 0)%Z) ∧
  (∀ x, x ∈ ready ↔ x ∈ dsts ∧ count s x = 1%Z) ∧
  s_deps s' = s_deps s ∧ s_todo s' = s_todo s ∧ s_pending s' = s_pending s ∧
  s_wait s' = s_wait s ∧ s_err s' = s_err s.
Proof.
  revert s. induction dsts as [|d dsts IH]; intros s Hnd; cbn [done_loop].
  { split_and!; try done; intros x.
    - rewrite decide_False; [lia|]. apply not_elem_of_nil.
    - split; [|by intros [? _]]. intros Hx. by apply elem_of_nil in Hx. }
  apply list.NoDup_cons in Hnd as [Hd Hnd].
  set (s1 := with_counts (<[d := (count s d - 1)%Z]> (s_counts s)) s).
  assert (∀ x, count s1 x = if decide (x = d) then (count s d - 1)%Z else count s x) as Hc1.
  { intros x. unfold count, s1. simpl. case_decide as E.
    - subst. by rewrite lookup_insert_eq.
    - by rewrite lookup_insert_ne by congruence. }
  specialize (IH s1 Hnd). destruct (done_loop dsts s1) as [s' ready] eqn:E.
  destruct IH as (I1 & I2 & I3). split_and!; try apply I3.
  - intros x. rewrite I1, Hc1. destruct (decide (x = d)) as [->|Hne].
    + rewrite decide_False, decide_True by (done || left). lia.
    + destruct (decide (x ∈ dsts)) as [Hin|Hin].
      * rewrite decide_True; [done|by right].
      * rewrite decide_False; [done|]. by intros [|]%elem_of_cons.
  - intros x. assert (x ∈ ready ↔ x ∈ dsts ∧ count s x = 1%Z) as Hr.
    { rewrite I2, Hc1. case_decide as Ed; [subst; tauto|done]. }
    destruct (Z.eqb_spec (count s d - 1) 0) as [Ez|Ez].
    + rewrite !elem_of_cons, Hr. split; [|tauto].
      intros [->|?]; [|tauto]. split; [by left|lia].
    + rewrite elem_of_cons, Hr. split; [tauto|]. intros [[->|?] ?]; [lia|tauto].
Qed.

(** The bookkeeping between rounds. *)
Record base_ok (s : state) : Prop := {
  bo_waits : waits_ok ∅ s;
  bo_todo : ∀ x, (1 <= count s x)%Z → x ∉ s_todo s;
  bo_settled : ∀ x, (1 <= count s x)%Z → idle x ∨ x ∈ s_pending s ∧ view x = TaskErr;
  bo_disjoint : ∀ x, x ∈ s_todo s → x ∉ s_pending s;
}.

Lemma round_base s : round_ok ∅ s → base_ok s.
Proof. intros [A1 A2 A3 A4 A5 A6]. by split. Qed.

(** Starting a round with the returned task [t] removed from the pending
    ones. *)
Abbreviation returned t s := (with_pending (s_pending s ∖ {[t]}) (with_wait ∅ s)).

Lemma open_in_without X s X' s' h t :
  (∀ x, x ≠ t → opn X s x → opn X' s' x) → open_in X s h ≤ open_in X' s' h + 1.
Proof.
  intros Hm. unfold open_in. pose proof (wf_nodup rank WF h) as Hnd.
  induction Hnd as [|x l Hx Hnd IH]; simpl; [lia|].
  rewrite !filter_cons. destruct (decide (x = t)) as [->|Hne].
  - assert (length (filter (opn X s) l) ≤ length (filter (opn X' s') l)) as Hle.
    { clear IH Hnd. induction l as [|y l IH]; simpl; [done|].
      apply not_elem_of_cons in Hx as [Hy Hx]. specialize (IH Hx).
      rewrite !filter_cons. repeat case_decide; simpl; try lia. exfalso. auto. }
    repeat case_decide; simpl; lia.
  - repeat case_decide; simpl; try lia. exfalso. auto.
Qed.

Lemma open_in_other X s X' s' h t :
  head h = h → h ≠ head t →
  (∀ x, x ≠ t → opn X s x → opn X' s' x) → open_in X s h ≤ open_in X' s' h.
Proof.
  intros Hh Hne Hm. apply open_in_mono. intros x Hx. apply Hm. intros ->.
  destruct (wf_phase rank WF h t Hx) as [E _]. congruence.
Qed.

Lemma awaited_deps X s X' s' m h k :
  s_deps s' = s_deps s →
  (m ∈ deps_of s h → open_in X s h ≤ open_in X' s' h + k) →
  awaited X s m h ≤ awaited X' s' m h + k.
Proof.
  intros Hd Ho. unfold awaited. destruct (decide (m ∈ deps_of s h)) as [Hin|Hin]; [|lia].
  rewrite decide_True; [auto|]. unfold deps_of. by rewrite Hd.
Qed.

Context (RANGE : ∀ X, range X ≡ₚ elements X).

(** When [t] completes, its dependents are owed one completion less, and
    those that are owed none are about to be enqueued. *)
Lemma done_round_ok t s :
  base_ok s → s_todo s = ∅ → view t = TaskOk →
  let '(s1, ready) := done_ (head t) (returned t s) in
  round_ok (list_to_set ready ∪ ∅) s1 ∧ visited s1 ∧ s_err s1 = s_err s ∧
  (∀ x, x ∈ ready → idle x ∨ opn ∅ s1 x) ∧
  (∀ x, x ≠ t → opn ∅ s x → opn ∅ s1 x ∨ x ∈ ready).
Proof.
  intros [A1 A2 A3 A4] Ht Hv.
  assert (∀ x, x ∈ range (deps_of s (head t)) ↔ x ∈ deps_of s (head t)) as Hrg.
  { intros x. by rewrite RANGE, elem_of_elements. }
  pose proof (done_loop_spec (range (deps_of s (head t))) (returned t s)) as Hd.
  unfold done_. change (deps_of (returned t s)) with (deps_of s) in *.
  destruct (done_loop _ _) as [s1 ready].
  destruct Hd as (Hc & Hr & Hdeps & Htodo & Hpend & Hwait & Herr).
  { rewrite RANGE. apply NoDup_elements. }
  change (count (returned t s)) with (count s) in *. simpl in Hdeps, Htodo, Hpend, Hwait, Herr.
  assert (∀ x, x ≠ t → opn ∅ s x → opn ∅ s1 x ∨ x ∈ ready) as Hop.
  { intros x Hx [[]%elem_of_empty|[Hin|[Hin|Hcx]]].
    - rewrite Ht in Hin. by apply elem_of_empty in Hin.
    - left. right. right. left. rewrite Hpend. set_solver.
    - destruct (decide (x ∈ range (deps_of s (head t)) ∧ count s x = 1%Z)) as [Hrx|Hrx].
      + right. by apply Hr.
      + left. right. right. right. rewrite Hc. case_decide; [|lia].
        assert (count s x ≠ 1%Z) by tauto. lia. }
  assert (∀ x, x ≠ t → opn ∅ s x → opn (list_to_set ready ∪ ∅) s1 x) as Hop'.
  { intros x Hx Ho. destruct (Hop x Hx Ho) as [?|?]; [by apply opn_X|]. left. set_solver. }
  assert (∀ x, (1 <= count s1 x)%Z → (1 <= count s x)%Z) as Hc'.
  { intros x. rewrite Hc. case_decide; lia. }
  split_and!; [split| | | |done].
  - intros m Hm. pose proof (A1 m (Hc' m Hm)) as Hs. rewrite Hc in *.
    set (k := if decide (m ∈ range (deps_of s (head t))) then 1 else 0).
    assert (osum ∅ s m + 0 ≤ osum (list_to_set ready ∪ ∅) s1 m + k) as Hsum.
    { assert (∀ h, h ∈ heads m → h ≠ head t →
        awaited ∅ s m h ≤ awaited (list_to_set ready ∪ ∅) s1 m h) as Hother.
      { intros h Hh Hne. rewrite <-(Nat.add_0_r (awaited _ s1 m h)).
        apply awaited_deps; [done|]. intros _. rewrite Nat.add_0_r.
        eapply open_in_other; [exact (wf_head rank WF m h Hh)|exact Hne|done]. }
      destruct (decide (head t ∈ heads m)) as [Hin|Hin].
      - apply sum_at with (head t); [apply NoDup_remove_dups|by apply elem_of_remove_dups| |].
        + intros h Hh. rewrite elem_of_remove_dups in Hh. intros Hne. by apply Hother.
        + rewrite Nat.add_0_r. apply awaited_deps; [done|]. intros Hin2. unfold k.
          rewrite decide_True by by apply Hrg. by eapply open_in_without.
      - assert (osum ∅ s m ≤ osum (list_to_set ready ∪ ∅) s1 m); [|lia].
        apply sum_mono. intros h Hh. rewrite elem_of_remove_dups in Hh.
        apply Hother; [done|]. by intros ->. }
    unfold k in Hsum. case_decide; lia.
  - intros h n. rewrite Hwait. by rewrite lookup_empty.
  - intros x _. rewrite Htodo, Ht. apply not_elem_of_empty.
  - intros x Hx. destruct (A3 x (Hc' x Hx)) as [?|[Hp Hxe]]; [by left|right].
    split; [|done]. rewrite Hpend. apply elem_of_difference. split; [done|].
    rewrite elem_of_singleton. congruence.
  - intros x. rewrite Htodo, Ht. intros []%elem_of_empty.
  - intros x h. rewrite Htodo, Ht. intros []%elem_of_empty.
  - intros x. rewrite Htodo, Ht. intros []%elem_of_empty.
  - done.
  - intros x Hx. apply Hr in Hx as [_ Hx]. destruct (A3 x) as [?|[Hp Hxe]]; [lia|by left|right].
    right. right. left. rewrite Hpend. apply elem_of_difference. split; [done|].
    rewrite elem_of_singleton. congruence.
Qed.

Lemma returned_round_ok t s :
  base_ok s → s_todo s = ∅ → idle t → round_ok ({[t]} ∪ ∅) (returned t s).
Proof.
  intros [A1 A2 A3 A4] Ht Hi. split.
  - apply (waits_ok_same ∅ s _ _ (λ _, False)); [done|by intros| |apply _|done].
    intros x [?|[?|[?|?]]].
    + set_solver.
    + right. by left.
    + destruct (decide (x = t)) as [->|]; [left; set_solver|].
      right. right. left. simpl. set_solver.
    + right. right. by right.
  - intros h n. simpl. by rewrite lookup_empty.
  - done.
  - intros x Hx. destruct (A3 x Hx) as [?|[Hp Hxe]]; [by left|right].
    split; [|done]. simpl. apply elem_of_difference. split; [done|].
    rewrite elem_of_singleton. intros ->. unfold idle in Hi. destruct Hi; congruence.
  - intros x. simpl. rewrite Ht. intros []%elem_of_empty.
  - intros x h. simpl. rewrite Ht. intros []%elem_of_empty.
Qed.

(** One call of Return, for a settled pending task. *)
Lemma Return_round t s :
  base_ok s → s_todo s = ∅ → t ∈ s_pending s → s_err s = None →
  (TaskState_Z TaskOk <= TaskState_Z (view t))%Z →
  ∃ s', Return fuel view (view t) t s = Ret s' ∧
    (s_err s' = None → round_ok ∅ s' ∧
      ∀ x, opn ∅ s x → opn ∅ s' x ∨ x = t ∧ view t = TaskOk).
Proof.
  intros Hb Ht Hp He Hv. unfold Return. rewrite bool_decide_eq_true_2 by done. simpl.
  destruct (view t) eqn:Ev; try (exfalso; simpl in Hv; lia).
  - pose proof (done_round_ok t s Hb Ht Ev) as Hd.
    destruct (done_ (head t) _) as [s1 ready]. destruct Hd as (Hok1 & Hv1 & He1 & Hr1 & Hop1).
    destruct (Enqueue_all_round ready s1 (list_to_set ready ∪ ∅))
      as (s' & HE & Hok' & Hv' & Hp' & He' & Hop' & Hr'); [done..|].
    assert (∀ x, x ∈ ready → opn ∅ s' x) as Hall.
    { intros x Hx. destruct (Hr1 x Hx) as [Hi|?]; [|auto]. apply (Hr' x x); [done|apply (wf_self rank WF)|].
      unfold waiting, idle in *. destruct Hi as [->| ->]; done. }
    exists s'. split; [done|]. intros _. split; [by apply round_ok_drop_all with ready|].
    intros x Hx. destruct (decide (x = t)) as [->|Hne]; [by right|left].
    destruct (Hop1 x Hne Hx); auto.
  - eexists. split; [done|]. simpl. done.
  - assert (idle t) as Hi by by right.
    destruct (Enqueue_round (returned t s) t ({[t]} ∪ ∅)) as (s' & HE & Hok' & Hv' & Hp' & He' & Hop' & Ht').
    { by apply returned_round_ok. }
    { intros x. simpl. rewrite Ht. intros []%elem_of_empty. }
    assert (opn ∅ s' t) as Hot.
    { apply Ht'; [apply (wf_self rank WF)|]. unfold waiting. by rewrite Ev. }
    exists s'. rewrite HE. split; [done|]. intros _. split; [by apply round_ok_drop with t|].
    intros x Hx. left. destruct (decide (x = t)) as [->|Hne]; [done|]. apply Hop'.
    destruct Hx as [?|[?|[?|?]]]; [by left|right; by left| |right; right; by right].
    right. right. left. simpl. set_solver.
Qed.
End round.

(** * The evaluation loop *)

Section run.
Context (rank : nat → nat) (WF : graph_wf rank) (RANGE : ∀ X, range X ≡ₚ elements X).
Context (fuel : nat) (FUEL : ∀ t, rank (head t) < fuel).

(** An evaluation of [roots], started when no task was in error, with only
    this evaluator running tasks. *)
Definition started (roots : list nat) (y : sys) : Prop :=
  (∀ x, sy_view y x ≠ TaskErr) ∧ (∀ x, sy_ok y x ↔ sy_view y x = TaskOk) ∧
  Enqueue_all fuel (sy_view y) roots newState = Ret (sy_s y).

Definition reachable (roots : list nat) (y : sys) : Prop :=
  ∃ y0, started roots y0 ∧ rtc (step fuel) y0 y.

Definition sys_ok (roots : list nat) (y : sys) : Prop :=
  s_err (sy_s y) = None → base_ok (sy_view y) (sy_s y) ∧
    (∀ x, sy_view y x = TaskOk → sy_ok y x) ∧
    ∀ r x, r ∈ roots → x ∈ phase r → sy_ok y x ∨ opn ∅ (sy_s y) x.

Lemma newState_round view : round_ok view ∅ newState.
Proof.
  assert (∀ x, count newState x = 0%Z) as Hc.
  { intros x. unfold count. simpl. by rewrite lookup_empty. }
  split.
  - intros m. rewrite Hc. lia.
  - intros h n. simpl. by rewrite lookup_empty.
  - intros x. rewrite Hc. lia.
  - intros x. rewrite Hc. lia.
  - intros x. simpl. intros []%elem_of_empty.
  - intros x h. simpl. intros []%elem_of_empty.
Qed.

Lemma started_round roots y :
  started roots y → round_ok (sy_view y) ∅ (sy_s y) ∧ sys_ok roots y.
Proof.
  destruct y as [s view ok]. intros (Herr & Hok & HE). simpl in *.
  destruct (Enqueue_all_round rank WF view fuel FUEL roots newState ∅)
    as (s' & HE' & Hok' & Hv' & Hp' & He' & Hop' & Hr').
  { apply newState_round. }
  { intros x. simpl. intros []%elem_of_empty. }
  rewrite HE in HE'. injection HE' as <-. split; [done|]. intros _. simpl. split_and!.
  - by apply round_base.
  - intros x. apply Hok.
  - intros r x Hr Hx. destruct (decide (view x = TaskOk)); [left; by apply Hok|right].
    apply (Hr' r x Hr Hx). by split.
Qed.

Lemma executes_base s view t st :
  executes s view t st → base_ok view s → base_ok (set_task t st view) s.
Proof.
  intros Hex [A1 A2 A3 A4]. split; [done|done| |done].
  intros x Hx. specialize (A3 x Hx). unfold idle, set_task in *. case_decide as E; [subst x|done].
  destruct Hex as [view t st Hp Hv Hst|view t Hv|view t Hp Hv].
  - exfalso. destruct A3 as [[?|?]|[_ ?]], Hv; congruence.
  - left. by right.
  - by right.
Qed.

Lemma step_ok roots y y' : sys_ok roots y → step fuel y y' → sys_ok roots y'.
Proof.
  intros Hok Hst. destruct Hst as [s view ok s' ts He Ht Hr|s view ok t st He Hex|s view ok t s' Hd Ht Hp Hv HR].
  - destruct (Hok He) as (Hb & Hvo & Hroot). simpl in *. unfold Runnable in Hr.
    injection Hr as <- _. intros _. simpl. split_and!.
    + destruct Hb as [A1 A2 A3 A4]. split.
      * apply (waits_ok_same ∅ s _ _ (λ _, False)); [done|by intros| |apply _|done].
        intros x [?|[?|[?|?]]]; [by left|right; right; left; simpl; set_solver..|].
        right. right. by right.
      * intros x _. simpl. apply not_elem_of_empty.
      * intros x Hx. simpl. specialize (A2 x Hx). specialize (A3 x Hx). unfold idle, submit_all in *.
        rewrite decide_False by done. rewrite elem_of_union. tauto.
      * intros x. simpl. intros []%elem_of_empty.
    + intros x. unfold submit_all. case_decide as Hin; [|apply Hvo]. unfold submit.
      destruct (view x) eqn:E; simpl; try done. auto.
    + intros r x Hr Hx. destruct (Hroot r x Hr Hx) as [?|[?|[?|[?|?]]]]; [by left|right..].
      * by left.
      * right. right. left. simpl. set_solver.
      * right. right. left. simpl. set_solver.
      * right. right. by right.
  - destruct (Hok He) as (Hb & Hvo & Hroot). simpl in *. intros _. simpl. split_and!.
    + by apply executes_base.
    + intros x. unfold set_task. case_decide as E; [subst; by right|]. left. auto.
    + intros r x Hr Hx. destruct (Hroot r x Hr Hx); auto.
  - assert (s_err s = None) as He.
    { unfold Done in Hd. destruct (s_err s); [|done]. by rewrite bool_decide_eq_true_2 in Hd. }
    destruct (Hok He) as (Hb & Hvo & Hroot). simpl in *.
    assert (s_todo s = ∅) as Ht0.
    { unfold Todo in Ht. apply bool_decide_eq_false in Ht. by apply dec_stable in Ht. }
    destruct (Return_round rank WF view fuel FUEL RANGE t s Hb Ht0 Hp He Hv) as (s1 & HR1 & Hpost).
    rewrite HR in HR1. injection HR1 as <-. intros He'. simpl in He'.
    destruct (Hpost He') as [Hok' Hop]. simpl. split_and!; [by apply round_base|done|].
    intros r x Hr Hx. destruct (Hroot r x Hr Hx) as [?|Ho]; [by left|].
    destruct (Hop x Ho) as [?|[-> ?]]; [by right|left; auto].
Qed.

Lemma reachable_ok roots y : reachable roots y → sys_ok roots y.
Proof.
  intros (y0 & Hst & Hrtc). apply started_round in Hst as [_ Hok].
  induction Hrtc as [|y1 y2 y3 Hs _ IH]; [done|]. apply IH. by eapply step_ok.
Qed.

(** With nothing scheduled and nothing pending, nothing waits either. *)
Lemma nothing_open s x : waits_ok ∅ s → s_todo s = ∅ → s_pending s = ∅ → ¬ opn ∅ s x.
Proof.
  intros Hw Ht Hp. remember (rank (head x)) as k eqn:Hk. revert x Hk.
  induction (lt_wf k) as [k _ IH]. intros x -> [Hx|[Hx|[Hx|Hx]]].
  1: by apply elem_of_empty in Hx.
  1: rewrite Ht in Hx; by apply elem_of_empty in Hx.
  1: rewrite Hp in Hx; by apply elem_of_empty in Hx.
  specialize (Hw x Hx). assert (osum ∅ s x = 0); [|lia]. unfold osum.
  assert (∀ h, h ∈ remove_dups (heads x) → awaited ∅ s x h = 0) as Hz.
  { intros h Hh. rewrite elem_of_remove_dups in Hh. unfold awaited. case_decide; [|done].
    unfold open_in. apply length_zero_iff_nil. destruct (filter _ _) as [|y l] eqn:E; [done|].
    exfalso. assert (y ∈ filter (opn ∅ s) (phase h)) as Hy by (rewrite E; left).
    apply list_elem_of_filter in Hy as [Ho Hy]. destruct (wf_phase rank WF h y Hy) as [Ehd _].
    eapply (IH (rank (head y))); [|done|exact Ho].
    rewrite Ehd, (wf_head rank WF x h Hh). by apply (wf_rank rank WF). }
  induction (remove_dups (heads x)) as [|h l IHl]; [done|]. rewrite fmap_cons. cbn [sum_list].
  rewrite Hz by left. apply IHl. intros h' Hh'. apply Hz. by right.
Qed.



(** [s] is the bookkeeping at the end of a round that read the task states
    [view]: the initial one, or that of a Return. *)
Definition round_end (roots : list nat) (view : nat → TaskState) (s' : state) : Prop :=
  (∃ ok, started roots (mkSys s' view ok)) ∨
  ∃ s ok t, reachable roots (mkSys s view ok) ∧ Done s = false ∧ Todo s = false ∧
    t ∈ s_pending s ∧ (TaskState_Z TaskOk <= TaskState_Z (view t))%Z ∧
    Return fuel view (view t) t s = Ret s' ∧ s_err s' = None.

End run.

(** * Errors and races *)

Lemma enqueue_phase_settled view enq ts s nw :
  (∀ x, x ∈ ts → view x = TaskOk ∨ view x = TaskErr) →
  enqueue_phase view enq ts s nw = Ret (s, nw).
Proof.
  induction ts as [|t ts IH]; intros Hts; [done|]. simpl.
  destruct (Hts t) as [-> | ->]; [left|..]; apply IH; intros x Hx; apply Hts; by right.
Qed.

(** A root phase whose tasks are already settled counts as evaluated even
    if some are in state TaskErr: evaluation ends at once and reports no
    error. *)
Theorem Eval_errored_root_no_error fuel view t :
  (∀ x, x ∈ phase t → view x = TaskOk ∨ view x = TaskErr) →
  ∃ s, Enqueue_all (S fuel) view [t] newState = Ret s ∧ Done s = true ∧ s_err s = None.
Proof.
  intros Hph. simpl. rewrite lookup_empty, enqueue_phase_settled by done. simpl.
  eexists. split; [done|]. done.
Qed.

(** Five losses in a row turn a task into an error; a success in between
    starts the count again. *)
Fixpoint lose (n : nat) (T : Task) : Task :=
  match n with
  | 0 => T
  | S n => (settle true true (with_state TaskLost (t_err (lose n T)) (lose n T))).1
  end.

(** A task that this evaluator runs and that is lost [n] times in a row
    after a success is retried for [n < 5] and is an error from the fifth
    loss on; losses seen by evaluators that do not run the task are not
    counted. *)
Theorem lose_limit T n :
  t_consecutiveLost T = 0%Z → 1 ≤ n ≤ 5 →
  t_consecutiveLost (lose n T) = Z.of_nat n ∧
  t_state (lose n T) = (if (n <? 5)%nat then TaskLost else TaskErr) ∧
  (settle true false (with_state TaskLost (t_err T) T)).1 = with_state TaskLost (t_err T) T.
Proof.
  destruct T as [? ? ? ? ? ? ? ? ? c]. simpl. intros -> Hn.
  destruct n as [|[|[|[|[|[|n]]]]]]; try lia; split_and!; reflexivity.
Qed.
End eval.

(** Three tasks in a row: the root 0 depends on 1, which depends on 2. *)
Definition chain (t : nat) : Task :=
  mkTask (mkTaskName 0 "chain" (Z.of_nat t) 3)
    (if (t <? 2)%nat then [mkTaskDep (S t) 0 false ""] else []) 1 "" [] [] None TaskInit None 0.

Definition chain_view (s0 s1 s2 : TaskState) (t : nat) : TaskState :=
  match t with 0 => s0 | 1 => s1 | _ => s2 end.

