(* ===== verification/EvalRun.v ===== *)
(** Evaluation on an executor that does not lose tasks (src/exec/eval.go): it
    terminates, runs only tasks whose dependencies are done, and computes all
    roots.

    The executor is the class [TaskExecutor], with the laws [ReliableExecutor]: running a
    submitted task, when the tasks it depends on are done, makes it done and keeps an
    invariant of the executor.  The local executor is an instance (SessionRun.v). *)
From S2P Require Import Prelude Task Eval.

(** * What a round touches *)

Section touched.
Context (tasks : nat → Task) (range : gset nat → list nat) (RANGE : ∀ X, range X ≡ₚ elements X).
Context (view : nat → TaskState).
(** A part of the graph that is closed under phases and dependencies. *)
Context (C : gset nat).
Context (closed_phase : ∀ t x, t ∈ C → x ∈ phase tasks t → x ∈ C).
Context (closed_heads : ∀ t h, t ∈ C → h ∈ heads tasks t → h ∈ C).

(** Scheduled tasks are in this part and wait, and so are registered ones. *)
Definition touched (s : state) : Prop :=
  (∀ x, x ∈ s_todo s → x ∈ C ∧ waiting view x) ∧ ∀ h x, x ∈ deps_of s h → x ∈ C.

Lemma schedule_touched t s : touched s → t ∈ C → waiting view t → touched (schedule t s).
Proof.
  intros [Ht Hd] Hc Hw. destruct (schedule_fields tasks t s) as (_ & Hdeps & _ & _ & _ & Htodo). split.
  - intros x. rewrite Htodo. intros [?|[-> _]]; auto.
  - intros h x. unfold deps_of. rewrite Hdeps. apply Hd.
Qed.

Lemma clear_touched t s : touched s → touched (clear tasks t s).
Proof. intros [Ht Hd]. split; [done|]. intros h x [Hx _]%(deps_clear tasks range). by eapply Hd. Qed.

Lemma add_touched h m n s : touched s → m ∈ C → touched (add h m n s).
Proof.
  intros [Ht Hd] Hc. destruct (add_fields h m n s) as (Htodo & _). split; [by rewrite Htodo|].
  intros h' x [Hx|[-> _]]%(deps_add tasks range); [by eapply Hd|done].
Qed.

(** An operation that keeps [touched], the pending tasks and the error. *)
Definition keeps {A} (op : state → outcome (state * A)) : Prop :=
  ∀ s s' a, touched s → op s = Ret (s', a) → touched s' ∧ s_pending s' = s_pending s ∧ s_err s' = s_err s.

Lemma enqueue_deps_keeps enq m hs ready :
  m ∈ C → (∀ h, h ∈ hs → keeps (λ s, enq s h)) → keeps (λ s, enqueue_deps enq m hs s ready).
Proof.
  intros Hm. revert ready. induction hs as [|h hs IH]; intros ready He s s' a Hs; cbn [enqueue_deps].
  { by intros [= <- <-]. }
  intros ([s1 n] & H1 & H2)%outcome_bind_Ret. destruct (He h) with (s := s) (s' := s1) (a := n) as (T1 & P1 & E1);
    [by left|done|done|]. destruct (n =? 0)%Z.
  - destruct (IH ready) with (s := s1) (s' := s') (a := a) as (T2 & P2 & E2); [intros; apply He; by right|done..|].
    split_and!; [done|congruence..].
  - destruct (add_fields h m n s1) as (_ & Pa & _ & Ea).
    destruct (IH false) with (s := add h m n s1) (s' := s') (a := a) as (T2 & P2 & E2);
      [intros; apply He; by right|by apply add_touched|done|]. split_and!; [done|congruence..].
Qed.

Lemma enqueue_phase_keeps enq ts nw :
  (∀ t, t ∈ ts → t ∈ C) → (∀ h, h ∈ C → keeps (λ s, enq s h)) → keeps (λ s, enqueue_phase tasks view enq ts s nw).
Proof.
  intros Hts He. revert nw. induction ts as [|t ts IH]; intros nw s s' a Hs; cbn [enqueue_phase].
  { by intros [= <- <-]. }
  assert (t ∈ C) as Hc by (apply Hts; by left).
  specialize (IH ltac:(intros; apply Hts; by right)).
  destruct (schedule_fields tasks t s) as (_ & _ & Ps & _ & Es & _).
  destruct (view t) eqn:Hv; [|intros Heq..|].
  2-3: destruct (IH (nw + 1)%Z (schedule t s) s' a) as (T & P & E);
    [apply schedule_touched; [done..|unfold waiting; by rewrite Hv]|done|split_and!; [done|congruence..]].
  2-3: by apply (IH nw s s' a).
  all: intros ([s1 ready] & H1 & H2)%outcome_bind_Ret;
    destruct (enqueue_deps_keeps enq t (heads tasks t) true Hc) with (s := clear tasks t s) (s' := s1) (a := ready)
      as (T1 & P1 & E1); [intros h Hh; apply He; by eapply closed_heads|by apply clear_touched|done|];
    destruct (schedule_fields tasks t s1) as (_ & _ & Ps1 & _ & Es1 & _);
    (destruct (IH (nw + 1)%Z (if ready then schedule t s1 else s1) s' a) as (T & P & E);
      [destruct ready; [apply schedule_touched; [done..|unfold waiting; by rewrite Hv]|done]|done|]);
    (split_and!; [done|destruct ready; simpl in *; congruence..]).
Qed.

Lemma Enqueue_keeps fuel t : t ∈ C → keeps (λ s, Enqueue tasks fuel view s t).
Proof.
  revert t. induction fuel as [|fuel IH]; intros t Hc s s' a Hs; cbn [Enqueue];
    (destruct (s_wait s !! head tasks t); [by intros [= <- <-]|]); [done|].
  intros ([s1 n] & H1 & [= <- <-])%outcome_bind_Ret.
  destruct (enqueue_phase_keeps (Enqueue tasks fuel view) (phase tasks t) 0) with (s := s) (s' := s1) (a := n)
    as (T1 & P1 & E1); [intros; by eapply closed_phase|intros; by apply IH|done..|done].
Qed.

Lemma Enqueue_all_keeps fuel ts s s' :
  (∀ t, t ∈ ts → t ∈ C) → touched s → Enqueue_all tasks fuel view ts s = Ret s' →
  touched s' ∧ s_pending s' = s_pending s ∧ s_err s' = s_err s.
Proof.
  revert s. induction ts as [|t ts IH]; intros s Hts Hs; cbn [Enqueue_all]; [by intros [= <-]|].
  intros ([s1 n] & H1 & H2)%outcome_bind_Ret.
  destruct (Enqueue_keeps fuel t) with (s := s) (s' := s1) (a := n) as (T1 & P1 & E1); [apply Hts; by left|done..|].
  destruct (IH s1) as (T2 & P2 & E2); [intros; apply Hts; by right|done..|]. split_and!; [done|congruence..].
Qed.

(** Returning a task that is done. *)
Lemma Return_keeps fuel t s s' :
  touched s → view t = TaskOk → Return tasks range fuel view (view t) t s = Ret s' →
  touched s' ∧ s_pending s' = s_pending s ∖ {[t]} ∧ s_err s' = s_err s.
Proof.
  intros Hs Hv. unfold Return. rewrite Hv. destruct (bool_decide (t ∈ s_pending s)); [|done]. cbn [negb].
  set (s0 := with_pending (s_pending s ∖ {[t]}) (with_wait ∅ s)).
  assert (NoDup (range (deps_of s0 (head tasks t)))) as HN by (rewrite RANGE; apply NoDup_elements).
  pose proof (done_loop_spec view fuel (range (deps_of s0 (head tasks t))) s0 HN) as Hd.
  unfold done_. destruct (done_loop _ s0) as [s1 ready]. destruct Hd as (_ & Hr & Hdeps & Htodo & Hp & _ & He).
  intros HE. destruct (Enqueue_all_keeps fuel ready s1 s') as (T & P & E); [| |done|].
  - intros x [Hx _]%Hr. rewrite RANGE, elem_of_elements in Hx. destruct Hs as [_ Hd]. exact (Hd _ _ Hx).
  - destruct Hs as [Ht Hd]. split; [by rewrite Htodo|]. intros h x. unfold deps_of. rewrite Hdeps. apply Hd.
  - split_and!; [done|by rewrite P, Hp|by rewrite E, He].
Qed.
End touched.

(** * Reliable executors *)

(** [X] is the state of the executor and the tasks: the states of tasks, the
    submission of tasks, and what running one leads to. *)
Class TaskExecutor (X : Type) := {
  ex_view : X → nat → TaskState;
  ex_submit : gset nat → X → X;
  ex_runs : nat → X → X → Prop;
}.

(** An executor that runs the tasks in [C] without losing any. *)
Class ReliableExecutor (tasks : nat → Task) (C : gset nat) (X : Type) `{TaskExecutor X} := {
  ex_inv : X → Prop;
  submit_ok : ∀ ts x, ex_inv x → ts ⊆ C → ex_inv (ex_submit ts x) ∧
    ∀ t, ex_view (ex_submit ts x) t = submit_all ts (ex_view x) t;
  run_ok : ∀ t x, ex_inv x → t ∈ C → ex_view x t = TaskWaiting →
    (∀ h y, h ∈ heads tasks t → y ∈ phase tasks h → ex_view x y = TaskOk) →
    (∃ x', ex_runs t x x') ∧
    ∀ x', ex_runs t x x' → ex_inv x' ∧ ∀ u, ex_view x' u = set_task t TaskOk (ex_view x) u;
}.

Section run.
Context (tasks : nat → Task) (range : gset nat → list nat) (RANGE : ∀ X, range X ≡ₚ elements X).
Context (rank : nat → nat) (WF : graph_wf tasks rank) (fuel : nat) (FUEL : ∀ t, rank (head tasks t) < fuel).
Context (C : gset nat) {X : Type} {TE : TaskExecutor X} {EX : ReliableExecutor tasks C X}.
Context (closed_phase : ∀ t x, t ∈ C → x ∈ phase tasks t → x ∈ C).
Context (closed_heads : ∀ t h, t ∈ C → h ∈ heads tasks t → h ∈ C).
Context (roots : list nat) (ROOTS : ∀ t, t ∈ roots → t ∈ C).

(** The evaluation loop with the executor's steps: submitting what is runnable, the
    executor running a submitted task, and the return of a settled one. *)
Inductive eval_step : state * X → state * X → Prop :=
| es_submit s x s' ts :
    s_err s = None → Todo s = true → Runnable range s = (s', ts) →
    eval_step (s, x) (s', ex_submit (s_todo s) x)
| es_run s x t x' :
    s_err s = None → t ∈ s_pending s → ex_view x t = TaskWaiting → ex_runs t x x' →
    eval_step (s, x) (s, x')
| es_return s x t s' :
    Done s = false → Todo s = false → t ∈ s_pending s →
    (TaskState_Z TaskOk <= TaskState_Z (ex_view x t))%Z →
    Return tasks range fuel (ex_view x) (ex_view x t) t s = Ret s' →
    eval_step (s, x) (s', x).

Definition ready_in (v : nat → TaskState) (t : nat) : Prop :=
  ∀ h y, h ∈ heads tasks t → y ∈ phase tasks h → v y = TaskOk.

(** The invariant of an evaluation. *)
Record ev_ok (s : state) (x : X) : Prop := mkEvOk {
  ev_inv : ex_inv x;
  ev_err : s_err s = None;
  ev_base : base_ok tasks (ex_view x) s;
  ev_root : ∀ r y, r ∈ roots → y ∈ phase tasks r → ex_view x y = TaskOk ∨ opn ∅ s y;
  ev_states : ∀ t, ex_view x t = TaskInit ∨ ex_view x t = TaskWaiting ∨ ex_view x t = TaskOk;
  ev_waiting : ∀ t, ex_view x t = TaskWaiting → t ∈ s_pending s ∧ ready_in (ex_view x) t;
  ev_pending : ∀ t, t ∈ s_pending s → t ∈ C ∧ ex_view x t ≠ TaskInit;
  ev_todo : ∀ t, t ∈ s_todo s → t ∈ C ∧ ex_view x t = TaskInit ∧ ready_in (ex_view x) t;
  ev_deps : ∀ h t, t ∈ deps_of s h → t ∈ C;
}.

(** At the end of a round. *)
Lemma round_ev s0 s x :
  ex_inv x → (∀ t, ex_view x t = TaskInit ∨ ex_view x t = TaskWaiting ∨ ex_view x t = TaskOk) →
  (∀ t, ex_view x t = TaskWaiting → t ∈ s_pending s ∧ ready_in (ex_view x) t) →
  (∀ t, t ∈ s_pending s → t ∈ C ∧ ex_view x t ≠ TaskInit) →
  (∀ r y, r ∈ roots → y ∈ phase tasks r → ex_view x y = TaskOk ∨ opn ∅ s y) →
  s_err s0 = None → s_err s = s_err s0 → round_ok tasks (ex_view x) ∅ s → touched (ex_view x) C s → ev_ok s x.
Proof.
  intros Hi Hst Hw Hp Hroot He0 He Hok [Htd Hd]. split; [done|congruence|by apply round_base|done|done|done|done| |done].
  intros t Ht. destruct (Htd t Ht) as [Hc [Hn1 Hn2]]. destruct (Hst t) as [Hv|[Hv|Hv]]; [|exfalso|done].
  - split_and!; [done|done|]. intros h y Hh Hy. destruct (ro_ready _ _ _ _ Hok t h Ht) with (y := y) as [|Herr];
      [by left|done|done|done|]. destruct (Hst y) as [|[|]]; congruence.
  - apply Hw in Hv as [Hin _]. by apply (ro_disjoint _ _ _ _ Hok t).
Qed.

Lemma start_ev x s :
  ex_inv x → (∀ t, ex_view x t = TaskInit ∨ ex_view x t = TaskOk) →
  Enqueue_all tasks fuel (ex_view x) roots newState = Ret s → ev_ok s x.
Proof.
  intros Hi Hst HE.
  assert (touched (ex_view x) C newState) as Ht0.
  { split; [intros y; simpl; set_solver|]. intros h y. unfold deps_of. simpl. rewrite lookup_empty. set_solver. }
  destruct (Enqueue_all_keeps tasks range (ex_view x) C closed_phase closed_heads fuel roots newState s ROOTS Ht0 HE) as (T & P & E).
  destruct (Enqueue_all_round tasks range rank WF (ex_view x) fuel FUEL roots newState ∅) as (s' & HE' & Hok & _ & _ & _ & _ & Hop).
  { apply newState_round. }
  { intros y. simpl. set_solver. }
  rewrite HE in HE'. injection HE' as <-. apply (round_ev newState); try done.
  - intros t. destruct (Hst t); auto.
  - intros t Hv. destruct (Hst t); congruence.
  - rewrite P. intros t. simpl. set_solver.
  - intros r y Hr Hy. destruct (Hst y) as [Hv|Hv]; [right|by left]. apply (Hop r y Hr Hy). by split; rewrite Hv.
Qed.

(** Submitting makes scheduled tasks wait. *)
Lemma submit_view s x t :
  ev_ok s x → ex_view (ex_submit (s_todo s) x) t = if decide (t ∈ s_todo s) then TaskWaiting else ex_view x t.
Proof.
  intros Hev. destruct (submit_ok (s_todo s) x (ev_inv _ _ Hev)) as [_ Hview].
  { intros u Hu. by apply (ev_todo _ _ Hev). }
  rewrite Hview. unfold submit_all. case_decide as Ht; [|done]. by rewrite (proj1 (proj2 (ev_todo _ _ Hev t Ht))).
Qed.

Lemma submit_ev s x :
  ev_ok s x → ev_ok (with_todo ∅ (with_pending (s_pending s ∪ s_todo s) s)) (ex_submit (s_todo s) x).
Proof.
  intros Hev. pose proof (λ t, submit_view s x t Hev) as Hv. destruct Hev as [Hi He Hb Hroot Hst Hw Hp Htd Hd].
  destruct (submit_ok (s_todo s) x Hi) as [Hi' _]; [intros t Ht; by apply Htd|].
  assert (∀ t, ready_in (ex_view x) t → ready_in (ex_view (ex_submit (s_todo s) x)) t) as Hready.
  { intros t Hr h y Hh Hy. rewrite Hv, decide_False; [by eapply Hr|]. intros (_ & Hin & _)%Htd.
    specialize (Hr h y Hh Hy). congruence. }
  split; [done|done| | | | | | |done]; simpl.
  - destruct Hb as [A1 A2 A3 A4]. split; simpl.
    + apply (waits_ok_same tasks range ∅ s _ _ (λ _, False)); [done|by intros| |apply _|done].
      intros y [?|[?|[?|?]]]; [by left|right; right; left; simpl; set_solver..|]. right. right. by right.
    + intros y _. set_solver.
    + intros y Hy. specialize (A2 y Hy). specialize (A3 y Hy). unfold idle. rewrite Hv, decide_False by done.
      rewrite elem_of_union. unfold idle in A3. tauto.
    + set_solver.
  - intros r y Hr Hy. rewrite Hv. destruct (Hroot r y Hr Hy) as [Hok|Ho]; [left|right].
    + rewrite decide_False; [done|]. intros (_ & ? & _)%Htd. congruence.
    + unfold opn in *. simpl. rewrite elem_of_union. change (count _ y) with (count s y). tauto.
  - intros t. rewrite Hv. case_decide; [by right; left|apply Hst].
  - intros t. rewrite Hv. case_decide as Ht; [intros _|intros [? ?]%Hw]; (split; [set_solver|]); apply Hready; [by apply Htd|done].
  - intros t. rewrite elem_of_union, Hv. intros [Ht|Ht].
    + destruct (Hp t Ht) as [? ?]. split; [done|]. by case_decide.
    + destruct (Htd t Ht) as [? _]. split; [done|]. by rewrite decide_True.
  - set_solver.
Qed.

(** Running a submitted task makes it done. *)
Lemma run_view s x t x' :
  ev_ok s x → ex_view x t = TaskWaiting → ex_runs t x x' →
  ex_inv x' ∧ ∀ u, ex_view x' u = if decide (u = t) then TaskOk else ex_view x u.
Proof.
  intros Hev Hwt Hruns. destruct (ev_waiting _ _ Hev t Hwt) as [Hin Hrd].
  destruct (run_ok t x (ev_inv _ _ Hev)) as [_ Hr]; [by apply (ev_pending _ _ Hev)|done..|]. by apply Hr.
Qed.

Lemma run_ev s x t x' : ev_ok s x → ex_view x t = TaskWaiting → ex_runs t x x' → ev_ok s x'.
Proof.
  intros Hev Hwt Hruns. destruct (run_view s x t x' Hev Hwt Hruns) as [Hi' Hview].
  destruct Hev as [Hi He Hb Hroot Hst Hw Hp Htd Hd].
  assert (∀ t, ready_in (ex_view x) t → ready_in (ex_view x') t) as Hready.
  { intros u Hrd h y Hh Hy. rewrite Hview. case_decide; [done|]. by eapply Hrd. }
  split; [done|done| | | | | | |done].
  - destruct Hb as [A1 A2 A3 A4]. split; [done|done| |done]. intros y Hy. unfold idle. rewrite Hview.
    destruct (A3 y Hy) as [[?|?]|[_ ?]]; case_decide; subst; try congruence; [by left; left|by left; right|].
    destruct (Hst y) as [|[|]]; congruence.
  - intros r y Hr' Hy. rewrite Hview. case_decide; [by left|]. by eapply Hroot.
  - intros u. rewrite Hview. case_decide; [by right; right|apply Hst].
  - intros u. rewrite Hview. case_decide; [done|]. intros [? ?]%Hw. split; [done|]. by apply Hready.
  - intros u Hu. rewrite Hview. case_decide; [split; [by apply Hp|done]|by apply Hp].
  - intros u Hu. destruct (Htd u Hu) as (? & Hv & ?). rewrite Hview. case_decide; [congruence|].
    split_and!; [done|done|by apply Hready].
Qed.

(** Returning a task that is done. *)
Lemma settled_ok s x t : ev_ok s x → (TaskState_Z TaskOk <= TaskState_Z (ex_view x t))%Z → ex_view x t = TaskOk.
Proof.
  intros Hev Hge. destruct (ev_states _ _ Hev t) as [E|[E|E]]; [..|done]; rewrite E in Hge; simpl in Hge; lia.
Qed.

Lemma ev_touched s x : ev_ok s x → touched (ex_view x) C s.
Proof.
  intros Hev. split; [|apply Hev]. intros y Hy. destruct (ev_todo _ _ Hev y Hy) as (? & E & _).
  split; [done|]. split; by rewrite E.
Qed.

Lemma return_ev s x t s' :
  ev_ok s x → Todo s = false → t ∈ s_pending s → ex_view x t = TaskOk →
  Return tasks range fuel (ex_view x) (ex_view x t) t s = Ret s' → ev_ok s' x.
Proof.
  intros Hev Htodo Hin Hok HR.
  destruct (Return_keeps tasks range RANGE (ex_view x) C closed_phase closed_heads fuel t s s') as (T & P & E);
    [by apply ev_touched|done..|].
  destruct Hev as [Hi He Hb Hroot Hst Hw Hp Htd Hd].
  assert (s_todo s = ∅) as Ht0.
  { unfold Todo in Htodo. apply bool_decide_eq_false in Htodo. by apply dec_stable in Htodo. }
  destruct (Return_round tasks range rank WF (ex_view x) fuel FUEL RANGE t s Hb Ht0 Hin He) as (s1 & HR1 & Hpost);
    [rewrite Hok; simpl; lia|].
  rewrite HR in HR1. injection HR1 as <-. rewrite He in E. destruct (Hpost E) as [Hrok Hop].
  apply (round_ev s); try done; [| | |by rewrite E, He].
  - intros u Hv. destruct (Hw u Hv) as [? ?]. split; [|done]. rewrite P. apply elem_of_difference. split; [done|].
    intros ->%elem_of_singleton. congruence.
  - intros u. rewrite P. intros [Hu _]%elem_of_difference. by apply Hp.
  - intros r y Hr Hy. destruct (Hroot r y Hr Hy) as [?|Ho]; [by left|].
    destruct (Hop y Ho) as [?|[-> ?]]; [by right|by left].
Qed.

Lemma eval_step_ev s x s' x' : ev_ok s x → eval_step (s, x) (s', x') → ev_ok s' x'.
Proof.
  intros Hev Hs. inversion Hs as [? ? ? ts _ _ HR|? ? t ? _ Hin Hwt Hruns|? ? t ? _ Ht Hin Hge HR]; subst; clear Hs.
  - unfold Runnable in HR. injection HR as <- _. by apply submit_ev.
  - by apply (run_ev s' x t).
  - apply (return_ev s x' t); [done..|by eapply settled_ok|done].
Qed.

(** ** Termination *)

(** What a task still has to go through. *)
Definition work (s : state) (x : X) (t : nat) : nat :=
  match ex_view x t with
  | TaskOk => if decide (t ∈ s_pending s) then 1 else 0
  | TaskWaiting => 2
  | _ => 3
  end.
Definition total_work (s : state) (x : X) : nat := sum_list (work s x <$> elements C).

Lemma total_less s x s' x' t :
  t ∈ C → work s' x' t < work s x t → (∀ u, u ∈ C → work s' x' u ≤ work s x u) → total_work s' x' < total_work s x.
Proof.
  intros Ht Hlt Hle. unfold total_work.
  enough (sum_list (work s' x' <$> elements C) + 1 ≤ sum_list (work s x <$> elements C) + 0) by lia.
  apply (sum_at _ _ _ t); [apply NoDup_elements|by apply elem_of_elements| |lia].
  intros u Hu%elem_of_elements _. by apply Hle.
Qed.

Lemma total_bound s x : total_work s x ≤ 3 * size C.
Proof.
  unfold total_work, size, set_size, compose. induction (elements C) as [|t l IH]; [done|].
  assert (work s x t ≤ 3); [|rewrite fmap_cons; simpl in *; lia].
  unfold work. destruct (ex_view x t); try case_decide; lia.
Qed.

Lemma eval_step_less s x s' x' :
  ev_ok s x → eval_step (s, x) (s', x') → total_work s' x' < total_work s x.
Proof.
  intros Hev Hs. inversion Hs as [? ? ? ts _ Hne HR|? ? t ? _ Hin Hwt Hruns|? ? t ? _ Ht Hin Hge HR]; subst; clear Hs.
  - unfold Runnable in HR. injection HR as <- _. apply bool_decide_eq_true, set_choose_L in Hne as [t Ht].
    pose proof (λ t, submit_view s x t Hev) as Hv.
    apply (total_less _ _ _ _ t); [by apply (ev_todo _ _ Hev)| |].
    + unfold work. rewrite Hv, decide_True, (proj1 (proj2 (ev_todo _ _ Hev t Ht))) by done. lia.
    + intros u _. unfold work. rewrite Hv. case_decide as Hu.
      * rewrite (proj1 (proj2 (ev_todo _ _ Hev u Hu))). lia.
      * destruct (ex_view x u); try lia. simpl. repeat case_decide; try lia; set_solver.
  - destruct (run_view s' x t x' Hev Hwt Hruns) as [_ Hv].
    apply (total_less _ _ _ _ t); [by apply (ev_pending _ _ Hev)| |].
    + unfold work. rewrite Hv, decide_True, Hwt by done. case_decide; lia.
    + intros u _. unfold work. rewrite Hv. case_decide as E; [subst|done]. rewrite Hwt. case_decide; lia.
  - assert (ex_view x' t = TaskOk) as Hok by (by eapply settled_ok).
    destruct (Return_keeps tasks range RANGE (ex_view x') C closed_phase closed_heads fuel t s s') as (_ & P & _);
      [by apply ev_touched|done..|].
    apply (total_less _ _ _ _ t); [by apply (ev_pending _ _ Hev)| |].
    + unfold work. rewrite Hok, P. rewrite decide_False, decide_True by set_solver. lia.
    + intros u _. unfold work. rewrite P. destruct (ex_view x' u); try lia. repeat case_decide; try lia; set_solver.
Qed.

Lemma eval_progress s x : ev_ok s x → Done s = false → ∃ y, eval_step (s, x) y.
Proof.
  intros [Hi He Hb Hroot Hst Hw Hp Htd Hd] Hdone.
  destruct (Todo s) eqn:Ht.
  { destruct (Runnable range s) as [s' ts] eqn:HR. eexists. by eapply es_submit. }
  assert (s_todo s = ∅) as Ht0.
  { unfold Todo in Ht. apply bool_decide_eq_false in Ht. by apply dec_stable in Ht. }
  assert (∃ t, t ∈ s_pending s) as [t Hin].
  { unfold Done in Hdone. rewrite He in Hdone. rewrite bool_decide_eq_false_2 in Hdone by (by intros [? ?]).
    rewrite bool_decide_eq_true_2 in Hdone by done. simpl in Hdone. apply bool_decide_eq_false in Hdone.
    by apply set_choose_L. }
  destruct (Hst t) as [E|[E|E]]; [by apply Hp in Hin as [_ ?]| |].
  - destruct (run_ok t x Hi) as [[x' Hx'] _]; [by apply Hp|done|by apply Hw|]. eexists. by eapply es_run.
  - destruct (Return_round tasks range rank WF (ex_view x) fuel FUEL RANGE t s Hb Ht0 Hin He) as (s' & HR & _);
      [rewrite E; simpl; lia|]. eexists. eapply es_return; [done..|rewrite E; simpl; lia|done].
Qed.

Lemma eval_nsteps n s x s' x' :
  ev_ok s x → nsteps eval_step n (s, x) (s', x') → ev_ok s' x' ∧ n + total_work s' x' ≤ total_work s x.
Proof.
  revert s x. induction n as [|n IH]; intros s x Hev Hn; inversion Hn as [|? ? [s1 x1] ? Hs Hn']; subst; [split; [done|lia]|].
  destruct (IH s1 x1) as [? ?]; [by eapply eval_step_ev|done|].
  pose proof (eval_step_less s x s1 x1 Hev Hs). split; [done|lia].
Qed.

Lemma done_roots s x :
  ev_ok s x → Done s = true → ∀ r y, r ∈ roots → y ∈ phase tasks r → ex_view x y = TaskOk.
Proof.
  intros [Hi He Hb Hroot Hst Hw Hp Htd Hd] Hdone r y Hr Hy.
  destruct (Hroot r y Hr Hy) as [|Ho]; [done|]. exfalso.
  unfold Done in Hdone. rewrite He in Hdone. rewrite bool_decide_eq_false_2 in Hdone by (by intros [? ?]).
  simpl in Hdone. apply andb_true_iff in Hdone as [E1%bool_decide_eq_true E2%bool_decide_eq_true].
  eapply (nothing_open tasks rank WF); [apply Hb|done|done|exact Ho].
Qed.

(** The initial calls of Enqueue, then steps: every evaluation is finite, never
    stuck before it is done, has no error, and has then computed the roots. *)
Lemma eval_spec x :
  ex_inv x → (∀ t, ex_view x t = TaskInit ∨ ex_view x t = TaskOk) →
  ∃ s, Enqueue_all tasks fuel (ex_view x) roots newState = Ret s ∧
    ∀ n s' x', nsteps eval_step n (s, x) (s', x') →
      n ≤ 3 * size C ∧ s_err s' = None ∧ ex_inv x' ∧
      ((∃ y, eval_step (s', x') y) ∨
       Done s' = true ∧ ∀ r t, r ∈ roots → t ∈ phase tasks r → ex_view x' t = TaskOk).
Proof.
  intros Hi Hst.
  destruct (Enqueue_all_round tasks range rank WF (ex_view x) fuel FUEL roots newState ∅) as (s & HE & _).
  { apply newState_round. }
  { intros y. simpl. set_solver. }
  exists s. split; [done|]. intros n s' x' Hn.
  destruct (eval_nsteps n s x s' x') as [Hev Hle]; [by apply start_ev|done|]. split_and!; [|apply Hev|apply Hev|].
  - pose proof (total_bound s x). lia.
  - destruct (Done s') eqn:Hdone; [right|left; by apply eval_progress]. split; [done|]. by apply (done_roots s' x').
Qed.
End run.
