(* ===== verification/Combiner.v ===== *)
(** Combining hash tables (src/exec/combiner.go).

    A combiningFrame is an open-addressing hash table with quadratic probing,
    laid out in one frame: [cap] slots followed by a scratch area, where the
    rows to be combined are first copied.  Rows are a key and a value; keys are
    equal when neither is less than the other.  The load factor is kept by
    doubling the table.  A combiner adds spilling to disk, against the
    interface [Spiller], and merges the spilled runs back with sortio.Reduce. *)
From Stdlib Require Import Znumtheory.
From S2P Require Import Prelude Heap SliceIO SortIO Reduce.

(** * Quadratic probing *)

Section probing.
(** The offset of the [t]'th probe: 0, 1, 3, 6, ... *)
Fixpoint tri (t : nat) : Z :=
  match t with
  | 0 => 0
  | S t => tri t + Z.of_nat (S t)
  end.

Lemma tri_double t : (2 * tri t = Z.of_nat t * (Z.of_nat t + 1))%Z.
Proof. induction t as [|t IH]; [done|]. cbn [tri]. lia. Qed.

(** The [t]'th probe of a search that starts at [h], in a table of [2^k]. *)
Definition pos (k : nat) (h : Z) (t : nat) : Z := ((h + tri t) mod 2 ^ Z.of_nat k)%Z.

Lemma odd_coprime_pow2 k a : Z.odd a = true → Z.gcd (2 ^ Z.of_nat k) a = 1%Z.
Proof.
  intros Ha. apply (Z.coprime_pow_l 2 a); [lia|]. apply Z.odd_spec in Ha as [m ->].
  unfold Z.coprime. replace (2 * m + 1)%Z with (1 + m * 2)%Z by lia.
  by rewrite Z.gcd_add_mult_diag_r.
Qed.

(** Two different probes among the first [2^k] hit different slots: if [2^k]
    divides the difference of the triangular numbers, [2^(k+1)] divides
    [(t - s) (t + s + 1)], and one of the two factors is odd. *)
Lemma pos_inj k h s t :
  s < t → (Z.of_nat t < 2 ^ Z.of_nat k)%Z → pos k h s ≠ pos k h t.
Proof.
  intros Hst Ht E. unfold pos in E.
  assert (2 ^ Z.of_nat k | tri t - tri s)%Z as [q Hq].
  { apply Z.mod_divide; [lia|].
    replace (tri t - tri s)%Z with ((h + tri t) - (h + tri s))%Z by lia.
    rewrite Zminus_mod, <-E, Z.sub_diag. by rewrite Zmod_0_l. }
  set (a := (Z.of_nat t - Z.of_nat s)%Z). set (b := (Z.of_nat t + Z.of_nat s + 1)%Z).
  assert (2 ^ Z.of_nat (S k) | a * b)%Z as Hdiv.
  { exists q. rewrite Nat2Z.inj_succ, Z.pow_succ_r by lia.
    pose proof (tri_double t). pose proof (tri_double s). unfold a, b. lia. }
  assert (2 ^ Z.of_nat (S k) = 2 * 2 ^ Z.of_nat k)%Z as Hp
    by (rewrite Nat2Z.inj_succ, Z.pow_succ_r by lia; done).
  destruct (Z.odd a) eqn:Ha.
  - apply Z.gauss in Hdiv; [|by apply odd_coprime_pow2].
    apply Z.divide_pos_le in Hdiv; unfold b in *; lia.
  - assert (Z.odd b = true) as Hb.
    { replace b with (a + (2 * Z.of_nat s + 1))%Z by (unfold a, b; lia).
      rewrite Z.odd_add, Ha, Z.odd_add, Z.odd_mul. done. }
    rewrite Z.mul_comm in Hdiv. apply Z.gauss in Hdiv; [|by apply odd_coprime_pow2].
    apply Z.divide_pos_le in Hdiv; unfold a in *; lia.
Qed.

Lemma pos_range k h t : (0 <= pos k h t < 2 ^ Z.of_nat k)%Z.
Proof. apply Z.mod_pos_bound. lia. Qed.

(** The first [2^k] probes visit every slot. *)
Lemma pos_surj k h i :
  (0 <= i < 2 ^ Z.of_nat k)%Z → ∃ t, t < 2 ^ k ∧ pos k h t = i.
Proof.
  intros Hi. set (ps := (λ t, Z.to_nat (pos k h t)) <$> seq 0 (2 ^ k)).
  assert (Z.of_nat (2 ^ k) = 2 ^ Z.of_nat k)%Z as Hp by (rewrite Nat2Z.inj_pow; done).
  assert (List.NoDup ps) as Hnd.
  { apply NoDup_ListNoDup, NoDup_alt. intros a b x. unfold ps. rewrite !list_lookup_fmap.
    intros Ha Hb.
    apply fmap_Some in Ha as (ta & Ha & ->). apply fmap_Some in Hb as (tb & Hb & Heq).
    apply lookup_seq in Ha as [-> Hla], Hb as [-> Hlb]. simpl in *.
    pose proof (pos_range k h a). pose proof (pos_range k h b).
    assert (pos k h a = pos k h b) as E by lia.
    destruct (lt_eq_lt_dec a b) as [[Hlt| ->]|Hlt]; [|done|].
    - exfalso. apply (pos_inj k h a b); [done|lia|done].
    - exfalso. apply (pos_inj k h b a); [done|lia|done]. }
  assert (incl (seq 0 (2 ^ k)) ps) as Hincl.
  { apply NoDup_length_incl; [done|unfold ps; by rewrite length_fmap|].
    intros x (t & -> & _)%list_elem_of_In%list_elem_of_fmap. apply in_seq.
    pose proof (pos_range k h t). lia. }
  assert (In (Z.to_nat i) ps) as Hin by (apply Hincl, in_seq; lia).
  apply list_elem_of_In, list_elem_of_fmap in Hin as (t & Ht & Hin).
  apply list_elem_of_In, in_seq in Hin. exists t. pose proof (pos_range k h t). split; lia.
Qed.
End probing.

Section combining_frame.
Context {K V : Type} (ltk : K → K → bool) (hash : K → Z) (combiner : V → V → V).
Context (zero : K * V).
Abbreviation row := (K * V)%type.

Definition hashMaxCapacity : Z := 2 ^ 29.

(** [cf_data] is the table followed by the scratch rows. *)
Record combiningFrame := mkCF {
  cf_data : list row;
  cf_nscratch : nat;
  cf_threshold : nat;
  cf_hits : list nat;
  cf_len : nat;
  cf_cap : nat;
  cf_mask : Z;
}.

(** [c.make]; the load factor 0.7 times a power of two, truncated, is
    [7 * ndata / 10]. *)
Definition make (ndata nscratch len : nat) : outcome combiningFrame :=
  if negb (Z.land (Z.of_nat ndata) (Z.of_nat ndata - 1) =? 0)%Z
  then Panic "hash table size not a power of two"
  else Ret (mkCF (replicate (ndata + nscratch) zero) nscratch (7 * ndata / 10)
              (replicate ndata 0) len ndata (Z.of_nat ndata - 1)).

Definition makeCombiningFrame (numOut prefix : Z) (n nscratch : nat) : outcome combiningFrame :=
  if negb (numOut - prefix =? 1)%Z then Panic "combining frame expects 1 residual column"
  else make n nscratch 0.

(** The probing loop: [at_] says what to do at an index, or [None] to probe
    on. *)
Fixpoint probe {A} (mask : Z) (at_ : Z → option (outcome A)) (fuel : nat) (idx try : Z) : outcome A :=
  match fuel with
  | 0 => NoFuel
  | S fuel =>
      match at_ idx with
      | Some r => r
      | None => probe mask at_ fuel (Z.land (idx + try) mask) (try + 1)
      end
  end.

Definition start (mask : Z) (k : K) : Z := Z.land (hash k) mask.

(** Placing row [x] with its hit count in a table that is known not to have
    its key. *)
Definition rehash_at (c : combiningFrame) (x : row) (hit : nat) (idx : Z) :
    option (outcome combiningFrame) :=
  match cf_hits c !! Z.to_nat idx with
  | None => Some (Panic "index out of range")
  | Some 0 =>
      Some (Ret (mkCF (<[Z.to_nat idx := x]> (cf_data c)) (cf_nscratch c) (cf_threshold c)
                   (<[Z.to_nat idx := hit]> (cf_hits c)) (cf_len c) (cf_cap c) (cf_mask c)))
  | Some (S _) => None
  end.

(** [for i := range hits0]. *)
Fixpoint rehash (fuel : nat) (slots : list (nat * row)) (c : combiningFrame) :
    outcome combiningFrame :=
  match slots with
  | [] => Ret c
  | (0, _) :: slots => rehash fuel slots c
  | (hit, x) :: slots =>
      c ← probe (cf_mask c) (rehash_at c x hit) fuel (start (cf_mask c) x.1) 1;
      rehash fuel slots c
  end.

Definition added (fuel : nat) (c : combiningFrame) : outcome combiningFrame :=
  let c := mkCF (cf_data c) (cf_nscratch c) (cf_threshold c) (cf_hits c) (S (cf_len c))
             (cf_cap c) (cf_mask c) in
  if cf_len c <=? cf_threshold c then Ret c
  else if (Z.of_nat (cf_cap c) =? hashMaxCapacity)%Z then Panic "hash table too large"
  else
    let n := cf_cap c * 2 in
    c' ← make n (cf_nscratch c) (cf_len c);
    (* frame.Copy(c.scratch, scratch0) *)
    let c' := mkCF (list_inserts n (drop (cf_cap c) (cf_data c)) (cf_data c')) (cf_nscratch c')
                (cf_threshold c') (cf_hits c') (cf_len c') (cf_cap c') (cf_mask c') in
    rehash fuel (zip (cf_hits c) (cf_data c)) c'.

(** Keys are equal when neither is less. *)
Definition same_key (a b : row) : bool := negb (ltk a.1 b.1) && negb (ltk b.1 a.1).

(** One probe for the scratch row [i]. *)
Definition combine_at (fuel : nat) (c : combiningFrame) (i : nat) (idx : Z) :
    option (outcome combiningFrame) :=
  let j := Z.to_nat idx in
  match cf_hits c !! j with
  | None => Some (Panic "index out of range")
  | Some 0 =>
      Some (added fuel
        (mkCF (list_swap j (cf_cap c + i) (cf_data c)) (cf_nscratch c) (cf_threshold c)
           (<[j := 1]> (cf_hits c)) (cf_len c) (cf_cap c) (cf_mask c)))
  | Some (S h) =>
      match cf_data c !! j, cf_data c !! (cf_cap c + i) with
      | Some y, Some x =>
          if same_key y x then
            Some (Ret (mkCF (<[j := (y.1, combiner y.2 x.2)]> (cf_data c)) (cf_nscratch c)
                         (cf_threshold c) (<[j := S (S h)]> (cf_hits c)) (cf_len c) (cf_cap c)
                         (cf_mask c)))
          else None
      | _, _ => Some (Panic "index out of range")
      end
  end.

Definition combine_row (fuel : nat) (c : combiningFrame) (i : nat) : outcome combiningFrame :=
  match cf_data c !! (cf_cap c + i) with
  | None => Panic "index out of range"
  | Some x => probe (cf_mask c) (combine_at fuel c i) fuel (start (cf_mask c) x.1) 1
  end.

(** [c.combine(n)]: the rows [i, i + n) of the scratch space. *)
Fixpoint combine_rows (fuel : nat) (c : combiningFrame) (i n : nat) : outcome combiningFrame :=
  match n with
  | 0 => Ret c
  | S n => c ← combine_row fuel c i; combine_rows fuel c (S i) n
  end.

(** The chunks [i, i + nchunk) of [f]. *)
Fixpoint Combine_chunks (fuel : nat) (c : combiningFrame) (f : list row) (nchunk : nat) :
    outcome combiningFrame :=
  match nchunk with
  | 0 => Ret c
  | S nchunk =>
      let chunk := take (cf_nscratch c) f in
      let c' := mkCF (list_inserts (cf_cap c) chunk (cf_data c)) (cf_nscratch c) (cf_threshold c)
                  (cf_hits c) (cf_len c) (cf_cap c) (cf_mask c) in
      c' ← combine_rows fuel c' 0 (length chunk);
      Combine_chunks fuel c' (drop (cf_nscratch c) f) nchunk
  end.

Definition Combine (fuel : nat) (c : combiningFrame) (f : list row) : outcome combiningFrame :=
  if cf_nscratch c =? 0 then Panic "integer divide by zero"
  else Combine_chunks fuel c f ((length f + cf_nscratch c - 1) / cf_nscratch c).

(** [for i, n := range c.hits]; [j] counts the rows moved to the front. *)
Fixpoint Compact_loop (hits : list nat) (i j : nat) (data : list row) : list row * nat :=
  match hits with
  | [] => (data, j)
  | 0 :: hits => Compact_loop hits (S i) j data
  | S _ :: hits => Compact_loop hits (S i) (S j) (list_swap i j data)
  end.

Definition Compact (c : combiningFrame) : combiningFrame * list row :=
  let '(data, j) := Compact_loop (cf_hits c) 0 0 (cf_data c) in
  (mkCF data (cf_nscratch c) (cf_threshold c) (replicate (length (cf_hits c)) 0) 0 (cf_cap c)
     (cf_mask c), take j data).

(** * Hash tables as functions from slots to rows *)

Context `{!StrictWeak ltk}.
(** Equal keys have equal hashes. *)
Hypothesis hash_same : ∀ a b, ltk a b = false → ltk b a = false → hash a = hash b.

Lemma same_key_spec a b : same_key a b = true ↔ ltk a.1 b.1 = false ∧ ltk b.1 a.1 = false.
Proof. unfold same_key. by rewrite andb_true_iff, !negb_true_iff. Qed.

Lemma same_key_refl a : same_key a a = true.
Proof. apply same_key_spec. split; by apply (sw_irrefl ltk). Qed.

Lemma same_key_sym a b : same_key a b = same_key b a.
Proof. unfold same_key. apply andb_comm. Qed.

Lemma same_key_trans a b c : same_key a b = true → same_key b c = true → same_key a c = true.
Proof.
  rewrite !same_key_spec. intros [H1 H2] [H3 H4].
  split; [exact (sw_neg_trans _ _ _ H3 H1)|exact (sw_neg_trans _ _ _ H2 H4)].
Qed.

Lemma same_key_hash a b : same_key a b = true → hash a.1 = hash b.1.
Proof. intros [? ?]%same_key_spec. by apply hash_same. Qed.

Abbreviation probe_at k x t := (Z.to_nat (pos k (hash (fst (B := V) x)) t)).

Definition fupd (f : nat → option row) (j : nat) (x : row) (i : nat) : option row :=
  if decide (i = j) then Some x else f i.

(** Every row is where probing for its key finds it, and keys are unique. *)
Record table_ok (k : nat) (f : nat → option row) : Prop := {
  tb_reach : ∀ i x, f i = Some x → i < 2 ^ k →
    ∃ t, probe_at k x t = i ∧ ∀ s, s < t → f (probe_at k x s) ≠ None;
  tb_unique : ∀ i j x y, i < 2 ^ k → j < 2 ^ k → f i = Some x → f j = Some y →
    same_key x y = true → i = j;
}.

Definition rows_of (k : nat) (f : nat → option row) : list row := omap f (seq 0 (2 ^ k)).

Lemma probe_at_lt k x t : probe_at k x t < 2 ^ k.
Proof.
  pose proof (pos_range k (hash x.1) t).
  assert (Z.of_nat (2 ^ k) = 2 ^ Z.of_nat k)%Z by (rewrite Nat2Z.inj_pow; done). lia.
Qed.

Lemma least (P : nat → bool) n :
  P n = true → ∃ t, t ≤ n ∧ P t = true ∧ ∀ s, s < t → P s = false.
Proof.
  revert P. induction n as [|n IH]; intros P Hn.
  { exists 0. split_and!; [done|done|lia]. }
  destruct (P 0) eqn:E0; [exists 0; split_and!; [lia|done|lia]|].
  destruct (IH (λ t, P (S t)) Hn) as (t & Ht & HP & Hl). exists (S t).
  split_and!; [lia|done|]. intros [|s] Hs; [done|]. apply Hl. lia.
Qed.

Lemma free_slot k f : length (rows_of k f) < 2 ^ k → ∃ j, j < 2 ^ k ∧ f j = None.
Proof.
  unfold rows_of. generalize (2 ^ k). intros n.
  induction n as [|n IH]; [simpl; lia|]. rewrite seq_S, omap_app, length_app. simpl.
  destruct (f n) as [x|] eqn:E; simpl; [|by eauto]. intros Hl.
  destruct IH as (j & Hj & Hf); [lia|]. exists j. split; [lia|done].
Qed.

(** Probing for [x] ends at a slot with its key, or else at a free slot, and
    then the key is not in the table. *)
Lemma table_find k f x :
  table_ok k f → length (rows_of k f) < 2 ^ k →
  ∃ t, t < 2 ^ k ∧
    (∀ s, s < t → ∃ y, f (probe_at k x s) = Some y ∧ same_key y x = false) ∧
    ((∃ y, f (probe_at k x t) = Some y ∧ same_key y x = true) ∨
     f (probe_at k x t) = None ∧
       ∀ i y, i < 2 ^ k → f i = Some y → same_key y x = false).
Proof.
  intros [Hreach Huniq] Hl. destruct (free_slot k f Hl) as (j & Hj & Hfj).
  assert (Z.of_nat (2 ^ k) = 2 ^ Z.of_nat k)%Z as Hp by (rewrite Nat2Z.inj_pow; done).
  destruct (pos_surj k (hash x.1) (Z.of_nat j)) as (t0 & Ht0 & Hpos); [lia|].
  set (stop t := match f (probe_at k x t) with Some y => same_key y x | None => true end).
  destruct (least stop t0) as (t & Ht & Hstop & Hmin).
  { unfold stop. by rewrite Hpos, Nat2Z.id, Hfj. }
  exists t. split; [lia|]. split.
  { intros s Hs. specialize (Hmin s Hs). unfold stop in Hmin.
    destruct (f (probe_at k x s)) as [y|]; [eauto|done]. }
  unfold stop in Hstop. destruct (f (probe_at k x t)) as [y|] eqn:E; [left; eauto|right].
  split; [done|]. intros i y Hi Hy. destruct (same_key y x) eqn:Hs; [|done]. exfalso.
  destruct (Hreach i y Hy Hi) as (t' & Ht' & Hocc).
  rewrite (same_key_hash _ _ Hs) in Ht', Hocc.
  destruct (lt_eq_lt_dec t t') as [[Hlt| ->]|Hlt].
  - by apply (Hocc t Hlt).
  - rewrite Ht' in E. congruence.
  - specialize (Hmin t' Hlt). unfold stop in Hmin. rewrite Ht', Hy in Hmin. congruence.
Qed.

Lemma table_insert k f x t :
  table_ok k f → f (probe_at k x t) = None →
  (∀ s, s < t → f (probe_at k x s) ≠ None) →
  (∀ i y, i < 2 ^ k → f i = Some y → same_key y x = false) →
  table_ok k (fupd f (probe_at k x t) x).
Proof.
  intros [Hreach Huniq] Hfree Hocc Hnew. unfold fupd. split.
  - intros i y Hy Hi. case_decide as Ei; simplify_eq.
    + exists t. split; [done|]. intros s Hs. case_decide; [done|]. by apply Hocc.
    + destruct (Hreach i y Hy Hi) as (t' & Ht' & Hocc'). exists t'. split; [done|].
      intros s Hs. case_decide; [done|]. by apply Hocc'.
  - intros i j a b Hi Hj. repeat case_decide; intros; simplify_eq; [done| | |eauto].
    + rewrite (same_key_sym a b) in *. rewrite (Hnew j b) in *; done.
    + rewrite (Hnew i a) in *; done.
Qed.

Lemma table_update k f j y y' :
  table_ok k f → f j = Some y → y'.1 = y.1 → table_ok k (fupd f j y').
Proof.
  intros [Hreach Huniq] Hj Hk. unfold fupd.
  assert (∀ a, same_key y' a = same_key y a) as Hsk.
  { intros a. unfold same_key. by rewrite Hk. }
  split.
  - intros i x Hx Hi. case_decide as Ei; simplify_eq.
    + destruct (Hreach j y Hj Hi) as (t & Ht & Hocc). exists t. rewrite Hk.
      split; [done|]. intros s Hs. case_decide; [done|]. by apply Hocc.
    + destruct (Hreach i x Hx Hi) as (t & Ht & Hocc). exists t. split; [done|].
      intros s Hs. case_decide; [done|]. by apply Hocc.
  - intros a b x z Ha Hb. repeat case_decide; intros; simplify_eq; [done| | |eauto].
    + eapply Huniq; [done|done|done|done|]. by rewrite <-Hsk.
    + eapply Huniq; [done|done|done|done|]. by rewrite same_key_sym, <-Hsk, same_key_sym.
Qed.

(** Changing one slot changes one row. *)
Lemma rows_of_split k j :
  j < 2 ^ k → ∃ rest, ∀ f, rows_of k f ≡ₚ option_list (f j) ++ omap f rest ∧
    ∀ x, rows_of k (fupd f j x) ≡ₚ x :: omap f rest.
Proof.
  intros Hj. assert (j ∈ seq 0 (2 ^ k)) as (l1 & l2 & Hl)%list_elem_of_split
    by (apply elem_of_seq; lia).
  assert (j ∉ l1 ++ l2) as Hnin.
  { pose proof (NoDup_seq 0 (2 ^ k)) as Hnd. rewrite Hl in Hnd.
    rewrite <-Permutation_middle in Hnd. by apply list.NoDup_cons in Hnd as [? _]. }
  exists (l1 ++ l2). intros f.
  assert (∀ g, rows_of k g ≡ₚ option_list (g j) ++ omap g (l1 ++ l2)) as Hg.
  { intros g. unfold rows_of. rewrite Hl, !omap_app. cbn [omap list_omap].
    destruct (g j) as [y|]; simpl; [|done]. by rewrite <-Permutation_middle. }
  split; [done|]. intros x. rewrite Hg. unfold fupd at 1. rewrite decide_True by done. simpl.
  constructor. clear Hg Hl. induction (l1 ++ l2) as [|i l IH]; [done|].
  apply not_elem_of_cons in Hnin as [Hne Hnin]. cbn [omap list_omap].
  unfold fupd at 1. rewrite decide_False by done. destruct (f i); [constructor|]; by apply IH.
Qed.

(** * The combining frame as a table *)

Definition slot (hits : list nat) (data : list row) (i : nat) : option row :=
  match hits !! i with
  | Some (S _) => data !! i
  | _ => None
  end.

Abbreviation slots c := (slot (cf_hits c) (cf_data c)).

Record shape (k : nat) (c : combiningFrame) : Prop := {
  sh_cap : cf_cap c = 2 ^ k;
  sh_mask : cf_mask c = (2 ^ Z.of_nat k - 1)%Z;
  sh_hits : length (cf_hits c) = 2 ^ k;
  sh_data : length (cf_data c) = 2 ^ k + cf_nscratch c;
  sh_threshold : cf_threshold c = 7 * 2 ^ k / 10;
  sh_max : k ≤ 29;
}.

(** The rows in the table, in slot order. *)
Definition contents (c : combiningFrame) : list row :=
  omap (slots c) (seq 0 (cf_cap c)).

Definition scratch (c : combiningFrame) : list row := drop (cf_cap c) (cf_data c).

Record cf_ok (k : nat) (c : combiningFrame) : Prop := {
  ok_shape : shape k c;
  ok_table : table_ok k (slots c);
  ok_len : cf_len c = length (contents c);
  ok_load : cf_len c ≤ cf_threshold c;
}.

Lemma pow2_pos k : 0 < 2 ^ k.
Proof. induction k; simpl; lia. Qed.

Lemma threshold_lt k : 7 * 2 ^ k / 10 < 2 ^ k.
Proof. pose proof (pow2_pos k). apply Nat.Div0.div_lt_upper_bound; lia. Qed.

Lemma land_mask k z : Z.land z (2 ^ Z.of_nat k - 1) = (z mod 2 ^ Z.of_nat k)%Z.
Proof. rewrite <-Z.land_ones by lia. by rewrite Z.ones_equiv. Qed.

Lemma start_pos k x : start (2 ^ Z.of_nat k - 1) x = pos k (hash x) 0.
Proof. unfold start, pos. rewrite land_mask. simpl. by rewrite Z.add_0_r. Qed.

Lemma probe_from {A} k (at_ : Z → option (outcome A)) fuel h s t r :
  s ≤ t → t < s + fuel → at_ (pos k h t) = Some r →
  (∀ u, s ≤ u → u < t → at_ (pos k h u) = None) →
  probe (2 ^ Z.of_nat k - 1) at_ fuel (pos k h s) (Z.of_nat s + 1) = r.
Proof.
  revert s. induction fuel as [|fuel IH]; intros s Hst Ht Hr Hn; [lia|]. simpl.
  destruct (decide (s = t)) as [->|Hne]; [by rewrite Hr|].
  rewrite Hn by lia. rewrite land_mask.
  assert ((pos k h s + (Z.of_nat s + 1)) mod 2 ^ Z.of_nat k = pos k h (S s))%Z as ->.
  { unfold pos. rewrite Zplus_mod_idemp_l. f_equal. cbn [tri]. lia. }
  replace (Z.of_nat s + 1 + 1)%Z with (Z.of_nat (S s) + 1)%Z by lia.
  apply IH; [lia..|done|]. intros u Hu. apply Hn. lia.
Qed.

Lemma probe_spec {A} k (at_ : Z → option (outcome A)) fuel x t r :
  t < fuel → at_ (pos k (hash x) t) = Some r →
  (∀ u, u < t → at_ (pos k (hash x) u) = None) →
  probe (2 ^ Z.of_nat k - 1) at_ fuel (start (2 ^ Z.of_nat k - 1) x) 1 = r.
Proof.
  intros Ht Hr Hn. rewrite start_pos. apply (probe_from k at_ fuel (hash x) 0 t); auto with lia.
Qed.

Lemma contents_rows k c : shape k c → contents c = rows_of k (slots c).
Proof. intros [Hcap _ _ _ _ _]. unfold contents, rows_of. by rewrite Hcap. Qed.

Lemma rows_of_ext k f g : (∀ i, i < 2 ^ k → f i = g i) → rows_of k f = rows_of k g.
Proof.
  intros Hfg. unfold rows_of.
  assert (∀ i, i ∈ seq 0 (2 ^ k) → f i = g i) as H by (intros i Hi%elem_of_seq; apply Hfg; lia).
  induction (seq 0 (2 ^ k)) as [|i l IH]; [done|]. cbn [omap list_omap].
  rewrite (H i ltac:(left)). rewrite IH; [done|]. intros j Hj. apply H. by right.
Qed.

Lemma table_ok_ext k f g : (∀ i, i < 2 ^ k → f i = g i) → table_ok k f → table_ok k g.
Proof.
  intros Hfg [Hr Hu]. split.
  - intros i x Hx Hi. rewrite <-Hfg in Hx by done. destruct (Hr i x Hx Hi) as (t & Ht & Ho).
    exists t. split; [done|]. intros s Hs. rewrite <-Hfg by apply probe_at_lt. auto.
  - intros i j x y Hi Hj Hx Hy. rewrite <-Hfg in Hx, Hy by done. eauto.
Qed.

Lemma slot_insert hits data j h x i :
  j < length hits → j < length data →
  slot (<[j := S h]> hits) (<[j := x]> data) i = fupd (slot hits data) j x i.
Proof.
  intros Hh Hd. unfold slot, fupd. case_decide as E; [subst|].
  - by rewrite !list_lookup_insert_eq.
  - by rewrite !list_lookup_insert_ne.
Qed.

Lemma slot_lookup hits data i :
  i < length hits → i < length data →
  (∃ h x, hits !! i = Some (S h) ∧ data !! i = Some x ∧ slot hits data i = Some x) ∨
  hits !! i = Some 0 ∧ slot hits data i = None.
Proof.
  intros [h Hh]%lookup_lt_is_Some_2 [x Hx]%lookup_lt_is_Some_2. unfold slot. rewrite Hh, Hx.
  destruct h as [|h]; [by right|left; eauto].
Qed.

Lemma scratch_insert c j x : j < cf_cap c → drop (cf_cap c) (<[j := x]> (cf_data c)) = scratch c.
Proof. intros Hj. unfold scratch. by rewrite drop_insert_lt. Qed.

Lemma shape_lengths k c j : shape k c → j < 2 ^ k → j < length (cf_hits c) ∧ j < length (cf_data c).
Proof. intros [_ _ H1 H2 _ _] Hj. lia. Qed.

(** Placing a row with a new key. *)
Lemma place_spec k c x h :
  shape k c → table_ok k (slots c) → length (contents c) < 2 ^ k →
  Forall (λ y, same_key y x = false) (contents c) →
  ∃ c', (∀ fuel, 2 ^ k ≤ fuel →
      probe (cf_mask c) (rehash_at c x (S h)) fuel (start (cf_mask c) x.1) 1 = Ret c') ∧
    shape k c' ∧ table_ok k (slots c') ∧ contents c' ≡ₚ x :: contents c ∧
    scratch c' = scratch c ∧ cf_nscratch c' = cf_nscratch c ∧ cf_len c' = cf_len c.
Proof.
  intros Hsh Htb Hl Hnew. rewrite (contents_rows k) in * by done.
  destruct (table_find k (slots c) x Htb Hl) as (t & Ht & Hbefore & Hend).
  assert (∀ i y, i < 2 ^ k → slots c i = Some y → same_key y x = false) as Hno.
  { intros i y Hi Hy. rewrite Forall_forall in Hnew. apply Hnew. apply list_elem_of_In.
    unfold rows_of. apply list_elem_of_omap. exists i. split; [apply elem_of_seq; lia|done]. }
  destruct Hend as [(y & Hy & Hyx)|[Hfree _]].
  { rewrite (Hno _ y (probe_at_lt k x t) Hy) in Hyx. done. }
  set (j := probe_at k x t) in *. pose proof (probe_at_lt k x t : j < 2 ^ k) as Hj.
  destruct (shape_lengths k c j Hsh Hj) as [Hjh Hjd].
  pose proof Hsh as [S1 S2 S3 S4 S5 S6]. eexists. split.
  { intros fuel Hf. rewrite S2. apply (probe_spec k _ fuel x.1 t); [lia| |].
    - unfold rehash_at. fold j.
      destruct (slot_lookup (cf_hits c) (cf_data c) j Hjh Hjd) as [(? & ? & _ & _ & E)|[-> _]]; [congruence|].
      reflexivity.
    - intros u Hu. destruct (Hbefore u Hu) as (y & Hy & _). unfold rehash_at.
      unfold slot in Hy. by destruct (cf_hits c !! _) as [[|n]|]. }
  assert (∀ i, slot (<[j := S h]> (cf_hits c)) (<[j := x]> (cf_data c)) i = fupd (slots c) j x i) as Hs.
  { intros i. by apply slot_insert. }
  assert (shape k (mkCF (<[j := x]> (cf_data c)) (cf_nscratch c) (cf_threshold c)
    (<[j := S h]> (cf_hits c)) (cf_len c) (cf_cap c) (cf_mask c))) as Hsh'.
  { split; simpl; rewrite ?length_insert; done. }
  split_and!; [done| | | |done|done].
  - eapply table_ok_ext; [intros i _; symmetry; apply Hs|]. simpl.
    apply table_insert; try done. intros s Hs'. destruct (Hbefore s Hs') as (y & -> & _). done.
  - rewrite (contents_rows k) by done. simpl. rewrite (rows_of_ext k _ (fupd (slots c) j x)) by auto.
    destruct (rows_of_split k j Hj) as [rest Hrest]. destruct (Hrest (slots c)) as [-> ->].
    by rewrite Hfree.
  - unfold scratch. simpl. apply scratch_insert. lia.
Qed.

(** The rows of the occupied slots. *)
Definition entries (l : list (nat * row)) : list row :=
  omap (λ '(h, x), if h is S _ then Some x else None) l.

Definition distinct : list row → Prop := pairwise (λ x y, same_key x y = false).

Lemma rehash_spec k l c :
  shape k c → table_ok k (slots c) → length (contents c ++ entries l) < 2 ^ k →
  distinct (entries l ++ contents c) →
  ∃ c', (∀ fuel, 2 ^ k ≤ fuel → rehash fuel l c = Ret c') ∧
    shape k c' ∧ table_ok k (slots c') ∧ contents c' ≡ₚ entries l ++ contents c ∧
    scratch c' = scratch c ∧ cf_nscratch c' = cf_nscratch c ∧ cf_len c' = cf_len c.
Proof.
  revert c. induction l as [|[[|h] x] l IH]; intros c Hsh Htb Hl Hd; [by exists c|by apply IH|].
  unfold entries in Hd, Hl. cbn [omap list_omap] in Hd, Hl. fold (entries l) in Hd, Hl.
  destruct Hd as [Hx Hd]. rewrite length_app in Hl. simpl in Hl.
  destruct (place_spec k c x h Hsh Htb) as (c1 & Hp & Hsh1 & Htb1 & Hc1 & Hsc1 & Hn1 & Hl1); [lia| |].
  { apply Forall_app in Hx as [_ Hx]. eapply Forall_impl; [|exact Hx]. intros y Hy.
    by rewrite same_key_sym. }
  destruct (IH c1 Hsh1 Htb1) as (c' & HR & Hsh' & Htb' & Hc' & Hsc' & Hn' & Hl').
  { rewrite length_app, Hc1. simpl. unfold entries in *. lia. }
  { eapply pairwise_perm; [intros a b Hab; by rewrite same_key_sym| |].
    - rewrite Hc1. apply Permutation_middle.
    - by split. }
  exists c'. split_and!; [|done|done| |congruence..].
  - intros fuel Hf. simpl. rewrite Hp by done. apply HR. done.
  - rewrite Hc', Hc1. simpl. symmetry. apply Permutation_middle.
Qed.

Lemma entries_slots hits data :
  length hits ≤ length data →
  entries (zip hits data) = omap (slot hits data) (seq 0 (length hits)).
Proof.
  revert data. induction hits as [|h hits IH]; intros data Hl; [done|].
  destruct data as [|x data]; simpl in Hl; [lia|].
  assert (omap (slot (h :: hits) (x :: data)) (seq 1 (length hits)) =
    omap (slot hits data) (seq 0 (length hits))) as Hshift.
  { rewrite <-fmap_S_seq. generalize (seq 0 (length hits)). induction l as [|i l IHl]; [done|].
    rewrite fmap_cons. cbn [omap list_omap]. by rewrite IHl. }
  change (seq 0 (length (h :: hits))) with (0 :: seq 1 (length hits)).
  change (zip (h :: hits) (x :: data)) with ((h, x) :: zip hits data).
  specialize (IH data ltac:(lia)). unfold entries in *. cbn [omap list_omap].
  rewrite Hshift, IH. unfold slot at 2. by destruct h.
Qed.

Lemma max_capacity k : k < 29 → Z.of_nat (2 ^ k) ≠ hashMaxCapacity.
Proof.
  intros Hk. rewrite Nat2Z.inj_pow. unfold hashMaxCapacity.
  assert (2 ^ Z.of_nat k < 2 ^ 29)%Z; [|simpl in *; lia]. apply Z.pow_lt_mono_r; lia.
Qed.

(** The number of rows that the largest table can hold. *)
Definition maxRows : Z := 7 * 2 ^ 29 / 10.

Lemma max_threshold c : shape 29 c → Z.of_nat (cf_threshold c) = maxRows.
Proof.
  intros Hsh. rewrite (sh_threshold _ _ Hsh), Nat2Z.inj_div, Nat2Z.inj_mul, Nat2Z.inj_pow. done.
Qed.

Lemma make_spec k n len :
  k ≤ 29 → ∃ c, make (2 ^ k) n len = Ret c ∧ shape k c ∧ table_ok k (slots c) ∧
    contents c = [] ∧ cf_nscratch c = n ∧ cf_len c = len ∧
    cf_data c = replicate (2 ^ k + n) zero.
Proof.
  intros Hk. unfold make. rewrite Nat2Z.inj_pow. change (Z.of_nat 2) with 2%Z.
  rewrite land_mask, Z.mod_same by lia. simpl.
  eexists. split; [done|]. set (c := mkCF _ _ _ _ _ _ _).
  assert (∀ i, slots c i = None) as Hs.
  { intros i. unfold slot. simpl. destruct (replicate (2 ^ k) 0 !! i) as [[|h]|] eqn:E; [done| |done].
    by apply lookup_replicate in E as [? _]. }
  split_and!; try done.
  - split; simpl; rewrite ?length_replicate; done.
  - split; intros; by rewrite Hs in *.
  - unfold contents. induction (seq 0 (cf_cap c)) as [|i l IH]; [done|].
    cbn [omap list_omap]. by rewrite Hs.
Qed.

Lemma slot_data_app hits d1 d2 i : i < length d1 → slot hits (d1 ++ d2) i = slot hits d1 i.
Proof. intros Hi. unfold slot. by rewrite lookup_app_l. Qed.

Lemma distinct_contents k c : shape k c → table_ok k (slots c) → distinct (contents c).
Proof.
  intros Hsh [_ Hu]. rewrite (contents_rows k) by done. unfold rows_of, distinct.
  assert (∀ i, i ∈ seq 0 (2 ^ k) → i < 2 ^ k) as Hb by (intros i Hi%elem_of_seq; lia).
  pose proof (NoDup_seq 0 (2 ^ k)) as Hnd. revert Hb.
  induction Hnd as [|i l Hi Hnd IH]; intros Hb; [done|]. cbn [omap list_omap].
  assert (∀ j, j ∈ l → j < 2 ^ k) as Hb' by (intros; apply Hb; by right).
  destruct (slots c i) as [x|] eqn:E; [|auto]. split; [|auto].
  rewrite Forall_forall. intros y Hy%list_elem_of_In%list_elem_of_omap.
  destruct Hy as (j & Hj & Ej). destruct (same_key x y) eqn:Es; [|done].
  assert (i = j) as -> by (eapply Hu; eauto; apply Hb; left). done.
Qed.

Lemma list_inserts_tail (l1 vs l2 : list row) :
  length vs = length l2 → list_inserts (length l1) vs (l1 ++ l2) = l1 ++ vs.
Proof.
  revert l1 l2. induction vs as [|x vs IH]; intros l1 [|y l2] Hl; simpl in *; try done.
  injection Hl as Hl. specialize (IH (l1 ++ [y]) l2 Hl).
  rewrite length_app, <-!(assoc_L (++)) in IH. simpl in IH. rewrite Nat.add_1_r in IH. rewrite IH.
  by rewrite insert_app_r_alt, Nat.sub_diag by done.
Qed.

(** After doubling, the load is below the threshold again. *)
Lemma threshold_double k len :
  len ≤ 7 * 2 ^ k / 10 → S len ≤ 7 * 2 ^ S k / 10.
Proof.
  intros Hl. rewrite Nat.pow_succ_r'. pose proof (pow2_pos k) as Hp.
  pose proof (Nat.Div0.mul_div_le (7 * 2 ^ k) 10) as Hd. revert Hl Hd Hp. generalize (2 ^ k). intros n Hl Hd Hp.
  destruct (decide (n = 1)) as [->|].
  - change (7 * 1 / 10) with 0 in Hl. change (7 * (2 * 1) / 10) with 1. lia.
  - apply Nat.div_le_lower_bound; lia.
Qed.

Lemma added_spec k c :
  shape k c → table_ok k (slots c) → length (contents c) = S (cf_len c) →
  cf_len c ≤ cf_threshold c → (Z.of_nat (S (cf_len c)) <= maxRows)%Z →
  ∃ k' c', (∀ fuel, 2 ^ S k ≤ fuel → added fuel c = Ret c') ∧ cf_ok k' c' ∧
    contents c' ≡ₚ contents c ∧ scratch c' = scratch c ∧ cf_nscratch c' = cf_nscratch c.
Proof.
  intros Hsh Htb Hlen Hload Hmax. unfold added. cbn [cf_len cf_threshold cf_cap cf_nscratch cf_data cf_hits].
  destruct (Nat.leb_spec (S (cf_len c)) (cf_threshold c)) as [Hle|Hgt].
  { eexists k, _. split_and!; [done| |done..]. split; [|done|done|done]. by destruct Hsh. }
  pose proof Hsh as [S1 S2 S3 S4 S5 S6].
  assert (k < 29) as Hk.
  { destruct (decide (k = 29)) as [->|]; [|lia]. pose proof (max_threshold c Hsh). lia. }
  rewrite S1. destruct (Z.eqb_spec (Z.of_nat (2 ^ k)) hashMaxCapacity) as [E|_];
    [by apply max_capacity in E|].
  replace (2 ^ k * 2) with (2 ^ S k) by (simpl; lia).
  destruct (make_spec (S k) (cf_nscratch c) (S (cf_len c)) ltac:(lia))
    as (c0 & Hm & Hsh0 & Htb0 & Hc0 & Hn0 & Hl0 & Hd0).
  rewrite Hm. cbn [mbind outcome_bind].
  assert (length (scratch c) = cf_nscratch c) as Hls
    by (unfold scratch; rewrite length_drop; lia).
  set (c1 := mkCF _ _ _ _ _ _ _).
  assert (list_inserts (2 ^ S k) (drop (2 ^ k) (cf_data c)) (cf_data c0) =
    replicate (2 ^ S k) zero ++ scratch c) as Hd1.
  { rewrite Hd0, replicate_add. unfold scratch. rewrite S1.
    pose proof (list_inserts_tail (replicate (2 ^ S k) zero) (drop (2 ^ k) (cf_data c))
      (replicate (cf_nscratch c) zero)) as Hi.
    rewrite !length_replicate in Hi. apply Hi. rewrite length_drop. lia. }
  assert (shape (S k) c1) as Hsh1.
  { destruct Hsh0 as [T1 T2 T3 T4 T5 T6]. split; unfold c1;
      cbn [cf_cap cf_mask cf_hits cf_data cf_nscratch cf_threshold]; try done.
    by rewrite Hd1, length_app, length_replicate, Hls, Hn0. }
  assert (∀ i, i < 2 ^ S k → slots c1 i = slots c0 i) as Hsl.
  { intros i Hi. unfold c1. cbn [cf_hits cf_data].
    rewrite Hd1, Hd0, replicate_add, !slot_data_app; [done|..]; by rewrite length_replicate. }
  assert (contents c1 = []) as Hc1.
  { rewrite (contents_rows (S k)) by done. rewrite (rows_of_ext _ _ (slots c0)) by done.
    by rewrite <-(contents_rows (S k)). }
  assert (entries (zip (cf_hits c) (cf_data c)) = contents c) as He.
  { rewrite entries_slots by lia. unfold contents. by rewrite S1, S3. }
  destruct (rehash_spec (S k) (zip (cf_hits c) (cf_data c)) c1)
    as (c' & HR & Hsh' & Htb' & Hc' & Hsc' & Hn' & Hl').
  { done. }
  { eapply table_ok_ext; [|exact Htb0]. intros i Hi. symmetry. by apply Hsl. }
  { rewrite Hc1, He. simpl. pose proof (threshold_lt k). lia. }
  { rewrite Hc1, He, app_nil_r. by eapply distinct_contents. }
  exists (S k), c'. rewrite He, Hc1, app_nil_r in Hc'. split_and!; [done| |done| |].
  - split; [done|done| |].
    + rewrite Hl'. simpl. by rewrite Hl0, Hc', Hlen.
    + rewrite Hl', (sh_threshold _ _ Hsh'). unfold c1. cbn [cf_len]. rewrite Hl0.
      apply threshold_double. lia.
  - rewrite Hsc'. unfold scratch, c1. cbn [cf_cap cf_data]. rewrite Hd1.
    destruct Hsh0 as [T1 _ _ _ _ _]. rewrite T1. apply drop_app_length'. by rewrite length_replicate.
  - rewrite Hn'. simpl. done.
Qed.

(** What combining row [x] does to the rows of the table. *)
Definition combined_into (x : row) (L L' : list row) : Prop :=
  Forall (λ y, same_key y x = false) L ∧ L' ≡ₚ x :: L ∨
  ∃ y R, same_key y x = true ∧ L ≡ₚ y :: R ∧ L' ≡ₚ (y.1, combiner y.2 x.2) :: R.

Lemma slot_swap hits data j i x p :
  j < length hits → length hits ≤ i → data !! i = Some x → i < length data → p < length hits →
  slot (<[j := 1]> hits) (list_swap j i data) p = fupd (slot hits data) j x p.
Proof.
  intros Hj Hi Hx Hid Hp. unfold slot, fupd.
  rewrite list_swap_lookup by lia. rewrite (decide_False (P := p = i)) by lia.
  case_decide as E; [subst|].
  - by rewrite list_lookup_insert_eq.
  - by rewrite list_lookup_insert_ne.
Qed.

Lemma combine_row_spec k c i x :
  cf_ok k c → scratch c !! i = Some x → (Z.of_nat (S (cf_len c)) <= maxRows)%Z →
  ∃ k' c', (∀ fuel, 2 ^ S k ≤ fuel → combine_row fuel c i = Ret c') ∧ cf_ok k' c' ∧
    combined_into x (contents c) (contents c') ∧ cf_nscratch c' = cf_nscratch c ∧
    ∀ p, p ≠ i → scratch c' !! p = scratch c !! p.
Proof.
  intros [Hsh Htb Hlen Hload] Hi Hmax. pose proof Hsh as [S1 S2 S3 S4 S5 S6].
  unfold scratch in Hi. rewrite lookup_drop in Hi.
  pose proof (lookup_lt_Some _ _ _ Hi) as Hid.
  assert (length (rows_of k (slots c)) < 2 ^ k) as Hroom.
  { rewrite <-(contents_rows k c Hsh). pose proof (threshold_lt k). lia. }
  destruct (table_find k (slots c) x Htb Hroom) as (t & Ht & Hbefore & Hend).
  set (j := probe_at k x t) in *. pose proof (probe_at_lt k x t : j < 2 ^ k) as Hj.
  destruct (shape_lengths k c j Hsh Hj) as [Hjh Hjd].
  assert (∀ fuel u, u < t → combine_at fuel c i (pos k (hash x.1) u) = None) as Hskip.
  { intros fuel u Hu. destruct (Hbefore u Hu) as (y & Hy & Hne).
    unfold combine_at. unfold slot in Hy.
    destruct (cf_hits c !! probe_at k x u) as [[|n]|]; [done| |done]. by rewrite Hy, Hi, Hne. }
  assert (∀ fuel r, combine_at fuel c i (pos k (hash x.1) t) = Some r → t < fuel →
    combine_row fuel c i = r) as Hrun.
  { intros fuel r Hr Hf. unfold combine_row. rewrite Hi, S2.
    eapply (probe_spec k _ fuel x.1 t); [done|done|]. auto. }
  assert (2 ^ k ≤ 2 ^ S k) as Hpow by (simpl; lia).
  destruct (rows_of_split k j Hj) as [rest Hrest]. destruct (Hrest (slots c)) as [Hold Hnew].
  destruct Hend as [(y & Hy & Hyx)|[Hfree Hno]].
  - destruct (slot_lookup (cf_hits c) (cf_data c) j Hjh Hjd) as [(h & y' & Hh & Hy' & Hs)|[_ ?]];
      [|congruence]. assert (y' = y) as -> by congruence.
    set (c' := mkCF (<[j := (y.1, combiner y.2 x.2)]> (cf_data c)) (cf_nscratch c)
      (cf_threshold c) (<[j := S (S h)]> (cf_hits c)) (cf_len c) (cf_cap c) (cf_mask c)).
    assert (∀ p, slots c' p = fupd (slots c) j (y.1, combiner y.2 x.2) p) as Hsl.
    { intros p. by apply slot_insert. }
    assert (shape k c') as Hsh' by (split; simpl; rewrite ?length_insert; done).
    assert (contents c' ≡ₚ (y.1, combiner y.2 x.2) :: omap (slots c) rest) as Hc'.
    { rewrite (contents_rows k) by done.
      rewrite (rows_of_ext k (slots c') (fupd (slots c) j (y.1, combiner y.2 x.2))) by auto.
      apply Hnew. }
    rewrite Hy in Hold. simpl in Hold. rewrite <-(contents_rows k c Hsh) in Hold.
    exists k, c'. split_and!.
    + intros fuel Hf. apply Hrun; [|lia]. unfold combine_at. fold j.
      by rewrite Hh, Hy', Hi, Hyx.
    + split; [done| | |done].
      * eapply table_ok_ext; [intros p _; symmetry; apply Hsl|]. by eapply table_update.
      * simpl. by rewrite Hlen, Hc', Hold.
    + right. by exists y, (omap (slots c) rest).
    + done.
    + intros p _. unfold scratch. simpl. by rewrite drop_insert_lt by lia.
  - set (c1 := mkCF (list_swap j (cf_cap c + i) (cf_data c)) (cf_nscratch c) (cf_threshold c)
      (<[j := 1]> (cf_hits c)) (cf_len c) (cf_cap c) (cf_mask c)).
    assert (∀ p, p < 2 ^ k → slots c1 p = fupd (slots c) j x p) as Hsl.
    { intros p Hp. apply slot_swap; try done; lia. }
    assert (shape k c1) as Hsh1 by (split; simpl; rewrite ?length_insert, ?length_list_swap; done).
    rewrite Hfree in Hold. simpl in Hold. rewrite <-(contents_rows k c Hsh) in Hold.
    assert (contents c1 ≡ₚ x :: contents c) as Hc1.
    { rewrite (contents_rows k c1) by done. rewrite Hold.
      rewrite (rows_of_ext k (slots c1) (fupd (slots c) j x)) by auto. apply Hnew. }
    assert (table_ok k (slots c1)) as Htb1.
    { eapply table_ok_ext; [intros p Hp; symmetry; by apply Hsl|]. apply table_insert; try done.
      intros s Hs. destruct (Hbefore s Hs) as (y & -> & _). done. }
    destruct (added_spec k c1) as (k' & c' & Hadd & Hok' & Hc' & Hsc' & Hn'); try done.
    { rewrite Hc1. simpl. by rewrite Hlen. }
    exists k', c'. split_and!; [|done| |done|].
    + intros fuel Hf. rewrite <-(Hadd fuel Hf). apply Hrun; [|lia]. unfold combine_at. fold j.
      destruct (slot_lookup (cf_hits c) (cf_data c) j Hjh Hjd) as [(? & ? & _ & _ & ?)|[-> _]];
        [congruence|done].
    + left. split; [|by rewrite Hc', Hc1]. rewrite Forall_forall. intros y Hy%list_elem_of_In.
      rewrite (contents_rows k c Hsh) in Hy. apply list_elem_of_omap in Hy as (p & Hp & Hy).
      apply elem_of_seq in Hp. apply (Hno p); [lia|done].
    + intros p Hp. rewrite Hsc'. unfold scratch. simpl. rewrite !lookup_drop.
      rewrite list_swap_lookup by lia. rewrite !decide_False by lia. done.
Qed.

(** * Grouping by key *)

(** [L] has one row per key of [l]: the first key seen, and the values
    combined in the order of their arrival. *)
Definition grouped (l L : list row) : Prop :=
  ∃ gs, concat gs ≡ₚ l ∧ Forall2 (λ g x, reduce1 combiner g = Some x) gs L ∧
    Forall (λ g, ∀ a b, a ∈ g → b ∈ g → same_key a b = true) gs ∧ distinct L.

Lemma grouped_perm l L L' : L ≡ₚ L' → grouped l L → grouped l L'.
Proof.
  intros Hp (gs & Hgs & HF & Hk & Hd).
  apply Forall2_flip in HF. destruct (Permutation_Forall2 Hp HF) as (gs' & Hgs' & HF').
  exists gs'. split_and!; [by rewrite <-Hgs'|by apply Forall2_flip|by rewrite <-Hgs'|].
  eapply pairwise_perm; [intros a b Hab; by rewrite same_key_sym|done|done].
Qed.

Lemma reduce1_head g x a : reduce1 combiner g = Some x → a ∈ g →
  (∀ a b, a ∈ g → b ∈ g → same_key a b = true) → same_key a x = true.
Proof.
  destruct g as [|y g]; [done|]. simpl. intros [= <-] Ha Hk. rewrite same_key_spec. simpl.
  apply same_key_spec. apply Hk; [done|left].
Qed.

Lemma grouped_combined l L x L' :
  grouped l L → combined_into x L L' → grouped (l ++ [x]) L'.
Proof.
  intros (gs & Hgs & HF & Hk & Hd) [[Hnew Hp]|(y & R & Hyx & Hp & Hp')].
  - apply (grouped_perm _ (x :: L)); [done|]. exists ([x] :: gs). split_and!.
    + simpl. rewrite Hgs. apply Permutation_cons_append.
    + constructor; [by destruct x|done].
    + constructor; [|done]. intros a b ->%list_elem_of_singleton ->%list_elem_of_singleton.
      apply same_key_refl.
    + split; [|done]. eapply Forall_impl; [|exact Hnew]. intros y Hy. by rewrite same_key_sym.
  - apply (grouped_perm _ ((y.1, combiner y.2 x.2) :: R)); [done|].
    apply Forall2_flip in HF. destruct (Permutation_Forall2 Hp HF) as (gs' & Hgs' & HF').
    destruct gs' as [|g gs']; [by inversion HF'|]. apply Forall2_cons_1 in HF' as [Hg HF'].
    rewrite Hgs' in Hk, Hgs. apply Forall_cons_iff in Hk as [Hkg Hk].
    assert (distinct (y :: R)) as [Hy HR].
    { eapply pairwise_perm; [intros a b Hab; by rewrite same_key_sym|done|done]. }
    exists ((g ++ [x]) :: gs'). split_and!.
    + simpl. rewrite <-Hgs. simpl. rewrite <-!(assoc_L (++)). f_equiv. apply Permutation_app_comm.
    + constructor; [|by apply Forall2_flip]. destruct g as [|a g]; [done|]. simpl in *.
      injection Hg as <-. simpl. rewrite fmap_app, fold_left_app. done.
    + constructor; [|done].
      assert (∀ a, a ∈ g → same_key a x = true) as Hgx.
      { intros a Ha. apply same_key_trans with y; [by eapply reduce1_head|done]. }
      intros a b [Ha|Ha%list_elem_of_singleton]%elem_of_app
        [Hb|Hb%list_elem_of_singleton]%elem_of_app; subst; auto using same_key_refl.
      rewrite same_key_sym. auto.
    + split; [|done]. eapply Forall_impl; [|exact Hy]. done.
Qed.

Lemma grouped_nil : grouped [] [].
Proof. exists []. split_and!; done || constructor. Qed.

Lemma grouped_length l L : grouped l L → length L ≤ length l.
Proof.
  intros (gs & Hgs & HF & _). rewrite <-Hgs. clear Hgs.
  induction HF as [|g x gs L Hg _ IH]; [done|]. simpl. rewrite length_app.
  destruct g; [done|]. simpl. lia.
Qed.

(** * Combining frames *)

Lemma combine_rows_spec n k c i l :
  cf_ok k c → grouped l (contents c) → i + n ≤ length (scratch c) →
  (Z.of_nat (length l + n) <= maxRows)%Z →
  ∃ k' c' f0, (∀ fuel, f0 ≤ fuel → combine_rows fuel c i n = Ret c') ∧ cf_ok k' c' ∧
    grouped (l ++ take n (drop i (scratch c))) (contents c') ∧ cf_nscratch c' = cf_nscratch c.
Proof.
  revert k c i l. induction n as [|n IH]; intros k c i l Hok Hg Hi Hmax.
  { exists k, c, 0. simpl. by rewrite app_nil_r. }
  destruct (lookup_lt_is_Some_2 (scratch c) i) as [x Hx]; [lia|].
  pose proof (grouped_length _ _ Hg) as Hgl. pose proof (ok_len _ _ Hok) as Hlen.
  destruct (combine_row_spec k c i x Hok Hx) as (k1 & c1 & Hc1 & Hok1 & Hinto & Hn1 & Hsc1); [lia|].
  pose proof (grouped_combined _ _ _ _ Hg Hinto) as Hg1.
  assert (length (scratch c1) = length (scratch c)) as Hls.
  { unfold scratch. rewrite !length_drop.
    rewrite (sh_data _ _ (ok_shape _ _ Hok)), (sh_data _ _ (ok_shape _ _ Hok1)).
    rewrite (sh_cap _ _ (ok_shape _ _ Hok)), (sh_cap _ _ (ok_shape _ _ Hok1)). lia. }
  destruct (IH k1 c1 (S i) (l ++ [x])) as (k' & c' & f0 & Hc' & Hok' & Hg' & Hn'); [done|done|lia| |].
  { rewrite length_app. simpl. lia. }
  exists k', c', (f0 `max` 2 ^ S k). split_and!; [|done| |congruence].
  - intros fuel Hf. simpl. rewrite Hc1 by lia. apply Hc'. lia.
  - rewrite (drop_S _ _ _ Hx). simpl.
    replace (drop (S i) (scratch c)) with (drop (S i) (scratch c1)).
    { by rewrite <-(assoc_L (++)) in Hg'. }
    apply list_eq. intros p. rewrite !lookup_drop. apply Hsc1. lia.
Qed.

Lemma Combine_chunks_spec nchunk k c f l :
  cf_ok k c → grouped l (contents c) → length f ≤ nchunk * cf_nscratch c →
  (Z.of_nat (length l + length f) <= maxRows)%Z →
  ∃ k' c' f0, (∀ fuel, f0 ≤ fuel → Combine_chunks fuel c f nchunk = Ret c') ∧ cf_ok k' c' ∧
    grouped (l ++ f) (contents c') ∧ cf_nscratch c' = cf_nscratch c.
Proof.
  revert k c f l. induction nchunk as [|nchunk IH]; intros k c f l Hok Hg Hlf Hmax.
  { destruct f; [|simpl in Hlf; lia]. exists k, c, 0. by rewrite app_nil_r. }
  set (chunk := take (cf_nscratch c) f).
  set (c1 := mkCF (list_inserts (cf_cap c) chunk (cf_data c)) (cf_nscratch c) (cf_threshold c)
    (cf_hits c) (cf_len c) (cf_cap c) (cf_mask c)).
  pose proof Hok as [Hsh Htb Hlen Hload]. pose proof Hsh as [S1 S2 S3 S4 S5 S6].
  assert (∀ p, p < 2 ^ k → slots c1 p = slots c p) as Hsl.
  { intros p Hp. unfold slot. simpl. by rewrite list_lookup_inserts_lt by lia. }
  assert (shape k c1) as Hsh1 by (split; simpl; rewrite ?length_inserts; done).
  assert (contents c1 = contents c) as Hc1.
  { rewrite !(contents_rows k) by done. by apply rows_of_ext. }
  assert (cf_ok k c1) as Hok1.
  { split; [done| |simpl; by rewrite Hc1|done].
    eapply table_ok_ext; [|exact Htb]. intros p Hp. symmetry. by apply Hsl. }
  assert (length chunk ≤ cf_nscratch c) as Hlc by (unfold chunk; rewrite length_take; lia).
  assert (take (length chunk) (drop 0 (scratch c1)) = chunk) as Hsc.
  { apply list_eq. intros p. destruct (decide (p < length chunk)).
    - rewrite lookup_take_lt, drop_0 by done. unfold scratch. rewrite lookup_drop. simpl.
      rewrite list_lookup_inserts by lia. f_equal. lia.
    - rewrite lookup_take_ge by lia. symmetry. apply lookup_ge_None. lia. }
  destruct (combine_rows_spec (length chunk) k c1 0 l) as (k2 & c2 & f2 & Hc2 & Hok2 & Hg2 & Hn2).
  { done. }
  { by rewrite Hc1. }
  { unfold scratch. simpl. rewrite length_drop, length_inserts. lia. }
  { unfold chunk. rewrite length_take. lia. }
  rewrite Hsc in Hg2. simpl in Hn2.
  destruct (IH k2 c2 (drop (cf_nscratch c) f) (l ++ chunk)) as (k' & c' & f0 & Hc' & Hok' & Hg' & Hn').
  { done. }
  { done. }
  { rewrite length_drop, Hn2. lia. }
  { unfold chunk. rewrite length_app, length_drop, length_take. lia. }
  exists k', c', (f0 `max` f2). split_and!; [|done| |congruence].
  - intros fuel Hf. simpl. fold chunk c1. rewrite Hc2 by lia. apply Hc'. lia.
  - rewrite <-(assoc_L (++)) in Hg'. unfold chunk in Hg'. by rewrite take_drop in Hg'.
Qed.

Lemma Combine_spec k c f l :
  cf_ok k c → grouped l (contents c) → 0 < cf_nscratch c →
  (Z.of_nat (length l + length f) <= maxRows)%Z →
  ∃ k' c' f0, (∀ fuel, f0 ≤ fuel → Combine fuel c f = Ret c') ∧ cf_ok k' c' ∧
    grouped (l ++ f) (contents c') ∧ cf_nscratch c' = cf_nscratch c.
Proof.
  intros Hok Hg Hn Hmax. unfold Combine. destruct (Nat.eqb_spec (cf_nscratch c) 0); [lia|].
  apply Combine_chunks_spec with k; try done.
  pose proof (Nat.Div0.div_mod (length f + cf_nscratch c - 1) (cf_nscratch c)) as Hdm.
  pose proof (Nat.mod_upper_bound (length f + cf_nscratch c - 1) (cf_nscratch c)) as Hmb. nia.
Qed.

(** * Compacting *)

(** Before step [i] the first [j] rows are those of the slots before [i],
    and the rows from [i] on are in place. *)
Lemma Compact_loop_spec hits i j data data' j' :
  Compact_loop hits i j data = (data', j') → j ≤ i → i + length hits ≤ length data →
  length data' = length data ∧ j' ≤ i + length hits ∧
  take j' data' = take j data ++ entries (zip hits (drop i data)).
Proof.
  revert i j data. induction hits as [|[|h] hits IH]; intros i j data HC Hji Hl; simpl in HC, Hl.
  - injection HC as <- <-. split_and!; [done|simpl; lia|]. simpl. by rewrite app_nil_r.
  - destruct (IH (S i) j data HC) as (H1 & H2 & H3); [lia|lia|].
    split_and!; [done|simpl; lia|]. rewrite H3. f_equal.
    destruct (lookup_lt_is_Some_2 data i) as [x Hx]; [lia|]. by rewrite (drop_S _ _ _ Hx).
  - destruct (IH (S i) (S j) (list_swap i j data) HC) as (H1 & H2 & H3);
      [lia|rewrite length_list_swap; lia|].
    rewrite length_list_swap in H1. split_and!; [done|simpl; lia|]. rewrite H3.
    destruct (lookup_lt_is_Some_2 data i) as [x Hx]; [lia|]. rewrite (drop_S data _ _ Hx).
    assert (take (S j) (list_swap i j data) = take j data ++ [x]) as ->.
    { rewrite (take_S_r _ _ x).
      - f_equal. apply list_eq. intros p. destruct (decide (p < j)).
        + rewrite !lookup_take_lt, list_swap_lookup by lia. by rewrite !decide_False by lia.
        + by rewrite !lookup_take_ge by lia.
      - rewrite list_swap_lookup by lia. by rewrite decide_True. }
    assert (drop (S i) (list_swap i j data) = drop (S i) data) as ->.
    { apply list_eq. intros p. rewrite !lookup_drop, list_swap_lookup by lia.
      by rewrite !decide_False by lia. }
    rewrite <-(assoc_L (++)). done.
Qed.

Lemma Compact_spec k c :
  cf_ok k c → ∃ c', Compact c = (c', contents c) ∧ cf_ok k c' ∧ contents c' = [] ∧
    cf_nscratch c' = cf_nscratch c.
Proof.
  intros [Hsh Htb Hlen Hload]. pose proof Hsh as [S1 S2 S3 S4 S5 S6].
  unfold Compact. destruct (Compact_loop (cf_hits c) 0 0 (cf_data c)) as [data j] eqn:E.
  apply Compact_loop_spec in E as (H1 & H2 & H3); [|lia|simpl; lia].
  rewrite drop_0 in H3. simpl in H3. rewrite entries_slots in H3 by lia.
  eexists. split.
  { rewrite H3. unfold contents. by rewrite S1, S3. }
  set (c' := mkCF _ _ _ _ _ _ _).
  assert (∀ i, slots c' i = None) as Hs.
  { intros i. unfold slot. simpl. destruct (replicate _ 0 !! i) as [[|h]|] eqn:E; [done| |done].
    by apply lookup_replicate in E as [? _]. }
  assert (contents c' = []) as Hc'.
  { unfold contents. induction (seq 0 (cf_cap c')) as [|i l IH]; [done|].
    cbn [omap list_omap]. by rewrite Hs. }
  split_and!; [|done|done]. split.
  - split; simpl; rewrite ?length_replicate; try done. lia.
  - split; intros; by rewrite Hs in *.
  - by rewrite Hc'.
  - simpl. lia.
Qed.

Fixpoint Combine_all (fuel : nat) (c : combiningFrame) (fs : list (list row)) :
    outcome combiningFrame :=
  match fs with
  | [] => Ret c
  | f :: fs => c ← Combine fuel c f; Combine_all fuel c fs
  end.

Lemma Combine_all_spec k c fs l :
  cf_ok k c → grouped l (contents c) → 0 < cf_nscratch c →
  (Z.of_nat (length l + length (concat fs)) <= maxRows)%Z →
  ∃ k' c' f0, (∀ fuel, f0 ≤ fuel → Combine_all fuel c fs = Ret c') ∧ cf_ok k' c' ∧
    grouped (l ++ concat fs) (contents c').
Proof.
  revert k c l. induction fs as [|f fs IH]; intros k c l Hok Hg Hn Hmax; simpl in Hmax.
  { exists k, c, 0. simpl. by rewrite app_nil_r. }
  rewrite length_app in Hmax.
  destruct (Combine_spec k c f l) as (k1 & c1 & f1 & Hc1 & Hok1 & Hg1 & Hn1); [done|done|done|lia|].
  destruct (IH k1 c1 (l ++ f)) as (k' & c' & f0 & Hc' & Hok' & Hg'); [done|done|lia| |].
  { rewrite length_app. lia. }
  exists k', c', (f0 `max` f1). split_and!; [|done|].
  - intros fuel Hf. simpl. rewrite Hc1 by lia. apply Hc'. lia.
  - simpl. by rewrite (assoc_L (++)).
Qed.

(** C16. The combining hash table is correct: starting from a table of any
    power-of-two size, combining any frames (in total at most 375,809,638
    rows, the load limit of the largest table) neither loops nor panics,
    whatever the hash function, and Compact then returns exactly one row
    per key, with the values of the key combined in the order in which the
    rows arrived, and leaves an empty table. *)
Theorem combiningFrame_correct (numOut prefix : Z) (k nscratch : nat) (fs : list (list row)) :
  (numOut - prefix = 1)%Z → k ≤ 29 → 0 < nscratch →
  (Z.of_nat (length (concat fs)) <= maxRows)%Z →
  ∃ c0 c c' L f0, makeCombiningFrame numOut prefix (2 ^ k) nscratch = Ret c0 ∧
    (∀ fuel, f0 ≤ fuel → Combine_all fuel c0 fs = Ret c) ∧
    Compact c = (c', L) ∧ grouped (concat fs) L ∧ cf_len c = length L ∧
    contents c' = [] ∧ cf_len c' = 0.
Proof.
  intros Hno Hk Hn Hmax.
  destruct (make_spec k nscratch 0 Hk) as (c0 & Hm & Hsh & Htb & Hc0 & Hns & Hl & _).
  assert (cf_ok k c0) as Hok.
  { split; [done|done|by rewrite Hc0, Hl|rewrite Hl; lia]. }
  destruct (Combine_all_spec k c0 fs []) as (k' & c & f0 & Hc & Hok' & Hg).
  { done. }
  { rewrite Hc0. apply grouped_nil. }
  { lia. }
  { done. }
  destruct (Compact_spec k' c Hok') as (c' & HC & Hokc & Hcc & _).
  exists c0, c, c', (contents c), f0. split_and!; try done.
  - unfold makeCombiningFrame. by rewrite Hno.
  - by apply ok_len with k'.
  - rewrite (ok_len _ _ Hokc), Hcc. done.
Qed.
End combining_frame.

(** * Spilling combiners *)

(** What a combiner uses of sliceio.Spiller: spilling a run of rows, and
    reading the runs back. *)
Class Spiller (row Sp R : Type) := {
  sp_Spill : Sp → list row → outcome (Sp * (nat + error));
  sp_ClosingReaders : Sp → list R + error;
}.

(** What the spiller promises, when its files do not fail: the spilled runs
    are read back unchanged, in some order. *)
Class SpillerLaws (row Sp R : Type) `{Reader row R} {SP : Spiller row Sp R} := {
  spilled : Sp → list (list row) → Prop;
  sp_Spill_ok : ∀ s runs f, spilled s runs →
    ∃ s' n, sp_Spill s f = Ret (s', inl n) ∧ spilled s' (runs ++ [f]);
  sp_Readers_ok : ∀ s runs, spilled s runs →
    ∃ rs runs', sp_ClosingReaders s = inl rs ∧ runs' ≡ₚ runs ∧
      Forall2 (Streams_as steady) rs runs';
}.

Section combiner.
Context {K V : Type} (ltk : K → K → bool) (hash : K → Z) (comb : V → V → V) (zero : K * V).
Abbreviation row := (K * V)%type.
Context {Sp R : Type} `{Reader row R} {SP : Spiller row Sp R}.
(** [sort.Sort] on a frame, and the chunk size. *)
Context (sort_Sort : list row → list row) (defaultChunksize : nat).

Record combiner := mkCombiner {
  cb_targetSize : nat;
  cb_comb : combiningFrame (K := K) (V := V);
  cb_spiller : Sp;
  cb_total : nat;
}.

(** [spiller] is the result of sliceio.NewSpiller, [canCompare] that of
    frame.CanCompare for the key type. *)
Definition newCombiner (spiller : Sp + error) (canCompare : bool) (numOut prefix : Z)
    (targetSize : nat) : outcome (combiner + error) :=
  match spiller with
  | inr err => Ret (inr err)
  | inl sp =>
      c ← makeCombiningFrame zero numOut prefix defaultChunksize defaultChunksize;
      if negb canCompare then Panic "bigslice.newCombiner: cannot sort type"
      else Ret (inl (mkCombiner targetSize c sp 0))
  end.

(** [c.spill(f)], with the frame that Compact returned. *)
Definition spill (c : combiner) (f : list row) : outcome (combiner * option error) :=
  '(sp, res) ← sp_Spill (cb_spiller c) (sort_Sort f);
  match res with
  | inl _ => Ret (mkCombiner (cb_targetSize c) (cb_comb c) sp 0, None)
  | inr err => Ret (mkCombiner (cb_targetSize c) (cb_comb c) sp (cb_total c), Some err)
  end.

Definition combiner_Combine (fuel : nat) (c : combiner) (f : list row) :
    outcome (combiner * option error) :=
  let nkeys := cf_len (cb_comb c) in
  t ← Combine ltk hash comb zero fuel (cb_comb c) f;
  let c := mkCombiner (cb_targetSize c) t (cb_spiller c) (cb_total c + length f) in
  if cb_targetSize c <=? nkeys then
    let '(t, spilled) := Compact (cb_comb c) in
    spill (mkCombiner (cb_targetSize c) t (cb_spiller c) (cb_total c)) spilled
  else Ret (c, None).

(** A run on disk, or the rows in memory. *)
Inductive runReader := Spilled (r : R) | InMemory (f : frameReader row).

Definition runReader_Read (fuel : nat) (r : runReader) (n : nat) :
    outcome (runReader * (list row * option error)) :=
  match r with
  | Spilled r => '(r, res) ← Read fuel r n; Ret (Spilled r, res)
  | InMemory f => '(f, res) ← Read fuel f n; Ret (InMemory f, res)
  end.
#[local] Instance runReader_reader : Reader row runReader := runReader_Read.

Definition combiner_Reader (numOut prefix : Z) (c : combiner) :
    outcome (combiner * (reader (K := K) (V := V) (R := runReader) + error)) :=
  match sp_ClosingReaders (cb_spiller c) with
  | inr err => Ret (c, inr err)
  | inl readers =>
      let '(t, f) := Compact (cb_comb c) in
      let c := mkCombiner (cb_targetSize c) t (cb_spiller c) (cb_total c) in
      r ← Reduce numOut prefix ((Spilled <$> readers) ++ [InMemory (FrameReader (sort_Sort f))]);
      Ret (c, inl r)
  end.

(** [WriteTo]: copy the reader to an encoder, one chunk at a time; the number
    of rows written and the error.  [write] is [enc.Write]. *)
Fixpoint WriteTo_loop {W} (write : W → list row → W * option error) (loop fuel : nat)
    (r : reader (K := K) (V := V) (R := runReader)) (w : W) (total : Z) :
    outcome (W * Z * option error) :=
  match loop with
  | 0 => NoFuel
  | S loop =>
      '(r, (rows, err)) ← reader_Read ltk comb zero defaultChunksize fuel r defaultChunksize;
      match err with
      | Some (Err k m) => Ret (w, total, Some (Err k m))
      | _ =>
          let total := (total + Z.of_nat (length rows))%Z in
          match write w rows with
          | (w, Some writeErr) => Ret (w, total, Some writeErr)
          | (w, None) =>
              if bool_decide (err = Some EOF) then Ret (w, total, None)
              else WriteTo_loop write loop fuel r w total
          end
      end
  end.

Definition WriteTo {W} (write : W → list row → W * option error) (fuel : nat)
    (numOut prefix : Z) (c : combiner) (w : W) : outcome (W * Z * option error) :=
  '(c, res) ← combiner_Reader numOut prefix c;
  match res with
  | inr err => Ret (w, 0%Z, Some err)
  | inl r => WriteTo_loop write fuel fuel r w 0
  end.

(** * Correctness *)

Context `{!StrictWeak ltk} {SL : SpillerLaws row Sp R}.
Hypothesis hash_same : ∀ a b, ltk a b = false → ltk b a = false → hash a = hash b.
Hypothesis comb_assoc : ∀ a b c, comb (comb a b) c = comb a (comb b c).
Hypothesis sort_perm : ∀ f, sort_Sort f ≡ₚ f.
Hypothesis sort_sorted : ∀ f, sorted (row_less ltk) (sort_Sort f).

(** Distinct sorted rows are strictly sorted. *)
Lemma strictly_sorted (l : list row) :
  sorted (row_less ltk) l → distinct ltk l → strictly ltk l.
Proof.
  induction 1 as [|x l Hs IH Hx]; intros Hd; [constructor|]. destruct Hd as [Hdx Hd].
  constructor; [by apply IH|]. rewrite Forall_forall in *. intros y Hy.
  specialize (Hx y Hy). specialize (Hdx y Hy). unfold row_le, row_less, same_key in *.
  rewrite Hx in Hdx. destruct (ltk x.1 y.1); done.
Qed.

Lemma run_strictly l f : grouped ltk comb l f → grouped ltk comb l (sort_Sort f) ∧ strictly ltk (sort_Sort f).
Proof.
  intros Hg. assert (grouped ltk comb l (sort_Sort f)) as Hg'.
  { eapply grouped_perm; [symmetry; apply sort_perm|done]. }
  split; [done|]. apply strictly_sorted; [done|]. by destruct Hg' as (? & _ & _ & _ & ?).
Qed.

(** ** Combining twice *)

Lemma fold_comb_assoc a b vs : fold_left comb vs (comb a b) = comb a (fold_left comb vs b).
Proof. revert b. induction vs as [|v vs IH]; intros b; simpl; [done|]. by rewrite comb_assoc, IH. Qed.

Lemma reduce1_app (g1 : list row) x1 (g2 : list row) x2 :
  reduce1 comb g1 = Some x1 → reduce1 comb g2 = Some x2 →
  reduce1 comb (g1 ++ g2) = Some (x1.1, comb x1.2 x2.2).
Proof.
  destruct g1 as [|y1 g1], g2 as [|y2 g2]; simpl; try done. intros [= <-] [= <-]. simpl.
  rewrite fmap_app, fold_left_app. simpl. by rewrite fold_comb_assoc.
Qed.

(** Reducing the reductions of groups is reducing their concatenation. *)
Lemma reduce1_concat (gs : list (list row)) (G : list row) x :
  Forall2 (λ g y, reduce1 comb g = Some y) gs G → reduce1 comb G = Some x →
  reduce1 comb (concat gs) = Some x.
Proof.
  intros HF. destruct HF as [|g y gs G Hg HF]; [done|]. simpl. intros [= <-].
  revert g y Hg. induction HF as [|g2 y2 gs G Hg2 _ IH]; intros g y Hg; simpl.
  - rewrite app_nil_r, Hg. by destruct y.
  - rewrite (assoc_L (++)). rewrite (IH (g ++ g2) (y.1, comb y.2 y2.2)); [done|].
    by apply reduce1_app.
Qed.

(** Splitting a matching along a concatenation. *)
Lemma Forall2_concat_inv {A B} (P : A → B → Prop) (l : list A) (G : list (list B)) :
  Forall2 P l (concat G) → ∃ ls, concat ls = l ∧ Forall2 (Forall2 P) ls G.
Proof.
  revert l. induction G as [|g G IH]; simpl; intros l HF.
  - apply Forall2_nil_inv_r in HF as ->. exists []. by split.
  - apply Forall2_app_inv_r in HF as (l1 & l2 & H1 & H2 & ->).
    destruct (IH l2 H2) as (ls & <- & Hls). exists (l1 :: ls). split; [done|by constructor].
Qed.

(** The reduction of runs that are groupings is the reduction of the rows
    that went into the runs. *)
Lemma reduction_grouped ls runs L :
  Forall2 (grouped ltk comb) ls runs → reduction ltk comb (concat runs) L →
  reduction ltk comb (concat ls) L.
Proof.
  intros HF (G & HG & HGL & HGk & HsL).
  assert (∃ gs, concat gs ≡ₚ concat ls ∧ Forall2 (λ g x, reduce1 comb g = Some x) gs (concat runs) ∧
    Forall (λ g, ∀ a b, a ∈ g → b ∈ g → same_key ltk a b = true) gs) as (gs & Hgs & HgR & Hgk).
  { clear -HF. induction HF as [|l r ls runs (gs1 & H1 & H2 & H3 & _) _ (gs & H4 & H5 & H6)].
    - exists []. split_and!; constructor.
    - exists (gs1 ++ gs). rewrite concat_app. simpl. split_and!.
      + by rewrite H1, H4.
      + by apply Forall2_app.
      + by apply Forall_app. }
  apply Forall2_flip in HgR. destruct (Permutation_Forall2 (symmetry HG) HgR) as (gs' & Hp & HgR').
  apply Forall2_flip in HgR'. rewrite Hp in Hgk, Hgs.
  destruct (Forall2_concat_inv _ _ _ HgR') as (gss & <- & Hgss).
  exists ((λ g, concat g) <$> gss). split_and!; [| | |done].
  - rewrite <-Hgs. clear. induction gss as [|g gss IH]; simpl; [done|].
    rewrite concat_app. by rewrite <-IH.
  - clear -Hgss HGL comb_assoc. revert L HGL.
    induction Hgss as [|gs g gss G Hg _ IH]; intros L HGL;
      [by apply Forall2_nil_inv_l in HGL as ->; constructor|].
    destruct L as [|x L]; [by inversion HGL|]. apply Forall2_cons_1 in HGL as [Hx HGL].
    constructor; [by eapply reduce1_concat|by apply IH].
  - clear -Hgss HGk Hgk StrictWeak0. induction Hgss as [|gs g gss G Hg _ IH]; simpl; [done|].
    apply Forall_cons_iff in HGk as [Hgk1 HGk]. simpl in Hgk. apply Forall_app in Hgk as [Hk1 Hk2].
    constructor; [|by apply IH].
    assert (∀ a, a ∈ concat gs → ∃ x, x ∈ g ∧ same_key ltk a x = true) as Hin.
    { clear -Hg Hk1 StrictWeak0. induction Hg as [|g1 x gs g Hx _ IH]; simpl; intros a Ha.
      - by apply elem_of_nil in Ha.
      - apply Forall_cons_iff in Hk1 as [Hg1 Hk1]. apply elem_of_app in Ha as [Ha|Ha].
        + exists x. split; [left|]. by eapply reduce1_head.
        + destruct (IH Hk1 a Ha) as (y & Hy & ?). exists y. split; [by right|done]. }
    intros a b (x & Hx & Hax)%Hin (y & Hy & Hby)%Hin.
    apply same_key_spec in Hax as [Hax _], Hby as [_ Hyb]. specialize (Hgk1 x y Hx Hy).
    unfold row_less in *.
    exact (sw_neg_trans _ _ _ Hyb (sw_neg_trans _ _ _ Hgk1 Hax)).
Qed.

(** ** The combiner *)

(** The combiner holds the rows [l]: some in spilled runs, the others in the
    table. *)
Definition holds (c : combiner) (l : list row) : Prop :=
  ∃ k ls runs cur, cf_ok ltk hash k (cb_comb c) ∧ 0 < cf_nscratch (cb_comb c) ∧
    spilled (cb_spiller c) runs ∧ Forall2 (grouped ltk comb) ls runs ∧
    Forall (strictly ltk) runs ∧ grouped ltk comb cur (contents (cb_comb c)) ∧
    concat ls ++ cur ≡ₚ l.

Lemma combiner_Combine_spec c l f :
  holds c l → (Z.of_nat (length l + length f) <= maxRows)%Z →
  ∃ c' f0, (∀ fuel, f0 ≤ fuel → combiner_Combine fuel c f = Ret (c', None)) ∧ holds c' (l ++ f).
Proof.
  intros (k & ls & runs & cur & Hok & Hn & Hsp & HF & Hst & Hcur & Hl) Hmax.
  assert (length cur ≤ length l) as Hcl.
  { rewrite <-Hl, length_app. lia. }
  destruct (Combine_spec ltk hash comb zero hash_same k (cb_comb c) f cur)
    as (k1 & t1 & f1 & Ht1 & Hok1 & Hg1 & Hn1); [done|done|done|lia|].
  destruct (decide (cb_targetSize c ≤ cf_len (cb_comb c))) as [Hsz|Hsz].
  - destruct (Compact_spec ltk hash k1 t1 Hok1) as (t2 & HC & Hok2 & Hc2 & Hn2).
    destruct (run_strictly _ _ Hg1) as [Hg2 Hs2].
    destruct (sp_Spill_ok (cb_spiller c) runs (sort_Sort (contents t1)) Hsp) as (sp' & n & HS & Hsp').
    eexists _, f1. split.
    { intros fuel Hf. unfold combiner_Combine. rewrite Ht1 by done. simpl.
      destruct (Nat.leb_spec (cb_targetSize c) (cf_len (cb_comb c))); [|lia].
      rewrite HC. unfold spill. simpl. by rewrite HS. }
    exists k1, (ls ++ [cur ++ f]), (runs ++ [sort_Sort (contents t1)]), []. simpl.
    split_and!; [done|lia|done| | | |].
    + apply Forall2_app; [done|]. by constructor.
    + apply Forall_app. split; [done|]. by constructor.
    + rewrite Hc2. apply grouped_nil.
    + rewrite concat_app, app_nil_r. simpl. by rewrite app_nil_r, (assoc_L (++)), Hl.
  - eexists _, f1. split.
    { intros fuel Hf. unfold combiner_Combine. rewrite Ht1 by done. simpl.
      destruct (Nat.leb_spec (cb_targetSize c) (cf_len (cb_comb c))); [lia|done]. }
    exists k1, ls, runs, (cur ++ f). simpl. split_and!; try done; [lia|].
    by rewrite (assoc_L (++)), Hl.
Qed.

Lemma Spilled_streams r l : Streams_as steady r l → Streams_as steady (Spilled r) l.
Proof.
  intros [k Hk]. exists k. revert Hk. apply (streams_simulation (λ r1 r2, r2 = Spilled r1)); [|done].
  intros r1 r2 n r1' out oe -> [f0 HR]. exists (Spilled r1'). split; [|done].
  exists f0. intros fu Hf. unfold Read, runReader_reader, runReader_Read. by rewrite HR.
Qed.

Lemma InMemory_streams f l : Streams_as steady f l → Streams_as steady (InMemory f) l.
Proof.
  intros [k Hk]. exists k. revert Hk. apply (streams_simulation (λ r1 r2, r2 = InMemory r1)); [|done].
  intros r1 r2 n r1' out oe -> [f0 HR]. exists (InMemory r1'). split; [|done].
  exists f0. intros fu Hf. unfold Read, runReader_reader, runReader_Read. by rewrite HR.
Qed.

Fixpoint combiner_Combine_all (fuel : nat) (c : combiner) (fs : list (list row)) :
    outcome (combiner * option error) :=
  match fs with
  | [] => Ret (c, None)
  | f :: fs =>
      '(c, err) ← combiner_Combine fuel c f;
      match err with
      | Some e => Ret (c, Some e)
      | None => combiner_Combine_all fuel c fs
      end
  end.

Lemma combiner_Combine_all_spec c l fs :
  holds c l → (Z.of_nat (length l + length (concat fs)) <= maxRows)%Z →
  ∃ c' f0, (∀ fuel, f0 ≤ fuel → combiner_Combine_all fuel c fs = Ret (c', None)) ∧
    holds c' (l ++ concat fs).
Proof.
  revert c l. induction fs as [|f fs IH]; intros c l Hh Hmax; simpl in *.
  { exists c, 0. by rewrite app_nil_r. }
  rewrite length_app in Hmax.
  destruct (combiner_Combine_spec c l f Hh) as (c1 & f1 & Hc1 & Hh1); [lia|].
  destruct (IH c1 (l ++ f) Hh1) as (c' & f0 & Hc' & Hh').
  { rewrite length_app. lia. }
  exists c', (f0 `max` f1). rewrite (assoc_L (++)). split; [|done].
  intros fuel Hf. rewrite Hc1 by lia. simpl. apply Hc'. lia.
Qed.

Lemma combiner_Reader_spec numOut prefix c l :
  (numOut - prefix = 1)%Z → 0 < defaultChunksize → holds c l →
  ∃ c' r L, combiner_Reader numOut prefix c = Ret (c', inl r) ∧
    @Streams_as _ _ (reader_reader ltk comb zero defaultChunksize) steady r L ∧
    reduction ltk comb l L.
Proof.
  intros Hno Hch (k & ls & runs & cur & Hok & Hn & Hsp & HF & Hst & Hcur & Hl).
  destruct (sp_Readers_ok _ _ Hsp) as (rs & runs' & HR & Hp & HS).
  destruct (Compact_spec ltk hash k (cb_comb c) Hok) as (t & HC & _).
  destruct (run_strictly _ _ Hcur) as [Hg2 Hs2].
  apply Forall2_flip in HF. destruct (Permutation_Forall2 (symmetry Hp) HF) as (ls' & Hls' & HF').
  apply Forall2_flip in HF'.
  destruct (Reduce_spec ltk comb zero defaultChunksize numOut prefix
    ((Spilled <$> rs) ++ [InMemory (FrameReader (sort_Sort (contents (cb_comb c))))])
    (runs' ++ [sort_Sort (contents (cb_comb c))])) as (r & L & Hr & HL & Hred).
  { done. }
  { done. }
  { apply Forall2_app.
    - rewrite Forall2_fmap_l. eapply Forall2_impl; [|exact HS]. intros r0 l0. apply Spilled_streams.
    - constructor; [|done]. apply InMemory_streams. eexists. apply frameReader_streams, Nat.lt_succ_diag_r. }
  { apply Forall_app. split; [by rewrite Hp|by constructor]. }
  eexists _, r, L. split_and!; [|done|].
  - unfold combiner_Reader. rewrite HR, HC. simpl. by rewrite Hr.
  - destruct (reduction_grouped (ls' ++ [cur]) (runs' ++ [sort_Sort (contents (cb_comb c))]) L)
      as (gs & Hgs & Hrest).
    + apply Forall2_app; [done|]. by constructor.
    + done.
    + exists gs. split; [|done]. rewrite Hgs, concat_app. simpl. rewrite app_nil_r.
      by rewrite <-Hls', Hl.
Qed.

Lemma newCombiner_holds (sp : Sp) (numOut prefix : Z) (k targetSize : nat) :
  (numOut - prefix = 1)%Z → defaultChunksize = 2 ^ k → k ≤ 29 → spilled sp [] →
  ∃ c, newCombiner (inl sp) true numOut prefix targetSize = Ret (inl c) ∧ holds c [].
Proof.
  intros Hno Hch Hk Hsp. assert (0 < defaultChunksize) as Hpos by (rewrite Hch; apply pow2_pos).
  destruct (make_spec ltk hash zero k defaultChunksize 0 Hk) as (t0 & Hm & Hsh & Htb & Hc0 & Hns & Hl & _).
  exists (mkCombiner targetSize t0 sp 0). split.
  - unfold newCombiner, makeCombiningFrame. rewrite Hno, Hch. simpl. rewrite Hch in Hm. by rewrite Hm.
  - exists k, [], [], []. simpl. split_and!; [|lia|done|constructor|constructor| |done].
    + split; [done|done|by rewrite Hc0, Hl|rewrite Hl; lia].
    + rewrite Hc0. apply grouped_nil.
Qed.

Lemma combiner_all_spec (sp : Sp) (numOut prefix : Z) (k targetSize : nat) (fs : list (list row)) :
  (numOut - prefix = 1)%Z → defaultChunksize = 2 ^ k → k ≤ 29 → spilled sp [] →
  (Z.of_nat (length (concat fs)) <= maxRows)%Z →
  ∃ c0 c c' r L f0,
    newCombiner (inl sp) true numOut prefix targetSize = Ret (inl c0) ∧
    (∀ fuel, f0 ≤ fuel → combiner_Combine_all fuel c0 fs = Ret (c, None)) ∧
    combiner_Reader numOut prefix c = Ret (c', inl r) ∧
    @Streams_as _ _ (reader_reader ltk comb zero defaultChunksize) steady r L ∧
    reduction ltk comb (concat fs) L.
Proof.
  intros Hno Hch Hk Hsp Hmax.
  destruct (newCombiner_holds sp numOut prefix k targetSize Hno Hch Hk Hsp) as (c0 & Hnew & Hh0).
  destruct (combiner_Combine_all_spec c0 [] fs Hh0 Hmax) as (c & f0 & Hc & Hh).
  destruct (combiner_Reader_spec numOut prefix c (concat fs) Hno) as (c' & r & L & Hr & HL & Hred);
    [rewrite Hch; apply pow2_pos|done|].
  by exists c0, c, c', r, L, f0.
Qed.

(** C14. A combiner computes the reduction of everything combined into it:
    however the frames are divided, and however often the table was spilled
    to disk on the way, the reader it returns streams one row per key, in
    strictly increasing key order, with all values of the key combined (the
    combiner function being associative). *)
Theorem combiner_correct (sp : Sp) (numOut prefix : Z) (k targetSize : nat) (fs : list (list row)) :
  (numOut - prefix = 1)%Z → defaultChunksize = 2 ^ k → k ≤ 29 → spilled sp [] →
  (Z.of_nat (length (concat fs)) <= maxRows)%Z →
  ∃ c0 c c' r L f0,
    newCombiner (inl sp) true numOut prefix targetSize = Ret (inl c0) ∧
    (∀ fuel, f0 ≤ fuel → combiner_Combine_all fuel c0 fs = Ret (c, None)) ∧
    combiner_Reader numOut prefix c = Ret (c', inl r) ∧
    @Streams_as _ _ (reader_reader ltk comb zero defaultChunksize) steady r L ∧
    reduction ltk comb (concat fs) L.
Proof. apply combiner_all_spec. Qed.

(** C15. With a commutative combiner function and a total order of keys, what a
    combiner returns depends only on the rows combined into it: not on their
    order, on how they were divided into frames, on the spill target, or on what
    was spilled. *)
Theorem combiner_order_irrelevant (sp sp' : Sp) (numOut prefix : Z) (k targetSize targetSize' : nat)
    (fs fs' : list (list row)) :
  (∀ a b, ltk a b = false → ltk b a = false → a = b) → (∀ a b, comb a b = comb b a) →
  (numOut - prefix = 1)%Z → defaultChunksize = 2 ^ k → k ≤ 29 → spilled sp [] → spilled sp' [] →
  (Z.of_nat (length (concat fs)) <= maxRows)%Z → concat fs ≡ₚ concat fs' →
  ∃ L, ∀ sp0 size fs0, (sp0, size, fs0) = (sp, targetSize, fs) ∨ (sp0, size, fs0) = (sp', targetSize', fs') →
    ∃ c0 c c' r f0,
      newCombiner (inl sp0) true numOut prefix size = Ret (inl c0) ∧
      (∀ fuel, f0 ≤ fuel → combiner_Combine_all fuel c0 fs0 = Ret (c, None)) ∧
      combiner_Reader numOut prefix c = Ret (c', inl r) ∧
      @Streams_as _ _ (reader_reader ltk comb zero defaultChunksize) steady r L.
Proof.
  intros Hkey Hcomm Hno Hch Hk Hsp Hsp' Hmax Hp.
  destruct (combiner_all_spec sp numOut prefix k targetSize fs) as (c0 & c & c' & r & L & f0 & H1 & H2 & H3 & H4 & HL);
    [done..|].
  destruct (combiner_all_spec sp' numOut prefix k targetSize' fs')
    as (d0 & d & d' & r' & L' & f1 & G1 & G2 & G3 & G4 & GL); [done..|by rewrite <-Hp|].
  rewrite <-(reduction_perm ltk comb Hkey comb_assoc Hcomm _ _ _ _ Hp HL GL) in G4.
  exists L. intros sp0 size fs0 [[= -> -> ->]|[= -> -> ->]]; [by exists c0, c, c', r, f0|by exists d0, d, d', r', f1].
Qed.
End combiner.
