(* ===== verification/Slices.v ===== *)
(** Package bigslice: slices and the operators that build them (src/slice.go,
    src/reduce.go, src/cogroup.go, src/reshuffle.go, src/reshard.go,
    src/cache.go).

    A slice is a tree of operators; [ptr] is the address of the Go struct, so
    that a slice that is used twice can be told from one that was built twice.
    Every operator checks the types of its arguments and panics, through
    package typecheck, if they do not fit. *)
From S2P Require Import Prelude Frame Types SliceIO.

#[local] Set Warnings "-register-all".

(** * Values *)

(** The values that columns hold. *)
Inductive value :=
| VNil
| VBool (b : bool)
| VInt (k : kind) (z : Z)
| VString (s : string)
| VSlice (vs : list value)
| VOther (t : string) (id : nat).

Abbreviation row := (list value).

(** A user function: its type, and what a call returns. *)
Record userFunc := mkUserFunc {
  uf_Func : Func;
  uf_Call : list value → outcome (list value);
}.

(** * Pragmas *)

Inductive Pragma :=
| exclusive
| materialize
| procs (n : Z)
| Pragmas (ps : list Pragma).

Fixpoint Procs (p : Pragma) : Z :=
  match p with
  | exclusive | materialize => 1
  | procs n => n
  | Pragmas ps =>
      (fix loop (need : Z) (ps : list Pragma) : Z :=
         match ps with
         | [] => need
         | q :: ps => let n := Procs q in loop (if (need <? n)%Z then n else need) ps
         end) 1%Z ps
  end.

Fixpoint Exclusive (p : Pragma) : bool :=
  match p with
  | exclusive => true
  | materialize | procs _ => false
  | Pragmas ps => existsb Exclusive ps
  end.

Fixpoint Materialize (p : Pragma) : bool :=
  match p with
  | materialize => true
  | exclusive | procs _ => false
  | Pragmas ps => existsb Materialize ps
  end.

(** * Names *)

Record Name := mkName {
  nm_Op : string;
  nm_File : string;
  nm_Line : Z;
  nm_Index : Z;
}.

(** A frame of the call stack. *)
Record runtimeFrame := mkRuntimeFrame {
  rf_Function : string;
  rf_File : string;
  rf_Line : Z;
}.

(** Package state: the registered helper functions, the name indices handed
    out so far, and the next address. *)
Record bigslice := mkBigslice {
  bs_helpers : gset string;
  bs_indexer : gmap (string * string * Z) Z;
  bs_next : nat;
}.

Definition Helper (caller : string) (b : bigslice) : bigslice :=
  mkBigslice ({[caller]} ∪ bs_helpers b) (bs_indexer b) (bs_next b).

Definition newNameIndex (op file : string) (line : Z) (b : bigslice) : bigslice * Z :=
  let key := (op, file, line) in
  let c := default 0%Z (bs_indexer b !! key) in
  (mkBigslice (bs_helpers b) (<[key := (c + 1)%Z]> (bs_indexer b)) (bs_next b), c).

(** The frame after the last helper's, if any. *)
Fixpoint MakeName_loop (helpers : gset string) (frames : list runtimeFrame)
    (found : option runtimeFrame) : option runtimeFrame :=
  match frames with
  | [] => found
  | f :: frames =>
      let found := if found is None then Some f else found in
      let found := if decide (rf_Function f ∈ helpers) then None else found in
      MakeName_loop helpers frames found
  end.

(** [frames] is what runtime.Callers reports. *)
Definition MakeName (op : string) (frames : list runtimeFrame) (b : bigslice) :
    outcome (bigslice * Name) :=
  match frames with
  | [] => Panic "bigslice: no callers found"
  | _ =>
      let found := default (mkRuntimeFrame "" "" 0) (MakeName_loop (bs_helpers b) frames None) in
      let '(b, index) := newNameIndex op (rf_File found) (rf_Line found) b in
      Ret (b, mkName op (rf_File found) (rf_Line found) index)
  end.

(** * Slices *)

(** A reader function with its state: zero value and whether the state is a
    pointer, which the function may write through. *)
Record readerFn := mkReaderFn {
  rfn_state : Type;
  rfn_zero : rfn_state;
  rfn_isPtr : bool;
  rfn_call : Z → rfn_state → nat → outcome (rfn_state * (list row * option error));
}.

Record writerFn := mkWriterFn {
  wfn_state : Type;
  wfn_zero : wfn_state;
  wfn_isPtr : bool;
  wfn_call : Z → wfn_state → option error → list row → outcome (wfn_state * option error);
}.

(** The interface slicecache.ShardCache. *)
Record ShardCache := mkShardCache {
  IsCached : Z → outcome bool;
  WritethroughReader : Z → anyReader row → outcome (anyReader row);
  CacheReader : Z → outcome (anyReader row);
}.

(** Assigns a shard to every row of a frame. *)
Definition Partitioner : Type := list row → Z → outcome (list Z).

Inductive Slice :=
| constSlice (ptr : nat) (name : Name) (typ : Typ) (frame : list row) (nshard : Z)
| readerFuncSlice (ptr : nat) (name : Name) (pragma : Pragma) (typ : Typ) (nshard : Z)
    (read : readerFn)
| writerFuncSlice (ptr : nat) (name : Name) (slice : Slice) (write : writerFn)
| mapSlice (ptr : nat) (name : Name) (pragma : Pragma) (slice : Slice) (fval : userFunc)
| filterSlice (ptr : nat) (name : Name) (pragma : Pragma) (slice : Slice) (pred : userFunc)
| flatmapSlice (ptr : nat) (name : Name) (pragma : Pragma) (slice : Slice) (fval : userFunc)
    (out : Typ)
| foldSlice (ptr : nat) (name : Name) (slice : Slice) (fval : userFunc) (out : Typ)
| headSlice (ptr : nat) (name : Name) (slice : Slice) (n : Z)
| scanSlice (ptr : nat) (name : Name) (slice : Slice)
    (scan : Z → anyReader row → outcome (anyReader row * option error))
| prefixSlice (ptr : nat) (pragma : Pragma) (slice : Slice) (prefix : Z)
| reduceSlice (ptr : nat) (slice : Slice) (name : Name) (combiner : userFunc)
| cogroupSlice (ptr : nat) (name : Name) (slices : list Slice) (out : list gotype)
    (prefix : Z) (numShard : Z)
| reshuffleSlice (ptr : nat) (name : Name) (partitioner : option Partitioner) (slice : Slice)
| reshardSlice (ptr : nat) (name : Name) (nshard : Z) (slice : Slice)
| cacheSlice (ptr : nat) (name : Name) (slice : Slice) (cache : ShardCache)
| readCacheSlice (ptr : nat) (typ : Typ) (name : Name) (numShard : Z) (cache : ShardCache)
| Result (ptr : nat) (slice : Slice) (tasks : list nat).

Definition ptr_of (s : Slice) : nat :=
  match s with
  | constSlice p _ _ _ _ | readerFuncSlice p _ _ _ _ _ | writerFuncSlice p _ _ _
  | mapSlice p _ _ _ _ | filterSlice p _ _ _ _ | flatmapSlice p _ _ _ _ _
  | foldSlice p _ _ _ _ | headSlice p _ _ _ | scanSlice p _ _ _ | prefixSlice p _ _ _
  | reduceSlice p _ _ _ | cogroupSlice p _ _ _ _ _ | reshuffleSlice p _ _ _
  | reshardSlice p _ _ _ | cacheSlice p _ _ _ | readCacheSlice p _ _ _ _ | Result p _ _ => p
  end.

(** The slices a slice is made of; methods that an operator does not define
    are those of the slice that it embeds. *)
Fixpoint SName (s : Slice) : Name :=
  match s with
  | constSlice _ n _ _ _ | readerFuncSlice _ n _ _ _ _ | writerFuncSlice _ n _ _
  | mapSlice _ n _ _ _ | filterSlice _ n _ _ _ | flatmapSlice _ n _ _ _ _
  | foldSlice _ n _ _ _ | headSlice _ n _ _ | scanSlice _ n _ _
  | reduceSlice _ _ n _ | cogroupSlice _ n _ _ _ _ | reshuffleSlice _ n _ _
  | reshardSlice _ n _ _ | cacheSlice _ n _ _ | readCacheSlice _ _ n _ _ => n
  | prefixSlice _ _ s _ | Result _ s _ => SName s
  end.

(** NumOut and Out of a slice are those of this type. *)
Fixpoint colType (s : Slice) : Typ :=
  match s with
  | constSlice _ _ t _ _ | readerFuncSlice _ _ _ t _ _ | flatmapSlice _ _ _ _ _ t
  | foldSlice _ _ _ _ t | readCacheSlice _ t _ _ _ => t
  | mapSlice _ _ _ _ f => fn_Out (uf_Func f)
  | scanSlice _ _ _ _ => New []
  | cogroupSlice _ _ _ out _ _ => New out
  | writerFuncSlice _ _ s _ | filterSlice _ _ _ s _ | headSlice _ _ s _ | prefixSlice _ _ s _
  | reduceSlice _ s _ _ | reshuffleSlice _ _ _ s | reshardSlice _ _ _ s | cacheSlice _ _ s _
  | Result _ s _ => colType s
  end.

Fixpoint SPrefix (s : Slice) : Z :=
  match s with
  | constSlice _ _ _ _ _ | readerFuncSlice _ _ _ _ _ _ => 1
  | readCacheSlice _ t _ _ _ => Types.Prefix t
  | prefixSlice _ _ _ p => p
  | cogroupSlice _ _ _ _ p _ => p
  | writerFuncSlice _ _ s _ | mapSlice _ _ _ s _ | filterSlice _ _ _ s _
  | flatmapSlice _ _ _ s _ _ | foldSlice _ _ s _ _ | headSlice _ _ s _ | scanSlice _ _ s _
  | reduceSlice _ s _ _ | reshuffleSlice _ _ _ s | reshardSlice _ _ _ s | cacheSlice _ _ s _
  | Result _ s _ => SPrefix s
  end.

(** A slice as a slicetype.Type. *)
Definition typ_of (s : Slice) : Typ := withPrefix (colType s) (SPrefix s).

Fixpoint NumShard (s : Slice) : Z :=
  match s with
  | constSlice _ _ _ _ n | readerFuncSlice _ _ _ _ n _ | cogroupSlice _ _ _ _ _ n
  | reshardSlice _ _ n _ | readCacheSlice _ _ _ n _ => n
  | writerFuncSlice _ _ s _ | mapSlice _ _ _ s _ | filterSlice _ _ _ s _
  | flatmapSlice _ _ _ s _ _ | foldSlice _ _ s _ _ | headSlice _ _ s _ | scanSlice _ _ s _
  | prefixSlice _ _ s _ | reduceSlice _ s _ _ | reshuffleSlice _ _ _ s | cacheSlice _ _ s _
  | Result _ s _ => NumShard s
  end.

Inductive ShardType := HashShard | RangeShard.

(** Every operator that defines its sharding is hash sharded, the others keep
    that of the slice they embed. *)
Fixpoint SShardType (s : Slice) : ShardType :=
  match s with
  | constSlice _ _ _ _ _ | readerFuncSlice _ _ _ _ _ _ | mapSlice _ _ _ _ _
  | flatmapSlice _ _ _ _ _ _ | cogroupSlice _ _ _ _ _ _ | readCacheSlice _ _ _ _ _ => HashShard
  | writerFuncSlice _ _ s _ | filterSlice _ _ _ s _ | foldSlice _ _ s _ _ | headSlice _ _ s _
  | scanSlice _ _ s _ | prefixSlice _ _ s _ | reduceSlice _ s _ _ | reshuffleSlice _ _ _ s
  | reshardSlice _ _ _ s | cacheSlice _ _ s _ | Result _ s _ => SShardType s
  end.

Record Dep := mkDep {
  d_Slice : Slice;
  d_Shuffle : bool;
  d_Partitioner : option Partitioner;
  d_Expand : bool;
}.

Definition singleDep (i : Z) (slice : Slice) (shuffle : bool) : outcome Dep :=
  if (i =? 0)%Z then Ret (mkDep slice shuffle None false) else Panic "invalid dependency".

Fixpoint NumDep (s : Slice) : Z :=
  match s with
  | constSlice _ _ _ _ _ | readerFuncSlice _ _ _ _ _ _ | readCacheSlice _ _ _ _ _ => 0
  | cogroupSlice _ _ ss _ _ _ => Z.of_nat (length ss)
  | prefixSlice _ _ s _ | Result _ s _ => NumDep s
  | _ => 1
  end.

Fixpoint SDep (s : Slice) (i : Z) : outcome Dep :=
  match s with
  | constSlice _ _ _ _ _ | readerFuncSlice _ _ _ _ _ _ | readCacheSlice _ _ _ _ _ => Panic "no deps"
  | writerFuncSlice _ _ s _ | mapSlice _ _ _ s _ | filterSlice _ _ _ s _
  | flatmapSlice _ _ _ s _ _ | headSlice _ _ s _ | scanSlice _ _ s _ => singleDep i s false
  | foldSlice _ _ s _ _ => Ret (mkDep s true None false)
  | reduceSlice _ s _ _ => Ret (mkDep s true None true)
  | cogroupSlice _ _ ss _ _ _ => s ← index ss i; Ret (mkDep s true None false)
  | reshuffleSlice _ _ p s => Ret (mkDep s true p false)
  | reshardSlice _ _ _ s => Ret (mkDep s true None false)
  | cacheSlice _ _ s _ => Ret (mkDep s false None false)
  | prefixSlice _ _ s _ | Result _ s _ => SDep s i
  end.

Fixpoint Combiner (s : Slice) : option userFunc :=
  match s with
  | reduceSlice _ _ _ c => Some c
  | prefixSlice _ _ s _ | Result _ s _ => Combiner s
  | _ => None
  end.

(** The assertion [slice.(bigslice.Pragma)]. *)
Definition pragma_of (s : Slice) : option Pragma :=
  match s with
  | readerFuncSlice _ _ p _ _ _ | mapSlice _ _ p _ _ | filterSlice _ _ p _ _
  | flatmapSlice _ _ p _ _ _ | prefixSlice _ p _ _ => Some p
  | _ => None
  end.

Fixpoint Unwrap (s : Slice) : Slice :=
  match s with
  | prefixSlice _ _ s _ => Unwrap s
  | _ => s
  end.

(** * Operators *)

Section operators.
(** The method sets of Go types, and the registry of column operations. *)
Context (has_method : gotype → string → bool).
Context {V : Type} (reg : gmap string (Frame.Ops (V := V))).

Definition CanHash (t : gotype) : outcome bool := Frame.CanHash reg (gotype_String t).
Definition CanCompare (t : gotype) : outcome bool := Frame.CanCompare reg (gotype_String t).

(** [new(T)] and [MakeName]: the name and the address of a new slice. *)
Definition newSlice (op : string) (frames : list runtimeFrame) (b : bigslice) :
    outcome (bigslice * (Name * nat)) :=
  '(b, name) ← MakeName op frames b;
  Ret (mkBigslice (bs_helpers b) (bs_indexer b) (S (bs_next b)), (name, bs_next b)).

(** [typecheck.Panic] unless the condition holds. *)
Definition check (cond : bool) (msg : string) : outcome unit :=
  if cond then Ret () else Panic msg.

Definition is_some {A} (o : option A) (msg : string) : outcome A :=
  match o with Some x => Ret x | None => Panic msg end.

(** The rows of columns of equal length. *)
Definition rows_of (columns : list (list value)) : outcome (list row) :=
  match columns with
  | [] => Ret []
  | c :: cs =>
      if forallb (λ c', length c' =? length c) cs
      then Ret ((λ i, (λ c', default VNil (c' !! i)) <$> columns) <$> seq 0 (length c))
      else Panic "frame.Slices: columns of unequal length"
  end.

(** [Const]: a column is a Go slice with its type. *)
Definition Const (nshard : Z) (columns : list (gotype * list value))
    (frames : list runtimeFrame) (b : bigslice) : outcome (bigslice * Slice) :=
  _ ← check (negb (length columns =? 0)%nat) "const: must have at least one column";
  '(b, (name, ptr)) ← newSlice "const" frames b;
  _ ← check (1 <=? nshard)%Z "const: shard must be >= 1";
  typ ← Types.Slices (columns.*1);
  typ ← is_some typ "const: invalid slice inputs";
  frame ← rows_of (columns.*2);
  Ret (b, constSlice ptr name typ frame nshard).

(** A user function of type [t]; [None] is a nil interface. *)
Definition ReaderFunc (nshard : Z) (t : option gotype) (S : Type) (zero : S)
    (call : Z → S → nat → outcome (S * (list row * option error)))
    (prags : list Pragma) (frames : list runtimeFrame) (b : bigslice) :
    outcome (bigslice * Slice) :=
  '(b, (name, ptr)) ← newSlice "reader" frames b;
  fn ← is_some (Of t) "readerfunc: invalid reader function type";
  _ ← check (3 <=? NumOut (fn_In fn))%Z "readerfunc: invalid reader function type";
  t0 ← Out (fn_In fn) 0;
  _ ← check (bool_decide (Kind t0 = KInt)) "readerfunc: invalid reader function type";
  r0 ← Out (fn_Out fn) 0;
  _ ← check (bool_decide (Kind r0 = KInt)) "readerfunc: function does not return (int, error)";
  r1 ← Out (fn_Out fn) 1;
  _ ← check (bool_decide (r1 = typeOfError)) "readerfunc: function does not return (int, error)";
  stateType ← Out (fn_In fn) 1;
  arg ← Types.Slice (fn_In fn) 2 (NumOut (fn_In fn));
  typ ← Devectorize arg;
  typ ← is_some typ "readerfunc: function is not vectorized";
  Ret (b, readerFuncSlice ptr name (Pragmas prags) typ nshard
            (mkReaderFn S zero (bool_decide (Kind stateType = KPtr)) call)).

Definition WriterFunc (slice : Slice) (t : option gotype) (S : Type) (zero : S)
    (call : Z → S → option error → list row → outcome (S * option error))
    (frames : list runtimeFrame) (b : bigslice) : outcome (bigslice * Slice) :=
  '(b, (name, ptr)) ← newSlice "writer" frames b;
  let die := "writerfunc: invalid writer function type" in
  fn ← is_some (Of t) die;
  _ ← check (NumOut (fn_In fn) =? 3 + NumOut (typ_of slice))%Z die;
  t0 ← Out (fn_In fn) 0;
  _ ← check (bool_decide (Kind t0 = KInt)) die;
  t2 ← Out (fn_In fn) 2;
  _ ← check (bool_decide (t2 = typeOfError)) die;
  stateType ← Out (fn_In fn) 1;
  ok ← all_from (Z.to_nat (NumOut (typ_of slice))) 0 (λ i,
         a ← Out (typ_of slice) i; c ← Out (fn_In fn) (i + 3);
         Ret (bool_decide (TSlice a = c)));
  _ ← check ok die;
  _ ← check (NumOut (fn_Out fn) =? 1)%Z "writerfunc: must return error";
  r0 ← Out (fn_Out fn) 0;
  _ ← check (bool_decide (r0 = typeOfError)) "writerfunc: must return error";
  Ret (b, writerFuncSlice ptr name slice
            (mkWriterFn S zero (bool_decide (Kind stateType = KPtr)) call)).

Definition Map (slice : Slice) (t : option gotype) (call : list value → outcome (list value))
    (prags : list Pragma) (frames : list runtimeFrame) (b : bigslice) :
    outcome (bigslice * Slice) :=
  '(b, (name, ptr)) ← newSlice "map" frames b;
  fn ← is_some (Of t) "map: invalid map function";
  ok ← CanApply has_method fn (typ_of slice);
  _ ← check ok "map: function does not match input slice type";
  _ ← check (negb (NumOut (fn_Out fn) =? 0)%Z) "map: need at least one output column";
  Ret (b, mapSlice ptr name (Pragmas prags) slice (mkUserFunc fn call)).

Definition Filter (slice : Slice) (t : option gotype) (call : list value → outcome (list value))
    (prags : list Pragma) (frames : list runtimeFrame) (b : bigslice) :
    outcome (bigslice * Slice) :=
  '(b, (name, ptr)) ← newSlice "filter" frames b;
  fn ← is_some (Of t) "filter: invalid predicate function";
  ok ← CanApply has_method fn (typ_of slice);
  _ ← check ok "filter: function does not match input slice type";
  _ ← check (NumOut (fn_Out fn) =? 1)%Z "filter: predicate must return a single boolean value";
  r0 ← Out (fn_Out fn) 0;
  _ ← check (bool_decide (Kind r0 = KBool)) "filter: predicate must return a single boolean value";
  Ret (b, filterSlice ptr name (Pragmas prags) slice (mkUserFunc fn call)).

Definition Flatmap (slice : Slice) (t : option gotype) (call : list value → outcome (list value))
    (prags : list Pragma) (frames : list runtimeFrame) (b : bigslice) :
    outcome (bigslice * Slice) :=
  '(b, (name, ptr)) ← newSlice "flatmap" frames b;
  fn ← is_some (Of t) "flatmap: invalid flatmap function";
  ok ← CanApply has_method fn (typ_of slice);
  _ ← check ok "flatmap: flatmap function does not match input slice type";
  out ← Devectorize (fn_Out fn);
  out ← is_some out "flatmap: flatmap function is not vectorized";
  Ret (b, flatmapSlice ptr name (Pragmas prags) slice (mkUserFunc fn call) out).

Definition canMakeAccumulatorForKey (keyType : gotype) : bool :=
  match Kind keyType with KString | KInt | KInt64 => true | _ => false end.

Definition Fold (slice : Slice) (t : option gotype) (call : list value → outcome (list value))
    (frames : list runtimeFrame) (b : bigslice) : outcome (bigslice * Slice) :=
  _ ← check (2 <=? NumOut (typ_of slice))%Z
        "Fold can be applied only for slices with at least two columns";
  k ← Out (typ_of slice) 0;
  h ← CanHash k;
  _ ← check h "fold: key type is not partitionable";
  _ ← check (canMakeAccumulatorForKey k) "fold: key type cannot be accumulated";
  '(b, (name, ptr)) ← newSlice "fold" frames b;
  fn ← is_some (Of t) "fold: invalid fold function";
  _ ← check (NumOut (fn_Out fn) =? 1)%Z "fold: fold functions must return exactly one value";
  rest ← Types.Slice (typ_of slice) 1 (NumOut (typ_of slice));
  ok ← Equal (fn_In fn) (Append (fn_Out fn) rest);
  _ ← check ok "fold: expected func(acc, t2, t3, ..., tn)";
  acc ← Out (fn_Out fn) 0;
  Ret (b, foldSlice ptr name slice (mkUserFunc fn call) (New [k; acc])).

Definition Head (slice : Slice) (n : Z) (frames : list runtimeFrame) (b : bigslice) :
    outcome (bigslice * Slice) :=
  '(b, (name, ptr)) ← newSlice ("head(" +:+ decimal n +:+ ")") frames b;
  Ret (b, headSlice ptr name slice n).

Definition Scan (slice : Slice)
    (scan : Z → anyReader row → outcome (anyReader row * option error))
    (frames : list runtimeFrame) (b : bigslice) : outcome (bigslice * Slice) :=
  '(b, (name, ptr)) ← newSlice "scan" frames b;
  Ret (b, scanSlice ptr name slice scan).

Definition Prefixed (slice : Slice) (prefix : Z) (b : bigslice) : outcome (bigslice * Slice) :=
  _ ← check (1 <=? prefix)%Z "prefixed: prefix must include at least one column";
  _ ← check (prefix <=? NumOut (typ_of slice))%Z
        "prefixed: prefix is greater than number of columns";
  let pragma := default (Pragmas []) (pragma_of slice) in
  Ret (mkBigslice (bs_helpers b) (bs_indexer b) (S (bs_next b)),
       prefixSlice (bs_next b) pragma slice prefix).

(** The error of canMakeCombiningFrame, if any. *)
Definition canMakeCombiningFrame (typ : Typ) : outcome (option error) :=
  ok ← collect_from (Z.to_nat (Types.Prefix typ)) 0 (λ i,
         t ← Out typ i; h ← CanHash t;
         if (h : bool) then CanCompare t else Ret false);
  Ret (if forallb id ok then None
       else Some (Err Other "cannot combine values for keys of type")).

Definition Reduce (slice : Slice) (t : option gotype) (call : list value → outcome (list value))
    (frames : list runtimeFrame) (b : bigslice) : outcome (bigslice * Slice) :=
  let typ := typ_of slice in
  _ ← check (NumOut typ - Types.Prefix typ =? 1)%Z
        "the slice must only have one 1 residual column";
  err ← canMakeCombiningFrame typ;
  _ ← check (bool_decide (err = None)) "cannot combine values for keys of type";
  fn ← is_some (Of t) "reduce: invalid reduce function";
  outputType ← Out typ (NumOut typ - 1);
  ok ← (if negb (NumOut (fn_In fn) =? 2)%Z then Ret false
        else i0 ← Out (fn_In fn) 0;
             if negb (bool_decide (i0 = outputType)) then Ret false
             else i1 ← Out (fn_In fn) 1;
                  if negb (bool_decide (i1 = outputType)) then Ret false
                  else if negb (NumOut (fn_Out fn) =? 1)%Z then Ret false
                  else o0 ← Out (fn_Out fn) 0; Ret (bool_decide (o0 = outputType)));
  _ ← check ok "reduce: invalid reduce function";
  '(b, (name, ptr)) ← newSlice "reduce" frames b;
  Ret (b, reduceSlice ptr slice name (mkUserFunc fn call)).

(** The check of one slice of a Cogroup against the key types of the first. *)
Definition cogroup_keys (keyTypes : option (list gotype)) (slice : Slice) :
    outcome (list gotype) :=
  let typ := typ_of slice in
  _ ← check (negb (NumOut typ =? 0)%Z) "cogroup: slice has no columns";
  match keyTypes with
  | None => collect_from (Z.to_nat (Types.Prefix typ)) 0 (Out typ)
  | Some keyTypes =>
      _ ← check (Types.Prefix typ =? Z.of_nat (length keyTypes))%Z "cogroup: prefix mismatch";
      got ← collect_from (length keyTypes) 0 (Out typ);
      _ ← check (bool_decide (got = keyTypes)) "cogroup: key column type mismatch";
      Ret keyTypes
  end.

Fixpoint cogroup_keyTypes (keyTypes : option (list gotype)) (slices : list Slice) :
    outcome (list gotype) :=
  match slices with
  | [] => Ret (default [] keyTypes)
  | s :: ss => ks ← cogroup_keys keyTypes s; cogroup_keyTypes (Some ks) ss
  end.

Fixpoint cogroup_canKey (keyTypes : list gotype) : outcome unit :=
  match keyTypes with
  | [] => Ret ()
  | t :: ts =>
      h ← CanHash t; _ ← check h "cogroup: key column type cannot be hashed";
      c ← CanCompare t; _ ← check c "cogroup: key column type cannot be sorted";
      cogroup_canKey ts
  end.

(** The value columns of the output: slices of the value columns of each input. *)
Fixpoint cogroup_out (nkey : nat) (slices : list Slice) : outcome (list gotype) :=
  match slices with
  | [] => Ret []
  | s :: ss =>
      let typ := typ_of s in
      ts ← collect_from (Z.to_nat (NumOut typ - Z.of_nat nkey)) (Z.of_nat nkey) (Out typ);
      rest ← cogroup_out nkey ss;
      Ret ((TSlice <$> ts) ++ rest)
  end.

Definition Cogroup (slices : list Slice) (frames : list runtimeFrame) (b : bigslice) :
    outcome (bigslice * Slice) :=
  _ ← check (negb (length slices =? 0)%nat) "cogroup: expected at least one slice";
  keyTypes ← cogroup_keyTypes None slices;
  _ ← cogroup_canKey keyTypes;
  vals ← cogroup_out (length keyTypes) slices;
  let numShard :=
    fold_left (λ n s, if (n <? NumShard s)%Z then NumShard s else n) slices 0%Z in
  '(b, (name, ptr)) ← newSlice "cogroup" frames b;
  Ret (b, cogroupSlice ptr name slices (keyTypes ++ vals) (Z.of_nat (length keyTypes)) numShard).

Definition Reshuffle (slice : Slice) (frames : list runtimeFrame) (b : bigslice) :
    outcome (bigslice * Slice) :=
  err ← canMakeCombiningFrame (typ_of slice);
  _ ← check (bool_decide (err = None)) "cannot combine values for keys of type";
  '(b, (name, ptr)) ← newSlice "reshuffle" frames b;
  Ret (b, reshuffleSlice ptr name None slice).

(** The partitioner that Repartition makes of a user function. *)
Fixpoint repartition_part (call : list value → outcome (list value)) (rows : list row)
    (nshard : Z) : outcome (list Z) :=
  match rows with
  | [] => Ret []
  | r :: rows =>
      result ← call (VInt KInt nshard :: r);
      shard ← match result with
              | VInt _ z :: _ => Ret z
              | _ => Panic "reflect: call of Int on a value of another type"
              end;
      shards ← repartition_part call rows nshard;
      Ret (shard :: shards)
  end.

Definition Repartition (slice : Slice) (t : option gotype)
    (call : list value → outcome (list value)) (frames : list runtimeFrame) (b : bigslice) :
    outcome (bigslice * Slice) :=
  fn ← is_some (Of t) "repartition: not a function";
  okIn ← Equal (fn_In fn) (Append (New [TInt]) (typ_of slice));
  _ ← check okIn "repartition: unexpected function type";
  okOut ← Equal (fn_Out fn) (New [TInt]);
  _ ← check okOut "repartition: unexpected function type";
  '(b, (name, ptr)) ← newSlice "repartition" frames b;
  Ret (b, reshuffleSlice ptr name (Some (repartition_part call)) slice).

Definition Reshard (slice : Slice) (nshard : Z) (frames : list runtimeFrame) (b : bigslice) :
    outcome (bigslice * Slice) :=
  err ← canMakeCombiningFrame (typ_of slice);
  _ ← check (bool_decide (err = None)) "cannot combine values for keys of type";
  if (NumShard slice =? nshard)%Z then Ret (b, slice)
  else
    '(b, (name, ptr)) ← newSlice "reshard" frames b;
    Ret (b, reshardSlice ptr name nshard slice).
End operators.

(** * Names are unique *)

Definition name_key (n : Name) : string * string * Z := (nm_Op n, nm_File n, nm_Line n).

(** The name was handed out before state [b]. *)
Definition issued (b : bigslice) (n : Name) : Prop :=
  (nm_Index n < default 0 (bs_indexer b !! name_key n))%Z.

Lemma MakeName_spec op frames b b' n :
  MakeName op frames b = Ret (b', n) →
  nm_Index n = default 0%Z (bs_indexer b !! name_key n) ∧
  bs_indexer b' = <[name_key n := (nm_Index n + 1)%Z]> (bs_indexer b).
Proof. unfold MakeName. destruct frames; [done|]. simpl. intros [= <- <-]. done. Qed.

Lemma MakeName_fresh op frames b b' n :
  MakeName op frames b = Ret (b', n) →
  ¬ issued b n ∧ issued b' n ∧ ∀ m, issued b m → issued b' m.
Proof.
  intros [Hi Hb]%MakeName_spec. unfold issued. rewrite Hb. split_and!.
  - lia.
  - rewrite lookup_insert_eq. simpl. lia.
  - intros m Hm. destruct (decide (name_key n = name_key m)) as [E|E].
    + rewrite E, lookup_insert_eq. simpl. rewrite <-E in Hm. lia.
    + by rewrite lookup_insert_ne.
Qed.

(** A sequence of calls of MakeName. *)
Fixpoint make_names (calls : list (string * list runtimeFrame)) (b : bigslice) :
    outcome (list Name) :=
  match calls with
  | [] => Ret []
  | (op, frames) :: calls =>
      '(b, n) ← MakeName op frames b; ns ← make_names calls b; Ret (n :: ns)
  end.

Lemma make_names_fresh calls b ns :
  make_names calls b = Ret ns → NoDup ns ∧ ∀ n, n ∈ ns → ¬ issued b n.
Proof.
  revert b ns. induction calls as [|[op frames] calls IH]; intros b ns; simpl.
  { intros [= <-]. split; [constructor|set_solver]. }
  intros ([b1 n] & Hn & (ns' & Hns & [= <-])%outcome_bind_Ret)%outcome_bind_Ret.
  apply MakeName_fresh in Hn as (Hnew & Hiss & Hmono).
  destruct (IH _ _ Hns) as [Hnd Hfresh]. split.
  - apply list.NoDup_cons. split; [|done]. intros Hin. by apply (Hfresh n).
  - intros m [->|Hm]%elem_of_cons; [done|]. intros Hm'. by apply (Hfresh m), Hmono.
Qed.

(** The names of slices are unique, wherever and however often they are
    created: no two calls of MakeName return the same name. *)
Theorem MakeName_unique calls b ns : make_names calls b = Ret ns → NoDup ns.
Proof. intros H. by apply make_names_fresh in H as [? _]. Qed.

(** * Types *)

Section typing.
Context (has_method : gotype → string → bool).
Context {V : Type} (reg : gmap string (Frame.Ops (V := V))).

(** A slice all of whose operators carry well formed types. *)
Fixpoint slice_ok (s : Slice) : Prop :=
  typ_ok (colType s) ∧
  match s with
  | constSlice _ _ _ _ _ | readerFuncSlice _ _ _ _ _ _ | readCacheSlice _ _ _ _ _ => True
  | writerFuncSlice _ _ s _ | mapSlice _ _ _ s _ | filterSlice _ _ _ s _
  | flatmapSlice _ _ _ s _ _ | foldSlice _ _ s _ _ | headSlice _ _ s _ | scanSlice _ _ s _
  | prefixSlice _ _ s _ | reduceSlice _ s _ _ | reshuffleSlice _ _ _ s | reshardSlice _ _ _ s
  | cacheSlice _ _ s _ | Result _ s _ => slice_ok s
  | cogroupSlice _ _ ss _ _ _ => foldr (λ s P, slice_ok s ∧ P) True ss
  end.

Lemma slice_ok_typ s : slice_ok s → typ_ok (typ_of s).
Proof. destruct s; simpl; by intros [? _]. Qed.

Lemma Of_In t fn : Of t = Some fn → ∃ ins, fn_In fn = New ins.
Proof.
  unfold Of. destruct t as [t|]; [|done]. destruct (underlying t); try done.
  intros [= <-]. simpl. eauto.
Qed.

Lemma Of_Out t fn : Of t = Some fn → typ_ok (fn_Out fn).
Proof.
  unfold Of. destruct t as [t|]; [|done]. destruct (underlying t); try done.
  by intros [= <-].
Qed.

(** Runs a checked operator backwards. *)
Lemma check_Ret {A} cond msg (k : unit → outcome A) x :
  check cond msg ≫= k = Ret x → cond = true ∧ k () = Ret x.
Proof. unfold check. by destruct cond. Qed.
Lemma is_some_Ret {A B} (o : option A) msg (k : A → outcome B) x :
  is_some o msg ≫= k = Ret x → ∃ a, o = Some a ∧ k a = Ret x.
Proof. destruct o; simpl; [by eauto|done]. Qed.

Lemma Map_inv slice t call prags frames b b' s :
  Map has_method slice t call prags frames b = Ret (b', s) →
  ∃ p name fn, s = mapSlice p name (Pragmas prags) slice (mkUserFunc fn call) ∧
    Of t = Some fn ∧ CanApply has_method fn (typ_of slice) = Ret true ∧ NumOut (fn_Out fn) ≠ 0%Z.
Proof.
  unfold Map. intros ([b1 [name p]] & _ & H)%outcome_bind_Ret.
  apply is_some_Ret in H as (fn & Hfn & H). apply outcome_bind_Ret in H as (ok & Hok & H).
  apply check_Ret in H as [-> H]. apply check_Ret in H as [Hne [= _ <-]].
  exists p, name, fn. split_and!; [done..|].
  intros E. by rewrite E in Hne.
Qed.

Lemma Map_type slice t call prags frames b b' s :
  slice_ok slice → Map has_method slice t call prags frames b = Ret (b', s) →
  slice_ok s ∧ SPrefix s = SPrefix slice ∧ NumShard s = NumShard slice.
Proof.
  intros Hs (p & name & fn & -> & Hfn & _)%Map_inv. simpl. split_and!; try done.
  by eapply Of_Out.
Qed.

Lemma collect_from_panics {A} n i (f : Z → outcome A) (j : nat) :
  j < n → (∀ x, f (i + Z.of_nat j)%Z ≠ Ret x) → ∀ xs, collect_from n i f ≠ Ret xs.
Proof.
  revert i j. induction n as [|n IH]; intros i j Hj Hf xs; [lia|]. simpl.
  intros (x & Hx & (ys & Hys & _)%outcome_bind_Ret)%outcome_bind_Ret.
  destruct j as [|j]; [apply (Hf x); by rewrite Z.add_0_r|].
  eapply (IH (i + 1)%Z j); [lia| |done]. intros y Hy. apply (Hf y). rewrite <-Hy. f_equal. lia.
Qed.

(** Map keeps the prefix of the slice it maps, even when its function
    returns fewer columns than the prefix has: the slice it returns then names
    key columns that do not exist, and reshuffling it panics with an index out of
    range instead of a type error. *)
Theorem Map_prefix_exceeds_columns slice t call prags frames b b' s frames2 b2 :
  slice_ok slice → Map has_method slice t call prags frames b = Ret (b', s) →
  (NumOut (typ_of s) < SPrefix slice)%Z →
  SPrefix s = SPrefix slice ∧ ∀ res, Reshuffle reg s frames2 b2 ≠ Ret res.
Proof.
  intros Hs Hm Hlt. destruct (Map_type _ _ _ _ _ _ _ _ Hs Hm) as (Hok & Hp & _).
  split; [done|]. intros res (err & Herr & _)%outcome_bind_Ret.
  apply outcome_bind_Ret in Herr as (oks & Hoks & _). revert Hoks.
  apply slice_ok_typ in Hok. rewrite NumOut_cols in Hlt by done.
  apply (collect_from_panics _ _ _ (length (cols (typ_of s)))).
  - simpl in *. rewrite Hp. lia.
  - intros x (ty & Hty & _)%outcome_bind_Ret. rewrite Z.add_0_l in Hty.
    destruct (Out_panics (typ_of s) (length (cols (typ_of s)))) as [msg Hmsg]; [done|lia|].
    by rewrite Hmsg in Hty.
Qed.
End typing.
