(* ===== verification/Readers.v ===== *)
(** The readers of the slice operators (src/slice.go, src/accum.go): what a
    task computes, one batch of rows at a time, from the readers of its
    dependencies.

    As in SliceIO, a call of Read is given the length of the frame it fills;
    here it is also given the frame's type, which the readers check.  The
    buffers that readers keep for their input are not state: what is kept in
    them between calls is. *)
From S2P Require Import Prelude Types SliceIO Slices.

Definition errTypeError : error := Err Other "type error".

(** [errors.IsTemporary]. *)
Definition IsTemporary (e : error) : bool :=
  match e with Err Temporary _ => true | _ => false end.
(** [errors.E(errors.Fatal, err)]. *)
Definition fatal (e : error) : error :=
  match e with Err _ msg => Err Fatal msg | EOF => Err Fatal "EOF" end.

Section readers.
Context (has_method : gotype → string → bool).
(** The order in which a Go map is iterated may differ from one loop to the
    next. *)
Context (iter : ∀ A, nat → list A → list A).

(** [if !slicetype.Assignable(a, b) { return 0, errTypeError }]. *)
Definition type_guard {R} (a b : Typ) (r : R)
    (k : outcome (R * (list row * option error))) : outcome (R * (list row * option error)) :=
  ok ← Assignable has_method a b;
  if (ok : bool) then k else Ret (r, ([], Some errTypeError)).

(** * constReader *)

Record constReader := mkConstReader { cn_typ : Typ; cn_frame : list row }.

Definition constReader_Read (out : Typ) (fuel : nat) (s : constReader) (len : nat) :
    outcome (constReader * (list row * option error)) :=
  type_guard (cn_typ s) out s
    (let n := Nat.min len (length (cn_frame s)) in
     let m := length (cn_frame s) in
     let s' := mkConstReader (cn_typ s) (drop n (cn_frame s)) in
     Ret (s', (take n (cn_frame s), if m =? 0 then Some EOF else None))).

(** The rows of a shard; [None] is the empty reader. *)
Definition constSlice_rows (frame : list row) (nshard shard : Z) : option (list row) :=
  let n := Z.of_nat (length frame) in
  if (n =? 0)%Z then None
  else
    let shardn := (n / nshard + 1)%Z in
    let beg := (shardn * shard)%Z in
    let end_ := (beg + shardn)%Z in
    if (n <=? beg)%Z then None
    else
      let end_ := if (n <=? end_)%Z then n else end_ in
      Some (take (Z.to_nat (end_ - beg)) (drop (Z.to_nat beg) frame)).

(** * readerFuncSliceReader *)

Record readerFuncSliceReader (fn : readerFn) := mkReaderFuncReader {
  rr_typ : Typ;
  rr_state : option (rfn_state fn);
  rr_shard : Z;
  rr_err : option error;
  rr_consecutiveEmptyCalls : Z;
}.
Arguments mkReaderFuncReader {fn} _ _ _ _ _.
Arguments rr_typ {fn} _.
Arguments rr_state {fn} _.
Arguments rr_shard {fn} _.
Arguments rr_err {fn} _.
Arguments rr_consecutiveEmptyCalls {fn} _.

Definition readerFuncSliceReader_Read (fn : readerFn) (out : Typ) (fuel : nat)
    (r : readerFuncSliceReader fn) (len : nat) :
    outcome (readerFuncSliceReader fn * (list row * option error)) :=
  match rr_err r with
  | Some e => Ret (r, ([], Some e))
  | None =>
      type_guard out (rr_typ r) r
        (let state := default (rfn_zero fn) (rr_state r) in
         '(state', (rows, e)) ← rfn_call fn (rr_shard r) state len;
         let empty := if length rows =? 0 then (rr_consecutiveEmptyCalls r + 1)%Z else 0%Z in
         let err := match e with
                    | None => None
                    | Some EOF => Some EOF
                    | Some e => Some (if IsTemporary e then e else fatal e)
                    end in
         Ret (mkReaderFuncReader (rr_typ r)
                (Some (if rfn_isPtr fn then state' else state)) (rr_shard r) err empty,
              (rows, err)))
  end.

(** * writerFuncReader *)

Section writer.
Context {R : Type} `{Reader row R} (fn : writerFn).

Record writerFuncReader := mkWriterFuncReader {
  wr_shard : Z;
  wr_reader : R;
  wr_state : option (wfn_state fn);
  wr_err : option error;
}.

Definition callWrite (shard : Z) (state : wfn_state fn) (err : option error) (rows : list row) :
    outcome (wfn_state fn * option error) :=
  '(state', e) ← wfn_call fn shard state err rows;
  Ret (if wfn_isPtr fn then state' else state, e).

Definition writerFuncReader_Read (fuel : nat) (r : writerFuncReader) (len : nat) :
    outcome (writerFuncReader * (list row * option error)) :=
  match wr_err r with
  | Some e => Ret (r, ([], Some e))
  | None =>
      let state := default (wfn_zero fn) (wr_state r) in
      '(rd, (rows, err)) ← Read fuel (wr_reader r) len;
      '(state, werr) ← callWrite (wr_shard r) state err rows;
      let err := match werr, err with
                 | Some w, None | Some w, Some EOF =>
                     Some (if IsTemporary w then w else fatal w)
                 | _, _ => err
                 end in
      Ret (mkWriterFuncReader (wr_shard r) rd (Some state) err, (rows, err))
  end.
End writer.

(** * mapReader *)

Section map.
Context {R : Type} `{Reader row R}.

Record mapReader := mkMapReader {
  mp_typ : Typ;
  mp_fval : list value → outcome (list value);
  mp_reader : R;
  mp_err : option error;
}.

Fixpoint map_rows (call : list value → outcome (list value)) (rows : list row) :
    outcome (list row) :=
  match rows with
  | [] => Ret []
  | x :: rows => y ← call x; ys ← map_rows call rows; Ret (y :: ys)
  end.

Definition mapReader_Read (out : Typ) (fuel : nat) (m : mapReader) (len : nat) :
    outcome (mapReader * (list row * option error)) :=
  match mp_err m with
  | Some e => Ret (m, ([], Some e))
  | None =>
      type_guard out (mp_typ m) m
        ('(r, (rows, err)) ← Read fuel (mp_reader m) len;
         rows ← map_rows (mp_fval m) rows;
         Ret (mkMapReader (mp_typ m) (mp_fval m) r err, (rows, err)))
  end.
End map.

(** * filterReader *)

Section filter.
Context {R : Type} `{Reader row R}.

Record filterReader := mkFilterReader {
  fl_typ : Typ;
  fl_pred : list value → outcome (list value);
  fl_reader : R;
  fl_err : option error;
}.

(** The rows of a batch that satisfy the predicate. *)
Fixpoint filter_rows (pred : list value → outcome (list value)) (rows : list row) :
    outcome (list row) :=
  match rows with
  | [] => Ret []
  | x :: rows =>
      res ← pred x;
      keep ← match res with
             | VBool b :: _ => Ret b
             | _ => Panic "reflect: call of Bool on a value of another type"
             end;
      ys ← filter_rows pred rows;
      Ret (if (keep : bool) then x :: ys else ys)
  end.

(** [for m < max && f.err == nil]; [acc] are the [m] rows copied so far. *)
Fixpoint filter_loop (loop fuel : nat) (f : filterReader) (max : nat) (acc : list row) :
    outcome (filterReader * (list row * option error)) :=
  match loop with
  | 0 => NoFuel
  | S loop =>
      if (length acc <? max) && bool_decide (fl_err f = None) then
        '(r, (rows, err)) ← Read fuel (fl_reader f) (max - length acc);
        rows ← filter_rows (fl_pred f) rows;
        filter_loop loop fuel (mkFilterReader (fl_typ f) (fl_pred f) r err) max (acc ++ rows)
      else Ret (f, (acc, fl_err f))
  end.

Definition filterReader_Read (out : Typ) (fuel : nat) (f : filterReader) (len : nat) :
    outcome (filterReader * (list row * option error)) :=
  match fl_err f with
  | Some e => Ret (f, ([], Some e))
  | None => type_guard out (fl_typ f) f (filter_loop fuel fuel f len [])
  end.
End filter.

(** * flatmapReader *)

Section flatmap.
Context {R : Type} `{Reader row R}.

(** [fm_in] are the rows [in[begIn:endIn]] that are still to be transformed. *)
Record flatmapReader := mkFlatmapReader {
  fm_typ : Typ;
  fm_fval : list value → outcome (list value);
  fm_reader : R;
  fm_in : list row;
  fm_out : list row;
  fm_eof : bool;
}.

(** [frame.Values]: the returned columns as a frame. *)
Fixpoint slice_values (vs : list value) : outcome (list (list value)) :=
  match vs with
  | [] => Ret []
  | VSlice c :: vs => cs ← slice_values vs; Ret (c :: cs)
  | VNil :: vs => cs ← slice_values vs; Ret ([] :: cs)
  | _ => Panic "frame.Values: non-slice argument"
  end.

Definition flat_rows (call : list value → outcome (list value)) (x : row) : outcome (list row) :=
  vs ← call x; cs ← slice_values vs; rows_of cs.

(** The inner loop: transforms inputs while there is space for output.  [acc]
    are the rows already in [out[0:begOut]]. *)
Fixpoint flatmap_rows (call : list value → outcome (list value)) (ins : list row) (endOut : nat)
    (acc stash : list row) : outcome (list row * (list row * list row)) :=
  match ins with
  | [] => Ret ([], (acc, stash))
  | x :: ins' =>
      if length acc <? endOut then
        result ← flat_rows call x;
        let n := Nat.min (endOut - length acc) (length result) in
        let stash := if n <? length result then drop n result else stash in
        flatmap_rows call ins' endOut (acc ++ take n result) stash
      else Ret (ins, (acc, stash))
  end.

Fixpoint flatmap_loop (loop fuel : nat) (f : flatmapReader) (endOut : nat) (acc : list row) :
    outcome (flatmapReader * (list row * option error)) :=
  match loop with
  | 0 => NoFuel
  | S loop =>
      if (length acc <? endOut) && (negb (fm_eof f) || negb (length (fm_in f) =? 0)) then
        '(f, err) ←
          (if length (fm_in f) =? 0 then
             '(r, (rows, err)) ← Read fuel (fm_reader f) endOut;
             match err with
             | Some (Err _ _) =>
                 Ret (mkFlatmapReader (fm_typ f) (fm_fval f) r (fm_in f) (fm_out f) (fm_eof f), err)
             | _ => Ret (mkFlatmapReader (fm_typ f) (fm_fval f) r rows (fm_out f)
                           (bool_decide (err = Some EOF)), None)
             end
           else Ret (f, None));
        match err with
        | Some _ => Ret (f, ([], err))
        | None =>
            '(ins, (acc, stash)) ← flatmap_rows (fm_fval f) (fm_in f) endOut acc (fm_out f);
            flatmap_loop loop fuel
              (mkFlatmapReader (fm_typ f) (fm_fval f) (fm_reader f) ins stash (fm_eof f)) endOut acc
        end
      else
        Ret (f, (acc, if fm_eof f && (length (fm_out f) =? 0) && (length (fm_in f) =? 0)
                      then Some EOF else None))
  end.

Definition flatmapReader_Read (out : Typ) (fuel : nat) (f : flatmapReader) (len : nat) :
    outcome (flatmapReader * (list row * option error)) :=
  type_guard out (fm_typ f) f
    (let n := Nat.min len (length (fm_out f)) in
     flatmap_loop fuel fuel
       (mkFlatmapReader (fm_typ f) (fm_fval f) (fm_reader f) (fm_in f) (drop n (fm_out f)) (fm_eof f))
       len (take n (fm_out f))).
End flatmap.

(** * Accumulators *)

(** Accumulators for keys of type string, int and int64. *)
Inductive Accumulator :=
| stringAccumulator (state : gmap string value)
| intAccumulator (state : gmap Z value)
| int64Accumulator (state : gmap Z value).

Definition makeAccumulator (keyType : gotype) : option Accumulator :=
  match Kind keyType with
  | KString => Some (stringAccumulator ∅)
  | KInt => Some (intAccumulator ∅)
  | KInt64 => Some (int64Accumulator ∅)
  | _ => None
  end.

(** The key of a row, by the type assertion on the key column. *)
Definition asString (v : value) : option string :=
  match v with VString s => Some s | _ => None end.
Definition asInt (k : kind) (v : value) : option Z :=
  match v with VInt k' z => if decide (k' = k) then Some z else None | _ => None end.

Section accumulate.
Context {K : Type} `{Countable K} (key : value → option K) (mk : K → value).
(** The fold function, and the zero value of its accumulator type. *)
Context (call : list value → outcome (list value)) (zero : value).

Fixpoint accumulate (state : gmap K value) (rows : list row) : outcome (gmap K value) :=
  match rows with
  | [] => Ret state
  | r :: rows =>
      match r with
      | [] => Panic "index out of range"
      | k :: args =>
          match key k with
          | None => Panic "interface conversion"
          | Some k =>
              let val := default zero (state !! k) in
              res ← call (val :: args);
              match res with
              | [] => Panic "index out of range"
              | v :: _ => accumulate (<[k := v]> state) rows
              end
          end
      end
  end.

(** Removes up to [max] entries, in the order of the [t]'th iteration. *)
Definition accum_read (t : nat) (state : gmap K value) (max : nat) :
    gmap K value * (list row * option error) :=
  let taken := take max (iter (K * value) t (map_to_list state)) in
  let state' := foldr (λ kv m, delete kv.1 m) state taken in
  (state', ((λ kv, [mk kv.1; kv.2]) <$> taken,
            if size state' =? 0 then Some EOF else None)).
End accumulate.

Definition Accumulate (call : list value → outcome (list value)) (zero : value)
    (a : Accumulator) (rows : list row) : outcome Accumulator :=
  match a with
  | stringAccumulator m => m ← accumulate asString call zero m rows; Ret (stringAccumulator m)
  | intAccumulator m => m ← accumulate (asInt KInt) call zero m rows; Ret (intAccumulator m)
  | int64Accumulator m => m ← accumulate (asInt KInt64) call zero m rows; Ret (int64Accumulator m)
  end.

Definition Accumulator_Read (t : nat) (a : Accumulator) (max : nat) :
    Accumulator * (list row * option error) :=
  match a with
  | stringAccumulator m =>
      let '(m, res) := accum_read VString t m max in (stringAccumulator m, res)
  | intAccumulator m =>
      let '(m, res) := accum_read (VInt KInt) t m max in (intAccumulator m, res)
  | int64Accumulator m =>
      let '(m, res) := accum_read (VInt KInt64) t m max in (int64Accumulator m, res)
  end.

(** * foldReader *)

Section fold.
Context {R : Type} `{Reader row R} (defaultChunksize : nat).

(** [fo_reads] counts the iterations over the accumulator's map. *)
Record foldReader := mkFoldReader {
  fo_typ : Typ;
  fo_keyType : gotype;
  fo_zero : value;
  fo_fval : list value → outcome (list value);
  fo_reader : R;
  fo_accum : option Accumulator;
  fo_err : option error;
  fo_reads : nat;
}.

Fixpoint compute_loop (loop fuel : nat) (f : foldReader) (r : R) (accum : Accumulator) :
    outcome (R * (Accumulator + error)) :=
  match loop with
  | 0 => NoFuel
  | S loop =>
      '(r, (rows, err)) ← Read fuel r defaultChunksize;
      match err with
      | Some (Err k msg) => Ret (r, inr (Err k msg))
      | _ =>
          accum ← Accumulate (fo_fval f) (fo_zero f) accum rows;
          if bool_decide (err = Some EOF) then Ret (r, inl accum)
          else compute_loop loop fuel f r accum
      end
  end.

Definition compute (fuel : nat) (f : foldReader) : outcome (R * (Accumulator + error)) :=
  match makeAccumulator (fo_keyType f) with
  | None => Panic "invalid memory address or nil pointer dereference"
  | Some accum => compute_loop fuel fuel f (fo_reader f) accum
  end.

Definition with_accum (f : foldReader) (r : R) (a : option Accumulator) (e : option error)
    (t : nat) : foldReader :=
  mkFoldReader (fo_typ f) (fo_keyType f) (fo_zero f) (fo_fval f) r a e t.

Definition foldReader_Read (out : Typ) (fuel : nat) (f : foldReader) (len : nat) :
    outcome (foldReader * (list row * option error)) :=
  match fo_err f with
  | Some e => Ret (f, ([], Some e))
  | None =>
      type_guard out (fo_typ f) f
        ('(r, a) ← match fo_accum f with
                   | Some a => Ret (fo_reader f, inl a)
                   | None => compute fuel f
                   end;
         match a with
         | inr e => Ret (with_accum f r None (Some e) (fo_reads f), ([], Some e))
         | inl a =>
             let '(a, (rows, err)) := Accumulator_Read (fo_reads f) a len in
             Ret (with_accum f r (Some a) err (S (fo_reads f)), (rows, err))
         end)
  end.
End fold.

(** * headReader *)

Section head.
Context {R : Type} `{Reader row R}.

Record headReader := mkHeadReader { hd_reader : R; hd_n : Z }.

Definition headReader_Read (fuel : nat) (h : headReader) (len : nat) :
    outcome (headReader * (list row * option error)) :=
  if (hd_n h <=? 0)%Z then Ret (h, ([], Some EOF))
  else
    '(r, (rows, err)) ← Read fuel (hd_reader h) len;
    let n := (hd_n h - Z.of_nat (length rows))%Z in
    let rows := if (n <? 0)%Z then take (length rows - Z.to_nat (- n)) rows else rows in
    Ret (mkHeadReader r n, (rows, err)).
End head.

(** * scanReader *)

(** The scan function is given a scanner over the reader. *)
Record scanReader := mkScanReader {
  sn_scan : Z → anyReader row → outcome (anyReader row * option error);
  sn_shard : Z;
  sn_reader : anyReader row;
}.

Definition scanReader_Read (fuel : nat) (s : scanReader) (len : nat) :
    outcome (scanReader * (list row * option error)) :=
  '(r, err) ← sn_scan s (sn_shard s) (sn_reader s);
  Ret (mkScanReader (sn_scan s) (sn_shard s) r,
       ([], Some (default EOF err))).
End readers.
Arguments mkReaderFuncReader {fn} _ _ _ _ _.
Arguments rr_typ {fn} _.
Arguments rr_state {fn} _.
Arguments rr_shard {fn} _.
Arguments rr_err {fn} _.
Arguments rr_consecutiveEmptyCalls {fn} _.

(** * Correctness *)

Section correctness.
Context (has_method : gotype → string → bool).
Context (iter : ∀ A, nat → list A → list A).

Lemma type_guard_ok {R} a b (r : R) k :
  Assignable has_method a b = Ret true → type_guard has_method a b r k = k.
Proof. unfold type_guard. by intros ->. Qed.

(** ** const *)

Lemma constSlice_rows_window (frame : list row) (nshard : Z) (shard : nat) :
  (1 <= nshard)%Z →
  let q := Z.to_nat (Z.of_nat (length frame) / nshard + 1) in
  default [] (constSlice_rows frame nshard (Z.of_nat shard)) =
    take q (drop (q * shard) frame).
Proof.
  intros Hs. set (n := Z.of_nat (length frame)). intros q.
  assert (0 <= n / nshard)%Z as Hq by (apply Z.div_pos; lia).
  unfold constSlice_rows. fold n. destruct (Z.eqb_spec n 0) as [E|E].
  { rewrite drop_ge by lia. by rewrite take_nil. }
  destruct (Z.leb_spec n ((n / nshard + 1) * Z.of_nat shard)); simpl.
  { rewrite drop_ge by lia. by rewrite take_nil. }
  replace (Z.to_nat ((n / nshard + 1) * Z.of_nat shard)) with (q * shard) by lia.
  destruct (Z.leb_spec n ((n / nshard + 1) * Z.of_nat shard + (n / nshard + 1))).
  - rewrite !take_ge; [done|rewrite length_drop; lia..].
  - f_equal. lia.
Qed.

Lemma concat_windows {A} (q k : nat) (l : list A) :
  concat ((λ i, take q (drop (q * i) l)) <$> seq 0 k) = take (q * k) l.
Proof.
  induction k as [|k IH]; [by rewrite Nat.mul_0_r|].
  rewrite seq_S, fmap_app, concat_app, IH. simpl. rewrite app_nil_r.
  rewrite Nat.mul_succ_r, <-take_take_drop. done.
Qed.

Lemma constSlice_concat (frame : list row) (nshard : Z) :
  (1 <= nshard)%Z →
  concat ((λ i, default [] (constSlice_rows frame nshard (Z.of_nat i)))
    <$> seq 0 (Z.to_nat nshard)) = frame.
Proof.
  intros Hs. set (n := Z.of_nat (length frame)).
  set (q := Z.to_nat (n / nshard + 1)).
  rewrite (list_fmap_ext _ (λ i, take q (drop (q * i) frame))).
  - rewrite concat_windows. apply take_ge.
    pose proof (Z.mul_succ_div_gt n nshard ltac:(lia)).
    assert (0 <= n / nshard)%Z by (apply Z.div_pos; lia). nia.
  - intros i x _. by apply constSlice_rows_window.
Qed.

(** The readers below are read into frames of type [out]. *)
Context (out : Typ).

#[local] Instance const_reader : Reader row constReader := constReader_Read has_method out.

Lemma constReader_streams typ l :
  Assignable has_method typ out = Ret true →
  streams strict (S (length l)) (mkConstReader typ l) l.
Proof.
  intros Ha.
  assert (∀ n l, Reads (mkConstReader typ l) n (mkConstReader typ (drop (n `min` length l) l))
    (take (n `min` length l) l) (if length l =? 0 then Some EOF else None)) as HR.
  { intros n l'. exists 0. intros f _. unfold Read, const_reader, constReader_Read.
    by rewrite type_guard_ok. }
  apply streams_brisk with (I := λ r l, r = mkConstReader typ l); [|done].
  intros r l' n -> Hn. eexists _, _, _. split_and!; [apply HR|rewrite length_take; lia|].
  destruct l' as [|x l']; simpl.
  - rewrite drop_nil, take_nil. split_and!; try done. intros _.
    apply (Drained_intro (λ r, r = mkConstReader typ [])); [|done]. intros r n' -> _.
    exists (mkConstReader typ []). split; [|done]. pose proof (HR n' []) as HR0.
    by rewrite drop_nil, take_nil in HR0.
  - destruct n as [|n]; [lia|]. simpl. split; [done|].
    eexists. split; [|done]. by rewrite take_drop.
Qed.

(** ** map *)

Section map.
Context {R : Type} `{Reader row R}.
#[local] Instance map_reader : Reader row (mapReader (R := R)) := mapReader_Read has_method out.

Lemma map_rows_fmap call (g : row → row) l :
  (∀ x, x ∈ l → call x = Ret (g x)) → map_rows call l = Ret (g <$> l).
Proof.
  induction l as [|x l IH]; intros Hc; simpl; [done|].
  rewrite Hc, IH by set_solver. done.
Qed.

Lemma mapReader_drained typ call r : Drained (mkMapReader typ call r (Some EOF)).
Proof.
  apply (Drained_intro (λ m, mp_err m = Some EOF)); [|done].
  intros m n Hm _. exists m. split; [|done]. exists 0. intros f _.
  unfold Read, map_reader, mapReader_Read. by rewrite Hm.
Qed.

Lemma mapReader_streams st k typ call (g : row → row) (r : R) l :
  Assignable has_method out typ = Ret true → (∀ x, x ∈ l → call x = Ret (g x)) →
  streams st k r l →
  streams (Style (st_clean st) (st_brisk st) true) k (mkMapReader typ call r None) (g <$> l).
Proof.
  intros Ha. revert r l. induction k as [|k IH]; intros r l Hc Hs; [done|].
  intros n Hn. destruct (Hs n Hn) as (r' & o & oe & [f0 HR] & Hl & Hoe).
  exists (mkMapReader typ call r' oe), (g <$> o), oe. split_and!.
  - exists f0. intros f Hf. unfold Read, map_reader, mapReader_Read. simpl.
    rewrite type_guard_ok, HR by done. simpl. erewrite map_rows_fmap; [done|].
    intros x Hx. apply Hc. destruct oe as [e|].
    + by destruct Hoe as (_ & -> & _).
    + destruct Hoe as (_ & l' & -> & _). set_solver.
  - by rewrite length_fmap.
  - destruct oe as [e|].
    + destruct Hoe as (-> & -> & Hcl & _). split_and!; [done..| |].
      * intros E. by rewrite Hcl.
      * intros _. apply mapReader_drained.
    + destruct Hoe as (Hb & l' & -> & Hs'). split.
      { simpl. intros E%Hb ?%fmap_nil_inv. done. }
      exists (g <$> l'). split; [by rewrite fmap_app|]. apply IH; [set_solver|done].
Qed.
End map.

(** ** filter *)

Section filter.
Context {R : Type} `{Reader row R}.
Context (typ : Typ) (pred : list value → outcome (list value)) (p : row → bool).
#[local] Instance filter_reader : Reader row (filterReader (R := R)) := filterReader_Read has_method out.

Abbreviation keep := (filter (λ x, p x = true)).
(** The user's predicate computes [p] on the rows of [l]. *)
Definition decides (l : list row) : Prop := ∀ x, x ∈ l → pred x = Ret [VBool (p x)].

Lemma filter_rows_filter l : decides l → filter_rows pred l = Ret (keep l).
Proof.
  induction l as [|x l IH]; intros Hp; simpl; [done|].
  rewrite Hp by set_solver. simpl. rewrite IH by (intros ??; apply Hp; set_solver). simpl.
  f_equal. rewrite filter_cons. destruct (p x); by case_decide.
Qed.

Lemma filter_loop_spec k (r : R) l max acc :
  streams plain k r l → decides l → length acc ≤ max → 0 < max →
  ∃ r' o oe, (∃ L0 f0, ∀ L f, L0 ≤ L → f0 ≤ f →
      filter_loop L f (mkFilterReader typ pred r None) max acc =
        Ret (mkFilterReader typ pred r' oe, (acc ++ o, oe))) ∧
    length (acc ++ o) ≤ max ∧
    match oe with
    | None => length (acc ++ o) = max ∧
              ∃ l1 l2, l = l1 ++ l2 ∧ o = keep l1 ∧ Streams r' l2
    | Some e => e = EOF ∧ o = keep l
    end.
Proof.
  revert r l acc. induction k as [|k IH]; intros r l acc Hs Hp Hacc Hmax; [done|].
  destruct (decide (length acc = max)) as [E|E].
  { exists r, [], None. rewrite app_nil_r. split_and!; [|lia|done|].
    - exists 1, 0. intros [|L] f HL _; [lia|]. simpl. by rewrite (proj2 (Nat.ltb_ge _ _)) by lia.
    - exists [], l. split_and!; [done..|]. by exists (S k). }
  destruct (Hs (max - length acc) ltac:(lia)) as (r1 & o & oe & [f1 HR] & Hl & Hoe).
  pose proof (length_filter (λ x, p x = true) o).
  assert (decides o) as Hpo.
  { intros x Hx. apply Hp. destruct oe; [by destruct Hoe as (_ & -> & _)|].
    destruct Hoe as (_ & l' & -> & _). set_solver. }
  assert (∀ L f, f1 ≤ f → filter_loop (S L) f (mkFilterReader typ pred r None) max acc =
    filter_loop L f (mkFilterReader typ pred r1 oe) max (acc ++ keep o)) as Hstep.
  { intros L f Hf. cbn [filter_loop]. rewrite (proj2 (Nat.ltb_lt _ _)) by lia. simpl.
    rewrite HR by done. simpl. by rewrite filter_rows_filter. }
  destruct oe as [e|].
  - destruct Hoe as (-> & -> & _). exists r1, (keep o), (Some EOF).
    split_and!; [|rewrite length_app; lia|done..].
    exists 2, f1. intros [|[|L]] f HL Hf; [lia..|]. rewrite Hstep by done.
    cbn [filter_loop]. by rewrite andb_false_r.
  - destruct Hoe as (_ & l' & -> & Hs').
    destruct (IH r1 l' (acc ++ keep o)) as (r2 & o2 & oe2 & (L0 & f0 & HR2) & Hl2 & Hoe2);
      [done| |rewrite length_app; lia|done|].
    { intros x Hx. apply Hp. set_solver. }
    exists r2, (keep o ++ o2), oe2. rewrite (assoc_L (++)). split_and!; [|done|].
    + exists (S L0), (f0 `max` f1). intros [|L] f HL Hf; [lia|].
      rewrite Hstep by lia. apply HR2; lia.
    + destruct oe2 as [e|].
      * destruct Hoe2 as [-> ->]. by rewrite list.filter_app.
      * destruct Hoe2 as (? & l1 & l2 & -> & -> & ?). split; [done|].
        exists (o ++ l1), l2. rewrite list.filter_app. split_and!; [by rewrite (assoc_L (++))|done..].
Qed.

Lemma filterReader_streams (r : R) l :
  Assignable has_method out typ = Ret true → decides l → Streams r l →
  streams steady (S (length (keep l))) (mkFilterReader typ pred r None) (keep l).
Proof.
  intros Ha Hp Hs.
  apply streams_brisk with (I := λ f L, ∃ r l, f = mkFilterReader typ pred r None ∧
    L = keep l ∧ Streams r l ∧ decides l); [|by eauto 7].
  clear r l Hp Hs. intros f L n (r & l & -> & -> & [k Hs] & Hp) Hn.
  destruct (filter_loop_spec k r l n [] Hs Hp) as (r' & o & oe & (L0 & f0 & HR) & Hl & Hoe);
    [simpl; lia|done|].
  exists (mkFilterReader typ pred r' oe), o, oe. split_and!; [|done|].
  - exists (L0 `max` f0). intros f Hf. unfold Read, filter_reader, filterReader_Read. simpl.
    rewrite type_guard_ok by done. apply HR; lia.
  - destruct oe as [e|].
    + destruct Hoe as [-> ->]. split_and!; [done..|]. intros _.
      apply (Drained_intro (λ f, fl_err f = Some EOF)); [|done].
      intros f m Hf _. exists f. split; [|done]. exists 0. intros ? _.
      unfold Read, filter_reader, filterReader_Read. by rewrite Hf.
    + destruct Hoe as (Hlen & l1 & l2 & -> & -> & Hs2). simpl in Hlen. split.
      { intros E. rewrite E in Hlen. simpl in Hlen. lia. }
      exists (keep l2). split; [by rewrite list.filter_app|].
      exists r', l2. split_and!; [done..|]. intros x Hx. apply Hp. set_solver.
Qed.
End filter.

(** ** flatmap *)

Section flatmap.
Context {R : Type} `{Reader row R}.
Context (typ : Typ) (call : list value → outcome (list value)) (g : row → list row).
#[local] Instance flatmap_reader : Reader row (flatmapReader (R := R)) := flatmapReader_Read has_method out.

Abbreviation FM := (mkFlatmapReader (R := R) typ call).
(** The user's function computes [g] on the rows of [l]. *)
Definition flats (l : list row) : Prop := ∀ x, x ∈ l → flat_rows call x = Ret (g x).

Lemma flats_app l1 l2 : flats (l1 ++ l2) ↔ flats l1 ∧ flats l2.
Proof. unfold flats. set_solver. Qed.

(** What is left to deliver: stashed output, buffered input, and the stream of
    the reader, which is not read again after EOF. *)
Definition source (eof : bool) (k : nat) (r : R) (l : list row) : Prop :=
  flats l ∧ if eof then l = [] else streams plain k r l.

Lemma flatmap_rows_spec ins endOut acc stash :
  flats ins → length acc ≤ endOut → (length acc < endOut → stash = []) →
  ∃ ins' o stash', flatmap_rows call ins endOut acc stash = Ret (ins', (acc ++ o, stash')) ∧
    o ++ stash' ++ (ins' ≫= g) = stash ++ (ins ≫= g) ∧ flats ins' ∧
    length (acc ++ o) ≤ endOut ∧ (length (acc ++ o) < endOut → ins' = [] ∧ stash' = []).
Proof.
  revert acc stash. induction ins as [|x ins IH]; intros acc stash Hf Hacc Hst; simpl.
  { exists [], [], stash. rewrite !app_nil_r. split_and!; auto. }
  destruct (Nat.ltb_spec (length acc) endOut).
  - rewrite Hst by done. rewrite Hf by set_solver. simpl.
    set (n := (endOut - length acc) `min` length (g x)).
    set (stash' := if n <? length (g x) then drop n (g x) else []).
    assert (take n (g x) ++ stash' = g x ∧ (length (acc ++ take n (g x)) < endOut → stash' = []))
      as [Hg Hst'].
    { unfold stash'. rewrite length_app, length_take.
      destruct (Nat.ltb_spec n (length (g x))); [rewrite take_drop; split; [done|lia]|].
      rewrite take_ge, app_nil_r by lia. done. }
    destruct (IH (acc ++ take n (g x)) stash') as (ins' & o & st' & -> & Hrest & Hf' & Hl & Hlt);
      [intros y Hy; apply Hf; set_solver|rewrite length_app, length_take; lia|done|].
    exists ins', (take n (g x) ++ o), st'. rewrite (assoc_L (++)). split_and!; try done.
    rewrite <-(assoc_L (++)), Hrest, (assoc_L (++)), Hg. done.
  - exists (x :: ins), [], stash. rewrite app_nil_r. split_and!; [done..|lia].
Qed.

Lemma flatmap_exit L fuel r ins stash eof endOut acc :
  length acc ≤ endOut → (length acc < endOut → eof = true ∧ ins = [] ∧ stash = []) →
  flatmap_loop (S L) fuel (FM r ins stash eof) endOut acc =
    Ret (FM r ins stash eof, (acc, if eof && (length stash =? 0) && (length ins =? 0)
                                   then Some EOF else None)).
Proof.
  intros Hl Hx. cbn [flatmap_loop]. destruct (Nat.ltb_spec (length acc) endOut); [|done].
  destruct Hx as (-> & -> & ->); done.
Qed.

Definition flatmap_cont (L fuel : nat) (f : flatmapReader) (endOut : nat) (acc : list row) :=
  '(ins, (acc, stash)) ← flatmap_rows call (fm_in f) endOut acc (fm_out f);
  flatmap_loop L fuel (FM (fm_reader f) ins stash (fm_eof f)) endOut acc.

Lemma flatmap_read k r l endOut acc :
  length acc < endOut → source false (S k) r l →
  ∃ r' o eof f1, length o ≤ endOut ∧
    (∀ L f, f1 ≤ f → flatmap_loop (S L) f (FM r [] [] false) endOut acc =
                     flatmap_cont L f (FM r' o [] eof) endOut acc) ∧
    flats o ∧ ∃ l', l = o ++ l' ∧ source eof k r' l'.
Proof.
  intros Hacc [Hfl Hs]. destruct (Hs endOut ltac:(lia)) as (r' & o & oe & [f1 HR] & Hl & Hoe).
  assert (∀ L f, f1 ≤ f → oe = None ∨ oe = Some EOF →
    flatmap_loop (S L) f (FM r [] [] false) endOut acc =
    flatmap_cont L f (FM r' o [] (bool_decide (oe = Some EOF))) endOut acc) as Hstep.
  { intros L f Hf Hoe'. cbn [flatmap_loop]. rewrite (proj2 (Nat.ltb_lt _ _)) by lia. simpl.
    rewrite HR by done. simpl. by destruct Hoe' as [-> | ->]. }
  exists r', o, (bool_decide (oe = Some EOF)), f1. destruct oe as [e|].
  - destruct Hoe as (-> & -> & _). split_and!; [done|by auto|done|].
    exists []. rewrite app_nil_r. split; [done|]. split; [intros ?; set_solver|].
    by rewrite bool_decide_true.
  - destruct Hoe as (_ & l' & -> & Hs'). apply flats_app in Hfl as [Hfo Hfl'].
    split_and!; [done|by auto|done|]. exists l'. split; [done|]. split; [done|].
    by rewrite bool_decide_false.
Qed.

(** The rows delivered and what remains after a run of the loop. *)
Definition delivers (endOut : nat) (acc total : list row) (run : nat → nat → outcome (flatmapReader (R := R) * (list row * option error))) : Prop :=
  ∃ r ins stash eof o l k oe, (∃ L0 f0, ∀ L f, L0 ≤ L → f0 ≤ f →
      run L f = Ret (FM r ins stash eof, (acc ++ o, oe))) ∧
    total = o ++ stash ++ (ins ≫= g) ++ (l ≫= g) ∧ flats ins ∧ source eof k r l ∧
    length (acc ++ o) ≤ endOut ∧
    match oe with
    | None => length (acc ++ o) = endOut
    | Some e => e = EOF ∧ eof = true ∧ ins = [] ∧ stash = [] ∧ l = []
    end.

Lemma flatmap_exit_delivers r ins stash eof l k endOut acc o total
    (run : nat → nat → outcome (flatmapReader (R := R) * (list row * option error))) :
  (∃ L0 f0, ∀ L f, L0 ≤ L → f0 ≤ f →
     run (S L) f = flatmap_loop (S L) f (FM r ins stash eof) endOut (acc ++ o)) →
  total = o ++ stash ++ (ins ≫= g) ++ (l ≫= g) → flats ins → source eof k r l →
  length (acc ++ o) ≤ endOut →
  (length (acc ++ o) < endOut → eof = true ∧ ins = [] ∧ stash = []) →
  delivers endOut acc total run.
Proof.
  intros (L0 & f0 & Hrun) Ht Hf Hs Hl Hx.
  exists r, ins, stash, eof, o, l, k,
    (if eof && (length stash =? 0) && (length ins =? 0) then Some EOF else None).
  split_and!; try done.
  - exists (S L0), f0. intros [|L] f HL Hf0; [lia|]. rewrite Hrun by lia. by apply flatmap_exit.
  - destruct (decide (length (acc ++ o) < endOut)) as [Hlt|].
    { destruct (Hx Hlt) as (-> & -> & ->). by destruct Hs as [_ ->]. }
    destruct eof, stash, ins; simpl; try lia. by destruct Hs as [_ ->].
Qed.

Lemma flatmap_cont_spec k r ins stash eof l endOut acc :
  flats ins → source eof k r l → 0 < endOut → length acc ≤ endOut →
  (length acc < endOut → stash = []) →
  delivers endOut acc (stash ++ (ins ≫= g) ++ (l ≫= g))
    (λ L f, flatmap_cont L f (FM r ins stash eof) endOut acc).
Proof.
  revert r ins stash eof l acc. induction k as [|k IH];
    intros r ins stash eof l acc Hf Hs H0 Hl Hst;
    destruct (flatmap_rows_spec ins endOut acc stash Hf Hl Hst)
      as (ins1 & o & stash1 & Hrows & Hrest & Hf1 & Hl1 & Hx1);
    assert (∀ L f, flatmap_cont L f (FM r ins stash eof) endOut acc =
      flatmap_loop L f (FM r ins1 stash1 eof) endOut (acc ++ o)) as Hcont
      by (intros; unfold flatmap_cont; simpl; by rewrite Hrows);
    rewrite (assoc_L (++)), <-Hrest, <-!(assoc_L (++)).
  - apply (flatmap_exit_delivers r ins1 stash1 eof l 0 endOut acc o); try done.
    + exists 0, 0. intros L f _ _. apply Hcont.
    + intros Hlt. destruct (Hx1 Hlt), eof; [done|]. by destruct Hs.
  - destruct (decide (length (acc ++ o) < endOut ∧ eof = false)) as [[Hlt ->]|Hn].
    + destruct (Hx1 Hlt) as [-> ->].
      destruct (flatmap_read k r l endOut (acc ++ o) Hlt Hs)
        as (r' & o' & eof' & f1 & Ho' & Hread & Hfo & l' & -> & Hs').
      destruct (IH r' o' [] eof' l' (acc ++ o)) as
        (r2 & ins2 & st2 & eof2 & o2 & l2 & k2 & oe & (L0 & f0 & HR) & Ht & Hrem);
        [done..|].
      exists r2, ins2, st2, eof2, (o ++ o2), l2, k2, oe. cbn [app mbind list_bind] in Ht |- *.
      rewrite bind_app, Ht. rewrite <-!(assoc_L (++)) in HR, Hrem |- *.
      split; [|by split].
      exists (S L0), (f0 `max` f1). intros [|L] f HL Hf0; [lia|].
      rewrite Hcont, Hread by lia. apply HR; lia.
    + apply (flatmap_exit_delivers r ins1 stash1 eof l (S k) endOut acc o); try done.
      * exists 0, 0. intros L f _ _. apply Hcont.
      * intros Hlt. destruct (Hx1 Hlt), eof; [done|]. by destruct Hn.
Qed.

Lemma flatmap_loop_spec k r ins stash eof l endOut acc :
  flats ins → source eof k r l → 0 < endOut → length acc ≤ endOut →
  (length acc < endOut → stash = []) →
  delivers endOut acc (stash ++ (ins ≫= g) ++ (l ≫= g))
    (λ L f, flatmap_loop L f (FM r ins stash eof) endOut acc).
Proof.
  intros Hf Hs H0 Hl Hst.
  destruct (decide (length acc < endOut ∧ (eof = false ∨ ins ≠ []))) as [[Hlt Hgo]|Hn].
  - rewrite Hst in * by done. destruct ins as [|x ins].
    + destruct Hgo as [->|]; [|done]. destruct k as [|k]; [by destruct Hs|].
      destruct (flatmap_read k r l endOut acc Hlt Hs)
        as (r' & o' & eof' & f1 & Ho' & Hread & Hfo & l' & -> & Hs').
      destruct (flatmap_cont_spec k r' o' [] eof' l' endOut acc) as
        (r2 & ins2 & st2 & eof2 & o2 & l2 & k2 & oe & (L0 & f0 & HR) & Ht & Hrem); [done..|].
      exists r2, ins2, st2, eof2, o2, l2, k2, oe. simpl. rewrite bind_app.
      split; [|by split]. exists (S L0), (f0 `max` f1). intros [|L] f HL Hf0; [lia|].
      rewrite Hread by lia. apply HR; lia.
    + destruct (flatmap_cont_spec k r (x :: ins) [] eof l endOut acc) as
        (r2 & ins2 & st2 & eof2 & o2 & l2 & k2 & oe & (L0 & f0 & HR) & Hrem); [done..|].
      exists r2, ins2, st2, eof2, o2, l2, k2, oe. split; [|done].
      exists (S L0), f0. intros [|L] f HL Hf0; [lia|]. rewrite <-(HR L f) by lia.
      cbn [flatmap_loop]. rewrite (proj2 (Nat.ltb_lt _ _)) by lia. simpl.
      by rewrite orb_true_r.
  - apply (flatmap_exit_delivers r ins stash eof l k endOut acc []);
      rewrite ?app_nil_r; try done.
    + by exists 0, 0.
    + intros Hlt. destruct eof, ins; naive_solver.
Qed.

Lemma flatmapReader_streams (r : R) l :
  Assignable has_method out typ = Ret true → flats l → Streams r l →
  streams steady (S (length (l ≫= g))) (FM r [] [] false) (l ≫= g).
Proof.
  intros Ha Hfl [k Hs].
  apply streams_brisk with (I := λ f L, ∃ r ins stash eof k l,
    f = FM r ins stash eof ∧ L = stash ++ (ins ≫= g) ++ (l ≫= g) ∧ flats ins ∧ source eof k r l).
  2: { exists r, [], [], false, k, l. split_and!; try done. intros ?. set_solver. }
  clear r l k Hfl Hs. intros f L n (r & ins & stash & eof & k & l & -> & -> & Hf & Hs) Hn.
  set (m := n `min` length stash).
  destruct (flatmap_loop_spec k r ins (drop m stash) eof l n (take m stash)) as
    (r2 & ins2 & st2 & eof2 & o2 & l2 & k2 & oe & (L0 & f0 & HR) & Ht & Hf2 & Hs2 & Hl & Hoe);
    [done..|rewrite length_take; lia|rewrite length_take; intros; apply drop_ge; lia|].
  exists (FM r2 ins2 st2 eof2), (take m stash ++ o2), oe. split_and!; [|done|].
  - exists (L0 `max` f0). intros f Hf'. unfold Read, flatmap_reader, flatmapReader_Read. simpl.
    rewrite type_guard_ok by done. apply HR; lia.
  - assert (stash ++ (ins ≫= g) ++ (l ≫= g) =
      (take m stash ++ o2) ++ st2 ++ (ins2 ≫= g) ++ (l2 ≫= g)) as ->.
    { rewrite <-(assoc_L (++) (take m stash)), <-Ht, (assoc_L (++) (take m stash)).
      by rewrite take_drop. }
    destruct oe as [e|].
    + destruct Hoe as (-> & -> & -> & -> & ->). simpl. rewrite !app_nil_r.
      split_and!; [done..|]. intros _.
      apply (Drained_intro (λ f, ∃ r, f = FM r [] [] true)); [|by eauto].
      intros f n' [r' ->] Hn'. exists (FM r' [] [] true). split; [|by eauto].
      exists 1. intros [|f] Hf'; [lia|]. unfold Read, flatmap_reader, flatmapReader_Read. simpl.
      rewrite type_guard_ok by done. rewrite Nat.min_0_r. simpl.
      by destruct (0 <? n').
    + split. { intros E. rewrite E in Hoe. simpl in Hoe. lia. }
      exists (st2 ++ (ins2 ≫= g) ++ (l2 ≫= g)). split; [done|]. eauto 10.
Qed.
End flatmap.

(** ** fold *)

Section accumulate.
Context {K : Type} `{Countable K} (key : value → option K).
Context (call : list value → outcome (list value)) (zero : value).
Context (f : value → list value → value).

(** The rows have keys of the accumulator's type, and the user's function
    computes [f] on their values. *)
Definition folds (l : list row) : Prop :=
  ∀ r, r ∈ l → ∃ x k args, r = x :: args ∧ key x = Some k ∧
    ∀ acc, call (acc :: args) = Ret [f acc args].

(** The values of the rows with key [k], in order. *)
Definition values_of (k : K) (l : list row) : list (list value) :=
  omap (λ r, match r with
             | x :: args => if decide (key x = Some k) then Some args else None
             | [] => None
             end) l.

(** What an accumulator holds for key [k] after [l]. *)
Definition folded (k : K) (l : list row) (v : option value) : option value :=
  match values_of k l with
  | [] => v
  | vs => Some (fold_left f vs (default zero v))
  end.

Lemma folded_cons k x k' args l v :
  key x = Some k' →
  folded k ((x :: args) :: l) v =
    folded k l (if decide (k' = k) then Some (f (default zero v) args) else v).
Proof.
  intros Hk. unfold folded, values_of. cbn [omap list_omap]. rewrite Hk.
  destruct (decide (k' = k)) as [->|Hne].
  - rewrite decide_True by done. simpl. by destruct (omap _ _).
  - by rewrite decide_False by naive_solver.
Qed.

Lemma accumulate_spec m l :
  folds l → ∃ m', accumulate key call zero m l = Ret m' ∧
    ∀ k, m' !! k = folded k l (m !! k).
Proof.
  revert m. induction l as [|r l IH]; intros m Hf; simpl; [by exists m|].
  destruct (Hf r) as (x & k & args & -> & Hk & Hc); [set_solver|].
  rewrite Hk, Hc. simpl.
  destruct (IH (<[k := f (default zero (m !! k)) args]> m)) as (m' & -> & Hm').
  { intros ??. apply Hf. set_solver. }
  exists m'. split; [done|]. intros k'. rewrite Hm', (folded_cons _ _ k) by done.
  destruct (decide (k = k')) as [->|]; [by rewrite lookup_insert_eq|by rewrite lookup_insert_ne].
Qed.

Lemma accumulate_app m l1 l2 :
  accumulate key call zero m (l1 ++ l2) =
    accumulate key call zero m l1 ≫= λ m, accumulate key call zero m l2.
Proof.
  revert m. induction l1 as [|r l1 IH]; intros m; simpl; [done|].
  destruct r as [|x args]; [done|]. destruct (key x); [|done].
  destruct (call _) as [[|v ?]| |]; simpl; auto.
Qed.

End accumulate.

Section accum_read.
Context {K : Type} `{Countable K} (mk : K → value).

Definition entries (m : gmap K value) : list row := (λ kv, [mk kv.1; kv.2]) <$> map_to_list m.

Lemma lookup_foldr_delete (m : gmap K value) (l : list (K * value)) k :
  foldr (λ kv m, delete kv.1 m) m l !! k = if decide (k ∈ l.*1) then None else m !! k.
Proof.
  induction l as [|[k' v] l IH]; simpl; [done|].
  destruct (decide (k = k')) as [->|Hne].
  - rewrite lookup_delete_eq, decide_True by set_solver. done.
  - rewrite lookup_delete_ne, IH by done. repeat case_decide; set_solver.
Qed.

Hypothesis iter_perm : ∀ A t (l : list A), iter A t l ≡ₚ l.

Lemma accum_read_spec t (m : gmap K value) max :
  ∃ m' o, accum_read iter mk t m max = (m', (o, if size m' =? 0 then Some EOF else None)) ∧
    entries m ≡ₚ o ++ entries m' ∧ length o = max `min` size m ∧ size m' = size m - length o.
Proof.
  unfold accum_read. set (l := iter _ t (map_to_list m)).
  assert (l ≡ₚ map_to_list m) as Hl by apply iter_perm.
  set (m' := foldr _ _ _). set (o := _ <$> _).
  assert (NoDup l.*1) as Hnd by (rewrite Hl; apply NoDup_fst_map_to_list).
  assert (m = list_to_map (take max l) ∪ list_to_map (drop max l)) as Hm.
  { rewrite <-list_to_map_app, take_drop. symmetry.
    etrans; [by apply list_to_map_proper|]. apply list_to_map_to_list. }
  rewrite <-(take_drop max l), fmap_app in Hnd. apply list.NoDup_app in Hnd as (_ & Hdj & Hnd).
  assert (map_to_list m' ≡ₚ drop max l) as Hm'.
  { rewrite <-(map_to_list_to_map (M := gmap K) (drop max l)) by done.
    replace m' with (list_to_map (drop max l) : gmap K value); [done|].
    apply map_eq. intros k. subst m'. rewrite lookup_foldr_delete. case_decide as Hk.
    - apply not_elem_of_list_to_map_1. by apply Hdj.
    - rewrite Hm, lookup_union_r; [done|]. by apply not_elem_of_list_to_map_1. }
  exists m', o. split_and!; [done|..].
  - unfold entries, o. rewrite Hm', <-Hl, <-fmap_app, take_drop. done.
  - unfold o. rewrite length_fmap, length_take, Hl, length_map_to_list. done.
  - rewrite <-!length_map_to_list, Hm', length_drop, Hl. unfold o.
    rewrite length_fmap, length_take, Hl. lia.
Qed.
End accum_read.

(** What an accumulator delivers. *)
Definition acc_entries (a : Accumulator) : list row :=
  match a with
  | stringAccumulator m => entries VString m
  | intAccumulator m => entries (VInt KInt) m
  | int64Accumulator m => entries (VInt KInt64) m
  end.

Section fold.
Context {R : Type} `{Reader row R} (chunk : nat).
Context (typ : Typ) (keyType : gotype) (zero : value).
Context (call : list value → outcome (list value)) (f : value → list value → value).
Hypothesis iter_perm : ∀ A t (l : list A), iter A t l ≡ₚ l.
#[local] Instance fold_reader : Reader row (foldReader (R := R)) :=
  foldReader_Read has_method iter chunk out.

(** The accumulator holds, for every key of [l], the fold of its values. *)
Definition accumulated (l : list row) (a : Accumulator) : Prop :=
  match Kind keyType with
  | KString => ∃ m, a = stringAccumulator m ∧ ∀ k, m !! k = folded asString zero f k l None
  | KInt => ∃ m, a = intAccumulator m ∧ ∀ k, m !! k = folded (asInt KInt) zero f k l None
  | KInt64 => ∃ m, a = int64Accumulator m ∧ ∀ k, m !! k = folded (asInt KInt64) zero f k l None
  | _ => False
  end.
Definition foldable (l : list row) : Prop :=
  match Kind keyType with
  | KString => folds asString call f l
  | KInt => folds (asInt KInt) call f l
  | KInt64 => folds (asInt KInt64) call f l
  | _ => False
  end.

Lemma Accumulate_spec l :
  foldable l → ∃ a0 a, makeAccumulator keyType = Some a0 ∧
    Accumulate call zero a0 l = Ret a ∧ accumulated l a.
Proof.
  unfold foldable, makeAccumulator, accumulated. destruct (Kind keyType); try done; intros Hf.
  - destruct (accumulate_spec (asInt KInt) call zero f ∅ l Hf) as (m & Hm & Hk).
    eexists _, (intAccumulator m). split_and!; [done|simpl; by rewrite Hm|].
    exists m. split; [done|]. intros k. by rewrite Hk, lookup_empty.
  - destruct (accumulate_spec (asInt KInt64) call zero f ∅ l Hf) as (m & Hm & Hk).
    eexists _, (int64Accumulator m). split_and!; [done|simpl; by rewrite Hm|].
    exists m. split; [done|]. intros k. by rewrite Hk, lookup_empty.
  - destruct (accumulate_spec asString call zero f ∅ l Hf) as (m & Hm & Hk).
    eexists _, (stringAccumulator m). split_and!; [done|simpl; by rewrite Hm|].
    exists m. split; [done|]. intros k. by rewrite Hk, lookup_empty.
Qed.

Lemma Accumulate_app a l1 l2 a' :
  Accumulate call zero a (l1 ++ l2) = Ret a' →
  ∃ a1, Accumulate call zero a l1 = Ret a1 ∧ Accumulate call zero a1 l2 = Ret a'.
Proof.
  destruct a; simpl; rewrite accumulate_app; destruct (accumulate _ _ _ _ l1); simpl; try done;
    intros Ha; eexists; (split; [done|exact Ha]).
Qed.

Lemma compute_loop_spec k (F : foldReader (R := R)) (r : R) l a a' :
  fo_fval F = call → fo_zero F = zero → 0 < chunk →
  streams plain k r l → Accumulate call zero a l = Ret a' →
  ∃ r' L0 f0, ∀ L fuel, L0 ≤ L → f0 ≤ fuel →
    compute_loop chunk L fuel F r a = Ret (r', inl a').
Proof.
  intros HF Hz Hc. revert r l a. induction k as [|k IH]; intros r l a Hs Ha; [done|].
  destruct (Hs chunk Hc) as (r1 & o & oe & [f1 HR] & Hl & Hoe). destruct oe as [e|].
  - destruct Hoe as (-> & -> & _). exists r1, 1, f1. intros [|L] fuel HL Hf; [lia|]. simpl.
    rewrite HR by done. simpl. by rewrite HF, Hz, Ha.
  - destruct Hoe as (_ & l' & -> & Hs'). apply Accumulate_app in Ha as (a1 & Ha1 & Ha').
    destruct (IH r1 l' a1 Hs' Ha') as (r2 & L0 & f0 & HR2).
    exists r2, (S L0), (f0 `max` f1). intros [|L] fuel HL Hf; [lia|]. simpl.
    rewrite HR by lia. simpl. rewrite HF, Hz, Ha1. simpl. apply HR2; lia.
Qed.

Lemma Accumulator_Read_spec t a max :
  ∃ a' o oe, Accumulator_Read iter t a max = (a', (o, oe)) ∧
    acc_entries a ≡ₚ o ++ acc_entries a' ∧ length o ≤ max ∧
    match oe with
    | Some e => e = EOF ∧ acc_entries a' = []
    | None => 0 < max → o ≠ []
    end.
Proof.
  assert (∀ K `{Countable K} (mk : K → value) (m : gmap K value),
    ∃ m' o oe, accum_read iter mk t m max = (m', (o, oe)) ∧
      entries mk m ≡ₚ o ++ entries mk m' ∧ length o ≤ max ∧
      match oe with Some e => e = EOF ∧ entries mk m' = [] | None => 0 < max → o ≠ [] end) as Hgen.
  { intros K ?? mk m.
    destruct (accum_read_spec mk iter_perm t m max) as (m' & o & -> & Hp & Ho & Hs).
    eexists m', o, _. split_and!; [done..|lia|].
    destruct (Nat.eqb_spec (size m') 0) as [E|E].
    - split; [done|]. apply map_size_empty_inv in E as ->. unfold entries.
      by rewrite map_to_list_empty.
    - intros Hmax ->. simpl in Ho, Hs. lia. }
  destruct a as [m|m|m]; cbn [Accumulator_Read acc_entries].
  - destruct (Hgen _ _ _ VString m) as (m' & o & oe & -> & Hrest). by exists (stringAccumulator m'), o, oe.
  - destruct (Hgen _ _ _ (VInt KInt) m) as (m' & o & oe & -> & Hrest). by exists (intAccumulator m'), o, oe.
  - destruct (Hgen _ _ _ (VInt KInt64) m) as (m' & o & oe & -> & Hrest). by exists (int64Accumulator m'), o, oe.
Qed.

(** Reading from a fold reader whose accumulator is, or will be, [a]. *)
Definition fold_ready (F : foldReader (R := R)) (a : Accumulator) : Prop :=
  fo_typ F = typ ∧ fo_err F = None ∧
  match fo_accum F with
  | Some a' => a' = a
  | None => ∃ r' f0, ∀ fuel, f0 ≤ fuel → compute chunk fuel F = Ret (r', inl a)
  end.

Lemma foldReader_step F a n :
  Assignable has_method out typ = Ret true → fold_ready F a →
  ∃ F' o oe, Reads F n F' o oe ∧ length o ≤ n ∧ fo_err F' = oe ∧
    ∃ a', acc_entries a ≡ₚ o ++ acc_entries a' ∧
      match oe with
      | Some e => e = EOF ∧ acc_entries a' = []
      | None => (0 < n → o ≠ []) ∧ fold_ready F' a'
      end.
Proof.
  intros Ha (Ht & He & Hacc).
  destruct (Accumulator_Read_spec (fo_reads F) a n) as (a' & o & oe & HA & Hp & Hl & Hoe).
  assert (∃ r' f0, ∀ fuel, f0 ≤ fuel →
    match fo_accum F with
    | Some a => Ret (fo_reader F, inl a)
    | None => compute chunk fuel F
    end = Ret (r', inl a)) as (r' & f0 & Hc).
  { destruct (fo_accum F) as [a1|]; [subst; by exists (fo_reader F), 0|done]. }
  exists (with_accum F r' (Some a') oe (S (fo_reads F))), o, oe. split_and!; [|done..|].
  - exists f0. intros fuel Hf. unfold Read, fold_reader, foldReader_Read.
    rewrite He, type_guard_ok, Hc by (rewrite ?Ht; done). simpl. by rewrite HA.
  - exists a'. split; [done|]. destruct oe; [done|]. by split.
Qed.

Lemma foldReader_streams (r : R) l :
  Assignable has_method out typ = Ret true → 0 < chunk → foldable l → Streams r l →
  ∃ a, accumulated l a ∧
    Streams_perm (mkFoldReader typ keyType zero call r None None 0) (acc_entries a).
Proof.
  intros Ha Hc Hf [k Hs]. destruct (Accumulate_spec l Hf) as (a0 & a & Hmk & Hacc & Hspec).
  exists a. split; [done|].
  apply streams_perm_intro with (I := λ F L, ∃ a, fold_ready F a ∧ L = acc_entries a).
  - intros F L n (a1 & HF & ->) Hn.
    destruct (foldReader_step F a1 n Ha HF) as (F' & o & oe & HR & Hl & He & a' & Hp & Hoe).
    exists F', o, oe. split_and!; [done..|]. destruct oe as [e|].
    + destruct Hoe as [-> Hnil]. rewrite Hnil, app_nil_r in Hp. split_and!; [done..|].
      apply (Drained_intro (λ F, fo_err F = Some EOF)); [|done].
      intros F1 n1 HF1 _. exists F1. split; [|done]. exists 0. intros ? _.
      unfold Read, fold_reader, foldReader_Read. by rewrite HF1.
    + destruct Hoe as [Hne HF']. split; [by apply Hne|]. eauto 6.
  - exists a. split; [|done]. split_and!; [done..|]. simpl.
    destruct (compute_loop_spec k (mkFoldReader typ keyType zero call r None None 0) r l a0 a)
      as (r' & L0 & f0 & HR); [done..|].
    exists r', (L0 `max` f0). intros fuel Hfuel. unfold compute. simpl. rewrite Hmk.
    apply HR; lia.
Qed.
End fold.

(** ** readerfunc *)

Section readerfunc.
Context (fn : readerFn) (typ : Typ) (shard : Z).
#[local] Instance readerfunc_reader : Reader row (readerFuncSliceReader fn) :=
  readerFuncSliceReader_Read has_method fn out.

(** The user's function, as a reader of its own over its state. *)
Definition user_Read (fuel : nat) (s : rfn_state fn) (len : nat) :
    outcome (rfn_state fn * (list row * option error)) :=
  '(s', res) ← rfn_call fn shard s len;
  Ret (if rfn_isPtr fn then s' else s, res).
#[local] Instance user_reader : Reader row (rfn_state fn) := user_Read.

Lemma readerFunc_drained s c : Drained (mkReaderFuncReader (fn := fn) typ s shard (Some EOF) c).
Proof.
  apply (Drained_intro (λ r, rr_err r = Some EOF)); [|done].
  intros r n Hr _. exists r. split; [|done]. exists 0. intros f _.
  unfold Read, readerfunc_reader, readerFuncSliceReader_Read. by rewrite Hr.
Qed.

Lemma readerFunc_streams st k s l (os : option (rfn_state fn)) c :
  Assignable has_method out typ = Ret true → default (rfn_zero fn) os = s →
  streams st k s l →
  streams (Style (st_clean st) (st_brisk st) true) k (mkReaderFuncReader typ os shard None c) l.
Proof.
  intros Ha. revert s l os c. induction k as [|k IH]; intros s l os c Hos Hs; [done|].
  intros n Hn. destruct (Hs n Hn) as (s' & o & oe & [f0 HR] & Hl & Hoe).
  specialize (HR f0 (le_n _)). unfold Read, user_reader, user_Read in HR.
  apply outcome_bind_Ret in HR as ([s1 [o1 oe1]] & Hcall & [= Hs' -> ->]).
  exists (mkReaderFuncReader typ (Some s') shard oe
    (if length o =? 0 then (c + 1)%Z else 0%Z)), o, oe. split_and!; [|done|].
  - exists 0. intros f _. unfold Read, readerfunc_reader, readerFuncSliceReader_Read.
    cbn [rr_err rr_typ rr_state rr_shard rr_consecutiveEmptyCalls].
    rewrite type_guard_ok, Hos, Hcall by done. simpl. rewrite Hs'.
    destruct oe as [e|]; [|done]. by destruct Hoe as (-> & _).
  - destruct oe as [e|].
    + destruct Hoe as (-> & -> & Hc & _). split_and!; [done..|].
      intros _. apply readerFunc_drained.
    + destruct Hoe as (Hb & l' & -> & Hs''). split; [done|]. exists l'. split; [done|].
      by apply (IH s').
Qed.
End readerfunc.

(** ** writerfunc *)

Section writerfunc.
Context {R : Type} `{Reader row R} (fn : writerFn) (shard : Z).
#[local] Instance writerfunc_reader : Reader row (writerFuncReader (R := R) fn) :=
  writerFuncReader_Read fn.

(** The write function never fails: it takes its state to [w]. *)
Context (w : wfn_state fn → option error * list row → wfn_state fn).
Hypothesis write_ok : ∀ s err rows, callWrite fn shard s err rows = Ret (w s (err, rows), None).

Abbreviation WR r os e := (mkWriterFuncReader fn shard r os e).

Lemma writerFunc_step (r r' : R) os n o oe :
  Reads r n r' o oe →
  Reads (WR r os None) n (WR r' (Some (w (default (wfn_zero fn) os) (oe, o))) oe) o oe.
Proof.
  intros [f0 HR]. exists f0. intros f Hf.
  unfold Read, writerfunc_reader, writerFuncReader_Read. simpl. rewrite HR by done. simpl.
  rewrite write_ok. simpl. by destruct oe as [[]|].
Qed.

Lemma writerFunc_streams st k (r : R) os l :
  streams st k r l →
  streams (Style (st_clean st) (st_brisk st) true) k (WR r os None) l.
Proof.
  revert r os l. induction k as [|k IH]; intros r os l Hs; [done|]. intros n Hn.
  destruct (Hs n Hn) as (r' & o & oe & HR & Hl & Hoe).
  eexists _, o, oe. split_and!; [by apply writerFunc_step|done|]. destruct oe as [e|].
  - destruct Hoe as (-> & -> & Hc & _). split_and!; [done..|]. intros _.
    apply (Drained_intro (λ r, wr_err fn r = Some EOF)); [|done].
    intros r1 n1 Hr1 _. exists r1. split; [|done]. exists 0. intros f _.
    unfold Read, writerfunc_reader, writerFuncReader_Read. by rewrite Hr1.
  - destruct Hoe as (Hb & l' & -> & Hs'). split; [done|]. exists l'. split; [done|].
    by apply IH.
Qed.

(** What the write function is shown while the stream is read to its end:
    every batch, the last one with EOF. *)
Lemma writerFunc_writes k (r : R) os l chunk acc :
  streams plain k r l → 0 < chunk →
  ∃ r' batches last, (∃ L0 f0, ∀ L f, L0 ≤ L → f0 ≤ f →
      ReadAll_loop L f chunk (WR r os None) acc =
        Ret (WR r' (Some (fold_left w ((pair None <$> batches) ++ [(Some EOF, last)])
                            (default (wfn_zero fn) os))) (Some EOF), (acc ++ l, None))) ∧
    concat batches ++ last = l.
Proof.
  intros Hs Hc. revert r os l acc Hs. induction k as [|k IH]; intros r os l acc Hs; [done|].
  destruct (Hs chunk Hc) as (r1 & o & oe & HR & Hl & Hoe).
  destruct (writerFunc_step r r1 os chunk o oe HR) as [f1 HW]. destruct oe as [e|].
  - destruct Hoe as (-> & -> & _). exists r1, [], o. split; [|done].
    exists 1, f1. intros [|L] f HL Hf; [lia|]. simpl. by rewrite HW.
  - destruct Hoe as (_ & l' & -> & Hs').
    destruct (IH r1 (Some (w (default (wfn_zero fn) os) (None, o))) l' (acc ++ o) Hs')
      as (r2 & bs & last & (L0 & f0 & HR2) & Hcc).
    exists r2, (o :: bs), last. split.
    + exists (S L0), (f0 `max` f1). intros [|L] f HL Hf; [lia|]. simpl.
      rewrite HW by lia. simpl. rewrite HR2, (assoc_L (++)) by lia. done.
    + simpl. by rewrite <-(assoc_L (++)), Hcc.
Qed.
End writerfunc.

(** ** head *)

Section head.
Context {R : Type} `{Reader row R}.
#[local] Instance head_reader : Reader row (headReader (R := R)) := headReader_Read.

Lemma headReader_drained (r : R) n : (n <= 0)%Z ∨ Drained r → Drained (mkHeadReader r n).
Proof.
  intros Hd. apply (Drained_intro (λ h, (hd_n h <= 0)%Z ∨ Drained (hd_reader h))); [|done].
  clear r n Hd. intros [r n] m Hd Hm. simpl in Hd.
  destruct (Z.leb_spec n 0).
  { exists (mkHeadReader r n). split; [|by left]. exists 0. intros f _.
    unfold Read, head_reader, headReader_Read. simpl. by rewrite (proj2 (Z.leb_le _ _)). }
  destruct Hd as [|(P & HP & Hstep)]; [lia|].
  destruct (Hstep r m HP Hm) as (r' & [f0 HR] & HP').
  exists (mkHeadReader r' n). split; [|right; by exists P].
  exists f0. intros f Hf. unfold Read, head_reader, headReader_Read. simpl.
  rewrite (proj2 (Z.leb_gt _ _)), HR by lia. simpl.
  by rewrite Z.sub_0_r, (proj2 (Z.ltb_ge _ _)) by lia.
Qed.

Lemma headReader_streams st k (r : R) n l :
  streams st k r l → streams st k (mkHeadReader r n) (take (Z.to_nat n) l).
Proof.
  revert r n l. induction k as [|k IH]; intros r n l Hs; [done|]. intros m Hm.
  destruct (Z.leb_spec n 0).
  { exists (mkHeadReader r n), [], (Some EOF). split_and!; [|simpl; lia|done| |done|].
    - exists 0. intros f _. unfold Read, head_reader, headReader_Read. simpl.
      by rewrite (proj2 (Z.leb_le _ _)).
    - by replace (Z.to_nat n) with 0 by lia.
    - intros _. apply headReader_drained. by left. }
  destruct (Hs m Hm) as (r' & o & oe & [f0 HR] & Hl & Hoe).
  exists (mkHeadReader r' (n - Z.of_nat (length o))), (take (Z.to_nat n) o), oe. split_and!.
  - exists f0. intros f Hf. unfold Read, head_reader, headReader_Read. simpl.
    rewrite (proj2 (Z.leb_gt _ _)), HR by lia. simpl. repeat f_equal.
    destruct (Z.ltb_spec (n - Z.of_nat (length o)) 0).
    + f_equal. lia.
    + by rewrite take_ge by lia.
  - rewrite length_take. lia.
  - destruct oe as [e|].
    + destruct Hoe as (-> & -> & Hcl & Hst). split_and!; [done..| |].
      * intros E. rewrite Hcl by done. by rewrite take_nil.
      * intros E. apply headReader_drained. right. by apply Hst.
    + destruct Hoe as (Hb & l' & -> & Hs'). split.
      { intros E ?%take_nil_inv. destruct (Hb E). naive_solver lia. }
      exists (take (Z.to_nat (n - Z.of_nat (length o))) l'). split.
      * rewrite take_app. f_equal. f_equal. lia.
      * by apply IH.
Qed.
End head.
End correctness.

(** * Slice.Reader *)

(** [reflect.Zero]. *)
Definition zero_value (t : gotype) : value :=
  match Kind t with
  | KBool => VBool false
  | KInt | KInt64 | KUint64 | KFloat64 => VInt (Kind t) 0
  | KString => VString ""
  | _ => VNil
  end.

Section slice_reader.
Context (has_method : gotype → string → bool).
Context (iter : ∀ A, nat → list A → list A) (defaultChunksize : nat).
(** The readers of reduce with several dependencies (sortio.Reduce) and of
    cogroup. *)
Context (sortio_Reduce : Slice → Z → list (anyReader row) → outcome (anyReader row)).
Context (cogroup_Reader : Slice → Z → list (anyReader row) → outcome (anyReader row)).

(** [deps[0]]. *)
Definition dep0 (deps : list (anyReader row)) : outcome (anyReader row) :=
  match deps with r :: _ => Ret r | [] => Panic "index out of range" end.

(** [slice.Reader(shard, deps)], for a reader that is read into frames of
    type [out]. *)
Fixpoint Slice_Reader (out : Typ) (s : Slice) (shard : Z) (deps : list (anyReader row)) :
    outcome (anyReader row) :=
  match s with
  | constSlice _ _ typ frame nshard =>
      Ret (match constSlice_rows frame nshard shard with
           | None => pack EmptyReader
           | Some rows => pack (I := constReader_Read has_method out) (mkConstReader typ rows)
           end)
  | readerFuncSlice _ _ _ _ _ read =>
      Ret (pack (I := readerFuncSliceReader_Read has_method read out)
             (mkReaderFuncReader (typ_of s) None shard None 0))
  | writerFuncSlice _ _ _ write =>
      r ← dep0 deps;
      Ret (pack (I := writerFuncReader_Read write) (mkWriterFuncReader write shard r None None))
  | mapSlice _ _ _ _ fval =>
      r ← dep0 deps;
      Ret (pack (I := mapReader_Read has_method out) (mkMapReader (typ_of s) (uf_Call fval) r None))
  | filterSlice _ _ _ _ pred =>
      r ← dep0 deps;
      Ret (pack (I := filterReader_Read has_method out)
             (mkFilterReader (typ_of s) (uf_Call pred) r None))
  | flatmapSlice _ _ _ _ fval _ =>
      r ← dep0 deps;
      Ret (pack (I := flatmapReader_Read has_method out)
             (mkFlatmapReader (typ_of s) (uf_Call fval) r [] [] false))
  | foldSlice _ _ slice fval typ =>
      r ← dep0 deps;
      keyType ← Out (typ_of slice) 0;
      accType ← Out typ 1;
      Ret (pack (I := foldReader_Read has_method iter defaultChunksize out)
             (mkFoldReader (typ_of s) keyType (zero_value accType) (uf_Call fval) r None None 0))
  | headSlice _ _ _ n =>
      r ← dep0 deps; Ret (pack (I := headReader_Read) (mkHeadReader r n))
  | scanSlice _ _ _ scan =>
      r ← dep0 deps; Ret (pack (I := scanReader_Read) (mkScanReader scan shard r))
  | reduceSlice _ _ _ _ =>
      if length deps =? 1 then dep0 deps else sortio_Reduce s shard deps
  | cogroupSlice _ _ _ _ _ _ => cogroup_Reader s shard deps
  | reshuffleSlice _ _ _ _ | reshardSlice _ _ _ _ =>
      if length deps =? 1 then dep0 deps else Panic "expected one dep"
  | cacheSlice _ _ _ _ => dep0 deps
  | readCacheSlice _ _ _ _ cache => CacheReader cache shard
  | prefixSlice _ _ slice _ | Result _ slice _ => Slice_Reader out slice shard deps
  end.

(** ** What the operators mean *)

(** [s] computes the rows [L] of a shard from the rows of its dependencies. *)
Inductive computes : Slice → Z → list (list row) → list row → Prop :=
| computes_const p name typ frame nshard shard :
    computes (constSlice p name typ frame nshard) shard []
      (default [] (constSlice_rows frame nshard shard))
| computes_reader p name prag typ nshard fn shard L :
    @Streams row (rfn_state fn) (user_Read fn shard) (rfn_zero fn) L →
    computes (readerFuncSlice p name prag typ nshard fn) shard [] L
| computes_writer p name s fn w shard l :
    (∀ st err rows, callWrite fn shard st err rows = Ret (w st (err, rows), None)) →
    computes (writerFuncSlice p name s fn) shard [l] l
| computes_map p name prag s f g shard l :
    (∀ x, x ∈ l → uf_Call f x = Ret (g x)) →
    computes (mapSlice p name prag s f) shard [l] (g <$> l)
| computes_filter p name prag s f q shard l :
    (∀ x, x ∈ l → uf_Call f x = Ret [VBool (q x)]) →
    computes (filterSlice p name prag s f) shard [l] (filter (λ x, q x = true) l)
| computes_flatmap p name prag s f typ g shard l :
    (∀ x, x ∈ l → flat_rows (uf_Call f) x = Ret (g x)) →
    computes (flatmapSlice p name prag s f typ) shard [l] (l ≫= g)
| computes_head p name s n shard l :
    computes (headSlice p name s n) shard [l] (take (Z.to_nat n) l)
| computes_prefix p prag s prefix shard ls L :
    computes s shard ls L → computes (prefixSlice p prag s prefix) shard ls L
| computes_reduce p s name c shard l :
    computes (reduceSlice p s name c) shard [l] l
| computes_reshuffle p name part s shard l :
    computes (reshuffleSlice p name part s) shard [l] l
| computes_reshard p name n s shard l :
    computes (reshardSlice p name n s) shard [l] l
| computes_cache p name s cache shard l :
    computes (cacheSlice p name s cache) shard [l] l.

Lemma EmptyReader_streams : Streams (pack (row := row) EmptyReader) [].
Proof.
  apply pack_Streams_as. exists 1. intros n Hn. exists EmptyReader, [], (Some EOF).
  split_and!; [by exists 0|simpl; lia|done..].
Qed.

(** The type check of a reader passes on frames of the type of its slice. *)
Definition fits (out : Typ) (s : Slice) : Prop :=
  Assignable has_method out (typ_of s) = Ret true ∧
  Assignable has_method (colType s) out = Ret true.

Lemma fits_prefix out p prag s prefix : fits out (prefixSlice p prag s prefix) → fits out s.
Proof. done. Qed.

Lemma Slice_Reader_spec out s shard deps ls L :
  fits out s → Forall2 Streams deps ls → computes s shard ls L →
  ∃ r, Slice_Reader out s shard deps = Ret r ∧ Streams r L.
Proof.
  intros Hfit HF Hc. revert Hfit deps HF.
  induction Hc as [p name typ frame nshard shard|p name prag typ nshard fn shard L [k HL]
    |p name s fn w shard l Hw|p name prag s f g shard l Hg|p name prag s f q shard l Hq
    |p name prag s f typ g shard l Hg|p name s n shard l|p prag s prefix shard ls L Hc IH
    |p s name c shard l|p name part s shard l|p name n s shard l|p name s cache shard l];
    intros Hfit deps HF; simpl.
  - eexists. split; [done|]. destruct Hfit as [_ Ha].
    destruct (constSlice_rows frame nshard shard) as [rows|]; [|apply EmptyReader_streams].
    apply (Streams_as_Streams strict), pack_Streams_as. exists (S (length rows)).
    by apply constReader_streams.
  - eexists. split; [done|]. destruct Hfit as [Ha _].
    eapply Streams_as_Streams, pack_Streams_as. exists k.
    by apply (readerFunc_streams has_method out fn _ shard plain k (rfn_zero fn)).
  - inversion HF as [|r ? ? ? [k Hk] HF']; inversion HF'; subst. eexists. split; [done|].
    eapply Streams_as_Streams, pack_Streams_as. exists k. by eapply writerFunc_streams.
  - inversion HF as [|r ? ? ? [k Hk] HF']; inversion HF'; subst. eexists. split; [done|].
    eapply Streams_as_Streams, pack_Streams_as. exists k.
    apply (mapReader_streams has_method out plain); [by apply Hfit|done..].
  - inversion HF as [|r ? ? ? Hk HF']; inversion HF'; subst. eexists. split; [done|].
    eapply Streams_as_Streams, pack_Streams_as. eexists.
    apply (filterReader_streams has_method out); [by apply Hfit|done..].
  - inversion HF as [|r ? ? ? Hk HF']; inversion HF'; subst. eexists. split; [done|].
    eapply Streams_as_Streams, pack_Streams_as. eexists.
    apply (flatmapReader_streams has_method out); [by apply Hfit|done..].
  - inversion HF as [|r ? ? ? [k Hk] HF']; inversion HF'; subst. eexists. split; [done|].
    eapply Streams_as_Streams, pack_Streams_as. exists k. by apply headReader_streams.
  - apply IH; [|done]. by eapply fits_prefix.
  - inversion HF as [|r ? ? ? Hk HF']; inversion HF'; subst. by exists r.
  - inversion HF as [|r ? ? ? Hk HF']; inversion HF'; subst. by exists r.
  - inversion HF as [|r ? ? ? Hk HF']; inversion HF'; subst. by exists r.
  - inversion HF as [|r ? ? ? Hk HF']; inversion HF'; subst. by exists r.
Qed.


(** Fold delivers one row per key of its input, with the fold of the values
    of that key in the order of the input, in an order that may depend on the
    iteration order of Go maps. *)
Theorem Fold_correct out p name s f typ shard dep l keyType accType g :
  (∀ A t (l : list A), iter A t l ≡ₚ l) → 0 < defaultChunksize →
  fits out (foldSlice p name s f typ) →
  Out (typ_of s) 0 = Ret keyType → Out typ 1 = Ret accType →
  foldable keyType (uf_Call f) g l → Streams dep l →
  ∃ r a, Slice_Reader out (foldSlice p name s f typ) shard [dep] = Ret r ∧
    accumulated keyType (zero_value accType) g l a ∧ Streams_perm r (acc_entries a).
Proof.
  intros Hit Hc [Ha _] Hk Hacc Hf Hs.
  cbn [Slice_Reader dep0 mbind outcome_bind]. rewrite Hk, Hacc. cbn [mbind outcome_bind].
  destruct (foldReader_streams has_method iter out defaultChunksize (typ_of (foldSlice p name s f typ))
    keyType (zero_value accType) (uf_Call f) g Hit dep l Ha Hc Hf Hs) as (a & Hspec & Hst).
  eexists _, a. split_and!; [done..|]. by apply pack_Streams_perm.
Qed.

(** Reading a writerfunc slice to its end shows the write function every
    batch of rows exactly once and in order, the last one together with EOF, with
    the state threaded through the calls, and delivers the rows unchanged. *)
Theorem WriterFunc_correct fn shard (w : wfn_state fn → option error * list row → wfn_state fn)
    (dep : anyReader row) l chunk :
  (∀ s err rows, callWrite fn shard s err rows = Ret (w s (err, rows), None)) →
  Streams dep l → 0 < chunk →
  ∃ r' batches last f0, concat batches ++ last = l ∧
    ∀ f, f0 ≤ f →
      @ReadAll row _ (writerFuncReader_Read fn) f chunk (mkWriterFuncReader fn shard dep None None) =
        Ret (mkWriterFuncReader fn shard r'
               (Some (fold_left w ((pair None <$> batches) ++ [(Some EOF, last)]) (wfn_zero fn)))
               (Some EOF), (l, None)).
Proof.
  intros Hw [k Hs] Hc.
  destruct (writerFunc_writes fn shard w Hw k dep None l chunk [] Hs Hc)
    as (r' & bs & last & (L0 & f0 & HR) & Hcc).
  exists r', bs, last, (L0 `max` f0). split; [done|]. intros f Hf. apply HR; lia.
Qed.
End slice_reader.

(** The shards of a constant slice partition its rows: concatenated in
    order they are the rows of the slice, for any number of shards. *)
Theorem Const_shards (frame : list row) (nshard : Z) :
  (1 <= nshard)%Z →
  concat ((λ i, default [] (constSlice_rows frame nshard (Z.of_nat i)))
    <$> seq 0 (Z.to_nat nshard)) = frame.
Proof. apply constSlice_concat. Qed.
