(* ===== verification/Cogroup.v ===== *)
(** The reader of cogrouped slices (src/cogroup.go).

    The reader sorts the rows of each dependency, keeps a heap of one buffer per
    sorted dependency, and gathers the rows with the least key into one row per
    key, with a column of slices per value column of each dependency.  Sorting is
    the interface [Sorter]; the external sort of Spiller.v implements it.

    Each buffer has a frame of bufferSize rows and the offset [i * bufferSize];
    the frames are kept end to end in one list, as in SortIO.v, so that the frame
    of a buffer is the window from its offset on. *)
From S2P Require Import Prelude Types Heap SliceIO SortIO Codec Spiller Slices Readers.

(** * Sorting a dependency *)

(** [SortReader] at the type of the [i]'th dependency. *)
Class Sorter := sort_dep : nat → nat → anyReader row → outcome (anyReader row + error).

(** Rows of each dependency that can be sorted, and what sorting them gives. *)
Class SorterLaws (S : Sorter) (sortable : nat → list row → Prop) (less : row → row → bool) : Prop :=
  sort_dep_spec : ∀ i r l, Streams r l → sortable i l →
    ∃ r' L, (λ f, sort_dep i f r) ⇓ inl r' ∧ Streams_as steady r' L ∧ L ≡ₚ l ∧ sorted less L.

(** ** Sorting with SortReader *)

Section spill_sorter.
(** The columns of each dependency are encoded by its own codec; the other
    parameters are those of Spiller.v. *)
Context (codec : nat → Codec value) (SpillBatchSize numCanaryRows spillSize : nat) (io : nat → spillIO).
Context (file_list : ∀ i, list (list (@byte _ (codec i))) → list (list (@byte _ (codec i)))).
Context (list_err : option error) (open_err : nat → option error) (close_file : unit → option error).
Context (less : row → row → bool) (sort_Sort : list row → list row).

Definition merge_pack (i : nat) (m : mergeReader (row := row)
    (R := closingReader (@spill_reader value (codec i)))) : anyReader row :=
  pack (I := mergeReader_reader (H := closingReader_reader (H := readerWithCloseFunc_reader (H := dr_reader VNil)))
    (replicate (@NumOut _ (codec i)) VNil) less SpillBatchSize) m.

Definition spill_sorter : Sorter := λ i fuel r,
  res ← SortReader (C := codec i) VNil SpillBatchSize io (file_list i) list_err open_err close_file less sort_Sort
    numCanaryRows fuel spillSize r;
  Ret (match res with inl m => inl (merge_pack i m) | inr err => inr err end).

Context {CL : ∀ i, @CodecLaws value (codec i)} `{!StrictWeak less}.
Hypothesis batch_pos : 0 < SpillBatchSize.
Hypothesis canary_pos : 0 < numCanaryRows.
Hypothesis no_io_error : ∀ i, io i = mkSpillIO None None None.
Hypothesis no_list_error : list_err = None.
Hypothesis no_open_error : ∀ i, open_err i = None.
Hypothesis file_list_perm : ∀ i dir, file_list i dir ≡ₚ dir.
Hypothesis encodable : ∀ i e rows, @well_typed _ (codec i) rows →
  ∃ e', @Encoder_Write _ VNil (codec i) e rows = (e', None) ∧
    length (en_out e) + length rows ≤ length (en_out e').
Hypothesis sort_perm : ∀ rows, sort_Sort rows ≡ₚ rows.
Hypothesis sort_sorted : ∀ rows, sorted less (sort_Sort rows).

(** The external sort keeps the promise. *)
Lemma spill_sorter_laws : SorterLaws spill_sorter (λ i, @well_typed _ (codec i)) less.
Proof.
  intros i r l Hr Hl.
  destruct (SortReader_spec (C := codec i) (CL := CL i) VNil SpillBatchSize io (file_list i) list_err open_err close_file
    less sort_Sort numCanaryRows batch_pos canary_pos no_io_error no_list_error no_open_error (file_list_perm i)
    (encodable i) sort_perm sort_sorted spillSize r l Hr Hl) as (m & L & f0 & Hm & HL & Hp & Hs).
  exists (merge_pack i m), L. split_and!; [| |done|done].
  - exists f0. intros f Hf. unfold sort_dep, spill_sorter. by rewrite Hm.
  - apply pack_Streams_as. destruct HL as [k Hk]. exists k. by apply streams_steady.
Qed.
End spill_sorter.

Section cogroup.
Context {S : Sorter}.
(** The number of key columns, the number of columns of each dependency, the
    comparison of keys in lessBuf, the size of a buffer, and a row of zeros. *)
Context (prefix : nat) (numOut : list nat) (lessBuf : row → row → bool) (bufferSize : nat) (zero : row).

Definition key_less (a b : row) : bool := lessBuf (take prefix a) (take prefix b).

Abbreviation FB := (FrameBuffer (R := anyReader row)).

Record cogroupReader := mkCogroupReader {
  cg_err : option error;
  cg_readers : list (anyReader row);
  cg_heap : option (list row * list FB);
}.

(** Sort each dependency and fill its buffer; those without data are skipped. *)
Fixpoint cogroup_init (fuel i : nat) (readers : list (anyReader row)) (frame : list row) (bufs : list FB) :
    outcome (list row * list FB * option error) :=
  match readers with
  | [] => Ret (frame, bufs, None)
  | r :: readers =>
      res ← sort_dep i fuel r;
      match res with
      | inr err => Ret (frame, bufs, Some err)
      | inl sorted =>
          '(frame, buf, err) ← Fill bufferSize fuel frame (mkFrameBuffer sorted 0 0 (i * bufferSize));
          match err with
          | Some EOF => cogroup_init fuel (Datatypes.S i) readers frame bufs
          | Some e => Ret (frame, bufs, Some e)
          | None => cogroup_init fuel (Datatypes.S i) readers frame (bufs ++ [buf])
          end
      end
  end.

(** [row[last].Index(i, 0)] for the key columns. *)
Definition first_row (rows : list (list row)) (last : nat) : outcome row :=
  match rows !! last with
  | Some (r :: _) => Ret r
  | _ => Panic "index out of range"
  end.

(** The loop that gathers the rows of one key. *)
Fixpoint gather_key (loop fuel : nat) (frame : list row) (bufs : list FB) (rows : list (list row)) (key : row)
    (last : option nat) : outcome (list row * list FB * list (list row) * row * option error) :=
  match loop with
  | O => NoFuel
  | Datatypes.S loop =>
      more ← match last, bufs with
             | None, _ => Ret true
             | Some _, [] => Ret false
             | Some last, buf :: _ => r ← first_row rows last; Ret (negb (key_less r (row_at zero frame (Pos buf))))
             end;
      if more : bool then
        match bufs with
        | [] => Panic "index out of range"
        | buf :: _ =>
            let idx := fb_Off buf / bufferSize in
            match rows !! idx with
            | None => Panic "index out of range"
            | Some g =>
                let rows := <[idx := g ++ [row_at zero frame (Pos buf)]]> rows in
                key ← match last with None => r ← first_row rows idx; Ret (take prefix r) | Some _ => Ret key end;
                '(_, frame, bufs, err) ← merge_step zero key_less bufferSize fuel frame bufs;
                match err with
                | Some e => Ret (frame, bufs, rows, key, Some e)
                | None => gather_key loop fuel frame bufs rows key (Some idx)
                end
            end
        end
      else Ret (frame, bufs, rows, key, None)
  end.

(** Column [k] of the rows gathered from a dependency, nil if there are none. *)
Definition column (rows : list row) (k : nat) : value :=
  match rows with
  | [] => VNil
  | _ => VSlice ((λ r, default VNil (r !! k)) <$> rows)
  end.

(** The row pushed into the output. *)
Definition output_row (key : row) (rows : list (list row)) : row :=
  key ++ concat (zip_with (λ n rows, column rows <$> seq prefix (n - prefix)) numOut rows).

(** [for n < max && len(c.heap.Buffers) > 0], with [k = max - n]. *)
Fixpoint cogroup_loop (k nreaders fuel : nat) (frame : list row) (bufs : list FB) (acc : list row) :
    outcome (list row * list row * list FB * option error) :=
  match k, bufs with
  | O, _ | _, [] => Ret (acc, frame, bufs, None)
  | Datatypes.S k, _ =>
      '(frame, bufs, rows, key, err) ← gather_key fuel fuel frame bufs (replicate nreaders []) [] None;
      match err with
      | Some e => Ret (acc, frame, bufs, Some e)
      | None => cogroup_loop k nreaders fuel frame bufs (acc ++ [output_row key rows])
      end
  end.

Definition cogroupReader_Read (fuel : nat) (c : cogroupReader) (max : nat) :
    outcome (cogroupReader * (list row * option error)) :=
  match cg_err c with
  | Some e => Ret (c, ([], Some e))
  | None =>
      '(frame, bufs, err) ←
        match cg_heap c with
        | Some (frame, bufs) => Ret (frame, bufs, None)
        | None => cogroup_init fuel 0 (cg_readers c) (replicate (length (cg_readers c) * bufferSize) zero) []
        end;
      match err with
      | Some e => Ret (mkCogroupReader (Some e) (cg_readers c) (Some (frame, bufs)), ([], Some e))
      | None =>
          let bufs := Init (HI := FrameBufferHeap zero key_less frame) bufs in
          if max =? 0 then Panic "bigslice.Cogroup: max == 0"
          else
            '(out, frame, bufs, err) ← cogroup_loop max (length (cg_readers c)) fuel frame bufs [];
            match err with
            | Some e => Ret (mkCogroupReader (Some e) (cg_readers c) (Some (frame, bufs)), (out, Some e))
            | None =>
                let err := if length out =? 0 then Some EOF else None in
                Ret (mkCogroupReader err (cg_readers c) (Some (frame, bufs)), (out, err))
            end
      end
  end.

#[local] Instance cogroupReader_reader : Reader row cogroupReader := cogroupReader_Read.

(** [cogroupSlice.Reader]. *)
Definition cogroupSlice_Reader (deps : list (anyReader row)) : cogroupReader := mkCogroupReader None deps None.

(** * Gathering *)

Context `{!StrictWeak lessBuf}.

#[local] Instance key_less_sw : StrictWeak key_less.
Proof.
  split; unfold key_less.
  - intros a b. apply sw_asym.
  - intros a b c. apply sw_neg_trans.
Qed.

#[local] Instance cg_buf_less_sw frame : StrictWeak (buf_less (R := anyReader row) zero key_less frame) :=
  buf_less_sw zero key_less frame.

(** Rows with the same key. *)
Definition same_key (a b : row) : Prop := key_less a b = false ∧ key_less b a = false.

Lemma same_key_less a b c : same_key a b → key_less b c = key_less a c.
Proof.
  intros [Hab Hba]. destruct (key_less b c) eqn:Hbc, (key_less a c) eqn:Hac; try done.
  - pose proof (sw_neg_trans (lt := key_less) _ _ _ Hac Hba). congruence.
  - pose proof (sw_neg_trans (lt := key_less) _ _ _ Hbc Hab). congruence.
Qed.

Lemma same_key_reflexive a : same_key a a.
Proof. split; apply (sw_irrefl key_less). Qed.

Abbreviation emits' := (emits zero key_less bufferSize (R := anyReader row)).
Abbreviation tag p := (p.1 / bufferSize).

(** Rows put where they come from. *)
Definition place (P : list (nat * row)) (rows : list (list row)) : list (list row) :=
  foldl (λ rows p, alter (λ g, g ++ [p.2]) (tag p) rows) rows P.

Definition in_range (rows : list (list row)) (L : list (nat * row)) : Prop := Forall (λ p, tag p < length rows) L.

Lemma insert_alter (rows : list (list row)) i g x :
  rows !! i = Some g → <[i := g ++ [x]]> rows = alter (λ g, g ++ [x]) i rows.
Proof.
  intros Hg. apply list_eq. intros j. destruct (decide (j = i)) as [->|].
  - rewrite list_lookup_alter_eq, Hg, list_lookup_insert_eq by (by eapply lookup_lt_Some). done.
  - by rewrite list_lookup_alter_ne, list_lookup_insert_ne by done.
Qed.

(** The groups hold rows of one key, that of [x0]. *)
Definition uniform (x0 : row) (rows : list (list row)) : Prop := Forall (Forall (same_key x0)) rows.

Lemma uniform_alter x0 rows i x :
  uniform x0 rows → same_key x0 x → uniform x0 (alter (λ g, g ++ [x]) i rows).
Proof.
  unfold uniform. intros Hu Hx. rewrite Forall_lookup in Hu |- *. intros j g.
  destruct (decide (j = i)) as [->|]; [|rewrite list_lookup_alter_ne by done; apply Hu].
  rewrite list_lookup_alter_eq. destruct (rows !! i) as [g0|] eqn:Hg; [|done]. simpl. intros [= <-].
  apply Forall_app. split; [by eapply Hu|by constructor].
Qed.

Lemma first_row_alter rows i x :
  i < length rows → ∃ r, first_row (alter (λ g, g ++ [x]) i rows) i = Ret r ∧
    (rows !! i = Some [] → r = x).
Proof.
  intros [g Hg]%lookup_lt_is_Some_2. unfold first_row. rewrite list_lookup_alter_eq, Hg. simpl.
  destruct g as [|r g]; simpl; [by exists x|by exists r].
Qed.

Lemma first_row_uniform x0 rows i r : uniform x0 rows → first_row rows i = Ret r → same_key x0 r.
Proof.
  intros Hu. unfold first_row. destruct (rows !! i) as [[|r' g]|] eqn:Hg; [done| |done].
  intros [= <-]. unfold uniform in Hu. rewrite Forall_lookup in Hu. by specialize (Hu _ _ Hg) as [? _]%Forall_cons_iff.
Qed.

(** After the first row, the loop takes the rows of its key. *)
Lemma gather_key_more x0 L frame bufs rows key i r :
  emits' frame bufs L → sorted key_less (x0 :: L.*2) → in_range rows L →
  uniform x0 rows → first_row rows i = Ret r →
  ∃ P Q frame' bufs', L = P ++ Q ∧ Forall (λ p, same_key x0 p.2) P ∧ Forall (λ p, key_less x0 p.2 = true) Q ∧
    emits' frame' bufs' Q ∧
    ∃ f0, ∀ loop f, f0 ≤ loop → f0 ≤ f →
      gather_key loop f frame bufs rows key (Some i) = Ret (frame', bufs', place P rows, key, None).
Proof.
  revert frame bufs rows i r. induction L as [|[off x] L IH]; intros frame bufs rows i r HL Hs Hr Hu Hi.
  { simpl in HL. subst bufs. exists [], [], frame, []. split_and!; [done..|].
    exists 1. intros [|loop] f Hl Hf; [lia|]. done. }
  pose proof (first_row_uniform _ _ _ _ Hu Hi) as Hr0.
  destruct (key_less r x) eqn:Hrx.
  - exists [], ((off, x) :: L), frame, bufs. split_and!; [done|done| |done|].
    + rewrite (same_key_less _ _ _ Hr0) in Hrx. constructor; [done|].
      simpl in Hs. apply StronglySorted_inv in Hs as [[_ Hs]%StronglySorted_inv _].
      rewrite Forall_fmap in Hs. eapply Forall_impl; [|exact Hs]. intros [off' y] Hy. simpl in *.
      destruct (key_less x0 y) eqn:E; [done|]. unfold row_le in Hy.
      pose proof (sw_neg_trans (lt := key_less) _ _ _ Hy E). congruence.
    + exists 1. intros [|loop] f Hl Hf; [lia|]. destruct HL as (b & bufs0 & _ & _ & -> & _ & Hx & _).
      cbn [gather_key]. rewrite Hi. cbn [mbind outcome_bind]. by rewrite Hx, Hrx.
  - destruct HL as (b & bufs0 & frame1 & bufs1 & -> & <- & Hx & _ & [f1 Hst] & HL).
    apply Forall_cons_iff in Hr as [Hrb Hr]. simpl in Hrb.
    assert (same_key x0 x) as Hx0.
    { split; [by rewrite <-(same_key_less _ _ _ Hr0)|].
      simpl in Hs. apply StronglySorted_inv in Hs as [_ [Hx0 _]%Forall_cons_iff]. done. }
    destruct (first_row_alter rows (fb_Off b / bufferSize) x Hrb) as (r' & Hr' & _).
    destruct (IH frame1 bufs1 (alter (λ g, g ++ [x]) (fb_Off b / bufferSize) rows) (fb_Off b / bufferSize) r')
      as (P & Q & frame' & bufs' & -> & HP & HQ & HeQ & f0 & Hg); [done| |by unfold in_range; rewrite length_alter
      |by apply uniform_alter|done|].
    { simpl in Hs. apply StronglySorted_inv in Hs as [[Hs _]%StronglySorted_inv [_ Hx1]%Forall_cons_iff]. by constructor. }
    exists ((fb_Off b, x) :: P), Q, frame', bufs'. split_and!; [done|by constructor|done|done|].
    exists (Datatypes.S (f0 `max` f1)). intros [|loop] f Hl Hf; [lia|].
    cbn [gather_key]. rewrite Hi. cbn [mbind outcome_bind]. rewrite Hx, Hrx. cbn [negb].
    destruct (lookup_lt_is_Some_2 rows (fb_Off b / bufferSize) Hrb) as [g Hgr]. rewrite Hgr.
    cbn [mbind outcome_bind]. rewrite Hst by lia. cbn [mbind outcome_bind].
    rewrite (insert_alter _ _ _ _ Hgr), Hg by lia. done.
Qed.

(** The loop gathers all rows with the least key. *)
Lemma gather_key_spec n L frame bufs off x :
  emits' frame bufs ((off, x) :: L) → sorted key_less (x :: L.*2) →
  in_range (replicate n []) ((off, x) :: L) →
  ∃ P Q frame' bufs', L = P ++ Q ∧ Forall (λ p, same_key x p.2) P ∧ Forall (λ p, key_less x p.2 = true) Q ∧
    emits' frame' bufs' Q ∧
    (λ f, gather_key f f frame bufs (replicate n []) [] None) ⇓
      (frame', bufs', place ((off, x) :: P) (replicate n []), take prefix x, None).
Proof.
  intros (b & bufs0 & frame1 & bufs1 & -> & <- & Hx & _ & [f1 Hst] & HL) Hs [Hrb Hr]%Forall_cons_iff.
  simpl in Hrb. set (idx := fb_Off b / bufferSize) in *.
  destruct (first_row_alter (replicate n []) idx x Hrb) as (r' & Hr' & Hrx).
  rewrite lookup_replicate_2 in Hrx by (by rewrite length_replicate in Hrb). specialize (Hrx eq_refl). subst r'.
  destruct (gather_key_more x L frame1 bufs1 (alter (λ g, g ++ [x]) idx (replicate n [])) (take prefix x) idx x)
    as (P & Q & frame' & bufs' & -> & HP & HQ & HeQ & f0 & Hg); [done|done|by unfold in_range; rewrite length_alter| |done|].
  { apply uniform_alter; [|apply same_key_reflexive]. by apply Forall_replicate. }
  exists P, Q, frame', bufs'. split_and!; [done..|].
  exists (Datatypes.S (f0 `max` f1)). intros [|f] Hf; [lia|].
  cbn [gather_key mbind outcome_bind]. change (fb_Off b / bufferSize) with idx.
  rewrite lookup_replicate_2 by (by rewrite length_replicate in Hrb). rewrite Hx.
  rewrite (insert_alter _ _ [] x) by (apply lookup_replicate_2; by rewrite length_replicate in Hrb).
  rewrite Hr'. cbn [mbind outcome_bind]. rewrite Hst by lia. cbn [mbind outcome_bind]. rewrite Hg by lia. done.
Qed.

(** * Groups *)

(** A group of tagged rows, in the order of the dependencies, with its key. *)
Definition group_of (n : nat) (g : list (nat * row)) : row * list (list row) :=
  (match g with [] => [] | p :: _ => take prefix p.2 end, place g (replicate n [])).

(** The groups that iterating [gather_key] produces. *)
Fixpoint gathers (n : nat) (frame : list row) (bufs : list FB) (gs : list (row * list (list row))) : Prop :=
  match gs with
  | [] => bufs = []
  | g :: gs => bufs ≠ [] ∧ is_heap (buf_less zero key_less frame) bufs ∧ ∃ frame' bufs',
      (λ f, gather_key f f frame bufs (replicate n []) [] None) ⇓ (frame', bufs', g.2, g.1, None) ∧
      gathers n frame' bufs' gs
  end.

(** Groups of one key each, in increasing order. *)
Definition grouped (gs : list (list (nat * row))) : Prop :=
  Forall (λ g, g ≠ [] ∧ ∀ p q, p ∈ g → q ∈ g → same_key p.2 q.2) gs ∧
  StronglySorted (λ g g', ∀ p q, p ∈ g → q ∈ g' → key_less p.2 q.2 = true) gs.

Lemma emits_gathers n frame bufs L :
  emits' frame bufs L → sorted key_less L.*2 → in_range (replicate n []) L →
  ∃ gs, gathers n frame bufs (group_of n <$> gs) ∧ concat gs = L ∧ grouped gs.
Proof.
  remember (length L) as N eqn:HN. revert frame bufs L HN.
  induction (lt_wf N) as [N _ IH]. intros frame bufs L -> HL Hs Hr.
  destruct L as [|[off x] L]; [by exists []; repeat constructor|].
  destruct (gather_key_spec n L frame bufs off x) as (P & Q & frame' & bufs' & -> & HP & HQ & HeQ & Hg); [done..|].
  simpl in Hs. rewrite fmap_app in Hs. apply Forall_cons_iff in Hr as [Hr0 [HrP HrQ]%Forall_app].
  destruct (IH (length Q)) with frame' bufs' Q as (gs & Hgs & HcQ & Hgr1 & Hgr2); [|done|done| |done|].
  { simpl. rewrite length_app. lia. }
  { apply StronglySorted_inv in Hs as [Hs _]. by apply StronglySorted_app_1_r in Hs. }
  assert (∀ p, p ∈ (off, x) :: P → same_key x p.2) as Hsame.
  { intros p [->|Hp]%elem_of_cons; [apply same_key_reflexive|]. rewrite Forall_forall in HP. by apply HP, list_elem_of_In. }
  exists (((off, x) :: P) :: gs). split_and!; [|by simpl; rewrite HcQ|].
  - destruct HL as (b & bufs0 & ? & ? & -> & _ & _ & Hh & _). split_and!; [done|done|]. by exists frame', bufs'.
  - split.
    + constructor; [|done]. split; [done|]. intros p q Hp%Hsame Hq%Hsame.
      split; [by rewrite (same_key_less _ _ _ Hp); apply Hq|by rewrite (same_key_less _ _ _ Hq); apply Hp].
    + constructor; [done|]. rewrite Forall_forall. intros g Hg' p q Hp%Hsame Hq.
      rewrite (same_key_less _ _ _ Hp). rewrite Forall_forall in HQ. apply HQ. rewrite <-HcQ.
      apply in_concat. exists g. split; [done|]. by apply list_elem_of_In.
Qed.

Lemma gathers_loop k n frame bufs gs acc :
  gathers n frame bufs gs →
  ∃ frame' bufs', gathers n frame' bufs' (drop k gs) ∧
    (λ f, cogroup_loop k n f frame bufs acc) ⇓
      (acc ++ take k ((λ g, output_row g.1 g.2) <$> gs), frame', bufs', None).
Proof.
  revert frame bufs gs acc. induction k as [|k IH]; intros frame bufs gs acc Hgs.
  { exists frame, bufs. split; [done|]. apply yields_ret. intros. by rewrite app_nil_r. }
  destruct gs as [|g gs].
  { simpl in Hgs. subst. exists frame, []. split; [done|]. apply yields_ret. intros. by rewrite app_nil_r. }
  destruct Hgs as (Hne & _ & frame1 & bufs1 & [f0 Hg] & Hgs).
  destruct (IH frame1 bufs1 gs (acc ++ [output_row g.1 g.2]) Hgs) as (frame' & bufs' & Hgs' & f1 & Hlp).
  exists frame', bufs'. split; [done|]. exists (f0 `max` f1). intros f Hf.
  destruct bufs as [|b bufs]; [done|]. cbn [cogroup_loop]. rewrite Hg by lia. cbn [mbind outcome_bind].
  rewrite Hlp by lia. by rewrite <-(assoc_L (++)).
Qed.

(** The reader has, or makes on its first call, a heap that produces [gs]. *)
Definition cg_ready (c : cogroupReader) (gs : list (row * list (list row))) : Prop :=
  cg_err c = None ∧ ∃ frame bufs,
    gathers (length (cg_readers c)) frame (Init (HI := FrameBufferHeap zero key_less frame) bufs) gs ∧
    (λ f, match cg_heap c with
          | Some (frame, bufs) => Ret (frame, bufs, None)
          | None => cogroup_init f 0 (cg_readers c) (replicate (length (cg_readers c) * bufferSize) zero) []
          end) ⇓ (frame, bufs, None).

Lemma gathers_Init n frame bufs gs :
  gathers n frame bufs gs → Init (HI := FrameBufferHeap zero key_less frame) bufs = bufs.
Proof.
  destruct gs as [|g gs]; simpl; [by intros ->|]. intros (_ & Hh & _).
  apply (Init_heap (HL := FrameBufferHeap_laws zero key_less frame)). exact Hh.
Qed.

Lemma cg_ready_Read c gs n :
  cg_ready c gs → 0 < n →
  ∃ c', Reads c n c' (take n ((λ g, output_row g.1 g.2) <$> gs)) (if decide (gs = []) then Some EOF else None) ∧
    if decide (gs = []) then cg_err c' = Some EOF else cg_ready c' (drop n gs).
Proof.
  intros (He & frame & bufs & Hgs & [f0 Hinit]) Hn.
  destruct (gathers_loop n _ _ _ _ [] Hgs) as (frame' & bufs' & Hgs' & f1 & Hlp). simpl in Hlp.
  eexists. split.
  - exists (f0 `max` f1). intros f Hf. unfold Read, cogroupReader_reader, cogroupReader_Read.
    rewrite He, Hinit by lia. cbn [mbind outcome_bind]. destruct (Nat.eqb_spec n 0); [lia|].
    rewrite Hlp by lia. cbn [mbind outcome_bind].
    assert ((if length (take n ((λ g, output_row g.1 g.2) <$> gs)) =? 0 then Some EOF else None) =
      if decide (gs = []) then Some EOF else None) as ->; [|done].
    destruct n; [lia|]. by destruct gs.
  - destruct (decide (gs = [])); [done|]. split; [done|]. exists frame', bufs'. simpl. split.
    + by erewrite gathers_Init.
    + by apply yields_ret.
Qed.

Lemma cg_ready_streams c gs :
  cg_ready c gs → Streams_as strict c ((λ g, output_row g.1 g.2) <$> gs).
Proof.
  intros Hc. exists (Datatypes.S (length gs)). remember (length gs) as N eqn:HN. revert c gs HN Hc.
  induction (lt_wf N) as [N _ IH]. intros c gs -> Hc n Hn.
  destruct (cg_ready_Read c gs n Hc Hn) as (c' & HR & Hc').
  eexists c', _, _. split_and!; [exact HR|rewrite length_take; lia|].
  destruct (decide (gs = [])) as [->|Hne].
  - cbn [fmap list_fmap]. rewrite take_nil. split_and!; [done..|].
    intros _. exists (λ c, cg_err c = Some EOF). split; [done|]. intros c1 m Hc1 _. exists c1. split; [|done].
    apply yields_ret. intros f. unfold Read, cogroupReader_reader, cogroupReader_Read. by rewrite Hc1.
  - split; [by destruct gs, n; [done|done|lia|done]|].
    exists ((λ g, output_row g.1 g.2) <$> drop n gs). split; [by rewrite fmap_drop, take_drop|].
    apply streams_mono with (Datatypes.S (length (drop n gs))).
    { rewrite length_drop. destruct gs; [done|]. simpl. lia. }
    eapply IH; [|done|done]. rewrite length_drop. destruct gs; [done|]. simpl. lia.
Qed.

(** * Correctness *)

Lemma length_place P rows : length (place P rows) = length rows.
Proof. revert rows. induction P as [|p P IH]; intros rows; simpl; [done|]. by rewrite IH, length_alter. Qed.

(** The rows of one dependency. *)
Definition from (i : nat) (P : list (nat * row)) : list row := (filter (λ p, tag p = i) P).*2.

Lemma from_app i P Q : from i (P ++ Q) = from i P ++ from i Q.
Proof. unfold from. by rewrite list.filter_app, fmap_app. Qed.

#[local] Instance from_perm i : Proper ((≡ₚ) ==> (≡ₚ)) (from i).
Proof. intros P Q HPQ. unfold from. by rewrite HPQ. Qed.

Lemma place_lookup P rows i g : rows !! i = Some g → place P rows !! i = Some (g ++ from i P).
Proof.
  revert rows g. induction P as [|p P IH]; intros rows g Hg; simpl; [by rewrite app_nil_r|].
  unfold from. rewrite filter_cons. destruct (decide (tag p = i)) as [<-|Hne].
  - rewrite (IH _ (g ++ [p.2])) by (by rewrite list_lookup_alter_eq, Hg). simpl. by rewrite <-(assoc_L (++)).
  - by rewrite (IH _ g) by (by rewrite list_lookup_alter_ne).
Qed.

Lemma group_lookup n g i : i < n → (group_of n g).2 !! i = Some (from i g).
Proof. intros Hi. by apply (place_lookup g (replicate n []) i []), lookup_replicate_2. Qed.

Lemma group_elem n g r : in_range (replicate n []) g → r ∈ concat (group_of n g).2 ↔ r ∈ g.*2.
Proof.
  intros Hr. rewrite (list_elem_of_In (concat _) r), in_concat. split.
  - intros (l & Hl & Hin). apply list_elem_of_In, list_elem_of_lookup in Hl as [i Hi].
    assert (i < n).
    { apply lookup_lt_Some in Hi. cbn in Hi. by rewrite length_place, length_replicate in Hi. }
    rewrite group_lookup in Hi by done. injection Hi as <-. apply list_elem_of_In in Hin. unfold from in Hin.
    apply list_elem_of_fmap in Hin as (p & -> & [_ Hp]%list_elem_of_filter). by apply list_elem_of_fmap_2.
  - intros (p & -> & Hp)%list_elem_of_fmap. unfold in_range in Hr. rewrite Forall_forall in Hr.
    pose proof (Hr p (proj1 (list_elem_of_In _ _) Hp)) as Htag. rewrite length_replicate in Htag.
    exists (from (tag p) g). split; [|apply list_elem_of_In, list_elem_of_fmap_2, list_elem_of_filter; done].
    apply list_elem_of_In, list_elem_of_lookup. exists (tag p). by apply group_lookup.
Qed.

(** What the reader of a cogroup promises: one output row per key, in increasing
    order of keys, whose columns hold, for each dependency, exactly the rows with
    that key. *)
Definition cogrouped (ls : list (list row)) (out : list row) : Prop :=
  ∃ gs : list (row * list (list row)),
    out = (λ g, output_row g.1 g.2) <$> gs ∧
    Forall (λ g, length g.2 = length ls ∧ (∃ r, r ∈ concat g.2 ∧ g.1 = take prefix r) ∧
      ∀ a b, a ∈ concat g.2 → b ∈ concat g.2 → same_key a b) gs ∧
    StronglySorted (λ g g', ∀ a b, a ∈ concat g.2 → b ∈ concat g'.2 → key_less a b = true) gs ∧
    ∀ i l, ls !! i = Some l → concat ((λ g, default [] (g.2 !! i)) <$> gs) ≡ₚ l.

Lemma groups_cogrouped gs ls :
  grouped gs → Forall (in_range (replicate (length ls) [])) gs →
  (∀ i l, ls !! i = Some l → from i (concat gs) ≡ₚ l) →
  cogrouped ls ((λ g, output_row g.1 g.2) <$> (group_of (length ls) <$> gs)).
Proof.
  intros [Hg Hs] Hr Hls. exists (group_of (length ls) <$> gs). split_and!; [done| | |].
  - rewrite Forall_fmap. rewrite Forall_forall in Hg, Hr. rewrite Forall_forall. intros g Hin.
    specialize (Hg g Hin) as [Hne Hsame]. specialize (Hr g Hin). cbn [compose]. split_and!.
    + cbn. by rewrite length_place, length_replicate.
    + destruct g as [|p g]; [done|]. exists p.2. split; [|done]. apply group_elem; [done|]. by left.
    + intros a b (p & -> & Hp)%group_elem%list_elem_of_fmap (q & -> & Hq)%group_elem%list_elem_of_fmap; [|done..].
      by apply Hsame.
  - clear Hg Hls. induction Hs as [|g gs Hs IH Hall]; simpl; [constructor|]. apply Forall_cons_iff in Hr as [Hrg Hr].
    constructor; [by apply IH|]. rewrite Forall_fmap. rewrite Forall_forall in Hall, Hr |- *. intros g' Hin.
    cbn [compose]. intros a b (p & -> & Hp)%group_elem%list_elem_of_fmap (q & -> & Hq)%group_elem%list_elem_of_fmap;
      [|by apply Hr|done]. by eapply Hall.
  - intros i l Hl. rewrite <-(Hls i l Hl). apply lookup_lt_Some in Hl. clear -Hl.
    induction gs as [|g gs IH]; [done|]. cbn [fmap list_fmap concat]. rewrite from_app, group_lookup by done. simpl.
    by rewrite IH.
Qed.

(** The streams of the buffers, by the dependency they belong to. *)
Lemma from_tagged i off (l : list row) :
  from i (pair off <$> l) = if decide (off / bufferSize = i) then l else [].
Proof.
  unfold from. destruct (decide (off / bufferSize = i)) as [E|E].
  - induction l as [|x l IH]; [done|]. cbn [fmap list_fmap]. rewrite filter_cons_True by done.
    cbn [fmap list_fmap snd]. f_equal. exact IH.
  - induction l as [|x l IH]; [done|]. cbn [fmap list_fmap]. rewrite filter_cons_False by done. exact IH.
Qed.

Lemma from_windows j k ls :
  0 < bufferSize →
  from j (tagged (windows bufferSize k ls)) = if decide (k ≤ j) then default [] (ls !! (j - k)) else [].
Proof.
  intros Hb. revert k. induction ls as [|l ls IH]; intros k; [by case_decide|].
  rewrite windows_cons. unfold tagged. rewrite bind_app, from_app.
  change (windows bufferSize (Datatypes.S k) ls ≫= _) with (tagged (windows bufferSize (Datatypes.S k) ls)).
  rewrite IH.
  assert (from j ((if decide (l = []) then [] else [(k * bufferSize, l)]) ≫= λ p, pair p.1 <$> p.2) =
    if decide (k = j) then l else []) as ->.
  { destruct (decide (l = [])) as [->|]; [by case_decide|].
    change (from j ((pair (k * bufferSize) <$> l) ++ []) = if decide (k = j) then l else []).
    by rewrite app_nil_r, from_tagged, Nat.div_mul by lia. }
  destruct (decide (k = j)) as [->|].
  - rewrite Nat.sub_diag, decide_False, decide_True, app_nil_r by lia. done.
  - repeat case_decide; try lia; [|done]. replace (j - k) with (Datatypes.S (j - Datatypes.S k)) by lia. done.
Qed.

(** Once its dependencies are sorted the reader starts like a merge of them. *)
Lemma cogroup_init_merge f i ds rs frame bufs :
  (∀ j d r, ds !! j = Some d → rs !! j = Some r → sort_dep (i + j) f d = Ret (inl r)) → length ds = length rs →
  cogroup_init f i ds frame bufs = NewMergeReader_loop bufferSize f i rs frame bufs.
Proof.
  revert i rs frame bufs. induction ds as [|d ds IH]; intros i [|r rs] frame bufs Hs Hlen; try done.
  cbn [cogroup_init NewMergeReader_loop].
  pose proof (Hs 0 d r eq_refl eq_refl) as Hs0. rewrite Nat.add_0_r in Hs0. rewrite Hs0. cbn [mbind outcome_bind].
  destruct (Fill _ _ _ _) as [[[fr b] [[]|]]| |]; try done; cbn [mbind outcome_bind].
  all: apply IH; [|by injection Hlen]; intros j d' r' Hd Hr; rewrite Nat.add_succ_l, <-Nat.add_succ_r; by apply Hs.
Qed.

Context (sortable : nat → list row → Prop) {SL : SorterLaws S sortable key_less}.

(** All dependencies are sorted, from some fuel on. *)
Lemma sort_deps i ds ls :
  Forall2 Streams ds ls → (∀ j l, ls !! j = Some l → sortable (i + j) l) →
  ∃ rs Ls f0, length ds = length rs ∧
    (∀ f j d r, f0 ≤ f → ds !! j = Some d → rs !! j = Some r → sort_dep (i + j) f d = Ret (inl r)) ∧
    Forall2 (Streams_as steady) rs Ls ∧ Forall2 (≡ₚ) Ls ls ∧ Forall (sorted key_less) Ls.
Proof.
  intros HF. revert i. induction HF as [|d l ds ls Hd HF IH]; intros i Hs; [by exists [], [], 0; repeat constructor|].
  destruct (IH (Datatypes.S i)) as (rs & Ls & f1 & Hlen & Hsort & Hst & Hp & Hso).
  { intros j l' Hl. rewrite Nat.add_succ_l, <-Nat.add_succ_r. by apply Hs. }
  destruct (sort_dep_spec i d l Hd) as (r & L & [f0 Hr] & HL & HpL & HsL).
  { rewrite <-(Nat.add_0_r i). by apply Hs. }
  exists (r :: rs), (L :: Ls), (f0 `max` f1). split_and!; [simpl; lia| | |by constructor|by constructor].
  - intros f [|j] d' r' Hf Hd' Hr'; simplify_eq/=.
    + rewrite Nat.add_0_r. apply Hr. lia.
    + rewrite Nat.add_succ_r, <-Nat.add_succ_l. apply Hsort; [lia|done|done].
  - by constructor.
Qed.

Lemma cogroup_ready ds ls :
  0 < bufferSize → Forall2 Streams ds ls → (∀ i l, ls !! i = Some l → sortable i l) →
  ∃ gs, cg_ready (cogroupSlice_Reader ds) (group_of (length ls) <$> gs) ∧ grouped gs ∧
    Forall (in_range (replicate (length ls) [])) gs ∧ ∀ i l, ls !! i = Some l → from i (concat gs) ≡ₚ l.
Proof.
  intros Hb HF Hs. pose proof (Forall2_length HF) as Hlen.
  destruct (sort_deps 0 ds ls HF Hs) as (rs & Ls & f0 & Hlr & Hsort & Hst & Hp & Hso).
  destruct (NewMergeReader_loop_spec zero bufferSize rs Ls 0 (replicate (length rs * bufferSize) zero) [] [])
    as (frame & bufs & f1 & Hlp & HB & Hap); [done|done|by rewrite length_replicate|constructor|done|done|].
  simpl in HB.
  destruct (Init_spec (HI := FrameBufferHeap zero key_less frame)
    (HL := FrameBufferHeap_laws zero key_less frame) bufs) as [Hh Hpi].
  destruct (merge_ok_perm zero key_less bufferSize frame bufs (Init (HI := FrameBufferHeap zero key_less frame) bufs)
    (windows bufferSize 0 Ls)) as (ps & Hm & Hps); [done..|by apply windows_sorted|].
  destruct (merge_emits zero key_less bufferSize frame _ ps Hb Hm) as (L & HL & HpL & HsL).
  assert (L ≡ₚ tagged (windows bufferSize 0 Ls)) as HpL' by (by rewrite HpL, <-Hps).
  assert (length Ls = length ls) as HlenL by (by eapply Forall2_length).
  assert (in_range (replicate (length ls) []) L) as Hr.
  { unfold in_range. rewrite length_replicate, Forall_forall. intros p Hin%list_elem_of_In.
    assert (p.2 ∈ from (tag p) L) as Hfrom by (by apply list_elem_of_fmap_2, list_elem_of_filter).
    rewrite HpL', from_windows, decide_True, Nat.sub_0_r in Hfrom by lia.
    destruct (Ls !! (tag p)) eqn:E; [apply lookup_lt_Some in E; lia|]. by apply not_elem_of_nil in Hfrom. }
  destruct (emits_gathers (length ls) frame _ L HL HsL Hr) as (gs & Hgs & Hc & Hgr).
  exists gs. split_and!; [|apply Hgr..| |].
  - split; [done|]. exists frame, bufs. cbn [cg_readers cg_heap cogroupSlice_Reader]. rewrite Hlen. split; [done|].
    exists (f0 `max` f1). intros f Hf. rewrite (cogroup_init_merge _ _ _ rs), <-Hlen, Hlr; [apply Hlp; lia| |done].
    intros j d r Hd Hr'. apply Hsort; [lia|done|done].
  - unfold in_range in *. rewrite <-Hc in Hr. by apply Forall_concat in Hr.
  - intros i l Hl. rewrite Hc, HpL', from_windows, decide_True, Nat.sub_0_r by lia.
    destruct (Forall2_lookup_r _ _ _ _ _ Hp Hl) as (L' & -> & Hpl). done.
Qed.
End cogroup.

(** The reader of a slice made by Cogroup, from the sorters of its dependencies and
    the comparison of its key columns. *)
Definition cogroup_Reader (sorter : list Slice → Sorter) (lessBuf : list gotype → row → row → bool)
    (bufferSize : nat) (zero : row) (s : Slice) (shard : Z) (deps : list (anyReader row)) : outcome (anyReader row) :=
  match s with
  | cogroupSlice _ _ slices out prefix _ =>
      let p := Z.to_nat prefix in
      Ret (pack (I := @cogroupReader_reader (sorter slices) p (Z.to_nat ∘ Types.NumOut ∘ typ_of <$> slices)
             (lessBuf (take p out)) bufferSize zero) (cogroupSlice_Reader deps))
  | _ => Panic "not a cogroup"
  end.

(** C27. The reader of a cogroup, given readers of its dependencies, sorts and merges
    them and streams one row per key in increasing order; the columns of the row
    hold, dependency by dependency, exactly the values of the rows with that key,
    and nil where a dependency has none. *)
Theorem Cogroup_correct has_method iter chunk sortio_Reduce sorter lessBuf bufferSize zero sortable
    p name slices types prefix numShard typ shard (deps : list (anyReader row)) (ls : list (list row)) :
  let keys := take (Z.to_nat prefix) types in
  StrictWeak (lessBuf keys) →
  SorterLaws (sorter slices) sortable (key_less (Z.to_nat prefix) (lessBuf keys)) →
  0 < bufferSize → Forall2 Streams deps ls → (∀ i l, ls !! i = Some l → sortable i l) →
  ∃ r out,
    Slice_Reader has_method iter chunk sortio_Reduce (cogroup_Reader sorter lessBuf bufferSize zero) typ
      (cogroupSlice p name slices types prefix numShard) shard deps = Ret r ∧
    Streams_as strict r out ∧
    cogrouped (Z.to_nat prefix) (Z.to_nat ∘ Types.NumOut ∘ typ_of <$> slices) (lessBuf keys) ls out.
Proof.
  intros keys HSW HSL Hb HF Hs.
  destruct (cogroup_ready (SL := HSL) (Z.to_nat prefix) (lessBuf keys) bufferSize zero sortable deps ls Hb HF Hs)
    as (gs & Hrd & Hgr & Hr & Hls).
  eexists _, _. split; [reflexivity|]. split; [by apply pack_Streams_as, cg_ready_streams|]. by eapply groups_cogrouped.
Qed.
