(* ===== verification/Topn.v ===== *)
(** The indices of the largest counts (src/exec/topn.go): a heap of the counts kept
    so far, the least at its root. *)
From S2P Require Import Prelude Types Heap.

Record topIndex := mkTopIndex { ti_Index : Z; ti_Count : Z }.

Abbreviation topHeap := (list topIndex).

Definition topHeap_Less (q : topHeap) (i j : nat) : bool :=
  match q !! i, q !! j with
  | Some a, Some b => (ti_Count a <? ti_Count b)%Z
  | _, _ => false
  end.

Definition topHeap_Pop (q : topHeap) : outcome (topIndex * topHeap) :=
  match list.last q with
  | Some x => Ret (x, take (length q - 1) q)
  | None => Panic "index out of range"
  end.

#[local] Instance topHeap_interface : HeapInterface topHeap topIndex := {|
  hlen := length;
  hless := topHeap_Less;
  hswap i j q := list_swap i j q;
  hpush x q := q ++ [x];
  hpop := topHeap_Pop;
|}.

(** The loop over the counts. *)
Fixpoint topn_loop (n : Z) (i : nat) (counts : list Z) (q : topHeap) : outcome topHeap :=
  match counts with
  | [] => Ret q
  | count :: counts =>
      if (Z.of_nat (length q) <? n)%Z then topn_loop n (S i) counts (Push (mkTopIndex (Z.of_nat i) count) q)
      else
        top ← index q 0;
        if (ti_Count top <? count)%Z then
          '(_, q) ← Pop q;
          topn_loop n (S i) counts (Push (mkTopIndex (Z.of_nat i) count) q)
        else topn_loop n (S i) counts q
  end.

(** [for i := range indices { indices[i] = q[i].Index }]. *)
Fixpoint topn_indices (k : nat) (q : topHeap) (i : nat) : outcome (list Z) :=
  match k with
  | O => Ret []
  | S k => x ← index q (Z.of_nat i); rest ← topn_indices k q (S i); Ret (ti_Index x :: rest)
  end.

Definition topn (counts : list Z) (n : Z) : outcome (list Z) :=
  if (n =? 0)%Z then Panic "topn: n=0"
  else
    let m := Z.of_nat (length counts) in
    let n := if (m <? n)%Z then m else n in
    q ← topn_loop n 0 counts [];
    if (n <? 0)%Z then Panic "makeslice: len out of range"
    else topn_indices (Z.to_nat n) q 0.

(** * Correctness *)

Definition count_lt (a b : topIndex) : bool := (ti_Count a <? ti_Count b)%Z.

#[local] Instance count_lt_sw : StrictWeak count_lt.
Proof. split; intros *; unfold count_lt; rewrite ?Z.ltb_lt, ?Z.ltb_ge; lia. Qed.

#[local] Instance topHeap_laws : HeapLaws topHeap topIndex topIndex count_lt.
Proof.
  refine {| items := id; view x _ := x |}; simpl.
  - done.
  - unfold topHeap_Less. by intros h i j a b -> ->.
  - done.
  - done.
  - intros h l a ->. exists a, l. unfold topHeap_Pop. rewrite last_snoc.
    rewrite length_app, Nat.add_sub, take_app_length. done.
Defined.

Definition indexed (counts : list Z) : list topIndex := imap (λ i c, mkTopIndex (Z.of_nat i) c) counts.

Lemma indexed_snoc counts c : indexed (counts ++ [c]) = indexed counts ++ [mkTopIndex (Z.of_nat (length counts)) c].
Proof. unfold indexed. rewrite imap_app. simpl. by rewrite Nat.add_0_r. Qed.

(** [q] holds the [n] largest of the counts seen, [rest] the others. *)
Definition holds_top (n : nat) (seen : list Z) (q rest : list topIndex) : Prop :=
  is_heap count_lt q ∧ q ++ rest ≡ₚ indexed seen ∧ length q = n `min` length seen ∧
  ∀ a b, a ∈ q → b ∈ rest → (ti_Count b <= ti_Count a)%Z.

Lemma topn_loop_spec n seen counts q rest :
  0 < n → holds_top n seen q rest →
  ∃ q' rest', topn_loop (Z.of_nat n) (length seen) counts q = Ret q' ∧ holds_top n (seen ++ counts) q' rest'.
Proof.
  intros Hn. revert seen q rest. induction counts as [|c counts IH]; intros seen q rest Hh.
  { exists q, rest. by rewrite app_nil_r. }
  destruct Hh as (Hh & Hp & Hlen & Hle). cbn [topn_loop]. set (x := mkTopIndex (Z.of_nat (length seen)) c).
  assert (∀ q1 rest1, holds_top n (seen ++ [c]) q1 rest1 → ∃ q' rest',
    topn_loop (Z.of_nat n) (S (length seen)) counts q1 = Ret q' ∧ holds_top n (seen ++ c :: counts) q' rest') as Hgo.
  { intros q1 rest1 H1. destruct (IH (seen ++ [c]) q1 rest1 H1) as (q' & rest' & Hl & H').
    rewrite length_app, Nat.add_1_r, <-(assoc_L (++)) in *. eauto. }
  pose proof (Permutation_length Hp) as Hlp. rewrite length_app in Hlp.
  unfold indexed in Hlp. rewrite length_imap in Hlp.
  destruct (Z.ltb_spec (Z.of_nat (length q)) (Z.of_nat n)) as [Hlt|Hge].
  - destruct (Push_spec (HL := topHeap_laws) x q Hh) as [Hh' Hp']. simpl in Hp'. assert (rest = []) as ->.
    { destruct rest; [done|]. simpl in Hlp. lia. }
    apply (Hgo _ []). split_and!; [done| | |by intros a b _ ?%not_elem_of_nil].
    + rewrite app_nil_r in Hp |- *. change (Push x q ≡ₚ indexed (seen ++ [c])).
      rewrite indexed_snoc, <-Hp. rewrite Hp'. apply Permutation_cons_append.
    + apply Permutation_length in Hp'. rewrite length_app. simpl in *. unfold id in *. lia.
  - destruct q as [|q0 q]; [simpl in *; lia|]. change (index (q0 :: q) 0) with (Ret q0). cbn [mbind outcome_bind].
    assert (∀ a, a ∈ q0 :: q → (ti_Count q0 <= ti_Count a)%Z) as Hmin.
    { intros a [i Hi]%list_elem_of_lookup. pose proof (is_heap_root count_lt (q0 :: q) q0 Hh eq_refl i a Hi) as Hr.
      unfold count_lt in Hr. apply Z.ltb_ge in Hr. done. }
    destruct (Z.ltb_spec (ti_Count q0) c) as [Hc|Hc].
    + destruct (Pop_spec (HL := topHeap_laws) (q0 :: q) Hh) as (y & q1 & -> & Hy & Hpq & Hh1 & _); [done|]. simpl in Hy.
      injection Hy as <-. cbn [mbind outcome_bind].
      destruct (Push_spec (HL := topHeap_laws) x q1 Hh1) as [Hh2 Hp2]. simpl in Hp2, Hpq.
      change (Push x q1 ≡ₚ x :: q1) in Hp2. change (q0 :: q ≡ₚ q0 :: q1) in Hpq.
      apply (Hgo _ (q0 :: rest)). split_and!; [done| | |].
      * rewrite indexed_snoc, <-Hp, Hp2, Hpq. fold x.
        rewrite <-(Permutation_cons_append _ x), (Permutation_middle q1 rest q0). done.
      * apply Permutation_length in Hp2, Hpq. rewrite length_app. simpl in *. lia.
      * intros a b Ha Hb. rewrite Hp2 in Ha. apply elem_of_cons in Ha as [->|Ha]; apply elem_of_cons in Hb as [->|Hb].
        -- simpl. lia.
        -- specialize (Hle q0 b ltac:(by left) Hb). simpl. lia.
        -- apply Hmin. rewrite Hpq. by right.
        -- apply Hle; [|done]. rewrite Hpq. by right.
    + apply (Hgo _ (x :: rest)). split_and!; [done| | |].
      * rewrite indexed_snoc, <-Hp. fold x.
        rewrite <-(Permutation_cons_append _ x), (Permutation_middle (q0 :: q) rest x). done.
      * rewrite length_app. simpl in *. lia.
      * intros a b Ha [->|Hb]%elem_of_cons; [|by apply Hle]. specialize (Hmin a Ha). simpl. lia.
Qed.

Lemma indexed_elem counts x :
  x ∈ indexed counts ↔ ∃ i c, x = mkTopIndex (Z.of_nat i) c ∧ counts !! i = Some c.
Proof.
  unfold indexed. rewrite list_elem_of_lookup. split.
  - intros [i Hi]. rewrite list_lookup_imap in Hi. apply fmap_Some in Hi as (c & Hc & ->). eauto.
  - intros (i & c & -> & Hc). exists i. by rewrite list_lookup_imap, Hc.
Qed.

Definition position (x : topIndex) : nat := Z.to_nat (ti_Index x).

Lemma indexed_positions counts : position <$> indexed counts = seq 0 (length counts).
Proof.
  apply list_eq. intros i. unfold indexed. rewrite list_lookup_fmap, list_lookup_imap.
  destruct (counts !! i) as [c|] eqn:Hc; simpl.
  - apply lookup_lt_Some in Hc. rewrite lookup_seq_lt by done. unfold position. simpl. f_equal. lia.
  - apply lookup_ge_None in Hc. by rewrite lookup_seq_ge.
Qed.

Lemma topn_indices_spec k q i :
  i + k ≤ length q → topn_indices k q i = Ret (ti_Index <$> take k (drop i q)).
Proof.
  revert i. induction k as [|k IH]; intros i Hi; [done|]. cbn [topn_indices].
  destruct (lookup_lt_is_Some_2 q i) as [x Hx]; [lia|]. rewrite index_lookup, Hx, (drop_S _ _ _ Hx).
  cbn [mbind outcome_bind]. rewrite IH by lia. done.
Qed.

(** topn returns the indices of the n largest counts, or of all counts if there
    are fewer: distinct positions, such that no count elsewhere exceeds one of
    them. *)
Theorem topn_correct (counts : list Z) (n : nat) :
  0 < n →
  ∃ positions, topn counts (Z.of_nat n) = Ret (Z.of_nat <$> positions) ∧ NoDup positions ∧ length positions = n `min` length counts ∧
    (∀ i, i ∈ positions → i < length counts) ∧
    ∀ i j a b, i ∈ positions → j ∉ positions → counts !! i = Some a → counts !! j = Some b → (b <= a)%Z.
Proof.
  intros Hn. unfold topn. destruct (Z.eqb_spec (Z.of_nat n) 0); [lia|].
  set (n' := n `min` length counts).
  assert ((if (Z.of_nat (length counts) <? Z.of_nat n)%Z then Z.of_nat (length counts) else Z.of_nat n) = Z.of_nat n') as ->.
  { destruct (Z.ltb_spec (Z.of_nat (length counts)) (Z.of_nat n)); lia. }
  destruct (decide (counts = [])) as [->|Hne].
  { exists []. subst n'. simpl. rewrite Nat.min_0_r. split_and!; [done|constructor|done|..].
    - by intros i ?%not_elem_of_nil.
    - by intros i j a b ?%not_elem_of_nil. }
  assert (0 < length counts) by (destruct counts; [done|simpl; lia]).
  destruct (topn_loop_spec n' [] counts [] []) as (q & rest & Hq0 & _ & Hp & Hlen & Hle); [lia| |].
  { split_and!; [by intros j ?; simpl in *; lia|done|simpl; lia|]. by intros a b ?%not_elem_of_nil. }
  simpl in *. rewrite Hq0. cbn [mbind outcome_bind]. rewrite (proj2 (Z.ltb_ge _ _)), Nat2Z.id by lia.
  rewrite topn_indices_spec by lia. rewrite drop_0, take_ge by lia.
  assert (∀ x, x ∈ q → ∃ i c, x = mkTopIndex (Z.of_nat i) c ∧ counts !! i = Some c) as Hq.
  { intros x Hx. apply indexed_elem. rewrite <-Hp. apply elem_of_app. by left. }
  exists (position <$> q). split_and!.
  - f_equal. rewrite <-list_fmap_compose. apply list_fmap_ext. intros k x Hx%list_elem_of_lookup_2.
    destruct (Hq x Hx) as (i & c & -> & _). unfold position. simpl. lia.
  - apply (list.NoDup_app (position <$> q) (position <$> rest)). rewrite <-fmap_app, Hp, indexed_positions.
    apply NoDup_seq.
  - rewrite length_fmap. lia.
  - intros i (x & -> & Hx)%list_elem_of_fmap. destruct (Hq x Hx) as (i & c & -> & Hc%lookup_lt_Some).
    unfold position. simpl. lia.
  - intros i j a b (x & -> & Hx)%list_elem_of_fmap Hj Ha Hb.
    destruct (Hq x Hx) as (i & c & -> & Hc). unfold position in Ha. simpl in Ha. rewrite Nat2Z.id in Ha.
    assert (mkTopIndex (Z.of_nat j) b ∈ rest) as Hr.
    { assert (mkTopIndex (Z.of_nat j) b ∈ q ++ rest) as Hin by (rewrite Hp; apply indexed_elem; eauto).
      apply elem_of_app in Hin as [Hin|]; [|done]. destruct Hj.
      apply list_elem_of_fmap. eexists. split; [|exact Hin]. unfold position. simpl. lia. }
    specialize (Hle _ _ Hx Hr). simpl in Hle. congruence || (simplify_eq; lia).
Qed.
