(* ===== verification/Stats.v ===== *)
(** Collections of counters (src/stats/stats.go).

    A counter is an address in the list of all counters, so that a task and its
    machine can share it; a nil counter is [None].  A Map holds counters by name, a
    snapshot holds values by name. *)
From S2P Require Import Prelude.

(** Snapshots; a nil map reads as an empty one. *)
Abbreviation Values := (gmap string Z).

Definition Values_Copy (v : Values) : Values := map_fold (λ k x w, <[k := x]> w) ∅ v.

Fixpoint Join (sep : string) (l : list string) : string :=
  match l with
  | [] => ""
  | [x] => x
  | x :: l => x +:+ sep +:+ Join sep l
  end.

#[local] Instance leb_dec : RelDecision (λ a b, is_true (String.leb a b)).
Proof. intros a b. unfold is_true. apply _. Defined.

Definition Values_String (v : Values) : string :=
  let keys := merge_sort (λ a b, is_true (String.leb a b)) (map_to_list v).*1 in
  Join " " ((λ key, key +:+ ":" +:+ decimal (default 0%Z (v !! key))) <$> keys).

(** Counters by name. *)
Abbreviation StatsMap := (gmap string nat).
Abbreviation ints := (list Z).

Definition NewMap : StatsMap := ∅.

Definition Map_Int (name : string) (m : StatsMap) (h : ints) : StatsMap * ints * nat :=
  match m !! name with
  | Some v => (m, h, v)
  | None => (<[name := length h]> m, h ++ [0%Z], length h)
  end.

Definition Int_Add (v : option nat) (delta : Z) (h : ints) : ints :=
  match v with
  | None => h
  | Some v => alter (λ x, wrap64 (x + delta)) v h
  end.

Definition Int_Set (v : option nat) (val : Z) (h : ints) : ints :=
  match v with
  | None => h
  | Some v => <[v := val]> h
  end.

Definition Int_Get (v : option nat) (h : ints) : Z :=
  match v with
  | None => 0
  | Some v => default 0%Z (h !! v)
  end.

(** The loop of AddAll, in the order that the map is iterated in. *)
Fixpoint AddAll_loop (h : ints) (l : list (string * nat)) (vals : Values) : Values :=
  match l with
  | [] => vals
  | (k, v) :: l => AddAll_loop h l (<[k := wrap64 (default 0%Z (vals !! k) + Int_Get (Some v) h)]> vals)
  end.

Definition AddAll (iter : list (string * nat) → list (string * nat)) (m : StatsMap) (h : ints)
    (vals : Values) : Values :=
  AddAll_loop h (iter (map_to_list m)) vals.

(** * What they do *)

Lemma Values_Copy_eq v : Values_Copy v = v.
Proof.
  unfold Values_Copy. apply (map_fold_weak_ind (λ w m, w = m)); [done|]. by intros k x m w Hk <-.
Qed.

(** The counter of a name is the same one each time, and a new one starts at 0. *)
Lemma Map_Int_spec name m h m' h' v :
  (∀ n a, m !! n = Some a → a < length h) →
  Map_Int name m h = (m', h', v) →
  m' !! name = Some v ∧ (∀ n, n ≠ name → m' !! n = m !! n) ∧
  (∀ n a, m' !! n = Some a → a < length h') ∧ (∀ a, a < length h → h' !! a = h !! a) ∧
  (m !! name = None → Int_Get (Some v) h' = 0%Z ∧ length h ≤ v).
Proof.
  intros Hm. unfold Map_Int. destruct (m !! name) as [a|] eqn:Hn; intros [= <- <- <-].
  { by split_and!. }
  split_and!.
  - by rewrite lookup_insert_eq.
  - intros n Hne. by rewrite lookup_insert_ne.
  - intros n a. rewrite length_app. simpl. rewrite lookup_insert_Some. intros [[_ <-]|[_ Ha]]; [lia|].
    specialize (Hm n a Ha). lia.
  - intros a Ha. by rewrite lookup_app_l.
  - intros _. simpl. rewrite lookup_app_r, Nat.sub_diag by lia. done.
Qed.

Lemma AddAll_loop_lookup h l vals k :
  NoDup l.*1 →
  AddAll_loop h l vals !! k =
    match (list_to_map l : StatsMap) !! k with
    | Some v => Some (wrap64 (default 0%Z (vals !! k) + Int_Get (Some v) h))
    | None => vals !! k
    end.
Proof.
  revert vals. induction l as [|[k' v] l IH]; intros vals Hl; [done|].
  apply list.NoDup_cons in Hl as [Hk Hl]. cbn [AddAll_loop]. rewrite IH by done. simpl.
  destruct (decide (k = k')) as [->|Hne].
  - rewrite lookup_insert_eq, not_elem_of_list_to_map_1 by done. by rewrite lookup_insert_eq.
  - by rewrite !(lookup_insert_ne _ k') by done.
Qed.

(** A snapshot gets the sum of what it has and the counters, whatever the order
    of iteration. *)
Lemma AddAll_lookup iter m h vals k :
  (∀ l, iter l ≡ₚ l) →
  AddAll iter m h vals !! k =
    match m !! k with
    | Some v => Some (wrap64 (default 0%Z (vals !! k) + Int_Get (Some v) h))
    | None => vals !! k
    end.
Proof.
  intros Hi. unfold AddAll. rewrite AddAll_loop_lookup.
  - rewrite (list_to_map_proper (iter (map_to_list m)) (map_to_list m)), list_to_map_to_list; [done| |done].
    rewrite Hi. apply NoDup_fst_map_to_list.
  - rewrite Hi. apply NoDup_fst_map_to_list.
Qed.
