(* ===== verification/WorkerStats.v ===== *)
(** The statistics of a worker (src/exec/bigmachine.go): the counters of a run of a task and
    of the machine, the readers and writers that count, and the calls that report them.

    Counters are those of Stats.v.  Times are given by the durations of the operations. *)
From S2P Require Import Prelude SliceIO Stats.

(** * The counters of a run *)

(** Those for records read are nil for tasks without dependencies. *)
Record runStats := mkRunStats {
  rs_taskTotalRecordsIn : option nat;
  rs_taskRecordsIn : option nat;
  rs_taskRecordsOut : nat;
  rs_taskReadDuration : nat;
  rs_taskWriteDuration : nat;
  rs_totalRecordsIn : option nat;
  rs_recordsIn : option nat;
  rs_recordsOut : nat;
}.

(** The beginning of Run: counters are looked up in the statistics of the task and of the
    worker, and those of records of the task start at 0. *)
Definition begin_stats (has_deps : bool) (taskStats wstats : StatsMap) (h : ints) : StatsMap * StatsMap * ints * runStats :=
  let '(taskStats, h, taskRecordsOut) := Map_Int "write" taskStats h in
  let '(taskStats, h, taskReadDuration) := Map_Int "readDuration" taskStats h in
  let '(taskStats, h, taskWriteDuration) := Map_Int "writeDuration" taskStats h in
  let '(wstats, h, recordsOut) := Map_Int "write" wstats h in
  let h := Int_Set (Some taskRecordsOut) 0 h in
  if has_deps then
    let '(taskStats, h, taskTotalRecordsIn) := Map_Int "inrecords" taskStats h in
    let h := Int_Set (Some taskTotalRecordsIn) 0 h in
    let '(taskStats, h, taskRecordsIn) := Map_Int "read" taskStats h in
    let h := Int_Set (Some taskRecordsIn) 0 h in
    let '(wstats, h, totalRecordsIn) := Map_Int "inrecords" wstats h in
    let '(wstats, h, recordsIn) := Map_Int "read" wstats h in
    (taskStats, wstats, h, mkRunStats (Some taskTotalRecordsIn) (Some taskRecordsIn) taskRecordsOut taskReadDuration taskWriteDuration
       (Some totalRecordsIn) (Some recordsIn) recordsOut)
  else (taskStats, wstats, h, mkRunStats None None taskRecordsOut taskReadDuration taskWriteDuration None None recordsOut).

(** The replies of TaskStats and Stats, and the values of the reply of Run; the counters
    are read when they are asked for. *)
Definition TaskStats (iter : list (string * nat) → list (string * nat)) (taskStats : StatsMap) (h : ints) : Values := AddAll iter taskStats h ∅.
Definition worker_Stats (iter : list (string * nat) → list (string * nat)) (wstats : StatsMap) (h : ints) : Values := AddAll iter wstats h ∅.

(** * Counting readers and writers *)

Section counting.
Context {row R : Type} `{Reader row R}.

Definition add_all (vs : list (option nat)) (n : Z) (h : ints) : ints := foldl (λ h v, Int_Add v n h) h vs.

(** [sr_elapsed] are the durations of the reads to come. *)
Record statsReader := mkStatsReader {
  sr_reader : R;
  sr_numRead : list (option nat);
  sr_readDurationNs : option nat;
  sr_ints : ints;
  sr_elapsed : list Z;
}.

Definition statsReader_Read (fuel : nat) (s : statsReader) (len : nat) : outcome (statsReader * (list row * option error)) :=
  '(r, (rows, err)) ← Read fuel (sr_reader s) len;
  let h := Int_Add (sr_readDurationNs s) (default 0%Z (head (sr_elapsed s))) (sr_ints s) in
  let h := add_all (sr_numRead s) (Z.of_nat (length rows)) h in
  Ret (mkStatsReader r (sr_numRead s) (sr_readDurationNs s) h (tail (sr_elapsed s)), (rows, err)).

#[export] Instance statsReader_reader : Reader row statsReader := statsReader_Read.

(** statsWriter.Write, around a write that takes [elapsed]. *)
Definition statsWriter_Write {W} (write : W → W * option error) (writeDurationNs : option nat) (elapsed : Z) (w : W) (h : ints) : W * ints * option error :=
  let '(w, err) := write w in (w, Int_Add writeDurationNs elapsed h, err).

(** * What is counted *)

Lemma Int_Add_get v n h a : a < length h → Int_Get (Some a) (Int_Add v n h) = if decide (v = Some a) then wrap64 (Int_Get (Some a) h + n) else Int_Get (Some a) h.
Proof.
  intros Ha. unfold Int_Add, Int_Get. destruct v as [v|]; [|by rewrite decide_False]. destruct (decide (Some v = Some a)) as [[= ->]|Hne].
  - rewrite list_lookup_alter_eq. destruct (lookup_lt_is_Some_2 h a Ha) as [x Hx]. by rewrite Hx.
  - rewrite list_lookup_alter_ne by congruence. done.
Qed.

Lemma Int_Add_length v n h : length (Int_Add v n h) = length h.
Proof. destruct v; [apply length_alter|done]. Qed.

Lemma add_all_length vs n h : length (add_all vs n h) = length h.
Proof. unfold add_all. revert h. induction vs as [|v vs IH]; intros h; [done|]. cbn [foldl]. by rewrite IH, Int_Add_length. Qed.

(** Each counter of a list is increased once. *)
Lemma add_all_get vs n h a :
  a < length h → NoDup vs → Int_Get (Some a) (add_all vs n h) = if decide (Some a ∈ vs) then wrap64 (Int_Get (Some a) h + n) else Int_Get (Some a) h.
Proof.
  intros Ha Hnd. unfold add_all. revert h Ha. induction Hnd as [|v vs Hv _ IH]; intros h Ha; [done|]. cbn [foldl]. rewrite IH by (by rewrite Int_Add_length).
  rewrite !Int_Add_get by done. destruct (decide (Some a ∈ vs)) as [Hin|Hnin].
  - rewrite (decide_True (P := Some a ∈ v :: vs)) by (by right). rewrite decide_False by congruence. done.
  - destruct (decide (v = Some a)) as [->|Hne]; [rewrite decide_True by left; done|]. rewrite decide_False; [done|]. intros [|]%elem_of_cons; congruence.
Qed.

(** Reads of lengths [ns]; the last one may be an error. *)
Fixpoint reads (fuel : nat) (ns : list nat) (s : statsReader) : outcome (statsReader * list row) :=
  match ns with
  | [] => Ret (s, [])
  | n :: ns =>
      '(s, (rows, err)) ← Read fuel s n;
      match err with
      | Some _ => Ret (s, rows)
      | None => '(s, rows') ← reads fuel ns s; Ret (s, rows ++ rows')
      end
  end.

(** A counter of records grows by the number of rows that were read. *)
Theorem statsReader_counts fuel ns s s' rows a :
  a < length (sr_ints s) → NoDup (sr_numRead s) → Some a ∈ sr_numRead s → sr_readDurationNs s ≠ Some a → (Int_Get (Some a) (sr_ints s) = wrap64 (Int_Get (Some a) (sr_ints s))) →
  reads fuel ns s = Ret (s', rows) → Int_Get (Some a) (sr_ints s') = wrap64 (Int_Get (Some a) (sr_ints s) + Z.of_nat (length rows)).
Proof.
  revert s rows. induction ns as [|n ns IH]; intros s rows Ha Hnd Hin Hd Hw; cbn [reads]; [intros [= <- <-]; cbn [length]; rewrite Z.add_0_r; exact Hw|].
  intros ([s1 [rows1 err]] & Hr & Hrest)%outcome_bind_Ret. unfold Read, statsReader_reader, statsReader_Read in Hr.
  apply outcome_bind_Ret in Hr as ([r [rows2 err2]] & _ & Hr). injection Hr as <- -> ->.
  assert (∀ h, length h = length (sr_ints s) → Int_Get (Some a) h = Int_Get (Some a) (sr_ints s) →
    Int_Get (Some a) (add_all (sr_numRead s) (Z.of_nat (length rows1)) h) = wrap64 (Int_Get (Some a) (sr_ints s) + Z.of_nat (length rows1))) as Hadd.
  { intros h Hl Hg. rewrite add_all_get by (done || lia). by rewrite decide_True, Hg. }
  specialize (Hadd (Int_Add (sr_readDurationNs s) (default 0%Z (head (sr_elapsed s))) (sr_ints s)) (Int_Add_length _ _ _)).
  rewrite Int_Add_get, decide_False in Hadd by done. specialize (Hadd eq_refl). destruct err as [e|]; [by injection Hrest as <- <-|].
  apply outcome_bind_Ret in Hrest as ([s2 rows2] & Hr2 & Heq). injection Heq as -> <-. eapply IH in Hr2; cbn [sr_ints sr_numRead sr_readDurationNs];
    [|by rewrite add_all_length, Int_Add_length|done|done|done|rewrite Hadd; symmetry; apply wrap64_id, wrap64_range].
  cbn [sr_ints] in Hr2. rewrite Hr2, Hadd, wrap64_add_l, length_app. f_equal. lia.
Qed.

(** Counting does not change what is read. *)
Theorem statsReader_streams st k r l numRead d h ts :
  streams st k r l → streams st k (mkStatsReader r numRead d h ts) l.
Proof.
  apply (streams_simulation (λ r s, sr_reader s = r)); [|done]. intros r1 s n r1' out oe <- (f0 & Hf). eexists. split.
  - exists f0. intros f Hle. unfold Read, statsReader_reader, statsReader_Read. rewrite (Hf f Hle). reflexivity.
  - done.
Qed.
End counting.

(** The counters of records are those of the last run of a task, the durations those of all
    of its runs on the worker. *)
Example durations_accumulate :
  let run m w h := let '(m, w, h, rs) := begin_stats true m w h in
    (m, w, Int_Add (Some (rs_taskReadDuration rs)) 7 (add_all [rs_taskRecordsIn rs; rs_recordsIn rs] 5 h)) in
  let '(m, w, h) := run ∅ ∅ [] in
  let '(m, w, h) := run m w h in
  TaskStats id m h !! "read" = Some 5%Z ∧ TaskStats id m h !! "readDuration" = Some 14%Z ∧ worker_Stats id w h !! "read" = Some 10%Z.
Proof. vm_compute. done. Qed.
