(* ===== verification/Command.v ===== *)
(** The command line of a session (src/exec/command.go): quoted so that a shell reads the
    arguments back. *)
From S2P Require Import Prelude Stats.

Definition squote : Ascii.ascii := Ascii.ascii_of_nat 39.
Definition backslash : Ascii.ascii := Ascii.ascii_of_nat 92.
Definition blank : Ascii.ascii := Ascii.ascii_of_nat 32.

(** strings.Replace of every quote. *)
Fixpoint replace_quotes (s : string) : string :=
  match s with
  | EmptyString => ""
  | String c s =>
      if decide (c = squote) then String squote (String backslash (String squote (String squote (replace_quotes s))))
      else String c (replace_quotes s)
  end.

Definition shellQuote (s : string) : string := String squote "" +:+ replace_quotes s +:+ String squote "".

Definition command (args : list string) : string := Join " " (shellQuote <$> args).

(** * Reading by a shell *)

(** The words of a line, by the rules of sh for single quotes, backslashes and blanks: within
    quotes every character stands for itself, a backslash outside of them quotes the next
    character, and blanks outside of them end a word.  [word] is the word so far, if one was
    begun. *)
Fixpoint sh_words (quoted : bool) (word : option string) (s : string) : option (list string) :=
  match s with
  | EmptyString => if quoted then None else Some (option_list word)
  | String c s =>
      if quoted then
        if decide (c = squote) then sh_words false word s
        else sh_words true (Some (default "" word +:+ String c "")) s
      else if decide (c = squote) then sh_words true (Some (default "" word)) s
      else if decide (c = backslash) then
        match s with
        | EmptyString => None
        | String d s => sh_words false (Some (default "" word +:+ String d "")) s
        end
      else if decide (c = blank) then (option_list word ++.) <$> sh_words false None s
      else sh_words false (Some (default "" word +:+ String c "")) s
  end.

(** Within the quotes the argument is added to the word. *)
Lemma sh_words_quoted s word rest :
  sh_words true (Some word) (replace_quotes s +:+ String squote rest) = sh_words false (Some (word +:+ s)) rest.
Proof.
  revert word. induction s as [|c s IH]; intros word; simpl.
  - by rewrite app_empty_string.
  - destruct (decide (c = squote)) as [->|Hne]; simpl.
    + rewrite IH. by rewrite app_assoc_string.
    + rewrite decide_False by done. rewrite IH. by rewrite app_assoc_string.
Qed.

Lemma sh_words_arg s rest : sh_words false None (shellQuote s +:+ rest) = sh_words false (Some s) rest.
Proof.
  unfold shellQuote. rewrite !app_assoc_string. simpl. apply (sh_words_quoted s "" rest).
Qed.

(** The command of a session, read by a shell, is the list of its arguments, whatever
    characters they have. *)
Theorem command_roundtrip (args : list string) : sh_words false None (command args) = Some args.
Proof.
  unfold command. induction args as [|a [|b args] IH]; [done| |].
  - cbn [fmap list_fmap Join]. rewrite <-(app_empty_string (shellQuote a)). by rewrite sh_words_arg.
  - rewrite !fmap_cons in *. change (Join " " (shellQuote a :: shellQuote b :: (shellQuote <$> args)))
      with (shellQuote a +:+ " " +:+ Join " " (shellQuote b :: (shellQuote <$> args))).
    rewrite sh_words_arg. set (l := Join " " (shellQuote b :: (shellQuote <$> args))) in *. change (sh_words false (Some a) (" " +:+ l)) with ((option_list (Some a) ++.) <$> sh_words false None l).
    by rewrite IH.
Qed.

Example shellQuote_example : sh_words false None (command ["bin/x"; "it's"; ""; "a  b"]) = Some ["bin/x"; "it's"; ""; "a  b"].
Proof. vm_compute. reflexivity. Qed.
