(* ===== verification/Tracer.v ===== *)
(** Traces of events (src/exec/tracer.go, src/internal/trace/trace.go): events of tasks and
    of compilations on machines, with virtual thread numbers, and their rendering as
    complete events.

    The argument maps of events are shared between the events that the tracer keeps and
    those that it renders; they live in a memory of maps. *)
From S2P Require Import Prelude Task Stats.

(** * Events *)

(** Values of arguments. *)
Inductive traceArg := TInt (z : Z) | TString (s : string) | TStrings (l : list string) | TError (e : error).

Definition error_message (e : error) : string := match e with EOF => "EOF" | Err _ msg => msg end.

(** fmt.Sprint of an argument. *)
Definition Sprint (a : traceArg) : string :=
  match a with
  | TInt z => decimal z
  | TString s => s
  | TStrings l => "[" +:+ Join " " l +:+ "]"
  | TError e => error_message e
  end.

Abbreviation argmap := (gmap string traceArg).

(** An event; [ev_Args] is the address of its arguments. *)
Record Event := mkEvent {
  ev_Pid : Z;
  ev_Tid : Z;
  ev_Ts : Z;
  ev_Ph : string;
  ev_Dur : Z;
  ev_Name : string;
  ev_Cat : string;
  ev_Args : nat;
}.

(** A machine: the pointer, and its address. *)
Record machine := mkMachine { ma_ptr : nat; ma_Addr : string }.

(** What an event is about; [subOther] is a value of another type. *)
Inductive subject := subTask (ptr : nat) (name : TaskName) | subInvocation (index : Z) (exclusive : bool) | subOther.

Abbreviation tidPool := (list bool).

Record tracer := mkTracer {
  tr_events : list Event;
  tr_taskEvents : gmap nat (list Event);
  tr_compileEvents : gmap (string * Z) (list Event);
  tr_machinePids : gmap nat Z;
  (** Pools by machine; nil is a key like any other. *)
  tr_machineTidPools : gmap (option nat) tidPool;
  tr_firstEvent : option Z;
  (** The memory of argument maps. *)
  tr_args : list argmap;
}.

Definition newTracer : tracer := mkTracer [] ∅ ∅ ∅ ∅ None [].

(** * Thread numbers *)

Fixpoint first_available (p : tidPool) (tid : nat) : option nat :=
  match p with
  | [] => None
  | true :: _ => Some tid
  | false :: p => first_available p (S tid)
  end.

Definition Acquire (p : tidPool) : tidPool * Z :=
  match first_available p 0 with
  | Some tid => (<[tid := false]> p, Z.of_nat tid + 1)
  | None => (p ++ [false], Z.of_nat (length p) + 1)
  end%Z.

(** Thread numbers are one more than the index in the pool. *)
Definition Release (tid : Z) (p : tidPool) : outcome tidPool :=
  if bool_decide (0 <= tid - 1 < Z.of_nat (length p))%Z then
    match p !! Z.to_nat (tid - 1) with
    | Some true => Panic "releasing unallocated tid"
    | _ => Ret (<[Z.to_nat (tid - 1) := true]> p)
    end
  else Panic "index out of range".

(** The thread number of an event, after the earlier events of its subject. *)
Definition assignTid (mach : option nat) (ph : string) (events : list Event) (pools : gmap (option nat) tidPool) :
    outcome (gmap (option nat) tidPool * Z) :=
  let pool := default [] (pools !! mach) in
  if bool_decide (ph = "B") then
    let '(pool, tid) := Acquire pool in Ret (<[mach := pool]> pools, tid)
  else if bool_decide (ph = "E") then
    match list.last events with
    | None => Ret (<[mach := pool]> pools, 0%Z)
    | Some lastEvent =>
        if bool_decide (ev_Ph lastEvent = "B") then
          pool ← Release (ev_Tid lastEvent) pool;
          Ret (<[mach := pool]> pools, ev_Tid lastEvent)
        else Ret (<[mach := pool]> pools, 0%Z)
    end
  else Ret (<[mach := pool]> pools, 0%Z).

(** * Logging *)

(** Interleaved keys and values. *)
Fixpoint args_map (m : argmap) (args : list traceArg) : argmap :=
  match args with
  | k :: v :: args => args_map (<[Sprint k := v]> m) args
  | _ => m
  end.

(** The time of an event in microseconds since the first one. *)
Definition event_ts (now : Z) (t : tracer) : Z :=
  match tr_firstEvent t with None => 0 | Some first => (now - first) ÷ 1000 end.

(** The process number of a machine; the first event of a machine also logs its name. *)
Definition machine_pid (mach : option machine) (ts : Z) (t : tracer) : tracer * Z :=
  match mach with
  | None => (t, 0%Z)
  | Some m =>
      match tr_machinePids t !! ma_ptr m with
      | Some pid => (t, pid)
      | None =>
          let pid := (Z.of_nat (size (tr_machinePids t)) + 1)%Z in
          let event := mkEvent pid 0 ts "M" 0 "process_name" "" (length (tr_args t)) in
          (mkTracer (tr_events t ++ [event]) (tr_taskEvents t) (tr_compileEvents t) (<[ma_ptr m := pid]> (tr_machinePids t))
             (tr_machineTidPools t) (tr_firstEvent t) (tr_args t ++ [{["name" := TString (ma_Addr m)]}]), pid)
      end
  end.

Definition invocation_name (index : Z) (exclusive : bool) : string := decimal index +:+ (if exclusive then "[x]" else "").

Definition with_pools (pools : gmap (option nat) tidPool) (t : tracer) : tracer :=
  mkTracer (tr_events t) (tr_taskEvents t) (tr_compileEvents t) (tr_machinePids t) pools (tr_firstEvent t) (tr_args t).
Definition with_taskEvents (es : gmap nat (list Event)) (t : tracer) : tracer :=
  mkTracer (tr_events t) es (tr_compileEvents t) (tr_machinePids t) (tr_machineTidPools t) (tr_firstEvent t) (tr_args t).
Definition with_compileEvents (es : gmap (string * Z) (list Event)) (t : tracer) : tracer :=
  mkTracer (tr_events t) (tr_taskEvents t) es (tr_machinePids t) (tr_machineTidPools t) (tr_firstEvent t) (tr_args t).

(** A call at time [now]. *)
Definition tracer_Event (now : Z) (mach : option machine) (sub : subject) (ph : string) (args : list traceArg) (t : tracer) : outcome tracer :=
  if negb (length args mod 2 =? 0) then Panic "trace.Event: invalid arguments"
  else
    let a := length (tr_args t) in
    let ts := event_ts now t in
    let t := mkTracer (tr_events t) (tr_taskEvents t) (tr_compileEvents t) (tr_machinePids t) (tr_machineTidPools t)
               (Some (default now (tr_firstEvent t))) (tr_args t ++ [args_map ∅ args]) in
    let '(t, pid) := machine_pid mach ts t in
    match sub with
    | subTask ptr name =>
        let events := default [] (tr_taskEvents t !! ptr) in
        '(pools, tid) ← assignTid (ma_ptr <$> mach) ph events (tr_machineTidPools t);
        let event := mkEvent pid tid ts ph 0 (TaskName_String name) "task" a in
        Ret (with_taskEvents (<[ptr := events ++ [event]]> (tr_taskEvents t)) (with_pools pools t))
    | subInvocation index exclusive =>
        match mach with
        | None => Panic "invalid memory address or nil pointer dereference"
        | Some m =>
            let key := (ma_Addr m, index) in
            let events := default [] (tr_compileEvents t !! key) in
            '(pools, tid) ← assignTid (Some (ma_ptr m)) ph events (tr_machineTidPools t);
            let event := mkEvent pid tid ts ph 0 (invocation_name index exclusive) "invocation" a in
            Ret (with_compileEvents (<[key := events ++ [event]]> (tr_compileEvents t)) (with_pools pools t))
        end
    | subOther => Panic "unsupported subject type"
    end.

(** The method of a session's tracer, which may be nil. *)
Definition Event_ (now : Z) (mach : option machine) (sub : subject) (ph : string) (args : list traceArg) (t : option tracer) : outcome (option tracer) :=
  match t with None => Ret None | Some t => Some <$> tracer_Event now mach sub ph args t end.

(** * Rendering *)

Definition complete (event : Event) (e : Event) : Event :=
  let dur := (ev_Ts event - ev_Ts e)%Z in
  mkEvent (ev_Pid e) (ev_Tid e) (ev_Ts e) "X" (if (dur =? 0)%Z then 1 else dur) (ev_Name e) (ev_Cat e) (ev_Args e).

(** Adds the arguments of [event] that [e] does not have to those of [e]. *)
Definition merge_args (event e : Event) (mem : list argmap) : list argmap :=
  let new := default ∅ (mem !! ev_Args event) in
  alter (λ m, m ∪ new) (ev_Args e) mem.

(** [begIndex] is an index of [l]. *)
Fixpoint coalesce (events : list Event) (begIndex : option nat) (l : list Event) (mem : list argmap) : list Event * list argmap :=
  match events with
  | [] => (match begIndex with Some i => delete i l | None => l end, mem)
  | event :: events =>
      let begIndex := if bool_decide (ev_Ph event = "B") && bool_decide (begIndex = None) then Some (length l) else begIndex in
      match begIndex with
      | Some i =>
          if bool_decide (ev_Ph event = "E") then
            coalesce events None (alter (complete event) i l) (from_option (λ e, merge_args event e mem) mem (l !! i))
          else coalesce events begIndex (l ++ [event]) mem
      | None =>
          if bool_decide (ev_Ph event = "E") then coalesce events None l mem
          else coalesce events None (l ++ [event]) mem
      end
  end.

Definition appendCoalesce (l events : list Event) (mem : list argmap) : list Event * list argmap :=
  coalesce events None l mem.

Fixpoint coalesce_all (vs : list (list Event)) (l : list Event) (mem : list argmap) : list Event * list argmap :=
  match vs with
  | [] => (l, mem)
  | v :: vs => let '(l, mem) := appendCoalesce l v mem in coalesce_all vs l mem
  end.

(** An event as it is encoded. *)
Record rendered := mkRendered {
  re_Pid : Z;
  re_Tid : Z;
  re_Ts : Z;
  re_Ph : string;
  re_Dur : Z;
  re_Name : string;
  re_Cat : string;
  re_Args : argmap;
}.
Definition render (mem : list argmap) (e : Event) : rendered :=
  mkRendered (ev_Pid e) (ev_Tid e) (ev_Ts e) (ev_Ph e) (ev_Dur e) (ev_Name e) (ev_Cat e) (default ∅ (mem !! ev_Args e)).

Section marshal.
(** The orders in which maps are ranged over. *)
Context (range_tasks : gmap nat (list Event) → list (list Event)) (range_compiles : gmap (string * Z) (list Event) → list (list Event)).

(** The events that are encoded. *)
Definition Marshal (t : tracer) : tracer * list rendered :=
  let '(events, mem) := coalesce_all (range_tasks (tr_taskEvents t)) (tr_events t) (tr_args t) in
  let '(events, mem) := coalesce_all (range_compiles (tr_compileEvents t)) events mem in
  (mkTracer (tr_events t) (tr_taskEvents t) (tr_compileEvents t) (tr_machinePids t) (tr_machineTidPools t) (tr_firstEvent t) mem,
   render mem <$> events).
End marshal.
