(* ===== verification/TracerSpec.v ===== *)
(** What traces show (src/exec/tracer.go): used the way src/exec/bigmachine.go uses it, the
    tracer renders one complete event for each span between a begin and its end, spans of a
    machine that overlap have different thread numbers, and no more thread numbers are used
    than there were spans at the same time. *)
From S2P Require Import Prelude Task Stats Tracer.

(** * Calls *)

(** A begin or an end, on a machine. *)
Record call := mkCall {
  cl_now : Z;
  cl_mach : machine;
  cl_sub : subject;
  cl_begin : bool;
  cl_args : list traceArg;
}.

Inductive skey := kTask (ptr : nat) | kCompile (addr : string) (index : Z).
#[export] Instance skey_eq_dec : EqDecision skey.
Proof. solve_decision. Defined.
#[export] Instance skey_countable : Countable skey.
Proof.
  apply (inj_countable' (λ k, match k with kTask p => inl p | kCompile a i => inr (a, i) end)
    (λ x, match x with inl p => kTask p | inr (a, i) => kCompile a i end)). by intros [].
Defined.

#[export] Instance kTask_inj : Inj (=) (=) kTask.
Proof. by intros p q [= ->]. Qed.
#[export] Instance kCompile_inj : Inj (=) (=) (λ x : string * Z, kCompile x.1 x.2).
Proof. by intros [] [] [= -> ->]. Qed.

Definition key_of (c : call) : option skey :=
  match cl_sub c with
  | subTask ptr _ => Some (kTask ptr)
  | subInvocation index _ => Some (kCompile (ma_Addr (cl_mach c)) index)
  | subOther => None
  end.

Definition call_ph (c : call) : string := if cl_begin c then "B" else "E".

(** The calls by their number: what has begun, and the spans that have ended. *)
Record book := mkBook { bk_next : nat; bk_open : gmap skey nat; bk_spans : list (nat * nat) }.

Definition book_step (bk : book) (c : call) : book :=
  let n := bk_next bk in
  match key_of c with
  | None => mkBook (S n) (bk_open bk) (bk_spans bk)
  | Some k =>
      if cl_begin c then mkBook (S n) (<[k := n]> (bk_open bk)) (bk_spans bk)
      else match bk_open bk !! k with
           | Some b => mkBook (S n) (delete k (bk_open bk)) (bk_spans bk ++ [(b, n)])
           | None => mkBook (S n) (bk_open bk) (bk_spans bk)
           end
  end.
Definition book_of (calls : list call) : book := foldl book_step (mkBook 0 ∅ []) calls.

(** The calls that the executor makes: what begins on a machine ends there before it
    begins again. *)
Inductive protocol : list call → Prop :=
| protocol_nil : protocol []
| protocol_begin calls c k :
    protocol calls → length (cl_args c) mod 2 = 0 → key_of c = Some k → cl_begin c = true →
    bk_open (book_of calls) !! k = None → protocol (calls ++ [c])
| protocol_end calls c k b c0 :
    protocol calls → length (cl_args c) mod 2 = 0 → key_of c = Some k → cl_begin c = false →
    bk_open (book_of calls) !! k = Some b → calls !! b = Some c0 → cl_mach c0 = cl_mach c → protocol (calls ++ [c]).

(** Events are logged, and the trace is rendered from time to time. *)
Inductive trace_op := oEvent (c : call) | oMarshal.

Definition calls_of (ops : list trace_op) : list call := omap (λ o, match o with oEvent c => Some c | oMarshal => None end) ops.

(** * What is rendered *)

(** The time of the first call, and times relative to it. *)
Definition first (calls : list call) : Z := match calls with [] => 0 | c :: _ => cl_now c end.
Definition ts_at (z0 : Z) (c : call) : Z := (cl_now c - z0) ÷ 1000.

(** The machines in the order of their first calls, with the times of those. *)
Definition see (z0 : Z) (l : list (machine * Z)) (c : call) : list (machine * Z) :=
  if decide (ma_ptr (cl_mach c) ∈ ma_ptr ∘ fst <$> l) then l else l ++ [(cl_mach c, ts_at z0 c)].
Definition seen (calls : list call) : list (machine * Z) := foldl (see (first calls)) [] calls.

Definition pid_in (l : list (machine * Z)) (ptr : nat) : Z :=
  match list_find (λ m, ma_ptr (fst m) = ptr) l with Some (i, _) => Z.of_nat i + 1 | None => 0 end.

Definition process_event (i : nat) (m : machine * Z) : rendered :=
  mkRendered (Z.of_nat i + 1) 0 (snd m) "M" 0 "process_name" "" {["name" := TString (ma_Addr (fst m))]}.

Definition call_name (c : call) : string :=
  match cl_sub c with
  | subTask _ name => TaskName_String name
  | subInvocation index exclusive => invocation_name index exclusive
  | subOther => ""
  end.
Definition call_cat (c : call) : string :=
  match cl_sub c with subTask _ _ => "task" | subInvocation _ _ => "invocation" | subOther => "" end.
Definition call_args (c : call) : argmap := args_map ∅ (cl_args c).

(** The complete event of a span. *)
Definition span_event (calls : list call) (tid : nat → Z) (s : nat * nat) : option rendered :=
  cb ← calls !! s.1; ce ← calls !! s.2;
  Some (let dur := (ts_at (first calls) ce - ts_at (first calls) cb)%Z in
        mkRendered (pid_in (seen calls) (ma_ptr (cl_mach cb))) (tid s.1) (ts_at (first calls) cb) "X" (if (dur =? 0)%Z then 1 else dur)
          (call_name cb) (call_cat cb) (call_args cb ∪ call_args ce)).

(** How many spans are open on a machine, and how many there were at most. *)
Definition num_open (calls : list call) (ptr : nat) : nat :=
  size (filter (λ kb : skey * nat, ma_ptr ∘ cl_mach <$> calls !! kb.2 = Some ptr) (bk_open (book_of calls))).
Definition peak (calls : list call) (ptr : nat) : nat :=
  max_list ((λ n, num_open (take n calls) ptr) <$> seq 0 (S (length calls))).

(** * Thread numbers *)

Definition count_used (p : tidPool) : nat := length (filter (λ b, b = false) p).

Lemma first_available_spec p n :
  match first_available p n with
  | Some tid => ∃ i, tid = n + i ∧ p !! i = Some true
  | None => ∀ i b, p !! i = Some b → b = false
  end.
Proof.
  revert n. induction p as [|[] p IH]; intros n; simpl.
  - intros i b. by rewrite lookup_nil.
  - exists 0. split; [lia|done].
  - specialize (IH (S n)). destruct (first_available p (S n)) as [tid|].
    + destruct IH as (i & -> & Hi). exists (S i). split; [lia|done].
    + intros [|i] b; simpl; [by intros [= <-]|apply IH].
Qed.

Lemma count_used_le p : count_used p ≤ length p.
Proof. apply length_filter. Qed.

Lemma count_used_insert_false p i : p !! i = Some true → count_used (<[i := false]> p) = S (count_used p).
Proof.
  unfold count_used. revert i. induction p as [|b p IH]; intros [|i] Hi; simplify_eq/=; [done|].
  rewrite !filter_cons. case_decide; simpl; rewrite IH by done; done.
Qed.

Lemma count_used_insert_true p i : p !! i = Some false → S (count_used (<[i := true]> p)) = count_used p.
Proof.
  unfold count_used. revert i. induction p as [|b p IH]; intros [|i] Hi; simplify_eq/=; [done|].
  rewrite !filter_cons. case_decide; simpl; rewrite <-(IH i) by done; done.
Qed.

Lemma count_used_all p : (∀ i b, p !! i = Some b → b = false) → count_used p = length p.
Proof.
  unfold count_used. induction p as [|b p IH]; intros Hp; [done|]. rewrite filter_cons_True by (by apply (Hp 0)).
  simpl. f_equal. apply IH. intros i x Hi. by apply (Hp (S i)).
Qed.

Lemma count_used_true p i : p !! i = Some true → count_used p < length p.
Proof. intros Hi. pose proof (count_used_le (<[i := false]> p)) as Hle. rewrite (count_used_insert_false p i Hi), length_insert in Hle. lia. Qed.

(** A number that is not in use, of the smallest pool. *)
Lemma Acquire_spec p :
  ∃ p' i, Acquire p = (p', Z.of_nat i + 1)%Z ∧ p' !! i = Some false ∧ p !! i ≠ Some false ∧
    (∀ j, p !! j = Some false → p' !! j = Some false) ∧
    count_used p' = S (count_used p) ∧ length p' = length p `max` S (count_used p).
Proof.
  unfold Acquire. pose proof (first_available_spec p 0) as Hf. destruct (first_available p 0) as [tid|].
  - destruct Hf as (i & -> & Hi). exists (<[i := false]> p), i. rewrite Nat.add_0_l. split; [done|].
    pose proof (lookup_lt_Some _ _ _ Hi) as Hlt. rewrite list_lookup_insert_eq by done. split_and!; [done|congruence| | |].
    + intros j Hj. destruct (decide (i = j)) as [->|Hne]; [congruence|by rewrite list_lookup_insert_ne].
    + by apply count_used_insert_false.
    + rewrite length_insert. pose proof (count_used_true p i Hi). lia.
  - pose proof (count_used_all p Hf) as Hc. exists (p ++ [false]), (length p). split; [done|]. split_and!.
    + by rewrite lookup_app_r, Nat.sub_diag by lia.
    + by rewrite lookup_ge_None_2 by lia.
    + intros j Hj. by apply lookup_app_l_Some.
    + unfold count_used. rewrite list.filter_app, length_app. simpl. lia.
    + rewrite length_app, Hc. simpl. lia.
Qed.

Lemma Release_spec p i :
  p !! i = Some false → Release (Z.of_nat i + 1) p = Ret (<[i := true]> p).
Proof.
  intros Hi. pose proof (lookup_lt_Some _ _ _ Hi). unfold Release. replace (Z.of_nat i + 1 - 1)%Z with (Z.of_nat i) by lia.
  rewrite bool_decide_true, Nat2Z.id, Hi by lia. done.
Qed.

(** * Books *)

Lemma book_snoc calls c : book_of (calls ++ [c]) = book_step (book_of calls) c.
Proof. unfold book_of. by rewrite foldl_snoc. Qed.

Lemma book_next calls : bk_next (book_of calls) = length calls.
Proof.
  induction calls as [|c calls IH] using rev_ind; [done|]. rewrite book_snoc, length_app. unfold book_step. simpl.
  repeat case_match; simpl; lia.
Qed.

Record book_ok (calls : list call) : Prop := mkBookOk {
  bo_open : ∀ k b, bk_open (book_of calls) !! k = Some b →
    ∃ c, calls !! b = Some c ∧ key_of c = Some k ∧ cl_begin c = true ∧ b ∉ (bk_spans (book_of calls)).*1;
  bo_spans : ∀ b e, (b, e) ∈ bk_spans (book_of calls) →
    b < e ∧ ∃ cb ce, calls !! b = Some cb ∧ calls !! e = Some ce ∧ cl_begin cb = true ∧ cl_begin ce = false ∧
      key_of cb = key_of ce ∧ is_Some (key_of cb) ∧ cl_mach cb = cl_mach ce;
  bo_nodup : NoDup (bk_spans (book_of calls)).*1;
}.

Lemma protocol_book calls : protocol calls → book_ok calls.
Proof.
  induction 1 as [|calls c k Hp IH _ Hk Hb Ho|calls c k b c0 Hp IH _ Hk Hb Ho Hc0 Hm].
  - split; simpl.
    + intros k b. by rewrite lookup_empty.
    + intros b e ?%elem_of_nil. done.
    + constructor.
  - assert (book_of (calls ++ [c]) = mkBook (S (length calls)) (<[k := length calls]> (bk_open (book_of calls))) (bk_spans (book_of calls))) as Hbk.
    { rewrite book_snoc. unfold book_step. by rewrite Hk, Hb, book_next. }
    split; rewrite Hbk; cbn [bk_open bk_spans].
    + intros k' b' [[<- <-]|[_ Hb']]%lookup_insert_Some.
      * exists c. rewrite lookup_app_r, Nat.sub_diag by lia. split_and!; [done..|]. intros ([b e] & Hbe & Hin)%list_elem_of_fmap.
        simpl in Hbe. subst b. destruct (bo_spans _ IH _ _ Hin) as (_ & cb & ce & Hcb & _). apply lookup_lt_Some in Hcb. lia.
      * destruct (bo_open _ IH k' b' Hb') as (c' & Hc' & ? & ? & ?). exists c'. split_and!; [by apply lookup_app_l_Some|done..].
    + intros b e Hin. destruct (bo_spans _ IH _ _ Hin) as (Hlt & cb & ce & Hcb & Hce & ?). split; [done|].
      exists cb, ce. split; [by apply lookup_app_l_Some|]. split; [by apply lookup_app_l_Some|done].
    + apply IH.
  - assert (book_of (calls ++ [c]) = mkBook (S (length calls)) (delete k (bk_open (book_of calls))) (bk_spans (book_of calls) ++ [(b, length calls)])) as Hbk.
    { rewrite book_snoc. unfold book_step. by rewrite Hk, Hb, Ho, book_next. }
    destruct (bo_open _ IH k b Ho) as (c1 & Hc1 & Hk1 & Hb1 & Hn1). rewrite Hc0 in Hc1. injection Hc1 as <-.
    split; rewrite Hbk; cbn [bk_open bk_spans].
    + intros k' b' [Hne Hb']%lookup_delete_Some. destruct (bo_open _ IH k' b' Hb') as (c' & Hc' & Hk' & ? & Hn').
      exists c'. split_and!; [by apply lookup_app_l_Some|done|done|]. rewrite fmap_app, elem_of_app. intros [?|?%list_elem_of_singleton]; [done|].
      simpl in *. subst b'. congruence.
    + intros b' e [Hin|[= -> ->]%list_elem_of_singleton]%elem_of_app.
      * destruct (bo_spans _ IH _ _ Hin) as (Hlt & cb & ce & Hcb & Hce & ?). split; [done|].
        exists cb, ce. split; [by apply lookup_app_l_Some|]. split; [by apply lookup_app_l_Some|done].
      * split; [by eapply lookup_lt_Some|]. exists c0, c. rewrite (lookup_app_r calls _ (length calls)), Nat.sub_diag by lia.
        split_and!; [by apply lookup_app_l_Some|done|done|done|congruence|by eexists|done].
    + rewrite fmap_app. apply list.NoDup_app. split_and!; [apply IH| |apply NoDup_singleton].
      intros x Hx ->%list_elem_of_singleton. done.
Qed.

(** ** Open spans *)

Lemma open_range calls k b : book_ok calls → bk_open (book_of calls) !! k = Some b → b < length calls.
Proof. intros Hb Ho. destruct (bo_open _ Hb k b Ho) as (c & Hc & _). by eapply lookup_lt_Some. Qed.

(** Later calls do not change on which machines spans are open. *)
Lemma open_on_snoc calls c ptr :
  book_ok calls →
  filter (λ kb : skey * nat, ma_ptr ∘ cl_mach <$> (calls ++ [c]) !! kb.2 = Some ptr) (bk_open (book_of calls)) =
  filter (λ kb : skey * nat, ma_ptr ∘ cl_mach <$> calls !! kb.2 = Some ptr) (bk_open (book_of calls)).
Proof.
  intros Hb. apply map_filter_ext. intros k b Ho. cbn [snd]. by rewrite lookup_app_l by (by eapply open_range).
Qed.

Lemma num_open_begin calls c k ptr :
  book_ok calls → key_of c = Some k → cl_begin c = true → bk_open (book_of calls) !! k = None →
  num_open (calls ++ [c]) ptr = if decide (ma_ptr (cl_mach c) = ptr) then S (num_open calls ptr) else num_open calls ptr.
Proof.
  intros Hb Hk Hbeg Ho. unfold num_open. rewrite book_snoc. unfold book_step. rewrite Hk, Hbeg, book_next. cbn [bk_open].
  case_decide as Hptr.
  - rewrite map_filter_insert_True, open_on_snoc; [|done|].
    + rewrite map_size_insert_None; [done|]. apply map_lookup_filter_None. by left.
    + cbn [snd]. rewrite lookup_app_r, Nat.sub_diag by lia. simpl. by rewrite Hptr.
  - rewrite map_filter_insert_False, delete_id, open_on_snoc; [done|done|done|].
    cbn [snd]. rewrite lookup_app_r, Nat.sub_diag by lia. simpl. by intros [= ?].
Qed.

Lemma num_open_end calls c k b c0 ptr :
  book_ok calls → key_of c = Some k → cl_begin c = false → bk_open (book_of calls) !! k = Some b → calls !! b = Some c0 →
  cl_mach c0 = cl_mach c →
  num_open calls ptr = if decide (ma_ptr (cl_mach c) = ptr) then S (num_open (calls ++ [c]) ptr) else num_open (calls ++ [c]) ptr.
Proof.
  intros Hb Hk Hbeg Ho Hc0 Hm. unfold num_open at 2 3. rewrite book_snoc. unfold book_step. rewrite Hk, Hbeg, Ho. cbn [bk_open].
  rewrite map_filter_delete, open_on_snoc by done. unfold num_open. case_decide as Hptr.
  - rewrite map_size_delete_Some.
    + assert (size (filter (λ kb : skey * nat, ma_ptr ∘ cl_mach <$> calls !! kb.2 = Some ptr) (bk_open (book_of calls))) ≠ 0); [|lia].
      apply map_size_ne_0_lookup_2 with (i := k). exists b. apply map_lookup_filter_Some. cbn [snd]. rewrite Hc0. simpl. by rewrite Hm, Hptr.
    + exists b. apply map_lookup_filter_Some. cbn [snd]. rewrite Hc0. simpl. by rewrite Hm, Hptr.
  - rewrite delete_id; [done|]. apply map_lookup_filter_None. right. intros b' Hb'. rewrite Ho in Hb'. injection Hb' as <-.
    cbn [snd]. rewrite Hc0. simpl. rewrite Hm. by intros [= ?].
Qed.

Lemma max_list_snoc l x : max_list (l ++ [x]) = max_list l `max` x.
Proof. induction l as [|y l IH]; simpl; [lia|]. rewrite IH. simpl. lia. Qed.

Lemma peak_snoc calls c ptr : peak (calls ++ [c]) ptr = peak calls ptr `max` num_open (calls ++ [c]) ptr.
Proof.
  unfold peak. rewrite length_app, (Nat.add_comm _ 1 : _ + length [c] = _). cbn [Nat.add]. rewrite (seq_S (S (length calls))), fmap_app.
  cbn [fmap list_fmap]. rewrite max_list_snoc. f_equal.
  - f_equal. apply list_fmap_ext. intros i n [-> Hn]%lookup_seq. rewrite take_app_le by lia. done.
  - by rewrite take_ge by (rewrite length_app; simpl; lia).
Qed.

(** * Histories *)

(** The spans of a subject, and the events that the tracer keeps for it: [ev] gives the
    event of each call. *)
Definition spans_of (calls : list call) (k : skey) : list (nat * nat) :=
  filter (λ s : nat * nat, calls !! s.1 ≫= key_of = Some k) (bk_spans (book_of calls)).
Definition history (ev : nat → Event) (calls : list call) (k : skey) : list Event :=
  concat ((λ s : nat * nat, [ev s.1; ev s.2]) <$> spans_of calls k) ++ (if bk_open (book_of calls) !! k is Some b then [ev b] else []).

Definition events_of (t : tracer) (k : skey) : option (list Event) :=
  match k with kTask ptr => tr_taskEvents t !! ptr | kCompile addr index => tr_compileEvents t !! (addr, index) end.

Lemma filter_ext_elem {A} (P Q : A → Prop) `{∀ x, Decision (P x), ∀ x, Decision (Q x)} (l : list A) :
  (∀ x, x ∈ l → P x ↔ Q x) → filter P l = filter Q l.
Proof.
  induction l as [|x l IH]; intros Hl; [done|]. rewrite !filter_cons, IH by (intros y Hy; apply Hl; by right).
  pose proof (Hl x (list_elem_of_here _ _)). repeat case_decide; naive_solver.
Qed.

Lemma spans_of_snoc calls c k :
  book_ok calls →
  filter (λ s : nat * nat, (calls ++ [c]) !! s.1 ≫= key_of = Some k) (bk_spans (book_of calls)) = spans_of calls k.
Proof.
  intros Hb. unfold spans_of. apply filter_ext_elem. intros [b e] Hs. cbn [fst].
  destruct (bo_spans _ Hb b e Hs) as (_ & cb & ce & Hcb & _). by rewrite lookup_app_l by (by eapply lookup_lt_Some).
Qed.

(** [ev'] is [ev] with an event for the next call. *)
Definition extend (ev : nat → Event) (n : nat) (e : Event) : nat → Event := λ i, if decide (i = n) then e else ev i.

Lemma extend_eq ev n e : extend ev n e n = e.
Proof. unfold extend. by rewrite decide_True. Qed.
Lemma extend_lt ev n e i : i < n → extend ev n e i = ev i.
Proof. intros. unfold extend. by rewrite decide_False by lia. Qed.

Lemma history_extend ev calls k e : book_ok calls → history (extend ev (length calls) e) calls k = history ev calls k.
Proof.
  intros Hb. unfold history. f_equal.
  - f_equal. apply list_fmap_ext. intros i [b e'] Hs%list_elem_of_lookup_2. apply list_elem_of_filter in Hs as [_ Hs].
    destruct (bo_spans _ Hb b e' Hs) as (_ & cb & ce & Hcb%lookup_lt_Some & Hce%lookup_lt_Some & _). cbn [fst snd].
    by rewrite !extend_lt by done.
  - destruct (bk_open (book_of calls) !! k) as [b|] eqn:Ho; [|done]. by rewrite extend_lt by (by eapply open_range).
Qed.

(** A call adds an event to the history of its subject. *)
Lemma history_begin ev calls c k k' e :
  book_ok calls → key_of c = Some k → cl_begin c = true → bk_open (book_of calls) !! k = None →
  history (extend ev (length calls) e) (calls ++ [c]) k' = history ev calls k' ++ (if decide (k' = k) then [e] else []).
Proof.
  intros Hb Hk Hbeg Ho. rewrite <-(history_extend ev calls k' e Hb). unfold history at 1. unfold spans_of. rewrite book_snoc.
  unfold book_step. rewrite Hk, Hbeg, book_next. cbn [bk_open bk_spans]. rewrite spans_of_snoc by done. unfold history. rewrite <-(assoc_L (++)).
  f_equal. case_decide as Hkk.
  - subst k'. by rewrite lookup_insert_eq, Ho, extend_eq.
  - by rewrite lookup_insert_ne, app_nil_r by done.
Qed.

Lemma history_end ev calls c k k' b e :
  book_ok calls → key_of c = Some k → cl_begin c = false → bk_open (book_of calls) !! k = Some b →
  history (extend ev (length calls) e) (calls ++ [c]) k' = history ev calls k' ++ (if decide (k' = k) then [e] else []).
Proof.
  intros Hb Hk Hbeg Ho. rewrite <-(history_extend ev calls k' e Hb). unfold history at 1. unfold spans_of. rewrite book_snoc.
  unfold book_step. rewrite Hk, Hbeg, Ho, book_next. cbn [bk_open bk_spans]. rewrite list.filter_app, spans_of_snoc by done.
  destruct (bo_open _ Hb k b Ho) as (cb & Hcb & Hkb & _). unfold history.
  assert ((calls ++ [c]) !! b ≫= key_of = Some k) as Hbk by (rewrite (lookup_app_l_Some _ _ _ _ Hcb); done).
  case_decide as Hkk.
  - subst k'. rewrite filter_cons_True, filter_nil by done. rewrite lookup_delete_eq, Ho, fmap_app, concat_app, app_nil_r.
    cbn [fmap list_fmap concat fst snd]. rewrite extend_eq, app_nil_r, <-(assoc_L (++)). done.
  - rewrite filter_cons_False, filter_nil by (cbn [fst]; rewrite Hbk; congruence).
    by rewrite lookup_delete_ne, !app_nil_r by done.
Qed.

(** The last event of a subject that has begun is its begin. *)
Lemma history_last ev calls k b : bk_open (book_of calls) !! k = Some b → list.last (history ev calls k) = Some (ev b).
Proof. intros Ho. unfold history. rewrite Ho. apply last_snoc. Qed.

(** ** Coalescing *)

Definition merge_spans (ev : nat → Event) (ps : list (nat * nat)) (mem : list argmap) : list argmap :=
  foldl (λ mem (s : nat * nat), merge_args (ev s.2) (ev s.1) mem) mem ps.

Lemma coalesce_spans ev ps (rest : option nat) l mem :
  (∀ s, s ∈ ps → ev_Ph (ev s.1) = "B" ∧ ev_Ph (ev s.2) = "E") → (∀ b, rest = Some b → ev_Ph (ev b) = "B") →
  appendCoalesce l (concat ((λ s : nat * nat, [ev s.1; ev s.2]) <$> ps) ++ (if rest is Some b then [ev b] else [])) mem =
  (l ++ ((λ s : nat * nat, complete (ev s.2) (ev s.1)) <$> ps), merge_spans ev ps mem).
Proof.
  intros Hps Hr. unfold appendCoalesce. revert l mem. induction ps as [|[b e] ps IH]; intros l mem.
  - destruct rest as [b|]; simpl; [|by rewrite app_nil_r]. rewrite (Hr b eq_refl). simpl. rewrite delete_middle. done.
  - destruct (Hps (b, e) (list_elem_of_here _ _)) as [HB HE]. cbn [fst snd] in HB, HE.
    cbn [fmap list_fmap concat app coalesce fst snd]. rewrite HB, HE.
    change (bool_decide ("B" = "B")) with true. change (bool_decide ("B" = "E")) with false. change (bool_decide ("E" = "B")) with false.
    change (bool_decide ("E" = "E")) with true. cbn [andb]. rewrite bool_decide_true by done.
    replace (l ++ [ev b]) with (l ++ ev b :: []) by done. rewrite list_lookup_middle by done. cbn [from_option].
    assert (alter (complete (ev e)) (length l) (l ++ [ev b]) = l ++ [complete (ev e) (ev b)]) as ->.
    { rewrite <-(Nat.add_0_r (length l)). by rewrite alter_app_r. }
    rewrite IH by (intros s Hs; apply Hps; by right). by rewrite <-(assoc_L (++)).
Qed.

(** * Machines *)

Lemma first_snoc calls c : calls ≠ [] → first (calls ++ [c]) = first calls.
Proof. by destruct calls. Qed.

Lemma seen_snoc calls c : seen (calls ++ [c]) = see (first (calls ++ [c])) (seen calls) c.
Proof.
  unfold seen. rewrite foldl_snoc. f_equal. destruct (decide (calls = [])) as [->|Hne]; [done|]. by rewrite first_snoc.
Qed.

Definition pid_of (l : list (machine * Z)) (ptr : nat) : option Z :=
  (λ x : nat * (machine * Z), Z.of_nat x.1 + 1)%Z <$> list_find (λ m, ma_ptr (fst m) = ptr) l.

Lemma pid_in_of l ptr pid : pid_of l ptr = Some pid → pid_in l ptr = pid.
Proof. unfold pid_of, pid_in. destruct (list_find _ l) as [[i x]|]; [|done]. by intros [= <-]. Qed.

Lemma pid_of_see z0 l c ptr :
  pid_of (see z0 l c) ptr =
  match pid_of l ptr with
  | Some pid => Some pid
  | None => if decide (ma_ptr (cl_mach c) = ptr) then Some (Z.of_nat (length l) + 1)%Z else None
  end.
Proof.
  unfold see. case_decide as Hin.
  - destruct (pid_of l ptr) as [pid|] eqn:Hp; [done|]. case_decide as Heq; [|done]. subst ptr.
    unfold pid_of in Hp. destruct (list_find _ l) as [|] eqn:Hf; [done|]. apply list_find_None in Hf.
    apply list_elem_of_fmap in Hin as (x & Hx & Hin). rewrite list.Forall_forall in Hf. by destruct (Hf x Hin).
  - unfold pid_of. destruct (list_find (λ m, ma_ptr m.1 = ptr) l) as [[i x]|] eqn:Hf.
    + by rewrite (list_find_app_l _ _ _ _ _ Hf).
    + rewrite list_find_app_r by done. simpl. by case_decide.
Qed.

Lemma pid_of_seen calls i c : calls !! i = Some c → ∃ pid, pid_of (seen calls) (ma_ptr (cl_mach c)) = Some pid.
Proof.
  revert i. induction calls as [|d calls IH] using rev_ind; intros i Hi; [by rewrite lookup_nil in Hi|].
  rewrite seen_snoc, pid_of_see. apply lookup_app_Some in Hi as [Hi|[_ Hi]].
  - destruct (IH i Hi) as [pid ->]. by exists pid.
  - apply list_lookup_singleton_Some in Hi as [_ ->]. destruct (pid_of _ _) as [pid|]; [by exists pid|]. rewrite decide_True by done. by eexists.
Qed.

(** The process numbers, and the events that name the processes, with their arguments. *)
Record machines_ok (l : list (machine * Z)) (pids : gmap nat Z) (events : list Event) (mem : list argmap) : Prop := mkMachinesOk {
  mk_pids : ∀ ptr, pids !! ptr = pid_of l ptr;
  mk_size : size pids = length l;
  mk_length : length events = length l;
  mk_events : ∀ i m, l !! i = Some m → ∃ a, events !! i = Some (mkEvent (Z.of_nat i + 1) 0 (snd m) "M" 0 "process_name" "" a) ∧
    mem !! a = Some {["name" := TString (ma_Addr (fst m))]};
}.

Lemma machines_ok_mem l pids events mem mem' :
  machines_ok l pids events mem → (∀ e m, e ∈ events → mem !! ev_Args e = Some m → mem' !! ev_Args e = Some m) → machines_ok l pids events mem'.
Proof.
  intros Hm Hmem. split; try apply Hm. intros i m Hi. destruct (mk_events _ _ _ _ Hm i m Hi) as (a & He & Ha).
  exists a. split; [done|]. apply list_elem_of_lookup_2 in He. by apply (Hmem _ _ He).
Qed.

Lemma machine_pid_ok c t z0 ts l :
  machines_ok l (tr_machinePids t) (tr_events t) (tr_args t) → ts = ts_at z0 c →
  ∃ t' pid more, machine_pid (Some (cl_mach c)) ts t = (t', pid) ∧ pid_of (see z0 l c) (ma_ptr (cl_mach c)) = Some pid ∧
    machines_ok (see z0 l c) (tr_machinePids t') (tr_events t') (tr_args t') ∧
    tr_taskEvents t' = tr_taskEvents t ∧ tr_compileEvents t' = tr_compileEvents t ∧ tr_machineTidPools t' = tr_machineTidPools t ∧
    tr_firstEvent t' = tr_firstEvent t ∧ tr_args t' = tr_args t ++ more ∧
    ∀ e, e ∈ tr_events t' → e ∈ tr_events t ∨ ev_Args e = length (tr_args t) ∧ more ≠ [].
Proof.
  intros Hm Hts. unfold machine_pid. rewrite (mk_pids _ _ _ _ Hm). rewrite pid_of_see.
  destruct (pid_of l (ma_ptr (cl_mach c))) as [pid|] eqn:Hp.
  - exists t, pid, []. rewrite app_nil_r. split_and!; [done|done| |done..|by left].
    unfold see. rewrite decide_True; [done|]. unfold pid_of in Hp. destruct (list_find _ l) as [[i x]|] eqn:Hf; [|done].
    apply list_find_Some in Hf as (Hi & Hx & _). rewrite <-Hx. apply list_elem_of_fmap. exists x. split; [done|by eapply list_elem_of_lookup_2].
  - rewrite decide_True by done. rewrite (mk_size _ _ _ _ Hm). eexists _, _, _. split; [done|]. split; [done|]. cbn [tr_machinePids tr_events tr_args].
    assert (see z0 l c = l ++ [(cl_mach c, ts)]) as Hsee.
    { unfold see. rewrite decide_False, Hts; [done|]. intros (x & Hx & Hin)%list_elem_of_fmap. unfold pid_of in Hp.
      destruct (list_find _ l) as [|] eqn:Hf; [done|]. apply list_find_None in Hf. rewrite list.Forall_forall in Hf. by destruct (Hf x Hin). }
    split_and!; [|done|done|done|done|done|].
    2: { intros e [He| ->%list_elem_of_singleton]%elem_of_app; [by left|right; done]. }
    split.
    + intros ptr. rewrite pid_of_see. destruct (decide (ma_ptr (cl_mach c) = ptr)) as [<-|Hne].
      * by rewrite lookup_insert_eq, Hp.
      * rewrite lookup_insert_ne, (mk_pids _ _ _ _ Hm) by done. by destruct (pid_of l ptr).
    + rewrite map_size_insert_None, Hsee, length_app, (mk_size _ _ _ _ Hm); [simpl; lia|]. by rewrite (mk_pids _ _ _ _ Hm).
    + rewrite Hsee, !length_app, (mk_length _ _ _ _ Hm). done.
    + intros i m. rewrite Hsee. intros [Hi|[Hi [Hlen <-]%list_lookup_singleton_Some]]%lookup_app_Some.
      * destruct (mk_events _ _ _ _ Hm i m Hi) as (a & He & Ha). exists a. split; [by apply lookup_app_l_Some|by apply lookup_app_l_Some].
      * assert (i = length l) as -> by lia. eexists. rewrite lookup_app_r, (mk_length _ _ _ _ Hm), Nat.sub_diag by (rewrite (mk_length _ _ _ _ Hm); lia).
        split; [done|]. by rewrite lookup_app_r, Nat.sub_diag by lia.
Qed.

(** * The log *)

(** What the tracer has logged: [ev] is the event of each call. *)
Record log_ok (ev : nat → Event) (calls : list call) (t : tracer) : Prop := mkLogOk {
  lg_first : tr_firstEvent t = if calls is [] then None else Some (first calls);
  lg_ev : ∀ i c, calls !! i = Some c →
    pid_of (seen calls) (ma_ptr (cl_mach c)) = Some (ev_Pid (ev i)) ∧ ev_Ts (ev i) = ts_at (first calls) c ∧
    ev_Ph (ev i) = call_ph c ∧ ev_Name (ev i) = call_name c ∧ ev_Cat (ev i) = call_cat c;
  lg_history : ∀ k, default [] (events_of t k) = history ev calls k;
  lg_machines : machines_ok (seen calls) (tr_machinePids t) (tr_events t) (tr_args t);
  lg_range : ∀ i, i < length calls → ev_Args (ev i) < length (tr_args t);
  lg_range_events : ∀ e, e ∈ tr_events t → ev_Args e < length (tr_args t) ∧ ∀ i, i < length calls → ev_Args (ev i) ≠ ev_Args e;
  lg_inj : ∀ i j, i < length calls → j < length calls → ev_Args (ev i) = ev_Args (ev j) → i = j;
  lg_plain : ∀ i c, calls !! i = Some c → i ∉ (bk_spans (book_of calls)).*1 → tr_args t !! ev_Args (ev i) = Some (call_args c);
  (** The arguments of an end may have been merged into those of its begin. *)
  lg_span : ∀ b e cb ce, (b, e) ∈ bk_spans (book_of calls) → calls !! b = Some cb → calls !! e = Some ce →
    ∃ m, tr_args t !! ev_Args (ev b) = Some m ∧ m ∪ call_args ce = call_args cb ∪ call_args ce;
}.

Definition set_events (k : skey) (es : list Event) (t : tracer) : tracer :=
  match k with
  | kTask ptr => with_taskEvents (<[ptr := es]> (tr_taskEvents t)) t
  | kCompile addr index => with_compileEvents (<[(addr, index) := es]> (tr_compileEvents t)) t
  end.

Lemma events_of_set k k' es t : events_of (set_events k es t) k' = if decide (k' = k) then Some es else events_of t k'.
Proof.
  destruct k as [p|a i], k' as [p'|a' i']; cbn [events_of set_events with_taskEvents with_compileEvents tr_taskEvents tr_compileEvents]; try (by rewrite decide_False by done).
  - case_decide as Hd; [injection Hd as ->; by rewrite lookup_insert_eq|]. rewrite lookup_insert_ne; [done|]. congruence.
  - case_decide as Hd; [injection Hd as -> ->; by rewrite lookup_insert_eq|]. rewrite lookup_insert_ne; [done|]. congruence.
Qed.

(** The tracer after the common part of a call. *)
Definition logged (c : call) (t : tracer) : tracer :=
  mkTracer (tr_events t) (tr_taskEvents t) (tr_compileEvents t) (tr_machinePids t) (tr_machineTidPools t)
    (Some (default (cl_now c) (tr_firstEvent t))) (tr_args t ++ [call_args c]).

Lemma tracer_Event_eq c k t :
  key_of c = Some k → length (cl_args c) mod 2 = 0 →
  tracer_Event (cl_now c) (Some (cl_mach c)) (cl_sub c) (call_ph c) (cl_args c) t =
  (let '(t', pid) := machine_pid (Some (cl_mach c)) (event_ts (cl_now c) t) (logged c t) in
   '(pools, tid) ← assignTid (Some (ma_ptr (cl_mach c))) (call_ph c) (default [] (events_of t' k)) (tr_machineTidPools t');
   let event := mkEvent pid tid (event_ts (cl_now c) t) (call_ph c) 0 (call_name c) (call_cat c) (length (tr_args t)) in
   Ret (set_events k (default [] (events_of t' k) ++ [event]) (with_pools pools t'))).
Proof.
  intros Hk Hargs. unfold tracer_Event. rewrite Hargs. cbn [Nat.eqb negb]. unfold key_of, call_name, call_cat, logged in *.
  unfold call_args. destruct (machine_pid _ _ _) as [t' pid]. destruct (cl_sub c) as [p n|i x|]; [| |done]; injection Hk as <-.
  - cbn [events_of fmap option_fmap option_map]. by destruct (assignTid _ _ _ _) as [[pools tid]| |].
  - cbn [events_of]. by destruct (assignTid _ _ _ _) as [[pools tid]| |].
Qed.

Lemma log_ok_init ev : log_ok ev [] newTracer.
Proof.
  split.
  - done.
  - intros i c. by rewrite lookup_nil.
  - intros [p|a i]; unfold events_of; simpl; by rewrite lookup_empty.
  - split; [intros ptr; apply lookup_empty|done|done|]. by intros [|i] m.
  - intros i. simpl. lia.
  - intros e ?%elem_of_nil. done.
  - intros i j. simpl. lia.
  - intros i c. by rewrite lookup_nil.
  - intros b e cb ce ?%elem_of_nil. done.
Qed.

Lemma event_ts_ok ev calls c t : log_ok ev calls t → event_ts (cl_now c) t = ts_at (first (calls ++ [c])) c.
Proof.
  intros Hl. unfold event_ts. rewrite (lg_first _ _ _ Hl). destruct calls as [|c0 calls]; [|done].
  unfold ts_at. simpl. by rewrite Z.sub_diag.
Qed.

(** ** One more event *)

(** The spans that a call leaves: those there were, and perhaps its own. *)
Definition ends (calls : list call) (c : call) (sp : list (nat * nat)) : Prop :=
  bk_spans (book_of (calls ++ [c])) = bk_spans (book_of calls) ++ sp ∧
  ∀ b e, (b, e) ∈ sp → e = length calls ∧ (b ∉ (bk_spans (book_of calls)).*1) ∧ b < length calls.

Lemma log_ok_event ev calls c k t t2 pid tid pools sp :
  log_ok ev calls t → book_ok calls → key_of c = Some k → ends calls c sp →
  machine_pid (Some (cl_mach c)) (event_ts (cl_now c) t) (logged c t) = (t2, pid) →
  let event := mkEvent pid tid (event_ts (cl_now c) t) (call_ph c) 0 (call_name c) (call_cat c) (length (tr_args t)) in
  (∀ k', history (extend ev (length calls) event) (calls ++ [c]) k' = history ev calls k' ++ (if decide (k' = k) then [event] else [])) →
  log_ok (extend ev (length calls) event) (calls ++ [c]) (set_events k (default [] (events_of t2 k) ++ [event]) (with_pools pools t2)).
Proof.
  intros Hl Hb Hk [Hsp Hsp'] Hpid event Hhist.
  destruct (machine_pid_ok c (logged c t) (first (calls ++ [c])) (event_ts (cl_now c) t) (seen calls)) as
    (t2' & pid' & more & Hpid' & Hp & Hm & Ht1 & Ht2 & _ & Ht4 & Ha & Hnew).
  { eapply machines_ok_mem; [apply Hl|]. intros e m _ He. by apply lookup_app_l_Some. }
  { by eapply event_ts_ok. }
  rewrite Hpid in Hpid'. injection Hpid' as <- <-. rewrite <-seen_snoc in Hp, Hm.
  set (t3 := set_events k _ _).
  assert (tr_args t3 = tr_args t ++ [call_args c] ++ more) as Hargs.
  { transitivity (tr_args t2); [by destruct k|]. rewrite Ha. cbn [logged tr_args]. by rewrite <-(assoc_L (++)). }
  assert (tr_events t3 = tr_events t2 ∧ tr_machinePids t3 = tr_machinePids t2 ∧ tr_firstEvent t3 = tr_firstEvent t2) as (He3 & Hp3 & Hf3) by (by destruct k).
  assert (∀ a m, tr_args t !! a = Some m → tr_args t3 !! a = Some m) as Hkeep by (intros a m Hm'; rewrite Hargs; by apply lookup_app_l_Some).
  assert (tr_args t3 !! length (tr_args t) = Some (call_args c)) as Hc by (rewrite Hargs; by rewrite lookup_app_r, Nat.sub_diag by lia).
  assert (∀ i, i < length calls → ev_Args (extend ev (length calls) event i) = ev_Args (ev i)) as Hold by (intros; by rewrite extend_lt).
  pose proof (event_ts_ok ev calls c t Hl) as Hts.
  split.
  - rewrite Hf3, Ht4. cbn [logged tr_firstEvent]. rewrite (lg_first _ _ _ Hl). destruct calls; done.
  - intros i d [Hi|[Hlen [Hi <-]%list_lookup_singleton_Some]]%lookup_app_Some.
    + pose proof (lookup_lt_Some _ _ _ Hi). rewrite extend_lt by done. destruct (lg_ev _ _ _ Hl i d Hi) as (P1 & P2 & P3).
      rewrite seen_snoc, pid_of_see, P1, first_snoc by (by intros ->). done.
    + assert (i = length calls) as -> by lia. rewrite extend_eq. cbn [event ev_Pid ev_Ts ev_Ph ev_Name ev_Cat]. by rewrite Hp, Hts.
  - intros k'. unfold t3. rewrite events_of_set. rewrite Hhist. assert (∀ j, events_of (with_pools pools t2) j = events_of t j) as Hev.
    { intros []; simpl; by rewrite ?Ht1, ?Ht2. }
    case_decide as Hkk; [|by rewrite app_nil_r, Hev, (lg_history _ _ _ Hl)]. subst k'. cbn [default from_option id].
    rewrite <-(lg_history _ _ _ Hl), <-Hev. by destruct k.
  - rewrite Hp3, He3. eapply machines_ok_mem; [exact Hm|]. intros e m _. rewrite Hargs, Ha. cbn [logged tr_args]. by rewrite <-(assoc_L (++)).
  - intros i. rewrite length_app, Hargs, !length_app. simpl. intros Hi. destruct (decide (i = length calls)) as [->|Hne].
    + rewrite extend_eq. simpl. lia.
    + rewrite extend_lt by lia. pose proof (lg_range _ _ _ Hl i). lia.
  - intros e He. rewrite He3 in He. rewrite Hargs, !length_app. destruct (Hnew e He) as [Hin|[Hin Hmore]].
    + destruct (lg_range_events _ _ _ Hl e Hin) as [Hlt Hne]. split; [lia|]. intros i Hi. rewrite ?length_app in Hi. simpl in Hi.
      destruct (decide (i = length calls)) as [->|Hn]; [rewrite extend_eq; simpl; lia|]. rewrite extend_lt by lia. apply Hne. lia.
    + cbn [logged tr_args] in Hin. rewrite length_app in Hin. simpl in Hin. split.
      * destruct more; [done|simpl; lia].
      * intros i Hi. rewrite ?length_app in Hi. simpl in Hi. destruct (decide (i = length calls)) as [->|Hn]; [rewrite extend_eq; simpl; lia|].
        rewrite extend_lt by lia. pose proof (lg_range _ _ _ Hl i). lia.
  - intros i j. rewrite !length_app. simpl. intros Hi Hj. destruct (decide (i = length calls)) as [->|Hni], (decide (j = length calls)) as [->|Hnj];
      rewrite ?extend_eq; rewrite ?extend_lt by lia; [done| | |].
    + pose proof (lg_range _ _ _ Hl j). simpl. lia.
    + pose proof (lg_range _ _ _ Hl i). simpl. lia.
    + apply (lg_inj _ _ _ Hl); lia.
  - intros i d Hd Hn. rewrite Hsp, fmap_app, elem_of_app in Hn. apply lookup_app_Some in Hd as [Hi|[Hlen [Hi <-]%list_lookup_singleton_Some]].
    + rewrite Hold by (by eapply lookup_lt_Some). apply Hkeep, (lg_plain _ _ _ Hl); [done|tauto].
    + assert (i = length calls) as -> by lia. rewrite extend_eq. exact Hc.
  - intros b e cb ce. rewrite Hsp. intros [Hin|Hin]%elem_of_app Hcb Hce.
    + destruct (bo_spans _ Hb b e Hin) as (_ & cb' & ce' & Hcb' & Hce' & _).
      rewrite (lookup_app_l_Some _ _ _ _ Hcb') in Hcb. rewrite (lookup_app_l_Some _ _ _ _ Hce') in Hce. injection Hcb as <-. injection Hce as <-.
      rewrite Hold by (by eapply lookup_lt_Some). destruct (lg_span _ _ _ Hl b e cb' ce' Hin Hcb' Hce') as (m & Hm' & Hu). exists m. eauto.
    + destruct (Hsp' b e Hin) as (-> & Hnb & Hlt). rewrite Hold by done. exists (call_args cb). split; [|done]. apply Hkeep, (lg_plain _ _ _ Hl); [|done].
      by rewrite lookup_app_l in Hcb.
Qed.

(** * Thread numbers of spans *)

Lemma assignTid_begin mach ph events pools pool tid :
  ph = "B" → Acquire (default [] (pools !! mach)) = (pool, tid) → assignTid mach ph events pools = Ret (<[mach := pool]> pools, tid).
Proof. intros -> Ha. unfold assignTid. simpl. by rewrite Ha. Qed.

Lemma assignTid_end mach ph events pools pool e :
  ph = "E" → list.last events = Some e → ev_Ph e = "B" → Release (ev_Tid e) (default [] (pools !! mach)) = Ret pool →
  assignTid mach ph events pools = Ret (<[mach := pool]> pools, ev_Tid e).
Proof. intros -> Hl Hp Hr. unfold assignTid. simpl. by rewrite Hl, Hp, Hr. Qed.

(** [b1] had not ended when [b2] began. *)
Definition overlaps (calls : list call) (b1 b2 : nat) : Prop :=
  b1 < b2 ∧ ((∃ k, bk_open (book_of calls) !! k = Some b1) ∨ ∃ e, (b1, e) ∈ bk_spans (book_of calls) ∧ b2 < e).

#[local] Abbreviation pool_of pools ptr := (default [] (pools !! Some ptr)).

Record tids_ok (tid : nat → Z) (calls : list call) (pools : gmap (option nat) tidPool) : Prop := mkTidsOk {
  td_pool : ∀ ptr, count_used (pool_of pools ptr) = num_open calls ptr ∧ length (pool_of pools ptr) = peak calls ptr;
  td_open : ∀ k b c, bk_open (book_of calls) !! k = Some b → calls !! b = Some c →
    ∃ i, tid b = (Z.of_nat i + 1)%Z ∧ pool_of pools (ma_ptr (cl_mach c)) !! i = Some false;
  td_range : ∀ b c, calls !! b = Some c → cl_begin c = true → (1 <= tid b <= Z.of_nat (peak calls (ma_ptr (cl_mach c))))%Z;
  td_apart : ∀ b1 b2 c1 c2, calls !! b1 = Some c1 → calls !! b2 = Some c2 → cl_begin c1 = true → cl_begin c2 = true →
    ma_ptr (cl_mach c1) = ma_ptr (cl_mach c2) → overlaps calls b1 b2 → tid b1 ≠ tid b2;
}.

Lemma peak_mono calls c ptr : peak calls ptr ≤ peak (calls ++ [c]) ptr.
Proof. rewrite peak_snoc. lia. Qed.

Lemma tids_ok_init tid : tids_ok tid [] ∅.
Proof.
  split.
  - intros ptr. rewrite lookup_empty. done.
  - intros k b c. by rewrite lookup_nil.
  - intros b c. by rewrite lookup_nil.
  - intros b1 b2 c1 c2. by rewrite lookup_nil.
Qed.

Lemma tids_begin ev calls c k pools e :
  tids_ok (ev_Tid ∘ ev) calls pools → book_ok calls → key_of c = Some k → cl_begin c = true → bk_open (book_of calls) !! k = None →
  let ptr := ma_ptr (cl_mach c) in
  let '(pool, tid) := Acquire (pool_of pools ptr) in
  ev_Tid e = tid → tids_ok (ev_Tid ∘ extend ev (length calls) e) (calls ++ [c]) (<[Some ptr := pool]> pools).
Proof.
  intros Ht Hb Hk Hbeg Ho ptr. destruct (Acquire_spec (pool_of pools ptr)) as (pool & i & -> & Hi & Hfree & Hkeep & Hcount & Hlen).
  intros Htid. destruct (td_pool _ _ _ Ht ptr) as [Hc1 Hl1].
  assert (bk_open (book_of (calls ++ [c])) = <[k := length calls]> (bk_open (book_of calls)) ∧ bk_spans (book_of (calls ++ [c])) = bk_spans (book_of calls)) as [Hopen Hspans].
  { rewrite book_snoc. unfold book_step. by rewrite Hk, Hbeg, book_next. }
  assert (∀ b x, calls !! b = Some x → ev_Tid (extend ev (length calls) e b) = ev_Tid (ev b)) as Hold.
  { intros b x Hx%lookup_lt_Some. by rewrite extend_lt. }
  assert (∀ ptr', pool_of (<[Some ptr := pool]> pools) ptr' = if decide (ptr = ptr') then pool else pool_of pools ptr') as Hpool.
  { intros ptr'. case_decide as Hp; [subst; by rewrite lookup_insert_eq|]. rewrite lookup_insert_ne; [done|congruence]. }
  assert (length pool = peak (calls ++ [c]) ptr) as Hpk.
  { rewrite peak_snoc, (num_open_begin calls c k) by done. rewrite decide_True by done. by rewrite Hlen, Hl1, Hc1. }
  split.
  - intros ptr'. rewrite Hpool, peak_snoc, (num_open_begin calls c k) by done. fold ptr. case_decide as Hp; [subst ptr'|].
    + rewrite Hcount, Hc1, Hlen, Hl1. split; [done|]. by rewrite Hc1.
    + destruct (td_pool _ _ _ Ht ptr') as [Hc' Hl']. split; [done|]. rewrite Hl'. rewrite <-Hc' in *.
      pose proof (count_used_le (pool_of pools ptr')). lia.
  - rewrite Hopen. intros k' b x [[<- <-]|[_ Hb']]%lookup_insert_Some Hx.
    + rewrite lookup_app_r, Nat.sub_diag in Hx by lia. injection Hx as <-. exists i. cbn [compose]. rewrite extend_eq, Hpool, decide_True by done. done.
    + rewrite lookup_app_l in Hx by (by eapply open_range). destruct (td_open _ _ _ Ht k' b x Hb' Hx) as (j & Hj & Hpj). exists j.
      cbn [compose]. rewrite (Hold b x Hx), Hpool. split; [done|]. case_decide as Hp; [|done]. apply Hkeep. fold ptr in Hp. by rewrite Hp.
  - intros b x [Hx|[Hlb [Hz <-]%list_lookup_singleton_Some]]%lookup_app_Some Hbx; cbn [compose].
    + rewrite (Hold b x Hx). pose proof (td_range _ _ _ Ht b x Hx Hbx). pose proof (peak_mono calls c (ma_ptr (cl_mach x))). cbn [compose] in *. lia.
    + assert (b = length calls) as -> by lia. rewrite extend_eq, Htid. fold ptr. rewrite <-Hpk. apply lookup_lt_Some in Hi. lia.
  - intros b1 b2 c1 c2 [H1|[Hlb1 [Hz <-]%list_lookup_singleton_Some]]%lookup_app_Some H2 Hb1 Hb2 Hptr [Hlt Hov].
    2: { apply lookup_lt_Some in H2. rewrite length_app in H2. simpl in H2. lia. }
    rewrite Hopen, Hspans in Hov. cbn [compose]. rewrite (Hold b1 c1 H1).
    assert ((∃ k, bk_open (book_of calls) !! k = Some b1) ∨ ∃ e, (b1, e) ∈ bk_spans (book_of calls) ∧ b2 < e) as Hov'.
    { destruct Hov as [[k' [[_ <-]|[_ Ho']]%lookup_insert_Some]|Hov]; [apply lookup_lt_Some in H1; lia|left; by exists k'|by right]. }
    apply lookup_app_Some in H2 as [H2|[Hlb2 [Hz <-]%list_lookup_singleton_Some]].
    + rewrite (Hold b2 c2 H2). eapply (td_apart _ _ _ Ht); [done..|]. by split.
    + assert (b2 = length calls) as -> by lia. rewrite extend_eq, Htid. destruct Hov' as [[k' Ho']|(e' & He' & Hlt')].
      * destruct (td_open _ _ _ Ht k' b1 c1 Ho' H1) as (j & Hj & Hpj). cbn [compose] in Hj. rewrite Hj. intros Heq.
        assert (j = i) as -> by lia. apply Hfree. unfold ptr. by rewrite <-Hptr.
      * destruct (bo_spans _ Hb b1 e' He') as (_ & cb & ce & _ & Hce%lookup_lt_Some & _). lia.
Qed.

Lemma tids_end ev calls c k b c0 pools e :
  tids_ok (ev_Tid ∘ ev) calls pools → book_ok calls → key_of c = Some k → cl_begin c = false → bk_open (book_of calls) !! k = Some b →
  calls !! b = Some c0 → cl_mach c0 = cl_mach c →
  let ptr := ma_ptr (cl_mach c) in
  ∃ pool, Release (ev_Tid (ev b)) (pool_of pools ptr) = Ret pool ∧
    tids_ok (ev_Tid ∘ extend ev (length calls) e) (calls ++ [c]) (<[Some ptr := pool]> pools).
Proof.
  intros Ht Hb Hk Hbeg Ho Hc0 Hm ptr. destruct (td_open _ _ _ Ht k b c0 Ho Hc0) as (i & Hi & Hpi). cbn [compose] in Hi. rewrite Hm in Hpi. fold ptr in Hpi.
  exists (<[i := true]> (pool_of pools ptr)). split; [by rewrite Hi; apply Release_spec|].
  assert (bk_open (book_of (calls ++ [c])) = delete k (bk_open (book_of calls)) ∧ bk_spans (book_of (calls ++ [c])) = bk_spans (book_of calls) ++ [(b, length calls)]) as [Hopen Hspans].
  { rewrite book_snoc. unfold book_step. by rewrite Hk, Hbeg, Ho, book_next. }
  assert (∀ b x, calls !! b = Some x → ev_Tid (extend ev (length calls) e b) = ev_Tid (ev b)) as Hold.
  { intros b' x Hx%lookup_lt_Some. by rewrite extend_lt. }
  assert (∀ ptr', pool_of (<[Some ptr := <[i := true]> (pool_of pools ptr)]> pools) ptr' = if decide (ptr = ptr') then <[i := true]> (pool_of pools ptr) else pool_of pools ptr') as Hpool.
  { intros ptr'. case_decide as Hp; [subst; by rewrite lookup_insert_eq|]. rewrite lookup_insert_ne; [done|congruence]. }
  assert (∀ b x, (calls ++ [c]) !! b = Some x → cl_begin x = true → calls !! b = Some x) as Hlow.
  { intros b' x [Hx|[_ [_ <-]%list_lookup_singleton_Some]]%lookup_app_Some Hbx; [done|congruence]. }
  split.
  - intros ptr'. destruct (td_pool _ _ _ Ht ptr') as [Hc' Hl']. rewrite Hpool, peak_snoc.
    pose proof (num_open_end calls c k b c0 ptr' Hb Hk Hbeg Ho Hc0 Hm) as Hno. fold ptr in Hno.
    pose proof (count_used_le (pool_of pools ptr')). case_decide as Hp; [subst ptr'|].
    + pose proof (count_used_insert_true _ _ Hpi). rewrite length_insert, Hl'. split; lia.
    + rewrite Hl', Hc'. split; lia.
  - rewrite Hopen. intros k' b' x [Hne Hb']%lookup_delete_Some Hx. rewrite lookup_app_l in Hx by (by eapply open_range).
    destruct (td_open _ _ _ Ht k' b' x Hb' Hx) as (j & Hj & Hpj). exists j. cbn [compose] in *. rewrite (Hold b' x Hx), Hpool. split; [done|].
    case_decide as Hp; [|done]. rewrite <-Hp in Hpj. rewrite list_lookup_insert_ne; [done|]. intros ->.
    assert (b' ≠ b) as Hbb.
    { intros ->. destruct (bo_open _ Hb k' b Hb') as (x1 & Hx1 & Hk1 & _), (bo_open _ Hb k b Ho) as (x2 & Hx2 & Hk2 & _). congruence. }
    destruct (bo_open _ Hb k' b' Hb') as (x1 & Hx1 & _ & Hg1 & _), (bo_open _ Hb k b Ho) as (x2 & Hx2 & _ & Hg2 & _).
    rewrite Hx in Hx1. injection Hx1 as <-. rewrite Hc0 in Hx2. injection Hx2 as <-.
    destruct (decide (b' < b)) as [Hlt|Hlt].
    + apply (td_apart _ _ _ Ht b' b x c0 Hx Hc0 Hg1 Hg2); [by rewrite <-Hp, Hm|split; [done|left; by exists k']|]. cbn [compose]. congruence.
    + apply (td_apart _ _ _ Ht b b' c0 x Hc0 Hx Hg2 Hg1); [by rewrite <-Hp, Hm|split; [lia|left; by exists k]|]. cbn [compose]. congruence.
  - intros b' x Hx Hbx. apply Hlow in Hx; [|done]. cbn [compose]. rewrite (Hold b' x Hx). pose proof (td_range _ _ _ Ht b' x Hx Hbx).
    pose proof (peak_mono calls c (ma_ptr (cl_mach x))). cbn [compose] in *. lia.
  - intros b1 b2 c1 c2 H1 H2 Hb1 Hb2 Hptr [Hlt Hov]. apply Hlow in H1; [|done]. apply Hlow in H2; [|done]. cbn [compose].
    rewrite (Hold b1 c1 H1), (Hold b2 c2 H2). apply (td_apart _ _ _ Ht b1 b2 c1 c2 H1 H2 Hb1 Hb2 Hptr). split; [done|]. rewrite Hopen, Hspans in Hov.
    destruct Hov as [[k' [_ Ho']%lookup_delete_Some]|(e' & [He'|[= -> ->]%list_elem_of_singleton]%elem_of_app & Hlt')]; [left; by exists k'|right; by exists e'|].
    left. by exists k.
Qed.

(** * Rendering *)

Definition with_args (mem : list argmap) (t : tracer) : tracer :=
  mkTracer (tr_events t) (tr_taskEvents t) (tr_compileEvents t) (tr_machinePids t) (tr_machineTidPools t) (tr_firstEvent t) mem.

(** The arguments of a span have been merged. *)
Definition merged (ev : nat → Event) (calls : list call) (mem : list argmap) (s : nat * nat) : Prop :=
  ∀ cb ce, calls !! s.1 = Some cb → calls !! s.2 = Some ce → mem !! ev_Args (ev s.1) = Some (call_args cb ∪ call_args ce).

Lemma span_args ev calls t b e cb ce :
  log_ok ev calls t → book_ok calls → (b, e) ∈ bk_spans (book_of calls) → calls !! b = Some cb → calls !! e = Some ce →
  merge_args (ev e) (ev b) (tr_args t) = alter (λ m, m ∪ call_args ce) (ev_Args (ev b)) (tr_args t).
Proof.
  intros Hl Hb Hin Hcb Hce. unfold merge_args. rewrite (lg_plain _ _ _ Hl e ce Hce); [done|].
  intros ([b' e'] & Hbe & Hin')%list_elem_of_fmap. simpl in Hbe. subst b'.
  destruct (bo_spans _ Hb e e' Hin') as (_ & x & _ & Hx & _ & Hbeg & _). destruct (bo_spans _ Hb b e Hin) as (_ & _ & y & _ & Hy & _ & Hend & _). congruence.
Qed.

Lemma merge_one ev calls t b e :
  log_ok ev calls t → book_ok calls → (b, e) ∈ bk_spans (book_of calls) →
  let mem := merge_args (ev e) (ev b) (tr_args t) in
  log_ok ev calls (with_args mem t) ∧ merged ev calls mem (b, e) ∧
  ∀ s, s ∈ bk_spans (book_of calls) → merged ev calls (tr_args t) s → merged ev calls mem s.
Proof.
  intros Hl Hb Hin mem. destruct (bo_spans _ Hb b e Hin) as (Hlt & cb & ce & Hcb & Hce & _).
  assert (mem = alter (λ m, m ∪ call_args ce) (ev_Args (ev b)) (tr_args t)) as Hmem by (by eapply span_args).
  destruct (lg_span _ _ _ Hl b e cb ce Hin Hcb Hce) as (m & Hm & Hu).
  assert (mem !! ev_Args (ev b) = Some (call_args cb ∪ call_args ce)) as Hnew by (by rewrite Hmem, list_lookup_alter_eq, Hm; simpl; rewrite Hu).
  assert (∀ a, a ≠ ev_Args (ev b) → mem !! a = tr_args t !! a) as Hother by (intros a Ha; rewrite Hmem; by apply list_lookup_alter_ne).
  assert (length mem = length (tr_args t)) as Hlen by (rewrite Hmem; apply length_alter).
  assert (∀ b' e', (b', e') ∈ bk_spans (book_of calls) → ev_Args (ev b') = ev_Args (ev b) → b' = b ∧ e' = e) as Huniq.
  { intros b' e' Hin' Ha. destruct (bo_spans _ Hb b' e' Hin') as (_ & x & _ & Hx%lookup_lt_Some & _).
    assert (b' = b) as -> by (apply (lg_inj _ _ _ Hl); [done|by eapply lookup_lt_Some|done]). split; [done|].
    pose proof (bo_nodup _ Hb) as Hnd. apply list_elem_of_lookup in Hin as [i Hi], Hin' as [j Hj].
    assert (i = j) as -> by (eapply (NoDup_lookup _ _ _ b Hnd); by rewrite list_lookup_fmap, ?Hi, ?Hj). congruence. }
  split_and!.
  - split; cbn [with_args tr_args tr_events tr_machinePids]; try apply Hl.
    + eapply machines_ok_mem; [apply Hl|]. intros x mx Hx. rewrite Hother; [done|].
      destruct (lg_range_events _ _ _ Hl x Hx) as [_ Hne]. apply not_eq_sym, Hne. by eapply lookup_lt_Some.
    + rewrite Hlen. apply Hl.
    + rewrite Hlen. apply Hl.
    + intros i c Hc Hn. rewrite Hother; [by apply (lg_plain _ _ _ Hl)|]. intros Ha.
      assert (i = b) as ->; [|apply Hn, list_elem_of_fmap; by exists (b, e)].
      apply (lg_inj _ _ _ Hl); [by eapply lookup_lt_Some..|done].
    + intros b' e' cb' ce' Hin' Hcb' Hce'. destruct (decide (ev_Args (ev b') = ev_Args (ev b))) as [Ha|Ha].
      * destruct (Huniq b' e' Hin' Ha) as [-> ->]. rewrite Hcb in Hcb'. rewrite Hce in Hce'. injection Hcb' as <-. injection Hce' as <-.
        exists (call_args cb ∪ call_args ce). split; [done|]. by rewrite <-(assoc_L (∪)), (idemp_L (∪)).
      * rewrite Hother by done. by apply (lg_span _ _ _ Hl b' e').
  - intros x y Hx Hy. cbn [fst snd] in *. rewrite Hcb in Hx. rewrite Hce in Hy. injection Hx as <-. by injection Hy as <-.
  - intros [b' e'] Hin' Hmg x y Hx Hy. cbn [fst snd] in *. destruct (decide (ev_Args (ev b') = ev_Args (ev b))) as [Ha|Ha].
    + destruct (Huniq b' e' Hin' Ha) as [-> ->]. rewrite Hcb in Hx. rewrite Hce in Hy. injection Hx as <-. by injection Hy as <-.
    + rewrite Hother by done. by apply Hmg.
Qed.

Lemma merge_spans_ok ev calls t ps :
  log_ok ev calls t → book_ok calls → (∀ s, s ∈ ps → s ∈ bk_spans (book_of calls)) →
  log_ok ev calls (with_args (merge_spans ev ps (tr_args t)) t) ∧ (∀ s, s ∈ ps → merged ev calls (merge_spans ev ps (tr_args t)) s) ∧
  ∀ s, s ∈ bk_spans (book_of calls) → merged ev calls (tr_args t) s → merged ev calls (merge_spans ev ps (tr_args t)) s.
Proof.
  intros Hl Hb. revert t Hl. induction ps as [|[b e] ps IH]; intros t Hl Hps.
  { split_and!; [by destruct t|intros s ?%elem_of_nil; done|done]. }
  destruct (merge_one ev calls t b e Hl Hb) as (Hl1 & Hm1 & Hk1); [apply Hps; by left|].
  destruct (IH _ Hl1) as (Hl2 & Hm2 & Hk2); [intros s Hs; apply Hps; by right|]. cbn [with_args tr_args] in *.
  change (merge_spans ev ((b, e) :: ps) (tr_args t)) with (merge_spans ev ps (merge_args (ev e) (ev b) (tr_args t))).
  split_and!; [done| |].
  - intros s [->|Hs]%elem_of_cons; [|by apply Hm2]. apply Hk2; [apply Hps; by left|done].
  - intros s Hs Hmg. apply Hk2; [done|]. by apply Hk1.
Qed.

Lemma coalesce_all_ok ev calls t ks l mem :
  log_ok ev calls t → book_ok calls →
  coalesce_all (history ev calls <$> ks) l mem =
  (l ++ ((λ s : nat * nat, complete (ev s.2) (ev s.1)) <$> concat (spans_of calls <$> ks)), merge_spans ev (concat (spans_of calls <$> ks)) mem).
Proof.
  intros Hl Hb. revert l mem. induction ks as [|k ks IH]; intros l mem; [by rewrite app_nil_r|].
  rewrite fmap_cons. cbn [coalesce_all]. unfold history at 1. rewrite coalesce_spans.
  - rewrite IH. cbn [fmap list_fmap concat]. unfold merge_spans. by rewrite foldl_app, fmap_app, <-(assoc_L (++)).
  - intros [b e] [_ Hs]%list_elem_of_filter. destruct (bo_spans _ Hb b e Hs) as (_ & cb & ce & Hcb & Hce & Hbeg & Hend & _). cbn [fst snd].
    destruct (lg_ev _ _ _ Hl b cb Hcb) as (_ & _ & -> & _), (lg_ev _ _ _ Hl e ce Hce) as (_ & _ & -> & _). unfold call_ph. by rewrite Hbeg, Hend.
  - intros b Ho. destruct (bo_open _ Hb k b Ho) as (c & Hc & _ & Hbeg & _). destruct (lg_ev _ _ _ Hl b c Hc) as (_ & _ & -> & _). unfold call_ph. by rewrite Hbeg.
Qed.

(** The elements of a list, grouped by a key. *)
Lemma grouped {A K} `{EqDecision K} (f : A → option K) (ks : list K) (l : list A) :
  NoDup ks → (∀ x, x ∈ l → ∃ k, k ∈ ks ∧ f x = Some k) → concat ((λ k, filter (λ x, f x = Some k) l) <$> ks) ≡ₚ l.
Proof.
  intros Hnd. revert l. induction Hnd as [|k ks Hk Hnd IH]; intros l Hl.
  - destruct l as [|x l]; [done|]. destruct (Hl x (list_elem_of_here _ _)) as (k & ?%elem_of_nil & _). done.
  - rewrite fmap_cons. cbn [concat]. etrans; [|apply (filter_app_complement (λ x, f x = Some k) l)]. apply Permutation_app_head.
    rewrite <-(IH (filter (λ x, ¬ f x = Some k) l)).
    + apply Permutation_refl'. f_equal. apply list_fmap_ext. intros i k' Hk'%list_elem_of_lookup_2. rewrite list_filter_filter.
      apply filter_ext_elem. intros x _. split; [|tauto]. intros Hx. split; [done|]. intros Hx'. congruence.
    + intros x [Hn Hx]%list_elem_of_filter. destruct (Hl x Hx) as (k' & [->|Hin]%elem_of_cons & Hf); [done|by exists k'].
Qed.

(** * Traces *)

Section traces.
Context (range_tasks : gmap nat (list Event) → list (list Event)) (range_compiles : gmap (string * Z) (list Event) → list (list Event)).
Context (RANGE_T : ∀ m, range_tasks m ≡ₚ (map_to_list m).*2) (RANGE_C : ∀ m, range_compiles m ≡ₚ (map_to_list m).*2).

Definition run_op (o : trace_op) (t : tracer) : outcome tracer :=
  match o with
  | oEvent c => tracer_Event (cl_now c) (Some (cl_mach c)) (cl_sub c) (call_ph c) (cl_args c) t
  | oMarshal => Ret (fst (Marshal range_tasks range_compiles t))
  end.
Fixpoint run_ops (ops : list trace_op) (t : tracer) : outcome tracer :=
  match ops with
  | [] => Ret t
  | o :: ops => t ← run_op o t; run_ops ops t
  end.

(** The values of a map, in the order of its keys. *)
Lemma range_keys {K} `{Countable K} (m : gmap K (list Event)) (vs : list (list Event)) (h : K → list Event) :
  vs ≡ₚ (map_to_list m).*2 → (∀ k es, m !! k = Some es → es = h k) →
  ∃ ks, vs = h <$> ks ∧ NoDup ks ∧ ∀ k, is_Some (m !! k) → k ∈ ks.
Proof.
  intros Hp Hh. destruct (Permutation_map_inv _ _ Hp) as (l & -> & Hl). exists l.*1. split_and!.
  - rewrite <-list_fmap_compose. apply list_fmap_ext. intros i [k es] Hi. apply Hh, elem_of_map_to_list. rewrite Hl. by eapply list_elem_of_lookup_2.
  - assert (l.*1 ≡ₚ (map_to_list m).*1) as -> by (by rewrite Hl). apply NoDup_fst_map_to_list.
  - intros k [es Hk]. apply elem_of_map_to_list in Hk. rewrite Hl in Hk. apply list_elem_of_fmap. by exists (k, es).
Qed.

(** Rendering, and what it leaves. *)
Lemma Marshal_ok ev calls t :
  log_ok ev calls t → book_ok calls →
  ∃ ps mem, Marshal range_tasks range_compiles t =
      (with_args mem t, render mem <$> tr_events t ++ ((λ s : nat * nat, complete (ev s.2) (ev s.1)) <$> ps)) ∧
    ps ≡ₚ bk_spans (book_of calls) ∧ log_ok ev calls (with_args mem t) ∧ ∀ s, s ∈ ps → merged ev calls mem s.
Proof.
  intros Hl Hb.
  destruct (range_keys (tr_taskEvents t) _ (history ev calls ∘ kTask) (RANGE_T _)) as (k1 & Hv1 & Hn1 & Hi1).
  { intros k es Hk. cbn [compose]. by rewrite <-(lg_history _ _ _ Hl (kTask k)); simpl; rewrite Hk. }
  destruct (range_keys (tr_compileEvents t) _ (history ev calls ∘ (λ x, kCompile x.1 x.2)) (RANGE_C _)) as (k2 & Hv2 & Hn2 & Hi2).
  { intros [a i] es Hk. cbn [compose fst snd]. by rewrite <-(lg_history _ _ _ Hl (kCompile a i)); simpl; rewrite Hk. }
  set (ks := (kTask <$> k1) ++ ((λ x, kCompile x.1 x.2) <$> k2)). set (ps := concat (spans_of calls <$> ks)).
  assert (ps ≡ₚ bk_spans (book_of calls)) as Hps.
  { apply (grouped (λ s : nat * nat, calls !! s.1 ≫= key_of)).
    - apply list.NoDup_app. split_and!.
      + by apply (NoDup_fmap_2 kTask).
      + intros k (x & -> & _)%list_elem_of_fmap (y & [=] & _)%list_elem_of_fmap.
      + by apply NoDup_fmap_2; [apply _|].
    - intros [b e] Hs. destruct (bo_spans _ Hb b e Hs) as (_ & cb & ce & Hcb & _ & _ & _ & _ & [k Hk] & _). exists k. cbn [fst]. rewrite Hcb. split; [|done].
      assert (is_Some (events_of t k)) as Hsome.
      { pose proof (lg_history _ _ _ Hl k) as Hh. destruct (events_of t k); [by eexists|]. exfalso.
        assert (ev b ∈ history ev calls k) as Hin; [|rewrite <-Hh in Hin; by apply elem_of_nil in Hin].
        unfold history. apply elem_of_app. left. apply list_elem_of_In, in_concat. exists [ev b; ev e]. split; [|by left].
        apply list_elem_of_In, list_elem_of_fmap. exists (b, e). split; [done|]. apply list_elem_of_filter. cbn [fst]. by rewrite Hcb. }
      unfold ks. apply elem_of_app. destruct k as [p|a i]; [left|right]; apply list_elem_of_fmap; [exists p|exists (a, i)]; auto. }
  exists ps, (merge_spans ev ps (tr_args t)).
  destruct (merge_spans_ok ev calls t ps Hl Hb) as (Hl' & Hmg & _); [intros s Hs; by rewrite <-Hps|]. split_and!; [|done..].
  unfold Marshal. rewrite Hv1, Hv2, !list_fmap_compose. rewrite (coalesce_all_ok ev calls t) by done. rewrite (coalesce_all_ok ev calls t) by done.
  replace ps with (concat (spans_of calls <$> (kTask <$> k1)) ++ concat (spans_of calls <$> ((λ x, kCompile x.1 x.2) <$> k2)))
    by (unfold ps, ks; by rewrite fmap_app, concat_app).
  unfold merge_spans. rewrite foldl_app, (fmap_app (λ s : nat * nat, complete (ev s.2) (ev s.1))), (assoc_L (++)). done.
Qed.

Lemma calls_of_snoc ops o : calls_of (ops ++ [o]) = calls_of ops ++ match o with oEvent c => [c] | oMarshal => [] end.
Proof. unfold calls_of. rewrite omap_app. by destruct o. Qed.

Lemma run_ops_snoc ops o t : run_ops (ops ++ [o]) t = (t ← run_ops ops t; run_op o t).
Proof.
  revert t. induction ops as [|o' ops IH]; intros t; simpl; [by destruct (run_op o t)|]. destruct (run_op o' t) as [t'| |]; simpl; [apply IH|done..].
Qed.

Lemma event_ok ev calls c t :
  log_ok ev calls t → tids_ok (ev_Tid ∘ ev) calls (tr_machineTidPools t) → protocol calls → protocol (calls ++ [c]) →
  ∃ t' e, run_op (oEvent c) t = Ret t' ∧ log_ok (extend ev (length calls) e) (calls ++ [c]) t' ∧
    tids_ok (ev_Tid ∘ extend ev (length calls) e) (calls ++ [c]) (tr_machineTidPools t').
Proof.
  intros Hl Ht Hp Hpc. pose proof (protocol_book _ Hp) as Hb. cbn [run_op].
  destruct (machine_pid (Some (cl_mach c)) (event_ts (cl_now c) t) (logged c t)) as [t2 pid] eqn:Hpid.
  assert (tr_machineTidPools t2 = tr_machineTidPools t ∧ ∀ k, events_of t2 k = events_of t k) as [Hpools Hev].
  { unfold machine_pid in Hpid. destruct (tr_machinePids (logged c t) !! _); injection Hpid as <- <-; (split; [done|by intros []]). }
  inversion Hpc as [Hnil|calls' c' k Hp' Hargs Hk Hbeg Ho Heq|calls' c' k b c0 Hp' Hargs Hk Hbeg Ho Hc0 Hm Heq];
    [by destruct calls|apply app_inj_tail in Heq as [-> ->]..].
  - pose proof (tids_begin ev calls c k (tr_machineTidPools t)) as Hbegin. cbv zeta in Hbegin.
    destruct (Acquire (pool_of (tr_machineTidPools t) (ma_ptr (cl_mach c)))) as [pool tid] eqn:Hacq.
    rewrite (tracer_Event_eq c k t Hk Hargs), Hpid. cbv zeta. rewrite Hpools.
    rewrite (assignTid_begin _ _ _ _ pool tid) by (done || (unfold call_ph; by rewrite Hbeg)). cbn [mbind outcome_bind].
    eexists _, _. split; [reflexivity|]. split.
    + eapply (log_ok_event ev calls c k t t2 pid tid _ []); [done..| |done|].
      * split; [|intros b e ?%elem_of_nil; done]. rewrite book_snoc, app_nil_r. unfold book_step. by rewrite Hk, Hbeg.
      * intros k'. by apply history_begin.
    + destruct k; by apply Hbegin.
  - destruct (tids_end ev calls c k b c0 (tr_machineTidPools t) (mkEvent pid (ev_Tid (ev b)) (event_ts (cl_now c) t) (call_ph c) 0 (call_name c) (call_cat c) (length (tr_args t)))
      Ht Hb Hk Hbeg Ho Hc0 Hm) as (pool & Hrel & Ht').
    destruct (bo_open _ Hb k b Ho) as (cb & Hcb & _ & Hbb & Hnb). destruct (lg_ev _ _ _ Hl b cb Hcb) as (_ & _ & Hph & _).
    rewrite (tracer_Event_eq c k t Hk Hargs), Hpid. cbv zeta. rewrite Hpools.
    rewrite (assignTid_end _ _ _ _ pool (ev b)); [|unfold call_ph; by rewrite Hbeg| |by rewrite Hph; unfold call_ph; rewrite Hbb|done].
    2: { rewrite Hev, (lg_history _ _ _ Hl). by apply history_last. }
    cbn [mbind outcome_bind]. eexists _, _. split; [reflexivity|]. split.
    + eapply (log_ok_event ev calls c k t t2 pid _ _ [(b, length calls)]); [done..| |done|].
      * split; [by rewrite book_snoc; unfold book_step; rewrite Hk, Hbeg, Ho, book_next|].
        intros b' e' [= -> ->]%list_elem_of_singleton. split_and!; [done|done|by eapply lookup_lt_Some].
      * intros k'. by eapply history_end.
    + by destruct k.
Qed.

Lemma run_ops_ok ops :
  protocol (calls_of ops) →
  ∃ t ev, run_ops ops newTracer = Ret t ∧ log_ok ev (calls_of ops) t ∧ tids_ok (ev_Tid ∘ ev) (calls_of ops) (tr_machineTidPools t).
Proof.
  induction ops as [|o ops IH] using rev_ind; intros Hp.
  { exists newTracer, (λ _, mkEvent 0 0 0 "" 0 "" "" 0). split; [done|]. split; [apply log_ok_init|apply tids_ok_init]. }
  rewrite calls_of_snoc in *. rewrite run_ops_snoc. destruct o as [c|].
  - assert (protocol (calls_of ops)) as Hp'.
    { inversion Hp as [Hnil|? ? ? Hp' _ _ _ _ Heq|? ? ? ? ? Hp' _ _ _ _ _ _ Heq]; [by destruct (calls_of ops)|by apply app_inj_tail in Heq as [<- _]..]. }
    destruct (IH Hp') as (t & ev & -> & Hl & Ht). destruct (event_ok ev _ c t Hl Ht Hp' Hp) as (t' & e & He & Hl' & Ht').
    cbn [mbind outcome_bind]. rewrite He. by exists t', (extend ev (length (calls_of ops)) e).
  - rewrite app_nil_r in *. destruct (IH Hp) as (t & ev & -> & Hl & Ht). cbn [mbind outcome_bind run_op].
    destruct (Marshal_ok ev _ t Hl (protocol_book _ Hp)) as (ps & mem & -> & _ & Hl' & _). by exists (with_args mem t), ev.
Qed.

Lemma rendered_events ev calls t ps mem :
  log_ok ev calls (with_args mem t) → book_ok calls → ps ≡ₚ bk_spans (book_of calls) → (∀ s, s ∈ ps → merged ev calls mem s) →
  render mem <$> tr_events t = imap process_event (seen calls) ∧
  Some <$> (render mem <$> ((λ s : nat * nat, complete (ev s.2) (ev s.1)) <$> ps)) = span_event calls (ev_Tid ∘ ev) <$> ps.
Proof.
  intros Hl Hb Hps Hmg. pose proof (lg_machines _ _ _ Hl) as Hm. cbn [with_args tr_machinePids tr_events tr_args] in Hm. split.
  - apply list_eq. intros i. rewrite list_lookup_fmap, list_lookup_imap. destruct (seen calls !! i) as [m|] eqn:Hi.
    + destruct (mk_events _ _ _ _ Hm i m Hi) as (a & -> & Ha). simpl. unfold render. cbn [ev_Args]. by rewrite Ha.
    + rewrite lookup_ge_None_2; [done|]. rewrite (mk_length _ _ _ _ Hm). by apply lookup_ge_None_1.
  - rewrite <-!list_fmap_compose. apply list_fmap_ext. intros i [b e] Hi%list_elem_of_lookup_2. cbn [compose fst snd].
    assert ((b, e) ∈ bk_spans (book_of calls)) as Hin by (by rewrite <-Hps). destruct (bo_spans _ Hb b e Hin) as (_ & cb & ce & Hcb & Hce & _).
    unfold span_event. cbn [fst snd]. rewrite Hcb, Hce. cbn [mbind option_bind]. unfold render, complete. cbn [ev_Pid ev_Tid ev_Ts ev_Ph ev_Dur ev_Name ev_Cat ev_Args].
    destruct (lg_ev _ _ _ Hl b cb Hcb) as (P1 & P2 & _ & P4 & P5), (lg_ev _ _ _ Hl e ce Hce) as (_ & Q2 & _).
    pose proof (Hmg (b, e) Hi cb ce Hcb Hce) as Hargs. cbn [fst] in Hargs. rewrite Hargs, P2, Q2, P4, P5, (pid_in_of _ _ _ P1). done.
Qed.
End traces.

(** C34. Traces.  If what begins on a machine ends there before it begins again, the tracer
    accepts every sequence of events, also if the trace is rendered in between.  The trace
    then names the processes of the machines in the order of their first events, and has
    one complete event for each span between a begin and its end, with the time, the
    duration and the arguments of both.  Spans of a machine have thread numbers from 1 to the
    largest number of spans that were open at once, and spans that overlap have different
    ones. *)
Theorem tracer_correct range_tasks range_compiles ops :
  (∀ m, range_tasks m ≡ₚ (map_to_list m).*2) → (∀ m, range_compiles m ≡ₚ (map_to_list m).*2) → protocol (calls_of ops) →
  let calls := calls_of ops in
  ∃ t tid, run_ops range_tasks range_compiles ops newTracer = Ret t ∧
    (∃ xs, snd (Marshal range_tasks range_compiles t) = imap process_event (seen calls) ++ xs ∧
       Some <$> xs ≡ₚ span_event calls tid <$> bk_spans (book_of calls)) ∧
    (∀ ptr, length (default [] (tr_machineTidPools t !! Some ptr)) = peak calls ptr) ∧
    (∀ b c, calls !! b = Some c → cl_begin c = true → (1 <= tid b <= Z.of_nat (peak calls (ma_ptr (cl_mach c))))%Z) ∧
    ∀ b1 b2 c1 c2, calls !! b1 = Some c1 → calls !! b2 = Some c2 → cl_begin c1 = true → cl_begin c2 = true →
      ma_ptr (cl_mach c1) = ma_ptr (cl_mach c2) → overlaps calls b1 b2 → tid b1 ≠ tid b2.
Proof.
  intros RT RC Hp calls. destruct (run_ops_ok range_tasks range_compiles RT RC ops Hp) as (t & ev & Hrun & Hl & Ht).
  pose proof (protocol_book _ Hp) as Hb. exists t, (ev_Tid ∘ ev). split; [done|]. split.
  - destruct (Marshal_ok range_tasks range_compiles RT RC ev _ t Hl Hb) as (ps & mem & -> & Hps & Hl' & Hmg). cbn [snd].
    destruct (rendered_events ev _ t ps mem Hl' Hb Hps Hmg) as [He Hx]. eexists. rewrite fmap_app, He. split; [done|]. by rewrite Hx, Hps.
  - split; [intros ptr; apply (td_pool _ _ _ Ht)|]. split; [apply (td_range _ _ _ Ht)|apply (td_apart _ _ _ Ht)].
Qed.

(** An end on another machine than the begin, which the protocol excludes, is a panic. *)
Example foreign_end_panics :
  (t ← tracer_Event 0 (Some (mkMachine 0 "a")) (subTask 0 (mkTaskName 1 "inv1_map" 0 1)) "B" [] newTracer;
   tracer_Event 5 (Some (mkMachine 1 "b")) (subTask 0 (mkTaskName 1 "inv1_map" 0 1)) "E" [] t) = Panic "index out of range".
Proof. vm_compute. reflexivity. Qed.

(** Of two begins without an end, one stays in the trace. *)
Example orphan_begin_kept :
  match run_ops (λ m, (map_to_list m).*2) (λ m, (map_to_list m).*2)
    [oEvent (mkCall 0 (mkMachine 0 "a") (subTask 0 (mkTaskName 1 "inv1_map" 0 1)) true []);
     oEvent (mkCall 5000 (mkMachine 0 "a") (subTask 0 (mkTaskName 1 "inv1_map" 0 1)) true [])] newTracer with
  | Ret t => re_Ph <$> snd (Marshal (λ m, (map_to_list m).*2) (λ m, (map_to_list m).*2) t) = ["M"; "B"]
  | _ => False
  end.
Proof. vm_compute. reflexivity. Qed.
