(* ===== verification/SliceTrace.v ===== *)
(** Reports on traces (src/cmd/slicetrace): the invocations, tasks and statistics that the
    tool reads from the events of a trace. *)
From S2P Require Import Prelude Task Stats Tracer.

(** * Traces as read *)

(** A decoded JSON value; the numbers of a trace are whole. *)
#[warnings="-register-all"]
Inductive jsonValue := JNumber (z : Z) | JString (s : string) | JArray (l : list jsonValue) | JObject.

Record traceEvent := mkTraceEvent {
  te_Pid : Z;
  te_Tid : Z;
  te_Ts : Z;
  te_Ph : string;
  te_Dur : Z;
  te_Name : string;
  te_Cat : string;
  te_Args : gmap string jsonValue;
}.

(** What encoding and decoding make of an argument; errors are structs. *)
Definition json_arg (a : traceArg) : jsonValue :=
  match a with
  | TInt z => JNumber z
  | TString s => JString s
  | TStrings l => JArray (JString <$> l)
  | TError _ => JObject
  end.
Definition reread (e : rendered) : traceEvent :=
  mkTraceEvent (re_Pid e) (re_Tid e) (re_Ts e) (re_Ph e) (re_Dur e) (re_Name e) (re_Cat e) (json_arg <$> re_Args e).

(** * Names *)

Definition is_digit (c : Ascii.ascii) : bool := (48 <=? Ascii.nat_of_ascii c) && (Ascii.nat_of_ascii c <=? 57).

(** The longest prefix of characters that satisfy [p], and the rest. *)
Fixpoint span_while (p : Ascii.ascii → bool) (s : string) : string * string :=
  match s with
  | String c s' => if p c then let '(a, b) := span_while p s' in (String c a, b) else ("", s)
  | EmptyString => ("", "")
  end.

(** One or more digits. *)
Definition digits (s : string) : option (string * string) :=
  match span_while is_digit s with ("", _) => None | res => Some res end.

Fixpoint literal (lit s : string) : option string :=
  match lit, s with
  | EmptyString, _ => Some s
  | String a lit, String b s => if decide (a = b) then literal lit s else None
  | _, EmptyString => None
  end.

(** Digits at the start of the string. *)
Definition reInv (name : string) : option string := fst <$> digits name.

(** The expression of a task name, at the start of the string: inv, digits, an underscore, anything but an at sign, an
    at sign, digits, a colon, digits. *)
Definition match_task (s : string) : option (string * string * string * string) :=
  s ← literal "inv" s;
  '(inv, s) ← digits s;
  s ← literal "_" s;
  let '(op, s) := span_while (λ c, negb (Ascii.nat_of_ascii c =? 64)) s in
  s ← literal "@" s;
  '(shards, s) ← digits s;
  s ← literal ":" s;
  '(shard, s) ← digits s;
  Some (inv, op, shards, shard).

(** The leftmost match. *)
Fixpoint reTask (s : string) : option (string * string * string * string) :=
  match match_task s with
  | Some m => Some m
  | None => match s with String _ s => reTask s | EmptyString => None end
  end.

(** strconv.Atoi of a string of digits. *)
Definition Atoi (s : string) : option Z := let v := digits_value 0 s in if (v <? 2 ^ 63)%Z then Some v else None.

(** * Invocations *)

Record invocation := mkInvocation { in_index : Z; in_location : string; in_args : string }.

Definition as_string (v : option jsonValue) : outcome string :=
  match v with Some (JString s) => Ret s | _ => Panic "interface conversion: not a string" end.
Definition as_array (v : option jsonValue) : outcome (list jsonValue) :=
  match v with Some (JArray l) => Ret l | _ => Panic "interface conversion: not a []interface {}" end.
(** int64 of a float64. *)
Definition as_number (v : option jsonValue) : outcome Z :=
  match v with Some (JNumber z) => Ret z | _ => Panic "interface conversion: not a float64" end.

Definition quote (s : string) : string := let q := String (Ascii.ascii_of_nat 34) "" in q +:+ s +:+ q.

Fixpoint quoted (l : list jsonValue) : outcome (list string) :=
  match l with
  | [] => Ret []
  | v :: l => s ← as_string (Some v); rest ← quoted l; Ret (quote s :: rest)
  end.

(** * Tasks *)

Record taskStat := mkTaskStat {
  ta_invIndex : Z;
  ta_op : string;
  ta_shards : Z;
  ta_shard : Z;
  ta_start : Z;
  ta_duration : Z;
  ta_read : Z;
  ta_write : Z;
}.

(** Microseconds to nanoseconds. *)
Definition nanos (us : Z) : Z := wrap64 (us * 1000).

(** The task of an event; an event of another category, or with a name that cannot be
    parsed, is skipped. *)
Definition event_task (event : traceEvent) : outcome (option taskStat) :=
  if negb (bool_decide (te_Cat event = "task")) then Ret None
  else
    match reTask (te_Name event) with
    | None => Ret None
    | Some (inv, op, shards, shard) =>
        match Atoi inv, Atoi shards, Atoi shard with
        | Some inv, Some shards, Some shard =>
            readDuration ← as_number (te_Args event !! "readDuration");
            writeDuration ← as_number (te_Args event !! "writeDuration");
            Ret (Some (mkTaskStat inv op shards shard (nanos (te_Ts event)) (nanos (te_Dur event)) (nanos readDuration) (nanos writeDuration)))
        | _, _, _ => Ret None
        end
    end.

Fixpoint buildTasks (events : list traceEvent) : outcome (list taskStat) :=
  match events with
  | [] => Ret []
  | event :: events =>
      task ← event_task event;
      tasks ← buildTasks events;
      Ret (match task with Some t => t :: tasks | None => tasks end)
  end.

(** * Quartiles *)

Definition computeMedian (ds : list Z) : outcome Z :=
  let mid := length ds / 2 in
  if length ds mod 2 =? 0 then
    match ds !! (mid - 1), ds !! mid with
    | Some a, Some b => if mid =? 0 then Panic "index out of range" else Ret (wrap64 (wrap64 (a ÷ 2 + b ÷ 2) + (Z.rem a 2 + Z.rem b 2) ÷ 2))
    | _, _ => Panic "index out of range"
    end
  else match ds !! mid with Some d => Ret d | None => Panic "index out of range" end.

Definition computeQuartiles (ds : list Z) : outcome (Z * Z * Z) :=
  let mid := length ds / 2 in
  q2 ← computeMedian ds;
  q3 ← match list.last ds with Some d => Ret d | None => Panic "index out of range" end;
  q3 ← (if 1 <? length ds then computeMedian (drop mid ds) else Ret q3);
  let right := if length ds mod 2 =? 0 then mid else mid + 1 in
  q1 ← computeMedian (take right ds);
  Ret (q1, q2, q3).

(** * Statistics of operations *)

Record opStat := mkOpStat {
  os_invIndex : Z;
  os_op : string;
  os_shards : Z;
  os_start : Z;
  os_duration : Z;
  os_total : Z;
  os_read : Z;
  os_write : Z;
  os_min : Z;
  os_q1 : Z;
  os_q2 : Z;
  os_q3 : Z;
  os_max : Z;
}.

Record accum := mkAccum {
  ac_shards : Z;
  ac_minStart : Z;
  ac_maxEnd : Z;
  ac_durations : list Z;
  ac_total : Z;
  ac_read : Z;
  ac_write : Z;
}.

Abbreviation invOp := (Z * string)%type.

(** log.Fatalf ends the program. *)
Definition accumulate (accums : gmap invOp accum) (task : taskStat) : outcome (gmap invOp accum) :=
  let key := (ta_invIndex task, ta_op task) in
  let a := default (mkAccum (ta_shards task) (2 ^ 63 - 1) 0 [] 0 0 0) (accums !! key) in
  let minStart := if (ta_start task <? ac_minStart a)%Z then ta_start task else ac_minStart a in
  let end_ := wrap64 (ta_start task + ta_duration task) in
  let maxEnd := if (ac_maxEnd a <? end_)%Z then end_ else ac_maxEnd a in
  if negb (ta_shards task =? ac_shards a)%Z then Panic "different total number of shards"
  else Ret (<[key := mkAccum (ac_shards a) minStart maxEnd (ac_durations a ++ [ta_duration task]) (wrap64 (ac_total a + ta_duration task))
                       (wrap64 (ac_read a + ta_read task)) (wrap64 (ac_write a + ta_write task))]> accums).

Fixpoint accumulate_all (accums : gmap invOp accum) (tasks : list taskStat) : outcome (gmap invOp accum) :=
  match tasks with
  | [] => Ret accums
  | task :: tasks => accums ← accumulate accums task; accumulate_all accums tasks
  end.

Section session.
(** limitbuf's truncation, sort.Slice, and the orders in which maps are ranged over. *)
Context (truncatef : string → string) (sort_Slice : ∀ A, (A → A → bool) → list A → list A).
Context (range_invs : gmap Z invocation → list invocation) (range_accums : gmap invOp accum → list (invOp * accum)).

Definition op_stat (x : invOp * accum) : outcome opStat :=
  let '((invIndex, op), a) := x in
  let durations := sort_Slice _ Z.ltb (ac_durations a) in
  '(q1, q2, q3) ← computeQuartiles durations;
  match head durations, list.last durations with
  | Some dmin, Some dmax =>
      Ret (mkOpStat invIndex op (ac_shards a) (ac_minStart a) (wrap64 (ac_maxEnd a - ac_minStart a)) (ac_total a) (ac_read a) (ac_write a)
             dmin q1 q2 q3 dmax)
  | _, _ => Panic "index out of range"
  end.

Fixpoint op_stats (l : list (invOp * accum)) : outcome (list opStat) :=
  match l with
  | [] => Ret []
  | x :: l => s ← op_stat x; rest ← op_stats l; Ret (s :: rest)
  end.

Definition buildOpStats (tasks : list taskStat) : outcome (list opStat) :=
  accums ← accumulate_all ∅ tasks;
  op_stats (range_accums accums).

(** The invocation of an event, unless there is one with its index. *)
Definition add_inv (invs : gmap Z invocation) (event : traceEvent) : outcome (gmap Z invocation) :=
  if negb (bool_decide (te_Cat event = "invocation")) then Ret invs
  else
    match reInv (te_Name event) ≫= Atoi with
    | None => Ret invs
    | Some index =>
        if decide (is_Some (invs !! index)) then Ret invs
        else
          l ← as_array (te_Args event !! "args");
          args ← quoted l;
          location ← as_string (te_Args event !! "location");
          Ret (<[index := mkInvocation index location (truncatef (Join ", " args))]> invs)
    end.

Fixpoint add_invs (invs : gmap Z invocation) (events : list traceEvent) : outcome (gmap Z invocation) :=
  match events with
  | [] => Ret invs
  | event :: events => invs ← add_inv invs event; add_invs invs events
  end.

Definition buildInvs (events : list traceEvent) : outcome (list invocation) :=
  invs ← add_invs ∅ events;
  Ret (sort_Slice _ (λ i j, in_index i <? in_index j)%Z (range_invs invs)).

Record session := mkSession { se_invs : list invocation; se_tasks : list taskStat; se_opStats : list opStat }.

Definition newSession (events : list traceEvent) : outcome session :=
  tasks ← buildTasks events;
  invs ← buildInvs events;
  opStats ← buildOpStats tasks;
  Ret (mkSession invs tasks opStats).

Definition Invs (s : session) : list invocation := se_invs s.

Definition OpStats (invIndex : Z) (s : session) : list opStat :=
  sort_Slice _ (λ i j, os_start i <? os_start j)%Z (filter (λ o, os_invIndex o = invIndex) (se_opStats s)).

(** ** What is printed *)

(** %02d *)
Definition two_digits (n : Z) : string := if bool_decide (0 <= n < 10)%Z then "0" +:+ decimal n else decimal n.

(** Hours, minutes and seconds.  The whole part of d.Seconds(), a float64, is that of the
    exact quotient for durations of less than 2^23 seconds. *)
Definition formatDuration (d : Z) : string :=
  let totalSeconds := (d ÷ 1000000000)%Z in
  let seconds := Z.rem totalSeconds 60 in
  let minutes := (Z.rem (totalSeconds ÷ 60) 60)%Z in
  let hours := (totalSeconds ÷ (60 * 60))%Z in
  two_digits hours +:+ ":" +:+ two_digits minutes +:+ ":" +:+ two_digits seconds.

(** The rows of the tables, before they are aligned. *)
Definition inv_summary (inv : invocation) : list (list string) := [["location"; in_location inv]; ["args"; in_args inv]].
Definition inv_slice (s : session) (inv : invocation) : list (list string) :=
  ["op"; "shards"; "start"; "duration"] ::
  ((λ o, [os_op o; decimal (os_shards o); formatDuration (os_start o); formatDuration (os_duration o)]) <$> OpStats (in_index inv) s).
Definition inv_task_io (s : session) (inv : invocation) : list (list string) :=
  ["op"; "total"; "read"; "write"] ::
  ((λ o, [os_op o; formatDuration (os_total o); formatDuration (os_read o); formatDuration (os_write o)]) <$> OpStats (in_index inv) s).
Definition inv_task_quartiles (s : session) (inv : invocation) : list (list string) :=
  ["op"; "min"; "q1"; "q2"; "q3"; "max"] ::
  ((λ o, [os_op o; formatDuration (os_min o); formatDuration (os_q1 o); formatDuration (os_q2 o); formatDuration (os_q3 o); formatDuration (os_max o)])
     <$> OpStats (in_index inv) s).

Definition report (inv : invocation) (s : session) : list (string * list (list string)) :=
  let title name := "# inv" +:+ decimal (in_index inv) +:+ ":" +:+ name in
  [(title "summary", inv_summary inv); (title "slice", inv_slice s inv); (title "task:io", inv_task_io s inv);
   (title "task:quartile", inv_task_quartiles s inv)].

Definition slicetrace (events : list traceEvent) : outcome (list (string * list (list string))) :=
  s ← newSession events;
  Ret (concat ((λ inv, report inv s) <$> Invs s)).
End session.
