(* ===== verification/SliceTraceSpec.v ===== *)
(** What slicetrace reports (src/cmd/slicetrace): names of tasks are read back, quartiles are
    those of Tukey, statistics are those of the tasks, and from the trace of an evaluation
    (Tracer.v) the tool recovers the spans of its tasks. *)
From Stdlib Require Import ZifyNat.
From S2P Require Import Prelude Task Stats Tracer TracerSpec SliceTrace.

(** * Names *)

Fixpoint all_chars (p : Ascii.ascii → bool) (s : string) : bool :=
  match s with EmptyString => true | String c s => p c && all_chars p s end.

(** The rest does not start with a character that satisfies [p]. *)
Definition stops (p : Ascii.ascii → bool) (s : string) : Prop := match s with EmptyString => True | String c _ => p c = false end.

Lemma span_while_app p a b : all_chars p a = true → stops p b → span_while p (a +:+ b) = (a, b).
Proof.
  induction a as [|c a IH]; simpl; intros Ha Hb.
  - destruct b as [|c b]; [done|]. simpl in *. by rewrite Hb.
  - apply andb_true_iff in Ha as [Hc Ha]. by rewrite Hc, IH.
Qed.

Lemma literal_app lit s : literal lit (lit +:+ s) = Some s.
Proof. induction lit as [|c lit IH]; [done|]. simpl. by rewrite decide_True. Qed.

Lemma decimal_aux_digits fuel n acc :
  (0 <= n)%Z → all_chars is_digit acc = true → all_chars is_digit (decimal_aux fuel n acc) = true.
Proof.
  revert n acc. induction fuel as [|fuel IH]; intros n acc Hn Hacc; [done|]. cbn [decimal_aux].
  assert (all_chars is_digit (String (digit (n mod 10)) acc) = true) as Hd.
  { cbn [all_chars]. rewrite Hacc, andb_true_r. unfold is_digit. pose proof (Z.mod_pos_bound n 10 ltac:(lia)).
    pose proof (digit_value (n mod 10) ltac:(lia)). apply andb_true_iff. rewrite !Nat.leb_le. lia. }
  destruct (n <? 10)%Z; [done|]. apply IH; [apply Z.div_pos; lia|done].
Qed.

Lemma decimal_aux_nonempty fuel n acc : acc ≠ "" → decimal_aux fuel n acc ≠ "".
Proof. revert n acc. induction fuel as [|fuel IH]; intros n acc Hacc; [done|]. cbn [decimal_aux]. destruct (n <? 10)%Z; [done|]. by apply IH. Qed.

Lemma decimal_digits n : (0 <= n)%Z → all_chars is_digit (decimal n) = true ∧ decimal n ≠ "".
Proof.
  intros Hn. unfold decimal. destruct (Z.ltb_spec n 0); [lia|]. split; [by apply decimal_aux_digits|].
  cbn [decimal_aux]. destruct (n <? 10)%Z; [done|]. by apply decimal_aux_nonempty.
Qed.

Lemma digits_decimal n s : (0 <= n)%Z → stops is_digit s → digits (decimal n +:+ s) = Some (decimal n, s).
Proof.
  intros Hn Hs. destruct (decimal_digits n Hn) as [Hd Hne]. unfold digits. rewrite span_while_app by done. by destruct (decimal n).
Qed.

Lemma Atoi_decimal n : (0 <= n < 2 ^ 63)%Z → Atoi (decimal n) = Some n.
Proof. intros Hn. unfold Atoi. rewrite digits_value_decimal by lia. destruct (Z.ltb_spec n (2 ^ 63)); [done|lia]. Qed.

(** The operations of tasks that the compiler makes: the invocation, and the names of
    slices, which have no at sign. *)
Definition op_name (inv : Z) (op : string) : string := "inv" +:+ decimal inv +:+ "_" +:+ op.
Definition no_at (op : string) : Prop := all_chars (λ c, negb (Ascii.nat_of_ascii c =? 64)) op = true.

Lemma reTask_name n inv op :
  tn_Op n = op_name inv op → no_at op → (0 <= inv)%Z → (0 < tn_NumShard n)%Z → (0 <= tn_Shard n)%Z →
  reTask (TaskName_String n) = Some (decimal inv, op, decimal (tn_NumShard n), decimal (tn_Shard n)).
Proof.
  intros Hop Hat Hi Hn Hs. unfold TaskName_String. destruct (Z.eqb_spec (tn_NumShard n) 0); [lia|]. rewrite Hop. unfold op_name.
  rewrite !app_assoc_string.
  set (s := "inv" +:+ decimal inv +:+ _).
  assert (match_task s = Some (decimal inv, op, decimal (tn_NumShard n), decimal (tn_Shard n))) as Hm; [|by unfold reTask; destruct s; rewrite Hm].
  unfold match_task, s. rewrite literal_app. cbn [mbind option_bind]. rewrite digits_decimal by done. cbn [mbind option_bind].
  rewrite literal_app. cbn [mbind option_bind]. rewrite span_while_app by done. rewrite literal_app. cbn [mbind option_bind].
  rewrite digits_decimal by (done || lia). cbn [mbind option_bind]. rewrite literal_app. cbn [mbind option_bind].
  rewrite <-(app_empty_string (decimal (tn_Shard n))) at 1. by rewrite digits_decimal.
Qed.

(** * Quartiles *)

(** Sorted in increasing order. *)
Definition increasing (ds : list Z) : Prop := ∀ i j x y, i ≤ j → ds !! i = Some x → ds !! j = Some y → (x <= y)%Z.

(** The median: the mean of the two middle values, which coincide if there is an odd
    number of values. *)
Definition median (ds : list Z) : option Z :=
  lo ← ds !! ((length ds - 1) / 2); hi ← ds !! (length ds / 2); Some ((lo + hi) / 2)%Z.

Lemma mean_no_overflow a b :
  (0 <= a < 2 ^ 63)%Z → (0 <= b < 2 ^ 63)%Z → wrap64 (wrap64 (a ÷ 2 + b ÷ 2) + (Z.rem a 2 + Z.rem b 2) ÷ 2) = ((a + b) / 2)%Z.
Proof.
  intros Ha Hb. rewrite !Z.quot_div_nonneg, !Z.rem_mod_nonneg by (try apply Z.add_nonneg_nonneg; try apply Z.rem_nonneg; lia).
  pose proof (Z.div_mod a 2). pose proof (Z.div_mod b 2). pose proof (Z.mod_pos_bound a 2). pose proof (Z.mod_pos_bound b 2).
  assert ((a / 2 + b / 2) + (a mod 2 + b mod 2) / 2 = (a + b) / 2)%Z as <-.
  { replace (a + b)%Z with ((a / 2 + b / 2) * 2 + (a mod 2 + b mod 2))%Z by lia. rewrite Z.div_add_l by lia. done. }
  assert (0 <= (a mod 2 + b mod 2) / 2 <= 1)%Z by (split; [apply Z.div_pos; lia|apply Z.lt_succ_r, Z.div_lt_upper_bound; lia]).
  rewrite (wrap64_id (a / 2 + b / 2)) by (unfold in_int64; lia). apply wrap64_id. unfold in_int64. lia.
Qed.

Definition int64_list (ds : list Z) : Prop := ∀ x, x ∈ ds → (0 <= x < 2 ^ 63)%Z.

Lemma computeMedian_ok ds : ds ≠ [] → int64_list ds → ∃ m, median ds = Some m ∧ computeMedian ds = Ret m.
Proof.
  intros Hne Hds. assert (0 < length ds) as Hpos by (destruct ds; simpl; [done|lia]).
  unfold computeMedian, median. pose proof (Nat.div_mod_eq (length ds) 2). pose proof (Nat.mod_upper_bound (length ds) 2).
  assert (length ds / 2 < length ds) by (apply Nat.div_lt; lia).
  destruct (lookup_lt_is_Some_2 ds (length ds / 2)) as [b Hb]; [done|]. destruct (Nat.eqb_spec (length ds mod 2) 0) as [He|Ho].
  - assert ((length ds - 1) / 2 = length ds / 2 - 1) as -> by (symmetry; apply (Nat.div_unique _ 2 _ 1); lia).
    destruct (lookup_lt_is_Some_2 ds (length ds / 2 - 1)) as [a Ha]; [lia|]. rewrite Ha, Hb. cbn [mbind option_bind].
    destruct (Nat.eqb_spec (length ds / 2) 0); [lia|]. eexists. split; [done|]. rewrite mean_no_overflow; [done|apply Hds; by eapply list_elem_of_lookup_2..].
  - assert ((length ds - 1) / 2 = length ds / 2) as -> by (symmetry; apply (Nat.div_unique _ 2 _ 0); lia).
    rewrite Hb. cbn [mbind option_bind]. eexists. split; [done|]. f_equal. replace (b + b)%Z with (b * 2)%Z by lia. by rewrite Z.div_mul.
Qed.

#[local] Ltac Zify.zify_post_hook ::= Z.to_euclidean_division_equations.

(** The halves of the values, which share the median if their number is odd. *)
Definition lower_half (ds : list Z) : list Z := take ((length ds + 1) / 2) ds.
Definition upper_half (ds : list Z) : list Z := drop (length ds / 2) ds.

Lemma computeQuartiles_ok ds :
  ds ≠ [] → int64_list ds →
  ∃ q1 q2 q3, computeQuartiles ds = Ret (q1, q2, q3) ∧ median (lower_half ds) = Some q1 ∧ median ds = Some q2 ∧ median (upper_half ds) = Some q3.
Proof.
  intros Hne Hds. assert (0 < length ds) as Hpos by (destruct ds; simpl; [done|lia]).
  destruct (computeMedian_ok ds Hne Hds) as (q2 & Hq2 & Hc2).
  destruct (computeMedian_ok (lower_half ds)) as (q1 & Hq1 & Hc1).
  { intros Hnil. apply (f_equal length) in Hnil. unfold lower_half in Hnil. rewrite length_take in Hnil. cbn [length] in Hnil. lia. }
  { intros x (i & Hi & _)%elem_of_take. apply Hds. by eapply list_elem_of_lookup_2. }
  destruct (computeMedian_ok (upper_half ds)) as (q3 & Hq3 & Hc3).
  { intros Hnil. apply (f_equal length) in Hnil. unfold upper_half in Hnil. rewrite length_drop in Hnil. cbn [length] in Hnil. lia. }
  { intros x [i Hi]%list_elem_of_lookup. unfold upper_half in Hi. rewrite lookup_drop in Hi. apply Hds. by eapply list_elem_of_lookup_2. }
  exists q1, q2, q3. split_and!; [|done..]. unfold computeQuartiles. rewrite Hc2. cbn [mbind outcome_bind].
  destruct (list.last ds) as [d|] eqn:Hlast; [|by apply last_None in Hlast]. cbn [mbind outcome_bind].
  assert ((if 1 <? length ds then computeMedian (drop (length ds / 2) ds) else Ret d) = Ret q3) as ->.
  { destruct (Nat.ltb_spec 1 (length ds)); [done|]. destruct ds as [|x [|]]; simpl in *; [done| |lia]. injection Hlast as <-.
    unfold upper_half in Hq3. cbn in Hq3. injection Hq3 as <-. f_equal. replace (x + x)%Z with (x * 2)%Z by lia. by rewrite Z.div_mul. }
  cbn [mbind outcome_bind].
  assert ((if length ds mod 2 =? 0 then length ds / 2 else length ds / 2 + 1) = (length ds + 1) / 2) as ->.
  { destruct (Nat.eqb_spec (length ds mod 2) 0); lia. }
  fold (lower_half ds). by rewrite Hc1.
Qed.

(** The five numbers are in order. *)
Lemma median_bounds ds m lo hi :
  increasing ds → median ds = Some m → ds !! ((length ds - 1) / 2) = Some lo → ds !! (length ds / 2) = Some hi → (lo <= m <= hi)%Z.
Proof.
  intros Hinc Hm Hlo Hhi. unfold median in Hm. rewrite Hlo, Hhi in Hm. injection Hm as <-.
  assert (lo <= hi)%Z by (eapply Hinc; [|done|done]; apply Nat.Div0.div_le_mono; lia).
  split; [apply Z.div_le_lower_bound; lia|apply Z.div_le_upper_bound; lia].
Qed.

Lemma quartiles_ordered ds q1 q2 q3 dmin dmax :
  increasing ds → median (lower_half ds) = Some q1 → median ds = Some q2 → median (upper_half ds) = Some q3 →
  head ds = Some dmin → list.last ds = Some dmax → (dmin <= q1 <= q2)%Z ∧ (q2 <= q3 <= dmax)%Z.
Proof.
  intros Hinc H1 H2 H3 Hmin Hmax. rewrite head_lookup in Hmin. rewrite last_lookup in Hmax.
  set (n := length ds) in *. assert (0 < n) as Hn by (apply lookup_lt_Some in Hmin; exact Hmin).
  assert (∀ k, k < n → ∃ x, ds !! k = Some x) as Hget by (intros k Hk; by apply lookup_lt_is_Some_2).
  assert (increasing (lower_half ds) ∧ increasing (upper_half ds)) as [Hil Hiu].
  { split; intros i j x y Hij Hx Hy.
    - apply lookup_take_Some in Hx as [Hx _], Hy as [Hy _]. by eapply Hinc.
    - unfold upper_half in *. rewrite lookup_drop in Hx, Hy. eapply Hinc; [|done|done]. lia. }
  assert (length (lower_half ds) = (n + 1) / 2) as Hll by (unfold lower_half; rewrite length_take; fold n; lia).
  assert (length (upper_half ds) = n - n / 2) as Hlu by (unfold upper_half; by rewrite length_drop).
  destruct (Hget ((n - 1) / 2)) as [lo Hlo]; [lia|]. destruct (Hget (n / 2)) as [hi Hhi]; [lia|].
  destruct (Hget (((n + 1) / 2 - 1) / 2)) as [lo1 Hlo1]; [lia|]. destruct (Hget ((n + 1) / 2 / 2)) as [hi1 Hhi1]; [lia|].
  destruct (Hget (n / 2 + (n - n / 2 - 1) / 2)) as [lo3 Hlo3]; [lia|]. destruct (Hget (n / 2 + (n - n / 2) / 2)) as [hi3 Hhi3]; [lia|].
  pose proof (median_bounds ds q2 lo hi Hinc H2 Hlo Hhi) as B2.
  assert (lo1 <= q1 <= hi1)%Z as B1.
  { apply (median_bounds (lower_half ds)); [done|done|..]; rewrite Hll; apply lookup_take_Some; (split; [done|fold n; lia]). }
  assert (lo3 <= q3 <= hi3)%Z as B3.
  { apply (median_bounds (upper_half ds)); [done|done|..]; rewrite Hlu; unfold upper_half; by rewrite lookup_drop. }
  pose proof (Hinc 0 _ dmin lo1 ltac:(lia) Hmin Hlo1). pose proof (Hinc ((n + 1) / 2 / 2) ((n - 1) / 2) hi1 lo ltac:(lia) Hhi1 Hlo).
  pose proof (Hinc (n / 2) (n / 2 + (n - n / 2 - 1) / 2) hi lo3 ltac:(lia) Hhi Hlo3). assert (n / 2 + (n - n / 2) / 2 ≤ pred n) as Hle by lia.
  pose proof (Hinc _ _ hi3 dmax Hle Hhi3 Hmax). lia.
Qed.

#[local] Ltac Zify.zify_post_hook ::= idtac.

(** * Statistics *)

Definition task_key (t : taskStat) : invOp := (ta_invIndex t, ta_op t).
Definition select (key : invOp) (tasks : list taskStat) : list taskStat := filter (λ t, task_key t = key) tasks.

Definition sum (l : list Z) : Z := foldl Z.add 0%Z l.
Definition task_end (t : taskStat) : Z := wrap64 (ta_start t + ta_duration t).

(** What is accumulated from the tasks of an operation. *)
Definition summary (shards : Z) (ts : list taskStat) : accum :=
  mkAccum shards (foldl Z.min (2 ^ 63 - 1)%Z (ta_start <$> ts)) (foldl Z.max 0%Z (task_end <$> ts)) (ta_duration <$> ts)
    (wrap64 (sum (ta_duration <$> ts))) (wrap64 (sum (ta_read <$> ts))) (wrap64 (sum (ta_write <$> ts))).

(** The tasks of an operation have the same number of shards. *)
Definition same_shards (tasks : list taskStat) : Prop :=
  ∀ t u, t ∈ tasks → u ∈ tasks → task_key t = task_key u → ta_shards t = ta_shards u.

Definition summarizes (accums : gmap invOp accum) (tasks : list taskStat) : Prop :=
  ∀ key, accums !! key = match select key tasks with [] => None | t :: _ => Some (summary (ta_shards t) (select key tasks)) end.

Lemma sum_snoc l x : sum (l ++ [x]) = (sum l + x)%Z.
Proof. unfold sum. by rewrite foldl_snoc. Qed.

Lemma summary_snoc shards ts t :
  summary shards (ts ++ [t]) =
  mkAccum shards (ac_minStart (summary shards ts) `min` ta_start t) (ac_maxEnd (summary shards ts) `max` task_end t)
    (ac_durations (summary shards ts) ++ [ta_duration t]) (wrap64 (ac_total (summary shards ts) + ta_duration t))
    (wrap64 (ac_read (summary shards ts) + ta_read t)) (wrap64 (ac_write (summary shards ts) + ta_write t)).
Proof. unfold summary. cbn [ac_minStart ac_maxEnd ac_durations ac_total ac_read ac_write]. rewrite !fmap_app. cbn [fmap list_fmap].
  by rewrite !foldl_snoc, !sum_snoc, !wrap64_add_l.
Qed.

Lemma accumulate_ok accums tasks t :
  summarizes accums tasks → same_shards (tasks ++ [t]) → ∃ accums', accumulate accums t = Ret accums' ∧ summarizes accums' (tasks ++ [t]).
Proof.
  intros Hs Hsame. set (key := task_key t). set (ts := select key tasks).
  assert (default (mkAccum (ta_shards t) (2 ^ 63 - 1) 0 [] 0 0 0) (accums !! key) = summary (ta_shards t) ts) as Hdef.
  { rewrite (Hs key). fold ts. destruct ts as [|u us] eqn:Hts; [done|]. cbn [default from_option id]. f_equal.
    assert (u ∈ ts) as Hin by (rewrite Hts; by left). apply list_elem_of_filter in Hin as [Hk Hin].
    apply Hsame; [apply elem_of_app; by left|apply elem_of_app; right; by left|done]. }
  unfold accumulate. fold (task_key t) key. rewrite Hdef. cbn [summary ac_shards]. rewrite Z.eqb_refl. cbn [negb]. eexists. split; [done|].
  intros key'. unfold select. rewrite list.filter_app, filter_cons, filter_nil. destruct (decide (key = key')) as [<-|Hne].
  - rewrite lookup_insert_eq. fold key. rewrite decide_True by done. fold (select key tasks) ts.
    assert (∀ (l : list taskStat), match l ++ [t] with [] => None | u :: _ => Some (summary (ta_shards u) (ts ++ [t])) end =
      Some (summary (match l with [] => ta_shards t | u :: _ => ta_shards u end) (ts ++ [t]))) as -> by (by intros []).
    assert (match ts with [] => ta_shards t | u :: _ => ta_shards u end = ta_shards t) as ->.
    { destruct ts as [|u us] eqn:Hts; [done|]. assert (u ∈ ts) as Hin by (rewrite Hts; by left). apply list_elem_of_filter in Hin as [Hk Hin].
      apply Hsame; [apply elem_of_app; by left|apply elem_of_app; right; by left|done]. }
    rewrite summary_snoc. unfold summary. cbn [ac_minStart ac_maxEnd ac_durations ac_total ac_read ac_write]. unfold task_end.
    f_equal. f_equal; match goal with |- (if (?a <? ?b)%Z then _ else _) = _ => destruct (Z.ltb_spec a b); lia end.
  - rewrite lookup_insert_ne, (Hs key') by done. rewrite decide_False by done. by rewrite app_nil_r.
Qed.

Lemma accumulate_all_ok tasks : same_shards tasks → ∃ accums, accumulate_all ∅ tasks = Ret accums ∧ summarizes accums tasks.
Proof.
  assert (∀ done accums, summarizes accums done → same_shards (done ++ tasks) →
    ∃ accums', accumulate_all accums tasks = Ret accums' ∧ summarizes accums' (done ++ tasks)) as Hgen.
  { induction tasks as [|t tasks IH]; intros done accums Hs Hsame; [exists accums; by rewrite app_nil_r|].
    destruct (accumulate_ok accums done t Hs) as (accums1 & H1 & Hs1).
    { intros x y Hx Hy. apply Hsame; set_solver. }
    cbn [accumulate_all]. rewrite H1. cbn [mbind outcome_bind]. destruct (IH (done ++ [t]) accums1 Hs1) as (accums2 & H2 & Hs2); [by rewrite <-(assoc_L (++))|].
    exists accums2. split; [done|]. by rewrite <-(assoc_L (++)) in Hs2. }
  intros Hsame. apply (Hgen []); [intros key; apply lookup_empty|done].
Qed.

(** Times that do not overflow. *)
Record times_ok (tasks : list taskStat) : Prop := mkTimesOk {
  ti_task : ∀ t, t ∈ tasks → (0 <= ta_start t)%Z ∧ (0 <= ta_duration t)%Z ∧ (0 <= ta_read t)%Z ∧ (0 <= ta_write t)%Z ∧ (ta_start t + ta_duration t < 2 ^ 63)%Z;
  ti_sums : (sum (ta_duration <$> tasks) < 2 ^ 63)%Z ∧ (sum (ta_read <$> tasks) < 2 ^ 63)%Z ∧ (sum (ta_write <$> tasks) < 2 ^ 63)%Z;
}.

(** The statistics of an operation: the first start, the last end, the sums, and the
    distribution of durations. *)
Record stat_ok (ts : list taskStat) (o : opStat) : Prop := mkStatOk {
  so_shards : ∀ t, t ∈ ts → ta_shards t = os_shards o;
  so_start : (∃ t, t ∈ ts ∧ ta_start t = os_start o) ∧ ∀ t, t ∈ ts → (os_start o <= ta_start t)%Z;
  so_end : (∃ t, t ∈ ts ∧ ta_start t + ta_duration t = os_start o + os_duration o)%Z ∧
    ∀ t, t ∈ ts → (ta_start t + ta_duration t <= os_start o + os_duration o)%Z;
  so_total : os_total o = sum (ta_duration <$> ts);
  so_read : os_read o = sum (ta_read <$> ts);
  so_write : os_write o = sum (ta_write <$> ts);
  so_quartiles : ∃ ds, ds ≡ₚ ta_duration <$> ts ∧ increasing ds ∧ head ds = Some (os_min o) ∧ list.last ds = Some (os_max o) ∧
    median (lower_half ds) = Some (os_q1 o) ∧ median ds = Some (os_q2 o) ∧ median (upper_half ds) = Some (os_q3 o);
  so_ordered : (os_min o <= os_q1 o <= os_q2 o)%Z ∧ (os_q2 o <= os_q3 o <= os_max o)%Z;
}.

Lemma sum_from z l : foldl Z.add z l = (z + sum l)%Z.
Proof.
  unfold sum. revert z. induction l as [|y l IH]; intros z; cbn [foldl]; [lia|]. rewrite (IH (z + y)%Z), (IH (0 + y)%Z). lia.
Qed.

Lemma sum_cons x l : sum (x :: l) = (x + sum l)%Z.
Proof. unfold sum at 1. cbn [foldl]. rewrite sum_from. lia. Qed.

Lemma sum_select (f : taskStat → Z) key tasks :
  (∀ t, t ∈ tasks → 0 <= f t)%Z → (0 <= sum (f <$> select key tasks) <= sum (f <$> tasks))%Z.
Proof.
  induction tasks as [|t tasks IH]; intros Hf; [done|]. pose proof (Hf t (list_elem_of_here _ _)).
  assert (∀ u, u ∈ tasks → 0 <= f u)%Z as Hf' by (intros u Hu; apply Hf; by right). specialize (IH Hf').
  unfold select in *. rewrite filter_cons. case_decide; rewrite ?fmap_cons, ?sum_cons; lia.
Qed.

Lemma foldl_min_spec z l : let m := foldl Z.min z l in (m <= z)%Z ∧ (∀ x, x ∈ l → (m <= x)%Z) ∧ (m = z ∨ m ∈ l).
Proof.
  revert z. induction l as [|y l IH]; intros z; cbn [foldl].
  { split_and!; [lia|intros x ?%elem_of_nil; done|by left]. }
  destruct (IH (z `min` y)%Z) as (H1 & H2 & H3). split_and!; [lia| |].
  - intros x [->|Hx]%elem_of_cons; [lia|by apply H2].
  - destruct H3 as [->|H3]; [|right; by right]. destruct (Z.min_spec z y) as [[_ ->]|[_ ->]]; [by left|right; by left].
Qed.

Lemma foldl_max_spec z l : let m := foldl Z.max z l in (z <= m)%Z ∧ (∀ x, x ∈ l → (x <= m)%Z) ∧ (m = z ∨ m ∈ l).
Proof.
  revert z. induction l as [|y l IH]; intros z; cbn [foldl].
  { split_and!; [lia|intros x ?%elem_of_nil; done|by left]. }
  destruct (IH (z `max` y)%Z) as (H1 & H2 & H3). split_and!; [lia| |].
  - intros x [->|Hx]%elem_of_cons; [lia|by apply H2].
  - destruct H3 as [->|H3]; [|right; by right]. destruct (Z.max_spec z y) as [[_ ->]|[_ ->]]; [right; by left|by left].
Qed.

(** The first start and the last end. *)
Lemma bounds_of tasks key :
  times_ok tasks → select key tasks ≠ [] →
  let ts := select key tasks in
  let s := foldl Z.min (2 ^ 63 - 1)%Z (ta_start <$> ts) in let e := foldl Z.max 0%Z (task_end <$> ts) in
  ((∃ t, t ∈ ts ∧ ta_start t = s) ∧ ∀ t, t ∈ ts → (s <= ta_start t)%Z) ∧
  ((∃ t, t ∈ ts ∧ ta_start t + ta_duration t = e)%Z ∧ ∀ t, t ∈ ts → (ta_start t + ta_duration t <= e)%Z) ∧ (0 <= s <= e)%Z ∧ (e < 2 ^ 63)%Z.
Proof.
  intros Ht Hne ts s e.
  assert (∀ t, t ∈ ts → (0 <= ta_start t)%Z ∧ (0 <= ta_duration t)%Z ∧ (ta_start t + ta_duration t < 2 ^ 63)%Z ∧ task_end t = (ta_start t + ta_duration t)%Z) as Hts.
  { intros t [_ Hin]%list_elem_of_filter. destruct (ti_task _ Ht t Hin) as (H1 & H2 & _ & _ & H5). split_and!; [done..|].
    apply wrap64_id. unfold in_int64. lia. }
  destruct (foldl_min_spec (2 ^ 63 - 1)%Z (ta_start <$> ts)) as (A1 & A2 & A3). fold s in A1, A2, A3.
  destruct (foldl_max_spec 0%Z (task_end <$> ts)) as (B1 & B2 & B3). fold e in B1, B2, B3.
  assert (∀ t, t ∈ ts → (s <= ta_start t)%Z) as Hs by (intros t Hin; by apply A2, list_elem_of_fmap_2).
  assert (∀ t, t ∈ ts → (ta_start t + ta_duration t <= e)%Z) as He.
  { intros t Hin. destruct (Hts t Hin) as (_ & _ & _ & <-). by apply B2, list_elem_of_fmap_2. }
  destruct ts as [|t0 ts0] eqn:Hd; [done|]. rewrite <-Hd in *. assert (t0 ∈ ts) as Ht0 by (rewrite Hd; by left).
  pose proof (Hts t0 Ht0) as (T1 & T2 & T3 & T4). pose proof (Hs t0 Ht0). pose proof (He t0 Ht0).
  assert (∃ t, t ∈ ts ∧ ta_start t = s) as Hs'.
  { destruct A3 as [A3|(t & -> & Hin)%list_elem_of_fmap]; [exists t0; split; [done|lia]|by exists t]. }
  assert (∃ t, t ∈ ts ∧ ta_start t + ta_duration t = e)%Z as He'.
  { destruct B3 as [B3|(t & -> & Hin)%list_elem_of_fmap]; [exists t0; split; [done|lia]|]. exists t. split; [done|]. by destruct (Hts t Hin) as (_ & _ & _ & ->). }
  destruct Hs' as (ts' & Hin' & Hts'). destruct He' as (te & Hine & Hte). pose proof (Hts ts' Hin'). pose proof (Hts te Hine).
  split_and!; [by exists ts'|done|by exists te|done|lia|lia|lia].
Qed.

Section stats.
Context (truncatef : string → string) (sort_Slice : ∀ A, (A → A → bool) → list A → list A).
Context (range_invs : gmap Z invocation → list invocation) (range_accums : gmap invOp accum → list (invOp * accum)).
(** sort.Slice sorts; maps are ranged over in some order. *)
Hypothesis SORT : ∀ A (key : A → Z) l, let s := sort_Slice A (λ x y, key x <? key y)%Z l in
  s ≡ₚ l ∧ ∀ i j x y, i ≤ j → s !! i = Some x → s !! j = Some y → (key x <= key y)%Z.
Hypothesis RANGE_A : ∀ m, range_accums m ≡ₚ map_to_list m.

Lemma op_stat_ok tasks key t0 ts0 :
  times_ok tasks → same_shards tasks → select key tasks = t0 :: ts0 →
  ∃ o, op_stat sort_Slice (key, summary (ta_shards t0) (select key tasks)) = Ret o ∧ (os_invIndex o, os_op o) = key ∧ stat_ok (select key tasks) o.
Proof.
  intros Ht Hsame Hsel. assert (select key tasks ≠ []) as Hne by (by rewrite Hsel).
  destruct (bounds_of tasks key Ht Hne) as (Hs & He & Hse & Hemax). set (ts := select key tasks) in *.
  destruct (SORT Z (λ z, z) (ta_duration <$> ts)) as [Hperm Hinc]. change (λ x y, (x <? y)%Z) with Z.ltb in Hperm, Hinc.
  set (ds := sort_Slice Z Z.ltb (ta_duration <$> ts)) in *.
  assert (ds ≠ []) as Hds.
  { intros Hnil. rewrite Hnil in Hperm. apply Permutation_nil in Hperm. rewrite Hsel in Hperm. done. }
  assert (int64_list ds) as Hi64.
  { intros x Hx. rewrite Hperm in Hx. apply list_elem_of_fmap in Hx as (t & -> & [_ Hin]%list_elem_of_filter). pose proof (ti_task _ Ht t Hin). lia. }
  destruct (computeQuartiles_ok ds Hds Hi64) as (q1 & q2 & q3 & Hq & Hq1 & Hq2 & Hq3).
  destruct (head ds) as [dmin|] eqn:Hmin; [|by destruct ds]. destruct (list.last ds) as [dmax|] eqn:Hmax; [|by apply last_None in Hmax].
  destruct key as [i op]. eexists. unfold op_stat, summary. cbn [ac_durations]. fold ds. rewrite Hq. cbn [mbind outcome_bind]. rewrite Hmin, Hmax.
  split; [reflexivity|]. split; [done|].
  destruct (ti_sums _ Ht) as (S1 & S2 & S3).
  assert (∀ f : taskStat → Z, (∀ t, t ∈ tasks → 0 <= f t)%Z → (sum (f <$> tasks) < 2 ^ 63)%Z → wrap64 (sum (f <$> ts)) = sum (f <$> ts)) as Hw.
  { intros f Hf Hb. apply wrap64_id. pose proof (sum_select f (i, op) tasks Hf). unfold in_int64. fold ts in H. lia. }
  assert (∀ t, t ∈ tasks → (0 <= ta_duration t)%Z ∧ (0 <= ta_read t)%Z ∧ (0 <= ta_write t)%Z) as Hpos.
  { intros t Hin. pose proof (ti_task _ Ht t Hin). lia. }
  split; cbn [os_shards os_start os_duration os_total os_read os_write os_min os_q1 os_q2 os_q3 os_max ac_shards ac_minStart ac_maxEnd ac_total ac_read ac_write].
  - intros t Hin. apply list_elem_of_filter in Hin as [Hk Hin]. assert (t0 ∈ ts) as [Hk0 Hin0]%list_elem_of_filter by (rewrite Hsel; by left).
    apply Hsame; [done|done|congruence].
  - exact Hs.
  - rewrite wrap64_id by (unfold in_int64; lia). replace (_ + (_ - _))%Z with (foldl Z.max 0%Z (task_end <$> ts)) by lia. exact He.
  - apply Hw; [|done]. intros t Hin. by apply Hpos.
  - apply Hw; [|done]. intros t Hin. by apply Hpos.
  - apply Hw; [|done]. intros t Hin. by apply Hpos.
  - by exists ds.
  - by eapply quartiles_ordered.
Qed.

(** One statistic for each operation of each invocation. *)
Lemma buildOpStats_ok tasks :
  times_ok tasks → same_shards tasks →
  ∃ stats, buildOpStats sort_Slice range_accums tasks = Ret stats ∧
    NoDup ((λ o, (os_invIndex o, os_op o)) <$> stats) ∧
    (∀ t, t ∈ tasks → task_key t ∈ (λ o, (os_invIndex o, os_op o)) <$> stats) ∧
    ∀ o, o ∈ stats → select (os_invIndex o, os_op o) tasks ≠ [] ∧ stat_ok (select (os_invIndex o, os_op o) tasks) o.
Proof.
  intros Ht Hsame. destruct (accumulate_all_ok tasks Hsame) as (accums & Hacc & Hsum). unfold buildOpStats. rewrite Hacc. cbn [mbind outcome_bind].
  assert (∀ l, (∀ key a, (key, a) ∈ l → accums !! key = Some a) → ∃ stats, op_stats sort_Slice l = Ret stats ∧
    (λ o, (os_invIndex o, os_op o)) <$> stats = l.*1 ∧
    ∀ o, o ∈ stats → select (os_invIndex o, os_op o) tasks ≠ [] ∧ stat_ok (select (os_invIndex o, os_op o) tasks) o) as Hgen.
  { induction l as [|[key a] l IH]; intros Hl.
    { exists []. split_and!; [done..|]. intros o ?%elem_of_nil. done. }
    pose proof (Hl key a (list_elem_of_here _ _)) as Ha. rewrite (Hsum key) in Ha. destruct (select key tasks) as [|t0 ts0] eqn:Hsel; [done|]. injection Ha as <-.
    destruct (op_stat_ok tasks key t0 ts0 Ht Hsame Hsel) as (o & Ho & Hk & Hok). rewrite Hsel in Ho.
    destruct IH as (stats & Hst & Hkeys & Hall); [intros k' a' Hin; apply Hl; by right|].
    exists (o :: stats). cbn [op_stats]. rewrite Ho. cbn [mbind outcome_bind]. rewrite Hst. cbn [mbind outcome_bind]. split_and!; [done| |].
    - rewrite !fmap_cons, Hk, Hkeys. done.
    - intros o' [->|Hin]%elem_of_cons; [|by apply Hall]. rewrite Hk. split; [by rewrite Hsel|done]. }
  destruct (Hgen (range_accums accums)) as (stats & Hst & Hkeys & Hall).
  { intros key a Hin. rewrite RANGE_A in Hin. by apply elem_of_map_to_list. }
  exists stats. split_and!; [done| | |done].
  - rewrite Hkeys, RANGE_A. apply NoDup_fst_map_to_list.
  - intros t Hin. rewrite Hkeys, RANGE_A. pose proof (Hsum (task_key t)) as Hk. destruct (select (task_key t) tasks) as [|u us] eqn:Hsel.
    + assert (t ∈ select (task_key t) tasks) as Habs by (by apply list_elem_of_filter). rewrite Hsel in Habs. by apply elem_of_nil in Habs.
    + apply list_elem_of_fmap. eexists (_, _). split; [reflexivity|]. by apply elem_of_map_to_list.
Qed.
End stats.

(** * The trace of an evaluation *)

(** The arguments with which bigmachine.go logs the end of a run, and the begin of a
    compilation. *)
Definition run_args (r w : Z) : list traceArg := [TString "readDuration"; TInt r; TString "writeDuration"; TInt w].
Definition compile_args (location : string) (args : list string) : list traceArg := [TString "location"; TString location; TString "args"; TStrings args].

Definition run_times (args : list traceArg) : option (Z * Z) :=
  match args with
  | [TString k1; TInt r; TString k2; TInt w] => if decide (k1 = "readDuration" ∧ k2 = "writeDuration") then Some (r, w) else None
  | _ => None
  end.

Section trace.
Context (truncatef : string → string) (sort_Slice : ∀ A, (A → A → bool) → list A → list A).
Context (range_invs : gmap Z invocation → list invocation) (range_accums : gmap invOp accum → list (invOp * accum)).
Hypothesis SORT : ∀ A (key : A → Z) l, let s := sort_Slice A (λ x y, key x <? key y)%Z l in
  s ≡ₚ l ∧ ∀ i j x y, i ≤ j → s !! i = Some x → s !! j = Some y → (key x <= key y)%Z.
Hypothesis RANGE_A : ∀ m, range_accums m ≡ₚ map_to_list m.
Hypothesis RANGE_I : ∀ m, range_invs m ≡ₚ (map_to_list m).*2.

(** The operation that is part of a task's name. *)
Context (op_of : TaskName → string).

(** How spans are logged. *)
Definition logged_span (cb ce : call) : Prop :=
  match cl_sub cb with
  | subTask _ n => tn_Op n = op_name (tn_InvIndex n) (op_of n) ∧ no_at (op_of n) ∧ (0 <= tn_InvIndex n < 2 ^ 63)%Z ∧
      (0 < tn_NumShard n < 2 ^ 63)%Z ∧ (0 <= tn_Shard n < 2 ^ 63)%Z ∧ cl_args cb = [] ∧ ∃ r w, cl_args ce = run_args r w
  | subInvocation index _ => (0 <= index < 2 ^ 63)%Z ∧ ∃ location args, cl_args cb = compile_args location args
  | subOther => False
  end.

Definition span_dur (calls : list call) (cb ce : call) : Z :=
  let dur := (ts_at (first calls) ce - ts_at (first calls) cb)%Z in if (dur =? 0)%Z then 1 else dur.

(** The task of a span. *)
Definition span_task (calls : list call) (s : nat * nat) : option taskStat :=
  cb ← calls !! s.1; ce ← calls !! s.2;
  match cl_sub cb with
  | subTask _ n => '(r, w) ← run_times (cl_args ce);
      Some (mkTaskStat (tn_InvIndex n) (op_of n) (tn_NumShard n) (tn_Shard n) (nanos (ts_at (first calls) cb)) (nanos (span_dur calls cb ce)) (nanos r) (nanos w))
  | _ => None
  end.

(** The invocation of a span. *)
Definition span_inv (calls : list call) (s : nat * nat) : option invocation :=
  cb ← calls !! s.1;
  match cl_sub cb, cl_args cb with
  | subInvocation index _, [_; TString location; _; TStrings args] => Some (mkInvocation index location (truncatef (Join ", " (quote <$> args))))
  | _, _ => None
  end.

Lemma lookup_merged (cb ce : call) k v : call_args cb !! k = Some v → (json_arg <$> (call_args cb ∪ call_args ce)) !! k = Some (json_arg v).
Proof. intros Hk. by rewrite lookup_fmap, (lookup_union_Some_l _ _ _ _ Hk). Qed.

Lemma event_task_ok calls tid s x cb ce :
  span_event calls tid s = Some x → calls !! s.1 = Some cb → calls !! s.2 = Some ce → logged_span cb ce → event_task (reread x) = Ret (span_task calls s).
Proof.
  intros Hx Hcb Hce Hl. unfold span_event in Hx. rewrite Hcb, Hce in Hx. cbn [mbind option_bind] in Hx. injection Hx as <-.
  unfold span_task. rewrite Hcb, Hce. cbn [mbind option_bind]. unfold event_task, reread. cbn [te_Cat te_Name te_Args te_Ts te_Dur re_Cat re_Name re_Args re_Ts re_Dur].
  unfold call_cat, call_name. unfold logged_span in Hl. destruct (cl_sub cb) as [p n|i x|]; [|done|done].
  destruct Hl as (Hop & Hat & Hi & Hn & Hs & Hb & r & w & He). cbn [negb]. rewrite bool_decide_true by done. cbn [negb].
  rewrite (reTask_name n (tn_InvIndex n) (op_of n)), !Atoi_decimal by (done || lia).
  assert (∀ k v, call_args ce !! k = Some v → (json_arg <$> (call_args cb ∪ call_args ce)) !! k = Some (json_arg v)) as Hk.
  { intros k v Hv. rewrite lookup_fmap. unfold call_args at 1. rewrite Hb. cbn [args_map]. by rewrite (left_id_L ∅ (∪)), Hv. }
  rewrite (Hk "readDuration" (TInt r)), (Hk "writeDuration" (TInt w)); [|by unfold call_args; rewrite He..].
  cbn [json_arg as_number mbind outcome_bind]. rewrite He. cbn [run_times run_args]. rewrite decide_True by done. done.
Qed.

Lemma buildTasks_ok events (f : traceEvent → option taskStat) :
  (∀ e, e ∈ events → event_task e = Ret (f e)) → buildTasks events = Ret (omap f events).
Proof.
  induction events as [|e events IH]; intros Hf; [done|]. cbn [buildTasks]. rewrite (Hf e (list_elem_of_here _ _)). cbn [mbind outcome_bind].
  rewrite IH by (intros e' He'; apply Hf; by right). cbn [mbind outcome_bind omap list_omap]. by destruct (f e).
Qed.

Lemma quoted_strings l : quoted (JString <$> l) = Ret (quote <$> l).
Proof. induction l as [|x l IH]; [done|]. rewrite !fmap_cons. cbn [quoted as_string mbind outcome_bind]. by rewrite IH. Qed.

(** The invocation of an event is that of its span, if its index is new. *)
Lemma add_inv_ok calls tid s x cb ce invs :
  span_event calls tid s = Some x → calls !! s.1 = Some cb → calls !! s.2 = Some ce → logged_span cb ce →
  add_inv truncatef invs (reread x) =
  Ret (match span_inv calls s with
       | Some inv => if decide (is_Some (invs !! in_index inv)) then invs else <[in_index inv := inv]> invs
       | None => invs
       end).
Proof.
  intros Hx Hcb Hce Hl. unfold span_event in Hx. rewrite Hcb, Hce in Hx. cbn [mbind option_bind] in Hx. injection Hx as <-.
  unfold span_inv. rewrite Hcb. cbn [mbind option_bind]. unfold add_inv, reread. cbn [te_Cat te_Name te_Args re_Cat re_Name re_Args].
  unfold call_cat, call_name. unfold logged_span in Hl. destruct (cl_sub cb) as [p n|i x|]; [done| |done].
  destruct Hl as (Hi & loc & args & Hb). rewrite bool_decide_true by done. cbn [negb]. rewrite Hb. cbn [compile_args].
  assert (reInv (invocation_name i x) = Some (decimal i)) as ->.
  { unfold reInv, invocation_name. rewrite digits_decimal; [done|lia|]. by destruct x. }
  cbn [mbind option_bind]. rewrite Atoi_decimal by done. cbn [in_index]. case_decide; [done|].
  rewrite (lookup_merged cb ce "args" (TStrings args)), (lookup_merged cb ce "location" (TString loc)) by (unfold call_args; by rewrite Hb).
  cbn [json_arg as_array mbind outcome_bind]. rewrite quoted_strings. done.
Qed.

(** The events of a trace, and the spans they are of. *)
Definition renders (calls : list call) (tid : nat → Z) (ps : list (nat * nat)) (xs : list rendered) : Prop :=
  Forall2 (λ s x, span_event calls tid s = Some x ∧ ∃ cb ce, calls !! s.1 = Some cb ∧ calls !! s.2 = Some ce ∧ logged_span cb ce) ps xs.

Lemma add_invs_ok calls tid ps xs invs :
  renders calls tid ps xs → (∀ i inv, invs !! i = Some inv → in_index inv = i) →
  ∃ invs', add_invs truncatef invs (reread <$> xs) = Ret invs' ∧
    (∀ i inv, invs' !! i = Some inv → in_index inv = i ∧ (invs !! i = Some inv ∨ ∃ s, s ∈ ps ∧ span_inv calls s = Some inv)) ∧
    (∀ i, is_Some (invs !! i) → is_Some (invs' !! i)) ∧
    ∀ s inv, s ∈ ps → span_inv calls s = Some inv → is_Some (invs' !! in_index inv).
Proof.
  intros HF. revert invs. induction HF as [|s x ps xs (Hx & cb & ce & Hcb & Hce & Hl) _ IH]; intros invs Hi.
  { exists invs. split_and!; [done|auto|done|]. intros s inv ?%elem_of_nil. done. }
  cbn [fmap list_fmap add_invs]. rewrite (add_inv_ok calls tid s x cb ce invs Hx Hcb Hce Hl). cbn [mbind outcome_bind].
  set (invs1 := match span_inv calls s with Some inv => _ | None => _ end).
  assert (∀ i inv, invs1 !! i = Some inv → in_index inv = i ∧ (invs !! i = Some inv ∨ span_inv calls s = Some inv)) as H1.
  { intros i inv. unfold invs1. destruct (span_inv calls s) as [inv0|]; [case_decide|]; [auto| |auto].
    intros [[<- <-]|[_ Hinv]]%lookup_insert_Some; [auto|]. split; [by apply Hi|by left]. }
  assert (∀ i, is_Some (invs !! i) → is_Some (invs1 !! i)) as H2.
  { intros i Hs. unfold invs1. destruct (span_inv calls s) as [inv0|]; [case_decide|]; [done| |done].
    destruct (decide (in_index inv0 = i)) as [<-|Hne]; [rewrite lookup_insert_eq; by eexists|by rewrite lookup_insert_ne]. }
  assert (∀ inv, span_inv calls s = Some inv → is_Some (invs1 !! in_index inv)) as H3.
  { intros inv Hinv. unfold invs1. rewrite Hinv. case_decide; [done|]. rewrite lookup_insert_eq. by eexists. }
  destruct (IH invs1) as (invs2 & Hr & A1 & A2 & A3); [intros i inv Hinv; by apply H1|]. exists invs2. split_and!; [done| | |].
  - intros i inv Hinv. destruct (A1 i inv Hinv) as [? [Hinv1|(s' & Hs' & Hinv1)]]; (split; [done|]); [|right; exists s'; split; [by right|done]].
    destruct (H1 i inv Hinv1) as [_ [?|?]]; [by left|right; exists s; split; [by left|done]].
  - auto.
  - intros s' inv [->|Hin]%elem_of_cons Hinv; [by apply A2, H3|by apply (A3 s')].
Qed.

Lemma skip_processes l i0 invs :
  add_invs truncatef invs (reread <$> imap (λ i, process_event (i0 + i)) l) = Ret invs ∧
  ∀ e, e ∈ reread <$> imap (λ i, process_event (i0 + i)) l → event_task e = Ret None.
Proof.
  split.
  - revert i0. induction l as [|m l IH]; intros i0; [done|]. rewrite imap_cons, fmap_cons. cbn [add_invs]. unfold add_inv at 1. cbn [reread te_Cat process_event re_Cat].
    rewrite bool_decide_false by done. cbn [negb mbind outcome_bind]. rewrite <-(IH (S i0)). f_equal. f_equal. apply imap_ext. intros i x _. cbn [compose]. f_equal. lia.
  - intros e (x & -> & Hx)%list_elem_of_fmap. apply list_elem_of_lookup in Hx as [i Hi]. rewrite list_lookup_imap in Hi.
    destruct (l !! i); [|done]. by injection Hi as <-.
Qed.

Lemma add_invs_app invs l1 l2 : add_invs truncatef invs (l1 ++ l2) = (invs ← add_invs truncatef invs l1; add_invs truncatef invs l2).
Proof.
  revert invs. induction l1 as [|e l1 IH]; intros invs; [done|]. cbn [app add_invs]. destruct (add_inv truncatef invs e); cbn [mbind outcome_bind]; [apply IH|done..].
Qed.

(** What the tool makes of a trace. *)
Lemma newSession_ok calls tid ps xs :
  renders calls tid ps xs → times_ok (omap (span_task calls) ps) → same_shards (omap (span_task calls) ps) →
  ∃ s, newSession truncatef sort_Slice range_invs range_accums (reread <$> imap process_event (seen calls) ++ xs) = Ret s ∧
    se_tasks s = omap (span_task calls) ps ∧
    (∀ i j x y, i < j → se_invs s !! i = Some x → se_invs s !! j = Some y → (in_index x < in_index y)%Z) ∧
    (∀ inv, inv ∈ se_invs s → ∃ p, p ∈ ps ∧ span_inv calls p = Some inv) ∧
    (∀ p inv, p ∈ ps → span_inv calls p = Some inv → in_index inv ∈ in_index <$> se_invs s) ∧
    NoDup ((λ o, (os_invIndex o, os_op o)) <$> se_opStats s) ∧
    (∀ t, t ∈ se_tasks s → task_key t ∈ (λ o, (os_invIndex o, os_op o)) <$> se_opStats s) ∧
    ∀ o, o ∈ se_opStats s → stat_ok (select (os_invIndex o, os_op o) (se_tasks s)) o.
Proof.
  intros HF Hti Hsh. destruct (skip_processes (seen calls) 0 ∅) as [Hp1 Hp2].
  set (metas := imap process_event (seen calls)) in *. change (imap (λ i, process_event (0 + i)) (seen calls)) with metas in Hp1, Hp2.
  assert (buildTasks (reread <$> metas ++ xs) = Ret (omap (span_task calls) ps)) as Ht.
  { rewrite fmap_app. assert (∀ l, (∀ e, e ∈ l → event_task e = Ret None) → buildTasks (l ++ (reread <$> xs)) = buildTasks (reread <$> xs)) as ->; [| |done].
    - induction l as [|e l IH]; intros Hl; [done|]. cbn [app buildTasks]. rewrite (Hl e (list_elem_of_here _ _)). cbn [mbind outcome_bind].
      rewrite IH by (intros e' He'; apply Hl; by right). destruct (buildTasks (reread <$> xs)); reflexivity.
    - clear Hti Hsh. induction HF as [|s x ps' xs' (Hx & cb & ce & Hcb & Hce & Hl) _ IH]; [done|]. cbn [fmap list_fmap buildTasks omap list_omap].
      rewrite (event_task_ok calls tid s x cb ce Hx Hcb Hce Hl). cbn [mbind outcome_bind].
      rewrite IH. cbn [mbind outcome_bind]. by destruct (span_task calls s). }
  destruct (add_invs_ok calls tid ps xs ∅ HF) as (invs & Hinv & I1 & _ & I3); [intros i inv; by rewrite lookup_empty|].
  destruct (buildOpStats_ok truncatef sort_Slice range_accums SORT RANGE_A _ Hti Hsh) as (stats & Hst & S1 & S2 & S3).
  destruct (SORT invocation in_index (range_invs invs)) as [Hperm Hinc].
  set (sorted := sort_Slice invocation (λ x y, (in_index x <? in_index y)%Z) (range_invs invs)) in *.
  assert (sorted ≡ₚ (map_to_list invs).*2) as Hsorted by (by rewrite Hperm, RANGE_I).
  assert (∀ inv, inv ∈ sorted ↔ invs !! in_index inv = Some inv) as Hel.
  { intros inv. rewrite Hsorted, list_elem_of_fmap. split.
    - intros ([i inv'] & -> & Hin%elem_of_map_to_list). simpl. by destruct (I1 i inv' Hin) as [-> _].
    - intros Hin. exists (in_index inv, inv). split; [done|by apply elem_of_map_to_list]. }
  exists (mkSession sorted (omap (span_task calls) ps) stats). cbn [se_tasks se_invs se_opStats]. split_and!; [|done| | | |done|done|].
  - unfold newSession. rewrite Ht. cbn [mbind outcome_bind]. unfold buildInvs. rewrite fmap_app, add_invs_app, Hp1. cbn [mbind outcome_bind].
    rewrite Hinv. cbn [mbind outcome_bind]. fold sorted. by rewrite Hst.
  - intros i j x y Hij Hx Hy. assert (in_index x ≠ in_index y) as Hne; [|pose proof (Hinc i j x y ltac:(lia) Hx Hy); lia]. intros Heq.
    assert (NoDup (in_index <$> sorted)) as Hnd.
    { rewrite Hsorted, <-list_fmap_compose. replace (in_index ∘ snd <$> map_to_list invs) with ((map_to_list invs).*1); [apply NoDup_fst_map_to_list|].
      apply list_fmap_ext. intros k [i' inv'] Hk%list_elem_of_lookup_2%elem_of_map_to_list. simpl. by destruct (I1 i' inv' Hk) as [-> _]. }
    assert (i = j); [|lia]. eapply (NoDup_lookup _ _ _ (in_index x) Hnd); rewrite list_lookup_fmap, ?Hx, ?Hy; simpl; congruence.
  - intros inv Hin%Hel. destruct (I1 _ _ Hin) as [_ [Habs|(p & Hp & Hs)]]; [by rewrite lookup_empty in Habs|by exists p].
  - intros p inv Hp Hs. destruct (I3 p inv Hp Hs) as [inv' Hinv']. apply list_elem_of_fmap. exists inv'.
    destruct (I1 _ _ Hinv') as [Hii _]. split; [done|]. apply Hel. by rewrite Hii.
  - intros o Ho. by apply S3.
Qed.
End trace.

Lemma sum_perm l1 l2 : l1 ≡ₚ l2 → sum l1 = sum l2.
Proof. induction 1; rewrite ?sum_cons; lia. Qed.

Lemma times_ok_perm l1 l2 : l1 ≡ₚ l2 → times_ok l1 → times_ok l2.
Proof.
  intros Hp [H1 H2]. split; [intros t Ht; apply H1; by rewrite Hp|].
  by rewrite <-!(sum_perm _ _ (fmap_Permutation _ _ _ Hp)).
Qed.

(** C35. From the evaluation to the report.  The executor logs the runs of tasks and the
    compilations of invocations; the trace is rendered, written and read by slicetrace.
    Then the tool finds exactly the spans of the runs, with the invocation, operation and
    shards parsed from the names of tasks; the invocations in the order of their indices,
    each with the location and arguments that were logged; and one statistic for each operation
    of each invocation, with the first start, the last end, the sums and the quartiles of the
    durations of its runs. *)
Theorem slicetrace_correct range_tasks range_compiles truncatef sort_Slice range_invs range_accums op_of ops :
  (∀ m, range_tasks m ≡ₚ (map_to_list m).*2) → (∀ m, range_compiles m ≡ₚ (map_to_list m).*2) →
  (∀ A (key : A → Z) l, let s := sort_Slice A (λ x y, key x <? key y)%Z l in
     s ≡ₚ l ∧ ∀ i j x y, i ≤ j → s !! i = Some x → s !! j = Some y → (key x <= key y)%Z) →
  (∀ m, range_accums m ≡ₚ map_to_list m) → (∀ m, range_invs m ≡ₚ (map_to_list m).*2) →
  let calls := calls_of ops in let spans := bk_spans (book_of calls) in
  protocol calls → (∀ s cb ce, s ∈ spans → calls !! s.1 = Some cb → calls !! s.2 = Some ce → logged_span op_of cb ce) →
  times_ok (omap (span_task op_of calls) spans) → same_shards (omap (span_task op_of calls) spans) →
  ∃ t s, run_ops range_tasks range_compiles ops newTracer = Ret t ∧
    newSession truncatef sort_Slice range_invs range_accums (reread <$> snd (Marshal range_tasks range_compiles t)) = Ret s ∧
    se_tasks s ≡ₚ omap (span_task op_of calls) spans ∧
    (∀ i j x y, i < j → se_invs s !! i = Some x → se_invs s !! j = Some y → (in_index x < in_index y)%Z) ∧
    (∀ inv, inv ∈ se_invs s → ∃ p, p ∈ spans ∧ span_inv truncatef calls p = Some inv) ∧
    (∀ p inv, p ∈ spans → span_inv truncatef calls p = Some inv → in_index inv ∈ in_index <$> se_invs s) ∧
    NoDup ((λ o, (os_invIndex o, os_op o)) <$> se_opStats s) ∧
    (∀ t, t ∈ se_tasks s → task_key t ∈ (λ o, (os_invIndex o, os_op o)) <$> se_opStats s) ∧
    ∀ o, o ∈ se_opStats s → stat_ok (select (os_invIndex o, os_op o) (se_tasks s)) o.
Proof.
  intros RT RC SORT RA RI calls spans Hp Hlog Hti Hsh.
  destruct (run_ops_ok range_tasks range_compiles RT RC ops Hp) as (t & ev & Hrun & Hl & _). pose proof (protocol_book _ Hp) as Hb.
  destruct (Marshal_ok range_tasks range_compiles RT RC ev _ t Hl Hb) as (ps & mem & Hm & Hps & Hl' & Hmg).
  destruct (rendered_events ev _ t ps mem Hl' Hb Hps Hmg) as [He Hx].
  set (xs := render mem <$> ((λ s : nat * nat, complete (ev s.2) (ev s.1)) <$> ps)) in *.
  assert (renders op_of calls (ev_Tid ∘ ev) ps xs) as HF.
  { apply Forall2_same_length_lookup. split; [unfold xs; by rewrite !length_fmap|]. intros i s x Hs Hxi. split.
    - apply (f_equal (lookup i)) in Hx. rewrite !list_lookup_fmap, Hxi, Hs in Hx. injection Hx as Hx. symmetry. exact Hx.
    - assert (s ∈ spans) as Hin by (change spans with (bk_spans (book_of (calls_of ops))); rewrite <-Hps; by eapply list_elem_of_lookup_2). destruct s as [b e].
      destruct (bo_spans _ Hb b e Hin) as (_ & cb & ce & Hcb & Hce & _). exists cb, ce. split_and!; [done..|]. by eapply Hlog. }
  assert (omap (span_task op_of calls) ps ≡ₚ omap (span_task op_of calls) spans) as Hperm by (by apply omap_Permutation).
  destruct (newSession_ok truncatef sort_Slice range_invs range_accums SORT RA RI op_of calls _ ps xs HF) as (s & Hs & Htasks & I1 & I2 & I3 & S1 & S2 & S3).
  { by eapply times_ok_perm. }
  { intros x y Hx' Hy'. apply Hsh; by rewrite <-Hperm. }
  exists t, s. split; [done|]. rewrite Hm. cbn [snd]. rewrite fmap_app, He. fold xs. split_and!; [done|by rewrite Htasks|done| | |done..].
  - intros inv Hinv. destruct (I2 inv Hinv) as (p & Hp' & ?). exists p. split; [|done]. change spans with (bk_spans (book_of (calls_of ops))). by rewrite <-Hps.
  - intros p inv Hp'. apply I3. by rewrite Hps.
Qed.

(** The end of a run that failed is logged without durations, and reading a trace that
    has such a run is a panic. *)
Lemma buildTasks_failed_run_panics events e rest :
  te_Cat e = "task" → te_Args e !! "readDuration" = None → (∃ inv op shards shard, reTask (te_Name e) = Some (inv, op, shards, shard) ∧
    is_Some (Atoi inv) ∧ is_Some (Atoi shards) ∧ is_Some (Atoi shard)) →
  (∀ e', e' ∈ events → ∃ o, event_task e' = Ret o) → ∃ msg, buildTasks (events ++ e :: rest) = Panic msg.
Proof.
  intros Hcat Hno (inv & op & shards & shard & Hre & [zi Hi] & [zs Hs] & [zd Hd]) Hok.
  induction events as [|e' events IH].
  - cbn [app buildTasks]. unfold event_task. rewrite Hcat, Hre, Hi, Hs, Hd, Hno. by eexists.
  - destruct (Hok e' (list_elem_of_here _ _)) as [o Ho]. destruct IH as [msg Hmsg]; [intros x Hx; apply Hok; by right|].
    cbn [app buildTasks]. rewrite Ho. cbn [mbind outcome_bind]. rewrite Hmsg. by eexists.
Qed.
