(* ===== verification/Metrics.v ===== *)
(** Metrics (src/metrics/metrics.go, src/metrics/scope.go): counters by scope, merged
    across tasks.

    Counters are shared objects: an instance of a metric is the address of a
    counterValue, and a scope holds addresses, so that Reset makes two scopes share
    their counters.  The registry of metrics is a global variable.  Scopes are
    read and written with atomic operations; each operation on a scope is one
    function here, except for [instance], whose two steps other goroutines can
    interleave with. *)
From S2P Require Import Prelude Types.

Inductive Metric := zeroMetric | Counter (id : nat).

#[export] Instance Metric_eq_dec : EqDecision Metric.
Proof. solve_decision. Defined.

Definition metricID (m : Metric) : nat := match m with zeroMetric => 0 | Counter id => id end.

Record metrics := mkMetrics {
  ms_registry : list Metric;
  ms_values : list Z;
  ms_scopes : gmap nat (list (option nat));
}.

(** [var metrics = []Metric{zeroMetric{}}]. *)
Definition no_metrics : metrics := mkMetrics [zeroMetric] [] ∅.

Definition set_scope (s : nat) (l : list (option nat)) (w : metrics) : metrics :=
  mkMetrics (ms_registry w) (ms_values w) (<[s := l]> (ms_scopes w)).

Definition newMetric (makeMetric : nat → Metric) (w : metrics) : metrics :=
  mkMetrics (ms_registry w ++ [makeMetric (length (ms_registry w))]) (ms_values w) (ms_scopes w).

Definition NewCounter (w : metrics) : metrics * Metric :=
  (newMetric Counter w, Counter (length (ms_registry w))).

(** * Counter values *)

Definition incr (a : nat) (n : Z) (w : metrics) : metrics :=
  mkMetrics (ms_registry w) (alter (λ v, wrap64 (v + n)) a (ms_values w)) (ms_scopes w).

Definition load_value (a : nat) (w : metrics) : Z := default 0%Z (ms_values w !! a).

(** [counterValue.merge]. *)
Definition merge_value (a b : nat) (w : metrics) : metrics := incr a (load_value b w) w.

Definition newInstance (m : Metric) (w : metrics) : metrics * option nat :=
  match m with
  | zeroMetric => (w, None)
  | Counter _ => (mkMetrics (ms_registry w) (ms_values w ++ [0%Z]) (ms_scopes w), Some (length (ms_values w)))
  end.

(** [Metric.merge]. *)
Definition merge (m : Metric) (a b : nat) (w : metrics) : metrics :=
  match m with zeroMetric => w | Counter _ => merge_value a b w end.

(** * Scopes *)

(** [Scope.list]: the instances of the scope, made on first use. *)
Definition scope_list (s : nat) (w : metrics) : metrics * list (option nat) :=
  match ms_scopes w !! s with
  | Some l => (w, l)
  | None => let l := replicate (length (ms_registry w)) None in (set_scope s l w, l)
  end.

Definition load (s : nat) (m : Metric) (w : metrics) : outcome (metrics * option nat) :=
  let '(w, l) := scope_list s w in
  ptr ← index l (Z.of_nat (metricID m)); Ret (w, ptr).

Definition store (s : nat) (m : Metric) (v : option nat) (w : metrics) : outcome metrics :=
  let '(w, l) := scope_list s w in
  _ ← index l (Z.of_nat (metricID m));
  Ret (set_scope s (<[metricID m := v]> l) w).

(** The end of [Scope.instance]: unless another goroutine stored an instance since,
    store [inst]. *)
Definition instance_cas (s : nat) (m : Metric) (inst : nat) (w : metrics) : outcome (metrics * nat) :=
  '(w, ptr) ← load s m w;
  match ptr with
  | Some a => Ret (w, a)
  | None => w ← store s m (Some inst) w; Ret (w, inst)
  end.

Definition instance (s : nat) (m : Metric) (w : metrics) : outcome (metrics * nat) :=
  '(w, ptr) ← load s m w;
  match ptr with
  | Some a => Ret (w, a)
  | None =>
      match newInstance m w with
      | (_, None) => Panic "metric: metric returned nil instance"
      | (w, Some inst) => instance_cas s m inst w
      end
  end.

(** [Counter.Value] and [Counter.Incr]. *)
Definition Value (m : Metric) (s : nat) (w : metrics) : outcome (metrics * Z) :=
  '(w, a) ← instance s m w; Ret (w, load_value a w).

Definition Incr (m : Metric) (s : nat) (n : Z) (w : metrics) : outcome metrics :=
  '(w, a) ← instance s m w; Ret (incr a n w).

Fixpoint Merge_loop (ms : list Metric) (s u : nat) (w : metrics) : outcome metrics :=
  match ms with
  | [] => Ret w
  | m :: ms =>
      '(w, inst) ← load u m w;
      match inst with
      | None => Merge_loop ms s u w
      | Some b => '(w, a) ← instance s m w; Merge_loop ms s u (merge m a b w)
      end
  end.

Definition Merge (s u : nat) (w : metrics) : outcome metrics := Merge_loop (ms_registry w) s u w.

Fixpoint Reset_loop (ms : list Metric) (s u : nat) (w : metrics) : outcome metrics :=
  match ms with
  | [] => Ret w
  | m :: ms => '(w, v) ← load u m w; w ← store s m v w; Reset_loop ms s u w
  end.

(** A nil scope is [None]. *)
Definition Reset (s : nat) (u : option nat) (w : metrics) : outcome metrics :=
  match u with
  | None => Ret (mkMetrics (ms_registry w) (ms_values w) (delete s (ms_scopes w)))
  | Some u => Reset_loop (ms_registry w) s u w
  end.

(** [GobEncode] up to gob: the list of values that is encoded. *)
Fixpoint GobEncode_loop (ms : list Metric) (s : nat) (w : metrics) : outcome (metrics * list (option Z)) :=
  match ms with
  | [] => Ret (w, [])
  | m :: ms =>
      '(w, v) ← load s m w;
      '(w, vs) ← GobEncode_loop ms s w;
      Ret (w, match v with Some a => Some (load_value a w) | None => None end :: vs)
  end.
Definition GobEncode (s : nat) (w : metrics) : outcome (metrics * list (option Z)) :=
  GobEncode_loop (ms_registry w) s w.

(** [GobDecode], given the decoded list; every value is a new object. *)
Fixpoint GobDecode_loop (ms : list Metric) (s : nat) (vs : list (option Z)) (w : metrics) : outcome metrics :=
  match ms, vs with
  | m :: ms, None :: vs => w ← store s m None w; GobDecode_loop ms s vs w
  | m :: ms, Some z :: vs =>
      let w := mkMetrics (ms_registry w) (ms_values w ++ [z]) (ms_scopes w) in
      w ← store s m (Some (length (ms_values w) - 1)) w;
      GobDecode_loop ms s vs w
  | _, _ => Ret w
  end.
Definition GobDecode (s : nat) (vs : list (option Z)) (w : metrics) : outcome (metrics * option error) :=
  if negb (length vs =? length (ms_registry w)) then Ret (w, Some (Err Other "incompatible metric set"))
  else w ← GobDecode_loop (ms_registry w) s vs w; Ret (w, None).

(** * What scopes hold *)

(** The instance of counter [i] in scope [s], and its value; a counter without an
    instance is 0. *)
Definition ptr (w : metrics) (s i : nat) : option nat :=
  l ← ms_scopes w !! s; mjoin (l !! i).
Definition val (w : metrics) (s i : nat) : Z := from_option (λ a, load_value a w) 0%Z (ptr w s i).

(** Counters are registered with their position as id; scopes have a place for
    each metric, as none is registered once scopes are in use; and instances
    exist. *)
Record wf (w : metrics) : Prop := mkWf {
  wf_zero : ms_registry w !! 0 = Some zeroMetric;
  wf_counter : ∀ i m, 0 < i → ms_registry w !! i = Some m → m = Counter i;
  wf_scopes : ∀ s l, ms_scopes w !! s = Some l → length l = length (ms_registry w);
  wf_ptr : ∀ s i a, ptr w s i = Some a → 0 < i ∧ a < length (ms_values w);
  wf_values : Forall in_int64 (ms_values w);
}.

(** No other scope or counter uses the instances of [s]. *)
Definition owned (w : metrics) (s : nat) : Prop :=
  ∀ i s' i' a, ptr w s i = Some a → ptr w s' i' = Some a → s' = s ∧ i' = i.

(** The world after an operation that changes no value of the other scopes. *)
Definition same_counters (w w' : metrics) : Prop :=
  ms_registry w' = ms_registry w ∧ ms_values w' = ms_values w ∧ ∀ s i, ptr w' s i = ptr w s i.

Lemma same_counters_refl w : same_counters w w.
Proof. done. Qed.

Lemma same_counters_trans w1 w2 w3 : same_counters w1 w2 → same_counters w2 w3 → same_counters w1 w3.
Proof.
  intros (H1 & H2 & H3) (H4 & H5 & H6). split_and!; [congruence..|]. intros. by rewrite H6, H3.
Qed.

Lemma same_counters_val w w' s i : same_counters w w' → val w' s i = val w s i.
Proof. intros (_ & Hv & Hp). unfold val, load_value. by rewrite Hp, Hv. Qed.

Lemma same_counters_owned w w' s : same_counters w w' → owned w s → owned w' s.
Proof. intros (_ & _ & Hp) Ho i s' i' a. rewrite !Hp. apply Ho. Qed.

#[export] Hint Resolve same_counters_refl same_counters_trans : go.

Lemma ptr_set w s l s' i :
  ptr (set_scope s l w) s' i = if decide (s' = s) then mjoin (l !! i) else ptr w s' i.
Proof.
  unfold ptr. simpl. case_decide as Hs; [subst; by rewrite lookup_insert_eq|].
  by rewrite lookup_insert_ne by congruence.
Qed.

Lemma scope_list_spec s w w' l :
  wf w → scope_list s w = (w', l) →
  wf w' ∧ same_counters w w' ∧ ms_scopes w' !! s = Some l ∧ length l = length (ms_registry w).
Proof.
  intros Hw. unfold scope_list. destruct (ms_scopes w !! s) as [l0|] eqn:Hs.
  { intros [= <- <-]. split_and!; [done..|]. by eapply wf_scopes. }
  intros [= <- <-]. set (l := replicate (length (ms_registry w)) None).
  assert (∀ s' i, ptr (set_scope s l w) s' i = ptr w s' i) as Hp.
  { intros s' i. rewrite ptr_set. case_decide as E; [|done]. subst s'. unfold ptr. rewrite Hs. simpl. unfold l.
    destruct (replicate (length (ms_registry w)) (None (A := nat)) !! i) as [p|] eqn:E; [|done].
    by apply lookup_replicate in E as [-> _]. }
  split_and!; [|done| |by unfold l; rewrite length_replicate].
  - destruct Hw as [H1 H2 H3 H4 H5]. split; [done|done| | |done].
    + intros s' l'. simpl. destruct (decide (s' = s)) as [->|].
      * rewrite lookup_insert_eq. intros [= <-]. unfold l. by rewrite length_replicate.
      * rewrite lookup_insert_ne by congruence. apply H3.
    + intros s' i a. rewrite Hp. apply H4.
  - simpl. by rewrite lookup_insert_eq.
Qed.

Lemma load_spec s m w :
  wf w → metricID m < length (ms_registry w) →
  ∃ w', load s m w = Ret (w', ptr w s (metricID m)) ∧ wf w' ∧ same_counters w w'.
Proof.
  intros Hw Hm. unfold load. destruct (scope_list s w) as [w' l] eqn:Hl.
  destruct (scope_list_spec s w w' l Hw Hl) as (Hw' & Hsame & Hs & Hlen). exists w'. split; [|done].
  rewrite index_lookup. destruct (lookup_lt_is_Some_2 l (metricID m)) as [p Hp]; [lia|].
  rewrite Hp. cbn [mbind outcome_bind]. destruct Hsame as (_ & _ & Hptr). rewrite <-Hptr.
  unfold ptr. rewrite Hs. simpl. by rewrite Hp.
Qed.

Lemma store_spec s m v w :
  wf w → metricID m < length (ms_registry w) →
  (∀ a, v = Some a → 0 < metricID m ∧ a < length (ms_values w)) →
  ∃ w', store s m v w = Ret w' ∧ wf w' ∧ ms_registry w' = ms_registry w ∧ ms_values w' = ms_values w ∧
    ∀ s' i, ptr w' s' i = if decide (s' = s ∧ i = metricID m) then v else ptr w s' i.
Proof.
  intros Hw Hm Hv. unfold store. destruct (scope_list s w) as [w1 l] eqn:Hl.
  destruct (scope_list_spec s w w1 l Hw Hl) as (Hw1 & (Hreg & Hval & Hptr) & Hs & Hlen).
  rewrite index_lookup. destruct (lookup_lt_is_Some_2 l (metricID m)) as [p Hp]; [lia|].
  rewrite Hp. cbn [mbind outcome_bind]. eexists. split; [done|].
  assert (∀ s' i, ptr (set_scope s (<[metricID m:=v]> l) w1) s' i =
    if decide (s' = s ∧ i = metricID m) then v else ptr w s' i) as Hp'.
  { intros s' i. rewrite ptr_set. destruct (decide (s' = s)) as [->|Hne]; [|by rewrite decide_False, Hptr by tauto].
    destruct (decide (i = metricID m)) as [->|].
    - rewrite list_lookup_insert_eq by lia. by rewrite decide_True.
    - rewrite list_lookup_insert_ne by done. rewrite decide_False by tauto. rewrite <-Hptr. unfold ptr. by rewrite Hs. }
  split_and!; [|done|done|done].
  destruct Hw1 as [H1 H2 H3 H4 H5]. split; [done|done| | |done].
  - intros s' l'. simpl. destruct (decide (s' = s)) as [->|].
    + rewrite lookup_insert_eq. intros [= <-]. rewrite length_insert. congruence.
    + rewrite lookup_insert_ne by congruence. apply H3.
  - intros s' i a. rewrite Hp'. cbn [ms_values set_scope]. rewrite Hval. case_decide as E.
    + destruct E as [-> ->]. apply Hv.
    + apply (wf_ptr w Hw).
Qed.

(** A new instance of a counter is found by whoever gets it first. *)
Lemma instance_cas_spec s i inst w :
  wf w → 0 < i < length (ms_registry w) → inst < length (ms_values w) →
  ∃ w', instance_cas s (Counter i) inst w = Ret (w', default inst (ptr w s i)) ∧ wf w' ∧
    ms_registry w' = ms_registry w ∧ ms_values w' = ms_values w ∧
    ∀ s' i', ptr w' s' i' = if decide (s' = s ∧ i' = i) then Some (default inst (ptr w s i)) else ptr w s' i'.
Proof.
  intros Hw Hi Hinst. unfold instance_cas.
  destruct (load_spec s (Counter i) w Hw) as (w1 & -> & Hw1 & Hsame); [simpl; lia|]. cbn [mbind outcome_bind metricID].
  destruct Hsame as (Hreg & Hval & Hptr). destruct (ptr w s i) as [a|] eqn:Hp.
  - exists w1. split_and!; [done..|]. intros s' i'. rewrite Hptr. case_decide as E; [|done]. by destruct E as [-> ->].
  - destruct (store_spec s (Counter i) (Some inst) w1 Hw1) as (w2 & -> & Hw2 & Hreg2 & Hval2 & Hptr2).
    + simpl. rewrite Hreg. lia.
    + intros a [= <-]. simpl. rewrite Hval. lia.
    + exists w2. split_and!; [done..|congruence|congruence|]. intros s' i'. rewrite Hptr2, Hptr. done.
Qed.

Lemma load_value_snoc (w : metrics) v a :
  a < length (ms_values w) →
  load_value a (mkMetrics (ms_registry w) (ms_values w ++ [v]) (ms_scopes w)) = load_value a w.
Proof. intros Ha. unfold load_value. simpl. by rewrite lookup_app_l. Qed.

(** Getting an instance changes no value, and the scope still owns its counters. *)
Lemma instance_spec s i w :
  wf w → 0 < i < length (ms_registry w) →
  ∃ w' a, instance s (Counter i) w = Ret (w', a) ∧ wf w' ∧ ms_registry w' = ms_registry w ∧
    ptr w' s i = Some a ∧ (∀ s' i', val w' s' i' = val w s' i') ∧
    (∀ s' i', s' ≠ s → ptr w' s' i' = ptr w s' i') ∧ (owned w s → owned w' s).
Proof.
  intros Hw Hi. unfold instance.
  destruct (load_spec s (Counter i) w Hw) as (w1 & -> & Hw1 & Hsame); [simpl; lia|]. cbn [mbind outcome_bind metricID].
  destruct (ptr w s i) as [a|] eqn:Hp.
  { exists w1, a. pose proof Hsame as (Hreg & _ & Hptr). split_and!; [done..|by rewrite Hptr| | |].
    - intros. by apply same_counters_val.
    - intros. apply Hptr.
    - by apply same_counters_owned. }
  cbn [newInstance]. set (w2 := mkMetrics (ms_registry w1) (ms_values w1 ++ [0%Z]) (ms_scopes w1)).
  pose proof Hsame as (Hreg & Hval & Hptr).
  assert (∀ s' i', ptr w2 s' i' = ptr w s' i') as Hptr2 by (intros; by rewrite <-Hptr).
  assert (wf w2) as Hw2.
  { destruct Hw1 as [H1 H2 H3 H4 H5]. split; [done|done|done| |by apply Forall_app; split; [|repeat constructor]].
    intros s' i' a' Ha'. destruct (H4 s' i' a' Ha') as [? ?]. simpl. rewrite length_app. simpl. lia. }
  destruct (instance_cas_spec s i (length (ms_values w1)) w2 Hw2) as (w3 & -> & Hw3 & Hreg3 & Hval3 & Hptr3).
  { simpl. by rewrite Hreg. }
  { simpl. rewrite length_app. simpl. lia. }
  rewrite Hptr2, Hp in *. cbn [default from_option] in *.
  exists w3, (length (ms_values w1)). split_and!; [done|done|simpl in *; congruence|by rewrite Hptr3, decide_True| | |].
  - intros s' i'. unfold val. rewrite Hptr3. case_decide as E.
    + destruct E as [-> ->]. rewrite Hp. simpl. unfold load_value. rewrite Hval3. simpl.
      by rewrite lookup_app_r, Nat.sub_diag by lia.
    + rewrite Hptr2. destruct (ptr w s' i') as [a|] eqn:Ha; [|done]. simpl. unfold load_value. rewrite Hval3. simpl.
      apply (wf_ptr w Hw) in Ha as [_ Ha]. rewrite lookup_app_l by (by rewrite Hval). by rewrite Hval.
  - intros s' i' Hs. rewrite Hptr3, Hptr2, decide_False by tauto. done.
  - intros Ho j s' i' a. rewrite !Hptr3, !Hptr2.
    assert (∀ s0 i0, ptr w s0 i0 ≠ Some (length (ms_values w1))) as Hfresh.
    { intros s0 i0 Ha. apply (wf_ptr w Hw) in Ha as [_ Ha]. rewrite Hval in Ha. lia. }
    repeat case_decide; [naive_solver|..].
    + intros [= <-] Ha. by apply Hfresh in Ha.
    + intros Ha [= <-]. by apply Hfresh in Ha.
    + apply Ho.
Qed.

(** Adding to a counter that its scope owns changes that counter only. *)
Lemma incr_spec s i a n w :
  wf w → owned w s → ptr w s i = Some a →
  wf (incr a n w) ∧ owned (incr a n w) s ∧
  ∀ s' i', val (incr a n w) s' i' = if decide (s' = s ∧ i' = i) then wrap64 (val w s i + n) else val w s' i'.
Proof.
  intros Hw Ho Ha. assert (∀ s' i', ptr (incr a n w) s' i' = ptr w s' i') as Hptr by done.
  pose proof (wf_ptr w Hw _ _ _ Ha) as [Hi Hlt]. split_and!.
  - destruct Hw as [H1 H2 H3 H4 H5]. split; [done|done|done| |].
    + intros s' i' a' Ha'. simpl. rewrite length_alter. by eapply H4.
    + apply Forall_alter; [done|]. intros v _ _. apply wrap64_range.
  - exact Ho.
  - intros s' i'. unfold val. rewrite Hptr, Ha. case_decide as E.
    + destruct E as [-> ->]. rewrite Ha. simpl. unfold load_value. simpl. rewrite list_lookup_alter_eq.
      destruct (lookup_lt_is_Some_2 _ _ Hlt) as [v ->]. done.
    + destruct (ptr w s' i') as [b|] eqn:Hb; [|done]. simpl. unfold load_value. simpl.
      rewrite list_lookup_alter_ne; [done|]. intros ->. destruct (Ho _ _ _ _ Ha Hb) as [-> ->]. tauto.
Qed.

Lemma val_range w s i : wf w → in_int64 (val w s i).
Proof.
  intros Hw. unfold val. destruct (ptr w s i) as [a|] eqn:Ha; simpl; [|done].
  apply (wf_ptr w Hw) in Ha as [_ Ha]. unfold load_value. destruct (lookup_lt_is_Some_2 _ _ Ha) as [v Hv]. rewrite Hv.
  pose proof (wf_values w Hw) as Hr. rewrite Forall_lookup in Hr. by eapply Hr.
Qed.

Lemma wf_metric w i m : wf w → ms_registry w !! i = Some m → metricID m = i ∧ (m = zeroMetric ∨ 0 < i).
Proof.
  intros Hw Hm. destruct i as [|i].
  - rewrite (wf_zero w Hw) in Hm. injection Hm as <-. by split; [|left].
  - rewrite (wf_counter w Hw (S i) m) by (done || lia). split; [done|]. right. lia.
Qed.

Lemma wf_lookup w i : wf w → 0 < i < length (ms_registry w) → ms_registry w !! i = Some (Counter i).
Proof.
  intros Hw [Hi Hlt]. destruct (lookup_lt_is_Some_2 _ _ Hlt) as [m Hm]. by rewrite <-(wf_counter w Hw i m).
Qed.

(** The counters below [k] are merged. *)
Lemma Merge_loop_spec ms k s u w :
  wf w → owned w s → s ≠ u → drop k (ms_registry w) = ms →
  ∃ w', Merge_loop ms s u w = Ret w' ∧ wf w' ∧ owned w' s ∧ ms_registry w' = ms_registry w ∧
    ∀ s' i, val w' s' i =
      if decide (s' = s ∧ k ≤ i < length (ms_registry w)) then wrap64 (val w s i + val w u i) else val w s' i.
Proof.
  revert k w. induction ms as [|m ms IH]; intros k w Hw Ho Hne Hms.
  { exists w. split_and!; [done..|]. intros s' i. rewrite decide_False; [done|]. intros [_ Hi].
    apply (f_equal length) in Hms. rewrite length_drop in Hms. simpl in Hms. lia. }
  destruct (drop_cons_inv _ _ _ _ Hms) as [Hm Hms'].
  destruct (wf_metric w k m Hw Hm) as [Hid Hk]. apply lookup_lt_Some in Hm as Hlt.
  cbn [Merge_loop]. destruct (load_spec u m w Hw) as (w1 & -> & Hw1 & Hs1); [lia|]. cbn [mbind outcome_bind].
  pose proof Hs1 as (Hreg1 & _ & Hptr1). rewrite Hid.
  destruct (ptr w u k) as [b|] eqn:Hb.
  - destruct Hk as [->|Hk]; [apply (wf_ptr w Hw) in Hb; simpl in Hid; lia|].
    assert (m = Counter k) as -> by (by apply (wf_counter w Hw)).
    destruct (instance_spec s k w1 Hw1) as (w2 & a & -> & Hw2 & Hreg2 & Ha & Hval2 & Hptr2 & Ho2); [by rewrite Hreg1|].
    cbn [mbind outcome_bind merge]. unfold merge_value.
    assert (load_value b w2 = val w2 u k) as ->.
    { unfold val. by rewrite Hptr2, Hptr1, Hb. }
    destruct (incr_spec s k a (val w2 u k) w2 Hw2) as (Hw3 & Ho3 & Hval3); [by apply Ho2, (same_counters_owned w)|done|].
    destruct (IH (S k) (incr a (val w2 u k) w2) Hw3 Ho3 Hne) as (w' & -> & Hw' & Ho' & Hreg' & Hval').
    { cbn [ms_registry incr]. by rewrite Hreg2, Hreg1. }
    exists w'. split_and!; [done..|cbn [ms_registry incr] in Hreg'; congruence|].
    assert (∀ s' i, val w2 s' i = val w s' i) as Hv2 by (intros; by rewrite Hval2, (same_counters_val w)).
    intros s' i. rewrite Hval', !Hval3, !Hv2. cbn [ms_registry incr]. rewrite Hreg2, Hreg1.
    repeat case_decide; try done; try lia; by (f_equal; lia) || naive_solver lia.
  - destruct (IH (S k) w1) as (w' & -> & Hw' & Ho' & Hreg' & Hval');
      [done|by apply (same_counters_owned w)|done|by rewrite Hreg1|].
    exists w'. split_and!; [done..|congruence|]. intros s' i. rewrite Hval', Hreg1.
    rewrite !(same_counters_val w w1) by done. repeat case_decide; try done; [naive_solver lia|].
    assert (i = k) as -> by lia. assert (s' = s) as -> by tauto.
    assert (val w u k = 0%Z) as -> by (unfold val; by rewrite Hb).
    rewrite Z.add_0_r, wrap64_id by (by apply val_range). done.
Qed.

Lemma Value_spec s i w :
  wf w → 0 < i < length (ms_registry w) →
  ∃ w', Value (Counter i) s w = Ret (w', val w s i) ∧ wf w' ∧ ms_registry w' = ms_registry w ∧
    (∀ s' i', val w' s' i' = val w s' i') ∧ (owned w s → owned w' s).
Proof.
  intros Hw Hi. destruct (instance_spec s i w Hw Hi) as (w' & a & Hins & Hw' & Hreg & Ha & Hval & _ & Ho).
  exists w'. unfold Value. rewrite Hins. cbn [mbind outcome_bind]. split_and!; [|done..].
  rewrite <-Hval. unfold val. by rewrite Ha.
Qed.

Lemma Incr_spec s i n w :
  wf w → 0 < i < length (ms_registry w) → owned w s →
  ∃ w', Incr (Counter i) s n w = Ret w' ∧ wf w' ∧ ms_registry w' = ms_registry w ∧ owned w' s ∧
    ∀ s' i', val w' s' i' = if decide (s' = s ∧ i' = i) then wrap64 (val w s i + n) else val w s' i'.
Proof.
  intros Hw Hi Ho. destruct (instance_spec s i w Hw Hi) as (w1 & a & Hins & Hw1 & Hreg & Ha & Hval & _ & Ho1).
  destruct (incr_spec s i a n w1 Hw1 (Ho1 Ho) Ha) as (Hw' & Ho' & Hval').
  exists (incr a n w1). unfold Incr. rewrite Hins. cbn [mbind outcome_bind]. split_and!; [done..|].
  intros. by rewrite Hval', !Hval.
Qed.

Lemma Merge_spec s u w :
  wf w → owned w s → s ≠ u →
  ∃ w', Merge s u w = Ret w' ∧ wf w' ∧ owned w' s ∧ ms_registry w' = ms_registry w ∧
    ∀ s' i, val w' s' i =
      if decide (s' = s ∧ i < length (ms_registry w)) then wrap64 (val w s i + val w u i) else val w s' i.
Proof.
  intros Hw Ho Hne. destruct (Merge_loop_spec (ms_registry w) 0 s u w Hw Ho Hne) as (w' & Hm & Hw' & Ho' & Hreg & Hval);
    [done|]. exists w'. split_and!; [done..|]. intros s' i. rewrite Hval. repeat case_decide; done || lia.
Qed.

(** ** Reset *)

Lemma Reset_loop_spec ms k s u w :
  wf w → drop k (ms_registry w) = ms →
  ∃ w', Reset_loop ms s u w = Ret w' ∧ wf w' ∧ ms_registry w' = ms_registry w ∧ ms_values w' = ms_values w ∧
    ∀ s' i, ptr w' s' i = if decide (s' = s ∧ k ≤ i < length (ms_registry w)) then ptr w u i else ptr w s' i.
Proof.
  revert k w. induction ms as [|m ms IH]; intros k w Hw Hms.
  { exists w. split_and!; [done..|]. intros s' i. rewrite decide_False; [done|]. intros [_ Hi].
    apply (f_equal length) in Hms. rewrite length_drop in Hms. simpl in Hms. lia. }
  destruct (drop_cons_inv _ _ _ _ Hms) as [Hm Hms'].
  destruct (wf_metric w k m Hw Hm) as [Hid _]. apply lookup_lt_Some in Hm as Hlt.
  cbn [Reset_loop]. destruct (load_spec u m w Hw) as (w1 & -> & Hw1 & Hreg1 & Hval1 & Hptr1); [lia|].
  cbn [mbind outcome_bind]. rewrite Hid.
  destruct (store_spec s m (ptr w u k) w1 Hw1) as (w2 & -> & Hw2 & Hreg2 & Hval2 & Hptr2); [by rewrite Hreg1, Hid| |].
  { intros a Ha. rewrite Hid, Hval1. by eapply (wf_ptr w Hw). }
  cbn [mbind outcome_bind]. destruct (IH (S k) w2 Hw2) as (w' & -> & Hw' & Hreg' & Hval' & Hptr');
    [by rewrite Hreg2, Hreg1|].
  exists w'. split_and!; [done..|congruence|congruence|]. intros s' i. rewrite Hptr', !Hptr2, !Hptr1, Hid, Hreg2, Hreg1.
  repeat case_decide; naive_solver lia.
Qed.

(** After a Reset the two scopes have the same values, in the same counters. *)
Lemma Reset_spec s u w :
  wf w →
  ∃ w', Reset s (Some u) w = Ret w' ∧ wf w' ∧ ms_registry w' = ms_registry w ∧
    (∀ i, i < length (ms_registry w) → ptr w' s i = ptr w u i) ∧
    ∀ s' i, val w' s' i = if decide (s' = s ∧ i < length (ms_registry w)) then val w u i else val w s' i.
Proof.
  intros Hw. destruct (Reset_loop_spec (ms_registry w) 0 s u w Hw) as (w' & Hr & Hw' & Hreg & Hval & Hptr); [done|].
  exists w'. split_and!; [done..| |].
  - intros i Hi. by rewrite Hptr, decide_True by (split; [done|lia]).
  - intros s' i. unfold val, load_value. rewrite Hptr, Hval. repeat case_decide; done || lia.
Qed.

Lemma ptr_in_range w s i a : wf w → ptr w s i = Some a → i < length (ms_registry w).
Proof.
  intros Hw. unfold ptr. destruct (ms_scopes w !! s) as [l|] eqn:Hl; [|done]. simpl.
  destruct (l !! i) as [p|] eqn:Hp; [|done]. intros _. apply lookup_lt_Some in Hp. by rewrite <-(wf_scopes w Hw s l Hl).
Qed.

(** ** Sending scopes to another process *)

Lemma GobEncode_loop_spec ms k s w :
  wf w → drop k (ms_registry w) = ms →
  ∃ w', GobEncode_loop ms s w =
      Ret (w', (λ i, (λ a, load_value a w) <$> ptr w s i) <$> seq k (length ms)) ∧
    wf w' ∧ same_counters w w'.
Proof.
  revert k w. induction ms as [|m ms IH]; intros k w Hw Hms; [by exists w|].
  destruct (drop_cons_inv _ _ _ _ Hms) as [Hm Hms'].
  destruct (wf_metric w k m Hw Hm) as [Hid _]. apply lookup_lt_Some in Hm as Hlt.
  cbn [GobEncode_loop]. destruct (load_spec s m w Hw) as (w1 & -> & Hw1 & Hs1); [lia|]. cbn [mbind outcome_bind].
  pose proof Hs1 as (Hreg1 & Hval1 & Hptr1).
  destruct (IH (S k) w1 Hw1) as (w2 & -> & Hw2 & Hs2); [by rewrite Hreg1|]. cbn [mbind outcome_bind].
  pose proof Hs2 as (_ & Hval2 & _).
  exists w2. split_and!; [|done|by eauto with go]. do 2 f_equal. cbn [length seq fmap list_fmap]. rewrite Hid. f_equal.
  - destruct (ptr w s k); [|done]. simpl. unfold load_value. by rewrite Hval2, Hval1.
  - apply list_fmap_ext. intros j i _. rewrite Hptr1. destruct (ptr w s i); [|done]. simpl. unfold load_value. by rewrite Hval1.
Qed.

(** Values as they are sent: none for the zero metric. *)
Definition sendable (vs : list (option Z)) : Prop :=
  vs !! 0 = Some None ∧ Forall (λ v, from_option in_int64 True v) vs.

(** Decoding one value stores a new counter, or none. *)
Lemma GobDecode_step m ms k s v vs vs0 w :
  wf w → sendable vs0 → vs0 !! k = Some v → ms_registry w !! k = Some m →
  ∃ w2 p, GobDecode_loop (m :: ms) s (v :: vs) w = GobDecode_loop ms s vs w2 ∧ wf w2 ∧
    ms_registry w2 = ms_registry w ∧ (∀ s' i a, p = Some a → ptr w s' i ≠ Some a) ∧
    (∀ s' i, ptr w2 s' i = if decide (s' = s ∧ i = k) then p else ptr w s' i) ∧
    ∀ s' i, val w2 s' i = if decide (s' = s ∧ i = k) then default 0%Z v else val w s' i.
Proof.
  intros Hw Hsend Hv Hm. destruct (wf_metric w k m Hw Hm) as [Hid Hk]. apply lookup_lt_Some in Hm as Hlt.
  destruct v as [z|].
  - set (w1 := mkMetrics (ms_registry w) (ms_values w ++ [z]) (ms_scopes w)).
    assert (0 < k) as Hk0.
    { destruct Hsend as [Hs0 _]. destruct k; [congruence|lia]. }
    assert (∀ s' i a, ptr w s' i = Some a → load_value a w1 = load_value a w) as Hvals.
    { intros s' i a [_ Ha]%(wf_ptr w Hw). by apply load_value_snoc. }
    assert (wf w1) as Hw1.
    { destruct Hw as [H1 H2 H3 H4 H5]. split; [done|done|done| |].
      - intros s' i' a' Ha'. destruct (H4 s' i' a' Ha') as [? ?]. simpl. rewrite length_app. simpl. lia.
      - apply Forall_app. split; [done|]. constructor; [|done]. destruct Hsend as [_ Hr]. rewrite Forall_lookup in Hr.
        exact (Hr k (Some z) Hv). }
    destruct (store_spec s m (Some (length (ms_values w))) w1 Hw1) as (w2 & Hst & Hw2 & Hreg2 & Hval2 & Hptr2).
    { by rewrite Hid. }
    { intros a [= <-]. rewrite Hid. simpl. rewrite length_app. simpl. lia. }
    rewrite Hid in Hptr2. change (∀ s' i, ptr w2 s' i =
      if decide (s' = s ∧ i = k) then Some (length (ms_values w)) else ptr w s' i) in Hptr2.
    exists w2, (Some (length (ms_values w))). split_and!; [|done|done| |done|].
    + cbn [GobDecode_loop]. cbv zeta. fold w1. replace (length (ms_values w1) - 1) with (length (ms_values w)).
      { by rewrite Hst. } simpl. rewrite length_app. simpl. lia.
    + intros s' i a [= <-] Ha. apply (wf_ptr w Hw) in Ha as [_ Ha]. lia.
    + intros s' i. unfold val. rewrite Hptr2. case_decide.
      * simpl. unfold load_value. rewrite Hval2. simpl. by rewrite lookup_app_r, Nat.sub_diag by lia.
      * destruct (ptr w s' i) as [a|] eqn:Ha; [|done]. simpl. rewrite <-(Hvals _ _ _ Ha). unfold load_value. by rewrite Hval2.
  - destruct (store_spec s m None w Hw) as (w2 & Hst & Hw2 & Hreg2 & Hval2 & Hptr2); [by rewrite Hid|done|].
    rewrite Hid in Hptr2. exists w2, None. split_and!; [|done|done|done|done|].
    + cbn [GobDecode_loop]. by rewrite Hst.
    + intros s' i. unfold val, load_value. rewrite Hptr2, Hval2. by case_decide.
Qed.

Lemma GobDecode_loop_spec ms k s vs vs0 w :
  wf w → owned w s → sendable vs0 → drop k (ms_registry w) = ms → drop k vs0 = vs → length vs = length ms →
  ∃ w', GobDecode_loop ms s vs w = Ret w' ∧ wf w' ∧ ms_registry w' = ms_registry w ∧ owned w' s ∧
    (∀ s' i, s' ≠ s → val w' s' i = val w s' i) ∧
    ∀ i, val w' s i = if decide (k ≤ i < length (ms_registry w)) then default 0%Z (mjoin (vs0 !! i)) else val w s i.
Proof.
  revert k vs w. induction ms as [|m ms IH]; intros k vs w Hw Ho Hsend Hms Hvs Hlen.
  { exists w. destruct vs; [|done]. split_and!; [done..|]. intros i. rewrite decide_False; [done|]. intros Hi.
    apply (f_equal length) in Hms. rewrite length_drop in Hms. simpl in Hms. lia. }
  destruct vs as [|v vs]; [done|].
  destruct (drop_cons_inv _ _ _ _ Hms) as [Hm Hms']. destruct (drop_cons_inv _ _ _ _ Hvs) as [Hv Hvs'].
  apply lookup_lt_Some in Hm as Hlt.
  destruct (GobDecode_step m ms k s v vs vs0 w Hw Hsend Hv Hm) as (w2 & p & -> & Hw2 & Hreg2 & Hfresh & Hptr2 & Hvw2).
  destruct (IH (S k) vs w2) as (w' & -> & Hw' & Hreg' & Ho' & Hother & Hval'); [done| |done|by rewrite Hreg2|done|by injection Hlen|].
  { intros i s' i' a. rewrite !Hptr2. repeat case_decide; [naive_solver|..].
    - intros -> Ha. by apply Hfresh in Ha.
    - intros Ha ->. by apply Hfresh in Ha.
    - apply Ho. }
  exists w'. split_and!; [done|done|congruence|done| |].
  - intros s' i Hs. rewrite Hother, Hvw2, decide_False by tauto. done.
  - intros i. rewrite Hval', Hreg2, Hvw2. destruct (decide (i = k)) as [->|].
    + rewrite decide_False, decide_True, decide_True, Hv by (done || lia). done.
    + rewrite (decide_False (P := s = s ∧ i = k)) by tauto. repeat case_decide; done || lia.
Qed.

Lemma GobDecode_spec s vs w :
  wf w → owned w s → sendable vs → length vs = length (ms_registry w) →
  ∃ w', GobDecode s vs w = Ret (w', None) ∧ wf w' ∧ ms_registry w' = ms_registry w ∧ owned w' s ∧
    (∀ s' i, s' ≠ s → val w' s' i = val w s' i) ∧
    ∀ i, i < length (ms_registry w) → val w' s i = default 0%Z (mjoin (vs !! i)).
Proof.
  intros Hw Ho Hs Hlen.
  destruct (GobDecode_loop_spec (ms_registry w) 0 s vs vs w Hw Ho Hs) as (w' & Hd & Hw' & Hreg & Ho' & Hoth & Hval); [done..|].
  exists w'. unfold GobDecode. rewrite Hlen, Nat.eqb_refl, Hd. simpl. split_and!; [done..|].
  intros i Hi. by rewrite Hval, decide_True by lia.
Qed.

Lemma GobEncode_spec s w :
  wf w → ∃ w' vs, GobEncode s w = Ret (w', vs) ∧ wf w' ∧ same_counters w w' ∧ sendable vs ∧
    length vs = length (ms_registry w) ∧ ∀ i, default 0%Z (mjoin (vs !! i)) = val w s i.
Proof.
  intros Hw. destruct (GobEncode_loop_spec (ms_registry w) 0 s w Hw) as (w' & Henc & Hw' & Hs); [done|].
  eexists w', _. split; [exact Henc|]. split_and!; [done|done| |by rewrite length_fmap, length_seq|].
  - pose proof (lookup_lt_Some _ _ _ (wf_zero w Hw)) as Hlen. split.
    + rewrite list_lookup_fmap, lookup_seq_lt by done. simpl.
      destruct (ptr w s 0) as [a|] eqn:Ha; [|done]. apply (wf_ptr w Hw) in Ha. lia.
    + rewrite Forall_fmap, Forall_forall. intros i _. simpl. pose proof (val_range w s i Hw) as Hr. unfold val in Hr.
      by destruct (ptr w s i).
  - intros i. rewrite list_lookup_fmap. unfold val. destruct (decide (i < length (ms_registry w))).
    + rewrite lookup_seq_lt by done. simpl. by destruct (ptr w s i).
    + rewrite lookup_seq_ge by lia. simpl. destruct (ptr w s i) eqn:Ha; [|done]. by apply ptr_in_range in Ha.
Qed.
