(* ===== verification/SliceStatus.v ===== *)
(** Iteration over a task graph and the status of slices
    (src/exec/slicestatus.go).

    iterTasks visits a graph in post-order, and marks only the first task of a list
    as visited; the session uses it to merge metrics and to discard results, the
    status display to count the tasks of a slice by state. *)
From S2P Require Import Prelude Task.

Section iterTasks.
Context {St : Type} (w : world) (f : nat → St → outcome (St * option error)).

(** A loop over [xs], left at the first error. *)
Fixpoint each {A} (g : A → gset nat → St → outcome (gset nat * St * option error)) (xs : list A)
    (visited : gset nat) (s : St) : outcome (gset nat * St * option error) :=
  match xs with
  | [] => Ret (visited, s, None)
  | x :: xs =>
      '(visited, s, err) ← g x visited s;
      match err with
      | Some e => Ret (visited, s, Some e)
      | None => each g xs visited s
      end
  end.

(** The loops over the dependencies of a task and their tasks. *)
Definition walk_deps (walk : list nat → gset nat → St → outcome (gset nat * St * option error)) (deps : list TaskDep) :
    gset nat → St → outcome (gset nat * St * option error) :=
  each (λ d visited s,
    n ← NumTask w d;
    ts ← dep_tasks w d 0 n;
    each (λ t, walk [t]) ts visited s) deps.

(** The body of the loop over the tasks. *)
Definition walk_task (walk : list nat → gset nat → St → outcome (gset nat * St * option error)) (t : nat)
    (visited : gset nat) (s : St) : outcome (gset nat * St * option error) :=
  with_task w t (λ T,
    '(visited, s, err) ← walk_deps walk (t_Deps T) visited s;
    match err with
    | Some e => Ret (visited, s, Some e)
    | None => '(s, err) ← f t s; Ret (visited, s, err)
    end).

Fixpoint walk (fuel : nat) (tasks : list nat) (visited : gset nat) (s : St) :
    outcome (gset nat * St * option error) :=
  match tasks with
  | [] => Ret (visited, s, None)
  | t0 :: _ =>
      if bool_decide (t0 ∈ visited) then Ret (visited, s, None)
      else
        match fuel with
        | O => NoFuel
        | S fuel => each (walk_task (walk fuel)) tasks ({[t0]} ∪ visited) s
        end
  end.

Definition iterTasks (fuel : nat) (tasks : list nat) (s : St) : outcome (St * option error) :=
  '(_, s, err) ← walk fuel tasks ∅ s; Ret (s, err).

(** * Correctness *)

(** [f] does not fail in states in [I], the graph has no dangling pointers, and
    dependencies have lower ranks. *)
Context (I : St → Prop) (F : St → nat → St).
Context (f_ok : ∀ t s, t ∈ dom (w_tasks w) → I s → f t s = Ret (F s t, None) ∧ I (F s t)).
Context (rank : nat → nat) (graph : graph_ok w) (ranked : ∀ t u, edge w t u → rank u < rank t).

Lemma rank_rtc t u : rtc (edge w) t u → rank u ≤ rank t.
Proof. induction 1 as [|t x u Htx _ IH]; [done|]. pose proof (ranked _ _ Htx). lia. Qed.

Lemma rank_tc t u : tc (edge w) t u → rank u < rank t.
Proof. induction 1 as [t u Htu|t x u Htx _ IH]; [by apply ranked|]. pose proof (ranked _ _ Htx). lia. Qed.

Lemma edge_dom t u : edge w t u → u ∈ dom (w_tasks w).
Proof. intros (T & d & HT & Hd & Hu). exact (proj2 (graph t T d HT Hd) u Hu). Qed.

(** Tasks come after their dependencies, unless those are in [v]. *)
Definition ordered (v : gset nat) (L : list nat) : Prop :=
  ∀ i u x, L !! i = Some u → edge w u x → x ∈ v ∨ ∃ j, j < i ∧ L !! j = Some x.

(** [L] was visited, with [v] visited before. *)
Record traversed (P : nat → Prop) (v : gset nat) (L : list nat) : Prop := mkTraversed {
  tr_NoDup : NoDup L;
  tr_new : ∀ u, u ∈ L → P u ∧ u ∉ v;
  tr_ordered : ordered v L;
}.

Lemma ordered_app v L1 L2 : ordered v L1 → ordered (list_to_set L1 ∪ v) L2 → ordered v (L1 ++ L2).
Proof.
  intros H1 H2 i u x. rewrite lookup_app_Some. intros [Hi|[Hle Hi]] Hux.
  - destruct (H1 i u x Hi Hux) as [|(j & Hj & Hx)]; [by left|]. right. exists j. split; [done|]. by apply lookup_app_l_Some.
  - destruct (H2 _ u x Hi Hux) as [Hx|(j & Hj & Hx)].
    + apply elem_of_union in Hx as [Hx|]; [|by left]. apply elem_of_list_to_set, list_elem_of_lookup in Hx as [j Hx].
      right. exists j. split; [apply lookup_lt_Some in Hx; lia|]. by apply lookup_app_l_Some.
    + right. exists (length L1 + j). split; [lia|]. rewrite lookup_app_r by lia. by rewrite Nat.add_comm, Nat.add_sub.
Qed.

Lemma traversed_app (P : nat → Prop) v L1 L2 :
  traversed P v L1 → traversed P (list_to_set L1 ∪ v) L2 → traversed P v (L1 ++ L2).
Proof.
  intros [N1 A1 O1] [N2 A2 O2]. split; [|intros u [Hu|Hu]%elem_of_app|by apply ordered_app].
  - apply list.NoDup_app. split_and!; [done| |done]. intros u Hu1 [_ Hu]%A2. set_solver.
  - by apply A1.
  - apply A2 in Hu as [? Hu]. split; [done|]. set_solver.
Qed.

Lemma traversed_impl (P Q : nat → Prop) v L : (∀ u, P u → Q u) → traversed P v L → traversed Q v L.
Proof. intros HPQ [N A O]. split; [done| |done]. intros u [? ?]%A. auto. Qed.

Lemma foldl_inv s L : (∀ t, t ∈ L → t ∈ dom (w_tasks w)) → I s → I (foldl F s L).
Proof.
  revert s. induction L as [|t L IH]; intros s HL Hs; [done|]. simpl. apply IH; [set_solver|].
  apply f_ok; [set_solver|done].
Qed.

Lemma foldl_snoc s L t : F (foldl F s L) t = foldl F s (L ++ [t]).
Proof. by rewrite foldl_app. Qed.

(** Visiting tasks one after another. *)
Lemma each_spec {A} (g : A → gset nat → St → outcome (gset nat * St * option error)) (ts : A → list nat) xs v s P :
  I s → (∀ t, P t → t ∈ dom (w_tasks w)) →
  (∀ x v s, x ∈ xs → I s → ∃ L, g x v s = Ret (list_to_set L ∪ v, foldl F s L, None) ∧ traversed P v L ∧
    ∀ t, t ∈ ts x → t ∈ v ∨ t ∈ L) →
  ∃ L, each g xs v s = Ret (list_to_set L ∪ v, foldl F s L, None) ∧ traversed P v L ∧
    ∀ x t, x ∈ xs → t ∈ ts x → t ∈ v ∨ t ∈ L.
Proof.
  intros Hs HP. revert v s Hs. induction xs as [|x xs IH]; intros v s Hs Hg.
  { exists []. split_and!; [simpl; by rewrite (left_id_L ∅ (∪))|split; [constructor|set_solver|done]|set_solver]. }
  destruct (Hg x v s) as (L1 & Hg1 & Ht1 & Hx1); [by left|done|].
  destruct (IH (list_to_set L1 ∪ v) (foldl F s L1)) as (L2 & Hg2 & Ht2 & Hx2).
  { apply foldl_inv; [|done]. intros t Ht. by apply HP, (tr_new _ _ _ Ht1). }
  { intros y v' s' Hy. apply Hg. by right. }
  exists (L1 ++ L2). simpl. rewrite Hg1. cbn [mbind outcome_bind]. rewrite Hg2. split_and!.
  - rewrite foldl_app, list_to_set_app_L. do 3 f_equal. set_solver.
  - by apply traversed_app.
  - intros y t [->|Hy]%elem_of_cons Ht; rewrite elem_of_app.
    + destruct (Hx1 t Ht); auto.
    + destruct (Hx2 y t Hy Ht) as [Hin|]; [|auto]. set_solver.
Qed.

Lemma walk_deps_spec (rec : list nat → gset nat → St → outcome (gset nat * St * option error)) t T v s P :
  w_tasks w !! t = Some T → I s → (∀ u, P u → u ∈ dom (w_tasks w)) →
  (∀ u v s, edge w t u → I s → ∃ L, rec [u] v s = Ret (list_to_set L ∪ v, foldl F s L, None) ∧ traversed P v L ∧ (u ∈ v ∨ u ∈ L)) →
  ∃ L, walk_deps rec (t_Deps T) v s = Ret (list_to_set L ∪ v, foldl F s L, None) ∧ traversed P v L ∧
    ∀ u, edge w t u → u ∈ v ∨ u ∈ L.
Proof.
  intros HT Hs HP Hrec. unfold walk_deps.
  destruct (each_spec (λ d visited s, n ← NumTask w d; ts ← dep_tasks w d 0 n; each (λ t, rec [t]) ts visited s)
    (members w) (t_Deps T) v s P Hs HP) as (L & HL & Htr & Hin).
  - intros d v' s' Hd Hs'. destruct (dep_tasks_members w d) as (n & Hn & Hts); [exact (proj1 (graph t T d HT Hd))|].
    destruct (each_spec (λ t, rec [t]) (λ t, [t]) (members w d) v' s' P Hs' HP) as (L & HL & Htr & Hin).
    + intros u v'' s'' Hu Hs''. destruct (Hrec u v'' s'') as (L & HL & Htr & Hin); [by exists T, d|done|].
      exists L. split_and!; [done..|]. intros u' ->%list_elem_of_singleton. done.
    + exists L. rewrite Hn. cbn [mbind outcome_bind]. rewrite Hts. cbn [mbind outcome_bind].
      split_and!; [done..|]. intros u Hu. by apply (Hin u u Hu), list_elem_of_singleton.
  - exists L. split_and!; [done..|]. intros u (T' & d & HT' & Hd & Hu). simplify_eq. by eapply Hin.
Qed.

Lemma walk_task_eq rec t T v s :
  w_tasks w !! t = Some T →
  walk_task rec t v s =
    ('(visited, s, err) ← walk_deps rec (t_Deps T) v s;
     match err with
     | Some e => Ret (visited, s, Some e)
     | None => '(s, err) ← f t s; Ret (visited, s, err)
     end).
Proof. intros HT. unfold walk_task, with_task. by rewrite HT. Qed.

Lemma reach_dom t u : t ∈ dom (w_tasks w) → rtc (edge w) t u → u ∈ dom (w_tasks w).
Proof. intros Ht Hr. revert u Hr. apply rtc_ind_r; [done|]. intros x y _ Hxy _. by eapply edge_dom. Qed.

Lemma walk_spec fuel t v s :
  t ∈ dom (w_tasks w) → I s → rank t < fuel →
  ∃ L, walk fuel [t] v s = Ret (list_to_set L ∪ v, foldl F s L, None) ∧
    traversed (rtc (edge w) t) v L ∧ (t ∈ v ∨ t ∈ L).
Proof.
  revert t v s. induction fuel as [|fuel IH]; intros t v s Hdom Hs Hf; [lia|].
  pose proof Hdom as [T HT]%elem_of_dom.
  cbn [walk]. case_bool_decide as Hv.
  { exists []. split_and!; [simpl; by rewrite (left_id_L ∅ (∪))|split; [constructor|set_solver|done]|by left]. }
  cbn [each]. rewrite (walk_task_eq _ t T) by done.
  destruct (walk_deps_spec (walk fuel) t T ({[t]} ∪ v) s (rtc (edge w) t) HT Hs) as (L & -> & [HN HA HO] & Hall).
  { intros u. by apply reach_dom. }
  { intros u v' s' Hu Hs'. pose proof (ranked t u Hu). destruct (IH u v' s') as (L & HL & Htr & Hin);
      [by eapply edge_dom|done|lia|]. exists L. split_and!; [done| |done]. eapply traversed_impl; [|done].
    intros x Hx. by eapply rtc_l. }
  destruct (f_ok t (foldl F s L) Hdom) as [Hft _].
  { apply foldl_inv; [|done]. intros u [Hu _]%HA. by eapply reach_dom. }
  cbn [mbind outcome_bind]. rewrite Hft. cbn [mbind outcome_bind]. exists (L ++ [t]). split_and!.
  - rewrite foldl_snoc, list_to_set_app_L. simpl. do 3 f_equal. set_solver.
  - split.
    + apply list.NoDup_app. split_and!; [done| |apply NoDup_singleton]. intros u [_ Hu]%HA ->%list_elem_of_singleton. set_solver.
    + intros u [[Hr Hu]%HA| ->%list_elem_of_singleton]%elem_of_app; [set_solver|]. by split; [apply rtc_refl|].
    + apply ordered_app.
      * intros i u x Hi Hux. destruct (HO i u x Hi Hux) as [Hx|]; [|by right].
        apply elem_of_union in Hx as [Hx%elem_of_singleton|]; [|by left]. exfalso. subst x.
        apply list_elem_of_lookup_2, HA in Hi as [Hr%rank_rtc _]. pose proof (ranked _ _ Hux). lia.
      * intros i u x [-> <-]%list_lookup_singleton_Some Hux. left. destruct (Hall x Hux) as [Hx|]; [|set_solver].
        pose proof (ranked _ _ Hux). assert (x ≠ t) by (intros ->; lia). set_solver.
  - right. apply elem_of_app. right. by apply list_elem_of_singleton.
Qed.

(** The tasks given to iterTasks: none depends on another. *)
Definition exclusive (ts : list nat) : Prop := ∀ r r', r ∈ ts → r' ∈ ts → ¬ tc (edge w) r r'.

Lemma walk_roots fuel all ts v s :
  I s → exclusive all → (∀ r, r ∈ ts → r ∈ all) → NoDup ts → (∀ r, r ∈ ts → r ∈ dom (w_tasks w) ∧ rank r ≤ fuel) →
  ∃ L V, each (walk_task (walk fuel)) ts v s = Ret (V, foldl F s L, None) ∧
    NoDup L ∧ (∀ r, r ∈ ts → r ∈ L) ∧ ordered v L ∧
    ∀ u, u ∈ L → u ∈ ts ∨ (u ∉ v ∧ ∃ r, r ∈ ts ∧ tc (edge w) r u).
Proof.
  intros Hs Hex. revert v s Hs. induction ts as [|t ts IH]; intros v s Hs Hall HN Hdom.
  { exists [], v. split_and!; [done|constructor|done|done|set_solver]. }
  apply list.NoDup_cons in HN as [Hnt HN].
  destruct (Hdom t) as [[T HT]%elem_of_dom Hrk]; [by left|]. cbn [each]. rewrite (walk_task_eq _ t T) by done.
  destruct (walk_deps_spec (walk fuel) t T v s (tc (edge w) t) HT Hs) as (L1 & -> & [HN1 HA1 HO1] & Hin1).
  { intros u Hu. eapply reach_dom; [by apply elem_of_dom; eexists|by apply tc_rtc]. }
  { intros u v' s' Hu Hs'. pose proof (ranked t u Hu).
    destruct (walk_spec fuel u v' s') as (L & HL & Htr & Hin); [by eapply edge_dom|done|lia|].
    exists L. split_and!; [done| |done]. eapply traversed_impl; [|done]. intros x Hx. by eapply tc_rtc_r; [apply tc_once|]. }
  assert (t ∈ dom (w_tasks w)) as Htd by (by apply elem_of_dom; eexists).
  destruct (f_ok t (foldl F s L1) Htd) as [Hft HIt].
  { apply foldl_inv; [|done]. intros u [Hu _]%HA1. eapply reach_dom; [done|by apply tc_rtc]. }
  cbn [mbind outcome_bind]. rewrite Hft. cbn [mbind outcome_bind].
  destruct (IH (list_to_set L1 ∪ v) (F (foldl F s L1) t)) as (L2 & V & -> & HN2 & Hr2 & HO2 & HA2).
  { done. }
  { intros r Hr. apply Hall. by right. }
  { done. }
  { intros r Hr. apply Hdom. by right. }
  assert (∀ u, u ∈ L1 → u ∉ t :: ts) as Hroot.
  { intros u [Hu _]%HA1 Hin. by apply (Hex t u); [apply Hall; left|apply Hall|]. }
  exists ((L1 ++ [t]) ++ L2), V. split_and!.
  - by rewrite foldl_app, foldl_snoc.
  - apply list.NoDup_app. split_and!; [| |done].
    + apply list.NoDup_app. split_and!; [done| |apply NoDup_singleton]. intros u Hu ->%list_elem_of_singleton.
      apply Hroot in Hu. set_solver.
    + intros u [Hu| ->%list_elem_of_singleton]%elem_of_app [Hts|[Hnv (r & Hr & Hru)]]%HA2.
      * apply Hroot in Hu. set_solver.
      * set_solver.
      * done.
      * by apply (Hex r t); [apply Hall; right|apply Hall; left|].
  - intros r [->|Hr]%elem_of_cons; rewrite !elem_of_app, list_elem_of_singleton; auto.
  - apply ordered_app; [apply ordered_app; [done|]|].
    + intros i u x [-> <-]%list_lookup_singleton_Some Hux. left. destruct (Hin1 x Hux); set_solver.
    + intros i u x Hi Hux. destruct (HO2 i u x Hi Hux) as [Hx|]; [|by right]. left. rewrite list_to_set_app_L. set_solver.
  - intros u [[Hu| ->%list_elem_of_singleton]%elem_of_app|Hu]%elem_of_app.
    + right. destruct (HA1 u Hu) as [Htc Hv]. split; [done|]. exists t. split; [by left|done].
    + left. by left.
    + destruct (HA2 u Hu) as [|[Hnv (r & Hr & Hru)]]; [left; by right|]. right. split; [set_solver|].
      exists r. split; [by right|done].
Qed.

Lemma iterTasks_spec fuel ts s :
  I s → exclusive ts → NoDup ts → (∀ r, r ∈ ts → r ∈ dom (w_tasks w) ∧ rank r < fuel) →
  ∃ L, iterTasks fuel ts s = Ret (foldl F s L, None) ∧ NoDup L ∧
    (∀ u, u ∈ L ↔ ∃ r, r ∈ ts ∧ rtc (edge w) r u) ∧
    ∀ i u x, L !! i = Some u → edge w u x → ∃ j, j < i ∧ L !! j = Some x.
Proof.
  intros Hs Hex HN Hdom. unfold iterTasks. destruct ts as [|t ts].
  { exists []. destruct fuel; (split_and!; [done|constructor|set_solver|done]). }
  destruct fuel as [|fuel]; [destruct (Hdom t); [by left|lia]|].
  cbn [walk]. rewrite bool_decide_false by set_solver.
  destruct (walk_roots fuel (t :: ts) (t :: ts) ({[t]} ∪ ∅) s) as (L & V & -> & HNL & Hr & HO & HA); [done|done|done|done| |].
  { intros r Hr. destruct (Hdom r Hr). split; [done|lia]. }
  cbn [mbind outcome_bind].
  assert (∀ u, u ∈ L → ∃ r, r ∈ t :: ts ∧ rtc (edge w) r u) as Hreach.
  { intros u [Hu|[_ (r & Hr' & Hru)]]%HA; [by exists u; split; [|apply rtc_refl]|]. exists r. split; [done|]. by apply tc_rtc. }
  assert (∀ i u x, L !! i = Some u → edge w u x → ∃ j, j < i ∧ L !! j = Some x) as Hord.
  { intros i u x Hi Hux. destruct (HO i u x Hi Hux) as [Hx|]; [|done]. exfalso.
    assert (x = t) by set_solver. subst x. destruct (Hreach u) as (r & Hr' & Hru); [by eapply list_elem_of_lookup_2|].
    apply (Hex r t); [done|by left|]. eapply tc_rtc_l; [done|]. by apply tc_once. }
  exists L. split_and!; [done|done| |done]. intros u. split; [apply Hreach|].
  intros (r & Hr' & Hru). revert u Hru. apply rtc_ind_r; [by apply Hr|]. intros x y _ Hxy Hx.
  apply list_elem_of_lookup in Hx as [i Hi]. destruct (Hord i x y Hi Hxy) as (j & _ & Hj). by eapply list_elem_of_lookup_2.
Qed.
End iterTasks.
