(* ===== verification/SliceMonitor.v ===== *)
(** The status of slices (src/exec/slicestatus.go): the monitor that counts the tasks of
    each slice by state while they are evaluated, and the group that shows the counts.

    The monitor runs beside the evaluation: it is a step relation in which the state of any
    task can change between any two operations on tasks. *)
From S2P Require Import Prelude Task SliceStatus.

(** * Counts *)

Definition state_index (s : TaskState) : nat := Z.to_nat (TaskState_Z s).

(** [ss_counts] has one int32 for each state. *)
Record sliceStatus := mkStatus { ss_sliceName : string; ss_counts : list Z }.

Definition no_status : sliceStatus := mkStatus "" (replicate 6 0%Z).

Definition count (s : TaskState) (st : sliceStatus) : Z := default 0%Z (ss_counts st !! state_index s).
Definition add_count (s : TaskState) (d : Z) (st : sliceStatus) : sliceStatus :=
  mkStatus (ss_sliceName st) (alter (λ x, wrap32 (x + d)) (state_index s) (ss_counts st)).
Definition with_name (name : string) (st : sliceStatus) : sliceStatus := mkStatus name (ss_counts st).

Definition idleCount (st : sliceStatus) : Z := wrap32 (count TaskInit st + count TaskWaiting st).

Definition printTo (st : sliceStatus) : string :=
  let idle := decimal (idleCount st) in let running := decimal (count TaskRunning st) in let ok := decimal (count TaskOk st) in
  if ((0 <? count TaskLost st) || (0 <? count TaskErr st))%Z then
    "tasks idle/running/done(lost)/error: " +:+ idle +:+ "/" +:+ running +:+ "/" +:+ ok +:+ "(" +:+ decimal (count TaskLost st) +:+ ")/"
      +:+ decimal (count TaskErr st)
  else "tasks idle/running/done: " +:+ idle +:+ "/" +:+ running +:+ "/" +:+ ok.

(** * The monitor *)

Section monitor.
(** The names of the slices of a task, and the number of the monitor's subscriber. *)
Context (slices : nat → list string) (sub : nat).

(** The variables of monitorSliceStatus. *)
Record monitor := mkMonitor {
  mo_last : gmap nat TaskState;
  mo_status : gmap string sliceStatus;
}.

(** The loops over the slices of a task; [sent] are the statuses that are sent. *)
Fixpoint count_slices (upd : string → sliceStatus → sliceStatus) (names : list string) (m : gmap string sliceStatus) :
    gmap string sliceStatus * list sliceStatus :=
  match names with
  | [] => (m, [])
  | name :: names =>
      let status := upd name (default no_status (m !! name)) in
      let '(m, sent) := count_slices upd names (<[name := status]> m) in
      (m, status :: sent)
  end.

Definition first_state (s : TaskState) (name : string) (st : sliceStatus) : sliceStatus := add_count s 1 (with_name name st).
Definition next_state (last s : TaskState) (name : string) (st : sliceStatus) : sliceStatus := add_count s 1 (add_count last (-1) st).

(** The state of a task that was subscribed to is read for the first time. *)
Definition visit (t : nat) (s : TaskState) (mo : monitor) : monitor * list sliceStatus :=
  let '(m, sent) := count_slices (first_state s) (slices t) (mo_status mo) in
  (mkMonitor (<[t := s]> (mo_last mo)) m, sent).

(** The state of a task that changed is read. *)
Definition observe (t : nat) (s : TaskState) (mo : monitor) : monitor * list sliceStatus :=
  let last := default TaskInit (mo_last mo !! t) in
  let '(m, sent) := count_slices (next_state last s) (slices t) (mo_status mo) in
  (mkMonitor (<[t := s]> (mo_last mo)) m, sent).

(** * The group *)

(** The slices that have a task in the group, in the order in which they got one. *)
Fixpoint add_slices (names group : list string) : list string :=
  match names with
  | [] => group
  | name :: names => add_slices names (if bool_decide (name ∈ group) then group else group ++ [name])
  end.
Definition start_group (tasks : list nat) : list string := foldl (λ group t, add_slices (reverse (slices t)) group) [] tasks.

(** The loop over the channel: the text of the status task of a slice; there is a task only
    for the slices of the group. *)
Fixpoint show (group : list string) (sent : list sliceStatus) (shown : gmap string string) : outcome (gmap string string) :=
  match sent with
  | [] => Ret shown
  | st :: sent =>
      if bool_decide (ss_sliceName st ∈ group) then show group sent (<[ss_sliceName st := printTo st]> shown) else nil_deref
  end.

(** * Steps *)

(** The tasks that are still to be visited, the one that was subscribed to and whose state
    was not read yet, the changed tasks that are still to be handled. *)
Record config := mkConfig {
  cf_world : world;
  cf_todo : list nat;
  cf_half : option nat;
  cf_batch : list nat;
  cf_monitor : monitor;
  cf_shown : gmap string string;
}.

Inductive mon_op :=
| mSubscribe | mRead | mTasks | mHandle
(** The evaluation changes the state of a task. *)
| mSet (t : nat) (s : TaskState) | mError (t : nat) (e : error).

Definition with_world (w : world) (c : config) : config :=
  mkConfig w (cf_todo c) (cf_half c) (cf_batch c) (cf_monitor c) (cf_shown c).

(** [None] is an operation that cannot be next. *)
Definition mon_step (group : list string) (o : mon_op) (c : config) : outcome (option config) :=
  let w := cf_world c in
  match o with
  | mSubscribe =>
      match cf_half c, cf_todo c with
      | None, t :: todo => w ← Subscribe t sub w; Ret (Some (mkConfig w todo (Some t) (cf_batch c) (cf_monitor c) (cf_shown c)))
      | _, _ => Ret None
      end
  | mRead =>
      match cf_half c with
      | Some t =>
          s ← State t w;
          let '(mo, sent) := visit t s (cf_monitor c) in
          shown ← show group sent (cf_shown c);
          Ret (Some (mkConfig w (cf_todo c) None (cf_batch c) mo shown))
      | None => Ret None
      end
  | mTasks =>
      match cf_half c, cf_todo c, cf_batch c with
      | None, [], [] =>
          if Ready sub w then let '(w, batch) := Tasks sub w in Ret (Some (mkConfig w [] None batch (cf_monitor c) (cf_shown c))) else Ret None
      | _, _, _ => Ret None
      end
  | mHandle =>
      match cf_half c, cf_todo c, cf_batch c with
      | None, [], t :: batch =>
          s ← State t w;
          let '(mo, sent) := observe t s (cf_monitor c) in
          shown ← show group sent (cf_shown c);
          Ret (Some (mkConfig w [] None batch mo shown))
      | _, _, _ => Ret None
      end
  | mSet t s => w ← Set_ t s w; Ret (Some (with_world w c))
  | mError t e => w ← Error t e w; Ret (Some (with_world w c))
  end.
End monitor.

(** * What the counts are *)

Definition occurs (name : string) (names : list string) : Z := Z.of_nat (length (filter (.= name) names)).

Lemma occurs_cons name x names : occurs name (x :: names) = ((if decide (x = name) then 1 else 0) + occurs name names)%Z.
Proof. unfold occurs. rewrite filter_cons. destruct (decide (x = name)); simpl; lia. Qed.

Lemma state_index_lt s : state_index s < 6.
Proof. destruct s; unfold state_index, lt; simpl; repeat constructor. Qed.

Lemma status_count_add s s' d st :
  length (ss_counts st) = 6 → count s (add_count s' d st) = if decide (s = s') then wrap32 (count s st + d) else count s st.
Proof.
  intros Hl. unfold count, add_count. cbn [ss_counts]. destruct (decide (s = s')) as [->|Hne].
  - rewrite list_lookup_alter_eq. destruct (lookup_lt_is_Some_2 (ss_counts st) (state_index s')) as [x Hx]; [rewrite Hl; apply state_index_lt|]. by rewrite Hx.
  - rewrite list_lookup_alter_ne; [done|]. by destruct s, s'.
Qed.

Lemma add_count_length s d st : length (ss_counts (add_count s d st)) = length (ss_counts st).
Proof. apply length_alter. Qed.

(** The change of a count by [delta], for each slice of a task. *)
Section count_slices.
Context (upd : string → sliceStatus → sliceStatus) (delta : TaskState → Z) (names_set : bool).
Context (UPD : ∀ name st s x, length (ss_counts st) = 6 → count s st = wrap32 x →
  length (ss_counts (upd name st)) = 6 ∧ count s (upd name st) = wrap32 (x + delta s)).
Context (NAME : ∀ name st, names_set = true ∨ ss_sliceName st = name → ss_sliceName (upd name st) = name).

(** A map of statuses with the counts [x]. *)
Definition has_counts (m : gmap string sliceStatus) (x : string → TaskState → Z) : Prop :=
  ∀ name, length (ss_counts (default no_status (m !! name))) = 6 ∧ ∀ s, count s (default no_status (m !! name)) = wrap32 (x name s).

Lemma count_slices_spec group names m x shown :
  has_counts m x → (∀ name, name ∈ names → name ∈ group ∧ (names_set = true ∨ ss_sliceName (default no_status (m !! name)) = name)) →
  ∃ m' sent shown', count_slices upd names m = (m', sent) ∧ show group sent shown = Ret shown' ∧
    has_counts m' (λ name s, x name s + delta s * occurs name names)%Z ∧
    (∀ name, name ∉ names → m' !! name = m !! name ∧ shown' !! name = shown !! name) ∧
    ∀ name, name ∈ names → ∃ st, m' !! name = Some st ∧ ss_sliceName st = name ∧ shown' !! name = Some (printTo st).
Proof.
  revert m x shown. induction names as [|name names IH]; intros m x shown Hm Hn.
  { exists m, [], shown. split_and!; [done..| |done|set_solver]. intros name. destruct (Hm name) as [? Hc]. split; [done|]. intros s. rewrite Hc. f_equal. unfold occurs. simpl. lia. }
  destruct (Hn name) as [Hg Hname]; [by left|]. destruct (Hm name) as [Hl Hc]. set (status := upd name (default no_status (m !! name))).
  assert (ss_sliceName status = name) as Hst by (by apply NAME).
  destruct (IH (<[name := status]> m) (λ n s, x n s + if decide (name = n) then delta s else 0)%Z (<[name := printTo status]> shown)) as (m' & sent & shown' & HC & HS & Hm' & Hout & Hin).
  { intros n. destruct (decide (name = n)) as [<-|Hne].
    - rewrite lookup_insert_eq. cbn [from_option id]. split; [by eapply (UPD _ _ TaskInit)|]. intros s. by eapply UPD.
    - rewrite lookup_insert_ne by done. destruct (Hm n) as [? Hc']. split; [done|]. intros s. rewrite Hc'. f_equal. lia. }
  { intros n Hin. destruct (Hn n) as [? Hn']; [by right|]. split; [done|]. destruct (decide (name = n)) as [<-|Hne]; [rewrite lookup_insert_eq; by right|by rewrite lookup_insert_ne]. }
  exists m', (status :: sent), shown'. cbn [count_slices show]. fold status. rewrite HC, Hst, bool_decide_true by done. split_and!; [done..| | |].
  - intros n. destruct (Hm' n) as [? Hc']. split; [done|]. intros s. rewrite Hc', occurs_cons. f_equal. destruct (decide (name = n)); lia.
  - intros n Hnin. apply not_elem_of_cons in Hnin as [Hne Hnin]. destruct (Hout n Hnin) as [-> ->]. by rewrite !lookup_insert_ne.
  - intros n Hin'. destruct (decide (n ∈ names)) as [Hin2|Hnin]; [by apply Hin|]. apply elem_of_cons in Hin' as [->|]; [|done].
    destruct (Hout name Hnin) as [-> ->]. rewrite !lookup_insert_eq. by exists status.
Qed.
End count_slices.

Lemma first_state_upd s0 name st s x :
  length (ss_counts st) = 6 → count s st = wrap32 x →
  length (ss_counts (first_state s0 name st)) = 6 ∧ count s (first_state s0 name st) = wrap32 (x + if decide (s = s0) then 1 else 0).
Proof.
  intros Hl Hc. unfold first_state. rewrite add_count_length. split; [done|]. rewrite status_count_add by done. unfold with_name, count in *. cbn [ss_counts].
  destruct (decide (s = s0)); rewrite Hc; [by rewrite wrap32_add_l|f_equal; lia].
Qed.

Lemma next_state_upd s1 s2 name st s x :
  length (ss_counts st) = 6 → count s st = wrap32 x →
  length (ss_counts (next_state s1 s2 name st)) = 6 ∧
  count s (next_state s1 s2 name st) = wrap32 (x + ((if decide (s = s2) then 1 else 0) - (if decide (s = s1) then 1 else 0))).
Proof.
  intros Hl Hc. unfold next_state. rewrite !add_count_length. split; [done|]. rewrite !status_count_add by (rewrite ?add_count_length; done). rewrite Hc.
  destruct (decide (s = s2)), (decide (s = s1)); rewrite ?wrap32_add_l, <-?Z.add_assoc, ?wrap32_add_l; f_equal; lia.
Qed.

(** * Tallies *)

Section tally.
Context (slices : nat → list string).

(** The number of slices called [name] of the tasks [ts] with state [s]. *)
Definition tally (state : nat → option TaskState) (ts : list nat) (name : string) (s : TaskState) : Z :=
  foldr (λ t n, (if decide (state t = Some s) then occurs name (slices t) else 0) + n)%Z 0%Z ts.

Lemma tally_app state ts1 ts2 name s : tally state (ts1 ++ ts2) name s = (tally state ts1 name s + tally state ts2 name s)%Z.
Proof. induction ts1 as [|t ts1 IH]; simpl; [done|]. rewrite IH. lia. Qed.

Lemma tally_ext state state' ts name s : (∀ t, t ∈ ts → state t = state' t) → tally state ts name s = tally state' ts name s.
Proof. induction ts as [|t ts IH]; intros H; simpl; [done|]. rewrite (H t) by left. rewrite IH; [done|]. intros u Hu. apply H. by right. Qed.

Lemma tally_visit (last : gmap nat TaskState) ts t s0 name s :
  t ∉ ts → tally (<[t := s0]> last !!.) (ts ++ [t]) name s =
    (tally (last !!.) ts name s + (if decide (s = s0) then 1 else 0) * occurs name (slices t))%Z.
Proof.
  intros Ht. rewrite tally_app. simpl. rewrite lookup_insert_eq. rewrite (tally_ext _ (last !!.)).
  - repeat case_decide; try congruence; lia.
  - intros u Hu. apply lookup_insert_ne. by intros ->.
Qed.

Lemma tally_observe (last : gmap nat TaskState) ts t s1 s2 name s :
  NoDup ts → t ∈ ts → last !! t = Some s1 →
  tally (<[t := s2]> last !!.) ts name s =
    (tally (last !!.) ts name s + ((if decide (s = s2) then 1 else 0) - (if decide (s = s1) then 1 else 0)) * occurs name (slices t))%Z.
Proof.
  intros Hnd Hin Hl. apply list_elem_of_split in Hin as (l1 & l2 & ->). apply list.NoDup_app in Hnd as (_ & H1 & H2).
  apply list.NoDup_cons in H2 as [H2 _].
  rewrite !tally_app. simpl. rewrite lookup_insert_eq, Hl.
  rewrite (tally_ext (<[t := s2]> last !!.) (last !!.) l1), (tally_ext (<[t := s2]> last !!.) (last !!.) l2).
  - repeat case_decide; try congruence; lia.
  - intros u Hu. apply lookup_insert_ne. by intros ->.
  - intros u Hu. apply lookup_insert_ne. intros ->. apply (H1 u Hu). left.
Qed.
End tally.

(** * The monitor beside the evaluation *)

Definition state_of (w : world) (t : nat) : option TaskState := t_state <$> w_tasks w !! t.

Lemma Subscribe_spec t s w T :
  w_tasks w !! t = Some T →
  ∃ w' T', Subscribe t s w = Ret w' ∧ w_tasks w' = <[t := T']> (w_tasks w) ∧ w_subscribers w' = w_subscribers w ∧
    t_state T' = t_state T ∧ ∀ s', s' ∈ t_subs T' ↔ s' ∈ t_subs T ∨ s' = s.
Proof.
  intros HT. unfold Subscribe, with_task. rewrite HT. destruct (existsb (Nat.eqb s) (t_subs T)) eqn:He.
  - exists w, T. split_and!; [done|by rewrite insert_id|done..|]. intros s'. split; [auto|]. intros [| ->]; [done|].
    apply existsb_exists in He as (x & Hx%list_elem_of_In & ->%Nat.eqb_eq). done.
  - eexists _, (with_subs (t_subs T ++ [s]) T). split; [done|]. split_and!; [done..|]. intros s'. cbn [with_subs t_subs].
    by rewrite elem_of_app, list_elem_of_singleton.
Qed.

Section run.
Context (slices : nat → list string) (sub : nat) (L : list nat) (group : list string).
Context (Lnd : NoDup L) (Lgroup : ∀ t name, t ∈ L → name ∈ slices t → name ∈ group).
#[local] Abbreviation step := (mon_step slices sub group).

Definition pending (w : world) : gset nat := default ∅ (w_subscribers w !! sub).

(** The tasks that were visited are [vs]. *)
Record mon_inv (vs : list nat) (c : config) : Prop := mkInv {
  mn_list : L = vs ++ option_list (cf_half c) ++ cf_todo c;
  mn_tasks : ∀ t, t ∈ L → is_Some (w_tasks (cf_world c) !! t);
  mn_sub : ∀ t T, w_tasks (cf_world c) !! t = Some T → sub ∈ t_subs T ↔ t ∈ vs ++ option_list (cf_half c);
  mn_pending : ∀ t, t ∈ pending (cf_world c) ∨ t ∈ cf_batch c → t ∈ vs ++ option_list (cf_half c);
  mn_batch : cf_batch c ≠ [] → cf_todo c = [] ∧ cf_half c = None;
  mn_last : ∀ t, t ∈ vs ↔ is_Some (mo_last (cf_monitor c) !! t);
  mn_fresh : ∀ t s, mo_last (cf_monitor c) !! t = Some s → state_of (cf_world c) t = Some s ∨ t ∈ pending (cf_world c) ∨ t ∈ cf_batch c;
  mn_counts : has_counts (mo_status (cf_monitor c)) (tally slices (mo_last (cf_monitor c) !!.) vs);
  mn_names : ∀ t name, t ∈ vs → name ∈ slices t →
    ∃ st, mo_status (cf_monitor c) !! name = Some st ∧ ss_sliceName st = name ∧ cf_shown c !! name = Some (printTo st);
}.

Lemma has_counts_ext m x y : (∀ name s, x name s = y name s) → has_counts m x → has_counts m y.
Proof. intros He Hm name. destruct (Hm name) as [? Hc]. split; [done|]. intros s. by rewrite Hc, He. Qed.

Lemma step_subscribe vs c t todo :
  mon_inv vs c → cf_half c = None → cf_todo c = t :: todo → ∃ c', step mSubscribe c = Ret (Some c') ∧ mon_inv vs c' ∧ cf_todo c' = todo ∧
    cf_half c' = Some t ∧ cf_batch c' = cf_batch c ∧ pending (cf_world c') = pending (cf_world c).
Proof.
  intros [H1 H2 H3 H4 H5 H6 H7 H8 H9] Hh Ht. cbn [mon_step]. rewrite Hh, Ht in *. cbn [option_list option_rect from_option app] in *.
  destruct (H2 t) as [T HT]; [rewrite H1; set_solver|]. destruct (Subscribe_spec t sub _ T HT) as (w' & T' & -> & Hw & Hs & Hst & Hsub). cbn [mbind outcome_bind].
  eexists. split; [done|]. cbn. assert (pending w' = pending (cf_world c)) as Hp by (unfold pending; by rewrite Hs). split; [|done].
  split; cbn [cf_half cf_todo cf_world cf_batch cf_monitor cf_shown option_list option_rect from_option app]; rewrite ?Hp; try done.
  - intros u Hu. rewrite Hw. destruct (decide (u = t)) as [->|]; [rewrite lookup_insert_eq; by eexists|rewrite lookup_insert_ne by done; by apply H2].
  - intros u U HU. rewrite Hw in HU. destruct (decide (u = t)) as [->|Hne].
    + rewrite lookup_insert_eq in HU. injection HU as <-. rewrite Hsub. rewrite elem_of_app, list_elem_of_singleton. tauto.
    + rewrite lookup_insert_ne in HU by done. rewrite (H3 u U HU). rewrite app_nil_r. set_solver.
  - intros u Hu. apply H4 in Hu. set_solver.
  - intros Hb. by destruct (H5 Hb).
  - intros u s Hu. unfold state_of. rewrite Hw. destruct (decide (u = t)) as [->|Hne]; [|rewrite lookup_insert_ne by done; by apply H7].
    rewrite lookup_insert_eq. cbn [fmap option_fmap option_map]. rewrite Hst. specialize (H7 t s Hu). unfold state_of in H7. rewrite HT in H7. done.
Qed.

Lemma step_read vs c t :
  mon_inv vs c → cf_half c = Some t → ∃ c', step mRead c = Ret (Some c') ∧ mon_inv (vs ++ [t]) c' ∧ cf_todo c' = cf_todo c ∧
    cf_half c' = None ∧ cf_batch c' = cf_batch c ∧ cf_world c' = cf_world c.
Proof.
  intros [H1 H2 H3 H4 H5 H6 H7 H8 H9] Hh. cbn [mon_step]. rewrite Hh in *. cbn [option_list option_rect from_option app] in *.
  assert (t ∈ L) as HtL by (rewrite H1; set_solver). destruct (H2 t HtL) as [T HT]. unfold State, with_task. rewrite HT. cbn [mbind outcome_bind].
  assert (t ∉ vs) as Htn. { intros Ht. rewrite H1 in Lnd. apply list.NoDup_app in Lnd as (_ & Hd & _). apply (Hd t Ht). left. }
  unfold visit. destruct (count_slices_spec (first_state (t_state T)) (λ s, if decide (s = t_state T) then 1 else 0)%Z true (first_state_upd _) ltac:(by intros)
    group (slices t) (mo_status (cf_monitor c)) _ (cf_shown c) H8) as (m' & sent & shown' & -> & Hs & Hm & Hout & Hin).
  { intros name Hn. split; [by eapply Lgroup|by left]. }
  rewrite Hs. cbn [mbind outcome_bind]. eexists. split; [done|]. split; [|done].
  split; cbn [cf_half cf_todo cf_world cf_batch cf_monitor cf_shown option_list option_rect from_option app mo_last mo_status]; rewrite ?app_nil_r; try done.
  - by rewrite H1, <-(assoc_L (++)).
  - intros Hb. by destruct (H5 Hb).
  - intros u. rewrite elem_of_app, list_elem_of_singleton, H6. destruct (decide (u = t)) as [->|Hne].
    + rewrite lookup_insert_eq. split; [by eexists|by right].
    + rewrite lookup_insert_ne by done. split; [by intros [|]|by left].
  - intros u s. destruct (decide (u = t)) as [->|Hne]; [|rewrite lookup_insert_ne by done; apply H7].
    rewrite lookup_insert_eq. intros [= <-]. left. unfold state_of. by rewrite HT.
  - eapply has_counts_ext; [|exact Hm]. intros name s. cbn beta. by rewrite tally_visit.
  - intros u name [Hu| ->%list_elem_of_singleton]%elem_of_app Hn; [|by apply Hin].
    destruct (decide (name ∈ slices t)) as [|Hnin]; [by apply Hin|]. destruct (Hout name Hnin) as [-> ->]. by eapply H9.
Qed.

Lemma step_tasks vs c :
  mon_inv vs c → cf_half c = None → cf_todo c = [] → cf_batch c = [] → pending (cf_world c) ≠ ∅ →
  ∃ c', step mTasks c = Ret (Some c') ∧ mon_inv vs c' ∧ cf_todo c' = [] ∧ cf_half c' = None ∧
    cf_batch c' = elements (pending (cf_world c)) ∧ pending (cf_world c') = ∅.
Proof.
  intros [H1 H2 H3 H4 H5 H6 H7 H8 H9] Hh Ht Hb Hp. cbn [mon_step]. rewrite Hh, Ht, Hb in *. unfold Ready. rewrite bool_decide_true by done.
  cbn [Tasks]. eexists. split; [done|]. assert (∀ w, pending (mkWorld (w_tasks w) (<[sub := ∅]> (w_subscribers w)) (w_channels w) (w_closed w)) = ∅) as He.
  { intros w. unfold pending. cbn [w_subscribers]. by rewrite lookup_insert_eq. }
  split; [|cbn [cf_todo cf_half cf_batch cf_world]; by rewrite He]. split; cbn [cf_half cf_todo cf_world cf_batch cf_monitor cf_shown option_list option_rect from_option app w_tasks]; rewrite ?He; try done.
  - intros t [Ht'%elem_of_empty|Ht'%elem_of_elements]; [done|]. apply H4. by left.
  - intros t s Hs. destruct (H7 t s Hs) as [|[Hin|?%elem_of_nil]]; [by left| |done]. right. right. by apply elem_of_elements.
Qed.

Lemma step_handle vs c t batch :
  mon_inv vs c → cf_batch c = t :: batch → ∃ c', step mHandle c = Ret (Some c') ∧ mon_inv vs c' ∧ cf_todo c' = cf_todo c ∧
    cf_half c' = cf_half c ∧ cf_batch c' = batch ∧ cf_world c' = cf_world c.
Proof.
  intros [H1 H2 H3 H4 H5 H6 H7 H8 H9] Hb. cbn [mon_step]. destruct H5 as [Ht Hh]; [by rewrite Hb|]. rewrite Hh, Ht, Hb in *. cbn [option_list option_rect from_option app] in *. rewrite app_nil_r in *.
  assert (t ∈ vs) as Htv by (apply H4; right; left). destruct (H2 t) as [T HT]; [by rewrite H1|]. unfold State, with_task. rewrite HT. cbn [mbind outcome_bind].
  apply H6 in Htv as Hl. destruct Hl as [s1 Hl]. unfold observe. rewrite Hl. cbn [from_option id].
  destruct (count_slices_spec (next_state s1 (t_state T)) (λ s, (if decide (s = t_state T) then 1 else 0) - (if decide (s = s1) then 1 else 0))%Z false (next_state_upd _ _) ltac:(by intros ? ? [|])
    group (slices t) (mo_status (cf_monitor c)) _ (cf_shown c) H8) as (m' & sent & shown' & -> & Hs & Hm & Hout & Hin).
  { intros name Hn. split; [eapply Lgroup; [|done]; by rewrite H1|]. right. destruct (H9 t name Htv Hn) as (st & -> & Hst & _). done. }
  rewrite Hs. cbn [mbind outcome_bind]. eexists. split; [done|]. split; [|done].
  split; cbn [cf_half cf_todo cf_world cf_batch cf_monitor cf_shown option_list option_rect from_option app mo_last mo_status]; rewrite ?app_nil_r; try done.
  - intros u [Hu|Hu]; apply H4; [by left|]. right. by right.
  - intros u. rewrite H6. destruct (decide (u = t)) as [->|Hne].
    + rewrite lookup_insert_eq. split; [by eexists|]. intros _. by exists s1.
    + by rewrite lookup_insert_ne.
  - intros u s. destruct (decide (u = t)) as [->|Hne].
    + rewrite lookup_insert_eq. intros [= <-]. left. unfold state_of. by rewrite HT.
    + rewrite lookup_insert_ne by done. intros Hu. destruct (H7 u s Hu) as [|[|[->|]%elem_of_cons]]; auto. done.
  - eapply has_counts_ext; [|exact Hm]. intros name s. cbn beta. rewrite (tally_observe _ _ _ _ s1); [done| |done|done]. by rewrite <-H1.
  - intros u name Hu Hn. destruct (decide (name ∈ slices t)) as [|Hnin]; [by apply Hin|]. destruct (Hout name Hnin) as [-> ->]. by eapply H9.
Qed.

(** A change of a task's state. *)
Lemma inv_broadcast vs c t T s e :
  mon_inv vs c → w_tasks (cf_world c) !! t = Some T → mon_inv vs (with_world (Broadcast t (with_state s e T) (cf_world c)) c).
Proof.
  intros [H1 H2 H3 H4 H5 H6 H7 H8 H9] HT. destruct (Broadcast_spec t (with_state s e T) (cf_world c)) as (Hw & _ & _ & Hp).
  set (w' := Broadcast _ _ _) in *. assert (pending w' = (if decide (sub ∈ t_subs T) then {[t]} else ∅) ∪ pending (cf_world c)) as Hpend by apply Hp.
  split; cbn [with_world cf_half cf_todo cf_world cf_batch cf_monitor cf_shown]; rewrite ?Hpend; try done.
  - intros u Hu. rewrite Hw. destruct (decide (u = t)) as [->|]; [rewrite lookup_insert_eq; by eexists|rewrite lookup_insert_ne by done; by apply H2].
  - intros u U. rewrite Hw. destruct (decide (u = t)) as [->|]; [|rewrite lookup_insert_ne by done; by apply H3].
    rewrite lookup_insert_eq. intros [= <-]. exact (H3 t T HT).
  - intros u [[Hu|Hu]%elem_of_union|Hu]; [|apply H4; by left|apply H4; by right]. destruct (decide (sub ∈ t_subs T)) as [Hs|]; [|by apply elem_of_empty in Hu].
    apply elem_of_singleton in Hu as ->. by apply (H3 t T HT).
  - intros u s' Hu. destruct (decide (u = t)) as [->|Hne].
    + right. left. rewrite decide_True; [set_solver|]. apply (H3 t T HT), elem_of_app. left. apply H6. by eexists.
    + unfold state_of. rewrite Hw, lookup_insert_ne by done. destruct (H7 u s' Hu) as [|[|]]; [by left| |by right; right]. right. left. set_solver.
Qed.

(** The monitor's own operations, and those of the evaluation on tasks that exist. *)
Definition own (o : mon_op) : bool := match o with mSet _ _ | mError _ _ => false | _ => true end.
Definition on_task (w : world) (o : mon_op) : Prop :=
  match o with mSet t _ | mError t _ => is_Some (w_tasks w !! t) | _ => True end.

Inductive mon_reach (c0 : config) : config → Prop :=
| reach_init : mon_reach c0 c0
| reach_step c o c' : mon_reach c0 c → on_task (cf_world c) o → step o c = Ret (Some c') → mon_reach c0 c'.

(** Nothing is left to be visited, handled or reported. *)
Definition quiet (c : config) : Prop := cf_todo c = [] ∧ cf_half c = None ∧ cf_batch c = [] ∧ pending (cf_world c) = ∅.

Definition work (c : config) : nat :=
  3 * length (cf_todo c) + 2 * length (option_list (cf_half c)) + 2 * size (pending (cf_world c)) + length (cf_batch c).

(** Operations do not fail, keep the invariant, and those of the monitor make progress. *)
Lemma mon_step_ok vs c o :
  mon_inv vs c → on_task (cf_world c) o →
  ∃ r, step o c = Ret r ∧ ∀ c', r = Some c' → (∃ vs', mon_inv vs' c') ∧ (own o = true → work c' < work c).
Proof.
  intros Hi Ho. destruct o as [| | | |t s|t e].
  - destruct (cf_half c) as [h|] eqn:Hh; [exists None; cbn [mon_step]; rewrite Hh; split; [by destruct (cf_todo c)|done]|].
    destruct (cf_todo c) as [|t todo] eqn:Ht; [exists None; cbn [mon_step]; by rewrite Hh, Ht|].
    destruct (step_subscribe vs c t todo Hi Hh Ht) as (c' & Hs & Hi' & E1 & E2 & E3 & E4). exists (Some c'). split; [done|]. intros ? [= <-].
    split; [by exists vs|]. intros _. unfold work. rewrite E1, E2, E3, E4, Hh, Ht. simpl. lia.
  - destruct (cf_half c) as [t|] eqn:Hh; [|exists None; cbn [mon_step]; by rewrite Hh].
    destruct (step_read vs c t Hi Hh) as (c' & Hs & Hi' & E1 & E2 & E3 & E4). exists (Some c'). split; [done|]. intros ? [= <-].
    split; [by exists (vs ++ [t])|]. intros _. unfold work. rewrite E1, E2, E3, E4, Hh. simpl. lia.
  - destruct (cf_half c) eqn:Hh; [exists None; cbn [mon_step]; by rewrite Hh|]. destruct (cf_todo c) eqn:Ht; [|exists None; cbn [mon_step]; by rewrite Hh, Ht].
    destruct (cf_batch c) eqn:Hb; [|exists None; cbn [mon_step]; by rewrite Hh, Ht, Hb].
    destruct (decide (pending (cf_world c) = ∅)) as [Hp|Hp]; [exists None; cbn [mon_step]; rewrite Hh, Ht, Hb; unfold Ready; by rewrite bool_decide_false by (intros Hn; by apply Hn)|].
    destruct (step_tasks vs c Hi Hh Ht Hb Hp) as (c' & Hs & Hi' & E1 & E2 & E3 & E4). exists (Some c'). split; [done|]. intros ? [= <-].
    split; [by exists vs|]. intros _. unfold work. rewrite E1, E2, E3, E4, Hh, Ht, Hb, size_empty. change (length (elements (pending (cf_world c)))) with (size (pending (cf_world c))).
    simpl. assert (size (pending (cf_world c)) ≠ 0) by (intros Hz; apply size_empty_inv in Hz; by apply Hp, leibniz_equiv). lia.
  - destruct (cf_batch c) as [|t batch] eqn:Hb; [exists None; cbn [mon_step]; rewrite Hb; by destruct (cf_half c), (cf_todo c)|].
    destruct (step_handle vs c t batch Hi Hb) as (c' & Hs & Hi' & E1 & E2 & E3 & E4). exists (Some c'). split; [done|]. intros ? [= <-].
    split; [by exists vs|]. intros _. unfold work. rewrite E1, E2, E3, E4, Hb. simpl. lia.
  - destruct Ho as [T HT]. cbn [mon_step]. unfold Set_, with_task. rewrite HT. cbn [mbind outcome_bind]. eexists. split; [done|].
    intros ? [= <-]. split; [exists vs; by apply inv_broadcast|done].
  - destruct Ho as [T HT]. cbn [mon_step]. unfold Error, with_task. rewrite HT. cbn [mbind outcome_bind]. eexists. split; [done|].
    intros ? [= <-]. split; [exists vs; by apply inv_broadcast|done].
Qed.

Lemma mon_progress vs c : mon_inv vs c → quiet c ∨ ∃ o c', own o = true ∧ step o c = Ret (Some c').
Proof.
  intros Hi. destruct (cf_half c) as [t|] eqn:Hh.
  { destruct (step_read vs c t Hi Hh) as (c' & Hs & _). right. by exists mRead, c'. }
  destruct (cf_todo c) as [|t todo] eqn:Ht; [|destruct (step_subscribe vs c t todo Hi Hh Ht) as (c' & Hs & _); right; by exists mSubscribe, c'].
  destruct (cf_batch c) as [|t batch] eqn:Hb; [|destruct (step_handle vs c t batch Hi Hb) as (c' & Hs & _); right; by exists mHandle, c'].
  destruct (decide (pending (cf_world c) = ∅)) as [Hp|Hp]; [by left|]. destruct (step_tasks vs c Hi Hh Ht Hb Hp) as (c' & Hs & _). right. by exists mTasks, c'.
Qed.

Lemma quiet_counts vs c t name :
  mon_inv vs c → quiet c → t ∈ L → name ∈ slices t →
  ∃ st, cf_shown c !! name = Some (printTo st) ∧ ∀ s, count s st = wrap32 (tally slices (state_of (cf_world c)) L name s).
Proof.
  intros [H1 H2 H3 H4 H5 H6 H7 H8 H9] (Ht & Hh & Hb & Hp) Hin Hn. rewrite Ht, Hh, Hb, Hp in *. simpl in H1. rewrite app_nil_r in H1. subst vs.
  destruct (H9 t name Hin Hn) as (st & Hst & _ & Hs). exists st. split; [done|]. intros s. destruct (H8 name) as [_ Hc]. rewrite Hst in Hc. cbn [from_option id] in Hc.
  rewrite Hc. f_equal. apply tally_ext. intros u Hu. apply H6 in Hu as [su Hu]. destruct (H7 u su Hu) as [->|[?%elem_of_empty|?%elem_of_nil]]; done.
Qed.
End run.

(** * The group of slices *)

Lemma add_slices_spec names group :
  NoDup group → NoDup (add_slices names group) ∧ ∀ name, name ∈ add_slices names group ↔ name ∈ names ∨ name ∈ group.
Proof.
  revert group. induction names as [|x names IH]; intros group Hnd; [set_solver|]. cbn [add_slices]. case_bool_decide as Hx.
  - destruct (IH group Hnd) as [? Hin]. split; [done|]. intros name. rewrite Hin, elem_of_cons. naive_solver.
  - destruct (IH (group ++ [x])) as [? Hin].
    { apply list.NoDup_app. split_and!; [done| |apply NoDup_singleton]. intros y Hy ->%list_elem_of_singleton. done. }
    split; [done|]. intros name. rewrite Hin, elem_of_cons, elem_of_app, list_elem_of_singleton. naive_solver.
Qed.

Lemma start_group_spec slices ts :
  NoDup (start_group slices ts) ∧ ∀ name, name ∈ start_group slices ts ↔ ∃ t, t ∈ ts ∧ name ∈ slices t.
Proof.
  unfold start_group. induction ts as [|t ts [IH1 IH2]] using rev_ind; [split; [constructor|set_solver]|]. rewrite foldl_app. cbn [foldl].
  destruct (add_slices_spec (reverse (slices t)) _ IH1) as [? Hin]. split; [done|]. intros name. rewrite Hin, elem_of_reverse, IH2. setoid_rewrite elem_of_app.
  setoid_rewrite list_elem_of_singleton. naive_solver.
Qed.

(** The monitor of the graph of [tasks] before its first operation. *)
Definition mon_start (sub : nat) (w : world) (visits : list nat) : config :=
  mkConfig (NewTaskSubscriber sub w) visits None [] (mkMonitor ∅ ∅) ∅.

Lemma mon_start_inv slices sub visits w :
  (∀ t, t ∈ visits → is_Some (w_tasks w !! t)) → (∀ t T, w_tasks w !! t = Some T → sub ∉ t_subs T) →
  mon_inv slices sub visits [] (mon_start sub w visits).
Proof.
  intros Hdom Hsub. split; cbn; try done.
  - intros t T HT. split; [intros Hs; by destruct (Hsub t T HT)|by intros ?%elem_of_nil].
  - intros t [Hp|Hp]; [|done]. unfold pending in Hp. cbn in Hp. rewrite lookup_insert_eq in Hp. by apply elem_of_empty in Hp.
  - intros t. rewrite lookup_empty. split; [by intros ?%elem_of_nil|by intros [? ?]].
  - intros name. rewrite lookup_empty. split; [done|]. by intros [].
  - by intros t name ?%elem_of_nil.
Qed.

