(* ===== verification/TaskGraph.v ===== *)
(** Task graphs that are shown (src/exec/graph.go, the printers of src/exec/task.go): the
    nodes and links of the tasks of a session, and the listing of dependencies. *)
From S2P Require Import Prelude Task SliceStatus.

(** * The graph of a session *)

Record Node := mkNode { nd_Name : string; nd_Group : Z; nd_Radius : Z }.
Record Link := mkLink { ln_Source : nat; ln_Target : nat }.

Section graph.
(** The orders in which maps are ranged over. *)
Context (range_tasks : gset nat → list nat) (range_indexed : gmap nat nat → list (nat * nat)).

Fixpoint index_tasks (tasks : list nat) (indexed : gmap nat nat) : gmap nat nat :=
  match tasks with
  | [] => indexed
  | t :: tasks => index_tasks tasks (<[t := size indexed]> indexed)
  end.

(** The links of the dependencies of a task; a map lookup gives 0 for what is missing. *)
Fixpoint dep_links (w : world) (indexed : gmap nat nat) (index : nat) (deps : list TaskDep) : outcome (list Link) :=
  match deps with
  | [] => Ret []
  | d :: deps =>
      n ← NumTask w d;
      ts ← dep_tasks w d 0 n;
      rest ← dep_links w indexed index deps;
      Ret (((λ u, mkLink index (default 0 (indexed !! u))) <$> ts) ++ rest)
  end.

Definition task_node (w : world) (roots : gset nat) (t : nat) (T : Task) : Node :=
  mkNode (TaskName_String (t_Name T)) (TaskState_Z (t_state T)) (if bool_decide (t ∈ roots) then 10 else 5).

Fixpoint graph_loop (w : world) (roots : gset nat) (indexed : gmap nat nat) (l : list (nat * nat)) (nodes : list Node) : outcome (list Node * list Link) :=
  match l with
  | [] => Ret (nodes, [])
  | (t, index) :: l =>
      T ← with_task w t Ret;
      links ← dep_links w indexed index (t_Deps T);
      '(nodes, rest) ← graph_loop w roots indexed l (<[index := task_node w roots t T]> nodes);
      Ret (nodes, links ++ rest)
  end.

Definition handleTasksGraph (fuel : nat) (w : world) (roots : gset nat) : outcome (list Node * list Link) :=
  tasks ← all_tasks (all fuel w) (range_tasks roots) ∅;
  let indexed := index_tasks (range_tasks tasks) ∅ in
  graph_loop w roots indexed (range_indexed indexed) (replicate (size tasks) (mkNode "" 0 0)).

(** * What it shows *)

Context (RANGE_T : ∀ s, range_tasks s ≡ₚ elements s) (RANGE_I : ∀ m, range_indexed m ≡ₚ map_to_list m).

(** The number of a task in the order in which they were indexed. *)
Lemma index_tasks_spec tasks indexed :
  NoDup tasks → (∀ t, t ∈ tasks → indexed !! t = None) →
  (∀ t, t ∉ tasks → index_tasks tasks indexed !! t = indexed !! t) ∧
  ∀ i t, tasks !! i = Some t → index_tasks tasks indexed !! t = Some (size indexed + i).
Proof.
  revert indexed. induction tasks as [|t tasks IH]; intros indexed Hnd Hnew; [done|]. apply list.NoDup_cons in Hnd as [Ht Hnd]. cbn [index_tasks].
  destruct (IH (<[t := size indexed]> indexed) Hnd) as [H1 H2].
  { intros u Hu. rewrite lookup_insert_ne by (by intros ->). apply Hnew. by right. }
  rewrite map_size_insert_None in H2 by (apply Hnew; left). split.
  - intros u [Hne Hu]%not_elem_of_cons. rewrite H1 by done. by rewrite lookup_insert_ne.
  - intros [|i] u Hi; simpl in Hi; [injection Hi as <-; rewrite H1 by done; by rewrite lookup_insert_eq, Nat.add_0_r|]. rewrite (H2 i u Hi). f_equal. lia.
Qed.

(** The links that the tasks of a list have. *)
Definition links_of (w : world) (ix : nat → nat) (t : nat) : list Link :=
  match w_tasks w !! t with
  | Some T => concat ((λ d, (λ u, mkLink (ix t) (ix u)) <$> members w d) <$> t_Deps T)
  | None => []
  end.

Lemma dep_links_spec w indexed index deps :
  (∀ d, d ∈ deps → dep_Head d ∈ dom (w_tasks w)) →
  dep_links w indexed index deps = Ret (concat ((λ d, (λ u, mkLink index (default 0 (indexed !! u))) <$> members w d) <$> deps)).
Proof.
  induction deps as [|d deps IH]; intros Hd; [done|]. cbn [dep_links]. destruct (dep_tasks_members w d) as (n & -> & Hts); [apply Hd; left|].
  cbn [mbind outcome_bind]. rewrite Hts. cbn [mbind outcome_bind]. rewrite IH by (intros d' ?; apply Hd; by right). done.
Qed.

Lemma graph_loop_spec w roots indexed l nodes (ix := λ t, default 0 (indexed !! t)) :
  graph_ok w → NoDup l.*2 → (∀ t i, (t, i) ∈ l → t ∈ dom (w_tasks w) ∧ indexed !! t = Some i ∧ i < length nodes) →
  ∃ nodes', graph_loop w roots indexed l nodes = Ret (nodes', concat (links_of w ix <$> l.*1)) ∧ length nodes' = length nodes ∧
    (∀ t i T, (t, i) ∈ l → w_tasks w !! t = Some T → nodes' !! i = Some (task_node w roots t T)) ∧
    ∀ i, i ∉ l.*2 → nodes' !! i = nodes !! i.
Proof.
  intros Hg. revert nodes. induction l as [|[t i] l IH]; intros nodes Hnd Hl; [exists nodes; split_and!; [done..|set_solver|done]|].
  rewrite fmap_cons in Hnd. apply list.NoDup_cons in Hnd as [Hi Hnd]. cbn [fst snd] in *. destruct (Hl t i) as ([T HT]%elem_of_dom & Hix & Hlt); [left|].
  cbn [graph_loop]. unfold with_task. rewrite HT. cbn [mbind outcome_bind]. rewrite dep_links_spec by (intros d Hd; exact (proj1 (Hg t T d HT Hd))). cbn [mbind outcome_bind].
  destruct (IH (<[i := task_node w roots t T]> nodes) Hnd) as (nodes' & -> & Hlen & Hin & Hout).
  { intros u j Hu. rewrite length_insert. apply Hl. by right. }
  rewrite length_insert in Hlen. cbn [mbind outcome_bind]. exists nodes'. split_and!; [|done| |].
  - rewrite !fmap_cons. cbn [fst concat]. do 3 f_equal. unfold links_of, ix. rewrite HT, Hix. done.
  - intros u j U [[= -> ->]|Hu]%elem_of_cons HU; [|by apply Hin]. rewrite Hout by done. rewrite HT in HU. injection HU as <-. by apply list_lookup_insert_eq.
  - intros j. rewrite fmap_cons. intros [Hne Hj]%not_elem_of_cons. rewrite Hout by done. cbn [snd] in Hne. by rewrite list_lookup_insert_ne by done.
Qed.

Lemma reachable_tasks w roots :
  graph_ok w → (∀ r, r ∈ roots → r ∈ dom (w_tasks w)) →
  ∃ X, all_tasks (all (size (w_tasks w)) w) (range_tasks roots) ∅ = Ret X ∧ X ⊆ dom (w_tasks w) ∧ ∀ u, u ∈ X ↔ ∃ r, r ∈ roots ∧ rtc (edge w) r u.
Proof.
  intros Hg Hdom. assert (∀ r, r ∈ range_tasks roots ↔ r ∈ roots) as Hr by (intros r; by rewrite RANGE_T, elem_of_elements).
  destruct (all_tasks_spec w (all (size (w_tasks w)) w) (λ u, ∃ r, r ∈ roots ∧ rtc (edge w) r u) (range_tasks roots) ∅ (size (w_tasks w))) as (X & HX & (_ & Hd & HP & Hcl) & Hin).
  - intros vs t Hk Ht. destruct (all_spec w (size (w_tasks w)) vs t Hg) as (X & HX & (A1 & A2 & A3 & A4) & HtX); [by apply Hdom, Hr|done|].
    exists X. split_and!; [done| |done]. split_and!; [done..| |done]. intros u Hu Hv. exists t. split; [by apply Hr|by apply A3].
  - unfold unvisited. by rewrite difference_empty_L, size_dom.
  - exists X. split; [done|]. split; [set_solver|]. intros u. split; [intros Hu; apply HP; [done|apply not_elem_of_empty]|].
    intros (r & Hroot & Hru). revert u Hru. apply rtc_ind_r; [by apply Hin, Hr|]. intros x y _ Hxy Hx. eapply Hcl; [done|apply not_elem_of_empty|done].
Qed.

(** The graph of a session: one node for each task that the roots reach, with its name, its
    state and the radius of a root or of another task, and one link for each task of each
    dependency, between the numbers of the nodes. *)
Theorem handleTasksGraph_correct w roots :
  graph_ok w → (∀ r, r ∈ roots → r ∈ dom (w_tasks w)) →
  ∃ ts nodes links, handleTasksGraph (size (w_tasks w)) w roots = Ret (nodes, links) ∧ NoDup ts ∧ length nodes = length ts ∧
    (∀ u, u ∈ ts ↔ ∃ r, r ∈ roots ∧ rtc (edge w) r u) ∧
    (∀ i t T, ts !! i = Some t → w_tasks w !! t = Some T → nodes !! i = Some (task_node w roots t T)) ∧
    ∃ ix, (∀ i t, ts !! i = Some t → ix t = i) ∧ links ≡ₚ concat (links_of w ix <$> ts) ∧
      ∀ l, l ∈ links → ∃ t u, l = mkLink (ix t) (ix u) ∧ t ∈ ts ∧ u ∈ ts ∧ edge w t u.
Proof.
  intros Hg Hdom. destruct (reachable_tasks w roots Hg Hdom) as (X & HX & HXd & Hreach). set (ts := range_tasks X). set (indexed := index_tasks ts ∅).
  assert (NoDup ts) as Hnd by (unfold ts; rewrite RANGE_T; apply NoDup_elements).
  assert (∀ u, u ∈ ts ↔ u ∈ X) as Hts by (intros u; unfold ts; by rewrite RANGE_T, elem_of_elements).
  destruct (index_tasks_spec ts ∅ Hnd) as [Hno Hix]; [done|]. fold indexed in Hno, Hix. rewrite map_size_empty in Hix. cbn [Nat.add] in Hix.
  assert (∀ t i, (t, i) ∈ range_indexed indexed ↔ ts !! i = Some t) as Hri.
  { intros t i. rewrite RANGE_I, elem_of_map_to_list. split; [|by intros; apply Hix]. intros Hi. destruct (decide (t ∈ ts)) as [[j Hj]%list_elem_of_lookup|Hn].
    - pose proof (Hix j t Hj) as Hi'. rewrite Hi in Hi'. injection Hi' as ->. done.
    - rewrite (Hno t Hn) in Hi. done. }
  assert (NoDup (range_indexed indexed).*2) as Hnd2.
  { assert (NoDup (range_indexed indexed)) as Hnr by (rewrite RANGE_I; apply NoDup_map_to_list).
    apply (NoDup_fmap_2_strong snd); [|done]. intros [t i] [u j] H1 H2 Heq. apply Hri in H1, H2. cbn [snd] in *. congruence. }
  assert (length ts = size X) as Hlen by (unfold ts; by rewrite RANGE_T).
  destruct (graph_loop_spec w roots indexed (range_indexed indexed) (replicate (size X) (mkNode "" 0 0)) Hg Hnd2) as (nodes & Hloop & Hln & Hnodes & _).
  { intros t i Hi%Hri. split_and!; [by apply HXd, Hts; eapply list_elem_of_lookup_2|by apply Hix|]. rewrite length_replicate, <-Hlen. by eapply lookup_lt_Some. }
  rewrite length_replicate in Hln. set (ix := λ t, default 0 (indexed !! t)) in *.
  assert ((range_indexed indexed).*1 ≡ₚ ts) as Hperm.
  { apply NoDup_Permutation; [rewrite RANGE_I; apply NoDup_fst_map_to_list|done|]. intros t. rewrite list_elem_of_fmap. split.
    - intros ([u i] & -> & Hi%Hri). by eapply list_elem_of_lookup_2.
    - intros [i Hi]%list_elem_of_lookup. exists (t, i). split; [done|]. by apply Hri. }
  assert (concat (links_of w ix <$> (range_indexed indexed).*1) ≡ₚ concat (links_of w ix <$> ts)) as Hlinks by (by rewrite Hperm).
  exists ts, nodes, (concat (links_of w ix <$> (range_indexed indexed).*1)). split_and!.
  - unfold handleTasksGraph. rewrite HX. cbn [mbind outcome_bind]. exact Hloop.
  - done.
  - lia.
  - intros u. by rewrite Hts.
  - intros i t T Hi HT. apply Hnodes; [by apply Hri|done].
  - exists ix. split_and!; [intros i t Hi; unfold ix; by rewrite (Hix i t Hi)|done|]. intros l Hl. rewrite Hlinks in Hl.
    apply list_elem_of_In, in_concat in Hl as (ls & Hls%list_elem_of_In & Hl). apply list_elem_of_fmap in Hls as (t & -> & Ht).
    unfold links_of in Hl. destruct (w_tasks w !! t) as [T|] eqn:HT; [|done]. apply in_concat in Hl as (ls & Hls%list_elem_of_In & Hl%list_elem_of_In).
    apply list_elem_of_fmap in Hls as (d & -> & Hd). apply list_elem_of_fmap in Hl as (u & -> & Hu). exists t, u.
    assert (edge w t u) as He by (by exists T, d). split_and!; [done|done| |done]. apply Hts, Hreach. apply Hts, Hreach in Ht as (r & Hr & Hrt).
    exists r. split; [done|]. by eapply rtc_r.
Qed.
End graph.

(** * The listing of dependencies *)

(** A line: the names of a task and of one it depends on, and the partition. *)
Record depLine := mkDepLine { dl_Task : string; dl_Dep : string; dl_Partition : Z }.

(** The tasks of a dependency, each followed by its own listing. *)
Fixpoint write_tasks (rec : nat → outcome (list depLine)) (w : world) (name : string) (partition : Z) (ts : list nat) : outcome (list depLine) :=
  match ts with
  | [] => Ret []
  | u :: ts =>
      U ← with_task w u Ret;
      lines ← rec u;
      rest ← write_tasks rec w name partition ts;
      Ret (mkDepLine name (TaskName_String (t_Name U)) partition :: lines ++ rest)
  end.

Fixpoint write_deps (rec : nat → outcome (list depLine)) (w : world) (name : string) (deps : list TaskDep) : outcome (list depLine) :=
  match deps with
  | [] => Ret []
  | d :: deps =>
      n ← NumTask w d;
      ts ← dep_tasks w d 0 n;
      lines ← write_tasks rec w name (dep_Partition d) ts;
      rest ← write_deps rec w name deps;
      Ret (lines ++ rest)
  end.

Fixpoint writeDeps (fuel : nat) (w : world) (t : nat) : outcome (list depLine) :=
  match fuel with
  | 0 => NoFuel
  | S fuel => T ← with_task w t Ret; write_deps (writeDeps fuel w) w (TaskName_String (t_Name T)) (t_Deps T)
  end.

(** The line of a dependency of [t]. *)
Definition dep_line (w : world) (t : nat) (l : depLine) : Prop :=
  ∃ T d u, w_tasks w !! t = Some T ∧ d ∈ t_Deps T ∧ u ∈ members w d ∧ l = mkDepLine (name_of w t) (name_of w u) (dep_Partition d).

Lemma name_of_task w t T : w_tasks w !! t = Some T → TaskName_String (t_Name T) = name_of w t.
Proof. intros HT. unfold name_of. by rewrite HT. Qed.

Section listing.
Context (w : world) (rank : nat → nat) (graph : graph_ok w) (ranked : ∀ t u, edge w t u → rank u < rank t).

(** What is listed below [t]. *)
Definition listed (t : nat) (l : depLine) : Prop := ∃ u, rtc (edge w) t u ∧ dep_line w u l.

Lemma write_tasks_spec rec name p ts :
  (∀ u, u ∈ ts → u ∈ dom (w_tasks w) ∧ ∃ ls, rec u = Ret ls ∧ ∀ l, l ∈ ls ↔ listed u l) →
  ∃ ls, write_tasks rec w name p ts = Ret ls ∧ ∀ l, l ∈ ls ↔ ∃ u, u ∈ ts ∧ (l = mkDepLine name (name_of w u) p ∨ listed u l).
Proof.
  induction ts as [|u ts IH]; intros H; [exists []; split; [done|set_solver]|]. destruct (H u) as ([U HU]%elem_of_dom & ls & Hls & Hin); [left|].
  destruct IH as (ls' & Hls' & Hin'); [intros v Hv; apply H; by right|]. cbn [write_tasks]. unfold with_task. rewrite HU. cbn [mbind outcome_bind]. rewrite Hls. cbn [mbind outcome_bind].
  rewrite Hls'. cbn [mbind outcome_bind]. eexists. split; [done|]. intros l. rewrite (name_of_task _ _ _ HU), elem_of_cons, elem_of_app, Hin, Hin'. setoid_rewrite elem_of_cons. naive_solver.
Qed.

Lemma write_deps_spec rec name deps :
  (∀ d, d ∈ deps → dep_Head d ∈ dom (w_tasks w)) →
  (∀ d u, d ∈ deps → u ∈ members w d → u ∈ dom (w_tasks w) ∧ ∃ ls, rec u = Ret ls ∧ ∀ l, l ∈ ls ↔ listed u l) →
  ∃ ls, write_deps rec w name deps = Ret ls ∧
    ∀ l, l ∈ ls ↔ ∃ d u, d ∈ deps ∧ u ∈ members w d ∧ (l = mkDepLine name (name_of w u) (dep_Partition d) ∨ listed u l).
Proof.
  induction deps as [|d deps IH]; intros Hd H; [exists []; split; [done|set_solver]|]. destruct (dep_tasks_members w d) as (n & Hn & Hts); [apply Hd; left|].
  destruct (write_tasks_spec rec name (dep_Partition d) (members w d)) as (ls & Hls & Hin); [intros u Hu; apply (H d u); [left|done]|].
  destruct IH as (ls' & Hls' & Hin'); [intros d' ?; apply Hd; by right|intros d' u ?; apply H; by right|].
  cbn [write_deps]. rewrite Hn. cbn [mbind outcome_bind]. rewrite Hts. cbn [mbind outcome_bind]. rewrite Hls. cbn [mbind outcome_bind]. rewrite Hls'. cbn [mbind outcome_bind].
  eexists. split; [done|]. intros l. rewrite elem_of_app, Hin, Hin'. setoid_rewrite elem_of_cons. naive_solver.
Qed.

(** The listing of an acyclic graph ends, and has the dependencies of exactly the tasks that
    are reachable. *)
Theorem writeDeps_correct fuel t :
  t ∈ dom (w_tasks w) → rank t < fuel → ∃ ls, writeDeps fuel w t = Ret ls ∧ ∀ l, l ∈ ls ↔ listed t l.
Proof.
  revert t. induction fuel as [|fuel IH]; intros t [T HT]%elem_of_dom Hf; [lia|]. cbn [writeDeps]. unfold with_task. rewrite HT. cbn [mbind outcome_bind].
  destruct (write_deps_spec (writeDeps fuel w) (TaskName_String (t_Name T)) (t_Deps T)) as (ls & -> & Hin).
  - intros d Hd. exact (proj1 (graph t T d HT Hd)).
  - intros d u Hd Hu. assert (edge w t u) as He by (by exists T, d). pose proof (ranked t u He). assert (u ∈ dom (w_tasks w)) by exact (proj2 (graph t T d HT Hd) u Hu).
    split; [done|]. apply IH; [done|lia].
  - exists ls. split; [done|]. intros l. rewrite Hin, (name_of_task _ _ _ HT). split.
    + intros (d & u & Hd & Hu & [->|(v & Huv & Hl)]); [exists t; split; [apply rtc_refl|by exists T, d, u]|].
      exists v. split; [|done]. eapply rtc_l; [by exists T, d|done].
    + intros (v & Htv & Hl). inversion Htv as [|? x ? (T' & d & HT' & Hd & Hx) Hxv]; subst.
      * destruct Hl as (T' & d & u & HT' & Hd & Hu & ->). rewrite HT in HT'. injection HT' as <-. exists d, u. auto.
      * rewrite HT in HT'. injection HT' as <-. exists d, x. split_and!; [done..|]. right. by exists v.
Qed.
End listing.

(** * Waiting for a state *)

(** What ends a wait: the channel was closed, or the context is done; and the tasks then. *)
Inductive wakeup := woken (w : world) | canceled (w : world) (e : error).

(** [wakes] are the ends of the waits, in order. *)
Fixpoint WaitState (t : nat) (state : TaskState) (wakes : list wakeup) (w : world) : outcome (world * TaskState * option error) :=
  T ← with_task w t Ret;
  if (TaskState_Z (t_state T) <? TaskState_Z state)%Z then
    _ ← Wait t w;
    match wakes with
    | [] => NoFuel
    | woken w :: wakes => WaitState t state wakes w
    | canceled w e :: _ => T ← with_task w t Ret; Ret (w, t_state T, Some e)
    end
  else Ret (w, t_state T, None).

Definition reached (t : nat) (state : TaskState) (w : world) : bool :=
  match w_tasks w !! t with Some T => (TaskState_Z state <=? TaskState_Z (t_state T))%Z | None => false end.

Lemma WaitState_eq t state wakes w T :
  w_tasks w !! t = Some T →
  WaitState t state wakes w =
    if reached t state w then Ret (w, t_state T, None)
    else match wakes with
         | [] => NoFuel
         | woken w :: wakes => WaitState t state wakes w
         | canceled w e :: _ => T ← with_task w t Ret; Ret (w, t_state T, Some e)
         end.
Proof.
  intros HT. assert (∃ r, Wait t w = Ret r) as [r Hw] by (unfold Wait, with_task; rewrite HT; destruct (t_waitc T); by eexists).
  assert ((TaskState_Z (t_state T) <? TaskState_Z state)%Z = negb (reached t state w)) as Hr.
  { unfold reached. rewrite HT. destruct (Z.ltb_spec (TaskState_Z (t_state T)) (TaskState_Z state)), (Z.leb_spec (TaskState_Z state) (TaskState_Z (t_state T))); simpl; done || lia. }
  assert (with_task w t Ret = Ret T) as Hwt by (unfold with_task; by rewrite HT).
  destruct wakes; cbn [WaitState]; rewrite Hwt; cbn [mbind outcome_bind]; rewrite Hr, Hw; by destruct (reached t state w).
Qed.

(** WaitState returns the state of the first wake-up at which it is at least the one that is
    waited for, however often it is woken before. *)
Theorem WaitState_correct t state w ws w' T' :
  (∀ u, u ∈ w :: ws → is_Some (w_tasks u !! t) ∧ reached t state u = false) →
  w_tasks w' !! t = Some T' → reached t state w' = true →
  WaitState t state ((woken <$> ws) ++ [woken w']) w = Ret (w', t_state T', None).
Proof.
  intros Hws HT' Hr'. revert w Hws. induction ws as [|u ws IH]; intros w Hws; destruct (Hws w) as [[T HT] Hr]; try left; rewrite (WaitState_eq _ _ _ _ _ HT), Hr.
  - cbn [fmap list_fmap app]. by rewrite (WaitState_eq _ _ _ _ _ HT'), Hr'.
  - apply IH. intros v Hv. apply Hws. by right.
Qed.
