(* ===== verification/Func.v ===== *)
(** Funcs and invocations (src/func.go): the registry of functions that may be
    invoked in other processes, the check of their arguments, and the comparison
    of two registries.

    A Go interface value is [None] for nil, or a dynamic type and a value.  The
    registry and the invocation counter are the program's global variables; the
    detection of data races in registration is left out. *)
From S2P Require Import Prelude Types SliceIO Slices.

Abbreviation iface := (option (gotype * value)).

(** * FuncValue *)

(** [fv_fn] calls the function on values of its argument types; it may return a
    nil slice. *)
Record FuncValue := mkFuncValue {
  fv_fn : list (gotype * value) → outcome (option Slice);
  fv_args : list gotype;
  fv_index : Z;
  fv_exclusive : bool;
  fv_file : string;
  fv_line : Z;
}.

Definition Exclusive (f : FuncValue) : FuncValue :=
  mkFuncValue (fv_fn f) (fv_args f) (fv_index f) true (fv_file f) (fv_line f).

Definition NumIn (f : FuncValue) : nat := length (fv_args f).
Definition In_ (f : FuncValue) (i : Z) : outcome gotype := index (fv_args f) i.

(** The kinds of channels and unsafe pointers, which the code accepts too, are not
    among the kinds of [gotype]. *)
Definition isNilAssignable (typ : gotype) : bool :=
  match Kind typ with KFunc | KInterface | KMap | KPtr | KSlice => true | _ => false end.

Record Invocation := mkInvocation {
  inv_Index : Z;
  inv_Func : Z;
  inv_Args : list iface;
  inv_Exclusive : bool;
  inv_Location : string;
}.

(** The global variables. *)
Record globals := mkGlobals {
  g_funcs : list FuncValue;
  g_invocationIndex : Z;
}.

Section func.
(** The method sets of the program's types. *)
Context (has_method : gotype → string → bool).

(** [have.Implements(expect)], for an interface type. *)
Definition Implements (have expect : gotype) : bool :=
  match underlying expect with TInterface ms => forallb (has_method have) ms | _ => false end.

(** The loop over the arguments; nil types are [None]. *)
Fixpoint typecheck_loop (i : Z) (expects : list gotype) (haves : list (option gotype)) : outcome unit :=
  match expects, haves with
  | expect :: expects, have :: haves =>
      _ ← match have with
          | None => check (isNilAssignable expect) "wrong type for argument: cannot be nil"
          | Some have =>
              match Kind expect with
              | KInterface => check (Implements have expect) "wrong type for argument: does not implement interface"
              | _ => check (bool_decide (have = expect)) "wrong type for argument"
              end
          end;
      typecheck_loop (i + 1) expects haves
  | _, _ => Ret ()
  end.

Definition typecheck (f : FuncValue) (args : list (option gotype)) : outcome unit :=
  _ ← check (length args =? length (fv_args f))%nat "wrong number of arguments";
  typecheck_loop 0 (fv_args f) args.

Definition TypeOf (arg : iface) : option gotype := fst <$> arg.

(** ** Invocations *)

(** [atomic.AddUint64(&invocationIndex, 1)]. *)
Definition newInvocation (location : string) (fn : Z) (exclusive : bool) (args : list iface) (g : globals) :
    globals * Invocation :=
  let index := ((g_invocationIndex g + 1) mod 2 ^ 64)%Z in
  (mkGlobals (g_funcs g) index, mkInvocation index fn args exclusive location).

Definition new_invocation (f : FuncValue) (location : string) (args : list iface) (g : globals) :
    outcome (globals * Invocation) :=
  _ ← typecheck f (TypeOf <$> args);
  Ret (newInvocation location (fv_index f mod 2 ^ 64) (fv_exclusive f) args g).

(** The loop of applyValue: a nil argument becomes the zero value of its type. *)
Fixpoint applyValue_loop (expects : list gotype) (args : list iface) : outcome (list (gotype * value)) :=
  match args with
  | [] => Ret []
  | Some tv :: args => rest ← applyValue_loop (drop 1 expects) args; Ret (tv :: rest)
  | None :: args =>
      match expects with
      | [] => Panic "index out of range"
      | expect :: expects =>
          _ ← check (isNilAssignable expect) "cannot use nil as type in argument to function";
          rest ← applyValue_loop expects args;
          Ret ((expect, VNil) :: rest)
      end
  end.

Definition Apply (f : FuncValue) (args : list iface) : outcome Slice :=
  vals ← applyValue_loop (fv_args f) args;
  _ ← typecheck f (Some ∘ fst <$> vals);
  out ← fv_fn f vals;
  match out with
  | Some slice => Ret slice
  | None => Panic "interface conversion: interface is nil, not bigslice.Slice"
  end.

Definition Invoke (g : globals) (i : Invocation) : outcome Slice :=
  f ← index (g_funcs g) (inv_Func i); Apply f (inv_Args i).

(** [Invocation.String]: the loop prints the elements of the new slice [args],
    which are empty, and not the arguments. *)
Definition Invocation_String (inv : Invocation) : string :=
  let args := replicate (length (inv_Args inv)) "" in
  inv_Location inv +:+ "(" +:+ decimal (inv_Func inv) +:+ ", " +:+ decimal (inv_Index inv) +:+ ") " +:+
    String.concat " " args.

(** ** Registration *)

Definition typeOfSlice : gotype :=
  TNamed "bigslice.Slice" (TInterface ["Combiner"; "Dep"; "Name"; "NumDep"; "NumOut"; "NumShard"; "Out"; "Prefix";
    "Reader"; "ShardType"]).

(** [t] is the type of the argument; file and line are those of the caller. *)
Definition Func (t : gotype) (call : list (gotype * value) → outcome (option Slice)) (file : string) (line : Z)
    (g : globals) : outcome (globals * FuncValue) :=
  match underlying t with
  | TFunc ins outs _ =>
      _ ← check (bool_decide (outs = [typeOfSlice])) "bigslice.Func: func must return a single bigslice.Slice";
      let v := mkFuncValue call ins (Z.of_nat (length (g_funcs g))) false file line in
      Ret (mkGlobals (g_funcs g ++ [v]) (g_invocationIndex g), v)
  | _ => Panic "bigslice.Func: argument to func is not a func"
  end.
End func.

Definition FuncLocations (g : globals) : list string :=
  (λ f, fv_file f +:+ ":" +:+ decimal (fv_line f)) <$> g_funcs g.

(** * Invocations invoke what was registered *)

Section invocations.
Context (has_method : gotype → string → bool).

(** [expect] accepts an argument of type [have], nil being [None]. *)
Definition accepts (expect : gotype) (have : option gotype) : Prop :=
  match have with
  | None => isNilAssignable expect = true
  | Some have => if decide (Kind expect = KInterface) then Implements has_method have expect = true else have = expect
  end.

Lemma check_spec (b : bool) msg : check b msg = Ret () ↔ b = true.
Proof. by destruct b. Qed.

Lemma typecheck_loop_spec i expects haves :
  length haves = length expects →
  typecheck_loop has_method i expects haves = Ret () ↔ Forall2 accepts expects haves.
Proof.
  revert i haves. induction expects as [|expect expects IH]; intros i [|have haves]; try done.
  intros [= Hlen]. cbn [typecheck_loop]. rewrite outcome_bind_Ret, Forall2_cons_iff, <-(IH (i + 1)%Z) by done.
  assert (accepts expect have ↔ match have with
    | None => check (isNilAssignable expect) "wrong type for argument: cannot be nil"
    | Some have =>
        match Kind expect with
        | KInterface => check (Implements has_method have expect) "wrong type for argument: does not implement interface"
        | _ => check (bool_decide (have = expect)) "wrong type for argument"
        end
    end = Ret ()) as ->.
  { unfold accepts. destruct have as [have|]; [|by rewrite check_spec].
    destruct (Kind expect); simpl; by rewrite check_spec, ?bool_decide_eq_true. }
  split; [intros ([] & ? & ?); by split|intros [??]; by exists ()].
Qed.

Lemma typecheck_spec f haves :
  typecheck has_method f haves = Ret () ↔ Forall2 accepts (fv_args f) haves.
Proof.
  unfold typecheck. rewrite outcome_bind_Ret. split.
  - intros ([] & ?%check_spec%Nat.eqb_eq & ?). by eapply typecheck_loop_spec.
  - intros Hf. pose proof (Forall2_length Hf) as Hlen. exists (). split; [by apply check_spec, Nat.eqb_eq|].
    by apply typecheck_loop_spec.
Qed.

(** The check does not run out of fuel, as it uses none. *)
Lemma typecheck_returns f haves : typecheck has_method f haves ≠ NoFuel.
Proof.
  unfold typecheck. destruct (_ =? _); [|done]. simpl. generalize 0%Z. generalize (fv_args f) as expects.
  induction haves as [|have haves IH]; intros [|expect expects] i; try done. cbn [typecheck_loop].
  destruct have as [have|]; [destruct (Kind expect)|]; unfold check; case_match; try done; apply IH.
Qed.

(** The values that the function is called with. *)
Definition call_args (expects : list gotype) (args : list iface) : list (gotype * value) :=
  zip_with (λ expect arg, default (expect, VNil) arg) expects args.

Lemma applyValue_loop_spec expects args :
  Forall2 accepts expects (TypeOf <$> args) → applyValue_loop expects args = Ret (call_args expects args).
Proof.
  revert args. induction expects as [|expect expects IH]; intros [|arg args]; simpl; try by inversion 1.
  rewrite Forall2_cons_iff. intros [Ha Hf]. destruct arg as [tv|]; cbn [applyValue_loop drop].
  - by rewrite IH.
  - simpl in Ha. by rewrite Ha, IH.
Qed.

Lemma Kind_interface t : Kind t = KInterface → ∃ ms, underlying t = TInterface ms.
Proof. induction t using gotype_ind'; simpl; try done; by eauto. Qed.

(** An interface type has the methods it lists. *)
Context (interface_methods : ∀ t ms, underlying t = TInterface ms → forallb (has_method t) ms = true).

Lemma call_args_accepted expects args :
  Forall2 accepts expects (TypeOf <$> args) → Forall2 accepts expects (Some ∘ fst <$> call_args expects args).
Proof.
  revert args. induction expects as [|expect expects IH]; intros [|arg args]; simpl; try by inversion 1.
  rewrite !Forall2_cons_iff. intros [Ha Hf]. split; [|by apply IH].
  destruct arg as [tv|]; [done|]. cbn. case_decide as Hk; [|done].
  apply Kind_interface in Hk as [ms Hms]. unfold Implements. rewrite Hms. by apply interface_methods.
Qed.

(** [f] is a registered func, or [Exclusive] of one. *)
Definition registered (g : globals) (f : FuncValue) : Prop :=
  ∃ f0 k, g_funcs g !! k = Some f0 ∧ fv_index f = Z.of_nat k ∧ fv_fn f0 = fv_fn f ∧ fv_args f0 = fv_args f.

Lemma Exclusive_registered g f : registered g f → registered g (Exclusive f).
Proof. done. Qed.

Lemma Func_registered t call file line g g' f :
  Func t call file line g = Ret (g', f) →
  registered g' f ∧ fv_fn f = call ∧ fv_exclusive f = false ∧ ∀ f', registered g f' → registered g' f'.
Proof.
  unfold Func. destruct (underlying t) as [| | | | | | | | | | |ins outs v]; try done.
  rewrite outcome_bind_Ret. intros ([] & _ & [= <- <-]). split_and!; [|done|done|].
  - eexists _, (length (g_funcs g)). cbn [g_funcs fv_index fv_fn fv_args].
    by rewrite lookup_app_r, Nat.sub_diag by lia.
  - intros f' (f0 & k & Hk & ?). exists f0, k. split; [|done]. simpl. by apply lookup_app_l_Some.
Qed.

(** The result of calling the function, which must not be a nil slice. *)
Definition call_result (f : FuncValue) (vals : list (gotype * value)) : outcome Slice :=
  out ← fv_fn f vals; is_some out "interface conversion: interface is nil, not bigslice.Slice".

Lemma Apply_spec f args :
  Forall2 accepts (fv_args f) (TypeOf <$> args) →
  Apply has_method f args = call_result f (call_args (fv_args f) args).
Proof.
  intros Hf. unfold Apply. rewrite applyValue_loop_spec by done. cbn [mbind outcome_bind].
  rewrite (proj2 (typecheck_spec _ _)) by (by apply call_args_accepted). done.
Qed.
End invocations.

(** C30. An invocation carries a call to another process: Invocation succeeds exactly
    when every argument is accepted by its parameter; Invoke, in any process with
    the same funcs, then passes the checks of Apply and calls the function that was
    registered, with nil arguments replaced by zero values of the parameter types. *)
Theorem Invocation_Invoke has_method f location args g :
  (∀ t ms, underlying t = TInterface ms → forallb (has_method t) ms = true) →
  registered g f → (Z.of_nat (length (g_funcs g)) < 2 ^ 64)%Z →
  (Forall2 (accepts has_method) (fv_args f) (TypeOf <$> args) →
    ∃ inv, new_invocation has_method f location args g =
        Ret (mkGlobals (g_funcs g) ((g_invocationIndex g + 1) mod 2 ^ 64), inv) ∧
      inv_Index inv = ((g_invocationIndex g + 1) mod 2 ^ 64)%Z ∧ inv_Exclusive inv = fv_exclusive f ∧
      ∀ worker, g_funcs worker = g_funcs g →
        Invoke has_method worker inv = call_result f (call_args (fv_args f) args)) ∧
  (¬ Forall2 (accepts has_method) (fv_args f) (TypeOf <$> args) →
    ∃ msg, new_invocation has_method f location args g = Panic msg).
Proof.
  intros Hmeth (f0 & k & Hk & Hidx & Hfn & Hargs) Hlen. unfold new_invocation. split.
  - intros Hf. rewrite (proj2 (typecheck_spec _ _ _) Hf). eexists. split_and!; [done..|].
    intros worker Hw. unfold Invoke. cbn [inv_Func inv_Args newInvocation snd].
    apply lookup_lt_Some in Hk as Hlt. rewrite Hidx, Z.mod_small, Hw, index_lookup, Hk by lia.
    cbn [mbind outcome_bind]. rewrite Apply_spec by (by rewrite ?Hargs). unfold call_result. by rewrite Hfn, Hargs.
  - intros Hn. pose proof (typecheck_spec has_method f (TypeOf <$> args)) as Hs.
    pose proof (typecheck_returns has_method f (TypeOf <$> args)) as Hr.
    destruct (typecheck has_method f (TypeOf <$> args)) as [[]|msg|]; [tauto|by exists msg|done].
Qed.
