(* ===== verification/FuncDiff.v ===== *)
(** The difference of two func registries (src/func.go, FuncLocationsDiff).

    The driver compares the locations of its funcs with those of a worker and
    refuses the worker when the difference is not nil.  The code fills a table of
    edit costs, walks it back from the last cell and reverses the edits in place;
    here it is shown that it returns on every input, nil exactly for equal
    registries, and otherwise a shortest edit script. *)
From S2P Require Import Prelude Types Func.

(** * The code *)

Inductive edit := editNone | editAdd | editDel.
Record cell := mkCell { cell_edit : edit; cell_cost : Z }.
Definition zeroCell : cell := mkCell editNone 0.
Abbreviation table := (list (list cell)).

Definition get_cell (cells : table) (i j : Z) : outcome cell :=
  row ← index cells i; index row j.

(** [cells[i][j] = c]. *)
Definition set_cell (i j : Z) (c : cell) (cells : table) : outcome table :=
  row ← index cells i;
  _ ← index row j;
  Ret (<[Z.to_nat i := <[Z.to_nat j := c]> row]> cells).

(** [for k := i; k < i + n; k++]. *)
Fixpoint for_range {S} (i n : nat) (body : Z → S → outcome S) (s : S) : outcome S :=
  match n with
  | O => Ret s
  | Datatypes.S n => s ← body (Z.of_nat i) s; for_range (Datatypes.S i) n body s
  end.

Definition fill_cell (lhs rhs : list string) (i j : Z) (cells : table) : outcome table :=
  l ← index lhs (i - 1);
  r ← index rhs (j - 1);
  if bool_decide (l = r) then
    diag ← get_cell cells (i - 1) (j - 1);
    c ← get_cell cells i j;
    set_cell i j (mkCell (cell_edit c) (cell_cost diag)) cells
  else
    up ← get_cell cells (i - 1) j;
    prev ← get_cell cells i (j - 1);
    if (cell_cost up <? cell_cost prev)%Z
    then set_cell i j (mkCell editDel (cell_cost up + 1)) cells
    else set_cell i j (mkCell editAdd (cell_cost prev + 1)) cells.

Definition fill (lhs rhs : list string) : outcome table :=
  let m := length lhs in
  let n := length rhs in
  cells ← for_range 1 m (λ i, set_cell i 0 (mkCell editDel i)) (replicate (m + 1) (replicate (n + 1) zeroCell));
  cells ← for_range 1 n (λ j, set_cell 0 j (mkCell editAdd j)) cells;
  for_range 1 m (λ i, for_range 1 n (λ j, fill_cell lhs rhs i j)) cells.

(** The walk back; the loop is bounded by [fuel]. *)
Fixpoint backtrace (fuel : nat) (lhs rhs : list string) (cells : table) (i j : Z) (d : list string) (differ : bool) :
    outcome (list string * bool) :=
  match fuel with
  | O => NoFuel
  | S fuel =>
      if ((0 <? i) || (0 <? j))%Z then
        c ← get_cell cells i j;
        match cell_edit c with
        | editNone => l ← index lhs (i - 1); backtrace fuel lhs rhs cells (i - 1) (j - 1) (d ++ [l]) differ
        | editAdd => r ← index rhs (j - 1); backtrace fuel lhs rhs cells i (j - 1) (d ++ ["+ " +:+ r]) true
        | editDel => l ← index lhs (i - 1); backtrace fuel lhs rhs cells (i - 1) j (d ++ ["- " +:+ l]) true
        end
      else Ret (d, differ)
  end.

(** [for i := n - 1; i >= 0; i--], swapping position [i] with its opposite. *)
Fixpoint reverse_loop (n : nat) (d : list string) : list string :=
  match n with
  | O => d
  | S i => reverse_loop i (list_swap i (length d - 1 - i) d)
  end.

(** A nil result is the empty list. *)
Definition FuncLocationsDiff (lhs rhs : list string) : outcome (list string) :=
  cells ← fill lhs rhs;
  '(d, differ) ← backtrace (length lhs + length rhs + 1) lhs rhs cells (Z.of_nat (length lhs)) (Z.of_nat (length rhs))
    [] false;
  if differ : bool then Ret (reverse_loop (length d / 2) d) else Ret [].

(** * Loops *)

Section for_range.
Context {S : Type} (body : Z → S → outcome S) (I : nat → S → Prop).

Lemma for_range_inv i n s :
  I i s →
  (∀ k s, i ≤ k < i + n → I k s → ∃ s', body (Z.of_nat k) s = Ret s' ∧ I (Datatypes.S k) s') →
  ∃ s', for_range i n body s = Ret s' ∧ I (i + n) s'.
Proof.
  revert i s. induction n as [|n IH]; intros i s Hs Hstep; simpl.
  - exists s. by rewrite Nat.add_0_r.
  - destruct (Hstep i s) as (s' & -> & Hs'); [lia|done|]. simpl.
    rewrite Nat.add_succ_r, <-Nat.add_succ_l. apply IH; [done|]. intros. apply Hstep; [lia|done].
Qed.
End for_range.

Lemma reverse_loop_lookup n d k :
  2 * n ≤ length d → k < length d →
  reverse_loop n d !! k = if decide (k < n ∨ length d - n ≤ k) then d !! (length d - 1 - k) else d !! k.
Proof.
  revert d. induction n as [|n IH]; intros d Hn Hk; simpl.
  - rewrite decide_False by lia. done.
  - rewrite IH by (rewrite length_list_swap; lia). rewrite length_list_swap.
    rewrite !list_swap_lookup by lia.
    repeat (case_decide; try lia); f_equal; lia.
Qed.

Lemma length_reverse_loop n d : length (reverse_loop n d) = length d.
Proof. revert d. induction n as [|n IH]; intros d; simpl; [done|]. by rewrite IH, length_list_swap. Qed.

Lemma reverse_loop_reverse d : reverse_loop (length d / 2) d = reverse d.
Proof.
  pose proof (Nat.div_mod_eq (length d) 2) as Hdiv. pose proof (Nat.mod_upper_bound (length d) 2) as Hmod.
  apply list_eq_same_length with (n := length d); [by rewrite length_reverse|by rewrite length_reverse_loop|].
  intros k x y Hk. rewrite reverse_loop_lookup, reverse_lookup by lia. intros Hx Hy.
  replace (length d - S k) with (length d - 1 - k) in Hy by lia.
  case_decide; [congruence|]. replace (length d - 1 - k) with k in Hy by lia. congruence.
Qed.

(** * Edit scripts *)

Definition script := list (edit * string).

(** What a script reads, what it writes, how it is printed, and its number of
    additions and deletions. *)
Definition before (s : script) : list string :=
  s ≫= λ e, match e.1 with editAdd => [] | _ => [e.2] end.
Definition after (s : script) : list string :=
  s ≫= λ e, match e.1 with editDel => [] | _ => [e.2] end.
Definition render (e : edit * string) : string :=
  match e.1 with editNone => e.2 | editAdd => "+ " +:+ e.2 | editDel => "- " +:+ e.2 end.
Definition edit_cost (e : edit) : Z := match e with editNone => 0 | _ => 1 end.
Definition cost (s : script) : Z := foldr (λ e, Z.add (edit_cost e.1)) 0%Z s.

Lemma before_app s1 s2 : before (s1 ++ s2) = before s1 ++ before s2.
Proof. apply bind_app. Qed.
Lemma after_app s1 s2 : after (s1 ++ s2) = after s1 ++ after s2.
Proof. apply bind_app. Qed.
Lemma cost_app s1 s2 : cost (s1 ++ s2) = (cost s1 + cost s2)%Z.
Proof. induction s1 as [|e s1 IH]; simpl; [done|]. rewrite IH. lia. Qed.

Lemma cost_nonneg s : (0 <= cost s)%Z.
Proof. induction s as [|[[] x] s IH]; simpl; lia. Qed.

(** A script without edits writes what it reads. *)
Lemma cost_zero s : cost s = 0%Z → before s = after s.
Proof.
  induction s as [|[[] x] s IH]; simpl; intros Hs; [done|..]; pose proof (cost_nonneg s); [|lia..].
  change (x :: before s = x :: after s). by rewrite IH by lia.
Qed.

Lemma keep_all l : ∃ s, before s = l ∧ after s = l ∧ cost s = 0%Z.
Proof.
  induction l as [|x l (s & H1 & H2 & H3)]; [by exists []|].
  exists ((editNone, x) :: s). change (x :: before s = x :: l ∧ x :: after s = x :: l ∧ cost s = 0%Z).
  by rewrite H1, H2, H3.
Qed.

(** A shortest script has edits exactly when it changes something. *)
Lemma changed_cost s l r :
  before s = l → after s = r → (∀ s', before s' = l → after s' = r → (cost s <= cost s')%Z) →
  (0 < cost s)%Z ↔ l ≠ r.
Proof.
  intros Hb Ha Hmin. split.
  - intros Hc ->. destruct (keep_all r) as (s' & Hb' & Ha' & Hc'). specialize (Hmin s' Hb' Ha'). lia.
  - intros Hne. destruct (decide (cost s = 0)%Z) as [Hc%cost_zero|]; [congruence|].
    pose proof (cost_nonneg s). lia.
Qed.

(** * The table *)

Section table.
Context (lhs rhs : list string).
Local Abbreviation m := (length lhs).
Local Abbreviation n := (length rhs).

(** The cell of the first [i] locations of lhs and the first [j] of rhs, by
    recursion instead of a table. *)
Fixpoint best (i : nat) : nat → cell :=
  match i with
  | O => λ j, match j with O => zeroCell | S _ => mkCell editAdd (Z.of_nat j) end
  | S i' =>
      fix row (j : nat) : cell :=
        match j with
        | O => mkCell editDel (Z.of_nat i)
        | S j' =>
            if bool_decide (lhs !! i' = rhs !! j') then mkCell editNone (cell_cost (best i' j'))
            else if (cell_cost (best i' j) <? cell_cost (row j'))%Z
            then mkCell editDel (cell_cost (best i' j) + 1)
            else mkCell editAdd (cell_cost (row j') + 1)
        end
  end.

Local Abbreviation c i j := (cell_cost (best i j)).

Lemma best_SS i j :
  best (S i) (S j) =
    if bool_decide (lhs !! i = rhs !! j) then mkCell editNone (c i j)
    else if (c i (S j) <? c (S i) j)%Z then mkCell editDel (c i (S j) + 1) else mkCell editAdd (c (S i) j + 1).
Proof. done. Qed.

Lemma best_S_0 i : best (S i) 0 = mkCell editDel (Z.of_nat (S i)).
Proof. done. Qed.

Lemma best_0_S j : best 0 (S j) = mkCell editAdd (Z.of_nat (S j)).
Proof. done. Qed.

Lemma cost_SS i j :
  c (S i) (S j) = if bool_decide (lhs !! i = rhs !! j) then c i j else (Z.min (c i (S j)) (c (S i) j) + 1)%Z.
Proof.
  rewrite best_SS. case_bool_decide; [done|].
  destruct (Z.ltb_spec (c i (S j)) (c (S i) j)); cbn [cell_cost]; lia.
Qed.

(** Neighbouring cells differ by at most one. *)
Lemma cost_row i : (∀ j, c i j <= c i (S j) + 1)%Z ∧ (∀ j, c (S i) j <= c i j + 1)%Z.
Proof.
  assert (Hdown : ∀ i, (∀ j, c i j <= c i (S j) + 1)%Z → ∀ j, (c (S i) j <= c i j + 1)%Z).
  { intros i' HA [|j].
    - rewrite best_S_0. destruct i'; cbn [cell_cost]; [simpl; lia|]. rewrite best_S_0. cbn [cell_cost]. lia.
    - rewrite cost_SS. specialize (HA j). case_bool_decide; lia. }
  assert (HA : ∀ j, (c i j <= c i (S j) + 1)%Z); [|by auto].
  induction i as [|i IH]; intros j.
  - rewrite best_0_S. destruct j; [simpl; lia|]. rewrite best_0_S. cbn [cell_cost]. lia.
  - rewrite cost_SS. pose proof (Hdown i IH j). specialize (IH j). case_bool_decide; lia.
Qed.

Lemma cost_col j : (∀ i, c i j <= c (S i) j + 1)%Z ∧ (∀ i, c i (S j) <= c i j + 1)%Z.
Proof.
  assert (Hright : ∀ j, (∀ i, c i j <= c (S i) j + 1)%Z → ∀ i, (c i (S j) <= c i j + 1)%Z).
  { intros j' HB [|i].
    - rewrite best_0_S. destruct j'; cbn [cell_cost]; [simpl; lia|]. rewrite best_0_S. cbn [cell_cost]. lia.
    - rewrite cost_SS. specialize (HB i). case_bool_decide; lia. }
  assert (HB : ∀ i, (c i j <= c (S i) j + 1)%Z); [|by auto].
  induction j as [|j IH]; intros i.
  - rewrite best_S_0. destruct i; [simpl; lia|]. rewrite best_S_0. cbn [cell_cost]. lia.
  - rewrite cost_SS. pose proof (Hright j IH i). specialize (IH i). case_bool_decide; lia.
Qed.

(** No script is shorter than the cost of its cell. *)
Lemma best_minimal s i j :
  i ≤ m → j ≤ n → before s = take i lhs → after s = take j rhs → (c i j <= cost s)%Z.
Proof.
  revert i j. induction s as [|[e x] s IH] using rev_ind; intros i j Hi Hj Hb Ha.
  - assert (i = 0) as ->. { apply (f_equal length) in Hb. rewrite length_take in Hb. simpl in Hb. lia. }
    assert (j = 0) as ->. { apply (f_equal length) in Ha. rewrite length_take in Ha. simpl in Ha. lia. }
    done.
  - rewrite before_app in Hb. rewrite after_app in Ha. rewrite cost_app.
    assert (Hsnoc : ∀ (l l' : list string) k, k ≤ length l → l' ++ [x] = take k l →
      ∃ k', k = S k' ∧ l' = take k' l ∧ l !! k' = Some x).
    { intros l l' k Hk Heq. destruct k as [|k]; [by destruct l'|]. exists k.
      destruct (lookup_lt_is_Some_2 l k) as [y Hy]; [lia|]. rewrite (take_S_r _ _ y) in Heq by done.
      apply app_inj_tail in Heq as [-> ->]. done. }
    destruct e; cbn in *; rewrite ?app_nil_r in *.
    + apply Hsnoc in Hb as (i' & -> & ? & Hx); [|done]. apply Hsnoc in Ha as (j' & -> & ? & Hy); [|done].
      rewrite cost_SS, Hx, Hy, bool_decide_true by done. assert (c i' j' <= cost s)%Z by (apply IH; [lia|lia|done|done]). lia.
    + apply Hsnoc in Ha as (j' & -> & ? & Hy); [|done].
      assert (c i j' <= cost s)%Z by (apply IH; [lia|lia|done|done]). pose proof (proj2 (cost_col j') i). lia.
    + apply Hsnoc in Hb as (i' & -> & ? & Hx); [|done].
      assert (c i' j <= cost s)%Z by (apply IH; [lia|lia|done|done]). pose proof (proj2 (cost_row i') j). lia.
Qed.

(** ** Filling *)

(** The cells that satisfy [D] are filled. *)
Definition filled (D : nat → nat → bool) (cells : table) : Prop :=
  ∀ i j, i ≤ m → j ≤ n →
    get_cell cells (Z.of_nat i) (Z.of_nat j) = Ret (if D i j then best i j else zeroCell).

Lemma get_cell_lookup cells i j :
  get_cell cells (Z.of_nat i) (Z.of_nat j) =
    if (cells !! i) ≫= (.!! j) is Some x then Ret x else Panic "index out of range".
Proof.
  unfold get_cell. rewrite index_lookup. destruct (cells !! i) as [row|]; [apply index_lookup|reflexivity].
Qed.

Lemma set_cell_spec D D' cells i j x :
  filled D cells → i ≤ m → j ≤ n → x = best i j →
  (∀ a b, a ≤ m → b ≤ n → D' a b = D a b || (a =? i) && (b =? j)) →
  ∃ cells', set_cell (Z.of_nat i) (Z.of_nat j) x cells = Ret cells' ∧ filled D' cells'.
Proof.
  intros Hf Hi Hj -> HD. pose proof (Hf i j Hi Hj) as Hij. rewrite get_cell_lookup in Hij.
  unfold set_cell. rewrite index_lookup.
  destruct (cells !! i) as [row|] eqn:Hrow; [|done]. simpl in *. rewrite index_lookup.
  destruct (row !! j) as [old|] eqn:Hold; [|done]. simpl. rewrite !Nat2Z.id.
  eexists. split; [done|]. intros a b Ha Hb. specialize (Hf a b Ha Hb). rewrite HD by done.
  rewrite get_cell_lookup in Hf |- *.
  destruct (Nat.eqb_spec a i) as [->|Hai].
  - rewrite list_lookup_insert_eq by (by eapply lookup_lt_Some). rewrite Hrow in Hf. cbn [mbind option_bind] in *.
    destruct (Nat.eqb_spec b j) as [->|Hbj].
    + rewrite list_lookup_insert_eq by (by eapply lookup_lt_Some). by rewrite orb_true_r.
    + rewrite list_lookup_insert_ne by done. by rewrite orb_false_r.
  - rewrite list_lookup_insert_ne by done. by rewrite orb_false_r.
Qed.

Lemma filled_ext D D' cells :
  filled D cells → (∀ i j, i ≤ m → j ≤ n → D i j = D' i j) → filled D' cells.
Proof. intros Hf HD i j Hi Hj. rewrite <-HD by done. by apply Hf. Qed.

Lemma filled_lookup D cells i j (zi zj : Z) :
  filled D cells → i ≤ m → j ≤ n → zi = Z.of_nat i → zj = Z.of_nat j → D i j = true →
  get_cell cells zi zj = Ret (best i j).
Proof. intros Hf Hi Hj -> -> HD. by rewrite Hf, HD. Qed.

Lemma filled_zero : filled (λ a b, (b =? 0) && (a <? 1)) (replicate (m + 1) (replicate (n + 1) zeroCell)).
Proof.
  intros i j Hi Hj. rewrite get_cell_lookup, lookup_replicate_2 by lia. simpl. rewrite lookup_replicate_2 by lia.
  destruct (Nat.eqb_spec j 0) as [->|]; [|done]. destruct (Nat.ltb_spec i 1); [|done].
  by replace i with 0 by lia.
Qed.

Lemma index_prev {A} (l : list A) k :
  k < length l → ∃ x, l !! k = Some x ∧ index l (Z.of_nat (S k) - 1) = Ret x.
Proof.
  intros [x Hx]%lookup_lt_is_Some_2. exists x. split; [done|].
  replace (Z.of_nat (S k) - 1)%Z with (Z.of_nat k) by lia. by rewrite index_lookup, Hx.
Qed.

(** The cells filled when the loops are at row [i] and column [j]. *)
Definition upto (i j a b : nat) : bool := (b =? 0) || (a <? i) || ((a =? i) && (b <? j)).

Ltac cells_lia :=
  unfold upto; intros; cbv beta;
  repeat match goal with
  | |- context [?a =? ?b] => destruct (Nat.eqb_spec a b)
  | |- context [?a <? ?b] => destruct (Nat.ltb_spec a b)
  end; simpl; try done; lia.

Lemma fill_cell_spec cells i j :
  filled (upto i j) cells → 1 ≤ i ≤ m → 1 ≤ j ≤ n →
  ∃ cells', fill_cell lhs rhs (Z.of_nat i) (Z.of_nat j) cells = Ret cells' ∧ filled (upto i (S j)) cells'.
Proof.
  intros Hf Hi Hj. destruct i as [|i]; [lia|]. destruct j as [|j]; [lia|].
  destruct (index_prev lhs i) as (l & Hl & El); [lia|]. destruct (index_prev rhs j) as (r & Hr & Er); [lia|].
  unfold fill_cell. rewrite El, Er. cbn [mbind outcome_bind].
  assert (Hset : ∀ x, x = best (S i) (S j) →
    ∃ cells', set_cell (Z.of_nat (S i)) (Z.of_nat (S j)) x cells = Ret cells' ∧ filled (upto (S i) (S (S j))) cells').
  { intros x Hx. apply (set_cell_spec (upto (S i) (S j))); [done|lia|lia|done|cells_lia]. }
  case_bool_decide as Hlr.
  - rewrite (filled_lookup _ _ i j (Z.of_nat (S i) - 1) (Z.of_nat (S j) - 1) Hf) by (lia || cells_lia). rewrite Hf by lia. cbn [mbind outcome_bind].
    apply Hset. rewrite best_SS, Hl, Hr, bool_decide_true by congruence.
    assert (upto (S i) (S j) (S i) (S j) = false) as -> by cells_lia. done.
  - rewrite (filled_lookup _ _ i (S j) (Z.of_nat (S i) - 1) _ Hf) by (lia || cells_lia).
    rewrite (filled_lookup _ _ (S i) j _ (Z.of_nat (S j) - 1) Hf) by (lia || cells_lia). cbn [mbind outcome_bind].
    rewrite best_SS, Hl, Hr, bool_decide_false in Hset by congruence.
    destruct (c i (S j) <? c (S i) j)%Z; by apply Hset.
Qed.

Lemma fill_spec : ∃ cells, fill lhs rhs = Ret cells ∧ filled (λ _ _, true) cells.
Proof.
  unfold fill. cbv zeta.
  destruct (for_range_inv (λ i, set_cell i 0 (mkCell editDel i)) (λ i, filled (λ a b, (b =? 0) && (a <? i)))
    1 m _ filled_zero) as (cells1 & -> & H1).
  { intros k cells Hk Hf. apply (set_cell_spec _ _ _ k 0 _ Hf); [lia|lia| |cells_lia].
    destruct k; [lia|]. by rewrite best_S_0. }
  cbn [mbind outcome_bind].
  destruct (for_range_inv (λ j, set_cell 0 j (mkCell editAdd j)) (λ j, filled (upto 0 j)) 1 n cells1)
    as (cells2 & -> & H2).
  { eapply filled_ext; [exact H1|cells_lia]. }
  { intros k cells Hk Hf. apply (set_cell_spec _ _ _ 0 k _ Hf); [lia|lia| |cells_lia].
    destruct k; [lia|]. by rewrite best_0_S. }
  cbn [mbind outcome_bind].
  destruct (for_range_inv (λ i, for_range 1 n (λ j, fill_cell lhs rhs i j)) (λ i, filled (upto i 1)) 1 m cells2)
    as (cells3 & -> & H3).
  { eapply filled_ext; [exact H2|cells_lia]. }
  { intros k cells Hk Hf.
    destruct (for_range_inv (λ j, fill_cell lhs rhs (Z.of_nat k) j) (λ j, filled (upto k j)) 1 n cells)
      as (cells' & -> & H'); [done| |].
    - intros j s Hj Hs. by apply fill_cell_spec; [..|lia|lia].
    - exists cells'. split; [done|]. eapply filled_ext; [exact H'|cells_lia]. }
  exists cells3. split; [done|]. eapply filled_ext; [exact H3|cells_lia].
Qed.

(** ** Walking back *)

Lemma best_trace i j :
  i ≤ m → j ≤ n →
  match cell_edit (best i j) with
  | editNone => i = 0 ∧ j = 0 ∨ ∃ i' j', i = S i' ∧ j = S j' ∧ lhs !! i' = rhs !! j' ∧ c i j = c i' j'
  | editAdd => ∃ j', j = S j' ∧ c i j = (c i j' + 1)%Z
  | editDel => ∃ i', i = S i' ∧ c i j = (c i' j + 1)%Z
  end.
Proof.
  intros Hi Hj. destruct i as [|i], j as [|j].
  - by left.
  - rewrite best_0_S. exists j. split; [done|]. destruct j; [done|]. rewrite best_0_S. cbn [cell_cost]. lia.
  - rewrite best_S_0. exists i. split; [done|]. destruct i; [done|]. rewrite best_S_0. cbn [cell_cost]. lia.
  - rewrite best_SS. case_bool_decide; [cbn [cell_edit cell_cost]; by eauto 10|].
    destruct (c i (S j) <? c (S i) j)%Z; cbn [cell_edit cell_cost]; by eauto.
Qed.

(** The script of the prefixes of lengths [i] and [j] that the walk finds. *)
Definition script_of (i j : nat) (s : script) : Prop :=
  before s = take i lhs ∧ after s = take j rhs ∧ cost s = c i j.

Lemma script_of_snoc i j s e x (i' j' : nat) :
  script_of i j s →
  before [(e, x)] = drop i (take i' lhs) → after [(e, x)] = drop j (take j' rhs) → i ≤ i' → j ≤ j' →
  c i' j' = (c i j + edit_cost e)%Z →
  script_of i' j' (s ++ [(e, x)]).
Proof.
  intros (Hb & Ha & Hc) Hb' Ha' Hi Hj Hc'. split_and!.
  - rewrite before_app, Hb, Hb'. rewrite <-(take_drop i (take i' lhs)) at 2. by rewrite take_take, Nat.min_l.
  - rewrite after_app, Ha, Ha'. rewrite <-(take_drop j (take j' rhs)) at 2. by rewrite take_take, Nat.min_l.
  - rewrite cost_app, Hc, Hc'. simpl. lia.
Qed.

Lemma drop_take_S {A} (l : list A) k x : l !! k = Some x → [x] = drop k (take (S k) l).
Proof.
  intros Hx. rewrite (take_S_r _ _ x) by done. rewrite drop_app_length'; [done|].
  apply lookup_lt_Some in Hx. rewrite length_take. lia.
Qed.

Lemma drop_take_same {A} (l : list A) k : [] = drop k (take k l).
Proof. symmetry. apply drop_ge. rewrite length_take. lia. Qed.

Lemma backtrace_spec cells fuel i j d differ :
  filled (λ _ _, true) cells → i ≤ m → j ≤ n → i + j < fuel →
  ∃ s, script_of i j s ∧
    backtrace fuel lhs rhs cells (Z.of_nat i) (Z.of_nat j) d differ =
      Ret (d ++ reverse (render <$> s), differ || bool_decide (0 < cost s)%Z).
Proof.
  intros Hf. revert i j d differ. induction fuel as [|fuel IH]; intros i j d differ Hi Hj Hfuel; [lia|].
  cbn [backtrace]. destruct ((0 <? Z.of_nat i)%Z || (0 <? Z.of_nat j)%Z) eqn:Hgo; last first.
  { exists []. apply orb_false_iff in Hgo as [Hgi%Z.ltb_ge Hgj%Z.ltb_ge].
    replace i with 0 by lia. replace j with 0 by lia.
    split; [done|]. by rewrite app_nil_r, orb_false_r. }
  assert (i ≠ 0 ∨ j ≠ 0) as Hne.
  { apply orb_true_iff in Hgo as [?%Z.ltb_lt|?%Z.ltb_lt]; lia. }
  rewrite Hf by done. cbn [mbind outcome_bind]. pose proof (best_trace i j Hi Hj) as Htr.
  assert (Hsnoc : ∀ s e x, reverse (render <$> (s ++ [(e, x)])) = render (e, x) :: reverse (render <$> s)).
  { intros. by rewrite fmap_app, reverse_app. }
  destruct (cell_edit (best i j)).
  - destruct Htr as [[-> ->]|(i' & j' & -> & -> & Heq & Hc)]; [lia|].
    destruct (index_prev lhs i') as (x & Hx & ->); [lia|]. cbn [mbind outcome_bind].
    destruct (IH i' j' (d ++ [x]) differ) as (s & Hs & Hbt); [lia..|].
    exists (s ++ [(editNone, x)]). split.
    + apply (script_of_snoc i' j'); [done|by apply drop_take_S| |lia|lia|cbn [edit_cost]; lia].
      apply drop_take_S. by rewrite <-Heq.
    + rewrite Hsnoc, cost_app. replace (Z.of_nat (S i') - 1)%Z with (Z.of_nat i') by lia.
      replace (Z.of_nat (S j') - 1)%Z with (Z.of_nat j') by lia. rewrite Hbt, <-app_assoc. simpl.
      by rewrite Z.add_0_r.
  - destruct Htr as (j' & -> & Hc).
    destruct (index_prev rhs j') as (x & Hx & ->); [lia|]. cbn [mbind outcome_bind].
    destruct (IH i j' (d ++ ["+ " +:+ x]) true) as (s & Hs & Hbt); [lia..|].
    exists (s ++ [(editAdd, x)]). split.
    + apply (script_of_snoc i j'); [done|apply drop_take_same|by apply drop_take_S|lia|lia|cbn [edit_cost]; lia].
    + rewrite Hsnoc, cost_app. replace (Z.of_nat (S j') - 1)%Z with (Z.of_nat j') by lia.
      pose proof (cost_nonneg s). rewrite Hbt, <-app_assoc, (bool_decide_true (0 < cost s + _)%Z) by (simpl; lia).
      by rewrite orb_true_r.
  - destruct Htr as (i' & -> & Hc).
    destruct (index_prev lhs i') as (x & Hx & ->); [lia|]. cbn [mbind outcome_bind].
    destruct (IH i' j (d ++ ["- " +:+ x]) true) as (s & Hs & Hbt); [lia..|].
    exists (s ++ [(editDel, x)]). split.
    + apply (script_of_snoc i' j); [done|by apply drop_take_S|apply drop_take_same|lia|lia|cbn [edit_cost]; lia].
    + rewrite Hsnoc, cost_app. replace (Z.of_nat (S i') - 1)%Z with (Z.of_nat i') by lia.
      pose proof (cost_nonneg s). rewrite Hbt, <-app_assoc, (bool_decide_true (0 < cost s + _)%Z) by (simpl; lia).
      by rewrite orb_true_r.
Qed.

Lemma FuncLocationsDiff_spec :
  ∃ s, before s = lhs ∧ after s = rhs ∧
    (∀ s', before s' = lhs → after s' = rhs → (cost s <= cost s')%Z) ∧
    FuncLocationsDiff lhs rhs = Ret (if bool_decide (0 < cost s)%Z then render <$> s else []).
Proof.
  destruct fill_spec as (cells & Hfill & Hf).
  destruct (backtrace_spec cells (m + n + 1) m n [] false Hf) as (s & (Hb & Ha & Hc) & Hbt); [lia..|].
  rewrite take_ge in Hb, Ha by lia. exists s. split_and!; [done|done| |].
  - intros s' Hb' Ha'. rewrite Hc. apply best_minimal; [lia|lia|..]; by rewrite take_ge by lia.
  - unfold FuncLocationsDiff. rewrite Hfill. cbn [mbind outcome_bind]. rewrite Hbt. cbn [mbind outcome_bind].
    rewrite app_nil_l, reverse_loop_reverse, reverse_involutive. cbn [orb]. by case_bool_decide.
Qed.
End table.

(** C29. FuncLocationsDiff terminates without a panic on every pair of registries.
    For different registries it returns the printed form of an edit script that
    turns the first into the second, and no script has fewer additions and
    deletions. *)
Theorem FuncLocationsDiff_terminates (lhs rhs : list string) :
  ∃ s : script,
    FuncLocationsDiff lhs rhs = Ret (if bool_decide (lhs = rhs) then [] else render <$> s) ∧
    before s = lhs ∧ after s = rhs ∧
    ∀ s', before s' = lhs → after s' = rhs → (cost s <= cost s')%Z.
Proof.
  destruct (FuncLocationsDiff_spec lhs rhs) as (s & Hb & Ha & Hmin & ->). exists s. split_and!; [|done..].
  f_equal. pose proof (changed_cost s lhs rhs Hb Ha Hmin) as Hc.
  repeat case_bool_decide; try done; tauto.
Qed.

(** The driver's comparison of a worker's funcs with its own: the difference is
    nil exactly when the two lists of locations are equal. *)
Theorem FuncLocationsDiff_nil (lhs rhs : list string) :
  FuncLocationsDiff lhs rhs = Ret [] ↔ lhs = rhs.
Proof.
  destruct (FuncLocationsDiff_spec lhs rhs) as (s & Hb & Ha & Hmin & ->).
  pose proof (changed_cost s lhs rhs Hb Ha Hmin) as Hc. case_bool_decide as Hd.
  - split; [intros Hs|tauto]. by destruct s.
  - split; [intros _|done]. destruct (decide (lhs = rhs)); tauto.
Qed.
