(* ===== verification/Scan.v ===== *)
(** ScanReader (src/scan.go): a slice of the lines of a file, sharded by line
    number.  The text scanner of package bufio is modelled by the lines it will
    deliver and the line it is at. *)
From S2P Require Import Prelude Types SliceIO Slices Readers.

(** bufio.Scanner over lines; [bs_readErr] is what reading ends with, if not
    the end of the file. *)
Record bufioScanner := mkBufioScanner {
  bs_lines : list string;
  bs_text : string;
  bs_readErr : option error;
  bs_err : option error;
}.

Definition NewScanner (lines : list string) (readErr : option error) : bufioScanner :=
  mkBufioScanner lines "" readErr None.

Definition bufio_Scan (s : bufioScanner) : bufioScanner * bool :=
  match bs_lines s with
  | line :: lines => (mkBufioScanner lines line (bs_readErr s) (bs_err s), true)
  | [] => (mkBufioScanner [] "" (bs_readErr s) (bs_readErr s), false)
  end.

Fixpoint skip (scan : bufioScanner) (n : nat) : bufioScanner * option error :=
  match n with
  | 0 => (scan, None)
  | S n =>
      let '(scan, ok) := bufio_Scan scan in
      if ok then skip scan n
      else (scan, Some (default EOF (bs_err scan)))
  end.

(** The state of a shard: the scanner, once it is open, and whether it was
    closed. *)
Record scanState := mkScanState {
  ss_Scanner : option bufioScanner;
  ss_closed : bool;
}.

Section scan.
(** The number of shards, and the file: its lines, or the error of opening it. *)
Context (nshard : Z) (open : (list string * option error) + error).

(** The loop over [lines]: the rows filled in before an error. *)
Fixpoint scan_fill (scan : bufioScanner) (first : bool) (len : nat) (acc : list row) :
    bufioScanner * (list row * option error) :=
  match len with
  | 0 => (scan, (acc, None))
  | S len =>
      let '(scan, err) := if first then (scan, None) else skip scan (Z.to_nat nshard) in
      match err with
      | Some e => (scan, (acc, Some e))
      | None => scan_fill scan false len (acc ++ [[VString (bs_text scan)]])
      end
  end.

(** The reader function; it closes the file when it returns an error. *)
Definition scan_read (shard : Z) (state : scanState) (len : nat) :
    outcome (scanState * (list row * option error)) :=
  Ret (
    let first := bool_decide (ss_Scanner state = None) in
    let opened : (bufioScanner + error) * option bufioScanner :=
      match ss_Scanner state with
      | Some scan => (inl scan, Some scan)
      | None =>
          match open with
          | inr e => (inr e, None)
          | inl (lines, readErr) =>
              let '(scan, err) := skip (NewScanner lines readErr) (Z.to_nat shard) in
              (match err with Some e => inr e | None => inl scan end, Some scan)
          end
      end in
    match opened with
    | (inr e, scan) => (mkScanState scan (ss_closed state || bool_decide (is_Some scan)), ([], Some e))
    | (inl scan, _) =>
        let '(scan, (rows, err)) := scan_fill scan first len [] in
        (mkScanState (Some scan) (ss_closed state || bool_decide (is_Some err)), (rows, err))
    end).

Definition scan_type : gotype :=
  TFunc [TInt; TPtr (TNamed "bigslice.state" (TInterface [])); TSlice TString] [TInt; typeOfError] false.

Definition ScanReader (frames : list runtimeFrame) (b : bigslice) : outcome (bigslice * Slice) :=
  ReaderFunc nshard (Some scan_type) scanState (mkScanState None false) scan_read [] frames
    (Helper "github.com/grailbio/bigslice.ScanReader" b).
End scan.

(** * What the shards hold *)

Definition line_row (line : string) : row := [VString line].

(** Every [n]'th element from position [i] on. *)
Fixpoint stride {A} (fuel n i : nat) (l : list A) : list A :=
  match fuel with
  | 0 => []
  | S fuel => match l !! i with Some x => x :: stride fuel n (i + n) l | None => [] end
  end.

Section lines.
Context (nshard shard : nat) (L : list string) (NSHARD : 0 < nshard).

(** The scanner after [pos] calls of Scan, all of them successful: at line
    [pos - 1], or at no line yet. *)
Definition at_line (scan : bufioScanner) (pos : nat) : Prop :=
  bs_lines scan = drop pos L ∧ ("" :: L) !! pos = Some (bs_text scan) ∧
  bs_readErr scan = None ∧ bs_err scan = None.

Lemma at_line_0 : at_line (NewScanner L None) 0.
Proof. done. Qed.

Lemma skip_spec scan pos n :
  at_line scan pos → ∃ scan', skip scan n = (scan', if pos + n <=? length L then None else Some EOF) ∧
    (pos + n ≤ length L → at_line scan' (pos + n)) ∧ (length L < pos + n → bs_lines scan' = [] ∧ bs_readErr scan' = None).
Proof.
  revert scan pos. induction n as [|n IH]; intros scan pos (Hl & Ht & He & Hee).
  { pose proof (lookup_lt_Some _ _ _ Ht) as Hlt. simpl in Hlt. exists scan. rewrite Nat.add_0_r.
    rewrite (proj2 (Nat.leb_le _ _)) by lia. split_and!; [done|done|lia]. }
  simpl. unfold bufio_Scan. rewrite Hl. destruct (drop pos L) as [|line rest] eqn:Hd.
  - apply (f_equal length) in Hd. rewrite length_drop in Hd. simpl in Hd.
    rewrite He. eexists. split; [by rewrite (proj2 (Nat.leb_gt _ _)) by lia|]. split; [lia|done].
  - destruct (IH (mkBufioScanner rest line (bs_readErr scan) (bs_err scan)) (S pos)) as (scan' & Hs & H1 & H2).
    { split_and!; simpl; [|by rewrite <-(Nat.add_0_r pos), <-lookup_drop, Hd|done|done].
      replace (S pos) with (pos + 1) by lia. by rewrite <-drop_drop, Hd. }
    exists scan'. rewrite Hs. replace (S pos + n) with (pos + S n) in * by lia. done.
Qed.

(** A shard that is at position [pos] of the empty line and the file's lines
    has the rest of its stride to deliver. *)
Lemma scan_fill_spec scan pos len acc fuel :
  at_line scan pos → length L < fuel + pos →
  ∃ scan' rows oe, scan_fill (Z.of_nat nshard) scan false len acc = (scan', (acc ++ rows, oe)) ∧
    length rows ≤ len ∧
    match oe with
    | None => length rows = len ∧ ∃ pos' fuel', at_line scan' pos' ∧ length L < fuel' + pos' ∧
        line_row <$> stride fuel nshard (pos + nshard) ("" :: L) =
          rows ++ (line_row <$> stride fuel' nshard (pos' + nshard) ("" :: L))
    | Some e => e = EOF ∧ rows = line_row <$> stride fuel nshard (pos + nshard) ("" :: L)
    end.
Proof.
  revert scan pos acc fuel. induction len as [|len IH]; intros scan pos acc fuel Hat Hfuel.
  { exists scan, [], None. rewrite app_nil_r. split_and!; [done|simpl; lia|done|]. by exists pos, fuel. }
  cbn [scan_fill]. rewrite Nat2Z.id.
  destruct (skip_spec scan pos nshard Hat) as (scan1 & -> & Hin & Hout).
  destruct (Nat.leb_spec (pos + nshard) (length L)) as [Hle|Hgt].
  - pose proof (Hin Hle) as Hat1. destruct Hat1 as (Hl1 & Ht1 & He1).
    destruct fuel as [|fuel]; [lia|].
    destruct (IH scan1 (pos + nshard) (acc ++ [line_row (bs_text scan1)]) fuel) as (scan' & rows & oe & Hr & Hlen & Hoe);
      [done|lia|].
    change [VString (bs_text scan1)] with (line_row (bs_text scan1)).
    exists scan', (line_row (bs_text scan1) :: rows), oe. rewrite Hr, <-(assoc_L (++)). cbn [app length stride].
    split_and!; [done|lia|]. rewrite Ht1, fmap_cons. destruct oe as [e|].
    + destruct Hoe as [-> ->]. done.
    + destruct Hoe as (<- & pos' & fuel' & Hat' & Hf' & Heq). split; [done|].
      exists pos', fuel'. by rewrite Heq.
  - exists scan1, [], (Some EOF). rewrite app_nil_r. split_and!; [done|simpl; lia|done|].
    destruct fuel as [|fuel]; [done|]. simpl. by rewrite lookup_ge_None_2 by (simpl; lia).
Qed.

Abbreviation fn := (mkReaderFn scanState (mkScanState None false) true (scan_read (Z.of_nat nshard) (inl (L, None)))).
#[local] Instance shard_reader : Reader row scanState := user_Read fn (Z.of_nat shard).

Lemma scan_streams scan pos closed fuel :
  at_line scan pos → length L < fuel + pos →
  streams plain (S (length (stride fuel nshard (pos + nshard) ("" :: L)))) (mkScanState (Some scan) closed)
    (line_row <$> stride fuel nshard (pos + nshard) ("" :: L)).
Proof.
  intros Hat Hfuel. rewrite <-(length_fmap line_row).
  apply (streams_brisk (λ s l, ∃ scan closed pos fuel, s = mkScanState (Some scan) closed ∧ at_line scan pos ∧
    length L < fuel + pos ∧ l = line_row <$> stride fuel nshard (pos + nshard) ("" :: L)));
    [|by exists scan, closed, pos, fuel].
  clear scan pos closed fuel Hat Hfuel. intros s l n (scan & closed & pos & fuel & -> & Hat & Hfuel & ->) Hn.
  destruct (scan_fill_spec scan pos n [] fuel Hat Hfuel) as (scan' & rows & oe & Hr & Hlen & Hoe).
  eexists _, rows, oe. split; [|split; [done|]].
  - exists 0. intros f _. unfold Read, shard_reader, user_Read, scan_read. simpl. by rewrite Hr.
  - destruct oe as [e|].
    + destruct Hoe as [-> ->]. by split_and!.
    + destruct Hoe as (Hlr & pos' & fuel' & Hat' & Hf' & Heq). split; [destruct rows; [simpl in Hlr; lia|done]|].
      eexists. split; [exact Heq|]. by eexists _, _, pos', fuel'.
Qed.

Lemma scan_Streams :
  Streams (mkScanState None false) (line_row <$> stride (2 + length L) nshard shard ("" :: L)).
Proof.
  destruct (skip_spec (NewScanner L None) 0 shard at_line_0) as (scan & Hsk & Hin & Hout). simpl in Hsk, Hin, Hout.
  destruct (decide (shard ≤ length L)) as [Hle|Hgt].
  - rewrite (proj2 (Nat.leb_le _ _) Hle) in Hsk. destruct (Hin Hle) as (Hl & Ht & He & Hee).
    change (2 + length L) with (S (S (length L))). remember (S (length L)) as F eqn:HF. cbn [stride].
    rewrite Ht, fmap_cons.
    set (rest := stride F nshard (shard + nshard) ("" :: L)).
    exists (S (S (length rest))). intros n Hn. destruct n as [|n]; [lia|].
    destruct (scan_fill_spec scan shard n [line_row (bs_text scan)] F)
      as (scan' & rows & oe & Hr & Hlen & Hoe); [done|lia|]. 
    eexists _, (line_row (bs_text scan) :: rows), oe. split; [|split; [simpl; lia|]].
    + exists 0. intros f _. unfold Read, shard_reader, user_Read, scan_read. simpl.
      rewrite Nat2Z.id, Hsk. simpl. unfold line_row in Hr at 1. by rewrite Hr.
    + destruct oe as [e|].
      * destruct Hoe as [-> ->]. by split_and!.
      * destruct Hoe as (_ & pos' & fuel' & Hat' & Hf' & Heq). split; [done|].
        eexists. split; [unfold rest; by rewrite Heq|].
        eapply streams_mono; [|apply scan_streams; done].
        unfold rest in *. apply (f_equal length) in Heq. rewrite length_app, !length_fmap in Heq. lia.
  - rewrite (proj2 (Nat.leb_gt _ _)) in Hsk by lia.
    change (2 + length L) with (S (S (length L))). cbn [stride]. rewrite lookup_ge_None_2 by (simpl; lia).
    exists 1. intros n Hn. eexists _, [], (Some EOF). split; [|split; [simpl; lia|by split_and!]].
    exists 0. intros f _. unfold Read, shard_reader, user_Read, scan_read. simpl.
    by rewrite Nat2Z.id, Hsk.
Qed.

Lemma ScanReader_shape frames b b' s :
  ScanReader (Z.of_nat nshard) (inl (L, None)) frames b = Ret (b', s) →
  ∃ ptr name typ, s = readerFuncSlice ptr name (Pragmas []) typ (Z.of_nat nshard) fn ∧ cols typ = [TString].
Proof.
  unfold ScanReader, ReaderFunc. intros ([b1 [name ptr]] & _ & Hs)%outcome_bind_Ret.
  cbn in Hs. injection Hs as _ <-. eexists ptr, name, _. split; reflexivity.
Qed.

(** C39. Shard [i] of a ScanReader with [n] shards delivers every [n]'th line of
    the file, but of the file with an empty line put in front: the first row of
    shard 0 is a line that the file does not have, and shard [i] starts with line
    [i - 1]. *)
Theorem ScanReader_lines frames b b' s :
  ScanReader (Z.of_nat nshard) (inl (L, None)) frames b = Ret (b', s) →
  NumShard s = Z.of_nat nshard ∧
  computes s (Z.of_nat shard) [] (line_row <$> stride (2 + length L) nshard shard ("" :: L)).
Proof.
  intros (ptr & name & typ & -> & _)%ScanReader_shape. split; [done|].
  apply computes_reader, scan_Streams.
Qed.
End lines.
