(* ===== verification/TarSlice.v ===== *)
(** Slices of tar archives (src/archive/tarslice/tarslice.go): one row for each entry of an
    archive, striped over the shards.  The archive is given by the entries that tar.Reader
    finds in it and by what reading it ends with. *)
From S2P Require Import Prelude Types SliceIO Slices Readers Scan.

(** An entry: the number of its header, and its contents or the error of reading them. *)
Record tarEntry := mkTarEntry { te_Header : nat; te_Body : string + error }.

(** tar.Reader; [tr_end] is the error at which reading the archive ends, or [None] for its
    proper end, and stays the result of Next. *)
Record tarReader := mkTarReader { tr_rest : list tarEntry; tr_end : option error; tr_body : string + error }.

(** The results of Next: an entry was found, or io.EOF, or another error. *)
Inductive tarNext := nextEntry (header : nat) | nextEOF | nextErr (e : error).

Definition NewReader (entries : list tarEntry) (end_ : option error) : tarReader := mkTarReader entries end_ (inl "").

Definition Next (r : tarReader) : tarReader * tarNext :=
  match tr_rest r with
  | e :: rest => (mkTarReader rest (tr_end r) (te_Body e), nextEntry (te_Header e))
  | [] => (r, match tr_end r with Some e => nextErr e | None => nextEOF end)
  end.

(** Other errors than io.EOF are not looked at. *)
Fixpoint tar_skip (r : tarReader) (n : nat) : tarReader * option error :=
  match n with
  | 0 => (r, None)
  | S n =>
      let '(r, res) := Next r in
      match res with nextEOF => (r, Some EOF) | _ => tar_skip r n end
  end.

(** The state of a shard: the reader of the archive, once it is open, and whether the archive
    was closed. *)
Record tarState := mkTarState { ts_Reader : option tarReader; ts_closed : bool }.

(** Entry{Header, Body}; the contents are a string of bytes. *)
Definition entry_value (header : nat) (body : string) : value := VSlice [VOther "tar.Header" header; VString body].

Section tar.
Context (nshard : Z) (archive : (list tarEntry * option error) + error).

(** The loop over the rows to be filled in. *)
Fixpoint tar_fill (r : tarReader) (first : bool) (len : nat) (acc : list row) : tarReader * (list row * option error) :=
  match len with
  | 0 => (r, (acc, None))
  | S len =>
      let '(r, err) := if first then (r, None) else tar_skip r (Z.to_nat (nshard - 1)) in
      match err with
      | Some e => (r, (acc, Some e))
      | None =>
          let '(r, res) := Next r in
          match res with
          | nextEOF => (r, (acc, Some EOF))
          | nextErr e => (r, (acc, Some e))
          | nextEntry head =>
              match tr_body r with
              | inr e => (r, (acc, Some e))
              | inl body => tar_fill r false len (acc ++ [[entry_value head body]])
              end
          end
      end
  end.

(** The reader function; it closes the archive when it returns an error. *)
Definition tar_read (shard : Z) (state : tarState) (len : nat) : outcome (tarState * (list row * option error)) :=
  Ret (
    let first := bool_decide (ts_Reader state = None) in
    let opened : (tarReader + error) * option tarReader :=
      match ts_Reader state with
      | Some r => (inl r, Some r)
      | None =>
          match archive with
          | inr e => (inr e, None)
          | inl (entries, end_) =>
              let '(r, err) := tar_skip (NewReader entries end_) (Z.to_nat shard) in
              (match err with Some e => inr e | None => inl r end, Some r)
          end
      end in
    match opened with
    | (inr e, r) => (mkTarState r (ts_closed state || bool_decide (is_Some r)), ([], Some e))
    | (inl r, _) =>
        let '(r, (rows, err)) := tar_fill r first len [] in
        (mkTarState (Some r) (ts_closed state || bool_decide (is_Some err)), (rows, err))
    end).

Definition tar_type : gotype :=
  TFunc [TInt; TPtr (TNamed "tarslice.state" (TInterface [])); TSlice (TNamed "tarslice.Entry" (TInterface []))] [TInt; typeOfError] false.

Definition TarReader (frames : list runtimeFrame) (b : bigslice) : outcome (bigslice * Slice) :=
  ReaderFunc nshard (Some tar_type) tarState (mkTarState None false) tar_read [] frames
    (Helper "github.com/grailbio/bigslice/archive/tarslice.Reader" b).
End tar.

(** * What the shards hold *)

Definition tar_row (e : nat * string) : row := [entry_value e.1 e.2].

Section shards.
Context (nshard shard : nat) (L : list (nat * string)) (NSHARD : 0 < nshard).
#[local] Abbreviation entries := ((λ e, mkTarEntry e.1 (inl e.2)) <$> L).

(** The reader after [pos] entries. *)
Definition at_entry (r : tarReader) (pos : nat) : Prop := tr_rest r = drop pos entries ∧ tr_end r = None.

Lemma Next_spec r pos :
  at_entry r pos →
  match L !! pos with
  | Some e => ∃ r', Next r = (r', nextEntry e.1) ∧ at_entry r' (S pos) ∧ tr_body r' = inl e.2
  | None => Next r = (r, nextEOF)
  end.
Proof.
  intros [Hr He]. unfold Next. rewrite Hr. destruct (L !! pos) as [e|] eqn:Hp.
  - rewrite (drop_S _ (mkTarEntry e.1 (inl e.2)) pos) by (by rewrite list_lookup_fmap, Hp). eexists. split; [done|]. by split_and!.
  - rewrite drop_ge; [by rewrite He|]. rewrite length_fmap. by apply lookup_ge_None.
Qed.

Lemma tar_skip_spec r pos n :
  at_entry r pos → pos ≤ length L →
  ∃ r', tar_skip r n = (r', if pos + n <=? length L then None else Some EOF) ∧ (pos + n ≤ length L → at_entry r' (pos + n)).
Proof.
  revert r pos. induction n as [|n IH]; intros r pos Hat Hle.
  { exists r. rewrite Nat.add_0_r, (proj2 (Nat.leb_le _ _)) by lia. done. }
  cbn [tar_skip]. pose proof (Next_spec r pos Hat) as Hn. destruct (L !! pos) as [e|] eqn:Hp.
  - destruct Hn as (r1 & -> & Hat1 & _). apply lookup_lt_Some in Hp. destruct (IH r1 (S pos) Hat1) as (r' & -> & Hr'); [lia|]. exists r'.
    by replace (pos + S n) with (S pos + n) by lia.
  - rewrite Hn. apply lookup_ge_None in Hp. exists r. rewrite (proj2 (Nat.leb_gt _ _)) by lia. split; [done|lia].
Qed.

(** A reader after the entry before [pos]: the rows of the stride from [pos] on. *)
Lemma tar_fill_spec r (first : bool) pos len acc fuel :
  at_entry r (if first then pos else pos - (nshard - 1)) → (first = false → nshard - 1 ≤ pos ∧ pos - (nshard - 1) ≤ length L) → length L < fuel + pos →
  ∃ r' rows oe, tar_fill (Z.of_nat nshard) r first len acc = (r', (acc ++ rows, oe)) ∧ length rows ≤ len ∧
    match oe with
    | None => length rows = len ∧ (0 < len → ∃ pos' fuel', at_entry r' (pos' - (nshard - 1)) ∧ nshard - 1 ≤ pos' ∧ pos' - (nshard - 1) ≤ length L ∧ length L < fuel' + pos' ∧
        tar_row <$> stride fuel nshard pos L = rows ++ (tar_row <$> stride fuel' nshard pos' L))
    | Some e => e = EOF ∧ rows = tar_row <$> stride fuel nshard pos L
    end.
Proof.
  revert r first pos acc fuel. induction len as [|len IH]; intros r first pos acc fuel Hat Hpos Hfuel.
  { exists r, [], None. rewrite app_nil_r. split_and!; [done|simpl; lia|done|lia]. }
  cbn [tar_fill]. assert (∃ r1 err, (if first then (r, None) else tar_skip r (Z.to_nat (Z.of_nat nshard - 1))) = (r1, err) ∧
    ((err = None ∧ at_entry r1 pos) ∨ (err = Some EOF ∧ length L < pos))) as (r1 & err & -> & Hcase).
  { destruct first; [exists r, None; auto|]. destruct (Hpos eq_refl) as [Hge Hle]. replace (Z.to_nat (Z.of_nat nshard - 1)) with (nshard - 1) by lia.
    destruct (tar_skip_spec r _ (nshard - 1) Hat Hle) as (r1 & -> & Hr1). replace (pos - (nshard - 1) + (nshard - 1)) with pos in * by lia.
    eexists _, _. split; [done|]. destruct (Nat.leb_spec pos (length L)); auto. }
  destruct Hcase as [[-> Hat1]|[-> Hlt]].
  - pose proof (Next_spec r1 pos Hat1) as Hn. destruct (L !! pos) as [e|] eqn:Hp.
    + destruct Hn as (r2 & -> & Hat2 & Hb). rewrite Hb. pose proof (lookup_lt_Some _ _ _ Hp) as Hlt. destruct fuel as [|fuel]; [lia|].
      destruct (IH r2 false (pos + nshard) (acc ++ [tar_row e]) fuel) as (r' & rows & oe & Hr & Hlen & Hoe).
      { by replace (pos + nshard - (nshard - 1)) with (S pos) by lia. }
      { lia. }
      { lia. }
      change [entry_value e.1 e.2] with (tar_row e). exists r', (tar_row e :: rows), oe. rewrite Hr, <-(assoc_L (++)). split; [done|]. cbn [length stride]. rewrite Hp, fmap_cons.
      split; [lia|]. destruct oe as [e0|].
      * destruct Hoe as [-> ->]. done.
      * destruct Hoe as [<- Hrest]. split; [done|]. intros _. destruct rows as [|x rows].
        -- exists (pos + nshard), fuel. split_and!; [|lia..|done]. cbn [length] in Hr. injection Hr as <-.
           by replace (pos + nshard - (nshard - 1)) with (S pos) by lia.
        -- destruct Hrest as (pos' & fuel' & A1 & A2 & A3 & A4 & Heq); [simpl; lia|]. exists pos', fuel'. by rewrite Heq.
    + rewrite Hn. exists r1, [], (Some EOF). rewrite app_nil_r. split_and!; [done|simpl; lia|done|]. destruct fuel; [done|]. cbn [stride]. by rewrite Hp.
  - exists r1, [], (Some EOF). rewrite app_nil_r. split_and!; [done|simpl; lia|done|]. destruct fuel; [done|]. cbn [stride]. by rewrite lookup_ge_None_2 by lia.
Qed.

#[local] Abbreviation fn := (mkReaderFn tarState (mkTarState None false) true (tar_read (Z.of_nat nshard) (inl (entries, None)))).
#[local] Instance tar_reader : Reader row tarState := user_Read fn (Z.of_nat shard).

Lemma tar_streams r pos closed fuel :
  at_entry r (pos - (nshard - 1)) → nshard - 1 ≤ pos → pos - (nshard - 1) ≤ length L → length L < fuel + pos →
  streams plain (S (length (stride fuel nshard pos L))) (mkTarState (Some r) closed) (tar_row <$> stride fuel nshard pos L).
Proof.
  intros Hat Hge Hle Hfuel. rewrite <-(length_fmap tar_row).
  apply (streams_brisk (λ s l, ∃ r closed pos fuel, s = mkTarState (Some r) closed ∧ at_entry r (pos - (nshard - 1)) ∧ nshard - 1 ≤ pos ∧
    pos - (nshard - 1) ≤ length L ∧ length L < fuel + pos ∧ l = tar_row <$> stride fuel nshard pos L)); [|by exists r, closed, pos, fuel].
  clear r pos closed fuel Hat Hge Hle Hfuel. intros s l n (r & closed & pos & fuel & -> & Hat & Hge & Hle & Hfuel & ->) Hn.
  destruct (tar_fill_spec r false pos n [] fuel Hat ltac:(done) Hfuel) as (r' & rows & oe & Hr & Hlen & Hoe).
  eexists _, rows, oe. split; [|split; [done|]].
  - exists 0. intros f _. unfold Read, tar_reader, user_Read, tar_read. simpl. by rewrite Hr.
  - destruct oe as [e|].
    + destruct Hoe as [-> ->]. by split_and!.
    + destruct Hoe as (Hlr & Hrest). destruct (Hrest Hn) as (pos' & fuel' & A1 & A2 & A3 & A4 & Heq).
      split; [destruct rows; [simpl in Hlr; lia|done]|]. eexists. split; [exact Heq|]. by eexists _, _, pos', fuel'.
Qed.

Lemma tar_Streams : Streams (mkTarState None false) (tar_row <$> stride (S (length L)) nshard shard L).
Proof.
  destruct (tar_skip_spec (NewReader entries None) 0 shard) as (r & Hsk & Hr); [done|lia|]. simpl in Hsk, Hr.
  destruct (decide (shard ≤ length L)) as [Hle|Hgt].
  - rewrite (proj2 (Nat.leb_le _ _) Hle) in Hsk. set (rest := stride (S (length L)) nshard shard L).
    exists (S (length rest)). intros n Hn.
    destruct (tar_fill_spec r true shard n [] (S (length L)) (Hr Hle) ltac:(done) ltac:(lia)) as (r' & rows & oe & Hf & Hlen & Hoe).
    eexists _, rows, oe. split; [|split; [done|]].
    + exists 0. intros f _. unfold Read, tar_reader, user_Read, tar_read. cbn [ts_Reader rfn_call].
      cbn. rewrite Nat2Z.id, Hsk. cbn. by rewrite Hf.
    + destruct oe as [e|].
      * destruct Hoe as [-> ->]. by split_and!.
      * destruct Hoe as (Hlr & Hrest). destruct (Hrest Hn) as (pos' & fuel' & A1 & A2 & A3 & A4 & Heq). split; [done|].
        eexists. split; [unfold rest; by rewrite Heq|]. eapply streams_mono; [|by apply tar_streams].
        unfold rest in *. apply (f_equal length) in Heq. rewrite length_app, !length_fmap in Heq. lia.
  - rewrite (proj2 (Nat.leb_gt _ _)) in Hsk by lia. cbn [stride]. rewrite lookup_ge_None_2 by lia.
    exists 1. intros n Hn. eexists _, [], (Some EOF). split; [|split; [simpl; lia|by split_and!]].
    exists 0. intros f _. unfold Read, tar_reader, user_Read, tar_read. simpl. by rewrite Nat2Z.id, Hsk.
Qed.

(** Shard [i] of the slice of an archive with [n] shards delivers every [n]'th entry from
    entry [i] on, headers and contents, whatever frames it is read into. *)
Theorem TarReader_stripes frames b b' s :
  TarReader (Z.of_nat nshard) (inl (entries, None)) frames b = Ret (b', s) →
  NumShard s = Z.of_nat nshard ∧ computes s (Z.of_nat shard) [] (tar_row <$> stride (S (length L)) nshard shard L).
Proof.
  unfold TarReader, ReaderFunc. intros ([b1 [name ptr]] & _ & Hs)%outcome_bind_Ret. cbn in Hs. injection Hs as _ <-. split; [done|].
  apply computes_reader, tar_Streams.
Qed.
End shards.

(** The archive is closed at its end; an error of reading it is passed over by skip, and is
    then returned for the entry that is looked for. *)
Example tar_example :
  let es := (λ h, mkTarEntry h (inl "x")) <$> [0; 1; 2; 3; 4] in
  (match tar_read 2 (inl (es, None)) 1 (mkTarState None false) 3 with Ret (s, res) => Some (ts_closed s, res) | _ => None end) =
    Some (true, ([[entry_value 1 "x"]; [entry_value 3 "x"]], Some EOF)) ∧
  (match tar_read 2 (inl (es, Some (Err Other "truncated"))) 1 (mkTarState None false) 3 with Ret (s, res) => Some (ts_closed s, res) | _ => None end) =
    Some (true, ([[entry_value 1 "x"]; [entry_value 3 "x"]], Some (Err Other "truncated"))).
Proof. done. Qed.
