(* ===== verification/Cache.v ===== *)
(** Caching of slices in files (src/internal/slicecache/slicecache.go,
    src/internal/slicecache/sliceio.go, src/cache.go).

    Files are those of package file: a file that is being written is visible
    under its path only once it is closed.  The file operations are parameters;
    the contents of files are what the encoder of Codec.v writes. *)
From S2P Require Import Prelude SliceIO Codec Types Slices Readers.

#[local] Set Warnings "-register-all".

Section cache.
Context {C : Codec value}.
(** Creating, opening and closing files: errors, and the contents of a file. *)
Context (file_Create : string → option error) (file_Open : string → list byte + error).
Context (file_Close : string → option error).
(** What a write to a file that was closed or discarded does. *)
Context (write_closed : Encoder (cell := value) → list row → Encoder (cell := value) * option error).

#[local] Existing Instance decodingReader_reader.

(** * fileReader *)

Record fileReader := mkFileReader {
  fl_path : string;
  fl_file : option (decodingReader (cell := value));
}.

Definition newFileReader (path : string) : fileReader := mkFileReader path None.

(** The file is opened by the first call, and closed at the end or an error; the
    error of Close is only logged. *)
Definition fileReader_Read (fuel : nat) (f : fileReader) (len : nat) :
    outcome (fileReader * (list row * option error)) :=
  let opened := match fl_file f with
                | Some d => inl d
                | None =>
                    match file_Open (fl_path f) with
                    | inl bs => inl (NewDecodingReader bs)
                    | inr e => inr e
                    end
                end in
  match opened with
  | inr e => Ret (f, ([], Some e))
  | inl d =>
      '(d, (rows, err)) ← decodingReader_Read VNil fuel d len;
      Ret (mkFileReader (fl_path f) (Some d), (rows, err))
  end.
#[local] Instance fileReader_reader : Reader row fileReader := fileReader_Read.

(** * writethroughReader *)

(** Whether a file is still open for writing, or was closed, with its contents
    now visible, or discarded. *)
Inductive fate := Writing | Closed (contents : list byte) | Discarded.

Section writethrough.
Context {R : Type} `{Reader row R}.

Record writethroughReader := mkWritethroughReader {
  wt_Reader : R;
  wt_path : string;
  wt_file : option (Encoder (cell := value) * fate);
}.

Definition newWritethroughReader (reader : R) (path : string) : writethroughReader :=
  mkWritethroughReader reader path None.

(** [enc.Write] to the file. *)
Definition wt_write (enc : Encoder) (st : fate) (rows : list row) : Encoder * option error :=
  match st with
  | Writing => Encoder_Write VNil enc rows
  | _ => write_closed enc rows
  end.

Definition writethroughReader_Read (fuel : nat) (r : writethroughReader) (len : nat) :
    outcome (writethroughReader * (list row * option error)) :=
  let created := match wt_file r with
                 | Some f => inl f
                 | None =>
                     match file_Create (wt_path r) with
                     | Some e => inr e
                     | None => inl (NewEncodingWriter, Writing)
                     end
                 end in
  match created with
  | inr e => Ret (r, ([], Some e))
  | inl (enc, st) =>
      '(rd, (rows, err)) ← Read fuel (wt_Reader r) len;
      Ret (match err with
           | Some (Err k msg) =>
               (mkWritethroughReader rd (wt_path r) (Some (enc, if st is Writing then Discarded else st)),
                (rows, err))
           | _ =>
               let '(enc, writeErr) := wt_write enc st rows in
               match writeErr with
               | Some e => (mkWritethroughReader rd (wt_path r) (Some (enc, st)), (rows, Some e))
               | None =>
                   if bool_decide (err = Some EOF) then
                     match file_Close (wt_path r) with
                     | Some e => (mkWritethroughReader rd (wt_path r) (Some (enc, st)), (rows, Some e))
                     | None =>
                         (mkWritethroughReader rd (wt_path r)
                            (Some (enc, if st is Writing then Closed (en_out enc) else st)), (rows, err))
                     end
                   else (mkWritethroughReader rd (wt_path r) (Some (enc, st)), (rows, err))
               end
           end)
  end.
End writethrough.

#[local] Instance writethroughReader_reader {R} `{Reader row R} : Reader row (writethroughReader (R := R)) :=
  writethroughReader_Read.

(** * FileShardCache *)

Record FileShardCache := mkFileShardCache {
  fc_prefix : string;
  fc_numShards : Z;
  fc_shardIsCached : list bool;
  fc_requireAll : bool;
}.

(** [%04d]. *)
Fixpoint zeros (n : nat) : string := match n with 0 => "" | S n => "0" +:+ zeros n end.
Definition pad4 (z : Z) : string := zeros (4 - String.length (decimal z)) +:+ decimal z.

Definition cache_path (c : FileShardCache) (shard : Z) : string :=
  fc_prefix c +:+ "-" +:+ pad4 shard +:+ "-of-" +:+ pad4 (fc_numShards c).

(** [file_exists] is whether file.Stat succeeds. *)
Definition NewFileShardCache (file_exists : string → bool) (prefix : string) (numShards : Z) :
    outcome FileShardCache :=
  if bool_decide (prefix = "") then Ret (mkFileShardCache "" 0 [] false)
  else if (numShards <? 0)%Z then Panic "makeslice: len out of range"
  else
    let c := mkFileShardCache prefix numShards [] false in
    Ret (mkFileShardCache prefix numShards
           ((λ shard, file_exists (cache_path c (Z.of_nat shard))) <$> seq 0 (Z.to_nat numShards)) false).

(** The methods of a pointer, which may be nil. *)
Definition FileShardCache_IsCached (c : option FileShardCache) (shard : Z) : outcome bool :=
  match c with
  | None => Ret false
  | Some c => index (fc_shardIsCached c) shard
  end.

Definition RequireAllCached (c : option FileShardCache) : option FileShardCache :=
  match c with
  | None => None
  | Some c =>
      Some (mkFileShardCache (fc_prefix c) (fc_numShards c)
              (if forallb id (fc_shardIsCached c) then fc_shardIsCached c
               else (λ _, false) <$> fc_shardIsCached c) true)
  end.

Definition FileShardCache_WritethroughReader (c : option FileShardCache) (shard : Z)
    (reader : anyReader row) : outcome (anyReader row) :=
  match c with
  | None => Ret reader
  | Some c => Ret (pack (newWritethroughReader reader (cache_path c shard)))
  end.

Definition FileShardCache_CacheReader (c : option FileShardCache) (shard : Z) :
    outcome (anyReader row) :=
  match c with
  | None => Panic "invalid memory address or nil pointer dereference"
  | Some c =>
      cached ← index (fc_shardIsCached c) shard;
      if (cached : bool) then Ret (pack (newFileReader (cache_path c shard)))
      else
        let path := if fc_requireAll c
                    then fc_prefix c +:+ "-NNNN-of-" +:+ pad4 (fc_numShards c)
                    else cache_path c shard in
        Ret (pack (mkErrReader (Err Other ("cache invalid for shard; check " +:+ path))))
  end.

(** As the interface ShardCache. *)
Definition shardCache (c : option FileShardCache) : ShardCache :=
  mkShardCache (FileShardCache_IsCached c) (FileShardCache_WritethroughReader c) (FileShardCache_CacheReader c).

(** * Constructors of slices *)

Definition Cache (file_exists : string → bool) (slice : Slice) (prefix : string)
    (frames : list runtimeFrame) (b : bigslice) : outcome (bigslice * Slice) :=
  c ← NewFileShardCache file_exists prefix (NumShard slice);
  '(b, (name, ptr)) ← newSlice "cache" frames b;
  Ret (b, cacheSlice ptr name slice (shardCache (RequireAllCached (Some c)))).

Definition CachePartial (file_exists : string → bool) (slice : Slice) (prefix : string)
    (frames : list runtimeFrame) (b : bigslice) : outcome (bigslice * Slice) :=
  c ← NewFileShardCache file_exists prefix (NumShard slice);
  '(b, (name, ptr)) ← newSlice "cachepartial" frames b;
  Ret (b, cacheSlice ptr name slice (shardCache (Some c))).

Definition ReadCache (file_exists : string → bool) (typ : Typ) (numShard : Z) (prefix : string)
    (frames : list runtimeFrame) (b : bigslice) : outcome (bigslice * Slice) :=
  c ← NewFileShardCache file_exists prefix numShard;
  '(b, (name, ptr)) ← newSlice "readcache" frames b;
  Ret (b, readCacheSlice ptr typ name numShard (shardCache (RequireAllCached (Some c)))).

(** * What a cache holds *)

Section roundtrip.
Context {CL : CodecLaws value}.
Definition wide (rows : list row) : Prop := Forall (λ r, length r = Codec.NumOut) rows.
(** Rows of the right width can be encoded, and the files can be written. *)
Hypothesis ENC : ∀ e rows, wide rows → ∃ e', Encoder_Write VNil e rows = (e', None).
Context {R : Type} `{Reader row R} (path : string).
Hypothesis CREATE : file_Create path = None.
Hypothesis CLOSE : file_Close path = None.

Implicit Types (rd : R) (e : Encoder (cell := value)) (l : list row).
#[local] Abbreviation WT := (writethroughReader (R := R)).

(** The file of a reader: not created yet, or written so far. *)
Definition wt_at (fo : option (Encoder (cell := value) * fate)) (e : Encoder (cell := value)) : Prop :=
  fo = Some (e, Writing) ∨ (fo = None ∧ e = NewEncodingWriter).

(** One call: the rows are written and passed on; at the end the file is
    closed. *)
Lemma writethrough_step rd rd' fo e n out oe :
  wt_at fo e → wide out → Reads rd n rd' out oe →
  (oe = None ∨ oe = Some EOF) →
  ∃ e', Encoder_Write VNil e out = (e', None) ∧
    Reads (mkWritethroughReader rd path fo : WT) n
      (mkWritethroughReader rd' path
         (Some (e', if oe is Some _ then Closed (en_out e') else Writing))) out oe.
Proof.
  intros Hfo Hw [f0 HR] Hoe. destruct (ENC e out Hw) as [e' He]. exists e'. split; [done|].
  exists f0. intros f Hf. unfold Read, writethroughReader_reader, writethroughReader_Read. simpl.
  assert (match fo with Some f => inl f | None => match file_Create path with Some e => inr e
    | None => inl (NewEncodingWriter, Writing) end end = inl (e, Writing)) as ->.
  { destruct Hfo as [->|[-> ->]]; [done|]. by rewrite CREATE. }
  rewrite HR by done. simpl. rewrite He.
  destruct Hoe as [-> | ->]; [done|]. simpl. by rewrite CLOSE.
Qed.

(** The writer is invisible to the reader of the rows. *)
Lemma writethrough_streams k rd fo e l :
  wt_at fo e → wide l → streams plain k rd l →
  streams plain k (mkWritethroughReader rd path fo : WT) l.
Proof.
  revert rd fo e l. induction k as [|k IH]; intros rd fo e l Hfo Hw Hs; [done|]. intros n Hn.
  destruct (Hs n Hn) as (rd' & out & oe & HR & Hl & Hoe).
  assert (wide out ∧ (oe = None ∨ oe = Some EOF)) as [Ho Heof].
  { destruct oe as [err|]; [destruct Hoe as (-> & <- & _); by auto|].
    destruct Hoe as (_ & l' & -> & _). apply Forall_app in Hw as [? _]. by auto. }
  destruct (writethrough_step rd rd' fo e n out oe Hfo Ho HR Heof) as (e' & _ & HR').
  eexists _, out, oe. split; [exact HR'|]. split; [done|]. destruct oe as [err|].
  - destruct Hoe as (-> & -> & _). by split_and!.
  - destruct Hoe as (_ & l' & -> & Hs'). split; [done|]. exists l'. split; [done|].
    apply Forall_app in Hw as [_ Hw']. by eapply (IH _ _ e'); [left|..].
Qed.

(** Reading to the end leaves a closed file with all batches. *)
Lemma writethrough_reads k rd fo e l bs chunk acc :
  streams plain k rd l → 0 < chunk → wt_at fo e → wide l →
  Forall wide bs → write_all VNil NewEncodingWriter bs = (e, None) →
  ∃ rd' e' bs', (∃ L0 f0, ∀ L f, L0 ≤ L → f0 ≤ f →
      ReadAll_loop L f chunk (mkWritethroughReader rd path fo : WT) acc =
        Ret (mkWritethroughReader rd' path (Some (e', Closed (en_out e'))), (acc ++ l, None))) ∧
    Forall wide (bs ++ bs') ∧
    write_all VNil NewEncodingWriter (bs ++ bs') = (e', None) ∧ concat bs' = l.
Proof.
  assert (∀ bs e0 e1 b e2, write_all VNil e0 bs = (e1, None) → Encoder_Write VNil e1 b = (e2, None) →
    write_all VNil e0 (bs ++ [b]) = (e2, None)) as Hsnoc.
  { clear. intros bs. induction bs as [|b0 bs IH]; intros e0 e1 b e2; simpl.
    - intros [= <-] Hb. by rewrite Hb.
    - destruct (Encoder_Write VNil e0 b0) as [e0' [err|]]; [done|]. apply IH. }
  intros Hs Hc. revert rd fo e l bs acc Hs. induction k as [|k IH]; intros rd fo e l bs acc Hs Hfo Hw Hbs Hwr; [done|].
  destruct (Hs chunk Hc) as (rd1 & out & oe & HR & Hl & Hoe).
  assert (wide out ∧ (oe = None ∨ oe = Some EOF)) as [Ho Heof].
  { destruct oe as [err|]; [destruct Hoe as (-> & <- & _); by auto|].
    destruct Hoe as (_ & l' & -> & _). apply Forall_app in Hw as [? _]. by auto. }
  destruct (writethrough_step rd rd1 fo e chunk out oe Hfo Ho HR Heof) as (e' & He & [f1 HR']).
  pose proof (Hsnoc bs _ _ out e' Hwr He) as Hwr'.
  assert (Forall wide (bs ++ [out])) as Hbs'
    by (apply Forall_app; split; [done|by repeat constructor]).
  destruct oe as [err|].
  - destruct Hoe as (-> & -> & _). exists rd1, e', [out]. split_and!; [|done|done|simpl; by rewrite app_nil_r].
    exists 1, f1. intros [|L] f HL Hf; [lia|]. simpl. by rewrite HR'.
  - destruct Hoe as (_ & l' & -> & Hs'). apply Forall_app in Hw as [_ Hw'].
    destruct (IH rd1 (Some (e', Writing)) e' l' (bs ++ [out]) (acc ++ out) Hs' ltac:(by left) Hw' Hbs' Hwr')
      as (rd' & e2 & bs2 & (L0 & f0 & Hr) & HF2 & Hw2 & Hcc).
    exists rd', e2, (out :: bs2). rewrite <-(assoc_L (++)) in HF2, Hw2. split_and!; [|done|done|simpl; by rewrite Hcc].
    exists (S L0), (f0 `max` f1). intros [|L] f HL Hf; [lia|]. simpl. rewrite HR' by lia. simpl.
    rewrite Hr, (assoc_L (++)) by lia. done.
Qed.

(** A reader of a file streams what its contents decode to. *)
Lemma fileReader_streams k (d : decodingReader) bs (f : fileReader) l :
  fl_file f = Some d ∨ (fl_file f = None ∧ file_Open (fl_path f) = inl bs ∧ d = NewDecodingReader bs) →
  @streams row _ (decodingReader_Read VNil) plain k d l → streams plain k f l.
Proof.
  revert d f l. induction k as [|k IH]; intros d f l Hf Hs; [done|]. intros n Hn.
  destruct (Hs n Hn) as (d' & out & oe & [f0 HR] & Hl & Hoe).
  exists (mkFileReader (fl_path f) (Some d')), out, oe. split; [|split; [done|]].
  - exists f0. intros fu Hfu. unfold Read, fileReader_reader, fileReader_Read.
    assert (match fl_file f with Some d => inl d | None => match file_Open (fl_path f) with
      | inl bs => inl (NewDecodingReader bs) | inr e => inr e end end = inl d) as ->.
    { destruct Hf as [->|(-> & -> & ->)]; done. }
    unfold Read in HR. by rewrite HR.
  - destruct oe as [e|]; [destruct Hoe as (-> & -> & _); by split_and!|].
    destruct Hoe as (_ & l' & -> & Hs'). split; [done|]. exists l'. split; [done|].
    apply (IH d'); [by left|done].
Qed.

(** C23. Caching is a round trip: reading a slice through the cache to its end
    delivers its rows unchanged and leaves a closed file, and a reader of a file
    with these contents streams the same rows. *)
Theorem cache_roundtrip rd l chunk :
  Streams rd l → wide l → 0 < chunk →
  ∃ rd' e f0, (∀ f, f0 ≤ f → ReadAll f chunk (newWritethroughReader rd path : WT) =
      Ret (mkWritethroughReader rd' path (Some (e, Closed (en_out e))), (l, None))) ∧
    (file_Open path = inl (en_out e) → Streams (newFileReader path) l).
Proof.
  intros [k Hs] Hw Hc.
  destruct (writethrough_reads k rd None NewEncodingWriter l [] chunk [] Hs Hc) as
    (rd' & e' & bs & (L0 & f0 & Hr) & HF & Hwr & Hcc); [by right|done|constructor|done|].
  exists rd', e', (L0 `max` f0). split; [intros f Hf; apply Hr; lia|].
  intros Ho. destruct (codec_streams VNil bs e' HF Hwr) as [k' Hk']. exists k'.
  apply (fileReader_streams k' (NewDecodingReader (en_out e')) (en_out e')); [by right|].
  rewrite <-Hcc. by eapply streams_plain.
Qed.
End roundtrip.

(** ** Which shards are cached *)

Lemma forallb_fmap {A} (f : A → bool) l : forallb id (f <$> l) = forallb f l.
Proof. induction l as [|x l IH]; [done|]. rewrite fmap_cons. cbn [forallb]. by rewrite IH. Qed.

(** Cache uses its files only if all shards are there: every shard is
    reported cached if the files of all shards exist, and none otherwise;
    CachePartial reports each shard for itself. *)
Theorem Cache_all_or_nothing file_exists prefix numShards c (shard : nat) :
  prefix ≠ "" → NewFileShardCache file_exists prefix numShards = Ret c → (Z.of_nat shard < numShards)%Z →
  FileShardCache_IsCached (Some c) (Z.of_nat shard) = Ret (file_exists (cache_path c (Z.of_nat shard))) ∧
  FileShardCache_IsCached (RequireAllCached (Some c)) (Z.of_nat shard) =
    Ret (forallb (λ i, file_exists (cache_path c (Z.of_nat i))) (seq 0 (Z.to_nat numShards))).
Proof.
  intros Hp Hc Hs. unfold NewFileShardCache in Hc. rewrite bool_decide_false in Hc by done.
  destruct (Z.ltb_spec numShards 0); [lia|]. injection Hc as <-. simpl.
  rewrite !index_lookup. split; [by rewrite list_lookup_fmap, lookup_seq_lt by lia|].
  rewrite forallb_fmap. unfold cache_path. simpl.
  destruct (forallb _ (seq 0 (Z.to_nat numShards))) eqn:Hall.
  - rewrite forallb_forall in Hall. rewrite list_lookup_fmap, lookup_seq_lt by lia. simpl.
    rewrite Hall; [done|]. apply in_seq. lia.
  - by rewrite !list_lookup_fmap, lookup_seq_lt by lia.
Qed.

(** Caching under an empty prefix panics instead of caching nothing: the
    cache that NewFileShardCache returns for it has no entry for any shard, so
    compilation of the slice fails with an index out of range. *)
Theorem Cache_empty_prefix_panics file_exists slice frames b b' s shard :
  Cache file_exists slice "" frames b = Ret (b', s) →
  ∃ p name cache, s = cacheSlice p name slice cache ∧ IsCached cache shard = Panic "index out of range".
Proof.
  unfold Cache. simpl. intros ([b1 [name p]] & _ & [= _ <-])%outcome_bind_Ret.
  eexists _, _, _. split; [done|]. simpl. unfold index. by destruct (shard <? 0)%Z.
Qed.
End cache.
