(* ===== verification/Compile.v ===== *)
(** Compilation of slices to task graphs (src/exec/compile.go).

    Slices that need no shuffle between them are pipelined into one task per
    shard; a shuffle dependency becomes an edge from every task to all tasks of
    the dependency, each of which partitions its output.  Tasks are allocated in
    a heap, as in Task.v; compilation is a state and error monad over that heap,
    the namer, the memo table and the compile environment. *)
From S2P Require Import Prelude Types SliceIO Slices Readers Task.

(** * Compiled tasks *)

(** The static part of a task; [Task.Task] has its runtime state. *)
Record cTask := mkCTask {
  ct_Type : Typ;
  ct_Name : TaskName;
  ct_Do : option (list (anyReader row) → outcome (anyReader row));
  ct_Deps : list TaskDep;
  ct_Partitioner : option Partitioner;
  ct_NumPartition : Z;
  ct_Combiner : option userFunc;
  ct_CombineKey : string;
  ct_Pragma : Pragma;
  ct_Slices : list Slice;
  ct_Group : list nat;
}.

Definition with_Do (do_ : option (list (anyReader row) → outcome (anyReader row))) (t : cTask) : cTask :=
  mkCTask (ct_Type t) (ct_Name t) do_ (ct_Deps t) (ct_Partitioner t) (ct_NumPartition t)
    (ct_Combiner t) (ct_CombineKey t) (ct_Pragma t) (ct_Slices t) (ct_Group t).
Definition with_Deps (deps : list TaskDep) (t : cTask) : cTask :=
  mkCTask (ct_Type t) (ct_Name t) (ct_Do t) deps (ct_Partitioner t) (ct_NumPartition t)
    (ct_Combiner t) (ct_CombineKey t) (ct_Pragma t) (ct_Slices t) (ct_Group t).
Definition with_Slices (slices : list Slice) (t : cTask) : cTask :=
  mkCTask (ct_Type t) (ct_Name t) (ct_Do t) (ct_Deps t) (ct_Partitioner t) (ct_NumPartition t)
    (ct_Combiner t) (ct_CombineKey t) (ct_Pragma t) slices (ct_Group t).
Definition with_Group (group : list nat) (t : cTask) : cTask :=
  mkCTask (ct_Type t) (ct_Name t) (ct_Do t) (ct_Deps t) (ct_Partitioner t) (ct_NumPartition t)
    (ct_Combiner t) (ct_CombineKey t) (ct_Pragma t) (ct_Slices t) group.

(** * The compile environment *)

#[export] Instance TaskName_eq_dec : EqDecision TaskName.
Proof. solve_decision. Defined.
#[export] Instance TaskName_countable : Countable TaskName.
Proof.
  refine (inj_countable' (λ n, (tn_InvIndex n, tn_Op n, tn_Shard n, tn_NumShard n))
    (λ '(i, o, s, n), mkTaskName i o s n) _). by intros [].
Defined.

Record CompileEnv := mkCompileEnv {
  Writable : bool;
  TaskCached : gset TaskName;
}.

Definition makeCompileEnv : CompileEnv := mkCompileEnv true ∅.
Definition MarkCached (e : CompileEnv) (n : TaskName) : outcome CompileEnv :=
  if Writable e then Ret (mkCompileEnv (Writable e) ({[n]} ∪ TaskCached e))
  else Panic "env not writable".
Definition Env_IsCached (e : CompileEnv) (n : TaskName) : bool := bool_decide (n ∈ TaskCached e).
Definition Freeze (e : CompileEnv) : CompileEnv := mkCompileEnv false (TaskCached e).
Definition IsWritable (e : CompileEnv) : bool := Writable e.

(** * Partitioners *)

Record partitioner := mkPartitioner {
  p_numPartition : Z;
  p_partitioner : option Partitioner;
  p_Combiner : option userFunc;
  p_CombineKey : string;
}.

Definition no_partitioner : partitioner := mkPartitioner 0 None None "".

Definition IsShuffle (p : partitioner) : bool := negb (p_numPartition p =? 0)%Z.
Definition NumPartition (p : partitioner) : Z :=
  if (p_numPartition p =? 0)%Z then 1 else p_numPartition p.

Section compile.
(** The hash of a row by its prefix columns (frame.Hash), a uint32. *)
Context (frame_Hash : row → outcome Z).
(** Slice.Reader. *)
Context (SReader : Slice → Z → list (anyReader row) → outcome (anyReader row)).

Fixpoint defaultPartitioner (rows : list row) (nshard : Z) : outcome (list Z) :=
  match rows with
  | [] => Ret []
  | r :: rows =>
      h ← frame_Hash r;
      let m := (nshard mod 2 ^ 32)%Z in
      shard ← (if (m =? 0)%Z then Panic "integer divide by zero" else Ret (h mod m)%Z);
      shards ← defaultPartitioner rows nshard;
      Ret (shard :: shards)
  end.

Definition Partitioner_of (p : partitioner) : Partitioner :=
  default defaultPartitioner (p_partitioner p).

(** * Pipelines *)

Fixpoint slice_size (s : Slice) : nat :=
  match s with
  | constSlice _ _ _ _ _ | readerFuncSlice _ _ _ _ _ _ | readCacheSlice _ _ _ _ _ => 1
  | writerFuncSlice _ _ s _ | mapSlice _ _ _ s _ | filterSlice _ _ _ s _
  | flatmapSlice _ _ _ s _ _ | foldSlice _ _ s _ _ | headSlice _ _ s _ | scanSlice _ _ s _
  | prefixSlice _ _ s _ | reduceSlice _ s _ _ | reshuffleSlice _ _ _ s | reshardSlice _ _ _ s
  | cacheSlice _ _ s _ | Result _ s _ => S (slice_size s)
  | cogroupSlice _ _ ss _ _ _ => S (foldr (λ s n, slice_size s + n) 0 ss)
  end.

Fixpoint pipeline (fuel : nat) (slice : Slice) : outcome (list Slice) :=
  match fuel with
  | 0 => NoFuel
  | S fuel =>
      match Unwrap slice with
      | Result _ _ _ => Ret []
      | _ =>
          if negb (NumDep slice =? 1)%Z then Ret [slice]
          else
            dep ← SDep slice 0;
            if d_Shuffle dep then Ret [slice]
            else if match pragma_of (d_Slice dep) with Some p => Materialize p | None => false end
            then Ret [slice]
            else rest ← pipeline fuel (d_Slice dep); Ret (slice :: rest)
      end
  end.

(** * The compiler *)

Record compiler := mkCompiler {
  c_tasks : gmap nat cTask;
  c_next : nat;
  c_namer : gmap string Z;
  c_memo : gmap (nat * Z) (list nat);
  c_env : CompileEnv;
}.

(** Computations that update the compiler, and may return an error. *)
Definition CM (A : Type) : Type := compiler → outcome (compiler * (A + error)).

#[export] Instance CM_ret : MRet CM := λ A a c, Ret (c, inl a).
#[export] Instance CM_bind : MBind CM := λ A B k m c,
  '(c, r) ← m c;
  match r with inl a => k a c | inr e => Ret (c, inr e) end.

Definition fail {A} (e : error) : CM A := λ c, Ret (c, inr e).
Definition lift {A} (o : outcome A) : CM A := λ c, a ← o; Ret (c, inl a).
Definition gets {A} (f : compiler → A) : CM A := λ c, Ret (c, inl (f c)).

Definition with_tasks (f : gmap nat cTask → gmap nat cTask) (c : compiler) : compiler :=
  mkCompiler (f (c_tasks c)) (c_next c) (c_namer c) (c_memo c) (c_env c).

(** Dereference of a task pointer. *)
Definition get_task (t : nat) : CM cTask := λ c,
  match c_tasks c !! t with
  | Some T => Ret (c, inl T)
  | None => Panic "invalid memory address or nil pointer dereference"
  end.
Definition put_task (t : nat) (T : cTask) : CM () := λ c,
  Ret (with_tasks <[t := T]> c, inl ()).
Definition update_task (t : nat) (f : cTask → cTask) : CM () :=
  T ← get_task t; put_task t (f T).
Definition new_task (T : cTask) : CM nat := λ c,
  Ret (mkCompiler (<[c_next c := T]> (c_tasks c)) (S (c_next c)) (c_namer c) (c_memo c) (c_env c),
       inl (c_next c)).

Fixpoint for_each {A} (l : list A) (body : A → CM ()) : CM () :=
  match l with
  | [] => mret ()
  | x :: l => _ ← body x; for_each l body
  end.
Fixpoint collect {A B} (l : list A) (body : A → CM B) : CM (list B) :=
  match l with
  | [] => mret []
  | x :: l => y ← body x; ys ← collect l body; mret (y :: ys)
  end.

(** [taskNamer.New]. *)
Definition namer_New (name : string) : CM string := λ c,
  let n := default 0%Z (c_namer c !! name) in
  Ret (mkCompiler (c_tasks c) (c_next c) (<[name := (n + 1)%Z]> (c_namer c)) (c_memo c) (c_env c),
       inl (if (n =? 0)%Z then name else name +:+ decimal n)).

Definition set_env (e : CompileEnv) : CM () := λ c,
  Ret (mkCompiler (c_tasks c) (c_next c) (c_namer c) (c_memo c) e, inl ()).
Definition set_memo (key : nat * Z) (tasks : list nat) : CM () := λ c,
  Ret (mkCompiler (c_tasks c) (c_next c) (c_namer c) (<[key := tasks]> (c_memo c)) (c_env c), inl ()).

(** The invocation: its index, and its location for profiling labels. *)
Context (inv_Index : Z) (inv_Location : string) (machineCombiners : bool).

(** slicecache.Empty. *)
Definition Empty : ShardCache :=
  mkShardCache (λ _, Ret false) (λ _ r, Ret r) (λ _, Panic "always empty").

Definition shardCache_of (s : Slice) : ShardCache :=
  match Unwrap s with
  | cacheSlice _ _ _ cache => cache
  | _ => Empty
  end.

Definition Name_String (n : Name) : string :=
  nm_Op n +:+ "@" +:+ nm_File n +:+ ":" +:+ decimal (nm_Line n).
Definition pprofLabel (s : Slice) : string := Name_String (SName s) +:+ "(" +:+ inv_Location +:+ ")".

(** The Do of a cached shard, and that of a computed one, on top of the Do of
    the slices pipelined before. *)
Definition cached_Do (s : Slice) (shard : Z) : list (anyReader row) → outcome (anyReader row) :=
  λ _, r ← CacheReader (shardCache_of s) shard; Ret (pack (PprofReader r (pprofLabel s))).
Definition compute_Do (s : Slice) (shard : Z)
    (prev : option (list (anyReader row) → outcome (anyReader row))) :
    list (anyReader row) → outcome (anyReader row) :=
  λ readers,
    ins ← match prev with
          | None => Ret readers
          | Some prev => r ← prev readers; Ret [r]
          end;
    r ← SReader s shard ins;
    r ← WritethroughReader (shardCache_of s) shard r;
    Ret (pack (PprofReader r (pprofLabel s))).

(** Records that a shard is cached, in a writable environment. *)
Definition mark_cached (s : Slice) (task : nat * nat) : CM () :=
  cached ← lift (IsCached (shardCache_of s) (Z.of_nat task.1));
  if (cached : bool) then
    T ← get_task task.2;
    e ← gets c_env;
    e ← lift (MarkCached e (ct_Name T));
    set_env e
  else mret ().

(** Composes slice [s] into the task of one shard. *)
Definition pipe_shard (s : Slice) (task : nat * nat) : CM () :=
  T ← get_task task.2;
  e ← gets c_env;
  if Env_IsCached e (ct_Name T) then
    put_task task.2 (with_Deps [] (with_Do (Some (cached_Do s (Z.of_nat task.1))) T))
  else
    put_task task.2 (with_Do (Some (compute_Do s (Z.of_nat task.1) (ct_Do T))) T).

(** One round of the pipelining loop: composes slice [s] into the tasks. *)
Definition pipe_slice (tasks : list (nat * nat)) (s : Slice) : CM () :=
  w ← gets (λ c, IsWritable (c_env c));
  _ ← (if (w : bool) then for_each tasks (mark_cached s) else mret ());
  for_each tasks (pipe_shard s).

(** Dependency [i] of the last slice of the pipeline. *)
Definition compile_dep (rec : Slice → partitioner → CM (list nat)) (slice lastSlice : Slice)
    (opName : string) (tasks : list nat) (i : nat) : CM () :=
  dep ← lift (SDep lastSlice (Z.of_nat i));
  if negb (d_Shuffle dep) then
    depTasks ← rec (d_Slice dep) no_partitioner;
    if negb (length tasks =? length depTasks)%nat then lift (Panic "tasks and deptasks")
    else for_each (zip tasks depTasks) (λ '(t, d),
           update_task t (λ T, with_Deps (ct_Deps T ++ [mkTaskDep d 0 (d_Expand dep) ""]) T))
  else
    let combineKey :=
      if bool_decide (is_Some (Combiner lastSlice)) && machineCombiners then opName else "" in
    depTasks ← rec (d_Slice dep)
      (mkPartitioner (NumShard slice) (d_Partitioner dep) (Combiner lastSlice) combineKey);
    for_each (imap pair tasks) (λ '(partition, t),
      d ← lift (index depTasks 0);
      update_task t (λ T, with_Deps
        (ct_Deps T ++ [mkTaskDep d (Z.of_nat partition) (d_Expand dep) combineKey]) T)).

Definition compile_pipeline (rec : Slice → partitioner → CM (list nat)) (slice : Slice)
    (part : partitioner) : CM (list nat) :=
  slices ← lift (pipeline (slice_size slice) slice);
  let ops := ("inv" +:+ decimal inv_Index) :: (nm_Op ∘ SName <$> reverse slices) in
  let pragmas := Pragmas (omap pragma_of (reverse slices)) in
  opName ← namer_New (String.concat "_" ops);
  _ ← (if (NumShard slice <? 0)%Z then lift (Panic "makeslice: len out of range") else mret ());
  let n := Z.to_nat (NumShard slice) in
  slice0 ← lift (index slices 0);
  tasks ← collect (seq 0 n) (λ i,
    new_task (mkCTask (typ_of slice0) (mkTaskName inv_Index opName (Z.of_nat i) (Z.of_nat n))
      None [] (Some (Partitioner_of part)) (NumPartition part) (p_Combiner part)
      (p_CombineKey part) pragmas [] []));
  lastSlice ← lift (index slices (Z.of_nat (length slices) - 1));
  _ ← for_each (seq 0 (Z.to_nat (NumDep lastSlice)))
        (compile_dep rec slice lastSlice opName tasks);
  _ ← for_each (reverse slices) (pipe_slice (imap pair tasks));
  _ ← for_each tasks (λ t, update_task t (with_Slices slices));
  mret tasks.

(** Tasks of a previous invocation: reused, or re-shuffled by new tasks. *)
Definition compile_result (slice : Slice) (part : partitioner) (rtasks : list nat) : CM (list nat) :=
  _ ← for_each rtasks (λ t,
        T ← get_task t;
        match ct_Combiner T with
        | Some _ => fail (Err Other "cannot reuse task with combine key")
        | None => mret ()
        end);
  if negb (IsShuffle part) then mret rtasks
  else
    t0 ← lift (index rtasks 0);
    T0 ← get_task t0;
    shuffleOpName ← namer_New (tn_Op (ct_Name T0) +:+ "_shuffle");
    collect (imap pair rtasks) (λ '(shard, t),
      T ← get_task t;
      new_task (mkCTask (typ_of slice)
        (mkTaskName inv_Index shuffleOpName (Z.of_nat shard) (Z.of_nat (length rtasks)))
        (Some (λ readers, index readers 0)) [mkTaskDep t 0 false ""] None 0 None ""
        (ct_Pragma T) (ct_Slices T) [])).

Fixpoint compile_slice (fuel : nat) (slice : Slice) (part : partitioner) : CM (list nat) :=
  match fuel with
  | 0 => lift NoFuel
  | S fuel =>
      let memoized := bool_decide (p_Combiner part = None) && bool_decide (p_partitioner part = None) in
      let key := (ptr_of slice, p_numPartition part) in
      memo ← gets (λ c, if memoized then c_memo c !! key else None);
      match memo with
      | Some tasks => mret tasks
      | None =>
          tasks ← match Unwrap slice with
                  | Result _ _ rtasks => compile_result slice part rtasks
                  | _ => compile_pipeline (compile_slice fuel) slice part
                  end;
          _ ← (if IsShuffle part then for_each tasks (λ t, update_task t (with_Group tasks))
               else mret ());
          _ ← (if memoized then set_memo key tasks else mret ());
          mret tasks
      end
  end.

(** [compile]: a new compiler over the tasks of earlier invocations. *)
Definition compile (env : CompileEnv) (tasks : gmap nat cTask) (next : nat) (slice : Slice) :
    outcome (compiler * (list nat + error)) :=
  compile_slice (S (slice_size slice)) slice no_partitioner
    (mkCompiler tasks next ∅ ∅ env).
End compile.
