(* ===== verification/CompileSpec.v ===== *)
(** What compilation produces (src/exec/compile.go): the relation [compiled]
    between a slice and its tasks, and the proof that the compiler of
    Compile.v establishes it, for slices that are not read from a cache. *)
From S2P Require Import Prelude Types SliceIO Slices Readers Task Compile.

#[local] Set Warnings "-level-tolerance,-register-all".

(** * Structure of slices *)

Definition is_Result (s : Slice) : Prop :=
  match Unwrap s with Result _ _ _ => True | _ => False end.
#[export] Instance is_Result_dec s : Decision (is_Result s).
Proof. unfold is_Result. destruct (Unwrap s); apply _. Defined.

Lemma foldr_size_lookup (ss : list Slice) i s :
  ss !! i = Some s → slice_size s ≤ foldr (λ s n, slice_size s + n) 0 ss.
Proof.
  revert i. induction ss as [|s' ss IH]; intros [|i]; simpl; [done..| |].
  - intros [= ->]. lia.
  - intros Hi%IH. lia.
Qed.

(** Every dependency that a slice declares can be read, and is smaller. *)
Lemma SDep_total s (i : nat) :
  (Z.of_nat i < NumDep s)%Z →
  ∃ d, SDep s (Z.of_nat i) = Ret d ∧ slice_size (d_Slice d) < slice_size s.
Proof.
  induction s; simpl; intros Hi; try lia;
    try (assert (i = 0) as -> by lia; eexists; (split; [done|simpl; lia]));
    try (match goal with IH : _ → ∃ d, _ |- _ =>
           destruct (IH Hi) as (d & -> & ?); exists d; split; [done|lia] end).
  destruct (lookup_lt_is_Some_2 slices i) as [s Hs]; [lia|].
  rewrite index_lookup, Hs. simpl. eexists. split; [done|]. simpl.
  apply foldr_size_lookup in Hs. lia.
Qed.

(** A slice has the shards of the slice it is pipelined with. *)
Lemma SDep_NumShard s i d :
  SDep s i = Ret d → d_Shuffle d = false → NumShard (d_Slice d) = NumShard s.
Proof.
  assert (∀ s i sh d, singleDep i s sh = Ret d → d_Slice d = s) as Hsingle.
  { intros s' i' sh d'. unfold singleDep. case_match; [|done]. by intros [= <-]. }
  induction s; simpl; intros Hd Hsh; try done; try (by apply Hsingle in Hd as ->);
    try (by simplify_eq); try (by auto).
  apply outcome_bind_Ret in Hd as (? & _ & [= <-]). done.
Qed.

(** Consecutive slices of a pipeline: [b] is the dependency of [a]. *)
Definition feeds (a b : Slice) : Prop :=
  ∃ d, SDep a 0 = Ret d ∧ NumDep a = 1%Z ∧ d_Shuffle d = false ∧ d_Slice d = b.

Fixpoint chain (slices : list Slice) : Prop :=
  match slices with
  | a :: (b :: _) as rest => feeds a b ∧ chain rest
  | _ => True
  end.

Lemma pipeline_spec fuel s :
  slice_size s ≤ fuel →
  ∃ slices, pipeline fuel s = Ret slices ∧ chain slices ∧
    (if decide (is_Result s) then slices = [] else ∃ rest, slices = s :: rest) ∧
    Forall (λ s', ¬ is_Result s') slices.
Proof.
  revert s. induction fuel as [|fuel IH]; intros s Hf; [by destruct s; simpl in Hf; lia|].
  assert (∀ A (x y : A), match Unwrap s with Result _ _ _ => x | _ => y end =
    if decide (is_Result s) then x else y) as Hm.
  { intros A x y. case_decide as E; unfold is_Result in E; by destruct (Unwrap s). }
  cbn [pipeline]. rewrite Hm. case_decide as HR; [by exists []|].
  assert (∃ slices, Ret [s] = Ret slices ∧ chain slices ∧ (∃ rest, slices = s :: rest) ∧
    Forall (λ s', ¬ is_Result s') slices) as Hone.
  { exists [s]. split_and!; [done|done|by exists []|by repeat constructor]. }
  destruct (Z.eqb_spec (NumDep s) 1) as [Hn|Hn]; simpl; [|done].
  destruct (SDep_total s 0) as (d & Hd & Hlt); [lia|].
  change (Z.of_nat 0) with 0%Z in Hd. rewrite Hd. cbn [mbind outcome_bind].
  destruct (d_Shuffle d) eqn:Hsh; [done|].
  destruct (match pragma_of (d_Slice d) with Some p => Materialize p | None => false end); [done|].
  destruct (IH (d_Slice d)) as (rest & -> & Hch & Hh & HF); [lia|]. simpl.
  exists (s :: rest). split_and!; [done| |by eauto|by constructor].
  case_decide; [by subst|]. destruct Hh as [rest' ->]. simpl. split; [by exists d|done].
Qed.

(** * Runs of the compiler *)

(** [m] returns without an error, with a state and a result that satisfy [Q]. *)
Definition wp {A} (m : CM A) (c : compiler) (Q : compiler → A → Prop) : Prop :=
  ∃ c' a, m c = Ret (c', inl a) ∧ Q c' a.

Section wp.
Context {A B : Type}.
Implicit Types (m : CM A) (k : A → CM B) (c : compiler).

Lemma wp_ret (a : A) c (Q : compiler → A → Prop) : Q c a → wp (mret a) c Q.
Proof. intros. by exists c, a. Qed.

Lemma wp_bind m k c Q : wp m c (λ c' a, wp (k a) c' Q) → wp (m ≫= k) c Q.
Proof.
  intros (c1 & a & Hm & c2 & b & Hk & HQ). exists c2, b. split; [|done].
  unfold mbind, CM_bind. by rewrite Hm.
Qed.

Lemma wp_mono m c (Q Q' : compiler → A → Prop) :
  wp m c Q → (∀ c' a, Q c' a → Q' c' a) → wp m c Q'.
Proof. intros (c' & a & ? & ?) HQ. exists c', a. eauto. Qed.

Lemma wp_lift (o : outcome A) a c (Q : compiler → A → Prop) : o = Ret a → Q c a → wp (lift o) c Q.
Proof. intros -> ?. by exists c, a. Qed.

Lemma wp_gets (f : compiler → A) c (Q : compiler → A → Prop) : Q c (f c) → wp (gets f) c Q.
Proof. intros. by exists c, (f c). Qed.
End wp.

Lemma wp_get_task t T c Q : c_tasks c !! t = Some T → Q c T → wp (get_task t) c Q.
Proof. intros HT ?. exists c, T. split; [|done]. unfold get_task. by rewrite HT. Qed.

Lemma wp_for_each_noop {A} (l : list A) (body : A → CM ()) c (Q : compiler → () → Prop) :
  (∀ x, x ∈ l → body x c = Ret (c, inl ())) → Q c () → wp (for_each l body) c Q.
Proof.
  intros Hb HQ. induction l as [|x l IH]; [by apply wp_ret|]. apply wp_bind.
  exists c, (). split; [apply Hb; set_solver|]. apply IH. intros y Hy. apply Hb. set_solver.
Qed.

(** A loop with an invariant that counts the iterations. *)
Lemma wp_for_each {A} (I : nat → compiler → Prop) (l : list A) (body : A → CM ()) c i :
  I i c →
  (∀ j x c, l !! j = Some x → I (i + j) c → wp (body x) c (λ c' _, I (i + S j) c')) →
  wp (for_each l body) c (λ c' _, I (i + length l) c').
Proof.
  revert i c. induction l as [|x l IH]; intros i c HI Hstep; simpl.
  { apply wp_ret. by rewrite Nat.add_0_r. }
  apply wp_bind. eapply wp_mono; [apply (Hstep 0); [done|by rewrite Nat.add_0_r]|].
  intros c1 [] HI1. rewrite <-Nat.add_succ_comm.
  apply (IH (S i)); [by replace (S i) with (i + 1) by lia|].
  intros j y c2 Hj HI2. replace (S i + S j) with (i + S (S j)) by lia.
  apply Hstep; [done|]. by replace (i + S j) with (S i + j) by lia.
Qed.

(** Everything but the tasks is as before. *)
Definition same_but_tasks (c c' : compiler) : Prop :=
  c_next c' = c_next c ∧ c_memo c' = c_memo c ∧ c_namer c' = c_namer c ∧ c_env c' = c_env c.

(** The tasks [ts] are [F 0], [F 1], ... *)
Definition holds (c : compiler) (ts : list nat) (F : nat → cTask) : Prop :=
  ∀ i t, ts !! i = Some t → c_tasks c !! t = Some (F i).

(** A loop that updates each task of a list. *)
Lemma update_stage {A} (xs : list A) (tof : A → nat) ts F f (body : A → CM ()) c :
  tof <$> xs = ts → NoDup ts → holds c ts F →
  (∀ i x c', xs !! i = Some x → c_env c' = c_env c →
     body x c' = update_task (tof x) (f i) c') →
  wp (for_each xs body) c (λ c' _, same_but_tasks c c' ∧ holds c' ts (λ i, f i (F i)) ∧
    ∀ t, t ∉ ts → c_tasks c' !! t = c_tasks c !! t).
Proof.
  intros <-. revert c F f. induction xs as [|x xs IH]; intros c F f Hnd Hh Hb; simpl.
  { apply wp_ret. split_and!; [done..|]. by intros [|i] t. }
  rewrite fmap_cons in Hnd, Hh. apply list.NoDup_cons in Hnd as [Hx Hnd].
  apply wp_bind. exists (with_tasks <[tof x := f 0 (F 0)]> c), (). split.
  { rewrite (Hb 0) by done. unfold update_task, mbind, CM_bind, get_task.
    pose proof (Hh 0 (tof x) eq_refl) as HF. rewrite HF. done. }
  destruct (IH (with_tasks <[tof x := f 0 (F 0)]> c) (F ∘ S) (f ∘ S))
    as (c' & u & Hrun & (Hs1 & Hs2 & Hs3 & Hs4) & Hh' & Hpres); [done| | |].
  - intros i t Hi. simpl. rewrite lookup_insert_ne; [by apply (Hh (S i))|].
    intros E. apply Hx. rewrite E. by eapply list_elem_of_lookup_2.
  - intros i y c' Hi He. by apply (Hb (S i)).
  - exists c', u. split; [done|]. split_and!; [by split_and!| |].
    + intros [|i] t Hi; simpl in Hi; [|by apply Hh'].
      simplify_eq. rewrite Hpres by done. simpl. by rewrite lookup_insert_eq.
    + intros t Ht. rewrite Hpres by set_solver. simpl. rewrite lookup_insert_ne; [done|set_solver].
Qed.

(** Allocation of a list of tasks. *)
Lemma wp_collect_new {A} (xs : list A) (body : A → CM nat) (F : nat → cTask) c :
  (∀ t, is_Some (c_tasks c !! t) → t < c_next c) →
  (∀ i x c', xs !! i = Some x → (∀ t, t < c_next c → c_tasks c' !! t = c_tasks c !! t) →
     body x c' = new_task (F i) c') →
  wp (collect xs body) c (λ c' ts, ts = seq (c_next c) (length xs) ∧ holds c' ts F ∧
    c_next c' = c_next c + length xs ∧ c_memo c' = c_memo c ∧ c_env c' = c_env c ∧
    (∀ t, t < c_next c → c_tasks c' !! t = c_tasks c !! t) ∧
    (∀ t, is_Some (c_tasks c' !! t) → is_Some (c_tasks c !! t) ∨ t ∈ ts)).
Proof.
  intros Hdom Hb.
  cut (∀ c', (∀ t, t < c_next c → c_tasks c' !! t = c_tasks c !! t) → c_next c ≤ c_next c' →
    (∀ t, is_Some (c_tasks c' !! t) → t < c_next c') →
    wp (collect xs body) c' (λ c'' ts, ts = seq (c_next c') (length xs) ∧ holds c'' ts F ∧
    c_next c'' = c_next c' + length xs ∧ c_memo c'' = c_memo c' ∧ c_env c'' = c_env c' ∧
    (∀ t, t < c_next c' → c_tasks c'' !! t = c_tasks c' !! t) ∧
    (∀ t, is_Some (c_tasks c'' !! t) → is_Some (c_tasks c' !! t) ∨ t ∈ ts))).
  { intros Hc. by apply Hc. }
  clear Hdom. revert F Hb. induction xs as [|x xs IH]; intros F Hb c' Hpre Hle Hdom; simpl.
  { apply wp_ret. split_and!; [done|by intros [|]|lia|done..|by auto]. }
  apply wp_bind. eexists _, _. split; [by rewrite (Hb 0)|].
  set (c1 := mkCompiler _ _ _ _ _). apply wp_bind.
  eapply wp_mono; [apply (IH (F ∘ S))|].
  - intros i y c2 Hi Hc2. by apply (Hb (S i)).
  - intros t Ht. simpl. rewrite lookup_insert_ne by lia. by apply Hpre.
  - simpl. lia.
  - intros t. simpl. destruct (decide (t = c_next c')) as [->|]; [lia|].
    rewrite lookup_insert_ne by done. intros ?%Hdom. lia.
  - intros c2 ts (-> & Hh & Hn & Hm & He & Hold & Hnew). apply wp_ret. simpl in *. split_and!.
    + done.
    + intros [|i] t Hi; simpl in Hi; [|by apply Hh]. simplify_eq.
      rewrite Hold by lia. by rewrite lookup_insert_eq.
    + lia.
    + done.
    + done.
    + intros t Ht. rewrite Hold by lia. by rewrite lookup_insert_ne by lia.
    + intros t [Ht|Ht]%Hnew; [|set_solver]. destruct (decide (t = c_next c')) as [->|]; [set_solver|].
      rewrite lookup_insert_ne in Ht by done. by left.
Qed.

(** * The specification *)

Section spec.
Context (frame_Hash : row → outcome Z).
Context (SReader : Slice → Z → list (anyReader row) → outcome (anyReader row)).
Context (inv_Index : Z) (inv_Location : string) (machineCombiners : bool).

(** The composition of the readers of a pipeline, the last slice first. *)
Definition do_of (slices : list Slice) (shard : nat) :
    option (list (anyReader row) → outcome (anyReader row)) :=
  fold_left (λ prev s, Some (compute_Do SReader inv_Location s (Z.of_nat shard) prev)) slices None.

Definition combineKey (last : Slice) (opName : string) : string :=
  if bool_decide (is_Some (Combiner last)) && machineCombiners then opName else "".

(** How the tasks of a dependency partition their output. *)
Definition dep_part (slice last : Slice) (opName : string) (d : Dep) : partitioner :=
  if d_Shuffle d
  then mkPartitioner (NumShard slice) (d_Partitioner d) (Combiner last) (combineKey last opName)
  else no_partitioner.

(** The edge of shard [i] to a dependency: the same shard, or partition [i] of
    all shards. *)
Definition dep_edge (last : Slice) (opName : string) (i : nat) (d : Dep) (dts : list nat) : TaskDep :=
  if d_Shuffle d
  then mkTaskDep (default 0 (dts !! 0)) (Z.of_nat i) (d_Expand d) (combineKey last opName)
  else mkTaskDep (default 0 (dts !! i)) 0 (d_Expand d) "".

Definition task_of (slice : Slice) (part : partitioner) (slices : list Slice) (last : Slice)
    (opName : string) (deps : list Dep) (dtss : list (list nat)) (group : list nat) (i : nat) : cTask :=
  mkCTask (typ_of slice)
    (mkTaskName inv_Index opName (Z.of_nat i) (Z.of_nat (Z.to_nat (NumShard slice))))
    (do_of (reverse slices) i)
    (zip_with (dep_edge last opName i) deps dtss)
    (Some (Partitioner_of frame_Hash part)) (NumPartition part) (p_Combiner part) (p_CombineKey part)
    (Pragmas (omap pragma_of (reverse slices))) slices group.

Definition reshuffle_task (slice : Slice) (opName : string) (ts rtasks : list nat) (i r : nat)
    (R : cTask) : cTask :=
  mkCTask (typ_of slice) (mkTaskName inv_Index opName (Z.of_nat i) (Z.of_nat (length rtasks)))
    (Some (λ readers, index readers 0)) [mkTaskDep r 0 false ""] None 0 None ""
    (ct_Pragma R) (ct_Slices R) ts.

(** [ts] are the tasks of [slice] with the output partitioning [part], all of
    them finished: none is in [P]. *)
Inductive compiled (P : gset nat) (c : compiler) : Slice → partitioner → list nat → Prop :=
| compiled_reuse slice part p s rtasks :
    Unwrap slice = Result p s rtasks → IsShuffle part = false →
    (∀ t, t ∈ rtasks → t ∉ P ∧ is_Some (c_tasks c !! t)) →
    compiled P c slice part rtasks
| compiled_reshuffle slice part p s rtasks opName ts :
    Unwrap slice = Result p s rtasks → IsShuffle part = true →
    NoDup ts → length ts = length rtasks →
    (∀ i t r, ts !! i = Some t → rtasks !! i = Some r →
       t ∉ P ∧ r ∉ P ∧ ∃ R, c_tasks c !! r = Some R ∧
         c_tasks c !! t = Some (reshuffle_task slice opName ts rtasks i r R)) →
    compiled P c slice part ts
| compiled_tasks slice part slices last opName deps dtss ts :
    ¬ is_Result slice → pipeline (slice_size slice) slice = Ret slices →
    list.last slices = Some last →
    NoDup ts → length ts = Z.to_nat (NumShard slice) →
    length deps = Z.to_nat (NumDep last) → length dtss = length deps →
    (∀ j d, deps !! j = Some d → SDep last (Z.of_nat j) = Ret d) →
    (∀ j d dts, deps !! j = Some d → dtss !! j = Some dts →
       compiled P c (d_Slice d) (dep_part slice last opName d) dts ∧
       length dts = Z.to_nat (NumShard (d_Slice d))) →
    (∀ i t, ts !! i = Some t → t ∉ P ∧ c_tasks c !! t =
       Some (task_of slice part slices last opName deps dtss (if IsShuffle part then ts else []) i)) →
    compiled P c slice part ts.

Section compiled_ind.
Context (P : gset nat) (c : compiler) (Φ : Slice → partitioner → list nat → Prop).
Hypothesis Hreuse : ∀ slice part p s rtasks,
  Unwrap slice = Result p s rtasks → IsShuffle part = false →
  (∀ t, t ∈ rtasks → t ∉ P ∧ is_Some (c_tasks c !! t)) → Φ slice part rtasks.
Hypothesis Hreshuffle : ∀ slice part p s rtasks opName ts,
  Unwrap slice = Result p s rtasks → IsShuffle part = true →
  NoDup ts → length ts = length rtasks →
  (∀ i t r, ts !! i = Some t → rtasks !! i = Some r →
     t ∉ P ∧ r ∉ P ∧ ∃ R, c_tasks c !! r = Some R ∧
       c_tasks c !! t = Some (reshuffle_task slice opName ts rtasks i r R)) → Φ slice part ts.
Hypothesis Htasks : ∀ slice part slices last opName deps dtss ts,
  ¬ is_Result slice → pipeline (slice_size slice) slice = Ret slices →
  list.last slices = Some last →
  NoDup ts → length ts = Z.to_nat (NumShard slice) →
  length deps = Z.to_nat (NumDep last) → length dtss = length deps →
  (∀ j d, deps !! j = Some d → SDep last (Z.of_nat j) = Ret d) →
  (∀ j d dts, deps !! j = Some d → dtss !! j = Some dts →
     Φ (d_Slice d) (dep_part slice last opName d) dts ∧
     compiled P c (d_Slice d) (dep_part slice last opName d) dts ∧
     length dts = Z.to_nat (NumShard (d_Slice d))) →
  (∀ i t, ts !! i = Some t → t ∉ P ∧ c_tasks c !! t =
     Some (task_of slice part slices last opName deps dtss (if IsShuffle part then ts else []) i)) →
  Φ slice part ts.

(** Induction on the compiled dependencies. *)
Fixpoint compiled_ind' slice part ts (H : compiled P c slice part ts) : Φ slice part ts :=
  match H with
  | compiled_reuse _ _ slice part p s rt H1 H2 H3 => Hreuse slice part p s rt H1 H2 H3
  | compiled_reshuffle _ _ slice part p s rt op ts H1 H2 H3 H4 H5 =>
      Hreshuffle slice part p s rt op ts H1 H2 H3 H4 H5
  | compiled_tasks _ _ slice part slices last op deps dtss ts H1 H2 H3 H4 H5 H6 H7 H8 H9 H10 =>
      Htasks slice part slices last op deps dtss ts H1 H2 H3 H4 H5 H6 H7 H8
        (λ j d dts Hj Hd,
           match H9 j d dts Hj Hd with
           | conj Hc Hl => conj (compiled_ind' _ _ _ Hc) (conj Hc Hl)
           end) H10
  end.
End compiled_ind.

(** Finished tasks stay what they are while other tasks are added or changed. *)
Lemma compiled_mono P P' c c' slice part ts :
  compiled P c slice part ts → P' ⊆ P →
  (∀ t T, t ∉ P → c_tasks c !! t = Some T → c_tasks c' !! t = Some T) →
  compiled P' c' slice part ts.
Proof.
  intros Hc HP Hsame. induction Hc as
    [slice part p s rt HU Hsh Hrt|slice part p s rt op ts HU Hsh Hnd Hlen Hts
    |slice part slices last op deps dtss ts HR Hp Hl Hnd Hlen Hld Hldt Hdeps IH Hts]
    using compiled_ind'.
  - eapply compiled_reuse; [done..|]. intros t Ht. destruct (Hrt t Ht) as [? [T HT]].
    split; [set_solver|]. eauto.
  - eapply compiled_reshuffle; [done..|]. intros i t r Ht Hr.
    destruct (Hts i t r Ht Hr) as (? & ? & R & ? & ?). split_and!; [set_solver..|]. eauto.
  - eapply compiled_tasks; [done..| |].
    + intros j d dts Hj Hd. destruct (IH j d dts Hj Hd) as (? & ? & ?). done.
    + intros i t Ht. destruct (Hts i t Ht). split; [set_solver|]. by apply Hsame.
Qed.

(** New tasks are not among the finished ones. *)
Lemma compiled_grow P X c slice part ts :
  compiled P c slice part ts → (∀ t, t ∈ X → c_tasks c !! t = None) →
  compiled (P ∪ X) c slice part ts.
Proof.
  intros Hc HX.
  assert (∀ t T, t ∉ P → c_tasks c !! t = Some T → t ∉ P ∪ X) as Hnot.
  { intros t T ? HT [|Hin]%elem_of_union; [done|]. apply HX in Hin. by rewrite Hin in HT. }
  induction Hc as
    [slice part p s rt HU Hsh Hrt|slice part p s rt op ts HU Hsh Hnd Hlen Hts
    |slice part slices last op deps dtss ts HR Hp Hl Hnd Hlen Hld Hldt Hdeps IH Hts]
    using compiled_ind'.
  - eapply compiled_reuse; [done..|]. intros t Ht. destruct (Hrt t Ht) as [? [T HT]]. eauto.
  - eapply compiled_reshuffle; [done..|]. intros i t r Ht Hr.
    destruct (Hts i t r Ht Hr) as (? & ? & R & ? & ?). split_and!; eauto.
  - eapply compiled_tasks; [done..| |].
    + intros j d dts Hj Hd. destruct (IH j d dts Hj Hd) as (? & ? & ?). done.
    + intros i t Ht. destruct (Hts i t Ht). split; [|done]. eauto.
Qed.

(** * The compiler meets its specification *)

Context (root : Slice) (base : compiler).

(** The slices that compilation visits. *)
Inductive sub : Slice → Prop :=
| sub_root : sub root
| sub_dep s i d : sub s → ¬ is_Result s → (0 <= i < NumDep s)%Z → SDep s i = Ret d → sub (d_Slice d).

(** How the tasks of a slice may be asked to partition their output: not at
    all, or as a dependent slice needs it. *)
Definition asked (s : Slice) (part : partitioner) : Prop :=
  part = no_partitioner ∨
  ∃ top last op (j : nat) d, sub last ∧ ¬ is_Result last ∧ (Z.of_nat j < NumDep last)%Z ∧
    SDep last (Z.of_nat j) = Ret d ∧ d_Slice d = s ∧ NumShard top = NumShard last ∧
    part = dep_part top last op d.

(** What the operators of package bigslice and earlier invocations guarantee:
    addresses identify slices, there is at least one shard, and the tasks of a
    result exist, one per shard, and combine nothing.  No shard is cached. *)
Record input_ok : Prop := {
  in_ptr : ∀ s1 s2, sub s1 → sub s2 → ptr_of s1 = ptr_of s2 → s1 = s2;
  in_shard : ∀ s, sub s → (1 <= NumShard s)%Z;
  in_cache : ∀ s i, sub s → IsCached (shardCache_of s) i = Ret false;
  in_result : ∀ s p s' rtasks, sub s → Unwrap s = Result p s' rtasks →
    Z.of_nat (length rtasks) = NumShard s ∧ NoDup rtasks ∧
    ∀ t, t ∈ rtasks → ∃ T, c_tasks base !! t = Some T ∧ ct_Combiner T = None;
  in_heap : ∀ t, is_Some (c_tasks base !! t) ↔ t < c_next base;
  in_env : TaskCached (c_env base) = ∅;
  in_memo : c_memo base = ∅;
}.
Hypothesis IN : input_ok.

(** The state during compilation; [P] are the tasks being built. *)
Record Inv (P : gset nat) (c : compiler) : Prop := {
  inv_heap : ∀ t, is_Some (c_tasks c !! t) ↔ t < c_next c;
  inv_env : c_env c = c_env base;
  inv_old : ∀ t, t < c_next base → c_tasks c !! t = c_tasks base !! t;
  inv_next : c_next base ≤ c_next c;
  inv_P : ∀ t, t ∈ P → c_next base ≤ t < c_next c;
  inv_memo : ∀ p np ts, c_memo c !! (p, np) = Some ts →
    ∃ s, ptr_of s = p ∧ sub s ∧ compiled P c s (mkPartitioner np None None "") ts ∧
      length ts = Z.to_nat (NumShard s);
  inv_all : ∀ t, c_next base ≤ t < c_next c → t ∈ P ∨
    ∃ s part ts, sub s ∧ asked s part ∧ compiled P c s part ts ∧ t ∈ ts ∧ length ts = Z.to_nat (NumShard s);
}.

(** Tasks are only added. *)
Definition ext (c c' : compiler) : Prop :=
  c_next c ≤ c_next c' ∧ ∀ t, t < c_next c → c_tasks c' !! t = c_tasks c !! t.

Lemma ext_refl c : ext c c.
Proof. by split. Qed.
Lemma ext_trans c1 c2 c3 : ext c1 c2 → ext c2 c3 → ext c1 c3.
Proof.
  intros [? H1] [? H2]. split; [lia|]. intros t Ht. rewrite H2, H1 by lia. done.
Qed.

Lemma ext_holds P c c' ts F : Inv P c → ext c c' → holds c ts F → holds c' ts F.
Proof.
  intros HI [_ Hx] Hh i t Hi. rewrite Hx; [by apply Hh|].
  apply (inv_heap P c HI). rewrite (Hh i t Hi). by eexists.
Qed.

Lemma ext_compiled P c c' s part ts :
  Inv P c → ext c c' → compiled P c s part ts → compiled P c' s part ts.
Proof.
  intros HI [_ Hx] Hc. eapply compiled_mono; [done..|]. intros t T _ HT. rewrite Hx; [done|].
  apply (inv_heap P c HI). by eexists.
Qed.

(** Changing tasks under construction keeps the invariant. *)
Lemma Inv_update P c c' (ts : list nat) :
  Inv P c → same_but_tasks c c' → (∀ t, t ∈ ts → t ∈ P ∧ is_Some (c_tasks c' !! t)) →
  (∀ t, t ∉ ts → c_tasks c' !! t = c_tasks c !! t) → Inv P c'.
Proof.
  intros HI (Hn & Hm & _ & He) Hts Hpres.
  assert (∀ s part us, compiled P c s part us → compiled P c' s part us) as Hmono.
  { intros s part us Hc. eapply compiled_mono; [done..|]. intros t T Ht HT.
    rewrite Hpres; [done|]. intros Hin. by apply Hts in Hin as [? _]. }
  split.
  - intros t. rewrite Hn, <-(inv_heap _ _ HI). destruct (decide (t ∈ ts)) as [Hin|Hin].
    + destruct (Hts t Hin) as [HtP HS]. apply (inv_P _ _ HI) in HtP.
      split; [|done]. intros _. apply (inv_heap _ _ HI). lia.
    + by rewrite Hpres.
  - by rewrite He, (inv_env _ _ HI).
  - intros t Ht. rewrite Hpres; [by apply (inv_old _ _ HI)|]. intros Hin.
    apply Hts in Hin as [Hin _]. apply (inv_P _ _ HI) in Hin. lia.
  - rewrite Hn. apply (inv_next _ _ HI).
  - rewrite Hn. apply (inv_P _ _ HI).
  - intros p np us. rewrite Hm. intros Hu. destruct (inv_memo _ _ HI p np us Hu) as (s & ? & ? & ? & ?).
    eauto 10.
  - intros t. rewrite Hn. intros Ht. destruct (inv_all _ _ HI t Ht) as [|(s & part & us & ? & ? & ? & ? & ?)];
      [by left|right; eauto 10].
Qed.

(** New tasks enter under construction. *)
Lemma Inv_alloc P c c' (ts : list nat) :
  Inv P c → ts = seq (c_next c) (length ts) → c_next c' = c_next c + length ts →
  c_memo c' = c_memo c → c_env c' = c_env c →
  (∀ t, t < c_next c → c_tasks c' !! t = c_tasks c !! t) →
  (∀ t, t ∈ ts → is_Some (c_tasks c' !! t)) →
  (∀ t, is_Some (c_tasks c' !! t) → is_Some (c_tasks c !! t) ∨ t ∈ ts) →
  Inv (P ∪ list_to_set ts) c'.
Proof.
  intros HI Hts Hn Hm He Hold Hin Hnew.
  assert (∀ t, t ∈ ts ↔ c_next c ≤ t < c_next c + length ts) as Hin_ts.
  { intros t. rewrite Hts at 1. by rewrite elem_of_seq. }
  assert (∀ s part us, compiled P c s part us → compiled (P ∪ list_to_set ts) c' s part us) as Hmono.
  { intros s part us Hc. eapply compiled_mono; [eapply (compiled_grow P (list_to_set ts))|done|].
    - done.
    - intros t. rewrite elem_of_list_to_set, Hin_ts. intros Ht.
      apply eq_None_not_Some. rewrite (inv_heap _ _ HI). lia.
    - intros t T _ HT. rewrite Hold; [done|]. apply (inv_heap _ _ HI). by eexists. }
  split.
  - intros t. rewrite Hn. split.
    + intros [HS|Ht]%Hnew; [apply (inv_heap _ _ HI) in HS; lia|apply Hin_ts in Ht; lia].
    + intros Ht. destruct (decide (t < c_next c)).
      * rewrite Hold by done. by apply (inv_heap _ _ HI).
      * apply Hin, Hin_ts. lia.
  - by rewrite He, (inv_env _ _ HI).
  - intros t Ht. pose proof (inv_next _ _ HI). rewrite Hold by lia. by apply (inv_old _ _ HI).
  - pose proof (inv_next _ _ HI). lia.
  - intros t. rewrite elem_of_union, elem_of_list_to_set, Hin_ts. pose proof (inv_next _ _ HI).
    intros [Ht|Ht]; [apply (inv_P _ _ HI) in Ht|]; lia.
  - intros p np us. rewrite Hm. intros Hu. destruct (inv_memo _ _ HI p np us Hu) as (s & ? & ? & ? & ?).
    eauto 10.
  - intros t Ht. destruct (decide (t < c_next c)).
    + destruct (inv_all _ _ HI t) as [|(s & part & us & ? & ? & ? & ? & ?)]; [lia|set_solver|].
      right. eauto 10.
    + left. rewrite elem_of_union, elem_of_list_to_set, Hin_ts. lia.
Qed.

(** Finished tasks leave construction. *)
Lemma Inv_finish P c (ts : list nat) slice part :
  Inv (P ∪ list_to_set ts) c → sub slice → asked slice part → length ts = Z.to_nat (NumShard slice) →
  compiled P c slice part ts → Inv P c.
Proof.
  intros HI Hsub Hask Hlen Hc.
  assert (∀ s part us, compiled (P ∪ list_to_set ts) c s part us → compiled P c s part us) as Hmono.
  { intros s part' us Hc'. eapply compiled_mono; [done|set_solver|done]. }
  split; try apply HI.
  - intros t Ht. apply (inv_P _ _ HI). set_solver.
  - intros p np us Hu. destruct (inv_memo _ _ HI p np us Hu) as (s & ? & ? & ? & ?). eauto 10.
  - intros t Ht. destruct (inv_all _ _ HI t Ht) as [Hin|(s & part' & us & ? & ? & ? & ? & ?)];
      [|right; eauto 10].
    apply elem_of_union in Hin as [|Hin%elem_of_list_to_set]; [by left|]. right. eauto 10.
Qed.

Lemma Inv_memo P c key ts s part :
  Inv P c → sub s → key = (ptr_of s, p_numPartition part) →
  part = mkPartitioner (p_numPartition part) None None "" →
  length ts = Z.to_nat (NumShard s) → compiled P c s part ts →
  Inv P (mkCompiler (c_tasks c) (c_next c) (c_namer c) (<[key := ts]> (c_memo c)) (c_env c)).
Proof.
  intros HI Hsub -> Hpart Hlen Hc.
  assert (∀ s part us m, compiled P c s part us →
    compiled P (mkCompiler (c_tasks c) (c_next c) (c_namer c) m (c_env c)) s part us) as Hmono.
  { intros s' part' us m Hc'. by eapply compiled_mono. }
  split; try apply HI; simpl.
  - intros p np us. rewrite lookup_insert_Some. intros [[[= <- <-] <-]|[_ Hu]].
    + exists s. split_and!; [done..| |done]. rewrite <-Hpart. by apply Hmono.
    + destruct (inv_memo _ _ HI p np us Hu) as (s' & ? & ? & ? & ?). eauto 10.
  - intros t Ht. destruct (inv_all _ _ HI t Ht) as [|(s' & part' & us & ? & ? & ? & ? & ?)];
      [by left|right; eauto 10].
Qed.

Lemma imap_pair_snd {A} (l : list A) : snd <$> imap pair l = l.
Proof.
  apply list_eq. intros i. rewrite list_lookup_fmap, list_lookup_imap. by destruct (l !! i).
Qed.

(** One round of pipelining, when no shard is cached. *)
Lemma pipe_slice_spec P c ts F s :
  Inv P c → NoDup ts → holds c ts F → (∀ t, t ∈ ts → t ∈ P) → sub s →
  wp (pipe_slice SReader inv_Location (imap pair ts) s) c (λ c' _, Inv P c' ∧ same_but_tasks c c' ∧
    holds c' ts (λ i, with_Do (Some (compute_Do SReader inv_Location s (Z.of_nat i) (ct_Do (F i)))) (F i)) ∧
    ∀ t, t ∉ ts → c_tasks c' !! t = c_tasks c !! t).
Proof.
  intros HI Hnd Hh HP Hs. unfold pipe_slice. apply wp_bind, wp_gets, wp_bind.
  assert (wp (for_each (imap pair ts) (pipe_shard SReader inv_Location s)) c (λ c' _, Inv P c' ∧ same_but_tasks c c' ∧
    holds c' ts (λ i, with_Do (Some (compute_Do SReader inv_Location s (Z.of_nat i) (ct_Do (F i)))) (F i)) ∧
    ∀ t, t ∉ ts → c_tasks c' !! t = c_tasks c !! t)) as Hloop.
  { eapply wp_mono; [apply (update_stage (imap pair ts) snd ts F
      (λ i T, with_Do (Some (compute_Do SReader inv_Location s (Z.of_nat i) (ct_Do T))) T))|].
    - apply imap_pair_snd.
    - done.
    - done.
    - intros i [j t] c' Hi He. apply list_lookup_imap_Some in Hi as (t' & Hi & [= -> ->]).
      unfold pipe_shard, update_task, get_task, mbind, CM_bind, gets. simpl.
      destruct (c_tasks c' !! t') as [T|]; [|done]. simpl.
      unfold Env_IsCached. rewrite He, (inv_env _ _ HI), (in_env IN).
      by rewrite bool_decide_false by set_solver.
    - intros c' [] (Hsame & Hh' & Hpres). refine (conj _ (conj Hsame (conj Hh' Hpres))).
      apply (Inv_update P c c' ts HI Hsame); [|exact Hpres].
      intros t Ht. split; [by apply HP|]. apply list_elem_of_lookup in Ht as [i Hi].
      rewrite (Hh' i t Hi). by eexists. }
  destruct (IsWritable (c_env c)); [|by apply wp_ret].
  apply wp_for_each_noop; [|done]. intros [i t] _.
  unfold mark_cached, mbind, CM_bind, lift. simpl. by rewrite (in_cache IN).
Qed.

(** All rounds. *)
Lemma pipe_slices_spec P c ts F (l : list Slice) :
  Inv P c → NoDup ts → holds c ts F → (∀ t, t ∈ ts → t ∈ P) → (∀ s, s ∈ l → sub s) →
  wp (for_each l (pipe_slice SReader inv_Location (imap pair ts))) c (λ c' _,
    Inv P c' ∧ same_but_tasks c c' ∧
    holds c' ts (λ i, with_Do (fold_left (λ prev s,
      Some (compute_Do SReader inv_Location s (Z.of_nat i) prev)) l (ct_Do (F i))) (F i)) ∧
    ∀ t, t ∉ ts → c_tasks c' !! t = c_tasks c !! t).
Proof.
  revert c F. induction l as [|s l IH]; intros c F HI Hnd Hh HP Hs; simpl.
  { apply wp_ret. split_and!; [done..| |done]. intros i t Hi. rewrite (Hh i t Hi).
    by destruct (F i). }
  apply wp_bind. eapply wp_mono; [apply (pipe_slice_spec P c ts F s); [done..|set_solver]|].
  intros c1 [] (HI1 & (Hn1 & Hm1 & Ha1 & He1) & Hh1 & Hp1).
  eapply wp_mono; [apply (IH c1 _ HI1 Hnd Hh1 HP); set_solver|].
  intros c2 [] (HI2 & (Hn2 & Hm2 & Ha2 & He2) & Hh2 & Hp2). split_and!; [done| | |].
  - split_and!; congruence.
  - intros i t Hi. rewrite (Hh2 i t Hi). done.
  - intros t Ht. by rewrite Hp2, Hp1.
Qed.

(** Tasks are added, and those of [ts] may change. *)
Definition ext_but (ts : list nat) (c c' : compiler) : Prop :=
  c_next c ≤ c_next c' ∧ ∀ t, t < c_next c → t ∉ ts → c_tasks c' !! t = c_tasks c !! t.

Lemma ext_but_trans ts c1 c2 c3 : ext_but ts c1 c2 → ext_but ts c2 c3 → ext_but ts c1 c3.
Proof.
  intros [? H1] [? H2]. split; [lia|]. intros t Ht ?. rewrite H2, H1 by (done || lia). done.
Qed.
Lemma ext_ext_but ts c c' : ext c c' → ext_but ts c c'.
Proof. intros [? H]. split; [done|]. intros. by apply H. Qed.

Definition part_ok (part : partitioner) : Prop := p_Combiner part = None → p_CombineKey part = "".

Lemma dep_part_ok slice last op d : part_ok (dep_part slice last op d).
Proof.
  unfold part_ok, dep_part, combineKey. destruct (d_Shuffle d); [|done]. simpl.
  intros ->. by rewrite bool_decide_false by (by intros []).
Qed.

(** The recursive calls of the compiler, on slices of size below [n]. *)
Definition rec_ok (n : nat) (rec : Slice → partitioner → CM (list nat)) : Prop :=
  ∀ P c s part, slice_size s < n → sub s → Inv P c → asked s part → part_ok part →
    wp (rec s part) c (λ c' ts, Inv P c' ∧ ext c c' ∧ compiled P c' s part ts ∧
      length ts = Z.to_nat (NumShard s)).

(** The loops that append an edge to each task. *)
Lemma add_edges_spec {A} P c (xs : list A) (tof : A → nat) ts F (edge : nat → TaskDep) (body : A → CM ()) :
  Inv P c → NoDup ts → holds c ts F → (∀ t, t ∈ ts → t ∈ P) → tof <$> xs = ts →
  (∀ i x c', xs !! i = Some x →
     body x c' = update_task (tof x) (λ T, with_Deps (ct_Deps T ++ [edge i]) T) c') →
  wp (for_each xs body) c (λ c' _, Inv P c' ∧ ext_but ts c c' ∧
    holds c' ts (λ i, with_Deps (ct_Deps (F i) ++ [edge i]) (F i)) ∧
    ∀ s part us, compiled P c s part us → compiled P c' s part us).
Proof.
  intros HI Hnd Hh HP Hxs Hbody.
  eapply wp_mono; [apply (update_stage xs tof ts F (λ i T, with_Deps (ct_Deps T ++ [edge i]) T));
    [done..|by eauto]|].
  intros c' [] (Hsame & Hh' & Hpres).
  assert (Inv P c') as HI'.
  { apply (Inv_update P c c' ts HI Hsame); [|done]. intros t Ht. split; [by apply HP|].
    apply list_elem_of_lookup in Ht as [i Hi]. rewrite (Hh' i t Hi). by eexists. }
  split; [done|]. split; [|split; [done|]].
  - destruct Hsame as [Hn _]. split; [lia|]. intros. by apply Hpres.
  - intros s part us Hc. eapply compiled_mono; [done..|]. intros t T Ht HT.
    rewrite Hpres; [done|]. intros Hin. by apply HP in Hin.
Qed.

Lemma compile_dep_spec n rec P c slice last op ts F j d :
  rec_ok n rec → Inv P c → NoDup ts → holds c ts F → (∀ t, t ∈ ts → t ∈ P) →
  length ts = Z.to_nat (NumShard slice) → NumShard slice = NumShard last →
  sub last → ¬ is_Result last → (Z.of_nat j < NumDep last)%Z →
  SDep last (Z.of_nat j) = Ret d → sub (d_Slice d) → slice_size (d_Slice d) < n →
  wp (compile_dep machineCombiners rec slice last op ts j) c (λ c' _, ∃ dts,
    Inv P c' ∧ ext_but ts c c' ∧
    compiled P c' (d_Slice d) (dep_part slice last op d) dts ∧
    length dts = Z.to_nat (NumShard (d_Slice d)) ∧
    holds c' ts (λ i, with_Deps (ct_Deps (F i) ++ [dep_edge last op i d dts]) (F i)) ∧
    ∀ s part us, compiled P c s part us → compiled P c' s part us).
Proof.
  intros Hrec HI Hnd Hh HP Hlen Hsl Hsl' HRl Hjn Hd Hsub Hsz. unfold compile_dep.
  apply wp_bind. eapply wp_lift; [done|].
  assert (∀ part, part = dep_part slice last op d → ∀ k : list nat → CM (), (∀ c1 dts,
    Inv P c1 → ext c c1 → holds c1 ts F →
    compiled P c1 (d_Slice d) (dep_part slice last op d) dts →
    length dts = Z.to_nat (NumShard (d_Slice d)) →
    wp (k dts) c1 (λ c' _, Inv P c' ∧ ext_but ts c1 c' ∧
      holds c' ts (λ i, with_Deps (ct_Deps (F i) ++ [dep_edge last op i d dts]) (F i)) ∧
      ∀ s part us, compiled P c1 s part us → compiled P c' s part us)) →
    wp (rec (d_Slice d) part ≫= k) c (λ c' _, ∃ dts,
      Inv P c' ∧ ext_but ts c c' ∧
      compiled P c' (d_Slice d) (dep_part slice last op d) dts ∧
      length dts = Z.to_nat (NumShard (d_Slice d)) ∧
      holds c' ts (λ i, with_Deps (ct_Deps (F i) ++ [dep_edge last op i d dts]) (F i)) ∧
      ∀ s part us, compiled P c s part us → compiled P c' s part us)) as Hcall.
  { intros part -> k Hk. apply wp_bind.
    eapply wp_mono; [apply (Hrec P c (d_Slice d)); [done..| |apply dep_part_ok]|].
    { right. by exists slice, last, op, j, d. }
    intros c1 dts (HI1 & Hx1 & Hc1 & Hl1).
    eapply wp_mono; [apply (Hk c1 dts); [done..|exact (ext_holds P c c1 ts F HI Hx1 Hh)|done|done]|].
    intros c2 [] (HI2 & Hx2 & Hh2 & Hm2). exists dts.
    split; [done|]. split; [eapply ext_but_trans; [by apply ext_ext_but|done]|].
    split; [by apply Hm2|]. split; [done|]. split; [done|].
    intros s part us Hc. apply Hm2. exact (ext_compiled P c c1 s part us HI Hx1 Hc). }
  destruct (d_Shuffle d) eqn:Hsh; cbn [negb].
  - apply Hcall; [by unfold dep_part; rewrite Hsh|]. intros c1 dts HI1 Hx1 Hh1 Hc1 Hl1.
    assert (∃ d0, dts !! 0 = Some d0) as [d0 Hd0].
    { apply lookup_lt_is_Some_2. pose proof (in_shard IN (d_Slice d) Hsub). lia. }
    apply (add_edges_spec P c1 (imap pair ts) snd ts F (λ i, dep_edge last op i d dts));
      [done..|apply imap_pair_snd|].
    intros i [i' t] c' Hi. apply list_lookup_imap_Some in Hi as (t' & Hi & [= -> ->]).
    assert (index dts 0 = Ret d0) as Hix by (destruct dts; by simplify_eq/=).
    unfold dep_edge, combineKey, mbind at 1, CM_bind at 1, lift. by rewrite Hix, Hsh, Hd0.
  - apply Hcall; [by unfold dep_part; rewrite Hsh|]. intros c1 dts HI1 Hx1 Hh1 Hc1 Hl1.
    assert (length dts = length ts) as Hl.
    { rewrite Hl1, Hlen, Hsl. by rewrite (SDep_NumShard last _ d Hd Hsh). }
    rewrite Hl, Nat.eqb_refl. cbn [negb].
    apply (add_edges_spec P c1 (zip ts dts) fst ts F (λ i, dep_edge last op i d dts));
      [done..|by rewrite fst_zip by lia|].
    intros i [t dt] c' Hi. apply lookup_zip_Some in Hi as [Ht Hdt]. simpl.
    unfold dep_edge. by rewrite Hsh, Hdt.
Qed.

Lemma NumDep_nonneg s : (0 <= NumDep s)%Z.
Proof. induction s; simpl; lia. Qed.

Lemma deps_exist s n :
  (Z.of_nat n <= NumDep s)%Z →
  ∃ deps, length deps = n ∧ ∀ j d, deps !! j = Some d →
    SDep s (Z.of_nat j) = Ret d ∧ slice_size (d_Slice d) < slice_size s.
Proof.
  induction n as [|n IH]; intros Hn; [by exists []|].
  destruct IH as (deps & Hl & Hd); [lia|].
  destruct (SDep_total s n) as (d & HS & Hsz); [lia|].
  exists (deps ++ [d]). rewrite length_app. split; [simpl; lia|].
  intros j d' [Hj|[Hj Hd']]%lookup_app_Some; [by apply Hd|].
  apply list_lookup_singleton_Some in Hd' as [Hj' <-].
  by replace j with n by lia.
Qed.

Lemma chain_spec slices s rest :
  slices = s :: rest → chain slices → sub s → Forall (λ s', ¬ is_Result s') slices →
  ∀ s', s' ∈ slices → sub s' ∧ NumShard s' = NumShard s ∧ slice_size s' ≤ slice_size s.
Proof.
  revert s rest. induction slices as [|a slices IH]; intros s rest Heq Hch Hs HF s' Hin; [done|].
  injection Heq as -> <-. apply elem_of_cons in Hin as [->|Hin]; [done|].
  destruct slices as [|b rest']; [set_solver|].
  destruct Hch as [(d & Hd & Hn & Hsh & Hdb) Hch]. subst b.
  apply Forall_cons_iff in HF as [Hres HF].
  assert (sub (d_Slice d)) as Hsd by (eapply (sub_dep s 0); [done..|lia|done]).
  destruct (IH (d_Slice d) rest' eq_refl Hch Hsd HF s' Hin) as (? & Hns & Hsz).
  destruct (SDep_total s 0) as (d' & Hd' & Hlt); [lia|].
  change (Z.of_nat 0) with 0%Z in Hd'. rewrite Hd in Hd'. injection Hd' as <-.
  split_and!; [done| |lia]. rewrite Hns. by eapply SDep_NumShard.
Qed.

(** All dependencies of the last slice. *)
Lemma compile_deps_spec n rec P c slice last op ts F deps :
  rec_ok n rec → Inv P c → NoDup ts → holds c ts F → (∀ i, ct_Deps (F i) = []) →
  (∀ t, t ∈ ts → t ∈ P) → length ts = Z.to_nat (NumShard slice) → NumShard slice = NumShard last →
  sub last → ¬ is_Result last → (Z.of_nat (length deps) <= NumDep last)%Z →
  (∀ j d, deps !! j = Some d → SDep last (Z.of_nat j) = Ret d ∧ sub (d_Slice d) ∧
     slice_size (d_Slice d) < n) →
  wp (for_each (seq 0 (length deps)) (compile_dep machineCombiners rec slice last op ts)) c (λ c' _,
    ∃ dtss, length dtss = length deps ∧ Inv P c' ∧ ext_but ts c c' ∧
    (∀ j d dts, deps !! j = Some d → dtss !! j = Some dts →
       compiled P c' (d_Slice d) (dep_part slice last op d) dts ∧
       length dts = Z.to_nat (NumShard (d_Slice d))) ∧
    holds c' ts (λ i, with_Deps (zip_with (dep_edge last op i) deps dtss) (F i))).
Proof.
  intros Hrec HI Hnd Hh HF0 HP Hlen Hsl Hsubl HRl Hnd' Hdeps.
  set (I := λ k c', ∃ dtss, length dtss = k ∧ Inv P c' ∧ ext_but ts c c' ∧
    (∀ j d dts, deps !! j = Some d → dtss !! j = Some dts →
       compiled P c' (d_Slice d) (dep_part slice last op d) dts ∧
       length dts = Z.to_nat (NumShard (d_Slice d))) ∧
    holds c' ts (λ i, with_Deps (zip_with (dep_edge last op i) (take k deps) dtss) (F i))).
  eapply wp_mono; [apply (wp_for_each I _ _ c 0)|].
  - exists []. split; [done|]. split; [done|]. split; [by split|]. split; [done|].
    intros i t Hi. rewrite (Hh i t Hi). simpl. f_equal. rewrite <-(HF0 i). by destruct (F i).
  - intros j x c1 Hj (dtss & Hl & HI1 & Hx1 & Hc1 & Hh1). simpl in *.
    apply lookup_seq in Hj as [-> Hj]. simpl.
    destruct (lookup_lt_is_Some_2 deps j Hj) as [d Hd]. destruct (Hdeps j d Hd) as (HS & Hsub & Hsz).
    eapply wp_mono; [eapply (compile_dep_spec n rec P c1 slice last op ts); [done..|lia|done|done|done]|].
    intros c2 [] (dts & HI2 & Hx2 & Hc2 & Hl2 & Hh2 & Hm2).
    exists (dtss ++ [dts]). split; [rewrite length_app; simpl; lia|]. split; [done|].
    split; [by eapply ext_but_trans|]. split.
    + intros j' d' dts' Hj' [Hdts|[Hdts Hdts']]%lookup_app_Some.
      * destruct (Hc1 j' d' dts' Hj' Hdts). split; [by apply Hm2|done].
      * apply list_lookup_singleton_Some in Hdts' as [Hj0 <-].
        replace j' with j in Hj' by lia. by simplify_eq.
    + intros i t Hi. rewrite (Hh2 i t Hi). simpl. f_equal. unfold with_Deps. simpl. f_equal.
      rewrite (take_S_r _ _ _ Hd), zip_with_app by (rewrite length_take; lia). done.
  - intros c1 [] (dtss & Hl & HI1 & Hx1 & Hc1 & Hh1). rewrite length_seq in *. simpl in *.
    exists dtss. split; [done|]. split; [done|]. split; [done|]. split; [done|].
    by rewrite take_ge in Hh1 by lia.
Qed.

(** New tasks, complete but for their group. *)
Definition built (P : gset nat) (c c' : compiler) (slice : Slice) (part : partitioner)
    (ts : list nat) : Prop :=
  Inv (P ∪ list_to_set ts) c' ∧ ext c c' ∧ (∀ t, t ∈ ts → c_next c ≤ t) ∧
  NoDup ts ∧ length ts = Z.to_nat (NumShard slice) ∧
  ∃ F : list nat → nat → cTask, holds c' ts (F []) ∧
    (∀ g i, with_Group g (F [] i) = F g i) ∧
    ∀ c'', holds c'' ts (F (if IsShuffle part then ts else [])) →
      (∀ t T, t ∉ P ∪ list_to_set ts → c_tasks c' !! t = Some T → c_tasks c'' !! t = Some T) →
      (∀ t, t ∈ ts → t ∉ P) → compiled P c'' slice part ts.

Lemma last_Some_lookup {A} (l : list A) x :
  list.last l = Some x → index l (Z.of_nat (length l) - 1) = Ret x.
Proof.
  intros Hl. assert (0 < length l) by (destruct l; [done|simpl; lia]).
  replace (Z.of_nat (length l) - 1)%Z with (Z.of_nat (length l - 1)) by lia.
  rewrite index_lookup. rewrite last_lookup in Hl.
  by replace (pred (length l)) with (length l - 1) in Hl by lia; rewrite Hl.
Qed.

Lemma compile_pipeline_spec n rec P c slice part :
  rec_ok n rec → slice_size slice ≤ n → Inv P c → sub slice → ¬ is_Result slice →
  wp (compile_pipeline frame_Hash SReader inv_Index inv_Location machineCombiners rec slice part) c
    (λ c' ts, built P c c' slice part ts).
Proof.
  intros Hrec Hn HI Hsub HR. unfold compile_pipeline.
  destruct (pipeline_spec (slice_size slice) slice) as (slices & Hp & Hch & Hhd & HF); [done|].
  rewrite decide_False in Hhd by done. destruct Hhd as [rest Hsl].
  pose proof (chain_spec slices slice rest Hsl Hch Hsub HF) as Hchain.
  destruct (list.last slices) as [lst|] eqn:Hlast; [|by apply last_None in Hlast; simplify_eq].
  destruct (Hchain lst) as (Hsublst & Hnslst & Hszlst).
  { apply last_Some in Hlast as [l' ->]. set_solver. }
  assert (¬ is_Result lst) as HRlst.
  { rewrite Forall_forall in HF. apply HF. apply list_elem_of_In.
    apply last_Some in Hlast as [l' ->]. set_solver. }
  pose proof (in_shard IN slice Hsub) as Hshard.
  set (N := Z.to_nat (NumShard slice)).
  apply wp_bind. eapply wp_lift; [exact Hp|].
  apply wp_bind. eexists _, _. split; [done|]. cbv beta.
  set (op := if (_ =? 0)%Z then _ else _). set (c0 := mkCompiler _ _ _ _ _).
  assert (Inv P c0) as HI0.
  { destruct HI as [H1 H2 H3 H4 H5 H6 H7]. split; try done.
    - intros p np ts Hts. destruct (H6 p np ts Hts) as (s & ? & ? & ? & ?). exists s.
      split_and!; [done..| |done]. by eapply compiled_mono.
    - intros t Ht. destruct (H7 t Ht) as [|(s & pa & ts & ? & ? & ? & ? & ?)]; [by left|right].
      exists s, pa, ts. split_and!; [done|done| |done..]. by eapply compiled_mono. }
  rewrite (proj2 (Z.ltb_ge _ _)) by lia. apply wp_bind, wp_ret.
  apply wp_bind. eapply wp_lift; [by rewrite Hsl|].
  apply wp_bind. eapply wp_mono;
    [apply (wp_collect_new (seq 0 N) _ (λ i, mkCTask (typ_of slice)
      (mkTaskName inv_Index op (Z.of_nat i) (Z.of_nat N)) None [] (Some (Partitioner_of frame_Hash part))
      (NumPartition part) (p_Combiner part) (p_CombineKey part)
      (Pragmas (omap pragma_of (reverse slices))) [] []))|].
  { intros t Ht. by apply (inv_heap _ _ HI0). }
  { intros i x c' [-> _]%lookup_seq _. done. }
  intros c1 ts (Hts & Hh1 & Hn1 & Hm1 & He1 & Hold1 & Hnew1).
  rewrite length_seq in Hts, Hn1.
  assert (length ts = N) as Hlts by (by rewrite Hts, length_seq).
  assert (NoDup ts) as Hnd by (rewrite Hts; apply NoDup_seq).
  assert (Inv (P ∪ list_to_set ts) c1) as HI1.
  { eapply (Inv_alloc P c0); [done|by rewrite Hlts|by rewrite Hlts|done..| |done].
    intros t [i Hi]%list_elem_of_lookup. rewrite (Hh1 i t Hi). by eexists. }
  assert (∀ t, t ∈ ts → t ∈ P ∪ list_to_set ts) as HP by set_solver.
  apply wp_bind. eapply wp_lift; [by apply last_Some_lookup|].
  destruct (deps_exist lst (Z.to_nat (NumDep lst))) as (deps & Hld & Hdeps).
  { pose proof (NumDep_nonneg lst). lia. }
  rewrite <-Hld. apply wp_bind. eapply wp_mono;
    [apply (compile_deps_spec n rec _ c1 slice lst op ts _ deps Hrec HI1 Hnd Hh1)|]; [done..| | |].
  { pose proof (NumDep_nonneg lst). lia. }
  { intros j d Hj. destruct (Hdeps j d Hj) as [HS Hsz]. split_and!; [done| |lia].
    apply (sub_dep lst (Z.of_nat j)); [done..| |done].
    apply lookup_lt_Some in Hj. pose proof (NumDep_nonneg lst). lia. }
  intros c2 [] (dtss & Hldt & HI2 & Hx2 & Hc2 & Hh2).
  apply wp_bind. eapply wp_mono;
    [apply (pipe_slices_spec _ c2 ts _ (reverse slices) HI2 Hnd Hh2 HP)|].
  { intros s Hs. rewrite elem_of_reverse in Hs. destruct (Hchain s Hs) as (Hsub' & _). exact Hsub'. }
  intros c3 [] (HI3 & Hsame3 & Hh3 & Hp3).
  apply wp_bind. eapply wp_mono;
    [eapply (update_stage ts id ts _ (λ _, with_Slices slices) _ c3); [by rewrite list_fmap_id|exact Hnd|exact Hh3|done]|].
  intros c4 [] (Hsame4 & Hh4 & Hp4). apply wp_ret.
  assert (Inv (P ∪ list_to_set ts) c4) as HI4.
  { apply (Inv_update _ c3 c4 ts HI3 Hsame4); [|done]. intros t Ht. split; [by apply HP|].
    apply list_elem_of_lookup in Ht as [i Hi]. rewrite (Hh4 i t Hi). by eexists. }
  assert (∀ t T, t ∉ P ∪ list_to_set ts → c_tasks c2 !! t = Some T → c_tasks c4 !! t = Some T) as H24.
  { intros t T Ht HT. rewrite Hp4, Hp3 by set_solver. done. }
  split; [done|]. split.
  { destruct Hx2 as [Hx2n Hx2]. destruct Hsame3 as [Hn3 _], Hsame4 as [Hn4 _].
    split; [rewrite Hn4, Hn3; simpl in *; lia|]. intros t Ht.
    assert (t ∉ ts) by (rewrite Hts, elem_of_seq; simpl; lia).
    rewrite Hp4, Hp3, Hx2, Hold1 by (done || simpl in *; lia). done. }
  split; [intros t Ht; rewrite Hts, elem_of_seq in Ht; simpl in *; lia|].
  split; [done|]. split; [done|].
  exists (λ g, task_of slice part slices lst op deps dtss g). split; [|split; [done|]].
  { intros i t Hi. rewrite (Hh4 i t Hi). done. }
  intros c5 Hh5 H45 HnP. eapply (compiled_tasks P c5 slice part slices lst op deps dtss ts);
    [done..| | |].
  - intros j d Hj. by apply Hdeps.
  - intros j d dts Hj Hd. destruct (Hc2 j d dts Hj Hd) as [Hc Hl]. split; [|done].
    eapply compiled_mono; [exact Hc|set_solver|]. intros t T Ht HT. apply H45; [done|]. by apply H24.
  - intros i t Hi. split; [apply HnP; by eapply list_elem_of_lookup_2|]. by apply Hh5.
Qed.

(** Fresh names leave the tasks alone. *)
Lemma Inv_namer P c namer :
  Inv P c → Inv P (mkCompiler (c_tasks c) (c_next c) namer (c_memo c) (c_env c)).
Proof.
  intros [H1 H2 H3 H4 H5 H6 H7]. split; try done.
  - intros p np ts Hts. destruct (H6 p np ts Hts) as (s & ? & ? & ? & ?). exists s.
    split_and!; [done..| |done]. by eapply compiled_mono.
  - intros t Ht. destruct (H7 t Ht) as [|(s & pa & ts & ? & ? & ? & ? & ?)]; [by left|right].
    exists s, pa, ts. split_and!; [done|done| |done..]. by eapply compiled_mono.
Qed.

(** The tasks of a result are those of the heap that compilation started with. *)
Lemma result_task P c slice p s rtasks t :
  Inv P c → sub slice → Unwrap slice = Result p s rtasks → t ∈ rtasks →
  ∃ T, c_tasks c !! t = Some T ∧ ct_Combiner T = None ∧ t ∉ P.
Proof.
  intros HI Hsub HU Ht. destruct (in_result IN slice p s rtasks Hsub HU) as (_ & _ & Hr).
  destruct (Hr t Ht) as (T & HT & Hc).
  assert (t < c_next base) by (apply (in_heap IN); by eexists).
  exists T. rewrite (inv_old _ _ HI) by done. split_and!; [done..|].
  intros HP. apply (inv_P _ _ HI) in HP. lia.
Qed.

Definition no_task : cTask :=
  mkCTask (New []) (mkTaskName 0 "" 0 0) None [] None 0 None "" (Pragmas []) [] [].

Lemma compile_result_shuffle P c slice part p s rtasks :
  Inv P c → sub slice → Unwrap slice = Result p s rtasks → IsShuffle part = true →
  wp (compile_result inv_Index slice part rtasks) c (λ c' ts, built P c c' slice part ts).
Proof.
  intros HI Hsub HU Hsh. destruct (in_result IN slice p s rtasks Hsub HU) as (Hlen & _ & _).
  pose proof (in_shard IN slice Hsub) as Hshard.
  unfold compile_result. apply wp_bind, wp_for_each_noop.
  { intros t Ht. destruct (result_task P c slice p s rtasks t HI Hsub HU Ht) as (T & HT & HC & _).
    unfold mbind, CM_bind, get_task. by rewrite HT; simpl; rewrite HC. }
  rewrite Hsh. cbn [negb].
  destruct (lookup_lt_is_Some_2 rtasks 0) as [t0 Ht0]; [lia|].
  destruct (result_task P c slice p s rtasks t0 HI Hsub HU) as (T0 & HT0 & _).
  { by eapply list_elem_of_lookup_2. }
  apply wp_bind. eapply wp_lift; [destruct rtasks; by simplify_eq/=|].
  apply wp_bind. eapply wp_get_task; [exact HT0|].
  apply wp_bind. eexists _, _. split; [done|]. cbv beta.
  set (op := if (_ =? 0)%Z then _ else _). set (c0 := mkCompiler _ _ _ _ _).
  assert (Inv P c0) as HI0 by (by apply Inv_namer).
  set (F := λ g i, reshuffle_task slice op g rtasks i (default 0 (rtasks !! i))
    (default no_task (c_tasks c0 !! default 0 (rtasks !! i)))).
  eapply wp_mono; [apply (wp_collect_new (imap pair rtasks) _ (F []) c0)|].
  { intros t Ht. by apply (inv_heap _ _ HI0). }
  { intros i [i' t] c' Hi Hold. apply list_lookup_imap_Some in Hi as (t' & Hi & [= -> ->]).
    destruct (result_task P c0 slice p s rtasks t' HI0 Hsub HU) as (T & HT & _).
    { by eapply list_elem_of_lookup_2. }
    assert (c_tasks c' !! t' = Some T) as HT'.
    { rewrite Hold; [exact HT|]. apply (inv_heap _ _ HI0). by eexists. }
    unfold mbind, CM_bind, get_task. rewrite HT'. unfold F. rewrite Hi. cbn [default from_option id].
    by rewrite HT. }
  intros c1 ts (Hts & Hh1 & Hn1 & Hm1 & He1 & Hold1 & Hnew1).
  rewrite length_imap in Hts, Hn1.
  assert (length ts = length rtasks) as Hlts by (by rewrite Hts, length_seq).
  assert (NoDup ts) as Hnd by (rewrite Hts; apply NoDup_seq).
  split.
  { eapply (Inv_alloc P c0); [done|by rewrite Hlts|by rewrite Hlts|done..| |done].
    intros t [i Hi]%list_elem_of_lookup. rewrite (Hh1 i t Hi). by eexists. }
  split; [split; [simpl in *; lia|done]|].
  split; [intros t Ht; rewrite Hts, elem_of_seq in Ht; simpl in *; lia|].
  split; [done|]. split; [lia|].
  exists F. split; [done|]. split; [done|]. rewrite Hsh. intros c2 Hh2 H12 HnP.
  eapply compiled_reshuffle; [done..|]. intros i t r Ht Hr.
  destruct (result_task P c0 slice p s rtasks r HI0 Hsub HU) as (R & HR & _ & HrP).
  { by eapply list_elem_of_lookup_2. }
  assert (r < c_next c0) as Hrn by (apply (inv_heap _ _ HI0); by eexists).
  split; [apply HnP; by eapply list_elem_of_lookup_2|]. split; [done|]. exists R. split.
  - apply H12; [|by rewrite Hold1]. rewrite elem_of_union, elem_of_list_to_set, Hts, elem_of_seq.
    intros [?|?]; [done|lia].
  - rewrite (Hh2 i t Ht). unfold F. rewrite Hr. cbn [default from_option id]. by rewrite HR.
Qed.

(** Setting the group and recording the tasks. *)
Lemma finish_spec P c c' slice part ts :
  Inv P c → sub slice → asked slice part → part_ok part → built P c c' slice part ts →
  let memoized := bool_decide (p_Combiner part = None) && bool_decide (p_partitioner part = None) in
  wp (_ ← (if IsShuffle part then for_each ts (λ t, update_task t (with_Group ts)) else mret ());
      _ ← (if memoized then set_memo (ptr_of slice, p_numPartition part) ts else mret ());
      mret ts) c'
    (λ c'' us, Inv P c'' ∧ ext c c'' ∧ compiled P c'' slice part us ∧
       length us = Z.to_nat (NumShard slice)).
Proof.
  intros HI Hsub Hask Hpart (HI' & Hx & Hnew & Hnd & Hlen & F & Hh & HF & Hcomp) memoized.
  assert (∀ t, t ∈ ts → t ∉ P ∧ c_next c ≤ t) as HnP.
  { intros t Ht. split; [|by apply Hnew]. intros HP. apply (inv_P _ _ HI) in HP.
    apply Hnew in Ht. lia. }
  apply wp_bind.
  assert (wp (if IsShuffle part then for_each ts (λ t, update_task t (with_Group ts)) else mret ()) c'
    (λ c2 _, Inv (P ∪ list_to_set ts) c2 ∧ ext c c2 ∧ compiled P c2 slice part ts)) as Hgroup.
  { destruct (IsShuffle part) eqn:Hsh.
    - eapply wp_mono; [eapply (update_stage ts id ts _ (λ _, with_Group ts) _ c');
        [by rewrite list_fmap_id|exact Hnd|exact Hh|done]|].
      intros c2 [] (Hsame & Hh2 & Hp2). split; [|split].
      + apply (Inv_update _ c' c2 ts HI' Hsame); [|done]. intros t Ht. split; [set_solver|].
        apply list_elem_of_lookup in Ht as [i Hi]. rewrite (Hh2 i t Hi). by eexists.
      + destruct Hsame as [Hn _]. destruct Hx as [Hxn Hx]. split; [lia|]. intros t Ht.
        rewrite Hp2; [by apply Hx|]. intros Hin. apply HnP in Hin as [_ ?]. lia.
      + apply Hcomp; [|intros t T Ht HT; rewrite Hp2 by set_solver; done|].
        * intros i t Hi. rewrite (Hh2 i t Hi), HF. done.
        * intros t Ht. by apply HnP.
    - apply wp_ret. split; [done|]. split; [done|]. apply Hcomp; [done..|].
      intros t Ht. by apply HnP. }
  eapply wp_mono; [exact Hgroup|]. intros c2 [] (HI2 & Hx2 & Hc2).
  assert (Inv P c2) as HIP by (by eapply Inv_finish).
  apply wp_bind. unfold memoized.
  destruct (bool_decide_reflect (p_Combiner part = None)) as [HC|], (bool_decide_reflect (p_partitioner part = None)) as [Hp|];
    simpl; try (apply wp_ret, wp_ret; done).
  eexists _, _. split; [done|]. apply wp_ret.
  split; [|split; [|split; [|done]]].
  - eapply (Inv_memo P c2 _ ts slice part); [done..| |done|done].
    pose proof (Hpart HC). destruct part; simpl in *; by subst.
  - done.
  - by eapply compiled_mono.
Qed.

Lemma part_plain part :
  part_ok part → p_Combiner part = None → p_partitioner part = None →
  part = mkPartitioner (p_numPartition part) None None "".
Proof. intros Hok HC. pose proof (Hok HC). destruct part; simpl in *. by intros ->; subst. Qed.

(** Reusing a result: its own tasks are returned and recorded. *)
Lemma compile_result_reuse P c slice part p s rtasks :
  Inv P c → sub slice → part_ok part → Unwrap slice = Result p s rtasks → IsShuffle part = false →
  let memoized := bool_decide (p_Combiner part = None) && bool_decide (p_partitioner part = None) in
  wp (tasks ← compile_result inv_Index slice part rtasks;
      _ ← (if memoized then set_memo (ptr_of slice, p_numPartition part) tasks else mret ());
      mret tasks) c
    (λ c' ts, Inv P c' ∧ ext c c' ∧ compiled P c' slice part ts ∧
       length ts = Z.to_nat (NumShard slice)).
Proof.
  intros HI Hsub Hok HU Hsh memoized.
  destruct (in_result IN slice p s rtasks Hsub HU) as (Hlen & _ & _).
  assert (compiled P c slice part rtasks) as Hc.
  { eapply compiled_reuse; [done..|]. intros t Ht.
    destruct (result_task P c slice p s rtasks t HI Hsub HU Ht) as (T & HT & _ & HP).
    split; [done|]. by eexists. }
  apply wp_bind. unfold compile_result. apply wp_bind, wp_for_each_noop.
  { intros t Ht. destruct (result_task P c slice p s rtasks t HI Hsub HU Ht) as (T & HT & HC & _).
    unfold mbind, CM_bind, get_task. by rewrite HT; simpl; rewrite HC. }
  rewrite Hsh. cbn [negb]. apply wp_ret, wp_bind. unfold memoized.
  destruct (bool_decide_reflect (p_Combiner part = None)) as [HC|], (bool_decide_reflect (p_partitioner part = None)) as [Hp|];
    simpl; try (apply wp_ret, wp_ret; split_and!; [done|apply ext_refl|done|lia]).
  eexists _, _. split; [done|]. apply wp_ret. split_and!; [|by split|by eapply compiled_mono|lia].
  eapply (Inv_memo P c _ rtasks slice part); [done..|by apply part_plain|lia|done].
Qed.

(** The compiler, with fuel above the size of the slice: it terminates without
    an error or a panic, and its tasks are those of the specification. *)
Lemma compile_slice_spec fuel :
  rec_ok fuel (compile_slice frame_Hash SReader inv_Index inv_Location machineCombiners fuel).
Proof.
  induction fuel as [|fuel IH]; intros P c s part Hsz Hsub HI Hask Hok; [lia|].
  cbn [compile_slice]. apply wp_bind, wp_gets.
  set (memoized := bool_decide _ && bool_decide _).
  destruct (if memoized then _ else None) as [us|] eqn:Hmemo.
  { apply wp_ret. destruct memoized eqn:Hm; [|done].
    apply andb_prop in Hm as [HC%bool_decide_eq_true Hp%bool_decide_eq_true].
    destruct (inv_memo _ _ HI _ _ _ Hmemo) as (s' & Hptr & Hsub' & Hc & Hl).
    rewrite (in_ptr IN s' s Hsub' Hsub Hptr) in *. rewrite (part_plain part Hok HC Hp).
    split_and!; [done|apply ext_refl|done..]. }
  destruct (decide (is_Result s)) as [HR|HR].
  - unfold is_Result in HR. destruct (Unwrap s) as [| | | | | | | | | | | | | | | |p s' rtasks] eqn:HU; try done.
    destruct (IsShuffle part) eqn:Hsh.
    + apply wp_bind. eapply wp_mono; [by eapply compile_result_shuffle|].
      intros c1 ts Hb. pose proof (finish_spec P c c1 s part ts HI Hsub Hask Hok Hb) as Hf.
      by rewrite Hsh in Hf.
    + by eapply compile_result_reuse.
  - assert (∀ A (f : list nat → A) (g : A),
      match Unwrap s with Result _ _ rt => f rt | _ => g end = g) as Hpipe.
    { intros A f g. unfold is_Result in HR. by destruct (Unwrap s). }
    rewrite (Hpipe _ (compile_result inv_Index s part)).
    apply wp_bind. eapply wp_mono; [apply (compile_pipeline_spec fuel); [done|lia|done..]|].
    intros c1 ts Hb. by apply (finish_spec P c c1 s part ts HI Hsub Hask Hok).
Qed.

Lemma Inv_base : Inv ∅ base.
Proof.
  split; [apply (in_heap IN)|done|done|done|set_solver| |lia].
  intros p np ts. by rewrite (in_memo IN), lookup_empty.
Qed.
End spec.

(** The whole compilation, with the invariant of the state it ends in. *)
Lemma compile_spec frame_Hash SReader inv_Index inv_Location machineCombiners env tasks next slice :
  let base := mkCompiler tasks next ∅ ∅ env in
  input_ok slice base →
  ∃ c ts, compile frame_Hash SReader inv_Index inv_Location machineCombiners env tasks next slice = Ret (c, inl ts) ∧
    Inv frame_Hash SReader inv_Index inv_Location machineCombiners slice base ∅ c ∧
    compiled frame_Hash SReader inv_Index inv_Location machineCombiners ∅ c slice no_partitioner ts ∧
    length ts = Z.to_nat (NumShard slice).
Proof.
  intros base IN.
  destruct (compile_slice_spec frame_Hash SReader inv_Index inv_Location machineCombiners slice base IN
    (S (slice_size slice)) ∅ base slice no_partitioner) as (c & ts & Hr & HI & Hx & Hc & Hl).
  { lia. } { constructor. } { by apply Inv_base. } { by left. } { done. }
  by exists c, ts.
Qed.

