(* ===== verification/CompileGraph.v ===== *)
(** Properties of compiled task graphs (src/exec/compile.go): they are the well
    formed graphs that the evaluator of Eval.v needs, and the Do of their tasks
    computes what the slices mean. *)
From S2P Require Import Prelude Types SliceIO Slices Readers Task Eval Compile CompileSpec.

(** * Compiled tasks as the tasks of the evaluator *)

(** The runtime state of a new task is that of the zero Task. *)
Definition run_task (T : cTask) : Task :=
  mkTask (ct_Name T) (ct_Deps T) (ct_NumPartition T) (ct_CombineKey T) (ct_Group T)
    [] None TaskInit None 0.

Definition graph (tasks : gmap nat cTask) (t : nat) : Task :=
  run_task (default no_task (tasks !! t)).

Section graph.
Context (frame_Hash : row → outcome Z).
Context (SReader : Slice → Z → list (anyReader row) → outcome (anyReader row)).
Context (inv_Index : Z) (inv_Location : string) (machineCombiners : bool).
Context (root : Slice) (base c : compiler) (IN : input_ok root base).

#[local] Abbreviation compiled := (compiled frame_Hash SReader inv_Index inv_Location machineCombiners ∅ c).
#[local] Abbreviation Inv := (Inv frame_Hash SReader inv_Index inv_Location machineCombiners root base ∅ c).

Context (INV : Inv).

(** What earlier invocations left: a well-formed graph, whose edges stay in the
    heap, and results whose tasks are in no group. *)
Context (rank0 : nat → nat) (WF0 : graph_wf (graph (c_tasks base)) rank0).
Hypothesis closed0 : ∀ t T u, c_tasks base !! t = Some T →
  u ∈ ct_Group T ∨ u ∈ (dep_Head <$> ct_Deps T) → u < c_next base.
Hypothesis results0 : ∀ s p s' rtasks t T, sub root s → Unwrap s = Result p s' rtasks →
  t ∈ rtasks → c_tasks base !! t = Some T → ct_Group T = [].

Definition top_rank : nat := max_list (rank0 <$> seq 0 (c_next base)).

(** Tasks of earlier invocations keep their rank; re-shuffling tasks come next,
    and a task of a pipeline is above those by the size of its slice. *)
Definition rank (t : nat) : nat :=
  if decide (t < c_next base) then rank0 t
  else match c_tasks c !! t with
       | Some T =>
           match ct_Partitioner T, ct_Slices T with
           | Some _, s :: _ => S (top_rank + slice_size s)
           | _, _ => S top_rank
           end
       | None => 0
       end.

Lemma rank_old t : t < c_next base → rank t ≤ top_rank.
Proof.
  intros Ht. unfold rank. rewrite decide_True by done. unfold top_rank.
  apply max_list_elem_of_le. apply list_elem_of_fmap. exists t.
  split; [done|]. apply elem_of_seq. lia.
Qed.

Lemma result_old s p s' rtasks t :
  sub root s → Unwrap s = Result p s' rtasks → t ∈ rtasks →
  t < c_next base ∧ ∃ T, c_tasks c !! t = Some T ∧ c_tasks base !! t = Some T ∧ ct_Group T = [].
Proof.
  intros Hs HU Ht. destruct (in_result _ _ IN s p s' rtasks Hs HU) as (_ & _ & Hr).
  destruct (Hr t Ht) as (T & HT & _).
  assert (t < c_next base) by (apply (in_heap _ _ IN); by eexists).
  split; [done|]. exists T. split_and!; [|done|by eapply results0].
  by rewrite (inv_old _ _ _ _ _ _ _ _ _ INV).
Qed.

#[local] Abbreviation phase := (phase (graph (c_tasks c))).
#[local] Abbreviation head := (head (graph (c_tasks c))).
#[local] Abbreviation heads := (heads (graph (c_tasks c))).

Lemma graph_at t T : c_tasks c !! t = Some T → graph (c_tasks c) t = run_task T.
Proof. unfold graph. by intros ->. Qed.

(** Tasks that partition their output form one group; the others have none. *)
Lemma compiled_group s part ts i t :
  sub root s → compiled s part ts → ts !! i = Some t →
  ∃ T, c_tasks c !! t = Some T ∧ ct_Group T = (if IsShuffle part then ts else []).
Proof.
  intros Hs Hc Hi. destruct Hc as
    [s part p s' rt HU Hsh Hrt|s part p s' rt op ts HU Hsh Hnd Hlen Hts
    |s part slices last op deps dtss ts HR Hp Hl Hnd Hlen Hld Hldt Hdeps IH Hts].
  - destruct (result_old s p s' rt t Hs HU) as (_ & T & HT & _ & HG).
    { by eapply list_elem_of_lookup_2. }
    exists T. by rewrite Hsh.
  - destruct (lookup_lt_is_Some_2 rt i) as [r Hr]; [apply lookup_lt_Some in Hi; lia|].
    destruct (Hts i t r Hi Hr) as (_ & _ & R & _ & HT). rewrite Hsh. by eexists.
  - destruct (Hts i t Hi) as [_ HT]. by eexists.
Qed.

Lemma compiled_head s part ts i t :
  sub root s → compiled s part ts → ts !! i = Some t → (IsShuffle part = true → i = 0) → head t = t.
Proof.
  intros Hs Hc Hi H0. destruct (compiled_group s part ts i t Hs Hc Hi) as (T & HT & HG).
  unfold Eval.head, Head. rewrite (graph_at t T HT). simpl. rewrite HG.
  destruct (IsShuffle part); [|done]. rewrite H0 in Hi by done. destruct ts; by simplify_eq/=.
Qed.

Lemma compiled_rank s part ts i t :
  sub root s → compiled s part ts → ts !! i = Some t → rank t ≤ S (top_rank + slice_size s).
Proof.
  intros Hs Hc Hi. destruct (decide (t < c_next base)) as [Ht|Ht].
  { pose proof (rank_old t Ht). lia. }
  unfold rank. rewrite decide_False by done. destruct Hc as
    [s part p s' rt HU Hsh Hrt|s part p s' rt op ts HU Hsh Hnd Hlen Hts
    |s part slices last op deps dtss ts HR Hp Hl Hnd Hlen Hld Hldt Hdeps IH Hts].
  - destruct (result_old s p s' rt t Hs HU) as [? _]; [by eapply list_elem_of_lookup_2|lia].
  - destruct (lookup_lt_is_Some_2 rt i) as [r Hr]; [apply lookup_lt_Some in Hi; lia|].
    destruct (Hts i t r Hi Hr) as (_ & _ & R & _ & ->). simpl. lia.
  - destruct (Hts i t Hi) as [_ ->]. simpl.
    destruct (pipeline_spec (slice_size s) s) as (slices' & Hp' & _ & Hhd & _); [done|].
    rewrite Hp in Hp'. injection Hp' as <-. rewrite decide_False in Hhd by done.
    destruct Hhd as [rest ->]. lia.
Qed.

(** Edges point to heads of phases, of lower rank. *)
Definition edges_ok (t : nat) : Prop := ∀ h, h ∈ heads t → head h = h ∧ rank h < rank t ∧ h < c_next c.

Lemma compiled_in s part ts i t : sub root s → compiled s part ts → ts !! i = Some t → t < c_next c.
Proof.
  intros Hs Hc Hi. destruct (compiled_group s part ts i t Hs Hc Hi) as (T & HT & _).
  apply (inv_heap _ _ _ _ _ _ _ _ _ INV). by eexists.
Qed.

Lemma pipeline_edges s part slices last op deps dtss g i t :
  sub root s → ¬ is_Result s → pipeline (slice_size s) s = Ret slices →
  list.last slices = Some last → (Z.of_nat i < NumShard s)%Z →
  length deps = Z.to_nat (NumDep last) → 
  (∀ j d, deps !! j = Some d → SDep last (Z.of_nat j) = Ret d) →
  (∀ j d dts, deps !! j = Some d → dtss !! j = Some dts →
     compiled (d_Slice d) (dep_part machineCombiners s last op d) dts ∧
     length dts = Z.to_nat (NumShard (d_Slice d))) →
  c_next base ≤ t → c_tasks c !! t = Some
    (task_of frame_Hash SReader inv_Index inv_Location machineCombiners s part slices last op deps dtss g i) →
  edges_ok t ∧ rank t = S (top_rank + slice_size s).
Proof.
  intros Hs HR Hp Hlast Hi Hld Hdeps Hc Ht HT.
  destruct (pipeline_spec (slice_size s) s) as (slices' & Hp' & Hch & Hhd & HF); [done|].
  rewrite Hp in Hp'. injection Hp' as <-. rewrite decide_False in Hhd by done.
  destruct Hhd as [rest Hsl].
  assert (rank t = S (top_rank + slice_size s)) as Hrank.
  { unfold rank. rewrite decide_False, HT by lia. simpl. by rewrite Hsl. }
  split; [|done]. intros h Hh. rewrite Hrank.
  unfold Eval.heads in Hh. rewrite (graph_at t _ HT) in Hh. simpl in Hh.
  apply list_elem_of_fmap in Hh as (e & -> & He).
  apply list_elem_of_lookup in He as [j Hj].
  apply lookup_zip_with_Some in Hj as (d & dts & -> & Hd & Hdts).
  assert (last ∈ slices) as Hin by (apply last_Some in Hlast as [l ->]; set_solver).
  destruct (chain_spec root base IN slices s rest Hsl Hch Hs HF last Hin) as (Hsubl & Hnl & Hszl).
  assert (¬ is_Result last) as HRl by (by apply (proj1 (Forall_forall _ _) HF), list_elem_of_In).
  assert (Z.of_nat j < NumDep last)%Z as Hjn.
  { apply lookup_lt_Some in Hd. pose proof (NumDep_nonneg last). lia. }
  pose proof (Hdeps j d Hd) as HSd.
  destruct (SDep_total last j Hjn) as (d' & HSd' & Hszd). rewrite HSd in HSd'. injection HSd' as <-.
  assert (sub root (d_Slice d)) as Hsubd by (apply (sub_dep root last (Z.of_nat j)); (done || lia)).
  destruct (Hc j d dts Hd Hdts) as [Hcd Hlen].
  pose proof (in_shard _ _ IN _ Hsubd) as Hshard.
  assert (∀ k h, dts !! k = Some h → (d_Shuffle d = true → k = 0) →
    head h = h ∧ rank h < S (top_rank + slice_size s) ∧ h < c_next c) as Hdone.
  { intros k h Hk H0. split_and!; [| |by eapply compiled_in].
    - eapply compiled_head; [done..|]. intros Hsh. apply H0.
      unfold dep_part in Hsh. by destruct (d_Shuffle d).
    - pose proof (compiled_rank _ _ _ _ _ Hsubd Hcd Hk). lia. }
  unfold dep_edge. destruct (d_Shuffle d) eqn:Hsh; simpl.
  - destruct (lookup_lt_is_Some_2 dts 0) as [h Hh]; [lia|]. rewrite Hh. by apply (Hdone 0).
  - pose proof (SDep_NumShard last _ d HSd Hsh) as Hns.
    destruct (lookup_lt_is_Some_2 dts i) as [h Hh]; [lia|]. rewrite Hh. by apply (Hdone i).
Qed.

(** A new task: its phase, its edges, and the rank it shares with its phase. *)
Lemma new_task_spec t :
  c_next base ≤ t < c_next c → ∃ s part ts i, ts !! i = Some t ∧ NoDup ts ∧
    sub root s ∧ compiled s part ts ∧ ∃ n, ∀ j u, ts !! j = Some u → c_next base ≤ u →
      edges_ok u ∧ rank u = n.
Proof.
  intros Ht. destruct (inv_all _ _ _ _ _ _ _ _ _ INV t Ht) as [|(s & part & ts & Hs & _ & Hc & Hin & Hlen)];
    [set_solver|].
  apply list_elem_of_lookup in Hin as [i Hi]. exists s, part, ts, i.
  pose proof Hc as Hc0. destruct Hc as
    [s part p s' rt HU Hsh Hrt|s part p s' rt op ts HU Hsh Hnd Hlr Hts
    |s part slices last op deps dtss ts HR Hp Hl Hnd _ Hld Hldt Hdeps Hcd Hts].
  - destruct (result_old s p s' rt t Hs HU) as [? _]; [by eapply list_elem_of_lookup_2|lia].
  - split_and!; [done..|]. exists (S top_rank). intros j u Hj Hu.
    destruct (lookup_lt_is_Some_2 rt j) as [r Hr]; [apply lookup_lt_Some in Hj; lia|].
    destruct (Hts j u r Hj Hr) as (_ & _ & R & _ & HT).
    assert (rank u = S top_rank) as Hru by (unfold rank; by rewrite decide_False, HT by lia).
    split; [|done]. intros h Hh. rewrite Hru. unfold Eval.heads in Hh. rewrite (graph_at u _ HT) in Hh.
    apply list_elem_of_singleton in Hh as ->.
    destruct (result_old s p s' rt r Hs HU) as (Hrn & T & HT' & _ & HG); [by eapply list_elem_of_lookup_2|].
    split_and!; [|pose proof (rank_old r Hrn); simpl; lia|pose proof (inv_next _ _ _ _ _ _ _ _ _ INV); simpl; lia].
    unfold Eval.head, Head. cbn [dep_Head]. rewrite (graph_at r T HT'). simpl. by rewrite HG.
  - split_and!; [done..|]. exists (S (top_rank + slice_size s)). intros j u Hj Hu.
    destruct (Hts j u Hj) as [_ HT]. eapply pipeline_edges; [done..| | | | | |]; try done.
    apply lookup_lt_Some in Hj. lia.
Qed.

Lemma graph_old t : t < c_next base → graph (c_tasks c) t = graph (c_tasks base) t.
Proof. intros Ht. unfold graph. by rewrite (inv_old _ _ _ _ _ _ _ _ _ INV). Qed.

Lemma graph_unused t : c_next c ≤ t → graph (c_tasks c) t = run_task no_task.
Proof.
  intros Ht. unfold graph. destruct (c_tasks c !! t) eqn:HT; [|done].
  assert (t < c_next c) by (apply (inv_heap _ _ _ _ _ _ _ _ _ INV); by eexists). lia.
Qed.

Lemma old_closed t u :
  t < c_next base → u ∈ ct_Group (default no_task (c_tasks base !! t)) ∨
    u ∈ Eval.heads (graph (c_tasks base)) t → u < c_next base.
Proof.
  intros Ht. destruct (c_tasks base !! t) as [T|] eqn:HT; simpl.
  - unfold Eval.heads, graph. rewrite HT. simpl. by eapply closed0.
  - unfold Eval.heads, graph. rewrite HT. simpl. set_solver.
Qed.

(** The phase of a new task: itself, or the tasks compiled with it, which agree
    on their phase and are all new. *)
Lemma new_phase t :
  c_next base ≤ t < c_next c →
  edges_ok t ∧ NoDup (phase t) ∧ t ∈ phase t ∧ rank (head t) = rank t ∧
  ∀ x, x ∈ phase t → head x = head t ∧ phase x = phase t.
Proof.
  intros Ht. destruct (new_task_spec t Ht) as (s & part & ts & i & Hi & Hnd & Hs & Hc & n & Hn).
  destruct (Hn i t Hi) as [He Hr]; [lia|]. split; [done|].
  assert (∀ j u, ts !! j = Some u → phase u = (if IsShuffle part then ts else [u]) ∧
    head u = (if IsShuffle part then default u (ts !! 0) else u)) as Hph.
  { intros j u Hj. destruct (compiled_group s part ts j u Hs Hc Hj) as (T & HT & HG).
    unfold Eval.phase, Phase, Eval.head, Head. rewrite (graph_at u T HT). simpl. rewrite HG.
    destruct (IsShuffle part); [|done]. by destruct ts. }
  destruct (Hph i t Hi) as [-> Hhd].
  assert (t ∈ ts) as Hin by (by eapply list_elem_of_lookup_2).
  destruct (IsShuffle part) eqn:Hsh.
  2: { rewrite Hhd. split_and!; [apply NoDup_singleton|set_solver|done|].
       intros x ->%list_elem_of_singleton. split; [done|]. by destruct (Hph i t Hi). }
  destruct (ts !! 0) as [t0|] eqn:H0; [|by destruct ts]. simpl in Hhd.
  split_and!; [done..| |].
  - rewrite Hhd, Hr. destruct (decide (t0 < c_next base)) as [Hold|]; [|by apply (Hn 0); [|lia]].
    destruct (compiled_group s part ts 0 t0 Hs Hc H0) as (T & HT & HG). rewrite Hsh in HG.
    rewrite (inv_old _ _ _ _ _ _ _ _ _ INV) in HT by done.
    assert (t < c_next base) by (eapply (closed0 t0 T); [done|left; by rewrite HG]). lia.
  - intros x [j Hj]%list_elem_of_lookup. destruct (Hph j x Hj) as [-> ->]. by rewrite Hhd, ?H0.
Qed.

Lemma graph_wf_spec : graph_wf (graph (c_tasks c)) rank.
Proof.
  assert (∀ t, t < c_next base ∨ c_next base ≤ t < c_next c ∨ c_next c ≤ t) as Hcase by lia.
  assert (∀ t u, t < c_next base → u ∈ Eval.phase (graph (c_tasks base)) t → u < c_next base) as Hold.
  { intros t u Ht. unfold Eval.phase, Phase, graph. simpl.
    destruct (ct_Group _) eqn:HG; [by intros ->%list_elem_of_singleton|].
    intros Hu. apply (old_closed t); [done|]. left. by rewrite HG. }
  assert (∀ t, t < c_next base → phase t = Eval.phase (graph (c_tasks base)) t ∧
    head t = Eval.head (graph (c_tasks base)) t ∧
    heads t = Eval.heads (graph (c_tasks base)) t) as Heq.
  { intros t Ht. unfold Eval.phase, Eval.head, Eval.heads. by rewrite !graph_old. }
  assert (∀ t, c_next c ≤ t → phase t = [t] ∧ head t = t ∧ heads t = []) as Hnone.
  { intros t Ht. unfold Eval.phase, Eval.head, Eval.heads. by rewrite !graph_unused. }
  assert (∀ t, t < c_next base → head t < c_next base) as Hhead.
  { intros t Ht. destruct (Heq t Ht) as (_ & -> & _). apply (Hold t); [done|].
    unfold Eval.head, Head, Eval.phase, Phase. destruct (t_Group _); set_solver. }
  split.
  - intros t x. destruct (Hcase t) as [Ht|[Ht|Ht]].
    + destruct (Heq t Ht) as (-> & -> & _). intros Hx. pose proof (Hold t x Ht Hx) as Hxo.
      destruct (Heq x Hxo) as (-> & -> & _). by apply (wf_phase _ _ WF0).
    + by apply new_phase.
    + destruct (Hnone t Ht) as (-> & -> & _). intros ->%list_elem_of_singleton.
      by destruct (Hnone t Ht) as (-> & -> & _).
  - intros t. destruct (Hcase t) as [Ht|[Ht|Ht]].
    + destruct (Heq t Ht) as (-> & _). apply (wf_self _ _ WF0).
    + by apply new_phase.
    + destruct (Hnone t Ht) as (-> & _). set_solver.
  - intros t. destruct (Hcase t) as [Ht|[Ht|Ht]].
    + destruct (Heq t Ht) as (-> & _). apply (wf_nodup _ _ WF0).
    + by apply new_phase.
    + destruct (Hnone t Ht) as (-> & _). apply NoDup_singleton.
  - intros t h. destruct (Hcase t) as [Ht|[Ht|Ht]].
    + destruct (Heq t Ht) as (_ & _ & ->). intros Hh.
      assert (h < c_next base) as Hho by (apply (old_closed t); [done|by right]).
      destruct (Heq h Hho) as (_ & -> & _). by apply (wf_head _ _ WF0 t).
    + intros Hh. by apply (new_phase t Ht).
    + destruct (Hnone t Ht) as (_ & _ & ->). set_solver.
  - intros t h. destruct (Hcase t) as [Ht|[Ht|Ht]].
    + pose proof (Hhead t Ht) as Hht.
      destruct (Heq t Ht) as (_ & Hhd & ->). rewrite Hhd in *. intros Hh.
      assert (h < c_next base) as Hho by (apply (old_closed t); [done|by right]).
      unfold rank. rewrite !decide_True by done. by apply (wf_rank _ _ WF0).
    + intros Hh. destruct (new_phase t Ht) as (He & _ & _ & -> & _). by apply He.
    + destruct (Hnone t Ht) as (_ & _ & ->). set_solver.
Qed.

(** The graph is closed under phases and dependencies. *)
Lemma graph_closed t x : t < c_next c → x ∈ phase t ∨ x ∈ heads t → x < c_next c.
Proof.
  intros Ht. destruct (decide (t < c_next base)) as [Hold|Hnew].
  - pose proof (inv_next _ _ _ _ _ _ _ _ _ INV) as Hnext. intros Hx.
    assert (x = t ∨ x < c_next base) as [->|]; [|done|lia].
    unfold Eval.phase, Phase, Eval.heads in Hx. rewrite (graph_old t Hold) in Hx.
    destruct Hx as [Hx|Hx]; [|right; apply (old_closed t); [done|by right]].
    unfold graph in Hx. simpl in Hx. destruct (ct_Group _) eqn:HG; [left; by apply list_elem_of_singleton|].
    right. apply (old_closed t); [done|]. left. by rewrite HG.
  - destruct (new_task_spec t) as (s & part & ts & i & Hi & _ & Hs & Hc & n & Hn); [lia|].
    intros [Hx|Hx]; [|destruct (Hn i t Hi) as [He _]; [lia|]; by apply He].
    destruct (compiled_group s part ts i t Hs Hc Hi) as (T & HT & HG).
    unfold Eval.phase, Phase in Hx. rewrite (graph_at t T HT) in Hx. simpl in Hx. rewrite HG in Hx.
    destruct (IsShuffle part); [|apply list_elem_of_singleton in Hx as ->; lia].
    destruct ts as [|t0 ts]; [apply list_elem_of_singleton in Hx as ->; lia|].
    apply list_elem_of_lookup in Hx as [j Hj]. by eapply compiled_in.
Qed.

(** Ranks are bounded by the size of the slice, above those of earlier
    invocations. *)
Lemma sub_size s : sub root s → slice_size s ≤ slice_size root.
Proof.
  induction 1 as [|s i d Hs IH HR Hi Hd]; [done|].
  destruct (SDep_total s (Z.to_nat i)) as (d' & Hd' & Hlt); [lia|].
  rewrite Z2Nat.id, Hd in Hd' by lia. injection Hd' as <-. lia.
Qed.

Lemma rank_bound t : rank t ≤ S (top_rank + slice_size root).
Proof.
  destruct (decide (t < c_next base)) as [Ht|Ht]; [pose proof (rank_old t Ht); lia|].
  destruct (decide (t < c_next c)) as [Hc|Hc].
  - destruct (new_task_spec t) as (s & part & ts & i & Hi & _ & Hs & Hco & _); [lia|].
    pose proof (compiled_rank s part ts i t Hs Hco Hi). pose proof (sub_size s Hs). lia.
  - unfold rank. rewrite decide_False by done. destruct (c_tasks c !! t) eqn:HT; [|lia].
    assert (t < c_next c) by (apply (inv_heap _ _ _ _ _ _ _ _ _ INV); by eexists). lia.
Qed.
End graph.

(** What earlier invocations leave in the heap of tasks: a well-formed graph
    closed under its edges, with the tasks of results in no group. *)
Record heap_ok (root : Slice) (base : compiler) (rank0 : nat → nat) : Prop := {
  heap_wf : graph_wf (graph (c_tasks base)) rank0;
  heap_closed : ∀ t T u, c_tasks base !! t = Some T →
    u ∈ ct_Group T ∨ u ∈ (dep_Head <$> ct_Deps T) → u < c_next base;
  heap_results : ∀ s p s' rtasks t T, sub root s → Unwrap s = Result p s' rtasks →
    t ∈ rtasks → c_tasks base !! t = Some T → ct_Group T = [];
}.

(** C5. The graph that compilation produces is one that the evaluator runs: the
    tasks of a phase agree on it, dependencies name the head of a phase, and
    ranks, bounded by the size of the slice, decrease along dependencies, so
    there are no cycles, also through slices that are shared or that are results
    of earlier invocations. *)
Theorem compile_graph_wf frame_Hash SReader inv_Index inv_Location machineCombiners env tasks next slice rank0 :
  let base := mkCompiler tasks next ∅ ∅ env in
  input_ok slice base → heap_ok slice base rank0 →
  ∃ c ts rank, compile frame_Hash SReader inv_Index inv_Location machineCombiners env tasks next slice = Ret (c, inl ts) ∧
    graph_wf (graph (c_tasks c)) rank ∧
    (∀ t, t < next → rank t = rank0 t) ∧
    ∀ t, rank t ≤ S (max_list (rank0 <$> seq 0 next) + slice_size slice).
Proof.
  intros base IN [WF0 Hcl Hres].
  destruct (compile_spec frame_Hash SReader inv_Index inv_Location machineCombiners
    env tasks next slice IN) as (c & ts & Hr & HI & _).
  exists c, ts, (rank base c rank0). split; [done|]. split_and!.
  - by eapply graph_wf_spec.
  - intros t Ht. unfold rank. by rewrite decide_True.
  - intros t. by eapply rank_bound.
Qed.

(** * What the Do of a task computes *)

Section do.
Context (has_method : gotype → string → bool).
Context (iter : ∀ A, nat → list A → list A) (defaultChunksize : nat).
Context (sortio_Reduce cogroup_Reader : Slice → Z → list (anyReader row) → outcome (anyReader row)).
Context (inv_Location : string).

(** Slices are read into frames of their own type. *)
Definition SliceReader (s : Slice) : Z → list (anyReader row) → outcome (anyReader row) :=
  Slice_Reader has_method iter defaultChunksize sortio_Reduce cogroup_Reader (typ_of s) s.

(** The composition of what the slices of a pipeline compute. *)
Inductive runs : list Slice → Z → list (list row) → list row → Prop :=
| runs_last s shard ls L : computes s shard ls L → runs [s] shard ls L
| runs_cons s rest shard ls l L :
    runs rest shard ls l → computes s shard [l] L → runs (s :: rest) shard ls L.

(** A cache passes the rows it writes through. *)
Definition writes_through (s : Slice) : Prop := ∀ shard r L,
  Streams r L → ∃ r', WritethroughReader (shardCache_of s) shard r = Ret r' ∧ Streams r' L.

Lemma compute_Do_spec s (shard : Z) ins ls L :
  fits has_method (typ_of s) s → writes_through s → Forall2 Streams ins ls → computes s shard ls L →
  ∃ r, (r ← SliceReader s shard ins;
        r ← WritethroughReader (shardCache_of s) shard r;
        Ret (pack (PprofReader r (pprofLabel inv_Location s)))) = Ret r ∧ Streams r L.
Proof.
  intros Hfit Hw Hins Hc.
  destruct (Slice_Reader_spec has_method iter defaultChunksize sortio_Reduce cogroup_Reader
    (typ_of s) s shard ins ls L Hfit Hins Hc) as (r & Hr & HL).
  unfold SliceReader. rewrite Hr. cbn [mbind outcome_bind].
  destruct (Hw shard r L HL) as (r' & -> & [k Hk]). cbn [mbind outcome_bind].
  eexists. split; [done|]. eapply Streams_as_Streams, pack_Streams_as. exists k.
  by apply pprofReader_streams.
Qed.

Lemma do_of_spec slices shard deps ls L :
  Forall (λ s, fits has_method (typ_of s) s ∧ writes_through s) slices →
  Forall2 Streams deps ls → runs slices (Z.of_nat shard) ls L →
  ∃ f r, do_of SliceReader inv_Location (reverse slices) shard = Some f ∧
    f deps = Ret r ∧ Streams r L.
Proof.
  intros HF Hdeps Hruns. remember (Z.of_nat shard) as z eqn:Hz. revert HF Hdeps.
  induction Hruns as [s ? ls L Hc|s rest ? ls l L Hr IH Hc]; intros HF Hdeps; subst;
    rewrite reverse_cons; unfold do_of; rewrite fold_left_app; simpl;
    apply Forall_cons_iff in HF as [[Hfit Hw] HF].
  - eexists. edestruct (compute_Do_spec s (Z.of_nat shard) deps) as (r & Hr & HL); [done..|].
    exists r. split; [done|]. split; [|done]. unfold compute_Do. exact Hr.
  - destruct (IH eq_refl HF Hdeps) as (f & r & Hf & Hfr & HL).
    unfold do_of in Hf. rewrite Hf. eexists.
    edestruct (compute_Do_spec s (Z.of_nat shard) [r] [l]) as (r' & Hr' & HL'); [done..| |done|].
    { by constructor. }
    exists r'. split; [done|]. split; [|done]. unfold compute_Do. rewrite Hfr. exact Hr'.
Qed.

End do.

(** * Caches *)

(** Composing a slice into the one task of a shard: whether a shard is cached is
    recorded under the name of the task. *)
Lemma pipe_slice_one SReader inv_Location s c t T b :
  c_tasks c !! t = Some T → IsWritable (c_env c) = true → IsCached (shardCache_of s) 0 = Ret b →
  let env := mkCompileEnv true (if b then {[ct_Name T]} ∪ TaskCached (c_env c) else TaskCached (c_env c)) in
  pipe_slice SReader inv_Location [(0, t)] s c = Ret (mkCompiler
    (<[t := if bool_decide (ct_Name T ∈ TaskCached env)
            then with_Deps [] (with_Do (Some (cached_Do inv_Location s 0)) T)
            else with_Do (Some (compute_Do SReader inv_Location s 0 (ct_Do T))) T]> (c_tasks c))
    (c_next c) (c_namer c) (c_memo c) env, inl ()).
Proof.
  intros HT Hw Hb env. destruct c as [tasks next namer memo [wr cached]]. simpl in HT, Hw. subst wr.
  assert (∀ e (k : unit → CM unit), (mark_cached s (0, t) ≫= k) (mkCompiler tasks next namer memo (mkCompileEnv true e)) =
    k () (mkCompiler tasks next namer memo (mkCompileEnv true (if b then {[ct_Name T]} ∪ e else e)))) as Hmark.
  { intros e k. unfold mark_cached, lift, mbind, CM_bind. cbn [fst snd]. change (Z.of_nat 0) with 0%Z.
    rewrite Hb. destruct b; [|done]. simpl. unfold get_task. simpl. by rewrite HT. }
  unfold pipe_slice. unfold mbind at 1, CM_bind at 1, gets. simpl.
  unfold mbind at 1, CM_bind at 1. rewrite Hmark. simpl.
  unfold pipe_shard, mbind, CM_bind, get_task. simpl. rewrite HT. simpl.
  unfold Env_IsCached. simpl. by case_bool_decide.
Qed.

Lemma wp_pipe_slice SReader inv_Location s t c T b (Q : compiler → unit → Prop) :
  c_tasks c !! t = Some T → IsWritable (c_env c) = true → IsCached (shardCache_of s) 0 = Ret b →
  (∀ c' T', c_tasks c' !! t = Some T' → ct_Name T' = ct_Name T → IsWritable (c_env c') = true →
     (b = true → ct_Name T ∈ TaskCached (c_env c')) → TaskCached (c_env c) ⊆ TaskCached (c_env c') →
     (ct_Name T ∈ TaskCached (c_env c') → T' = with_Deps [] (with_Do (Some (cached_Do inv_Location s 0)) T)) →
     Q c' ()) →
  wp (pipe_slice SReader inv_Location [(0, t)] s) c Q.
Proof.
  intros HT Hw Hb HQ. eexists _, (). split; [by apply (pipe_slice_one SReader inv_Location s c t T b)|].
  eapply HQ; simpl; [by rewrite lookup_insert_eq|by case_bool_decide|done|intros ->; set_solver
    |destruct b; set_solver|]. intros Hin. by rewrite bool_decide_true.
Qed.

(** The tasks of a slice that is mapped from a cached one. *)
Lemma cached_pipeline_spec frame_Hash SReader inv_Index inv_Location machineCombiners cached tasks next
    p1 n1 prag f p2 n2 cache p3 n3 typ rows :
  let slice := mapSlice p1 n1 prag (cacheSlice p2 n2 (constSlice p3 n3 typ rows 1) cache) f in
  IsCached cache 0 = Ret true →
  ∃ c T g, compile frame_Hash SReader inv_Index inv_Location machineCombiners
      (mkCompileEnv true cached) tasks next slice = Ret (c, inl [next]) ∧
    c_tasks c !! next = Some T ∧ ct_Deps T = [] ∧ ct_Do T = Some g ∧ ∀ readers, g readers = Panic "always empty".
Proof.
  intros slice Hc.
  assert (∀ fuel, wp (compile_slice frame_Hash SReader inv_Index inv_Location machineCombiners (S fuel) slice no_partitioner)
    (mkCompiler tasks next ∅ ∅ (mkCompileEnv true cached)) (λ c ts, ts = [next] ∧
      ∃ T g, c_tasks c !! next = Some T ∧ ct_Deps T = [] ∧ ct_Do T = Some g ∧
        ∀ readers, g readers = Panic "always empty")) as Hwp.
  2: { destruct (Hwp (slice_size slice)) as (c & ts & Hr & -> & T & g & HT).
       exists c, T, g. split; [exact Hr|exact HT]. }
  intros fuel.
  cbn [compile_slice]. apply wp_bind, wp_gets. cbn [ptr_of slice p_numPartition no_partitioner c_memo].
  rewrite lookup_empty. cbn [p_Combiner p_partitioner no_partitioner].
  apply wp_bind. cbn [Unwrap slice].
  eapply wp_mono with (Q := λ c ts, ts = [next] ∧
      ∃ T g, c_tasks c !! next = Some T ∧ ct_Deps T = [] ∧ ct_Do T = Some g ∧
        ∀ readers, g readers = Panic "always empty").
  2: { intros c ts (-> & T & g & HT). apply wp_bind, wp_ret, wp_bind. eexists _, _. split; [done|].
       apply wp_ret. split; [done|]. exists T, g. exact HT. }
  unfold compile_pipeline. apply wp_bind. eapply wp_lift; [done|].
  apply wp_bind. eexists _, _. split; [done|]. cbv beta.
  set (op := if (_ =? 0)%Z then _ else _).
  apply wp_bind, wp_ret, wp_bind. eapply wp_lift; [done|].
  apply wp_bind. cbn [collect seq]. eexists _, [next]. split; [done|].
  apply wp_bind. eapply wp_lift; [done|]. apply wp_bind, wp_ret.
  cbn [reverse rev_append slice for_each imap].
  set (c1 := mkCompiler _ _ _ _ _).
  assert (c_tasks c1 !! next = Some (mkCTask (typ_of slice) (mkTaskName inv_Index op 0 1) None []
    (Some (Partitioner_of frame_Hash no_partitioner)) 1 None "" (Pragmas [prag]) [] [])) as HT1.
  { unfold c1. simpl. by rewrite lookup_insert_eq. }
  apply wp_bind, wp_bind. eapply (wp_pipe_slice _ _ _ _ c1 _ false); [exact HT1|done|done|].
  intros c2 T2 HT2 Hn2 Hw2 _ _ _. apply wp_bind.
  eapply (wp_pipe_slice _ _ _ _ c2 T2 true); [exact HT2|exact Hw2|exact Hc|].
  intros c3 T3 HT3 Hn3 Hw3 Hin3 _ _. apply wp_bind.
  eapply (wp_pipe_slice _ _ slice _ c3 T3 false); [exact HT3|exact Hw3|done|].
  intros c4 T4 HT4 Hn4 Hw4 _ Hsub4 Hcached. apply wp_ret.
  assert (T4 = with_Deps [] (with_Do (Some (cached_Do inv_Location slice 0)) T3)) as ->.
  { apply Hcached, Hsub4. rewrite Hn3. by apply Hin3. }
  apply wp_bind, wp_bind. unfold update_task. apply wp_bind. eapply wp_get_task; [exact HT4|].
  eexists _, (). split; [done|]. apply wp_ret, wp_ret. split; [done|].
  eexists _, _. split; [simpl; by rewrite lookup_insert_eq|]. done.
Qed.

