(* ===== verification/Store.v ===== *)
(** Stores of task output (src/exec/store.go): the interface, the in-memory
    implementation and the one on files.

    The interface is the class [Store], with what it promises as the class
    [StoreLaws]: a store represents a finite map from partitions of tasks to the
    bytes and the record count committed for them.  Both implementations are
    shown to satisfy it. *)
From S2P Require Import Prelude Task Compile.

Record sliceInfo := mkSliceInfo { si_Size : Z; si_Records : Z }.

(** * The interface *)

(** A writer is the bytes written to it; it becomes visible when committed. *)
Class Store (S : Type) := {
  st_Create : S → TaskName → nat → option error;
  st_Commit : S → TaskName → nat → list Z → Z → S * option error;
  st_Open : S → TaskName → nat → nat → list Z + error;
  st_Stat : S → TaskName → nat → sliceInfo + error;
  st_Discard : S → TaskName → nat → S * option error;
}.

Abbreviation stored := (gmap (TaskName * nat) (list Z * Z)).

Definition is_kind (k : errKind) (e : error) : Prop := ∃ msg, e = Err k msg.

Class StoreLaws (S : Type) `{Store S} := {
  repr : S → stored → Prop;
  (** the tasks and record counts that can be stored *)
  storable : TaskName → Z → Prop;
  commit_ok : ∀ s A t p data n, repr s A → storable t n → A !! (t, p) = None →
    st_Create s t p = None ∧ ∃ s', st_Commit s t p data n = (s', None) ∧ repr s' (<[(t, p) := (data, n)]> A);
  open_ok : ∀ s A t p data n off, repr s A → A !! (t, p) = Some (data, n) → off ≤ length data →
    st_Open s t p off = inl (drop off data);
  stat_ok : ∀ s A t p data n, repr s A → A !! (t, p) = Some (data, n) →
    st_Stat s t p = inl (mkSliceInfo (Z.of_nat (length data)) n);
  missing : ∀ s A t p n off, repr s A → storable t n → A !! (t, p) = None →
    (∃ e, st_Open s t p off = inr e ∧ is_kind NotExist e) ∧
    (∃ e, st_Stat s t p = inr e ∧ is_kind NotExist e);
  discard_ok : ∀ s A t p v, repr s A → A !! (t, p) = Some v →
    ∃ s', st_Discard s t p = (s', None) ∧ repr s' (delete (t, p) A);
}.

(** * memoryStore *)

(** The buffers of each task by partition; [None] is a nil buffer. *)
Record memoryStore := mkMemoryStore {
  ms_tasks : gmap TaskName (list (option (list Z)));
  ms_counts : gmap TaskName (list Z);
}.

Definition newMemoryStore : memoryStore := mkMemoryStore ∅ ∅.

Definition ms_get (m : memoryStore) (task : TaskName) (partition : nat) : option (list Z) * Z :=
  let bufs := default [] (ms_tasks m !! task) in
  if length bufs <=? partition then (None, 0%Z)
  else (default None (bufs !! partition), default 0%Z (default [] (ms_counts m !! task) !! partition)).

Definition extend {A} (l : list A) (n : nat) (x : A) : list A := l ++ replicate (n - length l) x.

Definition ms_put (m : memoryStore) (task : TaskName) (partition : nat) (p : list Z) (count : Z) :
    memoryStore * option error :=
  let bufs := extend (default [] (ms_tasks m !! task)) (S partition) None in
  let counts := default [] (ms_counts m !! task) ++
    replicate (S partition - length (default [] (ms_tasks m !! task))) 0%Z in
  match bufs !! partition with
  | Some (Some _) =>
      (mkMemoryStore (<[task := bufs]> (ms_tasks m)) (<[task := counts]> (ms_counts m)),
       Some (Err Exists "partition already stored"))
  | _ =>
      (mkMemoryStore (<[task := <[partition := Some p]> bufs]> (ms_tasks m))
         (<[task := <[partition := count]> counts]> (ms_counts m)), None)
  end.

Definition ms_Create (m : memoryStore) (task : TaskName) (partition : nat) : option error :=
  match (ms_get m task partition).1 with
  | Some _ => Some (Err Exists "create")
  | None => None
  end.

Definition ms_Open (m : memoryStore) (task : TaskName) (partition offset : nat) : list Z + error :=
  match (ms_get m task partition).1 with
  | None => inr (Err NotExist "open")
  | Some p =>
      if length p <? offset then inr (Err Invalid "open: seeked past the data size")
      else inl (drop offset p)
  end.

Definition ms_Stat (m : memoryStore) (task : TaskName) (partition : nat) : sliceInfo + error :=
  match ms_get m task partition with
  | (None, _) => inr (Err NotExist "stat")
  | (Some b, n) => inl (mkSliceInfo (Z.of_nat (length b)) n)
  end.

(** With a context that is not canceled. *)
Definition ms_Discard (m : memoryStore) (task : TaskName) (partition : nat) :
    memoryStore * option error :=
  match ms_tasks m !! task with
  | None => (m, Some (Err NotExist "discard"))
  | Some bufs =>
      if length bufs <=? partition then (m, Some (Err NotExist "discard"))
      else (mkMemoryStore (<[task := <[partition := None]> bufs]> (ms_tasks m)) (ms_counts m), None)
  end.

#[export] Instance memoryStore_store : Store memoryStore := {|
  st_Create := ms_Create; st_Commit := ms_put; st_Open := ms_Open; st_Stat := ms_Stat;
  st_Discard := ms_Discard;
|}.

(** ** It is a store *)

(** There are as many counts as buffers, and the map is what [get] returns. *)
Definition ms_repr (m : memoryStore) (A : stored) : Prop :=
  (∀ t, length (default [] (ms_counts m !! t)) = length (default [] (ms_tasks m !! t))) ∧
  ∀ t p, A !! (t, p) = match ms_get m t p with (Some b, n) => Some (b, n) | (None, _) => None end.

Lemma extend_lookup {A} (l : list A) n x i :
  extend l n x !! i = if decide (i < length l) then l !! i else if decide (i < n) then Some x else None.
Proof.
  unfold extend. case_decide; [by rewrite lookup_app_l|]. rewrite lookup_app_r by lia.
  case_decide; [by rewrite lookup_replicate_2 by lia|].
  apply lookup_ge_None. rewrite length_replicate. lia.
Qed.

Lemma ms_get_eq m t p :
  (∀ t, length (default [] (ms_counts m !! t)) = length (default [] (ms_tasks m !! t))) →
  ms_get m t p = (default None (default [] (ms_tasks m !! t) !! p), default 0%Z (default [] (ms_counts m !! t) !! p)).
Proof.
  intros Hl. unfold ms_get. destruct (Nat.leb_spec (length (default [] (ms_tasks m !! t))) p); [|done].
  rewrite !lookup_ge_None_2; [done|by rewrite Hl|done].
Qed.

Lemma ms_put_repr m A t p data n :
  ms_repr m A → A !! (t, p) = None →
  ∃ m', ms_put m t p data n = (m', None) ∧ ms_repr m' (<[(t, p) := (data, n)]> A).
Proof.
  intros [Hl HA] Hnone. unfold ms_put.
  set (bufs := default [] (ms_tasks m !! t)) in *. set (counts := default [] (ms_counts m !! t)) in *.
  pose proof (HA t p) as Hp. rewrite Hnone, ms_get_eq in Hp by done. fold bufs counts in Hp.
  assert (length counts = length bufs) as Hlt by apply Hl.
  assert (extend bufs (S p) None !! p = Some None) as Hslot.
  { rewrite extend_lookup. case_decide as Hlt'; [|by rewrite decide_True by lia].
    destruct (lookup_lt_is_Some_2 bufs p Hlt') as [[b|] Hb]; rewrite Hb in *; simpl in Hp; [|done].
    done. }
  rewrite Hslot. eexists. split; [done|].
  assert (counts ++ replicate (S p - length bufs) 0%Z = extend counts (S p) 0%Z) as ->
    by (unfold extend; by rewrite Hlt).
  assert (∀ {X} (l : list X) x, length (extend l (S p) x) = length l + (S p - length l)) as Hext.
  { intros X l x. unfold extend. by rewrite length_app, length_replicate. }
  split; simpl.
  - intros t'. destruct (decide (t' = t)) as [->|Hne].
    + rewrite !lookup_insert_eq. simpl. rewrite !length_insert, !Hext. lia.
    + rewrite !lookup_insert_ne by done. apply Hl.
  - intros t' p'. rewrite ms_get_eq; simpl.
    2: { intros t''. destruct (decide (t'' = t)) as [->|Hne].
         - rewrite !lookup_insert_eq. simpl. rewrite !length_insert, !Hext. lia.
         - rewrite !lookup_insert_ne by done. apply Hl. }
    destruct (decide (t' = t)) as [->|Hne].
    + rewrite !lookup_insert_eq. simpl. destruct (decide (p' = p)) as [->|Hnp].
      * rewrite lookup_insert_eq, !list_lookup_insert_eq; [done|rewrite Hext; lia..].
      * rewrite lookup_insert_ne by congruence. rewrite !list_lookup_insert_ne by done.
        rewrite HA, ms_get_eq by done. fold bufs counts. rewrite !extend_lookup, Hlt.
        case_decide; [done|]. rewrite (lookup_ge_None_2 bufs) by lia. by case_decide.
    + rewrite lookup_insert_ne by congruence. rewrite !lookup_insert_ne by done.
      by rewrite HA, ms_get_eq.
Qed.

Lemma ms_Discard_repr m A t p v :
  ms_repr m A → A !! (t, p) = Some v →
  ∃ m', ms_Discard m t p = (m', None) ∧ ms_repr m' (delete (t, p) A).
Proof.
  intros [Hl HA] Hv. pose proof (HA t p) as Hp. rewrite Hv, ms_get_eq in Hp by done.
  unfold ms_Discard. pose proof (Hl t) as Hlt. destruct (ms_tasks m !! t) as [bufs|] eqn:Ht; [|done].
  simpl in *. assert (p < length bufs) as Hlen.
  { apply lookup_lt_is_Some_1. destruct (bufs !! p); [by eexists|done]. }
  rewrite (proj2 (Nat.leb_gt _ _)) by done. eexists. split; [done|].
  assert (∀ t', length (default [] (ms_counts m !! t')) =
    length (default [] (<[t := <[p := None]> bufs]> (ms_tasks m) !! t'))) as Hl'.
  { intros t'. destruct (decide (t' = t)) as [->|Hne].
    - rewrite lookup_insert_eq. simpl. by rewrite length_insert.
    - rewrite lookup_insert_ne by done. apply Hl. }
  split; [done|]. intros t' p'. rewrite ms_get_eq by done. simpl.
  destruct (decide (t' = t)) as [->|Hne].
  - rewrite lookup_insert_eq. simpl. destruct (decide (p' = p)) as [->|Hnp].
    + by rewrite lookup_delete_eq, list_lookup_insert_eq.
    + rewrite lookup_delete_ne by congruence. rewrite list_lookup_insert_ne by done.
      rewrite HA, ms_get_eq by done. by rewrite Ht.
  - rewrite lookup_delete_ne by congruence. rewrite lookup_insert_ne by done. by rewrite HA, ms_get_eq.
Qed.

#[export] Instance memoryStore_laws : StoreLaws memoryStore.
Proof.
  refine {| repr := ms_repr; storable := λ _ _, True |}.
  - intros s A t p data n HR _ Hnone. split; [|by apply ms_put_repr].
    simpl. unfold ms_Create. destruct HR as [_ HA]. pose proof (HA t p) as Hp. rewrite Hnone in Hp.
    by destruct (ms_get s t p) as [[b|] c].
  - intros s A t p data n off [_ HA] Hp Hoff. simpl. unfold ms_Open. rewrite HA in Hp.
    destruct (ms_get s t p) as [[b|] c]; simplify_eq/=. by rewrite (proj2 (Nat.ltb_ge _ _)).
  - intros s A t p data n [_ HA] Hp. simpl. unfold ms_Stat. rewrite HA in Hp.
    by destruct (ms_get s t p) as [[b|] c]; simplify_eq/=.
  - intros s A t p n off [_ HA] _ Hp. simpl. unfold ms_Open, ms_Stat. rewrite HA in Hp.
    destruct (ms_get s t p) as [[b|] c]; simplify_eq/=. split; (eexists; split; [done|by eexists]).
  - intros s A t p v HR Hv. by eapply ms_Discard_repr.
Defined.

(** * fileStore *)

(** The file system: reading a file, writing one as a whole (it is created,
    written and closed), and removing one. *)
Class Files (FS : Type) := {
  fs_read : FS → string → list Z + error;
  fs_write : FS → string → list Z → FS * option error;
  fs_remove : FS → string → FS * option error;
}.

(** It holds [M], from paths to contents. *)
Class FilesLaws (FS : Type) `{Files FS} := {
  fs_holds : FS → gmap string (list Z) → Prop;
  fs_read_ok : ∀ fs M path, fs_holds fs M →
    match M !! path with
    | Some bs => fs_read fs path = inl bs
    | None => ∃ e, fs_read fs path = inr e ∧ is_kind NotExist e
    end;
  fs_write_ok : ∀ fs M path bs, fs_holds fs M →
    ∃ fs', fs_write fs path bs = (fs', None) ∧ fs_holds fs' (<[path := bs]> M);
  fs_remove_ok : ∀ fs M path bs, fs_holds fs M → M !! path = Some bs →
    ∃ fs', fs_remove fs path = (fs', None) ∧ fs_holds fs' (delete path M);
}.

(** binary.LittleEndian. *)
Fixpoint le_bytes (n : nat) (z : Z) : list Z :=
  match n with 0 => [] | S n => (z mod 256)%Z :: le_bytes n (z / 256) end.
Fixpoint le_value (bs : list Z) : Z :=
  match bs with [] => 0%Z | b :: bs => (b + 256 * le_value bs)%Z end.
Definition PutUint64 (z : Z) : list Z := le_bytes 8 (z mod 2 ^ 64).
Definition Uint64 (bs : list Z) : Z := le_value bs.

Lemma le_roundtrip n z : (0 <= z < 256 ^ Z.of_nat n)%Z → le_value (le_bytes n z) = z.
Proof.
  revert z. induction n as [|n IH]; intros z Hz; cbn [le_bytes le_value].
  - change (256 ^ Z.of_nat 0)%Z with 1%Z in Hz. lia.
  - rewrite Nat2Z.inj_succ, Z.pow_succ_r in Hz by lia. rewrite IH.
    + pose proof (Z.div_mod z 256). lia.
    + split; [apply Z.div_pos; lia|]. apply Z.div_lt_upper_bound; lia.
Qed.

Lemma length_le_bytes n z : length (le_bytes n z) = n.
Proof. revert z. induction n as [|n IH]; intros z; simpl; [done|]. by rewrite IH. Qed.

(** int64 values survive the conversion to uint64 and back. *)
Lemma Uint64_roundtrip count : in_int64 count → wrap64 (Uint64 (PutUint64 count)) = count.
Proof.
  intros Hc. unfold Uint64, PutUint64. rewrite le_roundtrip.
  - unfold wrap64, in_int64 in *. destruct (Z_lt_le_dec count 0).
    + rewrite <-(Z_mod_plus_full count 1 (2 ^ 64)), (Z.mod_small (count + 1 * 2 ^ 64)) by lia.
      rewrite <-(Z_mod_plus_full _ (-1) (2 ^ 64)), Z.mod_small by lia. lia.
    + rewrite (Z.mod_small count), Z.mod_small by lia. lia.
  - pose proof (Z.mod_pos_bound count (2 ^ 64)). change (256 ^ Z.of_nat 8)%Z with (2 ^ 64)%Z. lia.
Qed.

(** FNV-1a, 32 bits, of the bytes of a string. *)
Fixpoint fnv32a (s : string) (h : Z) : Z :=
  match s with
  | EmptyString => h
  | String c s =>
      fnv32a s (Z.lxor h (Z.of_nat (Ascii.nat_of_ascii c)) * 16777619 mod 2 ^ 32)
  end.

(** strconv.FormatInt in base 16, of a byte. *)
Definition hexdigit (d : Z) : string :=
  default "" (["0"; "1"; "2"; "3"; "4"; "5"; "6"; "7"; "8"; "9"; "a"; "b"; "c"; "d"; "e"; "f"] !! Z.to_nat d).
Definition hex (b : Z) : string :=
  if (b <? 16)%Z then hexdigit b else hexdigit (b / 16) +:+ hexdigit (b mod 16).

(** [%03d]. *)
Definition pad3 (z : Z) : string :=
  let d := decimal z in
  match 3 - String.length d with 0 => d | 1 => "0" +:+ d | _ => "00" +:+ d end.

Lemma pad3_value z : (0 <= z)%Z → digits_value 0 (pad3 z) = z.
Proof.
  intros Hz. rewrite <-(digits_value_decimal z Hz) at 2. unfold pad3.
  by destruct (3 - String.length (decimal z)) as [|[|n]].
Qed.

Lemma pad3_inj p q : pad3 (Z.of_nat p) = pad3 (Z.of_nat q) → p = q.
Proof. intros H%(f_equal (digits_value 0)). rewrite !pad3_value in H by lia. lia. Qed.

Section fileStore.
Context {FS : Type} {F : Files FS} (Prefix : string) (file_Join : list string → string).

Record fileStore := mkFileStore { fst_fs : FS }.

Definition store_path (task : TaskName) (partition : nat) : string :=
  let h0 := Z.shiftr (fnv32a (TaskName_String task) 2166136261) 24 in
  let path := file_Join [Prefix; hex h0; tn_Op task] in
  let path := if IsCombiner task then file_Join [path; "combiner"]
              else file_Join [path; pad3 (tn_Shard task) +:+ "-of-" +:+ pad3 (tn_NumShard task)] in
  file_Join [path; "p" +:+ pad3 (Z.of_nat partition)].

(** Create, the writes and Commit: the data are followed by the count. *)
Definition fs_Commit (s : fileStore) (task : TaskName) (partition : nat) (data : list Z) (count : Z) :
    fileStore * option error :=
  let '(fs, err) := fs_write (fst_fs s) (store_path task partition) (data ++ PutUint64 count) in
  (mkFileStore fs, err).

(** The reader is limited to the data; the last 8 bytes are the count. *)
Definition fs_Open (s : fileStore) (task : TaskName) (partition offset : nat) : list Z + error :=
  match fs_read (fst_fs s) (store_path task partition) with
  | inr e => inr e
  | inl bs => inl (take (length bs - 8 - offset) (drop offset bs))
  end.

Definition fs_Stat (s : fileStore) (task : TaskName) (partition : nat) : sliceInfo + error :=
  match fs_read (fst_fs s) (store_path task partition) with
  | inr e => inr e
  | inl bs =>
      if length bs <? 8 then inr (Err Invalid "seek: invalid offset")
      else inl (mkSliceInfo (Z.of_nat (length bs - 8)) (wrap64 (Uint64 (drop (length bs - 8) bs))))
  end.

Definition fs_Discard (s : fileStore) (task : TaskName) (partition : nat) : fileStore * option error :=
  let '(fs, err) := fs_remove (fst_fs s) (store_path task partition) in (mkFileStore fs, err).

#[export] Instance fileStore_store : Store fileStore := {|
  st_Create _ _ _ := None; st_Commit := fs_Commit; st_Open := fs_Open; st_Stat := fs_Stat;
  st_Discard := fs_Discard;
|}.

(** ** It is a store, of tasks whose paths differ *)

Context {FL : FilesLaws FS} (names : gset TaskName).
Hypothesis PATH : ∀ t1 p1 t2 p2, t1 ∈ names → t2 ∈ names →
  store_path t1 p1 = store_path t2 p2 → t1 = t2 ∧ p1 = p2.

Definition fs_repr (s : fileStore) (A : stored) : Prop :=
  ∃ M, fs_holds (fst_fs s) M ∧
    (∀ t p v, A !! (t, p) = Some v → t ∈ names ∧ in_int64 v.2) ∧
    ∀ t p, t ∈ names → M !! store_path t p = (λ v, v.1 ++ PutUint64 v.2) <$> A !! (t, p).

Lemma fs_read_stored s A t p v :
  fs_repr s A → A !! (t, p) = Some v →
  fs_read (fst_fs s) (store_path t p) = inl (v.1 ++ PutUint64 v.2).
Proof.
  intros (M & HM & Hn & HA) Hv. destruct (Hn t p v Hv) as [Ht _].
  pose proof (fs_read_ok _ _ (store_path t p) HM) as Hr. by rewrite HA, Hv in Hr.
Qed.

Lemma length_PutUint64 n : length (PutUint64 n) = 8.
Proof. apply length_le_bytes. Qed.

#[export] Instance fileStore_laws : StoreLaws fileStore.
Proof.
  refine {| repr := fs_repr; storable := λ t n, t ∈ names ∧ in_int64 n |}.
  - intros s A t p data n (M & HM & Hn & HA) [Ht Hin] Hnone. split; [done|]. simpl. unfold fs_Commit.
    destruct (fs_write_ok _ _ (store_path t p) (data ++ PutUint64 n) HM) as (fs' & -> & HM').
    eexists. split; [done|]. eexists. split; [exact HM'|]. split.
    + intros t' p' v. rewrite lookup_insert_Some. intros [[[= <- <-] <-]|[_ Hv]]; [done|by eapply Hn].
    + intros t' p' Ht'. destruct (decide ((t, p) = (t', p'))) as [[= <- <-]|Hne].
      * by rewrite !lookup_insert_eq.
      * rewrite !lookup_insert_ne; [by apply HA|done|].
        intros E. apply PATH in E as [-> ->]; done.
  - intros s A t p data n off HR Hv Hoff. simpl. unfold fs_Open.
    rewrite (fs_read_stored s A t p _ HR Hv). simpl. rewrite length_app, length_PutUint64.
    rewrite drop_app_le by done. f_equal. rewrite take_app_le by (rewrite length_drop; lia).
    apply take_ge. rewrite length_drop. lia.
  - intros s A t p data n HR Hv. simpl. unfold fs_Stat.
    rewrite (fs_read_stored s A t p _ HR Hv). simpl. rewrite length_app, length_PutUint64.
    rewrite (proj2 (Nat.ltb_ge _ _)) by lia.
    replace (length data + 8 - 8) with (length data) by lia. rewrite drop_app_length.
    destruct HR as (M & _ & Hn & _). destruct (Hn t p _ Hv) as [_ Hin]. by rewrite Uint64_roundtrip.
  - intros s A t p n off (M & HM & Hn & HA) [Ht _] Hnone. simpl. unfold fs_Open, fs_Stat.
    pose proof (fs_read_ok _ _ (store_path t p) HM) as Hr. rewrite HA, Hnone in Hr by done.
    destruct Hr as (e & -> & He). split; by exists e.
  - intros s A t p v (M & HM & Hn & HA) Hv. simpl. unfold fs_Discard.
    destruct (Hn t p v Hv) as [Ht _]. destruct (fs_remove_ok _ _ (store_path t p) (v.1 ++ PutUint64 v.2) HM) as (fs' & -> & HM').
    { by rewrite HA, Hv. }
    eexists. split; [done|]. eexists. split; [exact HM'|]. split.
    + intros t' p' v'. rewrite lookup_delete_Some. intros [_ Hv']. by eapply Hn.
    + intros t' p' Ht'. destruct (decide ((t, p) = (t', p'))) as [[= <- <-]|Hne].
      * by rewrite !lookup_delete_eq.
      * rewrite !lookup_delete_ne; [by apply HA|done|].
        intros E. apply PATH in E as [-> ->]; done.
Defined.
End fileStore.

(** * The implementations are interchangeable *)

Inductive store_op :=
| OCommit (t : TaskName) (p : nat) (data : list Z) (n : Z)
| OOpen (t : TaskName) (p off : nat)
| OStat (t : TaskName) (p : nat)
| ODiscard (t : TaskName) (p : nat).

(** Results; of errors only the kind is compared. *)
Inductive store_result :=
| RDone | RBytes (bs : list Z) | RInfo (i : sliceInfo) | RErr (e : option errKind).

Definition err_result (e : error) : store_result :=
  RErr (match e with Err k _ => Some k | EOF => None end).

Section script.
Context {S : Type} `{Store S}.

Definition run_op (s : S) (o : store_op) : S * store_result :=
  match o with
  | OCommit t p data n =>
      match st_Create s t p with
      | Some e => (s, err_result e)
      | None => let '(s, err) := st_Commit s t p data n in
                (s, match err with Some e => err_result e | None => RDone end)
      end
  | OOpen t p off => (s, match st_Open s t p off with inl bs => RBytes bs | inr e => err_result e end)
  | OStat t p => (s, match st_Stat s t p with inl i => RInfo i | inr e => err_result e end)
  | ODiscard t p =>
      let '(s, err) := st_Discard s t p in
      (s, match err with Some e => err_result e | None => RDone end)
  end.

Fixpoint run_ops (s : S) (os : list store_op) : list store_result :=
  match os with
  | [] => []
  | o :: os => let '(s, r) := run_op s o in r :: run_ops s os
  end.
End script.

(** The abstract store, on operations within the contract: nothing is committed
    twice, offsets are within the data, and only stored data are discarded. *)
Definition spec_op (A : stored) (o : store_op) : stored * store_result :=
  match o with
  | OCommit t p data n => (<[(t, p) := (data, n)]> A, RDone)
  | OOpen t p off =>
      (A, match A !! (t, p) with Some (data, _) => RBytes (drop off data) | None => RErr (Some NotExist) end)
  | OStat t p =>
      (A, match A !! (t, p) with
          | Some (data, n) => RInfo (mkSliceInfo (Z.of_nat (length data)) n)
          | None => RErr (Some NotExist)
          end)
  | ODiscard t p => (delete (t, p) A, RDone)
  end.

Definition in_contract (names : gset TaskName) (A : stored) (o : store_op) : Prop :=
  match o with
  | OCommit t p data n => t ∈ names ∧ in_int64 n ∧ A !! (t, p) = None
  | OOpen t p off => t ∈ names ∧ ∀ v, A !! (t, p) = Some v → off ≤ length v.1
  | OStat t p => t ∈ names
  | ODiscard t p => is_Some (A !! (t, p))
  end.

Fixpoint all_in_contract (names : gset TaskName) (A : stored) (os : list store_op) : Prop :=
  match os with
  | [] => True
  | o :: os => in_contract names A o ∧ all_in_contract names (spec_op A o).1 os
  end.

Fixpoint spec_ops (A : stored) (os : list store_op) : list store_result :=
  match os with
  | [] => []
  | o :: os => (spec_op A o).2 :: spec_ops (spec_op A o).1 os
  end.

Lemma err_result_kind k e : is_kind k e → err_result e = RErr (Some k).
Proof. by intros [msg ->]. Qed.

(** Every store refines the abstract one. *)
Lemma store_refines {S} `{L : StoreLaws S} (names : gset TaskName) s A os :
  (∀ t n, t ∈ names → in_int64 n → storable t n) → repr s A → all_in_contract names A os →
  run_ops s os = spec_ops A os.
Proof.
  intros Hst. revert s A. induction os as [|o os IH]; intros s A HR Hok; [done|].
  destruct Hok as [Ho Hos]. cbn [run_ops spec_ops].
  assert (∃ s', run_op s o = (s', (spec_op A o).2) ∧ repr s' (spec_op A o).1) as (s' & -> & HR');
    [|by rewrite (IH s' _ HR' Hos)].
  destruct o as [t p data n|t p off|t p|t p]; simpl in *.
  - destruct Ho as (Ht & Hn & Hnone).
    destruct (commit_ok s A t p data n HR (Hst t n Ht Hn) Hnone) as (-> & s' & -> & HR'). by exists s'.
  - destruct Ho as [Ht Hoff]. exists s. split; [|done]. destruct (A !! (t, p)) as [[data n]|] eqn:Hv.
    + by rewrite (open_ok s A t p data n off HR Hv) by (by apply (Hoff (data, n))).
    + destruct (missing s A t p 0%Z off HR) as [(e & -> & He) _]; [by apply Hst|done|].
      by rewrite (err_result_kind _ _ He).
  - exists s. split; [|done]. destruct (A !! (t, p)) as [[data n]|] eqn:Hv.
    + by rewrite (stat_ok s A t p data n HR Hv).
    + destruct (missing s A t p 0%Z 0 HR) as [_ (e & -> & He)]; [by apply Hst|done|].
      by rewrite (err_result_kind _ _ He).
  - destruct Ho as [v Hv]. destruct (discard_ok s A t p v HR Hv) as (s' & -> & HR'). by exists s'.
Qed.

(** C21. The memory store and the file store cannot be told apart, and neither
    from the abstract store: on every sequence of operations within the contract
    (tasks whose paths differ, nothing committed twice, offsets within the data)
    they return the same bytes, sizes, record counts and kinds of errors. *)
Theorem stores_equivalent {FS} `{FL : FilesLaws FS} Prefix file_Join (names : gset TaskName) fs os :
  (∀ t1 p1 t2 p2, t1 ∈ names → t2 ∈ names →
     store_path Prefix file_Join t1 p1 = store_path Prefix file_Join t2 p2 → t1 = t2 ∧ p1 = p2) →
  fs_holds fs ∅ → all_in_contract names ∅ os →
  run_ops (H := fileStore_store Prefix file_Join) (mkFileStore fs) os = spec_ops ∅ os ∧
  run_ops newMemoryStore os = spec_ops ∅ os.
Proof.
  intros HP Hfs Hos. split.
  - eapply (store_refines (L := fileStore_laws Prefix file_Join names HP) names); [|exists ∅|done].
    + by intros t n Ht Hn.
    + split_and!; [done|by intros t p v; rewrite lookup_empty|by intros; rewrite !lookup_empty].
  - apply (store_refines names _ ∅); [done| |done]. split; [by intros t; simpl; rewrite !lookup_empty|].
    intros t p. rewrite lookup_empty. unfold ms_get. simpl. by rewrite lookup_empty.
Qed.

(** Discarding a partition that is not stored is no error if a later partition
    of the task was stored. *)
Lemma ms_Discard_unstored t data n :
  let m := (ms_put newMemoryStore t 1 data n).1 in
  st_Stat m t 0 = inr (Err NotExist "stat") ∧ (ms_Discard m t 0).2 = None.
Proof.
  simpl. unfold ms_Stat, ms_get, ms_Discard, ms_put, extend. simpl.
  rewrite !lookup_empty. simpl. by rewrite !lookup_insert_eq.
Qed.
