(* ===== verification/Local.v ===== *)
(** The local executor (src/exec/local.go) and its task buffers
    (src/exec/buffer.go): running a task in process, with its output
    partitioned into memory, and reading that output from dependent tasks.

    The executor runs on the tasks that Compile.v builds; the state of tasks is
    the world of Task.v.  Each operation that the code runs under a lock is one
    function.  The limiter on concurrent tasks is not modelled. *)
From S2P Require Import Prelude Types SliceIO Slices Readers Task Compile.

(** * Task buffers *)

(** Partitions, each a list of frames. *)
Abbreviation taskBuffer := (list (list (list row))).

(** The frame that holds the row at a global offset of a partition, and the
    row's position in it; -1 is the end. *)
Fixpoint Slice_frames (frames : list (list row)) (off n : Z) : list row * Z :=
  match frames with
  | [] => ([], (-1)%Z)
  | f :: frames =>
      let l := Z.of_nat (length f) in
      if (off <? n + l)%Z then (f, (off - n)%Z) else Slice_frames frames off (n + l)
  end.
Definition Slice_at (b : taskBuffer) (partition off : Z) : outcome (list row * Z) :=
  frames ← index b partition; Ret (Slice_frames frames off 0).

Record taskBufferReader := mkTaskBufferReader {
  tr_q : taskBuffer;
  tr_i : nat;
  tr_j : nat;
  tr_k : nat;
  tr_closed : bool;
}.

(** The loop that looks for the next frame with rows left: its rows, or [None]
    at the end. *)
Fixpoint seek (fuel : nat) (r : taskBufferReader) : outcome (taskBufferReader * option (list row)) :=
  match fuel with
  | 0 => NoFuel
  | S fuel =>
      match tr_q r !! tr_i r with
      | None =>
          if length (tr_q r) =? tr_i r then Ret (r, None) else Panic "index out of range"
      | Some frames =>
          match frames !! tr_j r with
          | None =>
              if length frames =? tr_j r
              then seek fuel (mkTaskBufferReader (tr_q r) (S (tr_i r)) 0 0 (tr_closed r))
              else Panic "index out of range"
          | Some f =>
              if length f =? tr_k r
              then seek fuel (mkTaskBufferReader (tr_q r) (tr_i r) (S (tr_j r)) 0 (tr_closed r))
              else Ret (r, Some f)
          end
      end
  end.

Definition taskBufferReader_Read (fuel : nat) (r : taskBufferReader) (len : nat) :
    outcome (taskBufferReader * (list row * option error)) :=
  if tr_closed r then Panic "closed"
  else
    '(r, found) ← seek fuel r;
    match found with
    | None => Ret (r, ([], Some EOF))
    | Some buf =>
        let n := if length buf - tr_k r <? len then length buf - tr_k r else len in
        let l := tr_k r + n in
        Ret (mkTaskBufferReader (tr_q r) (tr_i r) (tr_j r) l (tr_closed r),
             (take n (drop (tr_k r) buf), None))
    end.

#[export] Instance taskBufferReader_reader : Reader row taskBufferReader := taskBufferReader_Read.

Definition taskBufferReader_Close (r : taskBufferReader) : taskBufferReader * option error :=
  (mkTaskBufferReader [] (tr_i r) (tr_j r) (tr_k r) true, None).
#[export] Instance taskBufferReader_closer : Closer taskBufferReader := taskBufferReader_Close.

(** [b[partition : partition+1]]; the buffer has no spare capacity. *)
Definition taskBuffer_Reader (b : taskBuffer) (partition : Z) : outcome (anyReader row) :=
  if length b =? 0 then Ret (pack (row := row) (NopCloser EmptyReader))
  else
    if ((partition <? 0) || (Z.of_nat (length b) <=? partition))%Z
    then Panic "slice bounds out of range"
    else Ret (pack (mkTaskBufferReader (take 1 (drop (Z.to_nat partition) b)) 0 0 0 false)).

(** * Combiners *)

(** What the executor uses of a combiner (src/exec/combiner.go, Combiner.v):
    made for the output of a task, it takes rows and returns a reader. *)
Class CombinerOps (C : Type) := {
  newCombiner : Typ → string → userFunc → nat → outcome (C + error);
  Combine : nat → C → list row → outcome (C * option error);
  CombinerReader : C → outcome (C * (anyReader row + error));
}.

(** And what it promises: a combiner takes the rows that are combinable, and its
    reader streams their reduction. *)
Class CombinerLaws (C : Type) `{CombinerOps C} := {
  combined : Typ → userFunc → C → list row → Prop;
  combinable : Typ → userFunc → list row → Prop;
  reduces : Typ → userFunc → list row → list row → Prop;
  newCombiner_ok : ∀ typ name f targetSize, combinable typ f [] →
    ∃ c, newCombiner typ name f targetSize = Ret (inl c) ∧ combined typ f c [];
  Combine_ok : ∀ typ f c l rows, combined typ f c l → combinable typ f (l ++ rows) →
    ∃ c' f0, (∀ fuel, f0 ≤ fuel → Combine fuel c rows = Ret (c', None)) ∧ combined typ f c' (l ++ rows);
  CombinerReader_ok : ∀ typ f c l, combined typ f c l →
    ∃ c' r L, CombinerReader c = Ret (c', inl r) ∧ Streams r L ∧ reduces typ f l L;
  combinable_prefix : ∀ typ f l1 l2, combinable typ f (l1 ++ l2) → combinable typ f l1;
}.

(** * The executor *)

Record localExecutor := mkLocalExecutor { le_buffers : gmap nat taskBuffer }.

Definition newLocalExecutor : localExecutor := mkLocalExecutor ∅.

(** [multiReader]: the loop of sliceio's, without the calls of Close. *)
Definition exec_multiReader (readers : list (anyReader row)) : multiReader (anyReader row) :=
  mkMultiReader readers None.

Definition Executor_Reader (l : localExecutor) (task : nat) (partition : Z) :
    outcome (anyReader row) :=
  match le_buffers l !! task with
  | None => Ret (pack (mkErrReader (Err Other "no data for task")))
  | Some buf => taskBuffer_Reader buf partition
  end.

(** [errors.Match(fatalErr, err)]. *)
Definition is_fatal (e : error) : bool := match e with Err Fatal _ => true | _ => false end.

Definition deref {A} (m : gmap nat A) (t : nat) : outcome A :=
  match m !! t with Some x => Ret x | None => nil_deref end.

Section local.
Context {C : Type} `{CombinerOps C}.
(** The tasks, and the configured chunk size. *)
Context (tasks : gmap nat cTask) (defaultChunksize : nat).

(** The loop that reads all input of a dependency into a combiner. *)
Fixpoint combine_loop (loop fuel : nat) (reader : multiReader (anyReader row)) (c : C) :
    outcome (C + error) :=
  match loop with
  | 0 => NoFuel
  | S loop =>
      '(reader, (rows, err)) ← Read fuel reader defaultChunksize;
      match err with
      | Some (Err k msg) => Ret (inr (Err k ("error reading: " +:+ msg)))
      | _ =>
          '(c, cerr) ← Combine fuel c rows;
          match cerr with
          | Some e => Ret (inr (fatal e))
          | None =>
              if bool_decide (err = Some EOF) then Ret (inl c) else combine_loop loop fuel reader c
          end
      end
  end.

(** The readers of one dependency. *)
Definition depReader (fuel : nat) (w : world) (l : localExecutor) (T : cTask) (dep : TaskDep) :
    outcome (list (anyReader row) + error) :=
  n ← NumTask w dep;
  us ← dep_tasks w dep 0 n;
  q ← collect_from n 0 (λ j,
        u ← index us j; Executor_Reader l u (dep_Partition dep));
  t0 ← Task_i w dep 0;
  T0 ← deref tasks t0;
  match (if (0 <? n)%nat then ct_Combiner T0 else None) with
  | Some f =>
      let combineKey :=
        if bool_decide (ct_CombineKey T = "") then ct_Name T
        else mkTaskName 0 (ct_CombineKey T) 0 0 in
      c ← newCombiner (ct_Type T0) (TaskName_String combineKey) f (defaultChunksize * 100);
      match c with
      | inr e => Ret (inr (fatal e))
      | inl c =>
          c ← combine_loop fuel fuel (exec_multiReader q) c;
          match c with
          | inr e => Ret (inr e)
          | inl c =>
              '(_, r) ← CombinerReader c;
              match r with
              | inr e => Ret (inr (fatal e))
              | inl r => Ret (inl [r])
              end
          end
      end
  | None =>
      if dep_Expand dep then Ret (inl q)
      else Ret (inl [pack (exec_multiReader q)])
  end.

Fixpoint depReaders_loop (fuel : nat) (w : world) (l : localExecutor) (T : cTask)
    (deps : list TaskDep) : outcome (list (anyReader row) + error) :=
  match deps with
  | [] => Ret (inl [])
  | dep :: deps =>
      r ← depReader fuel w l T dep;
      match r with
      | inr e => Ret (inr e)
      | inl rs =>
          rest ← depReaders_loop fuel w l T deps;
          Ret (match rest with inl rs' => inl (rs ++ rs') | inr e => inr e end)
      end
  end.

Definition depReaders (fuel : nat) (w : world) (l : localExecutor) (T : cTask) :
    outcome (list (anyReader row) + error) :=
  depReaders_loop fuel w l T (ct_Deps T).

(** ** bufferOutput *)

(** Appends a row to the last frame of a partition, or to a new frame when
    there is none or it is at its capacity. *)
Definition append_row (frames : list (list row)) (x : row) : list (list row) :=
  match list.last frames with
  | Some f =>
      if length f =? defaultChunksize then frames ++ [[x]]
      else take (length frames - 1) frames ++ [f ++ [x]]
  | None => frames ++ [[x]]
  end.

(** Appends row [i] of a batch to partition [shards[i]]. *)
Fixpoint partition_rows (buf : taskBuffer) (rows : list row) (shards : list Z) : outcome taskBuffer :=
  match rows, shards with
  | x :: rows, p :: shards =>
      frames ← index buf p;
      partition_rows (<[Z.to_nat p := append_row frames x]> buf) rows shards
  | _, _ => Ret buf
  end.

(** One batch. *)
Definition buffer_batch (T : cTask) (buf : taskBuffer) (rows : list row) : outcome taskBuffer :=
  if (1 <? ct_NumPartition T)%Z then
    match ct_Partitioner T with
    | None => nil_deref
    | Some part => shards ← part rows (ct_NumPartition T); partition_rows buf rows shards
    end
  else if 0 <? length rows then
    frames ← index buf 0; Ret (<[0 := frames ++ [rows]]> buf)
  else Ret buf.

Fixpoint bufferOutput_loop (loop fuel : nat) (T : cTask) (out : anyReader row) (buf : taskBuffer) :
    outcome (taskBuffer + error) :=
  match loop with
  | 0 => NoFuel
  | S loop =>
      '(out, (rows, err)) ← Read fuel out defaultChunksize;
      match err with
      | Some (Err k msg) => Ret (inr (Err k msg))
      | _ =>
          buf ← buffer_batch T buf rows;
          if bool_decide (err = Some EOF) then Ret (inl buf) else bufferOutput_loop loop fuel T out buf
      end
  end.

(** A panic while the output is computed becomes a fatal error. *)
Definition recover {A} (o : outcome (A + error)) : outcome (A + error) :=
  match o with
  | Panic msg => Ret (inr (Err Fatal ("panic while evaluating slice: " +:+ msg)))
  | _ => o
  end.

Definition bufferOutput (fuel : nat) (T : cTask) (out : anyReader row) :
    outcome (taskBuffer + error) :=
  if (NumOut (ct_Type T) =? 0)%Z then
    '(_, (_, err)) ← Read fuel out 0;
    Ret (match err with Some (Err k msg) => inr (Err k msg) | _ => inl [] end)
  else if (ct_NumPartition T <? 0)%Z then Panic "makeslice: len out of range"
  else recover (bufferOutput_loop fuel fuel T out (replicate (Z.to_nat (ct_NumPartition T)) [])).

(** ** Run and Discard *)

Definition Run (fuel : nat) (task : nat) (l : localExecutor) (w : world) :
    outcome (localExecutor * world) :=
  T ← deref tasks task;
  in_ ← depReaders fuel w l T;
  match in_ with
  | inr err =>
      w ← (if is_fatal err then Error task err w else Set_ task TaskLost w); Ret (l, w)
  | inl in_ =>
      w ← Set_ task TaskRunning w;
      do_ ← match ct_Do T with Some f => Ret f | None => nil_deref end;
      out ← do_ in_;
      buf ← bufferOutput fuel T out;
      R ← deref (w_tasks w) task;
      match buf with
      | inl buf =>
          Ret (mkLocalExecutor (<[task := buf]> (le_buffers l)),
               Broadcast task (with_state TaskOk (t_err R) R) w)
      | inr err =>
          Ret (l, Broadcast task
                    (with_state (if is_fatal err then TaskErr else TaskLost) (Some err) R) w)
      end
  end.

Definition Discard (task : nat) (l : localExecutor) (w : world) : outcome (localExecutor * world) :=
  T ← deref tasks task;
  if bool_decide (is_Some (ct_Combiner T)) && negb (bool_decide (ct_CombineKey T = ""))
  then Ret (l, w)
  else
    R ← deref (w_tasks w) task;
    if decide (t_state R = TaskOk) then
      Ret (mkLocalExecutor (delete task (le_buffers l)),
           Broadcast task (with_state TaskLost (t_err R) R) w)
    else Ret (l, w).
End local.
