(* ===== verification/Session.v ===== *)
(** Sessions (src/exec/session.go): configuration, running a func, and the results
    of runs.

    The state of a program is its global variables (registered funcs and metrics),
    the tasks compiled so far, with their runtime state, and the session.  Status
    reporting, event logging and the debug server are left out. *)
From Stdlib Require Import QArith.
From S2P Require Import Prelude Types SliceIO Scanner Slices Readers Task Metrics SliceStatus Func Compile CompileGraph Local.
#[local] Close Scope Q_scope.

(** * Configuration *)

(** Floating point numbers are only compared and passed on. *)
Definition DefaultMaxLoad : Q := 19 # 20.

Inductive executorKind (System : Type) :=
| localExec
| bigmachineExec (system : System).
Arguments localExec {System}.
Arguments bigmachineExec {System} system.

Section config.
(** bigmachine's systems. *)
Context {System : Type} (bigmachine_Local : System).

Record Session := mkSession {
  ss_index : Z;
  ss_p : Z;
  ss_maxLoad : Q;
  ss_executor : option (executorKind System);
  ss_tracePath : string;
  ss_machineCombiners : bool;
  ss_roots : gset nat;
}.

(** [atomic.AddInt32(&nextSessionIndex, 1) - 1]. *)
Definition newSession (nextSessionIndex : Z) : Z * Session :=
  let next := wrap32 (nextSessionIndex + 1) in
  (next, mkSession (wrap32 (next - 1)) 0 0 None "" false ∅).

Abbreviation Option := (Session → Session).

Definition Local_ : Option := λ s,
  mkSession (ss_index s) (ss_p s) (ss_maxLoad s) (Some localExec) (ss_tracePath s) (ss_machineCombiners s) (ss_roots s).
Definition Bigmachine (system : System) : Option := λ s,
  mkSession (ss_index s) (ss_p s) (ss_maxLoad s) (Some (bigmachineExec system)) (ss_tracePath s) (ss_machineCombiners s) (ss_roots s).
Definition Parallelism (p : Z) : outcome Option :=
  if (p <=? 0)%Z then Panic "exec.Parallelism: p <= 0"
  else Ret (λ s, mkSession (ss_index s) p (ss_maxLoad s) (ss_executor s) (ss_tracePath s) (ss_machineCombiners s) (ss_roots s)).
Definition MaxLoad (maxLoad : Q) : outcome Option :=
  if Qle_bool maxLoad 0 then Panic "exec.MaxLoad: maxLoad <= 0"
  else Ret (λ s, mkSession (ss_index s) (ss_p s) maxLoad (ss_executor s) (ss_tracePath s) (ss_machineCombiners s) (ss_roots s)).
Definition TracePath (path : string) : Option := λ s,
  mkSession (ss_index s) (ss_p s) (ss_maxLoad s) (ss_executor s) path (ss_machineCombiners s) (ss_roots s).
Definition MachineCombiners : Option := λ s,
  mkSession (ss_index s) (ss_p s) (ss_maxLoad s) (ss_executor s) (ss_tracePath s) true (ss_roots s).

(** Start up to the start of the executor. *)
Definition Start (options : list Option) (nextSessionIndex : Z) : Z * Session :=
  let '(next, s) := newSession nextSessionIndex in
  let s := foldl (λ s opt, opt s) s options in
  (next, mkSession (ss_index s)
    (if (ss_p s =? 0)%Z then 1%Z else ss_p s)
    (if Qeq_bool (ss_maxLoad s) 0 then DefaultMaxLoad else ss_maxLoad s)
    (match ss_executor s with None => Some (bigmachineExec bigmachine_Local) | e => e end)
    (ss_tracePath s) (ss_machineCombiners s) (ss_roots s)).

(** An option as the functions above make them. *)
Definition config_option (opt : Option) : Prop :=
  opt = Local_ ∨ (∃ sys, opt = Bigmachine sys) ∨ (∃ p, Parallelism p = Ret opt) ∨ (∃ q, MaxLoad q = Ret opt) ∨
  (∃ path, opt = TracePath path) ∨ opt = MachineCombiners.

(** A started session has an executor, at least one proc and a positive maximum
    load. *)
Lemma Start_spec options next next' s :
  Forall config_option options → Start options next = (next', s) →
  is_Some (ss_executor s) ∧ (1 <= ss_p s)%Z ∧ (0 < ss_maxLoad s)%Q ∧ ss_roots s = ∅.
Proof.
  intros Hopts. unfold Start. destruct (newSession next) as [n0 s0] eqn:Hs0. intros [= <- <-]. simpl.
  assert (∀ s0, (0 <= ss_p s0)%Z ∧ (0 <= ss_maxLoad s0)%Q ∧ ss_roots s0 = ∅ →
    let s := foldl (λ s opt, opt s) s0 options in (0 <= ss_p s)%Z ∧ (0 <= ss_maxLoad s)%Q ∧ ss_roots s = ∅) as Hfold.
  { clear s0 Hs0. induction Hopts as [|opt options Hopt _ IH]; intros s0 Hs0; [done|]. simpl. apply IH.
    destruct Hs0 as (Hp & Hm & Hr).
    destruct Hopt as [->|[[sys ->]|[[p Hopt]|[[q Hopt]|[[path ->]| ->]]]]]; [done|done| | |done|done].
    - unfold Parallelism in Hopt. destruct (Z.leb_spec p 0); [done|]. injection Hopt as <-. simpl. split_and!; [lia|done|done].
    - unfold MaxLoad in Hopt. destruct (Qle_bool q 0) eqn:Hq; [done|]. injection Hopt as <-. simpl. split_and!; [done| |done].
      apply Qlt_le_weak, Qnot_le_lt. intros Hle%Qle_bool_iff. congruence. }
  destruct (Hfold s0) as (Hp & Hm & Hr).
  { injection Hs0 as <- <-. simpl. split_and!; [lia|apply Qle_refl|done]. }
  simpl in *. split_and!; [by destruct (ss_executor _)| | |done].
  - destruct (Z.eqb_spec (ss_p (foldl (λ s opt, opt s) s0 options)) 0); lia.
  - destruct (Qeq_bool (ss_maxLoad (foldl (λ s opt, opt s) s0 options)) 0) eqn:Hq; [done|].
    apply Qle_lteq in Hm as [|Hm]; [done|]. exfalso. apply Qeq_sym, Qeq_bool_iff in Hm. congruence.
Qed.
End config.
Arguments Session : clear implicits.

(** * Executors *)

(** What a session uses of an executor (src/exec/eval.go, Executor), on the tasks
    that have been compiled. *)
Class Executor (E : Type) := {
  ex_Run : gmap nat cTask → nat → nat → E → world → outcome (E * world);
  ex_Reader : E → nat → Z → outcome (anyReader row);
  ex_Discard : gmap nat cTask → nat → E → world → outcome (E * world);
}.

#[export] Instance local_Executor {C} `{CombinerOps C} (defaultChunksize : nat) : Executor localExecutor := {|
  ex_Run tasks := Local.Run tasks defaultChunksize;
  ex_Reader := Executor_Reader;
  ex_Discard tasks := Local.Discard tasks;
|}.

(** * Running a func *)

Record program := mkProgram {
  pr_globals : globals;
  pr_tasks : gmap nat cTask;
  pr_next : nat;
  pr_world : world;
}.

(** Compiled tasks start in the zero state. *)
Definition start_tasks (tasks : gmap nat cTask) (w : world) : world :=
  mkWorld (w_tasks w ∪ (run_task <$> tasks)) (w_subscribers w) (w_channels w) (w_closed w).

(** The scope of a task, and that of the result of an invocation. *)
Definition task_scope (t : nat) : nat := 2 * t.
Definition result_scope (invIndex : Z) : nat := 2 * Z.to_nat invIndex + 1.

Record RunResult := mkRunResult {
  rr_Slice : Slice;
  rr_invIndex : Z;
  rr_tasks : list nat;
}.

Section run.
Context {System : Type} (has_method : gotype → string → bool) (frame_Hash : row → outcome Z).
Context (SReader : Slice → Z → list (anyReader row) → outcome (anyReader row)).

(** [run] up to the call of Eval on the tasks of the result. *)
Definition run (s : Session System) (location : string) (funcv : FuncValue) (args : list iface) (p : program) :
    outcome (program * Session System * (RunResult + error)) :=
  '(g, inv) ← new_invocation has_method funcv location args (pr_globals p);
  slice ← Invoke has_method g inv;
  '(c, res) ← compile frame_Hash SReader (inv_Index inv) (inv_Location inv) (ss_machineCombiners s)
    makeCompileEnv (pr_tasks p) (pr_next p) slice;
  let p := mkProgram g (c_tasks c) (c_next c) (start_tasks (c_tasks c) (pr_world p)) in
  match res with
  | inr err => Ret (p, s, inr err)
  | inl tasks =>
      Ret (p, mkSession (ss_index s) (ss_p s) (ss_maxLoad s) (ss_executor s) (ss_tracePath s) (ss_machineCombiners s)
                (list_to_set tasks ∪ ss_roots s),
           inl (mkRunResult slice (inv_Index inv) tasks))
  end.
End run.

(** * Results *)

Section result.
Context {E : Type} `{Executor E}.

Fixpoint open_loop (ex : E) (tasks : list nat) : outcome (list (anyReader row)) :=
  match tasks with
  | [] => Ret []
  | t :: tasks => r ← ex_Reader ex t 0; rs ← open_loop ex tasks; Ret (r :: rs)
  end.
Definition Result_open (ex : E) (r : RunResult) : outcome (multiReader (anyReader row)) :=
  readers ← open_loop ex (rr_tasks r); Ret (MultiReader readers).

Definition Result_Scanner (ex : E) (r : RunResult) : outcome (Scanner (R := multiReader (anyReader row)) (row := row) (T := gotype)) :=
  reader ← Result_open ex r; Ret (NewScanner (cols (typ_of (rr_Slice r))) reader).

(** [Session.Discard]; the discards run concurrently, each under the lock of its
    task. *)
Definition Session_Discard (tasks : gmap nat cTask) (fuel : nat) (w : world) (roots : list nat) (ex : E) :
    outcome (E * world) :=
  '(ex, w, _) ← iterTasks w (λ task '(ex, w),
    '(ex, w) ← ex_Discard tasks task ex w; Ret ((ex, w), None)) fuel roots (ex, w);
  Ret (ex, w).

Definition Result_Discard (tasks : gmap nat cTask) (fuel : nat) (w : world) (r : RunResult) (ex : E) :
    outcome (E * world) :=
  Session_Discard tasks fuel w (rr_tasks r) ex.
End result.

(** [Scope]; [initScope] says whether the scope was merged by an earlier call. *)
Definition Result_Scope (fuel : nat) (w : world) (r : RunResult) (initScope : bool) (m : metrics) : outcome (metrics * nat) :=
  let scope := result_scope (rr_invIndex r) in
  if initScope then Ret (m, scope)
  else
    '(m, _) ← iterTasks w (λ task m, m ← Merge scope (task_scope task) m; Ret (m, None)) fuel (rr_tasks r) m;
    Ret (m, scope).

(** * Metrics of a result *)

(** The sum of a counter over tasks. *)
Definition sum_over (m : metrics) (L : list nat) (i : nat) : Z := foldr (λ t n, (val m (task_scope t) i + n)%Z) 0%Z L.

Definition merged (scope : nat) (m : metrics) (task : nat) : metrics :=
  match Merge scope (task_scope task) m with Ret m => m | _ => m end.

(** Merging the scopes of tasks into the scope of a result. *)
Lemma merged_spec inv m t :
  wf m → owned m (result_scope inv) →
  Merge (result_scope inv) (task_scope t) m = Ret (merged (result_scope inv) m t) ∧
  wf (merged (result_scope inv) m t) ∧ owned (merged (result_scope inv) m t) (result_scope inv) ∧
  ms_registry (merged (result_scope inv) m t) = ms_registry m ∧
  (∀ u i, val (merged (result_scope inv) m t) (task_scope u) i = val m (task_scope u) i) ∧
  ∀ i, i < length (ms_registry m) → val (merged (result_scope inv) m t) (result_scope inv) i =
    wrap64 (val m (result_scope inv) i + val m (task_scope t) i).
Proof.
  intros Hm Ho. destruct (Merge_spec (result_scope inv) (task_scope t) m Hm Ho) as (m' & Heq & Hm' & Ho' & Hreg & Hval).
  { unfold result_scope, task_scope. lia. }
  unfold merged. rewrite Heq. split_and!; [done..| |].
  - intros u i. rewrite Hval, decide_False; [done|]. unfold result_scope, task_scope. lia.
  - intros i Hi. by rewrite Hval, decide_True.
Qed.

Lemma foldl_merged inv m L i :
  wf m → owned m (result_scope inv) → i < length (ms_registry m) →
  val (foldl (merged (result_scope inv)) m L) (result_scope inv) i =
    wrap64 (val m (result_scope inv) i + sum_over m L i).
Proof.
  revert m. induction L as [|t L IH]; intros m Hm Ho Hi; simpl.
  { rewrite Z.add_0_r. symmetry. by apply wrap64_id, val_range. }
  destruct (merged_spec inv m t Hm Ho) as (_ & Hm' & Ho' & Hreg & Hother & Hval).
  rewrite IH by (by rewrite ?Hreg). rewrite Hval, wrap64_add_l by done. f_equal.
  assert (sum_over (merged (result_scope inv) m t) L i = sum_over m L i) as ->; [|unfold sum_over; simpl; lia].
  clear IH. induction L as [|u L IHL]; [done|]. unfold sum_over in *. simpl. by rewrite Hother, IHL.
Qed.

(** C33. The scope of a result holds, for every counter, the sum over all tasks that
    the result's tasks depend on, each counted once however many paths lead to it;
    a second call merges nothing. *)
Theorem Result_Scope_correct w rank fuel r m :
  graph_ok w → (∀ t u, edge w t u → rank u < rank t) →
  exclusive w (rr_tasks r) → NoDup (rr_tasks r) →
  (∀ t, t ∈ rr_tasks r → t ∈ dom (w_tasks w) ∧ rank t < fuel) →
  wf m → owned m (result_scope (rr_invIndex r)) → (∀ i, val m (result_scope (rr_invIndex r)) i = 0%Z) →
  ∃ L m', NoDup L ∧ (∀ u, u ∈ L ↔ ∃ t, t ∈ rr_tasks r ∧ rtc (edge w) t u) ∧
    Result_Scope fuel w r false m = Ret (m', result_scope (rr_invIndex r)) ∧
    (∀ i, i < length (ms_registry m) → val m' (result_scope (rr_invIndex r)) i = wrap64 (sum_over m L i)) ∧
    ∀ m2, Result_Scope fuel w r true m2 = Ret (m2, result_scope (rr_invIndex r)).
Proof.
  intros Hg Hrk Hex HN Hdom Hm Ho H0. set (inv := rr_invIndex r) in *.
  destruct (iterTasks_spec w (λ task m, m ← Merge (result_scope inv) (task_scope task) m; Ret (m, None))
    (λ m, wf m ∧ owned m (result_scope inv)) (merged (result_scope inv))) with (rank := rank) (fuel := fuel)
    (ts := rr_tasks r) (s := m) as (L & Hit & HNL & HL & _); try done.
  { intros t s _ [Hs Hos]. destruct (merged_spec inv s t Hs Hos) as (-> & ? & ? & _). done. }
  exists L, (foldl (merged (result_scope inv)) m L). split_and!; [done..| | |done].
  - unfold Result_Scope. fold inv. by rewrite Hit.
  - intros i Hi. rewrite foldl_merged by done. by rewrite H0.
Qed.
