(* ===== verification/LocalSpec.v ===== *)
(** What the local executor computes (src/exec/local.go, src/exec/buffer.go):
    task buffers hold the partitioned output of tasks, dependent tasks read it
    back, and running the tasks of a compiled slice, dependencies first, computes
    the slice. *)
From S2P Require Import Prelude Types SliceIO Slices Readers Task Eval Compile CompileSpec CompileGraph Local.

#[local] Set Warnings "-register-all".

(** * Reading a task buffer *)

(** The rows that a reader has left of its one partition. *)
Definition left_of (frames : list (list row)) (r : taskBufferReader) (l : list row) : Prop :=
  tr_q r = [frames] ∧ tr_closed r = false ∧
  ((tr_i r = 1 ∧ l = []) ∨
   (tr_i r = 0 ∧ tr_j r = length frames ∧ l = []) ∨
   (tr_i r = 0 ∧ ∃ f, frames !! tr_j r = Some f ∧ tr_k r ≤ length f ∧
      l = drop (tr_k r) f ++ concat (drop (S (tr_j r)) frames))).

Lemma left_of_frame frames q i j l :
  q = [frames] → i = 0 → j ≤ length frames → l = concat (drop j frames) →
  left_of frames (mkTaskBufferReader q i j 0 false) l.
Proof.
  intros -> -> Hj ->. split_and!; [done..|]. simpl.
  destruct (frames !! j) as [f|] eqn:Hf.
  - right; right. split; [done|]. exists f. split_and!; [done|lia|].
    rewrite drop_0. by rewrite (drop_S _ _ _ Hf).
  - apply lookup_ge_None in Hf. right; left. rewrite drop_ge by done. split_and!; [done|lia|done].
Qed.

(** The loop finds a frame with rows left, or the end. *)
Lemma seek_spec frames r l :
  left_of frames r l →
  ∃ r', (∃ f0, ∀ f, f0 ≤ f → seek f r = Ret (r', match l with [] => None | _ => frames !! tr_j r' end)) ∧
    left_of frames r' l ∧
    (l ≠ [] → tr_i r' = 0 ∧ ∃ f, frames !! tr_j r' = Some f ∧ tr_k r' < length f ∧
       l = drop (tr_k r') f ++ concat (drop (S (tr_j r')) frames)).
Proof.
  remember (2 * (1 - tr_i r) + (length frames - tr_j r)) as m eqn:Hm. revert r l Hm.
  induction (lt_wf m) as [m _ IH]. intros [q i j k closed] l Hm (Hq & Hcl & Hpos). simpl in *. subst q closed.
  destruct Hpos as [[-> ->]|[(-> & -> & ->)|(-> & f & Hf & Hk & Hl)]].
  - exists (mkTaskBufferReader [frames] 1 j k false). split_and!; [|by split_and!; auto|done].
    exists 1. intros [|fuel] Hfuel; [lia|done].
  - exists (mkTaskBufferReader [frames] 1 0 0 false). split_and!; [|by split_and!; auto|done].
    exists 2. intros [|[|fuel]] Hfuel; [lia..|]. simpl. rewrite lookup_ge_None_2 by done.
    by rewrite Nat.eqb_refl.
  - pose proof (lookup_lt_Some _ _ _ Hf) as Hj.
    destruct (decide (length f = k)) as [Hkf|Hkf].
    + destruct (IH (2 + (length frames - S j))) with (r := mkTaskBufferReader [frames] 0 (S j) 0 false) (l := l)
        as (r' & (f0 & Hr) & Hl' & Hpos); [lia|simpl; lia| |].
      { apply left_of_frame; [done..|lia|]. rewrite Hl, drop_ge by lia. done. }
      exists r'. split_and!; [|done..]. exists (S f0). intros [|fuel] Hfuel; [lia|].
      simpl. rewrite Hf, (proj2 (Nat.eqb_eq _ _) Hkf). apply Hr. lia.
    + exists (mkTaskBufferReader [frames] 0 j k false).
      assert (l ≠ []) as Hne.
      { rewrite Hl. intros Hnil%app_eq_nil. destruct Hnil as [Hd _].
        apply (f_equal length) in Hd. rewrite length_drop in Hd. simpl in Hd. lia. }
      split_and!.
      * exists 1. intros [|fuel] Hfuel; [lia|]. simpl. rewrite Hf, (proj2 (Nat.eqb_neq _ _) Hkf).
        by destruct l.
      * split_and!; [done..|]. right; right. split; [done|]. by exists f.
      * intros _. split; [done|]. exists f. split_and!; [done|simpl; lia|done].
Qed.

Lemma taskBufferReader_streams frames :
  Streams_as strict (mkTaskBufferReader [frames] 0 0 0 false) (concat frames).
Proof.
  eexists. apply (streams_brisk (left_of frames)); [|by apply left_of_frame; [done..|lia|]].
  assert (∀ r n, left_of frames r [] → ∃ r', Reads r n r' [] (Some EOF) ∧ left_of frames r' []) as Hend.
  { intros r n Hr. destruct (seek_spec frames r [] Hr) as (r' & (f0 & Hs) & Hl & _).
    exists r'. split; [|done]. exists f0. intros f Hf.
    unfold Read, taskBufferReader_reader, taskBufferReader_Read.
    destruct Hr as (_ & -> & _). by rewrite Hs by done. }
  intros r l n Hr Hn. destruct l as [|x l].
  { destruct (Hend r n Hr) as (r' & HR & Hr'). exists r', [], (Some EOF).
    split_and!; [done|simpl; lia|done..|]. intros _.
    apply (Drained_intro (λ r, left_of frames r [])); [|done]. intros; by apply Hend. }
  destruct (seek_spec frames r (x :: l) Hr) as ([q i j k closed] & (f0 & Hs) & Hl & Hpos).
  destruct (Hpos ltac:(done)) as (Hi & f & Hf & Hk & Hxl). simpl in *. subst i.
  destruct Hl as (Hq & Hcl & _). simpl in *. subst q closed.
  set (m := if length f - k <? n then length f - k else n).
  assert (0 < m ≤ n ∧ m ≤ length f - k) as Hm.
  { unfold m. destruct (Nat.ltb_spec (length f - k) n); lia. }
  eexists _, _, None. split_and!.
  - exists f0. intros fuel Hfuel. unfold Read, taskBufferReader_reader, taskBufferReader_Read.
    destruct Hr as (_ & -> & _). rewrite Hs by done. simpl. rewrite Hf. simpl. done.
  - rewrite length_take. fold m. lia.
  - fold m. intros E. apply (f_equal length) in E. rewrite length_take, length_drop in E. simpl in E. lia.
  - fold m. exists (drop (k + m) f ++ concat (drop (S j) frames)). split.
    + rewrite Hxl, (assoc_L (++)), <-drop_drop, take_drop. done.
    + split_and!; [done..|]. right; right. split; [done|]. exists f. simpl. split_and!; [done|lia|done].
Qed.

(** A reader of a partition streams its rows. *)
Lemma taskBuffer_Reader_spec (b : taskBuffer) (p : nat) frames :
  b !! p = Some frames →
  ∃ r, taskBuffer_Reader b (Z.of_nat p) = Ret r ∧ Streams_as strict r (concat frames).
Proof.
  intros Hp. pose proof (lookup_lt_Some _ _ _ Hp) as Hlt.
  unfold taskBuffer_Reader. destruct (Nat.eqb_spec (length b) 0); [lia|].
  rewrite (proj2 (Z.ltb_ge _ _)), (proj2 (Z.leb_gt _ _)) by lia. simpl.
  eexists. split; [done|]. apply pack_Streams_as. rewrite Nat2Z.id.
  rewrite (drop_S _ _ _ Hp). simpl. rewrite take_0. apply taskBufferReader_streams.
Qed.

(** * Buffering the output of a task *)

Section buffer.
Context (defaultChunksize : nat) (CHUNK : 0 < defaultChunksize).

(** A buffer of [n] partitions that holds the rows [l], each in the partition
    [f] assigns, in order. *)
Definition buffered (f : row → nat) (n : nat) (buf : taskBuffer) (l : list row) : Prop :=
  length buf = n ∧ ∀ p frames, buf !! p = Some frames → concat frames = filter (λ x, f x = p) l.

(** The partitioner of a task assigns [f] to the rows of [l]. *)
Definition assigns (T : cTask) (f : row → nat) (l : list row) : Prop :=
  (1 <= ct_NumPartition T)%Z ∧ (∀ x, x ∈ l → f x < Z.to_nat (ct_NumPartition T)) ∧
  ((1 < ct_NumPartition T)%Z → ∃ part, ct_Partitioner T = Some part ∧
     ∀ rows, rows ⊆ l → part rows (ct_NumPartition T) = Ret (Z.of_nat ∘ f <$> rows)).

Lemma assigns_subset T f l l' : assigns T f l → l' ⊆ l → assigns T f l'.
Proof.
  intros (H1 & H2 & H3) Hl. split_and!; [done|by auto|]. intros Hn.
  destruct (H3 Hn) as (part & ? & Hp). exists part. split; [done|]. intros rows Hr. apply Hp. set_solver.
Qed.

Lemma append_row_concat frames x :
  concat (append_row defaultChunksize frames x) = concat frames ++ [x].
Proof.
  unfold append_row. destruct (list.last frames) as [f|] eqn:Hl.
  - apply last_Some in Hl as [fs ->]. rewrite length_app. simpl.
    replace (length fs + 1 - 1) with (length fs) by lia. rewrite take_app_length.
    destruct (length f =? defaultChunksize); rewrite !concat_app; simpl;
      by rewrite ?app_nil_r, ?(assoc_L (++)).
  - by rewrite concat_app.
Qed.

Lemma partition_rows_spec f n buf l rows :
  buffered f n buf l → (∀ x, x ∈ rows → f x < n) →
  ∃ buf', partition_rows defaultChunksize buf rows (Z.of_nat ∘ f <$> rows) = Ret buf' ∧
    buffered f n buf' (l ++ rows).
Proof.
  revert buf l. induction rows as [|x rows IH]; intros buf l [Hlen Hb] Hf; simpl.
  { exists buf. by rewrite app_nil_r. }
  destruct (lookup_lt_is_Some_2 buf (f x)) as [frames Hfr]; [rewrite Hlen; apply Hf; set_solver|].
  rewrite index_lookup, Hfr. cbn [mbind outcome_bind]. rewrite Nat2Z.id.
  destruct (IH (<[f x := append_row defaultChunksize frames x]> buf) (l ++ [x])) as (buf' & Hr & Hb').
  - split; [by rewrite length_insert|]. intros p fs. rewrite list.filter_app.
    destruct (decide (p = f x)) as [->|Hne].
    + rewrite list_lookup_insert_eq by (by eapply lookup_lt_Some). intros [= <-].
      rewrite append_row_concat, (Hb _ _ Hfr). rewrite filter_cons_True by done. done.
    + rewrite list_lookup_insert_ne by done. intros Hp. rewrite (Hb _ _ Hp).
      rewrite filter_cons_False by done. by rewrite filter_nil, app_nil_r.
  - intros y Hy. apply Hf. set_solver.
  - exists buf'. split; [done|]. by rewrite <-(assoc_L (++)) in Hb'.
Qed.

Lemma buffer_batch_spec T f buf l rows :
  assigns T f (l ++ rows) → buffered f (Z.to_nat (ct_NumPartition T)) buf l →
  ∃ buf', buffer_batch defaultChunksize T buf rows = Ret buf' ∧
    buffered f (Z.to_nat (ct_NumPartition T)) buf' (l ++ rows).
Proof.
  intros (Hn & Hf & Hp) Hb. unfold buffer_batch.
  destruct (Z.ltb_spec 1 (ct_NumPartition T)) as [H1|H1].
  - destruct (Hp H1) as (part & -> & Hpart). rewrite Hpart by set_solver. cbn [mbind outcome_bind].
    apply partition_rows_spec; [done|]. intros x Hx. apply Hf. set_solver.
  - assert (ct_NumPartition T = 1%Z) as HN by lia. rewrite HN in *.
    destruct Hb as [Hlen Hb]. destruct (lookup_lt_is_Some_2 buf 0) as [frames Hfr]; [lia|].
    assert (∀ l', l' ⊆ l ++ rows → filter (λ x, f x = 0) l' = l') as Hall.
    { intros l' Hl'. apply filter_all, list.Forall_forall. intros x Hx. assert (f x < 1) by (apply Hf; set_solver). lia. }
    destruct (Nat.ltb_spec 0 (length rows)) as [Hr|Hr].
    + destruct buf as [|b0 buf]; [done|]. simplify_eq/=. eexists. split; [done|]. split; [done|].
      intros [|p] fs Hfs; simpl in Hfs.
      * injection Hfs as <-. rewrite concat_app. simpl. rewrite app_nil_r.
        rewrite (Hb 0 _ eq_refl), !Hall by set_solver. done.
      * destruct buf; [done|simpl in Hlen; lia].
    + destruct rows; [|simpl in Hr; lia]. exists buf. by rewrite app_nil_r.
Qed.

Lemma bufferOutput_loop_spec T f k out buf l l' :
  streams plain k out l' → assigns T f (l ++ l') → buffered f (Z.to_nat (ct_NumPartition T)) buf l →
  ∃ buf', (∃ L0 f0, ∀ L fuel, L0 ≤ L → f0 ≤ fuel →
      bufferOutput_loop defaultChunksize L fuel T out buf = Ret (inl buf')) ∧
    buffered f (Z.to_nat (ct_NumPartition T)) buf' (l ++ l').
Proof.
  revert out buf l l'. induction k as [|k IH]; intros out buf l l' Hs Ha Hb; [done|].
  destruct (Hs defaultChunksize CHUNK) as (out' & rows & oe & [f0 HR] & _ & Hoe).
  assert (∃ rest, l' = rows ++ rest) as [rest Hl'].
  { destruct oe as [e|]; [destruct Hoe as (_ & -> & _); exists []; by rewrite app_nil_r|].
    destruct Hoe as (_ & rest & -> & _). by exists rest. }
  destruct (buffer_batch_spec T f buf l rows) as (buf1 & Hbatch & Hb1); [|done|].
  { eapply assigns_subset; [done|]. rewrite Hl'. set_solver. }
  destruct oe as [e|].
  - destruct Hoe as (-> & -> & _). exists buf1. split; [|done].
    exists 1, f0. intros [|L] fuel HL Hfuel; [lia|]. simpl. rewrite HR by done. simpl.
    by rewrite Hbatch.
  - destruct Hoe as (_ & l'' & -> & Hs').
    destruct (IH out' buf1 (l ++ rows) l'' Hs') as (buf' & (L0 & f1 & Hr) & Hb').
    { by rewrite <-(assoc_L (++)). } { done. }
    exists buf'. rewrite <-(assoc_L (++)) in Hb'. split; [|done].
    exists (S L0), (f0 `max` f1). intros [|L] fuel HL Hfuel; [lia|]. simpl. rewrite HR by lia. simpl.
    rewrite Hbatch. simpl. apply Hr; lia.
Qed.

Lemma bufferOutput_spec T f out l :
  (1 <= NumOut (ct_Type T))%Z → Streams out l → assigns T f l →
  ∃ buf f0, (∀ fuel, f0 ≤ fuel → bufferOutput defaultChunksize fuel T out = Ret (inl buf)) ∧
    buffered f (Z.to_nat (ct_NumPartition T)) buf l.
Proof.
  intros HN [k Hs] Ha. pose proof Ha as (Hn & _ & _).
  destruct (bufferOutput_loop_spec T f k out (replicate (Z.to_nat (ct_NumPartition T)) []) [] l)
    as (buf & (L0 & f0 & Hr) & Hb); [done..| |].
  { split; [apply length_replicate|]. intros p fs Hp. apply lookup_replicate in Hp as [-> _]. done. }
  exists buf, (L0 `max` f0). split; [|done]. intros fuel Hfuel. unfold bufferOutput.
  rewrite (proj2 (Z.eqb_neq _ _)), (proj2 (Z.ltb_ge _ _)) by lia. by rewrite Hr by lia.
Qed.
End buffer.
