(* ===== verification/LocalRun.v ===== *)
(** Running a compiled slice on the local executor (src/exec/local.go over the
    graphs of src/exec/compile.go): the rows that the tasks leave in their buffers
    are those of a reference semantics of slices, which knows neither pipelines
    nor tasks. *)
From S2P Require Import Prelude Types SliceIO Slices Readers Task Eval Compile CompileSpec CompileGraph Local LocalSpec.

#[local] Set Warnings "-register-all".

(** * Reading from dependencies *)

Section deps.
Context {C : Type} {CO : CombinerOps C} {CL : CombinerLaws C}.
Context (tasks : gmap nat cTask) (defaultChunksize : nat) (CHUNK : 0 < defaultChunksize).

(** The runtime tasks have the dependencies and groups of the compiled ones. *)
Definition tasks_agree (w : world) : Prop := ∀ t T, tasks !! t = Some T →
  ∃ R, w_tasks w !! t = Some R ∧ t_Deps R = ct_Deps T ∧ t_Group R = ct_Group T.

Lemma dep_tasks_single w h part expand key T :
  tasks_agree w → tasks !! h = Some T → ct_Group T = [] →
  NumTask w (mkTaskDep h part expand key) = Ret 1 ∧
  dep_tasks w (mkTaskDep h part expand key) 0 1 = Ret [h].
Proof.
  intros Hw HT HG. destruct (Hw h T HT) as (R & HR & _ & HRG).
  unfold NumTask, with_task. simpl. rewrite HR, HRG, HG. done.
Qed.

Lemma dep_tasks_group w h part expand key T g :
  tasks_agree w → tasks !! h = Some T → ct_Group T = h :: g →
  NumTask w (mkTaskDep h part expand key) = Ret (S (length g)) ∧
  dep_tasks w (mkTaskDep h part expand key) 0 (S (length g)) = Ret (h :: g).
Proof.
  intros Hw HT HG. destruct (Hw h T HT) as (R & HR & _ & HRG).
  split.
  - unfold NumTask, with_task. simpl. by rewrite HR, HRG, HG.
  - cbn [dep_tasks]. unfold Task_i at 1. simpl.
    rewrite (dep_tasks_drop w _ R); [|done|lia|rewrite HRG, HG; simpl; lia].
    rewrite HRG, HG. done.
Qed.

(** Readers of one partition of several tasks. *)
Lemma collect_readers l (us : list nat) (p : nat) (outs : list (list row)) :
  Forall2 (λ u out, ∃ buf frames, le_buffers l !! u = Some buf ∧ buf !! p = Some frames ∧
     concat frames = out) us outs →
  ∀ pre, ∃ q, collect_from (length us) (Z.of_nat (length pre))
      (λ j, u ← index (pre ++ us) j; Executor_Reader l u (Z.of_nat p)) = Ret q ∧
    Forall2 (Streams_as strict) q outs.
Proof.
  induction 1 as [|u out us outs (buf & frames & Hbuf & Hp & Hout) HF IH]; intros pre; simpl.
  { exists []. by split. }
  destruct (taskBuffer_Reader_spec buf p frames Hp) as (r & Hb & Hr).
  assert (Executor_Reader l u (Z.of_nat p) = Ret r) as Hu by (unfold Executor_Reader; by rewrite Hbuf).
  rewrite index_lookup, lookup_app_r, Nat.sub_diag by done. simpl. rewrite Hu. simpl.
  destruct (IH (pre ++ [u])) as (q & Hq & HFq).
  rewrite length_app in Hq. simpl in Hq.
  replace (Z.of_nat (length pre + 1)) with (Z.of_nat (length pre) + 1)%Z in Hq by lia.
  rewrite <-(assoc_L (++)) in Hq. simpl in Hq. rewrite Hq. simpl.
  exists (r :: q). split; [done|]. constructor; [by subst out|done].
Qed.

Lemma clean_queue q (outs : list (list row)) :
  Forall2 (Streams_as strict) q outs → Streams_as strict (exec_multiReader q) (concat outs).
Proof.
  intros HF. apply MultiReader_spec. eapply Forall2_impl; [|exact HF].
  intros r l [k Hk]. exists k. by eapply streams_weaken; [..|exact Hk].
Qed.

(** Reading everything into a combiner. *)
Lemma combine_loop_spec typ f k reader c l l' :
  streams plain k reader l' → combined typ f c l → combinable typ f (l ++ l') →
  ∃ c', (∃ L0 f0, ∀ L fuel, L0 ≤ L → f0 ≤ fuel →
      combine_loop defaultChunksize L fuel reader c = Ret (inl c')) ∧ combined typ f c' (l ++ l').
Proof.
  revert reader c l l'. induction k as [|k IH]; intros reader c l l' Hs Hc Hcb; [done|].
  destruct (Hs defaultChunksize CHUNK) as (reader' & rows & oe & [f0 HR] & _ & Hoe).
  assert (∃ rest, l' = rows ++ rest) as [rest Hl'].
  { destruct oe as [e|]; [destruct Hoe as (_ & -> & _); exists []; by rewrite app_nil_r|].
    destruct Hoe as (_ & rest & -> & _). by exists rest. }
  destruct (Combine_ok typ f c l rows Hc) as (c1 & f1 & Hcomb & Hc1).
  { apply (combinable_prefix _ _ _ rest). by rewrite <-(assoc_L (++)), <-Hl'. }
  destruct oe as [e|].
  - destruct Hoe as (-> & -> & _). exists c1. split; [|done].
    exists 1, (f0 `max` f1). intros [|L] fuel HL Hfuel; [lia|]. simpl. rewrite HR by lia. simpl.
    by rewrite Hcomb by lia.
  - destruct Hoe as (_ & l'' & -> & Hs').
    destruct (IH reader' c1 (l ++ rows) l'' Hs' Hc1) as (c' & (L0 & f2 & Hr) & Hc').
    { by rewrite <-(assoc_L (++)). }
    exists c'. rewrite <-(assoc_L (++)) in Hc'. split; [|done].
    exists (S L0), (f0 `max` (f1 `max` f2)). intros [|L] fuel HL Hfuel; [lia|]. simpl.
    rewrite HR by lia. simpl. rewrite Hcomb by lia. simpl. apply Hr; lia.
Qed.

(** What a dependency delivers: the partition of its tasks' output, in the
    order of the tasks, reduced if the tasks have a combiner. *)
Definition delivered (T0 : cTask) (raw l : list row) : Prop :=
  match ct_Combiner T0 with
  | Some f => combinable (ct_Type T0) f raw ∧ reduces (ct_Type T0) f raw l
  | None => l = raw
  end.

Lemma depReader_spec w l T dep us (outs : list (list row)) T0 (p : nat) :
  NumTask w dep = Ret (length us) → dep_tasks w dep 0 (length us) = Ret us →
  us !! 0 = Some (dep_Head dep) → tasks !! dep_Head dep = Some T0 → dep_Partition dep = Z.of_nat p →
  (dep_Expand dep = true → is_Some (ct_Combiner T0)) →
  Forall2 (λ u out, ∃ buf frames, le_buffers l !! u = Some buf ∧ buf !! p = Some frames ∧
     concat frames = out) us outs →
  (∀ f, ct_Combiner T0 = Some f → combinable (ct_Type T0) f (concat outs)) →
  ∃ r rows f0, (∀ fuel, f0 ≤ fuel → depReader tasks defaultChunksize fuel w l T dep = Ret (inl [r])) ∧
    Streams r rows ∧ delivered T0 (concat outs) rows.
Proof.
  intros Hn Hus H0 HT0 Hp Hex HF Hcb. destruct (collect_readers l us p outs HF []) as (q & Hq & HFq).
  change (Z.of_nat (length [])) with 0%Z in Hq. cbn [app] in Hq.
  assert (0 < length us) as Hpos by (by apply lookup_lt_Some in H0).
  pose proof (clean_queue q outs HFq) as Hmr. unfold delivered.
  destruct (ct_Combiner T0) as [f|] eqn:HC.
  - pose proof (Hcb f eq_refl) as Hcb'.
    destruct (newCombiner_ok (ct_Type T0)
      (TaskName_String (if bool_decide (ct_CombineKey T = "") then ct_Name T else mkTaskName 0 (ct_CombineKey T) 0 0))
      f (defaultChunksize * 100)) as (c & Hnew & Hc).
    { by apply (combinable_prefix _ _ [] (concat outs)). }
    destruct Hmr as [k Hk]. apply streams_plain in Hk.
    destruct (combine_loop_spec (ct_Type T0) f k _ c [] (concat outs) Hk Hc Hcb')
      as (c1 & (L0 & f0 & Hloop) & Hc1).
    destruct (CombinerReader_ok _ _ c1 _ Hc1) as (c2 & r & L & Hrd & Hst & Hred).
    exists r, L, (L0 `max` f0). split; [|done]. intros fuel Hfuel. unfold depReader.
    rewrite Hn. simpl. rewrite Hus. simpl. rewrite Hp, Hq. simpl. unfold deref. rewrite HT0. simpl.
    rewrite (proj2 (Nat.ltb_lt _ _) Hpos), HC, Hnew. simpl. rewrite Hloop by lia. simpl. by rewrite Hrd.
  - exists (pack (exec_multiReader q)), (concat outs), 0. split; [|split; [|done]].
    + intros fuel _. unfold depReader.
      rewrite Hn. simpl. rewrite Hus. simpl. rewrite Hp, Hq. simpl. unfold deref. rewrite HT0. simpl.
      rewrite (proj2 (Nat.ltb_lt _ _) Hpos), HC. destruct (dep_Expand dep); [|done].
      by destruct (Hex eq_refl).
    + eapply Streams_as_Streams, pack_Streams_as. exact Hmr.
Qed.
End deps.

(** * The reference semantics *)

Section run.
Context {C : Type} {CO : CombinerOps C} {CL : CombinerLaws C}.
Context (has_method : gotype → string → bool).
Context (iter : ∀ A, nat → list A → list A) (defaultChunksize : nat) (CHUNK : 0 < defaultChunksize).
Context (sortio_Reduce cogroup_Reader : Slice → Z → list (anyReader row) → outcome (anyReader row)).
Context (frame_Hash : row → outcome Z) (inv_Index : Z) (inv_Location : string) (machineCombiners : bool).

#[local] Abbreviation SReader :=
  (SliceReader has_method iter defaultChunksize sortio_Reduce cogroup_Reader).

(** The rows of each shard of each slice, and the partition of each row. *)
Context (D : Slice → nat → list row) (route : Partitioner → Z → row → nat).

Definition rt (P : Partitioner) (n : Z) (x : row) : nat := if (n <=? 1)%Z then 0 else route P n x.

Definition dep_partitioner (d : Dep) : Partitioner :=
  default (defaultPartitioner frame_Hash) (d_Partitioner d).

(** What shard [i] of [s] gets of a shuffled dependency: the rows of all its
    shards, in order, that are assigned to it. *)
Definition shuffled (s : Slice) (d : Dep) (i : nat) : list row :=
  concat ((λ k, filter (λ x, rt (dep_partitioner d) (NumShard s) x = i) (D (d_Slice d) k)) <$>
    seq 0 (Z.to_nat (NumShard (d_Slice d)))).

(** What shard [i] of [s] reads from a dependency. *)
Definition reads_dep (s : Slice) (d : Dep) (i : nat) (l : list row) : Prop :=
  if d_Shuffle d then
    match Combiner s with
    | Some f => combinable (typ_of (d_Slice d)) f (shuffled s d i) ∧
                reduces (typ_of (d_Slice d)) f (shuffled s d i) l
    | None => l = shuffled s d i
    end
  else l = D (d_Slice d) i.

(** [D] and [route] are what the operators and partitioners of the slices say.
    Only slices that are not results of earlier invocations are shuffled. *)
Record semantics (root : Slice) : Prop := {
  sem_computes : ∀ s i ls, sub root s → ¬ is_Result s → (Z.of_nat i < NumShard s)%Z →
    length ls = Z.to_nat (NumDep s) →
    (∀ j d l, SDep s (Z.of_nat j) = Ret d → ls !! j = Some l → reads_dep s d i l) →
    computes s (Z.of_nat i) ls (D s i);
  sem_combinable : ∀ s j d i f, sub root s → ¬ is_Result s → SDep s (Z.of_nat j) = Ret d →
    d_Shuffle d = true → Combiner s = Some f → combinable (typ_of (d_Slice d)) f (shuffled s d i);
  sem_route : ∀ s j d k, sub root s → ¬ is_Result s → SDep s (Z.of_nat j) = Ret d →
    d_Shuffle d = true → (1 < NumShard s)%Z →
    (∀ x, x ∈ D (d_Slice d) k → route (dep_partitioner d) (NumShard s) x < Z.to_nat (NumShard s)) ∧
    ∀ rows, rows ⊆ D (d_Slice d) k → dep_partitioner d rows (NumShard s) =
      Ret (Z.of_nat ∘ route (dep_partitioner d) (NumShard s) <$> rows);
  sem_fits : ∀ s, sub root s → ¬ is_Result s →
    fits has_method (typ_of s) s ∧ writes_through s ∧ (1 <= NumOut (typ_of s))%Z;
  sem_fresh : ∀ s j d, sub root s → ¬ is_Result s → SDep s (Z.of_nat j) = Ret d →
    d_Shuffle d = true → ¬ is_Result (d_Slice d);
}.

(** A pipeline computes the rows of its first slice. *)
Lemma runs_pipeline root slices s rest last i ls :
  semantics root → slices = s :: rest → chain slices → sub root s → (Z.of_nat i < NumShard s)%Z →
  Forall (λ s', ¬ is_Result s') slices → list.last slices = Some last →
  length ls = Z.to_nat (NumDep last) →
  (∀ j d l, SDep last (Z.of_nat j) = Ret d → ls !! j = Some l → reads_dep last d i l) →
  runs slices (Z.of_nat i) ls (D s i).
Proof.
  intros SEM. revert s rest. induction slices as [|a slices IH]; [done|].
  intros s rest Heq Hch Hs Hi HF Hlast Hls Hin. injection Heq as -> <-.
  apply Forall_cons_iff in HF as [HR HF].
  destruct slices as [|b rest].
  { simpl in Hlast. injection Hlast as ->. apply runs_last. by apply (sem_computes _ SEM). }
  destruct Hch as [(d & Hd & Hn & Hsh & <-) Hch].
  assert (sub root (d_Slice d)) as Hsd by (eapply (sub_dep root s 0); [done..|lia|done]).
  apply (runs_cons s (d_Slice d :: rest) _ _ (D (d_Slice d) i)).
  - eapply IH; [done..| |done|done|done|done]. by rewrite (SDep_NumShard s 0 d Hd Hsh).
  - apply (sem_computes _ SEM); [done..|by rewrite Hn|].
    intros [|j] d' l Hd' Hl; [|done]. change (Z.of_nat 0) with 0%Z in Hd'.
    rewrite Hd in Hd'. injection Hd' as <-. injection Hl as <-. unfold reads_dep. by rewrite Hsh.
Qed.

Lemma SDep_Expand s i d : SDep s i = Ret d → d_Expand d = true → d_Shuffle d = true ∧ is_Some (Combiner s).
Proof.
  assert (∀ s i sh d, singleDep i s sh = Ret d → d_Expand d = false) as Hsingle.
  { intros s' i' sh d'. unfold singleDep. case_match; [|done]. by intros [= <-]. }
  induction s; simpl; intros Hd Hex; try done; try (by apply Hsingle in Hd; congruence);
    try (by simplify_eq/=); try (by auto).
  apply outcome_bind_Ret in Hd as (? & _ & [= <-]). done.
Qed.

(** * Running compiled tasks *)

Context (root : Slice) (base c : compiler) (IN : input_ok root base).
Context (INV : Inv frame_Hash SReader inv_Index inv_Location machineCombiners root base ∅ c).
Context (SEM : semantics root).

#[local] Abbreviation compiled := (compiled frame_Hash SReader inv_Index inv_Location machineCombiners ∅ c).

(** The buffer of a task of [s] holds the rows of its shard, partitioned. *)
Definition holds_shard (s : Slice) (part : partitioner) (i : nat) (buf : taskBuffer) : Prop :=
  buffered (rt (Partitioner_of frame_Hash part) (NumPartition part)) (Z.to_nat (NumPartition part)) buf (D s i).

(** The state of an execution: runtime tasks that match the compiled ones, and
    buffers that hold what the semantics says. *)
Record good (l : localExecutor) (w : world) : Prop := {
  good_agree : tasks_agree (c_tasks c) w;
  good_new : ∀ s part ts i t buf, sub root s → ¬ is_Result s → compiled s part ts →
    ts !! i = Some t → le_buffers l !! t = Some buf → holds_shard s part i buf;
  good_old : ∀ s p s' rtasks i t buf, sub root s → Unwrap s = Result p s' rtasks →
    rtasks !! i = Some t → le_buffers l !! t = Some buf →
    ∃ frames, buf !! 0 = Some frames ∧ concat frames = D s i;
}.

(** The tasks of a dependency. *)
Definition dep_members (d : TaskDep) : list nat :=
  match c_tasks c !! dep_Head d with
  | Some H => if ct_Group H is [] then [dep_Head d] else ct_Group H
  | None => []
  end.

Definition all_buffered (l : localExecutor) (d : TaskDep) : Prop :=
  ∀ u, u ∈ dep_members d → is_Some (le_buffers l !! u).

(** Tasks compiled for a slice that is not a result determine its shard. *)
Lemma compiled_inv s part ts i t :
  ¬ is_Result s → compiled s part ts → ts !! i = Some t →
  ∃ slices last op deps dtss g, pipeline (slice_size s) s = Ret slices ∧
    c_tasks c !! t = Some (task_of frame_Hash SReader inv_Index inv_Location machineCombiners
      s part slices last op deps dtss g i) ∧
    g = (if IsShuffle part then ts else []) ∧
    list.last slices = Some last ∧ length deps = Z.to_nat (NumDep last) ∧ length dtss = length deps ∧
    (∀ j d, deps !! j = Some d → SDep last (Z.of_nat j) = Ret d) ∧
    (∀ j d dts, deps !! j = Some d → dtss !! j = Some dts →
       compiled (d_Slice d) (dep_part machineCombiners s last op d) dts ∧
       length dts = Z.to_nat (NumShard (d_Slice d))).
Proof.
  intros HR Hc Hi. destruct Hc as
    [s part p s' rt HU Hsh Hrt|s part p s' rt op ts HU Hsh Hnd Hlen Hts
    |s part slices last op deps dtss ts HR' Hp Hl Hnd Hlen Hld Hldt Hdeps Hcd Hts].
  - destruct HR. unfold is_Result. by rewrite HU.
  - destruct HR. unfold is_Result. by rewrite HU.
  - destruct (Hts i t Hi) as [_ HT]. by exists slices, last, op, deps, dtss, (if IsShuffle part then ts else []).
Qed.

Lemma compiled_unique s part ts i t s' part' ts' i' :
  ¬ is_Result s → ¬ is_Result s' → compiled s part ts → compiled s' part' ts' →
  ts !! i = Some t → ts' !! i' = Some t →
  s = s' ∧ i = i' ∧ NumPartition part = NumPartition part' ∧
  Partitioner_of frame_Hash part = Partitioner_of frame_Hash part'.
Proof.
  intros HR HR' Hc Hc' Hi Hi'.
  destruct (compiled_inv s part ts i t HR Hc Hi) as (slices & ? & ? & ? & ? & ? & Hp & HT & _).
  destruct (compiled_inv s' part' ts' i' t HR' Hc' Hi') as (slices' & ? & ? & ? & ? & ? & Hp' & HT' & _).
  rewrite HT in HT'. apply Some_inj in HT'.
  pose proof (f_equal ct_Slices HT') as Hsl. pose proof (f_equal (tn_Shard ∘ ct_Name) HT') as Hi0.
  pose proof (f_equal ct_NumPartition HT') as Hn. pose proof (f_equal ct_Partitioner HT') as Hpart.
  simpl in Hsl, Hi0, Hn, Hpart. apply Some_inj in Hpart. clear HT HT'.
  destruct (pipeline_spec (slice_size s) s) as (sl & Hp1 & _ & Hhd & _); [done|].
  destruct (pipeline_spec (slice_size s') s') as (sl' & Hp1' & _ & Hhd' & _); [done|].
  rewrite Hp in Hp1. injection Hp1 as <-. rewrite Hp' in Hp1'. injection Hp1' as <-.
  rewrite decide_False in Hhd by done. rewrite decide_False in Hhd' by done.
  destruct Hhd as [r ->], Hhd' as [r' ->].
  split_and!; [congruence|lia|done|done].
Qed.

Lemma shard_partition s part i buf p :
  holds_shard s part i buf → p < Z.to_nat (NumPartition part) →
  ∃ frames, buf !! p = Some frames ∧
    concat frames = filter (λ x, rt (Partitioner_of frame_Hash part) (NumPartition part) x = p) (D s i).
Proof.
  intros [Hlen Hb] Hp. destruct (lookup_lt_is_Some_2 buf p) as [frames Hf]; [lia|].
  exists frames. split; [done|]. by apply Hb.
Qed.

Lemma filter_rt_1 P (l : list row) : filter (λ x, rt P 1 x = 0) l = l.
Proof. induction l as [|x l IH]; [done|]. by rewrite filter_cons_True, IH. Qed.

(** Reading a shuffled dependency. *)
Lemma shuffle_input l w s last op i d dts (j : nat) T :
  good l w → sub root last → ¬ is_Result last → NumShard s = NumShard last →
  (Z.of_nat i < NumShard s)%Z → (Z.of_nat j < NumDep last)%Z → SDep last (Z.of_nat j) = Ret d →
  d_Shuffle d = true →
  compiled (d_Slice d) (dep_part machineCombiners s last op d) dts →
  length dts = Z.to_nat (NumShard (d_Slice d)) →
  all_buffered l (dep_edge machineCombiners last op i d dts) →
  ∃ r rows f0, (∀ fuel, f0 ≤ fuel → depReader (c_tasks c) defaultChunksize fuel w l T
      (dep_edge machineCombiners last op i d dts) = Ret (inl [r])) ∧
    Streams r rows ∧ reads_dep last d i rows.
Proof.
  intros Hg Hsl HRl Hns Hi Hj Hd Hsh Hc Hlen Hbuf.
  assert (sub root (d_Slice d)) as Hsd by (apply (sub_dep root last (Z.of_nat j)); (done || lia)).
  pose proof (in_shard _ _ IN _ Hsd) as Hshard.
  pose proof (sem_fresh _ SEM last j d Hsl HRl Hd Hsh) as HRd.
  destruct dts as [|h0 g]; [simpl in Hlen; lia|].
  destruct (compiled_inv _ _ (h0 :: g) 0 h0 HRd Hc eq_refl)
    as (slices & lst & op' & deps' & dtss' & gr & _ & HT0 & Hgr & _).
  unfold dep_edge in *. unfold dep_part in Hc, HT0, Hgr. rewrite Hsh in *. simpl in Hbuf |- *.
  set (part := mkPartitioner _ _ _ _) in *.
  assert (IsShuffle part = true) as Hshuf.
  { unfold IsShuffle, part. simpl. destruct (Z.eqb_spec (NumShard s) 0); [lia|done]. }
  assert (NumPartition part = NumShard s) as Hnp.
  { unfold NumPartition, part. simpl. destruct (Z.eqb_spec (NumShard s) 0); [lia|done]. }
  rewrite Hshuf in Hgr. subst gr.
  destruct (dep_tasks_group (c_tasks c) defaultChunksize CHUNK w h0 (Z.of_nat i) (d_Expand d) (combineKey machineCombiners last op)
    _ g (good_agree _ _ Hg) HT0 eq_refl) as [Hn Hus].
  edestruct (depReader_spec (c_tasks c) defaultChunksize CHUNK w l T
    (mkTaskDep h0 (Z.of_nat i) (d_Expand d) (combineKey machineCombiners last op)) (h0 :: g)
    ((λ k, filter (λ x, rt (dep_partitioner d) (NumShard last) x = i) (D (d_Slice d) k)) <$>
      seq 0 (Z.to_nat (NumShard (d_Slice d))))) as (r & rows & f0 & Hr & Hst & Hdel);
    [exact Hn|exact Hus|done|exact HT0|done| | | |].
  - intros Hex. simpl in Hex. by apply (SDep_Expand last _ d Hd).
  - apply Forall2_same_length_lookup. split; [by rewrite length_fmap, length_seq, <-Hlen|].
    intros k u out Hu Hout. rewrite list_lookup_fmap in Hout.
    destruct (lookup_lt_is_Some_2 (seq 0 (Z.to_nat (NumShard (d_Slice d)))) k) as [k' Hk].
    { rewrite length_seq, <-Hlen. by eapply lookup_lt_Some. }
    rewrite Hk in Hout. apply lookup_seq in Hk as [-> _]. simpl in Hout. injection Hout as <-.
    destruct (Hbuf u) as [buf Hb].
    { unfold dep_members. simpl. rewrite HT0. simpl. by eapply list_elem_of_lookup_2. }
    pose proof (good_new _ _ Hg _ _ _ k u buf Hsd HRd Hc Hu Hb) as Hh.
    destruct (shard_partition _ _ _ _ i Hh) as (frames & Hf & Hcc); [rewrite Hnp; lia|].
    exists buf, frames. split_and!; [done..|]. rewrite Hcc, Hnp, Hns. done.
  - intros f Hf. simpl in Hf. exact (sem_combinable _ SEM last j d i f Hsl HRl Hd Hsh Hf).
  - exists r, rows, f0. split_and!; [done..|]. unfold reads_dep. rewrite Hsh.
    unfold delivered in Hdel. simpl in Hdel. destruct (Combiner last); exact Hdel.
Qed.

(** Reading the same shard of a dependency. *)
Lemma shard_input l w s last op i d dts (j : nat) T :
  good l w → sub root last → ¬ is_Result last → NumShard s = NumShard last →
  (Z.of_nat i < NumShard s)%Z → (Z.of_nat j < NumDep last)%Z → SDep last (Z.of_nat j) = Ret d →
  d_Shuffle d = false →
  compiled (d_Slice d) (dep_part machineCombiners s last op d) dts →
  length dts = Z.to_nat (NumShard (d_Slice d)) →
  (∀ u U, u ∈ dts → is_Result (d_Slice d) → c_tasks c !! u = Some U → ct_Group U = []) →
  all_buffered l (dep_edge machineCombiners last op i d dts) →
  ∃ r rows f0, (∀ fuel, f0 ≤ fuel → depReader (c_tasks c) defaultChunksize fuel w l T
      (dep_edge machineCombiners last op i d dts) = Ret (inl [r])) ∧
    Streams r rows ∧ reads_dep last d i rows.
Proof.
  intros Hg Hsl HRl Hns Hi Hj Hd Hsh Hc Hlen Hold Hbuf.
  assert (sub root (d_Slice d)) as Hsd by (apply (sub_dep root last (Z.of_nat j)); (done || lia)).
  pose proof (SDep_NumShard last _ d Hd Hsh) as Hnd.
  destruct (lookup_lt_is_Some_2 dts i) as [h Hh]; [lia|].
  unfold dep_edge, dep_part in *. rewrite Hsh in *. rewrite Hh in *. simpl in Hbuf |- *.
  assert (∃ T0, c_tasks c !! h = Some T0 ∧ ct_Group T0 = [] ∧ ct_Combiner T0 = None ∧
    ∀ buf, le_buffers l !! h = Some buf → ∃ frames, buf !! 0 = Some frames ∧ concat frames = D (d_Slice d) i)
    as (T0 & HT0 & HG & HC & Hb0).
  { destruct (decide (is_Result (d_Slice d))) as [HRd|HRd].
    - inversion Hc as [? ? p s' rt HU _ Hrt|? ? ? ? ? ? ? _ Hno|? ? ? ? ? ? ? ? HR']; subst; [|done..].
      destruct (Hrt h) as [_ [T0 HT0]]; [by eapply list_elem_of_lookup_2|]. exists T0.
      destruct (result_task _ _ _ _ _ _ _ IN ∅ c (d_Slice d) p s' dts h INV Hsd HU)
        as (T1 & HT1 & HC & _); [by eapply list_elem_of_lookup_2|]. rewrite HT0 in HT1. injection HT1 as <-.
      split_and!; [done| |done|].
      + eapply Hold; [by eapply list_elem_of_lookup_2|done|done].
      + intros buf Hb. eapply (good_old _ _ Hg (d_Slice d)); done.
    - destruct (compiled_inv _ _ dts i h HRd Hc Hh) as (? & ? & ? & ? & ? & gr & _ & HT0 & Hgr & _).
      simpl in Hgr. subst gr. eexists. split; [exact HT0|]. split_and!; [done..|].
      intros buf Hb. pose proof (good_new _ _ Hg _ _ _ i h buf Hsd HRd Hc Hh Hb) as Hhs.
      destruct (shard_partition _ _ _ _ 0 Hhs) as (frames & Hf & Hcc); [vm_compute; lia|].
      exists frames. split; [done|]. rewrite Hcc. apply filter_rt_1. }
  destruct (dep_tasks_single (c_tasks c) w h 0 (d_Expand d) "" T0 (good_agree _ _ Hg) HT0 HG) as [Hn Hus].
  destruct (Hbuf h) as [buf Hb].
  { unfold dep_members. simpl. rewrite HT0, HG. set_solver. }
  destruct (Hb0 buf Hb) as (frames & Hf & Hcc).
  edestruct (depReader_spec (c_tasks c) defaultChunksize CHUNK w l T
    (mkTaskDep h 0 (d_Expand d) "") [h] [D (d_Slice d) i] T0 0) as (r & rows & f0 & Hr & Hst & Hdel);
    [exact Hn|exact Hus|done|exact HT0|done| | | |].
  - intros Hex. simpl in Hex. destruct (SDep_Expand last _ d Hd Hex) as [Hsh' _]. congruence.
  - constructor; [|constructor]. by exists buf, frames.
  - intros f. by rewrite HC.
  - exists r, rows, f0. split_and!; [done..|]. unfold reads_dep. rewrite Hsh.
    unfold delivered in Hdel. rewrite HC in Hdel. simpl in Hdel. by rewrite app_nil_r in Hdel.
Qed.

Hypothesis RES : ∀ s p s' rtasks t T, sub root s → Unwrap s = Result p s' rtasks →
  t ∈ rtasks → c_tasks base !! t = Some T → ct_Group T = [].

Lemma dep_input l w s last op i d dts (j : nat) T :
  good l w → sub root last → ¬ is_Result last → NumShard s = NumShard last →
  (Z.of_nat i < NumShard s)%Z → (Z.of_nat j < NumDep last)%Z → SDep last (Z.of_nat j) = Ret d →
  compiled (d_Slice d) (dep_part machineCombiners s last op d) dts →
  length dts = Z.to_nat (NumShard (d_Slice d)) →
  all_buffered l (dep_edge machineCombiners last op i d dts) →
  ∃ r rows f0, (∀ fuel, f0 ≤ fuel → depReader (c_tasks c) defaultChunksize fuel w l T
      (dep_edge machineCombiners last op i d dts) = Ret (inl [r])) ∧
    Streams r rows ∧ reads_dep last d i rows.
Proof.
  intros Hg Hsl HRl Hns Hi Hj Hd Hc Hlen Hbuf. destruct (d_Shuffle d) eqn:Hsh.
  - by eapply shuffle_input.
  - eapply shard_input; [done..| |done]. intros u U Hu HRd HU.
    assert (sub root (d_Slice d)) as Hsd by (apply (sub_dep root last (Z.of_nat j)); (done || lia)).
    unfold dep_part in Hc. rewrite Hsh in Hc.
    inversion Hc as [? ? p s' rt HUw _ _|? ? ? ? ? ? ? _ Hno|? ? ? ? ? ? ? ? HR']; subst; [|done..].
    destruct (result_old _ _ _ _ _ root base c IN INV RES (d_Slice d) p s' dts u Hsd HUw Hu)
      as (_ & U' & HU' & _ & HG). rewrite HU in HU'. by injection HU' as <-.
Qed.

Lemma depReaders_loop_spec w l T (edges : list TaskDep) (Q : nat → list row → Prop) :
  (∀ j e, edges !! j = Some e → ∃ r rows f0,
     (∀ fuel, f0 ≤ fuel → depReader (c_tasks c) defaultChunksize fuel w l T e = Ret (inl [r])) ∧
     Streams r rows ∧ Q j rows) →
  ∃ rs ls f0, (∀ fuel, f0 ≤ fuel → depReaders_loop (c_tasks c) defaultChunksize fuel w l T edges = Ret (inl rs)) ∧
    Forall2 Streams rs ls ∧ length ls = length edges ∧ ∀ j rows, ls !! j = Some rows → Q j rows.
Proof.
  revert Q. induction edges as [|e edges IH]; intros Q He.
  { exists [], [], 0. split_and!; [done|constructor|done|done]. }
  destruct (He 0 e eq_refl) as (r & rows & f0 & Hr & Hst & HQ).
  destruct (IH (λ j, Q (S j))) as (rs & ls & f1 & Hrs & HF & Hlen & HQs).
  { intros j e' Hj. by apply (He (S j)). }
  exists (r :: rs), (rows :: ls), (f0 `max` f1). split_and!.
  - intros fuel Hfuel. simpl. rewrite Hr by lia. simpl. by rewrite Hrs by lia.
  - by constructor.
  - simpl. by rewrite Hlen.
  - intros [|j] rows'; simpl; [by intros [= <-]|apply HQs].
Qed.

(** The rows of a shard are partitioned as the dependents ask. *)
Lemma asked_assigns s part i T :
  ¬ is_Result s → asked machineCombiners root s part →
  ct_NumPartition T = NumPartition part → ct_Partitioner T = Some (Partitioner_of frame_Hash part) →
  assigns T (rt (Partitioner_of frame_Hash part) (NumPartition part)) (D s i).
Proof.
  intros HR Hask Hn Hp.
  assert ((1 <= NumPartition part)%Z ∧ ((1 < NumPartition part)%Z →
    (∀ x, x ∈ D s i → route (Partitioner_of frame_Hash part) (NumPartition part) x < Z.to_nat (NumPartition part)) ∧
    ∀ rows, rows ⊆ D s i → Partitioner_of frame_Hash part rows (NumPartition part) =
      Ret (Z.of_nat ∘ route (Partitioner_of frame_Hash part) (NumPartition part) <$> rows))) as [H1 H2].
  { destruct Hask as [->|(top & last & op & j & d & Hsl & HRl & Hj & Hd & <- & Hnt & ->)]; [by split|].
    unfold dep_part. destruct (d_Shuffle d) eqn:Hsh; [|by split].
    pose proof (in_shard _ _ IN _ Hsl). unfold NumPartition. simpl.
    destruct (Z.eqb_spec (NumShard top) 0); [lia|]. split; [lia|]. intros Hgt.
    rewrite Hnt in *. exact (sem_route _ SEM last j d i Hsl HRl Hd Hsh Hgt). }
  split_and!; rewrite Hn; [done| |].
  - intros x Hx. unfold rt. destruct (Z.leb_spec (NumPartition part) 1); [lia|]. by apply H2.
  - intros Hgt. eexists. split; [exact Hp|]. intros rows Hr. destruct (H2 Hgt) as [_ ->]; [|done].
    f_equal. apply list_fmap_ext. intros ? x _. simpl. unfold rt.
    destruct (Z.leb_spec (NumPartition part) 1); [lia|done].
Qed.

(** The inputs and the Do of a task, run on good buffers. *)
Lemma task_output l w s part ts i t :
  good l w → sub root s → ¬ is_Result s → compiled s part ts → ts !! i = Some t →
  (Z.of_nat i < NumShard s)%Z →
  (∀ T d, c_tasks c !! t = Some T → d ∈ ct_Deps T → all_buffered l d) →
  ∃ T rs f r f0, c_tasks c !! t = Some T ∧ ct_NumPartition T = NumPartition part ∧
    ct_Partitioner T = Some (Partitioner_of frame_Hash part) ∧ ct_Type T = typ_of s ∧
    (∀ fuel, f0 ≤ fuel → depReaders (c_tasks c) defaultChunksize fuel w l T = Ret (inl rs)) ∧
    ct_Do T = Some f ∧ f rs = Ret r ∧ Streams r (D s i).
Proof.
  intros Hg Hs HR Hc Ht Hi Hbuf.
  destruct (compiled_inv s part ts i t HR Hc Ht)
    as (slices & last & op & deps & dtss & g & Hp & HT & _ & Hlast & Hld & Hldt & Hdeps & Hcd).
  destruct (pipeline_spec (slice_size s) s) as (sl & Hp1 & Hch & Hhd & HF); [done|].
  rewrite Hp in Hp1. injection Hp1 as <-. rewrite decide_False in Hhd by done. destruct Hhd as [rest Hsl].
  assert (last ∈ slices) as Hin by (apply last_Some in Hlast as [l0 ->]; set_solver).
  pose proof (chain_spec root base IN slices s rest Hsl Hch Hs HF) as Hchain.
  destruct (Hchain last Hin) as (Hsubl & Hnl & _).
  assert (∀ s', s' ∈ slices → ¬ is_Result s') as HRs
    by (intros s' Hs'; by apply (proj1 (Forall_forall _ _) HF), list_elem_of_In).
  edestruct (depReaders_loop_spec w l (task_of frame_Hash SReader inv_Index inv_Location machineCombiners
      s part slices last op deps dtss g i)
    (zip_with (dep_edge machineCombiners last op i) deps dtss)
    (λ j rows, ∀ d, SDep last (Z.of_nat j) = Ret d → reads_dep last d i rows))
    as (rs & ls & f0 & Hrs & HFs & Hlen & HQ).
  { intros j e Hj. pose proof (list_elem_of_lookup_2 _ _ _ Hj) as He.
    apply lookup_zip_with_Some in Hj as (d & dts & -> & Hd & Hdts).
    destruct (Hcd j d dts Hd Hdts) as [Hcj Hlj]. pose proof (Hdeps j d Hd) as HS.
    destruct (dep_input l w s last op i d dts j (task_of frame_Hash SReader inv_Index inv_Location
      machineCombiners s part slices last op deps dtss g i)) as (r & rows & f0 & Hr & Hst & Hrd); try done.
    - by apply HRs.
    - apply lookup_lt_Some in Hd. pose proof (NumDep_nonneg last). lia.
    - by apply (Hbuf _ _ HT).
    - exists r, rows, f0. split_and!; [done..|]. intros d' Hd'. rewrite HS in Hd'. by injection Hd' as <-. }
  destruct (do_of_spec has_method iter defaultChunksize sortio_Reduce cogroup_Reader inv_Location
    slices i rs ls (D s i)) as (f & r & Hf & Hfr & HL).
  { apply Forall_forall. intros s' Hs'%list_elem_of_In. destruct (Hchain s' Hs') as (Hsub' & _).
    destruct (sem_fits _ SEM s' Hsub' (HRs s' Hs')) as (? & ? & _). done. }
  { done. }
  { eapply (runs_pipeline root slices s rest last i ls); try done.
    - rewrite Hlen, length_zip_with, Hldt, Hld. lia.
    - intros j d l0 Hd Hl0. by eapply HQ. }
  eexists _, rs, f, r, f0. split; [exact HT|]. split_and!; done.
Qed.

Lemma Broadcast_agree t R w :
  tasks_agree (c_tasks c) w → (∃ R0, w_tasks w !! t = Some R0 ∧ t_Deps R0 = t_Deps R ∧ t_Group R0 = t_Group R) →
  tasks_agree (c_tasks c) (Broadcast t R w) ∧
  w_tasks (Broadcast t R w) = <[t := with_waitc None R]> (w_tasks w).
Proof.
  intros Hw (R0 & HR0 & Hd & Hg). destruct (Broadcast_spec t R w) as [Hb _]. split; [|done].
  intros u U HU. rewrite Hb. destruct (Hw u U HU) as (Ru & HRu & Hdu & Hgu).
  destruct (decide (u = t)) as [->|Hne].
  - rewrite lookup_insert_eq. eexists. split; [done|]. simpl. rewrite HR0 in HRu.
    injection HRu as <-. by rewrite <-Hd, <-Hg.
  - rewrite lookup_insert_ne by done. by exists Ru.
Qed.

Lemma Run_spec l w s part ts i t :
  good l w → sub root s → ¬ is_Result s → asked machineCombiners root s part → compiled s part ts →
  length ts = Z.to_nat (NumShard s) → ts !! i = Some t → c_next base ≤ t →
  (∀ T d, c_tasks c !! t = Some T → d ∈ ct_Deps T → all_buffered l d) →
  ∃ l' w' f0, (∀ fuel, f0 ≤ fuel → Run (c_tasks c) defaultChunksize fuel t l w = Ret (l', w')) ∧
    good l' w' ∧ dom (le_buffers l') = {[t]} ∪ dom (le_buffers l) ∧
    (∃ R, w_tasks w' !! t = Some R ∧ t_state R = TaskOk) ∧
    ∀ u, u ≠ t → w_tasks w' !! u = w_tasks w !! u.
Proof.
  intros Hg Hs HR Hask Hc Hlen Ht Hnew Hbuf.
  assert (Z.of_nat i < NumShard s)%Z as Hi by (apply lookup_lt_Some in Ht; lia).
  destruct (task_output l w s part ts i t Hg Hs HR Hc Ht Hi Hbuf)
    as (T & rs & f & r & f0 & HT & Hnp & Hpt & Hty & Hrs & Hf & Hfr & HL).
  destruct (sem_fits _ SEM s Hs HR) as (_ & _ & Hout).
  destruct (bufferOutput_spec defaultChunksize CHUNK T
    (rt (Partitioner_of frame_Hash part) (NumPartition part)) r (D s i)) as (buf & f1 & Hb & Hbd);
    [by rewrite Hty|done|by apply asked_assigns|]. rewrite Hnp in Hbd.
  destruct (good_agree _ _ Hg t T HT) as (R & HR0 & HRd & HRg).
  destruct (Broadcast_agree t (with_state TaskRunning (t_err R) R) w (good_agree _ _ Hg)) as [Ha1 Hw1];
    [by exists R|].
  set (w1 := Broadcast t (with_state TaskRunning (t_err R) R) w) in *.
  set (R1 := with_waitc None (with_state TaskRunning (t_err R) R)) in *.
  destruct (Broadcast_agree t (with_state TaskOk (t_err R1) R1) w1 Ha1) as [Ha2 Hw2].
  { exists R1. by rewrite Hw1, lookup_insert_eq. }
  exists (mkLocalExecutor (<[t := buf]> (le_buffers l))), (Broadcast t (with_state TaskOk (t_err R1) R1) w1),
    (f0 `max` f1). split_and!.
  - intros fuel Hfuel. unfold Run, deref. rewrite HT. simpl. rewrite Hrs by lia. simpl.
    unfold Set_, with_task. rewrite HR0. simpl. rewrite Hf. simpl. rewrite Hfr. simpl.
    rewrite Hb by lia. simpl. fold w1. rewrite Hw1, lookup_insert_eq. done.
  - split; [done| |]; simpl.
    + intros s' part' ts' i' t' buf' Hs' HR' Hc' Ht'. rewrite lookup_insert_Some.
      intros [[<- <-]|[_ Hb']]; [|by eapply (good_new _ _ Hg)].
      destruct (compiled_unique s part ts i t s' part' ts' i' HR HR' Hc Hc' Ht Ht') as (<- & <- & Hn & Hpp).
      unfold holds_shard. by rewrite <-Hn, <-Hpp.
    + intros s' p s0 rtasks i' t' buf' Hs' HU Ht'. rewrite lookup_insert_Some.
      intros [[-> _]|[_ Hb']]; [|by eapply (good_old _ _ Hg)].
      destruct (result_old _ _ _ _ _ root base c IN INV RES s' p s0 rtasks t' Hs' HU) as [Hlt _];
        [by eapply list_elem_of_lookup_2|lia].
  - simpl. by rewrite dom_insert_L.
  - rewrite Hw2, lookup_insert_eq. by eexists.
  - intros u Hu. by rewrite Hw2, lookup_insert_ne, Hw1, lookup_insert_ne.
Qed.

(** A new task is one of a slice that is not a result: no result is
    re-shuffled. *)
Lemma new_task_slice t :
  c_next base ≤ t < c_next c → ∃ s part ts i, sub root s ∧ ¬ is_Result s ∧
    asked machineCombiners root s part ∧ compiled s part ts ∧
    length ts = Z.to_nat (NumShard s) ∧ ts !! i = Some t.
Proof.
  intros Ht. destruct (inv_all _ _ _ _ _ _ _ _ _ INV t Ht)
    as [|(s & part & ts & Hs & Hask & Hc & Hin & Hlen)]; [set_solver|].
  apply list_elem_of_lookup in Hin as [i Hi]. exists s, part, ts, i.
  split; [done|]. split; [|by split_and!]. intros HR.
  inversion Hc as [? ? p s' rt HU _ _|? ? ? ? ? ? ? _ Hsh|? ? ? ? ? ? ? ? HR']; subst; [| |done].
  - destruct (result_old _ _ _ _ _ root base c IN INV RES s p s' ts t Hs HU) as [Hlt _];
      [by eapply list_elem_of_lookup_2|lia].
  - destruct Hask as [->|(top & last & op & j & d & Hsl & HRl & Hj & Hd & <- & Hnt & ->)]; [done|].
    unfold dep_part in Hsh. destruct (d_Shuffle d) eqn:Hd'; [|done].
    by apply (sem_fresh _ SEM last j d).
Qed.

(** Runs tasks one after the other. *)
Fixpoint run_all (fuel : nat) (order : list nat) (l : localExecutor) (w : world) :
    outcome (localExecutor * world) :=
  match order with
  | [] => Ret (l, w)
  | t :: order => '(l, w) ← Run (c_tasks c) defaultChunksize fuel t l w; run_all fuel order l w
  end.

(** Every task comes after the tasks it depends on. *)
Fixpoint ordered (done_ : gset nat) (order : list nat) : Prop :=
  match order with
  | [] => True
  | t :: order =>
      (∀ T d u, c_tasks c !! t = Some T → d ∈ ct_Deps T → u ∈ dep_members d → u ∈ done_) ∧
      ordered ({[t]} ∪ done_) order
  end.

Lemma run_all_spec order l w :
  good l w → (∀ t, t ∈ order → c_next base ≤ t < c_next c) → ordered (dom (le_buffers l)) order →
  ∃ l' w' f0, (∀ fuel, f0 ≤ fuel → run_all fuel order l w = Ret (l', w')) ∧ good l' w' ∧
    dom (le_buffers l') = list_to_set order ∪ dom (le_buffers l) ∧
    (∀ t, t ∈ order → ∃ R, w_tasks w' !! t = Some R ∧ t_state R = TaskOk) ∧
    ∀ u, u ∉ order → w_tasks w' !! u = w_tasks w !! u.
Proof.
  revert l w. induction order as [|t order IH]; intros l w Hg Hnew Hord.
  { exists l, w, 0. split_and!; [done|done| |set_solver|done]. simpl. by rewrite (left_id_L ∅ (∪)). }
  destruct Hord as [Hready Hord].
  destruct (new_task_slice t) as (s & part & ts & i & Hs & HR & Hask & Hc & Hlen & Hi); [apply Hnew; set_solver|].
  destruct (Run_spec l w s part ts i t) as (l1 & w1 & f0 & Hrun & Hg1 & Hdom1 & HR1 & Hsame1); try done.
  { apply Hnew. set_solver. }
  { intros T d HT Hd u Hu. apply elem_of_dom. by eapply Hready. }
  destruct (IH l1 w1 Hg1) as (l2 & w2 & f1 & Hrun2 & Hg2 & Hdom2 & HR2 & Hsame2).
  { intros u Hu. apply Hnew. set_solver. }
  { by rewrite Hdom1. }
  exists l2, w2, (f0 `max` f1). split_and!; [|done| | |].
  - intros fuel Hfuel. simpl. rewrite Hrun by lia. simpl. apply Hrun2. lia.
  - simpl. rewrite Hdom2, Hdom1. set_solver.
  - intros u Hu. destruct (decide (u ∈ order)) as [Hin|Hin]; [by apply HR2|].
    rewrite Hsame2 by done. by replace u with t by set_solver.
  - intros u Hu. rewrite Hsame2, Hsame1 by set_solver. done.
Qed.

(** The executor that a compiled slice is run on: the buffers are those of
    earlier invocations, and those of results hold the rows of the results. *)
Record starts (l : localExecutor) (w : world) : Prop := {
  starts_agree : tasks_agree (c_tasks c) w;
  starts_old : ∀ t, is_Some (le_buffers l !! t) → ∃ T, c_tasks c !! t = Some T ∧ tn_InvIndex (ct_Name T) ≠ inv_Index;
  starts_results : ∀ s p s' rtasks i t buf, sub root s → Unwrap s = Result p s' rtasks →
    rtasks !! i = Some t → le_buffers l !! t = Some buf →
    ∃ frames, buf !! 0 = Some frames ∧ concat frames = D s i;
}.

Lemma starts_good l w : starts l w → good l w.
Proof.
  intros [Ha Ho Hr]. split; [done| |done].
  intros s part ts i t buf Hs HR Hc Ht Hb. exfalso.
  destruct (Ho t) as (T & HT & Hinv); [by eexists|]. destruct (compiled_inv s part ts i t HR Hc Ht)
    as (? & ? & ? & ? & ? & ? & _ & HT' & _).
  rewrite HT in HT'. injection HT' as ->. by apply Hinv.
Qed.

(** The reader of a task of the result streams the rows of its shard. *)
Lemma result_reader ts l w i t :
  ¬ is_Result root → compiled root no_partitioner ts → good l w → ts !! i = Some t →
  is_Some (le_buffers l !! t) → ∃ r, Executor_Reader l t 0 = Ret r ∧ Streams_as strict r (D root i).
Proof.
  intros HR Hc Hg Hi [buf Hb].
  pose proof (good_new _ _ Hg root no_partitioner ts i t buf (sub_root root) HR Hc Hi Hb) as Hh.
  destruct (shard_partition _ _ _ _ 0 Hh) as (frames & Hf & Hcc); [vm_compute; lia|].
  destruct (taskBuffer_Reader_spec buf 0 frames Hf) as (r & Hrd & Hs).
  exists r. split; [unfold Executor_Reader; by rewrite Hb|].
  rewrite Hcc in Hs. change (NumPartition no_partitioner) with 1%Z in Hs. by rewrite filter_rt_1 in Hs.
Qed.

Lemma local_spec ts order l w :
  ¬ is_Result root → compiled root no_partitioner ts → starts l w →
  (∀ t, t ∈ order → c_next base ≤ t < c_next c) → ordered (dom (le_buffers l)) order →
  (∀ t, t ∈ ts → t ∈ order) →
  ∃ l' w' f0, (∀ fuel, f0 ≤ fuel → run_all fuel order l w = Ret (l', w')) ∧
    ∀ i t, ts !! i = Some t → ∃ R r, w_tasks w' !! t = Some R ∧ t_state R = TaskOk ∧
      Executor_Reader l' t 0 = Ret r ∧ Streams r (D root i).
Proof.
  intros HR Hc Hst Hnew Hord Hall.
  destruct (run_all_spec order l w (starts_good l w Hst) Hnew Hord)
    as (l' & w' & f0 & Hrun & Hg & Hdom & HRs & _).
  exists l', w', f0. split; [done|]. intros i t Hi.
  assert (t ∈ order) as Hin by (apply Hall; by eapply list_elem_of_lookup_2).
  destruct (HRs t Hin) as (R & HwR & HRst).
  destruct (result_reader ts l' w' i t HR Hc Hg Hi) as (r & Hrd & Hs).
  { apply elem_of_dom. rewrite Hdom. set_solver. }
  exists R, r. split_and!; [done..|]. by eapply Streams_as_Streams.
Qed.
End run.


(** * Re-shuffling a result *)

Section reshuffle.
Context {C : Type} {CO : CombinerOps C} {CL : CombinerLaws C}.
Context (defaultChunksize : nat) (CHUNK : 0 < defaultChunksize).

Lemma bufferOutput_no_partition T k out l :
  streams plain k out l → l ≠ [] → ct_NumPartition T = 0%Z →
  ∃ msg L0 f0, ∀ L fuel, L0 ≤ L → f0 ≤ fuel →
    bufferOutput_loop defaultChunksize L fuel T out [] = Panic msg.
Proof.
  revert out l. induction k as [|k IH]; intros out l Hs Hl HN; [done|].
  destruct (Hs defaultChunksize CHUNK) as (out' & rows & oe & [f0 HR] & _ & Hoe).
  assert (∀ x rows', rows = x :: rows' → ∃ msg, buffer_batch defaultChunksize T [] rows = Panic msg) as Hbatch.
  { intros x rows' ->. unfold buffer_batch. rewrite HN. by eexists. }
  destruct rows as [|x rows].
  - destruct oe as [e|]; [by destruct Hoe as (_ & -> & _)|].
    destruct Hoe as (_ & l' & -> & Hs'). destruct (IH out' l' Hs' Hl HN) as (msg & L0 & f1 & Hr).
    exists msg, (S L0), (f0 `max` f1). intros [|L] fuel HL Hfuel; [lia|]. simpl. rewrite HR by lia. simpl.
    unfold buffer_batch. rewrite HN. simpl. apply Hr; lia.
  - destruct (Hbatch x rows eq_refl) as [msg Hmsg].
    exists msg, 1, f0. intros [|L] fuel HL Hfuel; [lia|]. simpl. rewrite HR by lia. simpl. rewrite Hmsg.
    destruct oe as [e|]; [|done]. by destruct Hoe as (-> & _).
Qed.

(** Shuffling the result of an earlier invocation directly fails: the tasks
    that compilation inserts to re-shuffle it have no partitions and no
    partitioner, although their dependents read as many partitions as they have
    shards, so that running one on a nonempty shard ends in a fatal error. *)
Theorem reshuffle_result_fails frame_Hash SReader inv_Index inv_Location machineCombiners c
    slice part p s rtasks ts i t r R l w buf frames :
  compiled frame_Hash SReader inv_Index inv_Location machineCombiners ∅ c slice part ts →
  Unwrap slice = Result p s rtasks → IsShuffle part = true → (1 <= NumOut (typ_of slice))%Z →
  ts !! i = Some t → rtasks !! i = Some r → c_tasks c !! r = Some R → ct_Group R = [] → ct_Combiner R = None →
  tasks_agree (c_tasks c) w → le_buffers l !! r = Some buf → buf !! 0 = Some frames → concat frames ≠ [] →
  ∃ w' S msg f0, (∀ fuel, f0 ≤ fuel → Run (c_tasks c) defaultChunksize fuel t l w = Ret (l, w')) ∧
    w_tasks w' !! t = Some S ∧ t_state S = TaskErr ∧ t_err S = Some (Err Fatal msg).
Proof.
  intros Hc HU Hsh HN Hi Hr HR HG HC Hw Hbuf Hfr Hne.
  inversion Hc as [? ? ? ? ? _ Hno|? ? p' s' rt op ? HU' _ _ _ Hts|? ? ? ? ? ? ? ? HR']; subst;
    [congruence| |by destruct HR'; unfold is_Result; rewrite HU].
  rewrite HU in HU'. injection HU' as <- <- <-.
  destruct (Hts i t r Hi Hr) as (_ & _ & R' & _ & HT).
  destruct (dep_tasks_single (c_tasks c) w r 0 false "" R Hw HR HG) as [Hn Hus].
  edestruct (depReader_spec (c_tasks c) defaultChunksize CHUNK w l
    (reshuffle_task inv_Index slice op ts rtasks i r R')
    (mkTaskDep r 0 false "") [r] [concat frames] R 0) as (rd & rows & f0 & Hrd & Hst & Hdel);
    [exact Hn|exact Hus|done|exact HR|done|done| | |].
  { constructor; [|constructor]. by exists buf, frames. }
  { intros f. by rewrite HC. }
  unfold delivered in Hdel. rewrite HC in Hdel. simpl in Hdel. rewrite app_nil_r in Hdel. subst rows.
  destruct Hst as [k Hk].
  destruct (bufferOutput_no_partition (reshuffle_task inv_Index slice op ts rtasks i r R') k rd _ Hk Hne eq_refl)
    as (msg & L0 & f1 & Hloop).
  destruct (Hw t _ HT) as (S & HS & HSd & HSg).
  destruct (Broadcast_agree c t (with_state TaskRunning (t_err S) S) w Hw) as [_ Hw1]; [by exists S|].
  set (w1 := Broadcast t (with_state TaskRunning (t_err S) S) w) in *.
  set (S1 := with_waitc None (with_state TaskRunning (t_err S) S)) in *.
  destruct (Broadcast_spec t (with_state TaskErr (Some (Err Fatal ("panic while evaluating slice: " +:+ msg))) S1) w1)
    as [Hw2 _].
  eexists _, _, _, (f0 `max` (L0 `max` f1)). split_and!.
  - intros fuel Hfuel. unfold Run, deref. rewrite HT. simpl. unfold depReaders. simpl.
    rewrite Hrd by lia. simpl. unfold Set_, with_task. rewrite HS. simpl.
    unfold bufferOutput. simpl. rewrite (proj2 (Z.eqb_neq _ _)) by (simpl in HN; lia).
    rewrite Hloop by lia. simpl. fold w1. rewrite Hw1, lookup_insert_eq. simpl. done.
  - rewrite Hw2, lookup_insert_eq. done.
  - done.
  - done.
Qed.
End reshuffle.
