(* ===== verification/SessionRun.v ===== *)
(** A session with the local executor (src/exec/session.go, src/exec/eval.go,
    src/exec/local.go), from the invocation of a func to the scan of its result. *)
From S2P Require Import Prelude Types SliceIO Scanner Slices Readers Task Eval EvalRun Func Compile CompileSpec CompileGraph Local LocalSpec LocalRun Session.

(** * The local executor as the executor of an evaluation *)

(** Submitting tasks: the critical section of the evaluator's loop. *)
Definition submit_tasks (ts : gset nat) (w : world) : world :=
  mkWorld (map_imap (λ t T, Some (if decide (t ∈ ts) then with_state (submit (t_state T)).1 (t_err T) T else T)) (w_tasks w))
    (w_subscribers w) (w_channels w) (w_closed w).

Definition state_in (w : world) (t : nat) : TaskState := from_option t_state TaskInit (w_tasks w !! t).

#[export] Instance local_TaskExecutor {C} `{CombinerOps C} (tasks : gmap nat cTask) (defaultChunksize : nat) :
    TaskExecutor (localExecutor * world) := {|
  ex_view x := state_in x.2;
  ex_submit ts x := (x.1, submit_tasks ts x.2);
  ex_runs t x x' := (λ fuel, Run tasks defaultChunksize fuel t x.1 x.2) ⇓ x';
|}.

Section eval.
Context {C : Type} {CO : CombinerOps C} {CL : CombinerLaws C}.
Context (has_method : gotype → string → bool).
Context (iter : ∀ A, nat → list A → list A) (defaultChunksize : nat) (CHUNK : 0 < defaultChunksize).
Context (sortio_Reduce cogroup_Reader : Slice → Z → list (anyReader row) → outcome (anyReader row)).
Context (frame_Hash : row → outcome Z) (inv_Index : Z) (inv_Location : string) (machineCombiners : bool).
Context (D : Slice → nat → list row) (route : Partitioner → Z → row → nat).

#[local] Abbreviation SReader :=
  (SliceReader has_method iter defaultChunksize sortio_Reduce cogroup_Reader).

Context (root : Slice) (base c : compiler) (rank0 : nat → nat) (IN : input_ok root base) (HEAP : heap_ok root base rank0).
Context (INV : Inv frame_Hash SReader inv_Index inv_Location machineCombiners root base ∅ c).
Context (SEM : semantics has_method frame_Hash D route root).

#[local] Abbreviation good := (good has_method iter defaultChunksize sortio_Reduce cogroup_Reader frame_Hash
  inv_Index inv_Location machineCombiners D route root c).
#[local] Abbreviation tasks := (graph (c_tasks c)).

(** The tasks that are done are the ones with a buffer, and those of earlier
    invocations are. *)
Definition local_inv (x : localExecutor * world) : Prop :=
  good x.1 x.2 ∧ (∀ t, is_Some (le_buffers x.1 !! t) ↔ state_in x.2 t = TaskOk) ∧
  ∀ t, t < c_next base → state_in x.2 t = TaskOk.

Lemma submit_tasks_state ts w t :
  (∀ u, u ∈ ts → is_Some (w_tasks w !! u)) → state_in (submit_tasks ts w) t = submit_all ts (state_in w) t.
Proof.
  intros Hts. unfold state_in, submit_all, submit_tasks. simpl. rewrite map_lookup_imap.
  destruct (w_tasks w !! t) as [T|] eqn:HT; simpl; [by case_decide|].
  case_decide as Ht; [|done]. by destruct (Hts t Ht); congruence.
Qed.

Lemma submit_tasks_agree ts w : tasks_agree (c_tasks c) w → tasks_agree (c_tasks c) (submit_tasks ts w).
Proof.
  intros Hw t T HT. destruct (Hw t T HT) as (R & HR & Hd & Hg). simpl. rewrite map_lookup_imap, HR. simpl.
  eexists. split; [done|]. by case_decide.
Qed.

(** The dependencies of a task whose phases are done have buffers. *)
Lemma ready_buffered l w t T d :
  (∀ u, is_Some (le_buffers l !! u) ↔ state_in w u = TaskOk) →
  (∀ h y, h ∈ heads tasks t → y ∈ phase tasks h → state_in w y = TaskOk) →
  c_tasks c !! t = Some T → d ∈ ct_Deps T → all_buffered c l d.
Proof.
  intros Hb Hready HT Hd u Hu. apply Hb. unfold dep_members in Hu.
  destruct (c_tasks c !! dep_Head d) as [H|] eqn:HH; [|set_solver].
  apply (Hready (dep_Head d)).
  - unfold heads, graph. rewrite HT. simpl. by apply list_elem_of_fmap_2.
  - unfold phase, Phase, graph. rewrite HH. simpl. by destruct (ct_Group H).
Qed.

Lemma local_run_ok t l w :
  local_inv (l, w) → t < c_next c → state_in w t = TaskWaiting →
  (∀ h y, h ∈ heads tasks t → y ∈ phase tasks h → state_in w y = TaskOk) →
  ∃ x', (λ fuel, Run (c_tasks c) defaultChunksize fuel t l w) ⇓ x' ∧ local_inv x' ∧
    ∀ u, state_in x'.2 u = set_task t TaskOk (state_in w) u.
Proof.
  intros (Hg & Hbuf & Hold) Ht Hv Hready. simpl in *.
  assert (c_next base ≤ t) as Hnew.
  { destruct (decide (c_next base ≤ t)); [done|]. rewrite Hold in Hv by lia. done. }
  destruct (new_task_slice has_method iter defaultChunksize CHUNK sortio_Reduce cogroup_Reader frame_Hash inv_Index
    inv_Location machineCombiners D route root base c IN INV SEM (heap_results _ _ _ HEAP) t (conj Hnew Ht))
    as (s & part & ts & i & Hs & HR & Hask & Hc & Hlen & Hi).
  destruct (Run_spec has_method iter defaultChunksize CHUNK sortio_Reduce cogroup_Reader frame_Hash inv_Index
    inv_Location machineCombiners D route root base c IN INV SEM (heap_results _ _ _ HEAP) l w s part ts i t Hg Hs HR
    Hask Hc Hlen Hi Hnew) as (l' & w' & f0 & Hrun & Hg' & Hdom & (R & HwR & HRst) & Hsame).
  { intros T d. by apply (ready_buffered l w). }
  assert (∀ u, state_in w' u = set_task t TaskOk (state_in w) u) as Hview.
  { intros u. unfold set_task, state_in. case_decide as E; [subst; rewrite HwR; done|by rewrite Hsame]. }
  exists (l', w'). split; [by exists f0|]. split; [|done]. split_and!; [done| |].
  - intros u. simpl. rewrite Hview, <-elem_of_dom, Hdom. unfold set_task. rewrite elem_of_union, elem_of_singleton, elem_of_dom, Hbuf.
    case_decide; [tauto|]. naive_solver.
  - intros u Hu. simpl. rewrite Hview. unfold set_task. case_decide; [done|]. by apply Hold.
Qed.

#[local] Existing Instance local_TaskExecutor.

#[export] Instance local_reliable :
  @ReliableExecutor tasks (set_seq 0 (c_next c)) (localExecutor * world) (local_TaskExecutor (c_tasks c) defaultChunksize).
Proof using All.
  refine {| ex_inv := local_inv : localExecutor * world → Prop |}.
  - intros ts [l w] (Hg & Hbuf & Hold) Hts. simpl in *.
    assert (∀ t, state_in (submit_tasks ts w) t = submit_all ts (state_in w) t) as Hview.
    { intros t. apply submit_tasks_state. intros u Hu%Hts%elem_of_set_seq.
      assert (is_Some (c_tasks c !! u)) as [T HT] by (apply (inv_heap _ _ _ _ _ _ _ _ _ INV); lia).
      destruct (good_agree _ _ _ _ _ _ _ _ _ _ _ _ _ _ _ Hg u T HT) as (R & HR & _). by eexists. }
    split; [|done]. split_and!; simpl.
    + destruct Hg as [Ha Hn Ho]. split; [by apply submit_tasks_agree|done|done].
    + intros t. rewrite Hview, Hbuf. unfold submit_all. case_decide; [|done]. by destruct (state_in w t).
    + intros t Ht. rewrite Hview. unfold submit_all. rewrite (Hold t Ht). by case_decide.
  - intros t [l w] Hinv Ht%elem_of_set_seq Hv Hready. simpl in *.
    destruct (local_run_ok t l w Hinv) as (x' & Hrun & Hx' & Hview); [lia|done|done|].
    split; [by exists x'|]. intros x'' Hrun''. by rewrite (yields_det _ _ _ Hrun'' Hrun).
Defined.
End eval.

(** * A run of a session *)

(** What earlier runs of the session leave: their tasks are done and buffered, and
    results that the slice uses hold their rows. *)
Record earlier (D : Slice → nat → list row) (slice : Slice) (invIndex : Z) (p : program) (l : localExecutor) : Prop := mkEarlier {
  er_agree : tasks_agree (pr_tasks p) (pr_world p);
  er_dom : ∀ t, is_Some (w_tasks (pr_world p) !! t) → t < pr_next p;
  er_done : ∀ t, t < pr_next p → state_in (pr_world p) t = TaskOk;
  er_buffers : ∀ t, is_Some (le_buffers l !! t) ↔ t < pr_next p;
  er_index : ∀ t T, pr_tasks p !! t = Some T → tn_InvIndex (ct_Name T) ≠ invIndex;
  er_results : ∀ s p s' rtasks i t buf, sub slice s → Unwrap s = Result p s' rtasks →
    rtasks !! i = Some t → le_buffers l !! t = Some buf →
    ∃ frames, buf !! 0 = Some frames ∧ concat frames = D s i;
}.

Section session.
Context {C : Type} {CO : CombinerOps C} {CL : CombinerLaws C}.
Context (has_method : gotype → string → bool).
Context (iter : ∀ A, nat → list A → list A) (defaultChunksize : nat) (CHUNK : 0 < defaultChunksize).
Context (sortio_Reduce cogroup_Reader : Slice → Z → list (anyReader row) → outcome (anyReader row)).
Context (frame_Hash : row → outcome Z) (machineCombiners : bool).
Context (D : Slice → nat → list row) (route : Partitioner → Z → row → nat).
Context (slice : Slice) (p : program) (inv : Invocation) (l : localExecutor) (rank0 : nat → nat).

#[local] Abbreviation SReader :=
  (SliceReader has_method iter defaultChunksize sortio_Reduce cogroup_Reader).
#[local] Abbreviation base := (mkCompiler (pr_tasks p) (pr_next p) ∅ ∅ makeCompileEnv).

Context (IN : input_ok slice base) (HEAP : heap_ok slice base rank0) (FRESH : ¬ is_Result slice).
Context (SEM : semantics has_method frame_Hash D route slice) (EARLIER : earlier D slice (inv_Index inv) p l).
Context (c : compiler).
Context (INV : Inv frame_Hash SReader (inv_Index inv) (inv_Location inv) machineCombiners slice base ∅ c).

(** Before the evaluation, new tasks are in the initial state. *)
Lemma start_tasks_state t :
  state_in (start_tasks (c_tasks c) (pr_world p)) t = if decide (t < pr_next p) then TaskOk else TaskInit.
Proof.
  unfold state_in, start_tasks. simpl. case_decide as Ht.
  - pose proof (er_done _ _ _ _ _ EARLIER t Ht) as Hs. unfold state_in in Hs.
    destruct (w_tasks (pr_world p) !! t) as [T|] eqn:HT; [|done]. by rewrite (lookup_union_Some_l _ _ _ _ HT).
  - rewrite lookup_union_r.
    + rewrite lookup_fmap. by destruct (c_tasks c !! t).
    + destruct (w_tasks (pr_world p) !! t) as [T|] eqn:HT; [|done]. destruct Ht. apply (er_dom _ _ _ _ _ EARLIER). by eexists.
Qed.

Lemma start_tasks_agree : tasks_agree (c_tasks c) (start_tasks (c_tasks c) (pr_world p)).
Proof.
  intros t T HT. unfold start_tasks. simpl. destruct (w_tasks (pr_world p) !! t) as [R|] eqn:HR.
  - rewrite (lookup_union_Some_l _ _ _ _ HR).
    assert (t < pr_next p) as Ht by (apply (er_dom _ _ _ _ _ EARLIER); by eexists).
    pose proof (inv_old _ _ _ _ _ _ _ _ _ INV t Ht) as Hold. rewrite HT in Hold. symmetry in Hold.
    destruct (er_agree _ _ _ _ _ EARLIER t T Hold) as (R' & HR' & ?). exists R'. split; [congruence|done].
  - rewrite lookup_union_r, lookup_fmap, HT by done. simpl. by eexists.
Qed.

Lemma start_starts : starts (inv_Index inv) D slice c l (start_tasks (c_tasks c) (pr_world p)).
Proof.
  split; [apply start_tasks_agree| |apply EARLIER].
  intros t Ht%(er_buffers _ _ _ _ _ EARLIER).
  assert (is_Some (pr_tasks p !! t)) as [T HT] by (apply (in_heap _ _ IN); done).
  exists T. split; [|by eapply er_index]. by rewrite (inv_old _ _ _ _ _ _ _ _ _ INV).
Qed.

Lemma session_start_inv :
  local_inv has_method iter defaultChunksize sortio_Reduce cogroup_Reader frame_Hash (inv_Index inv) (inv_Location inv)
    machineCombiners D route slice base c (l, start_tasks (c_tasks c) (pr_world p)).
Proof.
  split_and!; simpl.
  - apply starts_good, start_starts.
  - intros t. rewrite start_tasks_state, (er_buffers _ _ _ _ _ EARLIER). by case_decide.
  - intros t Ht. by rewrite start_tasks_state, decide_True.
Qed.

(** Scanning the result when its tasks are done. *)
Lemma scan_result PtrTo ts l' w' :
  compiled frame_Hash SReader (inv_Index inv) (inv_Location inv) machineCombiners ∅ c slice no_partitioner ts →
  length ts = Z.to_nat (NumShard slice) →
  local_inv has_method iter defaultChunksize sortio_Reduce cogroup_Reader frame_Hash (inv_Index inv) (inv_Location inv)
    machineCombiners D route slice base c (l', w') →
  (∀ t, t ∈ ts → state_in w' t = TaskOk) →
  ∃ sc, Result_Scanner (H := local_Executor defaultChunksize) l' (mkRunResult slice (inv_Index inv) ts) = Ret sc ∧
    scans PtrTo defaultChunksize sc (concat (D slice <$> seq 0 (Z.to_nat (NumShard slice)))).
Proof.
  intros Hc Hlen (Hg & Hbuf & _) Hok. simpl in *.
  assert (∀ ts' k, drop k ts = ts' → ∃ rs, open_loop (H := local_Executor defaultChunksize) l' ts' = Ret rs ∧
    Forall2 (Streams_as strict) rs (D slice <$> seq k (length ts'))) as Hopen.
  { induction ts' as [|t ts' IH]; intros k Hk; [by exists []|].
    destruct (drop_cons_inv _ _ _ _ Hk) as [Hi Hk'].
    destruct (result_reader has_method iter defaultChunksize CHUNK sortio_Reduce cogroup_Reader frame_Hash (inv_Index inv)
      (inv_Location inv) machineCombiners D route slice c ts l' w' k t) as (r & Hr & Hs); [done..| |].
    { apply Hbuf, Hok. by eapply list_elem_of_lookup_2. }
    destruct (IH (S k) Hk') as (rs & Hrs & HF). exists (r :: rs). simpl. rewrite Hr. simpl. rewrite Hrs. split; [done|].
    by constructor. }
  destruct (Hopen ts 0) as (rs & Hrs & HF); [done|].
  unfold Result_Scanner, Result_open. simpl. rewrite Hrs. simpl. eexists. split; [done|].
  apply Scanner_correct; [done|]. eapply Streams_as_Streams, MultiReader_spec. rewrite <-Hlen.
  eapply Forall2_impl; [|exact HF]. intros r rows [k Hk]. exists k. by eapply streams_weaken; [..|exact Hk].
Qed.
End session.

