(* ===== verification/LocalCombiner.v ===== *)
(** The combiner of Combiner.v behind the interface that the local executor
    uses: rows of values are divided into the key columns and the value column,
    and the theorems on combiners discharge the executor's assumptions. *)
From S2P Require Import Prelude Types Heap SliceIO SortIO Reduce Combiner Slices Readers Local.

(** * Rows as keys and values *)

Abbreviation krow := (list value * value)%type.

(** The last column of a row is its value, the columns before it are its key. *)
Definition split_row (r : row) : krow :=
  (take (length r - 1) r, default (VBool false) (list.last r)).
Definition join_row (x : krow) : row := x.1 ++ [x.2].

Lemma join_split r : r ≠ [] → join_row (split_row r) = r.
Proof.
  intros Hr. destruct (list.last r) as [v|] eqn:Hl; [|by apply last_None in Hl].
  apply last_Some in Hl as [l ->]. unfold join_row, split_row. simpl.
  rewrite length_app. simpl. rewrite Nat.add_sub, take_app_length, last_snoc. done.
Qed.

(** A reader of keys and values as a reader of rows. *)
Section joined.
Context {R : Type} `{Reader krow R}.

Record joinedReader := mkJoinedReader { jr_Reader : R }.

Definition joinedReader_Read (fuel : nat) (r : joinedReader) (n : nat) :
    outcome (joinedReader * (list row * option error)) :=
  '(r, (rows, err)) ← Read fuel (jr_Reader r) n;
  Ret (mkJoinedReader r, (join_row <$> (rows : list krow), err)).
#[local] Instance joinedReader_reader : Reader row joinedReader := joinedReader_Read.

Lemma joined_streams k r l : streams plain k r l → streams plain k (mkJoinedReader r) (join_row <$> l).
Proof.
  revert r l. induction k as [|k IH]; intros r l Hs; [done|].
  intros n Hn. destruct (Hs n Hn) as (r' & out & oe & [f0 HR] & Hl & Hoe).
  exists (mkJoinedReader r'), (join_row <$> out), oe. split_and!; [|by rewrite length_fmap|].
  { exists f0. intros f Hf. unfold Read, joinedReader_reader, joinedReader_Read. simpl. by rewrite HR. }
  destruct oe as [e|].
  - destruct Hoe as (-> & -> & _). by split_and!.
  - destruct Hoe as (? & l' & -> & Hs'). split; [done|].
    exists (join_row <$> l'). rewrite fmap_app. split; [done|]. by apply IH.
Qed.
End joined.
Arguments joinedReader : clear implicits.

(** * The instance *)

#[local] Existing Instance runReader_reader.

Section instance.
(** The order and the hash of keys (frame.Frame.Less and Hash), the spiller,
    sort.Sort and the chunk size. *)
Context (ltk : list value → list value → bool) (hash : list value → Z).
Context {Sp R : Type} `{Reader krow R} {SP : Spiller krow Sp R}.
Context (NewSpiller : string → Sp + error) (canCompare : Typ → bool).
Context (sort_Sort : list krow → list krow) (defaultChunksize : nat).

Definition zero_row : krow := ([], VBool false).

(** The combiner function as a function on the value column. *)
Definition comb_of (f : userFunc) (a b : value) : value :=
  match uf_Call f [a; b] with Ret [v] => v | _ => a end.

Record typedCombiner := mkTypedCombiner {
  tc_typ : Typ;
  tc_f : userFunc;
  tc_combiner : combiner (K := list value) (V := value) (Sp := Sp);
}.

#[export] Instance combiner_ops : CombinerOps typedCombiner := {|
  newCombiner typ name f targetSize :=
    res ← Combiner.newCombiner zero_row defaultChunksize (NewSpiller name) (canCompare typ)
      (NumOut typ) (Prefix typ) targetSize;
    Ret (match res with inl c => inl (mkTypedCombiner typ f c) | inr err => inr err end);
  Local.Combine fuel c rows :=
    '(cb, err) ← combiner_Combine ltk hash (comb_of (tc_f c)) zero_row sort_Sort fuel (tc_combiner c)
      (split_row <$> rows);
    Ret (mkTypedCombiner (tc_typ c) (tc_f c) cb, err);
  CombinerReader c :=
    '(cb, res) ← combiner_Reader (R := R) sort_Sort (NumOut (tc_typ c)) (Prefix (tc_typ c)) (tc_combiner c);
    Ret (mkTypedCombiner (tc_typ c) (tc_f c) cb,
      match res with
      | inl r => inl (@pack row _
          (@joinedReader_Read _ (reader_reader ltk (comb_of (tc_f c)) zero_row defaultChunksize))
          (mkJoinedReader r))
      | inr err => inr err
      end);
|}.

(** * Its laws *)

Context `{!StrictWeak ltk} {SL : SpillerLaws krow Sp R}.
Hypothesis hash_same : ∀ a b, ltk a b = false → ltk b a = false → hash a = hash b.
Hypothesis sort_perm : ∀ f, sort_Sort f ≡ₚ f.
Hypothesis sort_sorted : ∀ f, sorted (row_less ltk) (sort_Sort f).
Hypothesis NewSpiller_ok : ∀ name, ∃ sp, NewSpiller name = inl sp ∧ spilled sp [].
Context (chunk : nat) (CHUNK : defaultChunksize = 2 ^ chunk) (SMALL : chunk ≤ 29).

(** What a combiner can combine: rows of a comparable type with one value
    column, not more than its table can index, with a combiner function that is
    associative. *)
Definition combinable_rows (typ : Typ) (f : userFunc) (l : list row) : Prop :=
  (NumOut typ - Prefix typ = 1)%Z ∧ canCompare typ = true ∧
  (∀ a b c, comb_of f (comb_of f a b) c = comb_of f a (comb_of f b c)) ∧
  (Z.of_nat (length l) <= maxRows)%Z.

(** One row per key, in increasing order of keys, with the values of the key
    combined. *)
Definition reduces_rows (f : userFunc) (l L : list row) : Prop :=
  ∃ L', L = join_row <$> L' ∧ reduction ltk (comb_of f) (split_row <$> l) L'.

#[export] Instance combiner_laws : CombinerLaws typedCombiner.
Proof using All.
  refine {|
    Local.combined typ f c l := tc_typ c = typ ∧ tc_f c = f ∧ combinable_rows typ f l ∧
      holds ltk hash (comb_of f) (tc_combiner c) (split_row <$> l);
    combinable := combinable_rows;
    reduces typ f := reduces_rows f;
  |}.
  - intros typ name f targetSize Hc. pose proof Hc as (Hno & Hcmp & Has & _).
    destruct (NewSpiller_ok name) as (sp & Hsp & Hspilled).
    destruct (newCombiner_holds ltk hash (comb_of f) zero_row defaultChunksize sp (NumOut typ) (Prefix typ)
      chunk targetSize Hno CHUNK SMALL Hspilled) as (c & Hc0 & Hh).
    simpl. rewrite Hsp, Hcmp, Hc0. eexists. split; [done|]. by split_and!.
  - intros typ f c l rows (<- & <- & (Hno & Hcmp & Has & _) & Hh) Hc. pose proof Hc as (_ & _ & _ & Hmax).
    destruct (combiner_Combine_spec ltk hash (comb_of (tc_f c)) zero_row sort_Sort hash_same sort_perm sort_sorted
      (tc_combiner c) (split_row <$> l) (split_row <$> rows) Hh) as (cb & f0 & Hcb & Hh').
    { rewrite !length_fmap. by rewrite length_app in Hmax. }
    exists (mkTypedCombiner (tc_typ c) (tc_f c) cb), f0. split.
    + intros fuel Hf. simpl. by rewrite Hcb by done.
    + rewrite <-fmap_app in Hh'. by split_and!.
  - intros typ f c l (<- & <- & (Hno & Hcmp & Has & Hmax) & Hh).
    destruct (combiner_Reader_spec ltk hash (comb_of (tc_f c)) zero_row sort_Sort defaultChunksize
      Has sort_perm sort_sorted (NumOut (tc_typ c)) (Prefix (tc_typ c)) (tc_combiner c) (split_row <$> l) Hno)
      as (cb & r & L & Hr & HL & Hred); [rewrite CHUNK; apply pow2_pos|done|].
    eexists _, _, (join_row <$> L). split; [|split].
    + simpl. rewrite Hr. reflexivity.
    + destruct HL as [k Hk]. apply pack_Streams_as. exists k.
      apply joined_streams. by eapply streams_plain.
    + by exists L.
  - intros typ f l1 l2 (? & ? & ? & Hmax). rewrite length_app in Hmax. split_and!; [done..|lia].
Defined.
End instance.
