(* ===== verification/WorkerOut.v ===== *)
(** The output of tasks on a worker (src/exec/bigmachine.go, the second half of
    worker.Run): rows are partitioned into small frames, which are encoded into the
    partitions of the worker's store and committed when the task is done.

    The store is the class [Store] of Store.v; the encoding of frames is the class
    [RowEncoding], which Codec.v implements (WorkerCodec.v). *)
From S2P Require Import Prelude Types SliceIO Retry Slices Readers Task Compile Store Local LocalSpec.

(** * Encoding of frames *)

(** What workers use of sliceio's encoder and decoder, for frames of a type. *)
Class RowEncoding (E : Type) := {
  new_encoder : Typ → E;
  enc_Write : E → list row → E * option error;
  enc_bytes : E → list Z;
  decoding : Typ → list Z → anyReader row;
}.

(** [encodes typ e l]: [l] was written to [e]; [encodable typ] are the frames that can
    be. *)
Class RowEncodingLaws (E : Type) `{RowEncoding E} := {
  encodes : Typ → E → list row → Prop;
  encodable : Typ → list row → Prop;
  new_encoder_ok : ∀ typ, encodes typ (new_encoder typ) [];
  enc_Write_ok : ∀ typ e l rows, encodes typ e l → encodable typ rows →
    ∃ e', enc_Write e rows = (e', None) ∧ encodes typ e' (l ++ rows);
  decoding_ok : ∀ typ e l, encodes typ e l → Streams_as clean (decoding typ (enc_bytes e)) l;
  encodable_app : ∀ typ l1 l2, encodable typ (l1 ++ l2) ↔ encodable typ l1 ∧ encodable typ l2;
}.

Section output.
Context {E : Type} `{RowEncoding E} {St : Type} `{Store St}.
Context (defaultChunksize : nat).

(** ** Partitions *)

(** A partition that is written: its encoder, the rows of its frame that are filled,
    and the number of rows. *)
Record partition := mkPartition { pt_enc : E; pt_rows : list row; pt_count : Z }.

Definition psize : nat := defaultChunksize / 100.

(** Copies a row to the next place of a partition's frame, which has length
    [psize], and writes the frame when it is full. *)
Definition put_row (pt : partition) (x : row) : outcome (partition + runError) :=
  if psize <=? length (pt_rows pt) then Panic "slice bounds out of range"
  else
    let rows := pt_rows pt ++ [x] in
    let count := (pt_count pt + 1)%Z in
    if length rows =? psize then
      match enc_Write (pt_enc pt) rows with
      | (_, Some e) => Ret (inr (maybeTaskFatalErr (fatal e)))
      | (e, None) => Ret (inl (mkPartition e [] count))
      end
    else Ret (inl (mkPartition (pt_enc pt) rows count)).

(** Row [i] goes to partition [shards[i]]. *)
Fixpoint put_rows (parts : list partition) (rows : list row) (shards : list Z) : outcome (list partition + runError) :=
  match rows, shards with
  | x :: rows, p :: shards =>
      pt ← index parts p;
      res ← put_row pt x;
      match res with
      | inr e => Ret (inr e)
      | inl pt => put_rows (<[Z.to_nat p := pt]> parts) rows shards
      end
  | _, _ => Ret (inl parts)
  end.

(** The loop for tasks with several partitions. *)
Fixpoint partition_loop (loop fuel : nat) (T : cTask) (out : anyReader row) (parts : list partition) :
    outcome (list partition + runError) :=
  match loop with
  | 0 => NoFuel
  | S loop =>
      '(out, (rows, err)) ← Read fuel out defaultChunksize;
      match err with
      | Some (Err k msg) => Ret (inr (maybeTaskFatalErr (Err k msg)))
      | _ =>
          part ← match ct_Partitioner T with Some part => Ret part | None => nil_deref end;
          shards ← part rows (ct_NumPartition T);
          res ← put_rows parts rows shards;
          match res with
          | inr e => Ret (inr e)
          | inl parts => if bool_decide (err = Some EOF) then Ret (inl parts) else partition_loop loop fuel T out parts
          end
      end
  end.

(** Writes what remains in the frames. *)
Fixpoint flush_parts (parts : list partition) : list partition + runError :=
  match parts with
  | [] => inl []
  | pt :: parts =>
      match (match pt_rows pt with [] => (pt_enc pt, None) | rows => enc_Write (pt_enc pt) rows end) with
      | (_, Some e) => inr (maybeTaskFatalErr (fatal e))
      | (e, None) =>
          match flush_parts parts with
          | inr e => inr e
          | inl parts => inl (mkPartition e [] (pt_count pt) :: parts)
          end
      end
  end.

(** The loop for tasks with one partition. *)
Fixpoint single_loop (loop fuel : nat) (out : anyReader row) (parts : list partition) : outcome (list partition + runError) :=
  match loop with
  | 0 => NoFuel
  | S loop =>
      '(out, (rows, err)) ← Read fuel out defaultChunksize;
      match err with
      | Some (Err k msg) => Ret (inr (maybeTaskFatalErr (Err k msg)))
      | _ =>
          pt ← index parts 0;
          match enc_Write (pt_enc pt) rows with
          | (_, Some e) => Ret (inr (maybeTaskFatalErr (fatal e)))
          | (e, None) =>
              let parts := <[0 := mkPartition e [] (pt_count pt + Z.of_nat (length rows))]> parts in
              if bool_decide (err = Some EOF) then Ret (inl parts) else single_loop loop fuel out parts
          end
      end
  end.

(** ** The store *)

Fixpoint create_parts (s : St) (name : TaskName) (p n : nat) : option error :=
  match n with
  | 0 => None
  | S n => match st_Create s name p with Some e => Some e | None => create_parts s name (S p) n end
  end.

Fixpoint commit_parts (s : St) (name : TaskName) (p : nat) (parts : list partition) : St * option error :=
  match parts with
  | [] => (s, None)
  | pt :: parts =>
      match st_Commit s name p (enc_bytes (pt_enc pt)) (pt_count pt) with
      | (s, Some e) => (s, Some e)
      | (s, None) => commit_parts s name (S p) parts
      end
  end.

(** The output of a task, which [do_] returns the reader of: partitions are created,
    filled and committed; on an error those not committed are discarded.  The output
    of a task without columns is only computed. *)
Definition write_output (fuel : nat) (T : cTask) (do_ : outcome (anyReader row)) (s : St) : outcome (St * option runError) :=
  if (ct_NumPartition T <? 0)%Z then Panic "makeslice: len out of range"
  else
    let n := Z.to_nat (ct_NumPartition T) in
    match create_parts s (ct_Name T) 0 n with
    | Some e => Ret (s, Some (plainErr e))
    | None =>
        let parts := replicate n (mkPartition (new_encoder (ct_Type T)) [] 0) in
        out ← do_;
        if (NumOut (ct_Type T) =? 0)%Z then
          '(_, (_, err)) ← Read fuel out 0;
          Ret (s, match err with Some (Err k msg) => Some (maybeTaskFatalErr (Err k msg)) | _ => None end)
        else
          res ← (if (1 <? ct_NumPartition T)%Z then
                   res ← partition_loop fuel fuel T out parts;
                   Ret (match res with inl parts => flush_parts parts | inr e => inr e end)
                 else single_loop fuel fuel out parts);
          match res with
          | inr e => Ret (s, Some e)
          | inl parts =>
              let '(s, err) := commit_parts s (ct_Name T) 0 parts in
              Ret (s, plainErr <$> err)
          end
    end.

(** * What is stored *)

Context {RL : RowEncodingLaws E} {SL : StoreLaws St}.
Context (T : cTask) (f : row → nat).

#[local] Abbreviation typ := (ct_Type T).
#[local] Abbreviation n := (Z.to_nat (ct_NumPartition T)).

(** The partitions hold the rows [l], each in the partition that [f] assigns. *)
Definition written (parts : list partition) (l : list row) : Prop :=
  length parts = n ∧ ∀ p pt, parts !! p = Some pt →
    ∃ l', encodes typ (pt_enc pt) l' ∧ l' ++ pt_rows pt = filter (λ x, f x = p) l ∧
      (pt_rows pt = [] ∨ length (pt_rows pt) < psize) ∧
      pt_count pt = Z.of_nat (length (filter (λ x, f x = p) l)).

Lemma written_nil : written (replicate n (mkPartition (new_encoder typ) [] 0)) [].
Proof.
  split; [apply length_replicate|]. intros p pt [-> _]%lookup_replicate. exists []. simpl.
  split_and!; [apply new_encoder_ok|done|by left|done].
Qed.

Lemma encodable_filter (P : row → Prop) `{∀ x, Decision (P x)} ty l : encodable ty l → encodable ty (filter P l).
Proof.
  induction l as [|x l IH]; [done|]. change (x :: l) with ([x] ++ l). rewrite encodable_app, list.filter_app, encodable_app.
  intros [Hx Hl]. split; [|by apply IH]. destruct (decide (P x)); [by rewrite filter_cons_True|].
  rewrite filter_cons_False by done. rewrite filter_nil. change [x] with ([] ++ [x]) in Hx. by apply encodable_app in Hx as [? _].
Qed.

Lemma put_rows_spec parts l rows :
  0 < psize → written parts l → (∀ x, x ∈ rows → f x < n) → encodable typ (l ++ rows) →
  ∃ parts', put_rows parts rows (Z.of_nat ∘ f <$> rows) = Ret (inl parts') ∧ written parts' (l ++ rows).
Proof.
  intros Hps. revert parts l. induction rows as [|x rows IH]; intros parts l [Hlen Hw] Hf Henc; simpl.
  { exists parts. by rewrite app_nil_r. }
  destruct (lookup_lt_is_Some_2 parts (f x)) as [pt Hpt]; [rewrite Hlen; apply Hf; set_solver|].
  rewrite index_lookup, Hpt. cbn [mbind outcome_bind]. rewrite Nat2Z.id.
  destruct (Hw _ _ Hpt) as (l' & Hl' & Heq & Hsz & Hc).
  assert (∃ pt' l2, put_row pt x = Ret (inl pt') ∧ encodes typ (pt_enc pt') l2 ∧
    l2 ++ pt_rows pt' = filter (λ y, f y = f x) (l ++ [x]) ∧ (pt_rows pt' = [] ∨ length (pt_rows pt') < psize) ∧
    pt_count pt' = Z.of_nat (length (filter (λ y, f y = f x) (l ++ [x])))) as (pt' & l2 & Hput & Hl2 & Heq2 & Hsz2 & Hc2).
  { assert (length (pt_rows pt) < psize) as Hlt by (destruct Hsz as [->|]; [simpl; lia|done]).
    assert (filter (λ y, f y = f x) (l ++ [x]) = l' ++ (pt_rows pt ++ [x])) as Hfl.
    { rewrite list.filter_app, filter_cons_True, filter_nil by done. by rewrite <-Heq, (assoc_L (++)). }
    assert (pt_count pt + 1 = Z.of_nat (length (filter (λ y, f y = f x) (l ++ [x]))))%Z as Hcnt.
    { rewrite Hc, Hfl, <-Heq, !length_app. simpl. lia. }
    unfold put_row. rewrite (proj2 (Nat.leb_gt _ _)) by done.
    destruct (Nat.eqb_spec (length (pt_rows pt ++ [x])) psize) as [Hfull|Hnot].
    - destruct (enc_Write_ok typ (pt_enc pt) l' (pt_rows pt ++ [x]) Hl') as (e & -> & He).
      { change (x :: rows) with ([x] ++ rows) in Henc. rewrite (assoc_L (++)), encodable_app in Henc. destruct Henc as [Henc _].
        apply (encodable_filter (λ y, f y = f x)) in Henc. rewrite Hfl in Henc. by apply encodable_app in Henc as [_ ?]. }
      eexists _, _. split; [done|]. split_and!; [exact He|simpl; by rewrite Hfl, app_nil_r|by left|done].
    - eexists _, _. split; [done|]. split_and!; [exact Hl'|by rewrite Hfl|right|done].
      simpl. rewrite length_app in *. simpl in *. lia. }
  rewrite Hput. cbn [mbind outcome_bind]. destruct (IH (<[f x := pt']> parts) (l ++ [x])) as (parts' & Hr & Hw').
  - split; [by rewrite length_insert|]. intros p q. destruct (decide (p = f x)) as [->|Hne].
    + rewrite list_lookup_insert_eq by (by eapply lookup_lt_Some). intros [= <-]. by exists l2.
    + rewrite list_lookup_insert_ne by done. intros Hq. destruct (Hw p q Hq) as (l3 & ? & ? & ? & ?). exists l3.
      rewrite list.filter_app, filter_cons_False, filter_nil, app_nil_r by done. done.
  - intros y Hy. apply Hf. set_solver.
  - by rewrite <-(assoc_L (++)).
  - exists parts'. split; [done|]. by rewrite <-(assoc_L (++)) in Hw'.
Qed.

Lemma partition_loop_spec k out parts l l' :
  0 < defaultChunksize → 0 < psize → streams plain k out l' → (1 < ct_NumPartition T)%Z → assigns T f (l ++ l') →
  encodable typ (l ++ l') → written parts l →
  ∃ parts', (∃ L0 f0, ∀ L fuel, L0 ≤ L → f0 ≤ fuel → partition_loop L fuel T out parts = Ret (inl parts')) ∧
    written parts' (l ++ l').
Proof.
  intros CHUNK Hps. revert out parts l l'. induction k as [|k IH]; intros out parts l l' Hs HN Ha Henc Hw; [done|].
  destruct (Hs defaultChunksize CHUNK) as (out' & rows & oe & [f0 HR] & _ & Hoe).
  assert (∃ rest, l' = rows ++ rest) as [rest Hl'].
  { destruct oe as [e|]; [destruct Hoe as (_ & -> & _); exists []; by rewrite app_nil_r|].
    destruct Hoe as (_ & rest & -> & _). by exists rest. }
  pose proof Ha as (_ & Hlt & Hpart). destruct (Hpart HN) as (part & HP & Hassign).
  destruct (put_rows_spec parts l rows Hps Hw) as (parts1 & Hput & Hw1).
  { intros x Hx. apply Hlt. rewrite Hl'. set_solver. }
  { rewrite Hl', (assoc_L (++)) in Henc. by apply encodable_app in Henc as [? _]. }
  assert (part rows (ct_NumPartition T) = Ret (Z.of_nat ∘ f <$> rows)) as Hsh by (apply Hassign; rewrite Hl'; set_solver).
  destruct oe as [e|].
  - destruct Hoe as (-> & -> & _). exists parts1. split; [|done]. exists 1, f0. intros [|L] fuel HL Hfuel; [lia|]. simpl.
    rewrite HR by done. simpl. rewrite HP. simpl. rewrite Hsh. simpl. by rewrite Hput.
  - destruct Hoe as (_ & l'' & -> & Hs').
    destruct (IH out' parts1 (l ++ rows) l'' Hs' HN) as (parts' & (L0 & f1 & Hr) & Hw'); [by rewrite <-(assoc_L (++))..|done|].
    exists parts'. rewrite <-(assoc_L (++)) in Hw'. split; [|done].
    exists (S L0), (f0 `max` f1). intros [|L] fuel HL Hfuel; [lia|]. simpl. rewrite HR by lia. simpl.
    rewrite HP. simpl. rewrite Hsh. simpl. rewrite Hput. simpl. apply Hr; lia.
Qed.

(** The partitions when all rows are encoded. *)
Definition encoded (parts : list partition) (l : list row) : Prop :=
  length parts = n ∧ ∀ p pt, parts !! p = Some pt →
    encodes typ (pt_enc pt) (filter (λ x, f x = p) l) ∧ pt_count pt = Z.of_nat (length (filter (λ x, f x = p) l)).

Lemma flush_parts_spec parts l :
  written parts l → encodable typ l → ∃ parts', flush_parts parts = inl parts' ∧ encoded parts' l.
Proof.
  intros [Hlen Hw] Henc. unfold encoded. rewrite <-Hlen. clear Hlen.
  assert (∀ k, (∀ p pt, parts !! p = Some pt → ∃ l', encodes typ (pt_enc pt) l' ∧
      l' ++ pt_rows pt = filter (λ x, f x = k + p) l ∧ pt_count pt = Z.of_nat (length (filter (λ x, f x = k + p) l))) →
    ∃ parts', flush_parts parts = inl parts' ∧ length parts' = length parts ∧ ∀ p pt, parts' !! p = Some pt →
      encodes typ (pt_enc pt) (filter (λ x, f x = k + p) l) ∧ pt_count pt = Z.of_nat (length (filter (λ x, f x = k + p) l))) as Hind.
  { clear Hw. induction parts as [|pt parts IH]; intros k Hw; [by exists []|].
    destruct (Hw 0 pt eq_refl) as (l' & Hl' & Heq & Hc). rewrite Nat.add_0_r in *.
    destruct (IH (S k)) as (parts' & Hfl & Hlen & Hp).
    { intros p q Hq. destruct (Hw (S p) q Hq) as (l2 & ? & ? & ?). exists l2. by rewrite Nat.add_succ_l, <-Nat.add_succ_r. }
    assert (∃ e, match pt_rows pt with [] => (pt_enc pt, None) | rows => enc_Write (pt_enc pt) rows end = (e, None) ∧
      encodes typ e (filter (λ x, f x = k) l)) as (e & He & Henc').
    { rewrite <-Heq. destruct (pt_rows pt) as [|x rows] eqn:Hr; [exists (pt_enc pt); by rewrite app_nil_r|].
      apply enc_Write_ok; [done|]. apply (encodable_filter (λ x, f x = k)) in Henc. rewrite <-Heq in Henc.
      by apply encodable_app in Henc as [_ ?]. }
    exists (mkPartition e [] (pt_count pt) :: parts'). cbn [flush_parts]. rewrite He, Hfl. split_and!; [done|simpl; lia|].
    intros [|p] q Hq; [injection Hq as <-; rewrite Nat.add_0_r; done|].
    rewrite Nat.add_succ_r, <-Nat.add_succ_l. by apply Hp. }
  destruct (Hind 0) as (parts' & Hfl & Hlen & Hp).
  { intros p pt Hpt. destruct (Hw p pt Hpt) as (l' & ? & ? & _ & ?). by exists l'. }
  exists parts'. split; [done|]. by split.
Qed.

(** Everything goes to one partition. *)
Lemma single_loop_spec k out parts l l' :
  0 < defaultChunksize → streams plain k out l' → ct_NumPartition T = 1%Z → (∀ x, x ∈ l ++ l' → f x < n) →
  encodable typ (l ++ l') → encoded parts l →
  ∃ parts', (∃ L0 f0, ∀ L fuel, L0 ≤ L → f0 ≤ fuel → single_loop L fuel out parts = Ret (inl parts')) ∧
    encoded parts' (l ++ l').
Proof.
  intros CHUNK. revert out parts l l'. induction k as [|k IH]; intros out parts l l' Hs HN Hf Henc Hw; [done|].
  destruct (Hs defaultChunksize CHUNK) as (out' & rows & oe & [f0 HR] & _ & Hoe).
  assert (∃ rest, l' = rows ++ rest) as [rest Hl'].
  { destruct oe as [e|]; [destruct Hoe as (_ & -> & _); exists []; by rewrite app_nil_r|].
    destruct Hoe as (_ & rest & -> & _). by exists rest. }
  pose proof Hw as [Hlen Hp]. rewrite HN in *. destruct parts as [|pt [|]]; [done| |done]. destruct (Hp 0 pt eq_refl) as [He Hc].
  assert (∀ l0, l0 ⊆ l ++ l' → filter (λ x, f x = 0) l0 = l0) as Hall.
  { intros l0 Hl0. apply filter_all, list.Forall_forall. intros x Hx. assert (f x < 1) by (apply Hf; set_solver). lia. }
  rewrite Hall in He, Hc by set_solver.
  destruct (enc_Write_ok typ (pt_enc pt) l rows He) as (e & Hwr & He').
  { rewrite Hl', (assoc_L (++)) in Henc. apply encodable_app in Henc as [Henc _]. by apply encodable_app in Henc as [_ ?]. }
  set (parts1 := [mkPartition e [] (pt_count pt + Z.of_nat (length rows))]).
  assert (encoded parts1 (l ++ rows)) as Hw1.
  { split; [by rewrite HN|]. intros [|p] q Hq; [injection Hq as <-|done]. simpl. rewrite Hall by (rewrite Hl'; set_solver).
    split; [done|]. rewrite Hc, length_app. lia. }
  destruct oe as [err|].
  - destruct Hoe as (-> & -> & _). exists parts1. split; [|done]. exists 1, f0. intros [|L] fuel HL Hfuel; [lia|]. simpl.
    rewrite HR by done. simpl. by rewrite Hwr.
  - destruct Hoe as (_ & l'' & -> & Hs').
    destruct (IH out' parts1 (l ++ rows) l'' Hs') as (parts' & (L0 & f1 & Hr) & Hw'); [done|by rewrite <-(assoc_L (++))..|done|].
    exists parts'. rewrite <-(assoc_L (++)) in Hw'. split; [|done].
    exists (S L0), (f0 `max` f1). intros [|L] fuel HL Hfuel; [lia|]. simpl. rewrite HR by lia. simpl.
    rewrite Hwr. simpl. apply Hr; lia.
Qed.

(** ** Commits *)

Lemma create_parts_spec s A k m :
  repr s A → storable (ct_Name T) 0 → (∀ p, A !! (ct_Name T, p) = None) → create_parts s (ct_Name T) k m = None.
Proof.
  intros Hr Hst HA. revert k. induction m as [|m IH]; intros k; simpl; [done|].
  destruct (commit_ok s A (ct_Name T) k [] 0 Hr Hst (HA k)) as [-> _]. apply IH.
Qed.

(** The partitions of the task are in the store. *)
Definition stored_parts (A : stored) (name : TaskName) (k : nat) (parts : list partition) : Prop :=
  ∀ p pt, parts !! p = Some pt → A !! (name, k + p) = Some (enc_bytes (pt_enc pt), pt_count pt).

Lemma commit_parts_spec s A name k parts :
  repr s A → (∀ pt, pt ∈ parts → storable name (pt_count pt)) → (∀ p, k ≤ p → A !! (name, p) = None) →
  ∃ s' A', commit_parts s name k parts = (s', None) ∧ repr s' A' ∧ stored_parts A' name k parts ∧
    (∀ t p, t ≠ name ∨ p < k ∨ k + length parts ≤ p → A' !! (t, p) = A !! (t, p)).
Proof.
  revert s A k. induction parts as [|pt parts IH]; intros s A k Hr Hst HA; simpl.
  { exists s, A. split_and!; [done|done|by intros|done]. }
  destruct (commit_ok s A name k (enc_bytes (pt_enc pt)) (pt_count pt) Hr) as [_ (s1 & -> & Hr1)].
  { apply Hst. by left. } { apply HA. lia. }
  destruct (IH s1 _ (S k) Hr1) as (s' & A' & Hc & Hr' & Hsp & Hsame).
  { intros q Hq. apply Hst. by right. }
  { intros p Hp. rewrite lookup_insert_ne by (intros [= ->]; lia). apply HA. lia. }
  exists s', A'. split_and!; [done|done| |].
  - intros [|p] q Hq.
    + injection Hq as <-. rewrite Nat.add_0_r, Hsame by (right; left; lia). by rewrite lookup_insert_eq.
    + rewrite Nat.add_succ_r, <-Nat.add_succ_l. by apply Hsp.
  - intros t p Hp. rewrite Hsame by (destruct Hp as [?|[?|?]]; [by left|right; left; lia|right; right; lia]).
    rewrite lookup_insert_ne; [done|]. intros [= -> ->]. destruct Hp as [?|[?|?]]; [done|lia|lia].
Qed.

(** What the store holds of a task whose output is [l]: each partition decodes to
    the rows assigned to it, and has their number as record count. *)
Definition holds_output (A : stored) (l : list row) : Prop :=
  ∀ p, p < n → ∃ data, A !! (ct_Name T, p) = Some (data, Z.of_nat (length (filter (λ x, f x = p) l))) ∧
    Streams_as clean (decoding typ data) (filter (λ x, f x = p) l).

Lemma write_output_spec s A out l :
  0 < defaultChunksize → ((1 < ct_NumPartition T)%Z → 0 < psize) → (NumOut typ ≠ 0)%Z →
  Streams out l → assigns T f l → encodable typ l →
  repr s A → (∀ k, (0 <= k <= Z.of_nat (length l))%Z → storable (ct_Name T) k) → (∀ p, A !! (ct_Name T, p) = None) →
  ∃ s' A' f0, (∀ fuel, f0 ≤ fuel → write_output fuel T (Ret out) s = Ret (s', None)) ∧ repr s' A' ∧ holds_output A' l ∧
    (∀ t p, t ≠ ct_Name T ∨ n ≤ p → A' !! (t, p) = A !! (t, p)).
Proof.
  intros CHUNK Hps HN [k Hk] Ha Henc Hr Hst HA. pose proof Ha as (Hn1 & Hf & _).
  assert (encoded (replicate n (mkPartition (new_encoder typ) [] 0)) []) as He0.
  { split; [apply length_replicate|]. intros p pt [-> _]%lookup_replicate. split; [apply new_encoder_ok|done]. }
  assert (∃ parts f0, (∀ fuel, f0 ≤ fuel →
      (if (1 <? ct_NumPartition T)%Z then
         res ← partition_loop fuel fuel T out (replicate n (mkPartition (new_encoder typ) [] 0));
         Ret (match res with inl parts => flush_parts parts | inr e => inr e end)
       else single_loop fuel fuel out (replicate n (mkPartition (new_encoder typ) [] 0))) = Ret (inl parts)) ∧
    encoded parts l) as (parts & f0 & Hloop & Hlen & Hparts).
  { destruct (Z.ltb_spec 1 (ct_NumPartition T)) as [H1|H1].
    - destruct (partition_loop_spec k out _ [] l CHUNK (Hps H1) Hk H1 Ha Henc written_nil) as (parts & (L0 & f0 & Hr1) & Hw).
      destruct (flush_parts_spec parts l Hw Henc) as (parts' & Hfl & Hen). exists parts', (L0 `max` f0). split; [|done].
      intros fuel Hfuel. rewrite Hr1 by lia. simpl. by rewrite Hfl.
    - destruct (single_loop_spec k out _ [] l CHUNK Hk ltac:(lia) Hf Henc He0) as (parts & (L0 & f0 & Hr1) & Hw).
      exists parts, (L0 `max` f0). split; [|done]. intros fuel Hfuel. by rewrite Hr1 by lia. }
  destruct (commit_parts_spec s A (ct_Name T) 0 parts Hr) as (s' & A' & Hc & Hr' & Hsp & Hsame).
  { intros pt [p Hp]%list_elem_of_lookup. destruct (Hparts p pt Hp) as [_ ->]. apply Hst.
    pose proof (length_filter (λ x, f x = p) l). lia. }
  { intros p _. apply HA. }
  exists s', A', f0. split_and!; [|done| |intros t p [?|?]; apply Hsame; [by left|right; right; lia]].
  - intros fuel Hfuel. unfold write_output. rewrite (proj2 (Z.ltb_ge _ _)) by lia.
    rewrite (create_parts_spec s A) by (done || apply Hst; lia). cbn [mbind outcome_bind]. rewrite (proj2 (Z.eqb_neq _ _) HN), Hloop by done.
    simpl. by rewrite Hc.
  - intros p Hp. destruct (lookup_lt_is_Some_2 parts p) as [pt Hpt]; [lia|]. destruct (Hparts p pt Hpt) as [He Hcnt].
    exists (enc_bytes (pt_enc pt)). rewrite <-Hcnt. split; [by apply (Hsp p)|]. by apply decoding_ok.
Qed.

(** The output of a task without columns is not stored. *)
Lemma write_output_no_columns s A out :
  (0 <= ct_NumPartition T)%Z → NumOut typ = 0%Z → repr s A → storable (ct_Name T) 0 → (∀ p, A !! (ct_Name T, p) = None) →
  (∃ out' rows oe f0, (∀ fuel, f0 ≤ fuel → Read fuel out 0 = Ret (out', (rows, oe))) ∧ (oe = None ∨ oe = Some EOF)) →
  ∃ f0, ∀ fuel, f0 ≤ fuel → write_output fuel T (Ret out) s = Ret (s, None).
Proof.
  intros Hn HN Hr Hst HA (out' & rows & oe & f0 & HR & Hoe). exists f0. intros fuel Hfuel.
  unfold write_output. rewrite (proj2 (Z.ltb_ge _ _)), (create_parts_spec s A), HN by done. simpl.
  rewrite HR by done. simpl. by destruct Hoe as [->| ->].
Qed.
End output.
