(* ===== verification/WorkerCodec.v ===== *)
(** Workers encode their output with sliceio's codec (src/exec/bigmachine.go: the uses of
    NewEncodingWriter and NewDecodingReader): Codec.v implements the interface
    [RowEncoding], and its theorem discharges the laws.

    gob and the column codecs are the parameter [codecs], one codec for each type of
    frames; bytes are integers in the stores. *)
From S2P Require Import Prelude Types SliceIO Codec Slices WorkerOut.

Section instance.
Context (codecs : Typ → Codec value) (zv : value).
Context (to_Z : ∀ typ, @byte value (codecs typ) → Z) (of_Z : ∀ typ, Z → @byte value (codecs typ)).

#[local] Abbreviation enc typ := (@Encoder value (codecs typ)).

Record typedEncoder := mkTypedEncoder { te_typ : Typ; te_enc : enc te_typ }.

#[export] Instance codec_encoding : RowEncoding typedEncoder := {|
  new_encoder typ := mkTypedEncoder typ (@NewEncodingWriter value (codecs typ));
  enc_Write e rows :=
    let '(e', err) := @Encoder_Write value zv (codecs (te_typ e)) (te_enc e) rows in (mkTypedEncoder (te_typ e) e', err);
  enc_bytes e := to_Z (te_typ e) <$> @en_out value (codecs (te_typ e)) (te_enc e);
  decoding typ data :=
    @pack (list value) _ (@decodingReader_Read value zv (codecs typ))
      (@NewDecodingReader value (codecs typ) (of_Z typ <$> data));
|}.

(** * Its laws *)

Context (LAWS : ∀ typ, @CodecLaws value (codecs typ)) (BYTES : ∀ typ b, of_Z typ (to_Z typ b) = b).
(** The values of a type that gob and the column codecs encode; lengths, flags and
    checksums always are. *)
Context (good : Typ → value → Prop).
Context (GOB : ∀ typ s m, match m with MCol c => Forall (good typ) c | _ => True end →
  ∃ r, @gob_enc value (codecs typ) s m = inl r).
Context (CODEC : ∀ typ s col c, Forall (good typ) c → ∃ r, @codec_enc value (codecs typ) s col c = inl r).

Definition good_rows (typ : Typ) (rows : list row) : Prop :=
  Forall (λ r, length r = @Codec.NumOut value (codecs typ) ∧ Forall (good typ) r) rows.

Lemma good_column typ rows col :
  col < @Codec.NumOut value (codecs typ) → good_rows typ rows → Forall (good typ) (column zv col rows).
Proof.
  intros Hc. induction 1 as [|r rows [Hlen Hg] _ IH]; [constructor|]. constructor; [|done].
  destruct (lookup_lt_is_Some_2 r col) as [x Hx]; [lia|]. rewrite Hx. simpl. exact (Forall_lookup_1 _ _ _ _ Hg Hx).
Qed.

Lemma encode_good typ (e : enc typ) m :
  match m with MCol c => Forall (good typ) c | _ => True end → ∃ e', @en_encode value (codecs typ) e m = (e', None).
Proof. intros Hm. unfold en_encode. destruct (GOB typ (en_enc e) m Hm) as [[bs s] ->]. by eexists. Qed.

Lemma columns_good typ rows cols (e : enc typ) :
  good_rows typ rows → Forall (λ col, col < @Codec.NumOut value (codecs typ)) cols →
  ∃ e', @en_columns value zv (codecs typ) e rows cols = (e', None).
Proof.
  intros Hr HF. revert e. induction HF as [|col cols Hc _ IH]; intros e; [by eexists|]. cbn [en_columns].
  assert (∃ e', @en_column value zv (codecs typ) e rows col = (e', None)) as [e' ->]; [|apply IH].
  unfold en_column. destruct (encode_good typ e (MBool (@has_codec value (codecs typ) col)) I) as [e1 ->].
  pose proof (good_column typ rows col Hc Hr) as Hg. destruct (@has_codec value (codecs typ) col).
  - destruct (CODEC typ (en_enc e1) col _ Hg) as [[bs s] ->]. by eexists.
  - destruct (GOB typ (en_enc e1) (MCol (column zv col rows)) Hg) as [[bs s] ->]. by eexists.
Qed.

Lemma Encoder_Write_good typ (e : enc typ) rows :
  good_rows typ rows → ∃ e', @Encoder_Write value zv (codecs typ) e rows = (e', None).
Proof.
  intros Hr. unfold Encoder_Write.
  destruct (encode_good typ (@mkEncoder value (codecs typ) (en_enc e) [] (en_out e)) (MInt (length rows)) I) as [e1 ->].
  destruct (columns_good typ rows (seq 0 (@Codec.NumOut value (codecs typ))) e1 Hr) as [e2 ->].
  { apply list.Forall_forall. intros col Hc. apply elem_of_seq in Hc. lia. }
  by apply encode_good.
Qed.

Lemma write_all_snoc typ (e e1 e2 : enc typ) bs b :
  @write_all value zv (codecs typ) e bs = (e1, None) → @Encoder_Write value zv (codecs typ) e1 b = (e2, None) →
  @write_all value zv (codecs typ) e (bs ++ [b]) = (e2, None).
Proof.
  revert e. induction bs as [|b0 bs IH]; intros e Hw Hb; simpl in *.
  - injection Hw as ->. by rewrite Hb.
  - destruct (Encoder_Write zv e b0) as [e0 [err|]]; [done|]. by apply IH.
Qed.

#[export] Instance codec_encoding_laws : RowEncodingLaws typedEncoder.
Proof using All.
  refine {|
    encodes typ e l := ∃ (e0 : enc typ) batches, e = mkTypedEncoder typ e0 ∧
      @write_all value zv (codecs typ) (@NewEncodingWriter value (codecs typ)) batches = (e0, None) ∧
      Forall (good_rows typ) batches ∧ concat batches = l;
    encodable := good_rows;
  |}.
  - intros typ. exists (@NewEncodingWriter value (codecs typ)), []. by split_and!.
  - intros typ e l rows (e0 & bs & -> & Hw & HF & <-) Hr. destruct (Encoder_Write_good typ e0 rows Hr) as [e1 He1].
    exists (mkTypedEncoder typ e1). split; [simpl; by rewrite He1|]. exists e1, (bs ++ [rows]). split_and!; [done| | |].
    + by eapply write_all_snoc.
    + apply Forall_app. split; [done|]. by constructor.
    + rewrite concat_app. simpl. by rewrite app_nil_r.
  - intros typ e l (e0 & bs & -> & Hw & HF & <-). cbn [decoding codec_encoding enc_bytes te_typ te_enc]. apply pack_Streams_as.
    assert (of_Z typ <$> (to_Z typ <$> @en_out value (codecs typ) e0) = @en_out value (codecs typ) e0) as ->.
    { generalize (@en_out value (codecs typ) e0). intros bytes. induction bytes as [|b bytes IH]; [done|].
      rewrite !fmap_cons. by rewrite BYTES, IH. }
    pose proof (LAWS typ).
    destruct (@codec_streams value zv (codecs typ) _ bs e0) as [k Hk]; [|done|].
    { eapply Forall_impl; [|exact HF]. intros b Hb. eapply Forall_impl; [|exact Hb]. by intros r [? _]. }
    exists k. eapply streams_weaken; [..|exact Hk]; by intros.
  - intros typ l1 l2. apply Forall_app.
Defined.
End instance.
