(* ===== verification/WorkerCombine.v ===== *)
(** Combining on workers (src/exec/bigmachine.go: worker.runCombine, CommitCombiner and
    writeCombiner): the output of tasks with a combiner goes through small combining
    frames of each task into combiners that the tasks of a machine share, one per
    partition, which are written to the store when they are committed.

    Tasks run concurrently, and commits arrive from the driver at any time.  Each run
    and each commit is a thread; a step of a thread is what the code does between
    taking and releasing a lock or a combiner.  Combiners are the class [CombinerOps]
    of Local.v, combining frames the class [CombiningFrameOps] below; Combiner.v
    implements both. *)
From S2P Require Import Prelude Types SliceIO Retry Slices Readers Task Compile Store Local LocalSpec WorkerOut.

(** * Combining frames *)

(** What runCombine uses of combining frames (src/exec/combiner.go). *)
Class CombiningFrameOps (CF : Type) := {
  makeCombiningFrame : Typ → userFunc → nat → nat → outcome CF;
  cf_Combine : nat → CF → list row → outcome CF;
  cf_Len : CF → nat;
  cf_Cap : CF → nat;
  cf_Compact : CF → CF * list row;
}.

Section combine.
Context {C : Type} `{CombinerOps C} {CF : Type} `{CombiningFrameOps CF}.
Context {E : Type} `{RowEncoding E} {St : Type} `{Store St}.
Context (defaultChunksize : nat).

(** * The state of combiners *)

(** combinerState: greater states are reference counts. *)
Definition combinerNone : Z := 0.
Definition combinerWriting : Z := 1.
Definition combinerCommitted : Z := 2.
Definition combinerError : Z := 3.
Definition combinerIdle : Z := 4.

(** A call of writeCombiner that is in progress: the partitions that are still to be
    written, with their combiners, and the first error. *)
Record writer := mkWriter { wr_typ : Typ; wr_todo : list (nat * C); wr_err : option error }.

(** The fields of the worker that combining uses.  The output type of combiners, which
    they keep, is listed beside them. *)
Record shared := mkShared {
  sh_store : St;
  sh_states : gmap TaskName Z;
  sh_errors : gmap TaskName error;
  sh_combiners : gmap TaskName (Typ * list C);
  sh_writers : gmap TaskName writer;
}.

Definition state_of (s : shared) (key : TaskName) : Z := default combinerNone (sh_states s !! key).
Definition set_state (key : TaskName) (st : Z) (s : shared) : shared :=
  mkShared (sh_store s) (<[key := st]> (sh_states s)) (sh_errors s) (sh_combiners s) (sh_writers s).
Definition set_combiners (key : TaskName) (cs : Typ * list C) (s : shared) : shared :=
  mkShared (sh_store s) (sh_states s) (sh_errors s) (<[key := cs]> (sh_combiners s)) (sh_writers s).
Definition set_writer (key : TaskName) (wr : writer) (s : shared) : shared :=
  mkShared (sh_store s) (sh_states s) (sh_errors s) (sh_combiners s) (<[key := wr]> (sh_writers s)).

Definition combineKey (T : cTask) : TaskName :=
  if bool_decide (ct_CombineKey T = "") then ct_Name T else mkTaskName 0 (ct_CombineKey T) 0 0.

(** * Running a task *)

(** [newCombiner] for each partition from [i] on. *)
Fixpoint new_combiners (typ : Typ) (key : TaskName) (f : userFunc) (i n : nat) : outcome (list C + error) :=
  match n with
  | 0 => Ret (inl [])
  | S n =>
      c ← newCombiner typ (TaskName_String key +:+ decimal (Z.of_nat i)) f (defaultChunksize * 100);
      match c with
      | inr e => Ret (inr e)
      | inl c =>
          rest ← new_combiners typ key f (S i) n;
          Ret (match rest with inl cs => inl (c :: cs) | inr e => inr e end)
      end
  end.

Definition task_combiner (T : cTask) : outcome userFunc :=
  match ct_Combiner T with Some f => Ret f | None => nil_deref end.

(** The part under the lock: the combiners are made by the first task of the key, and
    the task is counted. *)
Definition begin_combine (T : cTask) (s : shared) : outcome (shared + runError) :=
  let key := combineKey T in
  let st := state_of s key in
  if (st =? combinerWriting)%Z then Ret (inr (plainErr (Err Other "combine key still writing")))
  else if (st =? combinerCommitted)%Z then Ret (inr (plainErr (Err Other "combine key already committed")))
  else if (st =? combinerError)%Z then
    Ret (inr (maybeTaskFatalErr (default (Err Other "") (sh_errors s !! key))))
  else if (st =? combinerNone)%Z then
    if (ct_NumPartition T <? 0)%Z then Panic "makeslice: len out of range"
    else
      f ← task_combiner T;
      cs ← new_combiners (ct_Type T) key f 0 (Z.to_nat (ct_NumPartition T));
      Ret (match cs with
           | inr e => inr (plainErr e)
           | inl cs => inl (set_state key (combinerIdle + 1) (set_combiners key (ct_Type T, cs) s))
           end)
  else Ret (inl (set_state key (st + 1) s)).

Fixpoint make_frames (typ : Typ) (f : userFunc) (n : nat) : outcome (list CF) :=
  match n with
  | 0 => Ret []
  | S n => b ← makeCombiningFrame typ f 8 1; bs ← make_frames typ f n; Ret (b :: bs)
  end.

(** Takes the combiner of a partition, combines rows into it and puts it back. *)
Definition flush_into (fuel : nat) (key : TaskName) (p : nat) (rows : list row) (s : shared) :
    outcome (shared * option error) :=
  match sh_combiners s !! key with
  | None => Panic "index out of range"
  | Some (typ, cs) =>
      c ← index cs (Z.of_nat p);
      '(c, err) ← Combine fuel c rows;
      Ret (set_combiners key (typ, <[p := c]> cs) s, err)
  end.

(** How runCombine returns: with an error or without, or by a panic. *)
Inductive ending := Returns (err : option runError) | Panics (msg : string).

(** The threads of a worker: runs of tasks, and commits. *)
Inductive thread :=
| tStart (T : cTask) (in_ : anyReader row)
| tLoop (T : cTask) (in_ : anyReader row) (bufs : list CF) (todo : list (row * Z)) (eof : bool)
| tFlush (T : cTask) (bufs : list CF) (p : nat)
| tEnd (T : cTask) (how : ending)
| tCommit (key : TaskName) (after : option runError)
| tDone (err : option runError).

(** Combines one row into the frame of its partition.  A frame more than half full is
    flushed: at 8 rows the task waits for the combiner, before only if it is
    available. *)
Definition combine_row (fuel : nat) (avail : bool) (T : cTask) (in_ : anyReader row) (bufs : list CF)
    (x : row) (p : Z) (todo : list (row * Z)) (eof : bool) (s : shared) : outcome (thread * shared) :=
  b ← index bufs p;
  b ← cf_Combine fuel b [x];
  let p := Z.to_nat p in
  if (cf_Len b <=? cf_Cap b / 2) || negb ((8 <=? cf_Len b) || avail)
  then Ret (tLoop T in_ (<[p := b]> bufs) todo eof, s)
  else
    let '(b, flushed) := cf_Compact b in
    '(s, err) ← flush_into fuel (combineKey T) p flushed s;
    Ret (match err with
         | Some e => tEnd T (Returns (Some (plainErr e)))
         | None => tLoop T in_ (<[p := b]> bufs) todo eof
         end, s).

(** The next batch of the input. *)
Definition read_batch (fuel : nat) (T : cTask) (in_ : anyReader row) (bufs : list CF) : outcome thread :=
  '(in_, (rows, err)) ← Read fuel in_ defaultChunksize;
  match err with
  | Some (Err k msg) => Ret (tEnd T (Returns (Some (maybeTaskFatalErr (Err k msg)))))
  | _ =>
      part ← match ct_Partitioner T with Some part => Ret part | None => nil_deref end;
      shards ← part rows (ct_NumPartition T);
      Ret (tLoop T in_ bufs (zip rows shards) (bool_decide (err = Some EOF)))
  end.

(** The body of runCombine after the part under the lock. *)
Definition run_step (fuel : nat) (avail : bool) (th : thread) (s : shared) : outcome (thread * shared) :=
  match th with
  | tLoop T in_ bufs [] false => th ← read_batch fuel T in_ bufs; Ret (th, s)
  | tLoop T in_ bufs [] true => Ret (tFlush T bufs 0, s)
  | tLoop T in_ bufs ((x, p) :: todo) eof => combine_row fuel avail T in_ bufs x p todo eof s
  | tFlush T bufs p =>
      match bufs !! p with
      | None => Ret (tEnd T (Returns None), s)
      | Some b =>
          let '(_, flushed) := cf_Compact b in
          '(s, err) ← flush_into fuel (combineKey T) p flushed s;
          Ret (match err with
               | Some e => tEnd T (Returns (Some (plainErr e)))
               | None => tFlush T bufs (S p)
               end, s)
      end
  | _ => Ret (th, s)
  end.

(** The deferred function: the task is no longer counted; if there is no error, the
    combiner of a task that has its own is committed.  The error is nil in a panic,
    which worker.Run recovers from. *)
Definition end_combine (T : cTask) (how : ending) (s : shared) : thread * shared :=
  let key := combineKey T in
  let s := set_state key (state_of s key - 1) s in
  let err := match how with
             | Returns err => err
             | Panics msg => Some (maybeTaskFatalErr (Err Fatal ("panic while evaluating slice: " +:+ msg)))
             end in
  let nil_err := match how with Returns (Some _) => false | _ => true end in
  (if nil_err && bool_decide (ct_CombineKey T = "") then tCommit key err else tDone err, s).

(** ** Commits *)

(** The error of worker.Run: that of the commit, unless there was a panic. *)
Definition after_commit (after err : option runError) : thread :=
  tDone (match after with Some e => Some e | None => err end).

(** One pass of the loop of CommitCombiner; [None] if it waits. *)
Definition commit_step (key : TaskName) (after : option runError) (s : shared) : option (thread * shared) :=
  let st := state_of s key in
  if (st =? combinerNone)%Z then Some (after_commit after (Some (plainErr (Err Other "invalid combiner key"))), s)
  else if (st =? combinerWriting)%Z then None
  else if (st =? combinerCommitted)%Z then Some (after_commit after None, s)
  else if (st =? combinerError)%Z then
    Some (after_commit after (Some (maybeTaskFatalErr (Err Other "error while writing combiner"))), s)
  else if (st =? combinerIdle)%Z then
    let '(typ, cs) := default (typeSlice [], []) (sh_combiners s !! key) in
    Some (tCommit key after, set_writer key (mkWriter typ (imap pair cs) None) (set_state key combinerWriting s))
  else Some (after_commit after (Some (plainErr (Err Other "combiner key busy"))), s).

(** A step of a thread; [None] if it waits or is done. *)
Definition thread_step (fuel : nat) (avail : bool) (th : thread) (s : shared) : outcome (option (thread * shared)) :=
  match th with
  | tStart T in_ =>
      res ← begin_combine T s;
      match res with
      | inr e => Ret (Some (tDone (Some e), s))
      | inl s =>
          match (f ← task_combiner T; make_frames (ct_Type T) f (Z.to_nat (ct_NumPartition T))) with
          | Ret bufs => Ret (Some (tLoop T in_ bufs [] false, s))
          | Panic msg => Ret (Some (tEnd T (Panics msg), s))
          | NoFuel => NoFuel
          end
      end
  | tLoop T _ _ _ _ | tFlush T _ _ =>
      match run_step fuel avail th s with
      | Panic msg => Ret (Some (tEnd T (Panics msg), s))
      | Ret r => Ret (Some r)
      | NoFuel => NoFuel
      end
  | tEnd T how => Ret (Some (end_combine T how s))
  | tCommit key after => Ret (commit_step key after s)
  | tDone _ => Ret None
  end.

(** ** Writing combiners *)

(** [combiner.WriteTo]: the encoder and the number of rows written. *)
Fixpoint write_rows (loop fuel : nat) (r : anyReader row) (e : E) (total : Z) : outcome (E * Z + error) :=
  match loop with
  | 0 => NoFuel
  | S loop =>
      '(r, (rows, err)) ← Read fuel r defaultChunksize;
      match err with
      | Some (Err k msg) => Ret (inr (Err k msg))
      | _ =>
          match enc_Write e rows with
          | (_, Some werr) => Ret (inr werr)
          | (e, None) =>
              let total := (total + Z.of_nat (length rows))%Z in
              if bool_decide (err = Some EOF) then Ret (inl (e, total)) else write_rows loop fuel r e total
          end
      end
  end.

(** The goroutine that writes a partition. *)
Definition write_part (fuel : nat) (typ : Typ) (key : TaskName) (p : nat) (c : C) (st : St) :
    outcome (St * option error) :=
  match st_Create st key p with
  | Some e => Ret (st, Some e)
  | None =>
      '(_, r) ← CombinerReader c;
      match r with
      | inr e => Ret (st, Some e)
      | inl r =>
          res ← write_rows fuel fuel r (new_encoder typ) 0;
          Ret (match res with
               | inr e => (st, Some e)
               | inl (e, n) => st_Commit st key p (enc_bytes e) n
               end)
      end
  end.

(** The goroutines run in any order: the next to finish is at position [i].  After an
    error the context of the group is canceled, and those that have not acquired the
    limiter fail too ([canceled]). *)
Definition writer_step (fuel : nat) (key : TaskName) (i : nat) (canceled : bool) (s : shared) :
    outcome (option shared) :=
  match sh_writers s !! key with
  | None => Ret None
  | Some wr =>
      match wr_todo wr !! i with
      | None => Ret None
      | Some (p, c) =>
          '(st, err) ← (if canceled && bool_decide (is_Some (wr_err wr))
                        then Ret (sh_store s, Some (Err Canceled "context canceled"))
                        else write_part fuel (wr_typ wr) key p c (sh_store s));
          let err := match wr_err wr with Some e => Some e | None => err end in
          Ret (Some (mkShared st (sh_states s) (sh_errors s) (sh_combiners s)
                 (<[key := mkWriter (wr_typ wr) (take i (wr_todo wr) ++ drop (S i) (wr_todo wr)) err]> (sh_writers s))))
      end
  end.

(** The end of writeCombiner, when all goroutines are done. *)
Definition writer_done (key : TaskName) (s : shared) : option shared :=
  match sh_writers s !! key with
  | Some (mkWriter _ [] err) =>
      Some (mkShared (sh_store s)
        (<[key := match err with None => combinerCommitted | Some _ => combinerError end]> (sh_states s))
        (match err with None => sh_errors s | Some e => <[key := e]> (sh_errors s) end)
        (delete key (sh_combiners s)) (delete key (sh_writers s)))
  | _ => None
  end.
End combine.
