(* ===== verification/WorkerCombineSpec.v ===== *)
(** Combining on workers is correct (src/exec/bigmachine.go): however runs of tasks and
    commits interleave, what is committed for a combine key is the reduction of the
    output of the tasks that were combined, and every thread finishes. *)
From S2P Require Import Prelude Types SliceIO Retry Slices Readers Task Compile Store Local LocalSpec WorkerOut WorkerCombine.

(** What combining frames promise: a frame that is compacted holds the rows combined
    into it, and compacting rows before they are reduced does not change the
    reduction. *)
Class CombiningFrameLaws (C CF : Type) `{CombinerLaws C} `{CombiningFrameOps CF} := {
  cframe : Typ → userFunc → CF → list row → Prop;
  compacts : Typ → userFunc → list row → list row → Prop;
  makeCombiningFrame_ok : ∀ typ f, combinable typ f [] →
    ∃ b, makeCombiningFrame typ f 8 1 = Ret b ∧ cframe typ f b [];
  cf_Combine_ok : ∀ typ f b l rows, cframe typ f b l → combinable typ f (l ++ rows) →
    ∃ b', (λ fuel, cf_Combine fuel b rows) ⇓ b' ∧ cframe typ f b' (l ++ rows);
  cf_Compact_ok : ∀ typ f b l, cframe typ f b l →
    ∃ b' rows, cf_Compact b = (b', rows) ∧ cframe typ f b' [] ∧ compacts typ f l rows;
  combinable_sub : ∀ typ f l l', l' ⊆+ l → combinable typ f l → combinable typ f l';
  combinable_compacts : ∀ typ f ls runs, Forall2 (compacts typ f) ls runs →
    combinable typ f (concat ls) → combinable typ f (concat runs);
  reduces_compacts : ∀ typ f ls runs L, combinable typ f (concat ls) → Forall2 (compacts typ f) ls runs →
    reduces typ f (concat runs) L → reduces typ f (concat ls) L;
  reduces_perm : ∀ typ f l l' L, l ≡ₚ l' → reduces typ f l L → reduces typ f l' L;
  reduces_length : ∀ typ f l L, reduces typ f l L → length L ≤ length l;
}.

(** * Executions *)

Section spec.
Context {C : Type} `{CombinerOps C} {CF : Type} `{CombiningFrameOps CF}.
Context {E : Type} `{RowEncoding E} {St : Type} `{Store St}.
Context (defaultChunksize : nat).

#[local] Abbreviation thread := (WorkerCombine.thread (CF := CF)).
#[local] Abbreviation shared := (WorkerCombine.shared (C := C) (St := St)).

(** A step of a thread, of a goroutine that writes a partition, or the end of
    writeCombiner. *)
Inductive cstep : list thread * shared → list thread * shared → Prop :=
| cs_thread ths s i th avail th' s' :
    ths !! i = Some th → (λ fuel, thread_step defaultChunksize fuel avail th s) ⇓ Some (th', s') →
    cstep (ths, s) (<[i := th']> ths, s')
| cs_write ths s key i canceled s' :
    (λ fuel, writer_step defaultChunksize fuel key i canceled s) ⇓ Some s' → cstep (ths, s) (ths, s')
| cs_written ths s key s' : writer_done key s = Some s' → cstep (ths, s) (ths, s').

(** What threads are for: the run of a task whose input streams the rows [l], or a
    commit. *)
Inductive job := jRun (T : cTask) (l : list row) | jCommit (key : TaskName).

Definition starts (j : job) (th : thread) : Prop :=
  match j, th with
  | jRun T l, tStart T' in_ => T' = T ∧ Streams in_ l
  | jCommit key, tCommit key' after => key' = key ∧ after = None
  | _, _ => False
  end.

(** ** Keys *)

(** The output type, the combiner, the number of partitions and the partition of each
    row, for each key: tasks with the same key agree on them. *)
Context (ktyp : TaskName → Typ) (kfun : TaskName → userFunc) (knum : TaskName → nat) (kpart : TaskName → row → nat).

(** The rows that belong to partition [p]. *)
Definition share (key : TaskName) (p : nat) (l : list row) : list row := filter (λ x, kpart key x = p) l.

(** The rows that a job has contributed to a key when the combiner is committed: all
    rows, if its run was counted. *)
Definition contributed (key : TaskName) (p : nat) (j : job) (th : thread) : list row :=
  match j, th with
  | jRun T l, (tDone None | tCommit _ _) => if bool_decide (combineKey T = key) then share key p l else []
  | _, _ => []
  end.

(** The task of a job fits its key, and its partitioner assigns [kpart] to its rows. *)
Definition fits (T : cTask) (l : list row) : Prop :=
  let key := combineKey T in
  ct_Type T = ktyp key ∧ ct_Combiner T = Some (kfun key) ∧ ct_NumPartition T = Z.of_nat (knum key) ∧
  (∀ x, x ∈ l → kpart key x < knum key) ∧
  ∃ part, ct_Partitioner T = Some part ∧
    ∀ rows, rows ⊆ l → part rows (ct_NumPartition T) = Ret (Z.of_nat ∘ kpart key <$> rows).

Context {CL : CombinerLaws C} {FL : CombiningFrameLaws C CF} {RL : RowEncodingLaws E} {SL : StoreLaws St}.

(** All rows of the runs of a key. *)
Definition rows_for (key : TaskName) (jobs : list job) : list row :=
  concat ((λ j, match j with jRun T l => if bool_decide (combineKey T = key) then l else [] | _ => [] end) <$> jobs).

(** What the theorems assume of the jobs of a worker: tasks fit, all rows of a key can
    be combined, and what can come of them can be encoded and stored; a task that
    has a combiner of its own runs once, and is not committed by others. *)
Record jobs_ok (jobs : list job) : Prop := mkJobsOk {
  jo_fits : ∀ T l, jRun T l ∈ jobs → fits T l;
  jo_combinable : ∀ T l, jRun T l ∈ jobs → combinable (ktyp (combineKey T)) (kfun (combineKey T)) (rows_for (combineKey T) jobs);
  jo_encodable : ∀ T l l' L, jRun T l ∈ jobs → l' ⊆+ rows_for (combineKey T) jobs →
    reduces (ktyp (combineKey T)) (kfun (combineKey T)) l' L → encodable (ktyp (combineKey T)) L;
  jo_storable : ∀ T l k, jRun T l ∈ jobs → (0 <= k <= Z.of_nat (length (rows_for (combineKey T) jobs)))%Z →
    storable (combineKey T) k;
  jo_private : ∀ i j T l, jobs !! i = Some (jRun T l) → ct_CombineKey T = "" →
    match jobs !! j with
    | Some (jRun T' _) => combineKey T' = combineKey T → j = i
    | Some (jCommit key) => key ≠ combineKey T
    | None => True
    end;
}.

(** The key of a job. *)
Definition job_key (j : job) : TaskName := match j with jRun T _ => combineKey T | jCommit key => key end.

(** A worker that has not seen any of the keys, and is not writing any. *)
Definition fresh (jobs : list job) (s : shared) (A : stored) : Prop :=
  repr (sh_store s) A ∧ (∀ key, key ∈ job_key <$> jobs → state_of s key = combinerNone) ∧ (∀ key, sh_writers s !! key = None) ∧
  ∀ T l p, jRun T l ∈ jobs → A !! (combineKey T, p) = None.

(** * The invariant *)

(** The states of keys that no job is for. *)
Context (others : TaskName → Z).

(** A thread with its job, the rows it has flushed to each partition, and a bound on
    the steps it has left. *)
Record gthread := mkG { g_job : job; g_th : thread; g_fl : nat → list row; g_rank : nat }.

Definition runs_for (key : TaskName) (g : gthread) : bool :=
  match g_job g with jRun T _ => bool_decide (combineKey T = key) | _ => false end.

(** The run has been counted: it has passed the part under the lock. *)
Definition begun (g : gthread) : bool :=
  match g_th g with tStart _ _ | tDone (Some _) => false | _ => true end.
(** And it is counted. *)
Definition active (g : gthread) : bool :=
  match g_th g with tLoop _ _ _ _ _ | tFlush _ _ _ | tEnd _ _ => true | _ => false end.

(** The frames hold what was not flushed of the rows [l]. *)
Definition frames_hold (key : TaskName) (bufs : list CF) (fl : nat → list row) (l : list row) : Prop :=
  length bufs = knum key ∧ ∀ p b, bufs !! p = Some b →
    ∃ held, cframe (ktyp key) (kfun key) b held ∧ fl p ++ held = share key p l.

Definition all_flushed (key : TaskName) (fl : nat → list row) (l : list row) : Prop :=
  ∀ p, p < knum key → fl p = share key p l.

Definition is_done (th : thread) : bool := match th with tDone _ => true | _ => false end.

(** What holds of the run of [T] over [l] in each state. *)
Definition run_ok (T : cTask) (l : list row) (th : thread) (fl : nat → list row) (rank : nat) : Prop :=
  let key := combineKey T in
  match th with
  | tStart T' in_ => T' = T ∧ (∀ p, fl p = []) ∧
      ∃ k, streams plain k in_ l ∧ k * (defaultChunksize + 2) + knum key + 7 ≤ rank
  | tLoop T' in_ bufs todo eof => T' = T ∧
      ∃ seen l' k, l = seen ++ todo.*1 ++ l' ∧ todo.*2 = Z.of_nat ∘ kpart key <$> todo.*1 ∧
        frames_hold key bufs fl seen ∧
        (if eof then l' = [] else streams plain k in_ l') ∧
        (if eof then 0 else k * (defaultChunksize + 2)) + length todo + knum key + 6 ≤ rank
  | tFlush T' bufs p0 => T' = T ∧ p0 ≤ knum key ∧
      (∀ p, p < p0 → fl p = share key p l) ∧ (knum key - p0) + 4 ≤ rank ∧ length bufs = knum key ∧
      ∀ p b, bufs !! p = Some b → p0 ≤ p →
        ∃ held, cframe (ktyp key) (kfun key) b held ∧ fl p ++ held = share key p l
  | tEnd T' how => T' = T ∧ how = Returns None ∧ all_flushed key fl l ∧ 3 ≤ rank
  | tCommit key' after => key' = key ∧ after = None ∧ ct_CombineKey T = "" ∧ all_flushed key fl l ∧ 2 ≤ rank
  | tDone None => all_flushed key fl l
  | tDone (Some _) => (∀ p, fl p = []) ∧ ct_CombineKey T ≠ ""
  end.

Definition thread_ok (g : gthread) : Prop :=
  match g_job g with
  | jRun T l => run_ok T l (g_th g) (g_fl g) (g_rank g)
  | jCommit key => (∀ p, g_fl g p = []) ∧
      match g_th g with tCommit key' after => key' = key ∧ after = None ∧ 2 ≤ g_rank g | tDone _ => True | _ => False end
  end.

Definition contrib (key : TaskName) (p : nat) (gs : list gthread) : list row :=
  concat ((λ g, if runs_for key g then g_fl g p else []) <$> gs).
Definition nactive (key : TaskName) (gs : list gthread) : nat :=
  sum_list_with (λ g, if runs_for key g && active g then 1 else 0) gs.

(** The combiner holds the rows [l], compacted on the way. *)
Definition holds_rows (key : TaskName) (c : C) (l : list row) : Prop :=
  ∃ ls runs, Forall2 (compacts (ktyp key) (kfun key)) ls runs ∧ concat ls ≡ₚ l ∧
    combined (ktyp key) (kfun key) c (concat runs).

(** The store holds the reduction of the rows [l]. *)
Definition holds_reduction (A : stored) (key : TaskName) (p : nat) (l : list row) : Prop :=
  ∃ data L, A !! (key, p) = Some (data, Z.of_nat (length L)) ∧
    Streams_as clean (decoding (ktyp key) data) L ∧ reduces (ktyp key) (kfun key) l L.

(** The states of a key. *)
Inductive key_state (A : stored) (s : shared) (gs : list gthread) (key : TaskName) : Prop :=
| ks_none : (∃ g, g ∈ gs ∧ job_key (g_job g) = key) → state_of s key = combinerNone → sh_writers s !! key = None →
    (∀ g, g ∈ gs → runs_for key g = true → begun g = false) →
    (∀ g p, g ∈ gs → runs_for key g = true → A !! (key, p) = None) → key_state A s gs key
| ks_open cs : state_of s key = (combinerIdle + Z.of_nat (nactive key gs))%Z → sh_writers s !! key = None →
    (∃ g, g ∈ gs ∧ runs_for key g = true ∧ begun g = true) →
    sh_combiners s !! key = Some (ktyp key, cs) → length cs = knum key →
    (∀ p c, cs !! p = Some c → holds_rows key c (contrib key p gs)) →
    (∀ p, A !! (key, p) = None) → key_state A s gs key
| ks_writing todo : state_of s key = combinerWriting → nactive key gs = 0 →
    (∃ g, g ∈ gs ∧ runs_for key g = true ∧ begun g = true) →
    sh_writers s !! key = Some (mkWriter (ktyp key) todo None) → NoDup todo.*1 →
    (∀ p c, (p, c) ∈ todo → p < knum key ∧ holds_rows key c (contrib key p gs) ∧ A !! (key, p) = None) →
    (∀ p, p < knum key → p ∉ todo.*1 → holds_reduction A key p (contrib key p gs)) → key_state A s gs key
| ks_committed : state_of s key = combinerCommitted → nactive key gs = 0 → sh_writers s !! key = None →
    (∃ g, g ∈ gs ∧ runs_for key g = true ∧ begun g = true) →
    (∀ p, p < knum key → holds_reduction A key p (contrib key p gs)) → key_state A s gs key
| ks_other : (∀ g, g ∈ gs → job_key (g_job g) ≠ key) → state_of s key = others key → sh_writers s !! key = None →
    key_state A s gs key.

(** The steps that are left to commit a key. *)
Definition key_rank (s : shared) (key : TaskName) : nat :=
  let st := state_of s key in
  if (st =? combinerCommitted)%Z then 0
  else match sh_writers s !! key with Some wr => length (wr_todo wr) + 1 | None => knum key + 2 end.

Definition rank (jobs : list job) (s : shared) (gs : list gthread) : nat :=
  sum_list_with g_rank gs + sum_list_with (key_rank s) (job_key <$> jobs).

Record inv (jobs : list job) (s : shared) (A : stored) (gs : list gthread) : Prop := mkInv {
  inv_jobs : g_job <$> gs = jobs;
  inv_repr : repr (sh_store s) A;
  inv_threads : ∀ g, g ∈ gs → thread_ok g;
  inv_keys : ∀ key, key_state A s gs key;
  inv_private : ∀ g T l, g ∈ gs → g_job g = jRun T l → ct_CombineKey T = "" → g_th g = tDone None →
    state_of s (combineKey T) = combinerCommitted;
  inv_range : ∀ T l p, jRun T l ∈ jobs → knum (combineKey T) ≤ p → A !! (combineKey T, p) = None;
}.

(** ** Changing one thread *)

Lemma sum_insert {A} (f : A → nat) (l : list A) i x y :
  l !! i = Some x → sum_list_with f (<[i := y]> l) + f x = sum_list_with f l + f y.
Proof.
  revert i. induction l as [|z l IH]; intros [|i] Hi; simplify_eq/=; [lia|]. specialize (IH i Hi). lia.
Qed.

Lemma concat_insert {A B} (f : A → list B) (l : list A) i x y rows :
  l !! i = Some x → f y = f x ++ rows → concat (f <$> <[i := y]> l) ≡ₚ concat (f <$> l) ++ rows.
Proof.
  revert i. induction l as [|z l IH]; intros [|i] Hi Hf; simplify_eq/=.
  - rewrite Hf, <-!(assoc_L (++)). f_equiv. apply Permutation_app_comm.
  - rewrite (IH i Hi Hf). by rewrite (assoc_L (++)).
Qed.

Lemma sum_le {A} (f g : A → nat) (l : list A) : (∀ x, f x ≤ g x) → sum_list_with f l ≤ sum_list_with g l.
Proof. intros Hle. induction l as [|x l IH]; simpl; [lia|]. specialize (Hle x). lia. Qed.

Lemma sum_lt {A} (f g : A → nat) (l : list A) x :
  (∀ y, f y ≤ g y) → x ∈ l → f x < g x → sum_list_with f l < sum_list_with g l.
Proof.
  intros Hle Hx Hlt. induction Hx as [x l|x y l Hx IH]; simpl.
  - pose proof (sum_le f g l Hle). lia.
  - specialize (IH Hlt). specialize (Hle y). lia.
Qed.

Lemma rank_thread jobs s s' gs i g g' :
  gs !! i = Some g → (∀ key, key_rank s' key ≤ key_rank s key) → g_rank g' < g_rank g →
  rank jobs s' (<[i := g']> gs) < rank jobs s gs.
Proof.
  intros Hi Hk Hr. unfold rank. pose proof (sum_insert g_rank gs i g g' Hi).
  pose proof (sum_le _ _ (job_key <$> jobs) Hk). lia.
Qed.

Lemma elem_insert (gs : list gthread) i g g' x :
  gs !! i = Some g → x ∈ <[i := g']> gs → x = g' ∨ x ∈ gs.
Proof.
  intros Hi [j Hj]%list_elem_of_lookup. destruct (decide (i = j)) as [->|Hne].
  - rewrite list_lookup_insert_eq in Hj by (by eapply lookup_lt_Some). left. congruence.
  - rewrite list_lookup_insert_ne in Hj by done. right. by eapply list_elem_of_lookup_2.
Qed.

Lemma elem_insert_keep (P : gthread → Prop) (gs : list gthread) i g g' :
  gs !! i = Some g → (P g → P g') → (∃ x, x ∈ gs ∧ P x) → ∃ x, x ∈ <[i := g']> gs ∧ P x.
Proof.
  intros Hi HP (x & [j Hj]%list_elem_of_lookup & Hx). destruct (decide (i = j)) as [->|Hne].
  - exists g'. split; [|apply HP; congruence]. apply (list_elem_of_lookup_2 _ j).
    by rewrite list_lookup_insert_eq by (by eapply lookup_lt_Some).
  - exists x. split; [|done]. apply (list_elem_of_lookup_2 _ j). by rewrite list_lookup_insert_ne.
Qed.

(** A key that a step of a thread does not concern, or of which the thread only changes
    what it holds itself, stays as it was. *)
Lemma key_state_same A s s' gs i g g' key :
  gs !! i = Some g → g_job g' = g_job g →
  state_of s' key = state_of s key → sh_writers s' !! key = sh_writers s !! key →
  sh_combiners s' !! key = sh_combiners s !! key →
  (runs_for key g = true → begun g' = begun g ∧ active g' = active g ∧ ∀ p, g_fl g' p = g_fl g p) →
  key_state A s gs key → key_state A s' (<[i := g']> gs) key.
Proof.
  intros Hi Hj Hst Hwr Hcb Hg Hks.
  assert (runs_for key g' = runs_for key g) as Hrf by (unfold runs_for; by rewrite Hj).
  assert (nactive key (<[i := g']> gs) = nactive key gs) as Hn.
  { unfold nactive. pose proof (sum_insert (λ g, if runs_for key g && active g then 1 else 0) gs i g g' Hi) as Hs.
    simpl in Hs. rewrite Hrf in Hs. destruct (runs_for key g); simpl in Hs; [|lia].
    destruct (Hg eq_refl) as (_ & Ha & _). rewrite Ha in Hs. lia. }
  assert (∀ p, contrib key p (<[i := g']> gs) ≡ₚ contrib key p gs) as Hc.
  { intros p. unfold contrib. rewrite (concat_insert _ gs i g g' []); [by rewrite app_nil_r|done|].
    rewrite Hrf, app_nil_r. destruct (runs_for key g); [|done]. by destruct (Hg eq_refl) as (_ & _ & ->). }
  assert ((∃ x, x ∈ gs ∧ runs_for key x = true ∧ begun x = true) →
    ∃ x, x ∈ <[i := g']> gs ∧ runs_for key x = true ∧ begun x = true) as Hex.
  { apply elem_insert_keep with g; [done|]. intros [Hr Hb]. rewrite Hrf. destruct (Hg Hr) as (-> & _ & _). done. }
  assert (∀ c p, holds_rows key c (contrib key p gs) → holds_rows key c (contrib key p (<[i := g']> gs))) as Hhr.
  { intros c p (ls & runs & ? & Hp & ?). exists ls, runs. by rewrite (Hc p). }
  assert (∀ p, holds_reduction A key p (contrib key p gs) → holds_reduction A key p (contrib key p (<[i := g']> gs))) as Hhd.
  { intros p (data & L & ? & ? & Hr). exists data, L. split_and!; [done..|].
    eapply reduces_perm; [|exact Hr]. by rewrite (Hc p). }
  destruct Hks as [K0 K1 K2 K3 K4|cs K1 K2 K3 K4 K5 K6 K7|todo K1 K2 K3 K4 K5 K6 K7|K1 K2 K3 K4 K5|K1 K2 K3].
  - apply ks_none; [|by rewrite Hst|by rewrite Hwr| |].
    + apply elem_insert_keep with g; [done|by rewrite Hj|done].
    + intros x [->|Hx]%(elem_insert _ _ _ _ _ Hi) Hr; [|by apply K3]. rewrite Hrf in Hr.
      destruct (Hg Hr) as (-> & _). apply K3; [by eapply list_elem_of_lookup_2|done].
    + intros x p [->|Hx]%(elem_insert _ _ _ _ _ Hi) Hr; [|by apply (K4 x)]. rewrite Hrf in Hr.
      apply (K4 g); [by eapply list_elem_of_lookup_2|done].
  - apply ks_open with cs; rewrite ?Hst, ?Hwr, ?Hn, ?Hcb; auto.
  - apply ks_writing with todo; rewrite ?Hst, ?Hwr, ?Hn; auto.
    intros p c Hp. destruct (K6 p c Hp) as (? & ? & ?). auto.
  - apply ks_committed; rewrite ?Hst, ?Hwr, ?Hn; auto.
  - apply ks_other; rewrite ?Hst, ?Hwr; auto.
    intros x [->|Hx]%(elem_insert _ _ _ _ _ Hi); [|by apply K1]. rewrite Hj. apply K1. by eapply list_elem_of_lookup_2.
Qed.

Context (jobs : list job) (JOBS : jobs_ok jobs) (CHUNK : 0 < defaultChunksize).

Lemma job_in s A gs i g : inv jobs s A gs → gs !! i = Some g → jobs !! i = Some (g_job g).
Proof. intros Hinv Hi. rewrite <-(inv_jobs _ _ _ _ Hinv). by rewrite list_lookup_fmap, Hi. Qed.

(** The invariant after a step that concerns one key of the thread. *)
Lemma inv_thread s s' A gs i g g' :
  inv jobs s A gs → gs !! i = Some g → g_job g' = g_job g → sh_store s' = sh_store s → thread_ok g' →
  (∀ key, key ≠ job_key (g_job g) → state_of s' key = state_of s key ∧ sh_writers s' !! key = sh_writers s !! key ∧
     sh_combiners s' !! key = sh_combiners s !! key) →
  (∀ T l, g_job g = jRun T l → ct_CombineKey T = "" → g_th g' = tDone None → state_of s' (combineKey T) = combinerCommitted) →
  key_state A s' (<[i := g']> gs) (job_key (g_job g)) → inv jobs s' A (<[i := g']> gs).
Proof.
  intros Hinv Hi Hj Hst Hok Hother Hpr Hkey. pose proof Hinv as [HJ HR HT HK HP HB]. split; [..|done].
  - rewrite list_fmap_insert, Hj. by rewrite list_insert_id; [|rewrite list_lookup_fmap, Hi].
  - by rewrite Hst.
  - intros x [->|Hx]%(elem_insert _ _ _ _ _ Hi); [done|by apply HT].
  - intros key. destruct (decide (key = job_key (g_job g))) as [->|Hne]; [done|].
    destruct (Hother key Hne) as (? & ? & ?). eapply key_state_same; [done..| |by apply HK].
    unfold runs_for, job_key in *. destruct (g_job g); [|done]. rewrite bool_decide_eq_true. congruence.
  - intros x T l [j Hx]%list_elem_of_lookup Hjx Hk Hth. destruct (decide (i = j)) as [->|Hne].
    { rewrite list_lookup_insert_eq in Hx by (by eapply lookup_lt_Some). injection Hx as <-. apply (Hpr T l); [congruence|done|done]. }
    rewrite list_lookup_insert_ne in Hx by done. pose proof (jo_private _ JOBS j i T l) as Hp.
    rewrite <-Hjx, (job_in _ _ _ _ _ Hinv Hx), (job_in _ _ _ _ _ Hinv Hi) in Hp. specialize (Hp eq_refl Hk).
    destruct (Hother (combineKey T)) as (-> & _).
    + unfold job_key. destruct (g_job g) as [T' l'|key]; [|done]. intros E0. by destruct Hne; apply Hp.
    + apply (HP x T l); [by eapply list_elem_of_lookup_2|done..].
Qed.

(** Nothing that is shared changes. *)
Lemma inv_local s A gs i g g' :
  inv jobs s A gs → gs !! i = Some g → g_job g' = g_job g → thread_ok g' →
  begun g' = begun g → active g' = active g → (∀ p, g_fl g' p = g_fl g p) → g_th g' ≠ tDone None → inv jobs s A (<[i := g']> gs).
Proof.
  intros Hinv Hi Hj Hok Hb Ha Hf Hth. eapply inv_thread; [done..|].
  eapply key_state_same; [done..|]. apply Hinv.
Qed.

(** ** Steps of runs *)

Lemma share_sub key p l : share key p l ⊆+ l.
Proof. apply sublist_submseteq, sublist_filter. Qed.

Lemma flushed_sub g T l p : thread_ok g → g_job g = jRun T l → p < knum (combineKey T) → g_fl g p ⊆+ l.
Proof.
  unfold thread_ok. intros Hok Hj Hp. rewrite Hj in Hok. unfold run_ok in Hok.
  destruct (g_th g) as [T' in_|T' in_ bufs todo eof|T' bufs p0|T' how|key' after|[e|]].
  - destruct Hok as (_ & -> & _). apply submseteq_nil_l.
  - destruct Hok as (_ & seen & l' & k & -> & _ & [Hlen Hb] & _). destruct (lookup_lt_is_Some_2 bufs p) as [b Hpb]; [lia|].
    destruct (Hb p b Hpb) as (held & _ & Heq). transitivity (share (combineKey T) p seen).
    + rewrite <-Heq. apply submseteq_inserts_r. done.
    + etransitivity; [apply share_sub|]. apply submseteq_inserts_r. done.
  - destruct Hok as (_ & _ & Hdone & _ & Hlen & Hb). destruct (decide (p < p0)) as [Hlt|Hge].
    + rewrite Hdone by done. apply share_sub.
    + destruct (lookup_lt_is_Some_2 bufs p) as [b Hpb]; [lia|]. destruct (Hb p b Hpb) as (held & _ & Heq); [lia|].
      transitivity (share (combineKey T) p l); [|apply share_sub]. rewrite <-Heq. apply submseteq_inserts_r. done.
  - destruct Hok as (_ & _ & Hall & _). rewrite Hall by done. apply share_sub.
  - destruct Hok as (_ & _ & _ & Hall & _). rewrite Hall by done. apply share_sub.
  - destruct Hok as [-> _]. apply submseteq_nil_l.
  - rewrite Hok by done. apply share_sub.
Qed.

Lemma contrib_sub key p gs :
  (∀ g, g ∈ gs → thread_ok g) → p < knum key → contrib key p gs ⊆+ rows_for key (g_job <$> gs).
Proof.
  intros Hok Hp. unfold contrib, rows_for. induction gs as [|g gs IH]; simpl; [done|].
  apply submseteq_app; [|apply IH; intros; apply Hok; by right].
  specialize (Hok g (list_elem_of_here _ _)). unfold runs_for. destruct (g_job g) as [T l|] eqn:Hj; [|done].
  case_bool_decide as Hk; [|done]. eapply flushed_sub; [done|done|by rewrite Hk].
Qed.

Lemma active_begun g : active g = true → begun g = true.
Proof. unfold active, begun. by destruct (g_th g) as [| | | | |[]]. Qed.

Lemma nactive_pos key gs g : g ∈ gs → runs_for key g = true → active g = true → 0 < nactive key gs.
Proof.
  intros Hg Hr Ha. unfold nactive. induction Hg as [g gs|g g' gs Hg IH]; simpl; [rewrite Hr, Ha; simpl; lia|].
  specialize (IH Hr Ha). lia.
Qed.

(** While a run is counted, the combiners of its key are open. *)
Lemma active_open s A gs i g T l :
  inv jobs s A gs → gs !! i = Some g → g_job g = jRun T l → active g = true →
  let key := combineKey T in
  ∃ cs, state_of s key = (combinerIdle + Z.of_nat (nactive key gs))%Z ∧ sh_writers s !! key = None ∧
    sh_combiners s !! key = Some (ktyp key, cs) ∧ length cs = knum key ∧
    (∀ p c, cs !! p = Some c → holds_rows key c (contrib key p gs)) ∧ (∀ p, A !! (key, p) = None).
Proof.
  intros Hinv Hi Hj Ha key. assert (runs_for key g = true) as Hr.
  { unfold runs_for. rewrite Hj. by apply bool_decide_eq_true. }
  assert (g ∈ gs) as Hg by (by eapply list_elem_of_lookup_2).
  pose proof (nactive_pos key gs g Hg Hr Ha) as Hpos.
  destruct (inv_keys _ _ _ _ Hinv key) as [_ _ _ Hb _|cs K1 K2 K3 K4 K5 K6 K7| | |K1]; [|by exists cs|lia|lia|].
  2: { destruct (K1 g Hg). by rewrite Hj. }
  specialize (Hb g Hg Hr). by rewrite active_begun in Hb.
Qed.

Lemma flush_ok s A gs i g g' T l p held rows :
  inv jobs s A gs → gs !! i = Some g → g_job g = jRun T l → active g = true → p < knum (combineKey T) →
  compacts (ktyp (combineKey T)) (kfun (combineKey T)) held rows →
  g_job g' = g_job g → thread_ok g' → active g' = true →
  (∀ q, g_fl g' q = if decide (q = p) then g_fl g p ++ held else g_fl g q) →
  ∃ s', (λ fuel, flush_into fuel (combineKey T) p rows s) ⇓ (s', None) ∧ inv jobs s' A (<[i := g']> gs) ∧
    ∀ key, key_rank s' key = key_rank s key.
Proof.
  intros Hinv Hi Hj Ha Hp Hcomp Hj' Hok' Ha' Hfl.
  destruct (active_open s A gs i g T l Hinv Hi Hj Ha) as (cs & Hst & Hwr & Hcb & Hlen & Hcs & HA).
  set (key := combineKey T) in *.
  assert (runs_for key g = true) as Hr by (unfold runs_for; rewrite Hj; by apply bool_decide_eq_true).
  assert (runs_for key g' = true) as Hr' by (unfold runs_for; rewrite Hj', Hj; by apply bool_decide_eq_true).
  assert (∀ q, contrib key q (<[i := g']> gs) ≡ₚ contrib key q gs ++ (if decide (q = p) then held else [])) as Hcontrib.
  { intros q. unfold contrib. apply concat_insert with g; [done|]. rewrite Hr, Hr', Hfl. case_decide; subst; [done|by rewrite app_nil_r]. }
  destruct (lookup_lt_is_Some_2 cs p) as [c Hc]; [lia|].
  destruct (Hcs p c Hc) as (ls & runs & Hcr & Hlp & Hcomb).
  assert (combinable (ktyp key) (kfun key) (concat (ls ++ [held]))) as Hcbl.
  { apply combinable_sub with (rows_for key jobs).
    - rewrite concat_app, Hlp. simpl. rewrite app_nil_r.
      specialize (Hcontrib p). rewrite decide_True in Hcontrib by done. rewrite <-Hcontrib.
      rewrite <-(inv_jobs _ _ _ _ Hinv). replace (g_job <$> gs) with (g_job <$> <[i := g']> gs).
      + apply contrib_sub; [|done]. intros x [->|Hx]%(elem_insert _ _ _ _ _ Hi); [done|by apply Hinv].
      + rewrite list_fmap_insert, Hj'. by rewrite list_insert_id; [|rewrite list_lookup_fmap, Hi].
    - apply (jo_combinable _ JOBS T l). apply (list_elem_of_lookup_2 _ i). rewrite <-Hj. by eapply job_in. }
  assert (Forall2 (compacts (ktyp key) (kfun key)) (ls ++ [held]) (runs ++ [rows])) as Hcr'.
  { apply Forall2_app; [done|]. by constructor. }
  destruct (Combine_ok (ktyp key) (kfun key) c (concat runs) rows Hcomb) as (c' & f0 & Hc' & Hcomb').
  { pose proof (combinable_compacts _ _ _ _ Hcr' Hcbl) as Hx. rewrite concat_app in Hx. simpl in Hx. by rewrite app_nil_r in Hx. }
  exists (set_combiners key (ktyp key, <[p := c']> cs) s). split; [|split].
  - exists f0. intros fuel Hf. unfold flush_into. rewrite Hcb, index_lookup, Hc. cbn [mbind outcome_bind]. by rewrite Hc' by done.
  - eapply inv_thread; [done|done|done|done|done| | |].
    + intros key' Hne. unfold set_combiners. simpl. rewrite lookup_insert_ne; [done|]. rewrite Hj in Hne. simpl in Hne. done.
    + intros T0 l0 _ _ E0. unfold active in Ha'. by rewrite E0 in Ha'.
    + rewrite Hj. simpl. fold key. apply ks_open with (<[p := c']> cs).
      * unfold set_combiners. change (state_of s key = (combinerIdle + Z.of_nat (nactive key (<[i:=g']> gs)))%Z). rewrite Hst. do 2 f_equal.
        unfold nactive. pose proof (sum_insert (λ g, if runs_for key g && active g then 1 else 0) gs i g g' Hi) as Hs.
        simpl in Hs. rewrite Hr, Hr', Ha, Ha' in Hs. simpl in Hs. lia.
      * done.
      * exists g'. split_and!; [|done|by apply active_begun]. apply (list_elem_of_lookup_2 _ i).
        by rewrite list_lookup_insert_eq by (by eapply lookup_lt_Some).
      * unfold set_combiners. simpl. by rewrite lookup_insert_eq.
      * by rewrite length_insert.
      * intros q c0 Hq. destruct (decide (q = p)) as [->|Hne].
        { rewrite list_lookup_insert_eq in Hq by (by eapply lookup_lt_Some). injection Hq as <-.
          exists (ls ++ [held]), (runs ++ [rows]). split_and!; [done| |].
          - rewrite (Hcontrib p), decide_True, concat_app, Hlp by done. simpl. by rewrite app_nil_r.
          - rewrite concat_app. simpl. by rewrite app_nil_r. }
        rewrite list_lookup_insert_ne in Hq by done. destruct (Hcs q c0 Hq) as (ls0 & runs0 & ? & Hp0 & ?).
        exists ls0, runs0. split_and!; [done| |done]. by rewrite (Hcontrib q), decide_False, app_nil_r by done.
      * done.
  - done.
Qed.

(** The thread at [i] takes a step, which keeps the invariant and leaves fewer steps. *)
Definition advances (s : shared) (A : stored) (gs : list gthread) (i : nat) (th : thread) (avail : bool) : Prop :=
  ∃ g' s', (λ fuel, thread_step defaultChunksize fuel avail th s) ⇓ Some (g_th g', s') ∧
    inv jobs s' A (<[i := g']> gs) ∧ rank jobs s' (<[i := g']> gs) < rank jobs s gs.

Lemma advances_local s A gs i g g' avail :
  inv jobs s A gs → gs !! i = Some g → g_job g' = g_job g → thread_ok g' →
  begun g' = begun g → active g' = active g → (∀ p, g_fl g' p = g_fl g p) → g_th g' ≠ tDone None → g_rank g' < g_rank g →
  (λ fuel, thread_step defaultChunksize fuel avail (g_th g) s) ⇓ Some (g_th g', s) → advances s A gs i (g_th g) avail.
Proof.
  intros Hinv Hi Hj Hok Hb Ha Hf Hnd Hr Hs. exists g', s. split_and!; [done|by eapply inv_local|by eapply rank_thread].
Qed.

(** Reading a batch. *)
Lemma read_advances s A gs i g T l in_ bufs avail :
  inv jobs s A gs → gs !! i = Some g → g_job g = jRun T l → g_th g = tLoop T in_ bufs [] false →
  advances s A gs i (g_th g) avail.
Proof.
  intros Hinv Hi Hj Hth. pose proof (inv_threads _ _ _ _ Hinv g ltac:(by eapply list_elem_of_lookup_2)) as Hok.
  destruct (jo_fits _ JOBS T l) as (_ & _ & _ & _ & part & Hpart & Hassign).
  { apply (list_elem_of_lookup_2 _ i). rewrite <-Hj. by eapply job_in. }
  unfold thread_ok in Hok. rewrite Hj, Hth in Hok. destruct Hok as (_ & seen & l' & k & Hl & _ & Hfr & Hs & Hrk).
  simpl in Hl. destruct k as [|k]; [done|]. destruct (Hs defaultChunksize CHUNK) as (in2 & rows & oe & [f0 HR] & Hlen & Hoe).
  assert (∃ l2, l' = rows ++ l2 ∧ match oe with None => streams plain k in2 l2 | Some e => e = EOF ∧ l2 = [] end) as (l2 & Hl2 & Hs2).
  { destruct oe as [e|]; [destruct Hoe as (-> & -> & _); exists []; by rewrite app_nil_r|].
    destruct Hoe as (_ & l2 & -> & ?). by exists l2. }
  set (shards := Z.of_nat ∘ kpart (combineKey T) <$> rows).
  assert ((zip rows shards).*1 = rows ∧ (zip rows shards).*2 = shards) as [Hz1 Hz2].
  { split; [apply fst_zip|apply snd_zip]; unfold shards; by rewrite length_fmap. }
  assert (length (zip rows shards) = length rows) as Hzl by (by rewrite <-Hz1 at 2; rewrite length_fmap).
  set (g' := mkG (g_job g) (tLoop T in2 bufs (zip rows shards) (bool_decide (oe = Some EOF))) (g_fl g) (pred (g_rank g))).
  simpl in Hrk. apply (advances_local s A gs i g g' avail); [done..| |by unfold begun; rewrite Hth|by unfold active; rewrite Hth|done|done|simpl; lia|].
  - unfold thread_ok. simpl. rewrite Hj. simpl. split; [done|]. exists seen, l2, k. rewrite Hz1, Hz2, Hzl, Hl, Hl2.
    split_and!; [done..| |].
    + destruct oe as [e|]; [destruct Hs2 as [-> ->]; by rewrite bool_decide_true|done].
    + simpl in Hrk. destruct (bool_decide (oe = Some EOF)); lia.
  - exists f0. intros fuel Hf. rewrite Hth. simpl. unfold read_batch. rewrite HR by done. cbn [mbind outcome_bind].
    destruct oe as [[|]|]; [| destruct Hs2; congruence |];
      rewrite Hpart; cbn [mbind outcome_bind]; rewrite Hassign by (rewrite Hl, Hl2; set_solver); done.
Qed.

Lemma share_snoc key p l x :
  share key p (l ++ [x]) = share key p l ++ (if decide (kpart key x = p) then [x] else []).
Proof.
  unfold share. by rewrite list.filter_app.
Qed.

(** Combining a row into the frames. *)
Lemma frames_hold_combine key bufs fl seen x :
  frames_hold key bufs fl seen → kpart key x < knum key →
  (∀ held, held ⊆+ seen → combinable (ktyp key) (kfun key) (held ++ [x])) →
  ∃ b b' held, bufs !! kpart key x = Some b ∧ (λ fuel, cf_Combine fuel b [x]) ⇓ b' ∧
    cframe (ktyp key) (kfun key) b' held ∧ fl (kpart key x) ++ held = share key (kpart key x) (seen ++ [x]) ∧
    ∀ b2 held2, cframe (ktyp key) (kfun key) b2 held2 → ∀ fl2, (∀ q, q ≠ kpart key x → fl2 q = fl q) →
      fl2 (kpart key x) ++ held2 = share key (kpart key x) (seen ++ [x]) →
      frames_hold key (<[kpart key x := b2]> bufs) fl2 (seen ++ [x]).
Proof.
  intros [Hlen Hb] Hx Hcomb. destruct (lookup_lt_is_Some_2 bufs (kpart key x)) as [b Hpb]; [lia|].
  destruct (Hb _ b Hpb) as (held & Hcf & Heq).
  destruct (cf_Combine_ok (ktyp key) (kfun key) b held [x] Hcf) as (b' & Hb' & Hcf').
  { apply Hcomb. transitivity (share key (kpart key x) seen); [rewrite <-Heq; by apply submseteq_inserts_l|apply share_sub]. }
  exists b, b', (held ++ [x]). split_and!; [done..| |].
  - rewrite share_snoc, decide_True, <-Heq by done. by rewrite (assoc_L (++)).
  - intros b2 held2 Hcf2 fl2 Hfl2 Heq2. split; [by rewrite length_insert|]. intros q b0 Hq.
    destruct (decide (q = kpart key x)) as [->|Hne].
    + rewrite list_lookup_insert_eq in Hq by (by eapply lookup_lt_Some). injection Hq as <-. by exists held2.
    + rewrite list_lookup_insert_ne in Hq by done. destruct (Hb q b0 Hq) as (held0 & ? & Heq0). exists held0.
      rewrite share_snoc, decide_False, app_nil_r, Hfl2 by done. done.
Qed.

Lemma run_rows_sub i T l js : js !! i = Some (jRun T l) → l ⊆+ rows_for (combineKey T) js.
Proof.
  unfold rows_for. revert i. induction js as [|j js IH]; intros [|i] Hi; simplify_eq/=.
  - rewrite bool_decide_true by done. by apply submseteq_inserts_r.
  - apply submseteq_inserts_l. by eapply IH.
Qed.

Lemma run_combinable i T l l' : jobs !! i = Some (jRun T l) → l' ⊆+ l →
  combinable (ktyp (combineKey T)) (kfun (combineKey T)) l'.
Proof.
  intros Hi Hl. eapply combinable_sub; [|apply (jo_combinable _ JOBS T l); by eapply list_elem_of_lookup_2].
  etransitivity; [done|]. by eapply run_rows_sub.
Qed.

(** The result of a step of a run that flushes a frame. *)
Lemma advances_flush s A gs i g g' T l p held b b2 rows avail :
  inv jobs s A gs → gs !! i = Some g → g_job g = jRun T l → active g = true → p < knum (combineKey T) →
  cframe (ktyp (combineKey T)) (kfun (combineKey T)) b held → cf_Compact b = (b2, rows) →
  g_job g' = g_job g → thread_ok g' → active g' = true →
  (∀ q, g_fl g' q = if decide (q = p) then g_fl g p ++ held else g_fl g q) → g_rank g' < g_rank g →
  (∀ s', (λ fuel, flush_into fuel (combineKey T) p rows s) ⇓ (s', None) →
     (λ fuel, thread_step defaultChunksize fuel avail (g_th g) s) ⇓ Some (g_th g', s')) →
  advances s A gs i (g_th g) avail.
Proof.
  intros Hinv Hi Hj Ha Hp Hcf Hcomp Hj' Hok' Ha' Hfl Hr Hstep.
  destruct (cf_Compact_ok _ _ b held Hcf) as (b3 & rows3 & Hc3 & _ & Hcr). rewrite Hcomp in Hc3. injection Hc3 as <- <-.
  destruct (flush_ok s A gs i g g' T l p held rows Hinv Hi Hj Ha Hp Hcr Hj' Hok' Ha' Hfl) as (s' & Hf & Hinv' & Hk).
  exists g', s'. split_and!; [by apply Hstep|done|]. eapply rank_thread; [done| |done]. intros key. by rewrite Hk.
Qed.

Lemma combine_advances s A gs i g T l in_ bufs x z todo eof avail :
  inv jobs s A gs → gs !! i = Some g → g_job g = jRun T l → g_th g = tLoop T in_ bufs ((x, z) :: todo) eof →
  advances s A gs i (g_th g) avail.
Proof.
  intros Hinv Hi Hj Hth. pose proof (inv_threads _ _ _ _ Hinv g ltac:(by eapply list_elem_of_lookup_2)) as Hok.
  assert (jobs !! i = Some (jRun T l)) as Hji by (rewrite <-Hj; by eapply job_in).
  destruct (jo_fits _ JOBS T l) as (_ & _ & _ & Hkp & _); [by eapply list_elem_of_lookup_2|].
  unfold thread_ok in Hok. rewrite Hj, Hth in Hok. destruct Hok as (_ & seen & l' & k & Hl & Hz & Hfr & Hs & Hrk).
  simpl in Hl, Hz, Hrk. injection Hz as -> Hz. set (key := combineKey T) in *. set (p := kpart key x) in *.
  assert (p < knum key) as Hp by (apply Hkp; rewrite Hl; set_solver).
  assert (l = (seen ++ [x]) ++ todo.*1 ++ l') as Hl2 by (by rewrite Hl, <-!(assoc_L (++))).
  destruct (frames_hold_combine key bufs (g_fl g) seen x Hfr Hp) as (b & b' & held & Hb & [f0 Hb'] & Hcf & Heq & Hfr').
  { intros held Hh. eapply run_combinable; [done|]. rewrite Hl2. apply submseteq_inserts_r. by apply submseteq_app. }
  fold p in Hb, Heq, Hfr'.
  assert (∀ fuel, f0 ≤ fuel → thread_step defaultChunksize fuel avail (g_th g) s =
    match (if (cf_Len b' <=? cf_Cap b' / 2) || negb ((8 <=? cf_Len b') || avail)
           then Ret (tLoop T in_ (<[p := b']> bufs) todo eof, s)
           else let '(b2, flushed) := cf_Compact b' in
             '(s', err) ← flush_into fuel key p flushed s;
             Ret (match err with
                  | Some e => tEnd T (Returns (Some (plainErr e)))
                  | None => tLoop T in_ (<[p := b2]> bufs) todo eof
                  end, s')) with
    | Panic msg => Ret (Some (tEnd T (Panics msg), s)) | Ret r => Ret (Some r) | NoFuel => NoFuel end) as Hstep.
  { intros fuel Hf. rewrite Hth. cbn [thread_step run_step]. unfold combine_row. fold key p.
    rewrite index_lookup, Hb. cbn [mbind outcome_bind]. rewrite Hb' by done. cbn [mbind outcome_bind]. by rewrite Nat2Z.id. }
  assert (∀ bufs2 fl, frames_hold key bufs2 fl (seen ++ [x]) →
    thread_ok (mkG (g_job g) (tLoop T in_ bufs2 todo eof) fl (pred (g_rank g)))) as Hok'.
  { intros bufs2 fl Hfr2. unfold thread_ok. simpl. rewrite Hj. simpl. split; [done|]. exists (seen ++ [x]), l', k. split_and!; [done..|].
    fold key. destruct eof; lia. }
  assert (active g = true) as Ha by (unfold active; by rewrite Hth).
  assert (pred (g_rank g) < g_rank g) as Hpred by (destruct eof; lia).
  destruct ((cf_Len b' <=? cf_Cap b' / 2) || negb ((8 <=? cf_Len b') || avail)) eqn:Hcond.
  - apply (advances_local s A gs i g (mkG (g_job g) (tLoop T in_ (<[p := b']> bufs) todo eof) (g_fl g) (pred (g_rank g))) avail);
      [done|done|done| |by unfold begun; rewrite Hth|by unfold active; rewrite Hth|done|done|done|].
    + apply Hok'. by apply (Hfr' b' held).
    + exists f0. intros fuel Hf. by rewrite Hstep by done.
  - destruct (cf_Compact b') as [b2 rows] eqn:HC.
    destruct (cf_Compact_ok _ _ b' held Hcf) as (b3 & rows3 & Hc3 & Hcf2 & _). rewrite HC in Hc3. injection Hc3 as <- <-.
    set (fl := λ q, if decide (q = p) then g_fl g p ++ held else g_fl g q).
    apply (advances_flush s A gs i g (mkG (g_job g) (tLoop T in_ (<[p := b2]> bufs) todo eof) fl (pred (g_rank g))) T l p held b' b2 rows avail);
      [done..| |done|done|done|].
    + apply Hok'. apply (Hfr' b2 [] Hcf2); unfold fl.
      * intros q Hq. by rewrite decide_False.
      * by rewrite decide_True, app_nil_r.
    + intros s' [f1 Hf1]. exists (f0 `max` f1). intros fuel Hf. rewrite Hstep by lia. by rewrite Hf1 by lia.
Qed.

(** What remains is flushed. *)
Lemma eof_advances s A gs i g T l in_ bufs avail :
  inv jobs s A gs → gs !! i = Some g → g_job g = jRun T l → g_th g = tLoop T in_ bufs [] true →
  advances s A gs i (g_th g) avail.
Proof.
  intros Hinv Hi Hj Hth. pose proof (inv_threads _ _ _ _ Hinv g ltac:(by eapply list_elem_of_lookup_2)) as Hok.
  unfold thread_ok in Hok. rewrite Hj, Hth in Hok. destruct Hok as (_ & seen & l' & k & Hl & _ & [Hlen Hb] & -> & Hrk).
  simpl in Hl, Hrk. rewrite app_nil_r in Hl. subst seen.
  apply (advances_local s A gs i g (mkG (g_job g) (tFlush T bufs 0) (g_fl g) (pred (g_rank g))) avail);
    [done|done|done| |by unfold begun; rewrite Hth|by unfold active; rewrite Hth|done|done|simpl; lia|].
  - unfold thread_ok. simpl. rewrite Hj. simpl. split_and!; [done|lia|lia|lia|done|]. intros p b Hpb _. by apply Hb.
  - exists 0. intros fuel _. by rewrite Hth.
Qed.

Lemma flush_advances s A gs i g T l bufs p avail :
  inv jobs s A gs → gs !! i = Some g → g_job g = jRun T l → g_th g = tFlush T bufs p →
  advances s A gs i (g_th g) avail.
Proof.
  intros Hinv Hi Hj Hth. pose proof (inv_threads _ _ _ _ Hinv g ltac:(by eapply list_elem_of_lookup_2)) as Hok.
  unfold thread_ok in Hok. rewrite Hj, Hth in Hok. destruct Hok as (_ & Hp & Hdone & Hrk & Hlen & Hb).
  set (key := combineKey T) in *. destruct (bufs !! p) as [b|] eqn:Hpb.
  - apply lookup_lt_Some in Hpb as Hlt. destruct (Hb p b Hpb) as (held & Hcf & Heq); [lia|].
    destruct (cf_Compact b) as [b2 rows] eqn:HC.
    set (fl := λ q, if decide (q = p) then g_fl g p ++ held else g_fl g q).
    apply (advances_flush s A gs i g (mkG (g_job g) (tFlush T bufs (S p)) fl (pred (g_rank g))) T l p held b b2 rows avail);
      [done|done|done|by unfold active; rewrite Hth|fold key; lia|done|done|done| |done|done|simpl; lia|].
    + unfold thread_ok. simpl. rewrite Hj. simpl. fold key. split_and!; [done|lia| |lia|done|].
      * intros q Hq. unfold fl. case_decide as E0; [by subst|]. apply Hdone. lia.
      * intros q b0 Hq Hle. unfold fl. rewrite decide_False by lia. apply Hb; [done|lia].
    + intros s' [f1 Hf1]. exists f1. intros fuel Hf. rewrite Hth. cbn [thread_step run_step]. rewrite Hpb, HC. fold key.
      by rewrite Hf1.
  - apply lookup_ge_None in Hpb.
    apply (advances_local s A gs i g (mkG (g_job g) (tEnd T (Returns None)) (g_fl g) (pred (g_rank g))) avail);
      [done|done|done| |by unfold begun; rewrite Hth|by unfold active; rewrite Hth|done|done|simpl; lia|].
    + unfold thread_ok. simpl. rewrite Hj. simpl. split_and!; [done|done| |lia]. intros q Hq. apply Hdone. unfold key in *. lia.
    + exists 0. intros fuel _. rewrite Hth. simpl. by rewrite (lookup_ge_None_2 bufs p).
Qed.

(** ** The count of runs *)

Lemma state_of_set (s : shared) key st key' :
  state_of (set_state key st s) key' = if decide (key' = key) then st else state_of s key'.
Proof.
  unfold state_of, set_state. simpl. case_decide as E0; [subst; by rewrite lookup_insert_eq|by rewrite lookup_insert_ne].
Qed.

Lemma nactive_insert key gs i g g' :
  gs !! i = Some g → runs_for key g = true → g_job g' = g_job g →
  nactive key (<[i := g']> gs) + (if active g then 1 else 0) = nactive key gs + (if active g' then 1 else 0).
Proof.
  intros Hi Hr Hj. pose proof (sum_insert (λ g, if runs_for key g && active g then 1 else 0) gs i g g' Hi) as Hs.
  assert (runs_for key g' = true) as Hr' by (unfold runs_for in *; by rewrite Hj). simpl in Hs. by rewrite Hr, Hr' in Hs.
Qed.

Lemma runs_for_own g T l : g_job g = jRun T l → runs_for (combineKey T) g = true.
Proof. intros Hj. unfold runs_for. rewrite Hj. by apply bool_decide_eq_true. Qed.

Lemma contrib_same key p gs i g g' :
  gs !! i = Some g → g_job g' = g_job g → g_fl g' p = g_fl g p → contrib key p (<[i := g']> gs) ≡ₚ contrib key p gs.
Proof.
  intros Hi Hj Hf. unfold contrib. rewrite (concat_insert _ gs i g g' []); [by rewrite app_nil_r|done|].
  unfold runs_for. rewrite Hj, Hf. by rewrite app_nil_r.
Qed.

Lemma holds_rows_perm key c l l' : l ≡ₚ l' → holds_rows key c l → holds_rows key c l'.
Proof. intros Hp (ls & runs & ? & Hl & ?). exists ls, runs. by rewrite <-Hp. Qed.

(** The deferred function. *)
Lemma end_advances s A gs i g T l how avail :
  inv jobs s A gs → gs !! i = Some g → g_job g = jRun T l → g_th g = tEnd T how → advances s A gs i (g_th g) avail.
Proof.
  intros Hinv Hi Hj Hth. pose proof (inv_threads _ _ _ _ Hinv g ltac:(by eapply list_elem_of_lookup_2)) as Hok.
  unfold thread_ok in Hok. rewrite Hj, Hth in Hok. destruct Hok as (_ & -> & Hall & Hrk).
  assert (active g = true) as Ha by (unfold active; by rewrite Hth).
  destruct (active_open s A gs i g T l Hinv Hi Hj Ha) as (cs & Hst & Hwr & Hcb & Hlen & Hcs & HA).
  set (key := combineKey T) in *.
  set (th' := (if bool_decide (ct_CombineKey T = "") then tCommit key None else tDone None) : thread).
  set (g' := mkG (g_job g) th' (g_fl g) (pred (g_rank g))).
  assert (active g' = false ∧ begun g' = true) as [Ha' Hb'] by (unfold g', th', active, begun; simpl; by case_bool_decide).
  pose proof (nactive_insert key gs i g g' Hi (runs_for_own g T l Hj) eq_refl) as Hn. rewrite Ha, Ha' in Hn.
  exists g', (set_state key (state_of s key - 1) s). split; [|split].
  - exists 0. intros fuel _. rewrite Hth. simpl. unfold end_combine. fold key. simpl. done.
  - eapply inv_thread; [done|done|done|done| | | |].
    + unfold thread_ok, g', th'. simpl. rewrite Hj. case_bool_decide as Hk; simpl; [|done]. split_and!; [done..|lia].
    + intros key' Hne. rewrite Hj in Hne. simpl in Hne. fold key in Hne. rewrite state_of_set, decide_False by done. done.
    + intros T0 l0 E0 Hk E1. rewrite Hj in E0. injection E0 as <- <-. unfold g', th' in E1. simpl in E1. by rewrite bool_decide_true in E1.
    + rewrite Hj. simpl. fold key. apply ks_open with cs; [|done| |done|done| |done].
      * rewrite state_of_set, decide_True by done. rewrite Hst. lia.
      * exists g'. split_and!; [|by apply (runs_for_own g' T l)|done]. apply (list_elem_of_lookup_2 _ i).
        by rewrite list_lookup_insert_eq by (by eapply lookup_lt_Some).
      * intros p c Hp. eapply holds_rows_perm; [|by apply Hcs]. symmetry. by apply contrib_same with g.
  - eapply rank_thread; [done| |unfold g'; simpl; lia]. intros key'. unfold key_rank. rewrite state_of_set.
    case_decide as E0; [subst key'|done]. simpl. rewrite Hst, Hwr. pose proof (nactive_pos key gs g ltac:(by eapply list_elem_of_lookup_2) (runs_for_own g T l Hj) Ha).
    unfold combinerCommitted, combinerIdle. rewrite !(proj2 (Z.eqb_neq _ _)) by lia. done.
Qed.

Lemma new_combiners_ok typ key f i n : combinable typ f [] →
  ∃ cs, new_combiners (C := C) defaultChunksize typ key f i n = Ret (inl cs) ∧ length cs = n ∧ ∀ c, c ∈ cs → combined typ f c [].
Proof.
  intros Hc. revert i. induction n as [|n IH]; intros i; [exists []; split_and!; [done..|set_solver]|].
  destruct (newCombiner_ok typ (TaskName_String key +:+ decimal (Z.of_nat i)) f (defaultChunksize * 100) Hc) as (c & Hnc & Hcc).
  destruct (IH (S i)) as (cs & Hcs & Hlen & Hall). exists (c :: cs). cbn [new_combiners]. rewrite Hnc. cbn [mbind outcome_bind].
  rewrite Hcs. split_and!; [done|simpl; lia|]. intros c0 [->|?]%elem_of_cons; auto.
Qed.

Lemma make_frames_ok typ f n : combinable typ f [] →
  ∃ bufs, make_frames (CF := CF) typ f n = Ret bufs ∧ length bufs = n ∧ ∀ b, b ∈ bufs → cframe typ f b [].
Proof.
  intros Hc. induction n as [|n (bufs & Hb & Hlen & Hall)]; [exists []; split_and!; [done..|set_solver]|].
  destruct (makeCombiningFrame_ok typ f Hc) as (b & Hmk & Hcf). exists (b :: bufs). cbn [make_frames]. rewrite Hmk.
  cbn [mbind outcome_bind]. rewrite Hb. split_and!; [done|simpl; lia|]. intros b0 [->|?]%elem_of_cons; auto.
Qed.

(** A run that has the key for itself is the only one. *)
Lemma private_only s A gs i g T l x :
  inv jobs s A gs → gs !! i = Some g → g_job g = jRun T l → ct_CombineKey T = "" → x ∈ gs →
  runs_for (combineKey T) x = true → x = g.
Proof.
  intros Hinv Hi Hj Hk [j Hxj]%list_elem_of_lookup Hr.
  pose proof (jo_private _ JOBS i j T l) as Hp. rewrite <-Hj in Hp at 1. specialize (Hp (job_in _ _ _ _ _ Hinv Hi) Hk).
  rewrite (job_in _ _ _ _ _ Hinv Hxj) in Hp. unfold runs_for in Hr. destruct (g_job x) as [T' l'|]; [|done].
  apply bool_decide_eq_true in Hr. specialize (Hp Hr) as ->. congruence.
Qed.

Lemma unbegun_flushed g p : thread_ok g → begun g = false → g_fl g p = [].
Proof.
  unfold thread_ok, begun. destruct (g_job g) as [T l|]; [|by intros [? _]]. unfold run_ok.
  destruct (g_th g) as [| | | | |[]]; [|done..| |done]; intros Hok _; [by destruct Hok as (_ & ? & _)|by destruct Hok].
Qed.

Lemma unbegun_none key gs :
  (∀ g, g ∈ gs → thread_ok g) → (∀ g, g ∈ gs → runs_for key g = true → begun g = false) →
  nactive key gs = 0 ∧ ∀ p, contrib key p gs = [].
Proof.
  intros Hok Hb. unfold nactive, contrib. induction gs as [|g gs IH]; simpl; [done|].
  destruct IH as [-> IHc]; [intros; apply Hok; by right|intros; apply Hb; [by right|done]|].
  specialize (Hok g (list_elem_of_here _ _)). specialize (Hb g (list_elem_of_here _ _)).
  destruct (runs_for key g) eqn:Hr; [|done]. specialize (Hb eq_refl).
  destruct (active g) eqn:Ha; [by rewrite active_begun in Hb|]. split; [done|]. intros p. by rewrite IHc, (unbegun_flushed g p).
Qed.

(** A run that starts when the key is being written or is committed is refused. *)
Lemma refuse_advances s A gs i g T l e avail :
  inv jobs s A gs → gs !! i = Some g → g_job g = jRun T l → (∃ in_, g_th g = tStart T in_) →
  (∃ x, x ∈ gs ∧ runs_for (combineKey T) x = true ∧ begun x = true) →
  (∀ fuel, thread_step defaultChunksize fuel avail (g_th g) s = Ret (Some (tDone (Some e), s))) → advances s A gs i (g_th g) avail.
Proof.
  intros Hinv Hi Hj [in_ Hth] (x & Hx & Hr & Hb) Hstep.
  pose proof (inv_threads _ _ _ _ Hinv g ltac:(by eapply list_elem_of_lookup_2)) as Hok.
  unfold thread_ok in Hok. rewrite Hj, Hth in Hok. destruct Hok as (_ & Hfl & k & _ & Hrk).
  apply (advances_local s A gs i g (mkG (g_job g) (tDone (Some e)) (g_fl g) 0) avail);
    [done|done|done| |by unfold begun; rewrite Hth|by unfold active; rewrite Hth|done|done|simpl; lia|by exists 0].
  unfold thread_ok. simpl. rewrite Hj. split; [done|]. intros Hk. assert (x = g) as -> by (by eapply private_only).
  unfold begun in Hb. by rewrite Hth in Hb.
Qed.

(** The first step of a run, when it is not refused. *)
Lemma accept_advances s s' A gs i g T l in_ avail :
  inv jobs s A gs → gs !! i = Some g → g_job g = jRun T l → g_th g = tStart T in_ →
  begin_combine defaultChunksize T s = Ret (inl s') → sh_store s' = sh_store s →
  (∀ key, key ≠ combineKey T → state_of s' key = state_of s key ∧ sh_writers s' !! key = sh_writers s !! key ∧
     sh_combiners s' !! key = sh_combiners s !! key) →
  key_rank s' (combineKey T) ≤ key_rank s (combineKey T) →
  (∀ g', g_job g' = g_job g → (∀ p, g_fl g' p = g_fl g p) → active g' = true → thread_ok g' →
     key_state A s' (<[i := g']> gs) (combineKey T)) →
  advances s A gs i (g_th g) avail.
Proof.
  intros Hinv Hi Hj Hth Hbg Hst Hother Hkr Hks.
  pose proof (inv_threads _ _ _ _ Hinv g ltac:(by eapply list_elem_of_lookup_2)) as Hok.
  assert (jobs !! i = Some (jRun T l)) as Hji by (rewrite <-Hj; by eapply job_in).
  destruct (jo_fits _ JOBS T l) as (Htyp & Hfun & Hnum & _); [by eapply list_elem_of_lookup_2|].
  unfold thread_ok in Hok. rewrite Hj, Hth in Hok. destruct Hok as (_ & Hfl & k & Hs & Hrk).
  set (key := combineKey T) in *.
  destruct (make_frames_ok (ktyp key) (kfun key) (knum key)) as (bufs & Hmk & Hlen & Hall).
  { eapply run_combinable; [done|]. apply submseteq_nil_l. }
  set (g' := mkG (g_job g) (tLoop T in_ bufs [] false) (g_fl g) (pred (g_rank g))).
  assert (thread_ok g') as Hok'.
  { unfold thread_ok, g'. simpl. rewrite Hj. simpl. split; [done|]. exists [], l, k. fold key. split_and!; [done..| |done|lia].
    split; [done|]. intros p b Hb. exists []. rewrite Hfl. split; [|done]. apply Hall. by eapply list_elem_of_lookup_2. }
  exists g', s'. split; [|split].
  - exists 0. intros fuel _. rewrite Hth. cbn [thread_step]. rewrite Hbg. cbn [mbind outcome_bind]. unfold task_combiner.
    rewrite Hfun. cbn [mbind outcome_bind]. by rewrite Htyp, Hnum, Nat2Z.id, Hmk.
  - eapply inv_thread; [done|done|done|done|done| |done|].
    + rewrite Hj. simpl. fold key. done.
    + rewrite Hj. simpl. by apply Hks.
  - eapply rank_thread; [done| |simpl; lia]. intros key'. destruct (decide (key' = key)) as [->|Hne]; [done|].
    destruct (Hother key' Hne) as (E1 & E2 & _). unfold key_rank. by rewrite E1, E2.
Qed.

Lemma start_advances s A gs i g T l in_ avail :
  inv jobs s A gs → gs !! i = Some g → g_job g = jRun T l → g_th g = tStart T in_ → advances s A gs i (g_th g) avail.
Proof.
  intros Hinv Hi Hj Hth. assert (jobs !! i = Some (jRun T l)) as Hji by (rewrite <-Hj; by eapply job_in).
  destruct (jo_fits _ JOBS T l) as (Htyp & Hfun & Hnum & _); [by eapply list_elem_of_lookup_2|].
  assert (g ∈ gs) as Hg by (by eapply list_elem_of_lookup_2).
  pose proof (runs_for_own g T l Hj) as Hr. assert (active g = false) as Ha by (unfold active; by rewrite Hth).
  set (key := combineKey T) in *.
  destruct (inv_keys _ _ _ _ Hinv key) as [K0 K1 K2 K3 K4|cs K1 K2 K3 K4 K5 K6 K7|todo K1 K2 K3 K4 K5 K6 K7|K1 K2 K3 K4 K5|K1].
  5: { destruct (K1 g Hg). by rewrite Hj. }
  - destruct (new_combiners_ok (ktyp key) key (kfun key) 0 (knum key)) as (cs & Hcs & Hlen & Hall).
    { eapply run_combinable; [done|]. apply submseteq_nil_l. }
    destruct (unbegun_none key gs (inv_threads _ _ _ _ Hinv) K3) as [Hn Hc].
    eapply accept_advances with (s' := set_state key (combinerIdle + 1) (set_combiners key (ct_Type T, cs) s)); [done..| |done| | |].
    + unfold begin_combine. fold key. rewrite K1. cbn -[new_combiners Z.to_nat]. rewrite Hnum, (proj2 (Z.ltb_ge _ _)) by lia.
      unfold task_combiner. rewrite Hfun. cbn [mbind outcome_bind]. by rewrite Htyp, Nat2Z.id, Hcs.
    + intros key' Hne. fold key in Hne. rewrite state_of_set, decide_False by done. simpl. by rewrite lookup_insert_ne.
    + fold key. unfold key_rank. rewrite state_of_set, decide_True by done. simpl. rewrite K1, K2. done.
    + fold key. intros g' Hj' Hfl Ha' Hok'. apply ks_open with cs.
      * rewrite state_of_set, decide_True by done. pose proof (nactive_insert key gs i g g' Hi Hr Hj') as Hni.
        rewrite Ha, Ha' in Hni. lia.
      * done.
      * exists g'. split_and!; [|unfold runs_for in *; by rewrite Hj'|by apply active_begun]. apply (list_elem_of_lookup_2 _ i).
        by rewrite list_lookup_insert_eq by (by eapply lookup_lt_Some).
      * simpl. by rewrite lookup_insert_eq, Htyp.
      * done.
      * intros p c Hp. apply holds_rows_perm with (contrib key p gs); [symmetry; by apply contrib_same with g|].
        rewrite Hc. exists [], []. split_and!; [done..|]. apply Hall. by eapply list_elem_of_lookup_2.
      * intros p. by apply (K4 g).
  - eapply accept_advances with (s' := set_state key (state_of s key + 1) s); [done..| |done| | |].
    + unfold begin_combine. fold key. rewrite K1. unfold combinerIdle, combinerWriting, combinerCommitted, combinerError, combinerNone.
      rewrite !(proj2 (Z.eqb_neq _ _)) by lia. done.
    + intros key' Hne. fold key in Hne. by rewrite state_of_set, decide_False.
    + fold key. unfold key_rank. rewrite state_of_set, decide_True by done. simpl. rewrite K1, K2. unfold combinerIdle, combinerCommitted.
      rewrite !(proj2 (Z.eqb_neq _ _)) by lia. done.
    + fold key. intros g' Hj' Hfl Ha' Hok'. apply ks_open with cs; [|done| |done|done| |done].
      * rewrite state_of_set, decide_True by done. pose proof (nactive_insert key gs i g g' Hi Hr Hj') as Hni.
        rewrite Ha, Ha' in Hni. rewrite K1. lia.
      * apply elem_insert_keep with g; [done| |done]. intros _. split; [unfold runs_for in *; by rewrite Hj'|by apply active_begun].
      * intros p c Hp. apply holds_rows_perm with (contrib key p gs); [symmetry; by apply contrib_same with g|by apply K6].
  - eapply refuse_advances; [done..|by exists in_|done|]. intros fuel. rewrite Hth. cbn [thread_step]. unfold begin_combine.
    fold key. rewrite K1. done.
  - eapply refuse_advances; [done..|by exists in_|done|]. intros fuel. rewrite Hth. cbn [thread_step]. unfold begin_combine.
    fold key. rewrite K1. done.
Qed.

(** ** Commits *)

Lemma imap_pair_lookup {A} (l : list A) p x : (p, x) ∈ imap pair l ↔ l !! p = Some x.
Proof.
  rewrite list_elem_of_lookup. split.
  - intros [i Hi]. rewrite list_lookup_imap in Hi. destruct (l !! i) eqn:E0; [|done]. simpl in Hi. congruence.
  - intros Hp. exists p. by rewrite list_lookup_imap, Hp.
Qed.

Lemma imap_pair_keys {A} (l : list A) i : (imap pair l).*1 !! i = if decide (i < length l) then Some i else None.
Proof.
  rewrite list_lookup_fmap, list_lookup_imap. case_decide as Hi.
  - by destruct (lookup_lt_is_Some_2 l i Hi) as [x ->].
  - by rewrite lookup_ge_None_2 by lia.
Qed.

Lemma imap_pair_NoDup {A} (l : list A) : NoDup (imap pair l).*1.
Proof.
  apply NoDup_alt. intros i j x. rewrite !imap_pair_keys. case_decide; [|done]. case_decide; [|done]. congruence.
Qed.

(** A commit that ends. *)
Lemma committed_advances s A gs i g err avail :
  inv jobs s A gs → gs !! i = Some g → g_th g = tCommit (job_key (g_job g)) None → (∀ T l, g_job g = jRun T l → err = None ∧ state_of s (combineKey T) = combinerCommitted) →
  (∀ fuel, thread_step defaultChunksize fuel avail (g_th g) s = Ret (Some (tDone err, s))) → advances s A gs i (g_th g) avail.
Proof.
  intros Hinv Hi Hth Herr Hstep. set (g' := mkG (g_job g) (tDone err) (g_fl g) 0).
  pose proof (inv_threads _ _ _ _ Hinv g ltac:(by eapply list_elem_of_lookup_2)) as Hok.
  exists g', s. split; [by exists 0|]. split.
  - eapply inv_thread; [done|done|done|done| |done| |].
    + unfold thread_ok, g' in *. simpl. rewrite Hth in Hok. destruct (g_job g) as [T l|]; [|by destruct Hok].
      destruct (Herr T l eq_refl) as [-> _]. by destruct Hok as (_ & _ & _ & ? & _).
    + intros T l Hj _ _. by apply (Herr T l).
    + eapply key_state_same; [done|done|done|done|done| |apply Hinv]. unfold runs_for, begun, active. simpl. rewrite Hth.
      destruct (g_job g) as [T l|]; [|done]. intros _. by destruct (Herr T l eq_refl) as [-> _].
  - eapply rank_thread; [done|done|]. unfold g'. simpl. unfold thread_ok in Hok. rewrite Hth in Hok.
    destruct (g_job g); [destruct Hok as (_ & _ & _ & _ & ?)|destruct Hok as (_ & _ & _ & ?)]; lia.
Qed.

(** A commit that starts to write. *)
Lemma write_advances s A gs i g avail cs :
  let key := job_key (g_job g) in
  inv jobs s A gs → gs !! i = Some g → g_th g = tCommit key None →
  state_of s key = combinerIdle → nactive key gs = 0 → sh_writers s !! key = None →
  (∃ x, x ∈ gs ∧ runs_for key x = true ∧ begun x = true) →
  sh_combiners s !! key = Some (ktyp key, cs) → length cs = knum key →
  (∀ p c, cs !! p = Some c → holds_rows key c (contrib key p gs)) → (∀ p, A !! (key, p) = None) →
  advances s A gs i (g_th g) avail.
Proof.
  intros key Hinv Hi Hth Hst Hn Hwr Hex Hcb Hlen Hcs HA.
  set (s' := set_writer key (mkWriter (ktyp key) (imap pair cs) None) (set_state key combinerWriting s)).
  assert (state_of s' key = combinerWriting) as Hst' by (unfold s', state_of, set_writer; simpl; by rewrite lookup_insert_eq).
  assert (∀ key', key' ≠ key → state_of s' key' = state_of s key' ∧ sh_writers s' !! key' = sh_writers s !! key' ∧
    sh_combiners s' !! key' = sh_combiners s !! key') as Hother.
  { intros key' Hne. unfold s', state_of, set_writer. simpl. by rewrite !lookup_insert_ne by done. }
  exists g, s'. split; [|split].
  - exists 0. intros fuel _. rewrite Hth. cbn [thread_step]. unfold commit_step. rewrite Hst. simpl. rewrite Hcb. done.
  - eapply inv_thread; [done|done|done|done| |done| |].
    + apply Hinv. by eapply list_elem_of_lookup_2.
    + intros T l _ _ E0. congruence.
    + fold key. rewrite list_insert_id by done. apply ks_writing with (imap pair cs); [done..| | | |].
      * unfold s', set_writer. simpl. by rewrite lookup_insert_eq.
      * apply imap_pair_NoDup.
      * intros p c Hp%imap_pair_lookup. apply lookup_lt_Some in Hp as Hlt. split_and!; [lia|by apply Hcs|apply HA].
      * intros p Hp []. apply list_elem_of_lookup. exists p. by rewrite imap_pair_keys, decide_True by lia.
  - unfold rank. rewrite list_insert_id by done. apply Nat.add_lt_mono_l. apply sum_lt with key.
    + intros key'. destruct (decide (key' = key)) as [->|Hne].
      * unfold key_rank. rewrite Hst', Hst, Hwr. unfold s', set_writer. cbn [sh_writers]. rewrite lookup_insert_eq. cbn [wr_todo]. rewrite length_imap. simpl. lia.
      * destruct (Hother key' Hne) as (E1 & E2 & _). unfold key_rank. by rewrite E1, E2.
    + apply list_elem_of_fmap_2. rewrite <-(inv_jobs _ _ _ _ Hinv). apply list_elem_of_fmap_2. by eapply list_elem_of_lookup_2.
    + unfold key_rank. rewrite Hst', Hst, Hwr. unfold s', set_writer. cbn [sh_writers]. rewrite lookup_insert_eq. cbn [wr_todo]. rewrite length_imap. simpl. lia.
Qed.

Lemma nactive_zero key gs : (∀ g, g ∈ gs → runs_for key g = true → active g = false) → nactive key gs = 0.
Proof.
  intros Ha. unfold nactive. induction gs as [|g gs IH]; simpl; [done|]. rewrite IH by (intros; apply Ha; [by right|done]).
  specialize (Ha g (list_elem_of_here _ _)). destruct (runs_for key g); [by rewrite Ha|done].
Qed.

(** A commit ends or starts to write, unless another one is writing. *)
Lemma commit_advances s A gs i g avail :
  let key := job_key (g_job g) in
  inv jobs s A gs → gs !! i = Some g → g_th g = tCommit key None →
  state_of s key = combinerWriting ∨ advances s A gs i (g_th g) avail.
Proof.
  intros key Hinv Hi Hth. assert (g ∈ gs) as Hg by (by eapply list_elem_of_lookup_2).
  pose proof (inv_threads _ _ _ _ Hinv g Hg) as Hok.
  assert (begun g = true) as Hb by (unfold begun; by rewrite Hth).
  assert (∀ T l, g_job g = jRun T l → ct_CombineKey T = "") as Hpriv.
  { intros T l Hj. unfold thread_ok in Hok. rewrite Hj, Hth in Hok. by destruct Hok as (_ & _ & ? & _). }
  destruct (inv_keys _ _ _ _ Hinv key) as [K0 K1 K2 K3 K4|cs K1 K2 K3 K4 K5 K6 K7|todo K1 K2 K3 K4 K5 K6 K7|K1 K2 K3 K4 K5|K1];
    [right|right|by left|right|by destruct (K1 g Hg)].
  - eapply committed_advances; [done..| |].
    + intros T l Hj. specialize (K3 g Hg). unfold key in K3. rewrite Hj in K3. simpl in K3.
      rewrite (runs_for_own g T l Hj) in K3. specialize (K3 eq_refl). congruence.
    + intros fuel. rewrite Hth. cbn [thread_step]. unfold commit_step. fold key. rewrite K1. done.
  - destruct (decide (nactive key gs = 0)) as [Hn|Hn].
    + eapply write_advances; [done..| |done|done|done|done|done|done|done]. fold key. rewrite K1, Hn. done.
    + eapply committed_advances; [done..| |].
      * intros T l Hj. destruct Hn. apply nactive_zero. intros x Hx Hr. unfold key in Hr. rewrite Hj in Hr. simpl in Hr.
        assert (x = g) as -> by (eapply private_only; [done|done|done|by apply (Hpriv T l)|done|done]).
        unfold active. by rewrite Hth.
      * intros fuel. rewrite Hth. cbn [thread_step]. unfold commit_step. fold key. rewrite K1.
        unfold combinerIdle, combinerWriting, combinerCommitted, combinerError, combinerNone.
        rewrite !(proj2 (Z.eqb_neq _ _)) by lia. done.
  - eapply committed_advances; [done..| |].
    + intros T l Hj. split; [done|]. unfold key in K1. by rewrite Hj in K1.
    + intros fuel. rewrite Hth. cbn [thread_step]. unfold commit_step. fold key. rewrite K1. done.
Qed.

(** ** Writing *)

Lemma key_state_frame A A' s s' gs key :
  state_of s' key = state_of s key → sh_writers s' !! key = sh_writers s !! key →
  sh_combiners s' !! key = sh_combiners s !! key → (∀ p, A' !! (key, p) = A !! (key, p)) →
  key_state A s gs key → key_state A' s' gs key.
Proof.
  intros Hst Hwr Hcb HA.
  assert (∀ p l, holds_reduction A key p l → holds_reduction A' key p l) as Hh.
  { intros p l (data & L & HL & ?). exists data, L. by rewrite HA. }
  intros [K0 K1 K2 K3 K4|cs K1 K2 K3 K4 K5 K6 K7|todo K1 K2 K3 K4 K5 K6 K7|K1 K2 K3 K4 K5|K1 K2 K3].
  - apply ks_none; rewrite ?Hst, ?Hwr; auto. intros g p Hg Hr. rewrite HA. by apply (K4 g).
  - apply ks_open with cs; rewrite ?Hst, ?Hwr, ?Hcb; auto. intros p. by rewrite HA.
  - apply ks_writing with todo; rewrite ?Hst, ?Hwr; auto. intros p c. rewrite HA. apply K6.
  - apply ks_committed; rewrite ?Hst, ?Hwr; auto.
  - apply ks_other; rewrite ?Hst, ?Hwr; auto.
Qed.

Lemma write_rows_spec typ k r e total l l' :
  streams plain k r l' → encodes typ e l → encodable typ l' →
  ∃ e', (∃ L0 f0, ∀ L fuel, L0 ≤ L → f0 ≤ fuel →
      write_rows defaultChunksize L fuel r e total = Ret (inl (e', (total + Z.of_nat (length l'))%Z))) ∧ encodes typ e' (l ++ l').
Proof.
  revert r e total l l'. induction k as [|k IH]; intros r e total l l' Hs He Henc; [done|].
  destruct (Hs defaultChunksize CHUNK) as (r' & rows & oe & [f0 HR] & _ & Hoe).
  assert (∃ rest, l' = rows ++ rest) as [rest Hl'].
  { destruct oe as [er|]; [destruct Hoe as (_ & -> & _); exists []; by rewrite app_nil_r|].
    destruct Hoe as (_ & rest & -> & _). by exists rest. }
  rewrite Hl' in Henc. apply encodable_app in Henc as [Henc1 Henc2].
  destruct (enc_Write_ok typ e l rows He Henc1) as (e1 & Hw & He1).
  destruct oe as [er|].
  - destruct Hoe as (-> & -> & _). exists e1. split; [|done]. exists 1, f0. intros [|L] fuel HL Hf; [lia|]. simpl.
    rewrite HR by done. simpl. by rewrite Hw.
  - destruct Hoe as (_ & l2 & Hl2 & Hs'). assert (l2 = rest) as -> by (rewrite Hl' in Hl2; by apply app_inv_head in Hl2).
    destruct (IH r' e1 (total + Z.of_nat (length rows))%Z (l ++ rows) rest Hs' He1 Henc2) as (e' & (L0 & f1 & Hr) & He').
    exists e'. rewrite Hl', (assoc_L (++)). split; [|done]. exists (S L0), (f0 `max` f1). intros [|L] fuel HL Hf; [lia|]. simpl.
    rewrite HR by lia. simpl. rewrite Hw. simpl. rewrite Hr by lia. do 2 f_equal. rewrite length_app. f_equal. lia.
Qed.

Lemma write_part_ok st A key p c l :
  repr st A → A !! (key, p) = None → holds_rows key c l → combinable (ktyp key) (kfun key) l →
  (∀ L, reduces (ktyp key) (kfun key) l L → encodable (ktyp key) L) →
  (∀ k, (0 <= k <= Z.of_nat (length l))%Z → storable key k) →
  ∃ st' v, (λ fuel, write_part defaultChunksize fuel (ktyp key) key p c st) ⇓ (st', None) ∧ repr st' (<[(key, p) := v]> A) ∧
    holds_reduction (<[(key, p) := v]> A) key p l.
Proof.
  intros Hr HA (ls & runs & Hcr & Hp & Hc) Hcb Henc Hst.
  destruct (CombinerReader_ok _ _ c _ Hc) as (c' & r & L & Hrd & [k Hk] & Hred).
  apply (reduces_compacts _ _ ls) in Hred; [|by apply combinable_sub with l; [rewrite Hp|]|done].
  apply (reduces_perm _ _ _ l) in Hred; [|done].
  destruct (write_rows_spec (ktyp key) k r (new_encoder (ktyp key)) 0 [] L Hk (new_encoder_ok _) (Henc L Hred))
    as (e & (L0 & f0 & Hw) & He).
  destruct (commit_ok st A key p (enc_bytes e) (Z.of_nat (length L)) Hr) as (Hcr0 & st' & Hcm & Hr'); [|done|].
  { apply Hst. pose proof (reduces_length _ _ _ _ Hred). lia. }
  exists st', (enc_bytes e, Z.of_nat (length L)). split_and!; [|done|].
  - exists (L0 `max` f0). intros fuel Hf. unfold write_part. rewrite Hcr0, Hrd. cbn [mbind outcome_bind].
    rewrite Hw by lia. cbn [mbind outcome_bind]. by rewrite Z.add_0_l, Hcm.
  - exists (enc_bytes e), L. rewrite lookup_insert_eq. split_and!; [done|by apply decoding_ok|done].
Qed.

(** What the commits of a key rely on. *)
Lemma contrib_ok s A gs key p :
  inv jobs s A gs → p < knum key → (∃ x, x ∈ gs ∧ runs_for key x = true ∧ begun x = true) →
  let l := contrib key p gs in
  key ∈ job_key <$> jobs ∧ combinable (ktyp key) (kfun key) l ∧
  (∀ L, reduces (ktyp key) (kfun key) l L → encodable (ktyp key) L) ∧
  (∀ k, (0 <= k <= Z.of_nat (length l))%Z → storable key k).
Proof.
  intros Hinv Hp (x & [i Hx]%list_elem_of_lookup & Hr & _) l. pose proof (job_in _ _ _ _ _ Hinv Hx) as Hji.
  unfold runs_for in Hr. destruct (g_job x) as [T l0|]; [|done]. apply bool_decide_eq_true in Hr.
  apply list_elem_of_lookup_2 in Hji.
  assert (l ⊆+ rows_for key jobs) as Hsub.
  { rewrite <-(inv_jobs _ _ _ _ Hinv). apply contrib_sub; [apply Hinv|done]. }
  split_and!.
  - rewrite <-Hr. change (combineKey T) with (job_key (jRun T l0)). by apply list_elem_of_fmap_2.
  - eapply combinable_sub; [done|]. rewrite <-Hr. by apply (jo_combinable _ JOBS T l0).
  - intros L. rewrite <-Hr. apply (jo_encodable _ JOBS T l0); [done|by rewrite Hr].
  - intros k Hk. rewrite <-Hr. apply (jo_storable _ JOBS T l0); [done|]. rewrite Hr. apply submseteq_length in Hsub. lia.
Qed.

(** One partition. *)
Lemma writer_advances s A gs key todo i canceled :
  inv jobs s A gs → sh_writers s !! key = Some (mkWriter (ktyp key) todo None) → state_of s key = combinerWriting → i < length todo →
  ∃ s' A', (λ fuel, writer_step defaultChunksize fuel key i canceled s) ⇓ Some s' ∧ inv jobs s' A' gs ∧ rank jobs s' gs < rank jobs s gs ∧
    (∀ t p, t ∉ job_key <$> jobs → A' !! (t, p) = A !! (t, p)).
Proof.
  intros Hinv Hwr Hst Hi.
  destruct (inv_keys _ _ _ _ Hinv key) as [_ _ K2 _ _|cs _ K2 _ _ _ _ _|todo' K1 K2 K3 K4 K5 K6 K7|K1 _ K3 _ _|]; [congruence..| |congruence|congruence].
  rewrite Hwr in K4. injection K4 as <-. destruct (lookup_lt_is_Some_2 todo i Hi) as [[p c] Hpc].
  destruct (K6 p c) as (Hp & Hc & HA); [by eapply list_elem_of_lookup_2|].
  destruct (contrib_ok s A gs key p Hinv Hp K3) as (Hkey & Hcb & Henc & Hsto).
  destruct (write_part_ok (sh_store s) A key p c (contrib key p gs) (inv_repr _ _ _ _ Hinv) HA Hc Hcb Henc Hsto)
    as (st' & v & [f0 Hw] & Hr' & Hred).
  set (todo' := take i todo ++ drop (S i) todo). set (A' := <[(key, p) := v]> A).
  set (s' := mkShared st' (sh_states s) (sh_errors s) (sh_combiners s) (<[key := mkWriter (ktyp key) todo' None]> (sh_writers s))).
  assert (todo ≡ₚ (p, c) :: todo') as Hperm.
  { rewrite <-(take_drop_middle todo i _ Hpc) at 1. unfold todo'. by rewrite Permutation_middle. }
  assert (length todo = S (length todo')) as Hlen by (by rewrite Hperm).
  assert (NoDup (p :: todo'.*1)) as [Hnp Hnd]%list.NoDup_cons.
  { change (p :: todo'.*1) with ((p, c) :: todo').*1. by rewrite <-Hperm. }
  exists s', A'. split; [|split; [|split]].
  - exists f0. intros fuel Hf. unfold writer_step. rewrite Hwr. cbn [wr_todo wr_err wr_typ]. rewrite Hpc.
    rewrite andb_false_r. rewrite Hw by done. done.
  - split; [apply Hinv|done|apply Hinv| |apply Hinv|intros T l q HT Hq; unfold A'; rewrite lookup_insert_ne; [by eapply Hinv|intros [= -> ->]; lia]].
    intros key'. destruct (decide (key' = key)) as [->|Hne].
    + apply ks_writing with todo'; [done|done|done| |done| |].
      * unfold s'. simpl. by rewrite lookup_insert_eq.
      * intros q d Hq. destruct (K6 q d) as (? & ? & ?); [rewrite Hperm; by right|]. split_and!; [done..|].
        unfold A'. rewrite lookup_insert_ne; [done|]. intros [= ->]. destruct Hnp. apply (list_elem_of_fmap_2 fst) in Hq. done.
      * intros q Hq Hnin. destruct (decide (q = p)) as [->|Hqp]; [done|].
        destruct (K7 q Hq) as (data & L & HL & ?); [|exists data, L; unfold A'; rewrite lookup_insert_ne by congruence; done].
        rewrite Hperm. simpl. set_solver.
    + apply (key_state_frame A _ s); [done| |done| |apply Hinv].
      * unfold s'. simpl. by rewrite lookup_insert_ne.
      * intros q. unfold A'. by rewrite lookup_insert_ne by congruence.
  - unfold rank. apply Nat.add_lt_mono_l. apply sum_lt with key; [|done|].
    + intros key'. unfold key_rank. change (state_of s' key') with (state_of s key').
      destruct (state_of s key' =? combinerCommitted)%Z; [done|]. unfold s'. simpl. destruct (decide (key' = key)) as [->|Hne].
      * rewrite lookup_insert_eq, Hwr. simpl. lia.
      * by rewrite lookup_insert_ne.
    + unfold key_rank. change (state_of s' key) with (state_of s key). rewrite Hst, Hwr. unfold s'. simpl.
      rewrite lookup_insert_eq. simpl. lia.
  - intros t q Ht. unfold A'. rewrite lookup_insert_ne; [done|]. by intros [= -> ->].
Qed.

(** The end of a commit. *)
Lemma written_advances s A gs key :
  inv jobs s A gs → sh_writers s !! key = Some (mkWriter (ktyp key) [] None) → state_of s key = combinerWriting →
  ∃ s', writer_done key s = Some s' ∧ inv jobs s' A gs ∧ rank jobs s' gs < rank jobs s gs.
Proof.
  intros Hinv Hwr Hst.
  destruct (inv_keys _ _ _ _ Hinv key) as [_ _ K2 _ _|cs _ K2 _ _ _ _ _|todo' K1 K2 K3 K4 K5 K6 K7|K1 _ K3 _ _|]; [congruence..| |congruence|congruence].
  rewrite Hwr in K4. injection K4 as <-.
  assert (key ∈ job_key <$> jobs) as Hkey.
  { destruct K3 as (x & [i Hx]%list_elem_of_lookup & Hr & _). pose proof (job_in _ _ _ _ _ Hinv Hx) as Hji.
    unfold runs_for in Hr. destruct (g_job x) as [T l0|]; [|done]. apply bool_decide_eq_true in Hr.
    apply list_elem_of_lookup_2 in Hji. rewrite <-Hr. change (combineKey T) with (job_key (jRun T l0)). by apply list_elem_of_fmap_2. }
  eexists. split; [unfold writer_done; by rewrite Hwr|].
  set (s' := mkShared _ _ _ _ _).
  assert (∀ key', state_of s' key' = if decide (key' = key) then combinerCommitted else state_of s key') as Hst'.
  { intros key'. unfold s', state_of. simpl. case_decide as E0; [subst; by rewrite lookup_insert_eq|by rewrite lookup_insert_ne]. }
  split.
  - split; [apply Hinv|apply Hinv|apply Hinv| |intros; rewrite Hst'; case_decide; [done|by eapply Hinv]|apply Hinv].
    intros key'. destruct (decide (key' = key)) as [->|Hne].
    + apply ks_committed; [by rewrite Hst', decide_True|done| |done|].
      * unfold s'. simpl. by rewrite lookup_delete_eq.
      * intros p Hp. apply K7; [done|]. apply not_elem_of_nil.
    + apply (key_state_frame A _ s); [by rewrite Hst', decide_False| | |done|apply Hinv];
        unfold s'; simpl; by rewrite lookup_delete_ne.
  - unfold rank. apply Nat.add_lt_mono_l. apply sum_lt with key; [|done|].
    + intros key'. unfold key_rank. rewrite Hst'. case_decide as E0; [subst; simpl; lia|]. unfold s'. simpl. by rewrite lookup_delete_ne.
    + unfold key_rank. rewrite Hst', decide_True, Hst, Hwr by done. simpl. lia.
Qed.

(** * Executions keep the invariant, are finite and are not stuck *)

(** A thread is done, waits for a commit that is being written, or takes a step. *)
Lemma thread_advances s A gs i g avail :
  inv jobs s A gs → gs !! i = Some g →
  (∃ e, g_th g = tDone e) ∨ (∃ key, g_th g = tCommit key None ∧ state_of s key = combinerWriting) ∨ advances s A gs i (g_th g) avail.
Proof.
  intros Hinv Hi. pose proof (inv_threads _ _ _ _ Hinv g ltac:(by eapply list_elem_of_lookup_2)) as Hok.
  assert (g_th g = tCommit (job_key (g_job g)) None →
    (∃ key, g_th g = tCommit key None ∧ state_of s key = combinerWriting) ∨ advances s A gs i (g_th g) avail) as Hcommit.
  { intros Hth. destruct (commit_advances s A gs i g avail Hinv Hi Hth) as [?|?]; [left; by eexists|by right]. }
  unfold thread_ok in Hok. destruct (g_job g) as [T l|key] eqn:Hj.
  - unfold run_ok in Hok. destruct (g_th g) as [T' in_|T' in_ bufs todo eof|T' bufs p|T' how|key' after|e] eqn:Hth;
      [do 2 right; rewrite <-Hth; destruct Hok as [-> Hok]..|right|left; by eexists].
    + by eapply start_advances.
    + destruct todo as [|[x z] todo]; [destruct eof; [by eapply eof_advances|by eapply read_advances]|by eapply combine_advances].
    + by eapply flush_advances.
    + by eapply end_advances.
    + destruct Hok as (-> & -> & _). by apply Hcommit.
  - destruct Hok as [_ Hok]. destruct (g_th g) as [| | | |key' after|e]; [done..| |left; by eexists].
    destruct Hok as (-> & -> & _). right. by apply Hcommit.
Qed.

(** A key that has a writer is being written. *)
Lemma writer_state s A gs key wr :
  inv jobs s A gs → sh_writers s !! key = Some wr →
  state_of s key = combinerWriting ∧ ∃ todo, wr = mkWriter (ktyp key) todo None.
Proof.
  intros Hinv Hwr. destruct (inv_keys _ _ _ _ Hinv key) as [_ _ K2 _ _|cs _ K2 _ _ _ _ _|todo K1 K2 K3 K4 _ _ _|_ _ K3 _ _|]; [congruence..| |congruence|congruence].
  split; [done|]. exists todo. congruence.
Qed.

Lemma cstep_inv s A gs ths' s' :
  inv jobs s A gs → cstep (g_th <$> gs, s) (ths', s') →
  ∃ gs' A', ths' = g_th <$> gs' ∧ inv jobs s' A' gs' ∧ rank jobs s' gs' < rank jobs s gs ∧ (∀ t p, t ∉ job_key <$> jobs → A' !! (t, p) = A !! (t, p)).
Proof.
  intros Hinv Hstep. inversion Hstep as [ths0 s0 i th avail th' s1 Hth Hst|ths0 s0 key i canceled s1 Hw|ths0 s0 key s1 Hw]; subst.
  - rewrite list_lookup_fmap in Hth. destruct (gs !! i) as [g|] eqn:Hi; [|done]. injection Hth as <-.
    destruct (thread_advances s A gs i g avail Hinv Hi) as [[e Hd]|[(key & Hc & Hwr)|(g' & s2 & Hst' & Hinv' & Hr)]].
    + rewrite Hd in Hst. assert (None = Some (th', s')) as [=]. eapply yields_det; [|exact Hst]. by exists 0.
    + rewrite Hc in Hst. assert (None = Some (th', s')) as [=]. eapply yields_det; [|exact Hst]. exists 0. intros fuel _.
      simpl. unfold commit_step. by rewrite Hwr.
    + pose proof (yields_det _ _ _ Hst' Hst) as [= <- <-]. exists (<[i := g']> gs), A. by rewrite list_fmap_insert.
  - destruct (sh_writers s !! key) as [wr|] eqn:Hwr.
    2: { assert (None = Some s') as [=]. eapply yields_det; [|exact Hw]. exists 0. intros fuel _. unfold writer_step. by rewrite Hwr. }
    destruct (writer_state s A gs key wr Hinv Hwr) as (Hst & todo & ->).
    destruct (decide (i < length todo)) as [Hi|Hi].
    2: { assert (None = Some s') as [=]. eapply yields_det; [|exact Hw]. exists 0. intros fuel _. unfold writer_step.
         rewrite Hwr. simpl. by rewrite lookup_ge_None_2 by lia. }
    destruct (writer_advances s A gs key todo i canceled Hinv Hwr Hst Hi) as (s2 & A' & Hw' & Hinv' & Hr & Hsame).
    pose proof (yields_det _ _ _ Hw' Hw) as [= <-]. by exists gs, A'.
  - destruct (sh_writers s !! key) as [wr|] eqn:Hwr; [|unfold writer_done in Hw; by rewrite Hwr in Hw].
    destruct (writer_state s A gs key wr Hinv Hwr) as (Hst & todo & ->).
    destruct todo as [|x todo]; [|unfold writer_done in Hw; by rewrite Hwr in Hw].
    destruct (written_advances s A gs key Hinv Hwr Hst) as (s2 & Hw' & Hinv' & Hr). rewrite Hw in Hw'. injection Hw' as <-.
    by exists gs, A.
Qed.

Lemma commit_key s A gs i g key after :
  inv jobs s A gs → gs !! i = Some g → g_th g = tCommit key after → job_key (g_job g) = key.
Proof.
  intros Hinv Hi Hth. pose proof (inv_threads _ _ _ _ Hinv g ltac:(by eapply list_elem_of_lookup_2)) as Hok.
  unfold thread_ok in Hok. destruct (g_job g) as [T l|k]; [unfold run_ok in Hok|destruct Hok as [_ Hok]]; rewrite Hth in Hok;
    by destruct Hok as [-> _].
Qed.

Lemma cstep_progress s A gs :
  inv jobs s A gs → (∀ g, g ∈ gs → ∃ e, g_th g = tDone e) ∨ ∃ c, cstep (g_th <$> gs, s) c.
Proof.
  intros Hinv. destruct (decide (Forall (λ g, is_done (g_th g) = true) gs)) as [Hall|Hnot].
  { left. intros g Hg. eapply list.Forall_forall in Hall; [|done]. destruct (g_th g); simplify_eq/=; by eauto. }
  right. apply not_Forall_Exists in Hnot; [|solve_decision]. apply Exists_exists in Hnot as (g & Hg & Hnd).
  apply list_elem_of_In, list_elem_of_lookup in Hg as [i Hi].
  destruct (thread_advances s A gs i g true Hinv Hi) as [[e Hd]|[(key & Hc & Hst)|(g' & s2 & Hst' & _)]].
  - destruct Hnd. by rewrite Hd.
  - destruct (inv_keys _ _ _ _ Hinv key) as [_ K1 _ _ _|cs K1 _ _ _ _ _ _|todo _ _ _ K4 _ _ _|K1 _ _ _ _|K1 _ _];
      [by rewrite K1 in Hst|rewrite K1 in Hst; unfold combinerIdle, combinerWriting in Hst; lia| |by rewrite K1 in Hst|].
    2: { destruct (K1 g); [by eapply list_elem_of_lookup_2|]. by eapply commit_key. }
    destruct todo as [|x todo].
    + destruct (written_advances s A gs key Hinv K4 Hst) as (s2 & Hw & _). eexists. by eapply cs_written.
    + destruct (writer_advances s A gs key _ 0 false Hinv K4 Hst) as (s2 & A' & Hw & _); [simpl; lia|]. eexists. by eapply cs_write.
  - eexists. eapply cs_thread; [|done]. by rewrite list_lookup_fmap, Hi.
Qed.

(** What is committed. *)
Lemma committed_contrib s A gs key p :
  inv jobs s A gs → nactive key gs = 0 → p < knum key →
  contrib key p gs = concat (zip_with (contributed key p) jobs (g_th <$> gs)).
Proof.
  intros [<- _ Hok _ _ _] Hn Hp. clear JOBS. unfold contrib, nactive in *. induction gs as [|g gs IH]; [done|].
  cbn [sum_list_with] in Hn. apply Nat.eq_add_0 in Hn as [Hn Hn'].
  rewrite !fmap_cons. cbn [concat zip_with]. f_equal; [|apply IH; [intros; apply Hok; by right|exact Hn']]. specialize (Hok g (list_elem_of_here _ _)).
  unfold thread_ok in Hok. unfold runs_for, contributed, active in *. destruct (g_job g) as [T l|]; [|done].
  case_bool_decide as Hk; [subst key|by destruct (g_th g) as [| | | | |[]]].
  unfold run_ok in Hok. destruct (g_th g) as [| | | | |[]]; simpl in Hn; try lia.
  - by destruct Hok as (_ & -> & _).
  - destruct Hok as (_ & _ & _ & Hall & _). by apply Hall.
  - by destruct Hok as [-> _].
  - by apply Hok.
Qed.

Lemma inv_start ths s A :
  Forall2 starts jobs ths → fresh jobs s A → (∀ key, key ∉ job_key <$> jobs → state_of s key = others key) →
  ∃ gs, ths = g_th <$> gs ∧ inv jobs s A gs.
Proof.
  intros HF (Hr & Hst & Hwr & HA) Hoth.
  assert (∀ js, Forall2 starts js ths → ∃ gs, ths = g_th <$> gs ∧ g_job <$> gs = js ∧
    ∀ g, g ∈ gs → thread_ok g ∧ (∀ T l, g_job g = jRun T l → begun g = false)) as Hgs.
  { clear. intros js HF. induction HF as [|j th js ths Hs _ (gs & -> & <- & Hok)]; [exists []; split_and!; [done..|set_solver]|].
    assert (∃ n, let g := mkG j th (λ _, []) n in thread_ok g ∧ (∀ T l, g_job g = jRun T l → begun g = false)) as (n & Hn).
    { destruct j as [T l|key], th as [T' in_| | | |key' after|]; try done; simpl in Hs.
      - destruct Hs as [-> [k Hk]]. exists (k * (defaultChunksize + 2) + knum (combineKey T) + 7). split; [|done]. split_and!; [done..|]. by exists k.
      - destruct Hs as [-> ->]. exists 2. by split_and!. }
    exists (mkG j th (λ _, []) n :: gs). split_and!; [done..|]. intros g [->|Hg]%elem_of_cons; [done|by apply Hok]. }
  destruct (Hgs jobs HF) as (gs & -> & Hj & Hok). exists gs. split; [done|]. split; [done|done|apply Hok| | |intros T l p HT _; by eapply HA].
  2: { intros g T l Hg Hjg _ Hth. destruct (Hok g Hg) as [_ Hb]. specialize (Hb T l Hjg). unfold begun in Hb. by rewrite Hth in Hb. }
  intros key. destruct (decide (key ∈ job_key <$> jobs)) as [Hin|Hin].
  2: { apply ks_other; [|by apply Hoth|done]. intros g Hg E0. apply Hin. rewrite <-Hj, <-E0. by apply list_elem_of_fmap_2, list_elem_of_fmap_2. }
  apply ks_none; [|by apply Hst|done| |].
  - rewrite <-Hj in Hin. apply list_elem_of_fmap in Hin as (j & -> & (g & -> & Hg)%list_elem_of_fmap). by exists g.
  - intros g Hg Hrf. destruct (g_job g) as [T l|] eqn:Hjg; [by eapply Hok|]. unfold runs_for in Hrf. by rewrite Hjg in Hrf.
  - intros g p Hg Hrf. unfold runs_for in Hrf. destruct (g_job g) as [T l|] eqn:Hjg; [|done].
    apply bool_decide_eq_true in Hrf. rewrite <-Hrf. apply (HA T l). rewrite <-Hj, <-Hjg. by apply list_elem_of_fmap_2.
Qed.

Lemma nsteps_inv n ths s c A gs :
  inv jobs s A gs → ths = g_th <$> gs → nsteps cstep n (ths, s) c →
  ∃ gs' A', c.1 = g_th <$> gs' ∧ inv jobs c.2 A' gs' ∧ n + rank jobs c.2 gs' ≤ rank jobs s gs ∧ (∀ t p, t ∉ job_key <$> jobs → A' !! (t, p) = A !! (t, p)).
Proof.
  intros Hinv Hths Hn. remember (ths, s) as c0 eqn:Hc0. revert ths s A gs Hinv Hths Hc0.
  induction Hn as [c|n c1 [ths1 s1] c2 Hst _ IH]; intros ths s A gs Hinv Hths Hc0; subst.
  - exists gs, A. by split_and!.
  - destruct (cstep_inv s A gs ths1 s1 Hinv Hst) as (gs1 & A1 & -> & Hinv1 & Hr1 & Hs1).
    destruct (IH _ _ A1 gs1 Hinv1 eq_refl eq_refl) as (gs' & A' & ? & ? & ? & Hs'). exists gs', A'. split_and!; [done..|lia|].
    intros t p Ht. by rewrite Hs', Hs1.
Qed.

(** Keys that no job is for keep their state. *)
Lemma other_state s A gs key : inv jobs s A gs → key ∉ job_key <$> jobs → state_of s key = others key.
Proof.
  intros Hinv Hin.
  assert (∀ g, g ∈ gs → job_key (g_job g) ≠ key) as Hno.
  { intros g Hg E0. apply Hin. rewrite <-(inv_jobs _ _ _ _ Hinv), <-E0. by apply list_elem_of_fmap_2, list_elem_of_fmap_2. }
  assert (∀ g, g ∈ gs → runs_for key g = false) as Hrf.
  { intros g Hg. specialize (Hno g Hg). unfold runs_for. destruct (g_job g); [|done]. by apply bool_decide_eq_false. }
  destruct (inv_keys _ _ _ _ Hinv key) as [(g & Hg & Hr) _ _ _ _|cs _ _ (g & Hg & Hr & _)|todo _ _ (g & Hg & Hr & _)|_ _ _ (g & Hg & Hr & _)|]; [by destruct (Hno g Hg)|by rewrite Hrf in Hr..|done].
Qed.

(** The worker in any state that an execution reaches. *)
Lemma combining_spec ths s A :
  Forall2 starts jobs ths → fresh jobs s A → (∀ key, key ∉ job_key <$> jobs → state_of s key = others key) →
  ∃ bound, ∀ n ths' s', nsteps cstep n (ths, s) (ths', s') →
    n ≤ bound ∧ ((∀ th, th ∈ ths' → ∃ err, th = tDone err) ∨ ∃ c, cstep (ths', s') c) ∧
    (∀ i T l err, jobs !! i = Some (jRun T l) → ct_CombineKey T = "" → ths' !! i = Some (tDone err) →
       err = None ∧ state_of s' (combineKey T) = combinerCommitted) ∧
    (∀ key, key ∉ job_key <$> jobs → state_of s' key = state_of s key) ∧
    ∃ A', repr (sh_store s') A' ∧ (∀ t p, t ∉ job_key <$> jobs → A' !! (t, p) = A !! (t, p)) ∧
      ∀ key p, key ∈ job_key <$> jobs → state_of s' key = combinerCommitted → p < knum key →
      holds_reduction A' key p (concat (zip_with (contributed key p) jobs ths')).
Proof.
  intros HF Hfr Hoth. destruct (inv_start ths s A HF Hfr Hoth) as (gs & -> & Hinv). exists (rank jobs s gs). intros n ths' s' Hn.
  destruct (nsteps_inv n _ s (ths', s') A gs Hinv eq_refl Hn) as (gs' & A' & E0 & Hinv' & Hr & Hsame). simpl in E0, Hinv', Hr. subst ths'.
  split_and!; [lia| | | |].
  - destruct (cstep_progress s' A' gs' Hinv') as [Hall|?]; [left|by right].
    intros th (g & -> & Hg)%list_elem_of_fmap. by apply Hall.
  - intros i T l err Hji Hk Hth. rewrite list_lookup_fmap in Hth. destruct (gs' !! i) as [g|] eqn:Hi; [|done]. injection Hth as Hth.
    pose proof (job_in _ _ _ _ _ Hinv' Hi) as Hj. rewrite Hji in Hj. injection Hj as Hj. symmetry in Hj.
    apply list_elem_of_lookup_2 in Hi. pose proof (inv_threads _ _ _ _ Hinv' g Hi) as Hok.
    unfold thread_ok in Hok. rewrite Hj, Hth in Hok. destruct err as [e|]; [by destruct Hok|].
    split; [done|]. by apply (inv_private _ _ _ _ Hinv' g T l).
  - intros key Hin. rewrite Hoth by done. by apply (other_state s' A' gs').
  - exists A'. split_and!; [apply Hinv'|done|]. intros key p Hin Hst Hp.
    destruct (inv_keys _ _ _ _ Hinv' key) as [_ K1 _ _ _|cs K1 _ _ _ _ _ _|todo K1 _ _ _ _ _ _|K1 K2 K3 K4 K5|K1];
      [by rewrite K1 in Hst|rewrite K1 in Hst; unfold combinerIdle, combinerCommitted in Hst; lia|by rewrite K1 in Hst| |].
    2: { rewrite <-(inv_jobs _ _ _ _ Hinv') in Hin. apply list_elem_of_fmap in Hin as (j & -> & (g & -> & Hg)%list_elem_of_fmap).
         by destruct (K1 g Hg). }
    rewrite <-(committed_contrib s' A' gs' key p Hinv' K2 Hp). by apply K5.
Qed.
End spec.

