(* ===== verification/WorkerCombiner.v ===== *)
(** The combining frames of Combiner.v behind the interface that runCombine uses
    (src/exec/bigmachine.go): the theorems on the hash table, and that combining in two
    stages is combining once, discharge what combining on workers relies on. *)
From S2P Require Import Prelude Types Heap SliceIO SortIO Reduce Combiner Slices Readers Local LocalCombiner WorkerCombine WorkerCombineSpec.

Lemma split_join (x : krow) : split_row (join_row x) = x.
Proof.
  destruct x as [k v]. unfold split_row, join_row. simpl. rewrite length_app. simpl.
  by rewrite Nat.add_sub, take_app_length, last_snoc.
Qed.

Lemma split_join_list (l : list krow) : split_row <$> (join_row <$> l) = l.
Proof. induction l as [|x l IH]; [done|]. rewrite !fmap_cons. by rewrite split_join, IH. Qed.

Lemma reduction_length {K V} (ltk : K → K → bool) (comb : V → V → V) l L :
  reduction ltk comb l L → length L ≤ length l.
Proof.
  intros (gs & Hp & HF & _). rewrite <-Hp. clear Hp. induction HF as [|g x gs L Hg _ IH]; [done|]. simpl.
  rewrite length_app. destruct g; [done|]. simpl. lia.
Qed.

Section instance.
Context (ltk : list value → list value → bool) (hash : list value → Z).
Context {Sp R : Type} `{Reader krow R} {SP : Spiller krow Sp R}.
Context (NewSpiller : string → Sp + error) (canCompare : Typ → bool).
Context (sort_Sort : list krow → list krow) (defaultChunksize : nat).

Record typedFrame := mkTypedFrame {
  tf_typ : Typ;
  tf_f : userFunc;
  tf_frame : combiningFrame (K := list value) (V := value);
}.

#[export] Instance frame_ops : CombiningFrameOps typedFrame := {|
  WorkerCombine.makeCombiningFrame typ f n nscratch :=
    c ← Combiner.makeCombiningFrame zero_row (NumOut typ) (Prefix typ) n nscratch; Ret (mkTypedFrame typ f c);
  cf_Combine fuel b rows :=
    c ← Combiner.Combine ltk hash (comb_of (tf_f b)) zero_row fuel (tf_frame b) (split_row <$> rows);
    Ret (mkTypedFrame (tf_typ b) (tf_f b) c);
  cf_Len b := cf_len (tf_frame b);
  cf_Cap b := cf_cap (tf_frame b);
  cf_Compact b :=
    let '(c, rows) := Compact (tf_frame b) in (mkTypedFrame (tf_typ b) (tf_f b) c, join_row <$> rows);
|}.

(** * Its laws *)

Context `{!StrictWeak ltk} {SL : SpillerLaws krow Sp R}.
Hypothesis hash_same : ∀ a b, ltk a b = false → ltk b a = false → hash a = hash b.
Hypothesis sort_perm : ∀ f, sort_Sort f ≡ₚ f.
Hypothesis sort_sorted : ∀ f, sorted (row_less ltk) (sort_Sort f).
Hypothesis NewSpiller_ok : ∀ name, ∃ sp, NewSpiller name = inl sp ∧ spilled sp [].
Context (chunk : nat) (CHUNK : defaultChunksize = 2 ^ chunk) (SMALL : chunk ≤ 29).

#[local] Instance ops : CombinerOps (typedCombiner (Sp := Sp)) :=
  combiner_ops ltk hash NewSpiller canCompare sort_Sort defaultChunksize.
#[local] Instance laws : CombinerLaws (typedCombiner (Sp := Sp)) :=
  combiner_laws ltk hash NewSpiller canCompare sort_Sort defaultChunksize hash_same sort_perm sort_sorted
    NewSpiller_ok chunk CHUNK SMALL.

Definition frame_holds (typ : Typ) (f : userFunc) (b : typedFrame) (l : list row) : Prop :=
  tf_f b = f ∧ ∃ k, cf_ok ltk hash k (tf_frame b) ∧ 0 < cf_nscratch (tf_frame b) ∧
    grouped ltk (comb_of f) (split_row <$> l) (contents (tf_frame b)).

Definition compacts_rows (f : userFunc) (l rows : list row) : Prop :=
  ∃ L, rows = join_row <$> L ∧ grouped ltk (comb_of f) (split_row <$> l) L.

Lemma compacts_split f ls runs :
  Forall2 (compacts_rows f) ls runs →
  ∃ Ls, concat runs = join_row <$> (concat Ls : list krow) ∧ Forall2 (grouped ltk (comb_of f)) ((λ l : list row, split_row <$> l) <$> ls) Ls ∧
    length (concat runs) ≤ length (concat ls).
Proof.
  induction 1 as [|l rows ls runs (L & -> & HL) _ (Ls & Heq & HF & Hlen)]; [exists []; by split_and!|].
  exists (L :: Ls). simpl. rewrite Heq, fmap_app. split_and!; [done|by constructor|].
  rewrite !length_app, !length_fmap. apply grouped_length in HL. rewrite length_fmap in HL.
  rewrite Heq, length_fmap in Hlen. lia.
Qed.

#[export] Instance frame_laws : CombiningFrameLaws (typedCombiner (Sp := Sp)) typedFrame.
Proof using All.
  refine {| cframe := frame_holds; compacts typ f := compacts_rows f |}.
  - intros typ f (Hno & _). simpl. destruct (make_spec ltk hash zero_row 3 1 0) as (c & Hm & Hsh & Htb & Hc & Hns & Hl & _); [lia|].
    unfold Combiner.makeCombiningFrame. rewrite Hno, (Hm : make zero_row 8 1 0 = _). eexists. split; [done|]. split; [done|].
    exists 3. split_and!; simpl; [split; [done|done|by rewrite Hc, Hl|rewrite Hl; lia]|lia|rewrite Hc; apply grouped_nil].
  - intros typ f b l rows (<- & k & Hok & Hn & Hg) (_ & _ & _ & Hmax).
    destruct (Combine_spec ltk hash (comb_of (tf_f b)) zero_row hash_same k (tf_frame b) (split_row <$> rows) (split_row <$> l) Hok Hg Hn)
      as (k' & c' & f0 & Hc & Hok' & Hg' & Hn').
    { rewrite !length_fmap. by rewrite length_app in Hmax. }
    exists (mkTypedFrame (tf_typ b) (tf_f b) c'). split.
    + exists f0. intros fuel Hf. simpl. by rewrite Hc.
    + split; [done|]. exists k'. rewrite fmap_app. split_and!; [done|simpl; lia|done].
  - intros typ f b l (<- & k & Hok & Hn & Hg). destruct (Compact_spec ltk hash k (tf_frame b) Hok) as (c' & Hc & Hok' & Hcc & Hn').
    simpl. rewrite Hc. eexists _, _. split; [done|]. split.
    + split; [done|]. exists k. simpl. split_and!; [done|lia|]. rewrite Hcc. apply grouped_nil.
    + by exists (contents (tf_frame b)).
  - intros typ f l l' Hsub (Hno & Hcmp & Has & Hmax). split_and!; [done..|]. apply submseteq_length in Hsub. lia.
  - intros typ f ls runs (Ls & _ & _ & Hlen)%compacts_split (Hno & Hcmp & Has & Hmax). split_and!; [done..|lia].
  - intros typ f ls runs L (_ & _ & Has & _) (Ls & Heq & HF & _)%compacts_split (L' & -> & Hr).
    exists L'. split; [done|]. rewrite Heq, split_join_list in Hr.
    assert (split_row <$> concat ls = concat ((λ l : list row, split_row <$> l) <$> ls)) as ->
      by (clear; induction ls as [|l ls IH]; [done|]; cbn [concat]; by rewrite fmap_app, fmap_cons, IH).
    by eapply reduction_grouped.
  - intros typ f l l' L Hp (L' & -> & gs & Hgs & ?). exists L'. split; [done|]. exists gs. split; [|done]. by rewrite Hgs, Hp.
  - intros typ f l L (L0 & -> & Hr%reduction_length). rewrite length_fmap. rewrite length_fmap in Hr. lia.
Defined.
End instance.
