(* ===== verification/Worker.v ===== *)
(** Workers (src/exec/bigmachine.go): the service that compiles invocations, runs tasks
    and serves their output.

    A worker has its own tasks: [wk_graph] is what it compiled, [wk_world] their state.
    Other machines are the class [Network]: dialing them, statting and reading their
    output (Retry.v models the stream of bytes that is read).  What runs of tasks share
    besides, the store and the combiners, is the state of WorkerCombine.v; here a run is
    the whole handler, with nothing else in between.  Statistics and logging are left
    out. *)
From S2P Require Import Prelude Types SliceIO Retry Slices Readers Task Compile CompileGraph Store Local WorkerOut WorkerCombine.

(** * Parameters *)

(** once.Map: the functions that have run, by key, with the errors they returned, and
    what it is after a function that panicked. *)
Class Once (K Er O : Type) := {
  once_new : O;
  once_get : O → K → option (option Er);
  once_put : O → K → option Er → O;
  once_panicked : O → K → O;
  once_forget : O → K → O;
}.

(** Other machines, by address. *)
Class Network (N : Type) := {
  nw_Dial : N → string → option error;
  nw_Stat : N → string → TaskName → Z → sliceInfo + error;
  nw_Reader : N → string → Typ → TaskName → Z → anyReader row;
}.

(** The arguments of an invocation that is sent to a worker: values, or references to
    the results of other invocations, which the worker replaces by its own. *)
Inductive invArg :=
| argValue (v : value)
| argRef (index : Z)
| argResult (s : Slice) (tasks : list nat).

Record execInvocation := mkExecInvocation {
  ei_Index : Z;
  ei_Func : Z;
  ei_Args : list invArg;
  ei_Location : string;
  ei_Env : CompileEnv;
}.

(** * The worker *)

Section worker.
Context {C : Type} `{CombinerOps C} {CF : Type} `{CombiningFrameOps CF}.
Context {E : Type} `{RowEncoding E} {St : Type} `{Store St}.
Context {O : Type} `{Once Z error O} {N : Type} `{Network N}.
Context (defaultChunksize : nat) (frame_Hash : row → outcome Z).
Context (SReader : Slice → Z → list (anyReader row) → outcome (anyReader row)).
(** [inv.Invoke()]: the registered func on the arguments (Func.v). *)
Context (invoke : Z → list invArg → outcome Slice).
(** The order in which a map is iterated, and [rand.Shuffle] if readers are shuffled. *)
Context (iter_addrs : list string → list string) (shuffle : list (anyReader row) → list (anyReader row)).

#[local] Abbreviation shared := (WorkerCombine.shared (C := C) (St := St)).

Record worker := mkWorker {
  wk_MachineCombiners : bool;
  wk_compiles : O;
  wk_tasks : gmap Z (gmap TaskName nat);
  wk_slices : gmap Z (Slice * list nat);
  wk_graph : gmap nat cTask;
  wk_next : nat;
  wk_world : world;
  wk_shared : shared;
}.

(** With an empty store in a new directory. *)
Definition Init (machineCombiners : bool) (store : St) : worker :=
  mkWorker machineCombiners once_new ∅ ∅ ∅ 0 (mkWorld ∅ ∅ 0 ∅) (mkShared store ∅ ∅ ∅ ∅).

Definition with_world (w : worker) (wd : world) : worker :=
  mkWorker (wk_MachineCombiners w) (wk_compiles w) (wk_tasks w) (wk_slices w) (wk_graph w) (wk_next w) wd (wk_shared w).
Definition with_shared (w : worker) (s : shared) : worker :=
  mkWorker (wk_MachineCombiners w) (wk_compiles w) (wk_tasks w) (wk_slices w) (wk_graph w) (wk_next w) (wk_world w) s.
Definition with_compiles (w : worker) (o : O) : worker :=
  mkWorker (wk_MachineCombiners w) o (wk_tasks w) (wk_slices w) (wk_graph w) (wk_next w) (wk_world w) (wk_shared w).
Definition store_of (w : worker) : St := sh_store (wk_shared w).

(** ** Compile *)

(** Replaces references by the results of the invocations. *)
Fixpoint substitute (slices : gmap Z (Slice * list nat)) (args : list invArg) : list invArg + error :=
  match args with
  | [] => inl []
  | arg :: args =>
      match (match arg with
             | argRef i => match slices !! i with
                           | Some (s, ts) => inl (argResult s ts)
                           | None => inr (Err Other "worker.Compile: invalid invocation reference")
                           end
             | _ => inl arg
             end) with
      | inr e => inr e
      | inl arg => match substitute slices args with inl args => inl (arg :: args) | inr e => inr e end
      end
  end.

(** All tasks that tasks depend on. *)
Fixpoint all_of (fuel : nat) (wd : world) (ts : list nat) (seen : gset nat) : outcome (gset nat) :=
  match ts with
  | [] => Ret seen
  | t :: ts => seen ← all fuel wd seen t; all_of fuel wd ts seen
  end.

(** The tasks by name. *)
Definition name_tasks (graph : gmap nat cTask) (ts : list nat) : gmap TaskName nat :=
  foldl (λ m t, match graph !! t with Some T => <[ct_Name T := t]> m | None => m end) ∅ ts.

(** The function that is run once for each invocation. *)
Definition compile_once (fuel : nat) (inv : execInvocation) (w : worker) : outcome (worker * option error) :=
  match substitute (wk_slices w) (ei_Args inv) with
  | inr e => Ret (w, Some e)
  | inl args =>
      slice ← invoke (ei_Func inv) args;
      '(c, res) ← compile frame_Hash SReader (ei_Index inv) (ei_Location inv) (wk_MachineCombiners w)
        (ei_Env inv) (wk_graph w) (wk_next w) slice;
      let wd := mkWorld (w_tasks (wk_world w) ∪ (run_task <$> c_tasks c)) (w_subscribers (wk_world w))
        (w_channels (wk_world w)) (w_closed (wk_world w)) in
      match res with
      | inr e => Ret (mkWorker (wk_MachineCombiners w) (wk_compiles w) (wk_tasks w) (wk_slices w) (c_tasks c) (c_next c) wd (wk_shared w), Some e)
      | inl ts =>
          all ← all_of fuel wd ts ∅;
          Ret (mkWorker (wk_MachineCombiners w) (wk_compiles w)
                 (<[ei_Index inv := name_tasks (c_tasks c) (elements all)]> (wk_tasks w))
                 (<[ei_Index inv := (slice, ts)]> (wk_slices w)) (c_tasks c) (c_next c) wd (wk_shared w), None)
      end
  end.

(** [Compile] of an invocation that was decoded.  A panic is returned as an error. *)
Definition Worker_Compile (fuel : nat) (inv : execInvocation) (w : worker) : outcome (worker * option error) :=
  match once_get (wk_compiles w) (ei_Index inv) with
  | Some err => Ret (w, err)
  | None =>
      match compile_once fuel inv w with
      | Panic msg =>
          Ret (with_compiles w (once_panicked (wk_compiles w) (ei_Index inv)), Some (Err Fatal ("invocation panic! " +:+ msg)))
      | NoFuel => NoFuel
      | Ret (w, err) => Ret (with_compiles w (once_put (wk_compiles w) (ei_Index inv) err), err)
      end
  end.

(** ** Run: inputs *)

Record taskRunRequest := mkTaskRunRequest {
  rq_Invocation : Z;
  rq_Name : TaskName;
  rq_Machines : list string;
  rq_Locations : list Z;
}.

Definition req_location (req : taskRunRequest) (taskIndex : nat) : outcome string :=
  j ← index (rq_Locations req) (Z.of_nat taskIndex); index (rq_Machines req) j.

(** The addresses of [n] dependencies from [taskIndex] on. *)
Fixpoint locations (req : taskRunRequest) (taskIndex n : nat) : outcome (list string) :=
  match n with
  | 0 => Ret []
  | S n => addr ← req_location req taskIndex; addrs ← locations req (S taskIndex) n; Ret (addr :: addrs)
  end.

(** A reader of the combined output of each machine. *)
Fixpoint combined_readers (net : N) (typ : Typ) (key : string) (partition : Z) (addrs : list string) :
    list (anyReader row) + runError :=
  match addrs with
  | [] => inl []
  | addr :: addrs =>
      match nw_Dial net addr with
      | Some e => inr (plainErr e)
      | None =>
          match combined_readers net typ key partition addrs with
          | inl rs => inl (nw_Reader net addr typ (mkTaskName 0 key 0 0) partition :: rs)
          | inr e => inr e
          end
      end
  end.

(** The reader of the output of one task: from the store, if it has it, else from the
    machine at the location. *)
Definition task_reader (net : N) (store : St) (req : taskRunRequest) (typ : Typ) (name : TaskName) (partition : Z)
    (taskIndex : nat) : outcome (anyReader row + runError) :=
  let remote :=
    addr ← req_location req taskIndex;
    Ret (match nw_Dial net addr with
         | Some e => inr (plainErr e)
         | None =>
             match nw_Stat net addr name partition with
             | inr e => inr (plainErr e)
             | inl _ => inl (nw_Reader net addr typ name partition)
             end
         end) in
  match st_Stat store name (Z.to_nat partition) with
  | inl _ =>
      match st_Open store name (Z.to_nat partition) 0 with
      | inl data => Ret (inl (decoding typ data))
      | inr _ => remote
      end
  | inr _ => remote
  end.

Fixpoint task_readers (net : N) (store : St) (req : taskRunRequest) (graph : gmap nat cTask) (partition : Z)
    (taskIndex : nat) (us : list nat) : outcome (list (anyReader row) + runError) :=
  match us with
  | [] => Ret (inl [])
  | u :: us =>
      U ← deref graph u;
      r ← task_reader net store req (ct_Type U) (ct_Name U) partition taskIndex;
      match r with
      | inr e => Ret (inr e)
      | inl r =>
          rs ← task_readers net store req graph partition (S taskIndex) us;
          Ret (match rs with inl rs => inl (r :: rs) | inr e => inr e end)
      end
  end.

(** The readers of one dependency, and the index of the next one's first task. *)
Definition dep_readers (net : N) (w : worker) (req : taskRunRequest) (taskIndex : nat) (dep : TaskDep) :
    outcome (nat * list (anyReader row) + runError) :=
  n ← NumTask (wk_world w) dep;
  if negb (bool_decide (dep_CombineKey dep = "")) then
    addrs ← locations req taskIndex n;
    H ← deref (wk_graph w) (dep_Head dep);
    match combined_readers net (ct_Type H) (dep_CombineKey dep) (dep_Partition dep) (iter_addrs (remove_dups addrs)) with
    | inr e => Ret (inr e)
    | inl rs => Ret (inl (taskIndex + n, rs))
    end
  else
    us ← dep_tasks (wk_world w) dep 0 n;
    q ← task_readers net (store_of w) req (wk_graph w) (dep_Partition dep) taskIndex us;
    match q with
    | inr e => Ret (inr e)
    | inl q =>
        let q := shuffle q in
        Ret (inl (taskIndex + n, if dep_Expand dep then q else [pack (exec_multiReader q)]))
    end.

Fixpoint input_readers (net : N) (w : worker) (req : taskRunRequest) (taskIndex : nat) (deps : list TaskDep) :
    outcome (list (anyReader row) + runError) :=
  match deps with
  | [] => Ret (inl [])
  | dep :: deps =>
      r ← dep_readers net w req taskIndex dep;
      match r with
      | inr e => Ret (inr e)
      | inl (taskIndex, rs) =>
          rest ← input_readers net w req taskIndex deps;
          Ret (match rest with inl rs' => inl (rs ++ rs') | inr e => inr e end)
      end
  end.

(** ** Run: the task *)

(** A run that combines, with nothing else running: the steps of its thread and,
    while it waits for the commit, those of the writer. *)
Fixpoint combine_alone (steps fuel : nat) (th : thread (CF := CF)) (s : shared) : outcome (shared * option runError) :=
  match steps with
  | 0 => NoFuel
  | S steps =>
      match th with
      | tDone err => Ret (s, err)
      | _ =>
          res ← thread_step defaultChunksize fuel true th s;
          match res, th with
          | Some (th, s), _ => combine_alone steps fuel th s
          | None, tCommit key _ =>
              match writer_done key s with
              | Some s => combine_alone steps fuel th s
              | None =>
                  res ← writer_step defaultChunksize fuel key 0 false s;
                  match res with
                  | Some s => combine_alone steps fuel th s
                  | None => NoFuel
                  end
              end
          | None, _ => NoFuel
          end
      end
  end.

(** What a run does after it has marked the task as running. *)
Definition run_body (fuel : nat) (net : N) (req : taskRunRequest) (T : cTask) (w : worker) :
    outcome (shared * option runError) :=
  ins ← input_readers net w req 0 (ct_Deps T);
  match ins with
  | inr e => Ret (wk_shared w, Some e)
  | inl ins =>
      let do_ := f ← match ct_Do T with Some f => Ret f | None => nil_deref end; f ins in
      match ct_Combiner T with
      | Some _ => out ← do_; combine_alone fuel fuel (tStart T out) (wk_shared w)
      | None =>
          '(st, err) ← write_output defaultChunksize fuel T do_ (store_of w);
          Ret (mkShared st (sh_states (wk_shared w)) (sh_errors (wk_shared w)) (sh_combiners (wk_shared w)) (sh_writers (wk_shared w)), err)
      end
  end.

(** How a run ends: with its error, or waiting for another run of the task. *)
Inductive runResult := RunDone (err : option error) | RunWaits.

(** The state of the task and the reply at the end of a run: an error is downgraded
    unless it may be fatal to the task. *)
Definition run_end (t : nat) (err : option runError) (w : worker) : outcome (worker * runResult) :=
  match err with
  | Some e =>
      let e := reviseSeverity e in
      wd ← Error t e (wk_world w); Ret (with_world w wd, RunDone (Some e))
  | None => wd ← Set_ t TaskOk (wk_world w); Ret (with_world w wd, RunDone None)
  end.

(** A panic becomes an error that may be fatal. *)
Definition run_recover (w : worker) (r : outcome (shared * option runError)) : outcome (shared * option runError) :=
  match r with
  | Panic msg => Ret (wk_shared w, Some (maybeTaskFatalErr (Err Fatal ("panic while evaluating slice: " +:+ msg))))
  | _ => r
  end.

Definition Worker_Run (fuel : nat) (net : N) (req : taskRunRequest) (w : worker) : outcome (worker * runResult) :=
  match wk_tasks w !! rq_Invocation req with
  | None => Ret (w, RunDone (Some (Err Fatal "invocation not compiled")))
  | Some named =>
      match named !! rq_Name req with
      | None => Ret (w, RunDone (Some (Err Fatal "task not found")))
      | Some t =>
          T ← deref (wk_graph w) t;
          R ← deref (w_tasks (wk_world w)) t;
          match t_state R with
          | TaskLost | TaskErr | TaskInit =>
              let w := with_world w (upd_task t (with_state TaskRunning (t_err R) R) (wk_world w)) in
              '(s, err) ← run_recover w (run_body fuel net req T w);
              run_end t err (with_shared w s)
          | TaskOk =>
              match Err_ t (wk_world w) with
              | Ret (Some e) => run_end t (Some (plainErr e)) w
              | Ret None => run_end t None w
              | Panic msg => run_end t (Some (maybeTaskFatalErr (Err Fatal ("panic while evaluating slice: " +:+ msg)))) w
              | NoFuel => NoFuel
              end
          | _ => Ret (w, RunWaits)
          end
      end
  end.

(** ** Discard, Stat and Read *)

Fixpoint discard_parts (store : St) (name : TaskName) (p n : nat) : St :=
  match n with
  | 0 => store
  | S n => discard_parts (st_Discard store name p).1 name (S p) n
  end.

(** Errors are logged.  A combiner of the task's own is forgotten. *)
Definition Worker_Discard (name : TaskName) (w : worker) : outcome (worker * option error) :=
  match wk_tasks w !! tn_InvIndex name with
  | None => Ret (w, None)
  | Some named =>
      match named !! name with
      | None => Ret (w, None)
      | Some t =>
          T ← deref (wk_graph w) t;
          R ← deref (w_tasks (wk_world w)) t;
          if decide (t_state R = TaskOk) then
            let s := wk_shared w in
            let s := mkShared (discard_parts (sh_store s) name 0 (Z.to_nat (ct_NumPartition T)))
              (sh_states s) (sh_errors s) (sh_combiners s) (sh_writers s) in
            let s := if bool_decide (is_Some (ct_Combiner T)) && bool_decide (ct_CombineKey T = "")
                     then set_state (ct_Name T) combinerNone s else s in
            wd ← Set_ t TaskLost (upd_task t (with_state TaskRunning (t_err R) R) (wk_world w));
            Ret (with_shared (with_world w wd) s, None)
          else Ret (w, None)
      end
  end.

Definition Worker_Stat (name : TaskName) (partition : Z) (w : worker) : sliceInfo + error :=
  st_Stat (store_of w) name (Z.to_nat partition).

Definition Worker_Read (name : TaskName) (partition : Z) (offset : nat) (w : worker) : list Z + error :=
  st_Open (store_of w) name (Z.to_nat partition) offset.
End worker.
