(* ===== verification/WorkerSpec.v ===== *)
(** What workers do (src/exec/bigmachine.go): invocations are compiled once, and the run
    of a task that has a combiner of its own leaves its output combined and
    committed. *)
From S2P Require Import Prelude Types SliceIO Retry Slices Readers Task Compile CompileGraph Store Local LocalSpec WorkerOut WorkerCombine WorkerCombineSpec Worker.

(** A function of once.Map runs once. *)
Class OnceLaws (K Er O : Type) `{Once K Er O} := {
  once_get_new : ∀ k, once_get once_new k = None;
  once_get_put : ∀ o k e, once_get (once_put o k e) k = Some e;
  once_get_put_ne : ∀ o k k' e, k ≠ k' → once_get (once_put o k e) k' = once_get o k';
}.

Section spec.
Context {C : Type} `{CombinerOps C} {CF : Type} `{CombiningFrameOps CF}.
Context {E : Type} `{RowEncoding E} {St : Type} `{Store St}.
Context {O : Type} `{Once Z error O} {N : Type} `{Network N}.
Context (defaultChunksize : nat) (frame_Hash : row → outcome Z).
Context (SReader : Slice → Z → list (anyReader row) → outcome (anyReader row)).
Context (invoke : Z → list invArg → outcome Slice).
Context (iter_addrs : list string → list string) (shuffle : list (anyReader row) → list (anyReader row)).

#[local] Abbreviation worker := (Worker.worker (C := C) (St := St) (O := O)).

(** * Compile *)

(** An invocation that was compiled, or failed to, is not compiled again. *)
Lemma Worker_Compile_idempotent `{!OnceLaws Z error O} fuel inv (w w1 w' : worker) err :
  once_get (wk_compiles w) (ei_Index inv) = None →
  compile_once frame_Hash SReader invoke fuel inv w = Ret (w1, err) →
  Worker_Compile frame_Hash SReader invoke fuel inv w = Ret (w', err) →
  ∀ fuel', Worker_Compile frame_Hash SReader invoke fuel' inv w' = Ret (w', err).
Proof.
  intros Hn Hc. unfold Worker_Compile. rewrite Hn, Hc. intros [= <-] fuel'. simpl. by rewrite once_get_put.
Qed.

Context {CL : CombinerLaws C} {FL : CombiningFrameLaws C CF} {RL : RowEncodingLaws E} {SL : StoreLaws St}.

(** * Runs *)

(** The steps of a run that has the worker for itself. *)
Lemma combine_alone_spec (ktyp : TaskName → Typ) kfun knum kpart others jobs s A g :
  jobs_ok ktyp kfun knum kpart jobs → 0 < defaultChunksize → inv defaultChunksize ktyp kfun knum kpart others jobs s A [g] →
  ∃ s' A' g' err, (∃ n0 f0, ∀ n fuel, n0 ≤ n → f0 ≤ fuel → combine_alone (CF := CF) (E := E) defaultChunksize n fuel (g_th g) s = Ret (s', err)) ∧
    inv defaultChunksize ktyp kfun knum kpart others jobs s' A' [g'] ∧ g_th g' = tDone err ∧
    (∀ t p, t ∉ job_key <$> jobs → A' !! (t, p) = A !! (t, p)).
Proof.
  intros JOBS CHUNK. remember (rank knum jobs s [g]) as m eqn:Hm. revert s A g Hm.
  induction (lt_wf m) as [m _ IH]. intros s A g Hm Hinv.
  destruct (decide (is_done (g_th g) = true)) as [Hd|Hnd].
  { destruct (g_th g) as [| | | | |err] eqn:Hth; try done. exists s, A, g, err. split_and!; [|done|done|done].
    exists 1, 0. intros [|n] fuel Hn _; [lia|]. done. }
  assert (∀ n fuel, combine_alone (CF := CF) (E := E) defaultChunksize (S n) fuel (g_th g) s =
    res ← thread_step defaultChunksize fuel true (g_th g) s;
    match res, g_th g with
    | Some (th, s), _ => combine_alone defaultChunksize n fuel th s
    | None, tCommit key _ =>
        match writer_done key s with
        | Some s => combine_alone defaultChunksize n fuel (g_th g) s
        | None =>
            res ← writer_step defaultChunksize fuel key 0 false s;
            match res with Some s => combine_alone defaultChunksize n fuel (g_th g) s | None => NoFuel end
        end
    | None, _ => NoFuel
    end) as Heq by (intros n fuel; cbn [combine_alone]; by destruct (g_th g)).
  destruct (thread_advances defaultChunksize ktyp kfun knum kpart others jobs JOBS CHUNK s A [g] 0 g true Hinv eq_refl)
    as [[e He]|[(key & Hc & Hst)|(g1 & s1 & [f1 Hs1] & Hinv1 & Hr1)]].
  - by rewrite He in Hnd.
  - assert (∀ fuel, thread_step defaultChunksize fuel true (g_th g) s = Ret None) as Hts.
    { intros fuel. rewrite Hc. simpl. unfold commit_step. by rewrite Hst. }
    destruct (inv_keys _ _ _ _ _ _ _ _ _ _ Hinv key) as [_ K1 _ _ _|cs K1 _ _ _ _ _ _|todo _ _ _ K4 _ _ _|K1 _ _ _ _|K1 _ _];
      [by rewrite K1 in Hst|rewrite K1 in Hst; unfold combinerIdle, combinerWriting in Hst; lia| |by rewrite K1 in Hst|].
    2: { destruct (K1 g); [by left|]. by eapply (commit_key defaultChunksize ktyp kfun knum kpart others jobs s A [g] 0). }
    destruct todo as [|x todo].
    + destruct (written_advances defaultChunksize ktyp kfun knum kpart others jobs CHUNK s A [g] key Hinv K4 Hst) as (s2 & Hw & Hinv2 & Hr2).
      destruct (IH _ ltac:(rewrite Hm; exact Hr2) s2 A g eq_refl Hinv2) as (s' & A' & g' & err & (n0 & f0 & Hrun) & HX).
      exists s', A', g', err. split; [|done]. exists (S n0), f0. intros [|n] fuel Hn Hf; [lia|]. rewrite Heq, Hts. cbn [mbind outcome_bind].
      rewrite Hc at 1. rewrite Hw. apply Hrun; lia.
    + destruct (writer_advances defaultChunksize ktyp kfun knum kpart others jobs JOBS CHUNK s A [g] key _ 0 false Hinv K4 Hst) as (s2 & A2 & [f2 Hw] & Hinv2 & Hr2 & Hs2);
        [simpl; lia|].
      destruct (IH _ ltac:(rewrite Hm; exact Hr2) s2 A2 g eq_refl Hinv2) as (s' & A' & g' & err & (n0 & f0 & Hrun) & Hinv' & Hth' & Hsame).
      exists s', A', g', err. split_and!; [|done|done|].
      * exists (S n0), (f0 `max` f2). intros [|n] fuel Hn Hf; [lia|]. rewrite Heq, Hts. cbn [mbind outcome_bind].
        rewrite Hc at 1. unfold writer_done. rewrite K4. rewrite Hw by lia. cbn [mbind outcome_bind]. apply Hrun; lia.
      * intros t p Ht. by rewrite Hsame, Hs2.
  - destruct (IH _ ltac:(rewrite Hm; exact Hr1) s1 A g1 eq_refl Hinv1) as (s' & A' & g' & err & (n0 & f0 & Hrun) & HX).
    exists s', A', g', err. split; [|done]. exists (S n0), (f0 `max` f1). intros [|n] fuel Hn Hf; [lia|].
    rewrite Heq, Hs1 by lia. cbn [mbind outcome_bind]. apply Hrun; lia.
Qed.

(** The partitioner of a task assigns [kp] to the rows of [l], whatever the number of
    partitions. *)
Definition partitions (T : cTask) (kp : row → nat) (l : list row) : Prop :=
  (0 <= ct_NumPartition T)%Z ∧ (∀ x, x ∈ l → kp x < Z.to_nat (ct_NumPartition T)) ∧
  ∃ part, ct_Partitioner T = Some part ∧
    ∀ rows, rows ⊆ l → part rows (ct_NumPartition T) = Ret (Z.of_nat ∘ kp <$> rows).

(** What the store holds of a task with a combiner of its own. *)
Definition holds_combined (T : cTask) (f : userFunc) (kp : row → nat) (A : stored) (l : list row) : Prop :=
  ∀ p, p < Z.to_nat (ct_NumPartition T) → ∃ data L, A !! (ct_Name T, p) = Some (data, Z.of_nat (length L)) ∧
    Streams_as clean (decoding (ct_Type T) data) L ∧ reduces (ct_Type T) f (filter (λ x, kp x = p) l) L.

(** The run of a task that has a combiner of its own. *)
Lemma combine_own_spec T f kp out l (s : shared (C := C)) A :
  0 < defaultChunksize → ct_Combiner T = Some f → ct_CombineKey T = "" → partitions T kp l →
  combinable (ct_Type T) f l → (∀ l' L, l' ⊆+ l → reduces (ct_Type T) f l' L → encodable (ct_Type T) L) →
  (∀ k, (0 <= k <= Z.of_nat (length l))%Z → storable (ct_Name T) k) → Streams out l → repr (sh_store s) A →
  state_of s (ct_Name T) = combinerNone → (∀ key, sh_writers s !! key = None) → (∀ p, A !! (ct_Name T, p) = None) →
  ∃ s' A', (λ fuel, combine_alone (CF := CF) (E := E) defaultChunksize fuel fuel (tStart T out) s) ⇓ (s', None) ∧
    repr (sh_store s') A' ∧ holds_combined T f kp A' l ∧
    (∀ p, Z.to_nat (ct_NumPartition T) ≤ p → A' !! (ct_Name T, p) = None) ∧
    (∀ t p, t ≠ ct_Name T → A' !! (t, p) = A !! (t, p)) ∧
    (∀ key, key ≠ ct_Name T → state_of s' key = state_of s key) ∧ (∀ key, sh_writers s' !! key = None).
Proof.
  intros CHUNK HC HK (Hn0 & Hkp & part & Hpart & Has) Hcb Henc Hsto Hout Hr Hst Hwr HA.
  set (n := Z.to_nat (ct_NumPartition T)) in *.
  assert (combineKey T = ct_Name T) as Hkey by (unfold combineKey; by rewrite HK).
  assert (∀ T' l', jRun T' l' ∈ [jRun T l] → T' = T ∧ l' = l) as Hone.
  { intros T' l' E0%list_elem_of_singleton. by injection E0. }
  assert (rows_for (ct_Name T) [jRun T l] = l) as Hrows.
  { unfold rows_for. simpl. rewrite Hkey, bool_decide_true by done. apply app_nil_r. }
  assert (jobs_ok (λ _, ct_Type T) (λ _, f) (λ _, n) (λ _, kp) [jRun T l]) as JOBS.
  { split.
    - intros T' l' [-> ->]%Hone. split_and!; [done|done|unfold n; lia|done|]. by exists part.
    - intros T' l' [-> ->]%Hone. by rewrite Hkey, Hrows.
    - intros T' l' l0 L [-> ->]%Hone. rewrite Hkey, Hrows. apply Henc.
    - intros T' l' k [-> ->]%Hone. rewrite Hkey, Hrows. apply Hsto.
    - intros [|i] [|j] T' l' [= -> ->] _; simpl; done. }
  destruct (inv_start defaultChunksize (λ _, ct_Type T) (λ _, f) (λ _, n) (λ _, kp) (state_of s) [jRun T l] [tStart T out] s A)
    as (gs & Hgs & Hinv).
  { constructor; [done|constructor]. }
  { split_and!; [done| |done|]; [|intros T' l' p [-> ->]%Hone; by rewrite Hkey].
    intros key E0%list_elem_of_singleton. simpl in E0. by rewrite E0, Hkey. }
  { done. }
  destruct gs as [|g [|g2 gs]]; [done| |done]. injection Hgs as Hg.
  destruct (combine_alone_spec (λ _, ct_Type T) (λ _, f) (λ _, n) (λ _, kp) (state_of s) [jRun T l] s A g JOBS CHUNK Hinv)
    as (s' & A' & g' & err & (n0 & f0 & Hrun) & Hinv' & Hth & Hsame).
  assert (g_job g' = jRun T l) as Hj.
  { pose proof (inv_jobs _ _ _ _ _ _ _ _ _ _ Hinv') as E0. by injection E0. }
  assert (∀ key, key ≠ ct_Name T → key ∉ job_key <$> [jRun T l]) as Hother.
  { intros key Hne E0%list_elem_of_singleton. simpl in E0. by rewrite Hkey in E0. }
  pose proof (inv_threads _ _ _ _ _ _ _ _ _ _ Hinv' g' ltac:(by left)) as Hok. unfold thread_ok, run_ok in Hok. rewrite Hj, Hth in Hok.
  destruct err as [e|]; [by destruct Hok|].
  pose proof (inv_private _ _ _ _ _ _ _ _ _ _ Hinv' g' T l ltac:(by left) Hj HK Hth) as Hcom. rewrite Hkey in Hcom.
  assert (sh_writers s' !! ct_Name T = None ∧ ∀ p, p < n →
    holds_reduction (λ _, ct_Type T) (λ _, f) A' (ct_Name T) p (contrib (ct_Name T) p [g'])) as [Hwr' Hred].
  { destruct (inv_keys _ _ _ _ _ _ _ _ _ _ Hinv' (ct_Name T)) as [_ K1|cs K1|todo K1|K1 K2 K3 K4 K5|K1 _ _];
      [by rewrite K1 in Hcom|rewrite K1 in Hcom; unfold combinerIdle, combinerCommitted in Hcom; lia|by rewrite K1 in Hcom|done|].
    destruct (K1 g'); [by left|]. by rewrite Hj. }
  exists s', A'. split_and!.
  - exists (n0 `max` f0). intros fuel Hf. rewrite Hg. apply Hrun; lia.
  - apply Hinv'.
  - intros p Hp. destruct (Hred p Hp) as (data & L & HL & HsL & Hrd). exists data, L. split_and!; [done..|].
    unfold contrib, runs_for in Hrd. simpl in Hrd. rewrite Hj, Hkey, bool_decide_true, app_nil_r in Hrd by done.
    by rewrite (Hok p Hp) in Hrd.
  - intros p Hp. rewrite <-Hkey. apply (inv_range _ _ _ _ _ _ _ _ _ _ Hinv' T l); [by left|done].
  - intros t p Ht. apply Hsame. by apply Hother.
  - intros key Hne. eapply other_state; [exact Hinv'|by apply Hother].
  - intros key. destruct (decide (key = ct_Name T)) as [->|Hne]; [done|].
    destruct (sh_writers s' !! key) eqn:E0; [|done]. exfalso.
    destruct (inv_keys _ _ _ _ _ _ _ _ _ _ Hinv' key) as [(x & Hx & Hxk) _ K2|cs _ K2|todo _ _ (x & Hx & Hr0 & _)|_ _ K2|_ _ K2]; try congruence.
    apply list_elem_of_singleton in Hx as ->. unfold runs_for in Hr0. rewrite Hj, Hkey in Hr0. by apply bool_decide_eq_true in Hr0.
Qed.

End spec.
