(* ===== verification/WorkerRun.v ===== *)
(** Running the tasks of a compiled graph on a worker (src/exec/bigmachine.go): a run
    whose inputs can be opened, in the worker's store or on the machines of the request,
    leaves the task's output in the store, partitioned and encoded, or combined and
    committed, and the task in state TaskOk; one whose inputs cannot be opened leaves
    an error that is not fatal.

    The output of each task is given up to the order of its rows: readers are
    shuffled. *)
From S2P Require Import Prelude Types SliceIO Retry Slices Readers Task Compile CompileGraph Store Local LocalSpec LocalRun WorkerOut WorkerCombine WorkerCombineSpec Worker WorkerSpec.

Section run.
Context {C : Type} `{CombinerOps C} {CF : Type} `{CombiningFrameOps CF}.
Context {E : Type} `{RowEncoding E} {St : Type} `{Store St}.
Context {O : Type} `{Once Z error O} {N : Type} `{Network N}.
Context (defaultChunksize : nat) (CHUNK : 0 < defaultChunksize).
Context (iter_addrs : list string → list string) (shuffle : list (anyReader row) → list (anyReader row)).
Context (SHUFFLE : ∀ q, shuffle q ≡ₚ q).
Context {CL : CombinerLaws C} {FL : CombiningFrameLaws C CF} {RL : RowEncodingLaws E} {SL : StoreLaws St}.

#[local] Abbreviation worker := (Worker.worker (C := C) (St := St) (O := O)).
#[local] Abbreviation Run := (Worker_Run (CF := CF) (E := E) defaultChunksize iter_addrs shuffle).
#[local] Abbreviation inputs := (input_readers (C := C) (E := E) (O := O) iter_addrs shuffle).

(** * The graph *)

(** The tasks of an invocation, by number and by name; the rows that each computes, and
    the partition of each row. *)
Context (tasks : gmap nat cTask) (inv_Index : Z) (named : gmap TaskName nat).
Context (out : nat → list row) (kp : nat → row → nat).

(** What partition [p] of the output of [t] can hold. *)
Definition part_rows (t : nat) (T : cTask) (p : nat) (l : list row) : Prop :=
  match ct_Combiner T with
  | None => l ≡ₚ filter (λ x, kp t x = p) (out t)
  | Some f => reduces (ct_Type T) f (filter (λ x, kp t x = p) (out t)) l
  end.

(** The tasks of a dependency. *)
Definition members (d : TaskDep) : list nat :=
  match tasks !! dep_Head d with
  | Some H => if ct_Group H is [] then [dep_Head d] else ct_Group H
  | None => []
  end.

Definition member_rows (p : nat) (u : nat) (l : list row) : Prop := ∃ U, tasks !! u = Some U ∧ part_rows u U p l.

(** What the readers of a dependency can deliver: partitions of its tasks in any
    order, one after the other unless they are expanded. *)
Definition dep_rows (d : TaskDep) (ls : list (list row)) : Prop :=
  ∃ ls0 ls1, Forall2 (member_rows (Z.to_nat (dep_Partition d))) (members d) ls0 ∧ ls0 ≡ₚ ls1 ∧
    ls = if dep_Expand d then ls1 else [concat ls1].

(** The head of a group is its first task; partitions that are read exist; keys of
    machine combiners are not used. *)
Definition dep_ok (d : TaskDep) : Prop :=
  dep_CombineKey d = "" ∧ (0 <= dep_Partition d)%Z ∧
  (∃ H, tasks !! dep_Head d = Some H ∧ (ct_Group H = [] ∨ ∃ g, ct_Group H = dep_Head d :: g)) ∧
  ∀ u, u ∈ members d → ∃ U, tasks !! u = Some U ∧ (dep_Partition d < ct_NumPartition U)%Z.

(** The output can be partitioned, combined, encoded and stored. *)
Definition output_ok (t : nat) (T : cTask) : Prop :=
  ct_CombineKey T = "" ∧
  (∀ k, (0 <= k <= Z.of_nat (length (out t)))%Z → storable (ct_Name T) k) ∧
  match ct_Combiner T with
  | None => (NumOut (ct_Type T) ≠ 0)%Z ∧ assigns T (kp t) (out t) ∧ encodable (ct_Type T) (out t) ∧
      ((1 < ct_NumPartition T)%Z → 0 < psize defaultChunksize)
  | Some f => partitions T (kp t) (out t) ∧ combinable (ct_Type T) f (out t) ∧
      ∀ l L, l ⊆+ out t → reduces (ct_Type T) f l L → encodable (ct_Type T) L
  end.

Record task_ok (t : nat) (T : cTask) : Prop := mkTaskOk {
  tk_name : named !! ct_Name T = Some t;
  tk_inv : tn_InvIndex (ct_Name T) = inv_Index;
  tk_deps : ∀ d, d ∈ ct_Deps T → dep_ok d;
  tk_output : output_ok t T;
  (** Do computes the rows of the task, whatever the order of its inputs. *)
  tk_Do : ∃ f, ct_Do T = Some f ∧ ∀ ins lss, Forall2 dep_rows (ct_Deps T) lss → Forall2 Streams ins (concat lss) →
    ∃ o l, f ins = Ret o ∧ Streams o l ∧ l ≡ₚ out t;
}.

Context (GRAPH : ∀ t T, tasks !! t = Some T → task_ok t T).

(** * The state of a worker *)

(** The store holds the output of a task. *)
Definition holds (A : stored) (t : nat) (T : cTask) : Prop :=
  (∀ p, p < Z.to_nat (ct_NumPartition T) → ∃ data n l, A !! (ct_Name T, p) = Some (data, n) ∧
     Streams_as clean (decoding (ct_Type T) data) l ∧ part_rows t T p l) ∧
  ∀ p, Z.to_nat (ct_NumPartition T) ≤ p → A !! (ct_Name T, p) = None.

Definition idle (R : Task) : Prop := t_state R = TaskInit ∨ t_state R = TaskLost ∨ t_state R = TaskErr.

(** A task is done and its output is there, or it is not done and nothing is there. *)
Definition state_ok (s : shared (C := C) (St := St)) (A : stored) (t : nat) (T : cTask) (R : Task) : Prop :=
  (t_state R = TaskOk ∧ holds A t T) ∨
  (t_state R ≠ TaskOk ∧ (∀ p, A !! (ct_Name T, p) = None) ∧ (is_Some (ct_Combiner T) → state_of s (ct_Name T) = combinerNone)).

(** A worker on which the invocation has been compiled. *)
Record worker_ok (w : worker) (A : stored) : Prop := mkWorkerOk {
  wo_repr : repr (store_of w) A;
  wo_named : wk_tasks w !! inv_Index = Some named;
  wo_graph : tasks ⊆ wk_graph w;
  wo_writers : ∀ key, sh_writers (wk_shared w) !! key = None;
  wo_tasks : ∀ t T, tasks !! t = Some T → ∃ R, w_tasks (wk_world w) !! t = Some R ∧
    t_Deps R = ct_Deps T ∧ t_Group R = ct_Group T ∧ state_ok (wk_shared w) A t T R;
}.

(** No task is running. *)
Definition worker_idle (w : worker) : Prop := ∀ t R, w_tasks (wk_world w) !! t = Some R → t_state R = TaskOk ∨ idle R.

Definition task_done (w : worker) (t : nat) : Prop := ∃ R, w_tasks (wk_world w) !! t = Some R ∧ t_state R = TaskOk.

Lemma wo_agree w A : worker_ok w A → tasks_agree tasks (wk_world w).
Proof. intros Hw t T HT. destruct (wo_tasks _ _ Hw t T HT) as (R & HR & Hd & Hg & _). by exists R. Qed.

Lemma name_inj t T u U : tasks !! t = Some T → tasks !! u = Some U → ct_Name T = ct_Name U → t = u.
Proof.
  intros HT HU Hn. pose proof (tk_name _ _ (GRAPH t T HT)) as H1'. pose proof (tk_name _ _ (GRAPH u U HU)) as H2'.
  rewrite Hn, H2' in H1'. by injection H1'.
Qed.

(** The tasks of a dependency, as the worker computes them. *)
Lemma dep_members w d :
  tasks_agree tasks w → dep_ok d →
  NumTask w d = Ret (length (members d)) ∧ dep_tasks w d 0 (length (members d)) = Ret (members d).
Proof.
  intros Hw (_ & _ & (T & HT & HG) & _). unfold members. rewrite HT. destruct d as [h p e k]. simpl in *.
  destruct HG as [HG|[g HG]]; rewrite HG.
  - by eapply dep_tasks_single.
  - by eapply dep_tasks_group.
Qed.

(** * Inputs *)

(** What other machines serve is what the tasks computed. *)
Definition net_ok (net : N) : Prop := ∀ addr u U p info, tasks !! u = Some U → nw_Dial net addr = None →
  nw_Stat net addr (ct_Name U) (Z.of_nat p) = inl info →
  ∃ l, Streams_as clean (nw_Reader net addr (ct_Type U) (ct_Name U) (Z.of_nat p)) l ∧ part_rows u U p l.

(** Partition [p] of [u] is on the machine that the request gives for it. *)
Definition served (net : N) (req : taskRunRequest) (p : nat) (u k : nat) : Prop :=
  ∃ U addr info, tasks !! u = Some U ∧ req_location req k = Ret addr ∧ nw_Dial net addr = None ∧
    nw_Stat net addr (ct_Name U) (Z.of_nat p) = inl info.

(** Opening succeeds with [Q], or fails with an error that is not fatal, and then [P]
    does not hold. *)
Definition opens {X} (P : Prop) (o : outcome (X + runError)) (Q : X → Prop) : Prop :=
  (∃ x, o = Ret (inl x) ∧ Q x) ∨ (∃ e, o = Ret (inr (plainErr e)) ∧ ¬ P).

Lemma task_reader_opens net w A req u U p k addr :
  worker_ok w A → net_ok net → tasks !! u = Some U → req_location req k = Ret addr →
  opens (served net req p u k) (task_reader net (store_of w) req (ct_Type U) (ct_Name U) (Z.of_nat p) k)
    (λ r, ∃ l, Streams_as clean r l ∧ member_rows p u l).
Proof.
  intros Hw Hnet HU Hloc. unfold task_reader. rewrite Nat2Z.id. destruct (A !! (ct_Name U, p)) as [[data n]|] eqn:HAp.
  - rewrite (stat_ok _ A _ _ _ _ (wo_repr _ _ Hw) HAp), (open_ok _ A _ _ _ _ 0 (wo_repr _ _ Hw) HAp) by lia. rewrite drop_0.
    left. eexists. split; [done|].
    destruct (wo_tasks _ _ Hw u U HU) as (R & _ & _ & _ & [[_ [Hh Hr]]|(_ & Hno & _)]); [|by rewrite Hno in HAp].
    destruct (decide (p < Z.to_nat (ct_NumPartition U))) as [Hp|Hp]; [|rewrite Hr in HAp by lia; done].
    destruct (Hh p Hp) as (data' & n' & l & HA' & Hl & Hpr). rewrite HAp in HA'. injection HA' as <- <-.
    exists l. split; [done|]. by exists U.
  - assert (storable (ct_Name U) 0) as Hst.
    { destruct (tk_output _ _ (GRAPH u U HU)) as (_ & Hst & _). apply Hst. lia. }
    destruct (missing _ A (ct_Name U) p 0 0 (wo_repr _ _ Hw) Hst HAp) as [_ (e & -> & _)]. rewrite Hloc. cbn [mbind outcome_bind].
    destruct (nw_Dial net addr) as [e'|] eqn:Hd.
    { right. exists e'. split; [done|]. intros (U' & addr' & info & _ & Ha & Hd' & _). rewrite Hloc in Ha. congruence. }
    destruct (nw_Stat net addr (ct_Name U) (Z.of_nat p)) as [info|e'] eqn:Hs.
    + left. eexists. split; [done|]. destruct (Hnet addr u U p info HU Hd Hs) as (l & Hl & Hpr). exists l. split; [done|]. by exists U.
    + right. exists e'. split; [done|]. intros (U' & addr' & info & HU' & Ha & _ & Hs'). rewrite Hloc in Ha. congruence.
Qed.

Lemma task_readers_opens net w A req p us k :
  worker_ok w A → net_ok net → (∀ u, u ∈ us → is_Some (tasks !! u)) →
  (∀ j, j < length us → ∃ addr, req_location req (k + j) = Ret addr) →
  opens (∀ j u, us !! j = Some u → served net req p u (k + j)) (task_readers net (store_of w) req (wk_graph w) (Z.of_nat p) k us)
    (λ q, ∃ ls, Forall2 (Streams_as clean) q ls ∧ Forall2 (member_rows p) us ls).
Proof.
  intros Hw Hnet. revert k. induction us as [|u us IH]; intros k Hus Hloc.
  { left. exists []. split; [done|]. exists []. by split. }
  destruct (Hus u (list_elem_of_here _ _)) as [U HU]. destruct (Hloc 0) as [addr Ha]; [simpl; lia|].
  rewrite Nat.add_0_r in Ha. cbn [task_readers]. unfold deref.
  rewrite (lookup_weaken _ _ _ _ HU (wo_graph _ _ Hw)). cbn [mbind outcome_bind].
  destruct (task_reader_opens net w A req u U p k addr Hw Hnet HU Ha) as [(r & -> & l & Hl & Hm)|(e & -> & Hn)]; cbn [mbind outcome_bind].
  2: { right. exists e. split; [done|]. intros Hall. apply Hn. specialize (Hall 0 u eq_refl). by rewrite Nat.add_0_r in Hall. }
  destruct (IH (S k)) as [(q & -> & ls & HF & Hms)|(e & -> & Hn)]; cbn [mbind outcome_bind].
  - intros u' Hu'. apply Hus. by right.
  - intros j Hj. destruct (Hloc (S j)) as [addr' Ha']; [simpl; lia|]. exists addr'. by rewrite Nat.add_succ_comm.
  - left. eexists. split; [done|]. exists (l :: ls). split; by constructor.
  - right. exists e. split; [done|]. intros Hall. apply Hn. intros j u' Hj. rewrite Nat.add_succ_comm. by apply (Hall (S j)).
Qed.

Lemma shuffled_streams q ls :
  Forall2 (Streams_as clean) q ls → ∃ ls', ls ≡ₚ ls' ∧ Forall2 (Streams_as clean) (shuffle q) ls'.
Proof.
  intros HF. apply (Permutation_Forall2 (l1 := q)); [|done]. symmetry. apply SHUFFLE.
Qed.

(** The number of the first task of each dependency among all tasks. *)
Fixpoint served_from (net : N) (req : taskRunRequest) (k : nat) (deps : list TaskDep) : Prop :=
  match deps with
  | [] => True
  | d :: deps => (∀ j u, members d !! j = Some u → served net req (Z.to_nat (dep_Partition d)) u (k + j)) ∧
      served_from net req (k + length (members d)) deps
  end.

Definition num_members (deps : list TaskDep) : nat := sum_list_with (λ d, length (members d)) deps.

Lemma input_readers_opens net w A req k deps :
  worker_ok w A → net_ok net → (∀ d, d ∈ deps → dep_ok d) →
  (∀ j, j < num_members deps → ∃ addr, req_location req (k + j) = Ret addr) →
  opens (served_from net req k deps) (inputs net w req k deps)
    (λ ins, ∃ lss, Forall2 dep_rows deps lss ∧ Forall2 Streams ins (concat lss)).
Proof.
  intros Hw Hnet. revert k. induction deps as [|d deps IH]; intros k Hok Hloc.
  { left. exists []. split; [done|]. exists []. by split. }
  pose proof (Hok d (list_elem_of_here _ _)) as Hd. pose proof Hd as (Hkey & Hp0 & _ & Hmem).
  destruct (dep_members (wk_world w) d (wo_agree _ _ Hw) Hd) as [Hn Hus].
  cbn [input_readers]. unfold dep_readers. rewrite Hn. cbn [mbind outcome_bind]. rewrite Hkey. cbn [negb bool_decide decide_rel].
  rewrite bool_decide_true by done. cbn [negb]. rewrite Hus. cbn [mbind outcome_bind].
  rewrite <-(Z2Nat.id (dep_Partition d) Hp0) at 1.
  unfold num_members in Hloc. cbn [sum_list_with] in Hloc.
  destruct (task_readers_opens net w A req (Z.to_nat (dep_Partition d)) (members d) k Hw Hnet) as [(q & -> & ls & HF & Hms)|(e & -> & Hno)].
  { intros u Hu. destruct (Hmem u Hu) as (U & HU & _). by exists U. }
  { intros j Hj. apply Hloc. lia. }
  2: { cbn [mbind outcome_bind]. right. exists e. split; [done|]. by intros [Hs _]. }
  cbn [mbind outcome_bind].
  destruct (IH (k + length (members d))) as [(ins & -> & lss & Hdr & Hins)|(e & -> & Hno)]; cbn [mbind outcome_bind].
  - intros d' Hd'. apply Hok. by right.
  - intros j Hj. rewrite <-Nat.add_assoc. apply Hloc. unfold num_members in Hj. lia.
  - left. eexists. split; [done|].
    destruct (shuffled_streams q ls HF) as (ls' & Hp & HF').
    exists ((if dep_Expand d then ls' else [concat ls']) :: lss). split.
    + constructor; [|done]. by exists ls, ls'.
    + cbn [concat]. apply Forall2_app; [|done]. destruct (dep_Expand d).
      * eapply Forall2_impl; [|exact HF']. intros r l. apply Streams_as_Streams.
      * constructor; [|constructor]. eapply Streams_as_Streams, pack_Streams_as. by apply MultiReader_spec.
  - right. exists e. split; [done|]. by intros [_ Hs].
Qed.

(** * The output *)

Lemma encodable_perm typ (l l' : list row) : l ≡ₚ l' → encodable typ l → encodable typ l'.
Proof.
  assert (∀ x l, encodable typ (x :: l) ↔ encodable typ [x] ∧ encodable typ l) as Hc by (intros x k; apply (encodable_app typ [x] k)).
  induction 1 as [|x l l' _ IH|x y l|l l' l'' _ IH1 _ IH2]; [done| | |by auto].
  - intros [Hx Hl]%Hc. apply Hc. auto.
  - intros [Hy [Hx Hl]%Hc]%Hc. apply Hc. split; [done|]. by apply Hc.
Qed.

Lemma perm_subset {A} (l l' : list A) : l ≡ₚ l' → l ⊆ l'.
Proof. intros Hp x. by rewrite Hp. Qed.

(** What the body of a run leaves, when its inputs have been opened. *)
Lemma body_output net req w A t T R ins lss :
  worker_ok w A → tasks !! t = Some T → w_tasks (wk_world w) !! t = Some R → t_state R ≠ TaskOk →
  inputs net w req 0 (ct_Deps T) = Ret (inl ins) → Forall2 dep_rows (ct_Deps T) lss → Forall2 Streams ins (concat lss) →
  ∃ s A', (λ fuel, run_body (CF := CF) (E := E) defaultChunksize iter_addrs shuffle fuel net req T w) ⇓ (s, None) ∧
    repr (sh_store s) A' ∧ holds A' t T ∧ (∀ name p, name ≠ ct_Name T → A' !! (name, p) = A !! (name, p)) ∧
    (∀ key, key ≠ ct_Name T → state_of s key = state_of (wk_shared w) key) ∧ (∀ key, sh_writers s !! key = None).
Proof.
  intros Hw HT HR Hst Hin Hdr Hins. destruct (GRAPH t T HT) as [_ _ _ (HK & Hsto & Hout) (f & Hf & Hdo)].
  destruct (Hdo ins lss Hdr Hins) as (o & l & Hfo & Hl & Hp). pose proof (Permutation_length Hp) as Hlen.
  destruct (wo_tasks _ _ Hw t T HT) as (R' & HR' & _ & _ & [[Hok _]|(_ & Hno & Hstate)]); [congruence|].
  destruct (ct_Combiner T) as [cf|] eqn:HC.
  - destruct Hout as ((Hn0 & Hkp & part & Hpart & Has) & Hcb & Henc).
    destruct (combine_own_spec (CF := CF) (E := E) defaultChunksize T cf (kp t) o l (wk_shared w) A)
      as (s & A' & Hrun & Hr & Hh & Hrange & Hsame & Hkeys & Hwr); try done.
    + split_and!; [done| |].
      * intros x Hx. apply Hkp. by rewrite <-Hp.
      * exists part. split; [done|]. intros rows Hrows. apply Has. by rewrite <-(perm_subset _ _ Hp).
    + eapply combinable_sub; [|exact Hcb]. by rewrite Hp.
    + intros l' L Hl'. apply Henc. by rewrite <-Hp.
    + by rewrite Hlen.
    + apply Hw.
    + apply Hstate. by eexists.
    + apply Hw.
    + exists s, A'. split_and!; [|done| |done|done|done].
      * destruct Hrun as [f0 Hrun]. exists f0. intros fuel Hfuel. unfold run_body. rewrite Hin. cbn [mbind outcome_bind].
        rewrite HC, Hf. cbn [mbind outcome_bind]. rewrite Hfo. cbn [mbind outcome_bind]. by apply Hrun.
      * split; [|done]. intros p Hpp. destruct (Hh p Hpp) as (data & L & HA & HL & Hred). exists data, (Z.of_nat (length L)), L.
        split_and!; [done..|]. unfold part_rows. rewrite HC. eapply reduces_perm; [|exact Hred]. by rewrite Hp.
  - destruct Hout as (HN & Has & Henc & Hps).
    destruct (write_output_spec (E := E) defaultChunksize T (kp t) (store_of w) A o l) as (st & A' & f0 & Hrun & Hr & Hh & Hsame); try done.
    + eapply (assigns_subset defaultChunksize CHUNK); [exact Has|]. by apply perm_subset.
    + eapply encodable_perm; [|exact Henc]. done.
    + apply Hw.
    + by rewrite Hlen.
    + eexists (mkShared st (sh_states (wk_shared w)) (sh_errors (wk_shared w)) (sh_combiners (wk_shared w)) (sh_writers (wk_shared w))), A'.
      split_and!; [|done| |intros; apply Hsame; by left|done|apply Hw].
      * exists f0. intros fuel Hfuel. unfold run_body. rewrite Hin. cbn [mbind outcome_bind].
        rewrite HC, Hf. cbn [mbind outcome_bind]. rewrite Hfo. by rewrite Hrun.
      * split; [|intros p Hpp; rewrite Hsame by (by right); apply Hno].
        intros p Hpp. destruct (Hh p Hpp) as (data & HA & HL). eexists data, _, _.
        split_and!; [done..|]. unfold part_rows. rewrite HC. by rewrite Hp.
Qed.

(** * The run of a task *)

(** A worker in which only the state of one task, and what is stored of it, have
    changed. *)
Definition changes (w w' : worker) (t : nat) (R' : Task) : Prop :=
  wk_tasks w' = wk_tasks w ∧ wk_graph w' = wk_graph w ∧ wk_compiles w' = wk_compiles w ∧
  w_tasks (wk_world w') = <[t := R']> (w_tasks (wk_world w)).

Lemma changes_ok w w' A A' t T R' :
  worker_ok w A → tasks !! t = Some T → changes w w' t R' → repr (store_of w') A' →
  (∀ name p, name ≠ ct_Name T → A' !! (name, p) = A !! (name, p)) →
  (∀ key, key ≠ ct_Name T → state_of (wk_shared w') key = state_of (wk_shared w) key) →
  (∀ key, sh_writers (wk_shared w') !! key = None) →
  t_Deps R' = ct_Deps T → t_Group R' = ct_Group T → state_ok (wk_shared w') A' t T R' → worker_ok w' A'.
Proof.
  intros Hw HT (H1' & H2' & _ & H3') Hr HA Hst Hwr Hd Hg Hok. split; [done|rewrite H1'; apply Hw|rewrite H2'; apply Hw|done|].
  intros u U HU. destruct (decide (u = t)) as [->|Hne].
  - rewrite HT in HU. injection HU as <-. exists R'. rewrite H3', lookup_insert_eq. by split_and!.
  - destruct (wo_tasks _ _ Hw u U HU) as (R & HR & HRd & HRg & Hso). exists R. rewrite H3', lookup_insert_ne by done.
    assert (ct_Name U ≠ ct_Name T) as Hname by (intros E0; destruct Hne; by eapply name_inj).
    split_and!; [done..|]. destruct Hso as [[? [Hh Hrg]]|(? & Hno & Hs)]; [left|right].
    + split; [done|]. split; [intros p Hp|intros p Hp]; rewrite (HA _ _ Hname); auto.
    + split_and!; [done|intros p; by rewrite HA|rewrite Hst by done; done].
Qed.

Lemma run_end_spec t err (w : worker) R :
  w_tasks (wk_world w) !! t = Some R →
  ∃ w' R', run_end t err w = Ret (w', RunDone (reviseSeverity <$> err)) ∧ wk_shared w' = wk_shared w ∧ changes w w' t R' ∧
    t_state R' = (if err is Some _ then TaskErr else TaskOk) ∧ t_Deps R' = t_Deps R ∧ t_Group R' = t_Group R.
Proof.
  intros HR. unfold run_end, Error, Set_, with_task. rewrite HR.
  destruct err as [e|]; cbn [mbind outcome_bind];
    eexists _, _; (split; [done|]); (split; [done|]); (split; [split_and!; [done..|]; exact (proj1 (Broadcast_spec t _ (wk_world w)))|]); done.
Qed.

Lemma reviseSeverity_plain e : is_fatal (reviseSeverity (plainErr e)) = false.
Proof. by destruct e as [|[] ?]. Qed.

Lemma changes_idle w w' t R' :
  worker_idle w → changes w w' t R' → t_state R' = TaskOk ∨ idle R' → worker_idle w'.
Proof.
  intros Hi (_ & _ & _ & Hc) HR u R. rewrite Hc. intros [[_ <-]|[_ Hu]]%lookup_insert_Some; [done|by eapply Hi].
Qed.

Lemma changes_trans w w1 w2 t R1 R2 : changes w w1 t R1 → changes w1 w2 t R2 → changes w w2 t R2.
Proof.
  intros (A1 & A2 & A3 & A4) (B1 & B2 & B3 & B4). split_and!; [congruence..|]. by rewrite B4, A4, insert_insert_eq.
Qed.

Lemma changes_done w w' t R' u : changes w w' t R' → u ≠ t → task_done w u → task_done w' u.
Proof. intros (_ & _ & _ & Hc) Hne (R & HR & Hok). exists R. by rewrite Hc, lookup_insert_ne. Qed.

(** The run of a task on a worker that has compiled the invocation ends: without an
    error, and then the task is done; or with an error that is not fatal, if not all
    inputs are served.  Tasks that were done stay done. *)
Lemma Worker_Run_ok net req w A t T :
  worker_ok w A → worker_idle w → net_ok net → tasks !! t = Some T →
  rq_Invocation req = inv_Index → rq_Name req = ct_Name T →
  (∀ j, j < num_members (ct_Deps T) → ∃ addr, req_location req j = Ret addr) →
  ∃ w' A' res, (λ fuel, Run fuel net req w) ⇓ (w', RunDone res) ∧ worker_ok w' A' ∧ worker_idle w' ∧
    wk_compiles w' = wk_compiles w ∧ (∀ u, task_done w u → task_done w' u) ∧ (res = None → task_done w' t) ∧
    (∀ e, res = Some e → is_fatal e = false ∧ ¬ served_from net req 0 (ct_Deps T)).
Proof.
  intros Hw Hidle Hnet HT HI HName Hloc.
  destruct (wo_tasks _ _ Hw t T HT) as (R & HR & HRd & HRg & Hso). pose proof (tk_name _ _ (GRAPH t T HT)) as Hnm.
  assert (∀ fuel, Run fuel net req w = match t_state R with
    | TaskLost | TaskErr | TaskInit =>
        let w := with_world w (upd_task t (with_state TaskRunning (t_err R) R) (wk_world w)) in
        '(s, err) ← run_recover w (run_body (CF := CF) (E := E) defaultChunksize iter_addrs shuffle fuel net req T w); run_end t err (with_shared w s)
    | TaskOk => match Err_ t (wk_world w) with
        | Ret (Some e) => run_end t (Some (plainErr e)) w
        | Ret None => run_end t None w
        | Panic msg => run_end t (Some (maybeTaskFatalErr (Err Fatal ("panic while evaluating slice: " +:+ msg)))) w
        | NoFuel => NoFuel
        end
    | _ => Ret (w, RunWaits) end) as Heq.
  { intros fuel. unfold Worker_Run. rewrite HI, (wo_named _ _ Hw), HName, Hnm. unfold deref. rewrite (lookup_weaken _ _ _ _ HT (wo_graph _ _ Hw)).
    cbn [mbind outcome_bind]. by rewrite HR. }
  destruct (Hidle t R HR) as [Hok|Hid].
  { destruct (run_end_spec t None w R HR) as (w' & R' & He & Hs & Hc & Hst & Hd & Hg).
    exists w', A, None. split_and!; [| | |by apply Hc| | |done].
    - exists 0. intros fuel _. rewrite Heq, Hok. unfold Err_, with_task. by rewrite HR, Hok.
    - apply (changes_ok w w' A A t T R'); unfold store_of; rewrite ?Hs; try done; [apply Hw|apply Hw|congruence|congruence|].
      destruct Hso as [[_ Hh]|[? _]]; [|done]. by left.
    - eapply changes_idle; [done..|]. by left.
    - intros u Hu. destruct (decide (u = t)) as [->|Hne]; [|by eapply changes_done].
      exists R'. destruct Hc as (_ & _ & _ & ->). by rewrite lookup_insert_eq.
    - intros _. exists R'. destruct Hc as (_ & _ & _ & ->). by rewrite lookup_insert_eq. }
  assert (t_state R ≠ TaskOk) as Hnok by (destruct Hid as [->|[->| ->]]; done).
  destruct Hso as [[? _]|(_ & Hno & Hstate)]; [done|].
  set (w1 := with_world w (upd_task t (with_state TaskRunning (t_err R) R) (wk_world w))).
  assert (changes w w1 t (with_state TaskRunning (t_err R) R)) as Hc1 by done.
  assert (w_tasks (wk_world w1) !! t = Some (with_state TaskRunning (t_err R) R)) as HR1 by (simpl; by rewrite lookup_insert_eq).
  assert (worker_ok w1 A) as Hw1.
  { eapply changes_ok; try done; [apply Hw|apply Hw|]. right. by split_and!. }
  assert (∀ s err, (λ fuel, run_body (CF := CF) (E := E) defaultChunksize iter_addrs shuffle fuel net req T w1) ⇓ (s, err) →
    ∃ w' R', (λ fuel, Run fuel net req w) ⇓ (w', RunDone (reviseSeverity <$> err)) ∧ wk_shared w' = s ∧ changes w w' t R' ∧
      t_state R' = (if err is Some _ then TaskErr else TaskOk) ∧ t_Deps R' = ct_Deps T ∧ t_Group R' = ct_Group T) as Hend.
  { intros s err [f0 Hb]. destruct (run_end_spec t err (with_shared w1 s) _ HR1) as (w' & R' & He & Hs & Hc & Hst & Hd & Hg).
    exists w', R'. split_and!; [|done|by eapply changes_trans|done|by rewrite Hd|by rewrite Hg].
    exists f0. intros fuel Hf. rewrite Heq. cbv zeta. fold w1.
    destruct Hid as [->|[->| ->]]; rewrite (Hb fuel Hf); cbn [run_recover mbind outcome_bind]; exact He. }
  destruct (input_readers_opens net w1 A req 0 (ct_Deps T) Hw1 Hnet) as [(ins & Hin & lss & Hdr & Hins)|(e & Hin & Hns)].
  { apply (tk_deps _ _ (GRAPH t T HT)). }
  { done. }
  - destruct (body_output net req w1 A t T _ ins lss Hw1 HT HR1) as (s & A' & Hbody & Hr & Hh & HA & Hkeys & Hwr); try done.
    destruct (Hend s None Hbody) as (w' & R' & Hrun & Hs & Hc & Hst & Hd & Hg). exists w', A', None.
    split_and!; [done| | |by apply Hc| | |done].
    + apply (changes_ok w w' A A' t T R'); unfold store_of; rewrite ?Hs; try done. by left.
    + eapply changes_idle; [done..|]. by left.
    + intros u Hu. destruct (decide (u = t)) as [->|Hne]; [|by eapply changes_done].
      destruct Hu as (R0 & HR0 & Hok0). congruence.
    + intros _. exists R'. destruct Hc as (_ & _ & _ & ->). by rewrite lookup_insert_eq.
  - destruct (Hend (wk_shared w1) (Some (plainErr e))) as (w' & R' & Hrun & Hs & Hc & Hst & Hd & Hg).
    { exists 0. intros fuel _. unfold run_body. by rewrite Hin. }
    exists w', A, (Some (reviseSeverity (plainErr e))). split_and!; [done| | |by apply Hc| |done|].
    + apply (changes_ok w w' A A t T R'); unfold store_of; rewrite ?Hs; try done; [apply Hw|apply Hw|].
      right. rewrite Hst. by split_and!.
    + eapply changes_idle; [done..|]. right. right. by right.
    + intros u Hu. destruct (decide (u = t)) as [->|Hne]; [|by eapply changes_done].
      destruct Hu as (R0 & HR0 & Hok0). congruence.
    + intros e' [= <-]. split; [apply reviseSeverity_plain|done].
Qed.

(** * Discarding a task *)

Lemma discard_parts_spec (store : St) A name p n :
  repr store A → (∀ q, p ≤ q < p + n → is_Some (A !! (name, q))) →
  ∃ A', repr (discard_parts store name p n) A' ∧ (∀ q, p ≤ q < p + n → A' !! (name, q) = None) ∧
    ∀ t q, t ≠ name ∨ q < p ∨ p + n ≤ q → A' !! (t, q) = A !! (t, q).
Proof.
  revert store A p. induction n as [|n IH]; intros store A p Hr Hq; [exists A; split_and!; [done|lia|done]|].
  destruct (Hq p) as [v Hv]; [lia|]. destruct (discard_ok store A name p v Hr Hv) as (st & Hd & Hr'). cbn [discard_parts]. rewrite Hd.
  destruct (IH st (delete (name, p) A) (S p) Hr') as (A' & HA' & Hno & Hsame).
  { intros q Hle. rewrite lookup_delete_ne by (intros [=]; lia). apply Hq. lia. }
  exists A'. split_and!; [done| |].
  - intros q Hle. destruct (decide (q = p)) as [->|Hne]; [|apply Hno; lia]. rewrite Hsame by (right; lia). apply lookup_delete_eq.
  - intros t q Hor. rewrite Hsame by (destruct Hor as [?|?]; [by left|right; lia]).
    apply lookup_delete_ne. intros [= -> ->]. destruct Hor as [?|?]; [done|lia].
Qed.

Lemma Worker_Discard_ok (w : worker) A t T :
  worker_ok w A → worker_idle w → tasks !! t = Some T →
  ∃ w' A', Worker_Discard (ct_Name T) w = Ret (w', None) ∧ worker_ok w' A' ∧ worker_idle w' ∧ wk_compiles w' = wk_compiles w ∧
    ∀ u, u ≠ t → task_done w u → task_done w' u.
Proof.
  intros Hw Hidle HT. destruct (wo_tasks _ _ Hw t T HT) as (R & HR & HRd & HRg & Hso). destruct (GRAPH t T HT) as [Hnm Hinv _ (HK & _) _].
  unfold Worker_Discard. rewrite Hinv, (wo_named _ _ Hw), Hnm. unfold deref. rewrite (lookup_weaken _ _ _ _ HT (wo_graph _ _ Hw)).
  cbn [mbind outcome_bind]. rewrite HR. cbn [mbind outcome_bind]. case_decide as Hok.
  2: { exists w, A. by split_and!. }
  destruct Hso as [[_ [Hh Hrg]]|[? _]]; [|done]. set (n := Z.to_nat (ct_NumPartition T)) in *.
  destruct (discard_parts_spec (sh_store (wk_shared w)) A (ct_Name T) 0 n (wo_repr _ _ Hw)) as (A' & Hr' & Hno & Hsame).
  { intros q [_ Hq]. destruct (Hh q Hq) as (data & m & l & -> & _). by eexists. }
  unfold Set_, with_task. cbn [w_tasks upd_task]. rewrite lookup_insert_eq. cbn [mbind outcome_bind]. rewrite HK, (bool_decide_true ("" = "")), andb_true_r by done.
  set (s1 := mkShared _ _ _ _ _). set (R1 := with_state TaskRunning (t_err R) R). set (R2 := with_state TaskLost (t_err R1) R1).
  set (s2 := if bool_decide (is_Some (ct_Combiner T)) then set_state (ct_Name T) combinerNone s1 else s1).
  assert (sh_store s2 = sh_store s1 ∧ sh_writers s2 = sh_writers s1 ∧
    (is_Some (ct_Combiner T) → state_of s2 (ct_Name T) = combinerNone) ∧
    ∀ key, key ≠ ct_Name T → state_of s2 key = state_of s1 key) as (Hs1 & Hs2 & Hs3 & Hs4).
  { unfold s2. case_bool_decide; [|done]. split_and!; [done|done| |].
    - intros _. unfold state_of, set_state. simpl. by rewrite lookup_insert_eq.
    - intros key Hne. unfold state_of, set_state. simpl. by rewrite lookup_insert_ne. }
  eexists _, A'. split; [done|].
  match goal with |- worker_ok ?w' _ ∧ _ => set (w2 := w') end.
  assert (changes w w2 t (with_waitc None R2)) as Hc.
  { split_and!; [done..|]. unfold w2. cbn [wk_world with_shared with_world]. rewrite (proj1 (Broadcast_spec t _ _)).
    cbn [w_tasks upd_task]. apply insert_insert_eq. }
  split_and!.
  - apply (changes_ok w w2 A A' t T (with_waitc None R2)); try done.
    + unfold store_of, w2. cbn [wk_shared with_shared]. by rewrite Hs1.
    + intros name p Hne. apply Hsame. by left.
    + intros key. unfold w2. cbn [wk_shared with_shared]. rewrite Hs2. apply Hw.
    + right. split_and!; [done| |exact Hs3]. intros p. destruct (decide (p < n)) as [Hp|Hp]; [apply Hno; lia|].
      rewrite Hsame by (right; lia). apply Hrg. lia.
  - eapply changes_idle; [done..|]. right. right. by left.
  - apply Hc.
  - intros u Hne. by eapply changes_done.
Qed.
End run.
