(* ===== verification/Machines.v ===== *)
(** The machine manager of the bigmachine executor (src/exec/slicemachine.go):
    machines and their health, the queue of scheduling requests, and the loop
    that serves requests, starts machines and keeps failing ones on probation.

    Machines are shared objects: a pointer is a position of the store, and the
    queues hold pointers.  One iteration of the loop of [Do] is a function of the
    communication that its select chose; the interleavings with the clients are
    the step relation of MachinesRun.v.  The polling of statistics and the
    status display are left out. *)
From S2P Require Import Prelude Heap SliceIO Task.

(** * Machines *)

Definition ProbationTimeout : Z := 30 * 10 ^ 9.
Definition maxStartMachines : Z := 10.

Inductive machineHealth := machineOk | machineProbation | machineLost.
#[export] Instance machineHealth_eq_dec : EqDecision machineHealth.
Proof. solve_decision. Defined.

(** What the manager uses of a machine; times are nanoseconds. *)
Record sliceMachine := mkSliceMachine {
  sm_maxTaskProcs : Z;
  sm_taskProcs : Z;
  sm_health : machineHealth;
  sm_lastFailure : Z;
  sm_index : Z;
  sm_lost : bool;
  sm_tasks : list nat;
}.

Definition with_taskProcs (n : Z) (m : sliceMachine) : sliceMachine :=
  mkSliceMachine (sm_maxTaskProcs m) n (sm_health m) (sm_lastFailure m) (sm_index m) (sm_lost m) (sm_tasks m).
Definition with_health (h : machineHealth) (m : sliceMachine) : sliceMachine :=
  mkSliceMachine (sm_maxTaskProcs m) (sm_taskProcs m) h (sm_lastFailure m) (sm_index m) (sm_lost m) (sm_tasks m).
Definition with_lastFailure (t : Z) (m : sliceMachine) : sliceMachine :=
  mkSliceMachine (sm_maxTaskProcs m) (sm_taskProcs m) (sm_health m) t (sm_index m) (sm_lost m) (sm_tasks m).
Definition with_index (i : Z) (m : sliceMachine) : sliceMachine :=
  mkSliceMachine (sm_maxTaskProcs m) (sm_taskProcs m) (sm_health m) (sm_lastFailure m) i (sm_lost m) (sm_tasks m).
Definition with_lost (lost : bool) (tasks : list nat) (m : sliceMachine) : sliceMachine :=
  mkSliceMachine (sm_maxTaskProcs m) (sm_taskProcs m) (sm_health m) (sm_lastFailure m) (sm_index m) lost tasks.

(** [&sliceMachine{maxTaskProcs: maxTaskProcs}]. *)
Definition new_machine (maxTaskProcs : Z) : sliceMachine :=
  mkSliceMachine maxTaskProcs 0 machineOk 0 0 false [].

Abbreviation store := (gmap nat sliceMachine).

Definition mach (st : store) (m : nat) : sliceMachine := default (new_machine 0) (st !! m).

(** Assigns a task; the tasks of a lost machine are lost. *)
Definition Assign (m task : nat) (st : store) (w : world) : outcome (store * world) :=
  if sm_lost (mach st m) then w ← Set_ task TaskLost w; Ret (st, w)
  else Ret (alter (λ s, with_lost (sm_lost s) (sm_tasks s ++ [task]) s) m st, w).

Fixpoint lose_all (tasks : list nat) (w : world) : outcome world :=
  match tasks with
  | [] => Ret w
  | task :: tasks => w ← Set_ task TaskLost w; lose_all tasks w
  end.

(** The end of [Go], when the machine has stopped. *)
Definition machine_stopped (m : nat) (st : store) (w : world) : outcome (store * world) :=
  w ← lose_all (sm_tasks (mach st m)) w;
  Ret (alter (with_lost true []) m st, w).

Definition Lost (st : store) (m : nat) : bool := sm_lost (mach st m).

(** * The queue of machines on probation *)

(** The queue and the machines it points to. *)
Record machineFailureQ := mkFailureQ { fq_store : store; fq_q : list nat }.

Definition fq_swap (i j : nat) (h : machineFailureQ) : machineFailureQ :=
  match fq_q h !! i, fq_q h !! j with
  | Some a, Some b =>
      mkFailureQ (alter (with_index (Z.of_nat j)) a (alter (with_index (Z.of_nat i)) b (fq_store h)))
        (list_swap i j (fq_q h))
  | _, _ => h
  end.

#[export] Instance machineFailureQ_heap : HeapInterface machineFailureQ nat := {|
  hlen h := length (fq_q h);
  hless h i j :=
    match fq_q h !! i, fq_q h !! j with
    | Some a, Some b => (sm_lastFailure (mach (fq_store h) a) <? sm_lastFailure (mach (fq_store h) b))%Z
    | _, _ => false
    end;
  hswap := fq_swap;
  hpush m h := mkFailureQ (alter (with_index (Z.of_nat (length (fq_q h)))) m (fq_store h)) (fq_q h ++ [m]);
  hpop h :=
    match list.last (fq_q h) with
    | Some m => Ret (m, mkFailureQ (alter (with_index (-1)) m (fq_store h)) (take (length (fq_q h) - 1) (fq_q h)))
    | None => Panic "index out of range"
    end;
|}.

(** * The queue of requests *)

(** [rq_machc] identifies the channel of a request.  Requests are values: the
    queue holds copies. *)
Record scheduleRequest := mkRequest {
  rq_priority : Z;
  rq_procs : Z;
  rq_machc : nat;
  rq_index : Z;
}.
Definition set_index (i : Z) (s : scheduleRequest) : scheduleRequest :=
  mkRequest (rq_priority s) (rq_procs s) (rq_machc s) i.

Definition request_less (a b : scheduleRequest) : bool :=
  if (rq_priority a =? rq_priority b)%Z then (rq_procs b <? rq_procs a)%Z
  else (rq_priority a <? rq_priority b)%Z.

Record scheduleRequestQ := mkRequestQ { sq_q : list scheduleRequest }.

Definition sq_swap (i j : nat) (h : scheduleRequestQ) : scheduleRequestQ :=
  let q := list_swap i j (sq_q h) in
  mkRequestQ (alter (set_index (Z.of_nat j)) j (alter (set_index (Z.of_nat i)) i q)).

#[export] Instance scheduleRequestQ_heap : HeapInterface scheduleRequestQ scheduleRequest := {|
  hlen h := length (sq_q h);
  hless h i j :=
    match sq_q h !! i, sq_q h !! j with Some a, Some b => request_less a b | _, _ => false end;
  hswap := sq_swap;
  hpush s h := mkRequestQ (sq_q h ++ [set_index (Z.of_nat (length (sq_q h))) s]);
  hpop h :=
    match list.last (sq_q h) with
    | Some s => Ret (set_index (-1) s, mkRequestQ (take (length (sq_q h) - 1) (sq_q h)))
    | None => Panic "index out of range"
    end;
|}.

(** [heap.Remove] and [heap.Fix] at the position that an element has recorded. *)
Definition heap_Remove {H X} `{HeapInterface H X} (h : H) (i : Z) : outcome (X * H) :=
  if (i <? 0)%Z then Panic "index out of range" else Remove h (Z.to_nat i).
Definition heap_Fix {H X} `{HeapInterface H X} (h : H) (i : Z) : outcome H :=
  if (i <? 0)%Z || (Z.of_nat (hlen h) <=? i)%Z then Panic "index out of range" else Ret (Fix h (Z.to_nat i)).

(** * The manager *)

(** The fields of the manager and the variables of [Do]; [mm_timer] is the time
    for which the probation timer is set. *)
Record machineManager := mkManager {
  mm_maxp : Z;
  mm_machprocs : Z;
  mm_schedQ : scheduleRequestQ;
  mm_need : Z;
  mm_pending : Z;
  mm_machines : list nat;
  mm_probation : list nat;
  mm_timer : option Z;
  mm_startFailures : Z;
  mm_store : store;
}.

(** [maxprocs] are the procs of a machine, [scaled] is
    [int(float64(maxprocs) * maxLoad)]. *)
Definition newMachineManager (maxprocs scaled maxp : Z) : machineManager :=
  let '(machprocs, maxp) :=
    if (scaled <? 1)%Z then (1%Z, ((maxp + maxprocs - 1) `quot` maxprocs)%Z) else (scaled, maxp) in
  mkManager maxp machprocs (mkRequestQ []) 0 0 [] [] None 0 ∅.

Definition with_queue (q : scheduleRequestQ) (need : Z) (mm : machineManager) : machineManager :=
  mkManager (mm_maxp mm) (mm_machprocs mm) q need (mm_pending mm) (mm_machines mm) (mm_probation mm)
    (mm_timer mm) (mm_startFailures mm) (mm_store mm).
Definition with_machines (machines probation : list nat) (st : store) (mm : machineManager) : machineManager :=
  mkManager (mm_maxp mm) (mm_machprocs mm) (mm_schedQ mm) (mm_need mm) (mm_pending mm) machines probation
    (mm_timer mm) (mm_startFailures mm) st.
Definition with_timer (timer : option Z) (mm : machineManager) : machineManager :=
  mkManager (mm_maxp mm) (mm_machprocs mm) (mm_schedQ mm) (mm_need mm) (mm_pending mm) (mm_machines mm)
    (mm_probation mm) timer (mm_startFailures mm) (mm_store mm).
Definition with_pending (pending failures : Z) (mm : machineManager) : machineManager :=
  mkManager (mm_maxp mm) (mm_machprocs mm) (mm_schedQ mm) (mm_need mm) pending (mm_machines mm)
    (mm_probation mm) (mm_timer mm) failures (mm_store mm).

(** [Offer]: the request that is sent, and that the cancel function sends. *)
Definition Offer (priority procs : Z) (machc : nat) : scheduleRequest := mkRequest priority procs machc 0.

(** First fit: the first machine with enough free procs. *)
Fixpoint schedule (s : scheduleRequest) (st : store) (machines : list nat) : option (nat * nat) :=
  match machines with
  | [] => None
  | m :: machines =>
      let freeProcs := (sm_maxTaskProcs (mach st m) - sm_taskProcs (mach st m))%Z in
      if (rq_procs s <=? freeProcs)%Z then Some (m, rq_machc s) else schedule s st machines
  end.

Definition appendMachine (ms : list nat) (m : nat) (st : store) : list nat * store :=
  (ms ++ [m], alter (with_index (Z.of_nat (length ms))) m st).

Definition removeMachine (ms : list nat) (m : nat) (st : store) : outcome (list nat * store) :=
  let i := sm_index (mach st m) in
  match list.last ms with
  | None => Panic "index out of range"
  | Some l =>
      if (i <? 0)%Z || (Z.of_nat (length ms) <=? i)%Z then Panic "index out of range"
      else Ret (take (length ms - 1) (<[Z.to_nat i := l]> ms),
                alter (with_index (-1)) m (alter (with_index i) l st))
  end.

(** The communications that the select of [Do] can choose: a client receives
    the machine it was offered, the probation timer fires, a client returns
    procs, a request or its cancellation arrives, machines have been started, a
    machine has stopped.  [now] is the time, where the code asks for it. *)
Inductive event :=
| ESend
| EProbation
| EDone (m : nat) (procs : Z) (err : option error) (now : Z)
| ESched (s : scheduleRequest)
| EUnsched (s : scheduleRequest)
| EStart (machines : list nat) (nFailures : Z)
| EStopped (m : nat).

Definition is_Remote (e : error) : bool := match e with Err Remote _ => true | _ => false end.

(** The top of the loop: the machine that the first request is offered, and the
    probation timer. *)
Definition offered (mm : machineManager) : option (nat * nat) :=
  match sq_q (mm_schedQ mm) with
  | [] => None
  | s :: _ => schedule s (mm_store mm) (mm_machines mm)
  end.
Definition set_timer (mm : machineManager) : machineManager :=
  match mm_probation mm with
  | [] => with_timer None mm
  | m :: _ => with_timer (Some (sm_lastFailure (mach (mm_store mm) m) + ProbationTimeout)%Z) mm
  end.

(** [case machc <- mach]. *)
Definition on_send (mm : machineManager) (m : nat) : outcome machineManager :=
  match sq_q (mm_schedQ mm) with
  | [] => Panic "index out of range"
  | s :: _ =>
      let st := alter (λ x, with_taskProcs (sm_taskProcs x + rq_procs s) x) m (mm_store mm) in
      '(_, q) ← Pop (mm_schedQ mm);
      Ret (with_queue q (mm_need mm) (with_machines (mm_machines mm) (mm_probation mm) st mm))
  end.

(** Takes a machine off probation. *)
Definition off_probation (mm : machineManager) (m : nat) (i : Z) (st : store) : outcome machineManager :=
  '(_, q) ← heap_Remove (mkFailureQ (alter (with_health machineOk) m st) (mm_probation mm)) i;
  let '(machines, st) := appendMachine (mm_machines mm) m (fq_store q) in
  Ret (with_machines machines (fq_q q) st mm).

(** [case <-probationTimer.C()]. *)
Definition on_probation (mm : machineManager) (m : nat) : outcome machineManager :=
  mm ← off_probation mm m 0 (mm_store mm);
  Ret (with_timer None mm).

(** [case done := <-donec]. *)
Definition on_done (mm : machineManager) (m : nat) (procs : Z) (err : option error) (now : Z) :
    outcome machineManager :=
  let mm := with_queue (mm_schedQ mm) (mm_need mm - procs) mm in
  let st := alter (λ x, with_taskProcs (sm_taskProcs x - procs) x) m (mm_store mm) in
  let mm := with_machines (mm_machines mm) (mm_probation mm) st mm in
  let failed := match err with Some e => negb (is_Remote e) | None => false end in
  match sm_health (mach st m) with
  | machineOk =>
      if failed then
        '(machines, st) ← removeMachine (mm_machines mm) m (alter (with_health machineProbation) m st);
        let q := Push m (mkFailureQ (alter (with_lastFailure now) m st) (mm_probation mm)) in
        Ret (with_machines machines (fq_q q) (fq_store q) mm)
      else Ret mm
  | machineProbation =>
      match err with
      | None => off_probation mm m (sm_index (mach st m)) st
      | Some _ =>
          q ← heap_Fix (mkFailureQ (alter (with_lastFailure now) m st) (mm_probation mm)) (sm_index (mach st m));
          Ret (with_machines (mm_machines mm) (fq_q q) (fq_store q) mm)
      end
  | machineLost => Ret mm
  end.

(** [case s := <-m.schedc] and [case s := <-m.unschedc]. *)
Definition on_sched (mm : machineManager) (s : scheduleRequest) : machineManager :=
  with_queue (Push s (mm_schedQ mm)) (mm_need mm + rq_procs s) mm.

Definition on_unsched (mm : machineManager) (s : scheduleRequest) : outcome machineManager :=
  if (rq_index s <? 0)%Z then Ret mm
  else
    '(_, q) ← heap_Remove (mm_schedQ mm) (rq_index s);
    Ret (with_queue q (mm_need mm - rq_procs s) mm).

(** [case result := <-startc]; the machines are those that startMachines made. *)
Definition on_start (mm : machineManager) (machines : list nat) (nFailures : Z) : machineManager :=
  let pending := (mm_pending mm - mm_machprocs mm * (Z.of_nat (length machines) + nFailures))%Z in
  let '(ms, st) :=
    fold_left (λ '(ms, st) m, appendMachine ms m (<[m := new_machine (mm_machprocs mm)]> st)) machines
      (mm_machines mm, mm_store mm) in
  let failures := match machines with [] => (mm_startFailures mm + nFailures)%Z | _ => 0%Z end in
  with_pending pending failures (with_machines ms (mm_probation mm) st mm).

(** [case mach := <-stoppedc]. *)
Definition on_stopped (mm : machineManager) (m : nat) : outcome machineManager :=
  let lose := alter (with_health machineLost) m in
  match sm_health (mach (mm_store mm) m) with
  | machineOk =>
      '(machines, st) ← removeMachine (mm_machines mm) m (mm_store mm);
      Ret (with_machines machines (mm_probation mm) (lose st) mm)
  | machineProbation =>
      '(_, q) ← heap_Remove (mkFailureQ (mm_store mm) (mm_probation mm)) (sm_index (mach (mm_store mm) m));
      Ret (with_machines (mm_machines mm) (fq_q q) (lose (fq_store q)) mm)
  | machineLost => Ret (with_machines (mm_machines mm) (mm_probation mm) (lose (mm_store mm)) mm)
  end.

(** The end of the loop: the number of machines to start, if any are needed. *)
Definition scale_up (mm : machineManager) : machineManager * option Z :=
  let have := (Z.of_nat (length (mm_machines mm) + length (mm_probation mm)) * mm_machprocs mm)%Z in
  let total := (have + mm_pending mm)%Z in
  if (total <? mm_need mm)%Z && (total <? mm_maxp mm)%Z then
    let needProcs := (mm_need mm `min` mm_maxp mm - have - mm_pending mm)%Z in
    let needMachines :=
      (((needProcs + mm_machprocs mm - 1) `quot` mm_machprocs mm) `min` maxStartMachines)%Z in
    (with_pending (mm_pending mm + needMachines * mm_machprocs mm) (mm_startFailures mm) mm, Some needMachines)
  else (mm, None).

(** The select, [None] if the communication is not possible. *)
Definition Do_select (mm : machineManager) (e : event) : outcome (option machineManager) :=
  match e with
  | ESend => match offered mm with Some (m, _) => Some <$> on_send mm m | None => Ret None end
  | EProbation => match mm_probation mm with m :: _ => Some <$> on_probation mm m | [] => Ret None end
  | EDone m procs err now => Some <$> on_done mm m procs err now
  | ESched s => Ret (Some (on_sched mm s))
  | EUnsched s => Some <$> on_unsched mm s
  | EStart machines nFailures => Ret (Some (on_start mm machines nFailures))
  | EStopped m => Some <$> on_stopped mm m
  end.

(** One iteration of the loop of [Do]. *)
Definition Do_iter (mm : machineManager) (e : event) : outcome (option (machineManager * option Z)) :=
  Do_select (set_timer mm) e ≫= λ res : option machineManager, Ret (scale_up <$> res).

(** [startMachines]: of the machines that were asked for, those that started, a
    nil for every one that did not, moved to the front of the slice. *)
Fixpoint compact_loop (i n : nat) (ms : list (option nat)) (k : nat) : list (option nat) * nat :=
  match k with
  | 0 => (ms, n)
  | S k =>
      match ms !! i with
      | Some (Some m) => compact_loop (S i) (S n) (<[n := Some m]> ms) k
      | _ => compact_loop (S i) n ms k
      end
  end.
Definition startMachines (slicemachines : list (option nat)) : list (option nat) :=
  let '(ms, n) := compact_loop 0 0 slicemachines (length slicemachines) in take n ms.
