(* ===== verification/MachinesSpec.v ===== *)
(** The queues of the machine manager: machines know their places in the list of
    healthy machines and in the queue of those on probation, through every
    operation on them; the queue of requests is a heap by priority and demand. *)
From S2P Require Import Prelude Heap SliceIO Task Machines.

(** * Sums *)

Definition zsum (l : list Z) : Z := foldr Z.add 0%Z l.

#[export] Instance zsum_perm : Proper ((≡ₚ) ==> (=)) zsum.
Proof. induction 1; simpl; lia. Qed.

Lemma zsum_cons x l : zsum (x :: l) = (x + zsum l)%Z.
Proof. done. Qed.

Lemma zsum_app l1 l2 : zsum (l1 ++ l2) = (zsum l1 + zsum l2)%Z.
Proof. induction l1; simpl; lia. Qed.

Lemma zsum_nonneg l : Forall (λ z, 0 <= z)%Z l → (0 <= zsum l)%Z.
Proof. induction 1; simpl; lia. Qed.

(** * Machines in the store *)

Lemma lookup_mach st m x : st !! m = Some x → mach st m = x.
Proof. unfold mach. by intros ->. Qed.

(** Updates of a machine that leave a field alone. *)
Lemma mach_alter_field {A} (field : sliceMachine → A) f st m k :
  (∀ x, field (f x) = field x) → field (mach (alter f m st) k) = field (mach st k).
Proof.
  intros Hf. unfold mach. destruct (decide (k = m)) as [->|].
  - rewrite lookup_alter_eq. by destruct (st !! m); simpl.
  - by rewrite lookup_alter_ne.
Qed.

(** The machines of [q] are at the positions that they have recorded. *)
Definition placed (st : store) (q : list nat) : Prop :=
  NoDup q ∧ ∀ i m, q !! i = Some m → ∃ x, st !! m = Some x ∧ sm_index x = Z.of_nat i.

(** Only positions were changed, and only of the machines of [q]. *)
Definition reindexed (q : list nat) (st st' : store) : Prop :=
  (∀ m, m ∉ q → st' !! m = st !! m) ∧ ∀ m, ∃ i, st' !! m = with_index i <$> st !! m.

Lemma with_index_twice i j x : with_index i (with_index j x) = with_index i x.
Proof. done. Qed.
Lemma with_index_self x : with_index (sm_index x) x = x.
Proof. by destruct x. Qed.

Lemma reindexed_refl q st : reindexed q st st.
Proof.
  split; [done|]. intros m. destruct (st !! m) as [x|]; [|by exists 0%Z].
  exists (sm_index x). simpl. by rewrite with_index_self.
Qed.

Lemma reindexed_alter q st st' m i : reindexed q st st' → m ∈ q → reindexed q st (alter (with_index i) m st').
Proof.
  intros [Ho Hi] Hm. split.
  - intros k Hk. rewrite lookup_alter_ne by (intros ->; done). by apply Ho.
  - intros k. destruct (Hi k) as [j Hj]. destruct (decide (k = m)) as [->|].
    + exists i. rewrite lookup_alter_eq, Hj. by destruct (st !! m).
    + exists j. by rewrite lookup_alter_ne.
Qed.

Lemma reindexed_mono q q' st st' : q ⊆ q' → reindexed q st st' → reindexed q' st st'.
Proof. intros Hq [Ho Hi]. split; [|done]. intros m Hm. apply Ho. set_solver. Qed.

Lemma reindexed_lookup q st st' m x : reindexed q st st' → st !! m = Some x → ∃ i, st' !! m = Some (with_index i x).
Proof. intros [_ Hi] Hx. destruct (Hi m) as [i Hm]. exists i. by rewrite Hm, Hx. Qed.

Lemma reindexed_lookup_inv q st st' m x' :
  reindexed q st st' → st' !! m = Some x' → ∃ x i, st !! m = Some x ∧ x' = with_index i x.
Proof.
  intros [_ Hi] Hx. destruct (Hi m) as [i Hm]. rewrite Hx in Hm.
  destruct (st !! m) as [x|]; [|done]. injection Hm as ->. by exists x, i.
Qed.

Lemma placed_other st st' q q' : reindexed q' st st' → q ## q' → placed st q → placed st' q.
Proof.
  intros [Ho _] Hd [Hn Hp]. split; [done|]. intros i m Hm. destruct (Hp i m Hm) as (x & Hx & Hi).
  exists x. rewrite Ho; [done|]. apply list_elem_of_lookup_2 in Hm. set_solver.
Qed.

Lemma placed_alter st q m f : (∀ x, sm_index (f x) = sm_index x) → placed st q → placed (alter f m st) q.
Proof.
  intros Hf [Hn Hp]. split; [done|]. intros i k Hk. destruct (Hp i k Hk) as (x & Hx & Hi).
  destruct (decide (k = m)) as [->|].
  - exists (f x). rewrite lookup_alter_eq, Hx. simpl. by rewrite Hf.
  - exists x. by rewrite lookup_alter_ne.
Qed.

(** * The list of healthy machines *)

Lemma placed_snoc st q m :
  placed st q → m ∉ q → is_Some (st !! m) → placed (alter (with_index (Z.of_nat (length q))) m st) (q ++ [m]).
Proof.
  intros [Hn Hp] Hm [x Hx].
  split; [apply list.NoDup_app; split_and!; [done|set_solver|apply NoDup_singleton]|].
  intros i k. rewrite lookup_app_Some. intros [Hk|[Hlen Hk]].
  - destruct (Hp i k Hk) as (y & Hy & Hi). exists y.
    rewrite lookup_alter_ne; [done|]. intros <-. apply Hm. by eapply list_elem_of_lookup_2.
  - apply list_lookup_singleton_Some in Hk as [Hi <-].
    exists (with_index (Z.of_nat (length q)) x). rewrite lookup_alter_eq, Hx. split; [done|]. simpl. lia.
Qed.

Lemma appendMachine_spec st ms m :
  placed st ms → m ∉ ms → is_Some (st !! m) →
  ∃ st', appendMachine ms m st = (ms ++ [m], st') ∧ placed st' (ms ++ [m]) ∧ reindexed [m] st st'.
Proof.
  intros Hp Hm Hx. eexists. split; [done|]. split; [by apply placed_snoc|].
  apply reindexed_alter; [apply reindexed_refl|]. set_solver.
Qed.

Lemma replace_perm {A} (q : list A) i m l : q !! i = Some m → q ++ [l] ≡ₚ m :: <[i := l]> q.
Proof.
  intros Hi. rewrite (insert_take_drop q i l) by (by eapply lookup_lt_Some).
  rewrite <-(take_drop_middle q i m Hi) at 1.
  rewrite <-(assoc_L (++)). simpl. rewrite <-Permutation_middle. f_equiv.
  apply Permutation_app_head. symmetry. apply Permutation_cons_append.
Qed.

Lemma removeMachine_spec st ms m :
  placed st ms → m ∈ ms →
  ∃ ms' st', removeMachine ms m st = Ret (ms', st') ∧ ms ≡ₚ m :: ms' ∧ placed st' ms' ∧ reindexed ms st st'.
Proof.
  intros [Hn Hp] [i Hi]%list_elem_of_lookup. destruct (Hp i m Hi) as (x & Hx & Hxi).
  destruct (exists_last (l := ms)) as (q & l & ->); [by intros ->|].
  assert (i < S (length q)) as Hlt by (apply lookup_lt_Some in Hi; rewrite length_app in Hi; simpl in Hi; lia).
  assert (reindexed (q ++ [l]) st (alter (with_index (-1)) m (alter (with_index (Z.of_nat i)) l st))) as Hre.
  { apply list_elem_of_lookup_2 in Hi as Hin.
    apply reindexed_alter; [apply reindexed_alter; [apply reindexed_refl|set_solver]|done]. }
  unfold removeMachine. rewrite last_snoc, (lookup_mach _ _ _ Hx), Hxi.
  destruct (Z.ltb_spec (Z.of_nat i) 0); [lia|]. rewrite length_app. simpl.
  destruct (Z.leb_spec (Z.of_nat (length q + 1)) (Z.of_nat i)); [lia|]. simpl.
  rewrite Nat2Z.id, Nat.add_sub. eexists _, _. split; [done|].
  apply list.NoDup_app in Hn as Hn'. destruct Hn' as (Hnq & Hlq & _).
  destruct (decide (i = length q)) as [->|Hne].
  - rewrite lookup_app_r, Nat.sub_diag in Hi by lia. injection Hi as <-.
    rewrite insert_app_r_alt, Nat.sub_diag by lia. simpl. rewrite take_app_length.
    split_and!; [symmetry; apply Permutation_cons_append| |done]. split; [done|].
    intros j k Hk. destruct (Hp j k) as (y & Hy & Hyj); [by apply lookup_app_l_Some|].
    exists y. apply list_elem_of_lookup_2 in Hk. by rewrite !lookup_alter_ne by set_solver.
  - rewrite lookup_app_l in Hi by lia. rewrite insert_app_l, take_app_length' by (rewrite ?length_insert; lia).
    split_and!; [by apply replace_perm| |done].
    assert (l ≠ m) as Hlm by (apply list_elem_of_lookup_2 in Hi; set_solver).
    destruct (Hp (length q) l) as (y & Hy & Hyj); [by rewrite lookup_app_r, Nat.sub_diag by lia|].
    pose proof (replace_perm q i m l Hi) as Hperm. split.
    { rewrite Hperm in Hn. by apply list.NoDup_cons in Hn as [_ ?]. }
    intros j k [(-> & <- & _)|[Hij Hk]]%list_lookup_insert_Some.
    + exists (with_index (Z.of_nat j) y). by rewrite lookup_alter_ne, lookup_alter_eq, Hy by done.
    + destruct (Hp j k) as (z & Hz & Hzj); [by apply lookup_app_l_Some|]. exists z.
      rewrite !lookup_alter_ne; [done|..].
      * intros ->. apply list_elem_of_lookup_2 in Hk. set_solver.
      * intros ->. apply Hij. by eapply (NoDup_lookup q).
Qed.

(** * The queue of machines on probation *)

Definition failure_less (a b : nat * Z) : bool := (a.2 <? b.2)%Z.
#[export] Instance failure_less_weak : StrictWeak failure_less.
Proof. split; unfold failure_less; intros *; rewrite ?Z.ltb_lt, ?Z.ltb_ge; lia. Qed.

Definition failures (st : store) (q : list nat) : list (nat * Z) :=
  (λ m, (m, sm_lastFailure (mach st m))) <$> q.

Lemma failures_alter st q m i : failures (alter (with_index i) m st) q = failures st q.
Proof. unfold failures. apply list_fmap_ext. intros j k _. by rewrite (mach_alter_field sm_lastFailure). Qed.

Lemma failures_snoc st q m : failures st (q ++ [m]) = failures st q ++ [(m, sm_lastFailure (mach st m))].
Proof. unfold failures. by rewrite fmap_app. Qed.

Lemma fmap_list_swap {A B} (f : A → B) i j l : f <$> list_swap i j l = list_swap i j (f <$> l).
Proof.
  unfold list_swap. rewrite !list_lookup_fmap. destruct (l !! i), (l !! j); simpl; try done.
  by rewrite !list_fmap_insert.
Qed.

#[export] Instance machineFailureQ_laws : HeapLaws machineFailureQ nat (nat * Z) failure_less.
Proof.
  refine {| items h := failures (fq_store h) (fq_q h); view m h := (m, sm_lastFailure (mach (fq_store h) m)) |}.
  - intros h. unfold failures. by rewrite length_fmap.
  - intros h i j a b. unfold failures. rewrite !list_lookup_fmap. simpl.
    destruct (fq_q h !! i), (fq_q h !! j); simpl; try done. by intros [= <-] [= <-].
  - intros h i j Hi Hj. unfold failures in Hi, Hj. rewrite length_fmap in Hi, Hj. simpl. unfold fq_swap.
    destruct (lookup_lt_is_Some_2 _ _ Hi) as [a Ha], (lookup_lt_is_Some_2 _ _ Hj) as [b Hb].
    rewrite Ha, Hb. simpl. rewrite !failures_alter. unfold failures. by rewrite fmap_list_swap.
  - intros m h. simpl. rewrite failures_alter. unfold failures. by rewrite fmap_app.
  - intros h l a. simpl. destruct (fq_q h) as [|m0 q0] eqn:Hq using rev_ind; [by destruct l|]. clear IHq0.
    rewrite failures_snoc. intros [Hl Ha]%app_inj_2; [|done]. injection Ha as <-.
    rewrite last_snoc. eexists _, _. split; [done|]. simpl. split.
    + by rewrite (mach_alter_field sm_lastFailure).
    + rewrite failures_alter, length_app. simpl. by rewrite Nat.add_sub, take_app_length.
Defined.

(** What the operations of the queue preserve. *)
Definition fq_inv (q0 : list nat) (st0 : store) (h : machineFailureQ) : Prop :=
  placed (fq_store h) (fq_q h) ∧ reindexed q0 st0 (fq_store h) ∧ fq_q h ⊆ q0.

Lemma items_failures h : items h = failures (fq_store h) (fq_q h).
Proof. done. Qed.
Lemma length_failures st q : length (failures st q) = length q.
Proof. apply length_fmap. Qed.
Lemma failures_fst st q : (failures st q).*1 = q.
Proof. unfold failures. rewrite <-list_fmap_compose. apply list_fmap_id. Qed.

Lemma fq_swap_inv q0 st0 h i j :
  fq_inv q0 st0 h → i < length (items h) → j < length (items h) → fq_inv q0 st0 (hswap i j h).
Proof.
  intros ([Hn Hp] & Hre & Hsub). rewrite items_failures, length_failures. intros Hi Hj.
  destruct (lookup_lt_is_Some_2 _ _ Hi) as [a Ha], (lookup_lt_is_Some_2 _ _ Hj) as [b Hb].
  simpl. unfold fq_swap. rewrite Ha, Hb. destruct h as [st q]. simpl in *.
  pose proof (list_elem_of_lookup_2 _ _ _ Ha). pose proof (list_elem_of_lookup_2 _ _ _ Hb).
  assert (∀ k m, q !! k = Some m → k ≠ i → m ≠ a) as Hna by (intros k m Hk Hki ->; apply Hki; by eapply NoDup_lookup).
  assert (∀ k m, q !! k = Some m → k ≠ j → m ≠ b) as Hnb by (intros k m Hk Hkj ->; apply Hkj; by eapply NoDup_lookup).
  split_and!; simpl.
  - split; [by rewrite list_swap_perm|]. intros k m. rewrite list_swap_lookup by done.
    destruct (Hp i a Ha) as (x & Hx & _), (Hp j b Hb) as (y & Hy & _).
    case_decide as Hkj; [|case_decide as Hki]; subst.
    + rewrite Ha. intros [= <-].
      destruct (decide (a = b)) as [<-|].
      * rewrite !lookup_alter_eq, Hx. by eexists.
      * rewrite lookup_alter_eq, lookup_alter_ne, Hx by done. by eexists.
    + rewrite Hb. intros [= <-].
      rewrite lookup_alter_ne, lookup_alter_eq, Hy by (intros ->; by eapply Hna). by eexists.
    + intros Hk. pose proof (Hna k m Hk Hki). pose proof (Hnb k m Hk Hkj).
      rewrite !lookup_alter_ne by done. by apply Hp.
  - apply reindexed_alter; [apply reindexed_alter; [done|]|]; set_solver.
  - intros m. rewrite list_swap_perm. apply Hsub.
Qed.

Lemma fq_pop_inv q0 st0 h m h' : fq_inv q0 st0 h → hpop h = Ret (m, h') → fq_inv q0 st0 h'.
Proof.
  intros ([Hn Hp] & Hre & Hsub). destruct h as [st q]. simpl in *.
  destruct q as [|l q IH] using rev_ind; [done|]. clear IH. rewrite last_snoc, length_app. simpl.
  rewrite Nat.add_sub, take_app_length. intros [= <- <-].
  apply list.NoDup_app in Hn as (Hn & Hlq & _). split_and!; simpl.
  - split; [done|]. intros i k Hk. destruct (Hp i k) as (x & Hx & Hi); [by apply lookup_app_l_Some|].
    exists x. apply list_elem_of_lookup_2 in Hk. by rewrite lookup_alter_ne by set_solver.
  - apply reindexed_alter; [done|set_solver].
  - set_solver.
Qed.

#[local] Hint Resolve fq_swap_inv fq_pop_inv : core.

Lemma failures_perm st q st' q' m x :
  failures st q ≡ₚ (m, x) :: failures st' q' → q ≡ₚ m :: q'.
Proof.
  intros Hp. apply (fmap_Permutation fst) in Hp. rewrite fmap_cons, !failures_fst in Hp. done.
Qed.

Lemma fq_Push st q m :
  placed st q → is_heap failure_less (failures st q) → m ∉ q → is_Some (st !! m) →
  ∃ st' q', Push m (mkFailureQ st q) = mkFailureQ st' q' ∧ q' ≡ₚ m :: q ∧ placed st' q' ∧
    is_heap failure_less (failures st' q') ∧ reindexed (m :: q) st st'.
Proof.
  intros Hp Hh Hm Hx. destruct (Push_spec (HL := machineFailureQ_laws) m (mkFailureQ st q) Hh) as [Hh' Hperm].
  pose proof (Push_preserves (fq_inv (m :: q) st) (fq_swap_inv _ _) m (mkFailureQ st q)) as Hinv.
  destruct (Push m (mkFailureQ st q)) as [st' q']. exists st', q'. split; [done|].
  destruct Hinv as (Hp' & Hre & Hsub).
  - split_and!; simpl; [by apply placed_snoc|by apply reindexed_alter; [apply reindexed_refl|left]|set_solver].
  - split_and!; [|done..]. eapply failures_perm. exact Hperm.
Qed.

Lemma fq_Remove st q m x :
  placed st q → is_heap failure_less (failures st q) → m ∈ q → st !! m = Some x →
  ∃ st' q', heap_Remove (mkFailureQ st q) (sm_index x) = Ret (m, mkFailureQ st' q') ∧ q ≡ₚ m :: q' ∧
    placed st' q' ∧ is_heap failure_less (failures st' q') ∧ reindexed q st st'.
Proof.
  intros Hp Hh [i Hi]%list_elem_of_lookup Hx. pose proof Hp as [_ Hpi].
  destruct (Hpi i m Hi) as (y & Hy & Hyi). rewrite Hx in Hy. injection Hy as <-.
  destruct (Remove_spec (HL := machineFailureQ_laws) (mkFailureQ st q) i (m, sm_lastFailure (mach st m))) as (k & [st' q'] & Hr & Hv & Hperm & Hh').
  { apply (is_heap_fix_inv failure_less); [|exact Hh]. rewrite items_failures, length_failures. by eapply lookup_lt_Some. }
  { simpl. unfold failures. by rewrite list_lookup_fmap, Hi. }
  injection Hv as -> _. exists st', q'.
  destruct (Remove_preserves (fq_inv q st) (fq_swap_inv _ _) (fq_pop_inv _ _) (mkFailureQ st q) i m (mkFailureQ st' q'))
    as (Hp' & Hre & _); [by split_and!; [|apply reindexed_refl|]|done|].
  unfold heap_Remove. rewrite Hyi, Nat2Z.id. destruct (Z.ltb_spec (Z.of_nat i) 0); [lia|].
  split_and!; [done| |done..]. eapply failures_perm. exact Hperm.
Qed.

(** [Fix] after the failure time of a machine has changed. *)
Lemma fq_Fix st q m x t :
  placed st q → is_heap failure_less (failures st q) → m ∈ q → st !! m = Some x →
  ∃ st' q', heap_Fix (mkFailureQ (alter (with_lastFailure t) m st) q) (sm_index x) = Ret (mkFailureQ st' q') ∧
    q ≡ₚ q' ∧ placed st' q' ∧ is_heap failure_less (failures st' q') ∧
    reindexed q (alter (with_lastFailure t) m st) st'.
Proof.
  intros Hp Hh [i Hi]%list_elem_of_lookup Hx. pose proof Hp as [Hn Hpi].
  destruct (Hpi i m Hi) as (y & Hy & Hyi). rewrite Hx in Hy. injection Hy as <-.
  pose proof (lookup_lt_Some _ _ _ Hi) as Hlt. set (st1 := alter (with_lastFailure t) m st).
  assert (failures st1 q = <[i := (m, t)]> (failures st q)) as Hf.
  { apply list_eq. intros k. unfold failures. rewrite list_lookup_fmap.
    destruct (decide (k = i)) as [->|Hne].
    - rewrite Hi, list_lookup_insert_eq by (by rewrite length_fmap). simpl. unfold mach, st1.
      by rewrite lookup_alter_eq, Hx.
    - rewrite list_lookup_insert_ne, list_lookup_fmap by done. destruct (q !! k) as [k'|] eqn:Hk; [|done]. simpl.
      unfold mach, st1. rewrite lookup_alter_ne; [done|]. intros <-. apply Hne. by eapply NoDup_lookup. }
  destruct (Fix_spec (HL := machineFailureQ_laws) (mkFailureQ st1 q) i) as [Hh' Hperm].
  { by rewrite items_failures, length_failures. }
  { rewrite items_failures. simpl. rewrite Hf, length_insert. apply (fix_inv_insert failure_less). exact Hh. }
  pose proof (Fix_preserves (fq_inv q st1) (fq_swap_inv _ _) (mkFailureQ st1 q) i) as Hinv.
  unfold heap_Fix. rewrite Hyi, Nat2Z.id. simpl hlen.
  destruct (Z.ltb_spec (Z.of_nat i) 0); [lia|]. destruct (Z.leb_spec (Z.of_nat (length q)) (Z.of_nat i)); [lia|]. simpl.
  destruct (Fix (mkFailureQ st1 q) i) as [st' q']. exists st', q'. split; [done|].
  destruct Hinv as (Hp' & Hre & _).
  - by rewrite items_failures, length_failures.
  - split_and!; [by apply placed_alter|apply reindexed_refl|done].
  - split_and!; [|done..]. apply (fmap_Permutation fst) in Hperm. simpl in Hperm. by rewrite !failures_fst in Hperm.
Qed.

(** * The queue of requests *)

(** A request without its position. *)
Definition request_key (s : scheduleRequest) : Z * Z * nat := (rq_priority s, rq_procs s, rq_machc s).
Definition key_less (a b : Z * Z * nat) : bool :=
  if (a.1.1 =? b.1.1)%Z then (b.1.2 <? a.1.2)%Z else (a.1.1 <? b.1.1)%Z.
#[export] Instance key_less_weak : StrictWeak key_less.
Proof.
  split; unfold key_less; intros *; repeat (case_match; simplify_eq/=); rewrite ?Z.eqb_eq, ?Z.eqb_neq, ?Z.ltb_lt, ?Z.ltb_ge in *; lia.
Qed.

Lemma request_less_key a b : request_less a b = key_less (request_key a) (request_key b).
Proof. done. Qed.

Lemma set_index_key (q : list scheduleRequest) i (j : nat) : request_key <$> alter (set_index i) j q = request_key <$> q.
Proof.
  apply list_eq. intros k. rewrite !list_lookup_fmap. destruct (decide (k = j)) as [->|].
  - rewrite list_lookup_alter_eq. by destruct (q !! j).
  - by rewrite list_lookup_alter_ne.
Qed.

#[export] Instance scheduleRequestQ_laws : HeapLaws scheduleRequestQ scheduleRequest (Z * Z * nat) key_less.
Proof.
  refine {| items h := request_key <$> sq_q h; view s h := request_key s |}.
  - intros h. by rewrite length_fmap.
  - intros h i j a b. rewrite !list_lookup_fmap. simpl.
    destruct (sq_q h !! i), (sq_q h !! j); simpl; try done. by intros [= <-] [= <-].
  - intros h i j Hi Hj. simpl. by rewrite !set_index_key, fmap_list_swap.
  - intros s h. simpl. by rewrite fmap_app.
  - intros h l a. simpl. destruct (sq_q h) as [|s0 q0] eqn:Hq using rev_ind; [by destruct l|]. clear IHq0.
    rewrite fmap_app. intros [Hl Ha]%app_inj_2; [|done]. injection Ha as <-.
    rewrite last_snoc. eexists _, _. split; [done|]. simpl. split; [done|].
    rewrite length_app. simpl. by rewrite Nat.add_sub, take_app_length.
Defined.

(** The requests in the queue are at the positions that they have recorded. *)
Definition sq_indexed (h : scheduleRequestQ) : Prop :=
  ∀ i s, sq_q h !! i = Some s → rq_index s = Z.of_nat i.

Lemma sq_swap_indexed h i j :
  sq_indexed h → i < length (items h) → j < length (items h) → sq_indexed (hswap i j h).
Proof.
  simpl. rewrite length_fmap. intros Hh Hi Hj k s. simpl.
  destruct (decide (k = j)) as [->|Hkj].
  { rewrite list_lookup_alter_eq. by intros (? & _ & ->)%fmap_Some. }
  rewrite list_lookup_alter_ne by done. destruct (decide (k = i)) as [->|Hki].
  { rewrite list_lookup_alter_eq. by intros (? & _ & ->)%fmap_Some. }
  rewrite list_lookup_alter_ne, list_swap_lookup, !decide_False by done. apply Hh.
Qed.

Lemma sq_pop_indexed h s h' : sq_indexed h → hpop h = Ret (s, h') → sq_indexed h'.
Proof.
  simpl. intros Hh. destruct (list.last (sq_q h)); [|done]. intros [= _ <-] i t. simpl.
  rewrite lookup_take_Some. intros [Ht _]. by apply Hh.
Qed.

Definition queue_ok (q : scheduleRequestQ) : Prop :=
  is_heap key_less (request_key <$> sq_q q) ∧ sq_indexed q.

Lemma sq_Push q s :
  queue_ok q → queue_ok (Push s q) ∧ request_key <$> sq_q (Push s q) ≡ₚ request_key s :: (request_key <$> sq_q q).
Proof.
  intros [Hh Hi]. destruct (Push_spec (HL := scheduleRequestQ_laws) s q Hh) as [Hh' Hp].
  split; [|exact Hp]. split; [exact Hh'|].
  apply (Push_preserves sq_indexed sq_swap_indexed). intros i t. simpl. rewrite lookup_app_Some.
  intros [Ht|[Hl Ht]]; [by apply Hi|]. apply list_lookup_singleton_Some in Ht as [? <-]. simpl. lia.
Qed.

Lemma sq_Pop q s rest :
  queue_ok q → sq_q q = s :: rest →
  ∃ x q', Pop q = Ret (x, q') ∧ queue_ok q' ∧
    request_key <$> sq_q q ≡ₚ request_key s :: (request_key <$> sq_q q') ∧
    ∀ t, t ∈ sq_q q → request_less t s = false.
Proof.
  intros [Hh Hi] Hq. destruct (Pop_spec (HL := scheduleRequestQ_laws) q Hh) as (x & q' & Hr & H0 & Hp & Hh' & Hmin).
  { simpl. by rewrite Hq. }
  assert (request_key s = request_key x) as Hs.
  { change (items q !! 0) with ((request_key <$> sq_q q) !! 0) in H0. rewrite Hq in H0. by apply (inj Some) in H0. }
  exists x, q'. split; [done|]. rewrite Hs. split_and!.
  - split; [exact Hh'|]. by eapply (Pop_preserves sq_indexed sq_swap_indexed sq_pop_indexed).
  - exact Hp.
  - intros t Ht. rewrite request_less_key, Hs. apply Hmin. by apply (list_elem_of_fmap_2 request_key).
Qed.

(** * Fields that operations leave alone *)

Definition same {A} (field : sliceMachine → A) (st st' : store) : Prop :=
  ∀ m, field <$> st' !! m = field <$> st !! m.

Lemma same_trans {A} (field : sliceMachine → A) st1 st2 st3 : same field st1 st2 → same field st2 st3 → same field st1 st3.
Proof. intros H1 H2 m. by rewrite H2, H1. Qed.

Lemma same_alter {A} (field : sliceMachine → A) f m st : (∀ x, field (f x) = field x) → same field st (alter f m st).
Proof.
  intros Hf k. destruct (decide (k = m)) as [->|].
  - rewrite lookup_alter_eq. destruct (st !! m); simpl; [|done]. by rewrite Hf.
  - by rewrite lookup_alter_ne.
Qed.

Lemma same_reindexed {A} (field : sliceMachine → A) q st st' :
  (∀ i x, field (with_index i x) = field x) → reindexed q st st' → same field st st'.
Proof.
  intros Hf [_ Hi] m. destruct (Hi m) as [i ->]. destruct (st !! m); simpl; [|done]. by rewrite Hf.
Qed.

Lemma failures_same st st' q : same sm_lastFailure st st' → failures st' q = failures st q.
Proof.
  intros Hs. unfold failures. apply list_fmap_ext. intros i m _. f_equal. specialize (Hs m).
  unfold mach. by destruct (st !! m), (st' !! m); simplify_eq/=.
Qed.

Lemma failures_alter_other st q m f : m ∉ q → failures (alter f m st) q = failures st q.
Proof.
  intros Hm. unfold failures. apply list_fmap_ext. intros i k Hk. f_equal. unfold mach.
  rewrite lookup_alter_ne; [done|]. intros <-. apply Hm. by eapply list_elem_of_lookup_2.
Qed.

(** * Machines in use *)

(** Healthy machines are in the list, those on probation in the queue, at the
    positions that they have recorded. *)
Record pool (st : store) (ms pr : list nat) : Prop := {
  pool_machines : placed st ms;
  pool_probation : placed st pr;
  pool_heap : is_heap failure_less (failures st pr);
  pool_ok : ∀ m, sm_health <$> st !! m = Some machineOk ↔ m ∈ ms;
  pool_failing : ∀ m, sm_health <$> st !! m = Some machineProbation ↔ m ∈ pr;
}.

Definition load (x : sliceMachine) : Z * Z := (sm_maxTaskProcs x, sm_taskProcs x).

Lemma pool_disjoint st ms pr : pool st ms pr → ms ## pr.
Proof.
  intros [_ _ _ Hok Hf] m Hm Hp. apply Hok in Hm. apply Hf in Hp. congruence.
Qed.

Lemma placed_lookup st q m : placed st q → m ∈ q → is_Some (st !! m).
Proof. intros [_ Hp] [i Hi]%list_elem_of_lookup. destruct (Hp i m Hi) as (x & -> & _). done. Qed.

Lemma health_set (st : store) m h k :
  sm_health <$> alter (with_health h) m st !! k =
    if decide (k = m) then const h <$> st !! m else sm_health <$> st !! k.
Proof.
  case_decide as Hk; [subst|by rewrite lookup_alter_ne].
  rewrite lookup_alter_eq. by destruct (st !! m).
Qed.

(** Closes goals that say that a field is the same after updates of others. *)
Ltac same_field :=
  solve [ apply same_alter; reflexivity
        | eapply same_reindexed; [reflexivity|eassumption]
        | eapply same_trans; [|apply same_alter; reflexivity]; same_field
        | eapply same_trans; [|eapply same_reindexed; [reflexivity|eassumption]]; same_field ].

(** A healthy machine that failed is put on probation. *)
Lemma pool_fail st ms pr m now :
  pool st ms pr → m ∈ ms →
  ∃ ms' st1 st' pr', removeMachine ms m (alter (with_health machineProbation) m st) = Ret (ms', st1) ∧
    Push m (mkFailureQ (alter (with_lastFailure now) m st1) pr) = mkFailureQ st' pr' ∧
    pool st' ms' pr' ∧ same load st st' ∧ ms ≡ₚ m :: ms' ∧ pr' ≡ₚ m :: pr.
Proof.
  intros HP Hm. pose proof (pool_disjoint _ _ _ HP) as Hdis. destruct HP as [Hms Hpr Hh Hok Hf].
  set (st0 := alter (with_health machineProbation) m st).
  destruct (removeMachine_spec st0 ms m) as (ms' & st1 & Hrm & Hperm & Hms' & Hre1); [by apply placed_alter|done|].
  set (st2 := alter (with_lastFailure now) m st1).
  assert (m ∉ pr) as Hmp by set_solver.
  assert (placed st2 pr) as Hpr2.
  { apply placed_alter; [done|]. eapply placed_other; [exact Hre1|set_solver|]. by apply placed_alter. }
  assert (failures st2 pr = failures st pr) as Hf2.
  { unfold st2. rewrite failures_alter_other by done. apply failures_same. same_field. }
  destruct (fq_Push st2 pr m) as (st' & pr' & Hpush & Hperm' & Hpr' & Hh' & Hre2).
  { done. } { by rewrite Hf2. } { done. }
  { unfold st2. rewrite lookup_alter_is_Some. destruct (placed_lookup _ _ _ Hms Hm) as [x Hx].
    destruct (reindexed_lookup _ _ _ m (with_health machineProbation x) Hre1) as [i Hi]; [|by eexists].
    unfold st0. by rewrite lookup_alter_eq, Hx. }
  exists ms', st1, st', pr'. split_and!; [done|done| | |done|done].
  2: same_field.
  assert (same sm_health st0 st') as Hhealth by same_field.
  assert (NoDup (m :: ms')) as Hnd by (rewrite <-Hperm; apply Hms). apply list.NoDup_cons in Hnd as [Hmm' _].
  split; [|done|done| |].
  - eapply placed_other; [exact Hre2| |by apply placed_alter].
    intros k Hk [->|Hkp]%elem_of_cons; [done|]. apply (Hdis k); [rewrite Hperm; by right|done].
  - intros k. rewrite Hhealth. unfold st0. rewrite health_set. case_decide; subst.
    + split; [|done]. by destruct (st !! m).
    + rewrite Hok, Hperm. set_solver.
  - intros k. rewrite Hhealth. unfold st0. rewrite health_set, Hperm'. case_decide; subst.
    + split; [by left|]. intros _. destruct (placed_lookup _ _ _ Hms Hm) as [x ->]. done.
    + rewrite Hf. set_solver.
Qed.

(** A machine on probation becomes healthy. *)
Lemma pool_recover st ms pr m x :
  pool st ms pr → m ∈ pr → st !! m = Some x →
  ∃ st1 pr' st', heap_Remove (mkFailureQ (alter (with_health machineOk) m st) pr) (sm_index x) =
      Ret (m, mkFailureQ st1 pr') ∧
    appendMachine ms m st1 = (ms ++ [m], st') ∧ pool st' (ms ++ [m]) pr' ∧ same load st st' ∧ pr ≡ₚ m :: pr'.
Proof.
  intros HP Hm Hx. pose proof (pool_disjoint _ _ _ HP) as Hdis. destruct HP as [Hms Hpr Hh Hok Hf].
  set (st0 := alter (with_health machineOk) m st).
  assert (st0 !! m = Some (with_health machineOk x)) as Hx0 by (unfold st0; by rewrite lookup_alter_eq, Hx).
  destruct (fq_Remove st0 pr m (with_health machineOk x)) as (st1 & pr' & Hrm & Hperm & Hpr' & Hh' & Hre1);
    [by apply placed_alter| |done|done|].
  { rewrite (failures_same st st0) by same_field. done. }
  destruct (reindexed_lookup _ _ _ _ _ Hre1 Hx0) as [i Hx1].
  assert (m ∉ ms) as Hmm by set_solver.
  assert (NoDup (m :: pr')) as [Hmp _]%list.NoDup_cons by (rewrite <-Hperm; apply Hpr).
  destruct (appendMachine_spec st1 ms m) as (st' & Happ & Hms' & Hre2); [|done|by eexists|].
  { eapply placed_other; [exact Hre1|done|]. by apply placed_alter. }
  exists st1, pr', st'. split_and!; [done|done| |same_field|done].
  assert (same sm_health st0 st') as Hhealth by same_field.
  split; [done| | | |].
  - eapply placed_other; [exact Hre2|set_solver|done].
  - rewrite (failures_same st1 st') by same_field. done.
  - intros k. rewrite Hhealth. unfold st0. rewrite health_set, elem_of_app, list_elem_of_singleton. case_decide; subst.
    + rewrite Hx. set_solver.
    + rewrite Hok. set_solver.
  - intros k. rewrite Hhealth. unfold st0. rewrite health_set. case_decide; subst.
    + split; [|done]. by rewrite Hx.
    + rewrite Hf, Hperm. set_solver.
Qed.

(** A machine on probation fails again. *)
Lemma pool_refail st ms pr m x now :
  pool st ms pr → m ∈ pr → st !! m = Some x →
  ∃ st' pr', heap_Fix (mkFailureQ (alter (with_lastFailure now) m st) pr) (sm_index x) = Ret (mkFailureQ st' pr') ∧
    pool st' ms pr' ∧ same load st st' ∧ pr ≡ₚ pr'.
Proof.
  intros HP Hm Hx. pose proof (pool_disjoint _ _ _ HP) as Hdis. destruct HP as [Hms Hpr Hh Hok Hf].
  destruct (fq_Fix st pr m x now) as (st' & pr' & Hfix & Hperm & Hpr' & Hh' & Hre); [done..|].
  exists st', pr'. split_and!; [done| |same_field|done].
  assert (same sm_health st st') as Hhealth by same_field.
  split; [|done|done|..].
  - eapply placed_other; [exact Hre|done|]. by apply placed_alter.
  - intros k. by rewrite Hhealth.
  - intros k. by rewrite Hhealth, Hf, Hperm.
Qed.

(** A machine stops: it is lost. *)
Lemma pool_lose_ok st ms pr m :
  pool st ms pr → m ∈ ms →
  ∃ ms' st', removeMachine ms m st = Ret (ms', st') ∧
    pool (alter (with_health machineLost) m st') ms' pr ∧ same load st (alter (with_health machineLost) m st') ∧
    ms ≡ₚ m :: ms'.
Proof.
  intros HP Hm. pose proof (pool_disjoint _ _ _ HP) as Hdis. destruct HP as [Hms Hpr Hh Hok Hf].
  destruct (removeMachine_spec st ms m Hms Hm) as (ms' & st' & Hrm & Hperm & Hms' & Hre).
  exists ms', st'. split_and!; [done| |same_field|done].
  assert (NoDup (m :: ms')) as [Hmm' _]%list.NoDup_cons by (rewrite <-Hperm; apply Hms).
  assert (same sm_health st st') as Hhealth by same_field.
  split; [by apply placed_alter| | | |].
  - apply placed_alter; [done|]. eapply placed_other; [exact Hre|set_solver|done].
  - rewrite (failures_same st) by same_field. done.
  - intros k. rewrite health_set. case_decide; subst.
    + split; [|done]. by destruct (st' !! m).
    + rewrite Hhealth, Hok, Hperm. set_solver.
  - intros k. rewrite health_set. case_decide; subst.
    + split; [by destruct (st' !! m)|]. intros Hmp. by destruct (Hdis m Hm Hmp).
    + by rewrite Hhealth, Hf.
Qed.

Lemma pool_lose_probation st ms pr m x :
  pool st ms pr → m ∈ pr → st !! m = Some x →
  ∃ st' pr', heap_Remove (mkFailureQ st pr) (sm_index x) = Ret (m, mkFailureQ st' pr') ∧
    pool (alter (with_health machineLost) m st') ms pr' ∧ same load st (alter (with_health machineLost) m st') ∧
    pr ≡ₚ m :: pr'.
Proof.
  intros HP Hm Hx. pose proof (pool_disjoint _ _ _ HP) as Hdis. destruct HP as [Hms Hpr Hh Hok Hf].
  destruct (fq_Remove st pr m x Hpr Hh Hm Hx) as (st' & pr' & Hrm & Hperm & Hpr' & Hh' & Hre).
  exists st', pr'. split_and!; [done| |same_field|done].
  assert (NoDup (m :: pr')) as [Hmp' _]%list.NoDup_cons by (rewrite <-Hperm; apply Hpr).
  assert (same sm_health st st') as Hhealth by same_field.
  split; [|by apply placed_alter| | |].
  - apply placed_alter; [done|]. eapply placed_other; [exact Hre|done|done].
  - rewrite (failures_same st') by same_field. done.
  - intros k. rewrite health_set. case_decide; subst.
    + split; [by destruct (st' !! m)|]. intros Hmm. by destruct (Hdis m Hmm Hm).
    + by rewrite Hhealth, Hok.
  - intros k. rewrite health_set. case_decide; subst.
    + split; [|done]. by destruct (st' !! m).
    + rewrite Hhealth, Hf, Hperm. set_solver.
Qed.

(** New machines. *)
Lemma pool_add st ms pr m procs :
  pool st ms pr → st !! m = None →
  ∃ st', appendMachine ms m (<[m := new_machine procs]> st) = (ms ++ [m], st') ∧ pool st' (ms ++ [m]) pr ∧
    (∀ k, k ≠ m → st' !! k = st !! k) ∧ load <$> st' !! m = Some (procs, 0%Z).
Proof.
  intros [Hms Hpr Hh Hok Hf] Hm. set (st0 := <[m := new_machine procs]> st).
  assert (∀ q, placed st q → m ∉ q) as Hnot by (intros q Hq Hin; destruct (placed_lookup _ _ _ Hq Hin); congruence).
  assert (∀ q, placed st q → placed st0 q) as Hplaced.
  { intros q Hq. pose proof (Hnot q Hq) as Hmq. destruct Hq as [Hn Hp]. split; [done|]. intros i k Hk.
    destruct (Hp i k Hk) as (x & Hx & Hi). exists x. unfold st0. rewrite lookup_insert_ne; [done|].
    intros <-. apply Hmq. by eapply list_elem_of_lookup_2. }
  assert (∀ h, h ≠ machineOk → ∀ k, sm_health <$> st0 !! k = Some h ↔ sm_health <$> st !! k = Some h) as Hh0.
  { intros h Hne k. unfold st0. destruct (decide (k = m)) as [->|].
    - rewrite lookup_insert_eq, Hm. simpl. split; [|done]. by intros [= <-].
    - by rewrite lookup_insert_ne. }
  destruct (appendMachine_spec st0 ms m) as (st' & Happ & Hms' & Hre);
    [by apply Hplaced|by apply Hnot|unfold st0; by rewrite lookup_insert_eq|].
  exists st'. split; [done|]. assert (same sm_health st0 st') as Hhealth by same_field.
  split_and!; [split; [done| | | |]| |].
  - eapply placed_other; [exact Hre| |by apply Hplaced]. pose proof (Hnot pr Hpr). set_solver.
  - rewrite (failures_same st0) by same_field. unfold failures in *.
    erewrite list_fmap_ext; [exact Hh|]. intros i k Hk. f_equal. unfold mach, st0.
    rewrite lookup_insert_ne; [done|]. intros <-. apply (Hnot pr Hpr). by eapply list_elem_of_lookup_2.
  - intros k. rewrite Hhealth, elem_of_app, list_elem_of_singleton, <-Hok. unfold st0.
    destruct (decide (k = m)) as [->|]; [rewrite lookup_insert_eq; simpl; tauto|].
    rewrite lookup_insert_ne by done. tauto.
  - intros k. by rewrite Hhealth, Hh0, Hf.
  - intros k Hk. destruct Hre as [Ho _]. rewrite Ho by set_solver. unfold st0. by rewrite lookup_insert_ne.
  - assert (same load st0 st') as -> by same_field. unfold st0. by rewrite lookup_insert_eq.
Qed.

Lemma pool_start procs new st ms pr :
  pool st ms pr → NoDup new → (∀ m, m ∈ new → st !! m = None) →
  ∃ st', fold_left (λ '(ms, st) m, appendMachine ms m (<[m := new_machine procs]> st)) new (ms, st) = (ms ++ new, st') ∧
    pool st' (ms ++ new) pr ∧ (∀ k, k ∉ new → st' !! k = st !! k) ∧
    ∀ k, k ∈ new → load <$> st' !! k = Some (procs, 0%Z).
Proof.
  revert st ms. induction new as [|m new IH]; intros st ms HP Hn Hnew.
  { exists st. rewrite app_nil_r. split_and!; [done|done|done|set_solver]. }
  apply list.NoDup_cons in Hn as [Hm Hn].
  destruct (pool_add st ms pr m procs HP) as (st1 & Happ & HP1 & Ho1 & Hl1); [apply Hnew; by left|].
  cbn [fold_left]. rewrite Happ.
  destruct (IH st1 (ms ++ [m]) HP1 Hn) as (st' & Hfold & HP' & Ho' & Hl').
  { intros k Hk. rewrite Ho1 by (intros ->; done). apply Hnew. by right. }
  exists st'. rewrite Hfold, <-(assoc_L (++)). rewrite <-(assoc_L (++)) in HP'. split_and!; [done|done| |].
  - intros k Hk. rewrite Ho', Ho1 by set_solver. done.
  - intros k [->|Hk]%elem_of_cons; [by rewrite Ho'|by apply Hl'].
Qed.
