(* ===== verification/MachinesRun.v ===== *)
(** Correctness of the machine manager (src/exec/slicemachine.go): whatever the
    clients, the network and the machines do, procs are accounted for exactly, no
    machine is given more work than it has procs for, and not more machines are
    started than the limit allows. *)
From S2P Require Import Prelude Heap SliceIO Task Machines MachinesSpec.

(** * The manager and its clients *)

(** The manager, the procs that clients hold (which machine, how many), and the
    numbers of machines being started. *)
Record sys := mkSys {
  y_mm : machineManager;
  y_leases : list (nat * Z);
  y_starting : list Z;
}.

Definition leased (m : nat) (leases : list (nat * Z)) : Z := zsum (filter (λ x, x.1 = m) leases).*2.

(** The communications that can happen next, and what clients hold and what is
    being started after it: clients request at most the procs of a machine, they
    return exactly what they were given, every attempt to start machines ends in
    machines and failures, and machines stop at any time. *)
Inductive allowed (s : sys) : event → list (nat * Z) → list Z → Prop :=
| allowed_sched priority procs machc :
    (1 <= procs <= mm_machprocs (y_mm s))%Z →
    allowed s (ESched (Offer priority procs machc)) (y_leases s) (y_starting s)
| allowed_send m c r rest :
    sq_q (mm_schedQ (y_mm s)) = r :: rest → offered (y_mm s) = Some (m, c) →
    allowed s ESend ((m, rq_procs r) :: y_leases s) (y_starting s)
| allowed_done m procs err now leases :
    y_leases s ≡ₚ (m, procs) :: leases →
    allowed s (EDone m procs err now) leases (y_starting s)
| allowed_probation :
    mm_probation (y_mm s) ≠ [] → allowed s EProbation (y_leases s) (y_starting s)
| allowed_start new nFailures starting :
    (0 <= nFailures)%Z → y_starting s ≡ₚ (Z.of_nat (length new) + nFailures)%Z :: starting →
    NoDup new → (∀ m, m ∈ new → mm_store (y_mm s) !! m = None) →
    allowed s (EStart new nFailures) (y_leases s) starting
| allowed_stopped m :
    is_Some (mm_store (y_mm s) !! m) → allowed s (EStopped m) (y_leases s) (y_starting s).

Definition step (s s' : sys) : Prop :=
  ∃ e leases starting mm n, allowed s e leases starting ∧ Do_iter (y_mm s) e = Ret (Some (mm, n)) ∧
    s' = mkSys mm leases (option_list n ++ starting).

(** The procs of the machines that are there. *)
Definition have (mm : machineManager) : Z :=
  (Z.of_nat (length (mm_machines mm) + length (mm_probation mm)) * mm_machprocs mm)%Z.

Record inv (s : sys) : Prop := {
  inv_pool : pool (mm_store (y_mm s)) (mm_machines (y_mm s)) (mm_probation (y_mm s));
  inv_queue : queue_ok (mm_schedQ (y_mm s));
  inv_requests : ∀ r, r ∈ sq_q (mm_schedQ (y_mm s)) → (1 <= rq_procs r <= mm_machprocs (y_mm s))%Z;
  inv_load : ∀ m x, mm_store (y_mm s) !! m = Some x →
    sm_maxTaskProcs x = mm_machprocs (y_mm s) ∧ sm_taskProcs x = leased m (y_leases s) ∧
    (sm_taskProcs x <= sm_maxTaskProcs x)%Z;
  inv_leases : ∀ m p, (m, p) ∈ y_leases s → is_Some (mm_store (y_mm s) !! m) ∧ (1 <= p)%Z;
  inv_need : mm_need (y_mm s) = (zsum (rq_procs <$> sq_q (mm_schedQ (y_mm s))) + zsum (y_leases s).*2)%Z;
  inv_pending : mm_pending (y_mm s) = (mm_machprocs (y_mm s) * zsum (y_starting s))%Z;
  inv_starting : Forall (λ n, 1 <= n)%Z (y_starting s);
  inv_procs : (1 <= mm_machprocs (y_mm s))%Z;
  inv_max : (have (y_mm s) + mm_pending (y_mm s) < mm_maxp (y_mm s) + mm_machprocs (y_mm s))%Z;
}.

Lemma leased_perm m l1 l2 : l1 ≡ₚ l2 → leased m l1 = leased m l2.
Proof. intros Hp. unfold leased. by rewrite Hp. Qed.

Lemma leased_cons m k p l : leased m ((k, p) :: l) = ((if decide (k = m) then p else 0) + leased m l)%Z.
Proof. unfold leased. rewrite filter_cons. simpl. by case_decide. Qed.

(** Demand is a matter of keys. *)
Lemma procs_perm q q' r :
  request_key <$> q ≡ₚ request_key r :: (request_key <$> q') →
  zsum (rq_procs <$> q) = (rq_procs r + zsum (rq_procs <$> q'))%Z.
Proof.
  intros Hp%(fmap_Permutation (λ k, k.1.2)). rewrite fmap_cons, <-!list_fmap_compose in Hp.
  apply zsum_perm in Hp. exact Hp.
Qed.

Lemma keys_elem q q' r t :
  request_key <$> q ≡ₚ request_key r :: (request_key <$> q') → t ∈ q →
  rq_procs t = rq_procs r ∨ ∃ t', t' ∈ q' ∧ rq_procs t = rq_procs t'.
Proof.
  intros Hp Ht%(list_elem_of_fmap_2 request_key). rewrite Hp in Ht.
  apply elem_of_cons in Ht as [Ht|(t' & Ht & Hin)%list_elem_of_fmap]; injection Ht as _ Ht _; [by left|right].
  by exists t'.
Qed.

(** Loads are unchanged where machines keep their procs. *)
Lemma load_same (st st' : store) procs leases :
  same load st st' →
  (∀ m x, st !! m = Some x → sm_maxTaskProcs x = procs ∧ sm_taskProcs x = leased m leases ∧
     (sm_taskProcs x <= sm_maxTaskProcs x)%Z) →
  ∀ m x, st' !! m = Some x → sm_maxTaskProcs x = procs ∧ sm_taskProcs x = leased m leases ∧
     (sm_taskProcs x <= sm_maxTaskProcs x)%Z.
Proof.
  intros Hs Hl m x Hx. specialize (Hs m). rewrite Hx in Hs. destruct (st !! m) as [y|] eqn:Hy; [|done].
  injection Hs as H1 H2. rewrite H1, H2. by apply Hl.
Qed.

Lemma same_is_Some {A} (field : sliceMachine → A) st st' m : same field st st' → is_Some (st !! m) → is_Some (st' !! m).
Proof. intros Hs [x Hx]. specialize (Hs m). rewrite Hx in Hs. by destruct (st' !! m). Qed.

(** * The choice of a machine *)

Lemma schedule_Some s st ms m c :
  schedule s st ms = Some (m, c) →
  c = rq_machc s ∧ m ∈ ms ∧ (rq_procs s <= sm_maxTaskProcs (mach st m) - sm_taskProcs (mach st m))%Z.
Proof.
  induction ms as [|k ms IH]; simpl; [done|].
  destruct (Z.leb_spec (rq_procs s) (sm_maxTaskProcs (mach st k) - sm_taskProcs (mach st k))).
  - intros [= <- <-]. split_and!; [done|by left|done].
  - intros (-> & Hm & Hp)%IH. split_and!; [done|by right|done].
Qed.

Lemma schedule_None s st ms :
  schedule s st ms = None ↔ ∀ m, m ∈ ms → (sm_maxTaskProcs (mach st m) - sm_taskProcs (mach st m) < rq_procs s)%Z.
Proof.
  induction ms as [|k ms IH]; simpl; [set_solver|].
  destruct (Z.leb_spec (rq_procs s) (sm_maxTaskProcs (mach st k) - sm_taskProcs (mach st k))).
  - split; [done|]. intros Hall. specialize (Hall k ltac:(left)). lia.
  - rewrite IH. split; [|set_solver]. intros Hall m [->|Hm]%elem_of_cons; [done|by apply Hall].
Qed.

(** * The communications keep the invariant *)

(** Evaluates the fields of updated systems. *)
Ltac fields :=
  cbn [y_mm y_leases y_starting with_queue with_machines with_timer with_pending mm_maxp mm_machprocs mm_schedQ
       mm_need mm_pending mm_machines mm_probation mm_timer mm_startFailures mm_store on_sched].

Lemma inv_timer s t : inv s → inv (mkSys (with_timer t (y_mm s)) (y_leases s) (y_starting s)).
Proof. by intros []. Qed.

Lemma pool_alter f st ms pr m :
  (∀ x, sm_index (f x) = sm_index x) → (∀ x, sm_health (f x) = sm_health x) →
  (∀ x, sm_lastFailure (f x) = sm_lastFailure x) → pool st ms pr → pool (alter f m st) ms pr.
Proof.
  intros Hi Hh Hl [? ? Hheap Hok Hf]. split; [by apply placed_alter|by apply placed_alter| | |].
  - by rewrite (failures_same st) by (by apply same_alter).
  - intros k. by rewrite (same_alter sm_health) by done.
  - intros k. by rewrite (same_alter sm_health) by done.
Qed.

Lemma on_sched_inv s priority procs machc :
  inv s → (1 <= procs <= mm_machprocs (y_mm s))%Z →
  inv (mkSys (on_sched (y_mm s) (Offer priority procs machc)) (y_leases s) (y_starting s)).
Proof.
  intros [] Hp. destruct (sq_Push (mm_schedQ (y_mm s)) (Offer priority procs machc)) as [Hq Hperm]; [done|].
  split; try done; fields.
  - intros r Hr. destruct (keys_elem _ _ _ r Hperm Hr) as [->|(r' & Hin & ->)]; [done|by apply inv_requests0].
  - rewrite inv_need0, (procs_perm _ _ _ Hperm). simpl. lia.
Qed.

(** Changing the procs of a machine that are in use, with what clients hold. *)
Lemma load_alter (st : store) procs leases leases' m d :
  (∀ k x, st !! k = Some x → sm_maxTaskProcs x = procs ∧ sm_taskProcs x = leased k leases ∧
     (sm_taskProcs x <= sm_maxTaskProcs x)%Z) →
  (∀ k, leased k leases' = (if decide (m = k) then d else 0) + leased k leases)%Z →
  (∀ x, st !! m = Some x → sm_taskProcs x + d <= sm_maxTaskProcs x)%Z →
  ∀ k x, alter (λ x, with_taskProcs (sm_taskProcs x + d) x) m st !! k = Some x →
    sm_maxTaskProcs x = procs ∧ sm_taskProcs x = leased k leases' ∧ (sm_taskProcs x <= sm_maxTaskProcs x)%Z.
Proof.
  intros Hl Hls Hd k x. destruct (decide (m = k)) as [<-|Hne].
  - rewrite lookup_alter_eq. intros (y & Hy & ->)%fmap_Some. destruct (Hl m y Hy) as (? & Ht & ?).
    simpl. rewrite Hls, decide_True by done. split_and!; [done|lia|by apply Hd].
  - rewrite lookup_alter_ne by done. intros Hx. rewrite Hls, decide_False by done. by apply Hl.
Qed.

Lemma on_send_inv s m c r rest :
  inv s → sq_q (mm_schedQ (y_mm s)) = r :: rest → offered (y_mm s) = Some (m, c) →
  ∃ mm', on_send (y_mm s) m = Ret mm' ∧ inv (mkSys mm' ((m, rq_procs r) :: y_leases s) (y_starting s)).
Proof.
  intros [] Hq Hoff. unfold offered in Hoff. rewrite Hq in Hoff.
  apply schedule_Some in Hoff as (-> & Hm & Hfree).
  destruct (placed_lookup _ _ _ (pool_machines _ _ _ inv_pool0) Hm) as [x Hx].
  rewrite (lookup_mach _ _ _ Hx) in Hfree.
  assert (1 <= rq_procs r)%Z as Hr1 by (apply inv_requests0; rewrite Hq; left).
  destruct (sq_Pop _ _ _ inv_queue0 Hq) as (y & q' & Hpop & Hq' & Hperm & _).
  unfold on_send. rewrite Hq, Hpop. simpl. eexists. split; [done|]. split; try done; fields.
  - by apply pool_alter.
  - intros t Ht. apply (list_elem_of_fmap_2 request_key) in Ht.
    assert (request_key t ∈ request_key <$> sq_q (mm_schedQ (y_mm s))) as (t' & Hk & Hin)%list_elem_of_fmap
      by (rewrite Hperm; by right).
    injection Hk as _ -> _. by apply inv_requests0.
  - eapply load_alter; [done| |].
    + intros k. by rewrite leased_cons.
    + intros y' Hy'. rewrite Hx in Hy'. injection Hy' as <-. lia.
  - intros k p [[= -> ->]|Hin]%elem_of_cons.
    + split; [|done]. by rewrite lookup_alter_is_Some, Hx.
    + destruct (inv_leases0 k p Hin) as [Hk ?]. split; [|done]. by rewrite lookup_alter_is_Some.
  - rewrite inv_need0, (procs_perm _ _ _ Hperm), fmap_cons, zsum_cons. cbn [snd]. lia.
Qed.

(** Everything but the machines stays as it is. *)
Lemma inv_machines s ms pr st' :
  inv s → pool st' ms pr → same load (mm_store (y_mm s)) st' →
  length ms + length pr ≤ length (mm_machines (y_mm s)) + length (mm_probation (y_mm s)) →
  inv (mkSys (with_machines ms pr st' (y_mm s)) (y_leases s) (y_starting s)).
Proof.
  intros [] HP Hload Hlen. split; try done; fields.
  - by eapply load_same.
  - intros m p Hin. destruct (inv_leases0 m p Hin) as [Hm ?]. split; [|done]. by eapply same_is_Some.
  - unfold have in *. simpl. nia.
Qed.

(** The procs that a client returns. *)
Lemma returned_inv s m procs leases :
  inv s → y_leases s ≡ₚ (m, procs) :: leases →
  let st := alter (λ x, with_taskProcs (sm_taskProcs x - procs) x) m (mm_store (y_mm s)) in
  inv (mkSys (with_machines (mm_machines (y_mm s)) (mm_probation (y_mm s)) st
        (with_queue (mm_schedQ (y_mm s)) (mm_need (y_mm s) - procs) (y_mm s))) leases (y_starting s)).
Proof.
  intros [] Hls st. assert ((m, procs) ∈ y_leases s) as Hin by (rewrite Hls; by left).
  destruct (inv_leases0 m procs Hin) as [Hm Hp]. split; try done; fields.
  - by apply pool_alter.
  - eapply (load_alter _ _ (y_leases s) leases m (- procs)); [done| |].
    + intros k. rewrite (leased_perm k _ _ Hls), leased_cons. case_decide; lia.
    + intros x Hx. destruct (inv_load0 m x Hx) as (_ & _ & ?). lia.
  - intros k p Hk. destruct (inv_leases0 k p) as [? ?]; [rewrite Hls; by right|]. split; [|done].
    unfold st. by rewrite lookup_alter_is_Some.
  - rewrite inv_need0. apply (fmap_Permutation snd), zsum_perm in Hls. rewrite Hls, fmap_cons, zsum_cons. cbn [snd]. lia.
Qed.

Lemma pool_health st ms pr m x :
  pool st ms pr → st !! m = Some x →
  match sm_health x with machineOk => m ∈ ms | machineProbation => m ∈ pr | machineLost => ((m ∉ ms) ∧ (m ∉ pr)) end.
Proof.
  intros [_ _ _ Hok Hf] Hx. specialize (Hok m). specialize (Hf m). rewrite Hx in Hok, Hf. simpl in *.
  destruct (sm_health x); naive_solver.
Qed.

Lemma off_probation_inv s m x :
  inv s → mm_store (y_mm s) !! m = Some x → m ∈ mm_probation (y_mm s) →
  ∃ mm', off_probation (y_mm s) m (sm_index x) (mm_store (y_mm s)) = Ret mm' ∧
    inv (mkSys mm' (y_leases s) (y_starting s)).
Proof.
  intros HI Hx Hm. destruct (pool_recover _ _ _ _ _ (inv_pool _ HI) Hm Hx)
    as (st1 & pr' & st' & Hrm & Happ & HP & Hload & Hperm).
  unfold off_probation. rewrite Hrm. cbn [mbind outcome_bind fq_store fq_q]. rewrite Happ. eexists. split; [done|].
  apply inv_machines; [done..|]. apply Permutation_length in Hperm. rewrite Hperm, length_app. simpl. lia.
Qed.

Lemma on_probation_inv s m rest :
  inv s → mm_probation (y_mm s) = m :: rest →
  ∃ mm', on_probation (y_mm s) m = Ret mm' ∧ inv (mkSys mm' (y_leases s) (y_starting s)).
Proof.
  intros HI Hpr. destruct (pool_probation _ _ _ (inv_pool _ HI)) as [_ Hp].
  destruct (Hp 0 m) as (x & Hx & Hi); [by rewrite Hpr|].
  destruct (off_probation_inv s m x HI Hx) as (mm' & Hoff & HI'); [rewrite Hpr; by left|].
  unfold on_probation. change 0%Z with (Z.of_nat 0). rewrite <-Hi, Hoff. eexists. split; [done|].
  by apply (inv_timer (mkSys mm' (y_leases s) (y_starting s))).
Qed.

Lemma on_done_inv s m procs err now leases :
  inv s → y_leases s ≡ₚ (m, procs) :: leases →
  ∃ mm', on_done (y_mm s) m procs err now = Ret mm' ∧ inv (mkSys mm' leases (y_starting s)).
Proof.
  intros HI Hls. pose proof (returned_inv s m procs leases HI Hls) as HI1. cbv zeta in HI1.
  destruct (inv_leases _ HI m procs) as [[x0 Hx0] _]; [rewrite Hls; by left|].
  unfold on_done. set (mm1 := with_queue _ _ _) in *. set (st := alter _ m _) in HI1.
  change (alter _ m (mm_store mm1)) with st. set (mm2 := with_machines _ _ st mm1) in HI1.
  change (with_machines _ _ st mm1) with mm2. set (s2 := mkSys mm2 leases (y_starting s)) in HI1.
  assert (st !! m = Some (with_taskProcs (sm_taskProcs x0 - procs) x0)) as Hx by (unfold st; by rewrite lookup_alter_eq, Hx0).
  set (x := with_taskProcs _ x0) in Hx. rewrite (lookup_mach _ _ _ Hx).
  pose proof (pool_health _ _ _ m x (inv_pool _ HI1) Hx) as Hh.
  destruct (sm_health x) eqn:Hhx.
  - destruct (match err with Some e => negb (is_Remote e) | None => false end); [|by eexists].
    destruct (pool_fail _ _ _ m now (inv_pool _ HI1) Hh) as (ms' & st1 & st' & pr' & Hrm & Hpush & HP & Hload & Hp1 & Hp2).
    change (mm_machines (y_mm s2)) with (mm_machines mm2) in Hrm. change (mm_store (y_mm s2)) with st in Hrm.
    change (mm_probation (y_mm s2)) with (mm_probation mm2) in Hpush.
    rewrite Hrm. cbn [mbind outcome_bind]. rewrite Hpush. eexists. split; [done|].
    apply (inv_machines s2); [done..|]. apply Permutation_length in Hp1, Hp2. simpl in Hp1, Hp2 |- *. lia.
  - destruct err as [e|]; [|by apply (off_probation_inv s2)].
    destruct (pool_refail _ _ _ m x now (inv_pool _ HI1) Hh Hx) as (st' & pr' & Hfix & HP & Hload & Hp).
    change (mm_probation (y_mm s2)) with (mm_probation mm2) in Hfix. change (mm_store (y_mm s2)) with st in Hfix.
    rewrite Hfix. eexists. split; [done|]. apply (inv_machines s2); [done..|].
    apply Permutation_length in Hp. simpl in Hp |- *. lia.
  - by eexists.
Qed.

Lemma on_stopped_inv s m :
  inv s → is_Some (mm_store (y_mm s) !! m) →
  ∃ mm', on_stopped (y_mm s) m = Ret mm' ∧ inv (mkSys mm' (y_leases s) (y_starting s)).
Proof.
  intros HI [x Hx]. unfold on_stopped. rewrite (lookup_mach _ _ _ Hx).
  pose proof (pool_health _ _ _ m x (inv_pool _ HI) Hx) as Hh. destruct (sm_health x) eqn:Hhx.
  - destruct (pool_lose_ok _ _ _ m (inv_pool _ HI) Hh) as (ms' & st' & Hrm & HP & Hload & Hp).
    rewrite Hrm. eexists. split; [done|]. apply inv_machines; [done..|].
    apply Permutation_length in Hp. rewrite Hp. simpl. lia.
  - destruct (pool_lose_probation _ _ _ m x (inv_pool _ HI) Hh Hx) as (st' & pr' & Hrm & HP & Hload & Hp).
    rewrite Hrm. eexists. split; [done|]. apply inv_machines; [done..|].
    apply Permutation_length in Hp. rewrite Hp. simpl. lia.
  - eexists. split; [done|]. apply inv_machines; [done| | |done].
    + replace (alter (with_health machineLost) m (mm_store (y_mm s))) with (mm_store (y_mm s)); [by destruct HI|].
      symmetry. apply map_eq. intros k. destruct (decide (k = m)) as [->|]; [|by rewrite lookup_alter_ne].
      rewrite lookup_alter_eq, Hx. simpl. f_equal. destruct x; simpl in *. by subst.
    + by apply same_alter.
Qed.

Lemma leased_none m ls : (∀ p, (m, p) ∉ ls) → leased m ls = 0%Z.
Proof.
  induction ls as [|[k p] ls IH]; intros Hn; [done|]. rewrite leased_cons.
  case_decide as Hk; [subst; by destruct (Hn p); left|].
  rewrite IH; [done|]. intros p' Hin. apply (Hn p'). by right.
Qed.

Lemma on_start_inv s new nFailures starting :
  inv s → (0 <= nFailures)%Z → y_starting s ≡ₚ (Z.of_nat (length new) + nFailures)%Z :: starting →
  NoDup new → (∀ m, m ∈ new → mm_store (y_mm s) !! m = None) →
  inv (mkSys (on_start (y_mm s) new nFailures) (y_leases s) starting).
Proof.
  intros [] HnF Hst Hnd Hnew. unfold on_start.
  destruct (pool_start (mm_machprocs (y_mm s)) new _ _ _ inv_pool0 Hnd Hnew) as (st' & Hfold & HP & Ho & Hl).
  rewrite Hfold.
  assert (∀ m, m ∈ new → leased m (y_leases s) = 0%Z) as Hnone.
  { intros m Hm. apply leased_none. intros p Hin. destruct (inv_leases0 m p Hin) as [[x Hx] _].
    rewrite Hnew in Hx; done. }
  pose proof inv_starting0 as Hst1. rewrite Hst in Hst1. apply Forall_cons_iff in Hst1 as [Hk Hst1].
  assert (zsum (y_starting s) = Z.of_nat (length new) + nFailures + zsum starting)%Z as Hsum by (rewrite Hst; done).
  split; try done; fields.
  - intros m x Hx. destruct (decide (m ∈ new)) as [Hm|Hm].
    + specialize (Hl m Hm). rewrite Hx in Hl. injection Hl as -> ->. rewrite Hnone by done. lia.
    + rewrite Ho in Hx by done. by apply inv_load0.
  - intros m p Hin. destruct (inv_leases0 m p Hin) as [[x Hx] ?]. split; [|done].
    destruct (decide (m ∈ new)) as [Hm|Hm]; [|by rewrite Ho, Hx].
    specialize (Hl m Hm). by destruct (st' !! m).
  - rewrite inv_pending0, Hsum. lia.
  - unfold have in *. fields. rewrite length_app. nia.
Qed.

(** Machines are started until there are enough, ten at a time, and never more
    than the limit allows. *)
Lemma scale_up_spec mm mm' n :
  scale_up mm = (mm', n) → (1 <= mm_machprocs mm)%Z →
  match n with
  | None => mm' = mm ∧ (mm_need mm `min` mm_maxp mm <= have mm + mm_pending mm)%Z
  | Some k => mm' = with_pending (mm_pending mm + k * mm_machprocs mm) (mm_startFailures mm) mm ∧
      (1 <= k <= maxStartMachines)%Z ∧
      (have mm + mm_pending mm' < mm_maxp mm + mm_machprocs mm)%Z ∧
      (k = maxStartMachines ∨ mm_need mm `min` mm_maxp mm <= have mm + mm_pending mm')%Z
  end.
Proof.
  unfold scale_up. fold (have mm). intros Hs Hp.
  destruct (Z.ltb_spec (have mm + mm_pending mm) (mm_need mm)); simpl in Hs; [|injection Hs as <- <-; split; [done|lia]].
  destruct (Z.ltb_spec (have mm + mm_pending mm) (mm_maxp mm)); [|injection Hs as <- <-; split; [done|lia]].
  injection Hs as <- <-. split; [done|]. fields.
  set (x := (mm_need mm `min` mm_maxp mm - have mm - mm_pending mm)%Z) in *.
  assert (1 <= x)%Z by (unfold x; lia).
  rewrite Z.quot_div_nonneg by lia. set (q := ((x + mm_machprocs mm - 1) / mm_machprocs mm)%Z).
  pose proof (Z.mod_pos_bound (x + mm_machprocs mm - 1) (mm_machprocs mm) ltac:(lia)).
  assert (mm_machprocs mm * q + (x + mm_machprocs mm - 1) mod mm_machprocs mm = x + mm_machprocs mm - 1)%Z as Hdm
    by (unfold q; symmetry; apply Z.div_mod; lia).
  assert (1 <= q)%Z by (unfold q; apply Z.div_le_lower_bound; lia).
  unfold maxStartMachines. split_and!; [lia|lia| |].
  - unfold x in *. nia.
  - destruct (Z.le_gt_cases 10 q); [left; lia|right]. rewrite (Z.min_l q 10) by lia. unfold x in *. nia.
Qed.

Lemma scale_up_inv s mm' n :
  inv s → scale_up (y_mm s) = (mm', n) → inv (mkSys mm' (y_leases s) (option_list n ++ y_starting s)).
Proof.
  intros HI Hs. pose proof (scale_up_spec _ _ _ Hs (inv_procs _ HI)) as Hspec.
  destruct n as [k|]; simpl option_list; [|destruct Hspec as [-> _]; by destruct s].
  destruct Hspec as (-> & Hk & Hmax & _). destruct HI. split; try done; fields.
  - rewrite inv_pending0. cbn [app]. rewrite zsum_cons. lia.
  - cbn [app]. constructor; [lia|done].
Qed.

(** * Reachable states *)

Lemma Do_iter_inv s e leases starting :
  inv s → allowed s e leases starting →
  ∃ mm n, Do_iter (y_mm s) e = Ret (Some (mm, n)) ∧ inv (mkSys mm leases (option_list n ++ starting)) ∧
    match n with
    | None => (mm_need mm `min` mm_maxp mm <= have mm + mm_pending mm)%Z
    | Some k => (k = maxStartMachines ∨ mm_need mm `min` mm_maxp mm <= have mm + mm_pending mm)%Z
    end.
Proof.
  intros HI Hal.
  assert (∃ mm, Do_select (set_timer (y_mm s)) e = Ret (Some mm) ∧ inv (mkSys mm leases starting)) as (mm1 & Hsel & HI1).
  { assert (∃ t, set_timer (y_mm s) = with_timer t (y_mm s)) as [t ->]
      by (unfold set_timer; destruct (mm_probation (y_mm s)); eauto).
    apply (inv_timer s t) in HI. set (s1 := mkSys _ _ _) in HI.
    destruct Hal as [priority procs machc Hp|m c r rest Hq Hoff|m procs err now leases Hls|Hpr|new nF starting HnF Hst Hnd Hnew|m Hm];
      cbn [Do_select].
    - eexists. split; [done|]. by apply (on_sched_inv s1).
    - change (offered (with_timer t (y_mm s))) with (offered (y_mm s)). rewrite Hoff.
      destruct (on_send_inv s1 m c r rest HI Hq Hoff) as (mm & Hr & HI'). exists mm.
      unfold s1 in Hr. cbn [y_mm] in Hr. by rewrite Hr.
    - destruct (on_done_inv s1 m procs err now leases HI Hls) as (mm & Hr & HI'). exists mm.
      unfold s1 in Hr. cbn [y_mm] in Hr. by rewrite Hr.
    - cbn [with_timer mm_probation]. destruct (mm_probation (y_mm s)) as [|m rest] eqn:Hpm; [done|].
      destruct (on_probation_inv s1 m rest HI Hpm) as (mm & Hr & HI'). exists mm.
      unfold s1 in Hr. cbn [y_mm] in Hr. by rewrite Hr.
    - eexists. split; [done|]. by apply (on_start_inv s1).
    - destruct (on_stopped_inv s1 m HI Hm) as (mm & Hr & HI'). exists mm.
      unfold s1 in Hr. cbn [y_mm] in Hr. by rewrite Hr. }
  destruct (scale_up mm1) as [mm2 n] eqn:Hsc. exists mm2, n. unfold Do_iter. rewrite Hsel. cbn [mbind outcome_bind].
  split_and!; [by rewrite <-Hsc|by apply (scale_up_inv (mkSys mm1 leases starting))|].
  pose proof (scale_up_spec _ _ _ Hsc (inv_procs _ HI1)) as Hspec.
  destruct n as [k|]; [destruct Hspec as (-> & _ & _ & Hk)|destruct Hspec as [-> Hk]]; done.
Qed.

Definition start (maxprocs scaled maxp : Z) : sys := mkSys (newMachineManager maxprocs scaled maxp) [] [].
Definition reachable (maxprocs scaled maxp : Z) (s : sys) : Prop := rtc step (start maxprocs scaled maxp) s.

Lemma pool_empty : pool ∅ [] [].
Proof.
  assert (placed ∅ []) as Hp by (split; [constructor|done]).
  split; [done|done|intros j; simpl; lia|..]; intros m; rewrite lookup_empty; set_solver.
Qed.

Lemma start_inv maxprocs scaled maxp : (1 <= maxprocs)%Z → (0 <= maxp)%Z → inv (start maxprocs scaled maxp).
Proof.
  intros Hm Hp. unfold start, newMachineManager.
  assert (0 <= (maxp + maxprocs - 1) `quot` maxprocs)%Z by (apply Z.quot_pos; lia).
  destruct (Z.ltb_spec scaled 1); split; fields; try done; try apply pool_empty; try lia; try set_solver.
  all: try (split; [intros j; simpl; lia|done]); try (intros m x; by rewrite lookup_empty).
  all: unfold have; simpl; lia.
Qed.

Lemma reachable_inv maxprocs scaled maxp s :
  (1 <= maxprocs)%Z → (0 <= maxp)%Z → reachable maxprocs scaled maxp s → inv s.
Proof.
  intros Hm Hp Hr. pose proof (start_inv maxprocs scaled maxp Hm Hp) as HI. unfold reachable in Hr.
  induction Hr as [|s1 s2 s3 (e & ls & st & mm & n & Hal & Hit & ->) _ IH]; [done|]. apply IH.
  destruct (Do_iter_inv s1 e ls st HI Hal) as (mm' & n' & Hit' & HI' & _). rewrite Hit in Hit'. by simplify_eq.
Qed.

(** The limits never change. *)
Definition limits (mm : machineManager) : Z * Z := (mm_maxp mm, mm_machprocs mm).

Lemma off_probation_limits mm m i st mm' : off_probation mm m i st = Ret mm' → limits mm' = limits mm.
Proof. unfold off_probation. intros ([k q] & _ & H)%outcome_bind_Ret. by injection H as <-. Qed.

Lemma on_done_limits mm m procs err now mm' : on_done mm m procs err now = Ret mm' → limits mm' = limits mm.
Proof.
  unfold on_done. destruct (sm_health _).
  - destruct (match err with Some e => _ | None => _ end); [|by intros [= <-]].
    intros ([ms st] & _ & [= <-])%outcome_bind_Ret. done.
  - destruct err as [e|]; [|by intros H%off_probation_limits]. intros (q & _ & [= <-])%outcome_bind_Ret. done.
  - by intros [= <-].
Qed.

Lemma on_stopped_limits mm m mm' : on_stopped mm m = Ret mm' → limits mm' = limits mm.
Proof.
  unfold on_stopped. destruct (sm_health _); [| |by intros [= <-]];
    intros ([k q] & _ & [= <-])%outcome_bind_Ret; done.
Qed.

Lemma outcome_fmap_Ret {A B} (f : A → B) o b : f <$> o = Ret b → ∃ a, o = Ret a ∧ b = f a.
Proof. destruct o; simpl; intros [= <-]. by eexists. Qed.

Lemma Do_select_limits mm e mm' : Do_select mm e = Ret (Some mm') → limits mm' = limits mm.
Proof.
  destruct e; cbn [Do_select].
  - destruct (offered mm) as [[m c]|]; [|done]. intros (x & Hx & [= <-])%outcome_fmap_Ret. revert Hx. unfold on_send.
    destruct (sq_q (mm_schedQ mm)); [done|]. by intros ([k q] & _ & [= <-])%outcome_bind_Ret.
  - destruct (mm_probation mm) as [|m rest]; [done|]. intros (x & Hx & [= <-])%outcome_fmap_Ret.
    apply outcome_bind_Ret in Hx as (y & Hy%off_probation_limits & [= <-]). done.
  - by intros (x & Hx%on_done_limits & [= <-])%outcome_fmap_Ret.
  - by intros [= <-].
  - intros (x & Hx & [= <-])%outcome_fmap_Ret. revert Hx. unfold on_unsched. case_match; [by intros [= <-]|].
    by intros ([k q] & _ & [= <-])%outcome_bind_Ret.
  - intros [= <-]. unfold on_start. by destruct (fold_left _ _ _).
  - by intros (x & Hx%on_stopped_limits & [= <-])%outcome_fmap_Ret.
Qed.

Lemma reachable_limits maxprocs scaled maxp s :
  reachable maxprocs scaled maxp s → limits (y_mm s) = limits (newMachineManager maxprocs scaled maxp).
Proof.
  unfold reachable. change (newMachineManager maxprocs scaled maxp) with (y_mm (start maxprocs scaled maxp)).
  induction 1 as [|s1 s2 s3 (e & ls & st & mm & n & _ & Hit & ->) _ IH]; [done|]. rewrite IH. simpl.
  apply outcome_bind_Ret in Hit as (res & Hsel & Hsc). destruct res as [mm1|]; [|done]. injection Hsc as Hsc.
  apply Do_select_limits in Hsel. transitivity (limits mm1).
  - unfold scale_up in Hsc. by case_match; injection Hsc as <- _.
  - rewrite Hsel. unfold set_timer. by case_match.
Qed.

(** * Theorems *)

(** C9. However requests, returned procs, failures, restarts and stops of
    machines interleave, the manager never panics, and no machine is ever given
    more work than it has procs for: the procs in use on a machine are exactly
    those that clients hold on it. *)
Theorem manager_safe maxprocs scaled maxp s :
  (1 <= maxprocs)%Z → (0 <= maxp)%Z → reachable maxprocs scaled maxp s →
  (∀ e leases starting, allowed s e leases starting → ∃ mm n, Do_iter (y_mm s) e = Ret (Some (mm, n))) ∧
  ∀ m x, mm_store (y_mm s) !! m = Some x →
    sm_taskProcs x = leased m (y_leases s) ∧ (0 <= sm_taskProcs x <= sm_maxTaskProcs x)%Z.
Proof.
  intros Hm Hp Hr. pose proof (reachable_inv _ _ _ _ Hm Hp Hr) as HI. split.
  - intros e ls st Hal. destruct (Do_iter_inv s e ls st HI Hal) as (mm & n & Hit & _). by exists mm, n.
  - intros m x Hx. destruct (inv_load _ HI m x Hx) as (_ & Ht & Hle). split_and!; [done| |done].
    rewrite Ht. apply zsum_nonneg. apply list.Forall_forall. intros p ([k q] & -> & Hin)%list_elem_of_fmap.
    apply list_elem_of_filter in Hin as [_ Hin]. destruct (inv_leases _ HI k q Hin). simpl. lia.
Qed.


Lemma idle_offered s r rest :
  inv s → sq_q (mm_schedQ (y_mm s)) = r :: rest → y_leases s = [] → mm_machines (y_mm s) ≠ [] →
  is_Some (offered (y_mm s)).
Proof.
  intros HI Hq Hls Hms. unfold offered. rewrite Hq.
  destruct (schedule r (mm_store (y_mm s)) (mm_machines (y_mm s))) eqn:Hs; [done|]. exfalso.
  rewrite schedule_None in Hs. destruct (mm_machines (y_mm s)) as [|m ms] eqn:Hm; [done|].
  specialize (Hs m ltac:(left)). destruct (placed_lookup _ _ m (pool_machines _ _ _ (inv_pool _ HI))) as [x Hx];
    [rewrite Hm; left|].
  rewrite (lookup_mach _ _ _ Hx) in Hs. destruct (inv_load _ HI m x Hx) as (Hmax & Ht & _).
  rewrite Hls in Ht. change (leased m []) with 0%Z in Ht.
  pose proof (inv_requests _ HI r) as Hreq. rewrite Hq in Hreq. specialize (Hreq ltac:(left)). lia.
Qed.

Lemma need_pos s r rest :
  inv s → sq_q (mm_schedQ (y_mm s)) = r :: rest → y_leases s = [] → (1 <= mm_need (y_mm s))%Z.
Proof.
  intros [_ _ Hreq _ _ Hneed _ _ _ _] Hq Hls. rewrite Hneed, Hq, Hls, fmap_cons, zsum_cons. rewrite Hq in Hreq.
  assert (0 <= zsum (rq_procs <$> rest))%Z.
  { apply zsum_nonneg, list.Forall_forall. intros z (r' & -> & Hr')%list_elem_of_fmap.
    specialize (Hreq r' ltac:(by right)). lia. }
  specialize (Hreq r ltac:(left)). change (zsum [].*2) with 0%Z. lia.
Qed.

(** C11. The manager is never stuck: while requests wait, the first of them is
    offered a machine, or procs are in use that will be returned, or machines
    are being started, or machines are on probation. *)
Theorem manager_progress maxprocs scaled maxp s :
  (1 <= maxprocs)%Z → (1 <= maxp)%Z → reachable maxprocs scaled maxp s →
  sq_q (mm_schedQ (y_mm s)) ≠ [] →
  is_Some (offered (y_mm s)) ∨ y_leases s ≠ [] ∨ y_starting s ≠ [] ∨ mm_probation (y_mm s) ≠ [].
Proof.
  intros Hm Hp Hr Hq. assert (0 <= maxp)%Z as Hp0 by lia. pose proof (reachable_inv _ _ _ _ Hm Hp0 Hr) as HI.
  destruct (decide (y_leases s = [])) as [Hls|]; [|by right; left].
  destruct (decide (y_starting s = [])) as [Hst|]; [|by right; right; left].
  destruct (decide (mm_probation (y_mm s) = [])) as [Hpr|]; [|by right; right; right].
  left. destruct (sq_q (mm_schedQ (y_mm s))) as [|r rest] eqn:Hqr; [done|].
  eapply idle_offered; [done..|]. intros Hms.
  pose proof (reachable_limits _ _ _ _ Hr) as Hlim.
  apply rtc_inv_r in Hr as [<-|(s0 & Hr & e & ls & st & mm & n & Hal & Hit & ->)].
  { unfold start, newMachineManager in Hqr. by destruct (scaled <? 1)%Z. }
  pose proof (reachable_inv _ _ _ _ Hm Hp0 Hr) as HI0.
  destruct (Do_iter_inv s0 e ls st HI0 Hal) as (mm' & n' & Hit' & _ & Hn). rewrite Hit in Hit'.
  injection Hit' as <- <-. destruct n as [k|]; [done|]. cbn [y_mm y_leases y_starting option_list app] in *.
  pose proof (need_pos _ _ _ HI Hqr Hls). pose proof (inv_pending _ HI) as Hpend. cbn [y_mm y_starting] in *.
  assert (1 <= mm_maxp mm)%Z.
  { assert (mm_maxp mm = mm_maxp (newMachineManager maxprocs scaled maxp)) as -> by (by injection Hlim).
    unfold newMachineManager. destruct (scaled <? 1)%Z; [|done]. simpl. apply Z.quot_le_lower_bound; lia. }
  unfold have in Hn. rewrite Hms, Hpr, Hpend, Hst in Hn. simpl in Hn. lia.
Qed.

(** C31. The manager offers a machine for the request of the lowest priority value,
    among those for the one with the highest demand, and the machine is a healthy
    one with enough free procs; it offers none only if there is no request, or no
    healthy machine has room for that request. *)
Theorem offered_correct maxprocs scaled maxp s :
  (1 <= maxprocs)%Z → (0 <= maxp)%Z → reachable maxprocs scaled maxp s →
  let mm := y_mm s in
  let free m := (sm_maxTaskProcs (mach (mm_store mm) m) - sm_taskProcs (mach (mm_store mm) m))%Z in
  match offered mm with
  | Some (m, c) => ∃ r, r ∈ sq_q (mm_schedQ mm) ∧ (∀ t, t ∈ sq_q (mm_schedQ mm) → request_less t r = false) ∧
      c = rq_machc r ∧ sm_health (mach (mm_store mm) m) = machineOk ∧ (rq_procs r <= free m)%Z
  | None => sq_q (mm_schedQ mm) = [] ∨ ∃ r, r ∈ sq_q (mm_schedQ mm) ∧
      (∀ t, t ∈ sq_q (mm_schedQ mm) → request_less t r = false) ∧
      ∀ m, m ∈ mm_machines mm → (free m < rq_procs r)%Z
  end.
Proof.
  intros Hm Hp Hr. cbv zeta. pose proof (reachable_inv _ _ _ _ Hm Hp Hr) as HI. unfold offered.
  set (mm := y_mm s). destruct (sq_q (mm_schedQ mm)) as [|r rest] eqn:Hq; [by left|].
  destruct (sq_Pop _ _ _ (inv_queue _ HI) Hq) as (_ & _ & _ & _ & _ & Hmin). fold mm in Hmin. rewrite Hq in Hmin.
  destruct (schedule r (mm_store mm) (mm_machines mm)) as [[m c]|] eqn:Hs.
  - apply schedule_Some in Hs as (-> & Hin & Hfree). exists r. split_and!; [left|done|done| |done].
    apply (pool_ok _ _ _ (inv_pool _ HI)) in Hin. apply fmap_Some in Hin as (x & Hx & ->).
    unfold mm. by rewrite (lookup_mach _ _ _ Hx).
  - rewrite schedule_None in Hs. right. exists r. split_and!; [left|done|done].
Qed.

(** Cancelling a request takes another one out of the queue.  The function
    that Offer returns sends its own copy of the request, in which the position
    is still 0: the manager removes the first request, the one it is about to
    serve, whichever was cancelled, and panics if the queue is empty because the
    request has been served. *)
Theorem Offer_cancel_removes_first maxprocs scaled maxp s priority procs machc :
  (1 <= maxprocs)%Z → (0 <= maxp)%Z → reachable maxprocs scaled maxp s →
  let mm := y_mm s in
  match sq_q (mm_schedQ mm) with
  | [] => on_unsched mm (Offer priority procs machc) = Panic "index out of range"
  | r :: _ => ∃ mm', on_unsched mm (Offer priority procs machc) = Ret mm' ∧
      request_key <$> sq_q (mm_schedQ mm) ≡ₚ request_key r :: (request_key <$> sq_q (mm_schedQ mm')) ∧
      mm_need mm' = (mm_need mm - procs)%Z
  end.
Proof.
  intros Hm Hp Hr mm. pose proof (reachable_inv _ _ _ _ Hm Hp Hr) as HI. fold mm in HI.
  unfold on_unsched, heap_Remove. simpl rq_index. cbv iota. change (0 <? 0)%Z with false. cbv iota. change (Z.to_nat 0) with 0.
  destruct (sq_q (mm_schedQ mm)) as [|r rest] eqn:Hq.
  { unfold Remove. simpl. by rewrite Hq. }
  destruct (inv_queue _ HI) as [Hh _]. fold mm in Hh.
  destruct (Remove_spec (HL := scheduleRequestQ_laws) (mm_schedQ mm) 0 (request_key r))
    as (x & q' & Hrm & Hv & Hperm & _).
  { apply (is_heap_fix_inv key_less); [|exact Hh]. simpl. rewrite Hq. simpl. lia. }
  { simpl. by rewrite Hq. }
  rewrite Hrm. eexists. split; [done|]. split; [|done]. rewrite <-Hq. exact Hperm.
Qed.

(** * Lost machines *)

Fixpoint Assign_all (m : nat) (tasks : list nat) (st : store) (w : world) : outcome (store * world) :=
  match tasks with
  | [] => Ret (st, w)
  | t :: tasks => '(st, w) ← Assign m t st w; Assign_all m tasks st w
  end.

Definition task_state (w : world) (t : nat) : option TaskState := t_state <$> w_tasks w !! t.

Lemma Set_Lost t w :
  is_Some (w_tasks w !! t) → ∃ w', Set_ t TaskLost w = Ret w' ∧ task_state w' t = Some TaskLost ∧
    (∀ k, k ≠ t → task_state w' k = task_state w k) ∧ dom (w_tasks w') = dom (w_tasks w).
Proof.
  intros [T HT]. unfold Set_, with_task. rewrite HT. eexists. split; [done|].
  destruct (Broadcast_spec t (with_state TaskLost (t_err T) T) w) as [Hw _]. cbv zeta in Hw.
  unfold task_state. rewrite Hw. split_and!.
  - by rewrite lookup_insert_eq.
  - intros k Hk. by rewrite lookup_insert_ne.
  - rewrite dom_insert_L. apply elem_of_dom_2 in HT. set_solver.
Qed.

Lemma lose_all_spec tasks w :
  (∀ t, t ∈ tasks → is_Some (w_tasks w !! t)) →
  ∃ w', lose_all tasks w = Ret w' ∧ (∀ t, t ∈ tasks → task_state w' t = Some TaskLost) ∧
    (∀ t, task_state w t = Some TaskLost → task_state w' t = Some TaskLost) ∧ dom (w_tasks w') = dom (w_tasks w).
Proof.
  revert w. induction tasks as [|t tasks IH]; intros w Hin; simpl.
  { exists w. split_and!; [done|set_solver|done|done]. }
  destruct (Set_Lost t w) as (w1 & -> & Ht & Ho & Hd); [apply Hin; by left|]. simpl.
  destruct (IH w1) as (w' & -> & Hall & Hkeep & Hd').
  { intros k Hk. apply elem_of_dom. rewrite Hd. apply elem_of_dom, Hin. by right. }
  exists w'. split_and!; [done| | |by rewrite Hd'].
  - intros k [->|Hk]%elem_of_cons; [by apply Hkeep|by apply Hall].
  - intros k Hk. apply Hkeep. destruct (decide (k = t)) as [->|]; [done|]. by rewrite Ho.
Qed.

Lemma Assign_all_live m tasks st w x :
  st !! m = Some x → sm_lost x = false →
  ∃ st', Assign_all m tasks st w = Ret (st', w) ∧ st' !! m = Some (with_lost false (sm_tasks x ++ tasks) x).
Proof.
  revert st x. induction tasks as [|t tasks IH]; intros st x Hx Hl; simpl.
  { exists st. rewrite app_nil_r. split; [done|]. rewrite Hx. destruct x. simpl in *. by subst. }
  unfold Assign at 1. rewrite (lookup_mach _ _ _ Hx), Hl. cbn [mbind outcome_bind].
  destruct (IH (alter (λ s, with_lost (sm_lost s) (sm_tasks s ++ [t]) s) m st)
    (with_lost false (sm_tasks x ++ [t]) x)) as (st' & Hr & Hst').
  { rewrite lookup_alter_eq, Hx. simpl. by rewrite Hl. }
  { done. }
  exists st'. split; [done|]. rewrite Hst'. simpl. by rewrite <-(assoc_L (++)).
Qed.

Lemma Assign_all_lost m tasks st w x :
  st !! m = Some x → sm_lost x = true → (∀ t, t ∈ tasks → is_Some (w_tasks w !! t)) →
  ∃ w', Assign_all m tasks st w = Ret (st, w') ∧ (∀ t, t ∈ tasks → task_state w' t = Some TaskLost) ∧
    (∀ t, task_state w t = Some TaskLost → task_state w' t = Some TaskLost).
Proof.
  intros Hx Hl Hin. destruct (lose_all_spec tasks w Hin) as (w' & Hw & Hall & Hkeep & _). exists w'. split; [|done].
  clear -Hw Hx Hl. revert w Hw. induction tasks as [|t tasks IH]; intros w Hw; simpl in *; [by injection Hw as <-|].
  unfold Assign. rewrite (lookup_mach _ _ _ Hx), Hl. apply outcome_bind_Ret in Hw as (w1 & -> & Hw). simpl. by apply IH.
Qed.

(** When a machine stops, every task that was assigned to it is lost, and so
    is every task that is assigned to it later, so that the evaluator runs them
    again elsewhere. *)
Theorem machine_stopped_loses_tasks m x before after st w :
  st !! m = Some x → sm_lost x = false → sm_tasks x = [] →
  (∀ t, t ∈ before ++ after → is_Some (w_tasks w !! t)) →
  ∃ st1 st2 w2 w', Assign_all m before st w = Ret (st1, w) ∧ machine_stopped m st1 w = Ret (st2, w2) ∧
    Lost st2 m = true ∧ Assign_all m after st2 w2 = Ret (st2, w') ∧
    ∀ t, t ∈ before ++ after → task_state w' t = Some TaskLost.
Proof.
  intros Hx Hl Ht Hin. destruct (Assign_all_live m before st w x Hx Hl) as (st1 & H1 & Hx1). rewrite Ht in Hx1.
  destruct (lose_all_spec before w) as (w2 & Hw2 & Hall & _ & Hd); [intros t Hb; apply Hin; set_solver|].
  set (st2 := alter (with_lost true []) m st1).
  assert (st2 !! m = Some (with_lost true [] x)) as Hx2 by (unfold st2; by rewrite lookup_alter_eq, Hx1).
  destruct (Assign_all_lost m after st2 w2 _ Hx2) as (w' & Hw' & Hall' & Hkeep); [done| |].
  { intros t Ha. apply elem_of_dom. rewrite Hd. apply elem_of_dom, Hin. set_solver. }
  exists st1, st2, w2, w'. split_and!; [done| |by unfold Lost; rewrite (lookup_mach _ _ _ Hx2)|done|].
  - unfold machine_stopped. rewrite (lookup_mach _ _ _ Hx1). simpl. by rewrite Hw2.
  - intros t [Hb|Ha]%elem_of_app; [by apply Hkeep, Hall|by apply Hall'].
Qed.

(** * Starting machines *)

Lemma compact_loop_spec rest : ∀ pre mid,
  ∃ ms n, compact_loop (length (pre ++ mid)) (length pre) (pre ++ mid ++ rest) (length rest) = (ms, n) ∧
    take n ms = pre ++ (Some <$> omap id rest).
Proof.
  induction rest as [|c rest IH]; intros pre mid; cbn [length compact_loop].
  { eexists _, _. split; [done|]. by rewrite take_app_length, app_nil_r. }
  assert ((pre ++ mid ++ c :: rest) !! length (pre ++ mid) = Some c) as ->
    by (rewrite (assoc_L (++)); by rewrite list_lookup_middle).
  destruct c as [m|].
  - assert (∃ mid', <[length pre := Some m]> (pre ++ mid ++ Some m :: rest) = (pre ++ [Some m]) ++ mid' ++ rest ∧
      length mid' = length mid) as (mid' & -> & Hl).
    { destruct mid as [|c mid]; simpl.
      - exists []. simpl. rewrite list_insert_id by (by rewrite list_lookup_middle). by rewrite <-(assoc_L (++)).
      - exists (mid ++ [Some m]). rewrite insert_app_r_alt, Nat.sub_diag by done. simpl.
        rewrite <-!(assoc_L (++)). simpl. split; [done|]. rewrite length_app. simpl. lia. }
    destruct (IH (pre ++ [Some m]) mid') as (ms & n & Hc & Ht). exists ms, n. rewrite <-(assoc_L (++)) in Ht. split; [|done].
    rewrite <-Hc. f_equal; rewrite ?length_app; simpl; lia.
  - destruct (IH pre (mid ++ [None])) as (ms & n & Hc & Ht). exists ms, n. split; [|done].
    rewrite <-Hc, <-(assoc_L (++)). simpl. f_equal. rewrite !length_app. simpl. lia.
Qed.

(** The result is the machines that started, in order. *)
Lemma startMachines_spec l : startMachines l = Some <$> omap id l.
Proof.
  unfold startMachines. destruct (compact_loop_spec l [] []) as (ms & n & Hc & Ht). simpl in Hc. by rewrite Hc.
Qed.
