(* ===== verification/MachineLife.v ===== *)
(** The life of a machine (src/exec/slicemachine.go): its start, the polling of its
    statistics until it is lost, and the timer that ends its probation. *)
From S2P Require Import Prelude Heap SliceIO Task Stats FuncDiff Machines MachinesSpec MachinesRun.

(** * The probation timer *)

(** A time.Timer: whether it is running, for which time, and whether a value is in its
    channel, which has room for one. *)
Record goTimer := mkGoTimer { gt_active : bool; gt_when : Z; gt_chan : bool }.

Definition NewTimer (when : Z) : goTimer := mkGoTimer true when false.
(** Stops the timer, and reports if it was running. *)
Definition Stop (t : goTimer) : goTimer * bool := (mkGoTimer false (gt_when t) (gt_chan t), gt_active t).
Definition Reset (when : Z) (t : goTimer) : goTimer := mkGoTimer true when (gt_chan t).
(** A receive blocks for as long as there is no value. *)
Definition receive (t : goTimer) : option goTimer :=
  if gt_chan t then Some (mkGoTimer (gt_active t) (gt_when t) false) else None.
(** The runtime sends a value when the time has come. *)
Definition fire (now : Z) (t : goTimer) : goTimer :=
  if gt_active t && (gt_when t <=? now)%Z then mkGoTimer false (gt_when t) true else t.

Record timer := mkTimer { tm_t : option goTimer; tm_at : Z }.

Definition no_timer : timer := mkTimer None 0.

Definition Clear (t : timer) : timer :=
  match tm_t t with
  | None => t
  | Some g => mkTimer None (tm_at t)
  end.

(** [None] is a call that blocks: a timer that was stopped does not send any more. *)
Definition Set_at (at_ : Z) (t : timer) : option timer :=
  match tm_t t with
  | None => Some (mkTimer (Some (NewTimer at_)) at_)
  | Some g =>
      if (tm_at t =? at_)%Z then Some t
      else
        let '(g, stopped) := Stop g in
        g ← (if stopped then Some g else receive g);
        Some (mkTimer (Some (Reset at_ g)) at_)
  end.

(** The channel of the timer, nil if it is cleared. *)
Definition C (t : timer) : option bool := gt_chan <$> tm_t t.

(** What happens to the timer: time passes, the runtime sends, the manager sets it, clears
    it, or receives from it and then clears it. *)
Inductive timer_op := tAdvance (d : nat) | tFire | tSet (at_ : Z) | tClear | tReceive.

Definition timer_step (o : timer_op) (s : Z * timer) : option (Z * timer) :=
  let '(now, t) := s in
  match o with
  | tAdvance d => Some (now + Z.of_nat d, t)%Z
  | tFire => Some (now, mkTimer (fire now <$> tm_t t) (tm_at t))
  | tSet at_ => t ← Set_at at_ t; Some (now, t)
  | tClear => Some (now, Clear t)
  | tReceive => g ← tm_t t; g ← receive g; Some (now, Clear (mkTimer (Some g) (tm_at t)))
  end.

Fixpoint timer_run (ops : list timer_op) (s : Z * timer) : option (Z * timer) :=
  match ops with [] => Some s | o :: ops => s ← timer_step o s; timer_run ops s end.

(** The time for which the timer is set. *)
Definition armed (o : timer_op) (a : option Z) : option Z :=
  match o with tSet at_ => Some at_ | tClear | tReceive => None | _ => a end.

(** The select of the manager receives only when there is a value. *)
Inductive timer_ops : Z → list timer_op → option Z → Z * timer → Prop :=
| ops_nil now : timer_ops now [] None (now, no_timer)
| ops_snoc now ops a s o s' :
    timer_ops now ops a s → (o = tReceive → C (snd s) = Some true) → timer_step o s = Some s' → timer_ops now (ops ++ [o]) (armed o a) s'.

(** What the manager does before its select. *)
Definition arm (mm : machineManager) : timer_op :=
  match mm_probation mm with
  | [] => tClear
  | m :: _ => tSet (sm_lastFailure (mach (mm_store mm) m) + ProbationTimeout)
  end.

Lemma arm_set_timer mm a : armed (arm mm) a = mm_timer (set_timer mm).
Proof. unfold arm, set_timer. by destruct (mm_probation mm). Qed.

(** The timer is set for a time: it is running, or that time has come and a value is in the
    channel. *)
Definition timer_ok (a : option Z) (s : Z * timer) : Prop :=
  match a with
  | None => tm_t (snd s) = None
  | Some at_ => tm_at (snd s) = at_ ∧ ∃ g, tm_t (snd s) = Some g ∧ gt_when g = at_ ∧
      if gt_active g then gt_chan g = false else gt_chan g = true ∧ (at_ <= fst s)%Z
  end.

Lemma timer_step_ok o a s :
  timer_ok a s → (o = tReceive → C (snd s) = Some true) → ∃ s', timer_step o s = Some s' ∧ timer_ok (armed o a) s'.
Proof.
  destruct s as [now t]. intros Hok Hr. destruct o as [d| |at_| |]; cbn [timer_step armed].
  - eexists. split; [done|]. destruct a as [at_|]; [|done]. destruct Hok as (? & g & ? & ? & Hg). split; [done|]. exists g. split_and!; [done..|].
    cbn [fst] in *. destruct (gt_active g); [done|]. destruct Hg. split; [done|lia].
  - eexists. split; [done|]. destruct a as [at_|]; cbn [timer_ok snd fst tm_t tm_at] in *; [|by rewrite Hok].
    destruct Hok as (? & g & -> & Hw & Hg). split; [done|]. eexists. split; [done|]. unfold fire.
    destruct (gt_active g) eqn:Ha; cbn [andb]; [|by rewrite Ha]. destruct (Z.leb_spec (gt_when g) now); [|by rewrite Ha]. cbn. split_and!; [done..|lia].
  - unfold Set_at. destruct a as [at0|]; cbn [timer_ok snd fst] in Hok.
    + destruct Hok as (<- & g & Hg & Hw & Hcase). rewrite Hg. destruct (Z.eqb_spec (tm_at t) at_) as [<-|Hne].
      * eexists. split; [done|]. split; [done|]. by exists g.
      * unfold Stop, receive. destruct (gt_active g) eqn:Ha; cbn [mbind option_bind gt_chan gt_active gt_when].
        -- eexists. split; [done|]. split; [done|]. eexists. by split_and!.
        -- destruct Hcase as [-> _]. eexists. split; [done|]. split; [done|]. eexists. by split_and!.
    + rewrite Hok. eexists. split; [done|]. split; [done|]. eexists. by split_and!.
  - eexists. split; [done|]. unfold Clear. by destruct (tm_t t) eqn:Ht.
  - specialize (Hr eq_refl). unfold C in Hr. cbn [snd] in Hr. destruct (tm_t t) as [g|] eqn:Hg; [|done]. cbn [mbind option_bind]. unfold receive.
    injection Hr as ->. by eexists.
Qed.


(** A timer whose value was received blocks a later Set; clearing it prevents this. *)
Example timer_needs_clear :
  (g ← receive (fire 5 (NewTimer 3)); Set_at 9 (mkTimer (Some g) 3)) = None ∧
  (g ← receive (fire 5 (NewTimer 3)); Set_at 9 (Clear (mkTimer (Some g) 3))) = Some (mkTimer (Some (NewTimer 9)) 9).
Proof. done. Qed.

(** * Polling *)

Section polling.
Context {MemInfo DiskInfo LoadInfo : Type}.

(** What was last polled from a machine. *)
Record machineInfo := mkInfo { mi_mem : MemInfo; mi_disk : DiskInfo; mi_load : LoadInfo; mi_vals : Values }.

(** The results of the four calls of a round. *)
Record poll := mkPoll { po_mem : MemInfo + error; po_disk : DiskInfo + error; po_load : LoadInfo + error; po_vals : Values + error }.

Definition latest {A} (new : A + error) (old : A) : A := match new with inl x => x | inr _ => old end.

Definition record_poll (i : machineInfo) (p : poll) : machineInfo :=
  mkInfo (latest (po_mem p) (mi_mem i)) (latest (po_disk p) (mi_disk i)) (latest (po_load p) (mi_load i)) (latest (po_vals p) (mi_vals i)).

(** The counters and the health that the status of a machine shows: its own counters are
    added to a copy of those that were polled. *)
Definition UpdateStatus (iter : list (string * nat) → list (string * nat)) (stats : StatsMap) (h : ints) (health : machineHealth) (i : machineInfo) :
    string * string :=
  let values := AddAll iter stats h (Values_Copy (mi_vals i)) in
  (Values_String values, match health with machineOk => "" | machineProbation => " (probation)" | machineLost => " (lost)" end).

Inductive wake := wakeInterval | wakeCanceled | wakeStopped.

(** A round of the loop: whether the context was canceled before it, the tasks that were
    assigned to the machine during it, the results of the poll, and what ended its wait. *)
Record round := mkRound { ro_canceled : bool; ro_assigned : list nat; ro_poll : poll; ro_wake : wake }.

Definition stop (m : nat) (i : machineInfo) (st : store) (w : world) : outcome (machineInfo * store * world) :=
  '(st, w) ← machine_stopped m st w; Ret (i, st, w).

(** The context of a machine stays canceled. *)
Fixpoint Go (m : nat) (rounds : list round) (i : machineInfo) (st : store) (w : world) : outcome (machineInfo * store * world) :=
  match rounds with
  | [] => NoFuel
  | r :: rounds =>
      if ro_canceled r then stop m i st w
      else
        '(st, w) ← Assign_all m (ro_assigned r) st w;
        let i := record_poll i (ro_poll r) in
        match ro_wake r with
        | wakeInterval => Go m rounds i st w
        | wakeCanceled | wakeStopped => stop m i st w
        end
  end.

(** The rounds of a machine until it is lost. *)
Fixpoint polled (rounds : list round) : option (list round) :=
  match rounds with
  | [] => None
  | r :: rounds =>
      if ro_canceled r then Some []
      else match ro_wake r with
           | wakeInterval => (r ::.) <$> polled rounds
           | _ => Some [r]
           end
  end.

Lemma stop_ok m i st w x :
  st !! m = Some x → (∀ t, t ∈ sm_tasks x → is_Some (w_tasks w !! t)) →
  ∃ st' w', stop m i st w = Ret (i, st', w') ∧ Lost st' m = true ∧ ∀ t, t ∈ sm_tasks x → task_state w' t = Some TaskLost.
Proof.
  intros Hx Hin. destruct (lose_all_spec (sm_tasks x) w Hin) as (w' & Hw & Hall & _). unfold stop, machine_stopped.
  rewrite (lookup_mach _ _ _ Hx), Hw. cbn [mbind outcome_bind]. eexists _, w'. split; [done|]. split; [|done]. unfold Lost, mach. by rewrite lookup_alter_eq, Hx.
Qed.

(** A machine that is lost at some time: its information is, for each of the four polls,
    that of the last round in which the poll succeeded, and every task that was assigned to
    it is lost. *)
Theorem Go_correct m rounds rs i st w x :
  st !! m = Some x → sm_lost x = false → polled rounds = Some rs →
  (∀ t, t ∈ sm_tasks x ++ concat (ro_assigned <$> rs) → is_Some (w_tasks w !! t)) →
  ∃ st' w', Go m rounds i st w = Ret (foldl record_poll i (ro_poll <$> rs), st', w') ∧ Lost st' m = true ∧
    ∀ t, t ∈ sm_tasks x ++ concat (ro_assigned <$> rs) → task_state w' t = Some TaskLost.
Proof.
  revert rs i st x. induction rounds as [|r rounds IH]; intros rs i st x Hx Hl Hp Hin; [done|]. cbn [polled Go] in *.
  destruct (ro_canceled r).
  { injection Hp as <-. cbn [fmap list_fmap concat foldl] in *. rewrite app_nil_r in *. by apply stop_ok. }
  destruct (Assign_all_live m (ro_assigned r) st w x Hx Hl) as (st1 & -> & Hx1). cbn [mbind outcome_bind].
  assert (∃ rs', rs = r :: rs') as [rs' ->].
  { destruct (ro_wake r); [|by injection Hp as <-; eexists..]. destruct (polled rounds); [|done]. injection Hp as <-. by eexists. }
  rewrite !fmap_cons in *. cbn [concat foldl] in *. rewrite (assoc_L (++)) in *.
  destruct (ro_wake r); [destruct (polled rounds) as [rs2|] eqn:Hrs; [|done]; injection Hp as <-; by apply (IH rs2 _ st1 (with_lost false (sm_tasks x ++ ro_assigned r) x))|..];
    injection Hp as <-; cbn [fmap list_fmap concat foldl] in *; rewrite app_nil_r in *; by apply (stop_ok m _ st1 w (with_lost false (sm_tasks x ++ ro_assigned r) x)).
Qed.

Lemma foldl_latest {A B} (get : B → A + error) (l : list B) (x : A) :
  foldl (λ x b, latest (get b) x) x l = default x (list.last (omap (λ b, match get b with inl y => Some y | inr _ => None end) l)).
Proof.
  revert x. induction l as [|b l IH] using rev_ind; intros x; [done|]. rewrite foldl_app, omap_app. cbn [foldl omap list_omap]. rewrite IH.
  destruct (get b) as [y|e]; cbn [latest]; [by rewrite last_snoc|by rewrite app_nil_r].
Qed.

(** Each field is the result of the last poll that succeeded. *)
Lemma recorded_vals (i : machineInfo) (ps : list poll) :
  mi_vals (foldl record_poll i ps) =
    default (mi_vals i) (list.last (omap (λ p, match po_vals p with inl y => Some y | inr _ => None end) ps)).
Proof. rewrite <-(foldl_latest po_vals). revert i. induction ps as [|p ps IH]; intros i; [done|]. cbn [foldl]. by rewrite IH. Qed.
End polling.

(** * Starting *)

(** A machine that was asked for: how its boot ended, and the reply to the request for its
    func locations. *)
Record booted := mkBooted { bo_Err : option error; bo_FuncLocations : list string + error }.

Definition boot (FuncLocations : list string) (i : nat) (b : booted) : outcome (option nat) :=
  match bo_Err b with
  | Some _ => Ret None
  | None =>
      match bo_FuncLocations b with
      | inr _ => Ret None
      | inl workerFuncLocs =>
          diff ← FuncLocationsDiff FuncLocations workerFuncLocs;
          match diff with
          | [] => Ret (Some i)
          | _ => Panic "machine has different funcs; check for local or non-deterministic Func creation"
          end
      end
  end.

(** The machines are booted from number [i] on. *)
Fixpoint boot_all (FuncLocations : list string) (i : nat) (bs : list booted) : outcome (list (option nat)) :=
  match bs with
  | [] => Ret []
  | b :: bs => m ← boot FuncLocations i b; ms ← boot_all FuncLocations (S i) bs; Ret (m :: ms)
  end.

Definition start_machines (FuncLocations : list string) (started : list booted + error) : outcome (list (option nat)) :=
  match started with
  | inr _ => Ret []
  | inl bs => slicemachines ← boot_all FuncLocations 0 bs; Ret (startMachines slicemachines)
  end.

(** A machine that runs and has the funcs of the driver. *)
Definition boots (FuncLocations : list string) (b : booted) : bool :=
  bool_decide (bo_Err b = None) && match bo_FuncLocations b with inl locs => bool_decide (locs = FuncLocations) | inr _ => false end.
Definition differs (FuncLocations : list string) (b : booted) : bool :=
  bool_decide (bo_Err b = None) && match bo_FuncLocations b with inl locs => bool_decide (locs ≠ FuncLocations) | inr _ => false end.

Lemma boot_spec F i b : boot F i b = if differs F b then Panic "machine has different funcs; check for local or non-deterministic Func creation" else Ret (if boots F b then Some i else None).
Proof.
  unfold boot, differs, boots. destruct (bo_Err b) as [e|]; [done|]. rewrite bool_decide_true by done. cbn [andb].
  destruct (bo_FuncLocations b) as [locs|e]; [|done]. pose proof (FuncLocationsDiff_nil F locs) as Hn.
  destruct (FuncLocationsDiff_spec F locs) as (s & _ & _ & _ & Hd). rewrite Hd in Hn |- *. cbn [mbind outcome_bind].
  destruct (if bool_decide _ then _ else _) as [|e l] eqn:He.
  - rewrite bool_decide_false by (intros Hne; by apply Hne, eq_sym, Hn). by rewrite bool_decide_true by (symmetry; by apply Hn).
  - rewrite bool_decide_true; [done|]. intros ->. by pose proof (proj2 Hn eq_refl).
Qed.

Lemma boot_all_spec F i bs :
  if existsb (differs F) bs then boot_all F i bs = Panic "machine has different funcs; check for local or non-deterministic Func creation"
  else boot_all F i bs = Ret (imap (λ k b, if boots F b then Some (i + k) else None) bs).
Proof.
  revert i. induction bs as [|b bs IH]; intros i; [done|]. cbn [existsb boot_all]. rewrite boot_spec. destruct (differs F b); [done|]. cbn [orb mbind outcome_bind].
  specialize (IH (S i)). destruct (existsb (differs F) bs); rewrite IH; [done|]. cbn [mbind outcome_bind]. f_equal. cbn [imap]. f_equal; [by rewrite Nat.add_0_r|].
  apply imap_ext. intros k b' _. cbn [compose]. by rewrite Nat.add_succ_r.
Qed.

(** startMachines returns, in the order in which they were asked for, exactly the machines
    that run and have the funcs of the driver; a machine with other funcs is a panic. *)
Theorem start_machines_correct F bs :
  if existsb (differs F) bs then start_machines F (inl bs) = Panic "machine has different funcs; check for local or non-deterministic Func creation"
  else start_machines F (inl bs) = Ret (Some <$> omap id (imap (λ k b, if boots F b then Some k else None) bs)).
Proof.
  pose proof (boot_all_spec F 0 bs) as H. unfold start_machines. destruct (existsb (differs F) bs); rewrite H; [done|].
  cbn [mbind outcome_bind]. by rewrite startMachines_spec.
Qed.

Example start_machines_example :
  start_machines ["a.go:1"; "b.go:2"]
    (inl [mkBooted (Some (Err Other "boot")) (inl []); mkBooted None (inl ["a.go:1"; "b.go:2"]); mkBooted None (inr (Err Other "call"));
          mkBooted None (inl ["a.go:1"; "b.go:2"])]) = Ret [Some 1; Some 3].
Proof. vm_compute. reflexivity. Qed.
