(* ===== verification/Driver.v ===== *)
(** The driver side of the cluster executor (src/exec/bigmachine.go:
    bigmachineExecutor): the choice of a machine manager, compiling invocations on
    machines, running a task on a machine, and where results are.

    Machines are the class [Machines]: the calls that the driver makes, by address.
    The machine a task runs on is the one that the manager offered (Machines.v).
    Statistics, tracing and status are left out. *)
From S2P Require Import Prelude Types SliceIO Retry Slices Task Compile Local Machines Worker.

(** * Calls to machines *)

(** The error of a call: one that the worker returned, or one of the call itself. *)
Inductive callError := RemoteError (e : error) | CallError (e : error).

#[export] Instance callError_eq_dec : EqDecision callError.
Proof. solve_decision. Defined.

Class Machines (M : Type) := {
  mc_Compile : nat → M → string → execInvocation → outcome (M * option callError);
  mc_Commit : nat → M → string → string → outcome (M * option callError);
  mc_Run : nat → M → string → taskRunRequest → outcome (M * option callError);
  mc_Discard : M → string → TaskName → outcome (M * option callError);
  mc_Reader : M → string → Typ → TaskName → Z → anyReader row;
}.

(** An argument of an invocation in the driver: a value, the result of an invocation,
    or the reference that has replaced a result. *)
Inductive driverArg := dValue (v : value) | dResult (invIndex : Z) | dRef (invIndex : Z).

Record driverInvocation := mkDriverInvocation {
  di_Index : Z;
  di_Func : Z;
  di_Args : list driverArg;
  di_Exclusive : bool;
  di_Location : string;
  di_Env : CompileEnv;
}.

(** * The executor *)

(** An error of compile: of a call, of gob, or an unknown result. *)
Inductive compileError := CompileCall (e : callError) | EncodeError | InvalidResult.

#[export] Instance compileError_eq_dec : EqDecision compileError.
Proof. solve_decision. Defined.

Section driver.
Context {M : Type} `{Machines M} {O1 : Type} `{Once Z compileError O1} {O2 : Type} `{Once string callError O2}.
(** gob-encoding an invocation succeeds; the order in which a map is iterated. *)
Context (encodes : driverInvocation → bool) (iter : list Z → list Z).

Record driver := mkDriver {
  dv_mu : bool;
  dv_locations : gmap nat string;
  dv_invocations : gmap Z driverInvocation;
  dv_invocationDeps : gmap Z (gset Z);
  dv_encoded : gmap Z execInvocation;
  dv_compiles : gmap string O1;
  dv_commits : gmap string O2;
  dv_managers : list (option machineManager);
}.

(** [Start] makes the maps. *)
Definition newDriver : driver := mkDriver false ∅ ∅ ∅ ∅ ∅ ∅ [].

Definition with_mu (b : bool) (d : driver) : driver :=
  mkDriver b (dv_locations d) (dv_invocations d) (dv_invocationDeps d) (dv_encoded d) (dv_compiles d) (dv_commits d) (dv_managers d).
Definition with_compiled (addr : string) (o : O1) (d : driver) : driver :=
  mkDriver (dv_mu d) (dv_locations d) (dv_invocations d) (dv_invocationDeps d) (dv_encoded d) (<[addr := o]> (dv_compiles d))
    (dv_commits d) (dv_managers d).
Definition with_committed (addr : string) (o : O2) (d : driver) : driver :=
  mkDriver (dv_mu d) (dv_locations d) (dv_invocations d) (dv_invocationDeps d) (dv_encoded d) (dv_compiles d)
    (<[addr := o]> (dv_commits d)) (dv_managers d).

(** [manager]: managers with odd numbers run one task on each machine. *)
Definition manager (maxprocs scaled p i : Z) (d : driver) : outcome (driver * machineManager) :=
  let ms := dv_managers d ++ replicate (Z.to_nat (i + 1) - length (dv_managers d)) None in
  m ← index ms i;
  match m with
  | Some mm => Ret (d, mm)
  | None =>
      let mm := newMachineManager maxprocs (if (i mod 2 =? 1)%Z then 0 else scaled) p in
      Ret (mkDriver (dv_mu d) (dv_locations d) (dv_invocations d) (dv_invocationDeps d) (dv_encoded d) (dv_compiles d)
             (dv_commits d) (<[Z.to_nat i := Some mm]> ms), mm)
  end.

Definition location (d : driver) (t : nat) : option string := dv_locations d !! t.
Definition setLocation (t : nat) (addr : string) (d : driver) : driver :=
  mkDriver (dv_mu d) (<[t := addr]> (dv_locations d)) (dv_invocations d) (dv_invocationDeps d) (dv_encoded d) (dv_compiles d)
    (dv_commits d) (dv_managers d).

(** ** Compile *)

Definition send_arg (a : driverArg) : invArg := match a with dValue v => argValue v | dResult i | dRef i => argRef i end.
Definition send (inv : driverInvocation) : execInvocation :=
  mkExecInvocation (di_Index inv) (di_Func inv) (send_arg <$> di_Args inv) (di_Location inv) (di_Env inv).

Definition with_deps (deps : gmap Z (gset Z)) (d : driver) : driver :=
  mkDriver (dv_mu d) (dv_locations d) (dv_invocations d) deps (dv_encoded d) (dv_compiles d) (dv_commits d) (dv_managers d).

(** Replaces results by references, in place, and records them as dependencies.  An
    argument whose invocation is not known has been replaced when the loop ends. *)
Fixpoint record_deps (index : Z) (args : list driverArg) (d : driver) : driver * list driverArg * bool :=
  match args with
  | [] => (d, [], true)
  | dResult i :: args =>
      if decide (is_Some (dv_invocations d !! i)) then
        let '(d, args, ok) := record_deps index args
          (with_deps (<[index := {[i]} ∪ default ∅ (dv_invocationDeps d !! index)]> (dv_invocationDeps d)) d) in
        (d, dRef i :: args, ok)
      else (d, dRef i :: args, false)
  | arg :: args =>
      let '(d, args, ok) := record_deps index args d in (d, arg :: args, ok)
  end.

Definition with_args (args : list driverArg) (inv : driverInvocation) : driverInvocation :=
  mkDriverInvocation (di_Index inv) (di_Func inv) args (di_Exclusive inv) (di_Location inv) (di_Env inv).

(** The part under the lock that an invocation is recorded in, with the invocation as
    it is afterwards.  If it cannot be encoded, the function returns without releasing
    the lock. *)
Definition record_invocation (inv : driverInvocation) (d : driver) : driver * driverInvocation * option compileError :=
  if decide (is_Some (dv_invocations d !! di_Index inv)) then (d, inv, None)
  else
    let '(d, args, ok) := record_deps (di_Index inv) (di_Args inv) d in
    let inv := with_args args inv in
    if negb ok then (d, inv, Some InvalidResult)
    else
      let d := mkDriver (dv_mu d) (dv_locations d) (<[di_Index inv := inv]> (dv_invocations d)) (dv_invocationDeps d)
        (dv_encoded d) (dv_compiles d) (dv_commits d) (dv_managers d) in
      if encodes inv then
        (mkDriver (dv_mu d) (dv_locations d) (dv_invocations d) (dv_invocationDeps d) (<[di_Index inv := send inv]> (dv_encoded d))
           (dv_compiles d) (dv_commits d) (dv_managers d), inv, None)
      else (with_mu true d, inv, Some EncodeError).

(** The traversal of the invocation graph. *)
Fixpoint traverse (fuel : nat) (deps : gmap Z (gset Z)) (todo : list Z) : outcome (list Z) :=
  match todo with
  | [] => Ret []
  | i :: todo =>
      match fuel with
      | 0 => NoFuel
      | S fuel => rest ← traverse fuel deps (todo ++ iter (elements (default ∅ (deps !! i)))); Ret (i :: rest)
      end
  end.

(** [m.Compiles.Do] for one invocation.  One that was not encoded would be sent as an
    empty message, which the worker fails to decode. *)
Definition compile_on (fuel : nat) (addr : string) (i : Z) (d : driver) (ms : M) : outcome (driver * M * option compileError) :=
  let o := default once_new (dv_compiles d !! addr) in
  match once_get o i with
  | Some err => Ret (d, ms, err)
  | None =>
      '(ms, err) ← match dv_encoded d !! i with
                   | Some inv => mc_Compile fuel ms addr inv
                   | None => Ret (ms, Some (RemoteError (Err Other "error gob-decoding invocation: EOF")))
                   end;
      let err := CompileCall <$> err in
      Ret (with_compiled addr (once_put o i err) d, ms, err)
  end.

Fixpoint compile_all (fuel : nat) (addr : string) (is_ : list Z) (d : driver) (ms : M) : outcome (driver * M * option compileError) :=
  match is_ with
  | [] => Ret (d, ms, None)
  | i :: is_ =>
      '(d, ms, err) ← compile_on fuel addr i d ms;
      match err with
      | Some e => Ret (d, ms, Some e)
      | None => compile_all fuel addr is_ d ms
      end
  end.

(** [compile]; [None] if the lock is never released. *)
Definition driver_compile (fuel : nat) (addr : string) (inv : driverInvocation) (d : driver) (ms : M) :
    outcome (option (driver * M * driverInvocation * option compileError)) :=
  if dv_mu d then Ret None
  else
    match record_invocation inv d with
    | (d, inv, Some e) => Ret (Some (d, ms, inv, Some e))
    | (d, inv, None) =>
        is_ ← traverse fuel (dv_invocationDeps d) [di_Index inv];
        '(d, ms, err) ← compile_all fuel addr (reverse is_) d ms;
        Ret (Some (d, ms, inv, err))
    end.

(** [commit]. *)
Definition driver_commit (fuel : nat) (addr key : string) (d : driver) (ms : M) : outcome (driver * M * option callError) :=
  let o := default once_new (dv_commits d !! addr) in
  match once_get o key with
  | Some err => Ret (d, ms, err)
  | None =>
      '(ms, err) ← mc_Commit fuel ms addr key;
      Ret (with_committed addr (once_put o key err) d, ms, err)
  end.

(** ** Run *)

(** The index of a machine in the request, which is added to it if it is new. *)
Definition machine_index (addr : string) (machines : list string) : list string * nat :=
  match list_find (λ a, a = addr) machines with
  | Some (j, _) => (machines, j)
  | None => (machines ++ [addr], length machines)
  end.

(** The part of the request, and the commits, for the tasks of one dependency; or the
    task that has no location, with the commits that were started before. *)
Fixpoint request_tasks (d : driver) (key : string) (us : list nat) (machines : list string) (locs : list Z)
    (commits : list (string * string)) : (list string * list Z * list (string * string)) + (nat * list (string * string)) :=
  match us with
  | [] => inl (machines, locs, commits)
  | u :: us =>
      match location d u with
      | None => inr (u, commits)
      | Some addr =>
          let '(machines, j) := machine_index addr machines in
          request_tasks d key us machines (locs ++ [Z.of_nat j]) (if bool_decide (key = "") then commits else commits ++ [(addr, key)])
      end
  end.

Fixpoint request_deps (w : world) (d : driver) (deps : list TaskDep) (machines : list string) (locs : list Z)
    (commits : list (string * string)) : outcome ((list string * list Z * list (string * string)) + (nat * list (string * string))) :=
  match deps with
  | [] => Ret (inl (machines, locs, commits))
  | dep :: deps =>
      n ← NumTask w dep;
      us ← dep_tasks w dep 0 n;
      match request_tasks d (dep_CombineKey dep) us machines locs commits with
      | inr u => Ret (inr u)
      | inl (machines, locs, commits) => request_deps w d deps machines locs commits
      end
  end.

(** The commits run concurrently; all are made, and the first error is returned. *)
Fixpoint commit_all (fuel : nat) (commits : list (string * string)) (d : driver) (ms : M) : outcome (driver * M * option callError) :=
  match commits with
  | [] => Ret (d, ms, None)
  | (addr, key) :: commits =>
      '(d, ms, err) ← driver_commit fuel addr key d ms;
      '(d, ms, err') ← commit_all fuel commits d ms;
      Ret (d, ms, match err with Some e => Some e | None => err' end)
  end.

(** How a run ends: whether the procs were returned to the machine (the call of
    [m.Done]), and the state of everything, with the invocation that the tasks share; or
    it blocks. *)
Record ran := mkRan { rn_driver : driver; rn_machines : M; rn_world : world; rn_inv : driverInvocation; rn_done : option (option callError) }.
Inductive ranResult := Ran (r : ran) | Blocks.

Definition call_error (e : compileError) : callError :=
  match e with
  | CompileCall e => e
  | EncodeError => CallError (Err Fatal "error gob-encoding invocation")
  | InvalidResult => CallError (Err Other "invalid result invocation")
  end.

(** The call of Worker.Run and what comes of it. *)
Definition run_on (fuel : nat) (inv : driverInvocation) (addr : string) (t : nat) (req : taskRunRequest) (d : driver) (ms : M) (w : world) : outcome ranResult :=
  w ← Set_ t TaskRunning w;
  '(ms, err) ← mc_Run fuel ms addr req;
  match err with
  | None => w ← Set_ t TaskOk w; Ret (Ran (mkRan (setLocation t addr d) ms w inv (Some None)))
  | Some (RemoteError e) =>
      if is_fatal e
      then w ← Error t e w; Ret (Ran (mkRan d ms w inv (Some (Some (RemoteError e)))))
      else w ← Set_ t TaskLost w; Ret (Ran (mkRan d ms w inv (Some (Some (RemoteError e)))))
  | Some (CallError e) => w ← Set_ t TaskLost w; Ret (Ran (mkRan d ms w inv (Some (Some (CallError e)))))
  end.

(** The cluster that a task runs on, and the procs it is offered a machine for. *)
Definition task_cluster (inv : driverInvocation) : Z := if di_Exclusive inv then di_Index inv else 0.
Definition task_procs (T : cTask) (machprocs : Z) : Z :=
  let procs := Procs (ct_Pragma T) in
  if Exclusive (ct_Pragma T) || (machprocs <? procs)%Z then machprocs else procs.

(** The run of a task on the machine at [addr], from the loop that compiles on.  The
    assignment of the task to the machine at the end is in Machines.v. *)
Fixpoint driver_Run (fuel : nat) (inv : driverInvocation) (addr : string) (t : nat) (tasks : gmap nat cTask) (d : driver) (ms : M) (w : world) :
    outcome ranResult :=
  match fuel with
  | 0 => NoFuel
  | S fuel' =>
      T ← deref tasks t;
      res ← driver_compile fuel addr inv d ms;
      match res with
      | None => Ret Blocks
      | Some (d, ms, inv, Some e) =>
          match e with
          | CompileCall (CallError (Err Canceled _)) =>
              let o := default once_new (dv_compiles d !! addr) in
              driver_Run fuel' inv addr t tasks (with_compiled addr (once_forget o (di_Index inv)) d) ms w
          | CompileCall (RemoteError _) | EncodeError =>
              w ← Errorf t "failed to compile invocation on machine" w; Ret (Ran (mkRan d ms w inv (Some (Some (call_error e)))))
          | _ => w ← Set_ t TaskLost w; Ret (Ran (mkRan d ms w inv (Some (Some (call_error e)))))
          end
      | Some (d, ms, inv, None) =>
          req ← request_deps w d (ct_Deps T) [] [] [];
          match req with
          | inr (u, commits) =>
              '(d, ms, _) ← commit_all fuel commits d ms;
              w ← Errorf t "task has no location" w; Ret (Ran (mkRan d ms w inv (Some None)))
          | inl (machines, locs, commits) =>
              '(d, ms, err) ← commit_all fuel commits d ms;
              match err with
              | Some e => w ← Errorf t "failed to commit combiner" w; Ret (Ran (mkRan d ms w inv None))
              | None => run_on fuel inv addr t (mkTaskRunRequest (di_Index inv) (ct_Name T) machines locs) d ms w
              end
          end
      end
  end.

(** ** Readers and Discard *)

(** The reader of a task's output; [evaluated] is the machine on which the task is
    when its data are opened, after it has been evaluated again if it was lost. *)
Definition driver_Reader (tasks : gmap nat cTask) (t : nat) (partition : Z) (evaluated : nat → option string) (d : driver) (ms : M) :
    outcome (anyReader row) :=
  T ← deref tasks t;
  match location d t with
  | None => Ret (pack (mkErrReader (Err NotExist "task")))
  | Some _ =>
      if negb (bool_decide (ct_CombineKey T = "")) then Ret (pack (mkErrReader (Err Other "cannot read tasks with combine keys")))
      else match evaluated t with
           | None => nil_deref
           | Some addr => Ret (mc_Reader ms addr (ct_Type T) (ct_Name T) partition)
           end
  end.

Definition driver_Discard (tasks : gmap nat cTask) (t : nat) (d : driver) (ms : M) (w : world) : outcome (M * world) :=
  T ← deref tasks t;
  if bool_decide (is_Some (ct_Combiner T)) && negb (bool_decide (ct_CombineKey T = "")) then Ret (ms, w)
  else
    R ← deref (w_tasks w) t;
    if decide (t_state R = TaskOk) then
      let w := upd_task t (with_state TaskRunning (t_err R) R) w in
      match location d t with
      | None => Ret (ms, w)
      | Some addr =>
          '(ms, _) ← mc_Discard ms addr (ct_Name T);
          w ← Set_ t TaskLost w;
          Ret (ms, w)
      end
    else Ret (ms, w).
End driver.
