(* ===== verification/Cluster.v ===== *)
(** A cluster (src/exec/bigmachine.go): the driver and its workers, which are known by
    address, read from each other, and come and go.

    Calls reach a machine that is up; the reply of a call can be lost, and then the
    driver sees an error of the call although the worker has done its work.  A call is
    one step: what happens on different machines at the same time is taken to happen
    in some order. *)
From S2P Require Import Prelude Types SliceIO Retry Slices Readers Task Compile CompileGraph Store Local Machines WorkerOut WorkerCombine Worker Driver.

Section cluster.
Context {C : Type} `{CombinerOps C} {CF : Type} `{CombiningFrameOps CF}.
Context {E : Type} `{RowEncoding E} {St : Type} `{Store St} {O : Type} `{Once Z error O}.
Context (defaultChunksize : nat) (frame_Hash : row → outcome Z).
Context (SReader : Slice → Z → list (anyReader row) → outcome (anyReader row)).
Context (invoke : Z → list invArg → outcome Slice).
Context (iter_addrs : list string → list string) (shuffle : list (anyReader row) → list (anyReader row)).

#[local] Abbreviation worker := (Worker.worker (C := C) (St := St) (O := O)).
#[local] Abbreviation machines := (gmap string worker).

(** * The network *)

Definition unreachable : error := Err Temporary "machine is unreachable".
Definition reset : error := Err Temporary "connection reset by peer".

(** The reader of a task's output on a worker. *)
Definition remote_reader (ms : machines) (addr : string) (typ : Typ) (name : TaskName) (p : Z) : anyReader row :=
  match ms !! addr with
  | Some w => match Worker_Read name p 0 w with
              | inl data => decoding typ data
              | inr e => pack (mkErrReader e)
              end
  | None => pack (mkErrReader unreachable)
  end.

#[export] Instance cluster_network : Network machines := {|
  nw_Dial ms addr := match ms !! addr with Some _ => None | None => Some unreachable end;
  nw_Stat ms addr name p := match ms !! addr with Some w => Worker_Stat name p w | None => inr unreachable end;
  nw_Reader := remote_reader;
|}.

(** A call of the machine at an address; the reply may be lost. *)
Definition call {R} (ms : machines) (addr : string) (lost : bool) (f : worker → outcome (worker * R)) (err : R → option error) :
    outcome (machines * option callError) :=
  match ms !! addr with
  | None => Ret (ms, Some (CallError unreachable))
  | Some w =>
      '(w, r) ← f w;
      Ret (<[addr := w]> ms, if lost then Some (CallError reset) else RemoteError <$> err r)
  end.

Definition commit_on (fuel : nat) (key : string) (w : worker) : outcome (worker * option runError) :=
  '(s, err) ← combine_alone (CF := CF) (E := E) defaultChunksize fuel fuel (tCommit (mkTaskName 0 key 0 0) None) (wk_shared w);
  Ret (with_shared w s, err).

(** A run that waits for another run of the task has no result yet. *)
Definition run_call (fuel : nat) (req : taskRunRequest) (ms : machines) (w : worker) : outcome (worker * option error) :=
  '(w, res) ← Worker_Run (CF := CF) (E := E) defaultChunksize iter_addrs shuffle fuel ms req w;
  match res with RunDone err => Ret (w, err) | RunWaits => NoFuel end.

#[export] Instance cluster_machines (lost_compile lost_run : bool) : Machines machines := {|
  mc_Compile fuel ms addr inv := call ms addr lost_compile (Worker_Compile frame_Hash SReader invoke fuel inv) id;
  mc_Commit fuel ms addr key :=
    call ms addr false (commit_on fuel key) (λ err, (λ e, match e with plainErr e | maybeTaskFatalErr e => e end) <$> err);
  mc_Run fuel ms addr req := call ms addr lost_run (run_call fuel req ms) id;
  mc_Discard ms addr name := call ms addr false (Worker_Discard name) id;
  mc_Reader := remote_reader;
|}.

(** * Steps *)

Context {O1 : Type} `{Once Z compileError O1} {O2 : Type} `{Once string callError O2}.
Context (encodes : driverInvocation → bool) (iter : list Z → list Z).
Context (machineCombiners : bool) (new_store : string → St).

(** The state of an invocation's evaluation. *)
Record cluster := mkCluster {
  cl_driver : driver (O1 := O1) (O2 := O2);
  cl_machines : machines;
  cl_world : world;
  cl_inv : driverInvocation;
}.

(** A task of the invocation is run, on any machine; a task is discarded; a machine
    starts, with an address of its own; a machine stops; a task is marked as lost. *)
Inductive cluster_step (tasks : gmap nat cTask) (live : nat → Prop) : cluster → cluster → Prop :=
| cl_run t addr lost_compile lost_run d ms w inv r :
    live t →
    (λ fuel, driver_Run (H := cluster_machines lost_compile lost_run) encodes iter fuel inv addr t tasks d ms w) ⇓ Ran r →
    cluster_step tasks live (mkCluster d ms w inv) (mkCluster (rn_driver r) (rn_machines r) (rn_world r) (rn_inv r))
| cl_discard t d ms w inv ms' w' :
    live t → driver_Discard (H := cluster_machines false false) tasks t d ms w = Ret (ms', w') →
    cluster_step tasks live (mkCluster d ms w inv) (mkCluster d ms' w' inv)
| cl_start addr d ms w inv :
    ms !! addr = None → dv_compiles d !! addr = None →
    cluster_step tasks live (mkCluster d ms w inv) (mkCluster d (<[addr := Init machineCombiners (new_store addr)]> ms) w inv)
| cl_stop addr d ms w inv :
    cluster_step tasks live (mkCluster d ms w inv) (mkCluster d (delete addr ms) w inv)
| cl_lose t d ms w inv w' :
    Set_ t TaskLost w = Ret w' →
    cluster_step tasks live (mkCluster d ms w inv) (mkCluster d ms w' inv).
End cluster.
