(* ===== verification/ClusterSpec.v ===== *)
(** The evaluation of an invocation on a cluster (src/exec/bigmachine.go): whatever tasks
    are run where, however machines come and go, and whatever replies are lost, runs
    end, and the output of a task that is done, on a machine that is up, is what the task
    computes. *)
From S2P Require Import Prelude Types SliceIO Retry Slices Readers Task Compile CompileGraph Store Local LocalSpec LocalRun Machines WorkerOut WorkerCombine WorkerCombineSpec Worker WorkerSpec WorkerRun Driver Cluster.

(** * Names *)

Lemma name_tasks_spec (graph : gmap nat cTask) (ts : list nat) t T :
  t ∈ ts → graph !! t = Some T → (∀ u U, u ∈ ts → graph !! u = Some U → ct_Name U = ct_Name T → u = t) →
  name_tasks graph ts !! ct_Name T = Some t.
Proof.
  intros Ht HT. unfold name_tasks. assert (t ∈ ts ∨ (∅ : gmap TaskName nat) !! ct_Name T = Some t) as Hor by (by left). clear Ht.
  revert Hor. generalize (∅ : gmap TaskName nat). induction ts as [|x ts IH]; intros m Hor Huniq; simpl.
  { destruct Hor as [?%elem_of_nil|?]; done. }
  apply IH; [|intros u U Hu; apply Huniq; by right].
  destruct (graph !! x) as [X|] eqn:HX.
  - destruct (decide (ct_Name X = ct_Name T)) as [Hn|Hn].
    + right. rewrite (Huniq x X (list_elem_of_here _ _) HX Hn) in *. rewrite Hn. apply lookup_insert_eq.
    + rewrite lookup_insert_ne by done. destruct Hor as [[->|?]%elem_of_cons|?]; [congruence|by left|by right].
  - destruct Hor as [[->|?]%elem_of_cons|?]; [congruence|by left|by right].
Qed.

Section spec.
Context {C : Type} `{CombinerOps C} {CF : Type} `{CombiningFrameOps CF}.
Context {E : Type} `{RowEncoding E} {St : Type} `{Store St} {O : Type} `{Once Z error O}.
Context (defaultChunksize : nat) (CHUNK : 0 < defaultChunksize) (frame_Hash : row → outcome Z).
Context (SReader : Slice → Z → list (anyReader row) → outcome (anyReader row)).
Context (invoke : Z → list invArg → outcome Slice).
Context (iter_addrs : list string → list string) (shuffle : list (anyReader row) → list (anyReader row)).
Context (SHUFFLE : ∀ q, shuffle q ≡ₚ q).
Context {O1 : Type} `{Once Z compileError O1} {O2 : Type} `{Once string callError O2}.
Context (encodes : driverInvocation → bool) (iter : list Z → list Z).
Context (machineCombiners : bool) (new_store : string → St).
Context {CL : CombinerLaws C} {FL : CombiningFrameLaws C CF} {RL : RowEncodingLaws E} {SL : StoreLaws St}.
Context {OL : OnceLaws Z error O} {OL1 : OnceLaws Z compileError O1}.
Context (NEW : ∀ addr, repr (new_store addr) ∅) (ITER : iter [] = []).

#[local] Abbreviation worker := (Worker.worker (C := C) (St := St) (O := O)).
#[local] Abbreviation machines := (gmap string worker).

(** * The invocation *)

(** Func arguments are plain values, and can be encoded; the func returns the same slice
    wherever it is invoked. *)
Context (inv : driverInvocation) (slice : Slice) (c : compiler) (ts : list nat) (live : gset nat).
Context (ENC : encodes inv = true) (ARGS : ∀ a, a ∈ di_Args inv → ∃ v, a = dValue v).
Context (INVOKE : invoke (di_Func inv) (send_arg <$> di_Args inv) = Ret slice).
Context (COMPILE : compile frame_Hash SReader (di_Index inv) (di_Location inv) machineCombiners (di_Env inv) ∅ 0 slice = Ret (c, inl ts)).
Context (LIVE : (λ fuel, all_of fuel (mkWorld (run_task <$> c_tasks c) ∅ 0 ∅) ts ∅) ⇓ live).

(** The tasks that the roots depend on. *)
Definition live_tasks : gmap nat cTask := filter (λ kv, kv.1 ∈ live) (c_tasks c).
Definition live_named : gmap TaskName nat := name_tasks (c_tasks c) (elements live).

Lemma live_lookup t T : live_tasks !! t = Some T ↔ c_tasks c !! t = Some T ∧ t ∈ live.
Proof. unfold live_tasks. by rewrite map_lookup_filter_Some. Qed.

Context (out : nat → list row) (kp : nat → row → nat).
Context (GRAPH : ∀ t T, live_tasks !! t = Some T → task_ok defaultChunksize live_tasks (di_Index inv) live_named out kp t T).

#[local] Abbreviation worker_ok := (WorkerRun.worker_ok (C := C) (E := E) (St := St) (O := O) live_tasks (di_Index inv) live_named out kp).

(** * Workers *)

Definition compiled_on (w : worker) : Prop :=
  (∃ A, worker_ok w A) ∧ worker_idle w ∧ once_get (wk_compiles w) (di_Index inv) = Some None.

(** A worker that has just started, or has compiled the invocation. *)
Definition machine_ok (addr : string) (w : worker) : Prop := w = Init machineCombiners (new_store addr) ∨ compiled_on w.

Lemma Worker_Compile_new addr :
  ∃ w', (λ fuel, Worker_Compile frame_Hash SReader invoke fuel (send inv) (Init machineCombiners (new_store addr) : worker)) ⇓ (w', None) ∧
    compiled_on w'.
Proof.
  assert (substitute (∅ : gmap Z (Slice * list nat)) (send_arg <$> di_Args inv) = inl (send_arg <$> di_Args inv)) as Hsub.
  { clear -ARGS. induction (di_Args inv) as [|a args IH]; [done|]. rewrite fmap_cons. cbn [substitute].
    destruct (ARGS a) as [v ->]; [by left|]. simpl. rewrite IH; [done|]. intros b Hb. apply ARGS. by right. }
  destruct LIVE as [f0 Hlive].
  set (w0 := Init machineCombiners (new_store addr) : worker).
  set (w1 := mkWorker machineCombiners (wk_compiles w0) {[di_Index inv := live_named]} {[di_Index inv := (slice, ts)]} (c_tasks c) (c_next c)
    (mkWorld (run_task <$> c_tasks c) ∅ 0 ∅) (wk_shared w0)).
  assert (∀ fuel, f0 ≤ fuel → compile_once frame_Hash SReader invoke fuel (send inv) w0 = Ret (w1, None)) as Hc.
  { intros fuel Hf. unfold compile_once. cbn [wk_slices w0 Init send ei_Args ei_Func]. rewrite Hsub, INVOKE. cbn [mbind outcome_bind].
    cbn [ei_Index ei_Location ei_Env send wk_graph wk_next wk_MachineCombiners w0 Init]. rewrite COMPILE. cbn [mbind outcome_bind].
    cbn [wk_world w0 Init w_tasks w_subscribers w_channels w_closed]. rewrite (left_id_L ∅ (∪)), (Hlive fuel Hf). done. }
  exists (with_compiles w1 (once_put once_new (di_Index inv) None)). split.
  - exists f0. intros fuel Hf. unfold Worker_Compile. cbn [wk_compiles w0 Init send ei_Index]. rewrite once_get_new, (Hc fuel Hf). done.
  - split_and!; [exists ∅|..].
    + split; [apply NEW|apply lookup_singleton_eq|apply map_filter_subseteq|intros; apply lookup_empty|].
      intros t T [HT _]%live_lookup. exists (run_task T). cbn [wk_world with_compiles w1 w_tasks]. rewrite lookup_fmap, HT.
      split_and!; [done..|]. right. by split_and!.
    + intros t R. cbn [wk_world with_compiles w1 w_tasks]. rewrite lookup_fmap. destruct (c_tasks c !! t); [|done].
      intros [= <-]. right. by left.
    + apply once_get_put.
Qed.

Lemma Worker_Compile_again (w : worker) fuel :
  compiled_on w → Worker_Compile frame_Hash SReader invoke fuel (send inv) w = Ret (w, None).
Proof. intros (_ & _ & Ho). unfold Worker_Compile. cbn [send ei_Index]. by rewrite Ho. Qed.

(** * Machines *)

Definition machines_ok (ms : machines) : Prop := ∀ addr w, ms !! addr = Some w → machine_ok addr w.

#[local] Abbreviation net_ok := (WorkerRun.net_ok (C := C) live_tasks out kp).

(** What machines serve is what tasks computed. *)
Lemma machines_net_ok (ms : machines) : machines_ok ms → net_ok ms.
Proof.
  intros Hms addr u U p info HU. cbn [nw_Dial nw_Stat nw_Reader cluster_network]. unfold remote_reader.
  destruct (ms !! addr) as [w|] eqn:Hw; [|done]. intros _. unfold Worker_Stat, Worker_Read. rewrite Nat2Z.id.
  assert (storable (ct_Name U) 0) as Hst.
  { destruct (tk_output _ _ _ _ _ _ _ _ (GRAPH u U HU)) as (_ & Hst & _). apply Hst. lia. }
  destruct (Hms addr w Hw) as [->|((A & Hok) & _ & _)].
  { destruct (missing (new_store addr) ∅ (ct_Name U) p 0 0 (NEW addr) Hst (lookup_empty _)) as [_ (e & He & _)].
    unfold store_of. cbn [Init wk_shared sh_store]. by rewrite He. }
  destruct (A !! (ct_Name U, p)) as [[data n]|] eqn:HA.
  - intros _. rewrite (open_ok _ A _ _ _ _ 0 (wo_repr _ _ _ _ _ _ _ Hok) HA) by lia. rewrite drop_0.
    destruct (wo_tasks _ _ _ _ _ _ _ Hok u U HU) as (R & _ & _ & _ & [[_ [Hh Hr]]|(_ & Hno & _)]); [|by rewrite Hno in HA].
    destruct (decide (p < Z.to_nat (ct_NumPartition U))) as [Hp|Hp]; [|rewrite Hr in HA by lia; done].
    destruct (Hh p Hp) as (data' & n' & l & HA' & Hl & Hpr). rewrite HA in HA'. injection HA' as <- <-. by exists l.
  - destruct (missing _ A (ct_Name U) p 0 0 (wo_repr _ _ _ _ _ _ _ Hok) Hst HA) as [_ (e & -> & _)]. done.
Qed.

(** The output of a task that is done on a machine. *)
Lemma done_output (w : worker) u U p :
  compiled_on w → task_done w u → live_tasks !! u = Some U → p < Z.to_nat (ct_NumPartition U) →
  ∃ info data l, Worker_Stat (ct_Name U) (Z.of_nat p) w = inl info ∧ Worker_Read (ct_Name U) (Z.of_nat p) 0 w = inl data ∧
    Streams_as clean (decoding (ct_Type U) data) l ∧ part_rows out kp u U p l.
Proof.
  intros ((A & Hok) & _ & _) (R & HR & Hd) HU Hp. unfold Worker_Stat, Worker_Read. rewrite Nat2Z.id.
  destruct (wo_tasks _ _ _ _ _ _ _ Hok u U HU) as (R' & HR' & _ & _ & [[_ [Hh _]]|(Hno & _)]); [|congruence].
  destruct (Hh p Hp) as (data & n & l & HA & Hl & Hpr). eexists _, data, l.
  rewrite (stat_ok _ A _ _ _ _ (wo_repr _ _ _ _ _ _ _ Hok) HA), (open_ok _ A _ _ _ _ 0 (wo_repr _ _ _ _ _ _ _ Hok) HA) by lia.
  by rewrite drop_0.
Qed.

(** * The driver *)

#[local] Abbreviation driver := (Driver.driver (O1 := O1) (O2 := O2)).

Definition once_of (d : driver) (addr : string) : O1 := default once_new (dv_compiles d !! addr).

(** An error of a call. *)
Definition call_failed (e : compileError) : Prop := e = CompileCall (CallError unreachable) ∨ e = CompileCall (CallError reset).

Record driver_ok (d : driver) (ms : machines) (w : world) : Prop := mkDriverOk {
  do_mu : dv_mu d = false;
  do_deps : dv_invocationDeps d !! di_Index inv = None;
  do_inv : is_Some (dv_invocations d !! di_Index inv) → dv_encoded d !! di_Index inv = Some (send inv);
  do_machines : machines_ok ms;
  do_compiled : ∀ addr wk, ms !! addr = Some wk → once_get (once_of d addr) (di_Index inv) = Some None → compiled_on wk;
  do_cached : ∀ addr e, once_get (once_of d addr) (di_Index inv) = Some (Some e) → call_failed e;
  do_locations : ∀ t addr, location d t = Some addr → is_Some (dv_compiles d !! addr);
  do_world : tasks_agree live_tasks w;
  (** A task that is done has a location, and is done there while the machine is up. *)
  do_done : ∀ t T R, live_tasks !! t = Some T → w_tasks w !! t = Some R → t_state R = TaskOk →
    ∃ addr, location d t = Some addr ∧ ∀ wk, ms !! addr = Some wk → task_done wk t;
}.

(** Nothing is recorded twice. *)
Lemma record_invocation_ok (d : driver) ms w :
  driver_ok d ms w → ∃ d', record_invocation encodes inv d = (d', inv, None) ∧ driver_ok d' ms w ∧
    dv_encoded d' !! di_Index inv = Some (send inv) ∧ dv_locations d' = dv_locations d ∧ dv_compiles d' = dv_compiles d.
Proof.
  intros Hd. unfold record_invocation. case_decide as Hi.
  { exists d. split_and!; [done..| |done|done]. by apply (do_inv _ _ _ Hd). }
  assert (∀ args d, (∀ a, a ∈ args → ∃ v, a = dValue v) → record_deps (O1 := O1) (O2 := O2) (di_Index inv) args d = (d, args, true)) as Hrd.
  { clear. induction args as [|a args IH]; intros d Ha; [done|]. destruct (Ha a) as [v ->]; [by left|]. cbn [record_deps].
    rewrite IH; [done|]. intros b Hb. apply Ha. by right. }
  rewrite (Hrd _ d ARGS). cbn [negb].
  replace (with_args (di_Args inv) inv) with inv by (by destruct inv). rewrite ENC.
  eexists. split; [done|]. cbn [dv_encoded dv_locations dv_compiles]. rewrite lookup_insert_eq. split_and!; [|done..].
  split; try apply Hd. cbn [dv_encoded]. intros _. apply lookup_insert_eq.
Qed.

Lemma traverse_single (d : driver) ms w : driver_ok d ms w → (λ fuel, traverse iter fuel (dv_invocationDeps d) [di_Index inv]) ⇓ [di_Index inv].
Proof.
  intros Hd. exists 1. intros [|fuel] Hf; [lia|]. cbn [traverse]. rewrite (do_deps _ _ _ Hd). cbn [default app].
  rewrite elements_empty, ITER. by destruct fuel.
Qed.

Lemma driver_ok_machine (d : driver) ms w addr (wk wk' : worker) :
  driver_ok d ms w → ms !! addr = Some wk → machine_ok addr wk' → (compiled_on wk → compiled_on wk') →
  (∀ u R, w_tasks w !! u = Some R → t_state R = TaskOk → task_done wk u → task_done wk' u) → driver_ok d (<[addr := wk']> ms) w.
Proof.
  intros Hd Hwk Hok Hco Hdone. split; try apply Hd.
  - intros a x [[<- <-]|[_ Hx]]%lookup_insert_Some; [done|by apply (do_machines _ _ _ Hd)].
  - intros a x [[<- <-]|[_ Hx]]%lookup_insert_Some Ho; [|by eapply (do_compiled _ _ _ Hd)]. apply Hco. by eapply (do_compiled _ _ _ Hd).
  - intros t T R HT HR Hst. destruct (do_done _ _ _ Hd t T R HT HR Hst) as (a & Ha & Hx). exists a. split; [done|].
    intros x [[<- <-]|[_ Hm]]%lookup_insert_Some; [|by apply Hx]. apply (Hdone t R); [done..|]. by apply Hx.
Qed.

Lemma driver_ok_compiled (d : driver) ms w addr err :
  driver_ok d ms w → (err = None → ∀ wk, ms !! addr = Some wk → compiled_on wk) → (∀ e, err = Some e → call_failed e) →
  driver_ok (with_compiled addr (once_put (once_of d addr) (di_Index inv) err) d) ms w.
Proof.
  intros Hd Hco Hcf. split; try apply Hd.
  - intros a wk Hwk. unfold once_of. cbn [with_compiled dv_compiles]. destruct (decide (a = addr)) as [->|Hne].
    + rewrite lookup_insert_eq. cbn [from_option id]. rewrite (once_get_put (OnceLaws := OL1)). intros [= ->]. by apply Hco.
    + rewrite lookup_insert_ne by done. by apply (do_compiled _ _ _ Hd).
  - intros a e. unfold once_of. cbn [with_compiled dv_compiles]. destruct (decide (a = addr)) as [->|Hne].
    + rewrite lookup_insert_eq. cbn [from_option id]. rewrite (once_get_put (OnceLaws := OL1)). intros [= ->]. by apply Hcf.
    + rewrite lookup_insert_ne by done. by apply (do_cached _ _ _ Hd).
  - intros t a Ha. cbn [with_compiled dv_compiles]. destruct (decide (a = addr)) as [->|Hne].
    + rewrite lookup_insert_eq. by eexists.
    + rewrite lookup_insert_ne by done. by apply (do_locations _ _ _ Hd t).
Qed.

#[local] Abbreviation calls lc lr := (cluster_machines (CF := CF) (E := E) defaultChunksize frame_Hash SReader invoke iter_addrs shuffle lc lr).

(** Machines that stay up, with the tasks that are done. *)
Definition keeps (ms ms' : machines) : Prop :=
  (∀ a wk, ms !! a = Some wk → ∃ wk', ms' !! a = Some wk' ∧ ∀ u, task_done wk u → task_done wk' u) ∧
  ∀ a, ms !! a = None → ms' !! a = None.

Lemma keeps_refl ms : keeps ms ms.
Proof. split; [|done]. intros a wk Hwk. by exists wk. Qed.

Lemma keeps_trans ms1 ms2 ms3 : keeps ms1 ms2 → keeps ms2 ms3 → keeps ms1 ms3.
Proof.
  intros [K1 N1] [K2 N2]. split; [|by auto]. intros a wk Hwk. destruct (K1 a wk Hwk) as (wk' & Hwk' & D1).
  destruct (K2 a wk' Hwk') as (wk2 & Hwk2 & D2). exists wk2. auto.
Qed.

Lemma keeps_up ms ms' addr : keeps ms ms' → is_Some (ms !! addr) → is_Some (ms' !! addr).
Proof. intros [Hk _] [wk Hwk]. destruct (Hk addr wk Hwk) as (wk' & Hwk' & _). by exists wk'. Qed.

Lemma keeps_insert ms addr (wk wk' : worker) :
  ms !! addr = Some wk → (∀ u, task_done wk u → task_done wk' u) → keeps ms (<[addr := wk']> ms).
Proof.
  intros Hwk Hd. split.
  - intros a x Hx. destruct (decide (a = addr)) as [->|Hne]; [|exists x; by rewrite lookup_insert_ne].
    exists wk'. rewrite lookup_insert_eq. split; [done|]. by replace x with wk by congruence.
  - intros a Ha. rewrite lookup_insert_ne; [done|]. intros ->. congruence.
Qed.

(** Compiling on a machine. *)
Lemma compile_on_ok lc lr (d : driver) ms w addr :
  driver_ok d ms w → dv_encoded d !! di_Index inv = Some (send inv) →
  ∃ d' ms' err, (λ fuel, compile_on (H := calls lc lr) fuel addr (di_Index inv) d ms) ⇓ (d', ms', err) ∧
    driver_ok d' ms' w ∧ dv_locations d' = dv_locations d ∧ keeps ms ms' ∧
    (err = None → once_get (once_of d' addr) (di_Index inv) = Some None) ∧ (∀ e, err = Some e → call_failed e) ∧
    (lc = false → is_Some (ms !! addr) → (∀ e, once_get (once_of d addr) (di_Index inv) ≠ Some (Some e)) → err = None) ∧
    is_Some (dv_compiles d' !! addr).
Proof.
  intros Hd Henc. unfold compile_on. fold (once_of d addr).
  destruct (once_get (once_of d addr) (di_Index inv)) as [err|] eqn:Ho.
  { exists d, ms, err. split; [by exists 0|]. split_and!; [done|done|apply keeps_refl|by intros ->|intros e ->; by eapply (do_cached _ _ _ Hd)| |].
    - intros _ _ Hno. destruct err as [e|]; [by destruct (Hno e)|done].
    - unfold once_of in Ho. destruct (dv_compiles d !! addr); [by eexists|]. cbn [from_option id] in Ho. by rewrite (once_get_new (OnceLaws := OL1)) in Ho. }
  rewrite Henc. cbn [mc_Compile cluster_machines]. unfold call.
  assert (∀ err, is_Some (dv_compiles (with_compiled addr (once_put (once_of d addr) (di_Index inv) err) d) !! addr)) as Hsome.
  { intros err. cbn [with_compiled dv_compiles]. rewrite lookup_insert_eq. by eexists. }
  assert (∀ err, once_get (once_of (with_compiled addr (once_put (once_of d addr) (di_Index inv) err) d) addr) (di_Index inv) = Some err) as Hget.
  { intros err. unfold once_of at 1. cbn [with_compiled dv_compiles]. rewrite lookup_insert_eq. cbn [from_option id]. apply (once_get_put (OnceLaws := OL1)). }
  destruct (ms !! addr) as [wk|] eqn:Hwk.
  2: { eexists _, ms, _. split; [by exists 0|]. split_and!; [|done|apply keeps_refl|done| |by intros _ [? [=]]|done].
       - apply driver_ok_compiled; [done|done|]. intros e [= <-]. by left.
       - intros e [= <-]. by left. }
  assert (∃ wk', (λ fuel, Worker_Compile frame_Hash SReader invoke fuel (send inv) wk) ⇓ (wk', None) ∧ compiled_on wk' ∧
    ∀ u, task_done wk u → task_done wk' u) as (wk' & [f0 Hrun] & Hco & Hdone).
  { destruct (do_machines _ _ _ Hd addr wk Hwk) as [->|Hco].
    - destruct (Worker_Compile_new addr) as (wk' & Hrun & Hco). exists wk'. split_and!; [done..|]. intros u (R & HR & _).
      cbn [Init wk_world w_tasks] in HR. by rewrite lookup_empty in HR.
    - exists wk. split_and!; [|done..]. exists 0. intros fuel _. by apply Worker_Compile_again. }
  assert (driver_ok d (<[addr := wk']> ms) w) as Hd1 by (eapply driver_ok_machine; [done|done|by right|done|by auto]).
  set (err := CompileCall <$> (if lc then Some (CallError reset) else None)).
  exists (with_compiled addr (once_put (once_of d addr) (di_Index inv) err) d), (<[addr := wk']> ms), err. unfold err. split_and!.
  - exists f0. intros fuel Hf. rewrite (Hrun fuel Hf). cbn [mbind outcome_bind]. by destruct lc.
  - apply driver_ok_compiled; [done| |].
    + intros _ x. rewrite lookup_insert_eq. by intros [= <-].
    + destruct lc; intros e [= <-]. by right.
  - done.
  - by eapply keeps_insert.
  - intros ->. apply Hget.
  - destruct lc; intros e [= <-]. by right.
  - by intros -> _ _.
  - done.
Qed.

Lemma driver_compile_ok lc lr (d : driver) ms w addr :
  driver_ok d ms w →
  ∃ d' ms' err, (λ fuel, driver_compile (H := calls lc lr) encodes iter fuel addr inv d ms) ⇓ Some (d', ms', inv, err) ∧
    driver_ok d' ms' w ∧ dv_locations d' = dv_locations d ∧ keeps ms ms' ∧
    (err = None → once_get (once_of d' addr) (di_Index inv) = Some None) ∧ (∀ e, err = Some e → call_failed e) ∧
    (lc = false → is_Some (ms !! addr) → (∀ e, once_get (once_of d addr) (di_Index inv) ≠ Some (Some e)) → err = None) ∧
    is_Some (dv_compiles d' !! addr).
Proof.
  intros Hd. destruct (record_invocation_ok d ms w Hd) as (d1 & Hrec & Hd1 & Henc & Hl1 & Hc1).
  destruct (traverse_single d1 ms w Hd1) as [f0 Htr].
  destruct (compile_on_ok lc lr d1 ms w addr Hd1 Henc) as (d' & ms' & err & [f1 Hco] & Hd' & Hl' & Hk & Hn & Hcf & Hpr & Hs).
  exists d', ms', err. split_and!; [|done|congruence|done|done|done| |done].
  - exists (f0 `max` f1). intros fuel Hf. unfold driver_compile. rewrite (do_mu _ _ _ Hd), Hrec.
    rewrite Htr by lia. cbn [mbind outcome_bind reverse rev_append]. unfold reverse. cbn [rev_append compile_all].
    rewrite Hco by lia. cbn [mbind outcome_bind]. by destruct err.
  - intros -> Hup Hno. apply Hpr; [done..|]. unfold once_of. by rewrite Hc1.
Qed.

(** * Requests *)

#[local] Abbreviation mem := (members live_tasks).

(** The [j]-th location of a request is the machine at index [j]. *)
Definition located (d : driver) (machs : list string) (u : nat) (j : Z) : Prop :=
  ∃ addr n, location d u = Some addr ∧ j = Z.of_nat n ∧ machs !! n = Some addr.

Lemma located_prefix (d : driver) machs machs' u j : machs `prefix_of` machs' → located d machs u j → located d machs' u j.
Proof. intros Hp (addr & n & ? & ? & ?). exists addr, n. split_and!; [done..|]. by eapply prefix_lookup_Some. Qed.

Lemma machine_index_spec addr machs :
  ∃ machs' j, machine_index addr machs = (machs', j) ∧ machs `prefix_of` machs' ∧ machs' !! j = Some addr.
Proof.
  unfold machine_index. destruct (list_find (λ a, a = addr) machs) as [[j a]|] eqn:Hf.
  - apply list_find_Some in Hf as (Hj & -> & _). by exists machs, j.
  - exists (machs ++ [addr]), (length machs). split_and!; [done|by apply prefix_app_r|]. by rewrite lookup_app_r, Nat.sub_diag by lia.
Qed.

Lemma request_tasks_spec (d : driver) us machs locs :
  (∃ u, request_tasks d "" us machs locs [] = inr (u, []) ∧ u ∈ us ∧ location d u = None) ∨
  ∃ machs' more, request_tasks d "" us machs locs [] = inl (machs', locs ++ more, []) ∧ machs `prefix_of` machs' ∧
    Forall2 (located d machs') us more.
Proof.
  revert machs locs. induction us as [|u us IH]; intros machs locs.
  { right. exists machs, []. rewrite app_nil_r. by split_and!. }
  cbn [request_tasks]. destruct (location d u) as [addr|] eqn:Hu.
  2: { left. exists u. split_and!; [done|by left|done]. }
  destruct (machine_index_spec addr machs) as (machs1 & j & -> & Hp1 & Hj). rewrite bool_decide_true by done.
  destruct (IH machs1 (locs ++ [Z.of_nat j])) as [(u' & -> & Hin & Hno)|(machs' & more & -> & Hp & HF)].
  { left. exists u'. split_and!; [done|by right|done]. }
  right. exists machs', (Z.of_nat j :: more). rewrite <-(assoc_L (++)). split_and!; [done|by etrans|].
  constructor; [|done]. exists addr, j. split_and!; [done..|]. by eapply prefix_lookup_Some.
Qed.

Lemma request_deps_spec (d : driver) w deps machs locs :
  tasks_agree live_tasks w → (∀ dep, dep ∈ deps → dep_ok live_tasks dep) →
  (∃ u, request_deps w d deps machs locs [] = Ret (inr (u, [])) ∧ location d u = None ∧ ∃ dep, dep ∈ deps ∧ u ∈ mem dep) ∨
  ∃ machs' more, request_deps w d deps machs locs [] = Ret (inl (machs', locs ++ more, [])) ∧ machs `prefix_of` machs' ∧
    Forall2 (located d machs') (concat (mem <$> deps)) more.
Proof.
  intros Hw. revert machs locs. induction deps as [|dep deps IH]; intros machs locs Hok.
  { right. exists machs, []. rewrite app_nil_r. by split_and!. }
  pose proof (Hok dep (list_elem_of_here _ _)) as Hd. destruct (dep_members defaultChunksize CHUNK live_tasks w dep Hw Hd) as [Hn Hus].
  cbn [request_deps]. rewrite Hn. cbn [mbind outcome_bind]. rewrite Hus. cbn [mbind outcome_bind]. destruct Hd as (-> & _).
  destruct (request_tasks_spec d (mem dep) machs locs) as [(u & -> & Hin & Hno)|(machs1 & more1 & -> & Hp1 & HF1)].
  { left. exists u. split_and!; [done..|]. exists dep. split; [by left|done]. }
  destruct (IH machs1 (locs ++ more1)) as [(u & -> & Hno & dep' & Hin & Hu)|(machs' & more & -> & Hp & HF)].
  { intros dep' Hin. apply Hok. by right. }
  { left. exists u. split_and!; [done..|]. exists dep'. split; [by right|done]. }
  right. exists machs', (more1 ++ more). rewrite (assoc_L (++)). split_and!; [done|by etrans|]. rewrite fmap_cons. cbn [concat].
  apply Forall2_app; [|done]. eapply Forall2_impl; [|exact HF1]. intros u j. by apply located_prefix.
Qed.

Lemma req_located (d : driver) I name machs us locs k u :
  Forall2 (located d machs) us locs → us !! k = Some u →
  ∃ addr, location d u = Some addr ∧ req_location (mkTaskRunRequest I name machs locs) k = Ret addr.
Proof.
  intros HF Hk. destruct (Forall2_lookup_l _ _ _ _ _ HF Hk) as (j & Hj & addr & n & Ha & -> & Hn).
  exists addr. split; [done|]. unfold req_location. cbn [rq_Locations rq_Machines]. rewrite index_lookup, Hj. cbn [mbind outcome_bind].
  by rewrite index_lookup, Hn.
Qed.

Lemma num_members_concat deps : num_members live_tasks deps = length (concat (mem <$> deps)).
Proof.
  unfold num_members. induction deps as [|dep deps IH]; [done|]. rewrite fmap_cons. cbn [sum_list_with concat]. by rewrite length_app, IH.
Qed.

(** The output of a task is there for others to read. *)
Definition ready (d : driver) (ms : machines) (u : nat) : Prop :=
  ∃ addr wk, location d u = Some addr ∧ ms !! addr = Some wk ∧ task_done wk u.

(** Only machines that have compiled the invocation have tasks. *)
Lemma done_compiled addr wk u : machine_ok addr wk → task_done wk u → compiled_on wk.
Proof. intros [->|?] (R & HR & _); [|done]. cbn [Init wk_world w_tasks] in HR. by rewrite lookup_empty in HR. Qed.

Lemma served_ready (d : driver) ms I name machs us0 deps locs :
  machines_ok ms → (∀ dep, dep ∈ deps → dep_ok live_tasks dep) → Forall2 (located d machs) (us0 ++ concat (mem <$> deps)) locs →
  (∀ dep u, dep ∈ deps → u ∈ mem dep → ready d ms u) →
  served_from (N := machines) live_tasks ms (mkTaskRunRequest I name machs locs) (length us0) deps.
Proof.
  intros Hms. revert us0. induction deps as [|dep deps IH]; intros us0 Hok HF Hr; [done|]. rewrite fmap_cons in HF. cbn [concat] in HF. split.
  - intros j u Hj. destruct (req_located d I name machs _ locs (length us0 + j) u HF) as (addr & Ha & Hloc).
    { rewrite lookup_app_r by lia. replace (length us0 + j - length us0) with j by lia. by apply lookup_app_l_Some. }
    destruct (Hok dep (list_elem_of_here _ _)) as (_ & Hp0 & _ & Hmem). pose proof (list_elem_of_lookup_2 _ _ _ Hj) as Hu.
    destruct (Hmem u Hu) as (U & HU & Hp). destruct (Hr dep u (list_elem_of_here _ _) Hu) as (a & wk & Ha' & Hwk & Hdn).
    pose proof (done_compiled a wk u (Hms a wk Hwk) Hdn) as Hco.
    rewrite Ha in Ha'. injection Ha' as <-. destruct (done_output wk u U (Z.to_nat (dep_Partition dep)) Hco Hdn HU) as (info & data & l & Hst & _); [lia|].
    exists U, addr, info. cbn [nw_Dial nw_Stat cluster_network]. rewrite Hwk. by split_and!.
  - rewrite <-length_app. apply IH; [intros dep' Hin; apply Hok; by right|by rewrite <-(assoc_L (++))|].
    intros dep' u Hin. apply Hr. by right.
Qed.

(** * Running a task *)

(** The world after one task has changed its state. *)
Definition sets (w w' : world) (t : nat) (st : TaskState) : Prop :=
  ∃ R R', w_tasks w !! t = Some R ∧ w_tasks w' = <[t := R']> (w_tasks w) ∧ t_state R' = st ∧ t_Deps R' = t_Deps R ∧ t_Group R' = t_Group R.

Lemma Set_sets w t T st : tasks_agree live_tasks w → live_tasks !! t = Some T → ∃ w', Set_ t st w = Ret w' ∧ sets w w' t st.
Proof.
  intros Hw HT. destruct (Hw t T HT) as (R & HR & _). unfold Set_, with_task. rewrite HR. eexists. split; [done|].
  eexists R, _. split; [done|]. split; [exact (proj1 (Broadcast_spec t _ w))|done].
Qed.

Lemma Error_sets w t T e : tasks_agree live_tasks w → live_tasks !! t = Some T → ∃ w', Error t e w = Ret w' ∧ sets w w' t TaskErr.
Proof.
  intros Hw HT. destruct (Hw t T HT) as (R & HR & _). unfold Error, with_task. rewrite HR. eexists. split; [done|].
  eexists R, _. split; [done|]. split; [exact (proj1 (Broadcast_spec t _ w))|done].
Qed.

Lemma sets_agree w w' t st : sets w w' t st → tasks_agree live_tasks w → tasks_agree live_tasks w'.
Proof.
  intros (R & R' & HR & Hw' & _ & Hd & Hg) Ha u U HU. destruct (Ha u U HU) as (Q & HQ & HQd & HQg). rewrite Hw'.
  destruct (decide (u = t)) as [->|Hne]; [|exists Q; by rewrite lookup_insert_ne].
  exists R'. rewrite lookup_insert_eq. replace Q with R in * by congruence. split_and!; congruence.
Qed.

Lemma driver_ok_sets (d : driver) ms w w' t st :
  driver_ok d ms w → sets w w' t st →
  (st = TaskOk → ∃ addr, location d t = Some addr ∧ ∀ wk, ms !! addr = Some wk → task_done wk t) → driver_ok d ms w'.
Proof.
  intros Hd Hs Hok. pose proof Hs as (R & R' & HR & Hw' & Hst & _). split; try apply Hd; [eapply sets_agree; [done|apply Hd]|].
  intros u U Q HU. rewrite Hw'. intros [[<- <-]|[_ HQ]]%lookup_insert_Some; [|by eapply (do_done _ _ _ Hd)].
  by rewrite Hst.
Qed.

(** How a run that reached the worker ends for the driver. *)
Lemma run_on_ok lc lr (d : driver) ms w addr t T req :
  driver_ok d ms w → live_tasks !! t = Some T → once_get (once_of d addr) (di_Index inv) = Some None →
  is_Some (dv_compiles d !! addr) → rq_Invocation req = di_Index inv → rq_Name req = ct_Name T →
  (∀ j, j < num_members live_tasks (ct_Deps T) → ∃ a, req_location req j = Ret a) →
  ∃ r, (λ fuel, run_on (H := calls lc lr) fuel inv addr t req d ms w) ⇓ Ran r ∧
    driver_ok (rn_driver r) (rn_machines r) (rn_world r) ∧ rn_inv r = inv ∧ is_Some (rn_done r) ∧
    (lr = false → is_Some (ms !! addr) → served_from live_tasks ms req 0 (ct_Deps T) →
     rn_done r = Some None ∧ sets w (rn_world r) t TaskOk ∧ rn_driver r = setLocation t addr d ∧ keeps ms (rn_machines r)).
Proof.
  intros Hd HT Ho Hc HI Hname Hloc. unfold run_on.
  destruct (Set_sets w t T TaskRunning (do_world _ _ _ Hd) HT) as (w1 & -> & Hs1). cbn [mbind outcome_bind].
  pose proof (sets_agree _ _ _ _ Hs1 (do_world _ _ _ Hd)) as Ha1.
  assert (driver_ok d ms w1) as Hd1 by (eapply driver_ok_sets; [done..|by intros]).
  assert (∀ ms', driver_ok d ms' w1 → ∃ w2, Set_ t TaskLost w1 = Ret w2 ∧ driver_ok d ms' w2) as Hlost.
  { intros ms' Hd'. destruct (Set_sets w1 t T TaskLost Ha1 HT) as (w2 & Hw2 & Hs2). exists w2. split; [done|]. by eapply driver_ok_sets. }
  cbn [mc_Run cluster_machines]. unfold call. destruct (ms !! addr) as [wk|] eqn:Hwk.
  2: { destruct (Hlost ms Hd1) as (w2 & Hw2 & Hd2).
       eexists. split; [exists 0; intros fuel _; cbn [mbind outcome_bind]; rewrite Hw2; reflexivity|]. split_and!; done. }
  destruct (do_compiled _ _ _ Hd addr wk Hwk Ho) as ((A & Hok) & Hidle & Hwc).
  destruct (Worker_Run_ok (CF := CF) defaultChunksize CHUNK iter_addrs shuffle SHUFFLE live_tasks (di_Index inv) live_named out kp GRAPH ms req wk A t T Hok Hidle
    (machines_net_ok ms (do_machines _ _ _ Hd)) HT HI Hname Hloc) as (wk' & A' & res & [f0 Hrun] & Hok' & Hidle' & Hcs & Hkeep & Hdone & Herr).
  assert (compiled_on wk') as Hco' by (split_and!; [by exists A'|done|by rewrite Hcs]).
  assert (driver_ok d (<[addr := wk']> ms) w1) as Hd2 by (eapply driver_ok_machine; [done|done|by right|done|by auto]).
  assert (∀ fuel, f0 ≤ fuel → run_call (CF := CF) (E := E) defaultChunksize iter_addrs shuffle fuel req ms wk = Ret (wk', res)) as Hcall.
  { intros fuel Hf. unfold run_call. rewrite (Hrun fuel Hf). done. }
  destruct (if lr then Some (CallError reset) else RemoteError <$> res) as [e|] eqn:He.
  - destruct (Hlost _ Hd2) as (w2 & Hw2 & Hd3). exists (mkRan d (<[addr := wk']> ms) w2 inv (Some (Some e))).
    split_and!; [|done|done|by eexists|].
    + exists f0. intros fuel Hf. rewrite (Hcall fuel Hf). cbn [mbind outcome_bind id]. rewrite He.
      destruct e as [e|e]; [|by rewrite Hw2]. destruct lr; [done|]. destruct res as [e'|]; [|done]. injection He as ->.
      destruct (Herr e eq_refl) as [-> _]. by rewrite Hw2.
    + intros -> _ Hs. destruct res as [e'|]; [|done]. by destruct (Herr e' eq_refl).
  - destruct lr; [done|]. destruct res; [done|].
    destruct (Set_sets w1 t T TaskOk Ha1 HT) as (w2 & Hw2 & Hs2).
    exists (mkRan (setLocation t addr d) (<[addr := wk']> ms) w2 inv (Some None)). split_and!; [| |done|by eexists|].
    + exists f0. intros fuel Hf. rewrite (Hcall fuel Hf). cbn [mbind outcome_bind id fmap option_fmap option_map]. by rewrite Hw2.
    + cbn [rn_driver rn_machines rn_world]. eapply driver_ok_sets; [|done|].
      2: { intros _. exists addr. unfold location, setLocation. cbn [dv_locations]. rewrite lookup_insert_eq. split; [done|].
           intros x. rewrite lookup_insert_eq. intros [= <-]. by apply Hdone. }
      split; try apply Hd2.
      * intros u a. unfold location, setLocation. cbn [dv_locations dv_compiles]. intros [[<- <-]|[_ Hu]]%lookup_insert_Some; [done|].
        by apply (do_locations _ _ _ Hd u).
      * intros u U Q HU HQ HQok. unfold location, setLocation. cbn [dv_locations]. destruct (decide (u = t)) as [->|Hne].
        -- exists addr. rewrite lookup_insert_eq. split; [done|]. intros x. rewrite lookup_insert_eq. intros [= <-]. by apply Hdone.
        -- rewrite lookup_insert_ne by done. by eapply (do_done _ _ _ Hd2).
    + intros _ _ _. cbn [rn_done rn_world rn_driver rn_machines]. split_and!; [done| |done|by eapply keeps_insert].
      destruct Hs1 as (R & R1 & HR & Hw1 & _ & Hd1' & Hg1), Hs2 as (R1' & R2 & HR1 & Hw2' & Hst & Hd2' & Hg2).
      exists R, R2. rewrite Hw1 in HR1. rewrite lookup_insert_eq in HR1. injection HR1 as <-.
      split_and!; [done| |done|congruence|congruence]. by rewrite Hw2', Hw1, insert_insert_eq.
Qed.

Lemma keeps_ready (d d' : driver) ms ms' u : dv_locations d' = dv_locations d → keeps ms ms' → ready d ms u → ready d' ms' u.
Proof.
  intros Hl [Hk _] (a & wk & Ha & Hwk & Hdn). destruct (Hk a wk Hwk) as (wk' & Hwk' & Hd). exists a, wk'. unfold location in *.
  rewrite Hl. auto.
Qed.

(** A run of a task always ends, with the procs returned; if nothing fails and the
    outputs it depends on are there, the task is done. *)
Lemma driver_Run_ok lc lr (d : driver) ms w addr t T :
  driver_ok d ms w → live_tasks !! t = Some T →
  ∃ r, (λ fuel, driver_Run (H := calls lc lr) encodes iter fuel inv addr t (c_tasks c) d ms w) ⇓ Ran r ∧
    driver_ok (rn_driver r) (rn_machines r) (rn_world r) ∧ rn_inv r = inv ∧ is_Some (rn_done r) ∧
    (lc = false → lr = false → is_Some (ms !! addr) → (∀ e, once_get (once_of d addr) (di_Index inv) ≠ Some (Some e)) →
     (∀ dep u, dep ∈ ct_Deps T → u ∈ mem dep → ready d ms u) →
     rn_done r = Some None ∧ sets w (rn_world r) t TaskOk ∧ dv_locations (rn_driver r) = <[t := addr]> (dv_locations d) ∧
     once_get (once_of (rn_driver r) addr) (di_Index inv) = Some None ∧ keeps ms (rn_machines r)).
Proof.
  intros Hd HT. pose proof HT as [HTc _]%live_lookup.
  destruct (driver_compile_ok lc lr d ms w addr Hd) as (d1 & ms1 & err & [f0 Hcmp] & Hd1 & Hl1 & Hk1 & Hn & Hcf & Hpr & Hs).
  destruct err as [e|].
  { destruct (Set_sets w t T TaskLost (do_world _ _ _ Hd) HT) as (w2 & Hw2 & Hs2).
    exists (mkRan d1 ms1 w2 inv (Some (Some (call_error e)))). split_and!; [|by eapply driver_ok_sets|done|by eexists|].
    - exists (S f0). intros [|fuel] Hf; [lia|]. cbn [driver_Run]. unfold deref. rewrite HTc. cbn [mbind outcome_bind].
      rewrite (Hcmp (S fuel)) by lia. cbn [mbind outcome_bind]. destruct (Hcf e eq_refl) as [-> | ->]; by rewrite Hw2.
    - intros Hlc _ Hup Hno _. by specialize (Hpr Hlc Hup Hno). }
  pose proof (tk_deps _ _ _ _ _ _ _ _ (GRAPH t T HT)) as Hdeps.
  assert (∀ fuel, f0 ≤ fuel → driver_Run (H := calls lc lr) encodes iter (S fuel) inv addr t (c_tasks c) d ms w =
    (req ← request_deps w d1 (ct_Deps T) [] [] [];
     match req with
     | inr (u, commits) => '(d, ms, _) ← commit_all (H := calls lc lr) (S fuel) commits d1 ms1;
         w ← Errorf t "task has no location" w; Ret (Ran (mkRan d ms w inv (Some None)))
     | inl (machines, locs, commits) =>
         '(d, ms, err) ← commit_all (H := calls lc lr) (S fuel) commits d1 ms1;
         match err with
         | Some e => w ← Errorf t "failed to commit combiner" w; Ret (Ran (mkRan d ms w inv None))
         | None => run_on (H := calls lc lr) (S fuel) inv addr t (mkTaskRunRequest (di_Index inv) (ct_Name T) machines locs) d ms w
         end
     end)) as Hrun.
  { intros fuel Hf. cbn [driver_Run]. unfold deref. rewrite HTc. cbn [mbind outcome_bind]. by rewrite (Hcmp (S fuel)) by lia. }
  destruct (request_deps_spec d1 w (ct_Deps T) [] [] (do_world _ _ _ Hd) Hdeps) as [(u & Hreq & Hno & dep & Hdep & Hu)|(machs & more & Hreq & _ & HF)].
  { destruct (Error_sets w t T (Err Other "task has no location") (do_world _ _ _ Hd) HT) as (w2 & Hw2 & Hs2).
    exists (mkRan d1 ms1 w2 inv (Some None)). split_and!; [|by eapply driver_ok_sets|done|by eexists|].
    - exists (S f0). intros [|fuel] Hf; [lia|]. rewrite Hrun, Hreq by lia. cbn [mbind outcome_bind commit_all]. unfold Errorf. by rewrite Hw2.
    - intros _ _ _ _ Hr. destruct (keeps_ready d d1 ms ms1 u Hl1 Hk1 (Hr dep u Hdep Hu)) as (a & wk & Ha & _). congruence. }
  destruct (run_on_ok lc lr d1 ms1 w addr t T (mkTaskRunRequest (di_Index inv) (ct_Name T) machs more) Hd1 HT (Hn eq_refl) Hs eq_refl eq_refl)
    as (r & [f1 Hr] & Hdr & Hinv & Hdn & Hprog).
  { intros j Hj. rewrite num_members_concat in Hj. destruct (lookup_lt_is_Some_2 _ _ Hj) as [u Hu].
    destruct (req_located d1 (di_Index inv) (ct_Name T) machs _ more j u HF Hu) as (a & _ & Ha). by exists a. }
  exists r. split_and!; [|done..|].
  - exists (S (f0 `max` f1)). intros [|fuel] Hf; [lia|]. rewrite Hrun, Hreq by lia. cbn [mbind outcome_bind commit_all app]. apply Hr. lia.
  - intros _ -> Hup _ Hready. destruct Hprog as (P1 & P2 & P3 & P4); [done|by eapply keeps_up| |].
    + apply (served_ready d1 ms1 _ _ machs [] (ct_Deps T) more); [apply Hd1|done|done|]. intros dep u Hdep Hu.
      eapply keeps_ready; [done|done|by eapply Hready].
    + split_and!; [done|done| | |by eapply keeps_trans].
      * rewrite P3, <-Hl1. done.
      * rewrite P3. by apply Hn.
Qed.

(** * Discarding a task *)

Lemma driver_Discard_ok (d : driver) ms w t T :
  driver_ok d ms w → live_tasks !! t = Some T →
  ∃ ms' w', driver_Discard (H := calls false false) (c_tasks c) t d ms w = Ret (ms', w') ∧ driver_ok d ms' w'.
Proof.
  intros Hd HT. pose proof HT as [HTc _]%live_lookup. destruct (tk_output _ _ _ _ _ _ _ _ (GRAPH t T HT)) as (HK & _).
  destruct (do_world _ _ _ Hd t T HT) as (R & HR & HRd & HRg).
  unfold driver_Discard, deref. rewrite HTc. cbn [mbind outcome_bind]. rewrite HK, (bool_decide_true ("" = "")), andb_false_r by done.
  rewrite HR. cbn [mbind outcome_bind]. case_decide as Hok; [|by exists ms, w].
  destruct (do_done _ _ _ Hd t T R HT HR Hok) as (addr & Ha & Hdn). rewrite Ha.
  set (w1 := upd_task t (with_state TaskRunning (t_err R) R) w).
  assert (sets w w1 t TaskRunning) as Hs1 by (by eexists R, _).
  pose proof (driver_ok_sets d ms w w1 t TaskRunning Hd Hs1 ltac:(done)) as Hd1.
  destruct (Set_sets w1 t T TaskLost (do_world _ _ _ Hd1) HT) as (w2 & Hw2 & Hs2).
  pose proof (driver_ok_sets d ms w1 w2 t TaskLost Hd1 Hs2 ltac:(done)) as Hd2.
  cbn [mc_Discard cluster_machines]. unfold call. destruct (ms !! addr) as [wk|] eqn:Hwk; cbn [mbind outcome_bind].
  2: { exists ms, w2. by rewrite Hw2. }
  pose proof (done_compiled addr wk t (do_machines _ _ _ Hd addr wk Hwk) (Hdn wk eq_refl)) as ((A & Hwok) & Hidle & Hwc).
  destruct (Worker_Discard_ok defaultChunksize CHUNK live_tasks (di_Index inv) live_named out kp GRAPH wk A t T Hwok Hidle HT)
    as (wk' & A' & -> & Hwok' & Hidle' & Hcs & Hkeep).
  cbn [mbind outcome_bind]. rewrite Hw2. cbn [mbind outcome_bind]. exists (<[addr := wk']> ms), w2. split; [done|].
  assert (compiled_on wk') as Hco by (split_and!; [by exists A'|done|by rewrite Hcs]).
  eapply driver_ok_machine; [done|done|by right|done|]. intros u Q HQ HQok. apply Hkeep. intros ->.
  destruct Hs2 as (R1 & R2 & _ & Hw' & Hst & _). rewrite Hw', lookup_insert_eq in HQ. injection HQ as <-. congruence.
Qed.

(** * Executions *)

#[local] Abbreviation cluster := (Cluster.cluster (C := C) (St := St) (O := O) (O1 := O1) (O2 := O2)).
#[local] Abbreviation cstep := (cluster_step (CF := CF) (E := E) defaultChunksize frame_Hash SReader invoke iter_addrs shuffle
  encodes iter machineCombiners new_store (c_tasks c) (λ t, t ∈ live)).

Definition cluster_ok (st : cluster) : Prop := driver_ok (cl_driver st) (cl_machines st) (cl_world st) ∧ cl_inv st = inv.

(** The tasks of the invocation have just been compiled, and there is no machine yet. *)
Definition cluster_init : cluster := mkCluster newDriver ∅ (mkWorld (run_task <$> c_tasks c) ∅ 0 ∅) inv.

Lemma init_ok : cluster_ok cluster_init.
Proof.
  split; [|done]. cbn [cluster_init cl_driver cl_machines cl_world]. split; cbn [newDriver dv_mu dv_invocationDeps dv_invocations dv_compiles].
  - done.
  - apply lookup_empty.
  - rewrite lookup_empty. by intros [? [=]].
  - intros addr w. by rewrite lookup_empty.
  - intros addr w. by rewrite lookup_empty.
  - intros addr e. unfold once_of. cbn [newDriver dv_compiles]. rewrite lookup_empty. cbn [from_option id].
    by rewrite (once_get_new (OnceLaws := OL1)).
  - intros t addr. unfold location. cbn [newDriver dv_locations]. by rewrite lookup_empty.
  - intros t T [HT _]%live_lookup. exists (run_task T). cbn [w_tasks]. by rewrite lookup_fmap, HT.
  - intros t T R [HT _]%live_lookup. cbn [w_tasks]. rewrite lookup_fmap, HT. by intros [= <-].
Qed.

Hypothesis CLOSED : ∀ t, t ∈ live → is_Some (c_tasks c !! t).

Lemma live_task t : t ∈ live → ∃ T, live_tasks !! t = Some T.
Proof. intros Ht. destruct (CLOSED t Ht) as [T HT]. exists T. by apply live_lookup. Qed.

Lemma cstep_ok st st' : cluster_ok st → cstep st st' → cluster_ok st'.
Proof.
  intros [Hd Hinv] Hst. inversion Hst as [t addr lc lr d ms w inv' r Ht Hr|t d ms w inv' ms' w' Ht Hr|addr d ms w inv' Hno Hc|addr d ms w inv'|t d ms w inv' w' Hs]; subst;
    cbn [cl_driver cl_machines cl_world cl_inv] in *; subst.
  - destruct (live_task t Ht) as [T HT]. destruct (driver_Run_ok lc lr d ms w addr t T Hd HT) as (r' & Hr' & Hd' & Hi & _).
    pose proof (yields_det _ _ _ Hr Hr') as [= ->]. done.
  - destruct (live_task t Ht) as [T HT]. destruct (driver_Discard_ok d ms w t T Hd HT) as (ms2 & w2 & Hr' & Hd').
    rewrite Hr in Hr'. by injection Hr' as -> ->.
  - split; [|done]. cbn [cl_driver cl_machines cl_world]. split; try apply Hd.
    + intros a x [[<- <-]|[_ Hx]]%lookup_insert_Some; [by left|by apply (do_machines _ _ _ Hd)].
    + intros a x [[<- <-]|[_ Hx]]%lookup_insert_Some; [|by apply (do_compiled _ _ _ Hd)].
      unfold once_of. rewrite Hc. cbn [from_option id]. by rewrite (once_get_new (OnceLaws := OL1)).
    + intros t T R HT HR Hok. destruct (do_done _ _ _ Hd t T R HT HR Hok) as (a & Ha & Hdn). exists a. split; [done|].
      intros x [[<- <-]|[_ Hx]]%lookup_insert_Some; [|by apply Hdn]. destruct (do_locations _ _ _ Hd t addr Ha). congruence.
  - split; [|done]. cbn [cl_driver cl_machines cl_world]. split; try apply Hd.
    + intros a x [_ Hx]%lookup_delete_Some. by apply (do_machines _ _ _ Hd).
    + intros a x [_ Hx]%lookup_delete_Some. by apply (do_compiled _ _ _ Hd).
    + intros t T R HT HR Hok. destruct (do_done _ _ _ Hd t T R HT HR Hok) as (a & Ha & Hdn). exists a. split; [done|].
      intros x [_ Hx]%lookup_delete_Some. by apply Hdn.
  - split; [|done]. unfold Set_, with_task in Hs. destruct (w_tasks w !! t) as [R|] eqn:HR; [|done]. injection Hs as <-.
    apply (driver_ok_sets d ms w _ t TaskLost); [done| |done].
    eexists R, _. split; [done|]. split; [exact (proj1 (Broadcast_spec t _ w))|done].
Qed.

(** The state is sound however the evaluation has gone. *)
Lemma reached_ok st : rtc cstep cluster_init st → cluster_ok st.
Proof.
  intros Hst. assert (cluster_ok cluster_init) as Hok by apply init_ok.
  induction Hst as [|x y z Hxy _ IH]; [done|]. apply IH. by eapply cstep_ok.
Qed.

(** ** Outputs *)

(** A task is done, with its output on a machine that is up. *)
Definition available (st : cluster) (t : nat) : Prop :=
  ∃ R addr, w_tasks (cl_world st) !! t = Some R ∧ t_state R = TaskOk ∧
    location (cl_driver st) t = Some addr ∧ is_Some (cl_machines st !! addr).

(** A machine is up, and no attempt to compile the invocation there has failed. *)
Definition usable (st : cluster) (addr : string) : Prop :=
  is_Some (cl_machines st !! addr) ∧ ∀ e, once_get (once_of (cl_driver st) addr) (di_Index inv) ≠ Some (Some e).

Lemma available_ready st t T : cluster_ok st → live_tasks !! t = Some T → available st t → ready (cl_driver st) (cl_machines st) t.
Proof.
  intros [Hd _] HT (R & addr & HR & Hok & Ha & [wk Hwk]). destruct (do_done _ _ _ Hd t T R HT HR Hok) as (a & Ha' & Hdn).
  rewrite Ha in Ha'. injection Ha' as <-. exists addr, wk. auto.
Qed.

(** The dependencies of a task have their outputs available. *)
Definition fed (st : cluster) (t : nat) : Prop :=
  ∀ T dep u, live_tasks !! t = Some T → dep ∈ ct_Deps T → u ∈ mem dep → available st u.

(** A run of a task that has its inputs, on a machine that can be used, makes its
    output available, and leaves other outputs available. *)
Lemma run_available lc lr st t addr :
  cluster_ok st → t ∈ live →
  ∃ r, (λ fuel, driver_Run (H := calls lc lr) encodes iter fuel inv addr t (c_tasks c) (cl_driver st) (cl_machines st) (cl_world st)) ⇓ Ran r ∧
    is_Some (rn_done r) ∧ let st' := mkCluster (rn_driver r) (rn_machines r) (rn_world r) (rn_inv r) in cstep st st' ∧ cluster_ok st' ∧
    (lc = false → lr = false → usable st addr → fed st t →
     rn_done r = Some None ∧ usable st' addr ∧ available st' t ∧ ∀ u, available st u → available st' u).
Proof.
  intros Hok Ht. destruct (live_task t Ht) as [T HT]. pose proof Hok as [Hd Hinv].
  destruct (driver_Run_ok lc lr _ _ _ addr t T Hd HT) as (r & Hr & Hd' & Hi & Hdn & Hprog). exists r. split; [exact Hr|]. split; [exact Hdn|]. split_and!; [|done|].
  { destruct st as [d ms w inv']. cbn [cl_inv] in Hinv. subst inv'.
    by eapply cl_run. }
  intros -> -> [Hup Hno] Hfed.
  destruct Hprog as (P1 & (R & R' & HR & Hw & Hst & _) & P3 & P4 & Hk); [done..| |].
  { intros dep u Hdep Hu. pose proof (tk_deps _ _ _ _ _ _ _ _ (GRAPH t T HT) dep Hdep) as (_ & _ & _ & Hmem).
    destruct (Hmem u Hu) as (U & HU & _). eapply available_ready; [done..|]. by eapply Hfed. }
  split_and!; [done| | |].
  - split; [by eapply keeps_up|]. intros e. cbn [cl_driver]. by rewrite P4.
  - exists R', addr. cbn [cl_world cl_driver cl_machines]. unfold location. rewrite Hw, P3, !lookup_insert_eq.
    split_and!; [done..|by eapply keeps_up].
  - intros u (Q & a & HQ & HQok & Ha & Hupa). unfold available. cbn [cl_world cl_driver cl_machines]. unfold location. rewrite Hw, P3.
    destruct (decide (u = t)) as [->|Hne].
    + exists R', addr. rewrite !lookup_insert_eq. split_and!; [done..|by eapply keeps_up].
    + exists Q, a. rewrite !lookup_insert_ne by done. split_and!; [done..|by eapply keeps_up].
Qed.

(** ** Recovery *)

Lemma run_each addr (us : list nat) st :
  cluster_ok st → usable st addr → (∀ u, u ∈ us → u ∈ live ∧ fed st u) →
  ∃ st', rtc cstep st st' ∧ cluster_ok st' ∧ usable st' addr ∧ (∀ u, available st u ∨ u ∈ us → available st' u).
Proof.
  revert st. induction us as [|u us IH]; intros st Hok Hus Hfed.
  { exists st. split_and!; [done..|]. intros u [?|?%elem_of_nil]; done. }
  destruct (Hfed u (list_elem_of_here _ _)) as [Hl Hf].
  destruct (run_available false false st u addr Hok Hl) as (r & _ & _ & Hstep & Hok' & Hprog).
  set (st1 := mkCluster (rn_driver r) (rn_machines r) (rn_world r) (rn_inv r)) in *.
  destruct Hprog as (_ & Hus' & Hav & Hkeep); [done..|]. destruct (IH st1 Hok' Hus') as (st' & Hst & Hok2 & Hus2 & Hall).
  { intros v Hv. destruct (Hfed v) as [Hvl Hvf]; [by right|]. split; [done|]. intros T dep x HT Hdep Hx. by eapply Hkeep, Hvf. }
  exists st'. split_and!; [by eapply rtc_l|done..|]. intros v [Hv|[->|Hv]%elem_of_cons]; apply Hall; auto.
Qed.

Context (rank : nat → nat).
Hypothesis RANK : ∀ t T dep u, live_tasks !! t = Some T → dep ∈ ct_Deps T → u ∈ mem dep → rank u < rank t.

Lemma run_ranked addr n st :
  cluster_ok st → usable st addr →
  ∃ st', rtc cstep st st' ∧ cluster_ok st' ∧ usable st' addr ∧ ∀ t, t ∈ live → rank t < n → available st' t.
Proof.
  intros Hok Hus. induction n as [|n IH].
  { exists st. split_and!; [done..|]. lia. }
  destruct IH as (st1 & Hst1 & Hok1 & Hus1 & Hav1).
  destruct (run_each addr (filter (λ t, rank t = n) (elements live)) st1 Hok1 Hus1) as (st2 & Hst2 & Hok2 & Hus2 & Hav2).
  { intros u [Hn Hu%elem_of_elements]%list_elem_of_filter. split; [done|]. intros T dep v HT Hdep Hv. apply Hav1.
    - destruct (tk_deps _ _ _ _ _ _ _ _ (GRAPH u T HT) dep Hdep) as (_ & _ & _ & Hmem). destruct (Hmem v Hv) as (V & HV & _).
      by apply live_lookup in HV as [_ ?].
    - pose proof (RANK u T dep v HT Hdep Hv). lia. }
  exists st2. split_and!; [by etrans|done..|]. intros t Ht Hn. apply Hav2. destruct (decide (rank t = n)) as [He|He].
  - right. apply list_elem_of_filter. split; [done|]. by apply elem_of_elements.
  - left. apply Hav1; [done|lia].
Qed.

(** Whatever has been lost, all outputs can be computed again on a new machine. *)
Lemma recovers st : cluster_ok st → ∃ st', rtc cstep st st' ∧ ∀ t, t ∈ live → available st' t.
Proof.
  intros Hok. set (used := dom (cl_machines st) ∪ dom (dv_compiles (cl_driver st)) : gset string). set (addr := base.fresh used).
  assert (cl_machines st !! addr = None ∧ dv_compiles (cl_driver st) !! addr = None) as [Hno Hnc].
  { pose proof (is_fresh used) as Hf. fold addr in Hf. unfold used in Hf.
    split; apply not_elem_of_dom; set_solver. }
  set (st1 := mkCluster (cl_driver st) (<[addr := Init machineCombiners (new_store addr)]> (cl_machines st)) (cl_world st) (cl_inv st)).
  assert (cstep st st1) as Hstep by (destruct st; by apply cl_start).
  destruct (run_ranked addr (S (max_list (rank <$> elements live))) st1) as (st2 & Hst2 & _ & _ & Hav).
  - by eapply cstep_ok.
  - split; [cbn [st1 cl_machines]; rewrite lookup_insert_eq; by eexists|]. cbn [st1 cl_driver]. unfold once_of. rewrite Hnc.
    cbn [from_option id]. by rewrite (once_get_new (OnceLaws := OL1)).
  - exists st2. split; [by eapply rtc_l|]. intros t Ht. apply Hav; [done|]. apply Nat.lt_succ_r, max_list_elem_of_le.
    apply list_elem_of_fmap. exists t. split; [done|by apply elem_of_elements].
Qed.

(** The output of a task that is done, where it is. *)
Lemma reader_output (d : driver) ms w t T R p addr :
  driver_ok d ms w → live_tasks !! t = Some T → w_tasks w !! t = Some R → t_state R = TaskOk →
  location d t = Some addr → is_Some (ms !! addr) → p < Z.to_nat (ct_NumPartition T) →
  ∃ r l, driver_Reader (H := calls false false) (c_tasks c) t (Z.of_nat p) (location d) d ms = Ret r ∧ Streams r l ∧ part_rows out kp t T p l.
Proof.
  intros Hd HT HR Hok Ha [wk Hwk] Hp. pose proof HT as [HTc _]%live_lookup. destruct (tk_output _ _ _ _ _ _ _ _ (GRAPH t T HT)) as (HK & _).
  destruct (do_done _ _ _ Hd t T R HT HR Hok) as (a & Ha' & Hdn). rewrite Ha in Ha'. injection Ha' as <-. specialize (Hdn wk Hwk).
  destruct (done_output wk t T p (done_compiled addr wk t (do_machines _ _ _ Hd addr wk Hwk) Hdn) Hdn HT Hp) as (info & data & l & _ & Hrd & Hl & Hpr).
  exists (decoding (ct_Type T) data), l. split_and!; [|by eapply Streams_as_Streams|done].
  unfold driver_Reader, deref. rewrite HTc. cbn [mbind outcome_bind]. rewrite Ha, HK, (bool_decide_true ("" = "")) by done. cbn [negb].
  cbn [mc_Reader cluster_machines]. unfold remote_reader. by rewrite Hwk, Hrd.
Qed.
End spec.
