(* ===== verification/ClusterRun.v ===== *)
(** Running a compiled slice on a cluster (src/exec/bigmachine.go over the graphs of
    src/exec/compile.go): the rows that tasks leave on workers are those of a reference
    semantics of slices, up to their order.

    Results of earlier invocations, and combiners shared by the tasks of a machine, are
    left out; tasks have combiners of their own. *)
From S2P Require Import Prelude Types SliceIO Retry Slices Readers Task Compile CompileSpec CompileGraph Store Local LocalSpec LocalRun Machines WorkerOut WorkerCombine WorkerCombineSpec Worker WorkerSpec WorkerRun Driver Cluster ClusterSpec.

(** * The tasks that roots depend on *)

Lemma all_of_spec w fuel ts vs :
  graph_ok w → (∀ t, t ∈ ts → t ∈ dom (w_tasks w)) → unvisited w vs ≤ fuel →
  ∃ X, all_of fuel w ts vs = Ret X ∧ vs ⊆ X ∧ X ⊆ dom (w_tasks w) ∪ vs ∧ (∀ t, t ∈ ts → t ∈ X) ∧
    (∀ u, u ∈ X → u ∈ vs ∨ ∃ t, t ∈ ts ∧ rtc (edge w) t u) ∧ ∀ u v, u ∈ X → u ∉ vs → edge w u v → v ∈ X.
Proof.
  intros Hg. revert vs. induction ts as [|t ts IH]; intros vs Hts Hf.
  { exists vs. split_and!; [done|set_solver..]. }
  destruct (all_spec w fuel vs t Hg) as (X1 & HX1 & (A1 & A2 & A3 & A4) & Ht); [apply Hts; by left|done|].
  destruct (IH X1) as (X & HX & B1 & B2 & B3 & B5 & B4).
  { intros u Hu. apply Hts. by right. }
  { pose proof (unvisited_mono w vs X1 A1). lia. }
  exists X. cbn [all_of]. rewrite HX1. cbn [mbind outcome_bind]. split_and!; [done|set_solver|set_solver| | |].
  - intros u [->|Hu]%elem_of_cons; [by apply B1|by apply B3].
  - intros u Hu. destruct (decide (u ∈ vs)) as [|Hnu]; [by left|right].
    destruct (B5 u Hu) as [Hu1|(t' & Ht' & Hr)]; [exists t; split; [by left|by apply A3]|exists t'; split; [by right|done]].
  - intros u v Hu Hnu Huv. destruct (decide (u ∈ X1)) as [Hin|Hnin]; [apply B1; by eapply A4|by eapply B4].
Qed.

(** The result is the set of all tasks that can be reached, whatever the fuel. *)
Lemma all_of_reachable w fuel ts :
  graph_ok w → (∀ t, t ∈ ts → t ∈ dom (w_tasks w)) → unvisited w ∅ ≤ fuel →
  ∃ X, all_of fuel w ts ∅ = Ret X ∧ X ⊆ dom (w_tasks w) ∧ ∀ u, u ∈ X ↔ ∃ t, t ∈ ts ∧ rtc (edge w) t u.
Proof.
  intros Hg Hts Hf. destruct (all_of_spec w fuel ts ∅ Hg Hts Hf) as (X & HX & _ & Hdom & Hin & Hr & Hcl).
  exists X. split_and!; [done|set_solver|]. intros u. split.
  - intros Hu. destruct (Hr u Hu) as [?|?]; [set_solver|done].
  - intros (t & Ht & Htu). apply Hin in Ht. revert Ht. induction Htu as [|x y z Hxy _ IH]; [done|]. intros Hx. apply IH.
    eapply Hcl; [done|set_solver|done].
Qed.

Section run.
Context {C : Type} `{CombinerOps C} {CF : Type} `{CombiningFrameOps CF} {E : Type} `{RowEncoding E}.
Context {CL : CombinerLaws C} {RL : RowEncodingLaws E}.
Context (frame_Hash : row → outcome Z).
Context (SReader : Slice → Z → list (anyReader row) → outcome (anyReader row)).

(** * The reference semantics *)

(** The rows of each shard of each slice, and the partition of each row. *)
Context (D : Slice → nat → list row) (route : Partitioner → Z → row → nat).

#[local] Abbreviation dpart := (dep_partitioner frame_Hash).

(** What shard [i] of [s] gets of shard [k] of a shuffled dependency. *)
Definition share (s : Slice) (d : Dep) (i k : nat) : list row :=
  filter (λ x, rt route (dpart d) (NumShard s) x = i) (D (d_Slice d) k).

Definition share_rows (s : Slice) (d : Dep) (i k : nat) (l : list row) : Prop :=
  match Combiner s with
  | None => l ≡ₚ share s d i k
  | Some f => reduces (typ_of (d_Slice d)) f (share s d i k) l
  end.

(** What the readers of a dependency of shard [i] of [s] can deliver: the same shard, or
    its share of every shard, in any order, reduced if there is a combiner. *)
Definition reads_upto (s : Slice) (d : Dep) (i : nat) (ls : list (list row)) : Prop :=
  if d_Shuffle d then
    ∃ ls0 ls1, Forall2 (share_rows s d i) (seq 0 (Z.to_nat (NumShard (d_Slice d)))) ls0 ∧ ls0 ≡ₚ ls1 ∧
      ls = if d_Expand d then ls1 else [concat ls1]
  else ∃ l, l ≡ₚ D (d_Slice d) i ∧ ls = [l].

(** [D] and [route] are what the readers of the slices, the partitioners and the
    combiners compute, whatever the order of rows, and rows can be encoded. *)
Record semantics_upto (root : Slice) : Prop := {
  su_reads : ∀ s i ins lss, sub root s → (Z.of_nat i < NumShard s)%Z → length lss = Z.to_nat (NumDep s) →
    (∀ j d ls, SDep s (Z.of_nat j) = Ret d → lss !! j = Some ls → reads_upto s d i ls) →
    Forall2 Streams ins (concat lss) →
    ∃ r L, SReader s (Z.of_nat i) ins = Ret r ∧ Streams r L ∧ L ≡ₚ D s i;
  su_caches : ∀ s, sub root s → writes_through s;
  su_route : ∀ s j d k, sub root s → (0 <= Z.of_nat j < NumDep s)%Z → SDep s (Z.of_nat j) = Ret d → d_Shuffle d = true →
    (∀ x, x ∈ D (d_Slice d) k → rt route (dpart d) (NumShard s) x < Z.to_nat (NumShard s)) ∧
    ((1 < NumShard s)%Z ∨ is_Some (Combiner s) → ∀ rows, rows ⊆ D (d_Slice d) k →
       dpart d rows (NumShard s) = Ret (Z.of_nat ∘ rt route (dpart d) (NumShard s) <$> rows));
  su_combines : ∀ s j d k f, sub root s → (0 <= Z.of_nat j < NumDep s)%Z → SDep s (Z.of_nat j) = Ret d → d_Shuffle d = true →
    Combiner s = Some f → combinable (typ_of (d_Slice d)) f (D (d_Slice d) k) ∧
    ∀ l L, l ⊆+ D (d_Slice d) k → reduces (typ_of (d_Slice d)) f l L → encodable (typ_of (d_Slice d)) L;
  su_encodes : ∀ s i, sub root s → (NumOut (typ_of s) ≠ 0)%Z ∧ encodable (typ_of s) (D s i);
  su_new : ∀ s, sub root s → ¬ is_Result s;
}.

Context (inv_Index : Z) (inv_Location : string) (env : CompileEnv) (root : Slice) (c : compiler).
#[local] Abbreviation base := (mkCompiler ∅ 0 ∅ ∅ env).
Context (IN : input_ok root base) (SEM : semantics_upto root).
Context (INV : Inv frame_Hash SReader inv_Index inv_Location false root base ∅ c).

#[local] Abbreviation compiled := (compiled frame_Hash SReader inv_Index inv_Location false ∅ c).
#[local] Abbreviation the_task := (task_of frame_Hash SReader inv_Index inv_Location false).

(** ** Pipelines *)

Lemma compute_upto s i ins lss prev f :
  sub root s → (Z.of_nat i < NumShard s)%Z → length lss = Z.to_nat (NumDep s) →
  (∀ j d ls, SDep s (Z.of_nat j) = Ret d → lss !! j = Some ls → reads_upto s d i ls) →
  (∃ ins', match prev with None => Ret ins | Some p => r ← p ins; Ret [r] end = Ret ins' ∧ Forall2 Streams ins' (concat lss)) →
  f = compute_Do SReader inv_Location s (Z.of_nat i) prev →
  ∃ r L, f ins = Ret r ∧ Streams r L ∧ L ≡ₚ D s i.
Proof.
  intros Hs Hi Hlen Hin (ins' & Hins & HF) ->. destruct (su_reads _ SEM s i ins' lss Hs Hi Hlen Hin HF) as (r & L & Hr & HL & Hp).
  destruct (su_caches _ SEM s Hs (Z.of_nat i) r L HL) as (r' & Hr' & [k Hk]).
  eexists _, L. unfold compute_Do. rewrite Hins. cbn [mbind outcome_bind]. rewrite Hr. cbn [mbind outcome_bind]. rewrite Hr'.
  split; [done|]. split; [|done]. eapply Streams_as_Streams, pack_Streams_as. exists k. by apply pprofReader_streams.
Qed.

(** The Do of a pipeline computes the rows of its first slice. *)
Lemma do_of_upto slices s rest last i :
  slices = s :: rest → chain slices → sub root s → (Z.of_nat i < NumShard s)%Z →
  Forall (λ s', ¬ is_Result s') slices → list.last slices = Some last →
  ∃ f, do_of SReader inv_Location (reverse slices) i = Some f ∧
    ∀ ins lss, length lss = Z.to_nat (NumDep last) →
      (∀ j d ls, SDep last (Z.of_nat j) = Ret d → lss !! j = Some ls → reads_upto last d i ls) →
      Forall2 Streams ins (concat lss) → ∃ r L, f ins = Ret r ∧ Streams r L ∧ L ≡ₚ D s i.
Proof.
  revert s rest. induction slices as [|a slices IH]; [done|]. intros s rest Heq Hch Hs Hi HF Hlast. injection Heq as -> <-.
  apply Forall_cons_iff in HF as [HR HF]. rewrite reverse_cons. unfold do_of. rewrite fold_left_app.
  destruct slices as [|b rest].
  { simpl in Hlast. injection Hlast as ->. eexists. split; [done|]. intros ins lss Hlen Hin Hins.
    eapply (compute_upto last i ins lss None); [done..|by exists ins|done]. }
  destruct Hch as [(d & Hd & Hn & Hsh & <-) Hch].
  assert (sub root (d_Slice d)) as Hsd by (eapply (sub_dep root s 0); [done..|lia|done]).
  destruct (IH (d_Slice d) rest eq_refl Hch Hsd) as (f & Hf & Hspec); [by rewrite (SDep_NumShard s 0 d Hd Hsh)|done|done|].
  unfold do_of in Hf. rewrite Hf. eexists. split; [done|]. intros ins lss Hlen Hin Hins.
  destruct (Hspec ins lss Hlen Hin Hins) as (r & L & Hr & HL & Hp).
  eapply (compute_upto s i ins [[L]] (Some f)); [done|done|by rewrite Hn| | |done].
  - intros [|j] d' ls Hd' Hls; [|done]. change (Z.of_nat 0) with 0%Z in Hd'. rewrite Hd in Hd'. injection Hd' as <-. injection Hls as <-.
    unfold reads_upto. rewrite Hsh. by exists L.
  - exists [r]. rewrite Hr. split; [done|]. by repeat constructor.
Qed.

(** ** Tasks *)

(** The rows that a task computes, and their partitions. *)
Definition task_rows (t : nat) : list row :=
  match c_tasks c !! t with
  | Some T => match ct_Slices T with s :: _ => D s (Z.to_nat (tn_Shard (ct_Name T))) | [] => [] end
  | None => []
  end.
Definition task_part (t : nat) (x : row) : nat :=
  match c_tasks c !! t with
  | Some T => match ct_Partitioner T with Some P => rt route P (ct_NumPartition T) x | None => 0 end
  | None => 0
  end.

Lemma compiled_task s part ts i t :
  sub root s → compiled s part ts → ts !! i = Some t →
  ∃ slices rest last op deps dtss, slices = s :: rest ∧ chain slices ∧ Forall (λ s', ¬ is_Result s') slices ∧
    list.last slices = Some last ∧
    c_tasks c !! t = Some (the_task s part slices last op deps dtss (if IsShuffle part then ts else []) i) ∧
    length deps = Z.to_nat (NumDep last) ∧ length dtss = length deps ∧
    (∀ j d, deps !! j = Some d → SDep last (Z.of_nat j) = Ret d) ∧
    (∀ j d dts, deps !! j = Some d → dtss !! j = Some dts →
       compiled (d_Slice d) (dep_part false s last op d) dts ∧ length dts = Z.to_nat (NumShard (d_Slice d))).
Proof.
  intros Hs Hc Hi. pose proof (su_new _ SEM s Hs) as HR.
  destruct Hc as [s part p s' rt HU Hsh Hrt|s part p s' rt op ts HU Hsh Hnd Hlen Hts
    |s part slices last op deps dtss ts HR' Hp Hl Hnd Hlen Hld Hldt Hdeps Hcd Hts].
  - destruct HR. unfold is_Result. by rewrite HU.
  - destruct HR. unfold is_Result. by rewrite HU.
  - destruct (pipeline_spec (slice_size s) s) as (sl & Hp1 & Hch & Hhd & HF); [done|].
    rewrite Hp in Hp1. injection Hp1 as <-. rewrite decide_False in Hhd by done. destruct Hhd as [rest Hsl].
    destruct (Hts i t Hi) as [_ HT]. by exists slices, rest, last, op, deps, dtss.
Qed.

Lemma task_rows_compiled s part ts i t :
  sub root s → compiled s part ts → ts !! i = Some t →
  task_rows t = D s i ∧ ∀ x, task_part t x = rt route (Partitioner_of frame_Hash part) (NumPartition part) x.
Proof.
  intros Hs Hc Hi. destruct (compiled_task s part ts i t Hs Hc Hi) as (slices & rest & last & op & deps & dtss & -> & _ & _ & _ & HT & _).
  unfold task_rows, task_part. rewrite HT. simpl. by rewrite Nat2Z.id.
Qed.

Lemma every_task t T :
  c_tasks c !! t = Some T → ∃ s part ts i, sub root s ∧ asked false root s part ∧ compiled s part ts ∧
    length ts = Z.to_nat (NumShard s) ∧ ts !! i = Some t.
Proof.
  intros HT. destruct (inv_all _ _ _ _ _ _ _ _ _ INV t) as [|(s & part & ts & Hs & Hask & Hc & Hin & Hlen)].
  { split; [simpl; lia|]. apply (inv_heap _ _ _ _ _ _ _ _ _ INV). by eexists. }
  - set_solver.
  - apply list_elem_of_lookup in Hin as [i Hi]. by exists s, part, ts, i.
Qed.

(** ** Edges *)

#[local] Abbreviation mem := (members (c_tasks c)).

(** The tasks of a dependency: those of all shards, or that of the same shard. *)
Lemma edge_members s last op i d dts (j : nat) :
  sub root last → NumShard s = NumShard last → (Z.of_nat i < NumShard s)%Z → (Z.of_nat j < NumDep last)%Z →
  SDep last (Z.of_nat j) = Ret d → compiled (d_Slice d) (dep_part false s last op d) dts →
  length dts = Z.to_nat (NumShard (d_Slice d)) →
  let e := dep_edge false last op i d dts in
  (∃ H, c_tasks c !! dep_Head e = Some H ∧ (ct_Group H = [] ∨ ∃ g, ct_Group H = dep_Head e :: g)) ∧
  if d_Shuffle d then mem e = dts else ∃ h, dts !! i = Some h ∧ mem e = [h].
Proof.
  intros Hsl Hns Hi Hj Hd Hc Hlen e.
  assert (sub root (d_Slice d)) as Hsd by (apply (sub_dep root last (Z.of_nat j)); [done|by apply (su_new _ SEM)|lia|done]).
  pose proof (in_shard _ _ IN _ Hsd) as Hshard. unfold members, e, dep_edge, dep_part in *. destruct (d_Shuffle d) eqn:Hsh; simpl.
  - destruct dts as [|h0 g]; [simpl in Hlen; lia|].
    destruct (compiled_task _ _ (h0 :: g) 0 h0 Hsd Hc eq_refl) as (slices & rest & lst & op' & deps' & dtss' & _ & _ & _ & _ & HT & _).
    assert (IsShuffle (mkPartitioner (NumShard s) (d_Partitioner d) (Combiner last) (CompileSpec.combineKey false last op)) = true) as Hshf.
    { unfold IsShuffle. simpl. destruct (Z.eqb_spec (NumShard s) 0); [lia|done]. }
    rewrite Hshf in HT. simpl. rewrite HT. simpl. split; [|done]. eexists. split; [done|]. right. by exists g.
  - pose proof (SDep_NumShard last _ d Hd Hsh) as Hnd. destruct (lookup_lt_is_Some_2 dts i) as [h Hh]; [lia|].
    destruct (compiled_task _ _ dts i h Hsd Hc Hh) as (slices & rest & lst & op' & deps' & dtss' & _ & _ & _ & _ & HT & _).
    rewrite Hh. simpl. rewrite HT. simpl. split; [|by exists h]. eexists. split; [done|]. by left.
Qed.

#[local] Abbreviation the_world := (mkWorld (run_task <$> c_tasks c) ∅ 0 ∅).

(** The size of the slice that a task computes. *)
Definition task_size (t : nat) : nat :=
  match c_tasks c !! t with
  | Some T => match ct_Slices T with s :: _ => slice_size s | [] => 0 end
  | None => 0
  end.

(** Dependencies are on tasks of the graph, whole groups of them. *)
Lemma compiled_edges t T e :
  c_tasks c !! t = Some T → e ∈ ct_Deps T →
  Task.members the_world e = mem e ∧ dep_Head e ∈ dom (w_tasks the_world) ∧
  ∀ u, u ∈ mem e → u ∈ dom (w_tasks the_world) ∧ task_size u < task_size t.
Proof.
  intros HT [j Hj]%list_elem_of_lookup.
  destruct (every_task t T HT)
    as (s & part & ts & i & Hs & Hask & Hc & Hlen & Hi).
  assert (Z.of_nat i < NumShard s)%Z as His by (apply lookup_lt_Some in Hi; lia).
  destruct (compiled_task s part ts i t Hs Hc Hi)
    as (slices & rest & lst & op & deps & dtss & Hsl & Hch & HF & Hlast & HT' & Hld & Hldt & Hdeps & Hcd).
  rewrite HT in HT'. injection HT' as ->. cbn [ct_Deps task_of] in Hj.
  apply lookup_zip_with_Some in Hj as (d & dts & -> & Hd & Hdts). destruct (Hcd j d dts Hd Hdts) as [Hcj Hlj].
  assert (lst ∈ slices) as Hin by (apply last_Some in Hlast as [l0 ->]; set_solver).
  destruct (chain_spec root base IN slices s rest Hsl Hch Hs HF lst Hin) as (Hsubl & Hnl & Hsz).
  assert (Z.of_nat j < NumDep lst)%Z as Hjn by (apply lookup_lt_Some in Hd; pose proof (NumDep_nonneg lst); lia).
  destruct (edge_members s lst op i d dts j Hsubl ltac:(done) His Hjn
    (Hdeps j d Hd) Hcj Hlj) as [(Hd0 & HH & HG) Hm].
  assert (sub root (d_Slice d)) as Hsd by (apply (sub_dep root lst (Z.of_nat j)); [done|by apply (su_new _ SEM)|lia|by apply Hdeps]).
  destruct (SDep_total lst j Hjn) as (d' & Hd' & Hszd). rewrite (Hdeps j d Hd) in Hd'. injection Hd' as <-.
  assert (∀ k u, dts !! k = Some u → u ∈ dom (w_tasks the_world) ∧ task_size u < task_size t) as Hdom.
  { intros k u Hk. destruct (compiled_task _ _ dts k u Hsd Hcj Hk)
      as (? & ? & ? & ? & ? & ? & Hsl' & _ & _ & _ & HU & _). split.
    - apply elem_of_dom. cbn [w_tasks]. rewrite lookup_fmap, HU. by eexists.
    - unfold task_size. rewrite HT, HU. cbn [ct_Slices task_of]. rewrite Hsl, Hsl'. lia. }
  split_and!.
  - unfold Task.members, WorkerRun.members. cbn [w_tasks]. rewrite lookup_fmap, HH. simpl. destruct HG as [->|[g ->]]; done.
  - apply elem_of_dom. cbn [w_tasks]. rewrite lookup_fmap, HH. by eexists.
  - intros u Hu. destruct (d_Shuffle d).
    + rewrite Hm in Hu. apply list_elem_of_lookup in Hu as [k Hk]. by eapply Hdom.
    + destruct Hm as (h & Hh & Hm). rewrite Hm in Hu. apply list_elem_of_singleton in Hu as ->. by eapply Hdom.
Qed.

Lemma live_exists ts :
  compiled root no_partitioner ts →
  ∃ live, (λ fuel, all_of fuel the_world ts ∅) ⇓ live ∧ (∀ t, t ∈ ts → t ∈ live) ∧ (∀ t, t ∈ live → is_Some (c_tasks c !! t)) ∧
    ∀ t T d u, t ∈ live → c_tasks c !! t = Some T → d ∈ ct_Deps T → u ∈ mem d → u ∈ live.
Proof.
  intros Hc.
  assert (graph_ok the_world) as Hg.
  { intros t R d. cbn [w_tasks]. rewrite lookup_fmap. destruct (c_tasks c !! t) as [T|] eqn:HT; [|done]. intros [= <-] Hd.
    destruct (compiled_edges t T d HT Hd) as (Hm & Hh & Hu). split; [exact Hh|]. rewrite Hm. intros u Hin. by apply Hu. }
  assert (∀ t, t ∈ ts → t ∈ dom (w_tasks the_world)) as Hts.
  { intros t [i Hi]%list_elem_of_lookup.
    destruct (compiled_task root _ ts i t (sub_root root) Hc Hi)
      as (? & ? & ? & ? & ? & ? & _ & _ & _ & _ & HT & _). apply elem_of_dom. cbn [w_tasks]. rewrite lookup_fmap, HT. by eexists. }
  destruct (all_of_reachable the_world (unvisited the_world ∅) ts Hg Hts) as (X & HX & Hdom & Hr); [done|].
  exists X. split_and!.
  - exists (unvisited the_world ∅). intros fuel Hf. destruct (all_of_reachable the_world fuel ts Hg Hts Hf) as (X' & -> & _ & Hr').
    f_equal. apply set_eq. intros u. by rewrite Hr, Hr'.
  - intros t Ht. apply Hr. by exists t.
  - intros t Ht. apply Hdom, elem_of_dom in Ht. cbn [w_tasks] in Ht. rewrite lookup_fmap in Ht.
    destruct (c_tasks c !! t); [by eexists|by destruct Ht].
  - intros t T d u Ht HT Hd Hu. apply Hr in Ht as (t0 & Ht0 & Htt). apply Hr. exists t0. split; [done|].
    eapply rtc_r; [done|]. exists (run_task T), d. cbn [w_tasks]. rewrite lookup_fmap, HT. split_and!; [done..|].
    by destruct (compiled_edges t T d HT Hd) as [-> _].
Qed.

Context (live : gset nat).
Context (LIVE : ∀ t T d u, t ∈ live → c_tasks c !! t = Some T → d ∈ ct_Deps T → u ∈ mem d → u ∈ live).

#[local] Abbreviation tasks := (live_tasks c live).

Lemma live_members e :
  (∀ u, u ∈ mem e → u ∈ live) → (∃ H, c_tasks c !! dep_Head e = Some H ∧ (ct_Group H = [] ∨ ∃ g, ct_Group H = dep_Head e :: g)) →
  members tasks e = mem e ∧ ∃ H, tasks !! dep_Head e = Some H ∧ (ct_Group H = [] ∨ ∃ g, ct_Group H = dep_Head e :: g).
Proof.
  intros Hl (T & HT & HG). assert (dep_Head e ∈ mem e) as Hin.
  { unfold members. rewrite HT. destruct HG as [->|[g ->]]; by left. }
  assert (tasks !! dep_Head e = Some T) as HT' by (apply live_lookup; auto).
  split; [|by exists T]. unfold members. by rewrite HT, HT'.
Qed.

Lemma live_members_in e u : u ∈ members tasks e → u ∈ mem e.
Proof.
  unfold members. destruct (tasks !! dep_Head e) as [T|] eqn:HT; [|by intros ?%elem_of_nil].
  by apply live_lookup in HT as [-> _].
Qed.

(** What a task reads is what the semantics says. *)
Lemma edge_reads s last op i d dts (j : nat) ls :
  sub root last → NumShard s = NumShard last → (Z.of_nat i < NumShard s)%Z → (Z.of_nat j < NumDep last)%Z →
  SDep last (Z.of_nat j) = Ret d → compiled (d_Slice d) (dep_part false s last op d) dts →
  length dts = Z.to_nat (NumShard (d_Slice d)) → (∀ u, u ∈ mem (dep_edge false last op i d dts) → u ∈ live) →
  dep_rows tasks task_rows task_part (dep_edge false last op i d dts) ls → reads_upto last d i ls.
Proof.
  intros Hsl Hns Hi Hj Hd Hc Hlen Hlive (ls0 & ls1 & HF & Hp & Hls).
  destruct (edge_members s last op i d dts j Hsl Hns Hi Hj Hd Hc Hlen) as [Hhead Hm].
  destruct (live_members _ Hlive Hhead) as [Hmem _]. rewrite Hmem in HF.
  assert (sub root (d_Slice d)) as Hsd by (apply (sub_dep root last (Z.of_nat j)); [done|by apply (su_new _ SEM)|lia|done]).
  unfold reads_upto. destruct (d_Shuffle d) eqn:Hsh.
  - rewrite Hm in HF. exists ls0, ls1. split_and!; [|done|by unfold dep_edge in Hls; rewrite Hsh in Hls].
    apply Forall2_same_length_lookup. split.
    { rewrite length_seq, <-Hlen. by eapply Forall2_length. }
    intros k k' l Hk Hl. apply lookup_seq in Hk as [-> Hk]. simpl. destruct (Forall2_lookup_r _ _ _ _ _ HF Hl) as (u & Hu & U & HU & Hpr).
    apply live_lookup in HU as [HU _]. destruct (task_rows_compiled _ _ dts k u Hsd Hc Hu) as [Hrows Hpart].
    destruct (compiled_task _ _ dts k u Hsd Hc Hu) as (slices & rest & lst & op' & deps' & dtss' & _ & _ & _ & _ & HT & _).
    rewrite HU in HT. injection HT as ->. unfold part_rows in Hpr. unfold share_rows, share.
    unfold dep_edge, dep_part in *. rewrite Hsh in *. simpl in Hpr. rewrite Nat2Z.id in Hpr.
    assert (NumPartition (mkPartitioner (NumShard s) (d_Partitioner d) (Combiner last) (CompileSpec.combineKey false last op)) = NumShard last) as Hnp.
    { unfold NumPartition. simpl. destruct (Z.eqb_spec (NumShard s) 0); [lia|done]. }
    assert (filter (λ x, task_part u x = i) (task_rows u) =
      filter (λ x, rt route (dpart d) (NumShard last) x = i) (D (d_Slice d) k)) as Hf.
    { rewrite Hrows. apply list_filter_iff. intros x. rewrite Hpart, Hnp. done. }
    rewrite Hf in Hpr. exact Hpr.
  - destruct Hm as (h & Hh & Hm). rewrite Hm in HF.
    apply Forall2_cons_inv_l in HF as (l & ls' & (U & HU & Hpr) & HF & ->). apply Forall2_nil_inv_l in HF as ->.
    apply live_lookup in HU as [HU _]. destruct (task_rows_compiled _ _ dts i h Hsd Hc Hh) as [Hrows Hpart].
    destruct (compiled_task _ _ dts i h Hsd Hc Hh) as (slices & rest & lst & op' & deps' & dtss' & _ & _ & _ & _ & HT & _).
    rewrite HU in HT. injection HT as ->. unfold part_rows in Hpr. unfold dep_edge, dep_part in *. rewrite Hsh in *. simpl in Hpr.
    apply Permutation_singleton_l in Hp. subst ls1. exists l. split.
    + rewrite Hpr, Hrows. apply Permutation_refl'. etrans; [|apply (filter_rt_1 route (Partitioner_of frame_Hash no_partitioner))].
      apply list_filter_iff. intros x. by rewrite Hpart.
    + simpl in Hls. destruct (d_Expand d) eqn:Hex; [|by rewrite app_nil_r in Hls].
      destruct (SDep_Expand last _ d Hd Hex) as [? _]. congruence.
Qed.

(** ** Outputs *)

Context {St : Type} `{Store St} {SL : StoreLaws St} (defaultChunksize : nat).
Context (PSIZE : 0 < psize defaultChunksize).
Context (STORE : ∀ t T k, c_tasks c !! t = Some T → (0 <= k <= Z.of_nat (length (task_rows t)))%Z → storable (ct_Name T) k).

Lemma compiled_output s part ts i t T :
  sub root s → asked false root s part → compiled s part ts → ts !! i = Some t → c_tasks c !! t = Some T →
  output_ok (C := C) (E := E) defaultChunksize task_rows task_part t T.
Proof.
  intros Hs Hask Hc Hi HT. pose proof (STORE t T) as Hst. destruct (task_rows_compiled s part ts i t Hs Hc Hi) as [Hrows Hpart].
  destruct (compiled_task s part ts i t Hs Hc Hi) as (slices & rest & lst & op & deps & dtss & _ & _ & _ & _ & HT' & _).
  pose proof HT as HT2. rewrite HT' in HT2. injection HT2 as <-. rewrite Hrows in Hst.
  destruct (su_encodes _ SEM s i Hs) as [HN Henc]. unfold output_ok. rewrite Hrows. cbn [ct_CombineKey ct_Combiner task_of ct_Type].
  assert (part = no_partitioner ∨ ∃ top last op (j : nat) d, sub root last ∧ (Z.of_nat j < NumDep last)%Z ∧ SDep last (Z.of_nat j) = Ret d ∧
    d_Slice d = s ∧ NumShard top = NumShard last ∧ d_Shuffle d = true ∧ part = dep_part false top last op d) as Hp.
  { destruct Hask as [->|(top & last & op' & j & d & Hsl & _ & Hj & Hd & Hds & Hn & ->)]; [by left|].
    destruct (d_Shuffle d) eqn:Hsh; [|left; unfold dep_part; by rewrite Hsh]. right. by exists top, last, op', j, d. }
  destruct Hp as [->|(top & last & op' & j & d & Hsl & Hj & Hd & Hds & Hn & Hsh & ->)].
  { split_and!; [done|intros k Hk; by apply (Hst k HT)|]. cbn [p_Combiner no_partitioner].
    split_and!; [done| |done|done]. split_and!; [done| |cbn [ct_NumPartition task_of]; unfold NumPartition; simpl; lia].
    intros x _. rewrite Hpart. exact Nat.lt_0_1. }
  pose proof (in_shard _ _ IN _ Hsl) as Hshard. unfold dep_part in *. rewrite Hsh in *.
  set (part := mkPartitioner _ _ _ _) in *.
  assert (NumPartition part = NumShard last) as Hnp.
  { unfold NumPartition, part. simpl. destruct (Z.eqb_spec (NumShard top) 0); [lia|done]. }
  destruct (su_route _ SEM last j d i Hsl ltac:(lia) Hd Hsh) as [Hlt Hpt]. rewrite Hds in Hlt, Hpt.
  assert (∀ rows : list row, Z.of_nat ∘ task_part t <$> rows = Z.of_nat ∘ rt route (dpart d) (NumShard last) <$> rows) as Hfm.
  { intros rows. apply list_fmap_ext. intros k x _. simpl. by rewrite Hpart, Hnp. }
  assert (∀ x, x ∈ D s i → task_part t x < Z.to_nat (NumPartition part)) as Hb by (intros x Hx; rewrite Hpart, Hnp; by apply Hlt).
  split_and!; [simpl; unfold CompileSpec.combineKey; by rewrite andb_false_r|intros k Hk; by apply (Hst k HT)|].
  cbn [p_Combiner part]. destruct (Combiner last) as [f|] eqn:HC.
  - destruct (su_combines _ SEM last j d i f Hsl ltac:(lia) Hd Hsh HC) as [Hcb Hce]. rewrite Hds in Hcb, Hce.
    split_and!; [|done|done]. split_and!; cbn [ct_NumPartition ct_Partitioner task_of]; [lia|done|]. eexists. split; [done|].
    intros rows Hr. rewrite Hfm, Hnp. apply Hpt; [right; by eexists|done].
  - split_and!; [done| |done|done]. split_and!; cbn [ct_NumPartition ct_Partitioner task_of]; [lia|done|]. intros Hgt. eexists. split; [done|].
    intros rows Hr. rewrite Hfm, Hnp. apply Hpt; [left; lia|done].
Qed.

Context (NAMES : ∀ t u T U, c_tasks c !! t = Some T → c_tasks c !! u = Some U → ct_Name T = ct_Name U → t = u).

(** Every task that the roots depend on satisfies what the cluster relies on. *)
Lemma live_task_ok t T :
  tasks !! t = Some T → task_ok (C := C) (E := E) defaultChunksize tasks inv_Index (live_named c live) task_rows task_part t T.
Proof.
  intros [HT Hlv]%live_lookup. destruct (every_task t T HT) as (s & part & ts & i & Hs & Hask & Hc & Hlen & Hi).
  assert (Z.of_nat i < NumShard s)%Z as His by (apply lookup_lt_Some in Hi; lia).
  pose proof (compiled_output s part ts i t T Hs Hask Hc Hi HT) as Hout.
  destruct (task_rows_compiled s part ts i t Hs Hc Hi) as [Hrows _].
  destruct (compiled_task s part ts i t Hs Hc Hi) as (slices & rest & lst & op & deps & dtss & Hsl & Hch & HF & Hlast & HT' & Hld & Hldt & Hdeps & Hcd).
  pose proof HT as HT2. rewrite HT' in HT2. injection HT2 as HT2.
  assert (lst ∈ slices) as Hin by (apply last_Some in Hlast as [l0 ->]; set_solver).
  destruct (chain_spec root base IN slices s rest Hsl Hch Hs HF lst Hin) as (Hsubl & Hnl & _).
  assert (∀ j e, ct_Deps T !! j = Some e → ∃ d dts, e = dep_edge false lst op i d dts ∧ SDep lst (Z.of_nat j) = Ret d ∧
    (Z.of_nat j < NumDep lst)%Z ∧ compiled (d_Slice d) (dep_part false s lst op d) dts ∧
    length dts = Z.to_nat (NumShard (d_Slice d)) ∧ ∀ u, u ∈ mem e → u ∈ live) as Hedges.
  { intros j e Hj. pose proof (list_elem_of_lookup_2 _ _ _ Hj) as He. rewrite <-HT2 in Hj. cbn [ct_Deps task_of] in Hj.
    apply lookup_zip_with_Some in Hj as (d & dts & -> & Hd & Hdts). destruct (Hcd j d dts Hd Hdts) as [Hcj Hlj].
    exists d, dts. split_and!; [done|by apply Hdeps| |done|done|].
    - apply lookup_lt_Some in Hd. pose proof (NumDep_nonneg lst). lia.
    - intros u Hum. exact (LIVE t T _ u Hlv HT He Hum). }
  split.
  - apply name_tasks_spec; [by apply elem_of_elements|done|]. intros u U _ HU Hn. exact (NAMES u t U T HU HT Hn).
  - by rewrite <-HT2.
  - intros e [j Hj]%list_elem_of_lookup. destruct (Hedges j e Hj) as (d & dts & -> & Hd & Hjn & Hcj & Hlj & Hu).
    destruct (edge_members s lst op i d dts j Hsubl ltac:(done) His Hjn Hd Hcj Hlj) as [Hhead Hm].
    destruct (live_members _ Hu Hhead) as [Hmem Hhead'].
    assert (dep_CombineKey (dep_edge false lst op i d dts) = "" ∧ (0 <= dep_Partition (dep_edge false lst op i d dts))%Z) as [Hk Hp0].
    { unfold dep_edge. destruct (d_Shuffle d); simpl; [|done]. split; [|lia]. unfold CompileSpec.combineKey. by rewrite andb_false_r. }
    split_and!; [done..|]. rewrite Hmem. intros u Hum. pose proof (Hu u Hum) as Hul.
    assert (sub root (d_Slice d)) as Hsd by (apply (sub_dep root lst (Z.of_nat j)); [done|by apply (su_new _ SEM)|lia|done]).
    assert (∃ k, dts !! k = Some u) as [k Hk'].
    { destruct (d_Shuffle d); [rewrite Hm in Hum; by apply list_elem_of_lookup|].
      destruct Hm as (h & Hh & Hm). rewrite Hm in Hum. apply list_elem_of_singleton in Hum as ->. by exists i. }
    destruct (compiled_task _ _ dts k u Hsd Hcj Hk') as (? & ? & ? & ? & ? & ? & _ & _ & _ & _ & HU & _).
    eexists. split; [apply live_lookup; split; [exact HU|done]|]. cbn [ct_NumPartition task_of]. unfold dep_edge, dep_part.
    pose proof (in_shard _ _ IN _ Hs).
    destruct (d_Shuffle d); simpl; unfold NumPartition; simpl; [|lia]. destruct (Z.eqb_spec (NumShard s) 0); lia.
  - done.
  - destruct (do_of_upto slices s rest lst i Hsl Hch Hs His HF Hlast) as (f & Hf & Hspec). exists f. split; [by rewrite <-HT2|].
    intros ins lss Hdr Hins. rewrite Hrows. destruct (Hspec ins lss) as (r & L & Hr & HL & Hp); [| |done|by exists r, L].
    + rewrite <-(Forall2_length Hdr), <-HT2. cbn [ct_Deps task_of]. rewrite length_zip_with. lia.
    + intros j d ls Hd Hls. destruct (Forall2_lookup_r _ _ _ _ _ Hdr Hls) as (e & He & Hrd).
      destruct (Hedges j e He) as (d' & dts & -> & Hd' & Hjn & Hcj & Hlj & Hu). rewrite Hd in Hd'. injection Hd' as <-.
      eapply edge_reads; [done| |done|exact Hjn|done|done|done|done|done]. done.
Qed.
End run.


(** * Evaluations *)

(** Tasks have names of their own, and names that stores can hold. *)
Definition names_ok {St} `{SO : Store St} {SL : StoreLaws St} (D : Slice → nat → list row) (c : compiler) : Prop :=
  (∀ t u T U, c_tasks c !! t = Some T → c_tasks c !! u = Some U → ct_Name T = ct_Name U → t = u) ∧
  ∀ t T k, c_tasks c !! t = Some T → (0 <= k <= Z.of_nat (length (task_rows D c t)))%Z → storable (S := St) (ct_Name T) k.

