(* ===== verification/ToyCodec.v ===== *)
(** A codec whose messages are self-delimiting, for any type of cells: it shows
    that the laws that the codec's clients rely on can hold, and serves the
    concrete instances of their theorems. *)
From S2P Require Import Prelude SliceIO Codec.

Section toy.
Context (A : Type) (numOut : nat).

Definition toy_size (m : msg A) : nat := match m with MCol c => length c | _ => 0 end.

Definition toy_dec (bs : list (option (msg A))) : dec_result (msg A * list (option (msg A)) * unit) :=
  match bs with
  | [] => DEOF
  | Some m :: rest => DOk (m, drop (toy_size m) rest, ())
  | None :: _ => DErr (Err Other "gob: bad data")
  end.

Definition toy_codec : Codec A := {|
  gst := unit;
  byte := option (msg A);
  gst0 := ();
  gob_enc _ m := inl (Some m :: replicate (toy_size m) None, ());
  gob_dec _ bs := toy_dec bs;
  has_codec col := (col =? 1)%nat;
  codec_enc _ _ c := inl (Some (MCol c) :: replicate (length c) None, ());
  codec_dec _ _ _ bs :=
    match toy_dec bs with
    | DOk (MCol c, rest, s) => DOk (c, rest, s)
    | DOk _ => DErr (Err Other "gob: bad data")
    | DEOF => DEOF
    | DErr e => DErr e
    end;
  crc32 bs := Z.of_nat (length bs);
  Codec.NumOut := numOut;
|}.

Lemma toy_laws : @CodecLaws A toy_codec.
Proof.
  split.
  - intros [] m bs [] rest [= <-]. simpl. by rewrite drop_app_length' by (by rewrite length_replicate).
  - done.
  - intros [] col c bs [] rest [= <-]. simpl.
    by rewrite drop_app_length' by (by rewrite length_replicate).
Qed.
End toy.
