(* ===== verification/TraceExamples.v ===== *)
(** Traces at concrete inputs. *)
From S2P Require Import Prelude Task Stats Tracer TracerSpec SliceTrace SliceTraceSpec.

(** * A check of the protocol *)

Definition follows (calls : list call) (c : call) : bool :=
  (length (cl_args c) mod 2 =? 0) &&
  match key_of c with
  | None => false
  | Some k =>
      match bk_open (book_of calls) !! k with
      | None => cl_begin c
      | Some b => negb (cl_begin c) &&
          match calls !! b with
          | Some c0 => (ma_ptr (cl_mach c0) =? ma_ptr (cl_mach c)) && bool_decide (ma_Addr (cl_mach c0) = ma_Addr (cl_mach c))
          | None => false
          end
      end
  end.
Fixpoint follow (calls rest : list call) : bool :=
  match rest with [] => true | c :: rest => follows calls c && follow (calls ++ [c]) rest end.

Lemma follow_protocol calls rest : protocol calls → follow calls rest = true → protocol (calls ++ rest).
Proof.
  revert calls. induction rest as [|c rest IH]; intros calls Hp Hf; [by rewrite app_nil_r|].
  cbn [follow] in Hf. apply andb_true_iff in Hf as [Hc Hf]. replace (calls ++ c :: rest) with ((calls ++ [c]) ++ rest) by (by rewrite <-(assoc_L (++))).
  apply IH; [|done]. unfold follows in Hc. apply andb_true_iff in Hc as [Ha%Nat.eqb_eq Hc]. destruct (key_of c) as [k|] eqn:Hk; [|done].
  destruct (bk_open (book_of calls) !! k) as [b|] eqn:Ho; [|by eapply protocol_begin].
  apply andb_true_iff in Hc as [Hb%negb_true_iff Hc]. destruct (calls !! b) as [c0|] eqn:Hc0; [|done].
  apply andb_true_iff in Hc as [Hp1%Nat.eqb_eq Hp2%bool_decide_eq_true]. eapply protocol_end; [done..|].
  destruct (cl_mach c0), (cl_mach c). simpl in *. congruence.
Qed.

(** * A sort *)

Fixpoint insert_by {A} (less : A → A → bool) (x : A) (l : list A) : list A :=
  match l with [] => [x] | y :: l => if less y x then y :: insert_by less x l else x :: y :: l end.
Definition sort_by A (less : A → A → bool) (l : list A) : list A := foldr (insert_by less) [] l.

Section sort.
Context {A : Type} (key : A → Z).
#[local] Abbreviation less := (λ x y, key x <? key y)%Z.

Lemma insert_by_perm x l : insert_by less x l ≡ₚ x :: l.
Proof. induction l as [|y l IH]; [done|]. cbn [insert_by]. destruct (key y <? key x)%Z; [|done]. rewrite IH. apply Permutation_swap. Qed.

Lemma insert_by_sorted x l : StronglySorted (λ x y, key x <= key y)%Z l → StronglySorted (λ x y, key x <= key y)%Z (insert_by less x l).
Proof.
  induction 1 as [|y l Hl IH Hy]; [repeat constructor|]. cbn [insert_by]. destruct (Z.ltb_spec (key y) (key x)).
  - constructor; [done|]. rewrite list.Forall_forall in *. intros z Hz. rewrite insert_by_perm in Hz. apply elem_of_cons in Hz as [->|Hz]; [lia|by apply Hy].
  - constructor; [by constructor|]. rewrite list.Forall_forall in *. intros z [->|Hz]%elem_of_cons; [lia|]. specialize (Hy z Hz). simpl in Hy. lia.
Qed.

Lemma sort_by_ok l : let s := sort_by A less l in
  s ≡ₚ l ∧ ∀ i j x y, i ≤ j → s !! i = Some x → s !! j = Some y → (key x <= key y)%Z.
Proof.
  intros s. assert (s ≡ₚ l ∧ StronglySorted (λ x y, key x <= key y)%Z s) as [Hp Hs].
  { unfold s. induction l as [|x l [IH1 IH2]]; [split; [done|constructor]|]. cbn [sort_by foldr]. split.
    - rewrite insert_by_perm. by rewrite IH1.
    - by apply insert_by_sorted. }
  split; [done|]. clear Hp. induction Hs as [|z s' _ IH Hz]; intros i j x y Hij Hx Hy; [done|]. rewrite list.Forall_forall in Hz.
  destruct i as [|i], j as [|j]; simplify_eq/=; [lia| |lia|eapply (IH i j); [lia|done..]]. apply Hz. by eapply list_elem_of_lookup_2.
Qed.
End sort.

(** * An evaluation *)

Definition m1 : machine := mkMachine 0 "host1:80".
Definition m2 : machine := mkMachine 1 "host2:80".
Definition map_name (i : Z) : TaskName := mkTaskName 1 "inv1_const_map" i 2.
Definition map_op (n : TaskName) : string := "const_map".

(** Two tasks at once on a machine, of an invocation that was compiled there; the second
    is run again on another machine. *)
Definition toy_trace : list trace_op :=
  [oEvent (mkCall 10000000000 m1 (subInvocation 1 false) true (compile_args "a.go:9" ["3"; "x"]));
   oEvent (mkCall 30000000000 m1 (subInvocation 1 false) false []);
   oEvent (mkCall 40000000000 m1 (subTask 10 (map_name 0)) true []);
   oEvent (mkCall 45000000000 m1 (subTask 11 (map_name 1)) true []);
   oMarshal;
   oEvent (mkCall 70000000000 m1 (subTask 10 (map_name 0)) false (run_args 12000000 3000000));
   oEvent (mkCall 95000000000 m1 (subTask 11 (map_name 1)) false (run_args 2000000 5000000));
   oEvent (mkCall 96000000000 m2 (subTask 11 (map_name 1)) true []);
   oEvent (mkCall 97000000000 m2 (subTask 11 (map_name 1)) false (run_args 0 1000000))].

Definition values {K} `{Countable K} (m : gmap K (list Event)) : list (list Event) := (map_to_list m).*2.

Lemma toy_trace_protocol : protocol (calls_of toy_trace).
Proof. apply (follow_protocol []); [constructor|]. vm_compute. reflexivity. Qed.

Lemma tracer_correct_witness :
  ∃ t (tid : nat → Z), run_ops values values toy_trace newTracer = Ret t ∧ length (default [] (tr_machineTidPools t !! Some 0)) = 2 ∧ tid 2 ≠ tid 3.
Proof.
  destruct (tracer_correct values values toy_trace) as (t & tid & Hrun & _ & Hpool & _ & Hapart).
  - done.
  - done.
  - exact toy_trace_protocol.
  - exists t, tid. split; [exact Hrun|]. split.
    + rewrite Hpool. vm_compute. reflexivity.
    + eapply Hapart; [reflexivity..|]. split; [lia|]. right. exists 4. split; [|lia]. vm_compute. right. by left.
Defined.

Lemma toy_trace_logged s cb ce :
  s ∈ bk_spans (book_of (calls_of toy_trace)) → calls_of toy_trace !! s.1 = Some cb → calls_of toy_trace !! s.2 = Some ce → logged_span map_op cb ce.
Proof.
  intros Hs. assert (s ∈ [(0, 1); (2, 4); (3, 5); (6, 7)]) as Hin by exact Hs. clear Hs.
  rewrite !elem_of_cons in Hin. destruct Hin as [->|[->|[->|[->|?%elem_of_nil]]]]; [..|done]; intros [= <-] [= <-].
  - split; [done|]. by eexists _, _.
  - split_and!; [done..|by eexists _, _].
  - split_and!; [done..|by eexists _, _].
  - split_and!; [done..|by eexists _, _].
Qed.

Definition toy_stats : list taskStat := omap (span_task map_op (calls_of toy_trace)) (bk_spans (book_of (calls_of toy_trace))).

Lemma toy_stats_small :
  forallb (λ t, (0 <=? ta_start t) && (0 <=? ta_duration t) && (0 <=? ta_read t) && (0 <=? ta_write t) && (ta_start t + ta_duration t <? 2 ^ 63))%Z toy_stats = true.
Proof. vm_compute. reflexivity. Qed.

Lemma toy_stats_shards : forallb (λ t, ta_shards t =? 2)%Z toy_stats = true.
Proof. vm_compute. reflexivity. Qed.

Lemma slicetrace_correct_witness :
  ∃ t s, run_ops values values toy_trace newTracer = Ret t ∧
    newSession id sort_by (λ m, (map_to_list m).*2) map_to_list (reread <$> snd (Marshal values values t)) = Ret s ∧ se_tasks s ≡ₚ toy_stats.
Proof.
  destruct (slicetrace_correct values values id sort_by (λ m, (map_to_list m).*2) map_to_list map_op toy_trace) as (t & s & Hrun & Hs & Ht & _).
  - done.
  - done.
  - intros A key l. apply sort_by_ok.
  - done.
  - done.
  - exact toy_trace_protocol.
  - exact toy_trace_logged.
  - split; [|by vm_compute]. intros t Ht. pose proof (proj1 (forallb_forall _ _) toy_stats_small t (proj1 (list_elem_of_In _ _) Ht)) as Hb.
    rewrite !andb_true_iff in Hb. lia.
  - intros x y Hx Hy _. pose proof (proj1 (forallb_forall _ _) toy_stats_shards) as HF.
    apply list_elem_of_In, HF, Z.eqb_eq in Hx. apply list_elem_of_In, HF, Z.eqb_eq in Hy. congruence.
  - exists t, s. split; [exact Hrun|]. split; [exact Hs|exact Ht].
Defined.


(** The report on the trace, but for the location and the arguments. *)
Example slicetrace_example :
  match run_ops values values toy_trace newTracer with
  | Ret t => slicetrace id sort_by (λ m, (map_to_list m).*2) map_to_list (reread <$> snd (Marshal values values t)) ≫= (λ r, Ret (tail r))
  | _ => NoFuel
  end = Ret
    [("# inv1:slice", [["op"; "shards"; "start"; "duration"]; ["const_map"; "2"; "00:00:30"; "00:00:57"]]);
     ("# inv1:task:io", [["op"; "total"; "read"; "write"]; ["const_map"; "00:01:21"; "00:00:14"; "00:00:09"]]);
     ("# inv1:task:quartile",
      [["op"; "min"; "q1"; "q2"; "q3"; "max"]; ["const_map"; "00:00:01"; "00:00:15"; "00:00:30"; "00:00:40"; "00:00:50"]])].
Proof. vm_compute. reflexivity. Qed.

(** The end of a run that failed is logged without durations; the trace cannot be read. *)
Example slicetrace_failed_run :
  match run_ops values values (take 3 toy_trace ++ [oEvent (mkCall 50000000000 m1 (subTask 10 (map_name 0)) false [TString "error"; TError (Err Remote "machine lost"); TString "error_type"; TString "lost"])]) newTracer with
  | Ret t => slicetrace id sort_by (λ m, (map_to_list m).*2) map_to_list (reread <$> snd (Marshal values values t))
  | _ => NoFuel
  end = Panic "interface conversion: not a float64".
Proof. vm_compute. reflexivity. Qed.
