(* ===== verification/BuiltinExamples.v ===== *)
(** Keys of builtin types at concrete inputs. *)
From S2P Require Import Prelude Heap Frame Builtins.

(** A stand-in for murmur3. *)
Definition toy_sum (bs : list Z) (seed : Z) : Z := (foldl (λ h b, (h * 31 + b) mod 2 ^ 32) seed bs mod 2 ^ 32)%Z.

Lemma toy_sum_range bs seed : (0 <= toy_sum bs seed < 2 ^ 32)%Z.
Proof. by apply Z.mod_pos_bound. Qed.

(** Rows with a key of an int8 and a string. *)
Definition key_mem : gmap nat (list value) :=
  {[0 := [VInt (-3); VInt 5; VInt (-3)]; 1 := [VBytes [97; 98]%Z; VBytes [97]%Z; VBytes [98]%Z]]}.
Definition key_frame : Frame :=
  mkFrame (Some [mkData "int8" (mkSlice 0 0 3 3) (ops int_less (int_hash32 toy_sum));
                 mkData "string" (mkSlice 1 0 3 3) (ops (λ a b, bytes_less (as_bytes a) (as_bytes b)) (bytes_hash toy_sum))]) 0 3 3 1.

Lemma key_frame_ok : frame_ok key_mem key_frame.
Proof.
  split; [simpl; lia|]. split; [|apply (bool_decide_unpack _); vm_compute; exact I].
  repeat (constructor; [split; [vm_compute; repeat split; discriminate|apply elem_of_dom; eexists; reflexivity]|]). constructor.
Qed.

Lemma key_frame_keys i : (0 <= i < 3)%Z → Forall2 key_of_type ["int8"; "string"] (key zero_value key_mem key_frame i).
Proof.
  intros Hi. assert (i = 0 ∨ i = 1 ∨ i = 2)%Z as [-> | [-> | ->]] by lia.
  all: constructor; [|constructor; [by left|constructor]]; exists (- 2 ^ 7)%Z, (2 ^ 7)%Z; split; [apply (bool_decide_unpack _); vm_compute; exact I|done].
Qed.

