(* ===== verification/CogroupExamples.v ===== *)
(** A cogroup of two dependencies, with two and three columns, sorted externally. *)
From S2P Require Import Prelude Types Heap SliceIO SortIO Codec Spiller Slices Readers Cogroup ToyCodec.

Definition cg_codec (i : nat) : Codec value := match i with O => toy_codec value 2 | _ => toy_codec value 3 end.

#[local] Instance cg_codec_laws i : @CodecLaws value (cg_codec i).
Proof. destruct i; apply toy_laws. Qed.

(** Keys are a column of integers. *)
Definition int_at (r : list value) : Z := match r with VInt _ z :: _ => z | _ => 0%Z end.
Definition int_less (a b : list value) : bool := (int_at a <? int_at b)%Z.

#[local] Instance int_less_sw : StrictWeak int_less.
Proof. split; intros *; unfold int_less; rewrite ?Z.ltb_lt, ?Z.ltb_ge; lia. Qed.

Definition cg_less : list value → list value → bool := key_less 1 int_less.
#[local] Instance cg_less_sw : StrictWeak cg_less := key_less_sw 1 int_less.

Definition cg_le (a b : list value) : Prop := cg_less b a = false.
#[local] Instance cg_le_dec : RelDecision cg_le.
Proof. intros a b. unfold cg_le. apply _. Defined.
#[local] Instance cg_le_trans : Transitive cg_le.
Proof. intros a b c. unfold cg_le, cg_less, key_less, int_less. rewrite !Z.ltb_ge. lia. Qed.
#[local] Instance cg_le_total : Total cg_le.
Proof. intros a b. unfold cg_le, cg_less, key_less, int_less. rewrite !Z.ltb_ge. lia. Qed.

#[local] Instance cg_sorter : Sorter :=
  spill_sorter cg_codec 2 3 100 (λ _, mkSpillIO None None None) (λ _, id) None (λ _, None) (λ _, None)
    cg_less (merge_sort cg_le).

Lemma cg_encodable i e rows :
  @well_typed _ (cg_codec i) rows →
  ∃ e', @Encoder_Write _ VNil (cg_codec i) e rows = (e', None) ∧
    length (en_out e) + length rows ≤ length (en_out e').
Proof.
  intros _. destruct i; (eexists; split; [reflexivity|]); simpl; rewrite !length_app; simpl;
    rewrite length_replicate; unfold Codec.column; rewrite length_fmap; lia.
Qed.

#[local] Instance cg_sorter_laws : SorterLaws cg_sorter (λ i, @well_typed _ (cg_codec i)) (key_less 1 int_less).
Proof.
  apply spill_sorter_laws; [apply _|apply _|lia|lia|done|done|done|done|apply cg_encodable|..].
  - apply merge_sort_Permutation.
  - intros rows. apply (StronglySorted_merge_sort cg_le).
Qed.

Definition cg_left : list (list value) :=
  [[VInt KInt 2; VString "b"]; [VInt KInt 1; VString "a"]; [VInt KInt 2; VString "c"]].
Definition cg_right : list (list value) :=
  [[VInt KInt 3; VBool true; VString "x"]; [VInt KInt 2; VBool false; VString "y"]].
Definition cg_deps : list (anyReader (list value)) := [pack (FrameReader cg_left); pack (FrameReader cg_right)].

Lemma frame_pack (l : list (list value)) : Streams (pack (FrameReader l)) l.
Proof. apply pack_Streams_as. eapply Streams_as_Streams, FrameReader_correct. Qed.

Definition cg_slices : list Slice :=
  [constSlice 0 (mkName "const" "a.go" 1 0) (New [TInt; TString]) cg_left 1;
   constSlice 1 (mkName "const" "a.go" 2 0) (New [TInt; TBool; TString]) cg_right 1].
Definition cg_types : list gotype := [TInt; TSlice TString; TSlice TBool; TSlice TString].

Lemma Cogroup_correct_witness :
  ∃ r out,
    Slice_Reader (λ _ _, false) (λ _ _ l, l) 128 (λ _ _ _, Panic "no reduce")
      (cogroup_Reader (λ _, cg_sorter) (λ _, int_less) 128 []) (New cg_types)
      (cogroupSlice 2 (mkName "cogroup" "a.go" 3 0) cg_slices cg_types 1 1) 0 cg_deps = Ret r ∧
    Streams_as strict r out ∧ cogrouped 1 [2; 3] int_less [cg_left; cg_right] out.
Proof.
  apply (Cogroup_correct (λ _ _, false) (λ _ _ l, l) 128 (λ _ _ _, Panic "no reduce") (λ _, cg_sorter) (λ _, int_less)
    128 [] (λ i, @well_typed _ (cg_codec i))); [apply _|exact cg_sorter_laws|lia| |].
  - repeat (constructor; [apply frame_pack|]). constructor.
  - intros [|[|i]] l Hl; simplify_eq/=; by repeat constructor.
Defined.

(** The rows it reads. *)
Example cogroup_example :
  match cogroupReader_Read 1 [2; 3] int_less 4 [] 50 (cogroupSlice_Reader cg_deps) 10 with
  | Ret (_, res) => res
  | _ => ([], None)
  end =
  ([[VInt KInt 1; VSlice [VString "a"]; VNil; VNil];
    [VInt KInt 2; VSlice [VString "c"; VString "b"]; VSlice [VBool false]; VSlice [VString "y"]];
    [VInt KInt 3; VNil; VSlice [VBool true]; VSlice [VString "x"]]], None).
Proof. by vm_compute. Qed.
