(* ===== verification/MachineExamples.v ===== *)
(** A run of the machine manager: instances of its theorems at a concrete
    reachable state. *)
From S2P Require Import Prelude Heap SliceIO Task Machines MachinesSpec MachinesRun MachineLife.

Definition next (s : sys) (e : event) (leases : list (nat * Z)) (starting : list Z) : sys :=
  match Do_iter (y_mm s) e with
  | Ret (Some (mm, n)) => mkSys mm leases (option_list n ++ starting)
  | _ => s
  end.

Lemma next_step s e leases starting mm n :
  allowed s e leases starting → Do_iter (y_mm s) e = Ret (Some (mm, n)) → step s (next s e leases starting).
Proof. intros Ha Hr. unfold next. rewrite Hr. by exists e, leases, starting, mm, n. Qed.

(** Machines of two procs, four procs at most.  A request for one proc makes the
    manager start a machine; when it is there, a request for two procs is served
    before the first one. *)
Definition y0 : sys := start 2 2 4.
Definition y1 : sys := next y0 (ESched (Offer 0 1 7)) [] [].
Definition y2 : sys := next y1 (EStart [0] 0) [] [].
Definition y3 : sys := next y2 (ESched (Offer 0 2 8)) [] [].
Definition y4 : sys := next y3 ESend [(0, 2%Z)] [1%Z].

Lemma y3_reachable : reachable 2 2 4 y3.
Proof.
  apply rtc_l with y1.
  { eapply (next_step y0 (ESched (Offer 0 1 7)) [] []); [by constructor|vm_compute; reflexivity]. }
  apply rtc_l with y2.
  { eapply (next_step y1 (EStart [0] 0) [] []); [|vm_compute; reflexivity].
    apply (allowed_start y1); [done|vm_compute; reflexivity|apply NoDup_singleton|done]. }
  apply rtc_once.
  eapply (next_step y2 (ESched (Offer 0 2 8)) [] []); [by constructor|vm_compute; reflexivity].
Qed.

Lemma y4_reachable : reachable 2 2 4 y4.
Proof.
  eapply rtc_r; [apply y3_reachable|].
  eapply (next_step y3 ESend [(0, 2%Z)] [1%Z]); [|vm_compute; reflexivity].
  apply (allowed_send y3 0 8 (mkRequest 0 2 8 0) [mkRequest 0 1 7 1]); vm_compute; reflexivity.
Qed.

(** * Witnesses *)

Lemma manager_safe_witness :
  (∃ mm n, Do_iter (y_mm y4) (EDone 0 2 None 0) = Ret (Some (mm, n))) ∧
  leased 0 (y_leases y4) = 2%Z.
Proof.
  destruct (manager_safe 2 2 4 y4 ltac:(done) ltac:(done) y4_reachable) as [H1 H2]. split.
  - apply (H1 _ [] [1%Z]). apply (allowed_done y4). vm_compute. reflexivity.
  - by destruct (H2 0 (mkSliceMachine 2 2 machineOk 0 0 false []) ltac:(vm_compute; reflexivity)) as [<- _].
Defined.


Lemma manager_progress_witness :
  is_Some (offered (y_mm y4)) ∨ y_leases y4 ≠ [] ∨ y_starting y4 ≠ [] ∨ mm_probation (y_mm y4) ≠ [].
Proof.
  apply (manager_progress 2 2 4 y4 ltac:(done) ltac:(done) y4_reachable). vm_compute. discriminate.
Defined.

Lemma offered_correct_witness :
  ∃ r, r ∈ sq_q (mm_schedQ (y_mm y3)) ∧ (∀ t, t ∈ sq_q (mm_schedQ (y_mm y3)) → request_less t r = false) ∧
    8 = rq_machc r ∧ sm_health (mach (mm_store (y_mm y3)) 0) = machineOk ∧ (rq_procs r <= 2)%Z.
Proof. exact (offered_correct 2 2 4 y3 ltac:(done) ltac:(done) y3_reachable). Defined.

Lemma Offer_cancel_removes_first_witness :
  ∃ mm', on_unsched (y_mm y4) (Offer 5 1 9) = Ret mm' ∧
    request_key <$> sq_q (mm_schedQ (y_mm y4)) ≡ₚ (0%Z, 1%Z, 7) :: (request_key <$> sq_q (mm_schedQ mm')) ∧
    mm_need mm' = 2%Z.
Proof. apply (Offer_cancel_removes_first 2 2 4 y4 5 1 9 ltac:(done) ltac:(done) y4_reachable). Defined.

(** A machine with two tasks stops, and is assigned a third. *)
Definition toy_task : Task := mkTask (mkTaskName 0 "op" 0 1) [] 1 "" [] [] None TaskRunning None 0.
Definition toy_world : world := mkWorld {[1 := toy_task; 2 := toy_task; 3 := toy_task]} ∅ 0 ∅.

Lemma machine_stopped_loses_tasks_witness :
  ∃ st1 st2 w2 w', Assign_all 0 [1; 2] {[0 := new_machine 2]} toy_world = Ret (st1, toy_world) ∧
    machine_stopped 0 st1 toy_world = Ret (st2, w2) ∧ Lost st2 0 = true ∧
    Assign_all 0 [3] st2 w2 = Ret (st2, w') ∧
    ∀ t, t ∈ [1; 2; 3] → task_state w' t = Some TaskLost.
Proof.
  apply (machine_stopped_loses_tasks 0 (new_machine 2) [1; 2] [3]); [done..|].
  intros t Ht. repeat (apply elem_of_cons in Ht as [->|Ht]; [by eexists|]). by apply elem_of_nil in Ht.
Defined.

(** * The probation timer *)

