(* ===== verification/SliceExamples.v ===== *)
(** Concrete slices: instances of the theorems on slice types, operators,
    readers and compilation at inputs where their hypotheses hold. *)
From S2P Require Import Prelude Types SliceIO Slices Readers Task Eval Compile CompileSpec CompileGraph.

Definition no_methods : gotype → string → bool := λ _ _, false.

(** * A slice with a pipeline and a shuffle *)

Definition toy_rows : list row := (λ z, [VInt KInt z]) <$> [5; 1; 4; 2; 3]%Z.

Definition toy_double (x : row) : row :=
  match x with [VInt k z] => [VInt k (2 * z)%Z] | _ => x end.

Definition toy_fn : userFunc :=
  mkUserFunc (mkFunc (New [TInt]) (funcSliceType [TInt]) false false) (λ x, Ret (toy_double x)).

Definition toy_const : Slice := constSlice 0 (mkName "const" "a.go" 1 0) (New [TInt]) toy_rows 2.
Definition toy_map : Slice := mapSlice 1 (mkName "map" "a.go" 2 0) (Pragmas []) toy_const toy_fn.
Definition toy_reshuffle : Slice := reshuffleSlice 2 (mkName "reshuffle" "a.go" 3 0) None toy_map.

Definition toy_base : compiler := mkCompiler ∅ 0 ∅ ∅ makeCompileEnv.

Lemma toy_sub s : sub toy_reshuffle s → s = toy_reshuffle ∨ s = toy_map ∨ s = toy_const.
Proof.
  induction 1 as [|s i d Hs IH HR Hi Hd]; [by left|].
  destruct IH as [->|[->| ->]]; simpl in Hi; [| |lia];
    (assert (i = 0%Z) as -> by lia); injection Hd as <-; simpl; auto.
Qed.

Lemma toy_sub_map s : sub toy_map s → s = toy_map ∨ s = toy_const.
Proof.
  induction 1 as [|s i d Hs IH HR Hi Hd]; [by left|].
  destruct IH as [->| ->]; simpl in Hi; [|lia].
  assert (i = 0%Z) as -> by lia. injection Hd as <-. simpl. auto.
Qed.

Lemma toy_input : input_ok toy_reshuffle toy_base.
Proof.
  split; try done.
  - intros s1 s2 H1%toy_sub H2%toy_sub. naive_solver.
  - intros s Hs%toy_sub. naive_solver lia.
  - intros s i Hs%toy_sub. naive_solver.
  - intros s p s' rt Hs%toy_sub. naive_solver.
  - intros t. simpl. rewrite lookup_empty. split; [by intros []|lia].
Qed.

Lemma toy_input_map : input_ok toy_map toy_base.
Proof.
  split; try done.
  - intros s1 s2 H1%toy_sub_map H2%toy_sub_map. naive_solver.
  - intros s Hs%toy_sub_map. naive_solver lia.
  - intros s i Hs%toy_sub_map. naive_solver.
  - intros s p s' rt Hs%toy_sub_map. naive_solver.
  - intros t. simpl. rewrite lookup_empty. split; [by intros []|lia].
Qed.

Lemma toy_heap : heap_ok toy_reshuffle toy_base (λ _, 0).
Proof.
  assert (∀ t, graph (c_tasks toy_base) t = run_task no_task) as Hg
    by (intros t; unfold graph; simpl; by rewrite lookup_empty).
  split; [split; intros t; unfold phase, Phase, head, Head, heads; rewrite Hg| |].
  - intros x ->%list_elem_of_singleton. by rewrite Hg.
  - simpl. set_solver.
  - apply NoDup_singleton.
  - simpl. set_solver.
  - simpl. set_solver.
  - intros t T u. simpl. by rewrite lookup_empty.
  - intros s p s' rt t T Hs%toy_sub. naive_solver.
Qed.

(** The hash of the toy rows, and readers of slices. *)
Definition toy_hash (r : row) : outcome Z :=
  match r with VInt _ z :: _ => Ret (z mod 2 ^ 32)%Z | _ => Panic "cannot hash" end.
Definition no_reader : Slice → Z → list (anyReader row) → outcome (anyReader row) :=
  λ _ _ _, Panic "no reader".
Abbreviation toy_reader := (SliceReader no_methods (λ _ _ l, l) 2 no_reader no_reader).

(** * Witnesses *)


Lemma compile_graph_wf_witness :
  ∃ c ts rank, compile toy_hash toy_reader 1 "a.go:9" false makeCompileEnv ∅ 0 toy_reshuffle = Ret (c, inl ts) ∧
    graph_wf (graph (c_tasks c)) rank ∧ ∀ t, rank t ≤ 4.
Proof.
  destruct (compile_graph_wf toy_hash toy_reader 1 "a.go:9" false makeCompileEnv ∅ 0 toy_reshuffle (λ _, 0))
    as (c & ts & rank & Hr & Hwf & _ & Hb); [exact toy_input|exact toy_heap|].
  exists c, ts, rank. split; [exact Hr|]. split; [exact Hwf|exact Hb].
Defined.

Lemma toy_fits s : s = toy_map ∨ s = toy_const → fits no_methods (typ_of s) s ∧ writes_through s.
Proof.
  intros Hs. split.
  - destruct Hs as [-> | ->]; by split; vm_compute.
  - intros shard r L HL. exists r. split; [|done]. by destruct Hs as [-> | ->].
Qed.



Lemma toy_row_streams (l : list row) : Streams (pack (FrameReader l)) l.
Proof.
  eapply Streams_as_Streams, pack_Streams_as. eexists.
  apply frameReader_streams, Nat.lt_succ_diag_r.
Qed.

(** Sums by key. *)
Definition toy_add (acc : value) (args : list value) : value :=
  match acc, args with VInt k a, [VInt _ b] => VInt k (a + b)%Z | _, _ => acc end.
Definition toy_fold_fn : userFunc :=
  mkUserFunc (mkFunc (New [TInt; TInt]) (funcSliceType [TInt]) false false)
    (λ x, match x with acc :: args => Ret [toy_add acc args] | [] => Panic "reflect: too few arguments" end).
Definition toy_pairs : list row :=
  (λ p : Z * Z, [VInt KInt p.1; VInt KInt p.2]) <$> [(1, 10); (2, 20); (1, 5)]%Z.
Definition toy_keyed : Slice := constSlice 0 (mkName "const" "a.go" 1 0) (New [TInt; TInt]) toy_pairs 2.
Definition toy_fold : Slice :=
  foldSlice 1 (mkName "fold" "a.go" 2 0) toy_keyed toy_fold_fn (New [TInt; TInt]).

Lemma Fold_correct_witness :
  ∃ r a, Slice_Reader no_methods (λ _ _ l, l) 2 no_reader no_reader (typ_of toy_fold) toy_fold 0
      [pack (FrameReader toy_pairs)] = Ret r ∧
    accumulated TInt (VInt KInt 0) toy_add toy_pairs a ∧ Streams_perm r (acc_entries a).
Proof.
  apply (Fold_correct no_methods (λ _ _ l, l) 2 no_reader no_reader (typ_of toy_fold)
    1 (mkName "fold" "a.go" 2 0) toy_keyed toy_fold_fn (New [TInt; TInt]) 0
    (pack (FrameReader toy_pairs)) toy_pairs TInt TInt toy_add).
  - done.
  - lia.
  - by split; vm_compute.
  - done.
  - done.
  - intros r Hr. repeat (apply elem_of_cons in Hr as [->|Hr]; [by eexists _, _, _|]).
    by apply elem_of_nil in Hr.
  - apply toy_row_streams.
Defined.

Definition toy_writer : writerFn :=
  mkWriterFn nat 0 true (λ _ n _ rows, Ret (n + length rows, None)).

Lemma WriterFunc_correct_witness :
  ∃ r' batches last f0, concat batches ++ last = toy_rows ∧
    ∀ f, f0 ≤ f →
      @ReadAll row _ (writerFuncReader_Read toy_writer) f 2
        (mkWriterFuncReader toy_writer 0 (pack (FrameReader toy_rows)) None None) =
        Ret (mkWriterFuncReader toy_writer 0 r'
               (Some (fold_left (λ n b, n + length b.2) ((pair None <$> batches) ++ [(Some EOF, last)]) 0))
               (Some EOF), (toy_rows, None)).
Proof.
  apply (WriterFunc_correct toy_writer 0 (λ n b, n + length b.2)).
  - done.
  - apply toy_row_streams.
  - lia.
Defined.

Lemma Const_shards_witness :
  concat ((λ i, default [] (constSlice_rows toy_rows 3 (Z.of_nat i))) <$> seq 0 (Z.to_nat 3)) = toy_rows.
Proof. apply (Const_shards toy_rows 3). lia. Defined.

Definition toy_calls : list (string * list runtimeFrame) :=
  [("map", [mkRuntimeFrame "main" "a.go" 1]); ("map", [mkRuntimeFrame "main" "a.go" 1])].

Lemma MakeName_unique_witness : NoDup [mkName "map" "a.go" 1 0; mkName "map" "a.go" 1 1].
Proof. apply (MakeName_unique toy_calls (mkBigslice ∅ ∅ 0)). vm_compute. reflexivity. Defined.

(** A variadic function over two columns. *)
Lemma CanApply_correct_witness :
  ∃ r, CanApply no_methods (mkFunc (New [TInt; TSlice TString]) (funcSliceType [TInt]) true false)
         (New [TInt; TString; TString]) = Ret r ∧
    (r = true ↔ ∃ ts, Some [TInt; TString; TString] = Some ts ∧
       Forall2 (λ a b, AssignableTo no_methods a b = true) [TInt; TString; TString] ts).
Proof.
  apply (CanApply_correct no_methods (TFunc [TInt; TSlice TString] [TInt] true)
    [TInt; TSlice TString] [TInt] true).
  - done.
  - intros _. by exists TString.
  - done.
  - done.
Defined.

(** A slice keyed by two columns, mapped to one. *)
Definition toy_wide : Slice := prefixSlice 1 (Pragmas []) toy_keyed 2.
Definition toy_narrow : Slice :=
  mapSlice 2 (mkName "map" "a.go" 2 0) (Pragmas []) toy_wide
    (mkUserFunc (mkFunc (New [TInt; TInt]) (funcSliceType [TInt]) false false) (λ x, Ret (take 1 x))).

Lemma Map_prefix_exceeds_columns_witness :
  SPrefix toy_narrow = 2%Z ∧
  ∀ res, Reshuffle (V := nat) ∅ toy_narrow [mkRuntimeFrame "main" "a.go" 3] (mkBigslice ∅ ∅ 3) ≠ Ret res.
Proof.
  apply (Map_prefix_exceeds_columns no_methods ∅ toy_wide (Some (TFunc [TInt; TInt] [TInt] false))
    (λ x, Ret (take 1 x)) [] [mkRuntimeFrame "main" "a.go" 2] (mkBigslice ∅ ∅ 2)
    (mkBigslice ∅ {[("map", "a.go", 2%Z) := 1%Z]} 3)).
  - repeat split.
  - vm_compute. reflexivity.
  - done.
Defined.
