(* ===== verification/FuncExamples.v ===== *)
(** A registry with one func and an invocation of it. *)
From S2P Require Import Prelude Types SliceIO Slices Readers Func FuncDiff SliceExamples.

(** Interface types have the methods they list, other types have none. *)
Definition listed_methods (t : gotype) (name : string) : bool :=
  match underlying t with TInterface ms => bool_decide (name ∈ ms) | _ => false end.

Lemma listed_methods_ok t ms : underlying t = TInterface ms → forallb (listed_methods t) ms = true.
Proof.
  intros Ht. apply forallb_forall. intros name Hin%list_elem_of_In.
  unfold listed_methods. rewrite Ht. by apply bool_decide_true.
Qed.

(** [func(n int, w io.Writer) Slice]. *)
Definition toy_call (vals : list (gotype * value)) : outcome (option Slice) :=
  match vals with
  | [(_, VInt _ n); (_, VNil)] => Ret (Some (constSlice 0 (mkName "const" "a.go" 1 0) (New [TInt]) toy_rows n))
  | _ => Ret None
  end.

Definition toy_writer : gotype := TNamed "io.Writer" (TInterface ["Write"]).
Definition toy_func_type : gotype := TFunc [TInt; toy_writer] [typeOfSlice] false.
Definition toy_globals : globals := mkGlobals [] 0.
Definition toy_registry : globals * FuncValue :=
  match Func toy_func_type toy_call "a.go" 7 toy_globals with Ret x => x | _ => (toy_globals, mkFuncValue toy_call [] 0 false "" 0) end.

(** Registered, then invoked with a nil writer: the worker calls the func with 3
    and the zero writer. *)
Lemma Invocation_Invoke_witness :
  ∃ inv, new_invocation listed_methods (Exclusive toy_registry.2) "a.go:9" [Some (TInt, VInt KInt 3); None]
      toy_registry.1 = Ret (mkGlobals (g_funcs toy_registry.1) 1, inv) ∧ inv_Exclusive inv = true ∧
    Invoke listed_methods toy_registry.1 inv = Ret (constSlice 0 (mkName "const" "a.go" 1 0) (New [TInt]) toy_rows 3).
Proof.
  destruct (Invocation_Invoke listed_methods (Exclusive toy_registry.2) "a.go:9" [Some (TInt, VInt KInt 3); None]
    toy_registry.1 listed_methods_ok) as [H _].
  - exists toy_registry.2, 0. by vm_compute.
  - by vm_compute.
  - destruct H as (inv & Hinv & _ & Hx & Hw).
    + by repeat constructor.
    + exists inv. split; [exact Hinv|]. split; [exact Hx|]. rewrite Hw by done. by vm_compute.
Defined.

Example diff_example :
  FuncLocationsDiff ["a"; "b"; "c"] ["a"; "c"; "d"] = Ret ["a"; "- b"; "c"; "+ d"].
Proof. by vm_compute. Qed.
