(* ===== verification/SessionExamples.v ===== *)
(** Sessions and metrics at concrete inputs. *)
From S2P Require Import Prelude Types SliceIO Slices Task Metrics SliceStatus Func Session SliceExamples.

(** Two tasks with a counter each, the first depends on the second. *)
Definition metric_task (t : nat) : Task :=
  mkTask (mkTaskName 0 "op" (Z.of_nat t) 2) (if t =? 0 then [mkTaskDep 1 0 false ""] else []) 1 "" [] [] None TaskOk None 0.
Definition metric_world : world := mkWorld {[0 := metric_task 0; 1 := metric_task 1]} ∅ 0 ∅.
Definition metric_counters : metrics :=
  mkMetrics [zeroMetric; Counter 1] [(2 ^ 63 - 1)%Z; 3%Z]
    {[task_scope 0 := [None; Some 0]; task_scope 1 := [None; Some 1]]}.

Lemma metric_ptr s i a : ptr metric_counters s i = Some a → i = 1 ∧ (s = 0 ∧ a = 0 ∨ s = 2 ∧ a = 1).
Proof.
  unfold ptr. destruct (ms_scopes metric_counters !! s) as [l|] eqn:Hs; [|done]. simpl in Hs.
  apply lookup_insert_Some in Hs as [[<- <-]|[_ Hs]].
  - destruct i as [|[|i]]; simpl; [done| |done]. intros [= <-]. auto.
  - apply lookup_singleton_Some in Hs as [<- <-]. destruct i as [|[|i]]; simpl; [done| |done]. intros [= <-]. auto.
Qed.

Lemma metric_wf : wf metric_counters.
Proof.
  split.
  - done.
  - intros [|[|i]] m Hi; simpl; [lia|by intros [= <-]|done].
  - intros s l. simpl. intros [[_ <-]|[_ [_ <-]%lookup_singleton_Some]]%lookup_insert_Some; done.
  - intros s i a (-> & [[-> ->]|[-> ->]])%metric_ptr; simpl; lia.
  - repeat constructor; unfold in_int64; simpl; lia.
Qed.

Lemma metric_edge t u : edge metric_world t u → t = 0 ∧ u = 1.
Proof.
  intros (T & d & HT & Hd & Hu). simpl in HT. apply lookup_insert_Some in HT as [[<- <-]|[_ HT]].
  - simpl in Hd. apply list_elem_of_singleton in Hd as ->. split; [done|]. vm_compute in Hu.
    by apply list_elem_of_singleton in Hu.
  - apply lookup_singleton_Some in HT as [<- <-]. simpl in Hd. set_solver.
Qed.

Lemma metric_graph : graph_ok metric_world.
Proof.
  intros t T d HT Hd. assert (dep_Head d = 1 ∧ ∀ u, u ∈ members metric_world d → u = 1) as [-> Hm].
  { simpl in HT. apply lookup_insert_Some in HT as [[<- <-]|[_ [<- <-]%lookup_singleton_Some]]; simpl in Hd; [|set_solver].
    apply list_elem_of_singleton in Hd as ->. split; [done|]. intros u Hu. vm_compute in Hu. by apply list_elem_of_singleton in Hu. }
  split; [by vm_compute|]. intros u ->%Hm. by vm_compute.
Qed.

Lemma Result_Scope_correct_witness :
  ∃ L m', Result_Scope 2 metric_world (mkRunResult toy_map 0 [0]) false metric_counters = Ret (m', 1) ∧ 
    (∀ u, u ∈ L ↔ rtc (edge metric_world) 0 u) ∧ val m' 1 1 = wrap64 (sum_over metric_counters L 1).
Proof.
  destruct (Result_Scope_correct metric_world (λ t, 1 - t) 2 (mkRunResult toy_map 0 [0]) metric_counters)
    as (L & m' & _ & HL & Hs & Hv & _).
  - apply metric_graph.
  - intros t u [-> ->]%metric_edge. lia.
  - intros r r' ->%list_elem_of_singleton ->%list_elem_of_singleton Ht.
    eapply (rank_tc metric_world (λ t, 1 - t)) in Ht; [simpl in Ht; lia|]. intros t u [-> ->]%metric_edge. lia.
  - apply NoDup_singleton.
  - intros t ->%list_elem_of_singleton. split; [by vm_compute|lia].
  - apply metric_wf.
  - intros i s' i' a Ha. apply metric_ptr in Ha as (_ & [[Hs _]|[Hs _]]); done.
  - intros i. unfold val. destruct (ptr metric_counters _ i) eqn:Ha; [|done].
    apply metric_ptr in Ha as (_ & [[Hs _]|[Hs _]]); done.
  - exists L, m'. split; [exact Hs|]. split; [|by apply Hv; simpl; lia]. intros u. rewrite HL. split.
    + intros (t & ->%list_elem_of_singleton & Hr). exact Hr.
    + intros Hr. exists 0. split; [by left|exact Hr].
Defined.

(** The sum wraps around. *)
Example Result_Scope_example :
  match Result_Scope 2 metric_world (mkRunResult toy_map 0 [0]) false metric_counters with
  | Ret (m', _) => val m' 1 1 = (- 2 ^ 63 + 2)%Z
  | _ => False
  end.
Proof. by vm_compute. Qed.
