(* ===== verification/LocalExamples.v ===== *)
(** Concrete executions: instances of the theorems on the local executor,
    stores, caches and scanned files at inputs where their hypotheses hold. *)
From S2P Require Import Prelude Types Heap SliceIO Scanner SortIO Codec Reduce Combiner Slices Readers Scan Cache Task Eval EvalRun Func Compile CompileSpec CompileGraph Store Local LocalSpec LocalRun LocalCombiner Session SessionRun SliceExamples.

(** * A combiner of rows *)

(** Keys are compared by their first column. *)
Definition key_rank (k : list value) : Z := match k with VInt _ z :: _ => z | _ => 0%Z end.
Definition key_less (a b : list value) : bool := (key_rank a <? key_rank b)%Z.
Definition key_hash (k : list value) : Z := (key_rank k mod 2 ^ 32)%Z.

#[local] Instance key_less_weak : StrictWeak key_less.
Proof. split; unfold key_less; intros *; rewrite ?Z.ltb_lt, ?Z.ltb_ge; lia. Qed.

Lemma key_hash_same a b : key_less a b = false → key_less b a = false → key_hash a = key_hash b.
Proof.
  unfold key_less, key_hash. rewrite !Z.ltb_ge. intros. by replace (key_rank a) with (key_rank b) by lia.
Qed.

Definition krow_le (a b : krow) : Prop := row_less key_less b a = false.
#[local] Instance krow_le_dec : RelDecision krow_le.
Proof. intros a b. unfold krow_le. apply _. Defined.
#[local] Instance krow_le_trans : Transitive krow_le.
Proof. intros a b c. unfold krow_le, row_less, key_less. rewrite !Z.ltb_ge. lia. Qed.
#[local] Instance krow_le_total : Total krow_le.
Proof. intros a b. unfold krow_le, row_less, key_less. rewrite !Z.ltb_ge. lia. Qed.

(** A spiller that keeps the runs in memory. *)
#[local] Instance mem_spiller : Spiller krow (list (list krow)) (frameReader krow) := {|
  sp_Spill s f := Ret (s ++ [f], inl (length f));
  sp_ClosingReaders s := inl (FrameReader <$> s);
|}.
#[local] Instance mem_spiller_laws : SpillerLaws krow (list (list krow)) (frameReader krow).
Proof.
  refine {| spilled s runs := s = runs |}.
  - intros s runs f ->. eauto.
  - intros s runs ->. exists (FrameReader <$> runs), runs. split_and!; [done|done|].
    rewrite Forall2_fmap_l. apply Forall_Forall2_diag, Forall_true. intros l.
    eexists. apply frameReader_streams, Nat.lt_succ_diag_r.
Defined.

Definition mem_NewSpiller (name : string) : list (list krow) + error := inl [].

#[local] Instance toy_combiner : CombinerOps (typedCombiner (Sp := list (list krow))) :=
  combiner_ops key_less key_hash mem_NewSpiller (λ _, true) (merge_sort krow_le) 2.
#[local] Instance toy_combiner_laws : CombinerLaws (typedCombiner (Sp := list (list krow))).
Proof.
  apply (combiner_laws key_less key_hash mem_NewSpiller (λ _, true) (merge_sort krow_le) 2 key_hash_same)
    with (chunk := 1).
  - apply merge_sort_Permutation.
  - intros f. apply (StronglySorted_merge_sort krow_le).
  - intros name. by exists [].
  - done.
  - lia.
Defined.

(** * Running a reshuffled slice *)

Definition toy_route (P : Partitioner) (n : Z) (x : row) : nat :=
  match toy_hash x with Ret h => Z.to_nat (h mod n) | _ => 0 end.

Lemma toy_route_bound P x : toy_route P 2 x < 2.
Proof.
  unfold toy_route. destruct (toy_hash x) as [h| |]; [|lia..].
  pose proof (Z.mod_pos_bound h 2 ltac:(done)). lia.
Qed.

(** The rows of the shards of the toy slices. *)
Definition toy_const_rows (i : nat) : list row := default [] (constSlice_rows toy_rows 2 (Z.of_nat i)).
Definition toy_D (s : Slice) (i : nat) : list row :=
  match s with
  | constSlice _ _ _ _ _ => toy_const_rows i
  | mapSlice _ _ _ _ _ => toy_double <$> toy_const_rows i
  | reshuffleSlice _ _ _ _ =>
      concat ((λ k, filter (λ x, rt toy_route (defaultPartitioner toy_hash) 2 x = i)
        (toy_double <$> toy_const_rows k)) <$> [0; 1])
  | _ => []
  end.

Lemma toy_ints k x : x ∈ toy_const_rows k → ∃ z, x = [VInt KInt z].
Proof.
  intros Hx. assert (x ∈ toy_rows) as Hin.
  { unfold toy_const_rows, constSlice_rows in Hx. repeat case_match; simpl in Hx; try (by apply elem_of_nil in Hx);
      (eapply elem_of_submseteq; [exact Hx|]);
      apply sublist_submseteq;
      (etrans; [apply sublist_take|apply sublist_drop]). }
  apply list_elem_of_fmap in Hin as (z & -> & _). by exists z.
Qed.

Lemma toy_double_ints k x : x ∈ toy_double <$> toy_const_rows k → ∃ z, x = [VInt KInt z].
Proof. intros (y & -> & [z ->]%toy_ints)%list_elem_of_fmap. by exists (2 * z)%Z. Qed.

Lemma toy_partition rows :
  (∀ x, x ∈ rows → ∃ z, x = [VInt KInt z]) →
  defaultPartitioner toy_hash rows 2 = Ret (Z.of_nat ∘ toy_route (defaultPartitioner toy_hash) 2 <$> rows).
Proof.
  induction rows as [|x rows IH]; intros Hrows; [done|].
  destruct (Hrows x) as [z ->]; [left|]. simpl. rewrite IH by (intros y Hy; apply Hrows; by right).
  simpl. do 2 f_equal. unfold toy_route. simpl.
  rewrite Z2Nat.id by (by apply Z.mod_pos_bound). done.
Qed.

Lemma toy_semantics : semantics no_methods toy_hash toy_D toy_route toy_reshuffle.
Proof.
  split.
  - intros s i ls Hs%toy_sub _ Hi Hls Hdep. destruct Hs as [->|[->| ->]].
    + destruct ls as [|l [|]]; [done| |done].
      pose proof (Hdep 0 _ l eq_refl eq_refl) as Hl. unfold reads_dep in Hl. simpl in Hl. subst l.
      apply computes_reshuffle.
    + destruct ls as [|l [|]]; [done| |done].
      pose proof (Hdep 0 _ l eq_refl eq_refl) as Hl. unfold reads_dep in Hl. simpl in Hl. subst l.
      by apply (computes_map _ _ _ _ _ toy_double).
    + destruct ls; [|done]. apply (computes_const 0 (mkName "const" "a.go" 1 0) (New [TInt]) toy_rows 2).
  - intros s j d i f Hs%toy_sub. destruct Hs as [->|[->| ->]]; simpl; by intros.
  - intros s j d k Hs%toy_sub _ Hd Hsh _. destruct Hs as [->|[->| ->]]; simpl in Hd; try done.
    + injection Hd as <-. simpl. split.
      * intros x _. apply toy_route_bound.
      * intros rows Hrows. apply toy_partition. intros x Hx. by eapply toy_double_ints, Hrows.
    + unfold singleDep in Hd. case_match; [|done]. by injection Hd as <-.
  - intros s Hs%toy_sub _. assert (fits no_methods (typ_of s) s) as Hfit
      by (destruct Hs as [->|[->| ->]]; split; reflexivity).
    split_and!; [done| |destruct Hs as [->|[->| ->]]; done].
    intros shard r L HL. exists r. split; [|done]. by destruct Hs as [->|[->| ->]].
  - intros s j d Hs%toy_sub _ Hd Hsh. destruct Hs as [->|[->| ->]]; simpl in Hd; try done.
    + injection Hd as <-. simpl. tauto.
    + unfold singleDep in Hd. case_match; [|done]. by injection Hd as <-.
Qed.

(** The compiled tasks: 2 and 3 compute the shards of the mapped slice, 0 and 1
    read their partitions. *)
Definition toy_compiled : outcome (compiler * (list nat + error)) :=
  compile toy_hash toy_reader 1 "a.go:9" false makeCompileEnv ∅ 0 toy_reshuffle.
Definition view {A} (f : cTask → A) (o : outcome (compiler * (list nat + error))) : list (option A) :=
  match o with Ret (c, _) => (λ t, f <$> c_tasks c !! t) <$> seq 0 (c_next c) | _ => [] end.

Lemma toy_deps : view ct_Deps toy_compiled =
  [Some [mkTaskDep 2 0 false ""]; Some [mkTaskDep 2 1 false ""]; Some []; Some []].
Proof. vm_compute. reflexivity. Qed.
Lemma toy_groups : view ct_Group toy_compiled = [Some []; Some []; Some [2; 3]; Some [2; 3]].
Proof. vm_compute. reflexivity. Qed.
Lemma toy_names : view (tn_InvIndex ∘ ct_Name) toy_compiled = [Some 1%Z; Some 1%Z; Some 1%Z; Some 1%Z].
Proof. vm_compute. reflexivity. Qed.

Lemma toy_roots : match toy_compiled with Ret (_, inl ts) => ts | _ => [] end = [0; 1].
Proof. vm_compute. reflexivity. Qed.

Lemma view_lookup {A} (f : cTask → A) c ts l t T :
  view f (Ret (c, ts)) = l → t < length l → c_tasks c !! t = Some T → l !! t = Some (Some (f T)).
Proof.
  intros <- Ht HT. simpl in *. rewrite length_fmap, length_seq in Ht.
  rewrite list_lookup_fmap, lookup_seq_lt by done. simpl. by rewrite HT.
Qed.

(** In a run of the compiled tasks the dependencies of 0 and 1 are 2 and 3. *)
Lemma toy_members c ts t T d u :
  toy_compiled = Ret (c, ts) → t < 4 → c_tasks c !! t = Some T → d ∈ ct_Deps T → u ∈ dep_members c d →
  t < 2 ∧ (u = 2 ∨ u = 3).
Proof.
  intros Hc Ht HT Hd Hu. pose proof toy_deps as HD. pose proof toy_groups as HG. rewrite Hc in HD, HG. clear Hc.
  pose proof (view_lookup ct_Deps c ts _ t T HD Ht HT) as HtD.
  assert (dep_Head d = 2 ∧ t < 2) as [Hh Ht2].
  { clear -Hd HtD Ht. destruct t as [|[|[|[|t]]]]; try lia; simpl in HtD; injection HtD as HtD; rewrite <-HtD in Hd;
      [apply list_elem_of_singleton in Hd as ->; simpl; lia..|by apply elem_of_nil in Hd|by apply elem_of_nil in Hd]. }
  split; [exact Ht2|]. clear HtD HD Ht. unfold dep_members in Hu. rewrite Hh in Hu.
  destruct (c_tasks c !! 2) as [H|] eqn:H2; [|by apply elem_of_nil in Hu].
  pose proof (view_lookup ct_Group c ts _ 2 H HG ltac:(simpl; lia) H2) as Hg. injection Hg as Hg.
  rewrite <-Hg in Hu. clear -Hu. set_solver.
Qed.

Lemma toy_ordered c ts : toy_compiled = Ret (c, ts) → ordered c (dom (le_buffers newLocalExecutor)) [2; 3; 0; 1].
Proof.
  intros Hc. repeat split; intros T d u HT Hd Hu;
    (eapply toy_members in Hu as [Ht Huu]; [|exact Hc| |exact HT|exact Hd]; clear -Ht Huu || clear); lia || set_solver.
Qed.

Lemma toy_starts c : starts 1 toy_D toy_reshuffle c newLocalExecutor (mkWorld (run_task <$> c_tasks c) ∅ 0 ∅).
Proof.
  split.
  - intros t T HT. exists (run_task T). simpl. by rewrite lookup_fmap, HT.
  - intros t. simpl. rewrite lookup_empty. by intros [].
  - intros s p s' rtasks i t buf Hs%toy_sub. naive_solver.
Qed.


(** A session that runs a func that returns the slice. *)
Definition session_func : FuncValue := mkFuncValue (λ _, Ret (Some toy_reshuffle)) [] 0 false "a.go" 1.
Definition session_program : program := mkProgram (mkGlobals [session_func] 0) ∅ 0 (mkWorld ∅ ∅ 0 ∅).
Definition toy_session : Session unit := (Start () [Local_] 0).2.

Lemma session_earlier : earlier toy_D toy_reshuffle 1 session_program newLocalExecutor.
Proof.
  split; simpl.
  - intros t T. by rewrite lookup_empty.
  - intros t. rewrite lookup_empty. by intros [].
  - lia.
  - intros t. rewrite lookup_empty. split; [by intros []|lia].
  - intros t T. by rewrite lookup_empty.
  - intros s p s' rtasks i t buf Hs%toy_sub. naive_solver.
Qed.



(** * Re-shuffling a result *)

(** A computed slice of one shard, task 0, whose rows are shuffled by task 1. *)
Definition toy_done : cTask :=
  mkCTask (New [TInt]) (mkTaskName 1 "inv1_const" 0 1) None [] (Some (defaultPartitioner toy_hash)) 1 None ""
    (Pragmas []) [] [].
Definition toy_result : Slice := Result 3 toy_const [0].
Definition toy_again : compiler :=
  mkCompiler {[0 := toy_done; 1 := reshuffle_task 2 toy_result "inv1_const_shuffle" [1] [0] 0 0 toy_done]}
    2 ∅ ∅ makeCompileEnv.

Lemma reshuffle_result_fails_witness :
  ∃ w' S msg f0, (∀ fuel, f0 ≤ fuel → Run (c_tasks toy_again) 2 fuel 1 (mkLocalExecutor {[0 := [[toy_rows]]]})
      (mkWorld (run_task <$> c_tasks toy_again) ∅ 0 ∅) = Ret (mkLocalExecutor {[0 := [[toy_rows]]]}, w')) ∧
    w_tasks w' !! 1 = Some S ∧ t_state S = TaskErr ∧ t_err S = Some (Err Fatal msg).
Proof.
  apply (reshuffle_result_fails 2 ltac:(lia) toy_hash toy_reader 2 "a.go:9" false toy_again toy_result
    (mkPartitioner 2 None None "") 3 toy_const [0] [1] 0 1 0 toy_done
    (mkLocalExecutor {[0 := [[toy_rows]]]}) (mkWorld (run_task <$> c_tasks toy_again) ∅ 0 ∅) [[toy_rows]] [toy_rows]);
    try done.
  - eapply (compiled_reshuffle _ _ _ _ _ _ _ _ _ _ _ _ "inv1_const_shuffle"); try done.
    + apply NoDup_singleton.
    + intros [|i] t r [= <-] [= <-]. split_and!; [set_solver..|]. by exists toy_done.
  - intros t T HT. exists (run_task T). cbn [w_tasks]. by rewrite lookup_fmap, HT.
Defined.

(** * Slices after a cached slice *)

Definition toy_cache : ShardCache :=
  mkShardCache (λ _, Ret true) (λ _ r, Ret r) (λ _, Ret (pack (FrameReader toy_rows))).


(** * Stores *)

#[local] Instance mem_files : Files (gmap string (list Z)) := {|
  fs_read fs path := match fs !! path with Some bs => inl bs | None => inr (Err NotExist "no such file") end;
  fs_write fs path bs := (<[path := bs]> fs, None);
  fs_remove fs path := (delete path fs, None);
|}.
#[local] Instance mem_files_laws : FilesLaws (gmap string (list Z)).
Proof.
  refine {| fs_holds fs M := fs = M |}.
  - intros fs M path ->. simpl. destruct (M !! path); [done|]. eexists. split; [done|]. by eexists.
  - intros fs M path bs ->. by eexists.
  - intros fs M path bs -> _. by eexists.
Defined.

Definition toy_task : TaskName := mkTaskName 1 "inv1_const_map" 0 2.
Definition toy_ops : list store_op :=
  [OStat toy_task 0; OCommit toy_task 1 [7; 8; 9]%Z 3; OOpen toy_task 1 1; OStat toy_task 1; OOpen toy_task 0 0;
   ODiscard toy_task 1; OStat toy_task 1].

Lemma toy_paths t1 p1 t2 p2 :
  t1 ∈ ({[toy_task]} : gset TaskName) → t2 ∈ ({[toy_task]} : gset TaskName) →
  store_path "store" (String.concat "/") t1 p1 = store_path "store" (String.concat "/") t2 p2 → t1 = t2 ∧ p1 = p2.
Proof.
  intros ->%elem_of_singleton ->%elem_of_singleton Hp. split; [done|]. unfold store_path in Hp.
  cbn [String.concat] in Hp. do 3 apply (inj (String.append _)) in Hp. by apply pad3_inj.
Qed.

Lemma stores_equivalent_witness :
  run_ops (H := fileStore_store "store" (String.concat "/")) (mkFileStore ∅) toy_ops = spec_ops ∅ toy_ops ∧
  run_ops newMemoryStore toy_ops = spec_ops ∅ toy_ops.
Proof.
  apply (stores_equivalent "store" (String.concat "/") {[toy_task]} ∅ toy_ops toy_paths); [done|].
  simpl. split_and!; try set_solver; try (vm_compute; done).
  intros v. rewrite lookup_insert_eq. intros [= <-]. simpl. lia.
Defined.

(** * Scanned files *)

(** Four lines in two shards. *)
Definition toy_lines : list string := ["a"; "b"; "c"; "d"].

Lemma ScanReader_lines_witness :
  ∃ s, fmap snd (ScanReader 2 (inl (toy_lines, None)) [mkRuntimeFrame "main" "a.go" 1] (mkBigslice ∅ ∅ 0)) = Ret s ∧
    NumShard s = 2%Z ∧ computes s 0 [] (line_row <$> [""; "b"; "d"]).
Proof.
  destruct (ScanReader 2 (inl (toy_lines, None)) [mkRuntimeFrame "main" "a.go" 1] (mkBigslice ∅ ∅ 0))
    as [[b s]| |] eqn:Hs; [|discriminate Hs..].
  exists s. split; [reflexivity|].
  apply (ScanReader_lines 2 0 toy_lines ltac:(lia) _ _ _ _ Hs).
Defined.

(** * Caches *)

(** A codec whose bytes are whole messages. *)
#[local] Instance msg_codec : Codec value := {|
  gst := unit;
  Codec.byte := msg value;
  gst0 := ();
  gob_enc _ m := inl ([m], ());
  gob_dec _ bs := match bs with [] => DEOF | m :: rest => DOk (m, rest, ()) end;
  has_codec _ := false;
  codec_enc _ _ c := inl ([MCol c], ());
  codec_dec _ _ _ bs :=
    match bs with
    | [] => DEOF
    | MCol c :: rest => DOk (c, rest, ())
    | _ :: _ => DErr (Err Other "gob: bad data")
    end;
  crc32 bs := Z.of_nat (length bs);
  Codec.NumOut := 1;
|}.
#[local] Instance msg_codec_laws : CodecLaws value.
Proof.
  split.
  - by intros [] m bs [] rest [= <-].
  - done.
  - by intros [] col c bs [] rest [= <-].
Qed.

Lemma cache_roundtrip_witness :
  ∃ rd' e f0, (∀ f, f0 ≤ f →
    @ReadAll row _ (writethroughReader_reader (λ _, None) (λ _, None) (λ e _, (e, None))) f 2
      (newWritethroughReader (pack (FrameReader toy_rows)) "cache-0000-of-0001") =
      Ret (mkWritethroughReader rd' "cache-0000-of-0001" (Some (e, Closed (en_out e))), (toy_rows, None))).
Proof.
  destruct (cache_roundtrip (λ _, None) (λ _, inr (Err NotExist "no such file")) (λ _, None) (λ e _, (e, None))
    ltac:(by intros e rows _; eexists) "cache-0000-of-0001" eq_refl eq_refl
    (pack (FrameReader toy_rows)) toy_rows 2) as (rd' & e & f0 & Hr & _).
  - apply toy_row_streams.
  - repeat constructor.
  - lia.
  - by exists rd', e, f0.
Defined.

Lemma Cache_all_or_nothing_witness :
  let c := mkFileShardCache "p" 2 [true; false] false in
  FileShardCache_IsCached (Some c) 0 = Ret true ∧
  FileShardCache_IsCached (RequireAllCached (Some c)) 0 = Ret false.
Proof.
  assert (0 < 2)%Z as Hs by lia.
  exact (Cache_all_or_nothing (λ path, String.eqb path "p-0000-of-0002") "p" 2
    (mkFileShardCache "p" 2 [true; false] false) 0 ltac:(done) eq_refl Hs).
Defined.

