(* ===== verification/WorkerExamples.v ===== *)
(** Workers at concrete inputs: instances of the theorems on reading from other
    machines and on combining. *)
From S2P Require Import Prelude Types SliceIO Codec Retry Reduce Combiner Slices Readers Task Compile Store Local LocalSpec LocalCombiner WorkerOut WorkerCodec WorkerCombine WorkerCombineSpec WorkerCombiner Worker SliceExamples LocalExamples.

(** * A connection that breaks *)

Definition retry_data : list Z := [10; 20; 30; 40; 50]%Z.

(** Opening fails every third time the network is used, reading every fourth. *)
#[local] Instance flaky : OpenerAt Z nat nat := {|
  OpenAt w o := (S w, if w mod 3 =? 0 then inr (Err Temporary "connection refused") else inl o);
  rd_Read w h n :=
    if w mod 4 =? 3 then (S w, h, ([99%Z], Some (IoErr (Err Temporary "connection reset"))))
    else
      let out := take n (drop h retry_data) in
      (S w, h + length out, (out, if h + length out =? 5 then Some IoEOF else None));
  rd_Close w h := w;
|}.

#[local] Instance flaky_laws : OpenerAtLaws retry_data nat nat.
Proof.
  refine {| at_offset h o := h = o |}.
  - simpl. intros w o w' h. case_match; by intros [= <- <-].
  - simpl. intros w h o n w' h' out err HR -> Ho. case_match; injection HR as <- <- <- <-; [done|].
    assert (length (take n (drop o retry_data)) ≤ n ∧
      take n (drop o retry_data) = take (length (take n (drop o retry_data))) (drop o retry_data)) as [Hn Ht].
    { rewrite length_take. split; [lia|]. by rewrite take_take_min || (destruct (decide (n ≤ length (drop o retry_data)));
        [by rewrite Nat.min_l|rewrite Nat.min_r by lia; by rewrite !take_ge by lia]). }
    destruct (o + length (take n (drop o retry_data)) =? 5) eqn:He; split_and!; try done.
    intros _. by apply Nat.eqb_eq in He.
Defined.

Definition flaky_wait (w k : nat) : nat * option error := if k <? 5 then (w, None) else (w, Some (Err Other "too many tries")).

Lemma retryReader_correct_witness :
  ∃ w' r' out err, read_all flaky_wait 5 [2; 2; 2] newRetryReader 0 = Ret (w', r', (out, err)) ∧ out `prefix_of` retry_data ∧
    (err = Some IoEOF → out = retry_data).
Proof.
  destruct (retryReader_correct flaky_wait retry_data 5 5 [2; 2; 2] 0) as (w' & r' & out & err & Hr & Hp & _ & He & _).
  - unfold flaky_wait. intros w k w'. destruct (k <? 5) eqn:Hk; [|done]. intros _. by apply Nat.ltb_lt.
  - lia.
  - exists w', r', out, err. auto.
Defined.

(** The stream is read although connections broke. *)
Example retryReader_example :
  match read_all flaky_wait 5 [2; 2; 2] newRetryReader 0 with
  | Ret (_, _, (out, err)) => out = retry_data ∧ err = Some IoEOF
  | _ => False
  end.
Proof. by vm_compute. Qed.

(** * A codec for integers *)

Definition int_of (v : value) : option Z := match v with VInt KInt z => Some z | _ => None end.

Definition int_enc (m : msg value) : list Z * unit + string :=
  match m with
  | MInt n => inl ([0; Z.of_nat n]%Z, ())
  | MBool b => inl ([1; if b then 1 else 0]%Z, ())
  | MCol c => match mapM int_of c with Some zs => inl (2%Z :: Z.of_nat (length c) :: zs, ()) | None => inr "not an integer" end
  | MSum z => inl ([3; z]%Z, ())
  end.

Definition int_dec (bs : list Z) : dec_result (msg value * list Z * unit) :=
  match bs with
  | [] => DEOF
  | 0%Z :: n :: rest => DOk (MInt (Z.to_nat n), rest, ())
  | 1%Z :: b :: rest => DOk (MBool (b =? 1)%Z, rest, ())
  | 2%Z :: n :: rest => DOk (MCol (VInt KInt <$> take (Z.to_nat n) rest), drop (Z.to_nat n) rest, ())
  | 3%Z :: z :: rest => DOk (MSum z, rest, ())
  | _ => DErr (Err Other "gob: bad data")
  end.

Definition int_codec (numOut : nat) : Codec value := {|
  gst := unit;
  byte := Z;
  gst0 := ();
  gob_enc _ m := int_enc m;
  gob_dec _ bs := int_dec bs;
  has_codec col := (col =? 1)%nat;
  codec_enc _ _ c := int_enc (MCol c);
  codec_dec _ _ _ bs :=
    match int_dec bs with
    | DOk (MCol c, rest, s) => DOk (c, rest, s)
    | DOk _ => DErr (Err Other "gob: bad data")
    | DEOF => DEOF
    | DErr e => DErr e
    end;
  crc32 bs := foldr Z.add 0%Z bs;
  Codec.NumOut := numOut;
|}.

Lemma mapM_int c zs : mapM int_of c = Some zs → length zs = length c ∧ VInt KInt <$> zs = c.
Proof.
  revert zs. induction c as [|v c IH]; intros zs; [by intros [= <-]|]. simpl.
  destruct v as [| |[] z| | |]; try done. simpl. destruct (mapM int_of c) as [zs'|]; [|done]. intros [= <-].
  destruct (IH zs' eq_refl) as [Hlen Hzs]. rewrite fmap_cons, Hzs. split; [simpl; lia|done].
Qed.

Lemma int_roundtrip m bs rest : int_enc m = inl (bs, ()) → int_dec (bs ++ rest) = DOk (m, rest, ()).
Proof.
  destruct m as [n|b|c|z]; simpl; intros Hm.
  - injection Hm as <-. simpl. by rewrite Nat2Z.id.
  - injection Hm as <-. simpl. by destruct b.
  - destruct (mapM int_of c) as [zs|] eqn:Hc; [|done]. injection Hm as <-. apply mapM_int in Hc as [Hlen Hzs].
    simpl. by rewrite Nat2Z.id, take_app_length', drop_app_length', Hzs.
  - by injection Hm as <-.
Qed.

Lemma int_codec_laws n : @CodecLaws value (int_codec n).
Proof.
  split.
  - intros [] m bs [] rest Hm. by apply int_roundtrip.
  - done.
  - intros [] col c bs [] rest Hc. simpl. by rewrite (int_roundtrip (MCol c)).
Qed.

Definition codecs_of (typ : Typ) : Codec value := int_codec (Z.to_nat (Types.NumOut typ)).

#[local] Instance int_encoding : RowEncoding (typedEncoder codecs_of) := codec_encoding codecs_of (VBool false) (λ _ b, b) (λ _ b, b).

Definition is_int (v : value) : Prop := ∃ z, v = VInt KInt z.

Lemma ints_mapM c : Forall is_int c → ∃ zs, mapM int_of c = Some zs.
Proof. induction 1 as [|v c [z ->] _ [zs Hzs]]; [by exists []|]. exists (z :: zs). simpl. by rewrite Hzs. Qed.

#[local] Instance int_encoding_laws : RowEncodingLaws (typedEncoder codecs_of).
Proof.
  apply (codec_encoding_laws codecs_of (VBool false) (λ _ b, b) (λ _ b, b)) with (good := λ _, is_int).
  - intros typ. apply int_codec_laws.
  - done.
  - intros typ [] [n|b|c|z] Hm; simpl in *; [by eexists..| |by eexists]. destruct (ints_mapM c Hm) as [zs ->]. by eexists.
  - intros typ [] col c Hc. simpl. destruct (ints_mapM c Hc) as [zs ->]. by eexists.
Defined.

(** * Combining *)

Definition num (v : value) : Z := default 0%Z (int_of v).
Definition sum_func : userFunc :=
  mkUserFunc (mkFunc (New [TInt; TInt]) (New [TInt]) false false)
    (λ vs, match vs with [a; b] => Ret [VInt KInt (num a + num b)] | _ => Panic "reflect: Call" end).
Definition pair_type : Typ := New [TInt; TInt].
Definition pair_part (x : row) : nat := Z.to_nat (key_rank x mod 2).
Definition pair_row (k v : Z) : row := [VInt KInt k; VInt KInt v].

(** Tasks with two partitions; the first two share a combine key, the third has a
    combiner of its own. *)
Definition pair_task (i : Z) (key : string) : cTask :=
  mkCTask pair_type (mkTaskName 1 "inv1_reduce" i 3) None [] (Some (λ rows n, Ret (Z.of_nat ∘ pair_part <$> rows))) 2
    (Some sum_func) key (Pragmas []) [] [].
Definition pair_rows (i : Z) : list row := [pair_row 1 i; pair_row 2 i; pair_row 1 5; pair_row 4 i].
Definition pair_key : TaskName := mkTaskName 0 "shared" 0 0.
Definition pair_jobs : list job :=
  [jRun (pair_task 0 "shared") (pair_rows 10); jRun (pair_task 1 "shared") (pair_rows 20); jCommit pair_key;
   jRun (pair_task 2 "") (pair_rows 30)].

#[local] Existing Instances key_less_weak krow_le_dec krow_le_trans krow_le_total mem_spiller mem_spiller_laws toy_combiner toy_combiner_laws.
#[local] Abbreviation ToyFrame := typedFrame.
#[local] Instance toy_frames : CombiningFrameOps ToyFrame := frame_ops key_less key_hash.
#[local] Abbreviation ToyC := (typedCombiner (Sp := list (list krow))).

Definition pair_thread (j : job) : thread (CF := ToyFrame) :=
  match j with
  | jRun T l => tStart T (pack (FrameReader l))
  | jCommit key => tCommit key None
  end.
Definition pair_shared : shared (C := ToyC) (St := memoryStore) := mkShared newMemoryStore ∅ ∅ ∅ ∅.

#[local] Instance toy_frames_laws : CombiningFrameLaws ToyC ToyFrame.
Proof.
  apply (frame_laws key_less key_hash mem_NewSpiller (λ _, true) (merge_sort krow_le) 2 key_hash_same).
Defined.

Lemma sum_assoc a b c : comb_of sum_func (comb_of sum_func a b) c = comb_of sum_func a (comb_of sum_func b c).
Proof. unfold comb_of, sum_func. simpl. unfold num. simpl. by rewrite Z.add_assoc. Qed.

(** Reductions of rows of two integers are such rows. *)
Lemma reduces_pairs l L :
  Forall (λ x, ∃ k v, x = pair_row k v) l → reduces_rows key_less sum_func l L → Forall (λ x, ∃ k v, x = pair_row k v) L.
Proof.
  intros Hl (L' & -> & gs & Hp & HF & _). apply Forall_fmap.
  assert (Forall (λ x : krow, ∃ k v, x = ([VInt KInt k], VInt KInt v)) (concat gs)) as Hgs.
  { rewrite Hp. apply Forall_fmap. eapply Forall_impl; [|exact Hl]. intros x (k & v & ->). by exists k, v. }
  clear Hp Hl. induction HF as [|g x gs L' Hx _ IH]; [constructor|]. simpl in Hgs. apply Forall_app in Hgs as [Hg Hgs].
  constructor; [|by apply IH]. destruct g as [|a g]; [done|]. simpl in Hx. injection Hx as <-.
  apply Forall_cons_iff in Hg as [(k & v & ->) _]. exists k. clear. simpl.
  assert (∀ vs w, ∃ z, fold_left (comb_of sum_func) vs (VInt KInt w) = VInt KInt z) as Hz.
  { induction vs as [|b vs IH]; intros w; [by exists w|]. simpl. apply IH. }
  destruct (Hz (g.*2) v) as [z ->]. by exists z.
Qed.

Lemma pair_rows_ok i : Forall (λ x, ∃ k v, x = pair_row k v) (pair_rows i).
Proof. repeat constructor; eauto. Qed.

Lemma pair_fits i key j : fits (λ _, pair_type) (λ _, sum_func) (λ _, 2) (λ _, pair_part) (pair_task i key) (pair_rows j).
Proof.
  split_and!; [done..| |by eexists]. intros x _. unfold pair_part.
  pose proof (Z.mod_pos_bound (key_rank x) 2). lia.
Qed.

Lemma pair_run T l : jRun T l ∈ pair_jobs → ∃ i key j, T = pair_task i key ∧ l = pair_rows j ∧
  (rows_for (combineKey T) pair_jobs = pair_rows 10 ++ pair_rows 20 ∨ rows_for (combineKey T) pair_jobs = pair_rows 30).
Proof.
  unfold pair_jobs. rewrite !elem_of_cons. intros [[= -> ->]|[[= -> ->]|[?|[[= -> ->]|?%elem_of_nil]]]]; try done.
  - exists 0%Z, "shared", 10%Z. split_and!; [done..|]. left. by vm_compute.
  - exists 1%Z, "shared", 20%Z. split_and!; [done..|]. left. by vm_compute.
  - exists 2%Z, "", 30%Z. split_and!; [done..|]. right. by vm_compute.
Qed.

Lemma pair_jobs_ok : jobs_ok (C := ToyC) (E := typedEncoder codecs_of) (St := memoryStore)
  (λ _, pair_type) (λ _, sum_func) (λ _, 2) (λ _, pair_part) pair_jobs.
Proof.
  assert (∀ T l, jRun T l ∈ pair_jobs → Forall (λ x, ∃ k v, x = pair_row k v) (rows_for (combineKey T) pair_jobs) ∧
    length (rows_for (combineKey T) pair_jobs) ≤ 8) as Hrows.
  { intros T l (i & key & j & _ & _ & [-> | ->])%pair_run; (split; [|simpl; lia]); rewrite ?Forall_app; auto using pair_rows_ok. }
  split.
  - intros T l (i & key & j & -> & -> & _)%pair_run. apply pair_fits.
  - intros T l [_ Hlen]%Hrows. split_and!; [done|done|apply sum_assoc|]. assert (8 <= maxRows)%Z by done. lia.
  - intros T l l' L Hin Hsub Hred. apply Hrows in Hin as [Hin _].
    assert (Forall (λ x, ∃ k v, x = pair_row k v) L) as HL.
    { apply (reduces_pairs l'); [|done]. apply list.Forall_forall. intros x Hx. rewrite list.Forall_forall in Hin.
      apply Hin. by eapply elem_of_submseteq. }
    eapply Forall_impl; [|exact HL]. intros x (k & v & ->). split; [done|]. repeat constructor; by eexists.
  - done.
  - intros i j T l Hi Hk. destruct i as [|[|[|[|i]]]]; simplify_eq/=; try done.
    destruct j as [|[|[|[|j]]]]; simpl; try done.
Qed.


(** ** Executions *)

(** A sequence of runs and commits, one after the other: the errors they return. *)
Fixpoint run_threads (ths : list (thread (CF := ToyFrame))) (s : shared (C := ToyC) (St := memoryStore)) :
    outcome (shared (C := ToyC) (St := memoryStore) * list (option runError)) :=
  match ths with
  | [] => Ret (s, [])
  | th :: ths =>
      '(s, err) ← combine_alone (E := typedEncoder codecs_of) 2 100 100 th s;
      '(s, errs) ← run_threads ths s;
      Ret (s, err :: errs)
  end.

(** The rows of a partition in the store. *)
Definition stored_rows (s : shared (C := ToyC) (St := memoryStore)) (key : TaskName) (p : nat) : list row :=
  match st_Open (sh_store s) key p 0 with
  | inl data =>
      match ReadAll 100 100 (decoding (E := typedEncoder codecs_of) pair_type data) with
      | Ret (_, (rows, None)) => rows
      | _ => []
      end
  | inr _ => []
  end.

Example combining_example :
  match run_threads (pair_thread <$> take 3 pair_jobs) pair_shared with
  | Ret (s, errs) => errs = [None; None; None] ∧
      stored_rows s pair_key 0 = [pair_row 2 30; pair_row 4 30] ∧ stored_rows s pair_key 1 = [pair_row 1 40]
  | _ => False
  end.
Proof. vm_compute. done. Qed.

(** Rows of a run that failed stay in the combiners that tasks share: when the task
    runs again, they are counted twice. *)
Definition failing_rows : list row := (λ k, pair_row (2 * k) 1) <$> [1; 2; 3; 4; 5; 6; 7; 8; 9; 10; 11; 12]%Z.
Definition failing_thread : thread (CF := ToyFrame) :=
  tStart (pair_task 0 "shared") (pack (exec_multiReader [pack (FrameReader failing_rows); pack (mkErrReader (Err Temporary "lost"))])).

Example failed_run_counts_twice :
  match run_threads [failing_thread; tStart (pair_task 0 "shared") (pack (FrameReader failing_rows)); tCommit pair_key None] pair_shared with
  | Ret (s, errs) => errs = [Some (maybeTaskFatalErr (Err Temporary "lost")); None; None] ∧
      pair_row 2 2 ∈ stored_rows s pair_key 0
  | _ => False
  end.
Proof. vm_compute. split; [done|]. repeat (left || right). Qed.
