(* ===== verification/ClusterExamples.v ===== *)
(** A cluster at concrete inputs: an invocation whose slice is shuffled, evaluated while
    machines come and go. *)
From S2P Require Import Prelude Types SliceIO Codec Retry Reduce Combiner Slices Readers Task Compile CompileSpec CompileGraph Store Local LocalSpec LocalRun LocalCombiner Machines WorkerOut WorkerCodec WorkerCombine WorkerCombineSpec WorkerCombiner Worker WorkerSpec WorkerRun Driver Cluster ClusterSpec ClusterRun SliceExamples LocalExamples WorkerExamples.

#[local] Existing Instances key_less_weak krow_le_dec krow_le_trans krow_le_total mem_spiller mem_spiller_laws toy_combiner toy_combiner_laws
  toy_frames toy_frames_laws int_encoding int_encoding_laws.

#[local] Abbreviation ToyFrame := typedFrame.
#[local] Abbreviation ToyC := (typedCombiner (Sp := list (list krow))).
#[local] Abbreviation IntEncoder := (typedEncoder codecs_of).

(** Results of once-only calls, kept in a map. *)
#[local] Instance map_once {K Er : Type} `{Countable K} : Once K Er (gmap K (option Er)) := {|
  once_new := ∅;
  once_get o k := o !! k;
  once_put o k e := <[k := e]> o;
  once_panicked o k := <[k := None]> o;
  once_forget o k := delete k o;
|}.
#[local] Instance map_once_laws {K Er : Type} `{Countable K} : OnceLaws K Er (gmap K (option Er)).
Proof.
  split; simpl.
  - intros k. apply lookup_empty.
  - intros o k e. apply lookup_insert_eq.
  - intros o k k' e Hne. by apply lookup_insert_ne.
Qed.

Definition toy_inv : driverInvocation := mkDriverInvocation 1 7 [dValue (VInt KInt 3)] false "a.go:9" makeCompileEnv.
Definition toy_invoke (f : Z) (args : list invArg) : outcome Slice := if (f =? 7)%Z then Ret toy_reshuffle else Panic "no such func".

Lemma toy_semantics_upto : semantics_upto (C := ToyC) (E := IntEncoder) toy_hash toy_reader toy_D toy_route toy_reshuffle.
Proof.
  assert (∀ s i x, s = toy_reshuffle ∨ s = toy_map ∨ s = toy_const → x ∈ toy_D s i → ∃ z, x = [VInt KInt z]) as Hints.
  { intros s i x [->|[->| ->]] Hx.
    - unfold toy_D in Hx. cbn [toy_reshuffle fmap list_fmap concat] in Hx. rewrite app_nil_r, elem_of_app, !list_elem_of_filter in Hx.
      destruct Hx as [[_ Hx]|[_ Hx]]; exact (toy_double_ints _ _ Hx).
    - exact (toy_double_ints _ _ Hx).
    - exact (toy_ints _ _ Hx). }
  split.
  - intros s i ins lss Hs%toy_sub Hi Hlen Hdep Hins.
    assert (∃ L, computes s (Z.of_nat i) (concat lss) L ∧ L ≡ₚ toy_D s i) as (L & HL & Hp).
    { destruct Hs as [->|[->| ->]].
      - destruct lss as [|ls [|]]; [done| |done]. destruct (Hdep 0 _ ls eq_refl eq_refl) as (ls0 & ls1 & HF & Hp & ->).
        simpl. eexists. split; [apply computes_reshuffle|]. rewrite <-Hp. clear Hp.
        apply Forall2_cons_inv_l in HF as (l0 & ls' & H0 & HF & ->). apply Forall2_cons_inv_l in HF as (l1 & ls'' & H1 & HF & ->).
        apply Forall2_nil_inv_l in HF as ->. unfold toy_D. cbn [toy_reshuffle fmap list_fmap concat].
        apply Permutation_app; [exact H0|]. apply Permutation_app; [exact H1|done].
      - destruct lss as [|ls [|]]; [done| |done]. destruct (Hdep 0 _ ls eq_refl eq_refl) as (l & Hp & ->).
        simpl. eexists. split; [by apply (computes_map _ _ _ _ _ toy_double)|]. by apply Permutation_map.
      - destruct lss; [|done]. eexists. split; [apply (computes_const 0 (mkName "const" "a.go" 1 0) (New [TInt]) toy_rows 2)|done]. }
    assert (Readers.fits no_methods (typ_of s) s) as Hfit by (destruct Hs as [->|[->| ->]]; split; reflexivity).
    destruct (Slice_Reader_spec no_methods (λ _ _ l, l) 2 no_reader no_reader (typ_of s) s (Z.of_nat i) ins (concat lss) L Hfit Hins HL) as (r & Hr & HrL).
    by exists r, L.
  - intros s Hs%toy_sub shard r L HL. exists r. split; [|done]. by destruct Hs as [->|[->| ->]].
  - intros s j d k Hs%toy_sub _ Hd Hsh. destruct Hs as [->|[->| ->]]; simpl in Hd; try done.
    + injection Hd as <-. simpl. split.
      * intros x _. apply toy_route_bound.
      * intros _ rows Hrows. apply toy_partition. intros x Hx. by eapply toy_double_ints, Hrows.
    + unfold singleDep in Hd. case_match; [|done]. by injection Hd as <-.
  - intros s j d k f Hs%toy_sub _ Hd Hsh Hf. destruct Hs as [->|[->| ->]]; vm_compute in Hf; discriminate.
  - intros s i Hs%toy_sub. split; [destruct Hs as [->|[->| ->]]; vm_compute; discriminate|]. apply list.Forall_forall. intros x Hx.
    destruct (Hints s i x Hs Hx) as [z ->]. split; [by destruct Hs as [->|[->| ->]]|]. repeat constructor. by eexists.
  - intros s Hs%toy_sub HR. destruct Hs as [->|[->| ->]]; vm_compute in HR; done.
Qed.

Definition toy_names : list (nat * TaskName) :=
  match toy_compiled with Ret (c, _) => (λ kv, (kv.1, ct_Name kv.2)) <$> map_to_list (c_tasks c) | _ => [] end.

Lemma toy_names_ok c ts : toy_compiled = Ret (c, inl ts) → names_ok (St := memoryStore) toy_D c.
Proof.
  intros Hc. split; [|done].
  assert (∀ t T, c_tasks c !! t = Some T → (t, ct_Name T) ∈ toy_names) as Hin.
  { intros t T HT. unfold toy_names. rewrite Hc. apply list_elem_of_fmap. exists (t, T). split; [done|by apply elem_of_map_to_list]. }
  assert (∀ x y, x ∈ toy_names → y ∈ toy_names → x.2 = y.2 → x.1 = y.1) as Hinj.
  { assert (Forall (λ x, Forall (λ y, x.2 = y.2 → x.1 = y.1) toy_names) toy_names) as HF.
    { vm_compute. repeat constructor; done. }
    intros x y Hx Hy. rewrite list.Forall_forall in HF. specialize (HF x Hx). rewrite list.Forall_forall in HF. by apply HF. }
  intros t u T U HT%Hin HU%Hin Hn. exact (Hinj _ _ HT HU Hn).
Qed.


(** * An execution *)

#[local] Abbreviation toy_cluster := (cluster (C := ToyC) (St := memoryStore) (O := gmap Z (option error))
  (O1 := gmap Z (option compileError)) (O2 := gmap string (option callError))).
#[local] Abbreviation toy_calls lc lr := (cluster_machines (C := ToyC) (CF := ToyFrame) (E := IntEncoder) (St := memoryStore) (O := gmap Z (option error))
  128 toy_hash toy_reader toy_invoke id id lc lr).

Inductive op := oStart (addr : string) | oStop (addr : string) | oRun (t : nat) (addr : string) (lost_compile lost_run : bool).

Definition toy_do (tasks : gmap nat cTask) (o : op) (st : toy_cluster) : outcome toy_cluster :=
  let '(mkCluster d ms w inv) := st in
  match o with
  | oStart addr => Ret (mkCluster d (<[addr := Init false newMemoryStore]> ms) w inv)
  | oStop addr => Ret (mkCluster d (delete addr ms) w inv)
  | oRun t addr lc lr =>
      r ← driver_Run (H := toy_calls lc lr) (λ _, true) id 100 inv addr t tasks d ms w;
      match r with
      | Ran r => Ret (mkCluster (rn_driver r) (rn_machines r) (rn_world r) (rn_inv r))
      | Blocks => NoFuel
      end
  end.

(** The state of each task, and what reading the roots yields. *)
Definition toy_view (c : compiler) (st : toy_cluster) : list (option TaskState) * list (list row * option error) :=
  ((λ t, t_state <$> w_tasks (cl_world st) !! t) <$> [0; 1; 2; 3],
   (λ t, match driver_Reader (H := toy_calls false false) (c_tasks c) t 0 (location (cl_driver st)) (cl_driver st) (cl_machines st) with
         | Ret r => match ReadAll 100 100 r with Ret (_, res) => res | _ => ([], None) end
         | _ => ([], None)
         end) <$> [0; 1]).

Definition toy_execution (os : list op) : list (option TaskState) * list (list row * option error) :=
  match toy_compiled with
  | Ret (c, _) =>
      match foldl (λ st o, st ← st; toy_do (c_tasks c) o st) (Ret (cluster_init toy_inv c)) os with
      | Ret st => toy_view c st
      | _ => ([], [])
      end
  | _ => ([], [])
  end.

Definition int_row (z : Z) : row := [VInt KInt z].
Definition toy_output : list row := int_row <$> [10; 2; 8; 4; 6]%Z.
Definition toy_ops : list op :=
  [oStart "a"; oStart "b"; oRun 2 "a" false false; oRun 3 "b" false false; oRun 0 "b" false false; oRun 1 "a" false false].

Example cluster_example :
  toy_execution toy_ops = ([Some TaskOk; Some TaskOk; Some TaskOk; Some TaskOk], [(toy_output, None); ([], None)]).
Proof. vm_compute. reflexivity. Qed.

(** A machine stops: the outputs on it cannot be read, and the run of a task that needs
    them is lost. *)
Example cluster_stop_example :
  toy_execution (toy_ops ++ [oStop "b"; oRun 0 "a" false false]) =
    ([Some TaskLost; Some TaskOk; Some TaskOk; Some TaskOk], [([], Some unreachable); ([], None)]).
Proof. vm_compute. reflexivity. Qed.

(** Lost outputs are computed again on another machine, although a reply gets lost. *)
Example cluster_recovery_example :
  toy_execution (toy_ops ++ [oStop "b"; oStart "c"; oRun 3 "c" false true; oRun 3 "c" false false; oRun 0 "a" false false]) =
    ([Some TaskOk; Some TaskOk; Some TaskOk; Some TaskOk], [(toy_output, None); ([], None)]).
Proof. vm_compute. reflexivity. Qed.

(** The failure of a compile call is remembered for as long as the machine is known: no
    task is run there any more. *)
Example cluster_compile_failure_example :
  toy_execution (toy_ops ++ [oStop "b"; oStart "c"; oRun 3 "c" true false; oRun 3 "c" false false]) =
    ([Some TaskOk; Some TaskOk; Some TaskOk; Some TaskLost], [([], Some unreachable); ([], None)]).
Proof. vm_compute. reflexivity. Qed.
