(* ===== verification/Examples.v ===== *)
(** Concrete instances: for each theorem with hypotheses, inputs at which the
    hypotheses hold, with the parameters of the model instantiated. *)
From S2P Require Import Prelude Heap SliceIO Scanner SortIO Codec Spiller Reduce Frame Task Eval Combiner ToyCodec SliceStatus SliceMonitor.

(** * Readers over frames *)

Lemma frame_streams {row} (l : list row) : Streams_as steady (FrameReader l) l.
Proof. eexists. apply frameReader_streams, Nat.lt_succ_diag_r. Qed.

Lemma frame_Streams {row} (l : list row) : Streams (FrameReader l) l.
Proof. eapply Streams_as_Streams, frame_streams. Qed.

Lemma ReadFull_correct_witness :
  ∃ r' out oe f0, (∀ f, f0 ≤ f → ReadFull f (FrameReader [10; 20; 30]) 2 = Ret (r', (out, oe))) ∧
    match oe with
    | None => length out = 2 ∧ ∃ l', [10; 20; 30] = out ++ l' ∧ Streams r' l'
    | Some e => e = EOF ∧ [10; 20; 30] = out ∧ length out ≤ 2
    end.
Proof. apply (ReadFull_correct (FrameReader [10; 20; 30])). apply frame_Streams. Defined.

Lemma ReadAll_correct_witness :
  ∃ r' f0, ∀ f, f0 ≤ f → ReadAll f 2 (FrameReader [10; 20; 30]) = Ret (r', ([10; 20; 30], None)).
Proof. apply ReadAll_correct; [apply frame_Streams|lia]. Defined.

Lemma MultiReader_loses_rows_at_EOF_witness :
  Streams (FrameReader [10; 20]) [10; 20] ∧
  ∃ m, Reads (MultiReader [NopCloser (FrameReader [10; 20])]) 5 m [] (Some EOF).
Proof. apply MultiReader_loses_rows_at_EOF; [done|simpl; lia]. Defined.

Lemma Scanner_correct_witness :
  scans id 2 (NewScanner [0] (FrameReader [10; 20; 30])) [10; 20; 30].
Proof. apply Scanner_correct; [lia|apply frame_Streams]. Defined.

(** * The codec of ToyCodec.v, with two columns *)

#[local] Instance toy_codec_nat : Codec nat := toy_codec nat 2.
#[local] Instance toy_laws_nat : CodecLaws nat := toy_laws nat 2.

(** Two batches of two and one rows. *)
Definition toy_batches : list (list (list nat)) := [[[1; 10]; [2; 20]]; [[3; 30]]].
Definition toy_encoder : Encoder := (write_all 0 NewEncodingWriter toy_batches).1.

Lemma codec_correct_witness :
  @Streams_as _ _ (decodingReader_reader 0) (Style true true true)
    (NewDecodingReader (en_out toy_encoder)) (concat toy_batches).
Proof.
  apply (codec_correct 0 toy_batches toy_encoder); [|reflexivity].
  repeat constructor.
Defined.

(** A batch of one row whose trailing checksum is wrong. *)
Definition bad_bytes : list byte :=
  [Some (MBool false); Some (MCol [1]); None; Some (MBool true); Some (MCol [10]); None; Some (MSum 0)].

Lemma decode_checksum_mismatch_witness :
  ∃ d, decode 0 (NewDecodingReader bad_bytes) 1 =
    Ret (d, inr (Err Integrity "computed checksum but expected checksum")).
Proof.
  eexists. eapply (decode_checksum_mismatch 0); [vm_compute; reflexivity|vm_compute; reflexivity|].
  vm_compute. done.
Defined.

(** * Merging, sorting and reducing *)

#[local] Instance ltb_strict_weak : StrictWeak Nat.ltb.
Proof. split; intros *; rewrite ?Nat.ltb_lt, ?Nat.ltb_ge; lia. Qed.

Lemma NewMergeReader_correct_witness :
  ∃ m L f0, (∀ f, f0 ≤ f →
      NewMergeReader 0 Nat.ltb 2 f [FrameReader [1; 3; 5]; FrameReader [2; 4]] = Ret (inl m)) ∧
    @Streams_as _ _ (mergeReader_reader 0 Nat.ltb 2) strict m L ∧
    L ≡ₚ concat [[1; 3; 5]; [2; 4]] ∧ sorted Nat.ltb L.
Proof.
  apply NewMergeReader_correct; [apply _|lia| |].
  - repeat (constructor; [apply frame_streams|]). constructor.
  - repeat constructor; done.
Defined.


(** Rows are compared by their first cell. *)
Definition toy_less (a b : list nat) : bool := Nat.ltb (List.hd 0 a) (List.hd 0 b).

#[local] Instance toy_less_strict_weak : StrictWeak toy_less.
Proof. split; intros *; unfold toy_less; rewrite ?Nat.ltb_lt, ?Nat.ltb_ge; lia. Qed.

Definition toy_le (a b : list nat) : Prop := toy_less b a = false.
#[local] Instance toy_le_dec : RelDecision toy_le.
Proof. intros a b. unfold toy_le. apply _. Defined.
#[local] Instance toy_le_trans : Transitive toy_le.
Proof. intros a b c. unfold toy_le, toy_less. rewrite !Nat.ltb_ge. lia. Qed.
#[local] Instance toy_le_total : Total toy_le.
Proof. intros a b. unfold toy_le, toy_less. rewrite !Nat.ltb_ge. lia. Qed.

Definition toy_io (i : nat) : spillIO := mkSpillIO None None None.

Lemma toy_encodable e rows :
  Forall (λ r : list nat, length r = 2) rows →
  ∃ e', Encoder_Write 0 e rows = (e', None) ∧
    length (en_out e) + length rows ≤ length (en_out e').
Proof.
  intros _. eexists. split; [reflexivity|]. simpl. rewrite !length_app. simpl.
  rewrite length_replicate. unfold column. rewrite length_fmap. lia.
Qed.


(** The same codec without padding: six bytes for a batch of two columns. *)
Definition small_codec : Codec nat := {|
  gst := unit;
  byte := msg nat;
  gst0 := ();
  gob_enc _ m := inl ([m], ());
  gob_dec _ bs := match bs with [] => DEOF | m :: rest => DOk (m, rest, ()) end;
  has_codec _ := false;
  codec_enc _ _ c := inl ([MCol c], ());
  codec_dec _ _ _ _ := DErr (Err Other "no codec");
  crc32 bs := Z.of_nat (length bs);
  Codec.NumOut := 2;
|}.

Lemma SortReader_divides_by_zero_witness :
  SortReader_loop (C := small_codec) 0 100 toy_io id 5 10 1000 7
    (FrameReader (replicate 8 [1; 1])) [] = Panic "integer divide by zero".
Proof.
  eapply (SortReader_divides_by_zero 0 (C := small_codec) 100 toy_io (R := frameReader (list nat)))
    with (size := 6).
  - vm_compute. reflexivity.
  - vm_compute. reflexivity.
  - simpl. lia.
Defined.

(** * Frames of two columns *)

Definition toy_zero (t : string) : nat := 0.

Definition toy_ops : Ops (V := nat) :=
  mkOps (Some Nat.ltb) (Some (λ v seed, Z.land (Z.of_nat v + seed) (2 ^ 32 - 1))) false false.

Definition toy_reg : gmap string (Ops (V := nat)) := {["int" := toy_ops]}.

Definition toy_mem : gmap nat (list nat) :=
  {[0%nat := [1; 2; 3; 0]; 1%nat := [10; 20; 30; 0]; 2%nat := [7; 8]; 3%nat := [70; 80]]}.

Definition toy_col (a : nat) (n : Z) : data (V := nat) := mkData "int" (mkSlice a 0 n n) toy_ops.

(** Three rows with room for a fourth, and two rows. *)
Definition toy_dst : Frame (V := nat) := mkFrame (Some [toy_col 0 4; toy_col 1 4]) 0 3 4 0.
Definition toy_src : Frame (V := nat) := mkFrame (Some [toy_col 2 2; toy_col 3 2]) 0 2 2 0.

Ltac solve_frame_ok :=
  split; [simpl; lia|]; split;
  [ repeat (constructor;
      [split; [vm_compute; repeat split; discriminate|apply elem_of_dom; eexists; reflexivity]|]);
    constructor
  | apply (bool_decide_unpack _); vm_compute; exact I ].

Lemma toy_dst_ok : frame_ok toy_mem toy_dst.
Proof. solve_frame_ok. Qed.

Lemma toy_src_ok : frame_ok toy_mem toy_src.
Proof. solve_frame_ok. Qed.

Lemma toy_independent : independent (columns toy_dst) (columns toy_src).
Proof. cbn. split_and!; try done; apply (bool_decide_unpack _); vm_compute; exact I. Qed.

Lemma AppendFrame_correct_witness :
  ∃ m' g f0, (∀ fu, f0 ≤ fu → AppendFrame toy_zero fu toy_reg toy_mem toy_dst toy_src = Ret (m', g)) ∧
    cols m' g = zip_with (++) (cols toy_mem toy_dst) (cols toy_mem toy_src).
Proof.
  destruct (AppendFrame_correct toy_zero toy_reg toy_mem toy_dst toy_src) as (m' & g & f0 & H1 & _ & _ & H2).
  - split_and!; [apply toy_src_ok|done| |].
    + repeat (constructor; [eexists; reflexivity|]). constructor.
    + split_and!; [apply toy_dst_ok|done|apply toy_independent|simpl; lia].
  - exists m', g, f0. by split.
Defined.

Lemma Copy_correct_witness :
  ∃ m', Copy toy_mem toy_dst toy_src = Ret (m', 2%Z) ∧ frame_ok m' toy_dst ∧
    frames_rule [0; 1] toy_mem m' ∧ cols m' toy_dst = [[7; 8; 3]; [70; 80; 30]].
Proof.
  destruct (Copy_correct toy_mem toy_dst toy_src toy_dst_ok toy_src_ok ltac:(done) toy_independent)
    as (m' & H1 & H2 & H3 & H4). exists m'. by split_and!.
Defined.

Lemma toy_visible : visible toy_dst.
Proof. split; [repeat constructor; simpl; lia|simpl; lia]. Qed.

Lemma Less_lexicographic_witness :
  (∀ i j, (0 <= i < 3)%Z → (0 <= j < 3)%Z → Less toy_mem toy_dst i j =
    Ret (lex toy_zero [Nat.ltb] (key toy_zero toy_mem toy_dst i) (key toy_zero toy_mem toy_dst j))) ∧
  StrictWeak (lex toy_zero [Nat.ltb]).
Proof.
  apply (Less_lexicographic toy_zero toy_mem toy_dst [Nat.ltb]).
  - apply toy_dst_ok.
  - apply toy_visible.
  - repeat constructor.
  - constructor; [apply _|constructor].
Defined.

Lemma HashWithSeed_of_key_witness :
  HashWithSeed toy_mem toy_dst 1 5 = Ret 7%Z ∧ (0 <= 7 < 2 ^ 32)%Z.
Proof.
  apply (HashWithSeed_of_key toy_zero toy_mem toy_dst 1 5
    [λ v seed, Z.land (Z.of_nat v + seed) (2 ^ 32 - 1)]).
  - apply toy_dst_ok.
  - apply toy_visible.
  - simpl. lia.
  - repeat constructor.
  - constructor; [|constructor]. intros v.
    change (2 ^ 32 - 1)%Z with (Z.ones 32). rewrite Z.land_ones by lia. apply Z.mod_pos_bound. lia.
Defined.

Lemma Swap_correct_witness :
  ∃ m', Swap toy_mem toy_dst 0 2 = Ret m' ∧ cols m' toy_dst = [[3; 2; 1]; [30; 20; 10]].
Proof.
  destruct (Swap_correct toy_mem toy_dst 0 2 toy_dst_ok toy_visible) as (m' & H1 & _ & H2);
    [done|simpl; lia..|]. by exists m'.
Defined.

(** The slice [toy_dst[1:3]]. *)
Definition toy_offset : Frame (V := nat) := mkFrame (Some [toy_col 0 4; toy_col 1 4]) 1 2 3 0.

Lemma Swap_offset_panics_witness :
  Slice toy_dst 1 3 = Ret toy_offset ∧
  Swap toy_mem toy_offset 0 1 = Panic "reflect: slice index out of range".
Proof. split; [done|]. apply Swap_offset_panics; [done|simpl; lia]. Defined.

Lemma Value_stale_length_witness :
  ∃ g, Slice (mkFrame (Some [mkData "int" (mkSlice 0 0 1 4) toy_ops]) 0 1 4 0) 0 4 = Ret g ∧
    Len g = 4%Z ∧ Value g 0 = Ret (mkSlice 0 0 1 4).
Proof.
  eexists. split; [reflexivity|].
  destruct (Value_stale_length toy_reg "int" (mkSlice 0 0 1 4) toy_ops
    (mkFrame (Some [mkData "int" (mkSlice 0 0 1 4) toy_ops]) 0 1 4 0)
    (mkFrame (Some [mkData "int" (mkSlice 0 0 1 4) toy_ops]) (0 + 0) (4 - 0) (4 - 0) 0))
    as (H1 & H2 & _); [done|simpl; lia|done|done|]. by split.
Defined.

(** * Tasks and evaluation *)

(** The chain of Eval.v as a heap of tasks; task 1 has a subscriber and a
    waiter. *)
Definition toy_task (t : nat) : Task :=
  let T := chain t in
  if (t =? 1)%nat then with_subs [5] (with_waitc (Some 3) T) else T.

Definition toy_world : world :=
  mkWorld {[0%nat := toy_task 0; 1%nat := toy_task 1; 2%nat := toy_task 2]} ∅ 4 ∅.

Lemma Set_Error_notify_witness :
  (∃ w', Set_ 1 TaskOk toy_world = Ret w' ∧ 3 ∈ w_closed w') ∧
  (∃ w', Error 1 (Err Fatal "bad") toy_world = Ret w' ∧ Err_ 1 w' = Ret (Some (Err Fatal "bad"))).
Proof.
  destruct (Set_Error_notify 1 (toy_task 1) toy_world TaskOk (Err Fatal "bad"))
    as [(w1 & H1 & _ & H2 & _) (w2 & H3 & H4 & _)]; [done|].
  split; [exists w1|exists w2]; by auto.
Defined.

Lemma toy_graph_ok : graph_ok toy_world.
Proof.
  intros t T d HT Hd.
  assert (t = 0 ∨ t = 1 ∨ t = 2) as Ht.
  { apply elem_of_dom_2 in HT. unfold toy_world in HT. simpl in HT. set_solver. }
  destruct Ht as [->|[->| ->]]; vm_compute in HT; injection HT as <-; simpl in Hd.
  - apply list_elem_of_singleton in Hd as ->. split; [by apply elem_of_dom; eexists|].
    intros u. vm_compute. intros Hu. inversion Hu as [|? ? ? Hn]; subst.
    + eauto.
    + inversion Hn.
  - apply list_elem_of_singleton in Hd as ->. split; [by apply elem_of_dom; eexists|].
    intros u. vm_compute. intros Hu. inversion Hu as [|? ? ? Hn]; subst.
    + eauto.
    + inversion Hn.
  - by apply elem_of_nil in Hd.
Qed.

Lemma All_reachable_witness :
  ∃ ts, All 3 toy_world 0 = Ret ts ∧ NoDup ts ∧ ∀ u, u ∈ ts ↔ rtc (edge toy_world) 0 u.
Proof.
  apply (All_reachable toy_world 0); [apply toy_graph_ok|]. by apply elem_of_dom; eexists.
Defined.

(** * The status of slices *)

Lemma toy_edge t u : edge toy_world t u → t < 2 ∧ u = S t.
Proof.
  intros (T & d & HT & Hd & Hu). assert (t = 0 ∨ t = 1 ∨ t = 2) as Ht.
  { apply elem_of_dom_2 in HT. unfold toy_world in HT. simpl in HT. set_solver. }
  destruct Ht as [->|[->| ->]]; vm_compute in HT; injection HT as <-; simpl in Hd; [..|by apply elem_of_nil in Hd].
  all: apply list_elem_of_singleton in Hd as ->; split; [lia|]; vm_compute in Hu; inversion Hu as [|? ? ? Hn]; subst; [done|inversion Hn].
Qed.

(** The slices of the tasks of the chain: the last one is pipelined into the second. *)
Definition toy_slices (t : nat) : list string := match t with 0 => ["reduce"] | 1 => ["map"; "const"] | _ => ["const"] end.


(** A change between the subscription to a task and the first look at its state is counted
    once, and shows up in the end. *)
Example slice_status_example :
  match foldl (λ c o, c ← c; match mon_step toy_slices 9 ["const"; "map"; "reduce"] o c with Ret (Some c) => Some c | _ => None end)
    (Some (mon_start 9 toy_world [2; 1; 0]))
    [mSubscribe; mSet 2 TaskRunning; mRead; mSubscribe; mRead; mSubscribe; mRead; mTasks; mSet 2 TaskOk; mHandle; mTasks; mError 1 (Err Other "bad"); mHandle; mTasks; mHandle] with
  | Some c => (cf_shown c !! "const", cf_shown c !! "map", cf_shown c !! "reduce") =
      (Some "tasks idle/running/done(lost)/error: 0/0/1(0)/1", Some "tasks idle/running/done(lost)/error: 0/0/0(0)/1", Some "tasks idle/running/done: 1/0/0")
  | None => False
  end.
Proof. vm_compute. reflexivity. Qed.

(** The chain is a well-formed graph. *)
Definition chain_rank (t : nat) : nat := 3 - t.

Lemma chain_wf : graph_wf chain chain_rank.
Proof.
  split.
  - intros t x ->%list_elem_of_singleton. done.
  - intros t. by apply list_elem_of_singleton.
  - intros t. apply NoDup_singleton.
  - intros t h _. done.
  - intros t h Hh. change (head chain t) with t. unfold heads, chain in Hh. simpl in Hh.
    unfold chain_rank. destruct (Nat.ltb_spec t 2); simpl in Hh.
    + apply list_elem_of_singleton in Hh as ->. lia.
    + by apply elem_of_nil in Hh.
Qed.

Lemma chain_fuel t : chain_rank (head chain t) < 4.
Proof. unfold chain_rank. lia. Qed.

(** A run that evaluates task 1: submit 2, run 2, return 2, submit 1, run 1,
    return 1. *)
Definition ret_or (o : outcome state) : state := match o with Ret s => s | _ => newState end.

Definition run_v0 : nat → TaskState := λ _, TaskInit.
Definition run_s0 : state := ret_or (Enqueue_all chain 4 run_v0 [1] newState).
Definition run_s1 : state := (Runnable elements run_s0).1.
Definition run_v1 : nat → TaskState := submit_all (s_todo run_s0) run_v0.
Definition run_v2 : nat → TaskState := set_task 2 TaskOk run_v1.
Definition run_s2 : state := ret_or (Return chain elements 4 run_v2 TaskOk 2 run_s1).
Definition run_s3 : state := (Runnable elements run_s2).1.
Definition run_v3 : nat → TaskState := submit_all (s_todo run_s2) run_v2.
Definition run_v4 : nat → TaskState := set_task 1 TaskOk run_v3.
Definition run_s4 : state := ret_or (Return chain elements 4 run_v4 TaskOk 1 run_s3).

Definition run_ok0 : nat → Prop := λ u, run_v0 u = TaskOk.
Definition run_ok2 : nat → Prop := λ u, run_ok0 u ∨ u = 2 ∧ TaskOk = TaskOk.
Definition run_ok4 : nat → Prop := λ u, run_ok2 u ∨ u = 1 ∧ TaskOk = TaskOk.

Abbreviation run_steps := (rtc (step chain elements 4)).

Lemma run_started : started chain 4 [1] (mkSys run_s0 run_v0 run_ok0).
Proof. split_and!; [done|done|]. vm_compute. reflexivity. Qed.

Lemma run_half : run_steps (mkSys run_s0 run_v0 run_ok0) (mkSys run_s1 run_v2 run_ok2).
Proof.
  eapply rtc_l.
  { eapply (step_submit _ _ _ run_s0 run_v0 run_ok0 run_s1); [done|done|]. reflexivity. }
  eapply rtc_l; [|apply rtc_refl].
  apply (step_execute _ _ _ run_s1 run_v1 run_ok0 2 TaskOk); [done|].
  apply executes_progress; [|by left|done]. apply (bool_decide_unpack _). vm_compute. exact I.
Qed.

Lemma run_return :
  Return chain elements 4 run_v2 (run_v2 2) 2 run_s1 = Ret run_s2.
Proof. vm_compute. reflexivity. Qed.

Lemma run_all : run_steps (mkSys run_s0 run_v0 run_ok0) (mkSys run_s4 run_v4 run_ok4).
Proof.
  etrans; [apply run_half|].
  eapply rtc_l.
  { apply (step_return _ _ _ run_s1 run_v2 run_ok2 2 run_s2); [done|done| |simpl; lia|apply run_return].
    apply (bool_decide_unpack _). vm_compute. exact I. }
  eapply rtc_l.
  { eapply (step_submit _ _ _ run_s2 run_v2 run_ok2 run_s3); [done|done|]. reflexivity. }
  eapply rtc_l.
  { apply (step_execute _ _ _ run_s3 run_v3 run_ok2 1 TaskOk); [done|].
    apply executes_progress; [|by left|done]. apply (bool_decide_unpack _). vm_compute. exact I. }
  eapply rtc_l; [|apply rtc_refl].
  apply (step_return _ _ _ run_s3 run_v4 run_ok4 1 run_s4); [done|done| |simpl; lia|].
  - apply (bool_decide_unpack _). vm_compute. exact I.
  - vm_compute. reflexivity.
Qed.




Lemma Eval_errored_root_no_error_witness :
  ∃ s, Enqueue_all chain 1 (λ _, TaskErr) [0] newState = Ret s ∧ Done s = true ∧ s_err s = None.
Proof. apply Eval_errored_root_no_error. by right. Defined.

Lemma lose_limit_witness :
  t_consecutiveLost (lose 5 (chain 0)) = 5%Z ∧ t_state (lose 5 (chain 0)) = TaskErr.
Proof. destruct (lose_limit (chain 0) 5) as (H1 & H2 & _); [done|lia|done]. Defined.

(** * Combiners *)

Definition toy_hash (k : nat) : Z := Z.of_nat k mod 3.

Lemma toy_hash_same a b : Nat.ltb a b = false → Nat.ltb b a = false → toy_hash a = toy_hash b.
Proof. rewrite !Nat.ltb_ge. intros. by replace a with b by lia. Qed.

Definition toy_frames : list (list (nat * nat)) := [[(1, 10); (4, 1); (7, 2); (1, 5)]; [(4, 4); (2, 2)]].

Lemma combiningFrame_correct_witness :
  ∃ c0 c c' L f0, makeCombiningFrame (0, 0) 2 1 4 3 = Ret c0 ∧
    (∀ fuel, f0 ≤ fuel → Combine_all Nat.ltb toy_hash Nat.add (0, 0) fuel c0 toy_frames = Ret c) ∧
    Compact c = (c', L) ∧ grouped Nat.ltb Nat.add (concat toy_frames) L ∧ cf_len c = length L ∧
    contents c' = [] ∧ cf_len c' = 0.
Proof.
  apply (combiningFrame_correct Nat.ltb toy_hash Nat.add (0, 0) toy_hash_same 2 1 2 3 toy_frames).
  - lia.
  - lia.
  - lia.
  - vm_compute. discriminate.
Defined.

#[local] Instance toy_spiller : Spiller (nat * nat) (list (list (nat * nat))) (frameReader (nat * nat)) := {|
  sp_Spill s f := Ret (s ++ [f], inl (length f));
  sp_ClosingReaders s := inl (FrameReader <$> s);
|}.

#[local] Instance toy_spiller_laws :
  SpillerLaws (nat * nat) (list (list (nat * nat))) (frameReader (nat * nat)).
Proof.
  refine {| spilled s runs := s = runs |}.
  - intros s runs f ->. eauto.
  - intros s runs ->. exists (FrameReader <$> runs), runs. split_and!; [done|done|].
    rewrite Forall2_fmap_l. apply Forall_Forall2_diag, Forall_true. intros l. apply frame_streams.
Defined.

Definition pair_le (a b : nat * nat) : Prop := row_less Nat.ltb b a = false.
#[local] Instance pair_le_dec : RelDecision pair_le.
Proof. intros a b. unfold pair_le. apply _. Defined.
#[local] Instance pair_le_trans : Transitive pair_le.
Proof. intros a b c. unfold pair_le, row_less. rewrite !Nat.ltb_ge. lia. Qed.
#[local] Instance pair_le_total : Total pair_le.
Proof. intros a b. unfold pair_le, row_less. rewrite !Nat.ltb_ge. lia. Qed.

Lemma combiner_correct_witness :
  ∃ c0 c c' r L f0,
    newCombiner (0, 0) 4 (inl []) true 2 1 1 = Ret (inl c0) ∧
    (∀ fuel, f0 ≤ fuel → combiner_Combine_all Nat.ltb toy_hash Nat.add (0, 0) (merge_sort pair_le)
       fuel c0 toy_frames = Ret (c, None)) ∧
    combiner_Reader (merge_sort pair_le) 2 1 c = Ret (c', inl r) ∧
    reduction Nat.ltb Nat.add (concat toy_frames) L.
Proof.
  destruct (combiner_correct Nat.ltb toy_hash Nat.add (0, 0) (merge_sort pair_le) 4 toy_hash_same)
    with (sp := @nil (list (nat * nat))) (numOut := 2%Z) (prefix := 1%Z) (k := 2) (targetSize := 1)
    (fs := toy_frames) as (c0 & c & c' & r & L & f0 & H1 & H2 & H3 & _ & H4).
  - intros a b c. lia.
  - apply merge_sort_Permutation.
  - intros f. apply (StronglySorted_merge_sort pair_le).
  - lia.
  - done.
  - lia.
  - done.
  - vm_compute. discriminate.
  - by exists c0, c, c', r, L, f0.
Defined.

Lemma combiner_order_irrelevant_witness :
  ∃ L, ∀ sp0 size fs0,
    (sp0, size, fs0) = ([], 1, toy_frames) ∨ (sp0, size, fs0) = ([], 100, [reverse (concat toy_frames)]) →
    ∃ c0 c c' r f0, newCombiner (0, 0) 4 (inl sp0) true 2 1 size = Ret (inl c0) ∧
      (∀ fuel, f0 ≤ fuel → combiner_Combine_all Nat.ltb toy_hash Nat.add (0, 0) (merge_sort pair_le)
         fuel c0 fs0 = Ret (c, None)) ∧
      combiner_Reader (merge_sort pair_le) 2 1 c = Ret (c', inl r) ∧
      @Streams_as _ _ (reader_reader (H := runReader_reader) Nat.ltb Nat.add (0, 0) 4) steady r L.
Proof.
  apply (combiner_order_irrelevant Nat.ltb toy_hash Nat.add (0, 0) (merge_sort pair_le) 4 toy_hash_same)
    with (k := 2).
  - intros a b c. lia.
  - apply merge_sort_Permutation.
  - intros f. apply (StronglySorted_merge_sort pair_le).
  - intros a b. rewrite !Nat.ltb_ge. lia.
  - intros a b. lia.
  - lia.
  - done.
  - lia.
  - done.
  - done.
  - vm_compute. discriminate.
  - cbn [concat]. rewrite app_nil_r. symmetry. apply reverse_Permutation.
Defined.
