(* ===== verification/SliceTest.v ===== *)
(** Helpers of tests (src/slicetest/run.go, src/slicetest/print.go): scanning the whole of a
    result, and printing it in an order that does not depend on the order of its rows. *)
From S2P Require Import Prelude Heap Frame Builtins Types SliceIO Scanner Stats Slices.

(** * Scanning *)

Section scanning.
Context {row R T : Type} `{Reader row R} `{EqDecision T} (PtrTo : T → T) (chunk : nat).
#[local] Abbreviation scanner := (@Scanner.Scanner row R T).

(** The loop of ScanAll, and of Print: the rows of the scans that returned true. *)
Fixpoint scan_loop (loop fuel : nat) (s : scanner) (out : list T) (rows : list row) : outcome (scanner * list row) :=
  match loop with
  | 0 => NoFuel
  | S loop =>
      '(s, rec) ← Scanner.Scan PtrTo chunk fuel s out;
      match rec with
      | Some x => scan_loop loop fuel s out (rows ++ [x])
      | None => Ret (s, rows)
      end
  end.

Definition ScanAll (fuel : nat) (s : scanner) (out : list T) : outcome (scanner * (list row * option error)) :=
  '(s, rows) ← scan_loop fuel fuel s out [];
  Ret (s, (rows, Scanner_Err s)).

Lemma scan_loop_spec (s : scanner) l rows :
  scans PtrTo chunk s l → ∃ s' f0, Scanner_Err s' = None ∧ ∀ loop f, length l < loop → f0 ≤ f → scan_loop loop f s (PtrTo <$> sc_typ s) rows = Ret (s', rows ++ l).
Proof.
  revert s rows. induction l as [|x l IH]; intros s rows.
  - intros (s' & f0 & He & Hs). exists s', f0. split; [done|]. intros [|loop] f Hl Hf; [simpl in Hl; lia|]. cbn [scan_loop]. rewrite Hs by done. cbn [mbind outcome_bind].
    by rewrite app_nil_r.
  - intros (s1 & f1 & Ht & Hl & Hs). destruct (IH s1 (rows ++ [x]) Hl) as (s' & f0 & He & Hloop). exists s', (f0 `max` f1). split; [done|].
    intros [|loop] f Hlen Hf; [simpl in Hlen; lia|]. simpl in Hlen. cbn [scan_loop]. rewrite Hs by lia. cbn [mbind outcome_bind]. rewrite <-Ht, Hloop by lia.
    by rewrite <-(assoc_L (++)).
Qed.

(** ScanAll on a scanner of a stream delivers its rows, and no error. *)
Theorem ScanAll_correct typ (r : R) (l : list row) :
  0 < chunk → Streams r l →
  ∃ s' f0, ∀ f, f0 ≤ f → ScanAll f (NewScanner typ r) (PtrTo <$> typ) = Ret (s', (l, None)).
Proof.
  intros Hc Hs. pose proof (Scanner_correct PtrTo chunk typ r l Hc Hs) as Hsc. destruct (scan_loop_spec _ _ [] Hsc) as (s' & f0 & He & Hloop).
  exists s', (f0 `max` S (length l)). intros f Hf. unfold ScanAll. change (PtrTo <$> typ) with (PtrTo <$> sc_typ (NewScanner (row := row) typ r)). rewrite Hloop by lia.
  cbn [mbind outcome_bind app]. by rewrite He.
Qed.
End scanning.

(** * Order *)

Definition string_bytes (s : string) : list Z := (λ c, Z.of_nat (Ascii.nat_of_ascii c)) <$> String.list_ascii_of_string s.

(** The loop over the elements of slices, from index [i] on; [len] is the length of the left
    one.  Both tests in it compare the left element to the right one. *)
Fixpoint valueLess (lhs rhs : value) : outcome bool :=
  match lhs, rhs with
  | VInt _ x, VInt _ y => Ret (x <? y)%Z
  | VString x, VString y => Ret (bytes_less (string_bytes x) (string_bytes y))
  | VSlice ls, VSlice rs =>
      (fix go (i len : nat) (ls rs : list value) {struct ls} : outcome bool :=
         match rs with
         | [] => Ret false
         | r :: rs =>
             if len <? i then Ret true
             else
               match ls with
               | [] => Panic "reflect: slice index out of range"
               | l :: ls =>
                   b ← valueLess l r;
                   if b : bool then Ret true
                   else
                     b ← valueLess l r;
                     if b : bool then Ret false else go (S i) len ls rs
               end
         end) 0 (length ls) ls rs
  | _, _ => Panic "cannot compare"
  end.

(** canonical.Less, the loop over the columns. *)
Fixpoint canonical_Less (a b : list value) : outcome bool :=
  match a, b with
  | x :: a, y :: b =>
      lt ← valueLess x y;
      if lt : bool then Ret true
      else
        gt ← valueLess y x;
        if gt : bool then Ret false else canonical_Less a b
  | [], _ => Ret false
  | _ :: _, [] => Panic "index out of range"
  end.

Section printing.
(** sort.Sort and sort.Slice, and the format %v. *)
Context (sort_Sort : ∀ A, (A → A → outcome bool) → list A → outcome (list A)) (format : value → string).

Fixpoint valueCanonicalize (v : value) : outcome value :=
  match v with
  | VSlice vs =>
      vs ← (fix each (vs : list value) : outcome (list value) :=
              match vs with [] => Ret [] | v :: vs => v ← valueCanonicalize v; vs ← each vs; Ret (v :: vs) end) vs;
      vs ← sort_Sort value valueLess vs;
      Ret (VSlice vs)
  | v => Ret v
  end.

Fixpoint canonicalize_row (r : list value) : outcome (list value) :=
  match r with [] => Ret [] | v :: r => v ← valueCanonicalize v; r ← canonicalize_row r; Ret (v :: r) end.

Fixpoint canonicalize_rows (rows : list (list value)) : outcome (list (list value)) :=
  match rows with [] => Ret [] | r :: rows => r ← canonicalize_row r; rows ← canonicalize_rows rows; Ret (r :: rows) end.

Definition canonicalize (rows : list (list value)) : outcome (list (list value)) :=
  rows ← canonicalize_rows rows; sort_Sort (list value) canonical_Less rows.

Definition print_row (r : list value) : string := Join " " (format <$> r).

(** Print, of the rows that were scanned. *)
Definition Print (rows : list (list value)) : outcome (list string) :=
  sorted ← canonicalize rows; Ret (List.map print_row sorted).

(** * Printing does not depend on the order of rows *)

(** What sort.Sort does with an order that does not panic. *)
Context (SORT : ∀ A (less : A → A → outcome bool) (lt : A → A → bool) (l : list A),
  StrictWeak lt → (∀ x y, x ∈ l → y ∈ l → less x y = Ret (lt x y)) →
  ∃ l', sort_Sort A less l = Ret l' ∧ l' ≡ₚ l ∧ StronglySorted (λ x y, lt y x = false) l').

(** Column types that are ordered. *)
Inductive plainType := pInt (k : kind) | pString.
Definition plain_value (t : plainType) (v : value) : Prop :=
  match t, v with
  | pInt k, VInt k' _ => k = k'
  | pString, VString _ => True
  | _, _ => False
  end.

(** The order of such values, for all values. *)
Definition value_rank (v : value) : list Z :=
  match v with VInt _ z => [0; z]%Z | VString s => 1%Z :: string_bytes s | _ => [2]%Z end.
Definition value_lt (a b : value) : bool := bytes_less (value_rank a) (value_rank b).

Fixpoint row_lt (a b : list value) : bool :=
  match a, b with
  | x :: a, y :: b => if value_lt x y then true else if value_lt y x then false else row_lt a b
  | [], _ :: _ => true
  | _, [] => false
  end.

Lemma value_lt_weak : StrictWeak value_lt.
Proof. apply (pullback_weak value_rank), bytes_less_weak. Qed.

Lemma row_lt_weak : StrictWeak row_lt.
Proof.
  pose proof value_lt_weak as Hw. split.
  - induction a as [|x a IH]; intros [|y b]; simpl; try done. destruct (value_lt x y) eqn:E1; [by rewrite (sw_asym _ _ E1)|].
    destruct (value_lt y x) eqn:E2; [done|]. apply IH.
  - induction a as [|x a IH]; intros [|y b] [|z c]; simpl; try done. destruct (value_lt y x) eqn:E1; [done|]. destruct (value_lt z y) eqn:E2; [intros _ [=]|].
    rewrite (sw_neg_trans (lt := value_lt) x y z E1 E2). destruct (value_lt x z) eqn:E3; [done|].
    rewrite (sw_neg_trans (lt := value_lt) y z x E2 E3), (sw_neg_trans (lt := value_lt) z x y E3 E1). intros. by eapply IH.
Qed.

Lemma string_bytes_inj s1 s2 : string_bytes s1 = string_bytes s2 → s1 = s2.
Proof.
  unfold string_bytes. intros Heq. rewrite <-(String.string_of_list_ascii_of_string s1), <-(String.string_of_list_ascii_of_string s2). f_equal.
  apply (list_fmap_eq_inj (λ c, Z.of_nat (Ascii.nat_of_ascii c))); [|done]. intros c1 c2 Hc%Nat2Z.inj.
  by rewrite <-(Ascii.ascii_nat_embedding c1), <-(Ascii.ascii_nat_embedding c2), Hc.
Qed.

Lemma valueLess_plain t x y : plain_value t x → plain_value t y → valueLess x y = Ret (value_lt x y).
Proof.
  destruct t, x, y; try done; intros Hx Hy; simpl.
  unfold value_lt. cbn [value_rank bytes_less]. rewrite Z.ltb_irrefl. f_equal. destruct (Z.ltb_spec z z0), (Z.ltb_spec z0 z); done || lia.
Qed.

Lemma value_lt_total t x y : plain_value t x → plain_value t y → value_lt x y = false → value_lt y x = false → x = y.
Proof.
  intros Hx Hy H1 H2. assert (value_rank x = value_rank y) as Heq by (by apply bytes_less_total).
  destruct t, x, y; try done; cbn [value_rank] in Heq; simpl in Hx, Hy; [injection Heq as ->; congruence|].
  injection Heq as Heq. f_equal. by apply string_bytes_inj.
Qed.

Definition plain_row (ts : list plainType) (r : list value) : Prop := Forall2 plain_value ts r.

Lemma canonical_Less_plain ts a b : plain_row ts a → plain_row ts b → canonical_Less a b = Ret (row_lt a b).
Proof.
  intros Ha. revert b. induction Ha as [|t x ts a Hx _ IH]; intros b Hb; inversion Hb as [|? y ? b' Hy Hb']; subst; [done|]. cbn [canonical_Less row_lt].
  rewrite !(valueLess_plain t) by done. cbn [mbind outcome_bind]. destruct (value_lt x y); [done|].
  destruct (value_lt y x); [done|]. by apply IH.
Qed.

Lemma row_lt_total ts a b : plain_row ts a → plain_row ts b → row_lt a b = false → row_lt b a = false → a = b.
Proof.
  intros Ha. revert b. induction Ha as [|t x ts a Hx _ IH]; intros b Hb; inversion Hb as [|? y ? b' Hy Hb']; subst; [done|]. cbn [row_lt].
  destruct (value_lt x y) eqn:E1; [done|]. destruct (value_lt y x) eqn:E2; [done|]. intros. f_equal; [by eapply value_lt_total|by apply IH].
Qed.

Lemma canonicalize_row_plain ts r : plain_row ts r → canonicalize_row r = Ret r.
Proof.
  induction 1 as [|t v ts r Hv _ IH]; [done|]. cbn [canonicalize_row]. rewrite IH. by destruct t, v.
Qed.

Lemma canonicalize_rows_plain ts rows : Forall (plain_row ts) rows → canonicalize_rows rows = Ret rows.
Proof.
  induction 1 as [|r rows Hr _ IH]; [done|]. cbn [canonicalize_rows]. by rewrite (canonicalize_row_plain ts r Hr), IH.
Qed.

(** Rows of integers and strings are printed in one order, whatever order they come in. *)
Theorem Print_deterministic ts rows rows' :
  Forall (plain_row ts) rows → rows ≡ₚ rows' → ∃ lines, Print rows = Ret lines ∧ Print rows' = Ret lines ∧ lines ≡ₚ print_row <$> rows.
Proof.
  intros Hrows Hp. assert (Forall (plain_row ts) rows') as Hrows' by (by rewrite <-Hp).
  assert (∀ l, Forall (plain_row ts) l → ∃ l', canonicalize l = Ret l' ∧ l' ≡ₚ l ∧ StronglySorted (λ x y, row_lt y x = false) l') as Hc.
  { intros l Hl. unfold canonicalize. rewrite (canonicalize_rows_plain ts l Hl). cbn [mbind outcome_bind]. apply SORT; [apply row_lt_weak|].
    intros x y Hx Hy. rewrite list.Forall_forall in Hl. by apply (canonical_Less_plain ts); apply Hl. }
  destruct (Hc rows Hrows) as (l1 & E1 & P1 & S1), (Hc rows' Hrows') as (l2 & E2 & P2 & S2).
  assert (l1 = l2) as <-.
  { apply (StronglySorted_unique_strong (λ x y, row_lt y x = false)); [|done|done|by rewrite P1, P2].
    intros x y Hx Hy H1 H2. rewrite list.Forall_forall in Hrows, Hrows'. eapply (row_lt_total ts); [apply Hrows; by rewrite <-P1|apply Hrows'; by rewrite <-P2|done|done]. }
  exists (print_row <$> l1). unfold Print. rewrite E1, E2. split_and!; [done..|by rewrite P1].
Qed.
End printing.

(** Slices are not ordered: one that is shorter than the other cannot be compared to it, and
    each of two slices can be less than the other. *)
Example valueLess_slices :
  valueLess (VSlice []) (VSlice [VInt KInt 1]) = Panic "reflect: slice index out of range" ∧
  valueLess (VSlice [VInt KInt 2; VInt KInt 1]) (VSlice [VInt KInt 1; VInt KInt 2]) = Ret true ∧
  valueLess (VSlice [VInt KInt 1; VInt KInt 2]) (VSlice [VInt KInt 2; VInt KInt 1]) = Ret true.
Proof. done. Qed.
